(* ===== verification/_CoqProject ===== *)
-Q . S2P
Prelude.v
Device.v
Model.v
Crc.v
Version.v
Slots.v
Cache.v
Compress.v
Memtable.v
Wal.v
Batch.v
Ring.v
Manifest.v
ManifestPool.v
ManifestEdit.v
ManifestCodec.v
KeySucc.v
ManifestLog.v
ManifestCrash.v
SstPlan.v
SstWriter.v
SstReader.v
SstBlock.v
SstImage.v
SstIndex.v
SstRdel.v
SstTable.v
SstBuild.v
Payload.v
Db.v
DbWrite.v
DbOpen.v
DbLayout.v
DbRead.v
DbFlush.v
DbFlushSafe.v
DbFlushKeeps.v
DbLife.v
Drainer.v
Scan.v
ScanPark.v
ScanMerge.v
ScanSeek.v
ScanSpec.v
ScanRev.v
ScanRevBlock.v
ScanRevPark.v
ScanRevMerge.v
ScanRevSeek.v
ScanRevSpec.v
Steps.v
CompactCursor.v
CompactRdel.v
RdelMerge.v
Compact.v
CompactCover.v
CompactKeep.v
CompactInputs.v
CompactRoom.v
CompactMerge.v
CompactSeal.v
CompactDry.v
CompactBound.v
DbCompact.v
CompactJobs.v
Archive.v
ArchiveReview.v
ArchiveSafe.v
Invariants.v
