(* ===== verification/Prelude.v ===== *)
(** * Horton: a verified model of a zero-allocation LSM-tree store

    Horton keeps a sorted map of byte strings on a block device it may lose power under.
    A write goes to the log and then to the memtable; a flush turns the memtable into an
    immutable table; compaction merges tables down the levels; the manifest names the
    live tables; reads and scans merge what all of them hold.

    ** Parts, files and correspondence

    Paths are under [src/].  A definition keeps the name of the function or type it
    translates; a loop of a function is a [Fixpoint] named after it.

    - Substrate.  [Prelude]: machine integers as [Z] with explicit wrapping and checked
      operations, byte strings and their order, slices and splices.  [Device]:
      [error.rs], [device.rs]; the block device is a class with its laws, and [MemDisk]
      an instance.  [Crc]: [crc.rs].  [Compress]: [compress.rs].  [Version]:
      [version.rs].  [Slots]: [slots.rs].  [Cache]: [cache.rs] and the cached read of
      [sstable.rs].  [Model]: the crate's own reference models, [model.rs].
    - Log and memory.  [Memtable]: [memtable.rs].  [Wal]: [wal.rs].  [Batch]: [batch.rs].
    - Many writers.  [Ring]: [ring.rs], whose atomics are steps of an interleaving
      semantics.  [Payload], [Drainer]: [drainer.rs], [writer.rs]; the drainer meets the
      ring through a class of port operations and its laws.
    - Manifest, [manifest.rs].  [Manifest]: data, edits, codec.  [ManifestPool]: the
      packed pool as levels.  [ManifestEdit]: staged edits.  [ManifestCodec]: bytes.
      [KeySucc]: successors of bounds.  [ManifestLog], [ManifestCrash]: commit, recovery.
    - Tables, [sstable.rs].  [SstPlan]: sizes and plans.  [SstWriter], [SstReader]:
      writing and reading.  [SstBlock], [SstImage], [SstIndex], [SstRdel], [SstTable],
      [SstBuild]: what data blocks, sealed images, the index, the range-tombstone
      section, a whole table and a table just written hold.
    - Database, [db/].  [Db], [DbWrite], [DbOpen], [DbLayout]: [db/mod.rs] and the
      compaction triggers of [db/compaction.rs].  [DbRead]: [db/read.rs].  [DbFlush],
      [DbFlushSafe], [DbFlushKeeps]: [db/flush.rs].  [DbLife]: lives of a handle.
    - Forward scans, [scan.rs].  [Scan]: the code.  [ScanPark]: one cursor.
      [ScanMerge]: the merge.  [ScanSeek]: seeking.  [ScanSpec]: what a scan lists.
    - Reverse scans, [scan.rs].  [ScanRev]: the code.  [ScanRevBlock]: the search of a
      block for the greatest entry below a bound.  [ScanRevPark]: one cursor.
      [ScanRevMerge]: the merge.  [ScanRevSeek]: seeking.  [ScanRevSpec]: what a reverse
      scan lists.
    - Compaction, [compact.rs] and [db/compaction.rs].  [Steps]: the state and error
      monad its long-lived scratch is threaded through.  [CompactCursor]: an input's
      cursor.  [CompactRdel], [RdelMerge]: the merge of the range-tombstone sections, and
      that it keeps every deletion.  [Compact]: the merge step.  [CompactCover]: the
      coverage stream.  [CompactKeep]: why the kept versions are enough.
      [CompactInputs], [CompactRoom]: the inputs, and room in the output.
      [CompactMerge]: one step.  [CompactSeal]: an output's range tombstones, and reads.
      [CompactDry], [CompactBound]: the dry run, and that it bounds every output.
      [DbCompact]: jobs, from selecting one to its last commit.  [CompactJobs]: who owns
      a job, and that none leaks.
    - Archive.  [Archive]: [db/archive.rs] with [relocate_table] of [sstable.rs], and the
      self-check [db/invariants.rs].  [ArchiveReview]: what the review of a table's
      tombstones finds.  [ArchiveSafe]: that archiving brings no deleted key back.
      [Invariants]: what the self-check accepts.

    ** What the theorems show

    - Codecs are exact: block compression, ring payloads, manifest bodies, log records,
      tables and range-tombstone sections read back what was written; the decompressor
      succeeds on exactly the streams of its format, and single bursts of corruption in a
      log record are refused.
    - Each store keeps its contract: the memtable is the sorted log of the accepted
      mutations, the cache is transparent, the slots follow the abstract allocator call by
      call (so a slot in use is never handed out), the pool refines levels with each
      error in exactly its cases, snapshots refine a bag.
    - Failures are contained: a torn log write replays whole groups only; a manifest
      commit is atomic and can be retried; acknowledged writes survive a crash, given
      that what failed writes left behind the log is no newer group (one successful write
      after the last failure is enough) and that the memtable holds the log; a failed
      call reports what it did; recovery returns on any content.
    - Concurrency: in every paced interleaving of the ring, tickets are drained once, in order,
      with their owners' payloads; a watermark the drainer returns names durable
      mutations; a stalled writer is fenced.
    - The database refines its specification: after an open and any writes, flushes,
      reads and snapshots, with device failures, a read returns what [model.rs] says of
      the history, and a scan, forward or reverse, lists exactly the keys and values
      those reads show.
    - Compaction is invisible: a merge step always returns, writes only into its output
      and pops the versions in order; the merged range tombstones cover what the inputs'
      did; a key reads the same from the outputs as from the inputs, live and at every
      snapshot; the blocks the dry run sets aside are enough for any output; a step ends
      with a job handle and scratch agree on or with none, and leaks no slot.
    - Archiving is safe: a table leaves only when every deleted key still reads as
      absent without it, in the live view and at every snapshot.  The self-check passes
      exactly when the documented invariants hold.

    ** Bounds and fuel

    Loops that are not structural take fuel, and the theorems that mention them prove a
    result, so the fuel is enough: [BLOCK] turns for the passes over a log block, the
    blocks left plus one for recovery, [2 * slots + 1] for the clock hand of the cache,
    [want + left + 1] for the manifest's block source, the window length for the table
    readers, [LEVELS + 1] for the settling loop, [MAX_WRITES] turns for a drain, the
    blocks of a table plus one and the bytes of a block plus one for parking a cursor,
    and one more than the entries of all sources for a call of [next] or [prev]; in compaction, the
    entries and blocks the inputs have left, plus one or two.  [None] is a panic
    of the source (an index out of range or a failed assertion) or fuel run out.  Block
    counts and buffer offsets are [nat]; sequence numbers, ids and block numbers are [Z]
    within their width, checked where the source checks and wrapped where it wraps.

    ** Assumptions

    Each is a named class or hypothesis with a concrete instance in a witness:
    [DeviceLaws] (a successful write is read back and touches no other block), torn
    writes that land a prefix (log) or leave the old block, the new one or one whose
    checksum fails ([TornWrites], manifest), sequentially consistent atomics and paced
    executions for the ring (no claimer sleeps through [2^31] tickets, the drainer is
    less than [2^30 - N] behind), a ring port that meets its laws, a stall budget below
    [u32::MAX], and versions that the merge rule ranks (one node, or clocks that agree
    with the sequence numbers; [version_gt] has cycles otherwise).  Tables need
    [49 <= BLOCK <= 65536], a database [512 <= BLOCK].  Futures are run to completion:
    a call is one step except where the ring interleaves.

    ** Not modelled

    The flash and board drivers, which are register access; [Display] of errors;
    constants, macros and re-exports; the example programs; the loss of writes that were
    not flushed (a crash is the blocks as the device reads them); weak memory.
    [debug_assert]s are left out, as in a release build.  Stamping and ingesting with its
    relocation are executable definitions only.  The theorems on compaction are about the merge of one output whose
    inputs rank by sequence number, and on the ownership of jobs; which tables a job
    takes and how a commit settles them are executable definitions only. *)

From stdpp Require Import base numbers list.
From Stdlib Require Import ZArith Lia Sorting.Sorted.

(** ** Machine integers

    A [w]-bit unsigned integer is a [Z]; the operations that wrap do so
    explicitly through [wrap].  The abbreviations only document the width the
    source gives a value. *)

Abbreviation u8 := Z (only parsing).
Abbreviation u16 := Z (only parsing).
Abbreviation u32 := Z (only parsing).
Abbreviation u64 := Z (only parsing).
Abbreviation bytes := (list Z) (only parsing).

Declare Scope horton_scope.
Delimit Scope horton_scope with horton.
Open Scope horton_scope.

Definition wrap (w : Z) (z : Z) : Z := (z mod 2 ^ w)%Z.

Definition fits (w : Z) (z : Z) : Prop := (0 <= z < 2 ^ w)%Z.

Definition U16_MAX : u16 := 65535%Z.
Definition U32_MAX : u32 := 4294967295%Z.
Definition U64_MAX : u64 := 18446744073709551615%Z.

(** [u16::try_from(usize)] and [u32::try_from(usize)] *)
Definition try_u16 (n : nat) : option u16 :=
  if (Z.of_nat n <=? U16_MAX)%Z then Some (Z.of_nat n) else None.
Definition try_u32 (n : nat) : option u32 :=
  if (Z.of_nat n <=? U32_MAX)%Z then Some (Z.of_nat n) else None.

(** [u64::count_ones] *)
Definition count_ones (x : u64) : Z :=
  Z.of_nat (length (List.filter (fun i => Z.testbit x (Z.of_nat i)) (seq 0 64))).

#[export] Instance fits_dec w z : Decision (fits w z).
Proof. unfold fits. apply _. Defined.

(** Every element of a byte string is a byte. *)
Definition bytes_ok (l : bytes) : Prop := Forall (fits 8) l.

#[export] Instance bytes_ok_dec l : Decision (bytes_ok l).
Proof. unfold bytes_ok. apply _. Defined.

(** ** Slices

    [sub off n l] is [&l[off..off + n]]; [splice off s l] is
    [l[off..off + s.len()].copy_from_slice(s)].  Both are total here; each
    component proves that the offsets it uses are in range. *)

Definition sub {A} (off n : nat) (l : list A) : list A := take n (drop off l).

Definition splice {A} (off : nat) (s l : list A) : list A :=
  take off l ++ s ++ drop (off + length s) l.

Notation "l .[ off , n ]" := (sub off n l)
  (at level 1, left associativity, format "l .[ off ,  n ]") : horton_scope.

(** ** Little-endian integers *)

Fixpoint to_le (n : nat) (z : Z) : bytes :=
  match n with
  | O => []
  | S n => (z mod 256)%Z :: to_le n (z / 256)%Z
  end.

Fixpoint from_le (l : bytes) : Z :=
  match l with
  | [] => 0%Z
  | b :: l => (b + 256 * from_le l)%Z
  end.

(** ** Unsigned lexicographic byte order: [<[u8] as Ord>::cmp] *)

Fixpoint bytes_cmp (a b : bytes) : comparison :=
  match a, b with
  | [], [] => Eq
  | [], _ :: _ => Lt
  | _ :: _, [] => Gt
  | x :: a, y :: b =>
      match Z.compare x y with
      | Eq => bytes_cmp a b
      | c => c
      end
  end.

Definition bytes_ltb (a b : bytes) : bool :=
  match bytes_cmp a b with Lt => true | _ => false end.
Definition bytes_leb (a b : bytes) : bool :=
  match bytes_cmp a b with Gt => false | _ => true end.
Definition bytes_eqb (a b : bytes) : bool :=
  match bytes_cmp a b with Eq => true | _ => false end.

(** ** Automation *)

Create HintDb horton discriminated.
#[export] Hint Constants Opaque : horton.

(** Case analysis on the first boolean test or match of the goal. *)
Ltac cases_goal :=
  repeat match goal with
  | |- context [if ?b then _ else _] =>
      lazymatch type of b with
      | bool => destruct b eqn:?
      | _ => destruct b
      end
  end.

(** Turn boolean comparisons into propositions, then [lia]. *)
Ltac bool_lia :=
  repeat match goal with
  | H : _ && _ = true |- _ => apply andb_true_iff in H as [??]
  | H : _ || _ = false |- _ => apply orb_false_iff in H as [??]
  | H : negb _ = true |- _ => apply negb_true_iff in H
  | H : negb _ = false |- _ => apply negb_false_iff in H
  | H : (_ =? _)%Z = true |- _ => apply Z.eqb_eq in H
  | H : (_ =? _)%Z = false |- _ => apply Z.eqb_neq in H
  | H : (_ <? _)%Z = true |- _ => apply Z.ltb_lt in H
  | H : (_ <? _)%Z = false |- _ => apply Z.ltb_ge in H
  | H : (_ <=? _)%Z = true |- _ => apply Z.leb_le in H
  | H : (_ <=? _)%Z = false |- _ => apply Z.leb_gt in H
  | H : (_ =? _)%nat = true |- _ => apply Nat.eqb_eq in H
  | H : (_ =? _)%nat = false |- _ => apply Nat.eqb_neq in H
  | H : (_ <? _)%nat = true |- _ => apply Nat.ltb_lt in H
  | H : (_ <? _)%nat = false |- _ => apply Nat.ltb_ge in H
  | H : (_ <=? _)%nat = true |- _ => apply Nat.leb_le in H
  | H : (_ <=? _)%nat = false |- _ => apply Nat.leb_gt in H
  end; try lia.

(** Decide a closed decidable proposition by evaluation. *)
Ltac by_compute := refine (bool_decide_unpack _ _); vm_compute; exact I.

(** ** Lemmas on conversions *)

Lemma try_u16_le n : (Z.of_nat n <= U16_MAX)%Z -> try_u16 n = Some (Z.of_nat n).
Proof. intros. unfold try_u16. by rewrite (proj2 (Z.leb_le _ _)). Qed.

Lemma try_u32_le n : (Z.of_nat n <= U32_MAX)%Z -> try_u32 n = Some (Z.of_nat n).
Proof. intros. unfold try_u32. by rewrite (proj2 (Z.leb_le _ _)). Qed.

(** ** Lemmas on slices *)

Lemma length_sub {A} off n (l : list A) :
  off + n <= length l -> length (sub off n l) = n.
Proof. intros. unfold sub. rewrite length_take, length_drop. lia. Qed.

Lemma length_splice {A} off (s l : list A) :
  off + length s <= length l -> length (splice off s l) = length l.
Proof.
  intros. unfold splice. rewrite !length_app, length_take, length_drop. lia.
Qed.

Lemma sub_splice_same {A} off (s l : list A) :
  off + length s <= length l -> sub off (length s) (splice off s l) = s.
Proof.
  intros. unfold sub, splice.
  rewrite drop_app_length' by (rewrite length_take; lia).
  apply take_app_length.
Qed.

(** A write at [off] leaves every slice that ends at or before it. *)
Lemma sub_splice_before {A} off o n (s l : list A) :
  o + n <= off -> off <= length l -> sub o n (splice off s l) = sub o n l.
Proof.
  intros. unfold sub, splice. rewrite !take_drop_commute. f_equal.
  rewrite take_app_le by (rewrite length_take; lia).
  rewrite take_take. f_equal. lia.
Qed.

Lemma length_sub_min {A} off n (l : list A) : length (sub off n l) = n `min` (length l - off).
Proof. unfold sub. by rewrite length_take, length_drop. Qed.

Lemma sub_app_l {A} lo k (P b : list A) : k <= length P - lo -> sub lo k (P ++ b) = sub lo k P.
Proof.
  intros. unfold sub. destruct k as [|k]; [done |].
  rewrite drop_app_le by lia. apply take_app_le. rewrite length_drop. lia.
Qed.

Lemma sub_split {A} lo k j (P : list A) : sub lo (k + j) P = sub lo k P ++ sub (lo + k) j P.
Proof. unfold sub. rewrite <- drop_drop. symmetry. apply take_take_drop. Qed.

(** The middle of three pieces. *)
Lemma sub_mid {A} off n (a x b : list A) :
  off = length a -> n = length x -> sub off n (a ++ x ++ b) = x.
Proof. intros -> ->. unfold sub. rewrite drop_app_length. apply take_app_length. Qed.

Lemma sub_front {A} n (x b : list A) : n = length x -> sub 0 n (x ++ b) = x.
Proof. apply (sub_mid 0 n []). done. Qed.

Lemma sub_skip {A} o off n (a l : list A) :
  off = length a + o -> sub off n (a ++ l) = sub o n l.
Proof.
  intros ->. unfold sub. rewrite drop_app_ge by lia. do 2 f_equal. lia.
Qed.

Lemma splice_mid {A} off (a x b s : list A) :
  off = length a -> length s = length x -> splice off s (a ++ x ++ b) = a ++ s ++ b.
Proof.
  intros -> E. unfold splice. rewrite take_app_length, E. do 2 f_equal.
  rewrite app_assoc. apply drop_app_length'. by rewrite length_app.
Qed.

Lemma splice_front {A} (x b s : list A) :
  length s = length x -> splice 0 s (x ++ b) = s ++ b.
Proof. apply (splice_mid 0 []). done. Qed.

(** Unfolding a fold by rewriting keeps the folded function abstract. *)
Lemma fold_left_cons {A B} (f : A -> B -> A) b l a :
  fold_left f (b :: l) a = fold_left f l (f a b).
Proof. reflexivity. Qed.

(** ** Lemmas on little-endian integers *)

Lemma StronglySorted_lookup {A} (R : A -> A -> Prop) l i j a b :
  StronglySorted R l -> (i < j)%nat -> l !! i = Some a -> l !! j = Some b -> R a b.
Proof.
  intros Hs. revert i j. induction Hs as [|x l Hs IH Hx]; intros i j Hij Hi Hj; [done |].
  destruct j as [|j]; [lia |]. simpl in Hj. destruct i as [|i]; simpl in Hi.
  - injection Hi as <-. rewrite Forall_forall in Hx. apply Hx, list_elem_of_lookup. eauto.
  - apply (IH i j); auto. lia.
Qed.

Lemma length_to_le n z : length (to_le n z) = n.
Proof. revert z. induction n; intros; simpl; auto. Qed.

Lemma to_le_ok n z : bytes_ok (to_le n z).
Proof.
  revert z. induction n; intros; simpl; [constructor |].
  constructor; [| apply IHn]. unfold fits. apply Z.mod_pos_bound. lia.
Qed.

Lemma pow8_succ n : (2 ^ (8 * Z.of_nat (S n)) = 256 * 2 ^ (8 * Z.of_nat n))%Z.
Proof.
  replace (8 * Z.of_nat (S n))%Z with (8 + 8 * Z.of_nat n)%Z by lia.
  rewrite Z.pow_add_r by lia. reflexivity.
Qed.

Lemma from_to_le n z :
  (0 <= z < 2 ^ (8 * Z.of_nat n))%Z -> from_le (to_le n z) = z.
Proof.
  revert z. induction n as [|n IH]; intros z Hz; [simpl in *; lia |].
  rewrite pow8_succ in Hz. cbn [to_le from_le]. rewrite IH.
  - pose proof (Z.div_mod z 256). lia.
  - split; [apply Z.div_pos; lia | apply Z.div_lt_upper_bound; lia].
Qed.

Lemma to_from_le l : bytes_ok l -> to_le (length l) (from_le l) = l.
Proof.
  induction 1 as [|b l Hb Hl IH]; [reflexivity |]. simpl. unfold fits in Hb.
  change (2 ^ 8)%Z with 256%Z in Hb.
  rewrite (Z.mul_comm 256), Z.mod_add, Z.mod_small by lia.
  rewrite Z.div_add, Z.div_small, Z.add_0_l by lia. congruence.
Qed.

Lemma from_le_bound l :
  bytes_ok l -> (0 <= from_le l < 2 ^ (8 * Z.of_nat (length l)))%Z.
Proof.
  induction 1 as [|b l Hb Hl IH]; [simpl; lia |].
  cbn [length]. rewrite pow8_succ. cbn [from_le]. unfold fits in Hb. lia.
Qed.

Lemma from_le_inj a b :
  bytes_ok a -> bytes_ok b -> length a = length b -> from_le a = from_le b -> a = b.
Proof.
  intros Ha Hb Hl E. rewrite <- (to_from_le a), <- (to_from_le b) by done.
  congruence.
Qed.

(** [b | x << 8] for a byte [b]. *)
Lemma lor_byte b x : fits 8 b -> (Z.lor b (Z.shiftl x 8) = b + 256 * x)%Z.
Proof.
  intros Hb. unfold fits in Hb. rewrite Z.shiftl_mul_pow2 by lia. change (2 ^ 8)%Z with 256%Z in *.
  pose proof (Z.add_lor_land b (x * 256)) as H. assert (Z.land b (x * 256) = 0)%Z as H0; [| lia].
  apply Z.bits_inj'. intros n Hn. rewrite Z.land_spec, Z.bits_0.
  change 256%Z with (2 ^ 8)%Z. rewrite Z.mul_pow2_bits by lia.
  destruct (decide (n < 8)%Z).
  - rewrite (Z.testbit_neg_r x) by lia. apply andb_false_r.
  - rewrite <- (Z.mod_small b (2 ^ 8)) by lia. by rewrite Z.mod_pow2_bits_high by lia.
Qed.

Lemma bytes_ok_app a b : bytes_ok (a ++ b) <-> bytes_ok a /\ bytes_ok b.
Proof. apply Forall_app. Qed.

Lemma bytes_ok_sub off n l : bytes_ok l -> bytes_ok (sub off n l).
Proof. intros. apply Forall_take, Forall_drop. done. Qed.

Lemma bytes_ok_replicate n : bytes_ok (replicate n 0%Z).
Proof. apply Forall_replicate. unfold fits. lia. Qed.

#[export] Hint Resolve to_le_ok bytes_ok_sub bytes_ok_replicate : horton.

(** ** Lemmas on the byte order: a strict total order *)

Lemma bytes_cmp_eq a b : bytes_cmp a b = Eq <-> a = b.
Proof.
  revert b. induction a as [|x a IH]; intros [|y b]; simpl; try (split; congruence).
  destruct (Z.compare_spec x y); [subst; rewrite IH; split; congruence | |];
    split; intros E; try discriminate; injection E; lia.
Qed.

Lemma bytes_cmp_refl a : bytes_cmp a a = Eq.
Proof. by apply bytes_cmp_eq. Qed.

Lemma bytes_cmp_antisym a b : bytes_cmp b a = CompOpp (bytes_cmp a b).
Proof.
  revert b. induction a as [|x a IH]; intros [|y b]; simpl; try reflexivity.
  rewrite Z.compare_antisym. destruct (Z.compare x y); simpl; auto.
Qed.

Lemma bytes_cmp_lt_trans a b c :
  bytes_cmp a b = Lt -> bytes_cmp b c = Lt -> bytes_cmp a c = Lt.
Proof.
  revert b c. induction a as [|x a IH]; intros [|y b] [|z c]; simpl; try congruence.
  destruct (Z.compare_spec x y), (Z.compare_spec y z); intros; try discriminate;
    subst; try (destruct (Z.compare_spec x z); try lia; eauto; fail);
    try (destruct (Z.compare_spec y z); try lia; eauto; fail).
  rewrite Z.compare_refl. eauto.
Qed.

Definition bytes_lt (a b : bytes) : Prop := bytes_cmp a b = Lt.
Definition bytes_le (a b : bytes) : Prop := bytes_cmp a b <> Gt.

#[export] Instance bytes_lt_dec a b : Decision (bytes_lt a b).
Proof. unfold bytes_lt. apply _. Defined.

#[export] Instance bytes_lt_strict : StrictOrder bytes_lt.
Proof.
  split.
  - intros a. unfold complement, bytes_lt. rewrite bytes_cmp_refl. discriminate.
  - intros a b c. apply bytes_cmp_lt_trans.
Qed.

Lemma bytes_ltb_spec a b : bytes_ltb a b = true <-> bytes_lt a b.
Proof. unfold bytes_ltb, bytes_lt. destruct (bytes_cmp a b); split; congruence. Qed.

Lemma bytes_eqb_spec a b : bytes_eqb a b = true <-> a = b.
Proof.
  unfold bytes_eqb. rewrite <- bytes_cmp_eq. destruct (bytes_cmp a b); split; congruence.
Qed.

Lemma bytes_eqb_refl a : bytes_eqb a a = true.
Proof. by apply bytes_eqb_spec. Qed.

Lemma bytes_le_lteq a b : bytes_le a b <-> bytes_lt a b \/ a = b.
Proof.
  unfold bytes_le, bytes_lt. rewrite <- bytes_cmp_eq.
  destruct (bytes_cmp a b); intuition congruence.
Qed.

Lemma bytes_leb_spec a b : bytes_leb a b = true <-> bytes_le a b.
Proof. unfold bytes_leb, bytes_le. destruct (bytes_cmp a b); split; congruence. Qed.

Lemma bytes_lt_trichotomy a b : bytes_lt a b \/ a = b \/ bytes_lt b a.
Proof.
  unfold bytes_lt. rewrite (bytes_cmp_antisym a b), <- bytes_cmp_eq.
  destruct (bytes_cmp a b); auto.
Qed.

Lemma bytes_not_lt a b : ~ bytes_lt a b <-> bytes_le b a.
Proof.
  unfold bytes_lt, bytes_le. rewrite (bytes_cmp_antisym a b).
  destruct (bytes_cmp a b); simpl; split; congruence.
Qed.

Lemma bytes_le_lt_trans a b c : bytes_le a b -> bytes_lt b c -> bytes_lt a c.
Proof. rewrite bytes_le_lteq. intros [? | ->]; [by etrans | done]. Qed.

Lemma bytes_lt_le_trans a b c : bytes_lt a b -> bytes_le b c -> bytes_lt a c.
Proof. rewrite bytes_le_lteq. intros ? [? | <-]; [by etrans | done]. Qed.

Lemma bytes_le_trans a b c : bytes_le a b -> bytes_le b c -> bytes_le a c.
Proof.
  rewrite !bytes_le_lteq. intros [? | ->]; [|done].
  intros [? | <-]; left; [by etrans | done].
Qed.

Lemma bytes_le_refl a : bytes_le a a.
Proof. unfold bytes_le. rewrite bytes_cmp_refl. discriminate. Qed.

#[export] Instance bytes_le_preorder : PreOrder bytes_le.
Proof. split; [exact bytes_le_refl | exact bytes_le_trans]. Qed.

Lemma bytes_lt_le a b : bytes_lt a b -> bytes_le a b.
Proof. rewrite bytes_le_lteq. auto. Qed.

Lemma bytes_ltb_ge a b : bytes_ltb a b = false <-> bytes_le b a.
Proof. rewrite <- bytes_not_lt, <- bytes_ltb_spec. destruct (bytes_ltb a b); split; congruence. Qed.

Lemma bytes_leb_gt a b : bytes_leb a b = false <-> bytes_lt b a.
Proof. rewrite <- (bytes_ltb_spec b a). unfold bytes_leb, bytes_ltb.
  rewrite (bytes_cmp_antisym a b). by destruct (bytes_cmp a b).
Qed.

Lemma bytes_le_antisym a b : bytes_le a b -> bytes_le b a -> a = b.
Proof.
  rewrite bytes_le_lteq. intros [H1 | ->] H2; [| done]. exfalso.
  by apply (irreflexivity bytes_lt a), (bytes_lt_le_trans a b a).
Qed.

#[export] Hint Resolve bytes_le_refl : horton.

(** ** [slice::binary_search_by]

    The standard library's loop over a slice of length [n], probed through the
    comparison [f] of an element with the target.  [inl i] is [Ok(i)], [inr i] is
    [Err(i)].  The window halves, so [n] steps are enough. *)

Fixpoint bsearch_loop (f : nat -> comparison) (fuel base size : nat) : nat :=
  match fuel with
  | O => base
  | S fuel =>
      if size <=? 1 then base
      else
        let half := size / 2 in
        let mid := base + half in
        let base := match f mid with Gt => base | _ => mid end in
        bsearch_loop f fuel base (size - half)
  end.

Definition binary_search_by (f : nat -> comparison) (n : nat) : nat + nat :=
  if n =? 0 then inr 0
  else
    let base := bsearch_loop f n 0 n in
    match f base with
    | Eq => inl base
    | Lt => inr (base + 1)
    | Gt => inr base
    end.

(** [f] is the comparison of a sorted slice: never back below. *)
Definition monotone_cmp (f : nat -> comparison) (n : nat) : Prop :=
  forall i j, i < j -> j < n ->
    (f j = Lt -> f i = Lt) /\ (f i = Gt -> f j = Gt).

Lemma bsearch_loop_spec f n fuel base size :
  monotone_cmp f n -> 0 < size -> base + size <= n -> size <= fuel ->
  (forall i, base + size <= i -> i < n -> f i = Gt) ->
  (0 < base -> f base <> Gt) ->
  let r := bsearch_loop f fuel base size in
  r < n /\ (forall i, r < i -> i < n -> f i = Gt) /\ (0 < r -> f r <> Gt).
Proof.
  intros Hm. revert base size. induction fuel as [|fuel IH]; intros base size Hs Hn Hf Hhi Hlo;
    [lia |]. cbn [bsearch_loop]. destruct (size <=? 1) eqn:E; bool_lia.
  - split; [lia |]. split; [| done]. intros i Hi Hin. apply Hhi; lia.
  - assert (0 < size / 2 < size) as Hhalf
      by (split; [apply Nat.div_str_pos; lia | apply Nat.div_lt; lia]).
    pose proof (Nat.Div0.mul_div_le size 2).
    destruct (f (base + size / 2)) eqn:Ef; apply IH; try lia; auto; intros; try congruence;
      try (apply Hhi; lia).
    destruct (decide (i = base + size / 2)) as [-> |]; [done |].
    apply (Hm (base + size / 2) i); [lia | lia | done].
Qed.

(** On a sorted slice the search finds a match or the insertion point. *)
Lemma binary_search_spec f n :
  monotone_cmp f n ->
  match binary_search_by f n with
  | inl i => i < n /\ f i = Eq
  | inr i => i <= n /\ (forall j, j < i -> f j = Lt) /\ (forall j, i <= j -> j < n -> f j = Gt)
  end.
Proof.
  intros Hm. unfold binary_search_by. destruct (n =? 0) eqn:E; bool_lia.
  { split; [lia |]. split; intros; lia. }
  destruct (bsearch_loop_spec f n n 0 n Hm) as (Hr & Hhi & Hlo); try (intros; lia).
  set (r := bsearch_loop f n 0 n) in *.
  assert (forall i, i < r -> f r <> Gt -> f r <> Eq -> f i = Lt) as Hbelow.
  { intros i Hi H1 H2. apply (Hm i r); auto. by destruct (f r). }
  destruct (f r) eqn:Er; [done | |].
  - split; [lia |]. split.
    + intros j Hj. destruct (decide (j = r)) as [-> |]; [done | apply Hbelow; (lia || congruence)].
    + intros j Hj Hjn. apply Hhi; lia.
  - assert (r = 0) by (destruct (decide (r = 0)); [done | exfalso; apply Hlo; [lia | done]]).
    split; [lia |]. split; [intros; lia |].
    intros j Hj Hjn. destruct (decide (j = r)) as [-> |]; [done | apply Hhi; lia].
Qed.
