(* ===== verification/Device.v ===== *)
(** * Errors and the block device: [src/error.rs], [src/device.rs]

    The crate-wide error enum, the result type with the [?] operator, and the
    [BlockDevice] trait as a type class.  A poll-based call driven to completion
    is one call here.  [DeviceLaws] states what the store relies on of an
    implementation; [MemDisk] is a concrete one, so the laws are satisfiable. *)

From stdpp Require Import base numbers list gmap.
From Stdlib Require Import ZArith Lia.
From S2P Require Import Prelude.

(** ** Errors *)

Inductive Error (E : Type) :=
| KeyTooLarge (len max : nat)
| ValueTooLarge (len max : nat)
| EmptyKey
| TableFull
| ArenaFull
| BufferTooSmall (need : nat)
| BadBufferLen
| CorruptBlock (id : u64)
| CorruptWal (offset : u64)
| CorruptManifest
| WalFull
| NeedsCompaction
| RegionFull
| SnapshotLimit
| ManifestFull
| TableTooLarge
| CounterExhausted
| BadLevel (level : nat)
| BatchFull
| BatchTooLarge (bytes max : nat)
| WouldResurrect (table_id : u32)
| IngestConflict (table_id : u32)
| StampConflict (table_id : u32)
| BadConfig
| Busy
| NotOpen
| RingFull
| BadPayload
| Device (e : E).

Arguments KeyTooLarge {E}. Arguments ValueTooLarge {E}. Arguments EmptyKey {E}.
Arguments TableFull {E}. Arguments ArenaFull {E}. Arguments BufferTooSmall {E}.
Arguments BadBufferLen {E}. Arguments CorruptBlock {E}. Arguments CorruptWal {E}.
Arguments CorruptManifest {E}. Arguments WalFull {E}. Arguments NeedsCompaction {E}.
Arguments RegionFull {E}. Arguments SnapshotLimit {E}. Arguments ManifestFull {E}.
Arguments TableTooLarge {E}. Arguments CounterExhausted {E}. Arguments BadLevel {E}.
Arguments BatchFull {E}. Arguments BatchTooLarge {E}. Arguments WouldResurrect {E}.
Arguments IngestConflict {E}. Arguments StampConflict {E}. Arguments BadConfig {E}.
Arguments Busy {E}. Arguments NotOpen {E}. Arguments RingFull {E}.
Arguments BadPayload {E}. Arguments Device {E}.

(** [Error<Infallible>::widen] *)
Definition widen {E : Type} (e : Error Empty_set) : Error E :=
  match e with
  | KeyTooLarge len max => KeyTooLarge len max
  | ValueTooLarge len max => ValueTooLarge len max
  | EmptyKey => EmptyKey
  | TableFull => TableFull
  | ArenaFull => ArenaFull
  | BufferTooSmall need => BufferTooSmall need
  | BadBufferLen => BadBufferLen
  | CorruptBlock id => CorruptBlock id
  | CorruptWal offset => CorruptWal offset
  | CorruptManifest => CorruptManifest
  | WalFull => WalFull
  | NeedsCompaction => NeedsCompaction
  | RegionFull => RegionFull
  | SnapshotLimit => SnapshotLimit
  | ManifestFull => ManifestFull
  | TableTooLarge => TableTooLarge
  | CounterExhausted => CounterExhausted
  | BadLevel level => BadLevel level
  | BatchFull => BatchFull
  | BatchTooLarge bytes max => BatchTooLarge bytes max
  | WouldResurrect t => WouldResurrect t
  | IngestConflict t => IngestConflict t
  | StampConflict t => StampConflict t
  | BadConfig => BadConfig
  | Busy => Busy
  | NotOpen => NotOpen
  | RingFull => RingFull
  | BadPayload => BadPayload
  | Device e => match e with end
  end.

(** ** Results and the [?] operator *)

Inductive result (A E : Type) := Ok (a : A) | Err (e : E).
Arguments Ok {A E}. Arguments Err {A E}.

Notation "'let?' x := e 'in' k" :=
  (match e with Ok x => k | Err err => Err err end)
  (at level 10, x pattern, e at level 200, k at level 200) : horton_scope.

Definition map_err {A E F} (f : E -> F) (r : result A E) : result A F :=
  match r with Ok a => Ok a | Err e => Err (f e) end.

Definition is_ok {A E} (r : result A E) : bool :=
  match r with Ok _ => true | Err _ => false end.

(** ** The [BlockDevice] trait *)

Class BlockDevice (D E : Type) := {
  BLOCK : nat;
  read_block : D -> u64 -> result bytes E;
  write_block : D -> u64 -> bytes -> D * result unit E;
  dev_flush : D -> D * result unit E;
}.

(** What the store relies on: blocks have the declared size, a successful write
    is read back, a write (successful or torn) touches no other block, and a
    flush changes no content. *)
Class DeviceLaws (D E : Type) `{BlockDevice D E} := {
  read_len d id b : read_block d id = Ok b -> length b = BLOCK /\ bytes_ok b;
  read_written d d' id b :
    length b = BLOCK -> bytes_ok b ->
    write_block d id b = (d', Ok tt) -> read_block d' id = Ok b;
  read_unwritten d d' id id' b r :
    write_block d id b = (d', r) -> id <> id' -> read_block d' id' = read_block d id';
  read_flushed d d' id r :
    dev_flush d = (d', r) -> read_block d' id = read_block d id;
}.

(** ** A concrete device: blocks in memory, no failures *)

Module MemDisk.
Definition disk : Type := gmap Z (list Z).

Section disk.
  (** The block size. *)
  Variable n : nat.

Definition zero_block : bytes := replicate n 0%Z.

Definition read (d : disk) (id : u64) : result bytes Empty_set :=
  match d !! id with
  | Some b => if bool_decide (length b = n /\ bytes_ok b) then Ok b else Ok zero_block
  | None => Ok zero_block
  end.

Definition write (d : disk) (id : u64) (b : bytes) : disk * result unit Empty_set :=
  (<[id := b]> d, Ok tt).

Definition device : BlockDevice disk Empty_set := {|
  BLOCK := n;
  read_block := read;
  write_block := write;
  dev_flush d := (d, Ok tt);
|}.

Lemma zero_block_ok : length zero_block = n /\ bytes_ok zero_block.
Proof.
  split; [apply length_replicate |]. apply Forall_replicate. unfold fits. lia.
Qed.

Lemma laws : @DeviceLaws disk Empty_set device.
Proof.
  split; cbn [BLOCK read_block write_block dev_flush device].
  - intros d id b. unfold read. destruct (d !! id) as [b'|].
    + case_bool_decide as Hb; intros [= <-]; [done | apply zero_block_ok].
    + intros [= <-]. apply zero_block_ok.
  - unfold read, write. intros d d' id b Hl Hb [= <-]. unfold disk.
    rewrite lookup_insert_eq. by rewrite bool_decide_eq_true_2.
  - unfold read, write, disk. intros d d' id id' b r [= <- <-] Hne.
    by rewrite lookup_insert_ne.
  - by intros d d' id r [= <- <-].
Qed.
End disk.
End MemDisk.
