(* ===== verification/Model.v ===== *)
(** * The reference models: [src/model.rs]

    The pure functions the crate states its invariants with: which version a read
    observes, which versions a compaction must keep, when a range tombstone or an
    expiry hides a value, and the slot accounting of a tight compaction.  The
    theorems are the properties the crate's own tests sample. *)

From stdpp Require Import base numbers list sorting.
From Stdlib Require Import ZArith Lia Sorting.Sorted.
From S2P Require Import Prelude.

(** ** The code *)

(** [struct Version] of [model.rs] *)
Record MVersion := mkMV { mv_seq : u64; mv_tombstone : bool }.

Definition MODEL_MAX_SNAPSHOTS : nat := 8.

Definition model_visible (mutation_seq snapshot : u64) : bool := (mutation_seq <=? snapshot)%Z.

Definition model_may_drop_tombstone (tomb_seq : u64) (bottommost : bool) (oldest_snapshot : u64) : bool :=
  bottommost && (tomb_seq <? oldest_snapshot)%Z.

(** [versions[b].seq] *)
Definition seq_at (versions : list MVersion) (b : nat) : u64 :=
  match versions !! b with Some v => mv_seq v | None => 0%Z end.

Fixpoint winner_loop (versions rest : list MVersion) (i : nat) (max_seq : u64) (best : option nat) : option nat :=
  match rest with
  | [] => best
  | v :: rest =>
      if (max_seq <? mv_seq v)%Z then winner_loop versions rest (i + 1) max_seq best
      else
        let better := match best with None => true | Some b => (seq_at versions b <? mv_seq v)%Z end in
        winner_loop versions rest (i + 1) max_seq (if better then Some i else best)
  end.

Definition model_winner (versions : list MVersion) (max_seq : u64) : option nat :=
  winner_loop versions versions 0 max_seq None.

(** The inner walk of [model_keep_set]: the first version at or below the threshold. *)
Fixpoint first_at (rest : list MVersion) (th : u64) (vi : nat) : option nat :=
  match rest with
  | [] => None
  | v :: rest => if (mv_seq v <=? th)%Z then Some vi else first_at rest th (vi + 1)
  end.

Definition keep_threshold (versions : list MVersion) (acc : list nat * nat) (th : u64) : list nat * nat :=
  let '(kept, n_kept) := acc in
  match first_at versions th 0 with
  | None => (kept, n_kept)
  | Some vi => if decide (vi ∈ take n_kept kept) then (kept, n_kept) else (<[n_kept := vi]> kept, (n_kept + 1)%nat)
  end.

(** [kept.swap(i, j)] *)
Definition swap (i j : nat) (l : list nat) : list nat :=
  match l !! i, l !! j with Some a, Some b => <[i := b]> (<[j := a]> l) | _, _ => l end.

(** The sort's inner loop from [j] down. *)
Fixpoint sift (j : nat) (kept : list nat) : list nat :=
  match j with
  | O => kept
  | S j' =>
      match kept !! j', kept !! j with
      | Some a, Some b => if (b <? a)%nat then sift j' (swap j' j kept) else kept
      | _, _ => kept
      end
  end.

Definition thresholds (snapshots : list u64) : list u64 := U64_MAX :: take MODEL_MAX_SNAPSHOTS snapshots.

Definition model_keep_set (versions : list MVersion) (snapshots : list u64) (bottommost : bool)
    (oldest_snapshot : u64) : list nat * nat :=
  let kept := replicate (MODEL_MAX_SNAPSHOTS + 1) 0%nat in
  let drops := match versions with
               | newest :: _ => mv_tombstone newest && model_may_drop_tombstone (mv_seq newest) true oldest_snapshot
               | [] => false
               end in
  if bottommost && drops then (kept, 0%nat)
  else
    let '(kept, n_kept) := fold_left (keep_threshold versions) (thresholds snapshots) (kept, 0%nat) in
    (fold_left (fun kept i => sift i kept) (List.seq 1 (n_kept - 1)) kept, n_kept).

(** One source head of the scan model. *)
Record Head := mkHead { hd_key : u64; hd_seq : u64; hd_tombstone : bool }.

Definition head_min (max_seq : u64) (m : option u64) (h : option Head) : option u64 :=
  match h with
  | None => m
  | Some h =>
      if (max_seq <? hd_seq h)%Z then m
      else match m with None => Some (hd_key h) | Some k => if (hd_key h <? k)%Z then Some (hd_key h) else m end
  end.

Fixpoint head_winner (heads : list (option Head)) (i : nat) (max_seq min_key : u64) (winner : option nat)
    (winner_seq : u64) : option nat :=
  match heads with
  | [] => winner
  | None :: heads => head_winner heads (i + 1) max_seq min_key winner winner_seq
  | Some h :: heads =>
      if (max_seq <? hd_seq h)%Z || negb (hd_key h =? min_key)%Z
      then head_winner heads (i + 1) max_seq min_key winner winner_seq
      else if match winner with None => true | Some _ => false end || (winner_seq <? hd_seq h)%Z
      then head_winner heads (i + 1) max_seq min_key (Some i) (hd_seq h)
      else head_winner heads (i + 1) max_seq min_key winner winner_seq
  end.

Definition model_scan_step (heads : list (option Head)) (max_seq : u64) : option nat :=
  match fold_left (head_min max_seq) heads None with
  | None => None
  | Some min_key => head_winner heads 0 max_seq min_key None 0
  end.

(** [enum SlotState] *)
Inductive SlotState := Valid (sq : u64) | Invalid.

Definition model_manifest_recover (a b : SlotState) : option u64 :=
  match a, b with
  | Valid sa, Valid sb => Some (if (sb <=? sa)%Z then sa else sb)
  | Valid sa, Invalid => Some sa
  | Invalid, Valid sb => Some sb
  | Invalid, Invalid => None
  end.

Record VersionTtl := mkVT { vt_seq : u64; vt_tombstone : bool; vt_expire_at : u64 }.

(** The point versions' part of the race. *)
Fixpoint point_race (versions : list VersionTtl) (i : nat) (max_seq : u64) (win : option (u64 * option nat))
  : option (u64 * option nat) :=
  match versions with
  | [] => win
  | v :: versions =>
      point_race versions (i + 1) max_seq
        (if (vt_seq v <=? max_seq)%Z && match win with None => true | Some (s, _) => (s <? vt_seq v)%Z end
         then Some (vt_seq v, Some i) else win)
  end.

(** The range tombstones join it. *)
Definition rdel_race (max_seq : u64) (win : option (u64 * option nat)) (q : u64) : option (u64 * option nat) :=
  if (q <=? max_seq)%Z && match win with None => true | Some (s, _) => (s <? q)%Z end then Some (q, None) else win.

Definition model_visible_value (versions : list VersionTtl) (covering_rdels : list u64) (max_seq now : u64) : bool :=
  match fold_left (rdel_race max_seq) covering_rdels (point_race versions 0 max_seq None) with
  | Some (_, Some i) =>
      match versions !! i with
      | Some v => negb (vt_tombstone v) && ((vt_expire_at v =? 0)%Z || (now <? vt_expire_at v)%Z)
      | None => false
      end
  | _ => false
  end.

Definition model_ttl_emit_tombstone (expire_at purge_before : u64) : bool :=
  negb (expire_at =? 0)%Z && (expire_at <=? purge_before)%Z.

Definition model_tight_commit_ok (outputs retired : u32) : bool := (outputs <=? retired)%Z.

(** [u32::saturating_add] *)
Definition u32_sat_add (a b : u32) : u32 := Z.min (a + b) U32_MAX.

Record TightJob := mkTight { tj_free : u32; tj_commits : nat; tj_min_free_at_open : u32 }.

(** [None]: [free_now - 1 + r] overflows. *)
Fixpoint tight_loop (retires : list u32) (free_now freed : u32) (commits : nat) (min_free : u32) : option TightJob :=
  match retires with
  | [] => Some (mkTight free_now commits min_free)
  | r :: retires =>
      let min_free := Z.min min_free free_now in
      if (free_now =? 0)%Z then Some (mkTight free_now commits min_free)
      else
        let outputs := match try_u32 commits with Some n => u32_sat_add n 1 | None => U32_MAX end in
        if negb (model_tight_commit_ok outputs (u32_sat_add freed r)) then Some (mkTight free_now commits min_free)
        else if (U32_MAX <? free_now - 1 + r)%Z then None
        else tight_loop retires (free_now - 1 + r) (u32_sat_add freed r) (commits + 1) min_free
  end.

Definition model_tight_job (free : u32) (retires : list u32) : option TightJob := tight_loop retires free 0 0 free.

(** ** The winner *)

(** Newest first, as every version run is. *)
Definition newest_first (versions : list MVersion) : Prop := StronglySorted (fun a b => (mv_seq b < mv_seq a)%Z) versions.

Lemma winner_loop_settled versions mx b : forall rest i,
  Forall (fun v => (mv_seq v < seq_at versions b)%Z) rest -> winner_loop versions rest i mx (Some b) = Some b.
Proof.
  induction rest as [|v rest IH]; intros i Hr; [done |]. apply Forall_cons in Hr as [Hv Hr]. cbn [winner_loop].
  destruct (mx <? mv_seq v)%Z; [by apply IH |]. rewrite (proj2 (Z.ltb_ge _ _)) by lia. by apply IH.
Qed.

Lemma winner_loop_first versions mx : forall rest pre,
  versions = pre ++ rest -> newest_first rest ->
  winner_loop versions rest (length pre) mx None = first_at rest mx (length pre).
Proof.
  induction rest as [|v rest IH]; intros pre Hv Hs; [done |]. apply StronglySorted_inv in Hs as [Hs Hf].
  cbn [winner_loop first_at].
  assert (length pre + 1 = length (pre ++ [v]))%nat as El by (rewrite length_app; cbn; lia).
  destruct (Z.ltb_spec mx (mv_seq v)).
  - rewrite (proj2 (Z.leb_gt _ _)), El by lia. apply IH; [| done]. by rewrite <- app_assoc.
  - rewrite (proj2 (Z.leb_le _ _)) by lia. apply winner_loop_settled. eapply Forall_impl; [exact Hf |].
    intros w Hw. unfold seq_at. rewrite Hv, lookup_app_r, Nat.sub_diag by lia. exact Hw.
Qed.

Lemma model_winner_first versions mx :
  newest_first versions -> model_winner versions mx = first_at versions mx 0.
Proof. intros Hs. by apply (winner_loop_first versions mx versions []). Qed.

Lemma first_at_spec rest th : forall vi,
  match first_at rest th vi with
  | None => Forall (fun v => (th < mv_seq v)%Z) rest
  | Some i => exists j v, i = (vi + j)%nat /\ rest !! j = Some v /\ (mv_seq v <= th)%Z /\
      Forall (fun v => (th < mv_seq v)%Z) (take j rest)
  end.
Proof.
  induction rest as [|v rest IH]; intros vi; cbn [first_at]; [constructor |].
  destruct (Z.leb_spec (mv_seq v) th); [exists 0%nat, v; split_and!; auto; cbn; constructor |].
  specialize (IH (vi + 1)%nat). destruct (first_at rest th (vi + 1)) as [i |].
  - destruct IH as (j & w & -> & Hj & Hw & Hf). exists (S j), w. split_and!; auto; [lia |]. cbn. by constructor.
  - by constructor.
Qed.

(** ** The canonical order *)

Lemma swap_mid a x y b : swap (length a) (S (length a)) (a ++ x :: y :: b) = a ++ y :: x :: b.
Proof.
  unfold swap. rewrite list_lookup_middle by done.
  replace (S (length a)) with (length (a ++ [x])) by (rewrite length_app; cbn; lia).
  replace (a ++ x :: y :: b) with ((a ++ [x]) ++ y :: b) by (by rewrite <- app_assoc).
  rewrite list_lookup_middle by done. rewrite insert_app_r_alt by lia. rewrite Nat.sub_diag. cbn [insert list_insert].
  rewrite <- app_assoc. cbn. rewrite insert_app_r_alt by lia. by rewrite Nat.sub_diag.
Qed.

Lemma sift_spec : forall (a : list nat) x b,
  exists s, sift (length a) (a ++ x :: b) = s ++ b /\ s ≡ₚ x :: a /\ (StronglySorted le a -> StronglySorted le s).
Proof.
  induction a as [|y a IH] using rev_ind; intros x b.
  { exists [x]. split_and!; [done | done |]. intros _. by repeat constructor. }
  rewrite length_app. cbn [length]. rewrite Nat.add_1_r. cbn [sift].
  rewrite <- app_assoc. cbn [app]. rewrite list_lookup_middle by done.
  assert ((a ++ y :: x :: b) !! S (length a) = Some x) as ->.
  { replace (a ++ y :: x :: b) with ((a ++ [y]) ++ x :: b) by (by rewrite <- app_assoc).
    apply list_lookup_middle. rewrite length_app. cbn. lia. }
  destruct (Nat.ltb_spec x y) as [Hlt | Hge].
  - rewrite swap_mid. destruct (IH x (y :: b)) as (s & -> & Hp & Hs). exists (s ++ [y]).
    split_and!; [by rewrite <- app_assoc | by rewrite Hp |].
    intros Hsa. apply StronglySorted_app in Hsa as (Hay & Ha & _). apply StronglySorted_app. split_and!; [| by apply Hs | by repeat constructor].
    intros u v Hu ->%list_elem_of_singleton. rewrite Hp in Hu. apply elem_of_cons in Hu as [-> | Hu]; [lia |].
    apply Hay; [done | apply list_elem_of_here].
  - exists (a ++ [y; x]). split_and!; [by rewrite <- app_assoc | |].
    + rewrite (Permutation_app_comm a [y; x]). cbn. etrans; [apply perm_swap |]. constructor. by rewrite Permutation_cons_append.
    + intros Hsa. apply StronglySorted_app in Hsa as (Hay & Ha & _). apply StronglySorted_app. split_and!; [| done | repeat constructor; lia].
      intros u v Hu Hv. specialize (Hay u y Hu ltac:(apply list_elem_of_here)).
      apply elem_of_cons in Hv as [-> | ->%list_elem_of_singleton]; lia.
Qed.

Lemma sort_spec : forall m s b c, length b = m -> StronglySorted le s ->
  exists t, fold_left (fun kept i => sift i kept) (List.seq (length s) m) (s ++ b ++ c) = t ++ c /\
    t ≡ₚ s ++ b /\ StronglySorted le t.
Proof.
  induction m as [|m IH]; intros s b c Hb Hs.
  { apply nil_length_inv in Hb as ->. exists s. by rewrite app_nil_r. }
  destruct b as [|x b]; [done |]. cbn [List.seq fold_left]. cbn [app].
  destruct (sift_spec s x (b ++ c)) as (s' & -> & Hp & Hs'). specialize (Hs' Hs).
  assert (S (length s) = length s') as -> by (rewrite Hp; done).
  destruct (IH s' b c ltac:(cbn in Hb; lia) Hs') as (t & -> & Hpt & Ht). exists t. split_and!; auto.
  rewrite Hpt, Hp. cbn. by rewrite Permutation_middle.
Qed.

(** ** The keep-set *)

Section keep.
  Context (versions : list MVersion).

Record kept_inv (done_ : list u64) (acc : list nat * nat) : Prop := {
  ki_len : length acc.1 = (MODEL_MAX_SNAPSHOTS + 1)%nat;
  ki_n : (acc.2 <= length done_)%nat;
  ki_nodup : NoDup (take acc.2 acc.1);
  ki_exact : forall i, i ∈ take acc.2 acc.1 <-> exists th, th ∈ done_ /\ first_at versions th 0 = Some i;
}.

Lemma take_insert_snoc {A} (l : list A) n x :
  (n < length l)%nat -> take (n + 1) (<[n := x]> l) = take n l ++ [x].
Proof.
  intros Hn. rewrite Nat.add_1_r, (take_S_r _ _ x) by (by rewrite list_lookup_insert_eq).
  by rewrite take_insert_ge by lia.
Qed.

Lemma keep_threshold_step done_ acc th :
  kept_inv done_ acc -> (length done_ < MODEL_MAX_SNAPSHOTS + 1)%nat ->
  kept_inv (done_ ++ [th]) (keep_threshold versions acc th).
Proof.
  intros [Hl Hn Hd He] Hlt. destruct acc as [kept n]. cbn [fst snd] in *. unfold keep_threshold.
  assert (forall i, (exists t, t ∈ done_ ++ [th] /\ first_at versions t 0 = Some i) <->
    (exists t, t ∈ done_ /\ first_at versions t 0 = Some i) \/ first_at versions th 0 = Some i) as Hsp.
  { intros i. setoid_rewrite elem_of_app. split.
    - intros (t & [Ht | ->%list_elem_of_singleton] & Hf); eauto.
    - intros [(t & Ht & Hf) | Hf]; [eauto |]. exists th. split; [right; apply list_elem_of_here | done]. }
  destruct (first_at versions th 0) as [vi |] eqn:Ef.
  2: { split; cbn [fst snd]; auto; [rewrite length_app; lia |]. intros i. rewrite Hsp, He.
       split; [by left | by intros [? | ?]]. }
  destruct (decide _) as [Hin | Hnew].
  - split; cbn [fst snd]; auto; [rewrite length_app; lia |]. intros i. rewrite Hsp, He.
    split; [by left | intros [? | [= <-]]; [done | by apply He]].
  - split; cbn [fst snd]; [by rewrite length_insert | rewrite length_app; cbn; lia | |].
    + rewrite take_insert_snoc by lia. apply NoDup_app. split_and!; [done | | apply NoDup_singleton].
      intros x Hx ->%list_elem_of_singleton. done.
    + intros i. rewrite take_insert_snoc, elem_of_app, list_elem_of_singleton, Hsp, He by lia.
      split; (intros [? | ?]; [by left | right; congruence]).
Qed.

Lemma keep_fold ths : forall done_ acc,
  kept_inv done_ acc -> (length done_ + length ths <= MODEL_MAX_SNAPSHOTS + 1)%nat ->
  kept_inv (done_ ++ ths) (fold_left (keep_threshold versions) ths acc).
Proof.
  induction ths as [|th ths IH]; intros done_ acc Hi Hl; [by rewrite app_nil_r |]. cbn [fold_left length] in *.
  rewrite cons_middle, app_assoc. apply IH; [apply keep_threshold_step; [done | lia] |].
  rewrite length_app. cbn [length]. lia.
Qed.
End keep.

(** What a read at [th] observes of a key's versions: nothing under a tombstone. *)
Definition observed (versions : list MVersion) (th : u64) : option u64 :=
  match model_winner versions th with
  | Some i => match versions !! i with
              | Some v => if mv_tombstone v then None else Some (mv_seq v)
              | None => None
              end
  | None => None
  end.

Definition dropped (versions : list MVersion) (bottommost : bool) (oldest : u64) : bool :=
  match versions with
  | newest :: _ => bottommost && mv_tombstone newest && (mv_seq newest <? oldest)%Z
  | [] => false
  end.

Lemma keep_set_spec versions snapshots bottommost oldest :
  let '(kept, n) := model_keep_set versions snapshots bottommost oldest in
  length kept = (MODEL_MAX_SNAPSHOTS + 1)%nat /\ (n <= length (thresholds snapshots))%nat /\
  StronglySorted lt (take n kept) /\
  if dropped versions bottommost oldest then n = 0%nat
  else forall i, i ∈ take n kept <-> exists th, th ∈ thresholds snapshots /\ first_at versions th 0 = Some i.
Proof.
  unfold model_keep_set.
  assert (bottommost && match versions with
    | newest :: _ => mv_tombstone newest && model_may_drop_tombstone (mv_seq newest) true oldest | [] => false end
    = dropped versions bottommost oldest) as ->.
  { unfold dropped, model_may_drop_tombstone. destruct versions; [apply andb_false_r |]. cbn. apply andb_assoc. }
  destruct (dropped versions bottommost oldest).
  { split_and!; [apply length_replicate | lia | constructor | done]. }
  pose proof (keep_fold versions (thresholds snapshots) [] (replicate (MODEL_MAX_SNAPSHOTS + 1) 0%nat, 0%nat)) as Hk.
  destruct (fold_left (keep_threshold versions) _ _) as [kept n].
  destruct Hk as [Hl Hn Hd He].
  { split; cbn [fst snd]; [apply length_replicate | done | constructor |]. intros i. split; [by intros ?%not_elem_of_nil |].
    by intros (? & ?%not_elem_of_nil & _). }
  { unfold thresholds. cbn [length]. rewrite length_take. lia. }
  cbn [fst snd app] in *.
  assert ((n <= length kept)%nat) as Hnl.
  { rewrite Hl. unfold thresholds in Hn. cbn [length] in Hn. rewrite length_take in Hn. lia. }
  assert (exists t, fold_left (fun kept i => sift i kept) (List.seq 1 (n - 1)) kept = t ++ drop n kept /\
    t ≡ₚ take n kept /\ StronglySorted le t) as (t & -> & Hp & Hs).
  { destruct n as [|n]; [exists []; split_and!; [done | done | constructor] |].
    destruct kept as [|x kept]; [cbn in Hnl; lia |]. cbn [take drop] in *. replace (S n - 1)%nat with n by lia.
    destruct (sort_spec n [x] (take n kept) (drop n kept)) as (t & Ht & Hp & Hs);
      [rewrite length_take; cbn in Hnl; lia | by repeat constructor |].
    exists t. cbn [length app] in *. rewrite take_drop in Ht. done. }
  assert (length t = n) as Elt by (rewrite Hp, length_take; lia).
  split; [rewrite length_app, length_drop; lia |]. split; [done |].
  rewrite (take_app_length' t (drop n kept) n) by done. split.
  - apply (NoDup_Permutation_proper _ _ Hp) in Hd. clear -Hs Hd. induction Hs as [|x t Hs IH Hf]; [constructor |].
    apply NoDup_cons in Hd as [Hx Hd]. constructor; [by apply IH |]. rewrite Forall_forall in *. intros y Hy.
    specialize (Hf y Hy). assert (x <> y) by (by intros ->). lia.
  - intros i. rewrite Hp. apply He.
Qed.

(** Versions picked by index. *)
Definition picked (versions : list MVersion) (kept : list nat) : list MVersion := omap (fun i => versions !! i) kept.

Lemma picked_sorted versions kept :
  newest_first versions -> StronglySorted lt kept -> newest_first (picked versions kept).
Proof.
  intros Hv. induction 1 as [|i kept Hs IH Hf]; [constructor |]. unfold picked in *. cbn [omap list_omap].
  destruct (versions !! i) as [v |] eqn:Ei; [| done]. constructor; [done |].
  apply Forall_forall. intros w (j & Hj & Ew)%list_elem_of_omap. rewrite Forall_forall in Hf. specialize (Hf j Hj).
  exact (StronglySorted_lookup _ _ _ _ _ _ Hv Hf Ei Ew).
Qed.

(** The newest version at or below [th]. *)
Definition serves (versions : list MVersion) (th : u64) (v : MVersion) : Prop :=
  v ∈ versions /\ (mv_seq v <= th)%Z /\ forall u, u ∈ versions -> (mv_seq u <= th)%Z -> (mv_seq u <= mv_seq v)%Z.

Lemma winner_serves versions th :
  newest_first versions ->
  match model_winner versions th with
  | Some i => exists v, versions !! i = Some v /\ serves versions th v
  | None => forall v, v ∈ versions -> (th < mv_seq v)%Z
  end.
Proof.
  intros Hs. rewrite model_winner_first by done. pose proof (first_at_spec versions th 0) as Hf.
  destruct (first_at versions th 0) as [i |]; [| by rewrite Forall_forall in Hf].
  destruct Hf as (j & v & -> & Hj & Hv & Hb). cbn [Nat.add]. exists v. split; [done |].
  split_and!; [by eapply list_elem_of_lookup_2 | done |]. intros u [k Hk]%list_elem_of_lookup Hu.
  destruct (Nat.lt_trichotomy j k) as [Hjk | [-> | Hkj]]; [| simplify_eq; lia |].
  - pose proof (StronglySorted_lookup _ _ _ _ _ _ Hs Hjk Hj Hk) as Hlt. cbn in Hlt. lia.
  - rewrite Forall_forall in Hb. specialize (Hb u ltac:(apply (list_elem_of_lookup_2 _ k); by rewrite lookup_take_lt)). lia.
Qed.

Lemma serves_unique versions th v w :
  newest_first versions -> serves versions th v -> serves versions th w -> v = w.
Proof.
  intros Hs ([i Hi]%list_elem_of_lookup & Hv & Hvm) ([j Hj]%list_elem_of_lookup & Hw & Hwm).
  pose proof (Hvm w ltac:(by eapply list_elem_of_lookup_2) Hw). pose proof (Hwm v ltac:(by eapply list_elem_of_lookup_2) Hv).
  destruct (Nat.lt_trichotomy i j) as [Hij | [-> | Hij]]; [| congruence |].
  - pose proof (StronglySorted_lookup _ _ _ _ _ _ Hs Hij Hi Hj) as Hlt. cbn in Hlt. lia.
  - pose proof (StronglySorted_lookup _ _ _ _ _ _ Hs Hij Hj Hi) as Hlt. cbn in Hlt. lia.
Qed.

Lemma observed_serves versions th v :
  newest_first versions -> serves versions th v ->
  observed versions th = if mv_tombstone v then None else Some (mv_seq v).
Proof.
  intros Hs Hv. unfold observed. pose proof (winner_serves versions th Hs) as Hw.
  destruct (model_winner versions th) as [i |].
  - destruct Hw as (w & -> & Hsw). by rewrite (serves_unique versions th v w).
  - destruct Hv as (Hin & Hle & _). specialize (Hw v Hin). lia.
Qed.

Lemma observed_none versions th :
  newest_first versions -> (forall v, v ∈ versions -> (th < mv_seq v)%Z) -> observed versions th = None.
Proof.
  intros Hs Hn. unfold observed. pose proof (winner_serves versions th Hs) as Hw.
  destruct (model_winner versions th) as [i |]; [| done]. destruct Hw as (w & _ & Hin & Hle & _). specialize (Hn w Hin). lia.
Qed.

(** C21 Compaction may keep just the keep-set.  For a key's versions newest first,
    [model_keep_set] returns distinct indices in ascending order, at most one per
    threshold, exactly the versions that win at the live view or at one of the (up to
    eight) snapshots; and a read at the live view or at any snapshot observes the same of
    the kept versions as of all of them, also when the bottommost rule drops a deleted
    key whole. *)
Theorem keep_set_preserves_reads versions snapshots bottommost oldest
  (Hv : newest_first versions) (Hr : Forall (fun v => mv_seq v <= U64_MAX)%Z versions)
  (Ho : Forall (fun s => oldest <= s <= U64_MAX)%Z snapshots) (Hu : (oldest <= U64_MAX)%Z) :
  let '(kept, n) := model_keep_set versions snapshots bottommost oldest in
  (n <= 1 + length snapshots)%nat /\ (n <= MODEL_MAX_SNAPSHOTS + 1)%nat /\ StronglySorted lt (take n kept) /\
  (dropped versions bottommost oldest = false -> forall i, i ∈ take n kept <->
     exists th, th ∈ thresholds snapshots /\ model_winner versions th = Some i) /\
  forall th, th ∈ thresholds snapshots -> observed (picked versions (take n kept)) th = observed versions th.
Proof.
  pose proof (keep_set_spec versions snapshots bottommost oldest) as Hk.
  destruct (model_keep_set versions snapshots bottommost oldest) as [kept n]. destruct Hk as (Hl & Hn & Hs & He).
  unfold thresholds in Hn. cbn [length] in Hn. rewrite length_take in Hn. split_and!; [lia | lia | done | |].
  { intros Hd. rewrite Hd in He. intros i. rewrite He. by setoid_rewrite model_winner_first. }
  intros th Hth. pose proof (winner_serves versions th Hv) as Hw. pose proof (picked_sorted _ _ Hv Hs) as Hps.
  assert (forall v, v ∈ picked versions (take n kept) -> v ∈ versions) as Hsub.
  { intros v (i & _ & Hi)%list_elem_of_omap. by eapply list_elem_of_lookup_2. }
  destruct (dropped versions bottommost oldest) eqn:Ed.
  - subst n. destruct versions as [|v vs]; [done |]. cbn in Ed. apply andb_true_iff in Ed as [[_ Ht]%andb_true_iff Hlt].
    apply Z.ltb_lt in Hlt. rewrite (observed_none (picked _ _)), (observed_serves (v :: vs) th v); [by rewrite Ht | done | | done |].
    + split; [apply list_elem_of_here |]. split.
      * apply elem_of_cons in Hth as [-> | Hth]; [lia |]. rewrite Forall_forall in Ho.
        specialize (Ho th ltac:(rewrite <- (take_drop MODEL_MAX_SNAPSHOTS snapshots); apply elem_of_app; by left)). lia.
      * intros u [-> | Hin]%elem_of_cons _; [lia |]. apply StronglySorted_inv in Hv as [_ Hf].
        rewrite Forall_forall in Hf. specialize (Hf u Hin). lia.
    + by intros u Hin%not_elem_of_nil.
  - destruct (model_winner versions th) as [i |] eqn:Ew.
    + destruct Hw as (v & Hi & Hsv). rewrite (observed_serves versions th v), (observed_serves _ th v); auto.
      destruct Hsv as (_ & Hle & Hmax). split_and!; [| done | by intros u Hin; apply Hmax, Hsub].
      apply list_elem_of_omap. exists i. split; [| done]. apply He. exists th. by rewrite <- model_winner_first.
    + rewrite !observed_none; auto.
Qed.

(** ** Range tombstones and expiry *)

Lemma rdel_fold_settled mx rdels : forall s p,
  Forall (fun q => mx < q \/ q <= s)%Z rdels -> fold_left (rdel_race mx) rdels (Some (s, p)) = Some (s, p).
Proof.
  induction rdels as [|q rdels IH]; intros s p Hq; [done |]. apply Forall_cons in Hq as [Hq Hr]. cbn [fold_left].
  unfold rdel_race at 2. destruct (Z.leb_spec q mx), (Z.ltb_spec s q); cbn [andb]; try (by apply IH). lia.
Qed.

Lemma rdel_fold_none mx rdels : forall s, exists s', fold_left (rdel_race mx) rdels (Some (s, None)) = Some (s', None).
Proof.
  induction rdels as [|q rdels IH]; intros s; cbn [fold_left]; [eauto |]. unfold rdel_race at 2.
  destruct (_ && _); apply IH.
Qed.

Lemma rdel_fold_beaten mx rdels : forall s p,
  Exists (fun q => q <= mx /\ s < q)%Z rdels -> exists s', fold_left (rdel_race mx) rdels (Some (s, p)) = Some (s', None).
Proof.
  induction rdels as [|q rdels IH]; intros s p Hq; [by apply Exists_nil in Hq |]. cbn [fold_left]. unfold rdel_race at 2.
  destruct (Z.leb_spec q mx), (Z.ltb_spec s q); cbn [andb]; try apply rdel_fold_none;
    apply IH; apply Exists_cons in Hq as [Hq | Hq]; auto; lia.
Qed.

Lemma rdel_fold_absent mx rdels : forall w, (w = None \/ exists s, w = Some (s, None)) ->
  let w' := fold_left (rdel_race mx) rdels w in w' = None \/ exists s, w' = Some (s, None).
Proof.
  induction rdels as [|q rdels IH]; intros w Hw; [done |]. cbn [fold_left]. apply IH. unfold rdel_race.
  destruct (_ && _); eauto.
Qed.

Lemma point_race_settled mx vs : forall i s p,
  Forall (fun v => vt_seq v < s)%Z vs -> point_race vs i mx (Some (s, p)) = Some (s, p).
Proof.
  induction vs as [|v vs IH]; intros i s p Hv; [done |]. apply Forall_cons in Hv as [Hv Hr]. cbn [point_race].
  rewrite (proj2 (Z.ltb_ge _ _)) by lia. rewrite andb_false_r. by apply IH.
Qed.

Lemma point_race_spec mx vs : forall i,
  StronglySorted (fun a b => (vt_seq b < vt_seq a)%Z) vs ->
  match List.find (fun v => (vt_seq v <=? mx)%Z) vs with
  | Some v => exists j, vs !! j = Some v /\ point_race vs i mx None = Some (vt_seq v, Some (i + j)%nat)
  | None => point_race vs i mx None = None
  end.
Proof.
  induction vs as [|v vs IH]; intros i Hs; [done |]. apply StronglySorted_inv in Hs as [Hs Hf].
  cbn [List.find point_race]. destruct (vt_seq v <=? mx)%Z; cbn [andb].
  - exists 0%nat. split; [done |]. rewrite Nat.add_0_r. by apply point_race_settled.
  - specialize (IH (i + 1)%nat Hs). destruct (List.find _ vs) as [w |]; [| done].
    destruct IH as (j & Hj & E). exists (S j). split; [done |]. rewrite E. do 3 f_equal. lia.
Qed.

(** The race, for versions newest first: the newest point version at the snapshot is a
    value, unexpired, and no covering range tombstone at the snapshot is newer. *)
Lemma visible_value_spec vs rdels mx now :
  StronglySorted (fun a b => (vt_seq b < vt_seq a)%Z) vs ->
  model_visible_value vs rdels mx now =
  match List.find (fun v => (vt_seq v <=? mx)%Z) vs with
  | Some v => negb (existsb (fun q => (q <=? mx)%Z && (vt_seq v <? q)%Z) rdels) && negb (vt_tombstone v) &&
      ((vt_expire_at v =? 0)%Z || (now <? vt_expire_at v)%Z)
  | None => false
  end.
Proof.
  intros Hs. unfold model_visible_value. pose proof (point_race_spec mx vs 0 Hs) as Hp.
  destruct (List.find _ vs) as [v |].
  - destruct Hp as (j & Hj & ->). cbn [Nat.add]. destruct (existsb _ rdels) eqn:Ex.
    + apply existsb_exists in Ex as (q & Hq & Hb). destruct (rdel_fold_beaten mx rdels (vt_seq v) (Some j)) as [s' ->]; [| done].
      apply Exists_exists. exists q. split; [by apply list_elem_of_In |]. bool_lia.
    + rewrite rdel_fold_settled; [by rewrite Hj |]. apply Forall_forall. intros q Hq%list_elem_of_In.
      assert ((q <=? mx)%Z && (vt_seq v <? q)%Z = false) as Hb.
      { destruct (_ && _) eqn:Eb; [| done]. rewrite <- Ex. symmetry. apply existsb_exists. eauto. }
      apply andb_false_iff in Hb as [?%Z.leb_gt | ?%Z.ltb_ge]; lia.
  - rewrite Hp. destruct (rdel_fold_absent mx rdels None) as [-> | [s' ->]]; auto.
Qed.

(** ** The slot accounting of a tight job *)

Lemma tight_loop_spec free : forall retires freed commits mf,
  (1 <= free)%Z -> Forall (fun r => 0 <= r)%Z retires -> (Z.of_nat commits <= freed)%Z -> (1 <= mf)%Z ->
  (free + freed + foldr Z.add 0 retires <= U32_MAX)%Z ->
  exists job, tight_loop retires (free + freed - Z.of_nat commits) freed commits mf = Some job /\
    (1 <= tj_min_free_at_open job)%Z /\ (free <= tj_free job)%Z /\ (tj_commits job <= commits + length retires)%nat.
Proof.
  induction retires as [|r retires IH]; intros freed commits mf Hf Hr Hc Hm Hs; cbn [tight_loop].
  { eexists. split; [done |]. cbn. lia. }
  apply Forall_cons in Hr as [Hr0 Hr]. cbn [foldr] in Hs.
  assert (0 <= foldr Z.add 0 retires)%Z as Hpos by (clear -Hr; induction Hr; cbn; lia).
  rewrite (proj2 (Z.eqb_neq _ _)) by lia. rewrite try_u32_le by lia. unfold model_tight_commit_ok, u32_sat_add.
  destruct (Z.leb_spec (Z.min (Z.of_nat commits + 1) U32_MAX) (Z.min (freed + r) U32_MAX)); cbn [negb].
  - rewrite (proj2 (Z.ltb_ge _ _)) by lia.
    destruct (IH (Z.min (freed + r) U32_MAX) (commits + 1)%nat (Z.min mf (free + freed - Z.of_nat commits))%Z)
      as (job & Hj & H1 & H2 & H3); try done; try lia.
    replace (free + freed - Z.of_nat commits - 1 + r)%Z
      with (free + Z.min (freed + r) U32_MAX - Z.of_nat (commits + 1))%Z by lia.
    exists job. split; [done |]. cbn [length]. lia.
  - eexists. split; [done |]. cbn. lia.
Qed.

(** A tight compaction never grows the region.  As long as the counters do not
    overflow, a job that starts with a free slot never opens an output without one, and
    stops with at least as many free slots as it had, whatever its commits retire. *)
Theorem tight_job_never_grows free retires
  (Hf : (1 <= free)%Z) (Hr : Forall (fun r => 0 <= r)%Z retires)
  (Hs : (free + foldr Z.add 0 retires <= U32_MAX)%Z) :
  exists job, model_tight_job free retires = Some job /\
    (1 <= tj_min_free_at_open job)%Z /\ (free <= tj_free job)%Z /\ (tj_commits job <= length retires)%nat.
Proof.
  destruct (tight_loop_spec free retires 0 0 free) as (job & Hj & H); try done; [lia |].
  exists job. split; [| exact H]. unfold model_tight_job. by rewrite Z.add_0_r, Z.sub_0_r in Hj.
Qed.

Lemma tight_job_never_grows_witness :
  exists job, model_tight_job 1 [1; 0; 5]%Z = Some job /\ tj_commits job = 1%nat /\ (1 <= tj_free job)%Z.
Proof.
  destruct (tight_job_never_grows 1 [1; 0; 5]%Z) as (job & Hj & _ & Hf & _);
    [lia | repeat constructor; lia | cbn; unfold U32_MAX; lia |].
  exists job. split; [exact Hj |]. split; [| exact Hf]. vm_compute in Hj. by injection Hj as <-.
Defined.

(** Newest first: 9, 7, 5, 3, 1; snapshots 8, 6 and 2. *)
Definition ex_versions : list MVersion :=
  [mkMV 9 false; mkMV 7 false; mkMV 5 true; mkMV 3 false; mkMV 1 false].

Example keep_set_example : (let '(kept, n) := model_keep_set ex_versions [8; 6; 2]%Z true 2 in take n kept) = [0; 1; 2; 4]%nat.
Proof. reflexivity. Qed.

Lemma keep_set_preserves_reads_witness :
  observed (picked ex_versions [0; 1; 2; 4]%nat) 8 = observed ex_versions 8 /\
  observed (picked ex_versions [0; 1; 2; 4]%nat) 6 = observed ex_versions 6.
Proof.
  destruct (keep_set_preserves_reads ex_versions [8; 6; 2]%Z true 2) as (_ & _ & _ & _ & H).
  - repeat constructor.
  - repeat constructor; unfold U64_MAX; cbn; lia.
  - repeat constructor; unfold U64_MAX; lia.
  - unfold U64_MAX; lia.
  - split; [apply (H 8%Z) | apply (H 6%Z)]; by_compute.
Defined.
