(* ===== verification/Crc.v ===== *)
(** * The CRC-32 of [src/crc.rs]

    [crc32] is the slicing-by-8 loop over the eight compile-time tables.  The
    reference is the textbook bit-serial register: one conditional
    shift-and-xor per message bit.  The two are proved equal, and the error
    detection the WAL, the manifest and the tables rely on is proved for the
    table-driven code: every burst of at most 32 bits changes the checksum. *)

From stdpp Require Import base numbers list.
From Stdlib Require Import ZArith Lia.
From S2P Require Import Prelude.

Local Open Scope Z_scope.

(** ** The code *)

Definition POLY : u32 := 0xEDB88320.

(** One iteration of the inner loop of [make_tables]. *)
Definition bit_step (crc : u32) : u32 :=
  let mask := wrap 32 (0 - Z.land crc 1) in
  Z.lxor (Z.shiftr crc 1) (Z.land POLY mask).

(** The inner [while bit < n] loop; also the register advanced by [n] bits. *)
Definition adv (n : nat) (crc : u32) : u32 := Nat.iter n bit_step crc.

Definition make_table0 : list u32 :=
  map (fun n => adv 8 (Z.of_nat n)) (seq 0 256).

(** [tables[k][n] = tables[0][c & 0xFF] ^ (c >> 8)] for [c = tables[k-1][n]]. *)
Definition next_table (t0 prev : list u32) : list u32 :=
  map (fun c => Z.lxor (nth (Z.to_nat (Z.land c 0xFF)) t0 0) (Z.shiftr c 8)) prev.

Definition make_tables : list (list u32) :=
  map (fun k => Nat.iter k (next_table make_table0) make_table0) (seq 0 8).

Definition TABLES : list (list u32) := make_tables.

Definition table_at (k : nat) (i : u32) : u32 :=
  nth (Z.to_nat i) (nth k TABLES []) 0.

(** The body of the [while j < len] tail loop. *)
Definition crc_byte (crc : u32) (b : u8) : u32 :=
  Z.lxor (table_at 0 (Z.land (Z.lxor crc b) 0xFF)) (Z.shiftr crc 8).

(** The body of the [while i < chunks] main loop. *)
Definition crc_chunk (crc : u32) (d0 d1 d2 d3 d4 d5 d6 d7 : u8) : u32 :=
  let one := Z.lxor (from_le [d0; d1; d2; d3]) crc in
  let two := from_le [d4; d5; d6; d7] in
  Z.lxor (Z.lxor (Z.lxor (Z.lxor (Z.lxor (Z.lxor (Z.lxor
    (table_at 7 (Z.land one 0xFF))
    (table_at 6 (Z.land (Z.shiftr one 8) 0xFF)))
    (table_at 5 (Z.land (Z.shiftr one 16) 0xFF)))
    (table_at 4 (Z.land (Z.shiftr one 24) 0xFF)))
    (table_at 3 (Z.land two 0xFF)))
    (table_at 2 (Z.land (Z.shiftr two 8) 0xFF)))
    (table_at 1 (Z.land (Z.shiftr two 16) 0xFF)))
    (table_at 0 (Z.land (Z.shiftr two 24) 0xFF)).

(** Eight bytes at a time while eight are left, then byte by byte. *)
Section loop.
  Variable chunk : u32 -> u8 -> u8 -> u8 -> u8 -> u8 -> u8 -> u8 -> u8 -> u32.
  Variable byte : u32 -> u8 -> u32.

Fixpoint slice8_loop (crc : u32) (data : bytes) : u32 :=
  match data with
  | d0 :: d1 :: d2 :: d3 :: d4 :: d5 :: d6 :: d7 :: rest =>
      slice8_loop (chunk crc d0 d1 d2 d3 d4 d5 d6 d7) rest
  | _ => fold_left byte data crc
  end.
End loop.

Definition crc_loop : u32 -> bytes -> u32 := slice8_loop crc_chunk crc_byte.

Definition crc32 (data : bytes) : u32 :=
  Z.lxor (crc_loop 0xFFFFFFFF data) 0xFFFFFFFF.

(** ** The reference: a bit-serial CRC register *)

Definition ref_bit (crc : Z) (bit : bool) : Z :=
  let top := xorb (Z.testbit crc 0) bit in
  Z.lxor (Z.shiftr crc 1) (if top then POLY else 0).

Definition byte_bits (b : u8) : list bool :=
  map (fun i => Z.testbit b (Z.of_nat i)) (seq 0 8).

Definition crc32_ref (data : bytes) : u32 :=
  Z.lxor (fold_left ref_bit (concat (map byte_bits data)) 0xFFFFFFFF) 0xFFFFFFFF.

(** ** The register as a linear map *)

#[local] Arguments adv : simpl never.

Lemma adv_S n c : adv (S n) c = bit_step (adv n c).
Proof. reflexivity. Qed.

Lemma adv_O c : adv 0 c = c.
Proof. reflexivity. Qed.

Lemma bit_step_alt c :
  bit_step c = Z.lxor (Z.shiftr c 1) (if Z.testbit c 0 then POLY else 0).
Proof.
  unfold bit_step, wrap. f_equal.
  change 1 with (Z.ones 1) at 1. rewrite Z.land_ones by lia.
  change (2 ^ 1) with 2. rewrite <- Z.bit0_mod. destruct (Z.testbit c 0); reflexivity.
Qed.

Lemma bit_step_lxor a b : bit_step (Z.lxor a b) = Z.lxor (bit_step a) (bit_step b).
Proof.
  rewrite !bit_step_alt, Z.shiftr_lxor, Z.lxor_spec.
  destruct (Z.testbit a 0), (Z.testbit b 0); simpl; rewrite ?Z.lxor_0_r.
  - rewrite Z.lxor_assoc, (Z.lxor_comm POLY), Z.lxor_assoc, Z.lxor_nilpotent.
    by rewrite Z.lxor_0_r.
  - by rewrite !Z.lxor_assoc, (Z.lxor_comm POLY).
  - by rewrite Z.lxor_assoc.
  - done.
Qed.

Lemma adv_lxor n a b : adv n (Z.lxor a b) = Z.lxor (adv n a) (adv n b).
Proof. induction n as [|n IH]; [done |]. by rewrite !adv_S, IH, bit_step_lxor. Qed.

Lemma adv_add n m c : adv (n + m) c = adv n (adv m c).
Proof. unfold adv. apply Nat.iter_add. Qed.

Lemma adv_0 n : adv n 0 = 0.
Proof. induction n as [|n IH]; [done |]. by rewrite adv_S, IH. Qed.

Lemma bit_step_shiftl x k : bit_step (Z.shiftl x (Z.of_nat (S k))) = Z.shiftl x (Z.of_nat k).
Proof.
  rewrite bit_step_alt, Z.shiftl_spec_low by lia. rewrite Z.lxor_0_r.
  rewrite Z.shiftr_shiftl_l by lia. f_equal. lia.
Qed.

(** Bits that have not reached the low end only move down. *)
Lemma adv_shiftl n k x :
  (k <= n)%nat -> adv n (Z.shiftl x (Z.of_nat k)) = adv (n - k) x.
Proof.
  revert n. induction k as [|k IH]; intros n Hn.
  - rewrite Z.shiftl_0_r. f_equal. lia.
  - replace n with ((n - 1) + 1)%nat at 1 by lia. rewrite adv_add.
    change (adv 1) with bit_step. rewrite bit_step_shiftl, IH by lia. f_equal. lia.
Qed.

Lemma adv_shiftl_same k x : adv k (Z.shiftl x (Z.of_nat k)) = x.
Proof. rewrite adv_shiftl by lia. by rewrite Nat.sub_diag. Qed.

(** The low byte goes through the register, the rest is shifted down. *)
Lemma split_low_byte c : c = Z.lxor (Z.land c 0xFF) (Z.shiftl (Z.shiftr c 8) 8).
Proof.
  apply Z.bits_inj'. intros i Hi. change 0xFF with (Z.ones 8).
  rewrite Z.lxor_spec, Z.land_spec.
  destruct (decide (i < 8)).
  - rewrite Z.ones_spec_low, Z.shiftl_spec_low by lia. by destruct (Z.testbit c i).
  - rewrite Z.ones_spec_high, Z.shiftl_spec, Z.shiftr_spec by lia.
    replace (i - 8 + 8) with i by lia. by destruct (Z.testbit c i).
Qed.

Lemma adv_low_byte n c :
  (8 <= n)%nat ->
  adv n c = Z.lxor (adv n (Z.land c 0xFF)) (adv (n - 8) (Z.shiftr c 8)).
Proof.
  intros Hn. rewrite (split_low_byte c) at 1. rewrite adv_lxor. f_equal.
  change 8 with (Z.of_nat 8) at 2. by apply adv_shiftl.
Qed.

(** ** The tables are powers of the register *)

Lemma land_FF_range c : 0 <= Z.land c 0xFF < 256.
Proof. change 0xFF with (Z.ones 8). rewrite Z.land_ones by lia. by apply Z.mod_pos_bound. Qed.

Lemma nth_table0 i : 0 <= i < 256 -> nth (Z.to_nat i) make_table0 0 = adv 8 i.
Proof.
  intros Hi. unfold make_table0. set (f := fun n => _).
  rewrite (nth_indep _ 0 (f 0%nat)) by (rewrite length_map, length_seq; lia).
  rewrite (map_nth f), seq_nth by lia. subst f. cbn beta. f_equal. lia.
Qed.

Lemma length_table_iter k : length (Nat.iter k (next_table make_table0) make_table0) = 256%nat.
Proof. induction k; simpl; [done | unfold next_table; by rewrite length_map]. Qed.

Lemma nth_table_iter k i :
  0 <= i < 256 ->
  nth (Z.to_nat i) (Nat.iter k (next_table make_table0) make_table0) 0 = adv (8 * (k + 1)) i.
Proof.
  intros Hi. induction k as [|k IH]; [by apply nth_table0 |].
  change (Nat.iter (S k) ?g ?x) with (g (Nat.iter k g x)). unfold next_table at 1.
  set (f := fun c => _).
  rewrite (nth_indep _ 0 (f 0)) by (rewrite length_map, length_table_iter; lia).
  rewrite (map_nth f), IH. subst f. cbn beta.
  rewrite nth_table0 by apply land_FF_range.
  set (c := adv _ i).
  transitivity (adv 8 c).
  - rewrite (adv_low_byte 8 c) by lia. reflexivity.
  - subst c. rewrite <- adv_add. f_equal. lia.
Qed.

Lemma table_at_adv k i :
  (k < 8)%nat -> 0 <= i < 256 -> table_at k i = adv (8 * (k + 1)) i.
Proof.
  intros Hk Hi. unfold table_at, TABLES, make_tables.
  set (f := fun k => _).
  rewrite (nth_indep _ [] (f 0%nat)) by (rewrite length_map, length_seq; lia).
  rewrite (map_nth f), seq_nth by lia. by apply nth_table_iter.
Qed.

#[local] Opaque TABLES make_tables table_at adv.

(** ** The loop computes the register over the whole message *)

Definition ref_byte (c : Z) (b : u8) : Z := adv 8 (Z.lxor c b).

Lemma land_shiftr_small b k : fits 8 b -> 8 <= k -> Z.shiftr b k = 0.
Proof.
  intros [? Hb] Hk. apply Z.shiftr_eq_0; [done |].
  destruct (decide (b = 0)) as [-> |]; [simpl; lia |].
  apply Z.log2_lt_pow2; [lia |]. eapply Z.lt_le_trans; [exact Hb |].
  apply Z.pow_le_mono_r; lia.
Qed.

Lemma crc_byte_ref c b : fits 8 b -> crc_byte c b = ref_byte c b.
Proof.
  intros Hb. unfold crc_byte, ref_byte.
  rewrite table_at_adv by (try apply land_FF_range; lia).
  rewrite (adv_low_byte 8 (Z.lxor c b)) by lia.
  rewrite Z.shiftr_lxor, (land_shiftr_small b 8), Z.lxor_0_r by (done || lia). reflexivity.
Qed.

Lemma from_le_cons_lxor b l :
  fits 8 b -> from_le (b :: l) = Z.lxor b (Z.shiftl (from_le l) 8).
Proof.
  intros Hb. cbn [from_le]. rewrite Z.shiftl_mul_pow2, Z.mul_comm by lia.
  apply Z.add_nocarry_lxor. rewrite <- Z.shiftl_mul_pow2 by lia.
  apply Z.bits_inj'. intros i Hi. rewrite Z.land_spec, Z.bits_0.
  destruct (decide (i < 8)).
  - rewrite Z.shiftl_spec_low by lia. apply andb_false_r.
  - pose proof (land_shiftr_small b i Hb ltac:(lia)) as E.
    apply (f_equal (fun z => Z.testbit z 0)) in E.
    rewrite Z.shiftr_spec, Z.bits_0 in E by lia. rewrite Z.add_0_l in E. by rewrite E.
Qed.

(** Closed form: the register after a message is the message, read as one
    little-endian integer and xored into the register, advanced by its length. *)
Lemma fold_ref_byte data c :
  bytes_ok data ->
  fold_left ref_byte data c = adv (8 * length data) (Z.lxor c (from_le data)).
Proof.
  intros Hd. revert c. induction Hd as [|b l Hb Hl IH]; intros c.
  - cbn [length from_le Nat.mul]. by rewrite Z.lxor_0_r, adv_O.
  - rewrite fold_left_cons, IH. unfold ref_byte at 1.
    rewrite <- (adv_shiftl_same 8 (from_le l)) at 1. change (Z.of_nat 8) with 8.
    rewrite <- adv_lxor, <- adv_add, Z.lxor_assoc, <- from_le_cons_lxor by done.
    f_equal. cbn [length]. lia.
Qed.

(** Four table lookups advance a 32-bit word by its own width. *)
Lemma word_tables k w :
  (k < 5)%nat -> fits 32 w ->
  adv (8 * (k + 4)) w =
  Z.lxor (Z.lxor (Z.lxor
    (table_at (k + 3) (Z.land w 0xFF))
    (table_at (k + 2) (Z.land (Z.shiftr w 8) 0xFF)))
    (table_at (k + 1) (Z.land (Z.shiftr w 16) 0xFF)))
    (table_at k (Z.land (Z.shiftr w 24) 0xFF)).
Proof.
  intros Hk Hw. rewrite !table_at_adv by (apply land_FF_range || lia).
  rewrite (adv_low_byte _ w) by lia.
  rewrite (adv_low_byte _ (Z.shiftr w 8)), Z.shiftr_shiftr by lia.
  rewrite (adv_low_byte _ (Z.shiftr w (8 + 8))), Z.shiftr_shiftr by lia.
  rewrite (adv_low_byte _ (Z.shiftr w (8 + 8 + 8))), Z.shiftr_shiftr by lia.
  replace (Z.shiftr w (8 + 8 + 8 + 8)) with 0.
  - rewrite adv_0, Z.lxor_0_r, <- !Z.lxor_assoc.
    replace (8 * (k + 4) - 8 - 8 - 8)%nat with (8 * (k + 1))%nat by lia.
    replace (8 * (k + 4) - 8 - 8)%nat with (8 * (k + 1 + 1))%nat by lia.
    replace (8 * (k + 4) - 8)%nat with (8 * (k + 2 + 1))%nat by lia.
    replace (k + 4)%nat with (k + 3 + 1)%nat by lia.
    done.
  - symmetry. rewrite Z.shiftr_div_pow2 by lia. apply Z.div_small. apply Hw.
Qed.

Lemma fits_lxor w a b : 0 <= w -> fits w a -> fits w b -> fits w (Z.lxor a b).
Proof.
  intros Hw [Ha Ha'] [Hb Hb']. assert (0 <= Z.lxor a b) by (by apply Z.lxor_nonneg).
  split; [done |]. destruct (decide (Z.lxor a b = 0)) as [-> |];
    [by apply Z.pow_pos_nonneg |].
  apply Z.log2_lt_pow2; [lia |].
  destruct (decide (a = 0)) as [-> |].
  { rewrite Z.lxor_0_l in *. by apply Z.log2_lt_pow2; [lia |]. }
  destruct (decide (b = 0)) as [-> |].
  { rewrite Z.lxor_0_r in *. by apply Z.log2_lt_pow2; [lia |]. }
  eapply Z.le_lt_trans; [by apply Z.log2_lxor |].
  apply Z.max_lub_lt; apply Z.log2_lt_pow2; lia.
Qed.

Lemma crc_chunk_ref c d0 d1 d2 d3 d4 d5 d6 d7 :
  bytes_ok [d0; d1; d2; d3; d4; d5; d6; d7] -> fits 32 c ->
  crc_chunk c d0 d1 d2 d3 d4 d5 d6 d7 =
  fold_left ref_byte [d0; d1; d2; d3; d4; d5; d6; d7] c.
Proof.
  intros Hd Hc. pose proof Hd as [H1 H2]%(bytes_ok_app [d0; d1; d2; d3] [d4; d5; d6; d7]).
  change [d0; d1; d2; d3; d4; d5; d6; d7] with ([d0; d1; d2; d3] ++ [d4; d5; d6; d7]).
  rewrite fold_left_app, !fold_ref_byte by done. cbn [length Nat.mul Nat.add].
  rewrite adv_lxor, <- adv_add, (Z.lxor_comm c). unfold crc_chunk.
  set (one := Z.lxor _ c). set (two := from_le [d4; d5; d6; d7]).
  assert (fits 32 one) by (by apply fits_lxor; [| apply (from_le_bound [d0; d1; d2; d3]) |]).
  assert (fits 32 two) by (by apply (from_le_bound [d4; d5; d6; d7])).
  change (32 + 32)%nat with (8 * (4 + 4))%nat. rewrite (word_tables 4) by (done || lia).
  change 32%nat with (8 * (0 + 4))%nat. rewrite (word_tables 0) by (done || lia).
  cbn [Nat.add]. by rewrite <- !Z.lxor_assoc.
Qed.

(** ** The register stays 32 bits wide and never loses a difference *)

Lemma fits_bit_step c : fits 32 c -> fits 32 (bit_step c).
Proof.
  intros [? Hc]. rewrite bit_step_alt. apply fits_lxor; [lia | |].
  - rewrite Z.shiftr_div_pow2 by lia. change (2 ^ 1) with 2. unfold fits.
    split; [by apply Z.div_pos | apply Z.div_lt_upper_bound; lia].
  - destruct (Z.testbit c 0); done.
Qed.

Lemma fits_adv n c : fits 32 c -> fits 32 (adv n c).
Proof. intros. induction n; [done | rewrite adv_S; by apply fits_bit_step]. Qed.

(** The top bit of [POLY] records the bit shifted out, so a non-zero register
    stays non-zero. *)
Lemma bit_step_nonzero c : fits 32 c -> c <> 0 -> bit_step c <> 0.
Proof.
  intros Hc Hnz E. rewrite bit_step_alt in E. apply Z.lxor_eq in E.
  rewrite Z.shiftr_div_pow2 in E by lia. change (2 ^ 1) with 2 in E.
  assert (0 <= c / 2 < 2 ^ 31) as Hh.
  { destruct Hc. split; [by apply Z.div_pos | apply Z.div_lt_upper_bound; lia]. }
  pose proof (Z.bit0_mod c) as E0. destruct (Z.testbit c 0).
  - rewrite E in Hh. vm_compute in Hh. destruct Hh. discriminate.
  - pose proof (Z.div_mod c 2 ltac:(lia)). simpl in *. lia.
Qed.

Lemma adv_nonzero n c : fits 32 c -> c <> 0 -> adv n c <> 0.
Proof.
  intros Hc Hnz. induction n; [done |]. rewrite adv_S.
  apply bit_step_nonzero; [by apply fits_adv | done].
Qed.

Lemma fits_fold_ref data c :
  bytes_ok data -> fits 32 c -> fits 32 (fold_left ref_byte data c).
Proof.
  intros Hd. revert c. induction Hd as [|b l Hb Hl IH]; intros c Hc; [done |].
  rewrite fold_left_cons. apply IH. unfold ref_byte. apply fits_adv, fits_lxor; [lia | done |].
  destruct Hb. unfold fits. lia.
Qed.

Lemma crc_loop_ref data c :
  bytes_ok data -> fits 32 c -> crc_loop c data = fold_left ref_byte data c.
Proof.
  remember (length data) as n eqn:Hn. revert data c Hn.
  induction n as [n IH] using lt_wf_ind; intros data c -> Hd Hc.
  assert (forall l a, bytes_ok l -> fold_left crc_byte l a = fold_left ref_byte l a) as Htail.
  { intros l a Hl. revert a. induction Hl; intros a; [done |].
    rewrite !fold_left_cons, crc_byte_ref by done. auto. }
  do 8 (destruct data as [|? data]; [by apply Htail |]).
  unfold crc_loop. cbn [slice8_loop]. fold crc_loop. apply (bytes_ok_app [_; _; _; _; _; _; _; _] data) in Hd as [H8 Hd].
  rewrite crc_chunk_ref by done.
  rewrite (IH (length data)); [| cbn [length]; lia | reflexivity | exact Hd |].
  - by rewrite <- fold_left_app.
  - by apply fits_fold_ref.
Qed.

Lemma bit_serial_byte n b c :
  fold_left ref_bit (map (fun i => Z.testbit b (Z.of_nat i)) (seq 0 n)) c =
  Z.lxor (adv n (Z.lxor c b)) (Z.shiftr b (Z.of_nat n)).
Proof.
  revert b c. induction n as [|n IH]; intros b c.
  - cbn [seq map fold_left]. rewrite Z.shiftr_0_r, adv_O.
    by rewrite Z.lxor_assoc, Z.lxor_nilpotent, Z.lxor_0_r.
  - cbn [seq map fold_left]. rewrite <- seq_shift, map_map.
    rewrite (map_ext _ (fun i => Z.testbit (Z.shiftr b 1) (Z.of_nat i)))
      by (intros; rewrite Z.shiftr_spec by lia; f_equal; lia).
    rewrite IH, Z.shiftr_shiftr by lia. f_equal; [| f_equal; lia].
    replace (S n) with (n + 1)%nat by lia. rewrite adv_add. f_equal.
    change (adv 1) with bit_step. unfold ref_bit.
    rewrite bit_step_alt, Z.shiftr_lxor, Z.lxor_spec, !Z.lxor_assoc. f_equal.
    apply Z.lxor_comm.
Qed.

Lemma ref_bits_bytes data c :
  bytes_ok data ->
  fold_left ref_bit (concat (map byte_bits data)) c = fold_left ref_byte data c.
Proof.
  intros Hd. revert c. induction Hd as [|b l Hb Hl IH]; intros c; [done |].
  cbn [map concat]. rewrite fold_left_app, fold_left_cons, IH. f_equal. unfold byte_bits.
  rewrite bit_serial_byte, land_shiftr_small, Z.lxor_0_r by (done || lia). done.
Qed.

Lemma crc32_closed data :
  bytes_ok data ->
  crc32 data =
  Z.lxor (adv (8 * length data) (Z.lxor 0xFFFFFFFF (from_le data))) 0xFFFFFFFF.
Proof. intros. unfold crc32. by rewrite crc_loop_ref, fold_ref_byte by done. Qed.

(** ** Properties *)

(** the slicing-by-8 table-driven [crc32] computes, on every byte string,
    the bit-serial IEEE CRC-32 (reflected polynomial [0xEDB88320]). *)
Theorem crc32_is_bit_serial (data : bytes) (H : bytes_ok data) :
  crc32 data = crc32_ref data.
Proof. unfold crc32, crc32_ref. by rewrite crc_loop_ref, ref_bits_bytes. Qed.

Lemma crc32_is_bit_serial_witness :
  crc32 [49; 50; 51; 52; 53; 54; 55; 56; 57] = 0xCBF43926 /\
  crc32 [49; 50; 51; 52; 53; 54; 55; 56; 57] =
  crc32_ref [49; 50; 51; 52; 53; 54; 55; 56; 57].
Proof.
  split; [vm_compute; reflexivity |].
  apply (crc32_is_bit_serial [49; 50; 51; 52; 53; 54; 55; 56; 57]).
  by_compute.
Defined.

Lemma crc32_fits data : bytes_ok data -> fits 32 (crc32 data).
Proof.
  intros. unfold crc32. rewrite crc_loop_ref by done.
  apply fits_lxor; [lia | by apply fits_fold_ref | done].
Qed.

Lemma lxor_cancel_r a b c : Z.lxor a c = Z.lxor b c -> a = b.
Proof.
  intros E%(f_equal (fun z => Z.lxor z c)).
  by rewrite !Z.lxor_assoc, Z.lxor_nilpotent, !Z.lxor_0_r in E.
Qed.

Lemma crc32_burst (a b : bytes) (d : Z) (k : nat) :
  bytes_ok a -> bytes_ok b -> length a = length b -> 0 < d < 2 ^ 32 ->
  (k <= 8 * length a)%nat -> from_le b = Z.lxor (from_le a) (Z.shiftl d (Z.of_nat k)) ->
  crc32 a <> crc32 b.
Proof.
  intros Ha Hb Hl Hd Hk Hab.
  rewrite !crc32_closed by done. intros E%lxor_cancel_r.
  rewrite Hab, <- Hl, <- Z.lxor_assoc, (adv_lxor _ (Z.lxor _ _)) in E.
  rewrite adv_shiftl in E by done.
  rewrite <- Z.lxor_0_r in E at 1. rewrite !(Z.lxor_comm (adv _ (Z.lxor _ _))) in E.
  apply lxor_cancel_r in E. symmetry in E. revert E.
  apply adv_nonzero; [unfold fits; lia | lia].
Qed.

(** burst detection.  If two messages of the same length differ exactly by
    an error pattern [d] of at most 32 bits placed at any bit offset [k], their
    checksums differ; a corrupted 32-bit window never passes for intact. *)
Theorem crc32_detects_burst (a b : bytes) (d : Z) (k : nat)
  (Ha : bytes_ok a) (Hb : bytes_ok b) (Hl : length a = length b)
  (Hd : 0 < d < 2 ^ 32)
  (Hk : (k <= 8 * length a)%nat)
  (Hab : from_le b = Z.lxor (from_le a) (Z.shiftl d (Z.of_nat k))) :
  crc32 a <> crc32 b.
Proof. by apply (crc32_burst a b d k). Qed.

Lemma crc32_detects_burst_witness :
  crc32 [1; 2; 3; 4; 5] <> crc32 [1; 0x72; 3; 0xF4; 5].
Proof.
  apply (crc32_detects_burst [1; 2; 3; 4; 5] [1; 0x72; 3; 0xF4; 5] 0xF00070 8);
    solve [ by_compute | reflexivity | lia ].
Defined.
