(* ===== verification/Version.v ===== *)
(** * Replica versions: [src/version.rs]

    [version_gt] is the last-writer-wins rule shared by point reads, scans and
    the compaction drop gate.  The file proves when it is the total order its
    documentation claims, that the readers' "keep the best so far" fold then
    finds the maximum in whatever order tables are visited, and that without
    the clock condition it has cycles. *)

From stdpp Require Import base numbers list sets.
From Stdlib Require Import ZArith Lia.
From S2P Require Import Prelude.

Local Open Scope Z_scope.

(** ** The code *)

Record Version := mkVersion { node : u32; wall : u64; seq : u64 }.

Definition ZERO : Version := mkVersion 0 0 0.

Definition memtable (node : u32) (seq : u64) : Version := mkVersion node U64_MAX seq.

Definition table (node : u32) (wall : u64) (seq : u64) : Version := mkVersion node wall seq.

Definition version_gt (a b : Version) : bool :=
  if seq a =? 0 then false
  else if seq b =? 0 then true
  else if node a =? node b then seq b <? seq a
  else if negb (wall a =? wall b) then wall b <? wall a
  else node b <? node a.

(** The readers' accumulator: start from [ZERO], keep the better version. *)
Definition keep_best (best v : Version) : Version :=
  if version_gt v best then v else best.

Definition winner (vs : list Version) : Version := fold_left keep_best vs ZERO.

#[export] Instance Version_eq_dec : EqDecision Version.
Proof. solve_decision. Defined.

(** ** Coherence: what a set of versions needs for the rule to be an order

    Within one node sequence numbers are unique and the seal clock does not run
    backwards. *)

Definition coherent2 (a b : Version) : Prop :=
  node a = node b ->
  (seq a = seq b -> a = b) /\ (seq a < seq b -> wall a <= wall b).

Definition coherent (vs : list Version) : Prop :=
  forall a b, a ∈ vs -> b ∈ vs -> coherent2 a b.

#[export] Instance coherent2_dec a b : Decision (coherent2 a b).
Proof. unfold coherent2. apply _. Defined.

Lemma coherent_Forall vs : coherent vs <-> Forall (fun a => Forall (coherent2 a) vs) vs.
Proof.
  unfold coherent. rewrite Forall_forall. split.
  - intros H a Ha. rewrite Forall_forall. auto.
  - intros H a b Ha Hb. specialize (H a Ha). rewrite Forall_forall in H. auto.
Qed.

#[export] Instance coherent_dec vs : Decision (coherent vs).
Proof.
  refine (cast_if (decide (Forall (fun a => Forall (coherent2 a) vs) vs)));
    by rewrite coherent_Forall.
Defined.

(** ** Lemmas *)

Ltac version_lia :=
  unfold version_gt, coherent2 in *;
  repeat match goal with
  | H : context [if ?b then _ else _] |- _ => destruct b eqn:?; try discriminate
  | |- context [if ?b then _ else _] => destruct b eqn:?; try discriminate
  end; bool_lia.

Lemma version_gt_irrefl a : version_gt a a = false.
Proof. unfold version_gt. rewrite !Z.eqb_refl, !Z.ltb_irrefl. by destruct (_ =? _). Qed.

Lemma version_gt_asym a b : version_gt a b = true -> version_gt b a = false.
Proof. intros. version_lia; auto; apply Z.ltb_ge; lia. Qed.

Lemma version_gt_seq a b : version_gt a b = true -> seq a <> 0.
Proof. intros. version_lia. Qed.

(** The rule read as a lexicographic comparison across nodes. *)
Lemma version_gt_cross a b :
  seq a <> 0 -> seq b <> 0 -> node a <> node b ->
  version_gt a b = true <-> (wall b < wall a \/ (wall b = wall a /\ node b < node a)).
Proof.
  intros. unfold version_gt.
  rewrite (proj2 (Z.eqb_neq _ _)), (proj2 (Z.eqb_neq _ _)), (proj2 (Z.eqb_neq (node a) _))
    by done.
  destruct (wall a =? wall b) eqn:E; bool_lia; simpl; rewrite Z.ltb_lt; lia.
Qed.

Lemma version_gt_same a b :
  seq a <> 0 -> seq b <> 0 -> node a = node b ->
  version_gt a b = true <-> seq b < seq a.
Proof.
  intros. unfold version_gt.
  rewrite (proj2 (Z.eqb_neq _ _)), (proj2 (Z.eqb_neq _ _)), (proj2 (Z.eqb_eq (node a) _))
    by done.
  apply Z.ltb_lt.
Qed.

Lemma version_gt_total a b :
  coherent2 a b -> seq a <> 0 -> seq b <> 0 -> a <> b ->
  version_gt a b = true \/ version_gt b a = true.
Proof.
  intros Hc Ha Hb Hne. destruct (decide (node a = node b)) as [En | En].
  - rewrite !version_gt_same by done. destruct (Hc En) as [Hu _].
    destruct (decide (seq a = seq b)); [by destruct Hne; auto | lia].
  - rewrite !version_gt_cross by done. lia.
Qed.

Lemma version_gt_trans_coherent a b c :
  coherent2 a b -> coherent2 b c -> coherent2 c a ->
  coherent2 b a -> coherent2 c b -> coherent2 a c ->
  version_gt a b = true -> version_gt b c = true -> version_gt a c = true.
Proof.
  intros Hab Hbc Hca Hba Hcb Hac G1 G2.
  pose proof (version_gt_seq _ _ G1) as Sa. pose proof (version_gt_seq _ _ G2) as Sb.
  destruct (decide (seq c = 0)) as [Sc | Sc].
  { unfold version_gt. rewrite (proj2 (Z.eqb_neq _ _)), Sc by done. done. }
  destruct (decide (node a = node b)) as [E1 | E1], (decide (node b = node c)) as [E2 | E2];
    rewrite ?version_gt_same, ?version_gt_cross in G1 by done;
    rewrite ?version_gt_same, ?version_gt_cross in G2 by done.
  - rewrite version_gt_same by congruence. lia.
  - rewrite version_gt_cross by congruence. destruct (Hba (eq_sym E1)) as [_ Hw].
    rewrite <- E1 in G2. specialize (Hw G1). lia.
  - rewrite version_gt_cross by congruence. destruct (Hcb (eq_sym E2)) as [_ Hw].
    rewrite <- E2. specialize (Hw G2). lia.
  - destruct (decide (node a = node c)) as [E3 | E3].
    + rewrite version_gt_same by congruence.
      destruct (Hac E3) as [Hu Hw].
      destruct (Z.lt_trichotomy (seq a) (seq c)) as [? | [E | ?]]; [| | done].
      * specialize (Hw ltac:(lia)). lia.
      * rewrite (Hu E) in *. lia.
    + rewrite version_gt_cross by congruence. lia.
Qed.

(** The accumulator only ever holds [ZERO] or a version it was shown, and ends
    on one that no version it was shown beats. *)
Lemma keep_best_fold vs b :
  let w := fold_left keep_best vs b in w = b \/ w ∈ vs.
Proof.
  revert b. induction vs as [|v vs IH]; intros b; cbn [fold_left]; [by left |].
  destruct (IH (keep_best b v)) as [E | E]; [| right; by right].
  rewrite E. unfold keep_best. destruct (version_gt v b); [right; left | by left].
Qed.

Lemma winner_cases vs : winner vs = ZERO \/ winner vs ∈ vs.
Proof. apply keep_best_fold. Qed.

(** [b] is not beaten by anything already seen. *)
Definition unbeaten (b : Version) (vs : list Version) : Prop :=
  forall v, v ∈ vs -> version_gt v b = false.

Lemma gt_ZERO v : version_gt v ZERO = negb (seq v =? 0).
Proof. unfold version_gt. simpl. by destruct (seq v =? 0). Qed.

Lemma ZERO_gt v : version_gt ZERO v = false.
Proof. reflexivity. Qed.

Lemma unbeaten_step vs seen b v :
  coherent vs -> v ∈ vs -> (b = ZERO \/ b ∈ vs) -> (forall x, x ∈ seen -> x ∈ vs) ->
  unbeaten b seen -> unbeaten (keep_best b v) (v :: seen).
Proof.
  intros Hc Hv Hb Hs Hu x Hx. unfold keep_best.
  destruct (version_gt v b) eqn:G; apply elem_of_cons in Hx as [-> | Hx];
    [apply version_gt_irrefl | | done | by apply Hu].
  destruct (version_gt x v) eqn:Gx; [| done]. exfalso.
  pose proof (Hu x Hx) as Hxb. destruct Hb as [-> | Hb].
  - rewrite gt_ZERO in Hxb. apply version_gt_seq in Gx. bool_lia.
  - enough (version_gt x b = true) by congruence.
    eapply version_gt_trans_coherent; try eassumption; apply Hc; auto.
Qed.

Lemma unbeaten_fold vs l seen b :
  coherent vs -> (forall x, x ∈ l -> x ∈ vs) -> (b = ZERO \/ b ∈ vs) ->
  (forall x, x ∈ seen -> x ∈ vs) -> unbeaten b seen ->
  unbeaten (fold_left keep_best l b) (l ++ seen).
Proof.
  intros Hc. revert seen b. induction l as [|v l IH]; intros seen b Hl Hb Hs Hu; [done |].
  cbn [fold_left]. assert (unbeaten (fold_left keep_best l (keep_best b v)) (l ++ v :: seen)).
  { apply IH.
    - intros x Hx. apply Hl. by right.
    - unfold keep_best. destruct (version_gt v b); [right; apply Hl; left | done].
    - intros x [-> | Hx]%elem_of_cons; [apply Hl; left | by apply Hs].
    - eapply unbeaten_step; eauto. apply Hl. left. }
  intros x Hx. apply H. revert Hx. rewrite !elem_of_app, !elem_of_cons. tauto.
Qed.

Lemma winner_unbeaten vs : coherent vs -> unbeaten (winner vs) vs.
Proof.
  intros Hc. rewrite <- (app_nil_r vs) at 2.
  apply (unbeaten_fold vs); auto; intros x Hx; by apply not_elem_of_nil in Hx.
Qed.

Lemma winner_zero_seq vs : seq (winner vs) = 0 -> winner vs = ZERO.
Proof.
  unfold winner. assert (forall l b, (seq b = 0 -> b = ZERO) ->
    let w := fold_left keep_best l b in seq w = 0 -> w = ZERO) as H; [| by apply H].
  induction l as [|v l IH]; intros b Hb; cbn [fold_left]; [done |].
  apply IH. unfold keep_best. destruct (version_gt v b) eqn:G; [| done].
  apply version_gt_seq in G. done.
Qed.

(** What a winner is, independently of the fold that computes it. *)
Definition is_winner (w : Version) (vs : list Version) : Prop :=
  unbeaten w vs /\ (w = ZERO \/ (w ∈ vs /\ seq w <> 0)).

Lemma winner_is_winner vs : coherent vs -> is_winner (winner vs) vs.
Proof.
  intros Hc. split; [by apply winner_unbeaten |].
  destruct (decide (seq (winner vs) = 0)) as [Hz | Hz].
  - left. by apply winner_zero_seq.
  - right. destruct (winner_cases vs) as [E | ?]; [by rewrite E in Hz | done].
Qed.

Lemma is_winner_beats vs w v :
  coherent vs -> is_winner w vs -> v ∈ vs -> seq v <> 0 -> v <> w -> version_gt w v = true.
Proof.
  intros Hc [Hu Hw] Hv Hs Hne. pose proof (Hu v Hv) as Huv.
  destruct Hw as [-> | [Hw Hz]].
  - rewrite gt_ZERO in Huv. bool_lia.
  - destruct (version_gt_total w v) as [? | ?]; auto; congruence.
Qed.

Lemma is_winner_unique vs w w' :
  coherent vs -> is_winner w vs -> is_winner w' vs -> w = w'.
Proof.
  intros Hc Hw Hw'. destruct (decide (w = w')) as [| Hne]; [done | exfalso].
  destruct Hw as [Hu [Ew | [Hin Hs]]].
  - destruct Hw' as [_ [Ew' | [Hin' Hs']]]; [congruence |].
    specialize (Hu _ Hin'). rewrite Ew, gt_ZERO in Hu. bool_lia.
  - pose proof (is_winner_beats vs w' w Hc Hw' Hin Hs Hne).
    destruct Hw' as [_ [-> | [Hin' _]]]; [done |].
    specialize (Hu _ Hin'). congruence.
Qed.

(** ** Properties *)

(** on versions whose seal clocks agree with their sequence numbers,
    [version_gt] is the strict total order its documentation states:
    transitive, and deciding between any two distinct real versions. *)
Theorem version_gt_strict_total (vs : list Version) (Hc : coherent vs) :
  (forall a, version_gt a a = false) /\
  (forall a b c, a ∈ vs -> b ∈ vs -> c ∈ vs ->
     version_gt a b = true -> version_gt b c = true -> version_gt a c = true) /\
  (forall a b, a ∈ vs -> b ∈ vs -> seq a <> 0 -> seq b <> 0 -> a <> b ->
     version_gt a b = true \/ version_gt b a = true).
Proof.
  split; [exact version_gt_irrefl | split].
  - intros a b c Ha Hb Hcc. apply version_gt_trans_coherent; by apply Hc.
  - intros a b Ha Hb. apply version_gt_total. by apply Hc.
Qed.

Lemma coherent_example :
  coherent [table 7 100 41; table 7 200 42; table 9 150 9; memtable 7 43].
Proof. by_compute. Qed.

Lemma version_gt_strict_total_witness :
  version_gt (memtable 7 43) (table 9 150 9) = true /\
  (forall a, version_gt a a = false).
Proof.
  split; [reflexivity |].
  exact (proj1 (version_gt_strict_total
    [table 7 100 41; table 7 200 42; table 9 150 9; memtable 7 43] coherent_example)).
Defined.

(** replicas converge.  Under the clock condition the readers' fold
    returns the same winner whatever order the tables are visited in, and that
    winner beats every other real version. *)
Theorem winner_order_independent (vs vs' : list Version)
  (Hc : coherent vs) (Hp : vs ≡ₚ vs') :
  winner vs = winner vs' /\
  forall v, v ∈ vs -> seq v <> 0 -> v <> winner vs -> version_gt (winner vs) v = true.
Proof.
  assert (coherent vs') as Hc' by (intros a b; rewrite <- !Hp; apply Hc).
  split; [| intros; apply (is_winner_beats vs); auto using winner_is_winner].
  apply (is_winner_unique vs); [done | by apply winner_is_winner |].
  destruct (winner_is_winner vs' Hc') as [Hu Hw].
  split; [intros v Hv; apply Hu; by rewrite <- Hp |].
  destruct Hw as [-> | [Hw Hz]]; [by left | right].
  split; [| done]. by apply (elem_of_Permutation_proper _ _ _ Hp).
Qed.

Lemma winner_order_independent_witness :
  winner [memtable 7 43; table 9 150 9; table 7 200 42; table 7 100 41] = memtable 7 43 /\
  winner [table 7 100 41; table 7 200 42; table 9 150 9; memtable 7 43] =
  winner [memtable 7 43; table 9 150 9; table 7 200 42; table 7 100 41].
Proof.
  split; [reflexivity |].
  apply (winner_order_independent
    [table 7 100 41; table 7 200 42; table 9 150 9; memtable 7 43]
    [memtable 7 43; table 9 150 9; table 7 200 42; table 7 100 41] coherent_example).
  apply (Permutation_rev [table 7 100 41; table 7 200 42; table 9 150 9; memtable 7 43]).
Defined.

(** without the clock condition the rule is not an order.  A node whose
    older entry sits in a table with a later seal time (a compaction output
    takes the latest seal time of its inputs) and one foreign table make a
    cycle, and the fold's winner then depends on the visiting order. *)
Theorem version_gt_cycle :
  exists a b c : Version,
    seq a <> 0 /\ seq b <> 0 /\ seq c <> 0 /\ node a = node b /\ seq b < seq a /\
    version_gt a b = true /\ version_gt b c = true /\ version_gt c a = true /\
    winner [a; b; c] <> winner [c; b; a].
Proof.
  exists (table 7 50 9), (table 7 900 8), (table 3 100 12).
  repeat split; try discriminate; reflexivity.
Qed.
