(* ===== verification/Slots.v ===== *)
(** * The table-region slot allocator: [src/slots.rs]

    Two [u64] bitmaps, a next-fit hint and the region geometry, exactly as the
    source keeps them.  The abstract view is a status per slot
    ([Free], [Used] or [Reserved]); every operation is shown to be one update of
    that view, and the states the database's calls can reach are shown
    well-formed by rule induction. *)

From stdpp Require Import base numbers list sets relations.
From Stdlib Require Import ZArith Lia.
From S2P Require Import Prelude.

Local Open Scope Z_scope.

(** ** The code *)

Definition MAX_SLOTS : Z := 64.

Record SlotMap := mkSlotMap {
  base : u64;
  slot_blocks : u64;
  slots : u32;
  used : u64;
  reserved : u64;
  hint : u32;
}.

Definition new : SlotMap := mkSlotMap 0 0 0 0 0 0.

Definition layout (start end_ : u64) (n : Z) (min_blocks : u64) : option SlotMap :=
  if (n =? 0) || (MAX_SLOTS <? n) || (end_ <=? start) then None
  else
    let sb := (end_ - start) / n in
    if (sb =? 0) || (sb <? min_blocks) then None
    else Some (mkSlotMap start sb n 0 0 0).

Definition slot_base (m : SlotMap) (slot : u32) : u64 := base m + slot * slot_blocks m.

Definition checked_add64 (a b : u64) : option u64 :=
  if a + b <=? U64_MAX then Some (a + b) else None.

Definition slot_of (m : SlotMap) (first_block blocks : u64) : option u32 :=
  if (slot_blocks m =? 0) || (first_block <? base m) || (blocks =? 0) then None
  else
    let slot := (first_block - base m) / slot_blocks m in
    if slots m <=? slot then None
    else
      let slot_end := base m + (slot + 1) * slot_blocks m in
      match checked_add64 first_block blocks with
      | Some end_ => if end_ <=? slot_end then Some slot else None
      | None => None
      end.

Definition bit (slot : u32) : u64 := Z.shiftl 1 slot.

(** [x & !bit(slot)] *)
Definition clear_bit (x : u64) (slot : u32) : u64 := Z.land x (Z.lxor U64_MAX (bit slot)).

Definition with_used (m : SlotMap) (u : u64) : SlotMap :=
  mkSlotMap (base m) (slot_blocks m) (slots m) u (reserved m) (hint m).
Definition with_reserved (m : SlotMap) (r : u64) : SlotMap :=
  mkSlotMap (base m) (slot_blocks m) (slots m) (used m) r (hint m).
Definition with_hint (m : SlotMap) (h : u32) : SlotMap :=
  mkSlotMap (base m) (slot_blocks m) (slots m) (used m) (reserved m) h.

Definition mark_used (m : SlotMap) (slot : u32) : SlotMap * bool :=
  if (slots m <=? slot) || negb (Z.land (used m) (bit slot) =? 0) then (m, false)
  else (with_used m (Z.lor (used m) (bit slot)), true).

Definition set_hint_after (m : SlotMap) (slot : u32) : SlotMap :=
  if 0 <? slots m then with_hint m ((slot + 1) mod slots m) else m.

(** The [while i < self.slots] search loop; [fuel] is the iterations left. *)
Fixpoint find_free_loop (m : SlotMap) (taken : u64) (i : u32) (fuel : nat) : option u32 :=
  match fuel with
  | O => None
  | S fuel =>
      let slot := (hint m + i) mod slots m in
      if Z.land taken (bit slot) =? 0 then Some slot
      else find_free_loop m taken (i + 1) fuel
  end.

Definition find_free (m : SlotMap) : option u32 :=
  find_free_loop m (Z.lor (used m) (reserved m)) 0 (Z.to_nat (slots m)).

Definition claim (m : SlotMap) (slot : u32) : SlotMap :=
  if slot <? slots m then
    with_hint (with_used m (Z.lor (used m) (bit slot))) ((slot + 1) mod slots m)
  else m.

Definition reserve (m : SlotMap) : SlotMap * option u32 :=
  match find_free m with
  | Some slot =>
      (with_hint (with_reserved m (Z.lor (reserved m) (bit slot)))
         ((slot + 1) mod slots m), Some slot)
  | None => (m, None)
  end.

Definition commit (m : SlotMap) (slot : u32) : SlotMap :=
  if slot <? slots m then
    with_used (with_reserved m (clear_bit (reserved m) slot)) (Z.lor (used m) (bit slot))
  else m.

Definition release (m : SlotMap) (slot : u32) : SlotMap :=
  if slot <? slots m then with_reserved m (clear_bit (reserved m) slot) else m.

Definition release_all (m : SlotMap) : SlotMap := with_reserved m 0.

Definition free (m : SlotMap) (slot : u32) : SlotMap :=
  if slot <? slots m then with_used m (clear_bit (used m) slot) else m.

Definition is_used (m : SlotMap) (slot : u32) : bool :=
  (slot <? slots m) && negb (Z.land (used m) (bit slot) =? 0).

Definition is_reserved (m : SlotMap) (slot : u32) : bool :=
  (slot <? slots m) && negb (Z.land (reserved m) (bit slot) =? 0).

Definition used_slots (m : SlotMap) : Z := count_ones (used m).
Definition reserved_slots (m : SlotMap) : Z := count_ones (reserved m).
Definition free_slots (m : SlotMap) : Z := slots m - count_ones (Z.lor (used m) (reserved m)).

(** ** The abstract view and well-formedness *)

Inductive status := Free | Used | Reserved.

#[export] Instance status_eq_dec : EqDecision status.
Proof. solve_decision. Defined.

Definition status_of (m : SlotMap) (slot : Z) : status :=
  if Z.testbit (used m) slot then Used
  else if Z.testbit (reserved m) slot then Reserved
  else Free.

Definition set_status (f : Z -> status) (slot : Z) (s : status) : Z -> status :=
  fun i => if i =? slot then s else f i.

Definition valid (m : SlotMap) (slot : Z) : Prop := 0 <= slot < slots m.

Record wf (m : SlotMap) : Prop := {
  wf_slots : 0 < slots m <= MAX_SLOTS;
  wf_base : 0 <= base m;
  wf_blocks : 0 < slot_blocks m;
  wf_region : base m + slots m * slot_blocks m <= U64_MAX;
  wf_hint : 0 <= hint m < slots m;
  wf_used : fits (slots m) (used m);
  wf_reserved : fits (slots m) (reserved m);
  wf_disjoint : forall i, 0 <= i -> Z.testbit (used m) i = true ->
                  Z.testbit (reserved m) i = true -> False;
}.

(** ** Bit lemmas *)

Lemma testbit_bit s i : 0 <= s -> 0 <= i -> Z.testbit (bit s) i = (i =? s).
Proof.
  intros. unfold bit. rewrite Z.shiftl_1_l. destruct (Z.eqb_spec i s) as [-> |].
  - by apply Z.pow2_bits_true.
  - apply Z.pow2_bits_false. lia.
Qed.

Lemma testbit_set x s i :
  0 <= s -> 0 <= i -> Z.testbit (Z.lor x (bit s)) i = Z.testbit x i || (i =? s).
Proof. intros. by rewrite Z.lor_spec, testbit_bit. Qed.

Lemma testbit_clear x s i :
  0 <= s -> 0 <= i < 64 -> Z.testbit (clear_bit x s) i = Z.testbit x i && negb (i =? s).
Proof.
  intros. unfold clear_bit. rewrite Z.land_spec, Z.lxor_spec, testbit_bit by lia.
  change U64_MAX with (Z.ones 64). rewrite Z.ones_spec_low by lia.
  by destruct (i =? s).
Qed.

Lemma testbit_clear_high x s i : 0 <= s < 64 -> 64 <= i -> Z.testbit (clear_bit x s) i = false.
Proof.
  intros. unfold clear_bit. rewrite Z.land_spec, Z.lxor_spec, testbit_bit by lia.
  change U64_MAX with (Z.ones 64). rewrite Z.ones_spec_high by lia.
  destruct (Z.eqb_spec i s); [lia |]. apply andb_false_r.
Qed.

(** The source's [x & bit(slot) == 0] test reads one bit. *)
Lemma land_bit_zero x s : 0 <= s -> (Z.land x (bit s) =? 0) = negb (Z.testbit x s).
Proof.
  intros. apply Bool.eq_iff_eq_true. rewrite Z.eqb_eq, negb_true_iff. split.
  - intros E%(f_equal (fun z => Z.testbit z s)).
    rewrite Z.land_spec, testbit_bit, Z.eqb_refl, andb_true_r, Z.bits_0 in E by lia. done.
  - intros E. apply Z.bits_inj'. intros i Hi. rewrite Z.land_spec, testbit_bit, Z.bits_0 by lia.
    destruct (Z.eqb_spec i s) as [-> |]; [by rewrite E | apply andb_false_r].
Qed.

Lemma fits_testbit w x : 0 <= w ->
  fits w x <-> 0 <= x /\ forall i, w <= i -> Z.testbit x i = false.
Proof.
  intros Hw. split.
  - intros [H0 H1]. split; [done |]. intros i Hi.
    destruct (decide (x = 0)) as [-> |]; [apply Z.bits_0 |].
    apply Z.bits_above_log2; [done |]. apply Z.lt_le_trans with w; [| done].
    apply Z.log2_lt_pow2; lia.
  - intros [H0 H1]. split; [done |].
    destruct (decide (x = 0)) as [-> |]; [by apply Z.pow_pos_nonneg |].
    apply Z.log2_lt_pow2; [lia |].
    destruct (decide (Z.log2 x < w)); [done | exfalso].
    pose proof (H1 (Z.log2 x) ltac:(lia)) as E. rewrite Z.bit_log2 in E by lia. done.
Qed.

Lemma fits_set w x s : 0 <= s < w -> fits w x -> fits w (Z.lor x (bit s)).
Proof.
  intros Hs. rewrite !fits_testbit by lia. intros [H0 H1]. split.
  - apply Z.lor_nonneg. split; [done |]. unfold bit. apply Z.shiftl_nonneg. lia.
  - intros i Hi. rewrite testbit_set, H1 by lia. destruct (Z.eqb_spec i s); [lia | done].
Qed.

Lemma fits_clear w x s : 0 <= s < w -> w <= 64 -> fits w x -> fits w (clear_bit x s).
Proof.
  intros Hs Hw. rewrite !fits_testbit by lia. intros [H0 H1]. split.
  - apply Z.land_nonneg. by left.
  - intros i Hi. unfold clear_bit. rewrite Z.land_spec, H1 by lia. done.
Qed.

Lemma fits_0 w : 0 <= w -> fits w 0.
Proof. intros. split; [lia | by apply Z.pow_pos_nonneg]. Qed.

(** An executable check of [wf]. *)
Definition wfb (m : SlotMap) : bool :=
  (0 <? slots m) && (slots m <=? MAX_SLOTS) && (0 <=? base m) && (0 <? slot_blocks m) &&
  (base m + slots m * slot_blocks m <=? U64_MAX) && (0 <=? hint m) && (hint m <? slots m) &&
  bool_decide (fits (slots m) (used m)) && bool_decide (fits (slots m) (reserved m)) &&
  (Z.land (used m) (reserved m) =? 0).

Lemma wfb_wf m : wfb m = true -> wf m.
Proof.
  unfold wfb. intros H. bool_lia.
  repeat match goal with H : bool_decide _ = true |- _ => apply bool_decide_eq_true in H end.
  constructor; auto; try lia. intros i Hi Hu Hr.
  assert (Z.testbit (Z.land (used m) (reserved m)) i = true) as E
    by (by rewrite Z.land_spec, Hu, Hr).
  match goal with H : Z.land _ _ = 0 |- _ => rewrite H, Z.bits_0 in E end. done.
Qed.

(** ** The next-fit search *)

Lemma find_free_loop_some m taken i fuel s :
  0 < slots m -> find_free_loop m taken i fuel = Some s ->
  exists j, i <= j < i + Z.of_nat fuel /\ s = (hint m + j) mod slots m /\
    Z.testbit taken s = false /\
    forall k, i <= k < j -> Z.testbit taken ((hint m + k) mod slots m) = true.
Proof.
  intros Hn. revert i. induction fuel as [|fuel IH]; intros i H; [done |].
  cbn [find_free_loop] in H.
  rewrite land_bit_zero in H by (by apply Z.mod_pos_bound).
  destruct (Z.testbit taken ((hint m + i) mod slots m)) eqn:E; simpl in H.
  - apply IH in H as (j & Hj & -> & Hf & Hk). exists j. split_and!; try lia; auto.
    intros k Hk'. destruct (decide (k = i)) as [-> |]; [done | apply Hk; lia].
  - injection H as <-. exists i. split_and!; try lia; auto.
Qed.

Lemma find_free_loop_none m taken i fuel :
  0 < slots m -> find_free_loop m taken i fuel = None ->
  forall k, i <= k < i + Z.of_nat fuel -> Z.testbit taken ((hint m + k) mod slots m) = true.
Proof.
  intros Hn. revert i. induction fuel as [|fuel IH]; intros i H k Hk; [lia |].
  cbn [find_free_loop] in H.
  rewrite land_bit_zero in H by (by apply Z.mod_pos_bound).
  destruct (Z.testbit taken ((hint m + i) mod slots m)) eqn:E; simpl in H; [| done].
  destruct (decide (k = i)) as [-> |]; [done | apply (IH (i + 1)); [done | lia]].
Qed.

Lemma status_free m s :
  status_of m s = Free <-> Z.testbit (Z.lor (used m) (reserved m)) s = false.
Proof.
  unfold status_of. rewrite Z.lor_spec.
  destruct (Z.testbit (used m) s), (Z.testbit (reserved m) s); split; done.
Qed.

(** The [k]-th slot the search visits. *)
Definition probe (m : SlotMap) (k : Z) : Z := (hint m + k) mod slots m.

Lemma probe_valid m k : 0 < slots m -> valid m (probe m k).
Proof. intros. by apply Z.mod_pos_bound. Qed.

(** Every slot is visited within one rotation. *)
Lemma probe_onto m s : wf m -> valid m s -> exists k, 0 <= k < slots m /\ probe m k = s.
Proof.
  intros Hm Hs. pose proof (wf_slots m Hm). exists ((s - hint m) mod slots m).
  split; [apply Z.mod_pos_bound; lia |]. unfold probe.
  rewrite Zplus_mod_idemp_r, Zplus_minus. by apply Z.mod_small.
Qed.

Lemma find_free_spec m :
  wf m ->
  match find_free m with
  | Some s => valid m s /\ status_of m s = Free /\
      exists j, 0 <= j < slots m /\ s = probe m j /\
        forall k, 0 <= k < j -> status_of m (probe m k) <> Free
  | None => forall s, valid m s -> status_of m s <> Free
  end.
Proof.
  intros Hm. pose proof (wf_slots m Hm). unfold find_free.
  destruct (find_free_loop _ _ _ _) as [s |] eqn:E.
  - apply find_free_loop_some in E as (j & Hj & -> & Hf & Hk); [| lia].
    split; [apply probe_valid; lia |]. split; [by apply status_free |].
    exists j. split_and!; try lia; auto.
    intros k Hk'. rewrite status_free. unfold probe. rewrite Hk by lia. done.
  - intros s Hs. destruct (probe_onto m s Hm Hs) as (k & Hk & <-). rewrite status_free.
    unfold probe. rewrite (find_free_loop_none m _ 0 _ ltac:(lia) E) by lia. done.
Qed.

(** ** Every operation is one update of the abstract view *)

Ltac slot_cases :=
  unfold status_of, set_status in *; cbn [used reserved with_used with_reserved with_hint] in *;
  repeat match goal with
  | |- context [?i =? ?s] => destruct (Z.eqb_spec i s); subst
  end;
  repeat match goal with
  | H : context [if ?b then _ else _] |- _ => destruct b eqn:?; try discriminate
  end;
  rewrite ?orb_true_r, ?orb_false_r, ?andb_true_r, ?andb_false_r; try done.

Ltac wf_fields :=
  constructor;
  cbn [base slot_blocks slots used reserved hint with_used with_reserved with_hint];
  unfold MAX_SLOTS in *; auto; try lia.

(** Bits at 64 and above are never set in a well-formed map. *)
Lemma bits_high m i :
  wf m -> 64 <= i -> Z.testbit (used m) i = false /\ Z.testbit (reserved m) i = false.
Proof.
  intros Hm Hi. pose proof (wf_slots m Hm) as Hn. unfold MAX_SLOTS in Hn.
  pose proof (wf_used m Hm) as Hu. pose proof (wf_reserved m Hm) as Hr.
  apply fits_testbit in Hu as [_ Hu]; [| lia]. apply fits_testbit in Hr as [_ Hr]; [| lia].
  by rewrite Hu, Hr by lia.
Qed.

Lemma status_high m i : wf m -> 64 <= i -> status_of m i = Free.
Proof. intros Hm Hi. unfold status_of. by destruct (bits_high m i Hm Hi) as [-> ->]. Qed.

Lemma status_beyond m i : wf m -> slots m <= i -> status_of m i = Free.
Proof.
  intros Hm Hi. pose proof (wf_slots m Hm).
  pose proof (wf_used m Hm) as Hu. pose proof (wf_reserved m Hm) as Hr. unfold status_of.
  apply fits_testbit in Hu as [_ Hu]; [| lia]. apply fits_testbit in Hr as [_ Hr]; [| lia].
  by rewrite Hu, Hr by lia.
Qed.

Lemma claim_refines m s :
  wf m -> valid m s -> status_of m s = Free ->
  wf (claim m s) /\
  forall i, 0 <= i -> status_of (claim m s) i = set_status (status_of m) s Used i.
Proof.
  intros Hm Hs Hf. pose proof Hm as []. unfold valid in Hs. unfold claim.
  rewrite (proj2 (Z.ltb_lt s (slots m))) by lia. split.
  - wf_fields.
    + apply Z.mod_pos_bound; lia.
    + by apply fits_set.
    + intros i Hi. rewrite testbit_set by lia. intros [E | E]%orb_true_iff Hr; [eauto |].
      apply Z.eqb_eq in E as ->. unfold status_of in Hf. rewrite Hr in Hf.
      by destruct (Z.testbit (used m) s).
  - intros i Hi. slot_cases; rewrite testbit_set by lia; slot_cases.
Qed.

Lemma reserve_refines m :
  wf m ->
  match reserve m with
  | (m', Some s) => find_free m = Some s /\ wf m' /\ valid m s /\ status_of m s = Free /\
      forall i, 0 <= i -> status_of m' i = set_status (status_of m) s Reserved i
  | (m', None) => m' = m /\ forall s, valid m s -> status_of m s <> Free
  end.
Proof.
  intros Hm. pose proof (find_free_spec m Hm) as Hff. unfold reserve.
  destruct (find_free m) as [s |]; [| done]. destruct Hff as (Hs & Hf & _).
  pose proof Hm as []. pose proof Hs as Hs'. unfold valid in Hs'. split_and!; auto; try lia.
  - wf_fields.
    + apply Z.mod_pos_bound; lia.
    + by apply fits_set.
    + intros i Hi Hu. rewrite testbit_set by lia. intros [E | E]%orb_true_iff; [eauto |].
      apply Z.eqb_eq in E as ->. unfold status_of in Hf. by rewrite Hu in Hf.
  - intros i Hi. slot_cases; rewrite testbit_set by lia; slot_cases.
Qed.

Lemma commit_refines m s :
  wf m -> valid m s ->
  wf (commit m s) /\
  forall i, 0 <= i -> status_of (commit m s) i = set_status (status_of m) s Used i.
Proof.
  intros Hm Hs. pose proof Hm as []. unfold valid, MAX_SLOTS in *. unfold commit.
  rewrite (proj2 (Z.ltb_lt s (slots m))) by lia. split.
  - wf_fields.
    + by apply fits_set.
    + apply fits_clear; auto; lia.
    + intros i Hi. rewrite testbit_set by lia. intros Hu.
      destruct (decide (i < 64)).
      * rewrite testbit_clear by lia. intros [Hr Hne]%andb_true_iff.
        apply negb_true_iff, Z.eqb_neq in Hne. apply orb_true_iff in Hu as [Hu | E]; [eauto |].
        apply Z.eqb_eq in E. lia.
      * rewrite testbit_clear_high by lia. done.
  - intros i Hi. destruct (decide (i < 64)).
    + slot_cases; rewrite testbit_set, ?testbit_clear by lia; slot_cases.
    + destruct (bits_high m i Hm ltac:(lia)) as [Eu Er]. unfold status_of, set_status.
      cbn [used reserved with_used with_reserved].
      rewrite testbit_set, testbit_clear_high, Eu, Er by lia. by destruct (i =? s).
Qed.

Lemma release_refines m s :
  wf m -> valid m s ->
  wf (release m s) /\
  forall i, 0 <= i -> status_of (release m s) i =
    if status_of m s is Reserved then set_status (status_of m) s Free i else status_of m i.
Proof.
  intros Hm Hs. pose proof Hm as []. unfold valid, MAX_SLOTS in *. unfold release.
  rewrite (proj2 (Z.ltb_lt s (slots m))) by lia. split.
  - wf_fields.
    + apply fits_clear; auto; lia.
    + intros i Hi Hu. destruct (decide (i < 64)).
      * rewrite testbit_clear by lia. intros [Hr _]%andb_true_iff. eauto.
      * rewrite testbit_clear_high by lia. done.
  - intros i Hi. destruct (decide (i < 64)).
    + pose proof (wf_disjoint0 s ltac:(lia)) as Hd. unfold status_of, set_status.
      cbn [used reserved with_reserved]. rewrite testbit_clear by lia.
      destruct (Z.eqb_spec i s) as [-> |];
        destruct (Z.testbit (used m) s), (Z.testbit (reserved m) s);
        rewrite ?andb_true_r, ?andb_false_r; try done; by exfalso; apply Hd.
    + pose proof (status_high m i Hm ltac:(lia)) as Hh.
      assert (status_of (with_reserved m (clear_bit (reserved m) s)) i = Free) as ->.
      { destruct (bits_high m i Hm ltac:(lia)) as [Eu _]. unfold status_of.
        cbn [used reserved with_reserved]. by rewrite Eu, testbit_clear_high by lia. }
      rewrite Hh.
      unfold set_status. destruct (Z.eqb_spec i s); [lia |]. by destruct (status_of m s).
Qed.

Lemma free_refines m s :
  wf m -> valid m s ->
  wf (free m s) /\
  forall i, 0 <= i -> status_of (free m s) i =
    if status_of m s is Used then set_status (status_of m) s Free i else status_of m i.
Proof.
  intros Hm Hs. pose proof Hm as []. unfold valid, MAX_SLOTS in *. unfold free.
  rewrite (proj2 (Z.ltb_lt s (slots m))) by lia. split.
  - wf_fields.
    + apply fits_clear; auto; lia.
    + intros i Hi Hu Hr. destruct (decide (i < 64)).
      * rewrite testbit_clear in Hu by lia. apply andb_true_iff in Hu as [? _]. eauto.
      * by rewrite testbit_clear_high in Hu by lia.
  - intros i Hi. destruct (decide (i < 64)).
    + pose proof (wf_disjoint0 s ltac:(lia)) as Hd. unfold status_of, set_status.
      cbn [used reserved with_used]. rewrite testbit_clear by lia.
      destruct (Z.eqb_spec i s) as [-> |];
        destruct (Z.testbit (used m) s), (Z.testbit (reserved m) s);
        rewrite ?andb_true_r, ?andb_false_r; try done; by exfalso; apply Hd.
    + pose proof (status_high m i Hm ltac:(lia)) as Hh.
      assert (status_of (with_used m (clear_bit (used m) s)) i = Free) as ->.
      { destruct (bits_high m i Hm ltac:(lia)) as [_ Er]. unfold status_of.
        cbn [used reserved with_used]. by rewrite Er, testbit_clear_high by lia. }
      rewrite Hh.
      unfold set_status. destruct (Z.eqb_spec i s); [lia |]. by destruct (status_of m s).
Qed.

Lemma release_all_wf m : wf m -> wf (release_all m).
Proof.
  intros []. unfold release_all. wf_fields.
  - apply fits_0. lia.
  - intros i _ _. by rewrite Z.bits_0.
Qed.

Lemma mark_used_refines m s :
  wf m -> reserved m = 0 -> 0 <= s ->
  match mark_used m s with
  | (m', true) => wf m' /\ reserved m' = 0 /\ valid m s /\ status_of m s = Free /\
      forall i, 0 <= i -> status_of m' i = set_status (status_of m) s Used i
  | (m', false) => m' = m /\ (~ valid m s \/ status_of m s = Used)
  end.
Proof.
  intros Hm Hr Hs. pose proof Hm as []. unfold mark_used, valid.
  rewrite land_bit_zero, negb_involutive by done.
  destruct (slots m <=? s) eqn:El; bool_lia; [split; [done | left; lia] |]. simpl.
  destruct (Z.testbit (used m) s) eqn:Eu.
  - split; [done | right]. unfold status_of. by rewrite Eu.
  - split_and!; auto; try lia.
    + wf_fields; [by apply fits_set |]. intros i Hi _. by rewrite Hr, Z.bits_0.
    + unfold status_of. by rewrite Eu, Hr, Z.bits_0.
    + intros i Hi. slot_cases; rewrite testbit_set by lia; slot_cases.
Qed.

(** ** The calls the database makes, as a step relation

    [open] lays the region out and marks the manifest's tables; afterwards
    flush and ingest claim a slot [find_free] returned, a compaction job
    reserves, then commits or releases, and retired tables are freed. *)

Inductive init_step : SlotMap -> SlotMap -> Prop :=
| init_mark m m' s : 0 <= s -> mark_used m s = (m', true) -> init_step m m'
| init_hint m s : 0 <= s -> init_step m (set_hint_after m s).

(** A call with its argument or with what it returned. *)
Inductive slot_call :=
| Claims (s : Z)
| Reserves (r : option Z)
| Commits (s : Z)
| Releases (s : Z)
| ReleasesAll
| Frees (s : Z).

#[export] Instance slot_call_eq_dec : EqDecision slot_call.
Proof. solve_decision. Defined.

Inductive run_call : SlotMap -> slot_call -> SlotMap -> Prop :=
| run_claim m s : find_free m = Some s -> run_call m (Claims s) (claim m s)
| run_reserve m m' r : reserve m = (m', r) -> run_call m (Reserves r) m'
| run_commit m s : 0 <= s -> is_reserved m s = true -> run_call m (Commits s) (commit m s)
| run_release m s : 0 <= s -> run_call m (Releases s) (release m s)
| run_release_all m : run_call m ReleasesAll (release_all m)
| run_free m s : 0 <= s -> run_call m (Frees s) (free m s).

(** A run: the calls made, in order. *)
Inductive run_calls : SlotMap -> list slot_call -> SlotMap -> Prop :=
| run_nil m : run_calls m [] m
| run_cons m c m1 cs m2 : run_call m c m1 -> run_calls m1 cs m2 -> run_calls m (c :: cs) m2.

Inductive reachable : SlotMap -> Prop :=
| reach_layout start end_ n min m m' :
    0 <= start -> 0 <= n -> end_ <= U64_MAX ->
    layout start end_ n min = Some m -> rtc init_step m m' -> reachable m'
| reach_run m c m' : reachable m -> run_call m c m' -> reachable m'.

Lemma layout_wf start end_ n min m :
  0 <= start -> 0 <= n -> end_ <= U64_MAX -> layout start end_ n min = Some m ->
  wf m /\ reserved m = 0 /\ used m = 0.
Proof.
  intros Hs Hn He. unfold layout.
  destruct ((n =? 0) || (MAX_SLOTS <? n) || (end_ <=? start)) eqn:E1; [done |].
  destruct (((end_ - start) / n =? 0) || _) eqn:E2; [done |]. intros [= <-]. bool_lia.
  pose proof (Z.div_pos (end_ - start) n ltac:(lia) ltac:(lia)).
  pose proof (Z.mul_div_le (end_ - start) n ltac:(lia)).
  split; [| done]. wf_fields; try (apply fits_0; lia).
  intros i _. by rewrite Z.bits_0.
Qed.

Lemma set_hint_after_wf m s : wf m -> wf (set_hint_after m s).
Proof.
  intros []. unfold set_hint_after. rewrite (proj2 (Z.ltb_lt 0 (slots m))) by lia.
  wf_fields. apply Z.mod_pos_bound. lia.
Qed.

Lemma init_step_wf m m' :
  init_step m m' -> wf m /\ reserved m = 0 -> wf m' /\ reserved m' = 0.
Proof.
  intros [m1 m1' s Hs E | m1 s Hs] [Hm Hr].
  - pose proof (mark_used_refines m1 s Hm Hr Hs) as H. rewrite E in H. tauto.
  - split; [by apply set_hint_after_wf |]. unfold set_hint_after. by destruct (0 <? _).
Qed.

Lemma out_of_range_noop m s :
  ~ s < slots m -> claim m s = m /\ commit m s = m /\ release m s = m /\ free m s = m.
Proof.
  intros. unfold claim, commit, release, free.
  by rewrite (proj2 (Z.ltb_ge s (slots m))) by lia.
Qed.

Lemma run_call_wf m c m' : run_call m c m' -> wf m -> wf m'.
Proof.
  intros [m1 s E | m1 m1' r E | m1 s Hs E | m1 s Hs | m1 | m1 s Hs] Hm.
  - pose proof (find_free_spec m1 Hm) as H. rewrite E in H. destruct H as (? & ? & _).
    by apply claim_refines.
  - pose proof (reserve_refines m1 Hm) as H. rewrite E in H. destruct r; [tauto | by destruct H as [-> _]].
  - unfold is_reserved in E. bool_lia. by apply commit_refines.
  - destruct (decide (s < slots m1)); [by apply release_refines |].
    by rewrite (proj1 (proj2 (proj2 (out_of_range_noop m1 s ltac:(done))))).
  - by apply release_all_wf.
  - destruct (decide (s < slots m1)); [by apply free_refines |].
    by rewrite (proj2 (proj2 (proj2 (out_of_range_noop m1 s ltac:(done))))).
Qed.

Lemma reachable_wf m : reachable m -> wf m.
Proof.
  induction 1 as [start end_ n min m m' Hs Hn He E Hrtc | m c m' _ IH Hstep].
  - destruct (layout_wf _ _ _ _ _ Hs Hn He E) as (Hw & Hr & _).
    assert (wf m' /\ reserved m' = 0) as [? _]; [| done].
    clear E. revert Hw Hr. induction Hrtc as [| a b c Hab _ IH]; intros; [done |].
    destruct (init_step_wf _ _ Hab) as [? ?]; auto.
  - by eapply run_call_wf.
Qed.

(** ** The allocator's contract

    The abstract allocator is a status per slot.  [call_ok] says when a call (with
    its result) is right, [call_effect] the one update it makes. *)

Definition call_ok (n : Z) (f : Z -> status) (c : slot_call) : Prop :=
  match c with
  | Claims s | Reserves (Some s) => 0 <= s < n /\ f s = Free
  | Reserves None => forall s, 0 <= s < n -> f s <> Free
  | Commits s => 0 <= s < n /\ f s = Reserved
  | Releases _ | ReleasesAll | Frees _ => True
  end.

Definition call_effect (f : Z -> status) (c : slot_call) : Z -> status :=
  match c with
  | Claims s | Commits s => set_status f s Used
  | Reserves (Some s) => set_status f s Reserved
  | Reserves None => f
  | Releases s => if f s is Reserved then set_status f s Free else f
  | ReleasesAll => fun i => if f i is Reserved then Free else f i
  | Frees s => if f s is Used then set_status f s Free else f
  end.

(** The statuses after the calls [cs]. *)
Definition after (f : Z -> status) (cs : list slot_call) : Z -> status :=
  fold_left call_effect cs f.

(** [c] gives slot [s] to a writer; [c] makes [s] hold a live table. *)
Definition hands_out (c : slot_call) (s : Z) : Prop := c = Claims s \/ c = Reserves (Some s).
Definition makes_live (c : slot_call) (s : Z) : Prop := c = Claims s \/ c = Commits s.

(** [c] gives up a slot that is only reserved. *)
Definition unreserves (c : slot_call) (s : Z) : Prop := c = Releases s \/ c = ReleasesAll.

#[export] Instance unreserves_dec c s : Decision (unreserves c s).
Proof. unfold unreserves. apply _. Defined.

Lemma is_reserved_status m s :
  wf m -> 0 <= s -> is_reserved m s = true <-> valid m s /\ status_of m s = Reserved.
Proof.
  intros Hm Hs. unfold is_reserved, valid, status_of.
  rewrite land_bit_zero, negb_involutive by done. pose proof (wf_disjoint m Hm s Hs) as Hd.
  rewrite andb_true_iff, Z.ltb_lt.
  destruct (Z.testbit (used m) s), (Z.testbit (reserved m) s); intuition congruence.
Qed.

Lemma release_all_status m i :
  wf m -> status_of (release_all m) i = if status_of m i is Reserved then Free else status_of m i.
Proof.
  intros Hm. unfold status_of, release_all. cbn [used reserved with_reserved].
  rewrite Z.bits_0. by destruct (Z.testbit (used m) i), (Z.testbit (reserved m) i).
Qed.

Lemma status_neg m i : i < 0 -> status_of m i = Free.
Proof. intros. unfold status_of. by rewrite !Z.testbit_neg_r. Qed.

Lemma status_ext m' f :
  (forall i, i < 0 -> f i = Free) -> (forall i, 0 <= i -> status_of m' i = f i) ->
  forall i, status_of m' i = f i.
Proof.
  intros Hneg Hpos i. destruct (decide (i < 0)); [| apply Hpos; lia].
  by rewrite status_neg, Hneg.
Qed.

Lemma set_status_neg m s st i : 0 <= s -> i < 0 -> set_status (status_of m) s st i = Free.
Proof.
  intros. unfold set_status. destruct (Z.eqb_spec i s); [lia | by apply status_neg].
Qed.

(** Every call is right and makes exactly its update. *)
Lemma run_call_refines m c m' :
  run_call m c m' -> wf m ->
  call_ok (slots m) (status_of m) c /\ forall i, status_of m' i = call_effect (status_of m) c i.
Proof.
  intros [m1 s E | m1 m1' r E | m1 s Hs E | m1 s Hs | m1 | m1 s Hs] Hm; cbn [call_ok call_effect].
  - pose proof (find_free_spec m1 Hm) as H. rewrite E in H. destruct H as (Hv & Hf & _).
    split; [done |]. pose proof Hv as [? _].
    apply status_ext; [intros; by apply set_status_neg | by apply claim_refines].
  - pose proof (reserve_refines m1 Hm) as H. rewrite E in H. destruct r as [s |].
    + destruct H as (_ & _ & Hv & Hf & Hst). split; [done |]. pose proof Hv as [? _].
      apply status_ext; [intros; by apply set_status_neg | done].
    + destruct H as [-> H]. done.
  - apply is_reserved_status in E as [Hv Hr]; auto. split; [done |].
    apply status_ext; [intros; by apply set_status_neg | by apply commit_refines].
  - split; [done |]. destruct (decide (s < slots m1)) as [Hlt | Hge].
    + apply status_ext.
      * intros i Hi. destruct (status_of m1 s); auto using status_neg, set_status_neg.
      * intros i Hi. rewrite (proj2 (release_refines m1 s Hm (conj Hs Hlt))) by done.
        by destruct (status_of m1 s).
    + rewrite (proj1 (proj2 (proj2 (out_of_range_noop m1 s Hge)))).
      by rewrite (status_beyond m1 s) by (done || lia).
  - split; [done |]. intros i. by apply release_all_status.
  - split; [done |]. destruct (decide (s < slots m1)) as [Hlt | Hge].
    + apply status_ext.
      * intros i Hi. destruct (status_of m1 s); auto using status_neg, set_status_neg.
      * intros i Hi. rewrite (proj2 (free_refines m1 s Hm (conj Hs Hlt))) by done.
        by destruct (status_of m1 s).
    + rewrite (proj2 (proj2 (proj2 (out_of_range_noop m1 s Hge)))).
      by rewrite (status_beyond m1 s) by (done || lia).
Qed.

Lemma call_effect_ext f g c :
  (forall i, f i = g i) -> forall i, call_effect f c i = call_effect g c i.
Proof.
  intros H i. destruct c as [s | [s |] | s | s | | s]; cbn; unfold set_status; rewrite ?H; try done.
  - destruct (g s); rewrite ?H; done.
  - destruct (g s); rewrite ?H; done.
Qed.

Lemma after_ext cs f g : (forall i, f i = g i) -> forall i, after f cs i = after g cs i.
Proof.
  revert f g. induction cs as [| c cs IH]; intros f g H; [done |].
  apply IH. by apply call_effect_ext.
Qed.

Lemma call_ok_ext n f g c : (forall i, f i = g i) -> call_ok n f c -> call_ok n g c.
Proof.
  intros H. destruct c as [s | [s |] | s | s | | s]; cbn; rewrite <- ?H; try done.
  intros Hn s Hs. rewrite <- H. auto.
Qed.

Lemma run_call_slots m c m' : run_call m c m' -> slots m' = slots m.
Proof.
  intros [m1 s E | m1 m1' r E | m1 s Hs E | m1 s Hs | m1 | m1 s Hs];
    unfold claim, commit, release, free, release_all, reserve in *;
    repeat case_match; simplify_eq; done.
Qed.

Lemma run_calls_refine m cs m' :
  run_calls m cs m' -> wf m ->
  (forall i, status_of m' i = after (status_of m) cs i) /\
  forall pre c post, cs = pre ++ c :: post -> call_ok (slots m) (after (status_of m) pre) c.
Proof.
  induction 1 as [m | m c m1 cs m2 Hc _ IH]; intros Hm.
  - split; [done |]. intros pre c post. by destruct pre.
  - destruct (run_call_refines _ _ _ Hc Hm) as [Hok Hst].
    destruct (IH (run_call_wf _ _ _ Hc Hm)) as [Hend Hall]. split.
    + intros i. rewrite Hend. by apply (after_ext cs).
    + intros [| c' pre] d post; simpl; intros E; simplify_eq; [done |].
      rewrite <- (run_call_slots _ _ _ Hc).
      eapply call_ok_ext; [| by eapply Hall]. by apply (after_ext pre).
Qed.

(** A slot that holds a live table keeps it until the call that frees it. *)
Lemma after_live n cs f s :
  f s = Used -> (forall pre c post, cs = pre ++ c :: post -> call_ok n (after f pre) c) ->
  (forall c, c ∈ cs -> c <> Frees s) -> after f cs s = Used.
Proof.
  revert f. induction cs as [| c cs IH]; intros f Hf Hok Hno; [done |].
  apply IH; [| intros pre d post ->; apply (Hok (c :: pre) d post eq_refl)
             | intros d Hd; apply Hno; by right].
  pose proof (Hno c ltac:(by left)) as Hc. pose proof (Hok [] c cs eq_refl) as Hc'.
  destruct c as [t | [t |] | t | t | | t]; cbn in *; unfold set_status in *;
    repeat case_match; bool_lia; subst; destruct_and?; try done; congruence.
Qed.

(** A reserved slot stays taken until it is released or freed. *)
Lemma after_taken cs f s :
  f s <> Free -> (forall c, c ∈ cs -> c <> Frees s /\ ~ unreserves c s) -> after f cs s <> Free.
Proof.
  revert f. induction cs as [| c cs IH]; intros f Hf Hno; [done |].
  apply IH; [| intros d Hd; apply Hno; by right].
  destruct (Hno c ltac:(by left)) as [Hc Hu]. unfold unreserves in Hu.
  destruct c as [t | [t |] | t | t | | t]; cbn; unfold set_status;
    repeat case_match; bool_lia; subst; try done; try tauto; congruence.
Qed.

Lemma after_app f a b : after f (a ++ b) = after (after f a) b.
Proof. apply fold_left_app. Qed.

Lemma hands_out_free n f c s : call_ok n f c -> hands_out c s -> f s = Free.
Proof. intros H [-> | ->]; apply H. Qed.

(** ** Counting *)

Lemma count_disjoint (f g : nat -> bool) (l : list nat) :
  (forall i, f i = true -> g i = true -> False) ->
  length (List.filter (fun i => f i || g i) l) =
  (length (List.filter f l) + length (List.filter g l))%nat.
Proof.
  intros Hd. induction l as [|i l IH]; simpl; [done |].
  specialize (Hd i). destruct (f i), (g i); simpl; rewrite IH; lia.
Qed.

Lemma count_ones_lor x y :
  (forall i, 0 <= i -> Z.testbit x i = true -> Z.testbit y i = true -> False) ->
  count_ones (Z.lor x y) = count_ones x + count_ones y.
Proof.
  intros Hd. unfold count_ones. rewrite <- Nat2Z.inj_add, <- count_disjoint.
  - do 2 f_equal. apply List.filter_ext. intros i. apply Z.lor_spec.
  - intros i. apply Hd. lia.
Qed.

Lemma filter_none (f : nat -> bool) a n :
  (forall i, (a <= i)%nat -> f i = false) -> List.filter f (seq a n) = [].
Proof.
  revert a. induction n as [|n IH]; intros a Hf; simpl; [done |].
  rewrite Hf by lia. apply IH. intros. apply Hf. lia.
Qed.

Lemma count_single (s : nat) a n :
  (a <= s < a + n)%nat ->
  length (List.filter (fun i => Z.of_nat i =? Z.of_nat s) (seq a n)) = 1%nat.
Proof.
  revert a. induction n as [|n IH]; intros a Ha; [lia |]. simpl.
  destruct (Z.eqb_spec (Z.of_nat a) (Z.of_nat s)); [| apply IH; lia].
  rewrite filter_none; [done |]. intros i Hi. apply Z.eqb_neq. lia.
Qed.

Lemma count_ones_bit s : 0 <= s < 64 -> count_ones (bit s) = 1.
Proof.
  intros Hs. unfold count_ones. rewrite (List.filter_ext _ (fun i => Z.of_nat i =? Z.of_nat (Z.to_nat s))).
  - rewrite count_single by lia. done.
  - intros i. rewrite testbit_bit by lia. by rewrite Z2Nat.id by lia.
Qed.

Lemma count_ones_set x s :
  0 <= s < 64 -> Z.testbit x s = false -> count_ones (Z.lor x (bit s)) = count_ones x + 1.
Proof.
  intros Hs Hx. rewrite count_ones_lor; [by rewrite count_ones_bit |].
  intros i Hi Hxi. rewrite testbit_bit by lia. intros ->%Z.eqb_eq. congruence.
Qed.

Lemma count_below (f : nat -> bool) n m :
  (n <= m)%nat -> (forall i, (n <= i)%nat -> f i = false) ->
  (length (List.filter f (seq 0 m)) <= n)%nat.
Proof.
  intros Hnm Hf. replace m with (n + (m - n))%nat by lia.
  rewrite seq_app, List.filter_app, length_app.
  rewrite (filter_none f (0 + n)) by (intros; apply Hf; lia).
  pose proof (List.filter_length_le f (seq 0 n)). rewrite length_seq in *. simpl. lia.
Qed.

Lemma count_ones_le w x : 0 <= w <= 64 -> fits w x -> 0 <= count_ones x <= w.
Proof.
  intros Hw Hx. unfold count_ones. split; [lia |].
  apply fits_testbit in Hx as [_ Hx]; [| lia].
  pose proof (count_below (fun i => Z.testbit x (Z.of_nat i)) (Z.to_nat w) 64) as H.
  enough (length (List.filter (fun i => Z.testbit x (Z.of_nat i)) (seq 0 64)) <= Z.to_nat w)%nat by lia.
  apply H; [lia |]. intros i Hi. apply Hx. lia.
Qed.

Lemma count_ones_full w x :
  0 <= w <= 64 -> fits w x -> (forall i, 0 <= i < w -> Z.testbit x i = true) ->
  count_ones x = w.
Proof.
  intros Hw Hx Hall. pose proof (count_ones_le w x Hw Hx). enough (w <= count_ones x) by lia.
  unfold count_ones. replace 64%nat with (Z.to_nat w + (64 - Z.to_nat w))%nat at 1 by lia.
  rewrite seq_app, List.filter_app, length_app.
  rewrite List.forallb_filter_id, length_seq; [lia |].
  apply forallb_forall. intros i Hi%in_seq. apply Hall. lia.
Qed.

Lemma taken_fits m : wf m -> fits (slots m) (Z.lor (used m) (reserved m)).
Proof.
  intros Hm. pose proof (wf_slots m Hm). pose proof (wf_used m Hm) as Hu.
  pose proof (wf_reserved m Hm) as Hr. rewrite fits_testbit in * by lia.
  destruct Hu as [? Hu], Hr as [? Hr]. split; [by apply Z.lor_nonneg |].
  intros i Hi. by rewrite Z.lor_spec, Hu, Hr by lia.
Qed.

(** ** Geometry *)

Lemma slot_of_spec m f b s :
  wf m -> 0 <= f -> 0 <= b ->
  slot_of m f b = Some s <->
  valid m s /\ 0 < b /\ slot_base m s <= f /\ f + b <= slot_base m (s + 1).
Proof.
  intros [] Hf Hb. unfold slot_of, checked_add64, slot_base, valid. split.
  - destruct ((slot_blocks m =? 0) || (f <? base m) || (b =? 0)) eqn:E1; [done |].
    destruct (slots m <=? _) eqn:E2; [done |].
    destruct (f + b <=? U64_MAX) eqn:E3; [| done]. cbv beta iota zeta.
    destruct (f + b <=? base m + _) eqn:E4; [| done]. intros [= <-]. bool_lia.
    pose proof (Z.div_pos (f - base m) (slot_blocks m) ltac:(lia) ltac:(lia)).
    pose proof (Z.mul_div_le (f - base m) (slot_blocks m) ltac:(lia)). lia.
  - intros (Hs & Hb0 & Hlo & Hhi).
    assert ((f - base m) / slot_blocks m = s) as ->.
    { symmetry. apply Z.div_unique with (r := f - base m - slot_blocks m * s); lia. }
    assert ((s + 1) * slot_blocks m <= slots m * slot_blocks m) by (apply Z.mul_le_mono_nonneg_r; lia).
    assert (0 <= s * slot_blocks m) by (apply Z.mul_nonneg_nonneg; lia).
    rewrite (proj2 (Z.eqb_neq _ _)), (proj2 (Z.ltb_ge _ _)), (proj2 (Z.eqb_neq _ _)) by lia.
    rewrite (proj2 (Z.leb_gt _ _)) by lia. cbn [orb].
    by rewrite (proj2 (Z.leb_le _ _)), (proj2 (Z.leb_le _ _)) by lia.
Qed.

(** ** Properties *)

(** every slot map the database can reach, from any region layout through
    any interleaving of the open-time rebuild and the claim, reserve, commit,
    release and free calls, is well-formed: no slot is both used and reserved,
    no bit lies outside the region, the hint is in range; and the three counters
    account for every slot. *)
Theorem reachable_invariant (m : SlotMap) (H : reachable m) :
  wf m /\ used_slots m + reserved_slots m + free_slots m = slots m /\ 0 <= free_slots m.
Proof.
  apply reachable_wf in H as Hm. split; [done |].
  unfold used_slots, reserved_slots, free_slots.
  rewrite count_ones_lor by apply (wf_disjoint m Hm).
  pose proof (wf_slots m Hm) as Hn. unfold MAX_SLOTS in Hn.
  pose proof (count_ones_le (slots m) _ ltac:(lia) (taken_fits m Hm)) as Hc.
  rewrite count_ones_lor in Hc by apply (wf_disjoint m Hm). lia.
Qed.

Lemma reachable_invariant_witness :
  exists m, layout 100 200 4 3 = Some m /\ wf (fst (reserve m)).
Proof.
  eexists. split; [reflexivity |].
  refine (proj1 (reachable_invariant _ _)).
  eapply reach_run; [| eapply run_reserve; apply surjective_pairing].
  eapply (reach_layout 100 200 4 3); [lia | lia | vm_compute; discriminate | reflexivity | ].
  apply rtc_refl.
Defined.

(** [find_free] is next-fit and complete.  On a well-formed map it returns
    the first free slot in rotation order from the hint, and returns [None] only
    when no slot of the region is free; [reserve] succeeds exactly when
    [free_slots] is positive. *)
Theorem find_free_next_fit (m : SlotMap) (Hm : wf m) :
  match find_free m with
  | Some s => valid m s /\ status_of m s = Free /\
      exists j, 0 <= j < slots m /\ s = (hint m + j) mod slots m /\
        forall k, 0 <= k < j -> status_of m ((hint m + k) mod slots m) <> Free
  | None => forall s, valid m s -> status_of m s <> Free
  end /\
  (0 < free_slots m <-> exists s, snd (reserve m) = Some s).
Proof.
  split; [exact (find_free_spec m Hm) |].
  pose proof (reserve_refines m Hm) as Hr. pose proof (wf_slots m Hm) as Hn.
  unfold MAX_SLOTS in Hn. destruct (reserve m) as [m' [s |]]; simpl.
  - split; [by exists s |]. intros _. destruct Hr as (_ & Hm' & Hs & Hf & Hst).
    unfold free_slots, valid in *. apply status_free in Hf.
    pose proof (count_ones_set _ s ltac:(lia) Hf) as Hc.
    pose proof (count_ones_le (slots m) _ ltac:(lia) (fits_set _ _ s Hs (taken_fits m Hm))).
    lia.
  - destruct Hr as [_ Hr]. split; [| by intros [? ?]]. intros Hpos. exfalso.
    assert (count_ones (Z.lor (used m) (reserved m)) = slots m) as Hfull.
    { apply count_ones_full; [lia | by apply taken_fits |]. intros s Hs.
      pose proof (Hr s Hs) as Hns. rewrite status_free in Hns.
      by destruct (Z.testbit (Z.lor _ _) s). }
    unfold free_slots in Hpos. lia.
Qed.

Lemma find_free_next_fit_witness :
  find_free (mkSlotMap 100 25 4 13 0 2) = Some 1 /\
  (0 < free_slots (mkSlotMap 100 25 4 13 0 2) <->
   exists s, snd (reserve (mkSlotMap 100 25 4 13 0 2)) = Some s).
Proof.
  split; [reflexivity |].
  apply (find_free_next_fit (mkSlotMap 100 25 4 13 0 2)).
  apply wfb_wf. reflexivity.
Defined.

(** C40: refinement.  Along any run of calls from a reachable map, the bitmaps
    follow the abstract allocator exactly: each call is right when it is made
    (a slot handed out was free, [reserve] fails only when no slot is, a commit is
    of a reserved slot) and the statuses at the end are the ones its updates give.
    So a slot that was claimed, or reserved and then committed, is not handed out
    again before the call that frees it, and a slot that was reserved not before a
    call that releases or frees it. *)
Theorem slot_calls_refine_contract (m m' : SlotMap) (cs : list slot_call)
  (Hr : reachable m) (Hs : run_calls m cs m') :
  (forall i, status_of m' i = after (status_of m) cs i) /\
  (forall pre c post, cs = pre ++ c :: post -> call_ok (slots m) (after (status_of m) pre) c) /\
  (forall pre c mid d post s, cs = pre ++ c :: mid ++ d :: post -> hands_out d s ->
     (makes_live c s -> Frees s ∈ mid) /\
     (c = Reserves (Some s) -> exists e, e ∈ mid /\ (e = Frees s \/ unreserves e s))).
Proof.
  destruct (run_calls_refine _ _ _ Hs (reachable_wf _ Hr)) as [Hend Hok].
  split; [done |]. split; [done |]. intros pre c mid d post s E Hd.
  pose proof (Hok (pre ++ c :: mid) d post ltac:(by rewrite E, <- app_assoc)) as Hfree.
  apply (hands_out_free _ _ _ s) in Hfree; [| done]. rewrite after_app in Hfree. simpl in Hfree. split.
  - intros Hl. destruct (decide (Frees s ∈ mid)) as [| Hno]; [done | exfalso].
    rewrite (after_live (slots m)) in Hfree; [done | | | intros e He ->; contradiction].
    2: { intros a e b ->. pose proof (Hok (pre ++ c :: a) e (b ++ d :: post)) as H.
         rewrite after_app in H. apply H. by rewrite E, <- !app_assoc. }
    destruct Hl as [-> | ->]; cbn; unfold set_status; by rewrite Z.eqb_refl.
  - intros ->. destruct (decide (Exists (fun e => e = Frees s \/ unreserves e s) mid)) as [H | Hno].
    { by apply Exists_exists in H as (e & ? & ?); exists e. }
    exfalso. eapply (after_taken mid); [| | exact Hfree].
    + cbn. unfold set_status. by rewrite Z.eqb_refl.
    + intros e He. split; intros ?; apply Hno, Exists_exists; eauto.
Qed.

Lemma slot_calls_refine_contract_witness :
  exists m m', layout 100 200 2 3 = Some m /\
    run_calls m [Reserves (Some 0); Commits 0; Claims 1; Reserves None; Frees 0; Reserves (Some 0)] m' /\
    status_of m' 0 = Reserved /\ status_of m' 1 = Used.
Proof.
  eexists _, _. split; [reflexivity |].
  assert (run_calls (mkSlotMap 100 50 2 0 0 0)
    [Reserves (Some 0); Commits 0; Claims 1; Reserves None; Frees 0; Reserves (Some 0)]
    (mkSlotMap 100 50 2 2 1 1)) as Hrun.
  { eapply run_cons; [apply (run_reserve _ (mkSlotMap 100 50 2 0 1 1)); reflexivity |].
    eapply run_cons; [apply run_commit; [lia | reflexivity] |].
    eapply run_cons; [apply run_claim; reflexivity |].
    eapply run_cons; [eapply run_reserve; reflexivity |].
    eapply run_cons; [apply run_free; lia |].
    eapply run_cons; [eapply run_reserve; reflexivity | apply run_nil]. }
  split; [exact Hrun |].
  assert (reachable (mkSlotMap 100 50 2 0 0 0)) as Hre.
  { eapply (reach_layout 100 200 2 3); [lia | lia | vm_compute; discriminate | reflexivity | ].
    apply rtc_refl. }
  pose proof (proj1 (slot_calls_refine_contract _ _ _ Hre Hrun)) as H.
  split; rewrite H; reflexivity.
Defined.

(** one table per slot.  [slot_of] names slot [s] for a run of blocks
    exactly when the non-empty run lies wholly inside slot [s] of the region, so
    runs in different slots never share a block. *)
Theorem slot_of_exact (m : SlotMap) (Hm : wf m) (f b f' b' : u64)
  (Hf : 0 <= f) (Hb : 0 <= b) (Hf' : 0 <= f') (Hb' : 0 <= b') :
  (forall s, slot_of m f b = Some s <->
     valid m s /\ 0 < b /\ slot_base m s <= f /\ f + b <= slot_base m (s + 1)) /\
  (forall s s', slot_of m f b = Some s -> slot_of m f' b' = Some s' -> s <> s' ->
     f + b <= f' \/ f' + b' <= f).
Proof.
  split; [intros s; by apply slot_of_spec |].
  intros s s' H1 H2 Hne.
  apply slot_of_spec in H1 as (? & _ & Hlo & Hhi); auto.
  apply slot_of_spec in H2 as (? & _ & Hlo' & Hhi'); auto.
  unfold slot_base in *. pose proof (wf_blocks m Hm).
  destruct (decide (s < s')); [left | right].
  - assert ((s + 1) * slot_blocks m <= s' * slot_blocks m)
      by (apply Z.mul_le_mono_nonneg_r; lia). lia.
  - assert ((s' + 1) * slot_blocks m <= s * slot_blocks m)
      by (apply Z.mul_le_mono_nonneg_r; lia). lia.
Qed.

Lemma slot_of_exact_witness :
  slot_of (mkSlotMap 100 25 4 0 0 0) 126 20 = Some 1 /\
  (126 + 20 <= 150 \/ 150 + 25 <= 126).
Proof.
  split; [reflexivity |].
  apply (proj2 (slot_of_exact (mkSlotMap 100 25 4 0 0 0)
    (wfb_wf (mkSlotMap 100 25 4 0 0 0) eq_refl) 126 20 150 25 ltac:(lia) ltac:(lia) ltac:(lia) ltac:(lia)) 1 2);
    [reflexivity | reflexivity | lia].
Defined.
