(* ===== verification/Cache.v ===== *)
(** * The block cache: [src/cache.rs] and [read_block_cached] of [src/sstable.rs]

    A fixed array of entries, a CLOCK hand and two saturating counters.  Array
    indexing out of range and a CLOCK sweep that would not stop are the value
    [None], so that the theorems rule both out.  The last section puts the cache
    in front of a device whose blocks are rewritten as tables come and go, and
    proves that a read through it is a read of the device. *)

From stdpp Require Import base numbers list sets relations.
From Stdlib Require Import ZArith Lia.
From S2P Require Import Prelude Device.

(** ** The code *)

Record CacheEntry := mkEntry {
  table_id : u32;
  block_id : u64;
  occupied : bool;
  refbit : bool;
  data : bytes;
}.

Definition empty_entry (block : nat) : CacheEntry :=
  mkEntry 0 0 false false (replicate block 0%Z).

Record CacheStats := mkStats { st_hits : u64; st_misses : u64; st_len : nat; st_capacity : nat }.

(** [SLOTS] is the length of [entries]. *)
Record BlockCache := mkCache {
  entries : list CacheEntry;
  hand : nat;
  hits : u64;
  misses : u64;
}.

Definition new (block slots : nat) : BlockCache :=
  mkCache (replicate slots (empty_entry block)) 0 0 0.

Definition enabled (c : BlockCache) : bool := (0 <? length (entries c))%nat.

Definition saturating_incr (x : u64) : u64 := Z.min (x + 1) U64_MAX.

(** [e.occupied && e.table_id == table_id && e.block_id == block_id] *)
Definition tagged (t : u32) (b : u64) (e : CacheEntry) : bool :=
  occupied e && (table_id e =? t)%Z && (block_id e =? b)%Z.

Definition set_ref (e : CacheEntry) (r : bool) : CacheEntry :=
  mkEntry (table_id e) (block_id e) (occupied e) r (data e).

(** The first entry with the tag gets its reference bit updated by [f]; the loop
    returns there. *)
Fixpoint touch (t : u32) (b : u64) (f : CacheEntry -> bool) (l : list CacheEntry)
  : option (list CacheEntry * bytes) :=
  match l with
  | [] => None
  | e :: l =>
      if tagged t b e then Some (set_ref e (f e) :: l, data e)
      else match touch t b f l with
           | Some (l', d) => Some (e :: l', d)
           | None => None
           end
  end.

Definition get_into (c : BlockCache) (t : u32) (b : u64) : BlockCache * option bytes :=
  if negb (enabled c) then
    (mkCache (entries c) (hand c) (hits c) (saturating_incr (misses c)), None)
  else
    match touch t b (fun _ => true) (entries c) with
    | Some (l, d) => (mkCache l (hand c) (saturating_incr (hits c)) (misses c), Some d)
    | None => (mkCache (entries c) (hand c) (hits c) (saturating_incr (misses c)), None)
    end.

Definition next_hand (c : BlockCache) : nat :=
  if (length (entries c) <=? hand c + 1)%nat then 0 else hand c + 1.

(** The CLOCK [loop]; [None] is an out-of-range hand or no clear slot within
    [fuel] advances. *)
Fixpoint clock_loop (fuel : nat) (c : BlockCache) (t : u32) (b : u64) (blk : bytes) (hot : bool)
  : option BlockCache :=
  match fuel with
  | O => None
  | S fuel =>
      match entries c !! hand c with
      | None => None
      | Some e =>
          if negb (refbit e) then
            Some (mkCache (<[hand c := mkEntry t b true hot blk]> (entries c))
                    (next_hand c) (hits c) (misses c))
          else
            clock_loop fuel
              (mkCache (<[hand c := set_ref e false]> (entries c))
                 (next_hand c) (hits c) (misses c)) t b blk hot
      end
  end.

Definition put (c : BlockCache) (t : u32) (b : u64) (blk : bytes) (hot : bool)
  : option BlockCache :=
  if negb (enabled c) then Some c
  else
    match touch t b (fun e => refbit e || hot) (entries c) with
    | Some (l, _) => Some (mkCache l (hand c) (hits c) (misses c))
    | None => clock_loop (length (entries c) + 1) c t b blk hot
    end.

Definition invalidate_entry (t : u32) (e : CacheEntry) : CacheEntry :=
  if occupied e && (table_id e =? t)%Z
  then mkEntry (table_id e) (block_id e) false false (data e) else e.

Definition invalidate_table (c : BlockCache) (t : u32) : BlockCache :=
  if negb (enabled c) then c
  else mkCache (map (invalidate_entry t) (entries c)) (hand c) (hits c) (misses c).

Definition stats (c : BlockCache) : CacheStats :=
  mkStats (hits c) (misses c) (length (List.filter occupied (entries c))) (length (entries c)).

(** [impl CachePort for RefCell<BlockCache>]: a cell already borrowed by an
    interleaved read is bypassed in silence. *)
Record CacheCell := mkCell { cell : BlockCache; borrowed : bool }.

Definition port_get_into (p : CacheCell) (t : u32) (b : u64) : CacheCell * option bytes :=
  if borrowed p then (p, None)
  else let '(c, r) := get_into (cell p) t b in (mkCell c false, r).

Definition port_put (p : CacheCell) (t : u32) (b : u64) (blk : bytes) (hot : bool)
  : option CacheCell :=
  if borrowed p then Some p
  else match put (cell p) t b blk hot with Some c => Some (mkCell c false) | None => None end.

Definition port_invalidate (p : CacheCell) (t : u32) : CacheCell :=
  if borrowed p then p else mkCell (invalidate_table (cell p) t) false.

(** The read-through funnel.  The outer [option] is [None] where [put] is. *)
Definition read_block_cached `{BlockDevice D E} (d : D) (cache : option CacheCell)
  (t : u32) (b : u64) (hot : bool) : option (option CacheCell * result bytes (Error E)) :=
  let after_miss (cache : option CacheCell) :=
    match read_block d b with
    | Err e => Some (cache, Err (Device e))
    | Ok blk =>
        match cache with
        | None => Some (None, Ok blk)
        | Some p =>
            match port_put p t b blk hot with
            | Some p' => Some (Some p', Ok blk)
            | None => None
            end
        end
    end in
  match cache with
  | None => after_miss None
  | Some p =>
      match port_get_into p t b with
      | (p', Some blk) => Some (Some p', Ok blk)
      | (p', None) => after_miss (Some p')
      end
  end.

(** ** Well-formedness *)

Definition tag (e : CacheEntry) : Z * Z := (table_id e, block_id e).

(** The hand is a slot, a free slot's reference bit is clear, and no two
    occupied slots carry the same tag. *)
Record wf (c : BlockCache) : Prop := {
  wf_hand : enabled c = true -> (hand c < length (entries c))%nat;
  wf_free : forall e, e ∈ entries c -> occupied e = false -> refbit e = false;
  wf_unique : forall i j e e', entries c !! i = Some e -> entries c !! j = Some e' ->
     occupied e = true -> occupied e' = true -> tag e = tag e' -> i = j;
}.

(** What a lookup sees. *)
Definition holds (c : BlockCache) (t : u32) (b : u64) (blk : bytes) : Prop :=
  exists e, e ∈ entries c /\ occupied e = true /\ tag e = (t, b) /\ data e = blk.

(** ** Lemmas *)

Lemma tagged_spec t b e : tagged t b e = true <-> occupied e = true /\ tag e = (t, b).
Proof.
  unfold tagged, tag. rewrite !andb_true_iff, !Z.eqb_eq. split; [intros [[]] | intros [? [=]]];
    subst; auto.
Qed.

Lemma touch_some t b f l l' d :
  touch t b f l = Some (l', d) ->
  exists i e, l !! i = Some e /\ tagged t b e = true /\ data e = d /\
    l' = <[i := set_ref e (f e)]> l.
Proof.
  revert l'. induction l as [|e l IH]; intros l' H; simpl in H; [done |].
  destruct (tagged t b e) eqn:Et.
  - injection H as <- <-. by exists 0%nat, e.
  - destruct (touch t b f l) as [[l1 d1] |] eqn:El; [| done]. injection H as <- <-.
    destruct (IH l1 eq_refl) as (i & e' & ? & ? & ? & ->). by exists (S i), e'.
Qed.

Lemma touch_none t b f l : touch t b f l = None <-> forall e, e ∈ l -> tagged t b e = false.
Proof.
  induction l as [|e l IH]; simpl.
  - split; [intros _ e He; by apply not_elem_of_nil in He | done].
  - setoid_rewrite elem_of_cons. destruct (tagged t b e) eqn:Et.
    + split; [done |]. intros H. rewrite (H e) in Et by auto. done.
    + destruct (touch t b f l) as [[] |].
      * split; [done |]. intros H. enough (Some (l0, l1) = None) by done. apply IH. auto.
      * split; [| done]. intros _ e' [-> | He']; [done |]. by apply IH.
Qed.

(** Updating a reference bit in place changes no tag and no image. *)
Lemma insert_ref_lookup (l : list CacheEntry) i e r j e' :
  l !! i = Some e -> <[i := set_ref e r]> l !! j = Some e' ->
  exists e0, l !! j = Some e0 /\ tag e' = tag e0 /\ occupied e' = occupied e0 /\
    data e' = data e0 /\ (refbit e' = refbit e0 \/ (e0 = e /\ refbit e' = r)).
Proof.
  intros Hi Hj. destruct (decide (i = j)) as [-> | Hne].
  - rewrite list_lookup_insert_eq in Hj by (by eapply lookup_lt_Some).
    injection Hj as <-. exists e. split_and!; auto.
  - rewrite list_lookup_insert_ne in Hj by done. exists e'. split_and!; auto.
Qed.

Lemma wf_set_ref c i e r h hs ms :
  wf c -> entries c !! i = Some e -> (occupied e = true \/ r = false) ->
  (enabled c = true -> (h < length (entries c))%nat) ->
  wf (mkCache (<[i := set_ref e r]> (entries c)) h hs ms).
Proof.
  intros [Hh Hf Hu] Hi Hr Hhand. constructor; unfold enabled in *; cbn [entries hand] in *;
    rewrite ?length_insert; auto.
  - intros e' (j & Hj)%list_elem_of_lookup Ho.
    destruct (insert_ref_lookup _ _ _ _ _ _ Hi Hj) as (e0 & He0 & _ & Eo & _ & Er).
    rewrite Eo in Ho. assert (e0 ∈ entries c) as Hin by (apply list_elem_of_lookup; eauto).
    destruct Er as [-> | [-> ->]]; [by apply Hf |]. destruct Hr; [congruence | done].
  - intros j k ej ek Hj Hk Hoj Hok Ht.
    destruct (insert_ref_lookup _ _ _ _ _ _ Hi Hj) as (e1 & He1 & Et1 & Eo1 & _).
    destruct (insert_ref_lookup _ _ _ _ _ _ Hi Hk) as (e2 & He2 & Et2 & Eo2 & _).
    apply (Hu j k e1 e2); congruence.
Qed.

Lemma next_hand_lt c : (hand c < length (entries c))%nat -> (next_hand c < length (entries c))%nat.
Proof. unfold next_hand. destruct (_ <=? _)%nat eqn:E; bool_lia. Qed.

(** ** The CLOCK sweep *)

Definition count_ref (l : list CacheEntry) : nat := length (List.filter refbit l).

Lemma count_ref_clear l i e :
  l !! i = Some e -> refbit e = true -> count_ref l = S (count_ref (<[i := set_ref e false]> l)).
Proof.
  revert i. induction l as [|e0 l IH]; intros [|i] Hi Hr; simpl in Hi; try done.
  - injection Hi as <-. unfold count_ref. simpl. by rewrite Hr.
  - unfold count_ref in *. simpl. specialize (IH i Hi Hr).
    destruct (refbit e0); simpl; lia.
Qed.

(** Each advance clears one reference bit, so one more advance than there are
    set bits is enough; the hand never leaves the array. *)
Lemma clock_loop_total fuel c t b blk hot :
  (hand c < length (entries c))%nat -> (count_ref (entries c) < fuel)%nat ->
  is_Some (clock_loop fuel c t b blk hot).
Proof.
  revert c. induction fuel as [|fuel IH]; intros c Hh Hc; [lia |]. cbn [clock_loop].
  destruct (lookup_lt_is_Some_2 _ _ Hh) as [e He]. rewrite He.
  destruct (refbit e) eqn:Er; simpl; [| by eexists].
  apply IH; cbn [entries hand].
  - rewrite length_insert. by apply next_hand_lt.
  - rewrite (count_ref_clear _ _ _ He Er) in Hc. lia.
Qed.

(** [l'] is [l] with some reference bits cleared. *)
Definition cleared : list CacheEntry -> list CacheEntry -> Prop :=
  Forall2 (fun e e' => e' = e \/ e' = set_ref e false).

Lemma cleared_refl l : cleared l l.
Proof. unfold cleared. induction l; constructor; auto. Qed.

Lemma cleared_trans l1 l2 l3 : cleared l1 l2 -> cleared l2 l3 -> cleared l1 l3.
Proof.
  unfold cleared. intros H. revert l3. induction H as [|x y l1 l2 Hxy _ IH]; intros l3 H;
    inversion H as [|y' z l2' l3' Hyz]; subst; constructor; [| by apply IH].
  destruct Hxy as [-> | ->], Hyz as [-> | ->]; auto.
Qed.

Lemma cleared_insert (l : list CacheEntry) i e :
  l !! i = Some e -> cleared l (<[i := set_ref e false]> l).
Proof.
  unfold cleared. revert i. induction l as [|x l IH]; intros [|i] Hi; simpl in *; try done.
  - injection Hi as <-. constructor; [by right |]. apply cleared_refl.
  - constructor; [by left | by apply IH].
Qed.

Lemma next_hand_mod c :
  (hand c < length (entries c))%nat -> next_hand c = ((hand c + 1) mod length (entries c))%nat.
Proof.
  intros. unfold next_hand. destruct (_ <=? _)%nat eqn:E; bool_lia.
  - replace (hand c + 1)%nat with (length (entries c)) by lia. by rewrite Nat.Div0.mod_same.
  - rewrite Nat.mod_small by lia. done.
Qed.

(** Slot visited after [k] advances. *)
Definition sweep (c : BlockCache) (k : nat) : nat := ((hand c + k) mod length (entries c))%nat.

Definition ref_at (c : BlockCache) (i : nat) : bool :=
  match entries c !! i with Some e => refbit e | None => false end.

Lemma clock_loop_spec fuel c t b blk hot c' :
  (hand c < length (entries c))%nat -> clock_loop fuel c t b blk hot = Some c' ->
  exists k l, let j := sweep c k in
    cleared (entries c) l /\ entries c' = <[j := mkEntry t b true hot blk]> l /\
    (hand c' < length (entries c))%nat /\
    (forall i, (i < k)%nat -> ref_at c (sweep c i) = true) /\
    (ref_at c j = false \/ (length (entries c) <= k)%nat).
Proof.
  revert c. induction fuel as [|fuel IH]; intros c Hh Hc; [done |]. cbn [clock_loop] in Hc.
  destruct (lookup_lt_is_Some_2 _ _ Hh) as [e He]. rewrite He in Hc.
  assert (sweep c 0 = hand c) as Hs0 by (unfold sweep; rewrite Nat.add_0_r; by apply Nat.mod_small).
  destruct (refbit e) eqn:Er; simpl in Hc.
  - apply IH in Hc as (k & l & Hcl & He' & Hh' & Href & Hend); clear IH;
      cbn [entries hand] in *; [| rewrite length_insert; by apply next_hand_lt].
    rewrite length_insert in *. set (n := length (entries c)) in *.
    set (c1 := mkCache _ _ _ _) in *.
    assert (forall i, sweep c1 i = sweep c (S i)) as Hsw.
    { intros i. unfold sweep, c1. cbn [hand entries]. rewrite length_insert, next_hand_mod by done.
      fold n. rewrite Nat.Div0.add_mod_idemp_l. f_equal. lia. }
    assert (forall i, ref_at c1 i = true -> ref_at c i = true) as Hmono.
    { intros i. unfold ref_at, c1. cbn [entries]. destruct (decide (i = hand c)) as [-> | Hne].
      - rewrite list_lookup_insert_eq by done. done.
      - by rewrite list_lookup_insert_ne by done. }
    exists (S k), l. rewrite <- Hsw. split_and!; auto.
    + eapply cleared_trans; [by apply cleared_insert | done].
    + intros [|i] Hi; [rewrite Hs0; unfold ref_at; by rewrite He |].
      rewrite <- Hsw. apply Hmono, Href. lia.
    + destruct Hend as [Hend | Hend]; [| right; lia].
      destruct (decide (sweep c1 k = hand c)) as [Eh | Hne].
      * right. rewrite Hsw in Eh. unfold sweep in Eh. fold n in Eh.
        destruct (decide (n <= S k)%nat); [done | exfalso].
        destruct (decide (hand c + S k < n)%nat).
        -- rewrite Nat.mod_small in Eh by done. lia.
        -- replace (hand c + S k)%nat with (hand c + S k - n + 1 * n)%nat in Eh by lia.
           rewrite Nat.Div0.mod_add, Nat.mod_small in Eh by lia. lia.
      * left. unfold ref_at, c1 in *. cbn [entries] in *.
        by rewrite list_lookup_insert_ne in Hend by done.
  - injection Hc as <-. exists 0%nat, (entries c). rewrite Hs0. cbn [entries hand].
    split_and!; auto using cleared_refl, next_hand_lt; try (intros; lia).
    left. unfold ref_at. by rewrite He.
Qed.

Lemma sweep_onto c i :
  (hand c < length (entries c))%nat -> (i < length (entries c))%nat ->
  exists k, (k < length (entries c))%nat /\ sweep c k = i.
Proof.
  intros Hh Hi. set (n := length (entries c)) in *.
  exists ((i + n - hand c) mod n)%nat. split; [apply Nat.mod_upper_bound; lia |].
  unfold sweep. fold n. rewrite Nat.Div0.add_mod_idemp_r.
  replace (hand c + (i + n - hand c))%nat with (i + 1 * n)%nat by lia.
  rewrite Nat.Div0.mod_add. by apply Nat.mod_small.
Qed.

Lemma cleared_lookup l l' i e' :
  cleared l l' -> l' !! i = Some e' ->
  exists e, l !! i = Some e /\ (e' = e \/ e' = set_ref e false).
Proof.
  intros Hc Hi. unfold cleared in Hc.
  destruct (Forall2_lookup_r _ _ _ _ _ Hc Hi) as (e & He & Heq). eauto.
Qed.

Lemma cleared_same l l' i e e' :
  cleared l l' -> l !! i = Some e -> l' !! i = Some e' ->
  tag e' = tag e /\ occupied e' = occupied e /\ data e' = data e.
Proof.
  intros Hc Hi Hi'. destruct (cleared_lookup _ _ _ _ Hc Hi') as (e0 & He0 & [-> | ->]);
    rewrite Hi in He0; by injection He0 as ->.
Qed.

Lemma clock_wf fuel c t b blk hot c' :
  wf c -> enabled c = true -> (forall e, e ∈ entries c -> tagged t b e = false) ->
  clock_loop fuel c t b blk hot = Some c' -> wf c'.
Proof.
  intros Hw He Hnew Hc. pose proof (wf_hand c Hw He) as Hh.
  destruct (clock_loop_spec _ _ _ _ _ _ _ Hh Hc) as (k & l & Hcl & He' & Hh' & _).
  set (j := sweep c k) in *. pose proof (Forall2_length _ _ _ Hcl) as Hlen.
  assert (forall i e', entries c' !! i = Some e' ->
    (e' = mkEntry t b true hot blk /\ i = j) \/
    (exists e, entries c !! i = Some e /\ (e' = e \/ e' = set_ref e false))) as Hcase.
  { intros i e' Hi. rewrite He' in Hi. destruct (decide (i = j)) as [-> | Hne].
    - left. rewrite list_lookup_insert_eq in Hi; [by injection Hi |].
      rewrite <- Hlen. apply Nat.mod_upper_bound. lia.
    - right. rewrite list_lookup_insert_ne in Hi by done. by eapply cleared_lookup. }
  constructor.
  - intros _. by rewrite He', length_insert, <- Hlen.
  - intros e' (i & Hi)%list_elem_of_lookup Ho.
    destruct (Hcase i e' Hi) as [[-> _] | (e & Hie & [-> | ->])]; [done | | done].
    apply (wf_free c Hw); [apply list_elem_of_lookup; eauto | done].
  - intros i1 i2 e1 e2 H1 H2 Ho1 Ho2 Ht.
    destruct (Hcase _ _ H1) as [[-> ->] | (x1 & Hx1 & E1)],
             (Hcase _ _ H2) as [[-> ->] | (x2 & Hx2 & E2)]; [done | | |].
    + exfalso. assert (tagged t b x2 = true) as Hx.
      { apply tagged_spec. destruct E2 as [-> | ->]; auto. }
      rewrite Hnew in Hx; [done |]. apply list_elem_of_lookup. eauto.
    + exfalso. assert (tagged t b x1 = true) as Hx.
      { apply tagged_spec. destruct E1 as [-> | ->]; auto. }
      rewrite Hnew in Hx; [done |]. apply list_elem_of_lookup. eauto.
    + apply (wf_unique c Hw i1 i2 x1 x2); auto;
        destruct E1 as [-> | ->], E2 as [-> | ->]; auto.
Qed.

(** ** Every operation keeps the cache well-formed *)

Lemma new_wf block slots : wf (new block slots).
Proof.
  constructor; cbn [entries hand new].
  - intros He. unfold enabled in He. cbn [entries new] in He. bool_lia.
  - intros e [-> _]%elem_of_replicate _. done.
  - intros i j e e' [-> _]%lookup_replicate. done.
Qed.

Lemma touch_wf c t b f l d hs ms :
  wf c -> touch t b f (entries c) = Some (l, d) -> wf (mkCache l (hand c) hs ms).
Proof.
  intros Hw Ht. destruct (touch_some _ _ _ _ _ _ Ht) as (i & e & Hi & Htag & _ & ->).
  apply tagged_spec in Htag as [Ho _]. apply wf_set_ref; auto. apply Hw.
Qed.

Lemma get_into_wf c t b : wf c -> wf (fst (get_into c t b)).
Proof.
  intros Hw. unfold get_into. destruct (negb (enabled c)).
  - destruct Hw. by constructor.
  - destruct (touch _ _ _ _) as [[l d] |] eqn:Ht; simpl.
    + by eapply touch_wf.
    + destruct Hw. by constructor.
Qed.

Lemma put_total c t b blk hot : wf c -> exists c', put c t b blk hot = Some c' /\ wf c'.
Proof.
  intros Hw. unfold put. destruct (enabled c) eqn:He; simpl; [| by eauto].
  destruct (touch _ _ _ _) as [[l d] |] eqn:Ht.
  - eexists. split; [done |]. by eapply touch_wf.
  - destruct (clock_loop_total (length (entries c) + 1) c t b blk hot) as [c' Hc'].
    + by apply Hw.
    + pose proof (List.filter_length_le refbit (entries c)). unfold count_ref. lia.
    + exists c'. split; [done |]. eapply clock_wf; eauto. exact (proj1 (touch_none _ _ _ _) Ht).
Qed.

Lemma invalidate_wf c t : wf c -> wf (invalidate_table c t).
Proof.
  intros Hw. unfold invalidate_table. destruct (negb (enabled c)); [done |].
  assert (forall i e', map (invalidate_entry t) (entries c) !! i = Some e' ->
    exists e, entries c !! i = Some e /\
      (e' = e \/ (occupied e' = false /\ refbit e' = false))) as Hcase.
  { intros i e' Hi. apply list_lookup_fmap_Some in Hi as (e & -> & He). exists e. split; [done |].
    unfold invalidate_entry. destruct (_ && _); auto. }
  constructor; unfold enabled; cbn [entries hand]; rewrite ?length_map.
  - apply Hw.
  - intros e' (i & Hi)%list_elem_of_lookup Ho.
    destruct (Hcase i e' Hi) as (e & He & [-> | [_ ?]]); [| done].
    apply (wf_free c Hw); [apply list_elem_of_lookup; eauto | done].
  - intros i j e e' Hi Hj Ho Ho' Ht.
    destruct (Hcase _ _ Hi) as (x & Hx & [-> | [? _]]); [| congruence].
    destruct (Hcase _ _ Hj) as (y & Hy & [-> | [? _]]); [| congruence].
    by apply (wf_unique c Hw i j x y).
Qed.

(** ** What a lookup returns *)

Lemma wf_tag_eq c e e' :
  wf c -> e ∈ entries c -> e' ∈ entries c -> occupied e = true -> occupied e' = true ->
  tag e = tag e' -> e = e'.
Proof.
  intros Hw (i & Hi)%list_elem_of_lookup (j & Hj)%list_elem_of_lookup Ho Ho' Ht.
  rewrite (wf_unique c Hw i j e e') in Hi by done. congruence.
Qed.

Lemma get_into_spec c t b :
  wf c -> enabled c = true ->
  forall blk, snd (get_into c t b) = Some blk <-> holds c t b blk.
Proof.
  intros Hw He blk. unfold get_into, holds. rewrite He. simpl.
  destruct (touch _ _ _ _) as [[l d] |] eqn:Ht; simpl.
  - destruct (touch_some _ _ _ _ _ _ Ht) as (i & e & Hi & Htag & <- & _).
    apply tagged_spec in Htag as [Ho Htag].
    assert (e ∈ entries c) as Hin by (apply list_elem_of_lookup; eauto). split.
    + intros [= <-]. eauto.
    + intros (e' & Hin' & Ho' & Ht' & <-). do 2 f_equal.
      apply (wf_tag_eq c); auto. congruence.
  - rewrite touch_none in Ht. split; [done |]. intros (e & Hin & Ho & Htag & _).
    specialize (Ht e Hin). enough (tagged t b e = true) by congruence. by apply tagged_spec.
Qed.

Lemma get_hit c t b blk : wf c -> snd (get_into c t b) = Some blk -> holds c t b blk.
Proof.
  intros Hw Hg. destruct (enabled c) eqn:He; [by apply get_into_spec |].
  unfold get_into in Hg. by rewrite He in Hg.
Qed.

Lemma put_holds c t b blk hot c' :
  wf c -> put c t b blk hot = Some c' ->
  (forall t' b' blk', holds c' t' b' blk' -> holds c t' b' blk' \/ (t', b', blk') = (t, b, blk)) /\
  (enabled c = true -> (exists blk0, holds c t b blk0) \/ holds c' t b blk).
Proof.
  intros Hw. unfold put. destruct (enabled c) eqn:He; simpl; [| intros [= <-]; split; [auto | done]].
  destruct (touch _ _ _ _) as [[l d] |] eqn:Ht.
  - destruct (touch_some _ _ _ _ _ _ Ht) as (i & e & Hi & Htag & Hd & ->). intros [= <-].
    split.
    + intros t' b' blk' (e' & (j & Hj)%list_elem_of_lookup & Ho & Htg & Hdt). left.
      cbn [entries] in Hj. destruct (insert_ref_lookup _ _ _ _ _ _ Hi Hj)
        as (e0 & He0 & Et & Eo & Ed & _).
      exists e0. split_and!; try congruence. apply list_elem_of_lookup. eauto.
    + intros _. left. exists d, e. apply tagged_spec in Htag as [? ?]. split_and!; auto.
      apply list_elem_of_lookup. eauto.
  - intros Hc. pose proof (wf_hand c Hw He) as Hh.
    destruct (clock_loop_spec _ _ _ _ _ _ _ Hh Hc) as (k & l & Hcl & He' & _).
    set (j := sweep c k) in *. pose proof (Forall2_length _ _ _ Hcl) as Hlen.
    assert (j < length l)%nat as Hj.
    { rewrite <- Hlen. apply Nat.mod_upper_bound. lia. }
    split.
    + intros t' b' blk' (e' & (i & Hi)%list_elem_of_lookup & Ho & Htg & Hdt).
      rewrite He' in Hi. destruct (decide (i = j)) as [-> | Hne].
      * rewrite list_lookup_insert_eq in Hi by done. injection Hi as <-. right.
        unfold tag in Htg. simpl in *. congruence.
      * rewrite list_lookup_insert_ne in Hi by done. left.
        destruct (cleared_lookup _ _ _ _ Hcl Hi) as (e & Hie & Eq).
        exists e. split; [apply list_elem_of_lookup; eauto |].
        destruct Eq as [-> | ->]; auto.
    + intros _. right. exists (mkEntry t b true hot blk). rewrite He'. split_and!; auto.
      apply list_elem_of_lookup. exists j. by apply list_lookup_insert_eq.
Qed.

Lemma get_holds c t b t' b' blk : holds (fst (get_into c t b)) t' b' blk -> holds c t' b' blk.
Proof.
  unfold get_into. destruct (negb (enabled c)); [done |].
  destruct (touch _ _ _ _) as [[l d] |] eqn:Ht; [| done]. simpl.
  destruct (touch_some _ _ _ _ _ _ Ht) as (i & e & Hi & _ & _ & ->).
  intros (e' & (j & Hj)%list_elem_of_lookup & Ho & Htg & Hdt). cbn [entries] in Hj.
  destruct (insert_ref_lookup _ _ _ _ _ _ Hi Hj) as (e0 & He0 & Et & Eo & Ed & _).
  exists e0. split_and!; try congruence. apply list_elem_of_lookup. eauto.
Qed.

Lemma invalidate_holds c t t' b' blk :
  holds (invalidate_table c t) t' b' blk -> holds c t' b' blk /\ (enabled c = true -> t' <> t).
Proof.
  unfold invalidate_table. destruct (enabled c) eqn:He; simpl; [| done].
  intros (e' & (i & Hi)%list_elem_of_lookup & Ho & Htg & Hd). cbn [entries] in Hi.
  apply list_lookup_fmap_Some in Hi as (e & -> & Hie). unfold invalidate_entry in *.
  destruct (occupied e && (table_id e =? t)%Z) eqn:E; [done |].
  split; [exists e; split_and!; auto; apply list_elem_of_lookup; eauto |].
  intros _ ->. rewrite Ho in E. unfold tag in Htg. injection Htg as Hid _. bool_lia.
Qed.

(** ** The cache in front of a live device

    A state is the device, the cache, the blocks each live table owns and the
    next table id.  Tables are immutable once published and block ids are reused
    after a table is retired, exactly the situation the cache's key is for. *)

Section system.
  Context `{DeviceLaws D E}.

Record sys := mkSys {
  dev : D;
  cache : CacheCell;
  live : list (Z * Z);
  next_id : Z;
}.

Definition with_cache (s : sys) (p : CacheCell) : sys := mkSys (dev s) p (live s) (next_id s).

Inductive sys_step : sys -> sys -> Prop :=
| sys_read s t b hot p r :
    (t, b) ∈ live s ->
    read_block_cached (dev s) (Some (cache s)) t b hot = Some (Some p, r) ->
    sys_step s (with_cache s p)
| sys_borrow s br : sys_step s (with_cache s (mkCell (cell (cache s)) br))
| sys_write s b blk d' r :
    (forall t, (t, b) ∉ live s) -> write_block (dev s) b blk = (d', r) ->
    sys_step s (mkSys d' (cache s) (live s) (next_id s))
| sys_publish s bs :
    sys_step s (mkSys (dev s) (cache s) (map (pair (next_id s)) bs ++ live s) (next_id s + 1))
| sys_retire s t :
    sys_step s (mkSys (dev s) (cache s)
      (List.filter (fun tb => negb (fst tb =? t)%Z) (live s)) (next_id s))
| sys_invalidate s t :
    sys_step s (with_cache s (port_invalidate (cache s) t)).

Record sys_inv (s : sys) : Prop := {
  si_wf : wf (cell (cache s));
  si_live : forall t b, (t, b) ∈ live s -> (t < next_id s)%Z;
  si_ids : forall t b blk, holds (cell (cache s)) t b blk -> (t < next_id s)%Z;
  si_image : forall t b blk, holds (cell (cache s)) t b blk -> (t, b) ∈ live s ->
    read_block (dev s) b = Ok blk;
}.

(** A read through the cache never fails to return, returns what the device
    returns, and keeps the cached images true. *)
Lemma read_through (d : D) (p : CacheCell) t b hot :
  wf (cell p) -> (forall blk, holds (cell p) t b blk -> read_block d b = Ok blk) ->
  exists p', read_block_cached d (Some p) t b hot =
      Some (Some p', map_err Device (read_block d b)) /\
    wf (cell p') /\
    (forall t' b' blk', holds (cell p') t' b' blk' ->
       holds (cell p) t' b' blk' \/ ((t', b') = (t, b) /\ read_block d b = Ok blk')).
Proof.
  intros Hw Him. destruct p as [c br]. cbn [cell] in *.
  unfold read_block_cached, port_get_into, port_put. cbn [borrowed cell]. destruct br.
  - cbn [borrowed]. destruct (read_block d b) as [blk | e]; cbn [map_err];
      eexists; (split; [done |]); auto.
  - pose proof (get_into_wf c t b Hw) as Hw'.
    pose proof (get_hit c t b) as Hhit. pose proof (get_holds c t b) as Hgh.
    destruct (get_into c t b) as [c' o]. cbn [fst snd] in *.
    destruct o as [blk |].
    + exists (mkCell c' false). cbn [cell]. rewrite (Him blk); auto.
    + cbn [borrowed cell]. destruct (read_block d b) as [blk | e] eqn:Er; cbn [map_err].
      * destruct (put_total c' t b blk hot Hw') as (c2 & Ep & Hw2). rewrite Ep.
        eexists. split; [done |]. cbn [cell]. split; [done |]. intros t' b' blk' Hh.
        destruct (proj1 (put_holds _ _ _ _ _ _ Hw' Ep) t' b' blk' Hh) as [? | [= -> -> ->]]; auto.
      * eexists. split; [done |]. auto.
Qed.

Lemma read_cached_spec s t b hot :
  sys_inv s -> (t, b) ∈ live s ->
  exists p, read_block_cached (dev s) (Some (cache s)) t b hot =
      Some (Some p, map_err Device (read_block (dev s) b)) /\
    wf (cell p) /\
    (forall t' b' blk', holds (cell p) t' b' blk' ->
       holds (cell (cache s)) t' b' blk' \/
       ((t', b') = (t, b) /\ read_block (dev s) b = Ok blk')).
Proof. intros [Hw Hl Hi Him] Hlive. apply read_through; eauto. Qed.

Lemma sys_step_inv s s' : sys_step s s' -> sys_inv s -> sys_inv s'.
Proof.
  intros Hstep Hinv. pose proof Hinv as [Hw Hl Hi Him].
  destruct Hstep as [s t b hot p r Hin Hr | s br | s b blk d' r Hno Hwr | s bs | s t | s t].
  - destruct (read_cached_spec s t b hot Hinv Hin) as (p' & E' & Hwp & Hh).
    rewrite E' in Hr. injection Hr as <- _.
    constructor; cbn [with_cache dev cache live next_id]; auto; intros t' b' blk' Hb;
      destruct (Hh _ _ _ Hb) as [? | [[= -> ->] ?]]; eauto.
  - constructor; cbn [with_cache dev cache live next_id cell]; auto.
  - constructor; cbn [dev cache live next_id]; auto. intros t' b' blk' Hb Hin.
    rewrite (read_unwritten _ _ _ b' _ _ Hwr); [eauto |]. intros ->. by eapply Hno.
  - constructor; cbn [dev cache live next_id]; auto.
    + intros t b [(x & [= -> ->] & _)%list_elem_of_fmap | Hin]%elem_of_app; [lia |].
      apply Hl in Hin. lia.
    + intros t b blk Hb. apply Hi in Hb. lia.
    + intros t b blk Hb [(x & [= -> ->] & _)%list_elem_of_fmap | Hin]%elem_of_app; [| eauto].
      apply Hi in Hb. lia.
  - constructor; cbn [dev cache live next_id]; auto.
    + intros t' b' Hin%list_elem_of_In%filter_In. eapply Hl, list_elem_of_In, Hin.
    + intros t' b' blk Hb Hin%list_elem_of_In%filter_In. eapply Him; eauto.
      apply list_elem_of_In, Hin.
  - assert (wf (cell (port_invalidate (cache s) t)) /\ forall t' b' blk,
      holds (cell (port_invalidate (cache s) t)) t' b' blk ->
      holds (cell (cache s)) t' b' blk) as [Hw' Hh].
    { unfold port_invalidate. destruct (borrowed (cache s)); [done |]. cbn [cell].
      split; [by apply invalidate_wf |]. intros t' b' blk [? _]%invalidate_holds. done. }
    constructor; cbn [with_cache dev cache live next_id]; eauto.
Qed.

(** The state after opening: an empty cache, no table published yet. *)
Definition sys_start (d : D) (block slots : nat) : sys :=
  mkSys d (mkCell (new block slots) false) [] 0.

Lemma start_inv d block slots : sys_inv (sys_start d block slots).
Proof.
  assert (forall t b blk, ~ holds (new block slots) t b blk) as Hno.
  { intros t b blk (e & [-> _]%elem_of_replicate & Ho & _). done. }
  constructor; cbn; auto using new_wf.
  - intros t b Hin. by apply not_elem_of_nil in Hin.
  - intros t b blk Hh. by apply Hno in Hh.
  - intros t b blk Hh. by apply Hno in Hh.
Qed.

(** C39: the cache is transparent.  After any history of cached reads,
    concurrent bypasses, device writes to blocks no live table owns, table
    publications, retirements and invalidations (block ids being reused by later
    tables), a read of a live table's block through the cache returns exactly
    what the device returns for that block, errors included. *)
Theorem cache_transparent (d0 : D) (block slots : nat) (s : sys) (t : u32) (b : u64) (hot : bool)
  (Hrun : rtc sys_step (sys_start d0 block slots) s) (Hlive : (t, b) ∈ live s) :
  exists p, read_block_cached (dev s) (Some (cache s)) t b hot =
    Some (Some p, map_err Device (read_block (dev s) b)).
Proof.
  assert (sys_inv s) as Hinv.
  { remember (sys_start d0 block slots) as s0 eqn:E0.
    assert (sys_inv s0) as H1 by (subst; apply start_inv). clear E0 Hlive.
    induction Hrun; eauto using sys_step_inv. }
  destruct (read_cached_spec s t b hot Hinv Hlive) as (p & -> & _). eauto.
Qed.
End system.

Lemma cache_transparent_witness :
  exists p, @read_block_cached _ _ (MemDisk.device 4) (<[5%Z := [1; 2; 3; 4]%Z]> ∅)
    (Some (mkCell (new 4 2) false)) 0 5 true =
    Some (Some p, map_err Device (Ok [1; 2; 3; 4]%Z)).
Proof.
  pose (d := <[5%Z := [1; 2; 3; 4]%Z]> ∅ : MemDisk.disk).
  apply (@cache_transparent _ _ (MemDisk.device 4) (MemDisk.laws 4) d 4 2
    (mkSys d (mkCell (new 4 2) false) [(0, 5)%Z] 1) 0 5 true).
  - eapply rtc_l; [| apply rtc_refl].
    apply (@sys_publish _ _ (MemDisk.device 4) (@sys_start _ d 4 2) [5%Z]).
  - left.
Defined.

(** ** Properties of the cache alone *)

(** [put] always returns (the CLOCK sweep stops within one advance per
    slot plus one, with the hand in range) and stores: on an enabled cache a
    block put under a tag not already cached is the block the next lookup of the
    tag copies out, and no other tag's image changes. *)
Theorem put_then_get (c : BlockCache) (t : u32) (b : u64) (blk : bytes) (hot : bool)
  (Hw : wf c) (He : enabled c = true) (Hnew : snd (get_into c t b) = None) :
  exists c', put c t b blk hot = Some c' /\ wf c' /\
    snd (get_into c' t b) = Some blk /\
    forall t' b' blk', (t', b') <> (t, b) ->
      snd (get_into c' t' b') = Some blk' -> snd (get_into c t' b') = Some blk'.
Proof.
  destruct (put_total c t b blk hot Hw) as (c' & Ep & Hw'). exists c'.
  destruct (put_holds _ _ _ _ _ _ Hw Ep) as [Hold Hnew']. split_and!; auto.
  - destruct (Hnew' He) as [[blk0 Hh] | Hh].
    + apply get_into_spec in Hh; auto. congruence.
    + apply get_into_spec; auto. destruct Hh as (e & Hin & _). unfold enabled.
      apply Nat.ltb_lt. destruct (entries c'); [by apply not_elem_of_nil in Hin | simpl; lia].
  - intros t' b' blk' Hne Hg. apply get_into_spec; auto. apply get_hit in Hg; auto.
    destruct (Hold _ _ _ Hg) as [? | [= -> -> _]]; [done | by destruct Hne].
Qed.

Lemma put_then_get_witness :
  exists c', put (new 4 2) 7 9 [1; 2; 3; 4]%Z true = Some c' /\ wf c' /\
    snd (get_into c' 7 9) = Some [1; 2; 3; 4]%Z.
Proof.
  destruct (put_then_get (new 4 2) 7 9 [1; 2; 3; 4]%Z true (new_wf 4 2) eq_refl eq_refl)
    as (c' & ? & ? & ? & _).
  exists c'. auto.
Defined.

(** second chance.  When [put] has to evict and some slot's reference bit
    is clear, every cached block whose reference bit is set stays cached: only a
    block not used since the hand last passed is displaced. *)
Theorem put_second_chance (c c' : BlockCache) (t : u32) (b : u64) (blk : bytes) (hot : bool)
  (Hw : wf c) (Hput : put c t b blk hot = Some c')
  (Hclear : exists e, e ∈ entries c /\ refbit e = false)
  (e : CacheEntry) (Hin : e ∈ entries c) (Ho : occupied e = true) (Hr : refbit e = true) :
  holds c' (table_id e) (block_id e) (data e).
Proof.
  unfold put in Hput. destruct (enabled c) eqn:He; simpl in Hput; [| injection Hput as <-; by exists e].
  apply list_elem_of_lookup in Hin as (i & Hi).
  destruct (touch _ _ _ _) as [[l d] |] eqn:Ht.
  - destruct (touch_some _ _ _ _ _ _ Ht) as (j & e1 & Hj & Htag & Hd & ->).
    injection Hput as <-. unfold holds. cbn [entries].
    destruct (decide (i = j)) as [-> | Hne].
    + rewrite Hi in Hj. injection Hj as <-. exists (set_ref e (refbit e || hot)).
      split_and!; auto. apply list_elem_of_lookup. exists j.
      apply list_lookup_insert_eq. by eapply lookup_lt_Some.
    + exists e. split_and!; auto. apply list_elem_of_lookup. exists i.
      by rewrite list_lookup_insert_ne.
  - pose proof (wf_hand c Hw He) as Hh.
    destruct (clock_loop_spec _ _ _ _ _ _ _ Hh Hput) as (k & l & Hcl & He' & _ & Href & Hend).
    set (j := sweep c k) in *.
    assert (i <> j) as Hij.
    { intros ->. destruct Hend as [Hend | Hend].
      - unfold ref_at in Hend. rewrite Hi in Hend. congruence.
      - destruct Hclear as (e0 & (i0 & Hi0)%list_elem_of_lookup & Hr0).
        destruct (sweep_onto c i0 Hh) as (k0 & Hk0 & Es); [by eapply lookup_lt_Some |].
        specialize (Href k0 ltac:(lia)). rewrite Es in Href. unfold ref_at in Href.
        rewrite Hi0 in Href. congruence. }
    destruct (Forall2_lookup_l _ _ _ _ _ Hcl Hi) as (e2 & He2 & _).
    destruct (cleared_same _ _ _ _ _ Hcl Hi He2) as (Et & Eo & Ed).
    exists e2. rewrite He', Et, Eo, Ed. split_and!; auto.
    apply list_elem_of_lookup. exists i. by rewrite list_lookup_insert_ne.
Qed.

(** A two-slot cache whose first block has been used and whose second has not. *)
Definition demo_cache : BlockCache :=
  mkCache [mkEntry 1 10 true true [7%Z]; mkEntry 1 11 true false [8%Z]] 0 0 0.

Lemma demo_cache_wf : wf demo_cache.
Proof.
  constructor.
  - intros _. simpl. lia.
  - intros e He Ho. repeat (apply elem_of_cons in He as [-> | He]; [done |]).
    by apply not_elem_of_nil in He.
  - intros [|[|i]] [|[|j]] e e' Hi Hj; simpl in *; try done; try lia;
      injection Hi as <-; injection Hj as <-; done.
Qed.

Lemma put_second_chance_witness :
  exists c', put demo_cache 2 20 [9%Z] false = Some c' /\ holds c' 1 10 [7%Z].
Proof.
  eexists. split; [reflexivity |].
  eapply (put_second_chance demo_cache _ 2 20 [9%Z] false demo_cache_wf eq_refl
    ltac:(exists (mkEntry 1 11 true false [8%Z]); split; [right; left | reflexivity])
    (mkEntry 1 10 true true [7%Z]) ltac:(left) eq_refl eq_refl).
Defined.
