(* ===== verification/Compress.v ===== *)
(** * The LZ77 block codec: [src/compress.rs]

    The encoder is state passing over the scratch ([head] table and staged
    output); each [emit_*] returns the new scratch and the source's success
    flag, and a failed emission is the source's early [return None].  The
    decoder runs over the destination array with every write bounds-checked: an
    out-of-range access is the outcome [Panic], so that the theorems rule it
    out.  The input cursor [src[sp..]] is the list of bytes still to be read. *)

From stdpp Require Import base numbers list.
From Stdlib Require Import ZArith Lia.
From S2P Require Import Prelude.

(** ** The encoder *)

Definition COMPRESS_MIN_SAVING : nat := 128.
Definition MIN_MATCH : nat := 4.
Definition HASH_BITS : Z := 10.
Definition HASH_SIZE : nat := 1024.
Definition MAX_MATCH : Z := 65536.

Record scratch := mkScratch { head : list u32; out : bytes }.

Definition empty_head : list u32 := replicate HASH_SIZE U32_MAX.

Definition new : scratch := mkScratch empty_head [].

(** An emission: the scratch and whether the staging buffer had room. *)
Definition emission : Type := scratch -> scratch * bool.

(** [if !f { return None } g] *)
Definition then_emit (f g : emission) : emission :=
  fun s => match f s with (s, true) => g s | (s, false) => (s, false) end.

Notation "f >>> g" := (then_emit f g) (at level 61, left associativity) : horton_scope.

Section encoder.
  (** The [BLOCK] const generic: capacity of the staging buffer. *)
  Variable BLOCK : nat.

Definition emit (b : u8) : emission := fun s =>
  if (BLOCK <=? length (out s))%nat then (s, false)
  else (mkScratch (head s) (out s ++ [b]), true).

Definition emit_token (lit_len tok_ml : nat) : emission :=
  let lit := if (lit_len <? 15)%nat then lit_len else 15%nat in
  let mat := if (tok_ml <? 15)%nat then tok_ml else 15%nat in
  emit (Z.lor (Z.shiftl (Z.of_nat lit) 4) (Z.of_nat mat)).

(** The [while rem >= 255] loop and the last byte; [rem + 1] steps are enough. *)
Fixpoint emit_ext_loop (fuel rem : nat) : emission := fun s =>
  match fuel with
  | O => (s, false)
  | S fuel =>
      if (255 <=? rem)%nat then (emit 255 >>> emit_ext_loop fuel (rem - 255)) s
      else emit (Z.of_nat rem) s
  end.

Definition emit_ext (len : nat) : emission := fun s =>
  if (len <? 15)%nat then (s, true) else emit_ext_loop (S (len - 15)) (len - 15) s.

Definition emit_literals (src : bytes) (lo hi : nat) : emission := fun s =>
  let n := (hi - lo)%nat in
  if (BLOCK <? length (out s) + n)%nat then (s, false)
  else (mkScratch (head s) (out s ++ sub lo n src), true).

Definition emit_u16 (v : nat) : emission := fun s =>
  if (v =? 0)%nat || (65535 <? Z.of_nat v)%Z then (s, false)
  else (emit (Z.land (Z.of_nat v) 255) >>> emit (Z.land (Z.shiftr (Z.of_nat v) 8) 255)) s.

(** [(v.wrapping_mul(0x9E37_79B9) >> (32 - HASH_BITS)) as usize] *)
Definition hash (src : bytes) (p : nat) : nat :=
  let v := from_le (sub p 4 src) in
  Z.to_nat (Z.shiftr (wrap 32 (v * 0x9E3779B9)) (32 - HASH_BITS)).

Definition insert_at (h p : nat) (s : scratch) : scratch :=
  mkScratch (<[h := wrap 32 (Z.of_nat p)]> (head s)) (out s).

Definition insert (src : bytes) (p : nat) (s : scratch) : scratch :=
  if (p + MIN_MATCH <=? length src)%nat then insert_at (hash src p) p s else s.

(** The [while len < cap && a[len] == b[len]] loop over the two windows. *)
Fixpoint common_prefix (a b : bytes) : nat :=
  match a, b with
  | x :: a, y :: b => if (x =? y)%Z then S (common_prefix a b) else O
  | _, _ => O
  end.

Definition find_match (hd : list u32) (src : bytes) (ip body : nat) : nat * nat * nat :=
  if (body <? ip + MIN_MATCH)%nat then (0, 0, HASH_SIZE)%nat
  else
    let h := hash src ip in
    let cand := nth h hd U32_MAX in
    if (cand =? U32_MAX)%Z then (0, 0, h)%nat
    else
      let pos := Z.to_nat cand in
      if (ip <=? pos)%nat || (32768 <? Z.of_nat (ip - pos))%Z then (0, 0, h)%nat
      else
        let cap := Z.to_nat (Z.min (Z.of_nat (body - ip)) MAX_MATCH) in
        (pos, common_prefix (sub pos cap src) (sub ip cap src), h).

(** The [while p + MIN_MATCH <= end] indexing loop. *)
Fixpoint index_loop (fuel : nat) (src : bytes) (p end_ : nat) (s : scratch) : scratch :=
  match fuel with
  | O => s
  | S fuel =>
      if (p + MIN_MATCH <=? end_)%nat then index_loop fuel src (p + 1) end_ (insert src p s)
      else s
  end.

(** One match token: tag, literal extension, literals, match extension, offset. *)
Definition emit_match (src : bytes) (anchor ip mpos mlen : nat) : emission :=
  let lit_len := (ip - anchor)%nat in
  let e := (mlen - MIN_MATCH)%nat in
  emit_token lit_len (e `min` 15) >>> emit_ext lit_len >>> emit_literals src anchor ip
    >>> emit_ext e >>> emit_u16 (ip - mpos).

(** The [while ip < body] loop: the final anchor, or [None] where the source
    returns early.  [ip] grows every iteration, so [body] steps are enough. *)
Fixpoint compress_loop (fuel : nat) (src : bytes) (body ip anchor : nat) (s : scratch)
  : scratch * option nat :=
  if (ip <? body)%nat then
    match fuel with
    | O => (s, None)
    | S fuel =>
        let '(mpos, mlen, h) := find_match (head s) src ip body in
        if (MIN_MATCH <=? mlen)%nat then
          match emit_match src anchor ip mpos mlen s with
          | (s, false) => (s, None)
          | (s, true) =>
              let end_ := ((ip + mlen) `min` body)%nat in
              compress_loop fuel src body end_ end_
                (index_loop (end_ - ip) src (ip + 1) end_ s)
          end
        else
          compress_loop fuel src body (ip + 1) anchor
            (if (h =? HASH_SIZE)%nat then s else insert_at h ip s)
    end
  else (s, Some anchor).

(** The trailing all-literal token. *)
Definition emit_tail (src : bytes) (anchor body : nat) : emission :=
  emit_token (body - anchor) 0 >>> emit_ext (body - anchor) >>> emit_literals src anchor body.

Definition compress (s : scratch) (src : bytes) : scratch * option nat :=
  if (BLOCK <? 4)%nat then (s, None)
  else
    let body := (BLOCK - 4)%nat in
    if negb (length src =? body)%nat then (s, None)
    else
      match compress_loop body src body 0 0 (mkScratch empty_head []) with
      | (s, None) => (s, None)
      | (s, Some anchor) =>
          match emit_tail src anchor body s with
          | (s, false) => (s, None)
          | (s, true) =>
              let clen := length (out s) in
              if (COMPRESS_MIN_SAVING <=? body - clen)%nat && (Z.of_nat clen <? 2 ^ 15)%Z
              then (s, Some clen)
              else (mkScratch (head s) [], None)
          end
      end.
End encoder.

(** ** The decoder *)

Inductive DecompressError := Truncated | Invalid.

Inductive outcome (A : Type) := Done (a : A) | Fail (e : DecompressError) | Panic.
Arguments Done {A}. Arguments Fail {A}. Arguments Panic {A}.

(** [total] and the bytes left after the extension. *)
Fixpoint read_ext (total : Z) (src : bytes) : outcome (Z * bytes) :=
  match src with
  | [] => Fail Truncated
  | b :: src =>
      let total := (total + b)%Z in
      if negb (b =? 255)%Z then Done (total, src)
      else if (2 ^ 24 <? total)%Z then Done (total, src)
      else read_ext total src
  end.

(** [dst[dp..dp + s.len()].copy_from_slice(s)], panicking out of range. *)
Definition copy_to (dst : bytes) (dp : nat) (s : bytes) : option bytes :=
  if (dp + length s <=? length dst)%nat then Some (splice dp s dst) else None.

(** The overlapping byte-by-byte copy. *)
Fixpoint copy_bytes (n mp dp : nat) (dst : bytes) : option bytes :=
  match n with
  | O => Some dst
  | S n =>
      match dst !! mp with
      | None => None
      | Some b =>
          match copy_to dst dp [b] with
          | None => None
          | Some dst => copy_bytes n (mp + 1) (dp + 1) dst
          end
      end
  end.

(** The match copy: one bulk [copy_within] when the ranges are disjoint. *)
Definition copy_match (dst : bytes) (dp offset mlen : nat) : option bytes :=
  let mp := (dp - offset)%nat in
  if (mlen <=? offset)%nat then
    if (mp + mlen <=? length dst)%nat then copy_to dst dp (sub mp mlen dst) else None
  else copy_bytes mlen mp dp dst.

(** A nibble of 15 is followed by extension bytes. *)
Definition read_len (nibble : Z) (src : bytes) : outcome (Z * bytes) :=
  if (nibble =? 15)%Z then
    match read_ext 0 src with
    | Done (ext, src) => Done ((nibble + ext)%Z, src)
    | Fail e => Fail e
    | Panic => Panic
    end
  else Done (nibble, src).

(** One token's match part, from the extension to the copy: the bytes left, the
    new output position and the output. *)
Definition decode_match (nibble : Z) (src : bytes) (dp : nat) (dst : bytes)
  : outcome (bytes * nat * bytes) :=
  match read_len nibble src with
  | Fail e => Fail e
  | Panic => Panic
  | Done (match_len, src) =>
      let match_len := (match_len + Z.of_nat MIN_MATCH)%Z in
      match src with
      | b0 :: b1 :: src =>
          let offset := Z.lor b0 (Z.shiftl b1 8) in
          if (offset =? 0)%Z || (Z.of_nat dp <? offset)%Z then Fail Invalid
          else if (Z.of_nat (length dst - dp) <? match_len)%Z then Fail Invalid
          else
            match copy_match dst dp (Z.to_nat offset) (Z.to_nat match_len) with
            | None => Panic
            | Some dst => Done (src, (dp + Z.to_nat match_len)%nat, dst)
            end
      | _ => Fail Truncated
      end
  end.

(** The [while dp < out_len] loop.  Every token that does not end the loop
    writes at least [MIN_MATCH] bytes, so [out_len] steps are enough; running out
    of fuel is [Panic]. *)
Fixpoint decompress_loop (fuel : nat) (src : bytes) (dp : nat) (dst : bytes) : outcome bytes :=
  if (dp <? length dst)%nat then
    match fuel with
    | O => Panic
    | S fuel =>
        match src with
        | [] => Fail Truncated
        | tag :: src =>
            match read_len (Z.shiftr tag 4) src with
            | Fail e => Fail e
            | Panic => Panic
            | Done (lit_len, src) =>
                if (Z.of_nat (length dst - dp) <? lit_len)%Z then Fail Invalid
                else
                  let n := Z.to_nat lit_len in
                  if (length src <? n)%nat then Fail Truncated
                  else
                    match copy_to dst dp (take n src) with
                    | None => Panic
                    | Some dst =>
                        let dp := (dp + n)%nat in
                        if (dp =? length dst)%nat then Done dst
                        else
                          match decode_match (Z.land tag 15) (drop n src) dp dst with
                          | Fail e => Fail e
                          | Panic => Panic
                          | Done (src, dp, dst) => decompress_loop fuel src dp dst
                          end
                    end
            end
        end
    end
  else Done dst.

Definition decompress (src dst : bytes) : outcome bytes :=
  decompress_loop (length dst) src 0 dst.

(** ** What the emissions append *)

Definition appends (f : emission) (bs : bytes) : Prop :=
  forall s s', f s = (s', true) -> out s' = out s ++ bs /\ head s' = head s.

Fixpoint ext_tail (fuel rem : nat) : bytes :=
  match fuel with
  | O => []
  | S fuel => if (255 <=? rem)%nat then 255%Z :: ext_tail fuel (rem - 255) else [Z.of_nat rem]
  end.

Definition ext_bytes (len : nat) : bytes :=
  if (len <? 15)%nat then [] else ext_tail (S (len - 15)) (len - 15).

Definition token_byte (lit mat : nat) : u8 :=
  Z.lor (Z.shiftl (Z.of_nat (lit `min` 15)) 4) (Z.of_nat (mat `min` 15)).

Definition u16_bytes (v : nat) : bytes :=
  [Z.land (Z.of_nat v) 255; Z.land (Z.shiftr (Z.of_nat v) 8) 255].

Section appends.
  Context {BLOCK : nat}.

Lemma then_emit_true f g s s' :
  (f >>> g) s = (s', true) -> exists s1, f s = (s1, true) /\ g s1 = (s', true).
Proof. unfold then_emit. destruct (f s) as [s1 []]; [by eauto | done]. Qed.

Lemma appends_then f g a b : appends f a -> appends g b -> appends (f >>> g) (a ++ b).
Proof.
  intros Hf Hg s s' (s1 & E & E2)%then_emit_true. destruct (Hf _ _ E) as [E3 E4], (Hg _ _ E2) as [E5 E6].
  rewrite E5, E3, E6, E4, app_assoc. done.
Qed.

Lemma appends_emit b : appends (emit BLOCK b) [b].
Proof. intros s s'. unfold emit. destruct (_ <=? _)%nat; [done |]. by intros [= <-]. Qed.

Lemma appends_token lit mat : appends (emit_token BLOCK lit mat) [token_byte lit mat].
Proof.
  unfold emit_token, token_byte.
  replace (lit `min` 15)%nat with (if (lit <? 15)%nat then lit else 15%nat)
    by (destruct (lit <? 15)%nat eqn:?; bool_lia).
  replace (mat `min` 15)%nat with (if (mat <? 15)%nat then mat else 15%nat)
    by (destruct (mat <? 15)%nat eqn:?; bool_lia).
  apply appends_emit.
Qed.

Lemma appends_ext_loop fuel rem : appends (emit_ext_loop BLOCK fuel rem) (ext_tail fuel rem).
Proof.
  revert rem. induction fuel as [|fuel IH]; intros rem s s'; cbn [emit_ext_loop ext_tail]; [done |].
  destruct (255 <=? rem)%nat; [| apply appends_emit].
  apply (appends_then _ _ [255%Z]); [apply appends_emit | apply IH].
Qed.

Lemma appends_ext len : appends (emit_ext BLOCK len) (ext_bytes len).
Proof.
  intros s s'. unfold emit_ext, ext_bytes. destruct (len <? 15)%nat.
  - intros [= <-]. by rewrite app_nil_r.
  - apply appends_ext_loop.
Qed.

Lemma appends_literals src lo hi :
  appends (emit_literals BLOCK src lo hi) (sub lo (hi - lo) src).
Proof. intros s s'. unfold emit_literals. destruct (_ <? _)%nat; [done |]. by intros [= <-]. Qed.

Lemma appends_u16 v : appends (emit_u16 BLOCK v) (u16_bytes v).
Proof.
  intros s s'. unfold emit_u16. destruct (_ || _); [done |].
  apply (appends_then _ _ [_] [_]); apply appends_emit.
Qed.

(** The two token shapes. *)
Definition match_token (src : bytes) (anchor ip mpos mlen : nat) : bytes :=
  [token_byte (ip - anchor) ((mlen - MIN_MATCH) `min` 15)] ++ ext_bytes (ip - anchor)
    ++ sub anchor (ip - anchor) src ++ ext_bytes (mlen - MIN_MATCH) ++ u16_bytes (ip - mpos).

Definition tail_token (src : bytes) (anchor body : nat) : bytes :=
  [token_byte (body - anchor) 0] ++ ext_bytes (body - anchor) ++ sub anchor (body - anchor) src.

Lemma appends_match src anchor ip mpos mlen :
  appends (emit_match BLOCK src anchor ip mpos mlen) (match_token src anchor ip mpos mlen).
Proof.
  unfold emit_match, match_token. rewrite !app_assoc.
  repeat apply appends_then;
    auto using appends_token, appends_ext, appends_literals, appends_u16.
Qed.

Lemma appends_tail src anchor body :
  appends (emit_tail BLOCK src anchor body) (tail_token src anchor body).
Proof.
  unfold emit_tail, tail_token. rewrite !app_assoc.
  repeat apply appends_then; auto using appends_token, appends_ext, appends_literals.
Qed.

(** The offset the encoder accepted. *)
Lemma emit_match_offset src anchor ip mpos mlen s s' :
  emit_match BLOCK src anchor ip mpos mlen s = (s', true) ->
  (0 < ip - mpos)%nat /\ (Z.of_nat (ip - mpos) <= 65535)%Z.
Proof.
  unfold emit_match. intros (s1 & _ & E1)%then_emit_true. revert E1.
  unfold emit_u16. destruct ((_ =? _)%nat || _) eqn:E; [done |]. bool_lia.
Qed.
End appends.

Lemma index_loop_out fuel src p e s : out (index_loop fuel src p e s) = out s.
Proof.
  revert p s. induction fuel as [|fuel IH]; intros p s; simpl; [done |].
  destruct (_ <=? _)%nat; [| done]. rewrite IH. unfold insert, insert_at.
  by destruct (_ <=? _)%nat.
Qed.

(** ** Reading back lengths, tags and offsets *)

Lemma token_nibbles lit mat :
  Z.shiftr (token_byte lit mat) 4 = Z.of_nat (lit `min` 15) /\
  Z.land (token_byte lit mat) 15 = Z.of_nat (mat `min` 15).
Proof.
  unfold token_byte. set (a := (lit `min` 15)%nat). set (b := (mat `min` 15)%nat).
  assert (a < 16)%nat as Ha by lia. assert (b < 16)%nat as Hb by lia.
  assert (forallb (fun a => forallb (fun b =>
    (Z.shiftr (Z.lor (Z.shiftl (Z.of_nat a) 4) (Z.of_nat b)) 4 =? Z.of_nat a)%Z &&
    (Z.land (Z.lor (Z.shiftl (Z.of_nat a) 4) (Z.of_nat b)) 15 =? Z.of_nat b)%Z) (seq 0 16))
    (seq 0 16) = true) as Hall by (vm_compute; reflexivity).
  rewrite forallb_forall in Hall. specialize (Hall a ltac:(apply in_seq; lia)).
  rewrite forallb_forall in Hall. specialize (Hall b ltac:(apply in_seq; lia)). bool_lia.
Qed.

Lemma read_ext_tail fuel rem total rest :
  (rem < fuel)%nat -> (total + Z.of_nat rem <= 2 ^ 24)%Z ->
  read_ext total (ext_tail fuel rem ++ rest) = Done ((total + Z.of_nat rem)%Z, rest).
Proof.
  revert rem total. induction fuel as [|fuel IH]; intros rem total Hf Ht; [lia |].
  cbn [ext_tail]. destruct (255 <=? rem)%nat eqn:E; bool_lia; cbn [app read_ext].
  - rewrite Z.eqb_refl. cbn [negb]. rewrite (proj2 (Z.ltb_ge _ _)) by lia.
    rewrite IH by lia. do 2 f_equal. lia.
  - rewrite (proj2 (Z.eqb_neq _ _)) by lia. done.
Qed.

Lemma read_len_ext len rest :
  (Z.of_nat len <= 2 ^ 24)%Z ->
  read_len (Z.of_nat (len `min` 15)) (ext_bytes len ++ rest) = Done (Z.of_nat len, rest).
Proof.
  intros Hl. unfold read_len, ext_bytes. destruct (len <? 15)%nat eqn:E; bool_lia.
  - rewrite (proj2 (Z.eqb_neq _ _)) by lia. cbn [app]. do 3 f_equal. lia.
  - replace (len `min` 15)%nat with 15%nat by lia. cbn [Z.of_nat Z.eqb].
    change (Z.of_nat 15 =? 15)%Z with true. cbv iota.
    rewrite read_ext_tail by lia. do 2 f_equal. lia.
Qed.

Lemma u16_back v :
  (Z.of_nat v <= 65535)%Z ->
  Z.lor (Z.land (Z.of_nat v) 255) (Z.shiftl (Z.land (Z.shiftr (Z.of_nat v) 8) 255) 8) = Z.of_nat v.
Proof.
  intros Hv. apply Z.bits_inj'. intros i Hi. change 255%Z with (Z.ones 8).
  rewrite Z.lor_spec, Z.land_spec. destruct (decide (i < 8)%Z).
  - rewrite Z.ones_spec_low, Z.shiftl_spec_low by lia. by rewrite andb_true_r, orb_false_r.
  - rewrite Z.ones_spec_high, Z.shiftl_spec, Z.land_spec, Z.shiftr_spec by lia.
    rewrite andb_false_r. simpl. replace (i - 8 + 8)%Z with i by lia.
    destruct (decide (i < 16)%Z).
    + rewrite Z.ones_spec_low by lia. by rewrite andb_true_r.
    + rewrite Z.ones_spec_high, andb_false_r by lia. symmetry.
      destruct (decide (v = 0)%nat) as [-> |]; [apply Z.bits_0 |].
      apply Z.bits_above_log2; [lia |]. apply Z.lt_le_trans with 16%Z; [| lia].
      apply Z.log2_lt_pow2; lia.
Qed.

(** ** Copies extend the agreement of the output with the source *)

Definition agree (n : nat) (dst src : bytes) : Prop :=
  length dst = length src /\ take n dst = take n src.

Lemma agree_lookup n dst src i : agree n dst src -> (i < n)%nat -> dst !! i = src !! i.
Proof.
  intros [_ H] Hi. rewrite <- (lookup_take_lt dst n i), <- (lookup_take_lt src n i) by done.
  by rewrite H.
Qed.

Lemma copy_literals dp n dst src :
  agree dp dst src -> (dp + n <= length src)%nat ->
  exists dst', copy_to dst dp (sub dp n src) = Some dst' /\ agree (dp + n) dst' src.
Proof.
  intros [Hl Ha] Hn. unfold copy_to. rewrite length_sub by done.
  rewrite (proj2 (Nat.leb_le _ _)) by lia. eexists. split; [done |]. split.
  - rewrite length_splice; [done |]. rewrite length_sub by done. lia.
  - unfold splice. rewrite app_assoc, take_app_le, take_ge.
    + rewrite Ha. unfold sub. rewrite <- (take_drop dp (take (dp + n) src)).
      rewrite take_take, Nat.min_l by lia. f_equal. by rewrite take_drop_commute.
    + rewrite length_app, length_take, length_sub by done. lia.
    + rewrite length_app, length_take, length_sub by done. lia.
Qed.

Lemma sub_eq_lookup {A} (l : list A) a b n :
  (a + n <= length l)%nat -> (b + n <= length l)%nat ->
  (forall i, (i < n)%nat -> l !! (a + i)%nat = l !! (b + i)%nat) -> sub a n l = sub b n l.
Proof.
  intros Ha Hb H. apply list_eq. intros i. unfold sub.
  destruct (decide (i < n)%nat).
  - rewrite !lookup_take_lt, !lookup_drop by done. by apply H.
  - rewrite !lookup_take_ge by lia. done.
Qed.

Lemma copy_bytes_agree n mp dp dst src :
  agree dp dst src -> (mp < dp)%nat -> (dp + n <= length src)%nat ->
  (forall i, (i < n)%nat -> src !! (mp + i)%nat = src !! (dp + i)%nat) ->
  exists dst', copy_bytes n mp dp dst = Some dst' /\ agree (dp + n) dst' src.
Proof.
  revert mp dp dst. induction n as [|n IH]; intros mp dp dst Ha Hmp Hn Hp.
  - exists dst. by rewrite Nat.add_0_r.
  - cbn [copy_bytes]. rewrite (agree_lookup _ _ _ mp Ha Hmp).
    destruct (lookup_lt_is_Some_2 src dp) as [b Hb]; [lia |].
    pose proof (Hp 0%nat ltac:(lia)) as Hp0. rewrite !Nat.add_0_r in Hp0. rewrite Hp0, Hb.
    assert ([b] = sub dp 1 src) as ->.
    { unfold sub. by rewrite (drop_S _ _ _ Hb). }
    destruct (copy_literals dp 1 dst src Ha ltac:(lia)) as (dst1 & -> & Ha1).
    destruct (IH (mp + 1)%nat (dp + 1)%nat dst1 Ha1 ltac:(lia) ltac:(lia)) as (dst' & -> & Ha').
    + intros i Hi. rewrite <- !Nat.add_assoc. apply Hp. lia.
    + exists dst'. split; [done |]. by replace (dp + S n)%nat with (dp + 1 + n)%nat by lia.
Qed.

Lemma copy_match_agree dp off m dst src :
  agree dp dst src -> (0 < off <= dp)%nat -> (dp + m <= length src)%nat ->
  (forall i, (i < m)%nat -> src !! (dp - off + i)%nat = src !! (dp + i)%nat) ->
  exists dst', copy_match dst dp off m = Some dst' /\ agree (dp + m) dst' src.
Proof.
  intros Ha Hoff Hm Hp. unfold copy_match. destruct (m <=? off)%nat eqn:E; bool_lia.
  - pose proof Ha as [Hl Ht]. rewrite (proj2 (Nat.leb_le _ _)) by lia.
    replace (sub (dp - off) m dst) with (sub dp m src); [by apply copy_literals |].
    rewrite <- (sub_eq_lookup src (dp - off) dp m) by (lia || done).
    unfold sub. rewrite !take_drop_commute. f_equal.
    replace (dp - off + m)%nat with ((dp - off + m) `min` dp)%nat by lia.
    by rewrite <- !take_take, Ht.
  - apply copy_bytes_agree; auto. lia.
Qed.

(** ** Decoding one token *)

Lemma find_match_spec hd src ip mpos mlen h :
  find_match hd src ip (length src) = (mpos, mlen, h) -> (MIN_MATCH <= mlen)%nat ->
  (mpos < ip)%nat /\ (Z.of_nat (ip - mpos) <= 32768)%Z /\ (ip + mlen <= length src)%nat /\
  (Z.of_nat mlen <= 65536)%Z /\
  forall i, (i < mlen)%nat -> src !! (mpos + i)%nat = src !! (ip + i)%nat.
Proof.
  unfold find_match, MIN_MATCH. destruct (length src <? ip + 4)%nat eqn:E1; [intros [= <- <- <-]; lia |].
  destruct (nth _ _ _ =? U32_MAX)%Z; [intros [= <- <- <-]; lia |].
  set (pos := Z.to_nat (nth _ _ _)). destruct (_ || _) eqn:E2; [intros [= <- <- <-]; lia |].
  unfold MAX_MATCH. set (cap := Z.to_nat (Z.min _ _)). intros [= <- <- <-] _. bool_lia.
  assert (forall a b, (common_prefix a b <= length a)%nat /\
    forall i, (i < common_prefix a b)%nat -> a !! i = b !! i) as Hcp.
  { induction a as [|x a IH]; intros [|y b]; simpl; try (split; [lia | intros; lia]).
    destruct (Z.eqb_spec x y) as [-> |]; [| split; [lia | intros; lia]].
    destruct (IH b) as [Hle Heq]. split; [lia |].
    intros [|i] Hi; [done |]. simpl. apply Heq. lia. }
  destruct (Hcp (sub pos cap src) (sub ip cap src)) as [Hle Heq].
  rewrite length_sub in Hle by lia. split_and!; try lia.
  intros i Hi. specialize (Heq i Hi). unfold sub in Heq.
  rewrite !lookup_take_lt, !lookup_drop in Heq by lia. done.
Qed.

(** The literal part of a token, shared by both token shapes. *)
Lemma literals_decode lo hi mat src rest dst :
  agree lo dst src -> (lo <= hi <= length src)%nat -> (Z.of_nat (hi - lo) <= 2 ^ 24)%Z ->
  exists dst', agree hi dst' src /\
    read_len (Z.shiftr (token_byte (hi - lo) mat) 4)
      (ext_bytes (hi - lo) ++ sub lo (hi - lo) src ++ rest) =
      Done (Z.of_nat (hi - lo), sub lo (hi - lo) src ++ rest) /\
    (Z.of_nat (length dst - lo) <? Z.of_nat (hi - lo))%Z = false /\
    (length (sub lo (hi - lo) src ++ rest) <? hi - lo)%nat = false /\
    take (hi - lo) (sub lo (hi - lo) src ++ rest) = sub lo (hi - lo) src /\
    drop (hi - lo) (sub lo (hi - lo) src ++ rest) = rest /\
    copy_to dst lo (sub lo (hi - lo) src) = Some dst'.
Proof.
  intros Ha Hhi Hlen. pose proof Ha as [Hl _].
  destruct (copy_literals lo (hi - lo) dst src Ha ltac:(lia)) as (dst' & Hc & Ha').
  replace (lo + (hi - lo))%nat with hi in Ha' by lia. exists dst'.
  assert (length (sub lo (hi - lo) src) = (hi - lo)%nat) as Hs by (apply length_sub; lia).
  destruct (token_nibbles (hi - lo) mat) as [-> _].
  rewrite read_len_ext by done. rewrite length_app, Hs.
  split_and!; auto; try (apply Z.ltb_ge; lia); try (apply Nat.ltb_ge; lia).
  - by rewrite take_app_length'.
  - by rewrite drop_app_length'.
Qed.

Lemma match_token_decode src anchor ip mpos mlen rest dst :
  agree anchor dst src -> (anchor <= ip)%nat -> (mpos < ip)%nat ->
  (Z.of_nat (ip - mpos) <= 65535)%Z -> (MIN_MATCH <= mlen)%nat ->
  (ip + mlen <= length src)%nat -> (Z.of_nat mlen <= 65536)%Z ->
  (Z.of_nat (ip - anchor) <= 2 ^ 24)%Z ->
  (forall i, (i < mlen)%nat -> src !! (mpos + i)%nat = src !! (ip + i)%nat) ->
  exists dst', agree (ip + mlen) dst' src /\ forall fuel,
    decompress_loop (S fuel) (match_token src anchor ip mpos mlen ++ rest) anchor dst =
    decompress_loop fuel rest (ip + mlen) dst'.
Proof.
  intros Ha Hai Hmp Hoff Hmin Hend Hmax Hlit Heq. pose proof Ha as [Hl _].
  unfold MIN_MATCH in *. unfold match_token. rewrite <- !app_assoc. cbn [app].
  destruct (literals_decode anchor ip ((mlen - 4) `min` 15) src
    (ext_bytes (mlen - 4) ++ u16_bytes (ip - mpos) ++ rest) dst Ha ltac:(lia) Hlit)
    as (dst1 & Ha1 & H1 & H2 & H3 & H4 & H5 & H6).
  pose proof Ha1 as [Hl1 _].
  destruct (copy_match_agree ip (ip - mpos) mlen dst1 src Ha1 ltac:(lia) Hend)
    as (dst2 & Hc & Ha2).
  { intros i Hi. replace (ip - (ip - mpos))%nat with mpos by lia. by apply Heq. }
  exists dst2. split; [done |]. intros fuel. cbn [decompress_loop].
  rewrite (proj2 (Nat.ltb_lt anchor (length dst))) by lia.
  unfold MIN_MATCH. rewrite H1, H2, Nat2Z.id, H3, H4, H6, H5. cbv zeta.
  replace (anchor + (ip - anchor))%nat with ip by lia.
  rewrite (proj2 (Nat.eqb_neq ip (length dst1))) by lia.
  unfold decode_match. rewrite (proj2 (token_nibbles _ _)).
  replace (((mlen - 4) `min` 15) `min` 15)%nat with ((mlen - 4) `min` 15)%nat by lia.
  rewrite read_len_ext by lia. unfold u16_bytes. cbn [app].
  rewrite u16_back by lia. unfold MIN_MATCH.
  replace (Z.of_nat (mlen - 4) + Z.of_nat 4)%Z with (Z.of_nat mlen) by lia.
  rewrite (proj2 (Z.eqb_neq _ _)), (proj2 (Z.ltb_ge _ _)) by lia. cbn [orb].
  rewrite (proj2 (Z.ltb_ge _ _)) by lia. rewrite !Nat2Z.id, Hc. done.
Qed.

Lemma tail_token_decode src anchor rest dst fuel :
  agree anchor dst src -> (anchor <= length src)%nat -> (anchor < length src -> 0 < fuel)%nat ->
  (Z.of_nat (length src - anchor) <= 2 ^ 24)%Z ->
  decompress_loop fuel (tail_token src anchor (length src) ++ rest) anchor dst = Done src.
Proof.
  intros Ha Hle Hf Hlit. pose proof Ha as [Hl Ht].
  assert (forall d, agree (length src) d src -> d = src) as Hfull.
  { intros d [Hd Htd]. by rewrite !take_ge in Htd by lia. }
  destruct (decide (anchor < length src)%nat) as [Hlt | Hge].
  - destruct fuel as [|fuel]; [lia |]. unfold tail_token. rewrite <- !app_assoc. cbn [app].
    destruct (literals_decode anchor (length src) 0 src rest dst Ha ltac:(lia) Hlit)
      as (dst1 & Ha1 & H1 & H2 & H3 & H4 & H5 & H6).
    pose proof Ha1 as [Hl1 _]. cbn [decompress_loop].
    rewrite (proj2 (Nat.ltb_lt anchor (length dst))) by lia.
    rewrite H1, H2, Nat2Z.id, H3, H4, H6. cbv zeta.
    replace (anchor + (length src - anchor))%nat with (length dst1) by lia.
    rewrite Nat.eqb_refl. f_equal. by apply Hfull.
  - assert ((anchor <? length dst)%nat = false) as E by (apply Nat.ltb_ge; lia).
    destruct fuel; cbn [decompress_loop]; rewrite E; f_equal; apply Hfull;
      by replace (length src) with anchor by lia.
Qed.

(** ** The encoder loop *)

(** The bytes a run of the loop appends decode back to the source from the old
    anchor to the new one, in at most one step per output byte. *)
Definition decodes (src bs : bytes) (from to : nat) : Prop :=
  forall rest dst, agree from dst src ->
  exists k dst', (k <= to - from)%nat /\ agree to dst' src /\
    forall fuel, decompress_loop (k + fuel) (bs ++ rest) from dst =
                 decompress_loop fuel rest to dst'.

Lemma decodes_nil src n : decodes src [] n n.
Proof. intros rest dst Ha. exists 0%nat, dst. split_and!; auto. lia. Qed.

Lemma decodes_cons src b1 b2 n1 n2 n3 :
  (n1 < n2)%nat -> (n2 <= n3)%nat ->
  (forall rest dst, agree n1 dst src -> exists dst', agree n2 dst' src /\
     forall fuel, decompress_loop (S fuel) (b1 ++ rest) n1 dst = decompress_loop fuel rest n2 dst') ->
  decodes src b2 n2 n3 -> decodes src (b1 ++ b2) n1 n3.
Proof.
  intros Hn12 Hn23 H1 H2 rest dst Ha.
  destruct (H1 (b2 ++ rest) dst Ha) as (dst1 & Ha1 & Hs1).
  destruct (H2 rest dst1 Ha1) as (k & dst2 & Hk & Ha2 & Hs2).
  exists (S k), dst2. split_and!; [lia | done |]. intros fuel. rewrite <- app_assoc.
  cbn [Nat.add]. by rewrite Hs1, Hs2.
Qed.

Lemma compress_loop_decodes BLOCK fuel src ip anchor s s' a :
  compress_loop BLOCK fuel src (length src) ip anchor s = (s', Some a) ->
  (anchor <= ip <= length src)%nat -> (Z.of_nat (length (out s')) <= 2 ^ 24)%Z ->
  (anchor <= a <= length src)%nat /\
  exists bs, out s' = out s ++ bs /\ decodes src bs anchor a.
Proof.
  revert ip anchor s. induction fuel as [|fuel IH]; intros ip anchor s Hc Hr Hb;
    cbn [compress_loop] in Hc.
  - destruct (ip <? length src)%nat; [done |]. injection Hc as <- <-. split; [lia |].
    exists []. split; [by rewrite app_nil_r | apply decodes_nil].
  - destruct (ip <? length src)%nat eqn:Eip; bool_lia.
    2: { injection Hc as <- <-. split; [lia |].
         exists []. split; [by rewrite app_nil_r | apply decodes_nil]. }
    destruct (find_match (head s) src ip (length src)) as [[mpos mlen] h] eqn:Ef.
    destruct (MIN_MATCH <=? mlen)%nat eqn:Em; bool_lia.
    + destruct (find_match_spec _ _ _ _ _ _ Ef Em) as (Hmp & Hoff & Hend & Hmax & Heq).
      destruct (emit_match BLOCK src anchor ip mpos mlen s) as [s1 []] eqn:Ee; [| done].
      destruct (appends_match _ _ _ _ _ _ _ Ee) as [Eo _].
      rewrite Nat.min_l in Hc by lia.
      apply IH in Hc as (Ha & bs & Ebs & Hdec); [| unfold MIN_MATCH in *; lia | done].
      rewrite index_loop_out, Eo in Ebs. split; [unfold MIN_MATCH in *; lia |].
      eexists. split; [by rewrite Ebs, <- app_assoc |].
      assert (Z.of_nat (ip - anchor) <= 2 ^ 24)%Z as Hlit.
      { rewrite Ebs, !length_app in Hb. unfold match_token in Hb.
        rewrite !length_app, length_sub in Hb by lia. lia. }
      apply (decodes_cons src _ bs anchor (ip + mlen) a); [unfold MIN_MATCH in *; lia | lia | | done].
      intros rest dst Hag. apply match_token_decode; auto; lia.
    + assert (out (if (h =? HASH_SIZE)%nat then s else insert_at h ip s) = out s) as Eo
        by (by destruct (h =? HASH_SIZE)%nat).
      apply IH in Hc as (Ha & bs & Ebs & Hdec); [| lia | done]. rewrite Eo in Ebs.
      split; [lia |]. by exists bs.
Qed.

Lemma compress_shape BLOCK s src s' clen :
  compress BLOCK s src = (s', Some clen) ->
  length src = (BLOCK - 4)%nat /\ clen = length (out s') /\
  (clen + COMPRESS_MIN_SAVING <= BLOCK - 4)%nat /\ (Z.of_nat clen < 2 ^ 15)%Z /\
  exists a s1, compress_loop BLOCK (length src) src (length src) 0 0 (mkScratch empty_head [])
      = (s1, Some a) /\ out s' = out s1 ++ tail_token src a (length src).
Proof.
  unfold compress. destruct (BLOCK <? 4)%nat; [done |].
  destruct (negb (length src =? BLOCK - 4)%nat) eqn:El; [done |]. bool_lia.
  rewrite <- El. destruct (compress_loop _ _ _ _ _ _ _) as [s1 [a |]] eqn:Ec; [| done].
  destruct (emit_tail _ _ _ _ s1) as [s2 []] eqn:Et; [| done].
  destruct (_ && _) eqn:Eb; [| done]. intros [= <- <-]. unfold COMPRESS_MIN_SAVING in *. bool_lia.
  destruct (appends_tail _ _ _ _ _ Et) as [Eo _].
  split_and!; auto; try lia. by exists a, s1.
Qed.

(** ** The decoder is safe on every input *)

Lemma read_len_safe nibble src : read_len nibble src <> Panic.
Proof.
  assert (forall l total, read_ext total l <> Panic) as He.
  { induction l as [|b l IH]; intros total; simpl; [done |].
    destruct (negb _); [done |]. destruct (_ <? _)%Z; [done | apply IH]. }
  unfold read_len. destruct (nibble =? 15)%Z; [| done].
  specialize (He src 0%Z). by destruct (read_ext 0 src) as [[] | |].
Qed.

Lemma copy_to_some dst dp l :
  (dp + length l <= length dst)%nat ->
  exists dst', copy_to dst dp l = Some dst' /\ length dst' = length dst.
Proof.
  intros H. unfold copy_to. rewrite (proj2 (Nat.leb_le _ _)) by done.
  eexists. split; [done | by apply length_splice].
Qed.

Lemma copy_bytes_some n mp dp dst :
  (mp < dp)%nat -> (dp + n <= length dst)%nat ->
  exists dst', copy_bytes n mp dp dst = Some dst' /\ length dst' = length dst.
Proof.
  revert mp dp dst. induction n as [|n IH]; intros mp dp dst Hm Hd; [by exists dst |].
  cbn [copy_bytes]. destruct (lookup_lt_is_Some_2 dst mp ltac:(lia)) as [b ->].
  destruct (copy_to_some dst dp [b]) as (dst1 & -> & Hl1); [simpl; lia |].
  destruct (IH (mp + 1)%nat (dp + 1)%nat dst1) as (dst' & -> & Hl'); try lia. exists dst'.
  split; [done | lia].
Qed.

Lemma copy_match_some dst dp off m :
  (0 < off <= dp)%nat -> (dp + m <= length dst)%nat ->
  exists dst', copy_match dst dp off m = Some dst' /\ length dst' = length dst.
Proof.
  intros Ho Hd. unfold copy_match. destruct (m <=? off)%nat eqn:E; bool_lia.
  - rewrite (proj2 (Nat.leb_le _ _)) by lia. apply copy_to_some.
    rewrite length_sub by lia. done.
  - apply copy_bytes_some; lia.
Qed.

Lemma read_len_nonneg nibble src v rest :
  (0 <= nibble)%Z -> bytes_ok src -> read_len nibble src = Done (v, rest) ->
  (0 <= v)%Z /\ bytes_ok rest.
Proof.
  assert (forall l total v rest, (0 <= total)%Z -> bytes_ok l ->
    read_ext total l = Done (v, rest) -> (0 <= v)%Z /\ bytes_ok rest) as He.
  { induction l as [|b l IH]; intros total v' rest' Ht Hl; simpl; [done |].
    inversion Hl as [|? ? Hb Hl']; subst. destruct Hb as [Hb _].
    destruct (negb _); [intros [= <- <-]; split; [lia | done] |].
    destruct (_ <? _)%Z; [intros [= <- <-]; split; [lia | done] |]. apply IH; [lia | done]. }
  intros Hn Hs. unfold read_len. destruct (nibble =? 15)%Z; [| by intros [= <- <-]].
  destruct (read_ext 0 src) as [[ext r] | |] eqn:E; [| done | done]. intros [= <- <-].
  destruct (He src 0%Z ext r ltac:(lia) Hs E). split; [lia | done].
Qed.

(** A match part either fails cleanly or writes at least [MIN_MATCH] bytes in
    range. *)
Lemma decode_match_safe nibble src dp dst :
  (0 <= nibble)%Z -> bytes_ok src -> (dp <= length dst)%nat ->
  match decode_match nibble src dp dst with
  | Done (src', dp', dst') => bytes_ok src' /\ (dp + MIN_MATCH <= dp' <= length dst)%nat /\
      length dst' = length dst
  | Fail _ => True
  | Panic => False
  end.
Proof.
  intros Hn Hs Hd. unfold decode_match. pose proof (read_len_safe nibble src) as Hsafe.
  destruct (read_len nibble src) as [[ml src1] | |] eqn:E; [| done | done].
  destruct (read_len_nonneg _ _ _ _ Hn Hs E) as [Hml Hs1].
  destruct src1 as [|b0 [|b1 src1]]; [done | done |]. cbv zeta.
  destruct (_ || _) eqn:E1; [done |].
  destruct (Z.of_nat (length dst - dp) <? _)%Z eqn:E2; [done |]. bool_lia.
  unfold MIN_MATCH in *. inversion Hs1 as [|? ? Hb0 Hs2]; subst. inversion Hs2 as [|? ? Hb1 Hs3]; subst.
  assert (0 <= Z.lor b0 (Z.shiftl b1 8))%Z.
  { apply Z.lor_nonneg. destruct Hb0, Hb1. split; [done |]. by apply Z.shiftl_nonneg. }
  destruct (copy_match_some dst dp (Z.to_nat (Z.lor b0 (Z.shiftl b1 8)))
    (Z.to_nat (ml + Z.of_nat 4))) as (dst' & -> & Hl'); [lia | lia |].
  split_and!; auto; lia.
Qed.

Lemma decompress_loop_safe fuel src dp dst :
  bytes_ok src -> (dp <= length dst)%nat -> (length dst - dp <= fuel)%nat ->
  match decompress_loop fuel src dp dst with
  | Done dst' => length dst' = length dst
  | Fail _ => True
  | Panic => False
  end.
Proof.
  revert src dp dst. induction fuel as [|fuel IH]; intros src dp dst Hs Hd Hf;
    cbn [decompress_loop]; destruct (dp <? length dst)%nat eqn:E0; bool_lia; auto.
  destruct src as [|tag src]; [done |]. inversion Hs as [|? ? Ht Hs0]; subst.
  assert (0 <= Z.shiftr tag 4)%Z by (apply Z.shiftr_nonneg; apply Ht).
  pose proof (read_len_safe (Z.shiftr tag 4) src) as Hsafe.
  destruct (read_len _ src) as [[lit src1] | |] eqn:E1; [| done | done].
  destruct (read_len_nonneg _ _ _ _ ltac:(done) Hs0 E1) as [Hlit Hs1].
  destruct (_ <? lit)%Z eqn:E2; [done |]. destruct (length src1 <? _)%nat eqn:E3; [done |]. bool_lia.
  destruct (copy_to_some dst dp (take (Z.to_nat lit) src1)) as (dst1 & -> & Hl1).
  { rewrite length_take. lia. }
  cbv zeta. destruct (_ =? length dst1)%nat eqn:E4; bool_lia.
  pose proof (decode_match_safe (Z.land tag 15) (drop (Z.to_nat lit) src1)
    (dp + Z.to_nat lit) dst1) as Hm.
  destruct (decode_match _ _ _ _) as [[[src2 dp2] dst2] | |].
  - destruct Hm as (Hs2 & Hdp & Hl2); try lia.
    { apply Z.land_nonneg. lia. }
    { by apply Forall_drop. }
    unfold MIN_MATCH in *. specialize (IH src2 dp2 dst2 Hs2 ltac:(lia) ltac:(lia)).
    destruct (decompress_loop fuel src2 dp2 dst2); auto. lia.
  - done.
  - apply Hm; [apply Z.land_nonneg; lia | by apply Forall_drop | lia].
Qed.

(** ** The stream format

    What a stream means, without the decoder: [length_field nibble s v rest] reads
    the length [v] a nibble starts, and [encodes out dp s] says that [s] describes
    [out] from position [dp] on, token by token.  Bytes behind the last token are
    ignored. *)

Definition length_field (nibble : Z) (s : bytes) (v : nat) (rest : bytes) : Prop :=
  (nibble <> 15 /\ Z.of_nat v = nibble /\ rest = s)%Z \/
  (nibble = 15%Z /\ exists k b, s = replicate k 255%Z ++ b :: rest /\ b <> 255%Z /\
     Z.of_nat v = (15 + 255 * Z.of_nat k + b)%Z).

Inductive encodes (out : bytes) : nat -> bytes -> Prop :=
| enc_end s : encodes out (length out) s
| enc_last dp tag s lit rest :
    (dp < length out)%nat -> length_field (Z.shiftr tag 4) s lit rest ->
    (dp + lit = length out)%nat -> sub dp lit out = take lit rest -> encodes out dp (tag :: s)
| enc_token dp tag s lit rest m b0 b1 rest' :
    length_field (Z.shiftr tag 4) s lit rest -> (dp + lit < length out)%nat ->
    sub dp lit out = take lit rest ->
    length_field (Z.land tag 15) (drop lit rest) m (b0 :: b1 :: rest') ->
    (0 < b0 + 256 * b1 <= Z.of_nat (dp + lit))%Z ->
    (dp + lit + (m + MIN_MATCH) <= length out)%nat ->
    (forall i, (i < m + MIN_MATCH)%nat ->
       out !! (dp + lit - Z.to_nat (b0 + 256 * b1) + i)%nat = out !! (dp + lit + i)%nat) ->
    encodes out (dp + lit + (m + MIN_MATCH)) rest' ->
    encodes out dp (tag :: s).

Lemma read_ext_field l total v rest :
  bytes_ok l -> (0 <= total)%Z -> (v <= 2 ^ 24)%Z -> read_ext total l = Done (v, rest) ->
  exists k b, l = replicate k 255%Z ++ b :: rest /\ b <> 255%Z /\
    v = (total + 255 * Z.of_nat k + b)%Z.
Proof.
  revert total. induction l as [|b l IH]; intros total Hl Ht Hv; cbn [read_ext]; [done |].
  inversion Hl as [|? ? Hb Hl']; subst. destruct (negb (b =? 255)%Z) eqn:E; bool_lia.
  - intros [= <- <-]. exists 0%nat, b. split_and!; [done | done | lia].
  - subst b. destruct (2 ^ 24 <? _)%Z eqn:E1; bool_lia; [intros [= <- <-]; lia |].
    intros H. destruct (IH (total + 255)%Z Hl' ltac:(lia) Hv H) as (k & b & -> & Hb' & ->).
    exists (S k), b. split_and!; [done | done | lia].
Qed.

Lemma read_ext_run k b rest total :
  b <> 255%Z -> (total + 255 * Z.of_nat k <= 2 ^ 24)%Z ->
  read_ext total (replicate k 255%Z ++ b :: rest) = Done ((total + 255 * Z.of_nat k + b)%Z, rest).
Proof.
  intros Hb. revert total. induction k as [|k IH]; intros total Ht; cbn [replicate app read_ext].
  - rewrite (proj2 (Z.eqb_neq _ _)) by done. simpl. do 2 f_equal. lia.
  - rewrite Z.eqb_refl. cbn [negb]. rewrite (proj2 (Z.ltb_ge _ _)) by lia.
    rewrite IH by lia. do 2 f_equal. lia.
Qed.

(** Up to the decoder's cap of 2^24, [read_len] reads exactly the length fields. *)
Lemma read_len_field nibble s v rest :
  (0 <= nibble)%Z -> bytes_ok s -> (v <= 2 ^ 24)%Z -> read_len nibble s = Done (v, rest) ->
  length_field nibble s (Z.to_nat v) rest.
Proof.
  intros Hn Hs Hv. unfold read_len, length_field. destruct (nibble =? 15)%Z eqn:E; bool_lia.
  - destruct (read_ext 0 s) as [[ext r] | |] eqn:E1; [| done | done]. intros [= <- <-].
    destruct (read_ext_field s 0 ext r Hs ltac:(lia) ltac:(lia) E1) as (k & b & -> & Hb & ->).
    right. split; [done |]. exists k, b. split_and!; [done | done |].
    apply bytes_ok_app in Hs as [_ Hs]. inversion Hs as [|? ? Hb' ?]; subst. unfold fits in Hb'. lia.
  - intros [= <- <-]. left. split_and!; [done | lia | done].
Qed.

Lemma field_read_len nibble s v rest :
  length_field nibble s v rest -> bytes_ok s -> (Z.of_nat v <= 2 ^ 24)%Z ->
  read_len nibble s = Done (Z.of_nat v, rest).
Proof.
  intros [(Hn & <- & ->) | (-> & k & b & -> & Hb & Hv)] Hs Hmax; unfold read_len.
  - by rewrite (proj2 (Z.eqb_neq _ _)).
  - apply bytes_ok_app in Hs as [_ Hs]. inversion Hs as [|? ? Hb' ?]; subst. unfold fits in Hb'.
    rewrite Z.eqb_refl, read_ext_run by lia. do 2 f_equal. lia.
Qed.

Lemma field_bytes_ok nibble s v rest : length_field nibble s v rest -> bytes_ok s -> bytes_ok rest.
Proof.
  intros [(_ & _ & ->) | (_ & k & b & -> & _ & _)]; [done |].
  intros [_ H]%bytes_ok_app. by inversion H.
Qed.

(** ** What the copies leave *)

Lemma copy_to_spec dst dp l dst' :
  copy_to dst dp l = Some dst' ->
  (dp + length l <= length dst)%nat /\ length dst' = length dst /\
  take dp dst' = take dp dst /\ sub dp (length l) dst' = l.
Proof.
  unfold copy_to. destruct (_ <=? _)%nat eqn:E; [| done]. bool_lia. intros [= <-].
  split_and!; [done | by apply length_splice | | by apply sub_splice_same].
  unfold splice. rewrite take_app_le by (rewrite length_take; lia). rewrite take_take. f_equal. lia.
Qed.

Lemma take_lookup_eq (a b : bytes) n i : take n a = take n b -> (i < n)%nat -> a !! i = b !! i.
Proof.
  intros H Hi. rewrite <- (lookup_take_lt a n i), <- (lookup_take_lt b n i) by done. by rewrite H.
Qed.

Lemma take_eq_le (a b : bytes) n m : take n a = take n b -> (m <= n)%nat -> take m a = take m b.
Proof. intros H Hm. rewrite <- (Nat.min_l m n), <- !take_take by done. by rewrite H. Qed.

Lemma copy_bytes_spec n mp dp dst dst' :
  copy_bytes n mp dp dst = Some dst' -> (mp < dp)%nat ->
  length dst' = length dst /\ take dp dst' = take dp dst /\
  forall i, (i < n)%nat -> dst' !! (mp + i)%nat = dst' !! (dp + i)%nat.
Proof.
  revert mp dp dst. induction n as [|n IH]; intros mp dp dst H Hm; cbn [copy_bytes] in H.
  { injection H as <-. split_and!; auto. lia. }
  destruct (dst !! mp) as [b |] eqn:Eb; [| done].
  destruct (copy_to dst dp [b]) as [dst1 |] eqn:E1; [| done].
  apply copy_to_spec in E1 as (Hin & Hl1 & Ht1 & Hs1). cbn [length] in *.
  apply IH in H as (Hl & Ht & Hi); [| lia]. split_and!; [lia | |].
  - rewrite <- Ht1. by eapply take_eq_le; [exact Ht | lia].
  - intros [|i] Hlt.
    + rewrite !Nat.add_0_r. rewrite (take_lookup_eq _ _ _ mp Ht), (take_lookup_eq _ _ _ dp Ht) by lia.
      rewrite (take_lookup_eq _ _ _ mp Ht1), Eb by lia.
      assert (sub dp 1 dst1 !! 0%nat = Some b) as E by (by rewrite Hs1).
      unfold sub in E. rewrite lookup_take_lt, lookup_drop, Nat.add_0_r in E by lia. done.
    + replace (mp + S i)%nat with (mp + 1 + i)%nat by lia.
      replace (dp + S i)%nat with (dp + 1 + i)%nat by lia. apply Hi. lia.
Qed.

Lemma copy_match_spec dst dp off m dst' :
  copy_match dst dp off m = Some dst' -> (0 < off <= dp)%nat -> (dp + m <= length dst)%nat ->
  length dst' = length dst /\ take dp dst' = take dp dst /\
  forall i, (i < m)%nat -> dst' !! (dp - off + i)%nat = dst' !! (dp + i)%nat.
Proof.
  unfold copy_match. intros H Ho Hm. destruct (m <=? off)%nat eqn:E; bool_lia.
  - rewrite (proj2 (Nat.leb_le _ _)) in H by lia.
    apply copy_to_spec in H as (_ & Hl & Ht & Hs). rewrite length_sub in Hs by lia.
    split_and!; [done | done |]. intros i Hi.
    rewrite (take_lookup_eq _ _ _ _ Ht) by lia.
    assert (sub dp m dst' !! i = sub (dp - off) m dst !! i) as E1 by (by rewrite Hs).
    unfold sub in E1. rewrite !lookup_take_lt, !lookup_drop in E1 by lia. done.
  - apply copy_bytes_spec in H as (? & ? & ?); [done | lia].
Qed.

(** ** The decoder accepts exactly the streams of the format *)

Lemma encodes_decompress out dp s :
  encodes out dp s -> (Z.of_nat (length out) <= 2 ^ 24)%Z -> bytes_ok s ->
  forall fuel dst, agree dp dst out -> (length out - dp <= fuel)%nat ->
  decompress_loop fuel s dp dst = Done out.
Proof.
  intros He Hmax. assert (forall d, agree (length out) d out -> d = out) as Hfull.
  { intros d [Hd Htd]. by rewrite !take_ge in Htd by lia. }
  induction He as [s | dp tag s lit rest Hlt Hf Hend Hsub
    | dp tag s lit rest m b0 b1 rest' Hf Hlt Hsub Hf' Hoff Hm Hcopy _ IH];
    intros Hs fuel dst Ha Hfuel; pose proof Ha as [Hl _].
  - assert ((length out <? length dst)%nat = false) as E by (apply Nat.ltb_ge; lia).
    destruct fuel; cbn [decompress_loop]; rewrite E; f_equal; by apply Hfull.
  - destruct fuel as [|fuel]; [lia |]. inversion Hs as [|? ? Ht Hs']; subst.
    destruct (copy_literals dp lit dst out Ha ltac:(lia)) as (dst1 & Hc & Ha1). pose proof Ha1 as [Hl1 _].
    assert (length (sub dp lit out) = lit) as Hlen by (apply length_sub; lia).
    rewrite Hsub in Hc, Hlen. rewrite length_take in Hlen.
    cbn [decompress_loop]. rewrite (proj2 (Nat.ltb_lt _ _)) by lia.
    rewrite (field_read_len _ _ _ _ Hf Hs') by lia.
    rewrite (proj2 (Z.ltb_ge _ _)), Nat2Z.id, (proj2 (Nat.ltb_ge _ _)), Hc by lia. cbv zeta.
    rewrite (proj2 (Nat.eqb_eq _ _)) by lia. f_equal. apply Hfull. by rewrite <- Hend.
  - destruct fuel as [|fuel]; [lia |]. inversion Hs as [|? ? Ht Hs']; subst.
    destruct (copy_literals dp lit dst out Ha ltac:(lia)) as (dst1 & Hc & Ha1). pose proof Ha1 as [Hl1 _].
    assert (length (sub dp lit out) = lit) as Hlen by (apply length_sub; lia).
    rewrite Hsub in Hc, Hlen. rewrite length_take in Hlen.
    pose proof (field_bytes_ok _ _ _ _ Hf Hs') as Hrest.
    assert (bytes_ok (drop lit rest)) as Hdrop by (by apply Forall_drop).
    pose proof (field_bytes_ok _ _ _ _ Hf' Hdrop) as Hrest'.
    inversion Hrest' as [|? ? Hb0 Hr1]; subst. inversion Hr1 as [|? ? Hb1 Hr2]; subst.
    destruct (copy_match_agree (dp + lit) (Z.to_nat (b0 + 256 * b1)) (m + MIN_MATCH) dst1 out Ha1
      ltac:(lia) ltac:(lia) Hcopy) as (dst2 & Hc2 & Ha2). unfold MIN_MATCH in *.
    cbn [decompress_loop]. rewrite (proj2 (Nat.ltb_lt _ _)) by lia.
    rewrite (field_read_len _ _ _ _ Hf Hs') by lia.
    rewrite (proj2 (Z.ltb_ge _ _)), Nat2Z.id, (proj2 (Nat.ltb_ge _ _)), Hc by lia. cbv zeta.
    rewrite (proj2 (Nat.eqb_neq _ _)) by lia. unfold decode_match, MIN_MATCH.
    rewrite (field_read_len _ _ _ _ Hf' Hdrop) by lia. cbv zeta. rewrite lor_byte by done.
    rewrite (proj2 (Z.eqb_neq _ _)), (proj2 (Z.ltb_ge _ _)) by lia. cbn [orb].
    rewrite (proj2 (Z.ltb_ge _ _)) by lia. rewrite <- Nat2Z.inj_add, Nat2Z.id, Hc2.
    apply IH; auto; lia.
Qed.

Lemma decode_match_done nibble src dp dst src' dp' dst' :
  (0 <= nibble)%Z -> bytes_ok src -> (dp <= length dst)%nat -> (Z.of_nat (length dst) <= 2 ^ 24)%Z ->
  decode_match nibble src dp dst = Done (src', dp', dst') ->
  exists m b0 b1, length_field nibble src m (b0 :: b1 :: src') /\
    (0 < b0 + 256 * b1 <= Z.of_nat dp)%Z /\
    dp' = (dp + (m + MIN_MATCH))%nat /\ (dp' <= length dst)%nat /\
    length dst' = length dst /\ take dp dst' = take dp dst /\ bytes_ok src' /\
    forall i, (i < m + MIN_MATCH)%nat ->
      dst' !! (dp - Z.to_nat (b0 + 256 * b1) + i)%nat = dst' !! (dp + i)%nat.
Proof.
  intros Hn Hs Hd Hmax. unfold decode_match.
  destruct (read_len nibble src) as [[ml src1] | |] eqn:E; [| done | done].
  destruct (read_len_nonneg _ _ _ _ Hn Hs E) as [Hml Hs1].
  destruct src1 as [|b0 [|b1 src1]]; [done | done |]. cbv zeta.
  inversion Hs1 as [|? ? Hb0 Hs2]; subst. inversion Hs2 as [|? ? Hb1 Hs3]; subst.
  rewrite lor_byte by done. unfold fits in Hb0, Hb1.
  destruct (_ || _) eqn:E1; [done |].
  destruct (Z.of_nat (length dst - dp) <? _)%Z eqn:E2; [done |]. bool_lia.
  destruct (copy_match _ _ _ _) as [dst1 |] eqn:Ec; [| done]. intros [= <- <- <-].
  unfold MIN_MATCH in *. replace (Z.to_nat (ml + Z.of_nat 4)) with (Z.to_nat ml + 4)%nat in * by lia.
  apply copy_match_spec in Ec as (Hl & Ht & Hi); [| lia | lia].
  exists (Z.to_nat ml), b0, b1. split_and!; auto; try lia.
  eapply read_len_field; eauto. lia.
Qed.

Lemma decompress_loop_encodes fuel src dp dst out :
  bytes_ok src -> (dp <= length dst)%nat -> (Z.of_nat (length dst) <= 2 ^ 24)%Z ->
  decompress_loop fuel src dp dst = Done out ->
  length out = length dst /\ take dp out = take dp dst /\ encodes out dp src.
Proof.
  revert src dp dst. induction fuel as [|fuel IH]; intros src dp dst Hs Hd Hmax;
    cbn [decompress_loop]; destruct (dp <? length dst)%nat eqn:E0; bool_lia; try done;
    try (intros [= <-]; replace dp with (length dst) by lia; auto using enc_end).
  destruct src as [|tag src]; [done |]. inversion Hs as [|? ? Ht Hs0]; subst.
  assert (0 <= Z.shiftr tag 4)%Z by (apply Z.shiftr_nonneg; apply Ht).
  destruct (read_len _ src) as [[lit src1] | |] eqn:E1; [| done | done].
  destruct (read_len_nonneg _ _ _ _ ltac:(done) Hs0 E1) as [Hlit Hs1].
  destruct (_ <? lit)%Z eqn:E2; [done |]. destruct (length src1 <? _)%nat eqn:E3; [done |]. bool_lia.
  apply read_len_field in E1; [| done | done | lia].
  destruct (copy_to _ _ _) as [dst1 |] eqn:Ec; [| done].
  apply copy_to_spec in Ec as (_ & Hl1 & Ht1 & Hsub). rewrite length_take, Nat.min_l in Hsub by lia.
  cbv zeta. destruct (_ =? length dst1)%nat eqn:E4; bool_lia.
  { intros [= <-]. split_and!; [done | done |]. eapply enc_last; eauto; lia. }
  destruct (decode_match _ _ _ _) as [[[src2 dp2] dst2] | |] eqn:Em; [| done | done]. intros Hrun.
  apply decode_match_done in Em as (m & b0 & b1 & Hf & Hoff & -> & Hdp2 & Hl2 & Ht2 & Hs2 & Hi);
    [| apply Z.land_nonneg; lia | by apply Forall_drop | lia | lia].
  apply IH in Hrun as (Hlo & Hto & He); [| done | lia | lia].
  assert (take (dp + Z.to_nat lit) out = take (dp + Z.to_nat lit) dst1) as Ht3.
  { rewrite <- Ht2. by eapply take_eq_le; [exact Hto | lia]. }
  split_and!; [lia | rewrite <- Ht1; by eapply take_eq_le; [exact Ht3 | lia] |].
  eapply enc_token; eauto; try lia.
  - rewrite <- Hsub. unfold sub. rewrite !take_drop_commute. by rewrite Ht3.
  - intros i Hlt. rewrite !(take_lookup_eq _ _ _ _ Hto) by lia. by apply Hi.
Qed.

(** ** Properties *)

(** Every emitted value is a byte when the source is bytes. *)
Definition emits_bytes (f : emission) : Prop :=
  forall s s' b, f s = (s', b) -> bytes_ok (out s) -> bytes_ok (out s').

Lemma emits_then f g : emits_bytes f -> emits_bytes g -> emits_bytes (f >>> g).
Proof.
  intros Hf Hg s s' b. unfold then_emit. destruct (f s) as [s1 []] eqn:E1; intros E2 Hs; eauto.
  injection E2 as <- <-. eauto.
Qed.

Section emits.
  Variable BLOCK : nat.

Lemma emits_emit b : fits 8 b -> emits_bytes (emit BLOCK b).
Proof.
  intros Hb s s' r. unfold emit. destruct (_ <=? _)%nat; intros [= <- _] Hs; [done |].
  cbn [out]. apply bytes_ok_app. split; [done | by constructor].
Qed.

Lemma emits_token lit mat : emits_bytes (emit_token BLOCK lit mat).
Proof.
  unfold emit_token. apply emits_emit.
  set (l := Z.of_nat (if (lit <? 15)%nat then lit else 15%nat)).
  set (m := Z.of_nat (if (mat <? 15)%nat then mat else 15%nat)).
  assert (0 <= l < 2 ^ 4)%Z as Hl by (unfold l; destruct (lit <? 15)%nat eqn:?; bool_lia).
  assert (0 <= m < 2 ^ 4)%Z as Hm by (unfold m; destruct (mat <? 15)%nat eqn:?; bool_lia).
  rewrite Z.shiftl_mul_pow2 by lia. unfold fits.
  assert (Z.lor (l * 2 ^ 4) m = l * 2 ^ 4 + m)%Z as ->; [| lia].
  rewrite <- Z.shiftl_mul_pow2 by lia. symmetry. rewrite Z.add_nocarry_lxor, Z.lxor_lor; [done | |];
    apply Z.bits_inj'; intros i Hi; rewrite Z.land_spec, Z.shiftl_spec, Z.bits_0 by lia;
    (destruct (decide (i < 4)%Z); [rewrite (Z.testbit_neg_r l) by lia; done |]);
    rewrite (Z.bits_above_log2 m i), andb_false_r; try done; try lia;
    (destruct (decide (m = 0)%Z) as [-> | ?]; [cbn; lia | apply Z.log2_lt_pow2; try lia;
     eapply Z.lt_le_trans; [apply Hm | apply Z.pow_le_mono_r; lia]]).
Qed.

Lemma emits_ext_loop fuel rem : emits_bytes (emit_ext_loop BLOCK fuel rem).
Proof.
  revert rem. induction fuel as [|fuel IH]; intros rem s s' b; cbn [emit_ext_loop].
  { by intros [= <- _]. }
  destruct (255 <=? rem)%nat eqn:Er; bool_lia.
  - apply emits_then; [apply emits_emit; done | apply IH].
  - apply emits_emit. unfold fits. lia.
Qed.

Lemma emits_ext len : emits_bytes (emit_ext BLOCK len).
Proof.
  intros s s' b. unfold emit_ext. destruct (_ <? _)%nat; [by intros [= <- _] |]. apply emits_ext_loop.
Qed.

Lemma emits_literals src lo hi : bytes_ok src -> emits_bytes (emit_literals BLOCK src lo hi).
Proof.
  intros Hsrc s s' b. unfold emit_literals. destruct (_ <? _)%nat; intros [= <- _] Hs; [done |].
  cbn [out]. apply bytes_ok_app. auto with horton.
Qed.

Lemma emits_u16 v : emits_bytes (emit_u16 BLOCK v).
Proof.
  intros s s' b. unfold emit_u16. destruct (_ || _); [by intros [= <- _] |].
  apply emits_then; apply emits_emit; unfold fits; change 255%Z with (Z.ones 8);
    rewrite Z.land_ones by lia; apply Z.mod_pos_bound; lia.
Qed.

Lemma emits_match src anchor ip mpos mlen :
  bytes_ok src -> emits_bytes (emit_match BLOCK src anchor ip mpos mlen).
Proof.
  intros Hs. unfold emit_match.
  repeat apply emits_then; auto using emits_token, emits_ext, emits_literals, emits_u16.
Qed.

Lemma compress_loop_ok fuel src body ip anchor s s' r :
  bytes_ok src -> compress_loop BLOCK fuel src body ip anchor s = (s', r) ->
  bytes_ok (out s) -> bytes_ok (out s').
Proof.
  intros Hsrc. revert ip anchor s. induction fuel as [|fuel IH]; intros ip anchor s; cbn [compress_loop];
    (destruct (ip <? body)%nat; [| by intros [= <- _]]); [by intros [= <- _] |].
  destruct (find_match (head s) src ip body) as [[mpos mlen] h].
  destruct (MIN_MATCH <=? mlen)%nat.
  - destruct (emit_match _ _ _ _ _ _ s) as [s1 []] eqn:Em; intros E Hs.
    + eapply IH; [exact E |]. rewrite index_loop_out. by apply (emits_match src anchor ip mpos mlen Hsrc _ _ _ Em).
    + injection E as <- _. by apply (emits_match src anchor ip mpos mlen Hsrc _ _ _ Em).
  - intros E Hs. eapply IH; [exact E |]. by destruct (h =? HASH_SIZE)%nat.
Qed.

Lemma compress_out_ok s src s' clen :
  bytes_ok src -> compress BLOCK s src = (s', Some clen) -> bytes_ok (out s').
Proof.
  intros Hsrc. unfold compress. destruct (BLOCK <? 4)%nat; [done |]. destruct (negb _); [done |].
  destruct (compress_loop _ _ _ _ _ _ _) as [s1 [a |]] eqn:Ec; [| done].
  destruct (emit_tail _ _ _ _ s1) as [s2 []] eqn:Et; [| done].
  destruct (_ && _); [| done]. intros [= <- _]. eapply emits_then; [apply emits_then | | exact Et |];
    auto using emits_token, emits_ext, emits_literals.
  eapply compress_loop_ok; [done | exact Ec | constructor].
Qed.
End emits.

Lemma compress_inverts (BLOCK : nat) (s s' : scratch) (src : bytes) (clen : nat)
  (H : compress BLOCK s src = (s', Some clen)) (rest dst : bytes)
  (Hdst : length dst = length src) :
  decompress (out s' ++ rest) dst = Done src.
Proof.
  destruct (compress_shape _ _ _ _ _ H) as (Hl & Hc & Hsave & H15 & a & s1 & Hloop & Hout).
  assert (length (out s') = length (out s1) + length (tail_token src a (length src)))%nat as Hlen
    by (by rewrite Hout, length_app).
  destruct (compress_loop_decodes _ _ _ _ _ _ _ _ Hloop) as (Ha & bs & Hbs & Hdec);
    [lia | lia |]. cbn [out app] in Hbs.
  assert (length src - a <= length (tail_token src a (length src)))%nat as Htail.
  { unfold tail_token. rewrite !length_app, length_sub by lia. lia. }
  unfold decompress. rewrite Hout, Hbs, <- app_assoc.
  destruct (Hdec (tail_token src a (length src) ++ rest) dst) as (k & dst' & Hk & Ha' & Hrun).
  { split; [done |]. by rewrite !take_0. }
  rewrite Hdst. replace (length src) with (k + (length src - k))%nat at 1 by lia.
  rewrite Hrun. apply tail_token_decode; auto; lia.
Qed.

(** C37: round trip.  Whenever [compress] accepts a block body, decompressing
    what it staged, with anything after it and into any buffer of the body's
    size, returns the original bytes. *)
Theorem compress_roundtrip (BLOCK : nat) (s s' : scratch) (src : bytes) (clen : nat)
  (H : compress BLOCK s src = (s', Some clen)) (rest dst : bytes)
  (Hdst : length dst = length src) :
  decompress (out s' ++ rest) dst = Done src.
Proof. by apply (compress_inverts BLOCK s s' src clen). Qed.

Definition demo_block : bytes := concat (replicate 60 [1; 2; 3; 4; 5]%Z).

Lemma compress_roundtrip_witness :
  compress 304 new demo_block = (fst (compress 304 new demo_block), Some 11%nat) /\
  decompress (out (fst (compress 304 new demo_block)) ++ [7; 7]%Z) (replicate 300 0%Z)
    = Done demo_block.
Proof.
  assert (compress 304 new demo_block = (fst (compress 304 new demo_block), Some 11%nat)) as E
    by (vm_compute; reflexivity).
  split; [exact E |].
  apply (compress_roundtrip 304 new _ demo_block 11 E [7; 7]%Z (replicate 300 0%Z)).
  reflexivity.
Defined.



(** the contract of an accepted block: it saves at least
    [COMPRESS_MIN_SAVING] bytes, its length fits the trailer's 15-bit field, and
    the reported length is the length of the staged stream. *)
Theorem compress_accepts (BLOCK : nat) (s s' : scratch) (src : bytes) (clen : nat)
  (H : compress BLOCK s src = (s', Some clen)) :
  length src = (BLOCK - 4)%nat /\ clen = length (out s') /\
  (clen + COMPRESS_MIN_SAVING <= length src)%nat /\ (Z.of_nat clen < 2 ^ 15)%Z.
Proof. destruct (compress_shape _ _ _ _ _ H) as (Hl & ? & ? & ? & _). rewrite Hl. auto. Qed.

Lemma compress_accepts_witness :
  (11 + COMPRESS_MIN_SAVING <= length demo_block)%nat.
Proof.
  apply (compress_accepts 304 new (fst (compress 304 new demo_block)) demo_block 11).
  vm_compute. reflexivity.
Defined.
