(* ===== verification/Memtable.v ===== *)
(** * The memtable: [src/memtable.rs]

    A sorted slot array over a bump arena.  Slots hold offsets into the arena,
    exactly as in the source; [view] reads the entries they describe.  The
    specification is the log of mutations: after any sequence of accepted inserts
    with increasing sequence numbers the table holds exactly that log, sorted by
    key and newest first, and its lookups are the log's. *)

From stdpp Require Import base numbers list sets sorting relations.
From Stdlib Require Import ZArith Lia.
From S2P Require Import Prelude Device.

(** ** The code *)

Record Slot := mkSlot {
  key_off : u32;
  key_len : u16;
  val_off : u32;
  val_len : u16;
  sl_seq : u64;
  sl_tombstone : bool;
  sl_range_del : bool;
  sl_expire_at : u64;
}.

Definition EMPTY_SLOT : Slot := mkSlot 0 0 0 0 0 false false 0.

Record MemTable := mkTable {
  slots : list Slot;
  len : nat;
  arena : bytes;
  arena_len : nat;
  max_seq : u64;
}.

(** What [get] and [get_at] return. *)
Record Lookup := mkLookup {
  lk_val : bytes;
  lk_seq : u64;
  lk_tombstone : bool;
  lk_expire_at : u64;
}.

(** What the iterator and [slot_view] return. *)
Record Entry := mkEntry {
  key : bytes;
  val : bytes;
  seq : u64;
  tombstone : bool;
  range_del : bool;
  expire_at : u64;
}.

Record Plan := mkPlan {
  pl_pos : nat;
  pl_key_off : u32;
  pl_key_len : u16;
  pl_val_off : u32;
  pl_val_len : u16;
}.

Definition checked_add32 (a b : u32) : option u32 :=
  if (a + b <=? U32_MAX)%Z then Some (a + b)%Z else None.

Section memtable.
  (** The const generics, and the device error type of the caller. *)
  Context {E : Type}.
  Variables CAP ARENA KEY_MAX VAL_MAX : nat.

Definition new : MemTable :=
  mkTable (replicate CAP EMPTY_SLOT) 0 (replicate ARENA 0%Z) 0 0.

Definition is_empty (t : MemTable) : bool := (len t =? 0)%nat.

Definition live_slots (t : MemTable) : list Slot := take (len t) (slots t).

(** [self.slots[..self.len].iter().map(|s| s.seq).min().unwrap_or(u64::MAX)] *)
Definition min_seq (t : MemTable) : u64 :=
  match map sl_seq (live_slots t) with
  | [] => U64_MAX
  | x :: l => fold_left Z.min l x
  end.

Definition clear (t : MemTable) : MemTable := mkTable (slots t) 0 (arena t) 0 0.

Definition slot_key (t : MemTable) (s : Slot) : bytes :=
  sub (Z.to_nat (key_off s)) (Z.to_nat (key_len s)) (arena t).

Definition slot_val (t : MemTable) (s : Slot) : bytes :=
  sub (Z.to_nat (val_off s)) (Z.to_nat (val_len s)) (arena t).

(** The [while pos > 0 && slot_key(slots[pos - 1]) == key] walk to the run's
    first slot. *)
Fixpoint walk_back (t : MemTable) (k : bytes) (pos : nat) : nat :=
  match pos with
  | O => O
  | S pos' =>
      if bytes_eqb (slot_key t (nth pos' (slots t) EMPTY_SLOT)) k
      then walk_back t k pos' else pos
  end.

(** [inl] is [Ok(start)], [inr] is [Err(pos)]. *)
Definition find_run (t : MemTable) (k : bytes) : nat + nat :=
  match binary_search_by
          (fun i => bytes_cmp (slot_key t (nth i (slots t) EMPTY_SLOT)) k) (len t) with
  | inl pos => inl (walk_back t k pos)
  | inr pos => inr pos
  end.

Definition lower_bound (t : MemTable) (k : bytes) : nat :=
  match find_run t k with inl start => start | inr pos => pos end.

Definition plan (t : MemTable) (k v : bytes) (tomb : bool) : result Plan (Error E) :=
  if (length k =? 0)%nat then Err EmptyKey
  else
    match try_u16 (length k) with
    | None => Err (KeyTooLarge (length k) KEY_MAX)
    | Some kl =>
        if (KEY_MAX <? length k)%nat then Err (KeyTooLarge (length k) KEY_MAX)
        else
          let vlen := if tomb then 0%nat else length v in
          match try_u16 vlen with
          | None => Err (ValueTooLarge vlen VAL_MAX)
          | Some vl =>
              if (VAL_MAX <? vlen)%nat then Err (ValueTooLarge vlen VAL_MAX)
              else
                let pos := lower_bound t k in
                if (CAP <=? len t)%nat then Err TableFull
                else
                  let need := (length k + vlen)%nat in
                  if (ARENA <? arena_len t + need)%nat then Err ArenaFull
                  else
                    match try_u32 (arena_len t) with
                    | None => Err ArenaFull
                    | Some ko =>
                        match checked_add32 ko kl with
                        | None => Err ArenaFull
                        | Some vo => Ok (mkPlan pos ko kl vo vl)
                        end
                    end
          end
    end.

(** The loop over the two bounds. *)
Fixpoint check_bounds (bounds : list bytes) : result unit (Error E) :=
  match bounds with
  | [] => Ok tt
  | b :: bounds =>
      if (length b =? 0)%nat then Err EmptyKey
      else if (KEY_MAX <? length b)%nat then Err (KeyTooLarge (length b) KEY_MAX)
      else check_bounds bounds
  end.

Definition plan_range_del (t : MemTable) (start end_ : bytes) : result Plan (Error E) :=
  match check_bounds [start; end_] with
  | Err e => Err e
  | Ok _ =>
      if bytes_leb end_ start then Err EmptyKey
      else
        let pos := lower_bound t start in
        if (CAP <=? len t)%nat then Err TableFull
        else
          let need := (length start + length end_)%nat in
          if (ARENA <? arena_len t + need)%nat then Err ArenaFull
          else
            match try_u32 (arena_len t) with
            | None => Err ArenaFull
            | Some ko =>
                match try_u16 (length start) with
                | None => Err (KeyTooLarge (length start) KEY_MAX)
                | Some kl =>
                    match checked_add32 ko kl with
                    | None => Err ArenaFull
                    | Some vo =>
                        match try_u16 (length end_) with
                        | None => Err (KeyTooLarge (length end_) KEY_MAX)
                        | Some vl => Ok (mkPlan pos ko kl vo vl)
                        end
                    end
                end
            end
  end.

(** [a.key], [a.val] and the metadata are the fields of [e]. *)
Definition apply (t : MemTable) (p : Plan) (e : Entry) : MemTable :=
  let kl := Z.to_nat (pl_key_len p) in
  let vl := Z.to_nat (pl_val_len p) in
  let koff := Z.to_nat (pl_key_off p) in
  let voff := Z.to_nat (pl_val_off p) in
  let arena1 := splice koff (take kl (key e)) (arena t) in
  let arena2 := splice voff (take vl (val e)) arena1 in
  let slot := mkSlot (pl_key_off p) (pl_key_len p) (pl_val_off p) (pl_val_len p)
                (seq e) (tombstone e) (range_del e) (expire_at e) in
  (* copy_within(pos..len, pos + 1), then slots[pos] = slot *)
  let moved := splice (pl_pos p + 1) (sub (pl_pos p) (len t - pl_pos p) (slots t)) (slots t) in
  mkTable (<[pl_pos p := slot]> moved) (len t + 1) arena2 (voff + vl)
    (if (max_seq t <? seq e)%Z then seq e else max_seq t).

Definition check_insert (t : MemTable) (k v : bytes) (tomb : bool) : result unit (Error E) :=
  let? _ := plan t k v tomb in Ok tt.

Definition insert (t : MemTable) (k v : bytes) (sq : u64) (tomb : bool)
  : result MemTable (Error E) :=
  let? p := plan t k v tomb in Ok (apply t p (mkEntry k v sq tomb false 0)).

Definition insert_ttl (t : MemTable) (k v : bytes) (sq : u64) (exp : u64)
  : result MemTable (Error E) :=
  let? p := plan t k v false in Ok (apply t p (mkEntry k v sq false false exp)).

Definition insert_range_del (t : MemTable) (start end_ : bytes) (sq : u64)
  : result MemTable (Error E) :=
  let? p := plan_range_del t start end_ in Ok (apply t p (mkEntry start end_ sq true true 0)).

Definition check_insert_range_del (t : MemTable) (start end_ : bytes) : result unit (Error E) :=
  let? _ := plan_range_del t start end_ in Ok tt.
End memtable.

(** The [while idx < self.len] run walk, over the slots from [idx] on. *)
Fixpoint get_walk (t : MemTable) (k : bytes) (mx : u64) (l : list Slot) : option Lookup :=
  match l with
  | [] => None
  | s :: l =>
      if negb (bytes_eqb (slot_key t s) k) then None
      else if sl_range_del s then get_walk t k mx l
      else if (sl_seq s <=? mx)%Z then
        Some (mkLookup (slot_val t s) (sl_seq s) (sl_tombstone s) (sl_expire_at s))
      else get_walk t k mx l
  end.

Definition get_at (t : MemTable) (k : bytes) (mx : u64) : option Lookup :=
  match find_run t k with
  | inr _ => None
  | inl idx => get_walk t k mx (drop idx (live_slots t))
  end.

Definition get (t : MemTable) (k : bytes) : option Lookup := get_at t k U64_MAX.

(** The loop body of [max_covering_rdel]. *)
Definition rdel_step (t : MemTable) (k : bytes) (mx : u64) (best : option u64) (s : Slot)
  : option u64 :=
  if negb (sl_range_del s) || (mx <? sl_seq s)%Z then best
  else if bytes_leb (slot_key t s) k && bytes_ltb k (slot_val t s) &&
          match best with None => true | Some b => (b <? sl_seq s)%Z end
  then Some (sl_seq s) else best.

Definition max_covering_rdel (t : MemTable) (k : bytes) (mx : u64) : option u64 :=
  fold_left (rdel_step t k mx) (live_slots t) None.

Definition entry_of (t : MemTable) (s : Slot) : Entry :=
  mkEntry (slot_key t s) (slot_val t s) (sl_seq s) (sl_tombstone s) (sl_range_del s)
    (sl_expire_at s).

(** [slot_view(idx)]; [Iter::next] yields it for [idx = 0, 1, ...]. *)
Definition slot_view (t : MemTable) (idx : nat) : option Entry :=
  entry_of t <$> live_slots t !! idx.

Definition iter (t : MemTable) : list Entry := map (entry_of t) (live_slots t).

(** ** Order and well-formedness *)

(** Key ascending, then sequence descending. *)
Definition before (a b : Entry) : Prop :=
  bytes_lt (key a) (key b) \/ (key a = key b /\ (seq b < seq a)%Z).

#[export] Instance before_trans : Transitive before.
Proof.
  intros a b c [H1 | [H1 H1']] [H2 | [H2 H2']]; unfold before.
  - left. by etrans.
  - left. by rewrite <- H2.
  - left. by rewrite H1.
  - right. split; [congruence | lia].
Qed.

(** A slot's two ranges lie in the used part of the arena. *)
Definition slot_ok (alen : nat) (s : Slot) : Prop :=
  (0 <= key_off s /\ 0 <= key_len s /\ 0 <= val_off s /\ 0 <= val_len s /\
   key_off s + key_len s <= Z.of_nat alen /\ val_off s + val_len s <= Z.of_nat alen)%Z.

Record wf (CAP ARENA : nat) (t : MemTable) : Prop := {
  wf_cap : length (slots t) = CAP;
  wf_len : (len t <= CAP)%nat;
  wf_arena : length (arena t) = ARENA;
  wf_used : (arena_len t <= ARENA)%nat;
  wf_slots : Forall (slot_ok (arena_len t)) (live_slots t);
  wf_sorted : StronglySorted before (iter t);
  wf_max : Forall (fun e => (seq e <= max_seq t)%Z) (iter t);
}.

(** ** List lemmas *)

Lemma insert_shift {A} (l : list A) pos n x :
  (pos <= n)%nat -> (n < length l)%nat ->
  take (n + 1) (<[pos := x]> (splice (pos + 1) (sub pos (n - pos) l) l)) =
  take pos (take n l) ++ x :: drop pos (take n l).
Proof.
  intros Hp Hn. unfold splice.
  assert (length (sub pos (n - pos) l) = (n - pos)%nat) as Hs by (apply length_sub; lia).
  rewrite insert_app_l by (rewrite length_take; lia).
  rewrite insert_take_drop by (rewrite length_take; lia).
  rewrite take_take, Nat.min_l, (drop_ge (take (pos + 1) l)) by (rewrite ?length_take; lia).
  rewrite <- app_assoc. cbn [app].
  replace (n + 1)%nat with (length (take pos l) + S (n - pos))%nat by (rewrite length_take; lia).
  rewrite take_app_add. rewrite take_take, Nat.min_l by lia. f_equal. cbn [take]. f_equal.
  rewrite take_app_le, take_ge by lia. unfold sub. rewrite take_drop_commute.
  do 2 f_equal. lia.
Qed.

(** Inserting at a position that splits the order keeps it. *)
Lemma StronglySorted_insert {A} (R : A -> A -> Prop) l1 l2 x :
  StronglySorted R (l1 ++ l2) -> Forall (fun y => R y x) l1 -> Forall (R x) l2 ->
  StronglySorted R (l1 ++ x :: l2).
Proof.
  induction l1 as [|y l1 IH]; simpl; intros Hs H1 H2; [by constructor |].
  apply StronglySorted_inv in Hs as [Hs Hy]. inversion H1; subst.
  constructor; [by apply IH |]. apply Forall_app in Hy as [? ?].
  apply Forall_app. split; [done | by constructor].
Qed.

(** ** The search *)

Section search.
  Context {CAP ARENA : nat}.

Lemma iter_lookup (t : MemTable) i :
  iter t !! i = entry_of t <$> live_slots t !! i.
Proof. apply list_lookup_fmap. Qed.

Lemma length_live t : wf CAP ARENA t -> length (live_slots t) = len t.
Proof. intros []. unfold live_slots. rewrite length_take. lia. Qed.

Lemma length_iter t : wf CAP ARENA t -> length (iter t) = len t.
Proof. intros. unfold iter. rewrite length_map. by apply length_live. Qed.

Lemma nth_live t i :
  wf CAP ARENA t -> (i < len t)%nat -> live_slots t !! i = Some (nth i (slots t) EMPTY_SLOT).
Proof.
  intros [] Hi. unfold live_slots. rewrite lookup_take_lt by done.
  destruct (nth_lookup_or_length (slots t) i EMPTY_SLOT); [done | lia].
Qed.

Lemma probe_key t i :
  wf CAP ARENA t -> (i < len t)%nat ->
  exists e, iter t !! i = Some e /\ key e = slot_key t (nth i (slots t) EMPTY_SLOT).
Proof.
  intros Hw Hi. exists (entry_of t (nth i (slots t) EMPTY_SLOT)). split; [| done].
  by rewrite iter_lookup, nth_live.
Qed.

(** Keys never descend along the table. *)
Lemma keys_ascend t i j a b :
  wf CAP ARENA t -> (i <= j)%nat -> iter t !! i = Some a -> iter t !! j = Some b ->
  bytes_le (key a) (key b).
Proof.
  intros Hw Hij Ha Hb. apply bytes_le_lteq. destruct (decide (i = j)) as [-> |].
  - right. congruence.
  - destruct (StronglySorted_lookup before (iter t) i j a b) as [|[??]]; auto; [apply Hw | lia].
Qed.

Lemma probe_monotone t k :
  wf CAP ARENA t ->
  monotone_cmp (fun i => bytes_cmp (slot_key t (nth i (slots t) EMPTY_SLOT)) k) (len t).
Proof.
  intros Hw i j Hij Hj.
  destruct (probe_key t i) as (a & Ha & <-); [done | lia |].
  destruct (probe_key t j) as (b & Hb & <-); [done | lia |].
  assert (bytes_le (key a) (key b)) as Hab by (eapply (keys_ascend t i j); eauto; lia).
  split; intros H.
  - by apply (bytes_le_lt_trans _ (key b)).
  - rewrite bytes_cmp_antisym in H |- *.
    destruct (bytes_cmp k (key a)) eqn:E; try discriminate.
    by rewrite (bytes_lt_le_trans k (key a) (key b) E Hab).
Qed.

(** Where a search for [k] may put a boundary, and the run start. *)
Definition splits (k : bytes) (l : list Entry) (pos : nat) : Prop :=
  Forall (fun e => bytes_lt (key e) k) (take pos l) /\
  Forall (fun e => bytes_le k (key e)) (drop pos l).

(** The walk stops at the first slot of the run. *)
Lemma walk_back_spec t k pos :
  wf CAP ARENA t -> (pos <= len t)%nat ->
  Forall (fun e => bytes_le (key e) k) (take pos (iter t)) ->
  Forall (fun e => bytes_le k (key e)) (drop pos (iter t)) ->
  (walk_back t k pos <= pos)%nat /\ splits k (iter t) (walk_back t k pos).
Proof.
  intros Hw. induction pos as [|pos IH]; intros Hp Hle Hge; cbn [walk_back].
  { split; [lia |]. by split. }
  destruct (probe_key t pos) as (b & Hb & Hbk); [done | lia |]. rewrite <- Hbk.
  rewrite (take_S_r _ _ b Hb), Forall_app, Forall_singleton in Hle. destruct Hle as [Hle Hbe].
  destruct (bytes_eqb (key b) k) eqn:E.
  - apply bytes_eqb_spec in E. destruct IH as [H1 H2]; [lia | done | | split; [lia | done]].
    rewrite (drop_S _ b pos Hb). constructor; [rewrite E; apply bytes_le_refl | done].
  - split; [lia |]. split; [| done].
    assert (bytes_lt (key b) k) as Hlt.
    { apply bytes_le_lteq in Hbe as [? | Heq]; [done | by rewrite Heq, bytes_eqb_refl in E]. }
    apply Forall_forall. intros e (i & He & Hi)%elem_of_take.
    eapply bytes_le_lt_trans; [| exact Hlt]. eapply (keys_ascend t i pos); eauto. lia.
Qed.

Lemma find_run_spec t k :
  wf CAP ARENA t ->
  (lower_bound t k <= len t)%nat /\ splits k (iter t) (lower_bound t k) /\
  (forall p, find_run t k = inr p -> Forall (fun e => key e <> k) (iter t)).
Proof.
  intros Hw. unfold lower_bound, find_run.
  pose proof (binary_search_spec _ _ (probe_monotone t k Hw)) as H.
  destruct (binary_search_by _ _) as [pos | pos].
  - destruct H as [Hp Heq%bytes_cmp_eq].
    destruct (probe_key t pos) as (b & Hb & Hbk); [done | lia |].
    assert (key b = k) as <- by congruence.
    destruct (walk_back_spec t (key b) pos) as [H1 H2]; [done | lia | | | by split; [lia |]].
    + apply Forall_forall. intros e (i & He & Hi)%elem_of_take.
      eapply (keys_ascend t i pos); eauto. lia.
    + apply Forall_forall. intros e (i & He)%list_elem_of_lookup. rewrite lookup_drop in He.
      eapply (keys_ascend t pos (pos + i)); eauto. lia.
  - destruct H as (Hp & Hlt & Hgt).
    assert (Forall (fun e => bytes_lt (key e) k) (take pos (iter t))) as H1.
    { apply Forall_forall. intros e (i & He & Hi)%elem_of_take.
      destruct (probe_key t i) as (b & Hb & Hbk); [done | lia |].
      assert (b = e) as <- by congruence. unfold bytes_lt. rewrite Hbk. by apply Hlt. }
    assert (Forall (fun e => bytes_lt k (key e)) (drop pos (iter t))) as H2.
    { apply Forall_forall. intros e (i & He)%list_elem_of_lookup. rewrite lookup_drop in He.
      pose proof (lookup_lt_Some _ _ _ He). rewrite length_iter in * by done.
      destruct (probe_key t (pos + i)) as (b & Hb & Hbk); [done | lia |].
      assert (b = e) as <- by congruence. unfold bytes_lt.
      rewrite bytes_cmp_antisym, Hbk, Hgt by lia. done. }
    split; [done |]. split; [split; [done |] |].
    + eapply Forall_impl; [exact H2 |]. intros e ?. apply bytes_le_lteq. by left.
    + intros _ _. rewrite <- (take_drop pos (iter t)), Forall_app. split.
      * eapply Forall_impl; [exact H1 |]. intros e He Heq. cbv beta in He. rewrite Heq in He.
        by apply (irreflexivity bytes_lt k) in He.
      * eapply Forall_impl; [exact H2 |]. intros e He Heq. cbv beta in He. rewrite Heq in He.
        by apply (irreflexivity bytes_lt k) in He.
Qed.
End search.

(** ** Planning and applying an insert *)

(** What a plan for a key of [k] and [vl] value bytes promises. *)
Record plan_for (CAP ARENA : nat) (t : MemTable) (k : bytes) (vl : nat) (p : Plan) : Prop := {
  pf_pos : pl_pos p = lower_bound t k;
  pf_key_off : pl_key_off p = Z.of_nat (arena_len t);
  pf_key_len : pl_key_len p = Z.of_nat (length k);
  pf_val_off : pl_val_off p = Z.of_nat (arena_len t + length k);
  pf_val_len : pl_val_len p = Z.of_nat vl;
  pf_cap : (len t < CAP)%nat;
  pf_arena : (arena_len t + (length k + vl) <= ARENA)%nat;
}.

(** The compile-time assertions of [MemTable::new]. *)
Record consts_ok (CAP ARENA KEY_MAX VAL_MAX : nat) : Prop := {
  ASSERT_CAP : (1 <= CAP)%nat;
  ASSERT_ARENA_FITS : (Z.of_nat ARENA <= U32_MAX)%Z;
  ASSERT_KEY : (1 <= KEY_MAX)%nat /\ (Z.of_nat KEY_MAX <= U16_MAX)%Z;
  ASSERT_VAL : (Z.of_nat VAL_MAX <= U16_MAX)%Z;
}.

Section inserting.
  Context {E : Type} {CAP ARENA KEY_MAX VAL_MAX : nat}.
  Hypothesis Hconsts : consts_ok CAP ARENA KEY_MAX VAL_MAX.

Lemma checked_add32_le a b : (a + b <= U32_MAX)%Z -> checked_add32 a b = Some (a + b)%Z.
Proof. intros. unfold checked_add32. by rewrite (proj2 (Z.leb_le _ _)). Qed.

(** The plan an accepted insert gets. *)
Definition the_plan (t : MemTable) (k : bytes) (vl : nat) : Plan :=
  mkPlan (lower_bound t k) (Z.of_nat (arena_len t)) (Z.of_nat (length k))
    (Z.of_nat (arena_len t) + Z.of_nat (length k)) (Z.of_nat vl).

Lemma the_plan_for t k vl :
  (len t < CAP)%nat -> (arena_len t + (length k + vl) <= ARENA)%nat ->
  plan_for CAP ARENA t k vl (the_plan t k vl).
Proof. intros. split; simpl; auto; lia. Qed.

(** The verdicts of [plan]: the width conversions never fail on their own. *)
Lemma plan_cases t k v tomb :
  plan (E := E) CAP ARENA KEY_MAX VAL_MAX t k v tomb =
  let vlen := if tomb then 0%nat else length v in
  if (length k =? 0)%nat then Err EmptyKey
  else if (KEY_MAX <? length k)%nat then Err (KeyTooLarge (length k) KEY_MAX)
  else if (VAL_MAX <? vlen)%nat then Err (ValueTooLarge vlen VAL_MAX)
  else if (CAP <=? len t)%nat then Err TableFull
  else if (ARENA <? arena_len t + (length k + vlen))%nat then Err ArenaFull
  else Ok (the_plan t k vlen).
Proof.
  destruct Hconsts as [_ HA [_ HK] HV]. unfold plan. cbv zeta.
  destruct (length k =? 0)%nat; [done |].
  destruct (KEY_MAX <? length k)%nat eqn:EK; [by destruct (try_u16 (length k)) |].
  rewrite try_u16_le by bool_lia.
  destruct (VAL_MAX <? _)%nat eqn:EV; [by destruct (try_u16 _) |].
  rewrite try_u16_le by bool_lia.
  destruct (CAP <=? len t)%nat; [done |].
  destruct (ARENA <? _)%nat eqn:EA; [done |].
  rewrite try_u32_le by bool_lia. rewrite checked_add32_le by bool_lia. done.
Qed.

Lemma plan_range_del_cases t start end_ :
  plan_range_del (E := E) CAP ARENA KEY_MAX t start end_ =
  if (length start =? 0)%nat then Err EmptyKey
  else if (KEY_MAX <? length start)%nat then Err (KeyTooLarge (length start) KEY_MAX)
  else if (length end_ =? 0)%nat then Err EmptyKey
  else if (KEY_MAX <? length end_)%nat then Err (KeyTooLarge (length end_) KEY_MAX)
  else if bytes_leb end_ start then Err EmptyKey
  else if (CAP <=? len t)%nat then Err TableFull
  else if (ARENA <? arena_len t + (length start + length end_))%nat then Err ArenaFull
  else Ok (the_plan t start (length end_)).
Proof.
  destruct Hconsts as [_ HA [_ HK] HV]. unfold plan_range_del, check_bounds. cbv zeta.
  destruct (length start =? 0)%nat; [done |].
  destruct (KEY_MAX <? length start)%nat eqn:EK; [done |].
  destruct (length end_ =? 0)%nat; [done |].
  destruct (KEY_MAX <? length end_)%nat eqn:EV; [done |].
  destruct (bytes_leb end_ start); [done |]. destruct (CAP <=? len t)%nat; [done |].
  destruct (ARENA <? _)%nat eqn:EA; [done |].
  rewrite try_u32_le, (try_u16_le (length start)) by bool_lia.
  rewrite checked_add32_le by bool_lia. by rewrite try_u16_le by bool_lia.
Qed.
End inserting.

Section applying.
  Context {CAP ARENA : nat} (t : MemTable) (e : Entry) (vl : nat) (p : Plan).
  Hypotheses (Hw : wf CAP ARENA t) (Hp : plan_for CAP ARENA t (key e) vl p)
             (Hvl : (vl <= length (val e))%nat)
             (Hseq : Forall (fun x => (seq x < seq e)%Z) (iter t)).

(** The entry as stored: its first [vl] value bytes. *)
Definition stored : Entry :=
  mkEntry (key e) (take vl (val e)) (seq e) (tombstone e) (range_del e) (expire_at e).

Let t' := apply t p e.

Lemma apply_arena :
  length (arena t') = ARENA /\ arena_len t' = (arena_len t + length (key e) + vl)%nat /\
  sub (arena_len t) (length (key e)) (arena t') = key e /\
  sub (arena_len t + length (key e)) vl (arena t') = take vl (val e) /\
  (forall o n, (o + n <= arena_len t)%nat -> sub o n (arena t') = sub o n (arena t)).
Proof.
  destruct Hp as [_ Hko Hkl Hvo Hvl' _ Har]. pose proof (wf_arena _ _ _ Hw) as Hlen.
  unfold t', apply. cbn [arena arena_len]. rewrite Hko, Hkl, Hvo, Hvl', !Nat2Z.id.
  rewrite (take_ge (key e)) by lia.
  assert (length (splice (arena_len t) (key e) (arena t)) = ARENA) as H1
    by (rewrite length_splice; lia).
  assert (length (take vl (val e)) = vl) as H2 by (rewrite length_take; lia).
  split; [rewrite length_splice; lia |]. split; [lia |]. split; [| split].
  - rewrite sub_splice_before by lia. apply sub_splice_same. lia.
  - pose proof (sub_splice_same (arena_len t + length (key e)) (take vl (val e))
      (splice (arena_len t) (key e) (arena t))) as Hs.
    rewrite H2 in Hs. apply Hs. lia.
  - intros o n Hon. by rewrite !sub_splice_before by lia.
Qed.

Lemma entry_of_old s : slot_ok (arena_len t) s -> entry_of t' s = entry_of t s.
Proof.
  intros Hs. destruct apply_arena as (_ & _ & _ & _ & Hold). unfold slot_ok in Hs.
  unfold entry_of, slot_key, slot_val. rewrite !Hold by lia. done.
Qed.

Let pos := lower_bound t (key e).

Lemma apply_live :
  exists s, live_slots t' = take pos (live_slots t) ++ s :: drop pos (live_slots t) /\
            slot_ok (arena_len t') s /\ entry_of t' s = stored.
Proof.
  destruct apply_arena as (_ & Hal & Hk & Hv & _). destruct Hp as [Hpos Hko Hkl Hvo Hvl' Hc Har].
  destruct (find_run_spec t (key e) Hw) as [Hlb _].
  exists (mkSlot (pl_key_off p) (pl_key_len p) (pl_val_off p) (pl_val_len p)
            (seq e) (tombstone e) (range_del e) (expire_at e)).
  split; [| split].
  - unfold live_slots, t', apply. cbn [slots len]. rewrite Hpos. fold pos.
    apply insert_shift; [done |]. pose proof (wf_cap _ _ _ Hw). lia.
  - unfold slot_ok. cbn. lia.
  - unfold entry_of, slot_key, slot_val, stored.
    cbn [key_off key_len val_off val_len sl_seq sl_tombstone sl_range_del sl_expire_at].
    rewrite Hko, Hkl, Hvo, Hvl', !Nat2Z.id. f_equal; done.
Qed.

Lemma slots_ok_mono a b l : (a <= b)%nat -> Forall (slot_ok a) l -> Forall (slot_ok b) l.
Proof. intros Hab H. eapply Forall_impl; [exact H |]. intros s. unfold slot_ok. lia. Qed.

Lemma apply_iter : iter t' = take pos (iter t) ++ stored :: drop pos (iter t).
Proof.
  destruct apply_live as (s & Hl & _ & Hs). pose proof (wf_slots _ _ _ Hw) as Hok.
  unfold iter. rewrite Hl, map_app. cbn [map]. rewrite Hs, <- firstn_map, <- skipn_map.
  assert (map (entry_of t') (live_slots t) = map (entry_of t) (live_slots t)) as ->; [| done].
  apply map_ext_in. intros s' Hin. apply entry_of_old.
  rewrite Forall_forall in Hok. apply Hok. by apply list_elem_of_In.
Qed.

Lemma apply_wf : wf CAP ARENA t'.
Proof.
  destruct apply_arena as (Ha & Hal & _). destruct apply_live as (s & Hl & Hs & _).
  destruct (find_run_spec t (key e) Hw) as (Hlb & [Hlt Hge] & _).
  pose proof (pf_cap _ _ _ _ _ _ Hp). pose proof (pf_arena _ _ _ _ _ _ Hp).
  pose proof (wf_max _ _ _ Hw) as Hmax.
  assert (seq e <= max_seq t' /\ max_seq t <= max_seq t')%Z as Hm.
  { unfold t', apply. cbn [max_seq]. cases_goal; bool_lia. }
  split; try done.
  - unfold t', apply. cbn [slots]. rewrite length_insert, length_splice; [apply Hw |].
    pose proof (wf_cap _ _ _ Hw). rewrite (pf_pos _ _ _ _ _ _ Hp), length_sub; fold pos; lia.
  - unfold t', apply. cbn [len]. lia.
  - lia.
  - rewrite Hl, Forall_app, Forall_cons. pose proof (wf_slots _ _ _ Hw) as Hok.
    split; [| split; [done |]]; eapply slots_ok_mono with (a := arena_len t); try lia;
      [by apply Forall_take | by apply Forall_drop].
  - rewrite apply_iter. apply StronglySorted_insert.
    + rewrite take_drop. apply Hw.
    + eapply Forall_impl; [exact Hlt |]. intros y Hy. by left.
    + pose proof (Forall_drop _ pos _ Hseq) as Hd. fold pos in Hge.
      eapply Forall_impl; [exact (proj2 (Forall_and _ _) (conj Hge Hd)) |].
      intros y [Hy1 Hy2]. apply bytes_le_lteq in Hy1 as [? | ?]; [by left | right].
      split; [done | cbn; lia].
  - rewrite apply_iter, Forall_app, Forall_cons. split; [| split; [unfold stored; cbn [seq]; lia |]];
      [apply Forall_take | apply Forall_drop];
      (eapply Forall_impl; [exact Hmax |]; cbv beta; intros; lia).
Qed.
End applying.

(** ** The log of mutations *)

Inductive mutation :=
  | MInsert (k v : bytes) (sq : u64) (tomb : bool)
  | MInsertTtl (k v : bytes) (sq exp : u64)
  | MRangeDel (start end_ : bytes) (sq : u64).

(** The log entry of an accepted mutation: tombstones store no value bytes. *)
Definition logged (m : mutation) : Entry :=
  match m with
  | MInsert k v sq tomb => mkEntry k (if tomb then [] else v) sq tomb false 0
  | MInsertTtl k v sq exp => mkEntry k v sq false false exp
  | MRangeDel start end_ sq => mkEntry start end_ sq true true 0
  end.

Definition log_bytes (log : list Entry) : nat :=
  sum_list_with (fun e => length (key e) + length (val e))%nat log.

Section log.
  Context {E : Type} {CAP ARENA KEY_MAX VAL_MAX : nat}.
  Hypothesis Hconsts : consts_ok CAP ARENA KEY_MAX VAL_MAX.

Definition run_mutation (t : MemTable) (m : mutation) : result MemTable (Error E) :=
  match m with
  | MInsert k v sq tomb => insert CAP ARENA KEY_MAX VAL_MAX t k v sq tomb
  | MInsertTtl k v sq exp => insert_ttl CAP ARENA KEY_MAX VAL_MAX t k v sq exp
  | MRangeDel start end_ sq => insert_range_del CAP ARENA KEY_MAX t start end_ sq
  end.

(** [filled t log]: [t] was filled by the accepted mutations [log] (newest
    first) since it was created or last cleared, with increasing sequence
    numbers, as the owner promises. *)
Inductive filled : MemTable -> list Entry -> Prop :=
  | filled_new : filled (new CAP ARENA) []
  | filled_clear t log : filled t log -> filled (clear t) []
  | filled_step t log m t' :
      filled t log -> Forall (fun e => (seq e < seq (logged m))%Z) log ->
      run_mutation t m = Ok t' -> filled t' (logged m :: log).

(** The size limits of a mutation. *)
Definition sizes_ok (m : mutation) : Prop :=
  (0 < length (key (logged m)) <= KEY_MAX)%nat /\
  match m with
  | MRangeDel start end_ _ => bytes_lt start end_ /\ (length end_ <= KEY_MAX)%nat
  | _ => (length (val (logged m)) <= VAL_MAX)%nat
  end.

Definition fits_table (t : MemTable) (m : mutation) : Prop :=
  (len t < CAP)%nat /\
  (arena_len t + (length (key (logged m)) + length (val (logged m))) <= ARENA)%nat.

Lemma length_above a b : bytes_lt a b -> (length b <> 0)%nat.
Proof. destruct b; [by destruct a | done]. Qed.

Definition applied (t : MemTable) (m : mutation) : MemTable :=
  apply t (the_plan t (key (logged m)) (length (val (logged m)))) (logged m).

(** Acceptance is exactly the limits, and acceptance applies the plan. *)
Lemma run_mutation_ok t m t' :
  run_mutation t m = Ok t' <-> sizes_ok m /\ fits_table t m /\ t' = applied t m.
Proof.
  unfold sizes_ok, fits_table, applied.
  assert (forall (x y : MemTable) (P Q : Prop), P -> Q -> x = y ->
    (@Ok MemTable (Error E) x = Ok t' <-> P /\ Q /\ t' = y)) as Hok.
  { intros x y P Q HP HQ ->. split; [intros [=]; auto | intros (_ & _ & ->); done]. }
  assert (forall (e : Error E) (P Q R : Prop), ~ (P /\ Q) ->
    (@Err MemTable _ e = Ok t' <-> P /\ Q /\ R)) as Herr.
  { intros e P Q R H. split; [done | tauto]. }
  destruct m as [k v sq tomb | k v sq exp | start end_ sq]; cbn [run_mutation logged key val].
  - unfold insert. rewrite (plan_cases Hconsts). cbv zeta.
    destruct tomb; cases_goal; bool_lia;
      (apply Herr || apply Hok); cbn [length] in *; try lia; done.
  - unfold insert_ttl. rewrite (plan_cases Hconsts). cbv zeta.
    cases_goal; bool_lia; (apply Herr || apply Hok); try lia; done.
  - unfold insert_range_del. rewrite (plan_range_del_cases Hconsts).
    destruct (bytes_leb end_ start) eqn:Hle.
    + apply bytes_leb_spec, bytes_not_lt in Hle. cases_goal; apply Herr; tauto.
    + assert (bytes_lt start end_) as Hlt.
      { destruct (decide (bytes_lt start end_)) as [|H%bytes_not_lt]; [done |].
        apply bytes_leb_spec in H. congruence. }
      pose proof (length_above _ _ Hlt).
      cases_goal; bool_lia; first [apply Herr; intros ((?&?&?)&?&?); lia | apply Hok];
        split_and?; done || lia.
Qed.

Lemma applied_step t m :
  wf CAP ARENA t -> fits_table t m ->
  Forall (fun e => (seq e < seq (logged m))%Z) (iter t) ->
  wf CAP ARENA (applied t m) /\ iter (applied t m) ≡ₚ logged m :: iter t /\
  arena_len (applied t m) =
    (arena_len t + length (key (logged m)) + length (val (logged m)))%nat.
Proof.
  intros Hw [Hc Ha] Hs. unfold applied.
  pose proof (the_plan_for t _ _ Hc Ha) as Hp.
  split; [by eapply apply_wf |]. split.
  - rewrite (apply_iter (CAP := CAP) (ARENA := ARENA)
               t (logged m) (length (val (logged m)))) by done.
    rewrite <- Permutation_middle, take_drop.
    unfold stored. rewrite firstn_all. by destruct (logged m).
  - eapply apply_arena; eauto.
Qed.

Lemma wf_empty t :
  length (slots t) = CAP -> length (arena t) = ARENA -> len t = 0%nat -> arena_len t = 0%nat ->
  wf CAP ARENA t.
Proof.
  intros H1 H2 H3 H4. split; try lia; unfold iter, live_slots; rewrite H3; constructor.
Qed.

Lemma iter_empty t : len t = 0%nat -> iter t = [].
Proof. unfold iter, live_slots. by intros ->. Qed.

Lemma filled_inv t log :
  filled t log -> wf CAP ARENA t /\ iter t ≡ₚ log /\ arena_len t = log_bytes log.
Proof.
  induction 1 as [| t log _ (Hw & _) | t log m t' _ (Hw & Hp & Hb) Hs Hrun].
  - split; [| done]. apply wf_empty; simpl; rewrite ?length_replicate; done.
  - split; [| by rewrite iter_empty]. apply wf_empty; try done; apply Hw.
  - apply run_mutation_ok in Hrun as (_ & Hf & ->).
    destruct (applied_step t m Hw Hf) as (Hw' & Hp' & Hb'); [by rewrite Hp |].
    split; [done |]. split; [by rewrite Hp', Hp |].
    rewrite Hb', Hb. unfold log_bytes. simpl. lia.
Qed.
End log.

Arguments filled _ _ _ _ _ _ _ : clear implicits.

Lemma fold_min_spec l x :
  (fold_left Z.min l x ∈ x :: l) /\ Forall (fun y => (fold_left Z.min l x <= y)%Z) (x :: l).
Proof.
  revert x. induction l as [|y l IH]; intros x; cbn [fold_left].
  - split; [apply list_elem_of_here | repeat constructor; lia].
  - destruct (IH (Z.min x y)) as [H1 H2]. apply Forall_cons in H2 as [H2 H3]. split.
    + clear IH. apply elem_of_cons in H1 as [-> | H1]; [| by apply list_elem_of_further, list_elem_of_further].
      destruct (Z.min_spec x y) as [[_ ->] | [_ ->]]; rewrite !elem_of_cons; auto.
    + repeat constructor; [lia | lia | done].
Qed.

(** [min_seq] is attained and is a lower bound. *)
Lemma min_seq_spec t :
  iter t <> [] ->
  (exists e, e ∈ iter t /\ seq e = min_seq t) /\
  Forall (fun e => (min_seq t <= seq e)%Z) (iter t).
Proof.
  unfold iter, min_seq. intros Hne.
  assert (map sl_seq (live_slots t) = map seq (map (entry_of t) (live_slots t))) as ->
    by (by rewrite map_map).
  destruct (map (entry_of t) (live_slots t)) as [|x l]; [done |]. cbn [map].
  destruct (fold_min_spec (map seq l) (seq x)) as [H1 H2]. split.
  - apply (list_elem_of_fmap_1 seq (x :: l)) in H1 as (e & -> & He). eauto.
  - exact (proj1 (Forall_map seq _ (x :: l)) H2).
Qed.

(** ** The memtable holds the log *)

(** C30.  Whatever accepted mutations filled the table, since its creation or
    last [clear], it is well-formed (every slot inside the used arena) and its
    iterator yields exactly those mutations, key ascending and newest first
    within a key; the lengths reported are the log's, and [min_seq] is its
    lowest sequence number. *)
Theorem filled_is_sorted_log {E CAP ARENA KEY_MAX VAL_MAX} t log
  (Hconsts : consts_ok CAP ARENA KEY_MAX VAL_MAX)
  (Hf : filled E CAP ARENA KEY_MAX VAL_MAX t log) :
  wf CAP ARENA t /\ iter t ≡ₚ log /\ StronglySorted before (iter t) /\
  len t = length log /\ arena_len t = log_bytes log /\
  is_empty t = (length log =? 0)%nat /\
  (log = [] -> min_seq t = U64_MAX) /\
  (log <> [] -> (exists e, e ∈ log /\ seq e = min_seq t) /\
               Forall (fun e => (min_seq t <= seq e)%Z) log).
Proof.
  destruct (filled_inv Hconsts t log Hf) as (Hw & Hp & Hb).
  assert (len t = length log) as Hl by (by rewrite <- Hp, (length_iter t Hw)).
  split_and!; try done; [apply Hw | unfold is_empty; by rewrite Hl | |].
  - intros ->. unfold min_seq, live_slots. rewrite Hl. done.
  - intros Hne. destruct (min_seq_spec t) as [(e & He & Hs) Ha].
    + intros Hnil. rewrite Hnil in Hp. symmetry in Hp. by apply Permutation_nil_r in Hp.
    + rewrite Hp in He. rewrite Hp in Ha. eauto.
Qed.

(** An insert is accepted exactly when its key is non-empty and within
    [KEY_MAX], its value within its limit (a range end: above the start), and
    a slot and the arena bytes are left; the width conversions never refuse. *)
Theorem mutation_accepted_iff {E CAP ARENA KEY_MAX VAL_MAX} t log m
  (Hconsts : consts_ok CAP ARENA KEY_MAX VAL_MAX)
  (Hf : filled E CAP ARENA KEY_MAX VAL_MAX t log) :
  is_ok (run_mutation (E := E) (CAP := CAP) (ARENA := ARENA) (KEY_MAX := KEY_MAX)
           (VAL_MAX := VAL_MAX) t m) = true <->
  sizes_ok (KEY_MAX := KEY_MAX) (VAL_MAX := VAL_MAX) m /\ (length log < CAP)%nat /\
  (log_bytes log + (length (key (logged m)) + length (val (logged m))) <= ARENA)%nat.
Proof.
  destruct (filled_inv Hconsts t log Hf) as (Hw & Hp & Hb).
  assert (len t = length log) as Hl by (by rewrite <- Hp, (length_iter t Hw)).
  rewrite <- Hl, <- Hb. pose proof (run_mutation_ok (E := E) Hconsts t m) as Hr.
  unfold fits_table in Hr. split.
  - destruct (run_mutation t m) as [t' |] eqn:Erun; [| done]. intros _.
    by destruct (proj1 (Hr t') eq_refl) as (? & ? & _).
  - intros (H1 & H2). by rewrite (proj2 (Hr _) (conj H1 (conj H2 eq_refl))).
Qed.

(** ** Lookups answer from the log *)

(** The entries a point read at snapshot [mx] can see. *)
Definition visible (k : bytes) (mx : u64) (e : Entry) : Prop :=
  key e = k /\ range_del e = false /\ (seq e <= mx)%Z.

(** The range tombstones that cover [k] at snapshot [mx]. *)
Definition covers (k : bytes) (mx : u64) (e : Entry) : Prop :=
  range_del e = true /\ (seq e <= mx)%Z /\ bytes_le (key e) k /\ bytes_lt k (val e).

(** [r] is what [f] makes of the newest entry of [log] satisfying [P]. *)
Definition newest_of {R} (P : Entry -> Prop) (f : Entry -> R) (log : list Entry)
    (r : option R) : Prop :=
  match r with
  | Some x => exists e, e ∈ log /\ P e /\ x = f e /\ forall e', e' ∈ log -> P e' -> (seq e' <= seq e)%Z
  | None => forall e, e ∈ log -> ~ P e
  end.

Definition lookup_of (e : Entry) : Lookup :=
  mkLookup (val e) (seq e) (tombstone e) (expire_at e).

#[export] Instance newest_of_perm {R} P (f : Entry -> R) :
  Proper ((≡ₚ) ==> eq ==> iff) (newest_of P f).
Proof.
  assert (forall l1 l2 r, l1 ≡ₚ l2 -> newest_of P f l1 r -> newest_of P f l2 r) as H.
  { intros l1 l2 [x |] Hp; unfold newest_of.
    - intros (e & He & HP & -> & Hm). exists e. split; [by rewrite <- Hp |].
      split; [done |]. split; [done |]. intros e'. rewrite <- Hp. apply Hm.
    - intros Hn e. rewrite <- Hp. apply Hn. }
  intros l1 l2 Hp r ? <-. split; apply H; [| symmetry]; done.
Qed.

(** Entries known not to satisfy [P] may be dropped. *)
Lemma newest_of_app {R} P (f : Entry -> R) l1 l2 r :
  Forall (fun e => ~ P e) l1 -> newest_of P f l2 r -> newest_of P f (l1 ++ l2) r.
Proof.
  rewrite Forall_forall. intros Hn. destruct r as [x |]; unfold newest_of.
  - intros (e & He & HP & -> & Hm). exists e. split; [apply elem_of_app; auto |].
    split; [done |]. split; [done |]. intros e' [Hi | Hi]%elem_of_app HP'; [by apply Hn in Hi | auto].
  - intros Hm e [Hi | Hi]%elem_of_app; auto.
Qed.

Lemma newest_of_cons {R} P (f : Entry -> R) e l r :
  ~ P e -> newest_of P f l r -> newest_of P f (e :: l) r.
Proof. intros. apply (newest_of_app P f [e]); [by constructor | done]. Qed.

Lemma get_walk_spec t k mx l :
  StronglySorted before (map (entry_of t) l) ->
  Forall (fun e => bytes_le k (key e)) (map (entry_of t) l) ->
  newest_of (visible k mx) lookup_of (map (entry_of t) l) (get_walk t k mx l).
Proof.
  induction l as [|s l IH]; cbn [map get_walk]; intros Hs Hge; [by intros e He%elem_of_nil |].
  apply StronglySorted_inv in Hs as [Hs Hbef]. apply Forall_cons in Hge as [Hk Hge].
  rewrite Forall_forall in Hbef.
  assert (forall e', e' ∈ map (entry_of t) l -> key e' = slot_key t s -> (seq e' < sl_seq s)%Z) as Hlt.
  { intros e' Hin Heq. destruct (Hbef e' Hin) as [H | [_ H]]; [| done].
    cbn in H. rewrite Heq in H. by apply (irreflexivity bytes_lt _) in H. }
  destruct (bytes_eqb (slot_key t s) k) eqn:Ek; cbn [negb].
  - apply bytes_eqb_spec in Ek. destruct (sl_range_del s) eqn:Er.
    { apply newest_of_cons; [| auto]. intros (_ & H & _). cbn in H. congruence. }
    destruct (sl_seq s <=? mx)%Z eqn:Em; bool_lia.
    + exists (entry_of t s). split; [apply list_elem_of_here |]. split; [done |].
      split; [done |]. intros e' [-> | Hin]%elem_of_cons (Hk' & _); [done |].
      rewrite <- Ek in Hk'. apply Z.lt_le_incl, (Hlt e' Hin Hk').
    + apply newest_of_cons; [| auto]. intros (_ & _ & H). cbn in H. lia.
  - assert (bytes_lt k (slot_key t s)) as Hgt.
    { apply bytes_le_lteq in Hk as [? | Hk]; [done |]. cbn in Hk.
      by rewrite <- Hk, bytes_eqb_refl in Ek. }
    intros e [-> | Hin]%elem_of_cons (Hk' & _).
    + cbn in Hk'. rewrite Hk' in Hgt. by apply (irreflexivity bytes_lt _) in Hgt.
    + destruct (Hbef e Hin) as [H | [H _]]; cbn in H; rewrite Hk' in H.
      * apply (irreflexivity bytes_lt k). by etrans.
      * rewrite H in Hgt. by apply (irreflexivity bytes_lt k) in Hgt.
Qed.

Lemma get_at_iter {CAP ARENA} t k mx :
  wf CAP ARENA t -> newest_of (visible k mx) lookup_of (iter t) (get_at t k mx).
Proof.
  intros Hw. destruct (find_run_spec t k Hw) as (_ & [Hlt Hge] & Hnone).
  unfold get_at. unfold lower_bound in *. destruct (find_run t k) as [i | i] eqn:Ef.
  - rewrite <- (take_drop i (iter t)). apply newest_of_app.
    + eapply Forall_impl; [exact Hlt |]. intros e He (Hk & _). cbv beta in He.
      rewrite Hk in He. by apply (irreflexivity bytes_lt k) in He.
    + pose proof (wf_sorted _ _ _ Hw) as Hs. rewrite <- (take_drop i (iter t)) in Hs.
      apply StronglySorted_app_1_r in Hs.
      unfold iter in *. rewrite skipn_map in *. by apply get_walk_spec.
  - specialize (Hnone i eq_refl). rewrite Forall_forall in Hnone.
    intros e He (Hk & _). by apply (Hnone e).
Qed.

Lemma rdel_step_spec t k mx l s best :
  newest_of (covers k mx) seq l best ->
  newest_of (covers k mx) seq (l ++ [entry_of t s]) (rdel_step t k mx best s).
Proof.
  intros Hb. unfold rdel_step.
  destruct (negb (sl_range_del s) || (mx <? sl_seq s)%Z) eqn:E1.
  { rewrite Permutation_app_comm. apply newest_of_cons; [| done].
    intros (Hr & Hm & _). cbn in Hr, Hm. rewrite Hr in E1. cbn in E1. bool_lia. }
  destruct (bytes_leb (slot_key t s) k && bytes_ltb k (slot_val t s)) eqn:E2; cbn [andb].
  - apply orb_false_iff in E1 as [E1 E1']. apply andb_true_iff in E2 as [E2 E2'].
    apply negb_false_iff in E1. apply bytes_leb_spec in E2. apply bytes_ltb_spec in E2'.
    assert (covers k mx (entry_of t s)) as Hc by (split_and!; try done; cbn; bool_lia).
    destruct best as [b |]; cbn in Hb.
    + destruct Hb as (e & He & HP & -> & Hm). destruct (seq e <? sl_seq s)%Z eqn:E3; bool_lia.
      * exists (entry_of t s). split; [set_solver |]. split; [done |]. split; [done |].
        intros e' [Hi | ->%list_elem_of_singleton]%elem_of_app HP'; [| done].
        specialize (Hm e' Hi HP'). cbn. lia.
      * exists e. split; [set_solver |]. split; [done |]. split; [done |].
        intros e' [Hi | ->%list_elem_of_singleton]%elem_of_app HP'; [auto | cbn; lia].
    + exists (entry_of t s). split; [set_solver |]. split; [done |]. split; [done |].
      intros e' [Hi | ->%list_elem_of_singleton]%elem_of_app HP'; [by apply Hb in Hi | done].
  - rewrite Permutation_app_comm. apply newest_of_cons; [| done].
    intros (_ & _ & H1 & H2). cbn in H1, H2. apply bytes_leb_spec in H1.
    apply bytes_ltb_spec in H2. by rewrite H1, H2 in E2.
Qed.

Lemma max_covering_rdel_iter t k mx :
  newest_of (covers k mx) seq (iter t) (max_covering_rdel t k mx).
Proof.
  unfold max_covering_rdel, iter. induction (live_slots t) as [|s l IH] using rev_ind.
  - by intros e He%elem_of_nil.
  - rewrite map_app, fold_left_app. by apply rdel_step_spec.
Qed.

(** [get_at] returns the newest version of the key at or below the
    snapshot, among the accepted mutations (range tombstones excepted), and
    [None] only when the log has no such version; [get] does it for the latest
    snapshot. *)
Theorem get_at_newest {E CAP ARENA KEY_MAX VAL_MAX} t log k mx
  (Hconsts : consts_ok CAP ARENA KEY_MAX VAL_MAX)
  (Hf : filled E CAP ARENA KEY_MAX VAL_MAX t log) :
  newest_of (visible k mx) lookup_of log (get_at t k mx) /\
  newest_of (visible k U64_MAX) lookup_of log (get t k).
Proof.
  destruct (filled_inv Hconsts t log Hf) as (Hw & Hp & _).
  rewrite <- !Hp. split; eapply get_at_iter; eauto.
Qed.

(** [max_covering_rdel] is the sequence number of the newest range
    tombstone of the log, at or below the snapshot, whose half-open range
    holds the key. *)
Theorem max_covering_rdel_newest {E CAP ARENA KEY_MAX VAL_MAX} t log k mx
  (Hconsts : consts_ok CAP ARENA KEY_MAX VAL_MAX)
  (Hf : filled E CAP ARENA KEY_MAX VAL_MAX t log) :
  newest_of (covers k mx) seq log (max_covering_rdel t k mx).
Proof.
  destruct (filled_inv Hconsts t log Hf) as (Hw & Hp & _).
  rewrite <- Hp. apply max_covering_rdel_iter.
Qed.

(** ** Witnesses *)

Definition ex_muts : list mutation :=
  [MInsert [98%Z] [1%Z; 2%Z] 1 false; MInsertTtl [97%Z] [7%Z] 2 9;
   MRangeDel [97%Z] [99%Z] 3; MInsert [98%Z] [5%Z] 4 true].

Definition ex_table : MemTable :=
  fold_left (fun t m => applied t m) ex_muts (new 8 64).

Lemma ex_consts : consts_ok 8 64 4 4.
Proof. split; unfold U32_MAX, U16_MAX; lia. Qed.

Lemma filled_applied {E CAP ARENA KEY_MAX VAL_MAX} t log m :
  consts_ok CAP ARENA KEY_MAX VAL_MAX -> filled E CAP ARENA KEY_MAX VAL_MAX t log ->
  Forall (fun e => (seq e < seq (logged m))%Z) log ->
  sizes_ok (KEY_MAX := KEY_MAX) (VAL_MAX := VAL_MAX) m ->
  fits_table (CAP := CAP) (ARENA := ARENA) t m ->
  filled E CAP ARENA KEY_MAX VAL_MAX (applied t m) (logged m :: log).
Proof. intros. eapply filled_step; eauto. by apply run_mutation_ok. Qed.

Lemma ex_filled : filled unit 8 64 4 4 ex_table (rev (map logged ex_muts)).
Proof.
  unfold ex_table, ex_muts. cbn [fold_left map rev app].
  repeat (apply filled_applied; [exact ex_consts | | | |]);
    try (apply filled_new);
    try (repeat constructor; cbn; lia);
    try (unfold sizes_ok; cbn; split_and?; by_compute || lia);
    unfold fits_table; by_compute.
Qed.

Lemma filled_is_sorted_log_witness :
  iter ex_table ≡ₚ rev (map logged ex_muts) /\ len ex_table = 4%nat.
Proof.
  destruct (filled_is_sorted_log ex_table _ ex_consts ex_filled) as (_ & H & _ & H' & _).
  split; [exact H | exact H'].
Defined.

Lemma mutation_accepted_iff_witness :
  is_ok (run_mutation (E := unit) (CAP := 8) (ARENA := 64) (KEY_MAX := 4) (VAL_MAX := 4)
           ex_table (MInsert [] [1%Z] 5 false)) = false.
Proof.
  destruct (mutation_accepted_iff ex_table _ (MInsert [] [1%Z] 5 false) ex_consts ex_filled)
    as [H _].
  destruct (is_ok _); [| reflexivity]. destruct (H eq_refl) as ((H0 & _) & _). cbn in H0. lia.
Defined.

Lemma get_at_newest_witness :
  newest_of (visible [98%Z] 3) lookup_of (rev (map logged ex_muts))
    (Some (mkLookup [1%Z; 2%Z] 1 false 0)).
Proof. exact (proj1 (get_at_newest ex_table _ [98%Z] 3 ex_consts ex_filled)). Defined.

Lemma max_covering_rdel_newest_witness :
  newest_of (covers [98%Z] 3) seq (rev (map logged ex_muts)) (Some 3%Z).
Proof. exact (max_covering_rdel_newest ex_table _ [98%Z] 3 ex_consts ex_filled). Defined.
