(* ===== verification/Wal.v ===== *)
(** * The write-ahead log: [src/wal.rs]

    Record codec, the staging writer over a [BlockDevice], batch append, and
    recovery.  Calls that mutate [self] return the new writer beside their
    result, on the error paths too. *)

From stdpp Require Import base numbers list sorting.
From Stdlib Require Import ZArith Lia.
From S2P Require Import Prelude Device Crc Memtable.

(** ** The record codec *)

Definition WAL_MAGIC : u16 := 0x6C73%Z.
Definition MORE : u8 := 0x80%Z.
Definition WAL_HEADER_LEN : nat := 19.
Definition WAL_TRAILER_LEN : nat := 4.
Definition WAL_RECORD_OVERHEAD : nat := WAL_HEADER_LEN + WAL_TRAILER_LEN.

Inductive Op := Put | Delete | RangeDelete | PutTtl.

#[export] Instance Op_eq_dec : EqDecision Op.
Proof. solve_decision. Defined.

Definition op_to_u8 (op : Op) : u8 :=
  match op with Put => 1%Z | Delete => 2%Z | RangeDelete => 3%Z | PutTtl => 4%Z end.

Definition op_from_u8 (byte : u8) : option Op :=
  if (byte =? 1)%Z then Some Put
  else if (byte =? 2)%Z then Some Delete
  else if (byte =? 3)%Z then Some RangeDelete
  else if (byte =? 4)%Z then Some PutTtl
  else None.

Definition op_eqb (a b : Op) : bool := bool_decide (a = b).

Definition record_len (key_len val_len : nat) : nat :=
  WAL_RECORD_OVERHEAD + key_len + val_len.

Definition record_len_ttl (key_len val_len : nat) : nat :=
  WAL_RECORD_OVERHEAD + key_len + val_len + 8.

(** The updated [out] and the bytes written, one [splice] per
    [copy_from_slice]. *)
Definition encode_record (out : bytes) (sq : u64) (op : Op) (more : bool) (k : bytes)
    (key_len : u16) (v : bytes) (val_len : u16) (extra : bytes) : bytes * nat :=
  let kl := Z.to_nat key_len in
  let vl := Z.to_nat val_len in
  let el := length extra in
  let el32 := if (el =? 8)%nat then 8%Z else 0%Z in
  let len := (17 + key_len + val_len + el32)%Z in
  let out := splice 0 (to_le 2 WAL_MAGIC) out in
  let out := splice 2 (to_le 4 len) out in
  let out := splice 6 (to_le 8 sq) out in
  let out := splice 14 [Z.lor (op_to_u8 op) (if more then MORE else 0%Z)] out in
  let out := splice 15 (to_le 2 key_len) out in
  let out := splice 17 (to_le 2 val_len) out in
  let out := splice 19 (take kl k) out in
  let out := splice (19 + kl) (take vl v) out in
  let out := splice (19 + kl + vl) extra out in
  let crc_end := (19 + kl + vl + el)%nat in
  let crc := crc32 (sub 2 (crc_end - 2) out) in
  let out := splice crc_end (to_le 4 crc) out in
  (out, (record_len kl vl + el)%nat).

Record Decoded := mkDecoded {
  d_seq : u64;
  d_op : Op;
  d_more : bool;
  d_key : bytes;
  d_val : bytes;
  d_expire_at : u64;
  total_len : nat;
}.

Inductive Scan := ScanRecord (rec : Decoded) | CleanEnd | Corrupt.

(** [bytes.as_chunks::<8>()]: whole words, then the remainder. *)
Fixpoint all_zero (l : bytes) : bool :=
  match l with
  | b0 :: b1 :: b2 :: b3 :: b4 :: b5 :: b6 :: b7 :: rest =>
      (from_le [b0; b1; b2; b3; b4; b5; b6; b7] =? 0)%Z && all_zero rest
  | rem => forallb (fun b => (b =? 0)%Z) rem
  end.

(** [buf.get(off..off + n)] *)
Definition get_range (off n : nat) (buf : bytes) : option bytes :=
  if (off + n <=? length buf)%nat then Some (sub off n buf) else None.

Definition decode_record (buf : bytes) : option Decoded :=
  if (length buf <? WAL_HEADER_LEN)%nat then None
  else if negb (from_le (sub 0 2 buf) =? WAL_MAGIC)%Z then None
  else
    let len := Z.to_nat (from_le (sub 2 4 buf)) in
    let total := (len + 6)%nat in
    if (length buf <? total)%nat then None
    else
      let sq := from_le (sub 6 8 buf) in
      let b := nth 14 buf 0%Z in
      op ← op_from_u8 (Z.land b (Z.lxor 0xFF MORE));
      let more := negb (Z.land b MORE =? 0)%Z in
      let kl := Z.to_nat (from_le (sub 15 2 buf)) in
      let vl := Z.to_nat (from_le (sub 17 2 buf)) in
      let el := if op_eqb op PutTtl then 8%nat else 0%nat in
      if negb (WAL_RECORD_OVERHEAD - 6 + kl + vl + el =? len)%nat then None
      else
        key ← get_range 19 kl buf;
        val ← get_range (19 + kl) vl buf;
        let expiry_off := (19 + kl + vl)%nat in
        expire_at ←
          (if op_eqb op PutTtl then b8 ← get_range expiry_off 8 buf; Some (from_le b8)
           else Some 0%Z);
        let crc_at := (expiry_off + el)%nat in
        b4 ← get_range crc_at 4 buf;
        let stored := from_le b4 in
        body ← get_range 2 (crc_at - 2) buf;
        if negb (crc32 body =? stored)%Z then None
        else Some (mkDecoded sq op more key val expire_at total).

Definition scan_record (buf : bytes) : Scan :=
  if all_zero buf then CleanEnd
  else match decode_record buf with None => Corrupt | Some d => ScanRecord d end.

(** ** The writer *)

Record RecoverState := mkRecover {
  records : u64;
  rs_max_seq : u64;
  blocks_used : u64;
}.

Record BatchRecord := mkBatchRecord {
  br_seq : u64;
  br_op : Op;
  br_key : bytes;
  br_val : bytes;
  br_expire_at : u64;
}.

Record BatchReport (E : Type) := mkReport {
  durable : nat;
  consumed : nat;
  report_error : option (Error E);
}.
Arguments mkReport {E}. Arguments durable {E}. Arguments consumed {E}.
Arguments report_error {E}.

Record WalWriter (D : Type) := mkWriter {
  device : D;
  wal_start : u64;
  wal_end : u64;
  stage : bytes;
  stage_len : nat;
  dirty_to : nat;
  next_block : u64;
  w_max_seq : u64;
  group_open : bool;
}.
Arguments mkWriter {D}. Arguments device {D}. Arguments wal_start {D}.
Arguments wal_end {D}. Arguments stage {D}. Arguments stage_len {D}.
Arguments dirty_to {D}. Arguments next_block {D}. Arguments w_max_seq {D}.
Arguments group_open {D}.

Section writer.
  Context {D E : Type} `{Dev : !BlockDevice D E}.

Definition wal_new (d : D) (start end_ : u64) : WalWriter D :=
  mkWriter d start end_ (replicate BLOCK 0%Z) 0 0 start 0 false.

Definition truncate_stage (w : WalWriter D) (len : nat) : WalWriter D :=
  let dirty := if (dirty_to w <? stage_len w)%nat then stage_len w else dirty_to w in
  mkWriter (device w) (wal_start w) (wal_end w) (stage w) len dirty (next_block w)
    (w_max_seq w) false.

Definition reset_to (w : WalWriter D) (block : u64) : WalWriter D :=
  mkWriter (device w) (wal_start w) (wal_end w) (stage w) (stage_len w) (dirty_to w) block
    (w_max_seq w) (group_open w).

Definition write_stage (w : WalWriter D) : WalWriter D * result unit (Error E) :=
  if (wal_end w <=? next_block w)%Z then (w, Err WalFull)
  else
    let stage' :=
      if (stage_len w <? dirty_to w)%nat
      then splice (stage_len w) (replicate (dirty_to w - stage_len w) 0%Z) (stage w)
      else stage w in
    match write_block (device w) (next_block w) stage' with
    | (d', Err e) =>
        (mkWriter d' (wal_start w) (wal_end w) stage' (stage_len w) (stage_len w)
           (next_block w) (w_max_seq w) (group_open w), Err (Device e))
    | (d', Ok _) =>
        (mkWriter d' (wal_start w) (wal_end w) stage' 0 (stage_len w)
           (next_block w + 1) (w_max_seq w) (group_open w), Ok tt)
    end.

(** The staging of an encoded record, after the capacity checks. *)
Definition stage_record (w : WalWriter D) (sq : u64) (op : Op) (key : bytes) (key_len : u16)
    (val : bytes) (val_len : u16) (expire_at : u64) (more : bool) : WalWriter D :=
  let extra := if op_eqb op PutTtl then to_le 8 expire_at else [] in
  let '(out, n) :=
    encode_record (drop (stage_len w) (stage w)) sq op more key key_len val val_len extra in
  mkWriter (device w) (wal_start w) (wal_end w) (take (stage_len w) (stage w) ++ out)
    (stage_len w + n) (dirty_to w) (next_block w)
    (if (w_max_seq w <? sq)%Z then sq else w_max_seq w) more.

Definition append_inner (w : WalWriter D) (sq : u64) (op : Op) (key val : bytes)
    (expire_at : u64) (more : bool) : WalWriter D * result unit (Error E) :=
  match try_u16 (length key) with
  | None => (w, Err (KeyTooLarge (length key) (Z.to_nat U16_MAX)))
  | Some key_len =>
      let vlen := if op_eqb op Delete then 0%nat else length val in
      match try_u16 vlen with
      | None => (w, Err (ValueTooLarge vlen (Z.to_nat U16_MAX)))
      | Some val_len =>
          let rlen := if op_eqb op PutTtl then record_len_ttl (length key) vlen
                      else record_len (length key) vlen in
          if (BLOCK <? rlen)%nat then (w, Err (BatchTooLarge rlen BLOCK))
          else if (BLOCK <? stage_len w + rlen)%nat then
            if group_open w then (w, Err (BatchTooLarge (stage_len w + rlen) BLOCK))
            else
              match write_stage w with
              | (w', Err e) => (w', Err e)
              | (w', Ok _) =>
                  (stage_record w' sq op key key_len (take vlen val) val_len expire_at more, Ok tt)
              end
          else
            (stage_record w sq op key key_len (take vlen val) val_len expire_at more, Ok tt)
      end
  end.

Definition append (w : WalWriter D) (sq : u64) (op : Op) (key val : bytes) :=
  append_inner w sq op key val 0 false.

Definition append_grouped (w : WalWriter D) (sq : u64) (op : Op) (key val : bytes)
    (more : bool) :=
  append_inner w sq op key val 0 more.

Definition append_grouped_ttl (w : WalWriter D) (sq : u64) (key val : bytes)
    (expire_at : u64) (more : bool) :=
  let op := if (expire_at =? 0)%Z then Put else PutTtl in
  append_inner w sq op key val expire_at more.

Definition append_ttl (w : WalWriter D) (sq : u64) (key val : bytes) (expire_at : u64) :=
  let op := if (expire_at =? 0)%Z then Put else PutTtl in
  append_inner w sq op key val expire_at false.

Definition commit_flush (w : WalWriter D) : WalWriter D * result unit (Error E) :=
  let '(d', r) := dev_flush (device w) in
  (mkWriter d' (wal_start w) (wal_end w) (stage w) (stage_len w) (dirty_to w) (next_block w)
     (w_max_seq w) (group_open w), map_err Device r).

Definition commit (w : WalWriter D) : WalWriter D * result unit (Error E) :=
  if (0 <? stage_len w)%nat then
    match write_stage w with
    | (w', Err e) => (w', Err e)
    | (w', Ok _) => commit_flush w'
    end
  else commit_flush w.

(** The loop of [append_batch]: records appended, and the error that broke it. *)
Fixpoint append_all (w : WalWriter D) (recs : list BatchRecord) (appended : nat)
  : WalWriter D * nat * option (Error E) :=
  match recs with
  | [] => (w, appended, None)
  | rec :: recs =>
      let '(w', r) :=
        if op_eqb (br_op rec) PutTtl
        then append_ttl w (br_seq rec) (br_key rec) (br_val rec) (br_expire_at rec)
        else append w (br_seq rec) (br_op rec) (br_key rec) (br_val rec) in
      match r with
      | Err e => (w', appended, Some e)
      | Ok _ => append_all w' recs (appended + 1)
      end
  end.

Definition append_batch (w : WalWriter D) (recs : list BatchRecord)
  : WalWriter D * BatchReport E :=
  match recs with
  | [] => (w, mkReport 0 0 None)
  | _ =>
      let mark_len := stage_len w in
      let mark_block := next_block w in
      let '(w1, appended, append_err) := append_all w recs 0 in
      match commit w1 with
      | (w2, Ok _) => (w2, mkReport appended appended append_err)
      | (w2, Err commit_err) =>
          if (next_block w2 =? mark_block)%Z
          then (truncate_stage w2 mark_len, mkReport 0 0 (Some commit_err))
          else (w2, mkReport 0 appended (Some commit_err))
      end
  end.

(** ** Recovery *)

(** What pass 1 leaves in [off], [complete], [torn] and [first_seq]. *)
Record Pass1 := mkPass1 {
  p_off : nat;
  p_complete : nat;
  p_torn : bool;
  p_first_seq : option u64;
}.

(** The [while off < BLOCK] loop.  Every record advances [off], so [BLOCK] steps
    are enough. *)
Fixpoint pass1_loop (fuel : nat) (block : bytes) (off complete : nat)
    (first_seq last_seq : option u64) : Pass1 :=
  match fuel with
  | O => mkPass1 off complete false first_seq
  | S fuel =>
      if (BLOCK <=? off)%nat then mkPass1 off complete false first_seq
      else
        match scan_record (drop off block) with
        | ScanRecord rec =>
            if match last_seq with Some last => (d_seq rec <=? last)%Z | None => false end
            then mkPass1 off complete true first_seq
            else
              let off := (off + total_len rec)%nat in
              pass1_loop fuel block off (if d_more rec then complete else off)
                (match first_seq with None => Some (d_seq rec) | f => f end)
                (Some (d_seq rec))
        | CleanEnd => mkPass1 off complete false first_seq
        | Corrupt => mkPass1 off complete true first_seq
        end
  end.

(** Pass 1, with the [torn |= complete < off] that follows the loop. *)
Definition pass1 (block : bytes) : Pass1 :=
  let p := pass1_loop BLOCK block 0 0 None None in
  mkPass1 (p_off p) (p_complete p) (p_torn p || (p_complete p <? p_off p)%nat) (p_first_seq p).

Section table.
  Variables CAP ARENA KEY_MAX VAL_MAX : nat.

(** The [match rec.op] of pass 2. *)
Definition replay_record (table : MemTable) (rec : Decoded) : result MemTable (Error E) :=
  match d_op rec with
  | RangeDelete => insert_range_del CAP ARENA KEY_MAX table (d_key rec) (d_val rec) (d_seq rec)
  | PutTtl =>
      insert_ttl CAP ARENA KEY_MAX VAL_MAX table (d_key rec) (d_val rec) (d_seq rec)
        (d_expire_at rec)
  | op =>
      insert CAP ARENA KEY_MAX VAL_MAX table (d_key rec) (d_val rec) (d_seq rec)
        (op_eqb op Delete)
  end.

(** The [while at < complete] loop: the table, [state.max_seq], [state.records]
    and [live]. *)
Fixpoint pass2_loop (fuel : nat) (block : bytes) (id : u64) (seq_floor : u64)
    (at_ complete : nat) (table : MemTable) (mx recs live : u64)
  : MemTable * result (u64 * u64 * u64) (Error E) :=
  match fuel with
  | O => (table, Ok (mx, recs, live))
  | S fuel =>
      if (complete <=? at_)%nat then (table, Ok (mx, recs, live))
      else
        match scan_record (drop at_ block) with
        | ScanRecord rec =>
            let mx := if (mx <? d_seq rec)%Z then d_seq rec else mx in
            if (seq_floor <? d_seq rec)%Z then
              match replay_record table rec with
              | Err _ => (table, Err (CorruptWal id))
              | Ok table =>
                  pass2_loop fuel block id seq_floor (at_ + total_len rec) complete table mx
                    (recs + 1) (live + 1)
              end
            else
              pass2_loop fuel block id seq_floor (at_ + total_len rec) complete table mx recs live
        | _ => (table, Err (CorruptWal id))
        end
  end.

(** The outer [loop].  Each turn that does not break consumes a block, so the
    blocks left in the region bound the turns. *)
Fixpoint recover_loop (fuel : nat) (d : D) (stage : bytes) (end_ from seq_floor : u64)
    (table : MemTable) (state : RecoverState) (newer_than : option u64)
  : bytes * MemTable * result RecoverState (Error E) :=
  match fuel with
  | O => (stage, table, Ok state)
  | S fuel =>
      let id := (from + blocks_used state)%Z in
      if (end_ <=? id)%Z then (stage, table, Ok state)
      else
        match read_block d id with
        | Err e => (stage, table, Err (Device e))
        | Ok block =>
            let p := pass1 block in
            if match newer_than with
               | Some floor =>
                   match p_first_seq p with None => true | Some sq => (sq <=? floor)%Z end
               | None => false
               end
            then (block, table, Ok state)
            else if (p_complete p =? 0)%nat then (block, table, Ok state)
            else
              match pass2_loop BLOCK block id seq_floor 0 (p_complete p) table
                      (rs_max_seq state) (records state) 0 with
              | (table, Err e) => (block, table, Err e)
              | (table, Ok (mx, recs, live)) =>
                  if (live =? 0)%Z && negb (p_torn p)
                  then (block, table, Ok (mkRecover recs mx (blocks_used state)))
                  else
                    recover_loop fuel d block end_ from seq_floor table
                      (mkRecover recs mx (blocks_used state + 1))
                      (if p_torn p then Some mx else None)
              end
        end
  end.

Definition recover_from (w : WalWriter D) (table : MemTable) (from seq_floor : u64)
  : WalWriter D * MemTable * result RecoverState (Error E) :=
  match recover_loop (S (Z.to_nat (wal_end w - from))) (device w) (stage w) (wal_end w) from
          seq_floor table (mkRecover 0 0 0) None with
  | (stage', table, Err e) =>
      (mkWriter (device w) (wal_start w) (wal_end w) stage' (stage_len w) (dirty_to w)
         (next_block w) (w_max_seq w) (group_open w), table, Err e)
  | (stage', table, Ok state) =>
      (mkWriter (device w) (wal_start w) (wal_end w) stage' 0 BLOCK
         (from + blocks_used state) (rs_max_seq state) false, table, Ok state)
  end.

Definition recover (w : WalWriter D) (table : MemTable) :=
  recover_from w table (wal_start w) 0.
End table.
End writer.

(** ** The wire form of a record *)

Definition extra_of (r : Decoded) : bytes :=
  if op_eqb (d_op r) PutTtl then to_le 8 (d_expire_at r) else [].

(** Length and sequence fields, op byte, lengths, key, value, expiry. *)
Definition op_byte (r : Decoded) : u8 :=
  Z.lor (op_to_u8 (d_op r)) (if d_more r then MORE else 0%Z).

Definition rec_payload (r : Decoded) : bytes := d_key r ++ d_val r ++ extra_of r.

Definition rec_body (r : Decoded) : bytes :=
  to_le 4 (17 + Z.of_nat (length (rec_payload r))) ++ to_le 8 (d_seq r) ++ [op_byte r] ++
  to_le 2 (Z.of_nat (length (d_key r))) ++ to_le 2 (Z.of_nat (length (d_val r))) ++
  rec_payload r.

Definition rec_bytes (r : Decoded) : bytes :=
  to_le 2 WAL_MAGIC ++ rec_body r ++ to_le 4 (crc32 (rec_body r)).

(** The records the wire format can carry. *)
Record rec_ok (r : Decoded) : Prop := {
  ok_seq : fits 64 (d_seq r);
  ok_key : bytes_ok (d_key r);
  ok_val : bytes_ok (d_val r);
  ok_key_len : (Z.of_nat (length (d_key r)) <= U16_MAX)%Z;
  ok_val_len : (Z.of_nat (length (d_val r)) <= U16_MAX)%Z;
  ok_expire : if op_eqb (d_op r) PutTtl then fits 64 (d_expire_at r) else d_expire_at r = 0%Z;
  ok_total : total_len r = (23 + length (rec_payload r))%nat;
}.

Lemma length_rec_body r : length (rec_body r) = (17 + length (rec_payload r))%nat.
Proof. unfold rec_body. rewrite !length_app, !length_to_le. cbn. lia. Qed.

Lemma length_rec_bytes r : length (rec_bytes r) = (23 + length (rec_payload r))%nat.
Proof. unfold rec_bytes. rewrite !length_app, !length_to_le, length_rec_body. lia. Qed.

Lemma op_byte_fits r : fits 8 (op_byte r).
Proof. unfold op_byte, fits. destruct (d_op r), (d_more r); vm_compute; split; congruence. Qed.

Lemma extra_of_ok r : bytes_ok (extra_of r) /\ (length (extra_of r) <= 8)%nat.
Proof.
  unfold extra_of. destruct (op_eqb _ _); [rewrite length_to_le; auto with horton |].
  split; [constructor | cbn; lia].
Qed.

Lemma rec_body_ok r : rec_ok r -> bytes_ok (rec_body r).
Proof.
  intros []. unfold rec_body, rec_payload. rewrite !bytes_ok_app.
  split_and!; auto with horton; [| apply extra_of_ok]. constructor; [apply op_byte_fits | done].
Qed.

Lemma rec_bytes_ok r : rec_ok r -> bytes_ok (rec_bytes r).
Proof.
  intros. unfold rec_bytes. rewrite !bytes_ok_app.
  split_and!; auto with horton. by apply rec_body_ok.
Qed.

(** Writing right after a prefix extends the prefix. *)
Lemma splice_after {A} (p s r : list A) n :
  n = length p -> splice n s (p ++ r) = (p ++ s) ++ drop (length s) r.
Proof.
  intros ->. unfold splice. rewrite take_app_length, <- app_assoc. do 2 f_equal.
  rewrite drop_app, (drop_ge p) by lia. simpl. f_equal. lia.
Qed.

(** The encoder writes the wire form and leaves the rest of the buffer. *)
Lemma encode_record_spec out r :
  rec_ok r -> (total_len r <= length out)%nat ->
  encode_record out (d_seq r) (d_op r) (d_more r) (d_key r) (Z.of_nat (length (d_key r)))
    (d_val r) (Z.of_nat (length (d_val r))) (extra_of r) =
  (rec_bytes r ++ drop (total_len r) out, total_len r).
Proof.
  intros Hr Hlen. rewrite (ok_total _ Hr) in *. unfold encode_record. rewrite !Nat2Z.id.
  rewrite !firstn_all.
  assert ((17 + Z.of_nat (length (d_key r)) + Z.of_nat (length (d_val r)) +
    (if (length (extra_of r) =? 8)%nat then 8 else 0))%Z =
    (17 + Z.of_nat (length (rec_payload r)))%Z) as ->.
  { unfold rec_payload. rewrite !length_app. unfold extra_of.
    destruct (op_eqb _ _); rewrite ?length_to_le; cbn; lia. }
  cbv zeta. 
  change (splice 0 (to_le 2 WAL_MAGIC) out) with (splice 0 (to_le 2 WAL_MAGIC) ([] ++ out)).
  rewrite (splice_after [] (to_le 2 WAL_MAGIC) out 0 eq_refl), app_nil_l.
  do 8 (rewrite splice_after by (rewrite ?length_app, ?length_to_le; cbn [length]; lia)).
  set (p := (((((((((to_le 2 WAL_MAGIC) ++ _) ++ _) ++ _) ++ _) ++ _) ++ _) ++ _) ++ _)).
  assert (p = to_le 2 WAL_MAGIC ++ rec_body r) as Hp.
  { unfold p, rec_body, rec_payload. by rewrite <- !app_assoc. }
  assert (length p = (19 + length (rec_payload r))%nat) as Hpl
    by (rewrite Hp, length_app, length_to_le, length_rec_body; lia).
  assert (19 + length (d_key r) + length (d_val r) + length (extra_of r) = length p)%nat as Hend.
  { rewrite Hpl. unfold rec_payload. rewrite !length_app. lia. }
  rewrite Hend, splice_after by done. f_equal.
  - unfold rec_bytes. rewrite Hp, <- !app_assoc. do 2 f_equal. f_equal.
    + do 2 f_equal. unfold sub. rewrite drop_app_length' by done.
      rewrite take_app_length'; [done |]. rewrite length_app, length_to_le. lia.
    + rewrite !drop_drop. f_equal. rewrite !length_to_le. cbn [length].
      unfold rec_payload in *. rewrite !length_app in *. lia.
  - unfold record_len, WAL_RECORD_OVERHEAD, WAL_HEADER_LEN, WAL_TRAILER_LEN, rec_payload.
    rewrite !length_app. lia.
Qed.

(** *** Decoding the wire form *)

Lemma sub_app_skip {A} (p l : list A) o n :
  (length p <= o)%nat -> sub o n (p ++ l) = sub (o - length p) n l.
Proof. intros. unfold sub. by rewrite drop_app, (drop_ge p) by lia. Qed.

Lemma sub_app_here {A} (s l : list A) n : n = length s -> sub 0 n (s ++ l) = s.
Proof. intros ->. unfold sub. by rewrite drop_0, take_app_length. Qed.

Lemma sub_app_at {A} (s l : list A) o n : o = 0%nat -> n = length s -> sub o n (s ++ l) = s.
Proof. intros ->. apply sub_app_here. Qed.

(** Find a field in a concatenation of fields of known lengths. *)
Ltac find_field :=
  repeat (rewrite sub_app_skip by (rewrite ?length_to_le; cbn [length]; lia));
  rewrite sub_app_at by (rewrite ?length_to_le; cbn [length]; lia).

Lemma get_range_sub off n buf :
  (off + n <= length buf)%nat -> get_range off n buf = Some (sub off n buf).
Proof. intros. unfold get_range. by rewrite (proj2 (Nat.leb_le _ _)). Qed.

Lemma op_byte_op r : op_from_u8 (Z.land (op_byte r) (Z.lxor 0xFF MORE)) = Some (d_op r).
Proof. unfold op_byte. by destruct (d_op r), (d_more r). Qed.

Lemma op_byte_more r : negb (Z.land (op_byte r) MORE =? 0)%Z = d_more r.
Proof. unfold op_byte. by destruct (d_op r), (d_more r). Qed.

Lemma length_extra_of r :
  length (extra_of r) = if op_eqb (d_op r) PutTtl then 8%nat else 0%nat.
Proof. unfold extra_of. by destruct (op_eqb _ _). Qed.

Lemma payload_bound r : rec_ok r -> (Z.of_nat (length (rec_payload r)) <= 2 * U16_MAX + 8)%Z.
Proof.
  intros []. unfold rec_payload. rewrite !length_app. pose proof (proj2 (extra_of_ok r)). lia.
Qed.

Lemma sub_1_nth {A} i (l : list A) x d : sub i 1 l = [x] -> nth i l d = x.
Proof.
  unfold sub. intros H. rewrite <- (Nat.add_0_r i), <- nth_skipn.
  by destruct (drop i l); simpl in *; congruence.
Qed.

Section fields.
  Context (r : Decoded) (rest : bytes) (Hr : rec_ok r).

Definition field_buf : bytes := rec_bytes r ++ rest.

Lemma field_buf_flat :
  field_buf =
  to_le 2 WAL_MAGIC ++ to_le 4 (17 + Z.of_nat (length (rec_payload r))) ++
  to_le 8 (d_seq r) ++ [op_byte r] ++ to_le 2 (Z.of_nat (length (d_key r))) ++
  to_le 2 (Z.of_nat (length (d_val r))) ++ d_key r ++ d_val r ++ extra_of r ++
  to_le 4 (crc32 (rec_body r)) ++ rest.
Proof.
  unfold field_buf, rec_bytes, rec_body at 1, rec_payload. by rewrite <- !app_assoc.
Qed.

Lemma field_magic : from_le (sub 0 2 field_buf) = WAL_MAGIC.
Proof. rewrite field_buf_flat. by find_field. Qed.

Lemma field_len : Z.to_nat (from_le (sub 2 4 field_buf)) = (17 + length (rec_payload r))%nat.
Proof.
  rewrite field_buf_flat. find_field. pose proof (payload_bound r Hr).
  unfold U16_MAX in *. rewrite from_to_le; lia.
Qed.

Lemma field_seq : from_le (sub 6 8 field_buf) = d_seq r.
Proof. rewrite field_buf_flat. find_field. apply from_to_le, (ok_seq _ Hr). Qed.

Lemma field_op : nth 14 field_buf 0%Z = op_byte r.
Proof. apply sub_1_nth. rewrite field_buf_flat. by find_field. Qed.

Lemma field_key_len : Z.to_nat (from_le (sub 15 2 field_buf)) = length (d_key r).
Proof.
  rewrite field_buf_flat. find_field. pose proof (ok_key_len _ Hr). unfold U16_MAX in *.
  rewrite from_to_le; lia.
Qed.

Lemma field_val_len : Z.to_nat (from_le (sub 17 2 field_buf)) = length (d_val r).
Proof.
  rewrite field_buf_flat. find_field. pose proof (ok_val_len _ Hr). unfold U16_MAX in *.
  rewrite from_to_le; lia.
Qed.

Lemma field_key : sub 19 (length (d_key r)) field_buf = d_key r.
Proof. rewrite field_buf_flat. by find_field. Qed.

Lemma field_val : sub (19 + length (d_key r)) (length (d_val r)) field_buf = d_val r.
Proof. rewrite field_buf_flat. by find_field. Qed.

Lemma field_extra :
  sub (19 + length (d_key r) + length (d_val r)) (length (extra_of r)) field_buf = extra_of r.
Proof. rewrite field_buf_flat. by find_field. Qed.

Lemma field_crc :
  sub (19 + length (rec_payload r)) 4 field_buf = to_le 4 (crc32 (rec_body r)).
Proof. rewrite field_buf_flat. unfold rec_payload at 1. rewrite !length_app. by find_field. Qed.

Lemma field_body : sub 2 (17 + length (rec_payload r)) field_buf = rec_body r.
Proof.
  unfold field_buf, rec_bytes. rewrite <- !app_assoc.
  rewrite sub_app_skip, length_to_le by (rewrite length_to_le; lia).
  apply sub_app_here. by rewrite length_rec_body.
Qed.

Lemma length_field_buf :
  length field_buf = (23 + length (rec_payload r) + length rest)%nat.
Proof. unfold field_buf. rewrite length_app, length_rec_bytes. lia. Qed.

(** Decoding a wire form gives the record back, whatever follows it. *)
Lemma decode_rec_bytes : decode_record field_buf = Some r.
Proof.
  pose proof length_field_buf as Hl. pose proof (ok_expire _ Hr) as Hx.
  unfold decode_record. rewrite field_magic, field_len, field_seq, field_op.
  rewrite field_key_len, field_val_len, op_byte_more, op_byte_op.
  unfold WAL_RECORD_OVERHEAD, WAL_HEADER_LEN, WAL_TRAILER_LEN.
  rewrite (proj2 (Nat.ltb_ge _ _)) by lia. rewrite Z.eqb_refl. cbn [negb].
  rewrite (proj2 (Nat.ltb_ge _ _)) by lia. cbn [mbind option_bind].
  rewrite <- length_extra_of.
  assert (length (d_key r) + length (d_val r) + length (extra_of r) = length (rec_payload r))%nat
    as Hpay by (unfold rec_payload; rewrite !length_app; lia).
  rewrite (proj2 (Nat.eqb_eq _ _)) by lia. cbn [negb].
  rewrite (get_range_sub 19), (get_range_sub _ (length (d_val r))) by lia.
  rewrite (get_range_sub _ 4), (get_range_sub 2) by lia. cbn [mbind option_bind].
  rewrite field_key, field_val.
  replace (19 + length (d_key r) + length (d_val r) + length (extra_of r))%nat
    with (19 + length (rec_payload r))%nat by lia.
  replace (19 + length (rec_payload r) - 2)%nat with (17 + length (rec_payload r))%nat by lia.
  rewrite field_crc, field_body.
  rewrite from_to_le by (apply (crc32_fits _ (rec_body_ok _ Hr))).
  rewrite Z.eqb_refl. cbn [negb].
  assert ((if op_eqb (d_op r) PutTtl
     then get_range (19 + length (d_key r) + length (d_val r)) 8 field_buf ≫= (fun b8 => Some (from_le b8))
     else Some 0%Z) = Some (d_expire_at r)) as ->.
  { pose proof field_extra as Hfe. rewrite length_extra_of in *. unfold extra_of in Hfe.
    destruct (op_eqb (d_op r) PutTtl); [| by rewrite Hx].
    rewrite get_range_sub by lia. cbn [mbind option_bind]. rewrite Hfe. f_equal.
    by apply from_to_le. }
  cbn [mbind option_bind]. pose proof (ok_total _ Hr). destruct r; cbn in *. do 2 f_equal. lia.
Qed.
End fields.

(** *** The decoder accepts nothing else *)

Lemma get_range_Some off n buf s :
  get_range off n buf = Some s -> (off + n <= length buf)%nat /\ s = sub off n buf.
Proof.
  unfold get_range. destruct (off + n <=? length buf)%nat eqn:E; [| done].
  intros [= <-]. bool_lia. done.
Qed.

(** The facts the decoder checks, of the bytes themselves. *)
Record checked (buf : bytes) (r : Decoded) : Prop := {
  ck_len : (total_len r <= length buf)%nat;
  ck_total : total_len r = (23 + length (rec_payload r))%nat;
  ck_magic : from_le (sub 0 2 buf) = WAL_MAGIC;
  ck_lenf : Z.to_nat (from_le (sub 2 4 buf)) = (17 + length (rec_payload r))%nat;
  ck_seq : d_seq r = from_le (sub 6 8 buf);
  ck_op : op_from_u8 (Z.land (nth 14 buf 0%Z) (Z.lxor 0xFF MORE)) = Some (d_op r);
  ck_more : d_more r = negb (Z.land (nth 14 buf 0%Z) MORE =? 0)%Z;
  ck_kl : length (d_key r) = Z.to_nat (from_le (sub 15 2 buf));
  ck_vl : length (d_val r) = Z.to_nat (from_le (sub 17 2 buf));
  ck_key : d_key r = sub 19 (length (d_key r)) buf;
  ck_val : d_val r = sub (19 + length (d_key r)) (length (d_val r)) buf;
  ck_extra : if op_eqb (d_op r) PutTtl
             then d_expire_at r = from_le (sub (19 + length (d_key r) + length (d_val r)) 8 buf)
             else d_expire_at r = 0%Z;
  ck_crc : from_le (sub (19 + length (rec_payload r)) 4 buf) =
           crc32 (sub 2 (17 + length (rec_payload r)) buf);
}.

Lemma decode_checked buf r : decode_record buf = Some r -> checked buf r.
Proof.
  unfold decode_record, WAL_RECORD_OVERHEAD, WAL_HEADER_LEN, WAL_TRAILER_LEN. cbv zeta.
  destruct (length buf <? 19)%nat eqn:E1; [done |].
  destruct (_ =? WAL_MAGIC)%Z eqn:E2; cbn [negb]; [| done].
  destruct (length buf <? _ + 6)%nat eqn:E3; [done |].
  destruct (op_from_u8 _) as [op |] eqn:Eop; cbn [mbind option_bind]; [| done].
  destruct (_ =? Z.to_nat (from_le buf.[2, 4]))%nat eqn:E4; cbn [negb]; [| done].
  destruct (get_range 19 _ buf) as [k |] eqn:Ek; cbn [mbind option_bind]; [| done].
  destruct (get_range (19 + _) _ buf) as [v |] eqn:Ev; cbn [mbind option_bind]; [| done].
  apply get_range_Some in Ek as [Hk Ek]. apply get_range_Some in Ev as [Hv Ev].
  assert (length k = Z.to_nat (from_le buf.[15, 2])) as Hkl by (subst k; by rewrite length_sub).
  assert (length v = Z.to_nat (from_le buf.[17, 2])) as Hvl by (subst v; by rewrite length_sub).
  rewrite <- Hkl, <- Hvl in *.
  destruct (if op_eqb op PutTtl then get_range _ 8 buf ≫= _ else _) as [x |] eqn:Ex;
    cbn [mbind option_bind]; [| done].
  destruct (get_range _ 4 buf) as [c4 |] eqn:Ec; cbn [mbind option_bind]; [| done].
  destruct (get_range 2 _ buf) as [body |] eqn:Eb; cbn [mbind option_bind]; [| done].
  apply get_range_Some in Ec as [_ ->]. apply get_range_Some in Eb as [_ ->].
  destruct (crc32 _ =? _)%Z eqn:Ecrc; cbn [negb]; [| done]. intros [= <-].
  set (r := mkDecoded _ _ _ _ _ _ _).
  assert (length (rec_payload r) = length k + length v + if op_eqb op PutTtl then 8 else 0)%nat
    as Hpay.
  { unfold rec_payload. rewrite !length_app, length_extra_of. cbn. lia. }
  bool_lia. split; unfold r; cbn [total_len d_seq d_op d_more d_key d_val d_expire_at];
    fold r; rewrite ?Hpay; try done; try lia.
  - destruct (op_eqb op PutTtl); [| congruence].
    destruct (get_range _ 8 buf) as [b8 |] eqn:E8; cbn in Ex; [| done].
    apply get_range_Some in E8 as [_ ->]. congruence.
Qed.

Lemma drop_sub {A} o n (l : list A) : drop o l = sub o n l ++ drop (o + n) l.
Proof. unfold sub. by rewrite <- (take_drop n (drop o l)) at 1; rewrite drop_drop. Qed.

Lemma sub_nth_1 i (l : bytes) : (i < length l)%nat -> sub i 1 l = [nth i l 0%Z].
Proof.
  intros Hi. unfold sub. rewrite <- (Nat.add_0_r i) at 2. rewrite <- nth_skipn.
  assert (length (drop i l) <> 0)%nat by (rewrite length_drop; lia).
  by destruct (drop i l).
Qed.

Lemma sub_add {A} o n m (l : list A) : sub o (n + m) l = sub o n l ++ sub (o + n) m l.
Proof. unfold sub. by rewrite <- drop_drop, take_take_drop. Qed.

(** A field read back as an integer is that integer's encoding. *)
Lemma sub_le o n z buf :
  bytes_ok buf -> (o + n <= length buf)%nat -> from_le (sub o n buf) = z -> sub o n buf = to_le n z.
Proof.
  intros Hb Hl <-. rewrite <- (length_sub o n buf Hl) at 2.
  symmetry. apply to_from_le. by apply bytes_ok_sub.
Qed.

(** The op byte is determined by the op and the flag: checked on all 256. *)
Definition op_byte_check (b : u8) : bool :=
  match op_from_u8 (Z.land b (Z.lxor 0xFF MORE)) with
  | Some op =>
      (b =? Z.lor (op_to_u8 op) (if negb (Z.land b MORE =? 0)%Z then MORE else 0))%Z
  | None => true
  end.

Lemma op_byte_check_all : forallb (fun n => op_byte_check (Z.of_nat n)) (List.seq 0 256) = true.
Proof. vm_compute. reflexivity. Qed.

Lemma op_byte_canonical b r :
  fits 8 b -> op_from_u8 (Z.land b (Z.lxor 0xFF MORE)) = Some (d_op r) ->
  d_more r = negb (Z.land b MORE =? 0)%Z -> b = op_byte r.
Proof.
  intros Hb Hop Hm. pose proof (proj1 (forallb_forall _ _) op_byte_check_all (Z.to_nat b)) as H.
  unfold fits in Hb. cbv beta in H. rewrite Z2Nat.id in H by lia. unfold op_byte_check in H.
  rewrite Hop in H. unfold op_byte. rewrite Hm. apply Z.eqb_eq, H, in_seq. lia.
Qed.

(** Accepted bytes are a record's wire form. *)
Lemma decode_canonical buf r :
  bytes_ok buf -> decode_record buf = Some r ->
  rec_ok r /\ buf = rec_bytes r ++ drop (total_len r) buf.
Proof.
  intros Hb Hd. destruct (decode_checked _ _ Hd).
  assert (forall o n, bytes_ok (sub o n buf)) as Hs by (intros; by apply bytes_ok_sub).
  pose proof (fun o n (H : (o + n <= length buf)%nat) =>
    eq_rect _ (fun l => (0 <= from_le (sub o n buf) < 2 ^ (8 * Z.of_nat l))%Z)
      (from_le_bound _ (Hs o n)) _ (length_sub o n buf H)) as Hbd.
  pose proof (Hbd 6 8)%nat as Hb8. pose proof (Hbd 15 2)%nat as Hbk.
  pose proof (Hbd 17 2)%nat as Hbv. pose proof (Hbd 2 4)%nat as Hbl.
  rewrite ck_total0 in *. cbn in Hb8, Hbk, Hbv, Hbl.
  assert (length (rec_payload r) = length (d_key r) + length (d_val r) + length (extra_of r))%nat
    as Hpay by (unfold rec_payload; rewrite !length_app; lia).
  assert (nth 14 buf 0%Z = op_byte r) as Hop.
  { apply op_byte_canonical; [| done | done].
    apply (Forall_nth (fits 8) 0%Z buf); [done | lia]. }
  assert (sub (19 + length (d_key r) + length (d_val r)) (length (extra_of r)) buf = extra_of r)
    as Hex.
  { rewrite length_extra_of in *. unfold extra_of. destruct (op_eqb _ _); [| done].
    apply sub_le; [done | lia | done]. }
  assert (buf.[2, 17 + length (rec_payload r)] = rec_body r) as Hbody.
  { replace (17 + length (rec_payload r))%nat
      with (4 + (8 + (1 + (2 + (2 + (length (d_key r) + (length (d_val r) + length (extra_of r))))))))%nat
      by lia.
    rewrite (sub_add 2 4), (sub_add 6 8), (sub_add 14 1), (sub_add 15 2), (sub_add 17 2).
    rewrite (sub_add 19 (length (d_key r))), (sub_add _ (length (d_val r))).
    unfold rec_body, rec_payload at 2.
    rewrite (sub_nth_1 14), Hop by lia. rewrite <- ck_key0, <- ck_val0, Hex.
    repeat f_equal; apply sub_le; done || lia. }
  split.
  - split; try done.
    + unfold fits. lia.
    + rewrite ck_key0. auto.
    + rewrite ck_val0. auto.
    + unfold U16_MAX. lia.
    + unfold U16_MAX. lia.
    + destruct (op_eqb _ _) eqn:E; [| done]. rewrite ck_extra0. rewrite length_extra_of, E in *.
      apply Hbd. lia.
  - rewrite <- (drop_0 buf) at 1. rewrite (drop_sub 0 2), (drop_sub 2 (17 + length (rec_payload r))).
    rewrite (drop_sub (2 + (17 + length (rec_payload r))) 4), Hbody.
    unfold rec_bytes. rewrite <- !app_assoc. f_equal; [apply sub_le; done || lia |].
    f_equal. f_equal; [| f_equal; lia].
    apply sub_le; [done | lia |]. by rewrite <- Hbody.
Qed.

(** Encoding any record into a large enough buffer and decoding it gives
    the record back; the encoder reports the bytes it wrote and leaves the rest
    of the buffer alone. *)
Theorem wal_record_roundtrip (out : bytes) (r : Decoded)
  (Hr : rec_ok r) (Hlen : (total_len r <= length out)%nat) :
  let '(out', n) :=
    encode_record out (d_seq r) (d_op r) (d_more r) (d_key r) (Z.of_nat (length (d_key r)))
      (d_val r) (Z.of_nat (length (d_val r))) (extra_of r) in
  decode_record out' = Some r /\ n = total_len r /\
  length out' = length out /\ drop n out' = drop n out.
Proof.
  rewrite encode_record_spec by done. split; [by apply decode_rec_bytes |].
  pose proof (length_rec_bytes r). pose proof (ok_total _ Hr).
  split; [done |]. split; [rewrite length_app, length_drop; lia |].
  rewrite drop_app_length' by lia. done.
Qed.

(** The decoder accepts a buffer exactly when it starts with the wire form
    of a record the format can carry, and returns that record: no other bytes
    are ever taken for a record. *)
Theorem wal_decode_exact (buf : bytes) (r : Decoded) (Hbuf : bytes_ok buf) :
  decode_record buf = Some r <->
  rec_ok r /\ exists rest, buf = rec_bytes r ++ rest.
Proof.
  split.
  - intros Hd. destruct (decode_canonical buf r Hbuf Hd). eauto.
  - intros (Hr & rest & ->). by apply decode_rec_bytes.
Qed.

(** *** Corruption *)

Lemma from_le_drop o l :
  bytes_ok l -> from_le (drop o l) = Z.shiftr (from_le l) (8 * Z.of_nat o).
Proof.
  revert l. induction o as [|o IH]; intros l Hl.
  { by rewrite drop_0, Z.shiftr_0_r. }
  destruct Hl as [|b l Hb Hl]; [by rewrite drop_nil, Z.shiftr_0_l |]. cbn [drop].
  rewrite IH by done. replace (8 * Z.of_nat (S o))%Z with (8 + 8 * Z.of_nat o)%Z by lia.
  rewrite <- Z.shiftr_shiftr by lia. f_equal. unfold fits in Hb. cbn [from_le].
  rewrite Z.shiftr_div_pow2 by lia. change (2 ^ 8)%Z with 256%Z in *.
  rewrite (Z.mul_comm 256), Z.div_add, Z.div_small by lia. lia.
Qed.

Lemma from_le_take n l :
  bytes_ok l -> from_le (take n l) = (from_le l mod 2 ^ (8 * Z.of_nat n))%Z.
Proof.
  revert l. induction n as [|n IH]; intros l Hl.
  { by rewrite take_0, Z.mod_1_r. }
  rewrite pow8_succ. destruct Hl as [|b l Hb Hl]; [by rewrite Z.mod_0_l by lia |]. cbn [take from_le].
  rewrite IH by done. unfold fits in Hb. change (2 ^ 8)%Z with 256%Z in *.
  rewrite Z.rem_mul_r by lia. f_equal.
  - rewrite (Z.mul_comm 256), Z.mod_add, Z.mod_small by lia. done.
  - do 2 f_equal. rewrite (Z.mul_comm 256), Z.div_add, Z.div_small by lia. done.
Qed.

Lemma from_le_sub_testbit o n l i :
  bytes_ok l -> (0 <= i)%Z ->
  Z.testbit (from_le (sub o n l)) i =
  (i <? 8 * Z.of_nat n)%Z && Z.testbit (from_le l) (i + 8 * Z.of_nat o).
Proof.
  intros Hl Hi. unfold sub. rewrite from_le_take by (by apply Forall_drop).
  rewrite from_le_drop by done. destruct (i <? _)%Z eqn:E; bool_lia.
  - rewrite Z.mod_pow2_bits_low, Z.shiftr_spec by lia. done.
  - by rewrite Z.mod_pow2_bits_high by lia.
Qed.

(** An error pattern of at most 32 bits at bit [k]. *)
Definition burst (a b : bytes) (d : Z) (k : Z) : Prop :=
  length a = length b /\ (0 < d < 2 ^ 32)%Z /\
  from_le b = Z.lxor (from_le a) (Z.shiftl d k).

Lemma burst_testbit d i : (0 < d < 2 ^ 32)%Z -> (i < 0 \/ 32 <= i)%Z -> Z.testbit d i = false.
Proof.
  intros Hd [Hi | Hi]; [by apply Z.testbit_neg_r |].
  rewrite <- (Z.mod_small d (2 ^ 32)) by lia. by apply Z.mod_pow2_bits_high.
Qed.

Section burst.
  Context (a b : bytes) (d k : Z) (Ha : bytes_ok a) (Hb : bytes_ok b) (Hab : burst a b d k).

(** A field the pattern misses is unchanged. *)
Lemma burst_miss o n :
  (0 <= k)%Z -> (o + n <= length a)%nat ->
  (8 * Z.of_nat (o + n) <= k \/ k + 32 <= 8 * Z.of_nat o)%Z ->
  sub o n b = sub o n a.
Proof.
  destruct Hab as (Hl & Hd & Hx). intros Hk Ho Hm.
  apply from_le_inj; [by apply bytes_ok_sub.. | rewrite !length_sub; lia |].
  apply Z.bits_inj'. intros i Hi. rewrite !from_le_sub_testbit by done.
  rewrite Hx, Z.lxor_spec, Z.shiftl_spec by lia.
  destruct (i <? _)%Z eqn:E; cbn [andb]; [| done]. bool_lia.
  rewrite (burst_testbit d) by lia. by rewrite xorb_false_r.
Qed.

(** A field that holds the pattern has it at its own offset. *)
Lemma burst_within o n :
  (8 * Z.of_nat o <= k)%Z -> (k + 32 <= 8 * Z.of_nat (o + n))%Z ->
  from_le (sub o n b) = Z.lxor (from_le (sub o n a)) (Z.shiftl d (k - 8 * Z.of_nat o)).
Proof.
  destruct Hab as (Hl & Hd & Hx). intros Hk Ho.
  apply Z.bits_inj'. intros i Hi.
  rewrite Z.lxor_spec, Z.shiftl_spec, !from_le_sub_testbit by done.
  rewrite Hx, Z.lxor_spec, Z.shiftl_spec by lia.
  replace (i + 8 * Z.of_nat o - k)%Z with (i - (k - 8 * Z.of_nat o))%Z by lia.
  destruct (i <? _)%Z eqn:E; cbn [andb]; [done |]. bool_lia.
  by rewrite (burst_testbit d) by lia.
Qed.
End burst.

(** C35.  A record with any burst of at most 32 corrupted bits between its
    length field and its checksum (sequence number, op, sizes, key, value,
    expiry) is never decoded, as this or as any other record. *)
Theorem wal_burst_rejected (r : Decoded) (rest buf : bytes) (d k : Z)
  (Hr : rec_ok r) (Hrest : bytes_ok rest) (Hbuf : bytes_ok buf)
  (Hburst : burst (rec_bytes r ++ rest) buf d k)
  (Hlo : (8 * 6 <= k)%Z) (Hhi : (k + 32 <= 8 * Z.of_nat (total_len r - 4))%Z) :
  decode_record buf = None.
Proof.
  destruct (decode_record buf) as [r' |] eqn:E; [| done]. exfalso.
  pose proof (decode_checked _ _ E) as Hck.
  assert (bytes_ok (rec_bytes r ++ rest)) as Ha
    by (apply bytes_ok_app; split; [by apply rec_bytes_ok | done]).
  pose proof (length_field_buf r rest) as Hl. unfold field_buf in Hl.
  rewrite (ok_total _ Hr) in Hhi.
  assert (length (rec_payload r') = length (rec_payload r)) as Hp.
  { pose proof (ck_lenf _ _ Hck) as H. rewrite (burst_miss _ _ _ _ Ha Hbuf Hburst) in H by lia.
    pose proof (field_len r rest Hr) as H'. unfold field_buf in H'. lia. }
  pose proof (ck_crc _ _ Hck) as Hcrc. rewrite Hp in Hcrc.
  rewrite (burst_miss _ _ _ _ Ha Hbuf Hburst) in Hcrc by lia.
  fold (field_buf r rest) in *. rewrite (field_crc r rest) in Hcrc.
  rewrite from_to_le in Hcrc by (apply (crc32_fits _ (rec_body_ok _ Hr))).
  revert Hcrc. rewrite <- (field_body r rest).
  apply (crc32_burst _ _ d (Z.to_nat (k - 8 * 2))).
  - by apply bytes_ok_sub.
  - by apply bytes_ok_sub.
  - destruct Hburst as [Hlen _]. rewrite !length_sub; lia.
  - apply Hburst.
  - rewrite length_sub by lia. lia.
  - rewrite Z2Nat.id by lia. apply (burst_within _ _ d k Ha Hbuf Hburst); lia.
Qed.

(** ** Blocks of records *)

Definition recs_bytes (rs : list Decoded) : bytes := concat (map rec_bytes rs).

Lemma recs_bytes_cons r rs : recs_bytes (r :: rs) = rec_bytes r ++ recs_bytes rs.
Proof. reflexivity. Qed.

Lemma recs_bytes_app a b : recs_bytes (a ++ b) = recs_bytes a ++ recs_bytes b.
Proof. unfold recs_bytes. by rewrite map_app, concat_app. Qed.

Lemma recs_bytes_one r : recs_bytes [r] = rec_bytes r.
Proof. rewrite recs_bytes_cons. apply app_nil_r. Qed.

Lemma recs_bytes_nonempty g : g <> [] -> length (recs_bytes g) <> 0%nat.
Proof.
  destruct g as [|r g]; [done |]. intros _. rewrite recs_bytes_cons, length_app, length_rec_bytes. lia.
Qed.

Lemma recs_bytes_ok rs : Forall rec_ok rs -> bytes_ok (recs_bytes rs).
Proof.
  induction 1 as [|r rs Hr _ IH]; [constructor |]. rewrite recs_bytes_cons.
  apply bytes_ok_app. split; [by apply rec_bytes_ok | done].
Qed.

Lemma from_le_zero l : bytes_ok l -> from_le l = 0%Z <-> Forall (fun b => b = 0%Z) l.
Proof.
  induction 1 as [|b l Hb Hl IH]; [split; [constructor | done] |]. cbn [from_le].
  pose proof (from_le_bound l Hl). unfold fits in Hb. rewrite Forall_cons, <- IH. lia.
Qed.

Lemma forallb_zero l : forallb (fun b => (b =? 0)%Z) l = true <-> Forall (fun b => b = 0%Z) l.
Proof.
  induction l as [|b l IH]; cbn; [split; [constructor | done] |].
  rewrite andb_true_iff, IH, Forall_cons, Z.eqb_eq. done.
Qed.

(** The word-wise test is the byte-wise one. *)
Lemma all_zero_spec l : bytes_ok l -> all_zero l = true <-> Forall (fun b => b = 0%Z) l.
Proof.
  remember (length l) as n eqn:Hn. revert l Hn.
  induction n as [n IH] using lt_wf_ind. intros l -> Hl.
  do 8 (destruct l as [|? l]; [cbn [all_zero]; apply forallb_zero |]).
  cbn [all_zero]. rewrite andb_true_iff, Z.eqb_eq.
  rewrite (IH (length l)); [| cbn; lia | done | by do 8 apply Forall_inv_tail in Hl].
  change (?a :: ?b :: ?c :: ?d :: ?e :: ?f :: ?g :: ?h :: l)
    with ([a; b; c; d; e; f; g; h] ++ l) in *.
  apply bytes_ok_app in Hl as [H8 _]. rewrite from_le_zero by done. by rewrite Forall_app.
Qed.

Lemma scan_zeros l : bytes_ok l -> Forall (fun b => b = 0%Z) l -> scan_record l = CleanEnd.
Proof. intros H1 H2. unfold scan_record. by rewrite (proj2 (all_zero_spec l H1) H2). Qed.

Lemma scan_rec_bytes r rest :
  rec_ok r -> bytes_ok rest -> scan_record (rec_bytes r ++ rest) = ScanRecord r.
Proof.
  intros Hr Hrest. unfold scan_record.
  pose proof (decode_rec_bytes r rest Hr) as Hd. unfold field_buf in Hd. rewrite Hd.
  destruct (all_zero _) eqn:E; [| done]. apply all_zero_spec in E.
  - exfalso. apply Forall_app in E as [E _]. unfold rec_bytes in E. apply Forall_app in E as [E _].
    apply Forall_inv in E. done.
  - apply bytes_ok_app. split; [by apply rec_bytes_ok | done].
Qed.

Lemma scan_record_inv buf r :
  bytes_ok buf -> scan_record buf = ScanRecord r ->
  rec_ok r /\ buf = rec_bytes r ++ drop (total_len r) buf.
Proof.
  intros Hb. unfold scan_record. destruct (all_zero buf); [done |].
  destruct (decode_record buf) as [r' |] eqn:E; [| done]. intros [= <-].
  by apply decode_canonical.
Qed.

(** The longest prefix that ends with a group's closing record. *)
Fixpoint whole_groups (rs : list Decoded) : list Decoded :=
  match rs with
  | [] => []
  | r :: rs =>
      match whole_groups rs with
      | [] => if d_more r then [] else [r]
      | g => r :: g
      end
  end.

Definition newer (last : option u64) (r : Decoded) : Prop :=
  match last with Some l => (l < d_seq r)%Z | None => True end.

(** Strictly increasing sequence numbers, above [last]. *)
Fixpoint ascending (last : option u64) (rs : list Decoded) : Prop :=
  match rs with
  | [] => True
  | r :: rs => newer last r /\ ascending (Some (d_seq r)) rs
  end.

Fixpoint last_of (last : option u64) (rs : list Decoded) : option u64 :=
  match rs with [] => last | r :: rs => last_of (Some (d_seq r)) rs end.

(** Why a scan stops at [tail] after a record with sequence number [last]:
    [false] at clean padding or the block's end, [true] at anything else. *)
Definition stops (last : option u64) (tail : bytes) (torn : bool) : Prop :=
  (tail = [] /\ torn = false) \/
  match scan_record tail with
  | ScanRecord r => ~ newer last r /\ torn = true
  | CleanEnd => torn = false
  | Corrupt => torn = true
  end.

(** The records a block holds, and whether its scan stops at a tear. *)
Definition parsed (block : bytes) (rs : list Decoded) (torn : bool) : Prop :=
  Forall rec_ok rs /\ ascending None rs /\
  exists tail, block = recs_bytes rs ++ tail /\ bytes_ok tail /\ stops (last_of None rs) tail torn.

(** Every block content parses. *)
Lemma parse_exists tail last :
  bytes_ok tail ->
  exists rs torn tail', tail = recs_bytes rs ++ tail' /\ Forall rec_ok rs /\
    ascending last rs /\ bytes_ok tail' /\ stops (last_of last rs) tail' torn.
Proof.
  remember (length tail) as n eqn:Hn. revert tail last Hn.
  induction n as [n IH] using lt_wf_ind. intros tail last -> Hb.
  destruct (scan_record tail) as [r | |] eqn:E.
  - destruct (scan_record_inv _ _ Hb E) as [Hr Htail].
    destruct (match last with Some l => (d_seq r <=? l)%Z | None => false end) eqn:El.
    + exists [], true, tail. split_and!; try done. right. rewrite E. split; [| done].
      destruct last; [| done]. cbn. bool_lia.
    + pose proof (length_rec_bytes r). rewrite Htail in Hb. apply bytes_ok_app in Hb as [_ Hb].
      destruct (IH (length (drop (total_len r) tail))
                 ltac:(rewrite Htail at 2; rewrite length_app; lia)
                 (drop (total_len r) tail) (Some (d_seq r)) eq_refl Hb)
        as (rs & torn & tail' & Heq & H1 & H2 & H3 & H4).
      exists (r :: rs), torn, tail'. rewrite recs_bytes_cons, <- app_assoc, <- Heq.
      split_and!; try done; [by constructor |].
      cbn. split; [| done]. destruct last; cbn; [| done]. bool_lia.
  - exists [], false, tail. split_and!; try done. right. by rewrite E.
  - exists [], true, tail. split_and!; try done. right. by rewrite E.
Qed.

Lemma parsed_total block : bytes_ok block -> exists rs torn, parsed block rs torn.
Proof.
  intros Hb. destruct (parse_exists block None Hb) as (rs & torn & tail & -> & ? & ? & ? & ?).
  exists rs, torn. split_and!; eauto.
Qed.

Lemma whole_groups_prefix rs : whole_groups rs `prefix_of` rs.
Proof.
  induction rs as [|r rs IH]; cbn; [done |].
  destruct (whole_groups rs) as [|g gs]; [| by apply prefix_cons].
  destruct (d_more r); [apply prefix_nil | by apply prefix_cons, prefix_nil].
Qed.

Lemma length_recs_bytes rs : Forall rec_ok rs -> (23 * length rs <= length (recs_bytes rs))%nat.
Proof.
  induction 1 as [|r rs _ _ IH]; [cbn; lia |]. rewrite recs_bytes_cons, length_app, length_rec_bytes.
  cbn [length]. lia.
Qed.

Definition first_of (first : option u64) (rs : list Decoded) : option u64 :=
  match first, rs with None, r :: _ => Some (d_seq r) | f, _ => f end.

Definition first_seq_of (rs : list Decoded) : option u64 := d_seq <$> head rs.

Section scanning.
  Context {D E : Type} `{Dev : !BlockDevice D E}.
  (** [ASSERT_MIN] *)
  Abbreviation assert_min := (512 <= BLOCK)%nat (only parsing).

(** Pass 1 computes the parse. *)
Lemma pass1_loop_spec rs fuel pre tail complete first last torn :
  Forall rec_ok rs -> ascending last rs -> bytes_ok tail -> stops (last_of last rs) tail torn ->
  length (pre ++ recs_bytes rs ++ tail) = BLOCK -> (length rs < fuel)%nat ->
  pass1_loop fuel (pre ++ recs_bytes rs ++ tail) (length pre) complete first last =
  mkPass1 (length pre + length (recs_bytes rs))
    (match whole_groups rs with
     | [] => complete | g => length pre + length (recs_bytes g) end)
    torn (first_of first rs).
Proof.
  revert fuel pre complete first last. induction rs as [|r rs IH];
    intros fuel pre complete first last Hok Hasc Htail Hstop Hlen Hfuel.
  - destruct fuel as [|fuel]; [cbn in Hfuel; lia |].
    replace (first_of first []) with first by (by destruct first).
    cbn [recs_bytes map concat whole_groups length] in *. rewrite app_nil_l in *.
    rewrite Nat.add_0_r. cbn [pass1_loop]. rewrite length_app in Hlen.
    destruct (BLOCK <=? length pre)%nat eqn:E1; bool_lia.
    { assert (tail = []) as -> by (apply nil_length_inv; lia).
      destruct Hstop as [[_ ->] | Hs]; [done |]. by rewrite Hs. }
    rewrite drop_app_length. destruct Hstop as [[-> _] | Hs]; [cbn in Hlen; lia |].
    cbn [last_of] in Hs. destruct (scan_record tail) as [r | |]; [| by rewrite Hs..].
    destruct Hs as [Hn ->]. destruct last as [l |]; [| by destruct Hn].
    cbn in Hn. rewrite (proj2 (Z.leb_le _ _)) by lia. done.
  - apply Forall_cons in Hok as [Hr Hok]. destruct Hasc as [Hnew Hasc].
    destruct fuel as [|fuel]; [cbn in Hfuel; lia |]. cbn [length] in Hfuel.
    pose proof (length_rec_bytes r) as Hrl. pose proof (ok_total _ Hr) as Htot.
    rewrite recs_bytes_cons, <- app_assoc in *. rewrite !length_app in Hlen. cbn [pass1_loop].
    rewrite (proj2 (Nat.leb_gt _ _)) by lia. rewrite drop_app_length.
    rewrite scan_rec_bytes; [| done | apply bytes_ok_app; split; [by apply recs_bytes_ok | done]].
    assert (match last with Some l => (d_seq r <=? l)%Z | None => false end = false) as ->.
    { destruct last; [| done]. cbn in Hnew. by apply Z.leb_gt. }
    cbv zeta. replace (length pre + total_len r)%nat with (length (pre ++ rec_bytes r))
      by (rewrite length_app; lia).
    rewrite app_assoc.
    rewrite IH; [| done | done | done | done | rewrite !length_app; lia | lia].
    rewrite !length_app. cbn [whole_groups last_of].
    f_equal; [lia | | by destruct first].
    destruct (whole_groups rs) as [|g gs].
    + destruct (d_more r); [done |]. unfold recs_bytes. cbn. rewrite app_nil_r. lia.
    + rewrite (recs_bytes_cons r), length_app. lia.
Qed.

Lemma pass1_parsed block rs torn :
  assert_min -> length block = BLOCK -> parsed block rs torn ->
  pass1 block =
  mkPass1 (length (recs_bytes rs)) (length (recs_bytes (whole_groups rs)))
    (torn || (length (recs_bytes (whole_groups rs)) <? length (recs_bytes rs))%nat)
    (first_seq_of rs).
Proof.
  intros Hmin Hl (Hok & Hasc & tail & -> & Htail & Hstop). unfold pass1.
  pose proof (length_recs_bytes rs Hok) as Hlen. pose proof Hl as Hl'. rewrite length_app in Hl'.
  change (recs_bytes rs ++ tail) with ([] ++ recs_bytes rs ++ tail).
  rewrite (pass1_loop_spec rs BLOCK [] tail 0 None None torn) by (done || lia).
  cbn [p_off p_complete p_torn p_first_seq length Nat.add].
  assert (match whole_groups rs with [] => 0%nat | g => length (recs_bytes g) end =
          length (recs_bytes (whole_groups rs))) as -> by (by destruct (whole_groups rs)).
  f_equal. by destruct rs.
Qed.

Section replaying.
  Context {CAP ARENA KEY_MAX VAL_MAX : nat}.

(** Replaying a list of records into a table, stale ones skipped. *)
Fixpoint replay_all (seq_floor : u64) (table : MemTable) (rs : list Decoded)
  : result MemTable (Error E) :=
  match rs with
  | [] => Ok table
  | r :: rs =>
      if (seq_floor <? d_seq r)%Z then
        let? table := replay_record CAP ARENA KEY_MAX VAL_MAX table r in
        replay_all seq_floor table rs
      else replay_all seq_floor table rs
  end.

Definition live_count (seq_floor : u64) (rs : list Decoded) : Z :=
  Z.of_nat (length (List.filter (fun r => (seq_floor <? d_seq r)%Z) rs)).

Definition max_seq_of (mx : u64) (rs : list Decoded) : u64 :=
  fold_left (fun mx r => if (mx <? d_seq r)%Z then d_seq r else mx) rs mx.

Lemma live_count_cons seq_floor r rs :
  live_count seq_floor (r :: rs) =
  ((if (seq_floor <? d_seq r)%Z then 1 else 0) + live_count seq_floor rs)%Z.
Proof. unfold live_count. cbn. destruct (_ <? _)%Z; cbn [length]; lia. Qed.

(** Pass 2 replays the complete groups, in order. *)
Lemma pass2_loop_spec g fuel pre tail id seq_floor table table' mx recs live :
  Forall rec_ok g -> bytes_ok tail -> (length g < fuel)%nat ->
  replay_all seq_floor table g = Ok table' ->
  pass2_loop (E := E) CAP ARENA KEY_MAX VAL_MAX fuel (pre ++ recs_bytes g ++ tail) id seq_floor
    (length pre) (length pre + length (recs_bytes g)) table mx recs live =
  (table', Ok (max_seq_of mx g, (recs + live_count seq_floor g)%Z,
               (live + live_count seq_floor g)%Z)).
Proof.
  revert fuel pre table mx recs live.
  induction g as [|r g IH]; intros fuel pre table mx recs live Hok Ht Hfuel Hrep;
    (destruct fuel as [|fuel]; [cbn in Hfuel; lia |]); cbn [pass2_loop].
  - cbn [recs_bytes map concat length]. rewrite (proj2 (Nat.leb_le _ _)) by lia.
    injection Hrep as ->. cbn. by rewrite !Z.add_0_r.
  - apply Forall_cons in Hok as [Hr Hok]. cbn [length] in Hfuel.
    pose proof (length_rec_bytes r) as Hrl. pose proof (ok_total _ Hr) as Htot.
    rewrite recs_bytes_cons, <- app_assoc, length_app.
    rewrite (proj2 (Nat.leb_gt _ _)) by lia. rewrite drop_app_length.
    rewrite scan_rec_bytes; [| done | apply bytes_ok_app; split; [by apply recs_bytes_ok | done]].
    cbv zeta. replace (length pre + total_len r)%nat with (length (pre ++ rec_bytes r))
      by (rewrite length_app; lia).
    replace (length pre + (length (rec_bytes r) + length (recs_bytes g)))%nat
      with (length (pre ++ rec_bytes r) + length (recs_bytes g))%nat by (rewrite length_app; lia).
    rewrite app_assoc, live_count_cons. cbn [replay_all] in Hrep. unfold max_seq_of.
    rewrite fold_left_cons. destruct (seq_floor <? d_seq r)%Z.
    + destruct (replay_record _ _ _ _ table r) as [t1 | e] eqn:E1; [| done].
      rewrite (IH fuel (pre ++ rec_bytes r) t1) by (done || lia). by rewrite !Z.add_assoc.
    + rewrite (IH fuel (pre ++ rec_bytes r) table) by (done || lia). do 2 f_equal.
Qed.

(** What the first record of the next block says about a torn block before it. *)
Definition outdated (newer_than : option u64) (rs : list Decoded) : bool :=
  match newer_than with
  | Some floor => match first_seq_of rs with None => true | Some sq => (sq <=? floor)%Z end
  | None => false
  end.

(** Does the scan of a block with records [rs] end at a tear? *)
Definition tears (rs : list Decoded) (torn : bool) : bool :=
  torn || (length (recs_bytes (whole_groups rs)) <? length (recs_bytes rs))%nat.

Definition has_live (seq_floor : u64) (rs : list Decoded) : bool :=
  negb (live_count seq_floor rs =? 0)%Z.

(** The log on the device from block [id] on: [log_on id newer_than mx g n] when
    its complete groups are [g], over [n] blocks. *)
Inductive log_on (d : D) (end_ seq_floor : u64)
  : u64 -> option u64 -> u64 -> list Decoded -> u64 -> Prop :=
  | log_region id nt mx : (end_ <= id)%Z -> log_on d end_ seq_floor id nt mx [] 0
  | log_old id nt mx b rs torn :
      (id < end_)%Z -> read_block d id = Ok b -> parsed b rs torn ->
      outdated nt rs = true \/ whole_groups rs = [] ->
      log_on d end_ seq_floor id nt mx [] 0
  | log_stale id nt mx b rs torn :
      (id < end_)%Z -> read_block d id = Ok b -> parsed b rs torn ->
      outdated nt rs = false -> whole_groups rs <> [] ->
      tears rs torn = false -> has_live seq_floor (whole_groups rs) = false ->
      log_on d end_ seq_floor id nt mx (whole_groups rs) 0
  | log_block id nt mx b rs torn g n :
      (id < end_)%Z -> read_block d id = Ok b -> parsed b rs torn ->
      outdated nt rs = false -> whole_groups rs <> [] ->
      tears rs torn = true \/ has_live seq_floor (whole_groups rs) = true ->
      log_on d end_ seq_floor (id + 1)
        (if tears rs torn then Some (max_seq_of mx (whole_groups rs)) else None)
        (max_seq_of mx (whole_groups rs)) g n ->
      log_on d end_ seq_floor id nt mx (whole_groups rs ++ g) (n + 1).

Lemma replay_all_app seq_floor table a b :
  replay_all seq_floor table (a ++ b) =
  let? t := replay_all seq_floor table a in replay_all seq_floor t b.
Proof.
  revert table. induction a as [|r a IH]; intros table; [done |]. cbn [app replay_all].
  destruct (_ <? _)%Z; [| apply IH]. destruct (replay_record _ _ _ _ table r); [apply IH | done].
Qed.

Lemma live_count_app seq_floor a b :
  live_count seq_floor (a ++ b) = (live_count seq_floor a + live_count seq_floor b)%Z.
Proof. induction a as [|r a IH]; [done |]. cbn [app]. rewrite !live_count_cons. lia. Qed.

Lemma max_seq_of_app mx a b : max_seq_of mx (a ++ b) = max_seq_of (max_seq_of mx a) b.
Proof. apply fold_left_app. Qed.

Lemma log_blocks_nonneg d end_ fl id nt mx g n : log_on d end_ fl id nt mx g n -> (0 <= n)%Z.
Proof. induction 1; lia. Qed.

Context {Laws : DeviceLaws D E}.

(** One block: pass 1 and pass 2 together. *)
Lemma pass2_parsed d id b rs torn seq_floor table table' mx recs :
  assert_min -> read_block d id = Ok b -> parsed b rs torn ->
  replay_all seq_floor table (whole_groups rs) = Ok table' ->
  pass2_loop (E := E) CAP ARENA KEY_MAX VAL_MAX BLOCK b id seq_floor 0
    (length (recs_bytes (whole_groups rs))) table mx recs 0 =
  (table', Ok (max_seq_of mx (whole_groups rs),
     (recs + live_count seq_floor (whole_groups rs))%Z, live_count seq_floor (whole_groups rs))).
Proof.
  intros Hmin Hread (Hok & _ & tail & -> & Htail & _) Hrep.
  destruct (read_len _ _ _ Hread) as [Hlen _]. rewrite length_app in Hlen.
  pose proof (length_recs_bytes rs Hok) as Hl.
  destruct (whole_groups_prefix rs) as [more Hmore].
  rewrite Hmore in Hok. apply Forall_app in Hok as [Hg Hmok].
  assert (length (whole_groups rs) <= length rs)%nat by (rewrite Hmore at 2; rewrite length_app; lia).
  pose proof (pass2_loop_spec (whole_groups rs) BLOCK [] (recs_bytes more ++ tail) id seq_floor
    table table' mx recs 0 Hg) as H2. rewrite app_nil_l, Z.add_0_l in H2. cbn [length Nat.add] in H2.
  rewrite <- H2; [| apply bytes_ok_app; split; [by apply recs_bytes_ok | done] | lia | done].
  rewrite Hmore at 1. by rewrite recs_bytes_app, <- app_assoc.
Qed.

(** A record the table refuses ends the replay of its block. *)
Lemma pass2_loop_refused g fuel pre tail id seq_floor table err mx recs live :
  Forall rec_ok g -> bytes_ok tail -> (length g < fuel)%nat ->
  replay_all seq_floor table g = Err err ->
  exists table', pass2_loop (E := E) CAP ARENA KEY_MAX VAL_MAX fuel (pre ++ recs_bytes g ++ tail) id
    seq_floor (length pre) (length pre + length (recs_bytes g)) table mx recs live =
  (table', Err (CorruptWal id)).
Proof.
  revert fuel pre table mx recs live.
  induction g as [|r g IH]; intros fuel pre table mx recs live Hok Ht Hfuel Hrep; [done |].
  destruct fuel as [|fuel]; [cbn in Hfuel; lia |]. cbn [pass2_loop].
  apply Forall_cons in Hok as [Hr Hok]. cbn [length] in Hfuel.
  pose proof (length_rec_bytes r) as Hrl. pose proof (ok_total _ Hr) as Htot.
  rewrite recs_bytes_cons, <- app_assoc, length_app.
  rewrite (proj2 (Nat.leb_gt _ _)) by lia. rewrite drop_app_length.
  rewrite scan_rec_bytes; [| done | apply bytes_ok_app; split; [by apply recs_bytes_ok | done]].
  cbv zeta. replace (length pre + total_len r)%nat with (length (pre ++ rec_bytes r))
    by (rewrite length_app; lia).
  replace (length pre + (length (rec_bytes r) + length (recs_bytes g)))%nat
    with (length (pre ++ rec_bytes r) + length (recs_bytes g))%nat by (rewrite length_app; lia).
  rewrite app_assoc. cbn [replay_all] in Hrep. destruct (seq_floor <? d_seq r)%Z.
  - destruct (replay_record _ _ _ _ table r) as [t1 | e] eqn:E1; [| by eexists]. apply IH; done || lia.
  - apply IH; done || lia.
Qed.

Lemma pass2_refused d id b rs torn seq_floor table err mx recs :
  assert_min -> read_block d id = Ok b -> parsed b rs torn ->
  replay_all seq_floor table (whole_groups rs) = Err err ->
  exists table', pass2_loop (E := E) CAP ARENA KEY_MAX VAL_MAX BLOCK b id seq_floor 0
    (length (recs_bytes (whole_groups rs))) table mx recs 0 = (table', Err (CorruptWal id)).
Proof.
  intros Hmin Hread (Hok & _ & tail & -> & Htail & _) Hrep.
  destruct (read_len _ _ _ Hread) as [Hlen _]. rewrite length_app in Hlen.
  pose proof (length_recs_bytes rs Hok) as Hl.
  destruct (whole_groups_prefix rs) as [more Hmore].
  rewrite Hmore in Hok. apply Forall_app in Hok as [Hg Hmok].
  assert (length (whole_groups rs) <= length rs)%nat by (rewrite Hmore at 2; rewrite length_app; lia).
  destruct (pass2_loop_refused (whole_groups rs) BLOCK [] (recs_bytes more ++ tail) id seq_floor
    table err mx recs 0 Hg) as [t' H2]; [apply bytes_ok_app; split; [by apply recs_bytes_ok | done] | lia | done |].
  exists t'. rewrite <- H2. rewrite Hmore at 1. by rewrite recs_bytes_app, <- app_assoc.
Qed.

(** What the loop does when the table refuses a record of the log. *)
Lemma recover_loop_refused d end_ seq_floor id nt mx g n :
  assert_min -> log_on d end_ seq_floor id nt mx g n ->
  forall fuel stage from table err recs used,
  id = (from + used)%Z -> (Z.to_nat (end_ - id) < fuel)%nat ->
  replay_all seq_floor table g = Err err ->
  exists stage' table' bad, (id <= bad < end_)%Z /\
    recover_loop CAP ARENA KEY_MAX VAL_MAX fuel d stage end_ from seq_floor table (mkRecover recs mx used) nt =
    (stage', table', Err (CorruptWal bad)).
Proof.
  intros Hmin. induction 1 as [id nt mx Hend | id nt mx b rs torn Hid Hread Hp Hstop
    | id nt mx b rs torn Hid Hread Hp Ho Hne Ht Hlive
    | id nt mx b rs torn g n Hid Hread Hp Ho Hne Hgo _ IH];
    intros fuel stage from table err recs used -> Hfuel Hrep; try done;
    (destruct fuel as [|fuel]; [lia |]); cbn [recover_loop blocks_used records rs_max_seq];
    rewrite (proj2 (Z.leb_gt _ _)) by lia; rewrite Hread; cbv zeta;
    destruct (read_len _ _ _ Hread) as [Hlen _];
    rewrite (pass1_parsed b rs torn Hmin Hlen Hp); cbn [p_first_seq p_complete p_torn];
    fold (outdated nt rs); rewrite Ho;
    rewrite (proj2 (Nat.eqb_neq _ _)) by (by apply recs_bytes_nonempty).
  - destruct (pass2_refused d _ b rs torn seq_floor table err mx recs Hmin Hread Hp Hrep) as [t' ->].
    eexists _, _, _. split; [| done]. lia.
  - rewrite replay_all_app in Hrep.
    destruct (replay_all seq_floor table (whole_groups rs)) as [t1 | e1] eqn:E1.
    + rewrite (pass2_parsed d _ b rs torn seq_floor table t1) by done.
      fold (tears rs torn).
      assert ((live_count seq_floor (whole_groups rs) =? 0)%Z && negb (tears rs torn) = false) as ->.
      { destruct Hgo as [-> | Hl]; [by rewrite andb_false_r |].
        unfold has_live in Hl. apply negb_true_iff in Hl. by rewrite Hl. }
      destruct (IH fuel b from t1 err (recs + live_count seq_floor (whole_groups rs))%Z (used + 1)%Z)
        as (st & t' & bad & Hb & Hr); [lia | lia | done |].
      exists st, t', bad. split; [lia | exact Hr].
    + destruct (pass2_refused d _ b rs torn seq_floor table e1 mx recs Hmin Hread Hp E1) as [t' ->].
      eexists _, _, _. split; [| done]. lia.
Qed.

(** The recovery loop replays exactly the log on the device. *)
Lemma recover_loop_spec d end_ seq_floor id nt mx g n :
  assert_min -> log_on d end_ seq_floor id nt mx g n ->
  forall fuel stage from table table' recs used,
  id = (from + used)%Z -> (Z.to_nat (end_ - id) < fuel)%nat ->
  replay_all seq_floor table g = Ok table' ->
  (recover_loop CAP ARENA KEY_MAX VAL_MAX fuel d stage end_ from seq_floor table
     (mkRecover recs mx used) nt).1.2 = table' /\
  (recover_loop CAP ARENA KEY_MAX VAL_MAX fuel d stage end_ from seq_floor table
     (mkRecover recs mx used) nt).2 =
  Ok (mkRecover (recs + live_count seq_floor g) (max_seq_of mx g) (used + n)).
Proof.
  intros Hmin. induction 1 as [id nt mx Hend | id nt mx b rs torn Hid Hread Hp Hstop
    | id nt mx b rs torn Hid Hread Hp Ho Hne Ht Hlive
    | id nt mx b rs torn g n Hid Hread Hp Ho Hne Hgo _ IH];
    intros fuel stage from table table' recs used -> Hfuel Hrep;
    (destruct fuel as [|fuel]; [lia |]); cbn [recover_loop blocks_used records rs_max_seq];
    try (injection Hrep as <-; cbn [live_count List.filter length max_seq_of fold_left];
         rewrite ?Z.add_0_r).
  - rewrite (proj2 (Z.leb_le _ _)) by lia. done.
  - rewrite (proj2 (Z.leb_gt _ _)) by lia. rewrite Hread. cbv zeta.
    destruct (read_len _ _ _ Hread) as [Hlen _].
    rewrite (pass1_parsed b rs torn Hmin Hlen Hp). cbn [p_first_seq p_complete].
    fold (outdated nt rs). destruct (outdated nt rs) eqn:Eo; [done |].
    destruct Hstop as [? | ->]; done.
  - rewrite (proj2 (Z.leb_gt _ _)) by lia. rewrite Hread. cbv zeta.
    destruct (read_len _ _ _ Hread) as [Hlen _].
    rewrite (pass1_parsed b rs torn Hmin Hlen Hp). cbn [p_first_seq p_complete p_torn].
    fold (outdated nt rs). rewrite Ho.
    rewrite (proj2 (Nat.eqb_neq _ _)) by (by apply recs_bytes_nonempty).
    rewrite (pass2_parsed d _ b rs torn seq_floor table table') by done.
    fold (tears rs torn). unfold has_live in Hlive. apply negb_false_iff in Hlive.
    rewrite Hlive, Ht, Z.add_0_r. done.
  - rewrite (proj2 (Z.leb_gt _ _)) by lia. rewrite Hread. cbv zeta.
    destruct (read_len _ _ _ Hread) as [Hlen _].
    rewrite (pass1_parsed b rs torn Hmin Hlen Hp). cbn [p_first_seq p_complete p_torn].
    fold (outdated nt rs). rewrite Ho.
    rewrite (proj2 (Nat.eqb_neq _ _)) by (by apply recs_bytes_nonempty).
    rewrite replay_all_app in Hrep.
    destruct (replay_all seq_floor table (whole_groups rs)) as [t1 |] eqn:E1; [| done].
    rewrite (pass2_parsed d _ b rs torn seq_floor table t1) by done.
    fold (tears rs torn).
    assert ((live_count seq_floor (whole_groups rs) =? 0)%Z && negb (tears rs torn) = false) as ->.
    { destruct Hgo as [-> | Hl]; [by rewrite andb_false_r |].
      unfold has_live in Hl. apply negb_true_iff in Hl. by rewrite Hl. }
    rewrite live_count_app, max_seq_of_app, (Z.add_comm n), !Z.add_assoc.
    apply IH; [lia | lia | done].
Qed.
End replaying.
End scanning.

(** ** The writer's log *)

Section logging.
  Context {D E : Type} `{Dev : !BlockDevice D E} {Laws : DeviceLaws D E}.

Definition block_of (rs : list Decoded) : bytes :=
  recs_bytes rs ++ replicate (BLOCK - length (recs_bytes rs)) 0%Z.

Fixpoint log_at (d : D) (lo : u64) (bs : list (list Decoded)) : Prop :=
  match bs with
  | [] => True
  | b :: bs => read_block d lo = Ok (block_of b) /\ log_at d (lo + 1) bs
  end.

Definition closed (rs : list Decoded) : Prop := whole_groups rs = rs.

Definition good_block (b : list Decoded) : Prop :=
  Forall rec_ok b /\ (length (recs_bytes b) <= BLOCK)%nat /\ b <> [] /\ closed b.

(** The staging buffer holds [staged], and zeros past the dirty mark. *)
Record stage_inv (w : WalWriter D) (staged : list Decoded) : Prop := {
  inv_len : length (stage w) = BLOCK;
  inv_bytes : bytes_ok (stage w);
  inv_staged : take (stage_len w) (stage w) = recs_bytes staged;
  inv_stage_len : stage_len w = length (recs_bytes staged);
  inv_ok : Forall rec_ok staged;
  inv_dirty : (stage_len w <= BLOCK)%nat /\ (dirty_to w <= BLOCK)%nat;
  inv_zero : Forall (fun b => b = 0%Z) (drop (Nat.max (stage_len w) (dirty_to w)) (stage w));
}.

(** [wal_inv w base bs staged]: blocks [bs] were written from [base] on, each a
    sequence of whole groups, and [staged] is in RAM. *)
Record wal_inv (w : WalWriter D) (base : u64) (bs : list (list Decoded))
    (staged : list Decoded) : Prop := {
  inv_stage : stage_inv w staged;
  inv_log : log_at (device w) base bs;
  inv_next : next_block w = (base + Z.of_nat (length bs))%Z;
  inv_blocks : Forall good_block bs;
  inv_open : group_open w = false -> closed staged;
  inv_seq : ascending None (concat bs ++ staged);
  inv_end : bs = [] \/ (next_block w <= wal_end w)%Z;
}.

Lemma log_at_write d d' lo bs id b r :
  write_block d id b = (d', r) -> (lo + Z.of_nat (length bs) <= id)%Z ->
  log_at d lo bs -> log_at d' lo bs.
Proof.
  intros Hw. revert lo. induction bs as [|x bs IH]; intros lo Hid; cbn [log_at length] in *; [done |].
  intros [Hx Hbs]. split; [| apply IH; [lia | done]].
  by rewrite (read_unwritten _ _ _ lo _ _ Hw) by lia.
Qed.

Lemma log_at_flush d d' lo bs r : dev_flush d = (d', r) -> log_at d lo bs -> log_at d' lo bs.
Proof.
  intros Hw. revert lo. induction bs as [|x bs IH]; intros lo; cbn [log_at]; [done |].
  intros [Hx Hbs]. rewrite (read_flushed _ _ lo _ Hw). auto.
Qed.

Lemma log_at_snoc d lo bs b :
  log_at d lo (bs ++ [b]) <->
  log_at d lo bs /\ read_block d (lo + Z.of_nat (length bs)) = Ok (block_of b).
Proof.
  revert lo. induction bs as [|x bs IH]; intros lo; cbn [app log_at length].
  - rewrite Z.add_0_r. tauto.
  - rewrite IH. replace (lo + 1 + Z.of_nat (length bs))%Z with (lo + Z.of_nat (S (length bs)))%Z by lia.
    tauto.
Qed.

Lemma whole_groups_snoc rs r : d_more r = false -> closed (rs ++ [r]).
Proof.
  intros Hm. induction rs as [|x rs IH]; unfold closed in *; cbn; [by rewrite Hm |].
  rewrite IH. by destruct rs.
Qed.

Lemma ascending_snoc last rs r :
  ascending last rs -> newer last r -> Forall (fun x => (d_seq x < d_seq r)%Z) rs ->
  ascending last (rs ++ [r]).
Proof.
  revert last. induction rs as [|x rs IH]; intros last; cbn [app ascending]; [by intros |].
  intros [Hx Hrs] Hn [Hlt Hall]%Forall_cons. split; [done |]. by apply IH.
Qed.

(** The bytes [write_stage] writes: what the stage holds, zero-padded. *)
Definition padded (w : WalWriter D) : bytes :=
  if (stage_len w <? dirty_to w)%nat
  then splice (stage_len w) (replicate (dirty_to w - stage_len w) 0%Z) (stage w)
  else stage w.

Lemma Forall_zero_replicate l : Forall (fun b => b = 0%Z) l -> l = replicate (length l) 0%Z.
Proof. induction 1; cbn; congruence. Qed.

Lemma padded_block w staged : stage_inv w staged -> padded w = block_of staged.
Proof.
  intros [Hl _ Hst Hsl _ [Hs Hd] Hz]. unfold padded, block_of.
  apply Forall_zero_replicate in Hz. rewrite length_drop, Hl in Hz.
  rewrite <- Hst, length_take, Hl, Nat.min_l by done.
  destruct (stage_len w <? dirty_to w)%nat eqn:Elt; bool_lia.
  - unfold splice. f_equal. rewrite length_replicate.
    replace (stage_len w + (dirty_to w - stage_len w))%nat with (dirty_to w) by lia.
    rewrite Nat.max_r in Hz by lia. rewrite Hz, <- replicate_add. f_equal. lia.
  - rewrite Nat.max_l in Hz by lia. rewrite <- Hz. by rewrite take_drop.
Qed.

Lemma length_block_of rs : (length (recs_bytes rs) <= BLOCK)%nat -> length (block_of rs) = BLOCK.
Proof. intros. unfold block_of. rewrite length_app, length_replicate. lia. Qed.

Lemma zeros_ok n : bytes_ok (replicate n 0%Z).
Proof. apply Forall_replicate. unfold fits. lia. Qed.

Lemma block_of_ok rs : Forall rec_ok rs -> bytes_ok (block_of rs).
Proof. intros. apply bytes_ok_app. split; [by apply recs_bytes_ok | apply zeros_ok]. Qed.

Lemma zeros_zero n : Forall (fun b => b = 0%Z) (replicate n 0%Z).
Proof. by apply Forall_replicate. Qed.

(** After a write the stage is the block just written. *)
Lemma stage_inv_written w staged d nb :
  stage_inv w staged ->
  stage_inv (mkWriter d (wal_start w) (wal_end w) (padded w) 0 (stage_len w) nb
               (w_max_seq w) (group_open w)) [].
Proof.
  intros Hi. pose proof (padded_block w staged Hi) as Hp. destruct Hi as [Hl _ Hst Hsl Hok [Hs Hd] Hz].
  rewrite Hp. split; cbn [stage stage_len dirty_to]; try done.
  - apply length_block_of. lia.
  - by apply block_of_ok.
  - split; [lia | done].
  - rewrite Nat.max_r by lia. unfold block_of.
    rewrite drop_app_length' by lia. apply zeros_zero.
Qed.

Lemma stage_inv_refused w staged d :
  stage_inv w staged ->
  stage_inv (mkWriter d (wal_start w) (wal_end w) (padded w) (stage_len w) (stage_len w)
               (next_block w) (w_max_seq w) (group_open w)) staged.
Proof.
  intros Hi. pose proof (padded_block w staged Hi) as Hp. destruct Hi as [Hl _ Hst Hsl Hok [Hs Hd] Hz].
  rewrite Hp. split; cbn [stage stage_len dirty_to]; try done.
  - apply length_block_of. lia.
  - by apply block_of_ok.
  - unfold block_of. by rewrite take_app_length'.
  - rewrite Nat.max_id. unfold block_of. rewrite drop_app_length' by lia. apply zeros_zero.
Qed.

(** [write_stage] appends the staged block to the log or changes nothing of it. *)
Lemma write_stage_spec w base bs staged :
  wal_inv w base bs staged -> staged <> [] -> group_open w = false ->
  match write_stage w with
  | (w', Ok _) =>
      wal_inv w' base (bs ++ [staged]) [] /\ group_open w' = group_open w /\
      next_block w' = (next_block w + 1)%Z /\ stage_len w' = 0%nat
  | (w', Err _) =>
      wal_inv w' base bs staged /\ group_open w' = group_open w /\
      next_block w' = next_block w /\ stage_len w' = stage_len w
  end.
Proof.
  intros [Hst Hlog Hnext Hbl Hop Hseq Hend] Hne Hg. specialize (Hop Hg). unfold write_stage.
  destruct (wal_end w <=? next_block w)%Z eqn:Efull; [by split_and! |]. apply Z.leb_gt in Efull.
  fold (padded w). destruct (write_block (device w) (next_block w) (padded w)) as [d' r] eqn:Ew.
  pose proof (log_at_write _ _ base bs _ _ _ Ew ltac:(lia) Hlog) as Hlog'.
  pose proof (padded_block w staged Hst) as Hp. pose proof (inv_stage_len _ _ Hst) as Hsl.
  pose proof (inv_dirty _ _ Hst) as Hd. pose proof (inv_ok _ _ Hst) as Hok.
  destruct r as [[] | e].
  - split; [| split; [done | split; [done | done]]].
    split; cbn [device next_block group_open]; try done.
    + by apply (stage_inv_written w staged).
    + apply log_at_snoc. split; [done |]. rewrite <- Hnext, <- Hp.
      apply (read_written (device w) d' _ (padded w)); [rewrite Hp | rewrite Hp | exact Ew];
        [apply length_block_of; lia | by apply block_of_ok].
    + rewrite length_app. cbn [length]. lia.
    + apply Forall_app. split; [done |]. constructor; [| done]. split_and!; try done. lia.
    + rewrite concat_app. cbn [concat]. by rewrite !app_nil_r.
    + right. cbn [wal_end]. lia.
  - split; [| done]. split; cbn [device next_block group_open]; try done.
    by apply stage_inv_refused.
Qed.

(** The record an append stages. *)
Definition rec_of (sq : u64) (op : Op) (key val : bytes) (expire_at : u64) (more : bool)
  : Decoded :=
  let v := if op_eqb op Delete then [] else val in
  let el := if op_eqb op PutTtl then 8%nat else 0%nat in
  mkDecoded sq op more key v (if op_eqb op PutTtl then expire_at else 0%Z)
    (23 + (length key + (length v + el)))%nat.

Lemma rec_of_ok sq op key val exp more :
  fits 64 sq -> fits 64 exp -> bytes_ok key -> bytes_ok val ->
  (Z.of_nat (length key) <= U16_MAX)%Z ->
  (Z.of_nat (length (if op_eqb op Delete then [] else val)) <= U16_MAX)%Z ->
  rec_ok (rec_of sq op key val exp more).
Proof.
  intros. split; cbn; try done.
  - destruct (op_eqb op Delete); [constructor | done].
  - by destruct (op_eqb op PutTtl).
  - unfold rec_payload, extra_of. cbn. rewrite !length_app.
    destruct (op_eqb op PutTtl); cbn; lia.
Qed.

Lemma stage_inv_append w staged r :
  stage_inv w staged -> rec_ok r -> (stage_len w + total_len r <= BLOCK)%nat ->
  forall mx,
  stage_inv
    (mkWriter (device w) (wal_start w) (wal_end w)
       (take (stage_len w) (stage w) ++ rec_bytes r ++ drop (stage_len w + total_len r) (stage w))
       (stage_len w + total_len r) (dirty_to w) (next_block w) mx (d_more r))
    (staged ++ [r]).
Proof.
  intros [Hl Hb Hst Hsl Hok [Hs Hd] Hz] Hr Hfit mx.
  pose proof (length_rec_bytes r) as Hrl. pose proof (ok_total _ Hr) as Ht.
  assert (length (take (stage_len w) (stage w) ++ rec_bytes r) = stage_len w + total_len r)%nat as Hpre
    by (rewrite length_app, length_take; lia).
  split; cbn [stage stage_len dirty_to].
  - rewrite app_assoc, length_app, Hpre, length_drop. lia.
  - rewrite !bytes_ok_app. split_and!;
      [by apply Forall_take | by apply rec_bytes_ok | by apply Forall_drop].
  - rewrite app_assoc, take_app_length' by done. by rewrite recs_bytes_app, recs_bytes_one, Hst.
  - rewrite recs_bytes_app, recs_bytes_one, length_app. lia.
  - apply Forall_app. split; [done | by constructor].
  - lia.
  - rewrite app_assoc, drop_app, Hpre, (drop_ge (_ ++ _)), app_nil_l by lia. rewrite drop_drop.
    pose proof (Forall_drop _ (Nat.max (stage_len w + total_len r) (dirty_to w) -
      Nat.max (stage_len w) (dirty_to w))%nat _ Hz) as Hz'. rewrite drop_drop in Hz'.
    eapply eq_rect; [exact Hz' | f_equal; lia].
Qed.

Lemma stage_record_inv w base bs staged sq op key val exp more :
  let r := rec_of sq op key val exp more in
  let v := if op_eqb op Delete then [] else val in
  wal_inv w base bs staged -> rec_ok r -> (stage_len w + total_len r <= BLOCK)%nat ->
  Forall (fun x => (d_seq x < sq)%Z) (concat bs ++ staged) ->
  wal_inv (stage_record w sq op key (Z.of_nat (length key)) v (Z.of_nat (length v)) exp more)
    base bs (staged ++ [r]).
Proof.
  intros r v [Hst Hlog Hnext Hbl Hop Hseq Hend] Hr Hfit Hold. unfold stage_record.
  assert ((if op_eqb op PutTtl then to_le 8 exp else []) = extra_of r) as ->.
  { unfold extra_of, r. cbn. by destruct (op_eqb op PutTtl). }
  pose proof (encode_record_spec (drop (stage_len w) (stage w)) r Hr) as Henc.
  rewrite length_drop, (inv_len _ _ Hst) in Henc. specialize (Henc ltac:(lia)).
  cbn [d_seq d_op d_more d_key d_val r rec_of] in Henc. fold v in Henc. fold r in Henc.
  rewrite Henc. rewrite drop_drop.
  split; cbn [device next_block group_open]; try done.
  - by apply (stage_inv_append w staged r).
  - intros ->. by apply whole_groups_snoc.
  - rewrite app_assoc. by apply ascending_snoc.
Qed.

(** The types of the arguments: machine integers and bytes. *)
Definition input_ok (sq : u64) (key val : bytes) (exp : u64) : Prop :=
  fits 64 sq /\ fits 64 exp /\ bytes_ok key /\ bytes_ok val.

Lemma try_u16_Some n z : try_u16 n = Some z -> z = Z.of_nat n /\ (Z.of_nat n <= U16_MAX)%Z.
Proof. unfold try_u16. destruct (_ <=? _)%Z eqn:E1; [| done]. intros [= <-]. bool_lia. Qed.

Lemma stage_nonempty w staged : stage_inv w staged -> (0 < stage_len w)%nat <-> staged <> [].
Proof.
  intros Hst. rewrite (inv_stage_len _ _ Hst). split.
  - intros H ->. cbn in H. lia.
  - intros H. apply recs_bytes_nonempty in H. lia.
Qed.

Lemma append_inner_spec w base bs staged sq op key val exp more :
  wal_inv w base bs staged -> input_ok sq key val exp ->
  Forall (fun x => (d_seq x < sq)%Z) (concat bs ++ staged) ->
  let r := rec_of sq op key val exp more in
  match append_inner w sq op key val exp more with
  | (w', Ok _) =>
      group_open w' = more /\
      ((wal_inv w' base bs (staged ++ [r]) /\ next_block w' = next_block w) \/
       (group_open w = false /\ wal_inv w' base (bs ++ [staged]) [r] /\
        next_block w' = (next_block w + 1)%Z))
  | (w', Err _) =>
      wal_inv w' base bs staged /\ group_open w' = group_open w /\
      next_block w' = next_block w /\ stage_len w' = stage_len w
  end.
Proof.
  intros Hw (Hsq & Hexp & Hk & Hv) Hold r. unfold append_inner.
  destruct (try_u16 (length key)) as [kl |] eqn:Ekl; [| by split_and!].
  apply try_u16_Some in Ekl as [-> Hkl].
  set (v := if op_eqb op Delete then [] else val).
  assert ((if op_eqb op Delete then 0 else length val)%nat = length v) as ->
    by (unfold v; by destruct (op_eqb op Delete)).
  destruct (try_u16 (length v)) as [vl |] eqn:Evl; [| by split_and!].
  apply try_u16_Some in Evl as [-> Hvl].
  assert (take (length v) val = v) as ->
    by (unfold v; destruct (op_eqb op Delete); [done | apply firstn_all]).
  set (rlen := if op_eqb op PutTtl then _ else _).
  assert (rlen = total_len r) as ->.
  { unfold rlen, record_len_ttl, record_len, WAL_RECORD_OVERHEAD, WAL_HEADER_LEN, WAL_TRAILER_LEN, r.
    cbn [total_len rec_of]. fold v. destruct (op_eqb op PutTtl); lia. }
  assert (rec_ok r) as Hr by (by apply rec_of_ok).
  destruct (BLOCK <? total_len r)%nat eqn:E1; [by split_and! |].
  destruct (BLOCK <? stage_len w + total_len r)%nat eqn:E2; bool_lia.
  - destruct (group_open w) eqn:Eg; [by split_and! |].
    assert (staged <> []) as Hne.
    { apply (stage_nonempty w); [apply Hw | lia]. }
    pose proof (write_stage_spec w base bs staged Hw Hne Eg) as Hws.
    destruct (write_stage w) as [w' [[] | e]]; [| by rewrite <- Eg].
    destruct Hws as (Hw' & _ & Hn & Hs0). split; [done |]. right.
    split; [done |]. split; [| done].
    apply (stage_record_inv w' base (bs ++ [staged]) [] sq op key val exp more Hw' Hr);
      [fold r; lia |].
    rewrite concat_app. cbn [concat]. by rewrite !app_nil_r.
  - split; [done |]. left. split; [| done]. by apply stage_record_inv.
Qed.

Lemma commit_flush_spec w base bs staged :
  wal_inv w base bs staged ->
  let w' := (commit_flush w).1 in
  wal_inv w' base bs staged /\ group_open w' = group_open w /\
  next_block w' = next_block w /\ stage_len w' = stage_len w.
Proof.
  intros [Hst Hlog Hnext Hbl Hop Hseq Hend]. unfold commit_flush.
  destruct (dev_flush (device w)) as [d' r] eqn:Ef. cbn. split; [| done].
  split; cbn; try done; [| by eapply log_at_flush].
  by destruct Hst; split.
Qed.

(** [commit] makes the staged records the log's next block, unless the device
    refused the block; only its flush may still fail. *)
Lemma commit_spec w base bs staged :
  wal_inv w base bs staged -> group_open w = false ->
  match commit w with
  | (w', Ok _) =>
      exists bs', wal_inv w' base bs' [] /\ concat bs' = concat bs ++ staged /\
      bs' = bs ++ (if decide (staged = []) then [] else [staged])
  | (w', Err _) =>
      (wal_inv w' base bs staged /\ next_block w' = next_block w /\
       stage_len w' = stage_len w) \/
      (staged <> [] /\ wal_inv w' base (bs ++ [staged]) [] /\
       next_block w' = (next_block w + 1)%Z)
  end /\ group_open (commit w).1 = group_open w.
Proof.
  intros Hw Hg. unfold commit.
  pose proof (stage_nonempty w staged (inv_stage _ _ _ _ Hw)) as Hne.
  destruct (0 <? stage_len w)%nat eqn:E1; bool_lia.
  - apply Hne in E1. pose proof (write_stage_spec w base bs staged Hw E1 Hg) as Hws.
    destruct (write_stage w) as [w1 [[] | e]]; [| destruct Hws as (? & ? & ? & ?); auto].
    destruct Hws as (Hw1 & Hg1 & Hn1 & _).
    pose proof (commit_flush_spec w1 base (bs ++ [staged]) [] Hw1) as (H1 & H2 & H3 & _).
    destruct (commit_flush w1) as [w2 [[] | e]]; cbn [fst] in *; (split; [| congruence]).
    + exists (bs ++ [staged]). rewrite concat_app. cbn [concat]. rewrite app_nil_r.
      by rewrite decide_False.
    + right. split_and!; try done. lia.
  - assert (staged = []) as -> by (destruct (decide (staged = [])); [done | by apply Hne in n; lia]).
    pose proof (commit_flush_spec w base bs [] Hw) as (H1 & H2 & H3 & H4).
    destruct (commit_flush w) as [w2 [[] | e]]; cbn [fst] in *; (split; [| done]).
    + exists bs. rewrite decide_True, !app_nil_r by done. done.
    + left. done.
Qed.

(** Rolling back to a mark restores the stage of that mark. *)
Lemma truncate_stage_spec w base bs staged extra :
  wal_inv w base bs (staged ++ extra) -> closed staged ->
  wal_inv (truncate_stage w (length (recs_bytes staged))) base bs staged.
Proof.
  intros [[Hl Hb Hst Hsl Hok [Hs Hd] Hz] Hlog Hnext Hbl Hop Hseq Hend] Hc. unfold truncate_stage.
  rewrite recs_bytes_app in *. rewrite length_app in *.
  split; cbn [device next_block group_open]; try done.
  - split; cbn [stage stage_len dirty_to]; try done.
    + replace (take (length (recs_bytes staged)) (stage w))
        with (take (length (recs_bytes staged)) (take (stage_len w) (stage w)))
        by (rewrite take_take; f_equal; lia).
      rewrite Hst. by rewrite take_app_length.
    + by apply Forall_app in Hok as [? _].
    + split; [lia |]. cases_goal; lia.
    + eapply eq_rect; [exact Hz | f_equal]. cases_goal; bool_lia.
  - rewrite app_assoc in Hseq. revert Hseq. generalize (concat bs ++ staged). intros a.
    generalize (@None Z). induction a as [|x a IH]; intros last; cbn [app ascending]; [done |].
    intros [Hx Ha]. split; [done | by apply IH].
Qed.

Definition br_op_of (b : BatchRecord) : Op :=
  if op_eqb (br_op b) PutTtl then (if (br_expire_at b =? 0)%Z then Put else PutTtl) else br_op b.

(** The record a batch entry becomes. *)
Definition br_rec (b : BatchRecord) : Decoded :=
  rec_of (br_seq b) (br_op_of b) (br_key b) (br_val b)
    (if op_eqb (br_op b) PutTtl then br_expire_at b else 0%Z) false.

Definition br_ok (b : BatchRecord) : Prop :=
  input_ok (br_seq b) (br_key b) (br_val b) (br_expire_at b).

Lemma ascending_older last a r b :
  ascending last (a ++ r :: b) -> Forall (fun x => (d_seq x < d_seq r)%Z) a.
Proof.
  revert last. induction a as [|x a IH]; intros last; cbn [app ascending]; [constructor |].
  intros [Hx Ha]. constructor; [| by eapply IH].
  clear IH Hx last. revert x Ha. induction a as [|y a IH]; cbn [app ascending]; intros x [Hn Ha]; [done |].
  specialize (IH y Ha). cbn in Hn. lia.
Qed.

Lemma append_all_spec recs : forall w base bs staged n0,
  wal_inv w base bs staged -> group_open w = false -> Forall br_ok recs ->
  ascending None ((concat bs ++ staged) ++ map br_rec recs) ->
  let '(w', n, err) := append_all w recs n0 in
  exists k bs' staged',
    n = (n0 + k)%nat /\ (k <= length recs)%nat /\ (err = None <-> k = length recs) /\
    wal_inv w' base bs' staged' /\ group_open w' = false /\ bs `prefix_of` bs' /\
    concat bs' ++ staged' = (concat bs ++ staged) ++ take k (map br_rec recs).
Proof.
  induction recs as [|b recs IH]; intros w base bs staged n0 Hw Hg Hin Hasc; cbn [append_all].
  - exists 0%nat, bs, staged. cbn. rewrite app_nil_r. split_and!; (done || lia).
  - apply Forall_cons in Hin as [(Hsq & Hexp & Hk & Hv) Hin]. cbn [map] in Hasc.
    assert ((if op_eqb (br_op b) PutTtl
             then append_ttl w (br_seq b) (br_key b) (br_val b) (br_expire_at b)
             else append w (br_seq b) (br_op b) (br_key b) (br_val b)) =
            append_inner w (br_seq b) (br_op_of b) (br_key b) (br_val b)
              (if op_eqb (br_op b) PutTtl then br_expire_at b else 0%Z) false) as ->.
    { unfold append_ttl, append, br_op_of. by destruct (op_eqb (br_op b) PutTtl). }
    pose proof (append_inner_spec w base bs staged (br_seq b) (br_op_of b) (br_key b) (br_val b)
      (if op_eqb (br_op b) PutTtl then br_expire_at b else 0%Z) false Hw) as Happ.
    fold (br_rec b) in Happ.
    destruct (append_inner _ _ _ _ _ _ _) as [w' [[] | e]].
    + destruct Happ as (Hg' & Happ).
      { split_and!; try done. destruct (op_eqb _ _); [done | unfold fits; lia]. }
      { by eapply (ascending_older _ _ (br_rec b)). }
      assert (exists bs1 staged1, wal_inv w' base bs1 staged1 /\ bs `prefix_of` bs1 /\
        concat bs1 ++ staged1 = (concat bs ++ staged) ++ [br_rec b]) as (bs1 & st1 & Hw1 & Hpre & Hcat).
      { destruct Happ as [[H1 _] | (_ & H1 & _)].
        - exists bs, (staged ++ [br_rec b]). rewrite app_assoc. done.
        - exists (bs ++ [staged]), [br_rec b]. rewrite concat_app. cbn [concat]. rewrite app_nil_r.
          split_and!; try done. by apply prefix_app_r. }
      specialize (IH w' base bs1 st1 (n0 + 1)%nat Hw1 Hg' Hin).
      rewrite Hcat, <- app_assoc in IH. specialize (IH Hasc).
      destruct (append_all w' recs (n0 + 1)) as [[w2 n] err].
      destruct IH as (k & bs2 & st2 & -> & Hle & Herr & Hw2 & Hg2 & Hpre2 & Hcat2).
      exists (S k), bs2, st2. split_and!; try done; cbn [length map take]; try lia.
      * rewrite Herr. lia.
      * by etrans.
      * rewrite Hcat2. by rewrite <- app_assoc.
    + destruct Happ as (Hw' & Hg' & _).
      { split_and!; try done. destruct (op_eqb _ _); [done | unfold fits; lia]. }
      { by eapply (ascending_older _ _ (br_rec b)). }
      exists 0%nat, bs, staged. rewrite take_0, app_nil_r. split_and!; try (done || congruence || lia).
Qed.
End logging.

(** C25.  The batch contract, whatever the device does.  The report satisfies
    [durable <= consumed <= len], there is no error iff the whole batch is
    durable, and the log (blocks written since [base], then the stage) holds
    after the call exactly what it held before followed by the first
    [consumed] records of the batch: the others never reached it.  Durable
    records, and all staged before them, are in written blocks, and every
    block still holds whole groups only. *)
Theorem append_batch_contract {D E} `{Dev : !BlockDevice D E} {Laws : DeviceLaws D E}
  (w : WalWriter D) base bs staged (recs : list BatchRecord)
  (Hw : wal_inv w base bs staged) (Hg : group_open w = false) (Hin : Forall br_ok recs)
  (Hasc : ascending None ((concat bs ++ staged) ++ map br_rec recs)) :
  let '(w', rep) := append_batch w recs in
  (durable rep <= consumed rep <= length recs)%nat /\
  (report_error rep = None <-> durable rep = length recs) /\
  exists bs' staged', wal_inv w' base bs' staged' /\ group_open w' = false /\
    concat bs' ++ staged' = (concat bs ++ staged) ++ take (consumed rep) (map br_rec recs) /\
    (durable rep <> 0%nat -> staged' = []) /\ bs `prefix_of` bs'.
Proof.
  unfold append_batch. destruct recs as [|b recs].
  { cbn. split; [lia |]. split; [done |]. exists bs, staged. rewrite app_nil_r. done. }
  pose proof (append_all_spec (b :: recs) w base bs staged 0 Hw Hg Hin Hasc) as Hall.
  destruct (append_all w (b :: recs) 0) as [[w1 n] err].
  destruct Hall as (k & bs1 & st1 & -> & Hk & Herr & Hw1 & Hg1 & Hpre & Hcat).
  pose proof (commit_spec w1 base bs1 st1 Hw1 Hg1) as [Hc Hg2].
  destruct (commit w1) as [w2 [[] | e]]; cbn [fst] in Hg2; rewrite Hg1 in Hg2.
  - cbn [durable consumed report_error]. split; [lia |]. split; [rewrite Herr; lia |].
    destruct Hc as (bs2 & Hw2 & Hcat2 & ->). eexists _, []. rewrite app_nil_r.
    split_and!; try done; [rewrite Hcat2; exact Hcat | by apply prefix_app_r].
  - assert (exists bs2 st2, wal_inv w2 base bs2 st2 /\ bs1 `prefix_of` bs2 /\
      concat bs2 ++ st2 = concat bs1 ++ st1) as (bs2 & st2 & Hw2 & Hpre2 & Hcat2).
    { destruct Hc as [(H1 & _) | (_ & H1 & _)].
      - exists bs1, st1. done.
      - exists (bs1 ++ [st1]), []. rewrite concat_app. cbn [concat]. rewrite !app_nil_r.
        split_and!; try done. by apply prefix_app_r. }
    destruct (next_block w2 =? next_block w)%Z eqn:En; cbn [durable consumed report_error];
      (split; [cbn [length] in *; lia |]); (split; [cbn [length]; split; [done | lia] |]); bool_lia.
    + assert (bs2 = bs) as ->.
      { rewrite (inv_next _ _ _ _ Hw2), (inv_next _ _ _ _ Hw) in En.
        assert (bs `prefix_of` bs2) as [x ->] by (by etrans).
        rewrite length_app in En. assert (x = []) as -> by (apply nil_length_inv; lia).
        apply app_nil_r. }
      assert (st2 = staged ++ take k (map br_rec (b :: recs))) as ->.
      { apply (app_inv_head (concat bs)). by rewrite Hcat2, Hcat, app_assoc. }
      exists bs, staged. rewrite take_0, app_nil_r. split_and!; try done.
      rewrite (inv_stage_len _ _ (inv_stage _ _ _ _ Hw)).
      eapply truncate_stage_spec; [done |]. by apply (inv_open _ _ _ _ Hw).
    + exists bs2, st2. split_and!; try done; [rewrite Hcat2; exact Hcat | by etrans].
Qed.

(** ** Recovering the log *)

Definition zero_block {D E} `{Dev : !BlockDevice D E} : bytes := replicate BLOCK 0%Z.

(** The mutation a record replays as. *)
Definition rec_mut (r : Decoded) : mutation :=
  match d_op r with
  | RangeDelete => MRangeDel (d_key r) (d_val r) (d_seq r)
  | PutTtl => MInsertTtl (d_key r) (d_val r) (d_seq r) (d_expire_at r)
  | op => MInsert (d_key r) (d_val r) (d_seq r) (op_eqb op Delete)
  end.

Definition rec_entry (r : Decoded) : Entry := logged (rec_mut r).

Lemma rec_entry_seq r : seq (rec_entry r) = d_seq r.
Proof. unfold rec_entry, rec_mut. by destruct (d_op r). Qed.

Lemma log_bytes_app a b : log_bytes (a ++ b) = (log_bytes a + log_bytes b)%nat.
Proof. unfold log_bytes. induction a; cbn; [done | lia]. Qed.

Section replayed.
  Context {E : Type} {CAP ARENA KEY_MAX VAL_MAX : nat}.
  Hypothesis Hconsts : consts_ok CAP ARENA KEY_MAX VAL_MAX.

Lemma replay_record_run table r :
  replay_record (E := E) CAP ARENA KEY_MAX VAL_MAX table r =
  run_mutation (E := E) (CAP := CAP) (ARENA := ARENA) (KEY_MAX := KEY_MAX) (VAL_MAX := VAL_MAX)
    table (rec_mut r).
Proof. unfold replay_record, rec_mut. by destruct (d_op r). Qed.

(** The records, within the limits, fill the table in order. *)
Lemma replay_all_filled seq_floor rs : forall table log,
  filled E CAP ARENA KEY_MAX VAL_MAX table log ->
  Forall (fun r => (seq_floor < d_seq r)%Z) rs ->
  Forall (fun r => sizes_ok (KEY_MAX := KEY_MAX) (VAL_MAX := VAL_MAX) (rec_mut r)) rs ->
  (length log + length rs <= CAP)%nat ->
  (log_bytes log + log_bytes (map rec_entry rs) <= ARENA)%nat ->
  (forall e, e ∈ log -> Forall (fun r => (seq e < d_seq r)%Z) rs) ->
  ascending None rs ->
  exists table', replay_all (CAP := CAP) (ARENA := ARENA) (KEY_MAX := KEY_MAX)
                   (VAL_MAX := VAL_MAX) (E := E) seq_floor table rs = Ok table' /\
    filled E CAP ARENA KEY_MAX VAL_MAX table' (rev (map rec_entry rs) ++ log).
Proof.
  induction rs as [|r rs IH]; intros table log Hf Hfl Hsz Hcap Har Hold Hasc; [eauto |].
  apply Forall_cons in Hfl as [Hfl Hfls]. apply Forall_cons in Hsz as [Hsz Hszs].
  cbn [replay_all]. rewrite (proj2 (Z.ltb_lt _ _)) by done. rewrite replay_record_run.
  cbn [map length] in *. unfold log_bytes at 2 in Har. cbn [sum_list_with] in Har.
  fold (log_bytes (map rec_entry rs)) in Har.
  destruct (filled_inv Hconsts table log Hf) as (Hw & Hp & Hb).
  assert (len table = length log) as Hl by (by rewrite <- Hp, (length_iter table Hw)).
  assert (fits_table (CAP := CAP) (ARENA := ARENA) table (rec_mut r)) as Hfit
    by (unfold fits_table; unfold rec_entry in *; lia).
  pose proof (proj2 (run_mutation_ok (E := E) Hconsts table (rec_mut r) _)
    (conj Hsz (conj Hfit eq_refl))) as Hrun. rewrite Hrun.
  assert (forall e, e ∈ log -> (seq e < d_seq r)%Z) as Hlt.
  { intros e He. specialize (Hold e He). by apply Forall_cons in Hold as [? _]. }
  destruct (IH (applied table (rec_mut r)) (rec_entry r :: log)) as (t' & Ht' & Hf'); try done.
  - eapply filled_step; [done | | exact Hrun]. apply Forall_forall. intros e He.
    fold (rec_entry r). rewrite rec_entry_seq. auto.
  - cbn [length]. lia.
  - unfold log_bytes at 1. cbn [sum_list_with]. fold (log_bytes log). lia.
  - destruct Hasc as [_ Hasc].
    assert (Forall (fun x => (d_seq r < d_seq x)%Z) rs) as Hr.
    { clear -Hasc. revert Hasc. generalize (d_seq r). induction rs as [|x rs IH]; [constructor |].
      intros z [Hx Hrs]. cbn in Hx. constructor; [done |].
      eapply Forall_impl; [by apply IH |]. cbn. lia. }
    intros e [-> | He]%elem_of_cons; [by rewrite rec_entry_seq |].
    specialize (Hold e He). by apply Forall_cons in Hold as [_ ?].
  - destruct Hasc as [_ Hasc]. destruct rs; [done |]. cbn in *. tauto.
  - exists t'. split; [done |]. cbn [rev map]. by rewrite <- app_assoc.
Qed.
End replayed.

Section recovering.
  Context {D E : Type} `{Dev : !BlockDevice D E} {Laws : DeviceLaws D E}.

Lemma parsed_block_of b :
  Forall rec_ok b -> ascending None b -> parsed (block_of b) b false.
Proof.
  intros Hok Hasc. split; [done |]. split; [done |].
  eexists _. split; [reflexivity |]. split; [apply zeros_ok |]. right.
  rewrite scan_zeros; [done | apply zeros_ok | apply zeros_zero].
Qed.

Lemma tears_closed b : closed b -> tears b false = false.
Proof. unfold closed, tears. intros ->. cbn. apply Nat.ltb_irrefl. Qed.

Lemma live_count_all seq_floor rs :
  Forall (fun r => (seq_floor < d_seq r)%Z) rs ->
  live_count seq_floor rs = Z.of_nat (length rs).
Proof.
  induction 1 as [|r rs Hr _ IH]; [done |]. rewrite live_count_cons, IH.
  rewrite (proj2 (Z.ltb_lt _ _)) by done. cbn [length]. lia.
Qed.

Lemma has_live_all seq_floor rs :
  rs <> [] -> Forall (fun r => (seq_floor < d_seq r)%Z) rs -> has_live seq_floor rs = true.
Proof.
  intros Hne Hall. unfold has_live. rewrite live_count_all by done.
  destruct rs; [done |]. done.
Qed.

Lemma ascending_app_l last a b : ascending last (a ++ b) -> ascending last a.
Proof.
  revert last. induction a as [|x a IH]; intros last; cbn [app ascending]; [done |].
  intros [Hx Ha]. split; [done | by eapply IH].
Qed.

Lemma ascending_app_r last a b : ascending last (a ++ b) -> ascending None b.
Proof.
  revert last. induction a as [|x a IH]; intros last; cbn [app ascending].
  - destruct b; [done |]. cbn. tauto.
  - intros [_ Ha]. by eapply IH.
Qed.

(** The device has nothing of the log at [id]: the region ends there, or the
    block was never written. *)
Definition unwritten (d : D) (end_ id : u64) : Prop :=
  (end_ <= id)%Z \/ ((id < end_)%Z /\ read_block d id = Ok zero_block).

Lemma log_on_unwritten d end_ fl id nt mx :
  unwritten d end_ id -> log_on d end_ fl id nt mx [] 0.
Proof.
  intros [H | [H1 H2]]; [by apply log_region |].
  apply (log_old d end_ fl id nt mx zero_block [] false); try done; [| by right].
  split; [constructor |]. split; [done |]. exists zero_block. split; [done |].
  split; [apply zeros_ok |]. right. rewrite scan_zeros; [done | apply zeros_ok | apply zeros_zero].
Qed.

(** Written blocks are the log, followed by whatever the log is after them. *)
Lemma log_on_blocks d end_ fl bs : forall base mx g n,
  log_at d base bs -> Forall good_block bs -> ascending None (concat bs) ->
  Forall (fun r => (fl < d_seq r)%Z) (concat bs) ->
  bs = [] \/ (base + Z.of_nat (length bs) <= end_)%Z ->
  log_on d end_ fl (base + Z.of_nat (length bs)) None (max_seq_of mx (concat bs)) g n ->
  log_on d end_ fl base None mx (concat bs ++ g) (Z.of_nat (length bs) + n).
Proof.
  induction bs as [|b bs IH]; intros base mx g n Hlog Hgood Hasc Hfl Hend Htail.
  { cbn in *. by rewrite Z.add_0_r in Htail. }
  destruct Hend as [? | Hend]; [done |].
  cbn [concat log_at length] in *. destruct Hlog as [Hread Hlog].
  apply Forall_cons in Hgood as [(Hok & Hlen & Hne & Hc) Hgood].
  apply Forall_app in Hfl as [Hflb Hfl]. rewrite max_seq_of_app in Htail.
  pose proof (ascending_app_l _ _ _ Hasc) as Hascb. apply ascending_app_r in Hasc.
  replace (Z.of_nat (S (length bs)) + n)%Z with (Z.of_nat (length bs) + n + 1)%Z by lia.
  rewrite <- app_assoc. unfold closed in Hc. rewrite <- Hc at 1.
  assert (whole_groups b <> []) by (by rewrite Hc).
  apply (log_block d end_ fl base None mx (block_of b) b false); try done; [lia | | |].
  - by apply parsed_block_of.
  - right. rewrite Hc. by apply has_live_all.
  - rewrite tears_closed, Hc by done. apply IH; try done; [right; lia |].
    by replace (base + 1 + Z.of_nat (length bs))%Z with (base + Z.of_nat (S (length bs)))%Z by lia.
Qed.

(** A torn last block contributes its whole groups. *)
Lemma log_on_torn d end_ fl id mx b rs torn :
  (id < end_)%Z -> read_block d id = Ok b -> parsed b rs torn ->
  Forall (fun r => (fl < d_seq r)%Z) rs -> unwritten d end_ (id + 1) ->
  exists n, log_on d end_ fl id None mx (whole_groups rs) n.
Proof.
  intros Hid Hread Hp Hfl Hun. destruct (decide (whole_groups rs = [])) as [Hg | Hg].
  - exists 0%Z. rewrite Hg. apply (log_old d end_ fl id None mx b rs torn); auto.
  - exists (0 + 1)%Z. rewrite <- (app_nil_r (whole_groups rs)).
    apply (log_block d end_ fl id None mx b rs torn); try done; [| by apply log_on_unwritten].
    right. apply has_live_all; [done |]. destruct (whole_groups_prefix rs) as [x Hx].
    rewrite Hx in Hfl. by apply Forall_app in Hfl as [? _].
Qed.

(** What recovery leaves in the staging buffer is a block. *)
Lemma recover_loop_stage CAP ARENA KEY_MAX VAL_MAX fuel d st end_ from fl table state nt :
  length st = BLOCK -> bytes_ok st ->
  let st' := (recover_loop CAP ARENA KEY_MAX VAL_MAX fuel d st end_ from fl table state nt).1.1 in
  length st' = BLOCK /\ bytes_ok st'.
Proof.
  revert st table state nt. induction fuel as [|fuel IH]; intros st table state nt Hl Hb;
    cbn [recover_loop]; [done |]. cbv zeta.
  destruct (_ <=? _)%Z; [done |].
  destruct (read_block _ _) as [block | e] eqn:Er; [| done].
  destruct (read_len _ _ _ Er) as [Hl' Hb'].
  destruct (match nt with Some _ => _ | None => _ end); [done |].
  destruct (p_complete (pass1 block) =? 0)%nat; [done |].
  destruct (pass2_loop _ _ _ _ _ _ _ _ _ _ _ _ _ _) as [t' [[[mx recs] live] | e]]; [| done].
  destruct (_ && _); [done |]. by apply IH.
Qed.

(** Recovery from the log on the device, into an empty table that can hold it. *)
Lemma recover_from_spec {CAP ARENA KEY_MAX VAL_MAX} (w : WalWriter D) from fl g n :
  (512 <= BLOCK)%nat -> consts_ok CAP ARENA KEY_MAX VAL_MAX ->
  length (stage w) = BLOCK -> bytes_ok (stage w) ->
  log_on (device w) (wal_end w) fl from None 0 g n -> ascending None g ->
  Forall (fun r => (fl < d_seq r)%Z) g ->
  Forall (fun r => sizes_ok (KEY_MAX := KEY_MAX) (VAL_MAX := VAL_MAX) (rec_mut r)) g ->
  (length g <= CAP)%nat -> (log_bytes (map rec_entry g) <= ARENA)%nat ->
  exists w' table,
    recover_from CAP ARENA KEY_MAX VAL_MAX w (new CAP ARENA) from fl =
      (w', table, Ok (mkRecover (Z.of_nat (length g)) (max_seq_of 0 g) n)) /\
    filled E CAP ARENA KEY_MAX VAL_MAX table (rev (map rec_entry g)) /\
    stage_inv w' [] /\ group_open w' = false /\ next_block w' = (from + n)%Z /\
    device w' = device w /\ w_max_seq w' = max_seq_of 0 g.
Proof.
  intros Hmin Hc Hl Hb Hlog Hasc Hfl Hsz Hcap Har.
  destruct (replay_all_filled (E := E) Hc fl g (new CAP ARENA) []) as (table & Hrep & Hf);
    try done; [apply filled_new | by intros e He%elem_of_nil |].
  rewrite app_nil_r in Hf.
  destruct (recover_loop_spec _ _ _ _ _ _ _ _ Hmin Hlog (S (Z.to_nat (wal_end w - from)))
    (stage w) from (new CAP ARENA) table 0 0 ltac:(lia) ltac:(lia) Hrep) as [Ht Hr].
  destruct (recover_loop_stage CAP ARENA KEY_MAX VAL_MAX (S (Z.to_nat (wal_end w - from)))
    (device w) (stage w) (wal_end w) from fl (new CAP ARENA) (mkRecover 0 0 0) None Hl Hb) as [Hs1 Hs2].
  unfold recover_from. destruct (recover_loop _ _ _ _ _ _ _ _ _ _ _ _ _) as [[st t] r].
  cbn [fst snd] in *. subst t r. rewrite !Z.add_0_l, live_count_all by done.
  eexists _, table. split; [reflexivity |]. split; [done |].
  split; [| done]. split; cbn [stage stage_len dirty_to]; try done.
  - split; lia.
  - rewrite Nat.max_r by lia. rewrite drop_ge by lia. constructor.
Qed.
End recovering.

(** ** Histories of a writer *)

Section histories.
  Context {D E : Type} `{Dev : !BlockDevice D E} {Laws : DeviceLaws D E}.

(** [history start w acc]: from [WalWriter::new], any appends (accepted or
    refused, grouped or not) with increasing sequence numbers and commits
    between groups (successful or failed) led to [w], and [acc] are the
    accepted records in order. *)
Inductive history (start : u64) : WalWriter D -> list Decoded -> Prop :=
  | history_new d end_ : history start (wal_new d start end_) []
  | history_append w acc sq op k v exp more w' :
      history start w acc -> input_ok sq k v exp ->
      Forall (fun r => (d_seq r < sq)%Z) acc ->
      append_inner w sq op k v exp more = (w', Ok tt) ->
      history start w' (acc ++ [rec_of sq op k v exp more])
  | history_refused w acc sq op k v exp more w' e :
      history start w acc -> input_ok sq k v exp ->
      Forall (fun r => (d_seq r < sq)%Z) acc ->
      append_inner w sq op k v exp more = (w', Err e) ->
      history start w' acc
  | history_commit w acc w' r :
      history start w acc -> group_open w = false -> commit w = (w', r) ->
      history start w' acc.

Lemma wal_new_inv d start end_ : wal_inv (wal_new d start end_) start [] [].
Proof.
  split; cbn; try done; [| lia | by left].
  split; cbn; try done; [apply length_replicate | apply zeros_ok | lia |].
  rewrite drop_0. apply zeros_zero.
Qed.

Lemma history_inv start w acc :
  history start w acc ->
  exists bs staged, wal_inv w start bs staged /\ concat bs ++ staged = acc.
Proof.
  induction 1 as [d end_ | w acc sq op k v exp more w' _ (bs & st & Hw & <-) Hin Hold Happ
    | w acc sq op k v exp more w' e _ (bs & st & Hw & <-) Hin Hold Happ
    | w acc w' r _ (bs & st & Hw & <-) Hg Hc].
  - exists [], []. split; [apply wal_new_inv | done].
  - pose proof (append_inner_spec w start bs st sq op k v exp more Hw Hin Hold) as Hs.
    rewrite Happ in Hs. destruct Hs as (_ & [[Hs _] | (_ & Hs & _)]).
    + exists bs, (st ++ [rec_of sq op k v exp more]). by rewrite app_assoc.
    + exists (bs ++ [st]), [rec_of sq op k v exp more]. rewrite concat_app. cbn [concat].
      by rewrite app_nil_r.
  - pose proof (append_inner_spec w start bs st sq op k v exp more Hw Hin Hold) as Hs.
    rewrite Happ in Hs. exists bs, st. split; [apply Hs | done].
  - destruct (commit_spec w start bs st Hw Hg) as [Hs _]. rewrite Hc in Hs.
    destruct r as [[] | e].
    + destruct Hs as (bs' & Hw' & Hcat & _). exists bs', []. by rewrite app_nil_r.
    + destruct Hs as [(Hw' & _) | (_ & Hw' & _)]; [by exists bs, st |].
      exists (bs ++ [st]), []. rewrite concat_app. cbn [concat]. by rewrite !app_nil_r.
Qed.
End histories.

(** The limits of the table a log is replayed into. *)
Definition replayable (CAP ARENA KEY_MAX VAL_MAX : nat) (fl : u64) (rs : list Decoded) : Prop :=
  Forall (fun r => (fl < d_seq r)%Z) rs /\
  Forall (fun r => sizes_ok (KEY_MAX := KEY_MAX) (VAL_MAX := VAL_MAX) (rec_mut r)) rs /\
  (length rs <= CAP)%nat /\ (log_bytes (map rec_entry rs) <= ARENA)%nat.

(** C27.  Along any history, whatever failed, the blocks written and the stage
    hold exactly the accepted records in order; every block holds whole groups
    only, zero-padded. *)
Theorem wal_holds_history {D E} `{Dev : !BlockDevice D E} {Laws : DeviceLaws D E}
  start (w : WalWriter D) acc (Hh : history start w acc) :
  exists bs staged, concat bs ++ staged = acc /\
    log_at (device w) start bs /\ next_block w = (start + Z.of_nat (length bs))%Z /\
    Forall good_block bs /\
    take (stage_len w) (stage w) = recs_bytes staged /\ padded w = block_of staged.
Proof.
  destruct (history_inv start w acc Hh) as (bs & st & Hw & Hcat). exists bs, st.
  split_and!; [done | apply Hw.. | | by apply padded_block, Hw]. apply (inv_staged _ _), Hw.
Qed.

(** C24.  Durability: after a successful commit, a fresh writer that recovers
    from the start of the region replays exactly the accepted records, in
    order, into the memtable, and is positioned right behind them, with a clean
    stage; given that the block behind the log is unwritten (or the region ends there)
    and that the memtable can hold the records. *)
Theorem commit_then_recover {D E} `{Dev : !BlockDevice D E} {Laws : DeviceLaws D E}
  {CAP ARENA KEY_MAX VAL_MAX} start (w w' : WalWriter D) acc
  (Hmin : (512 <= BLOCK)%nat) (Hconsts : consts_ok CAP ARENA KEY_MAX VAL_MAX)
  (Hh : history start w acc) (Hg : group_open w = false)
  (Hcommit : commit w = (w', Ok tt))
  (Hafter : unwritten (device w') (wal_end w') (next_block w'))
  (Hfit : replayable CAP ARENA KEY_MAX VAL_MAX 0 acc) :
  exists r table n,
    recover CAP ARENA KEY_MAX VAL_MAX (wal_new (device w') start (wal_end w')) (new CAP ARENA) =
      (r, table, Ok (mkRecover (Z.of_nat (length acc)) (max_seq_of 0 acc) n)) /\
    filled E CAP ARENA KEY_MAX VAL_MAX table (rev (map rec_entry acc)) /\
    next_block r = next_block w' /\ stage_inv r [].
Proof.
  destruct (history_inv start w acc Hh) as (bs & st & Hw & Hcat).
  destruct (commit_spec w start bs st Hw Hg) as [Hs _]. rewrite Hcommit in Hs.
  destruct Hs as (bs' & Hw' & Hcat' & _). rewrite Hcat in Hcat'. rewrite <- Hcat' in *.
  destruct Hfit as (Hfl & Hsz & Hcap & Har). destruct Hw' as [_ Hlog Hnext Hgood _ Hseq Hend].
  rewrite app_nil_r in Hseq. rewrite Hnext in *.
  pose proof (log_on_blocks (device w') (wal_end w') 0 bs' start 0 [] 0 Hlog Hgood Hseq Hfl Hend
    (log_on_unwritten _ _ _ _ _ _ Hafter)) as Hl. rewrite app_nil_r, Z.add_0_r in Hl.
  destruct (recover_from_spec (wal_new (device w') start (wal_end w')) start 0 (concat bs')
    (Z.of_nat (length bs')) Hmin Hconsts) as (r & table & Hr & Hf & Hst & _ & Hn & _); try done.
  - apply length_replicate.
  - apply zeros_ok.
  - exists r, table, (Z.of_nat (length bs')). unfold recover. cbn [wal_start wal_new]. done.
Qed.

Lemma whole_groups_closed rs : closed (whole_groups rs).
Proof.
  unfold closed. induction rs as [|r rs IH]; cbn [whole_groups]; [done |].
  destruct (whole_groups rs) as [|g gs].
  - destruct (d_more r) eqn:Em; [done |]. cbn. by rewrite Em.
  - cbn [whole_groups] in *. by rewrite IH.
Qed.

Lemma sizes_prefix {CAP ARENA KEY_MAX VAL_MAX fl} a b :
  replayable CAP ARENA KEY_MAX VAL_MAX fl (a ++ b) -> replayable CAP ARENA KEY_MAX VAL_MAX fl a.
Proof.
  intros (H1 & H2 & H3 & H4). apply Forall_app in H1 as [? _]. apply Forall_app in H2 as [? _].
  rewrite map_app, log_bytes_app in H4. rewrite length_app in H3. split_and!; try done; lia.
Qed.

(** The content of a block whose in-place rewrite stopped after [m] bytes. *)
Definition torn_block (m : nat) (fresh old : bytes) : bytes := take m fresh ++ drop m old.

(** C13.  Crash atomicity: the write of the staged block tears after any number
    of bytes, over any older content, and its first [n] records landed.  What the tear
    left right behind them does not decode as a newer record ([stops]), the next block of
    the region is unwritten, and the memtable can hold the log with the whole stage.
    Recovery then replays the log before, followed by the longest run of whole groups
    among those [n] records: never part of a group, and nothing else. *)
Theorem torn_write_replays_whole_groups {D E} `{Dev : !BlockDevice D E}
  {Laws : DeviceLaws D E} {CAP ARENA KEY_MAX VAL_MAX} start (w : WalWriter D) d bs staged
  (m n : nat) (old : bytes) (torn : bool)
  (Hmin : (512 <= BLOCK)%nat) (Hconsts : consts_ok CAP ARENA KEY_MAX VAL_MAX)
  (Hw : wal_inv w start bs staged)
  (Hlog : log_at d start bs)
  (Hread : read_block d (next_block w) = Ok (torn_block m (block_of staged) old))
  (Hroom : (next_block w < wal_end w)%Z)
  (Hland : (length (recs_bytes (take n staged)) <= m <= BLOCK)%nat)
  (Htear : stops (last_of None (take n staged))
             (drop (length (recs_bytes (take n staged))) (torn_block m (block_of staged) old)) torn)
  (Hafter : unwritten d (wal_end w) (next_block w + 1))
  (Hfit : replayable CAP ARENA KEY_MAX VAL_MAX 0 (concat bs ++ staged)) :
  let g := concat bs ++ whole_groups (take n staged) in
  closed (whole_groups (take n staged)) /\ whole_groups (take n staged) `prefix_of` staged /\
  exists r table blocks,
    recover CAP ARENA KEY_MAX VAL_MAX (wal_new d start (wal_end w)) (new CAP ARENA) =
      (r, table, Ok (mkRecover (Z.of_nat (length g)) (max_seq_of 0 g) blocks)) /\
    filled E CAP ARENA KEY_MAX VAL_MAX table (rev (map rec_entry g)).
Proof.
  intros g. split; [apply whole_groups_closed |].
  destruct (whole_groups_prefix (take n staged)) as [x Hx].
  assert (exists y, staged = whole_groups (take n staged) ++ y) as [y Hy].
  { exists (x ++ drop n staged). by rewrite app_assoc, <- Hx, take_drop. }
  split; [by exists y |].
  destruct Hw as [Hst _ Hnext Hgood _ Hseq Hend].
  assert (replayable CAP ARENA KEY_MAX VAL_MAX 0 g) as (Hfl & Hsz & Hcap & Har).
  { rewrite Hy, app_assoc in Hfit. by apply sizes_prefix in Hfit. }
  assert (ascending None g) as Hasc.
  { rewrite Hy, app_assoc in Hseq. by apply ascending_app_l in Hseq. }
  assert (Forall (fun r => (0 < d_seq r)%Z) (take n staged)) as Hfl'.
  { destruct Hfit as (H & _). apply Forall_app in H as [_ H]. by apply Forall_take. }
  destruct (read_len _ _ _ Hread) as [Hlen Hok].
  assert (parsed (torn_block m (block_of staged) old) (take n staged) torn) as Hp.
  { split; [apply Forall_take, (inv_ok _ _ Hst) |]. split.
    - apply ascending_app_r in Hseq. rewrite <- (take_drop n staged) in Hseq.
      by apply ascending_app_l in Hseq.
    - eexists. split; [| split; [| exact Htear]]; [| by apply Forall_drop].
      rewrite <- (take_drop (length (recs_bytes (take n staged))) (torn_block _ _ _)) at 1.
      f_equal. unfold torn_block, block_of. rewrite <- (take_drop n staged) at 2 3.
      rewrite recs_bytes_app, <- app_assoc.
      rewrite take_app_le by (rewrite length_take, !length_app; lia).
      rewrite take_take, Nat.min_l by lia. by rewrite take_app_length. }
  destruct (log_on_torn d (wal_end w) 0 (next_block w) (max_seq_of 0 (concat bs)) _ _ _ Hroom Hread
    Hp Hfl' Hafter) as [k Hk]. rewrite Hnext in Hk.
  assert (Forall (fun r => (0 < d_seq r)%Z) (concat bs)) as Hflb
    by (by apply Forall_app in Hfl as [? _]).
  rewrite Hnext in Hend.
  pose proof (log_on_blocks d (wal_end w) 0 bs start 0 _ _ Hlog Hgood (ascending_app_l _ _ _ Hasc)
    Hflb Hend Hk) as Hl.
  destruct (recover_from_spec (wal_new d start (wal_end w)) start 0 g
    (Z.of_nat (length bs) + k) Hmin Hconsts) as (r & table & Hr & Hf & _); try done.
  - apply length_replicate.
  - apply zeros_ok.
  - by exists r, table, (Z.of_nat (length bs) + k)%Z.
Qed.

Lemma log_on_exists {D E} `{Dev : !BlockDevice D E} {Laws : DeviceLaws D E} d end_ fl :
  (forall id, is_ok (read_block d id) = true) ->
  forall id nt mx, exists g n, log_on d end_ fl id nt mx g n.
Proof.
  intros Hread id. remember (Z.to_nat (end_ - id)) as k eqn:Hk. revert id Hk.
  induction k as [|k IH]; intros id Hk nt mx.
  { exists [], 0%Z. apply log_region. lia. }
  assert (id < end_)%Z as Hid by lia.
  destruct (read_block d id) as [b | e] eqn:Er; [| by specialize (Hread id); rewrite Er in Hread].
  destruct (read_len _ _ _ Er) as [_ Hb]. destruct (parsed_total b Hb) as (rs & torn & Hp).
  destruct (outdated nt rs) eqn:Eo; [by eexists [], 0%Z; eapply log_old; eauto |].
  destruct (decide (whole_groups rs = [])); [by eexists [], 0%Z; eapply log_old; eauto |].
  destruct (IH (id + 1)%Z ltac:(lia)
    (if tears rs torn then Some (max_seq_of mx (whole_groups rs)) else None)
    (max_seq_of mx (whole_groups rs))) as (g & m & Hg).
  destruct (tears rs torn) eqn:Et; [| destruct (has_live fl (whole_groups rs)) eqn:El].
  - exists (whole_groups rs ++ g), (m + 1)%Z. eapply log_block; eauto. by rewrite Et.
  - exists (whole_groups rs ++ g), (m + 1)%Z. eapply log_block; eauto. by rewrite Et.
  - exists (whole_groups rs), 0%Z. by eapply log_stale.
Qed.

(** The loop reports a device error only when a block of the region could not be read. *)
Lemma pass2_loop_error {E} CAP ARENA KEY_MAX VAL_MAX fuel : forall b id fl at_ complete table mx recs live t e,
  pass2_loop (E := E) CAP ARENA KEY_MAX VAL_MAX fuel b id fl at_ complete table mx recs live = (t, Err e) ->
  e = CorruptWal id.
Proof.
  induction fuel as [|fuel IH]; intros b id fl at_ complete table mx recs live t e; cbn [pass2_loop]; [done |].
  destruct (_ <=? _)%nat; [done |]. destruct (scan_record _); [| congruence.. ].
  destruct (_ <? _)%Z; [| apply IH]. destruct (replay_record _ _ _ _ _ _); [apply IH | congruence].
Qed.

Lemma recover_loop_error {D E} `{Dev : !BlockDevice D E} CAP ARENA KEY_MAX VAL_MAX fuel :
  forall d stage end_ from fl table st nt stage' table' e,
  recover_loop CAP ARENA KEY_MAX VAL_MAX fuel d stage end_ from fl table st nt = (stage', table', Err e) ->
  (0 <= blocks_used st)%Z ->
  exists id, (from <= id < end_)%Z /\
    (e = CorruptWal id \/ exists de, e = Device de /\ read_block d id = Err de).
Proof.
  induction fuel as [|fuel IH]; intros d stage end_ from fl table st nt stage' table' e; cbn [recover_loop]; [done |].
  cbv zeta. destruct (end_ <=? _)%Z eqn:Ee; [done |]. bool_lia. intros H Hu.
  destruct (read_block d _) as [b | de] eqn:Er; [| injection H as <- <- <-; eexists; split; [| right; by eexists]; lia].
  destruct (match nt with Some _ => _ | None => _ end); [done |]. destruct (_ =? 0)%nat; [done |].
  destruct (pass2_loop _ _ _ _ _ _ _ _ _ _ _ _ _ _) as [t [[[mx recs] live] | e2]] eqn:E2.
  - destruct (_ && _); [done |]. eapply IH in H as (id & Hid & Hx); [by exists id |]. cbn. lia.
  - injection H as <- <- <-. eexists. split; [| left; by eapply pass2_loop_error]. lia.
Qed.


(** ** Witnesses *)

Module WalWitness.
#[local] Instance dev : BlockDevice MemDisk.disk Empty_set := MemDisk.device 512.
#[local] Instance dev_laws : DeviceLaws MemDisk.disk Empty_set := MemDisk.laws 512.

Definition ex_rec : Decoded := rec_of 7 PutTtl [97%Z] [1%Z; 2%Z] 300 true.

Lemma ex_rec_ok : rec_ok ex_rec.
Proof. apply rec_of_ok; try by_compute; vm_compute; discriminate. Qed.

Lemma wal_record_roundtrip_witness :
  decode_record
    (encode_record (replicate 40 9%Z) 7 PutTtl true [97%Z] 1 [1%Z; 2%Z] 2 (to_le 8 300)).1 =
  Some ex_rec.
Proof.
  pose proof (wal_record_roundtrip (replicate 40 9%Z) ex_rec ex_rec_ok ltac:(by_compute)) as H.
  change (Z.of_nat (length (d_key ex_rec))) with 1%Z in H.
  change (Z.of_nat (length (d_val ex_rec))) with 2%Z in H.
  change (extra_of ex_rec) with (to_le 8 300) in H.
  change (d_seq ex_rec) with 7%Z in H. change (d_op ex_rec) with PutTtl in H.
  change (d_more ex_rec) with true in H. change (d_key ex_rec) with [97%Z] in H.
  change (d_val ex_rec) with [1%Z; 2%Z] in H.
  destruct (encode_record _ _ _ _ _ _ _ _ _) as [out' n]. apply H.
Defined.

Lemma wal_decode_exact_witness : decode_record (rec_bytes ex_rec ++ [5%Z]) = Some ex_rec.
Proof.
  apply (wal_decode_exact (rec_bytes ex_rec ++ [5%Z]) ex_rec).
  - by_compute.
  - split; [exact ex_rec_ok | by exists [5%Z]].
Defined.

(** One bit of the sequence number and one of the value size flipped. *)
Definition ex_bad : bytes :=
  to_le 34 (Z.lxor (from_le (rec_bytes ex_rec)) (Z.shiftl 0x80000001 104)).

Lemma wal_burst_rejected_witness : decode_record ex_bad = None.
Proof.
  apply (wal_burst_rejected ex_rec [] ex_bad 0x80000001 104 ex_rec_ok).
  - constructor.
  - by_compute.
  - split; [reflexivity |]. split; [lia |]. vm_compute. reflexivity.
  - lia.
  - vm_compute. discriminate.
Defined.

(** A group of two records, then its commit, on an empty disk. *)
Definition ex_w0 : WalWriter MemDisk.disk := wal_new ∅ 2 6.
Definition ex_w1 := (append_inner ex_w0 1 Put [97%Z] [1%Z] 0 true).1.
Definition ex_w2 := (append_inner ex_w1 2 Delete [98%Z] [9%Z] 0 false).1.
Definition ex_w3 := (commit ex_w2).1.
Definition ex_acc : list Decoded :=
  [rec_of 1 Put [97%Z] [1%Z] 0 true; rec_of 2 Delete [98%Z] [9%Z] 0 false].

Lemma pair_snd {A B} (p : A * B) b : p.2 = b -> p = (p.1, b).
Proof. destruct p. cbn. congruence. Qed.

Lemma ex_history : history 2 ex_w2 ex_acc.
Proof.
  apply (history_append 2 ex_w1 [rec_of 1 Put [97%Z] [1%Z] 0 true]).
  - apply (history_append 2 ex_w0 []).
    + apply history_new.
    + unfold input_ok. by_compute.
    + constructor.
    + apply pair_snd. vm_compute. reflexivity.
  - unfold input_ok. by_compute.
  - repeat constructor.
  - apply pair_snd. vm_compute. reflexivity.
Qed.

Lemma ex_replayable : replayable 8 64 4 4 0 ex_acc.
Proof.
  split; [repeat constructor |].
  split; [repeat constructor; cbn; lia | split; vm_compute; lia].
Qed.

Lemma wal_holds_history_witness :
  exists bs staged, concat bs ++ staged = ex_acc /\ padded ex_w2 = block_of staged.
Proof.
  destruct (wal_holds_history 2 ex_w2 ex_acc ex_history) as (bs & st & H1 & _ & _ & _ & _ & H2).
  exists bs, st. split; [exact H1 | exact H2].
Defined.

Lemma commit_then_recover_witness :
  exists table, filled Empty_set 8 64 4 4 table (rev (map rec_entry ex_acc)) /\
    (recover 8 64 4 4 (wal_new (device ex_w3) 2 6) (new 8 64)).1.2 = table.
Proof.
  destruct (commit_then_recover (CAP := 8) (ARENA := 64) (KEY_MAX := 4) (VAL_MAX := 4)
    2 ex_w2 ex_w3 ex_acc) as (r & table & n & Hr & Hf & _).
  - cbn. lia.
  - exact ex_consts.
  - exact ex_history.
  - vm_compute. reflexivity.
  - apply pair_snd. vm_compute. reflexivity.
  - right. split; vm_compute; reflexivity.
  - exact ex_replayable.
  - exists table. split; [exact Hf |]. change (wal_end ex_w3) with 6%Z in Hr. by rewrite Hr.
Defined.


Definition ex_batch : list BatchRecord :=
  [mkBatchRecord 3 Put [99%Z] [4%Z] 0; mkBatchRecord 4 PutTtl [97%Z] [5%Z] 77].

Lemma append_batch_contract_witness :
  let '(w', rep) := append_batch ex_w3 ex_batch in
  durable rep = 2%nat /\ report_error rep = None.
Proof.
  destruct (history_inv 2 ex_w3 ex_acc) as (bs & st & Hw & Hcat).
  { eapply history_commit; [exact ex_history | vm_compute; reflexivity | apply surjective_pairing]. }
  pose proof (append_batch_contract ex_w3 2 bs st ex_batch Hw ltac:(vm_compute; reflexivity)) as H.
  rewrite Hcat in H. specialize (H ltac:(repeat constructor; by_compute)).
  specialize (H ltac:(vm_compute; tauto)).
  assert ((append_batch ex_w3 ex_batch).2 = mkReport 2 2 None) as Hrep by (vm_compute; reflexivity).
  destruct (append_batch ex_w3 ex_batch) as [w' rep]. cbn in Hrep. subst rep.
  destruct H as (_ & Herr & _). split; [reflexivity | by apply Herr].
Defined.

(** The crash: the block of [ex_w2] tears inside its second record. *)
Definition ex_torn : MemDisk.disk :=
  <[2%Z := torn_block 30 (block_of ex_acc) zero_block]> ∅.

Lemma torn_write_replays_whole_groups_witness :
  whole_groups (take 1 ex_acc) = [] /\
  exists table, filled Empty_set 8 64 4 4 table [] /\
    (recover 8 64 4 4 (wal_new ex_torn 2 6) (new 8 64)).1.2 = table.
Proof.
  destruct (history_inv 2 ex_w2 ex_acc ex_history) as (bs & st & Hw & Hcat).
  assert (bs = []) as ->.
  { pose proof (inv_next _ _ _ _ Hw) as Hn. change (next_block ex_w2) with 2%Z in Hn.
    destruct bs; [reflexivity | cbn in Hn; lia]. }
  cbn in Hcat. subst st.
  destruct (torn_write_replays_whole_groups (CAP := 8) (ARENA := 64) (KEY_MAX := 4)
    (VAL_MAX := 4) 2 ex_w2 ex_torn [] ex_acc 30 1 zero_block true) as (_ & _ & r & table & n & Hr & Hf).
  - cbn. lia.
  - exact ex_consts.
  - exact Hw.
  - exact I.
  - vm_compute. reflexivity.
  - vm_compute. reflexivity.
  - vm_compute. lia.
  - right. vm_compute. reflexivity.
  - right. split; vm_compute; reflexivity.
  - exact ex_replayable.
  - split; [reflexivity |]. exists table. split; [exact Hf |].
    change (wal_end ex_w2) with 6%Z in Hr. by rewrite Hr.
Defined.
End WalWitness.
