(* ===== verification/Batch.v ===== *)
(** * Write batches: [src/batch.rs]

    A fixed array of operations, each with inline key and value storage that is
    reused without being cleared.  The specification is the list of queued
    operations. *)

From stdpp Require Import base numbers list.
From Stdlib Require Import ZArith Lia.
From S2P Require Import Prelude Device Memtable Wal.

(** ** The code *)

Record BatchOp := mkOp {
  bo_kind : Op;
  bo_key_len : u16;
  bo_key : bytes;
  bo_val_len : u16;
  bo_val : bytes;
  bo_expire_at : u64;
}.

Record WriteBatch := mkBatch {
  wb_ops : list BatchOp;
  wb_len : nat;
}.

(** [BatchOp::key], [BatchOp::val] *)
Definition op_key (o : BatchOp) : bytes := take (Z.to_nat (bo_key_len o)) (bo_key o).
Definition op_val (o : BatchOp) : bytes := take (Z.to_nat (bo_val_len o)) (bo_val o).

Section batch.
  Variables KEY_MAX VAL_MAX OPS : nat.

Definition empty_op : BatchOp :=
  mkOp Put 0 (replicate KEY_MAX 0%Z) 0 (replicate VAL_MAX 0%Z) 0.

Definition batch_new : WriteBatch := mkBatch (replicate OPS empty_op) 0.

Definition batch_is_empty (b : WriteBatch) : bool := (wb_len b =? 0)%nat.

Definition batch_clear (b : WriteBatch) : WriteBatch := mkBatch (wb_ops b) 0.

Definition ops (b : WriteBatch) : list BatchOp := take (wb_len b) (wb_ops b).

(** The body of [push] once every check passed: [slot] is the reused slot. *)
Definition fill_slot (slot : BatchOp) (kind : Op) (key : bytes) (key_len : u16) (vlen : nat)
    (val : bytes) (val_len : u16) (expire_at : u64) : BatchOp :=
  mkOp kind key_len (splice 0 key (bo_key slot)) val_len (splice 0 (take vlen val) (bo_val slot))
    expire_at.

Definition push (b : WriteBatch) (kind : Op) (key val : bytes) (expire_at : u64)
  : result WriteBatch (Error Empty_set) :=
  if (OPS <=? wb_len b)%nat then Err BatchFull
  else if (length key =? 0)%nat then Err EmptyKey
  else
    match try_u16 (length key) with
    | None => Err (KeyTooLarge (length key) (Z.to_nat U16_MAX))
    | Some key_len =>
        if (KEY_MAX <? length key)%nat then Err (KeyTooLarge (length key) KEY_MAX)
        else
          let vlen := if op_eqb kind Delete then 0%nat else length val in
          match try_u16 vlen with
          | None => Err (ValueTooLarge vlen (Z.to_nat U16_MAX))
          | Some val_len =>
              if (VAL_MAX <? vlen)%nat then Err (ValueTooLarge vlen VAL_MAX)
              else
                let slot := nth (wb_len b) (wb_ops b) empty_op in
                let slot := fill_slot slot kind key key_len vlen val val_len expire_at in
                Ok (mkBatch (<[wb_len b := slot]> (wb_ops b)) (wb_len b + 1))
          end
    end.

Definition batch_put (b : WriteBatch) (key val : bytes) := push b Put key val 0.

Definition batch_delete (b : WriteBatch) (key : bytes) := push b Delete key [] 0.

Definition batch_put_ttl (b : WriteBatch) (key val : bytes) (expire_at : u64) :=
  let kind := if (expire_at =? 0)%Z then Put else PutTtl in
  push b kind key val expire_at.

Definition batch_range_delete (b : WriteBatch) (start end_ : bytes)
  : result WriteBatch (Error Empty_set) :=
  if bytes_leb end_ start then Ok b
  else if (KEY_MAX <? length end_)%nat then Err (KeyTooLarge (length end_) KEY_MAX)
  else push b RangeDelete start end_ 0.

(** ** Specification: the list of queued operations *)

Record queued := mkQueued { q_kind : Op; q_key : bytes; q_val : bytes; q_expire : u64 }.

Definition view (b : WriteBatch) : list queued :=
  map (fun o => mkQueued (bo_kind o) (op_key o) (op_val o) (bo_expire_at o)) (ops b).

(** The operations a batch accepts. *)
Definition acceptable (kind : Op) (key val : bytes) : Prop :=
  (0 < length key <= KEY_MAX)%nat /\ (Z.of_nat (length key) <= U16_MAX)%Z /\
  (kind = Delete \/ (length val <= VAL_MAX)%nat /\ (Z.of_nat (length val) <= U16_MAX)%Z).

Record wf_batch (b : WriteBatch) : Prop := {
  wb_cap : length (wb_ops b) = OPS;
  wb_room : (wb_len b <= OPS)%nat;
  wb_storage : Forall (fun o => length (bo_key o) = KEY_MAX /\ length (bo_val o) = VAL_MAX) (wb_ops b);
}.

Inductive batch_call :=
  | CPush (kind : Op) (key val : bytes) (exp : u64)
  | CPut (key val : bytes)
  | CDelete (key : bytes)
  | CPutTtl (key val : bytes) (exp : u64)
  | CRangeDelete (start end_ : bytes).

Definition run_call (b : WriteBatch) (c : batch_call) : result WriteBatch (Error Empty_set) :=
  match c with
  | CPush kind key val exp => push b kind key val exp
  | CPut key val => batch_put b key val
  | CDelete key => batch_delete b key
  | CPutTtl key val exp => batch_put_ttl b key val exp
  | CRangeDelete s e => batch_range_delete b s e
  end.

(** The operation a call queues; an empty range queues nothing. *)
Definition call_op (c : batch_call) : option queued :=
  match c with
  | CPush kind key val exp => Some (mkQueued kind key (if op_eqb kind Delete then [] else val) exp)
  | CPut key val => Some (mkQueued Put key val 0)
  | CDelete key => Some (mkQueued Delete key [] 0)
  | CPutTtl key val exp =>
      Some (mkQueued (if (exp =? 0)%Z then Put else PutTtl) key val exp)
  | CRangeDelete s e => if bytes_leb e s then None else Some (mkQueued RangeDelete s e 0)
  end.

Definition call_acceptable (c : batch_call) : Prop :=
  match call_op c with
  | None => True
  | Some q => acceptable (q_kind q) (q_key q) (q_val q) /\
              (q_kind q = RangeDelete -> match c with CRangeDelete _ e => (length e <= KEY_MAX)%nat | _ => True end)
  end.
End batch.

Section proofs.
  Context {KEY_MAX VAL_MAX OPS : nat}.

Lemma batch_new_wf : wf_batch KEY_MAX VAL_MAX OPS (batch_new KEY_MAX VAL_MAX OPS).
Proof.
  split; cbn; [apply length_replicate | lia |].
  apply Forall_replicate. cbn. by rewrite !length_replicate.
Qed.

Lemma length_view b : wf_batch KEY_MAX VAL_MAX OPS b -> length (view b) = wb_len b.
Proof. intros []. unfold view, ops. rewrite length_map, length_take. lia. Qed.

(** A filled slot reads back what was queued, whatever it held before. *)
Lemma fill_slot_view slot kind key vlen val exp :
  (length key <= length (bo_key slot))%nat -> (vlen <= length val)%nat ->
  (vlen <= length (bo_val slot))%nat ->
  let o := fill_slot slot kind key (Z.of_nat (length key)) vlen val (Z.of_nat vlen) exp in
  op_key o = key /\ op_val o = take vlen val /\
  length (bo_key o) = length (bo_key slot) /\ length (bo_val o) = length (bo_val slot).
Proof.
  intros Hk Hv Hs. unfold op_key, op_val, fill_slot.
  cbn [bo_key bo_val bo_key_len bo_val_len]. rewrite !Nat2Z.id.
  rewrite !length_splice by (rewrite ?length_take; lia). unfold splice. rewrite !take_0, !app_nil_l.
  split_and!; try done; apply take_app_length'; rewrite ?length_take; lia.
Qed.

Lemma insert_end {A} (l : list A) n x :
  (n < length l)%nat -> take (n + 1) (<[n := x]> l) = take n l ++ [x].
Proof.
  intros Hn. rewrite insert_take_drop by done.
  rewrite take_app, length_take, (take_ge (take n l)) by (rewrite length_take; lia).
  f_equal. replace (n + 1 - n `min` length l)%nat with 1%nat by lia. done.
Qed.

Lemma push_spec b kind key val exp :
  wf_batch KEY_MAX VAL_MAX OPS b ->
  match push KEY_MAX VAL_MAX OPS b kind key val exp with
  | Ok b' =>
      wf_batch KEY_MAX VAL_MAX OPS b' /\
      view b' = view b ++ [mkQueued kind key (if op_eqb kind Delete then [] else val) exp] /\
      acceptable KEY_MAX VAL_MAX kind key val /\ (length (view b) < OPS)%nat
  | Err _ => ~ (acceptable KEY_MAX VAL_MAX kind key val /\ (length (view b) < OPS)%nat)
  end.
Proof.
  intros Hw. rewrite (length_view b Hw). destruct Hw as [Hcap Hroom Hst]. unfold push, acceptable.
  destruct (OPS <=? wb_len b)%nat eqn:E1; bool_lia.
  destruct (length key =? 0)%nat eqn:E2; bool_lia.
  destruct (try_u16 (length key)) as [kl |] eqn:E3.
  2: { unfold try_u16 in E3. destruct (_ <=? _)%Z eqn:E3'; [done |]. bool_lia. }
  apply try_u16_Some in E3 as [-> Hkl].
  destruct (KEY_MAX <? length key)%nat eqn:E4; bool_lia. cbv zeta.
  set (vlen := if op_eqb kind Delete then 0%nat else length val).
  assert (kind = Delete \/ vlen = length val) as Hvl.
  { unfold vlen, op_eqb. case_bool_decide; auto. }
  destruct (try_u16 vlen) as [vl |] eqn:E5.
  2: { unfold try_u16 in E5. destruct (_ <=? _)%Z eqn:E5'; [done |]. bool_lia.
       unfold vlen, op_eqb, U16_MAX in *. intros [(_ & _ & [Hd | [_ H]]) _].
       - rewrite bool_decide_eq_true_2 in E5' by done. lia.
       - case_bool_decide; lia. }
  apply try_u16_Some in E5 as [-> Hv16].
  destruct (VAL_MAX <? vlen)%nat eqn:E6; bool_lia.
  { unfold vlen, op_eqb in E6. intros [(_ & _ & [Hd | [H _]]) _].
    - rewrite bool_decide_eq_true_2 in E6 by done. lia.
    - case_bool_decide; lia. }
  set (slot := nth (wb_len b) (wb_ops b) (empty_op KEY_MAX VAL_MAX)).
  assert (length (bo_key slot) = KEY_MAX /\ length (bo_val slot) = VAL_MAX) as [Hsk Hsv].
  { apply (Forall_nth (fun o => length (bo_key o) = KEY_MAX /\ length (bo_val o) = VAL_MAX)
      _ (wb_ops b)); [done | lia]. }
  assert (vlen <= length val)%nat as Hle by (unfold vlen; destruct (op_eqb _ _); lia).
  destruct (fill_slot_view slot kind key vlen val exp) as (Hok & Hov & Hlk & Hlv); [lia.. |].
  set (o := fill_slot _ _ _ _ _ _ _ _) in *.
  split; [| split; [| split; [split_and!; try lia |]]].
  - split; cbn; [by rewrite length_insert | lia |].
    apply Forall_insert; [done | split; congruence].
  - unfold view, ops. cbn [wb_len wb_ops]. rewrite insert_end by lia. rewrite map_app. cbn [map].
    rewrite Hok, Hov. repeat f_equal. unfold vlen, op_eqb. case_bool_decide; [done | apply firstn_all].
  - destruct Hvl as [? | Hvl]; [by left | right]. rewrite <- Hvl. done.
  - lia.
Qed.
End proofs.

(** A batch is the list of its queued operations: a new or cleared batch is
    empty; a call is accepted exactly when its sizes are within the limits and a
    slot is free, and then appends exactly its operation (deletes without a
    value), bytes left by earlier use of the slot never showing through; an
    empty range is accepted and queues nothing. *)
Theorem batch_refines_queue {KEY_MAX VAL_MAX OPS} (b : WriteBatch) (c : batch_call)
  (Hw : wf_batch KEY_MAX VAL_MAX OPS b) :
  (wf_batch KEY_MAX VAL_MAX OPS (batch_new KEY_MAX VAL_MAX OPS) /\
   view (batch_new KEY_MAX VAL_MAX OPS) = []) /\
  (wf_batch KEY_MAX VAL_MAX OPS (batch_clear b) /\ view (batch_clear b) = []) /\
  batch_is_empty b = (length (view b) =? 0)%nat /\
  match run_call KEY_MAX VAL_MAX OPS b c with
  | Ok b' =>
      wf_batch KEY_MAX VAL_MAX OPS b' /\ view b' = view b ++ option_list (call_op c) /\
      call_acceptable KEY_MAX VAL_MAX c
  | Err _ => ~ (call_acceptable KEY_MAX VAL_MAX c /\ (length (view b) < OPS)%nat)
  end.
Proof.
  split; [split; [apply batch_new_wf | done] |].
  split; [split; [by split; cbn; [apply Hw | lia | apply Hw] | done] |].
  split; [unfold batch_is_empty; by rewrite (length_view b Hw) |].
  unfold call_acceptable.
  destruct c as [kind key val exp | key val | key | key val exp | s e];
    cbn [run_call call_op q_kind q_key q_val].
  - pose proof (push_spec b kind key val exp Hw) as Hp.
    destruct (push _ _ _ _ _ _ _ _); cbn [option_list].
    + destruct Hp as (H1 & H2 & H3 & _). split_and!; try done.
      unfold op_eqb. case_bool_decide; [subst | done]. destruct H3 as (? & ? & _).
      split_and!; try done; [lia.. | by left].
    + intros [[Ha _] Hl]. apply Hp. split; [| done]. destruct Ha as (? & ? & Ha).
      split_and!; try done; [lia.. |]. unfold op_eqb in Ha. case_bool_decide; [by left | done].
  - pose proof (push_spec b Put key val 0 Hw) as Hp. unfold batch_put.
    destruct (push _ _ _ _ _ _ _ _); [| tauto]. destruct Hp as (? & ? & ? & _). done.
  - pose proof (push_spec b Delete key [] 0 Hw) as Hp. unfold batch_delete.
    destruct (push _ _ _ _ _ _ _ _); [| tauto]. destruct Hp as (? & ? & ? & _). done.
  - unfold batch_put_ttl. cbv zeta.
    pose proof (push_spec b (if (exp =? 0)%Z then Put else PutTtl) key val exp Hw) as Hp.
    destruct (exp =? 0)%Z; (destruct (push _ _ _ _ _ _ _ _); [| tauto]);
      destruct Hp as (? & ? & ? & _); done.
  - unfold batch_range_delete. destruct (bytes_leb e s); cbn [option_list q_kind q_key q_val].
    { by rewrite app_nil_r. }
    destruct (KEY_MAX <? length e)%nat eqn:Ee; bool_lia.
    { intros [[_ H] _]. specialize (H eq_refl). lia. }
    pose proof (push_spec b RangeDelete s e 0 Hw) as Hp.
    destruct (push _ _ _ _ _ _ _ _); [| tauto]. destruct Hp as (? & ? & ? & _). done.
Qed.

Lemma batch_refines_queue_witness :
  exists b', batch_put_ttl 4 4 2 (batch_new 4 4 2) [97%Z] [1%Z] 9 = Ok b' /\
    view b' = [mkQueued PutTtl [97%Z] [1%Z] 9].
Proof.
  pose proof (batch_refines_queue (KEY_MAX := 4) (VAL_MAX := 4) (OPS := 2) (batch_new 4 4 2)
    (CPutTtl [97%Z] [1%Z] 9) batch_new_wf) as (_ & _ & _ & H).
  unfold run_call in H. destruct (batch_put_ttl _ _ _ _ _ _ _) as [b' |] eqn:Eb.
  - exists b'. split; [reflexivity | apply H].
  - vm_compute in Eb. discriminate.
Defined.
