(* ===== verification/Ring.v ===== *)
(** * The admission ring: [src/ring.rs]

    The gate encoding and the ring operations as functions of the ring, then the
    concurrent system: every atomic access of a writer, of the single drainer and
    of the host is one step, in any interleaving (sequentially consistent).  The
    safety proof tracks tickets as unbounded integers, of which the ring holds
    the low 31 bits. *)

From stdpp Require Import base numbers list sorting relations.
From Stdlib Require Import ZArith Lia.
From S2P Require Import Prelude.

Local Open Scope Z_scope.

(** ** Gates and tickets *)

Definition TICKET_MASK : u32 := 0x7FFFFFFF.
Definition FENCED_BIT : u32 := 0x80000000.

Definition next_ticket (t : u32) : u32 := Z.land (wrap 32 (t + 1)) TICKET_MASK.

Definition published_gate (t : u32) : u32 := next_ticket t.

(** [usize::trailing_zeros] *)
Fixpoint pos_trailing_zeros (p : positive) : Z :=
  match p with xO p => 1 + pos_trailing_zeros p | _ => 0 end.
Definition trailing_zeros (n : Z) : Z :=
  match n with Zpos p => pos_trailing_zeros p | _ => 64 end.

Inductive PublishOutcome := Published | Fenced.
Inductive DrainPoll := Drained (t : u32) (p : bytes) | AwaitingPublish | Skipped (t : u32).
Inductive FenceOutcome := FencedTicket (t : u32) | NotFenced.
Inductive ForceReleaseOutcome := Released | AlreadyPublished | Stale.

Record Slot := mkSlot { gate : u32; cells : list u32 }.
Record Ring := mkRing { head : u32; cursor : u32; slots : list Slot }.

Definition slot_new : Slot := mkSlot 0 (replicate 8 0).

(** The word stored in cell [i]. *)
Definition payload_word (p : bytes) (i : nat) : u32 :=
  let o := (4 * i)%nat in
  Z.lor (Z.lor (Z.lor (nth o p 0) (Z.shiftl (nth (o + 1) p 0) 8))
           (Z.shiftl (nth (o + 2) p 0) 16)) (Z.shiftl (nth (o + 3) p 0) 24).

Fixpoint write_cells (p : bytes) (i n : nat) (cs : list u32) : list u32 :=
  match n with
  | O => cs
  | S n => write_cells p (i + 1) n (<[i := payload_word p i]> cs)
  end.

Definition write_payload (s : Slot) (p : bytes) : Slot :=
  mkSlot (gate s) (write_cells p 0 8 (cells s)).

Definition read_payload (s : Slot) : bytes := concat (map (to_le 4) (cells s)).

Section ring.
  (** The const generic. *)
  Variable N : Z.

Definition release_gate (t : u32) : u32 :=
  Z.land (wrap 32 (t + wrap 32 (Z.shiftl 1 (trailing_zeros N)))) TICKET_MASK.

Definition slot_idx (t : u32) : nat := Z.to_nat (t mod N).

Definition slot_at (r : Ring) (t : u32) : Slot := nth (slot_idx t) (slots r) slot_new.

Definition set_slot (r : Ring) (t : u32) (s : Slot) : Ring :=
  mkRing (head r) (cursor r) (<[slot_idx t := s]> (slots r)).

Definition set_gate (r : Ring) (t : u32) (g : u32) : Ring :=
  set_slot r t (mkSlot g (cells (slot_at r t))).

Definition set_cell (r : Ring) (t : u32) (i : nat) (w : u32) : Ring :=
  set_slot r t (mkSlot (gate (slot_at r t)) (<[i := w]> (cells (slot_at r t)))).

Definition set_cursor (r : Ring) (c : u32) : Ring := mkRing (head r) c (slots r).
Definition set_head (r : Ring) (h : u32) : Ring := mkRing h (cursor r) (slots r).

(** The seeding loop of [with_head]. *)
Fixpoint seed_gates (n : nat) (t : u32) (ss : list Slot) : list Slot :=
  match n with
  | O => ss
  | S n =>
      seed_gates n (next_ticket t)
        (<[slot_idx t := mkSlot t (cells (nth (slot_idx t) ss slot_new))]> ss)
  end.

Definition with_head (h : u32) : Ring :=
  mkRing h h (seed_gates (Z.to_nat N) h (replicate (Z.to_nat N) slot_new)).

Definition new : Ring := with_head 0.
Definition new_seeded (seed : u32) : Ring := with_head (Z.land seed TICKET_MASK).

(** Run without interference, as every operation below. *)
Definition try_claim (r : Ring) : Ring * option u32 :=
  let t := head r in
  if negb (gate (slot_at r t) =? t) then (r, None)
  else (set_head r (next_ticket t), Some t).

Definition publish (r : Ring) (ticket : u32) (p : bytes) : Ring * PublishOutcome :=
  let t := Z.land ticket TICKET_MASK in
  let fenced := Z.lor t FENCED_BIT in
  let r := set_slot r t (write_payload (slot_at r t) p) in
  if gate (slot_at r t) =? t then (set_gate r t (published_gate t), Published)
  else if gate (slot_at r t) =? fenced then (set_gate r t (release_gate t), Fenced)
  else (r, Fenced).

Definition gate_is_past (g c : u32) : bool :=
  if negb (Z.land g FENCED_BIT =? 0) then Z.land g TICKET_MASK =? c
  else
    let v := Z.land g TICKET_MASK in
    if v =? c then false
    else
      let slot_res := c mod N in
      let ticket := if v mod N =? slot_res then v else Z.land (wrap 32 (v - 1)) TICKET_MASK in
      negb (ticket =? c) && (Z.land (wrap 32 (ticket - c)) TICKET_MASK <? Z.shiftl 1 30).

Definition poll_drain (r : Ring) : Ring * DrainPoll :=
  let c := cursor r in
  let g := gate (slot_at r c) in
  if g =? published_gate c then
    let payload := read_payload (slot_at r c) in
    (set_cursor (set_gate r c (release_gate c)) (next_ticket c), Drained c payload)
  else if gate_is_past g c then (set_cursor r (next_ticket c), Skipped c)
  else (r, AwaitingPublish).

Definition fence_cursor (r : Ring) : Ring * FenceOutcome :=
  let c := cursor r in
  if head r =? c then (r, NotFenced)
  else if gate (slot_at r c) =? c then
    (set_cursor (set_gate r c (Z.lor c FENCED_BIT)) (next_ticket c), FencedTicket c)
  else (r, NotFenced).

Definition force_release_slot (r : Ring) (ticket : u32) : Ring * ForceReleaseOutcome :=
  let t := Z.land ticket TICKET_MASK in
  let g := gate (slot_at r t) in
  if (g =? t) || (g =? Z.lor t FENCED_BIT) then (set_gate r t (release_gate t), Released)
  else if g =? published_gate t then (r, AlreadyPublished)
  else (r, Stale).
End ring.

(** ** The concurrent system

    Thread-local states hold the machine values the code holds between two
    atomic accesses. *)

Inductive wstate :=
  | WIdle
  | WGate (t : u32)                          (* [try_claim]: head loaded *)
  | WCas (t : u32)                           (* gate was [FREE(t)] *)
  | WClaimed (t : u32)
  | WStore (t : u32) (p : bytes) (k : nat)   (* [publish]: [k] cells stored *)
  | WReload (t : u32) (p : bytes)            (* publish CAS failed *)
  | WSelf (t : u32)                          (* saw [FENCED(t)] *)
  | WDone (t : u32) (o : PublishOutcome)
  | WDead (t : u32).                         (* proven dead, ticket claimed *)

Inductive dstate :=
  | DIdle
  | DRead (c : u32) (k : nat) (acc : bytes)  (* [k] cells read *)
  | DAdvance (c : u32) (p : bytes)           (* gate released *)
  | DSkip (c : u32)
  | DFence (c : u32)                         (* head differs from the cursor *)
  | DFenced (c : u32).                       (* fence CAS won *)

Inductive hstate := HIdle | HRelease (t : u32) (i : nat).

(** What the proof records: unbounded tickets, the kind of each gate, the
    payload and the fate of each ticket. *)
Inductive gkind := KFree | KPub | KFenced.

Record ghost := mkGhost {
  gH : Z;                    (* tickets handed out *)
  gC : Z;                    (* tickets the cursor passed *)
  gT : nat -> Z;             (* the ticket a thread loaded or owns *)
  gslot : Z -> gkind * Z;    (* per residue: the gate's kind and ticket *)
  gpay : Z -> bytes;         (* the payload a ticket's owner publishes *)
  gpub : Z -> bool;          (* its publish succeeded *)
  gdrained : list (Z * bytes);
  gdead : list Z;
}.

Record sys := mkSys {
  ring : Ring;
  writers : nat -> wstate;
  drainer : dstate;
  host : hstate;
  gh : ghost;
}.

Definition upd {A} (f : nat -> A) (i : nat) (x : A) : nat -> A :=
  fun j => if decide (j = i) then x else f j.
Definition updZ {A} (f : Z -> A) (i : Z) (x : A) : Z -> A :=
  fun j => if decide (j = i) then x else f j.

Definition set_writer (s : sys) (i : nat) (w : wstate) : sys :=
  mkSys (ring s) (upd (writers s) i w) (drainer s) (host s) (gh s).
Definition set_drainer (s : sys) (d : dstate) : sys :=
  mkSys (ring s) (writers s) d (host s) (gh s).
Definition set_host (s : sys) (h : hstate) : sys :=
  mkSys (ring s) (writers s) (drainer s) h (gh s).
Definition set_ring (s : sys) (r : Ring) : sys :=
  mkSys r (writers s) (drainer s) (host s) (gh s).
Definition set_gh (s : sys) (g : ghost) : sys :=
  mkSys (ring s) (writers s) (drainer s) (host s) g.

(** Ghost updates. *)
Definition g_load (g : ghost) (i : nat) : ghost :=
  mkGhost (gH g) (gC g) (upd (gT g) i (gH g)) (gslot g) (gpay g) (gpub g) (gdrained g) (gdead g).
Definition g_claim (g : ghost) : ghost :=
  mkGhost (gH g + 1) (gC g) (gT g) (gslot g) (gpay g) (gpub g) (gdrained g) (gdead g).
Definition g_pay (g : ghost) (T : Z) (p : bytes) : ghost :=
  mkGhost (gH g) (gC g) (gT g) (gslot g) (updZ (gpay g) T p) (gpub g) (gdrained g) (gdead g).
Definition g_gate (g : ghost) (r : Z) (k : gkind) (T : Z) : ghost :=
  mkGhost (gH g) (gC g) (gT g) (updZ (gslot g) r (k, T)) (gpay g) (gpub g) (gdrained g) (gdead g).
Definition g_publish (g : ghost) (T : Z) : ghost :=
  mkGhost (gH g) (gC g) (gT g) (gslot g) (gpay g) (updZ (gpub g) T true) (gdrained g) (gdead g).
Definition g_drain (g : ghost) (p : bytes) : ghost :=
  mkGhost (gH g) (gC g + 1) (gT g) (gslot g) (gpay g) (gpub g) (gdrained g ++ [(gC g, p)]) (gdead g).
Definition g_die (g : ghost) : ghost :=
  mkGhost (gH g) (gC g + 1) (gT g) (gslot g) (gpay g) (gpub g) (gdrained g) (gdead g ++ [gC g]).

(** A state in which the writer holds a claimed, undecided ticket. *)
Definition holds (w : wstate) : option u32 :=
  match w with
  | WClaimed t | WStore t _ _ | WReload t _ | WSelf t | WDead t => Some t
  | _ => None
  end.

Section system.
  Variable N : Z.
  Abbreviation slot_at := (slot_at N). Abbreviation set_gate := (set_gate N).
  Abbreviation set_cell := (set_cell N). Abbreviation release_gate := (release_gate N).

Definition gate_at (s : sys) (t : u32) : u32 := gate (slot_at (ring s) t).

(** [Ring::try_claim] and [Ring::publish], one access a step; the accesses of all threads
    are interleaved, each seeing the ones before it. *)
Inductive wstep (s : sys) (i : nat) : sys -> Prop :=
  | w_load :
      writers s i = WIdle ->
      wstep s i (set_gh (set_writer s i (WGate (head (ring s)))) (g_load (gh s) i))
  | w_gate_no t :
      writers s i = WGate t -> gate_at s t <> t -> wstep s i (set_writer s i WIdle)
  | w_gate_yes t :
      writers s i = WGate t -> gate_at s t = t -> wstep s i (set_writer s i (WCas t))
  | w_claim t :
      writers s i = WCas t -> head (ring s) = t ->
      wstep s i (set_gh (set_ring (set_writer s i (WClaimed t))
                           (set_head (ring s) (next_ticket t))) (g_claim (gh s)))
  | w_claim_lost t :
      writers s i = WCas t -> head (ring s) <> t -> wstep s i (set_writer s i WIdle)
  | w_publish t p :
      writers s i = WClaimed t -> length p = 32%nat -> bytes_ok p ->
      wstep s i (set_gh (set_writer s i (WStore t p 0)) (g_pay (gh s) (gT (gh s) i) p))
  | w_store t p k :
      writers s i = WStore t p k -> (k < 8)%nat ->
      wstep s i (set_ring (set_writer s i (WStore t p (k + 1)))
                   (set_cell (ring s) t k (payload_word p k)))
  | w_pub t p :
      writers s i = WStore t p 8 -> gate_at s t = t ->
      wstep s i (set_gh (set_ring (set_writer s i (WDone t Published))
                           (set_gate (ring s) t (published_gate t)))
                   (g_publish (g_gate (gh s) (gT (gh s) i mod N) KPub (gT (gh s) i))
                      (gT (gh s) i)))
  | w_pub_lost t p : (* the gate moved, or the CAS failed spuriously *)
      writers s i = WStore t p 8 -> wstep s i (set_writer s i (WReload t p))
  | w_reload_free t p :
      writers s i = WReload t p -> gate_at s t = t -> wstep s i (set_writer s i (WStore t p 8))
  | w_reload_fenced t p :
      writers s i = WReload t p -> gate_at s t <> t -> gate_at s t = Z.lor t FENCED_BIT ->
      wstep s i (set_writer s i (WSelf t))
  | w_reload_gone t p :
      writers s i = WReload t p -> gate_at s t <> t -> gate_at s t <> Z.lor t FENCED_BIT ->
      wstep s i (set_writer s i (WDone t Fenced))
  | w_self t :
      writers s i = WSelf t -> gate_at s t = Z.lor t FENCED_BIT ->
      wstep s i (set_gh (set_ring (set_writer s i (WDone t Fenced))
                           (set_gate (ring s) t (release_gate t)))
                   (g_gate (gh s) (gT (gh s) i mod N) KFree (gT (gh s) i + N)))
  | w_self_lost t :
      writers s i = WSelf t -> gate_at s t <> Z.lor t FENCED_BIT ->
      wstep s i (set_writer s i (WDone t Fenced))
  | w_return t o : writers s i = WDone t o -> wstep s i (set_writer s i WIdle)
  | w_die t : holds (writers s i) = Some t -> wstep s i (set_writer s i (WDead t)).

(** [Ring::poll_drain] and [Ring::fence_cursor]; only the drainer writes the
    cursor. *)
Inductive dstep (s : sys) : sys -> Prop :=
  | d_published :
      drainer s = DIdle -> gate_at s (cursor (ring s)) = published_gate (cursor (ring s)) ->
      dstep s (set_drainer s (DRead (cursor (ring s)) 0 []))
  | d_past :
      drainer s = DIdle -> gate_at s (cursor (ring s)) <> published_gate (cursor (ring s)) ->
      gate_is_past N (gate_at s (cursor (ring s))) (cursor (ring s)) = true ->
      dstep s (set_drainer s (DSkip (cursor (ring s))))
  | d_read c k acc :
      drainer s = DRead c k acc -> (k < 8)%nat ->
      dstep s (set_drainer s
        (DRead c (k + 1) (acc ++ to_le 4 (nth k (cells (slot_at (ring s) c)) 0))))
  | d_release c acc :
      drainer s = DRead c 8 acc ->
      dstep s (set_gh (set_ring (set_drainer s (DAdvance c acc))
                         (set_gate (ring s) c (release_gate c)))
                 (g_gate (gh s) (gC (gh s) mod N) KFree (gC (gh s) + N)))
  | d_advance c p :
      drainer s = DAdvance c p ->
      dstep s (set_gh (set_ring (set_drainer s DIdle) (set_cursor (ring s) (next_ticket c)))
                 (g_drain (gh s) p))
  | d_skip c :
      drainer s = DSkip c ->
      dstep s (set_gh (set_ring (set_drainer s DIdle) (set_cursor (ring s) (next_ticket c)))
                 (g_die (gh s)))
  | d_fence_load :
      drainer s = DIdle -> head (ring s) <> cursor (ring s) ->
      dstep s (set_drainer s (DFence (cursor (ring s))))
  | d_fence c :
      drainer s = DFence c -> gate_at s c = c ->
      dstep s (set_gh (set_ring (set_drainer s (DFenced c))
                         (set_gate (ring s) c (Z.lor c FENCED_BIT)))
                 (g_gate (gh s) (gC (gh s) mod N) KFenced (gC (gh s))))
  | d_fence_lost c :
      drainer s = DFence c -> gate_at s c <> c -> dstep s (set_drainer s DIdle)
  | d_fence_advance c :
      drainer s = DFenced c ->
      dstep s (set_gh (set_ring (set_drainer s DIdle) (set_cursor (ring s) (next_ticket c)))
                 (g_die (gh s))).

(** [Ring::force_release_slot]: a load, then a store; the host calls it only for
    a writer proven dead, and one call at a time. *)
Inductive hstep (s : sys) : sys -> Prop :=
  | h_load i t :
      host s = HIdle -> writers s i = WDead t ->
      gate_at s t = t \/ gate_at s t = Z.lor t FENCED_BIT ->
      hstep s (set_host s (HRelease t i))
  | h_store i t :
      host s = HRelease t i ->
      hstep s (set_gh (set_ring (set_writer (set_host s HIdle) i WIdle)
                         (set_gate (ring s) t (release_gate t)))
                 (g_gate (gh s) (gT (gh s) i mod N) KFree (gT (gh s) i + N))).

Inductive step (s s' : sys) : Prop :=
  | step_writer i : wstep s i s' -> step s s'
  | step_drainer : dstep s s' -> step s s'
  | step_host : hstep s s' -> step s s'.

(** A seeded ring with no operation in progress. *)
Definition start (h : Z) : sys :=
  mkSys (with_head N h) (fun _ => WIdle) DIdle HIdle
    (mkGhost h h (fun _ => h) (fun r => (KFree, h + (r - h) mod N)) (fun _ => [])
       (fun _ => false) [] []).

(** The executions considered.  When the CAS of [try_claim] succeeds, fewer than 2^31
    tickets went by since the load of the head, and the head is less than 2^30 - N tickets
    ahead of the cursor.  The code checks neither: tickets are taken modulo 2^31, and
    [gate_is_past] modulo 2^30. *)
Definition fresh (s : sys) (i : nat) : Prop := gH (gh s) < gT (gh s) i + 2 ^ 31.
Definition in_lag (s : sys) : Prop := gH (gh s) - gC (gh s) < 2 ^ 30 - N.

Definition paced (s s' : sys) : Prop :=
  forall i t, writers s i = WCas t -> writers s' i = WClaimed t -> fresh s i /\ in_lag s.

Inductive reachable (h : Z) : sys -> Prop :=
  | reach_start : reachable h (start h)
  | reach_step s s' : reachable h s -> step s s' -> paced s s' -> reachable h s'.
End system.

(** ** Tickets modulo 2^31 *)

Definition tick (T : Z) : u32 := T mod 2 ^ 31.

Definition enc (k : gkind) (T : Z) : u32 :=
  match k with
  | KFree => tick T
  | KPub => tick (T + 1)
  | KFenced => Z.lor (tick T) FENCED_BIT
  end.

Lemma tick_range T : 0 <= tick T < 2 ^ 31.
Proof. apply Z.mod_pos_bound. lia. Qed.

Lemma land_mask x : Z.land x TICKET_MASK = x mod 2 ^ 31.
Proof. change TICKET_MASK with (Z.ones 31). apply Z.land_ones. lia. Qed.

Lemma mod_wrap x : wrap 32 x mod 2 ^ 31 = x mod 2 ^ 31.
Proof.
  unfold wrap. change (2 ^ 32) with (2 ^ 31 * 2). rewrite Z.rem_mul_r by lia.
  rewrite Z.mul_comm, Z.mod_add by lia. apply Z.mod_mod. lia.
Qed.

Lemma tick_add T x : tick (tick T + x) = tick (T + x).
Proof. unfold tick. by rewrite Zplus_mod_idemp_l. Qed.

Lemma next_ticket_tick T : next_ticket (tick T) = tick (T + 1).
Proof. unfold next_ticket. rewrite land_mask, mod_wrap. apply tick_add. Qed.

Lemma lor_fenced T : Z.lor (tick T) FENCED_BIT = tick T + 2 ^ 31.
Proof.
  pose proof (tick_range T). change FENCED_BIT with (2 ^ 31).
  rewrite <- Z.add_lor_land.
  assert (Z.land (tick T) (2 ^ 31) = 0) as ->; [| lia].
  apply Z.bits_inj'. intros n Hn. rewrite Z.land_spec, Z.bits_0, Z.pow2_bits_eqb by lia.
  destruct (31 =? n) eqn:E; [| apply andb_false_r]. apply Z.eqb_eq in E as <-.
  rewrite Z.bits_above_log2; [done | lia |].
  destruct (decide (tick T = 0)) as [-> |]; [cbn; lia | apply Z.log2_lt_pow2; lia].
Qed.

(** Equal residues of tickets less than 2^31 apart are the same ticket. *)
Lemma tick_inj a b : Z.abs (a - b) < 2 ^ 31 -> tick a = tick b -> a = b.
Proof.
  unfold tick. intros Hab E. pose proof (Z.div_mod a (2 ^ 31)). pose proof (Z.div_mod b (2 ^ 31)).
  nia.
Qed.

Lemma tick_sub_small a b : 0 <= a - b < 2 ^ 31 -> tick (tick a - tick b) = a - b.
Proof.
  intros H. unfold tick. rewrite <- Zminus_mod. apply Z.mod_small. lia.
Qed.

Lemma tick_idem a : tick (tick a) = tick a.
Proof. apply Z.mod_mod. lia. Qed.

Lemma land_tick x : Z.land (tick x) TICKET_MASK = tick x.
Proof. rewrite land_mask. apply tick_idem. Qed.

Lemma land_wrap x : Z.land (wrap 32 x) TICKET_MASK = tick x.
Proof. rewrite land_mask. apply mod_wrap. Qed.

Lemma pos_trailing_zeros_pow k : (0 <= k)%Z -> trailing_zeros (2 ^ k) = k.
Proof.
  intros Hk. pattern k. apply natlike_ind; [reflexivity | | done]. clear k Hk. intros k Hk IH.
  rewrite Z.pow_succ_r by done. pose proof (Z.pow_pos_nonneg 2 k ltac:(lia) Hk).
  revert IH H. destruct (2 ^ k) as [| p |]; intros IH H; try lia.
  change (2 * Z.pos p) with (Z.pos (xO p)). cbn [trailing_zeros pos_trailing_zeros] in *. lia.
Qed.

Section encoding.
  Variable N : Z.
  (** [ASSERT_N_POWER_OF_TWO], with the two top sizes left out (see
      [gate_is_past_top_size]). *)
  Hypothesis HN : exists k, 1 <= k <= 29 /\ N = 2 ^ k.

Lemma N_bounds : 2 <= N <= 2 ^ 29.
Proof.
  destruct HN as (k & Hk & ->). split.
  - change 2 with (2 ^ 1) at 1. apply Z.pow_le_mono_r; lia.
  - apply Z.pow_le_mono_r; lia.
Qed.

Lemma N_divides : (N | 2 ^ 31).
Proof.
  destruct HN as (k & Hk & ->). exists (2 ^ (31 - k)). rewrite <- Z.pow_add_r by lia. f_equal. lia.
Qed.

Lemma tick_mod T : tick T mod N = T mod N.
Proof. apply Z.mod_mod_divide, N_divides. Qed.

Lemma release_gate_tick T : release_gate N (tick T) = tick (T + N).
Proof.
  unfold release_gate. rewrite land_mask, mod_wrap. destruct HN as (k & Hk & ->).
  rewrite pos_trailing_zeros_pow by lia. rewrite Z.shiftl_1_l.
  assert (2 ^ k < 2 ^ 32) by (apply Z.pow_lt_mono_r; lia). pose proof (Z.pow_pos_nonneg 2 k).
  unfold wrap. rewrite (Z.mod_small (2 ^ k)) by lia. apply tick_add.
Qed.

(** Same slot, less than 2^30 apart. *)
Definition near (T U : Z) : Prop := T mod N = U mod N /\ Z.abs (T - U) < 2 ^ 30.

Lemma mod_succ_neq T U : T mod N = (U + 1) mod N -> T mod N <> U mod N.
Proof.
  pose proof N_bounds. intros E1 E2. rewrite E2 in E1.
  pose proof (Z.div_mod U N ltac:(lia)). pose proof (Z.div_mod (U + 1) N ltac:(lia)).
  rewrite <- E1 in *. generalize dependent ((U + 1) / N). generalize dependent (U / N).
  clear E1 E2 HN. intros q Hq q' Hq'. generalize dependent (U mod N). intros m Hq Hq'.
  assert (N * (q' - q) = 1) as Hone by (rewrite Z.mul_sub_distr_l; lia).
  apply Z.eq_mul_1 in Hone. lia.
Qed.

Lemma tick_eq_mod a b : tick a = tick b -> a mod N = b mod N.
Proof. intros E. rewrite <- (tick_mod a), <- (tick_mod b). by rewrite E. Qed.

Lemma enc_free k T U : near T U -> enc k T = tick U <-> k = KFree /\ T = U.
Proof.
  intros [Hm Hn]. split; [| by intros [-> ->]]. destruct k; cbn [enc]; intros E.
  - split; [done |]. apply tick_inj; [lia | done].
  - apply tick_eq_mod in E. symmetry in E. apply mod_succ_neq in E. congruence.
  - rewrite lor_fenced in E. pose proof (tick_range T). pose proof (tick_range U). lia.
Qed.

Lemma enc_pub k T U : near T U -> enc k T = tick (U + 1) <-> k = KPub /\ T = U.
Proof.
  intros [Hm Hn]. split; [| by intros [-> ->]]. destruct k; cbn [enc]; intros E.
  - apply tick_eq_mod in E. apply mod_succ_neq in E. congruence.
  - split; [done |]. apply tick_inj in E; lia.
  - rewrite lor_fenced in E. pose proof (tick_range T). pose proof (tick_range (U + 1)). lia.
Qed.

Lemma enc_fenced k T U :
  near T U -> enc k T = Z.lor (tick U) FENCED_BIT <-> k = KFenced /\ T = U.
Proof.
  intros [Hm Hn]. rewrite lor_fenced. pose proof (tick_range T). pose proof (tick_range (T + 1)).
  pose proof (tick_range U).
  split; [| by intros [-> ->]; cbn; rewrite lor_fenced]. destruct k; cbn [enc]; intros E; try lia.
  rewrite lor_fenced in E. split; [done |]. apply tick_inj; lia.
Qed.

Lemma tick_small_land T : Z.land (tick T) FENCED_BIT = 0.
Proof.
  pose proof (lor_fenced T) as H. pose proof (Z.add_lor_land (tick T) FENCED_BIT) as H'.
  change FENCED_BIT with (2 ^ 31) in *. lia.
Qed.

Lemma fenced_land T : Z.land (Z.lor (tick T) FENCED_BIT) FENCED_BIT <> 0.
Proof.
  rewrite Z.land_lor_distr_l, tick_small_land, Z.lor_0_l, Z.land_diag. discriminate.
Qed.

Lemma fenced_mask T : Z.land (Z.lor (tick T) FENCED_BIT) TICKET_MASK = tick T.
Proof.
  rewrite land_mask, lor_fenced. replace (tick T + 2 ^ 31) with (tick T + 1 * 2 ^ 31) by lia.
  rewrite Z.mod_add by lia. apply tick_idem.
Qed.

(** The gate of the cursor's slot shows the cursor's ticket dead exactly when
    the ticket is fenced or the slot belongs to a later ticket. *)
Lemma gate_is_past_enc k T C :
  T mod N = C mod N -> - 2 ^ 30 < T - C < 2 ^ 30 ->
  (k <> KFenced -> C <= T) -> ~ (k = KPub /\ T = C) ->
  gate_is_past N (enc k T) (tick C) = true <-> (k = KFenced /\ T = C) \/ (k <> KFenced /\ C < T).
Proof.
  intros Hm Hd Hge Hnp. unfold gate_is_past. destruct k; cbn [enc].
  - rewrite tick_small_land, land_tick, !land_wrap. cbn [negb Z.eqb].
    destruct (tick T =? tick C) eqn:E; bool_lia.
    { assert (T = C) by (apply tick_inj; lia). split; [done | intros [[? ?] | [_ ?]]; [done | lia]]. }
    rewrite !tick_mod, Hm, Z.eqb_refl.
    rewrite tick_sub_small by (specialize (Hge ltac:(done)); lia).
    rewrite (proj2 (Z.eqb_neq _ _)) by done. change (Z.shiftl 1 30) with (2 ^ 30).
    rewrite (proj2 (Z.ltb_lt _ _)) by lia. cbn. split; [| done]. intros _. right. split; [done |].
    specialize (Hge ltac:(done)). destruct (decide (T = C)); [congruence | lia].
  - assert (T <> C) by (intros ->; tauto). specialize (Hge ltac:(done)).
    rewrite tick_small_land, land_tick, !land_wrap. cbn [negb Z.eqb].
    destruct (tick (T + 1) =? tick C) eqn:E; bool_lia.
    { apply tick_inj in E; lia. }
    rewrite !tick_mod. destruct ((T + 1) mod N =? C mod N) eqn:E'; bool_lia.
    { exfalso. symmetry in E'. apply mod_succ_neq in E'. congruence. }
    assert (tick (tick (T + 1) - 1) = tick T) as ->.
    { replace (tick (T + 1) - 1) with (tick (T + 1) + -1) by lia. rewrite tick_add. f_equal. lia. }
    rewrite tick_sub_small by lia.
    rewrite (proj2 (Z.eqb_neq _ _)) by (intros ?%tick_inj; lia).
    change (Z.shiftl 1 30) with (2 ^ 30). rewrite (proj2 (Z.ltb_lt _ _)) by lia.
    cbn. split; [| done]. intros _. right. split; [done | lia].
  - rewrite (proj2 (Z.eqb_neq _ _)) by apply fenced_land. cbn [negb]. rewrite fenced_mask.
    rewrite Z.eqb_eq. split.
    + intros E. left. split; [done |]. apply tick_inj; lia.
    + intros [[_ ->] | [? _]]; done.
Qed.
End encoding.

(** With [N = 2^30], which the size assertion allows, the gate a released slot
    carries is not recognised as past its own ticket. *)
Lemma gate_is_past_top_size :
  gate_is_past (2 ^ 30) (release_gate (2 ^ 30) 5) 5 = false.
Proof. reflexivity. Qed.

(** ** Payload cells *)

Definition words (p : bytes) : list u32 := map (payload_word p) (seq 0 8).

Lemma lor4 a b c d :
  fits 8 a -> fits 8 b -> fits 8 c ->
  Z.lor (Z.lor (Z.lor a (Z.shiftl b 8)) (Z.shiftl c 16)) (Z.shiftl d 24) = from_le [a; b; c; d].
Proof.
  intros Ha Hb Hc. cbn [from_le]. rewrite <- !Z.lor_assoc.
  replace (Z.shiftl d 24) with (Z.shiftl (Z.shiftl d 8) 16) by (by rewrite Z.shiftl_shiftl).
  rewrite <- Z.shiftl_lor, (lor_byte c) by done.
  replace (Z.shiftl (c + 256 * d) 16) with (Z.shiftl (Z.shiftl (c + 256 * d) 8) 8)
    by (by rewrite Z.shiftl_shiftl).
  rewrite <- Z.shiftl_lor, (lor_byte b), lor_byte by done. lia.
Qed.

Lemma le4 a b c d :
  fits 8 a -> fits 8 b -> fits 8 c -> fits 8 d -> to_le 4 (from_le [a; b; c; d]) = [a; b; c; d].
Proof. intros. apply (to_from_le [a; b; c; d]). unfold bytes_ok. rewrite !Forall_cons. auto. Qed.

Lemma read_words p : length p = 32%nat -> bytes_ok p -> concat (map (to_le 4) (words p)) = p.
Proof.
  intros Hl Hb. unfold words, payload_word.
  do 32 (destruct p as [|? p]; [done |]). destruct p; [| done].
  unfold bytes_ok in Hb.
  repeat match goal with H : Forall _ (_ :: _) |- _ => apply Forall_cons in H as [? H] end.
  cbn [seq map nth Nat.mul Nat.add]. rewrite !lor4 by done.
  cbn [concat]. rewrite !le4 by done. done.
Qed.

Lemma length_words p : length (words p) = 8%nat.
Proof. done. Qed.

Lemma nth_words p k : (k < 8)%nat -> nth k (words p) 0 = payload_word p k.
Proof. intros Hk. do 8 (destruct k as [|k]; [done |]). lia. Qed.

(** The whole-payload store of [publish] fills the cells in order. *)
Lemma write_cells_words p cs : length cs = 8%nat -> write_cells p 0 8 cs = words p.
Proof. intros Hl. do 8 (destruct cs as [|? cs]; [done |]). by destruct cs. Qed.

(** ** The safety invariant *)

Section safety.
  Variables (N g0 : Z).
  Hypothesis HN : exists k, 1 <= k <= 29 /\ N = 2 ^ k.

Definition slotZ (r : Ring) (x : Z) : Slot := nth (Z.to_nat x) (slots r) slot_new.

Definition payload_ok (p : bytes) : Prop := length p = 32%nat /\ bytes_ok p.

(** The gate of residue [x] encodes its ticket, which lies within a lap of the
    head; only unfinished tickets are free or published. *)
Definition slot_inv (r : Ring) (g : ghost) (d : dstate) (x : Z) : Prop :=
  let '(k, T) := gslot g x in
  gate (slotZ r x) = enc k T /\ T mod N = x /\ gH g - N <= T < gH g + N /\
  length (cells (slotZ r x)) = 8%nat /\
  match k with
  | KFree => gC g <= T
  | KPub =>
      gC g <= T < gH g /\ gpub g T = true /\ cells (slotZ r x) = words (gpay g T) /\
      payload_ok (gpay g T)
  | KFenced => T < gH g /\ (T < gC g \/ (T = gC g /\ d = DFenced (tick (gC g))))
  end.

(** The owner of a claimed ticket has its slot, free or fenced. *)
Definition owner_inv (g : ghost) (i : nat) (t : u32) : Prop :=
  t = tick (gT g i) /\ gT g i < gH g /\ gpub g (gT g i) = false /\
  (gslot g (gT g i mod N) = (KFree, gT g i) \/ gslot g (gT g i mod N) = (KFenced, gT g i)).

Definition local_inv (r : Ring) (g : ghost) (i : nat) (w : wstate) : Prop :=
  match w with
  | WGate t => t = tick (gT g i) /\ gT g i <= gH g
  | WCas t =>
      t = tick (gT g i) /\ gT g i <= gH g /\
      (gT g i = gH g -> gslot g (gH g mod N) = (KFree, gH g))
  | WStore t p k =>
      (k <= 8)%nat /\ gpay g (gT g i) = p /\ payload_ok p /\
      take k (cells (slotZ r (gT g i mod N))) = take k (words p)
  | WReload t p =>
      gpay g (gT g i) = p /\ payload_ok p /\ cells (slotZ r (gT g i mod N)) = words p
  | _ => True
  end.

Definition drainer_inv (r : Ring) (g : ghost) (d : dstate) : Prop :=
  let x := gC g mod N in
  match d with
  | DIdle => True
  | DRead c k acc =>
      c = tick (gC g) /\ gslot g x = (KPub, gC g) /\ (k <= 8)%nat /\
      acc = concat (map (to_le 4) (take k (cells (slotZ r x))))
  | DAdvance c p =>
      c = tick (gC g) /\ gC g < gH g /\ gpub g (gC g) = true /\ p = gpay g (gC g) /\
      gC g < (gslot g x).2
  | DSkip c => c = tick (gC g) /\ gC g < gH g /\ gC g < (gslot g x).2
  | DFence c => c = tick (gC g) /\ gC g < gH g
  | DFenced c =>
      c = tick (gC g) /\ gC g < gH g /\ (gslot g x = (KFenced, gC g) \/ gC g < (gslot g x).2)
  end.

(** Published tickets are drained, or wait in their slot. *)
Definition pub_inv (g : ghost) (d : dstate) : Prop :=
  forall T, gpub g T = true ->
    T < gH g /\
    (T < gC g \/ gslot g (T mod N) = (KPub, T) \/
     (T = gC g /\ exists c p, d = DAdvance c p)).

(** The history: every ticket the cursor passed was drained or is dead. *)
Record log_inv (g : ghost) : Prop := {
  log_drained : forall T p, (T, p) ∈ gdrained g -> g0 <= T < gC g /\ gpub g T = true /\ p = gpay g T;
  log_order : StronglySorted Z.lt (map fst (gdrained g));
  log_dead : forall T, T ∈ gdead g -> g0 <= T < gC g /\ gpub g T = false;
  log_all : forall T, g0 <= T < gC g -> T ∈ map fst (gdrained g) \/ T ∈ gdead g;
}.

Record inv (s : sys) : Prop := {
  i_len : length (slots (ring s)) = Z.to_nat N;
  i_head : head (ring s) = tick (gH (gh s));
  i_cursor : cursor (ring s) = tick (gC (gh s));
  i_le : 0 <= g0 <= gC (gh s) /\ gC (gh s) <= gH (gh s) <= gC (gh s) + (2 ^ 30 - N);
  i_slot : forall x, 0 <= x < N -> slot_inv (ring s) (gh s) (drainer s) x;
  i_own : forall i t, holds (writers s i) = Some t -> owner_inv (gh s) i t;
  i_local : forall i, local_inv (ring s) (gh s) i (writers s i);
  i_uniq : forall i j t t', i <> j -> holds (writers s i) = Some t ->
             holds (writers s j) = Some t' -> gT (gh s) i <> gT (gh s) j;
  i_host : forall t i, host s = HRelease t i -> writers s i = WDead t;
  i_drainer : drainer_inv (ring s) (gh s) (drainer s);
  i_pub : pub_inv (gh s) (drainer s);
  i_log : log_inv (gh s);
}.

Lemma mod_range T : 0 <= T mod N < N.
Proof. apply Z.mod_pos_bound. pose proof (N_bounds N HN). lia. Qed.

Lemma slot_at_tick r T : slot_at N r (tick T) = slotZ r (T mod N).
Proof. unfold slot_at, slot_idx, slotZ. by rewrite (tick_mod N HN). Qed.

Lemma slotZ_set r T s x :
  length (slots r) = Z.to_nat N -> 0 <= x < N ->
  slotZ (set_slot N r (tick T) s) x = if decide (x = T mod N) then s else slotZ r x.
Proof.
  intros Hl Hx. unfold slotZ, set_slot, slot_idx. cbn [slots]. rewrite (tick_mod N HN).
  pose proof (mod_range T). destruct (decide (x = T mod N)) as [-> |].
  - apply nth_lookup_Some. apply list_lookup_insert_eq. lia.
  - rewrite !nth_lookup. f_equal. apply list_lookup_insert_ne. lia.
Qed.

Lemma length_set_slot r t s : length (slots (set_slot N r t s)) = length (slots r).
Proof. apply length_insert. Qed.

Lemma upd_eq {A} (f : nat -> A) i x : upd f i x i = x.
Proof. unfold upd. by rewrite decide_True. Qed.
Lemma upd_ne {A} (f : nat -> A) i j x : j <> i -> upd f i x j = f j.
Proof. intros. unfold upd. by rewrite decide_False. Qed.
Lemma updZ_eq {A} (f : Z -> A) i x : updZ f i x i = x.
Proof. unfold updZ. by rewrite decide_True. Qed.
Lemma updZ_ne {A} (f : Z -> A) i j x : j <> i -> updZ f i x j = f j.
Proof. intros. unfold updZ. by rewrite decide_False. Qed.

Ltac sys_cbn :=
  cbn [ring writers drainer host gh set_writer set_drainer set_host set_ring set_gh
       gH gC gT gslot gpay gpub gdrained gdead g_load g_claim g_pay g_gate g_publish g_drain g_die
       head cursor set_head set_cursor] in *.

(** *** Steps that only move a writer *)
Lemma inv_set_writer s i w :
  inv s -> (forall t, holds w = Some t -> holds (writers s i) = Some t) ->
  local_inv (ring s) (gh s) i w -> (forall t, host s = HRelease t i -> w = WDead t) ->
  inv (set_writer s i w).
Proof.
  intros [] Hh Hl Hw.
  assert (forall j t, holds (upd (writers s) i w j) = Some t -> holds (writers s j) = Some t) as Hold.
  { intros j t. unfold upd. case_decide as Ej; [subst; auto | done]. }
  split; sys_cbn; try done.
  - intros j t H. apply i_own0, Hold, H.
  - intros j. unfold upd. case_decide as Ej; [by subst | apply i_local0].
  - intros j k t t' Hjk H1 H2. by apply (i_uniq0 j k t t'); [| apply Hold | apply Hold].
  - intros t j Hj. unfold upd. case_decide as E; [subst; auto | by apply i_host0].
Qed.

Lemma not_released s i :
  inv s -> (forall t, writers s i <> WDead t) -> forall t w, host s = HRelease t i -> w = WDead t.
Proof. intros [] Hn t w Hh. by apply i_host0, Hn in Hh. Qed.

(** *** Reading a gate *)
Lemma gate_at_slot s T :
  inv s ->
  gate_at N s (tick T) = enc (gslot (gh s) (T mod N)).1 (gslot (gh s) (T mod N)).2 /\
  (gslot (gh s) (T mod N)).2 mod N = T mod N /\
  gH (gh s) - N <= (gslot (gh s) (T mod N)).2 < gH (gh s) + N.
Proof.
  intros Hi. pose proof (i_slot _ Hi (T mod N) (mod_range T)) as Hs. unfold slot_inv in Hs.
  unfold gate_at. rewrite slot_at_tick. destruct (gslot (gh s) (T mod N)) as [k U]. cbn. tauto.
Qed.

Lemma near_slot s T :
  inv s -> gH (gh s) - N <= T <= gH (gh s) -> near N (gslot (gh s) (T mod N)).2 T.
Proof.
  intros Hi HT. destruct (gate_at_slot s T Hi) as (_ & Hm & Hr). split; [done |].
  pose proof (N_bounds N HN). lia.
Qed.

(** A gate that reads [FREE(T)] is the ticket's own. *)
Lemma gate_free s T :
  inv s -> gH (gh s) - N <= T <= gH (gh s) -> gate_at N s (tick T) = tick T ->
  gslot (gh s) (T mod N) = (KFree, T).
Proof.
  intros Hi HT Hg. destruct (gate_at_slot s T Hi) as (He & _). rewrite He in Hg.
  apply (enc_free N HN) in Hg as [H1 H2]; [| by apply near_slot].
  destruct (gslot _ _); cbn in *; congruence.
Qed.

Lemma gate_fenced s T :
  inv s -> gH (gh s) - N <= T <= gH (gh s) -> gate_at N s (tick T) = Z.lor (tick T) FENCED_BIT ->
  gslot (gh s) (T mod N) = (KFenced, T).
Proof.
  intros Hi HT Hg. destruct (gate_at_slot s T Hi) as (He & _). rewrite He in Hg.
  apply (enc_fenced N) in Hg as [H1 H2]; [| by apply near_slot].
  destruct (gslot _ _); cbn in *; congruence.
Qed.

(** The window of an owned ticket. *)
Lemma owned_window s i t :
  inv s -> holds (writers s i) = Some t ->
  t = tick (gT (gh s) i) /\ gH (gh s) - N <= gT (gh s) i < gH (gh s) /\
  gpub (gh s) (gT (gh s) i) = false /\
  (gslot (gh s) (gT (gh s) i mod N)).2 = gT (gh s) i.
Proof.
  intros Hi Hh. destruct (i_own _ Hi i t Hh) as (-> & Hlt & Hp & Hs).
  destruct (gate_at_slot s (gT (gh s) i) Hi) as (_ & _ & Hr).
  split; [done |]. destruct Hs as [Hs | Hs]; rewrite Hs in *; cbn in *; auto with lia.
Qed.


(** *** Claiming *)

Lemma inv_w_load s i :
  inv s -> writers s i = WIdle ->
  inv (set_gh (set_writer s i (WGate (head (ring s)))) (g_load (gh s) i)).
Proof.
  intros Hi Hw. pose proof (not_released s i Hi ltac:(by rewrite Hw)) as Hhost. destruct Hi.
  assert (forall j t, holds (upd (writers s) i (WGate (head (ring s))) j) = Some t ->
    j <> i /\ holds (writers s j) = Some t) as Hold.
  { intros j t. unfold upd. case_decide as Ej; [done |]. auto. }
  split; sys_cbn; try done.
  - intros j t H. destruct (Hold j t H) as [Hj H']. unfold owner_inv. sys_cbn.
    rewrite (upd_ne _ _ _ _ Hj). by apply i_own0.
  - intros j. unfold upd at 1. case_decide as Ej; subst.
    + cbn. rewrite upd_eq. split; [done | lia].
    + specialize (i_local0 j). unfold local_inv in *. sys_cbn. by rewrite (upd_ne _ _ _ _ Ej).
  - intros j k t t' Hjk H1 H2. destruct (Hold j t H1) as [Hj H1'].
    destruct (Hold k t' H2) as [Hk H2']. rewrite !upd_ne by done. by apply (i_uniq0 j k t t').
  - intros t j Hj. unfold upd. case_decide as Ej; [subst; eauto | by apply i_host0].
  - by destruct i_log0.
Qed.

(** A head that moved on leaves every slot within a lap. *)
Lemma inv_w_claim s i t :
  inv s -> writers s i = WCas t -> head (ring s) = t -> fresh s i -> in_lag N s ->
  inv (set_gh (set_ring (set_writer s i (WClaimed t)) (set_head (ring s) (next_ticket t)))
         (g_claim (gh s))).
Proof.
  intros Hi Hw Hhd Hfresh Hlag. pose proof (N_bounds N HN) as HNb.
  pose proof (not_released s i Hi ltac:(by rewrite Hw)) as Hhost.
  pose proof (i_local _ Hi i) as Hloc. rewrite Hw in Hloc. destruct Hloc as (Ht & Hle & Hslot).
  assert (gT (gh s) i = gH (gh s)) as HT.
  { unfold fresh in Hfresh. symmetry. apply tick_inj; [lia |].
    rewrite <- Ht, <- Hhd. symmetry. apply (i_head _ Hi). }
  specialize (Hslot HT). unfold in_lag in Hlag.
  assert (gpub (gh s) (gH (gh s)) = false) as Hnp.
  { destruct (gpub (gh s) (gH (gh s))) eqn:E; [| done]. apply (i_pub _ Hi) in E. lia. }
  assert (forall j t', holds (upd (writers s) i (WClaimed t) j) = Some t' ->
    (j = i /\ t' = t) \/ (j <> i /\ holds (writers s j) = Some t')) as Hold.
  { intros j t'. unfold upd. case_decide as Ej; [subst; left; cbn in *; split; congruence | auto]. }
  pose proof (gate_at_slot s) as Hga. specialize (fun T => Hga T Hi).
  destruct Hi. split; sys_cbn; try done.
  - rewrite Ht, HT. by rewrite next_ticket_tick.
  - lia.
  - intros x Hx. specialize (i_slot0 x Hx). unfold slot_inv in *. sys_cbn.
    destruct (gslot (gh s) x) as [k T] eqn:Eg. destruct i_slot0 as (H1 & H2 & H3 & H4 & H5).
    assert (T <> gH (gh s) - N) as Hne.
    { intros ->. rewrite Zminus_mod, Z.mod_same, Z.sub_0_r, Z.mod_mod in H2 by lia.
      rewrite H2 in Hslot. rewrite Hslot in Eg. injection Eg. lia. }
    split_and!; try done; try lia. destruct k; [done | |].
    + destruct H5 as (? & ? & ? & ?). split_and!; try done; lia.
    + destruct H5 as (? & ?). split_and!; try done; lia.
  - intros j t' H. unfold owner_inv. sys_cbn. destruct (Hold j t' H) as [[-> ->] | [Hj H']].
    + rewrite HT in *. split_and!; try done; [lia | auto].
    + destruct (i_own0 j t' H') as (? & ? & ? & ?). split_and!; try done. lia.
  - intros j. specialize (i_local0 j). unfold upd. case_decide as Ej; [done |].
    unfold local_inv in *. sys_cbn. destruct (writers s j); try done; try lia.
  - intros j k t1 t2 Hjk H1 H2.
    destruct (Hold j t1 H1) as [[-> ->] | [Hj H1']]; destruct (Hold k t2 H2) as [[-> ->] | [Hk H2']].
    + done.
    + destruct (i_own0 k t2 H2') as (_ & ? & _). lia.
    + destruct (i_own0 j t1 H1') as (_ & ? & _). lia.
    + by apply (i_uniq0 j k t1 t2).
  - intros t' j Hj. unfold upd. case_decide as Ej; [subst; eauto | by apply i_host0].
  - unfold drainer_inv in *. sys_cbn. destruct (drainer s); try done; destruct_and?; split_and!; try done; lia.
  - intros T HT'. sys_cbn. destruct (i_pub0 T HT') as [? ?]. split; [lia | done].
  - by destruct i_log0.
Qed.

(** *** Publishing *)

Lemma inv_w_publish s i t p :
  inv s -> writers s i = WClaimed t -> length p = 32%nat -> bytes_ok p ->
  inv (set_gh (set_writer s i (WStore t p 0)) (g_pay (gh s) (gT (gh s) i) p)).
Proof.
  intros Hi Hw Hlen Hok. pose proof (not_released s i Hi ltac:(by rewrite Hw)) as Hhost.
  assert (holds (writers s i) = Some t) as Hh by (by rewrite Hw).
  destruct (owned_window s i t Hi Hh) as (Ht & Hwin & Hnp & _).
  assert (forall j t', holds (upd (writers s) i (WStore t p 0) j) = Some t' ->
    holds (writers s j) = Some t') as Hold.
  { intros j t'. unfold upd. case_decide as Ej; [subst; by rewrite Hh | done]. }
  assert (forall T, gpub (gh s) T = true -> updZ (gpay (gh s)) (gT (gh s) i) p T = gpay (gh s) T) as Hpay.
  { intros T HT. apply updZ_ne. congruence. }
  destruct Hi. split; sys_cbn; try done.
  - intros x Hx. specialize (i_slot0 x Hx). unfold slot_inv in *. sys_cbn.
    destruct (gslot (gh s) x) as [k T] eqn:Eg. destruct i_slot0 as (H1 & H2 & H3 & H4 & H5).
    split_and!; try done; try lia. destruct k; try done.
    destruct H5 as (? & Hp & ? & ?). rewrite (Hpay T Hp). done.
  - intros j t' H. apply (i_own0 j t'), Hold, H.
  - intros j. specialize (i_local0 j). unfold upd at 1. case_decide as Ej; [subst j |].
    + cbn. rewrite updZ_eq. split_and!; try done. lia.
    + unfold local_inv in *. sys_cbn. destruct (writers s j) eqn:Ew; try done;
        (rewrite updZ_ne; [done |]; eapply (i_uniq0 j i); [done | by rewrite Ew | exact Hh]).
  - intros j k t1 t2 Hjk H1 H2. by apply (i_uniq0 j k t1 t2); [| apply Hold | apply Hold].
  - intros t' j Hj. unfold upd. case_decide as Ej; [subst; eauto | by apply i_host0].
  - unfold drainer_inv in *. sys_cbn. destruct (drainer s); try done.
    destruct i_drainer0 as (? & ? & Hp & ? & ?). rewrite (Hpay _ Hp). done.
  - destruct i_log0. split; sys_cbn; try done.
    intros T p' Hin. destruct (log_drained0 T p' Hin) as (? & Hp & ?). rewrite (Hpay _ Hp). done.
Qed.

(** Owners of different threads have different slots. *)
Lemma owners_apart s i j t t' :
  inv s -> i <> j -> holds (writers s i) = Some t -> holds (writers s j) = Some t' ->
  gT (gh s) i mod N <> gT (gh s) j mod N.
Proof.
  intros Hi Hij H1 H2 E. apply (i_uniq _ Hi i j t t' Hij H1 H2).
  destruct (owned_window s i t Hi H1) as (_ & _ & _ & E1).
  destruct (owned_window s j t' Hi H2) as (_ & _ & _ & E2). by rewrite <- E1, <- E2, E.
Qed.

Lemma take_insert_next p cs k :
  length cs = 8%nat -> (k < 8)%nat -> take k cs = take k (words p) ->
  take (k + 1) (<[k := payload_word p k]> cs) = take (k + 1) (words p).
Proof.
  intros Hl Hk Ht. replace (k + 1)%nat with (S k) by lia.
  rewrite !(take_S_r _ k (payload_word p k)).
  - rewrite take_insert_ge by lia. by rewrite Ht.
  - do 8 (destruct k as [|k]; [done |]). lia.
  - apply list_lookup_insert_eq. lia.
Qed.

Lemma inv_w_store s i t p k :
  inv s -> writers s i = WStore t p k -> (k < 8)%nat ->
  inv (set_ring (set_writer s i (WStore t p (k + 1)))
         (set_cell N (ring s) t k (payload_word p k))).
Proof.
  intros Hi Hw Hk. pose proof (not_released s i Hi ltac:(by rewrite Hw)) as Hhost.
  assert (holds (writers s i) = Some t) as Hh by (by rewrite Hw).
  destruct (owned_window s i t Hi Hh) as (-> & Hwin & Hnp & Hsl).
  pose proof (i_own _ Hi i _ Hh) as (_ & _ & _ & Hkind).
  pose proof (owners_apart s i) as Hap.
  assert (forall j t', holds (upd (writers s) i (WStore (tick (gT (gh s) i)) p (k + 1)) j) = Some t' ->
    holds (writers s j) = Some t') as Hold.
  { intros j t'. unfold upd. case_decide as Ej; [subst; by rewrite Hh | done]. }
  pose proof (fun x => slotZ_set (ring s) (gT (gh s) i)
    (mkSlot (gate (slot_at N (ring s) (tick (gT (gh s) i))))
       (<[k := payload_word p k]> (cells (slot_at N (ring s) (tick (gT (gh s) i))))))
    x (i_len _ Hi)) as Hz.
  fold (set_cell N (ring s) (tick (gT (gh s) i)) k (payload_word p k)) in Hz.
  rewrite slot_at_tick in Hz.
  assert (forall x, 0 <= x < N -> x <> gT (gh s) i mod N ->
    slotZ (set_cell N (ring s) (tick (gT (gh s) i)) k (payload_word p k)) x = slotZ (ring s) x) as Hother.
  { intros x Hx Hne. rewrite Hz by done. by rewrite decide_False. }
  pose proof (Hz (gT (gh s) i mod N) (mod_range _)) as Hsame. rewrite decide_True in Hsame by done.
  assert (inv s) as Hi' by done. destruct Hi. split; sys_cbn; try done.
  - unfold set_cell. by rewrite length_set_slot.
  - intros x Hx. specialize (i_slot0 x Hx). unfold slot_inv in *.
    destruct (decide (x = gT (gh s) i mod N)) as [-> | Hne]; [| by rewrite Hother].
    rewrite Hsame. cbn [gate cells]. rewrite length_insert.
    destruct Hkind as [Hk1 | Hk1]; rewrite Hk1 in *; done.
  - intros j t' H. apply (i_own0 j t'), Hold, H.
  - intros j. specialize (i_local0 j). unfold upd at 1. case_decide as Ej; [subst j |].
    + rewrite Hw in i_local0. destruct i_local0 as (_ & Hp & Hpok & Ht). cbn [local_inv].
      rewrite Hsame. cbn [cells]. split_and!; try done; [lia |]. apply take_insert_next; try done.
      specialize (i_slot0 _ (mod_range (gT (gh s) i))). unfold slot_inv in i_slot0.
      destruct (gslot _ _). tauto.
    + unfold local_inv in *. destruct (writers s j) eqn:Ew; try done;
        (rewrite Hother; [done | apply mod_range |]; intros E;
         eapply (Hap j); [done | by intros -> | exact Hh | by rewrite Ew | done]).
  - intros j l t1 t2 Hjk H1 H2. by apply (i_uniq0 j l t1 t2); [| apply Hold | apply Hold].
  - intros t' j Hj. unfold upd. case_decide as Ej; [subst; eauto | by apply i_host0].
  - unfold drainer_inv in *. destruct (drainer s); try done.
    destruct i_drainer0 as (? & Hg & ? & ?). rewrite Hother; [done | apply mod_range |].
    intros E. rewrite E in Hg. destruct Hkind as [Hkind | Hkind]; rewrite Hkind in Hg; done.
Qed.

(** *** Steps that change a gate *)

Lemma slotZ_set_gate r T v x :
  length (slots r) = Z.to_nat N -> 0 <= x < N ->
  cells (slotZ (set_gate N r (tick T) v) x) = cells (slotZ r x) /\
  gate (slotZ (set_gate N r (tick T) v) x) =
    if decide (x = T mod N) then v else gate (slotZ r x).
Proof.
  intros Hl Hx. unfold set_gate. rewrite slotZ_set, slot_at_tick by done.
  case_decide as Ex; [subst; done | done].
Qed.

Definition regate (g : ghost) (T : Z) (k' : gkind) (T' : Z) (pub' : Z -> bool) : ghost :=
  mkGhost (gH g) (gC g) (gT g) (updZ (gslot g) (T mod N) (k', T')) (gpay g) pub'
    (gdrained g) (gdead g).

(** Replacing the gate of ticket [T], owned or being drained, by [(k', T')]. *)
Lemma inv_regate s ws' d' h' T k0 k' T' pub' :
  let g' := regate (gh s) T k' T' pub' in
  let r' := set_gate N (ring s) (tick T) (enc k' T') in
  inv s -> gslot (gh s) (T mod N) = (k0, T) -> T < gH (gh s) -> (T' = T \/ T' = T + N) ->
  match k' with
  | KFree => gC (gh s) <= T'
  | KPub => T' = T /\ gC (gh s) <= T /\ pub' T = true /\
            cells (slotZ (ring s) (T mod N)) = words (gpay (gh s) T) /\ payload_ok (gpay (gh s) T)
  | KFenced => T' = T /\ T = gC (gh s) /\ d' = DFenced (tick (gC (gh s)))
  end ->
  (d' = drainer s \/ forall c, drainer s <> DFenced c) ->
  (forall j t, holds (ws' j) = Some t -> holds (writers s j) = Some t /\
     (gT (gh s) j = T -> k' = KFenced)) ->
  (forall j, ws' j = writers s j \/ ws' j = WIdle \/ exists t o, ws' j = WDone t o) ->
  (forall U, pub' U = true <-> gpub (gh s) U = true \/ (U = T /\ k' = KPub)) ->
  (forall t i, h' = HRelease t i -> ws' i = WDead t) ->
  drainer_inv r' g' d' -> pub_inv g' d' -> log_inv g' ->
  inv (mkSys r' ws' d' h' g').
Proof.
  intros g' r' Hi Hold HT HT' Hk' Hd Hws Hwl Hpub Hh Hdr Hpi Hlog.
  pose proof (fun x Hx => slotZ_set_gate (ring s) T (enc k' T') x (i_len _ Hi) Hx) as Hz. fold r' in Hz.
  pose proof (N_bounds N HN) as HNb.
  assert (forall j t, holds (ws' j) = Some t -> gT (gh s) j mod N = T mod N ->
            gT (gh s) j = T) as Hsame.
  { intros j t Hj E. destruct (owned_window s j t Hi) as (_ & _ & _ & E'); [by apply (Hws j t) |].
    rewrite E, Hold in E'. done. }
  assert (forall x, x <> T mod N -> gslot g' x = gslot (gh s) x) as Hgne
    by (intros; cbn; by rewrite updZ_ne).
  assert (gslot g' (T mod N) = (k', T')) as Hgeq by (cbn; by rewrite updZ_eq).
  destruct Hi. split; cbn [ring writers drainer host gh]; try done.
  - unfold r', set_gate. by rewrite length_set_slot.
  - intros x Hx. destruct (Hz x Hx) as [Hc Hg]. specialize (i_slot0 x Hx). unfold slot_inv in *.
    rewrite Hc, Hg. destruct (decide (x = T mod N)) as [-> | Hne].
    + rewrite Hgeq. rewrite Hold in i_slot0. cbn [regate g' gH gC gpub gpay].
      destruct i_slot0 as (_ & _ & Hwin & Hlen & _). split; [done |].
      split; [destruct HT' as [-> | ->]; [done |];
              rewrite Zplus_mod, Z.mod_same, Z.add_0_r, Z.mod_mod by lia; done |].
      split; [lia |]. split; [done |]. destruct k'; [done | |].
      * destruct Hk' as (-> & ? & ? & ? & ?). split_and!; done || lia.
      * destruct Hk' as (-> & -> & ?). split; [done | by right].
    + rewrite Hgne by done. destruct (gslot (gh s) x) as [k U] eqn:Eg.
      cbn [regate g' gH gC gpub gpay]. destruct i_slot0 as (H1 & H2 & H3 & H4 & H5).
      split_and!; try done; try lia. destruct k; try done.
      * destruct H5 as (? & ? & ? & ?). split_and!; try done; [lia.. |]. apply Hpub. auto.
      * destruct H5 as (? & [? | [? Hdf]]); split; try done; [by left |].
        destruct Hd as [-> | Hd]; [by right | by rewrite Hdf in Hd; destruct (Hd (tick (gC (gh s))))].
  - intros j t Hj. destruct (Hws j t Hj) as [Hj' HjT]. destruct (i_own0 j t Hj') as (H1 & H2 & H3 & H4).
    assert (pub' (gT (gh s) j) = false) as Hpj.
    { destruct (pub' (gT (gh s) j)) eqn:E; [| done]. apply Hpub in E as [E | [E ->]]; [congruence |].
      by apply HjT in E. }
    unfold owner_inv. cbn [regate g' gH gC gT gpub]. split_and!; try done. fold g'.
    destruct (decide (gT (gh s) j mod N = T mod N)) as [E | E].
    + right. pose proof (Hsame j t Hj E) as EjT. rewrite E, Hgeq, EjT.
      specialize (HjT EjT). subst k'. destruct Hk' as (-> & _). done.
    + by rewrite Hgne.
  - intros j. specialize (i_local0 j). destruct (Hwl j) as [-> | [-> | (t & o & ->)]]; [| done..].
    unfold local_inv in *. cbn [regate g' gH gT gpay]. fold g'.
    destruct (writers s j) eqn:Ew; try done.
    + destruct i_local0 as (? & ? & Himp). split_and!; try done. intros E. specialize (Himp E).
      rewrite Hgne; [done |]. intros E'. rewrite E', Hold in Himp. injection Himp. lia.
    + rewrite (proj1 (Hz _ (mod_range _))). done.
    + rewrite (proj1 (Hz _ (mod_range _))). done.
  - intros j k t t' Hjk H1 H2. cbn [regate g' gT].
    apply (i_uniq0 j k t t' Hjk); [by apply (Hws j t) | by apply (Hws k t')].
Qed.

(** What a writer's or the host's change of a gate means to the drainer. *)
Lemma regate_drainer s T k0 k' T' pub' :
  let g' := regate (gh s) T k' T' pub' in
  let r' := set_gate N (ring s) (tick T) (enc k' T') in
  inv s -> gslot (gh s) (T mod N) = (k0, T) -> k0 <> KPub ->
  (T' = T + N \/ (T' = T /\ k0 <> KFenced)) ->
  (forall U, gpub (gh s) U = true -> pub' U = true) -> drainer_inv r' g' (drainer s).
Proof.
  intros g' r' Hi Hold Hk0 HT' Hpub. pose proof (N_bounds N HN) as HNb.
  pose proof (slotZ_set_gate (ring s) T (enc k' T') (gC (gh s) mod N) (i_len _ Hi) (mod_range _))
    as [Hc _]. fold r' in Hc. pose proof (i_drainer _ Hi) as Hd.
  assert (gC (gh s) < (gslot (gh s) (gC (gh s) mod N)).2 ->
          gC (gh s) < (gslot g' (gC (gh s) mod N)).2) as Hlt.
  { unfold g'. cbn [regate gslot]. unfold updZ. case_decide as Ex; [| done].
    rewrite Ex, Hold. cbn. lia. }
  unfold drainer_inv in *. cbn [regate g' gC gH gpub gpay]. fold g'.
  destruct (drainer s); try done.
  - destruct Hd as (? & Hg & ? & ?). rewrite Hc. split_and!; try done.
    unfold g'. cbn [regate gslot]. rewrite updZ_ne; [done |]. intros E. rewrite E, Hold in Hg.
    congruence.
  - destruct Hd as (? & ? & ? & ? & ?). split_and!; auto.
  - destruct Hd as (? & ? & ?). split_and!; auto.
  - destruct Hd as (? & ? & Hg). split_and!; try done.
    destruct Hg as [Hg | Hg]; [| by right; apply Hlt].
    unfold g'. cbn [regate gslot]. unfold updZ. case_decide as Ex; [| by left].
    rewrite Ex, Hold in Hg. injection Hg as -> ->. right. cbn. destruct HT' as [-> | [_ ?]]; [lia | done].
Qed.

Lemma regate_pub s T k0 k' T' pub' :
  inv s -> gslot (gh s) (T mod N) = (k0, T) -> k0 <> KPub -> T < gH (gh s) ->
  (k' = KPub -> T' = T) ->
  (forall U, pub' U = true <-> gpub (gh s) U = true \/ (U = T /\ k' = KPub)) ->
  pub_inv (regate (gh s) T k' T' pub') (drainer s).
Proof.
  intros Hi Hold Hk0 HT Hk' Hpub U HU. apply Hpub in HU as [HU | [-> ->]].
  - destruct (i_pub _ Hi U HU) as [HUH Hcase]. cbn. split; [done |].
    destruct Hcase as [? | [Hs | ?]]; auto. right. left. rewrite updZ_ne; [done |].
    intros E. rewrite E, Hold in Hs. congruence.
  - cbn. split; [done |]. right. left. by rewrite updZ_eq, Hk'.
Qed.

Lemma regate_log s T k' T' : inv s -> log_inv (regate (gh s) T k' T' (gpub (gh s))).
Proof. intros []. by destruct i_log0. Qed.

Lemma writer_released s i w :
  (forall t, holds w <> Some t) ->
  forall j t, holds (upd (writers s) i w j) = Some t -> holds (writers s j) = Some t /\ j <> i.
Proof. intros Hw j t. unfold upd. case_decide as Ej; [by intros ?%Hw | done]. Qed.

Lemma inv_w_pub s i t p :
  inv s -> writers s i = WStore t p 8 -> gate_at N s t = t ->
  inv (set_gh (set_ring (set_writer s i (WDone t Published))
                 (set_gate N (ring s) t (published_gate t)))
         (g_publish (g_gate (gh s) (gT (gh s) i mod N) KPub (gT (gh s) i)) (gT (gh s) i))).
Proof.
  intros Hi Hw Hg. pose proof (not_released s i Hi ltac:(by rewrite Hw)) as Hhost.
  assert (holds (writers s i) = Some t) as Hh by (by rewrite Hw).
  destruct (owned_window s i t Hi Hh) as (-> & Hwin & Hnp & Hsl).
  set (T := gT (gh s) i) in *.
  pose proof (gate_free s T Hi ltac:(lia) Hg) as Hold.
  pose proof (i_local _ Hi i) as Hl. rewrite Hw in Hl. destruct Hl as (_ & Hpay & Hpok & Htk).
  pose proof (i_slot _ Hi _ (mod_range T)) as Hs. unfold slot_inv in Hs. rewrite Hold in Hs.
  destruct Hs as (_ & _ & _ & Hlen & HCT). fold T in Htk, Hpay.
  rewrite !take_ge in Htk by (rewrite ?length_words; lia).
  assert (forall U, updZ (gpub (gh s)) T true U = true <->
    gpub (gh s) U = true \/ (U = T /\ KPub = KPub)) as Hpub.
  { intros U. unfold updZ. case_decide as EU; [subst U; tauto |].
    split; [auto | intros [? | [? _]]; [done | congruence]]. }
  unfold published_gate. rewrite next_ticket_tick.
  apply (inv_regate s _ _ _ T KFree KPub T);
    [done | done | lia | by left | | by left | | | done | | | |].
  - rewrite updZ_eq, Hpay. auto.
  - intros j t' Hj. apply writer_released in Hj as [Hj Hji]; [| done]. split; [done |].
    intros E. exfalso. by apply (i_uniq _ Hi j i t' (tick T)).
  - intros j. sys_cbn. unfold upd. case_decide; [subst; eauto | auto].
  - intros t' j Hj. sys_cbn. unfold upd. case_decide as Ej; [subst; eauto | by apply (i_host _ Hi)].
  - apply (regate_drainer s T KFree KPub T); try done; [by right |]. intros U HU. apply Hpub. auto.
  - by apply (regate_pub s T KFree KPub T); [| | | lia | |].
  - destruct (i_log _ Hi) as [L1 L2 L3 L4]. split; cbn [regate gdrained gdead gC gpub gpay]; try done.
    + intros U q Hin. destruct (L1 U q Hin) as (? & ? & ?). split; [done |].
      split; [apply Hpub; auto | done].
    + intros U Hin. destruct (L3 U Hin) as [HU ?]. split; [done |].
      rewrite updZ_ne; [done |]. intros ->. lia.
Qed.

(** A release by the owner or by the host hands the slot to the next lap. *)
Lemma inv_release s i t w h' k0 :
  inv s -> holds (writers s i) = Some t -> gslot (gh s) (gT (gh s) i mod N) = (k0, gT (gh s) i) ->
  k0 <> KPub -> (w = WIdle \/ exists o, w = WDone t o) ->
  (forall t' j, h' = HRelease t' j -> j <> i /\ host s = h') ->
  inv (mkSys (set_gate N (ring s) t (release_gate N t)) (upd (writers s) i w) (drainer s) h'
         (g_gate (gh s) (gT (gh s) i mod N) KFree (gT (gh s) i + N))).
Proof.
  intros Hi Hh Hold Hk0 Hw Hh'. destruct (owned_window s i t Hi Hh) as (-> & Hwin & Hnp & Hsl).
  set (T := gT (gh s) i) in *. rewrite (release_gate_tick N HN).
  change (tick (T + N)) with (enc KFree (T + N)).
  pose proof (i_le _ Hi). pose proof (N_bounds N HN).
  assert (forall t', holds w <> Some t') as Hnw by (by destruct Hw as [-> | [o ->]]).
  assert (forall U, gpub (gh s) U = true <-> gpub (gh s) U = true \/ (U = T /\ KFree = KPub)) as Hpub
    by (intros U; split; [auto | intros [? | [_ ?]]; done]).
  apply (inv_regate s _ _ _ T k0 KFree (T + N));
    [done | done | lia | by right | lia | by left | | | done | | | |].
  - intros j t' Hj. apply writer_released in Hj as [Hj Hji]; [| done]. split; [done |].
    intros E. exfalso. by apply (i_uniq _ Hi j i t' (tick T)).
  - intros j. unfold upd. case_decide; [subst; destruct Hw as [-> | [o ->]]; eauto | auto].
  - intros t' j Hj. destruct (Hh' t' j Hj) as [Hji Hj']. rewrite upd_ne by done.
    apply (i_host _ Hi). congruence.
  - apply (regate_drainer s T k0); auto.
  - apply (regate_pub s T k0); try done. lia.
  - by apply regate_log.
Qed.

(** *** The drainer *)

Lemma inv_set_drainer s d :
  inv s -> (forall c, drainer s <> DFenced c) -> (forall c p, drainer s <> DAdvance c p) ->
  drainer_inv (ring s) (gh s) d -> inv (set_drainer s d).
Proof.
  intros [] Hf Ha Hd. split; sys_cbn; try done.
  - intros x Hx. specialize (i_slot0 x Hx). unfold slot_inv in *.
    destruct (gslot (gh s) x) as [[] T]; try done.
    destruct i_slot0 as (? & ? & ? & ? & ? & [? | [_ Hdf]]); [tauto |]. by apply Hf in Hdf.
  - intros T HT. destruct (i_pub0 T HT) as [? [? | [? | (_ & c & p & Hda)]]]; auto.
    by apply Ha in Hda.
Qed.

Lemma near_cursor s :
  inv s ->
  near N (gslot (gh s) (gC (gh s) mod N)).2 (gC (gh s)) /\
  gate_at N s (cursor (ring s)) =
    enc (gslot (gh s) (gC (gh s) mod N)).1 (gslot (gh s) (gC (gh s) mod N)).2.
Proof.
  intros Hi. rewrite (i_cursor _ Hi). destruct (gate_at_slot s (gC (gh s)) Hi) as (He & Hm & Hr).
  pose proof (i_le _ Hi). pose proof (N_bounds N HN). split; [| done]. split; [done | lia].
Qed.

Lemma mod_close T U : T mod N = U mod N -> 0 < T - U < N -> False.
Proof.
  intros E H. pose proof (N_bounds N HN). pose proof (Z.div_mod T N ltac:(lia)).
  pose proof (Z.div_mod U N ltac:(lia)). rewrite E in *. clear E.
  generalize dependent (U mod N). generalize dependent (T / N). generalize dependent (U / N).
  intros q q' m HT HU. assert (T - U = N * (q' - q)) as Hd by (rewrite Z.mul_sub_distr_l; lia).
  generalize dependent (q' - q). intros x Hd. rewrite Hd in H. clear Hd HT HU HN.
  destruct (Z.le_gt_cases x 0); nia.
Qed.

Lemma inv_d_published s :
  inv s -> drainer s = DIdle ->
  gate_at N s (cursor (ring s)) = published_gate (cursor (ring s)) ->
  inv (set_drainer s (DRead (cursor (ring s)) 0 [])).
Proof.
  intros Hi Hd Hg. destruct (near_cursor s Hi) as [Hn He]. rewrite He, (i_cursor _ Hi) in Hg.
  unfold published_gate in Hg. rewrite next_ticket_tick in Hg. apply (enc_pub N HN) in Hg as [H1 H2]; [| done].
  apply inv_set_drainer; [done | by rewrite Hd.. |]. cbn. rewrite (i_cursor _ Hi).
  split_and!; try done; [| lia]. destruct (gslot _ _); cbn in *; congruence.
Qed.

Lemma inv_d_past s :
  inv s -> drainer s = DIdle ->
  gate_at N s (cursor (ring s)) <> published_gate (cursor (ring s)) ->
  gate_is_past N (gate_at N s (cursor (ring s))) (cursor (ring s)) = true ->
  inv (set_drainer s (DSkip (cursor (ring s)))).
Proof.
  intros Hi Hd Hnp Hg. destruct (near_cursor s Hi) as [[Hm Hn] He]. rewrite He, (i_cursor _ Hi) in *.
  unfold published_gate in Hnp. rewrite next_ticket_tick in Hnp.
  pose proof (i_slot _ Hi _ (mod_range (gC (gh s)))) as Hs. unfold slot_inv in Hs.
  pose proof (i_le _ Hi).
  apply inv_set_drainer; [done | by rewrite Hd.. |]. cbn.
  destruct (gslot (gh s) (gC (gh s) mod N)) as [k T] eqn:Eg. cbn [fst snd] in *.
  destruct Hs as (_ & HTm & Hwin & _ & Hk).
  apply (gate_is_past_enc N HN) in Hg; [| done | lia | destruct k; [done | lia | done]
    | intros [-> ->]; done].
  destruct Hg as [[-> ->] | [_ Hlt]].
  { destruct Hk as [_ [? | [_ ?]]]; [lia | congruence]. }
  split_and!; try done. destruct (decide (gC (gh s) = gH (gh s))) as [E | E]; [| lia].
  exfalso. apply (mod_close T (gC (gh s))); [done | lia].
Qed.

Lemma inv_d_read s c k acc :
  inv s -> drainer s = DRead c k acc -> (k < 8)%nat ->
  inv (set_drainer s (DRead c (k + 1) (acc ++ to_le 4 (nth k (cells (slot_at N (ring s) c)) 0)))).
Proof.
  intros Hi Hd Hk. pose proof (i_drainer _ Hi) as Hdi. rewrite Hd in Hdi.
  destruct Hdi as (-> & Hg & _ & ->). pose proof (i_slot _ Hi _ (mod_range (gC (gh s)))) as Hs.
  unfold slot_inv in Hs. rewrite Hg in Hs. destruct Hs as (_ & _ & _ & Hlen & _).
  apply inv_set_drainer; [done | by rewrite Hd.. |]. cbn. rewrite slot_at_tick.
  split_and!; try done; [lia |]. replace (k + 1)%nat with (S k) by lia.
  destruct (nth_lookup_or_length (cells (slotZ (ring s) (gC (gh s) mod N))) k 0) as [E | E]; [| lia].
  rewrite (take_S_r _ k _ E), map_app, concat_app. cbn [map concat]. by rewrite app_nil_r.
Qed.

Lemma inv_d_release s c acc :
  inv s -> drainer s = DRead c 8 acc ->
  inv (set_gh (set_ring (set_drainer s (DAdvance c acc)) (set_gate N (ring s) c (release_gate N c)))
         (g_gate (gh s) (gC (gh s) mod N) KFree (gC (gh s) + N))).
Proof.
  intros Hi Hd. pose proof (i_drainer _ Hi) as Hdi. rewrite Hd in Hdi.
  destruct Hdi as (-> & Hg & _ & Hacc). pose proof (i_slot _ Hi _ (mod_range (gC (gh s)))) as Hs.
  unfold slot_inv in Hs. rewrite Hg in Hs. destruct Hs as (_ & _ & _ & Hlen & Hr & Hp & Hcells & Hpok).
  rewrite take_ge in Hacc by lia. rewrite Hcells in Hacc. destruct Hpok as [Hl32 Hbok].
  rewrite read_words in Hacc by done. rewrite (release_gate_tick N HN).
  pose proof (N_bounds N HN).
  assert (forall U, gpub (gh s) U = true <->
    gpub (gh s) U = true \/ (U = gC (gh s) /\ KFree = KPub)) as Hpub
    by (intros U; split; [auto | intros [? | [_ ?]]; done]).
  apply (inv_regate s _ _ _ (gC (gh s)) KPub KFree (gC (gh s) + N));
    [done | done | lia | by right | lia | by rewrite Hd; right | | by auto | done | | | |].
  - intros j t Hj. split; [done |]. intros E. destruct (i_own _ Hi j t Hj) as (_ & _ & Hf & _).
    rewrite E in Hf. congruence.
  - apply (i_host _ Hi).
  - cbn. rewrite updZ_eq. cbn. split_and!; try done; lia.
  - intros U HU. cbn in *. destruct (i_pub _ Hi U HU) as [HUH Hc]. split; [done |].
    destruct (decide (U = gC (gh s))) as [-> | Hne]; [by right; right; eauto |].
    destruct Hc as [? | [Hs | (? & _)]]; [auto | | done].
    right. left. rewrite updZ_ne; [done |]. intros E. rewrite E, Hg in Hs. congruence.
  - by apply regate_log.
Qed.

Lemma inv_d_fence s c :
  inv s -> drainer s = DFence c -> gate_at N s c = c ->
  inv (set_gh (set_ring (set_drainer s (DFenced c)) (set_gate N (ring s) c (Z.lor c FENCED_BIT)))
         (g_gate (gh s) (gC (gh s) mod N) KFenced (gC (gh s)))).
Proof.
  intros Hi Hd Hgate. pose proof (i_drainer _ Hi) as Hdi. rewrite Hd in Hdi. destruct Hdi as (-> & Hlt).
  destruct (near_cursor s Hi) as [Hn He]. rewrite (i_cursor _ Hi) in He. rewrite He in Hgate.
  apply (enc_free N HN) in Hgate as [H1 H2]; [| done].
  assert (gslot (gh s) (gC (gh s) mod N) = (KFree, gC (gh s))) as Hg
    by (destruct (gslot _ _); cbn in *; congruence).
  assert (forall U, gpub (gh s) U = true <->
    gpub (gh s) U = true \/ (U = gC (gh s) /\ KFenced = KPub)) as Hpub
    by (intros U; split; [auto | intros [? | [_ ?]]; done]).
  apply (inv_regate s _ _ _ (gC (gh s)) KFree KFenced (gC (gh s)));
    [done | done | lia | by left | done | by rewrite Hd; right | by auto | by auto | done | | | |].
  - apply (i_host _ Hi).
  - cbn. rewrite updZ_eq. split_and!; try done. by left.
  - intros U HU. cbn in *. destruct (i_pub _ Hi U HU) as [HUH Hc]. split; [done |].
    destruct Hc as [? | [Hs | (_ & c & p & Hda)]]; [auto | | congruence].
    right. left. rewrite updZ_ne; [done |]. intros E. rewrite E, Hg in Hs. congruence.
  - by apply regate_log.
Qed.

(** The cursor passes its ticket. *)
Lemma inv_cursor s c g' :
  inv s -> c = tick (gC (gh s)) -> gC (gh s) < gH (gh s) ->
  (gslot (gh s) (gC (gh s) mod N) = (KFenced, gC (gh s)) \/
   gC (gh s) < (gslot (gh s) (gC (gh s) mod N)).2) ->
  gH g' = gH (gh s) -> gC g' = gC (gh s) + 1 -> gT g' = gT (gh s) -> gslot g' = gslot (gh s) ->
  gpay g' = gpay (gh s) -> gpub g' = gpub (gh s) -> log_inv g' ->
  inv (set_gh (set_ring (set_drainer s DIdle) (set_cursor (ring s) (next_ticket c))) g').
Proof.
  intros Hi -> Hlt Hslot EH EC ET ES EP EU Hlog. destruct Hi.
  split; sys_cbn; rewrite ?EH, ?EC, ?ET, ?ES, ?EP, ?EU; try done.
  - by rewrite next_ticket_tick.
  - lia.
  - intros x Hx. specialize (i_slot0 x Hx). unfold slot_inv in *. rewrite EH, EC, ES, EP, EU.
    change (slotZ (set_cursor (ring s) (next_ticket (tick (gC (gh s))))) x) with (slotZ (ring s) x).
    destruct (gslot (gh s) x) as [k T] eqn:Eg. destruct i_slot0 as (H1 & H2 & H3 & H4 & H5).
    assert (k <> KFenced -> T <> gC (gh s)) as Hne.
    { intros Hk ->. rewrite H2, Eg in Hslot. destruct Hslot as [[= ->] | Hs]; [done |]. cbn in Hs. lia. }
    split_and!; try done; try lia. destruct k.
    + specialize (Hne ltac:(done)). lia.
    + specialize (Hne ltac:(done)). destruct H5 as (? & ? & ? & ?). split_and!; try done; lia.
    + destruct H5 as [? [? | [? _]]]; split_and!; try done; lia.
  - intros i t Hh. unfold owner_inv. rewrite EH, ET, ES, EU. by apply i_own0.
  - intros i. specialize (i_local0 i). unfold local_inv in *. by rewrite EH, ET, ES, EP.
  - intros T. rewrite EU, EH, EC, ES. intros HT. destruct (i_pub0 T HT) as [? [? | [? | [? _]]]];
      (split; [lia |]); [left; lia | auto | left; lia].
Qed.

Lemma StronglySorted_snoc l x :
  StronglySorted Z.lt l -> (forall y, y ∈ l -> y < x) -> StronglySorted Z.lt (l ++ [x]).
Proof.
  intros Hs. induction Hs as [|y l Hs IH Hy]; intros Hx; cbn; [repeat constructor |].
  constructor; [apply IH; intros z Hz; apply Hx; by right |].
  apply Forall_app. split; [done |]. constructor; [| done]. apply Hx. left.
Qed.

Lemma log_advance g' s :
  inv s ->
  gC g' = gC (gh s) + 1 -> gpay g' = gpay (gh s) -> gpub g' = gpub (gh s) ->
  ((gdrained g' = gdrained (gh s) ++ [(gC (gh s), gpay (gh s) (gC (gh s)))] /\
    gdead g' = gdead (gh s) /\ gpub (gh s) (gC (gh s)) = true) \/
   (gdrained g' = gdrained (gh s) /\ gdead g' = gdead (gh s) ++ [gC (gh s)] /\
    gpub (gh s) (gC (gh s)) = false)) ->
  log_inv g'.
Proof.
  intros Hi EC EP EU Hcase. destruct (i_log _ Hi) as [L1 L2 L3 L4]. pose proof (i_le _ Hi).
  destruct Hcase as [(Ed & Ek & Hp) | (Ed & Ek & Hp)]; split; rewrite ?EC, ?EP, ?EU, ?Ed, ?Ek.
  - intros T p [Hin | [= -> ->]%list_elem_of_singleton]%elem_of_app.
    + destruct (L1 T p Hin) as (? & ? & ?). split_and!; try done; lia.
    + split_and!; try done; lia.
  - rewrite map_app. apply StronglySorted_snoc; [done |].
    intros y Hy. apply list_elem_of_fmap in Hy as ([T p] & -> & Hin). destruct (L1 T p Hin). cbn. lia.
  - intros T Hin. destruct (L3 T Hin). split; [lia | done].
  - intros T HT. rewrite map_app. destruct (decide (T = gC (gh s))) as [-> |].
    + left. apply elem_of_app. right. by left.
    + destruct (L4 T ltac:(lia)); [left; apply elem_of_app; auto | auto].
  - intros T p Hin. destruct (L1 T p Hin) as (? & ? & ?). split_and!; try done; lia.
  - done.
  - intros T [Hin | ->%list_elem_of_singleton]%elem_of_app; [destruct (L3 T Hin) |]; split; done || lia.
  - intros T HT. destruct (decide (T = gC (gh s))) as [-> |].
    + right. apply elem_of_app. right. by left.
    + destruct (L4 T ltac:(lia)); [auto | right; apply elem_of_app; auto].
Qed.

Lemma unpublished_at_cursor s :
  inv s -> (forall c p, drainer s <> DAdvance c p) ->
  gslot (gh s) (gC (gh s) mod N) <> (KPub, gC (gh s)) -> gpub (gh s) (gC (gh s)) = false.
Proof.
  intros Hi Ha Hs. destruct (gpub (gh s) (gC (gh s))) eqn:E; [| done]. exfalso.
  destruct (i_pub _ Hi _ E) as [_ [? | [? | (_ & c & p & ?)]]]; [lia | done | by eapply Ha].
Qed.

Lemma inv_dstep s s' : inv s -> dstep N s s' -> inv s'.
Proof.
  intros Hi Hstep. pose proof (i_drainer _ Hi) as Hd.
  destruct Hstep as [E ? | E ? ? | c k acc E ? | c acc E | c p E | c E | E Hh | c E ? | c E ? | c E];
    rewrite E in Hd; cbn in Hd.
  - by apply inv_d_published.
  - by apply inv_d_past.
  - by apply inv_d_read.
  - by apply inv_d_release.
  - destruct Hd as (-> & ? & ? & -> & ?). apply inv_cursor; auto. apply (log_advance _ s); auto.
  - destruct Hd as (-> & ? & Hlt). apply inv_cursor; auto. apply (log_advance _ s); try done. right.
    split_and!; try done. apply unpublished_at_cursor; [done | by rewrite E |].
    intros Hs. rewrite Hs in Hlt. cbn in Hlt. lia.
  - apply inv_set_drainer; [done | by rewrite E.. |]. cbn. rewrite (i_cursor _ Hi). split; [done |].
    pose proof (i_le _ Hi). destruct (decide (gC (gh s) = gH (gh s))) as [EC | ?]; [| lia].
    exfalso. apply Hh. by rewrite (i_head _ Hi), (i_cursor _ Hi), EC.
  - by apply inv_d_fence.
  - apply inv_set_drainer; [done | by rewrite E.. | done].
  - destruct Hd as (-> & ? & Hs). apply inv_cursor; auto. apply (log_advance _ s); try done. right.
    split_and!; try done. apply unpublished_at_cursor; [done | by rewrite E |].
    intros Hs'. rewrite Hs' in Hs. cbn in Hs. destruct Hs; [done | lia].
Qed.

Lemma inv_wstep s i s' : inv s -> wstep N s i s' -> paced N s s' -> inv s'.
Proof.
  intros Hi Hstep Hpace. pose proof (i_local _ Hi i) as Hl.
  assert (forall w t, writers s i = w -> (forall t', w <> WDead t') -> host s = HRelease t i -> False) as Hnr.
  { intros w t Hw Hnd Hh. apply (i_host _ Hi) in Hh. by apply (Hnd t); congruence. }
  destruct Hstep as [E | t E ? | t E ? | t E ? | t E ? | t p E ? ? | t p k E ? | t p E ? | t p E
    | t p E ? | t p E ? ? | t p E ? ? | t E ? | t E ? | t o E | t E];
    try (rewrite E in Hl; cbn in Hl).
  - by apply inv_w_load.
  - apply inv_set_writer; [done | done | done |]. intros ? Hh. exfalso. by eapply Hnr.
  - apply inv_set_writer; [done | done | | intros ? Hh; exfalso; by eapply Hnr].
    cbn. destruct Hl as (-> & Hle). split_and!; try done. intros ET. rewrite ET in *.
    pose proof (N_bounds N HN). apply gate_free; [done | lia | done].
  - destruct (Hpace i t E) as [? ?]; [by cbn; rewrite upd_eq |]. by apply inv_w_claim.
  - apply inv_set_writer; [done | done | done |]. intros ? Hh. exfalso. by eapply Hnr.
  - by apply inv_w_publish.
  - by apply inv_w_store.
  - by eapply inv_w_pub.
  - apply inv_set_writer; [done | by rewrite E | | intros ? Hh; exfalso; by eapply Hnr].
    cbn. destruct Hl as (_ & ? & ? & Ht). split_and!; try done.
    pose proof (i_slot _ Hi _ (mod_range (gT (gh s) i))) as Hs. unfold slot_inv in Hs.
    destruct (gslot _ _). rewrite !take_ge in Ht by (rewrite ?length_words; lia). done.
  - apply inv_set_writer; [done | by rewrite E | | intros ? Hh; exfalso; by eapply Hnr].
    cbn. destruct Hl as (? & ? & ->). split_and!; try done.
  - apply inv_set_writer; [done | by rewrite E | done |]. intros ? Hh. exfalso. by eapply Hnr.
  - apply inv_set_writer; [done | done | done |]. intros ? Hh. exfalso. by eapply Hnr.
  - assert (holds (writers s i) = Some t) as Hh by (by rewrite E).
    destruct (owned_window s i t Hi Hh) as (Ht & Hwin & _). subst t.
    eapply (inv_release s i _ (WDone _ Fenced) (host s) KFenced); try done; [| by right; eauto |].
    + apply gate_fenced; [done | lia | done].
    + intros t' j Hj. split; [| done]. intros ->. by eapply Hnr.
  - apply inv_set_writer; [done | done | done |]. intros ? Hh. exfalso. by eapply Hnr.
  - apply inv_set_writer; [done | done | done |]. intros ? Hh. exfalso. by eapply Hnr.
  - apply inv_set_writer; [done | | done |]; cbn.
    + by rewrite E.
    + intros t' Hh. apply (i_host _ Hi) in Hh. rewrite Hh in E. cbn in E. congruence.
Qed.

Lemma inv_hstep s s' : inv s -> hstep N s s' -> inv s'.
Proof.
  intros Hi Hstep. destruct Hstep as [i t Hh Hw Hg | i t Hh].
  - destruct Hi. split; sys_cbn; try done. by intros t' j [= <- <-].
  - pose proof (i_host _ Hi _ _ Hh) as Hw.
    assert (holds (writers s i) = Some t) as Ho by (by rewrite Hw).
    destruct (i_own _ Hi i t Ho) as (_ & _ & _ & [Hs | Hs]);
      by eapply (inv_release s i t WIdle HIdle); eauto.
Qed.

(** *** The seeded ring *)

Lemma seed_mod x U : 0 <= x < N ->
  (x = U mod N -> (x - U) mod N = 0 /\ (x - (U + 1)) mod N = N - 1) /\
  (x <> U mod N -> 0 < (x - U) mod N /\ (x - (U + 1)) mod N = (x - U) mod N - 1).
Proof.
  intros Hx. pose proof (N_bounds N HN). pose proof (Z.mod_pos_bound (x - U) N ltac:(lia)).
  pose proof (Z.mod_pos_bound U N ltac:(lia)).
  assert ((x - U) mod N = 0 <-> x = U mod N) as Hiff.
  { split.
    - intros E. apply Z.mod_divide in E as [q Eq]; [| lia].
      assert (x mod N = U mod N) as Exu.
      { replace x with (U + q * N) by lia. by rewrite Z.mod_add by lia. }
      rewrite Z.mod_small in Exu by lia. lia.
    - intros ->. rewrite Zminus_mod_idemp_l, Z.sub_diag. by apply Z.mod_0_l; lia. }
  assert ((x - (U + 1)) mod N = ((x - U) mod N - 1) mod N) as Hs.
  { rewrite Zminus_mod_idemp_l. f_equal. lia. }
  split; intros Hc.
  - apply Hiff in Hc. rewrite Hs, Hc. split; [done |].
    replace (0 - 1) with (N - 1 + -1 * N) by lia. rewrite Z.mod_add by lia. apply Z.mod_small. lia.
  - rewrite Hs. assert ((x - U) mod N <> 0) by (by rewrite Hiff). split; [lia |].
    apply Z.mod_small. lia.
Qed.

Lemma seed_gates_spec n : forall U ss x,
  length ss = Z.to_nat N -> Z.of_nat n <= N -> 0 <= x < N ->
  nth (Z.to_nat x) (seed_gates N n (tick U) ss) slot_new =
    (if (x - U) mod N <? Z.of_nat n
     then mkSlot (tick (U + (x - U) mod N)) (cells (nth (Z.to_nat x) ss slot_new))
     else nth (Z.to_nat x) ss slot_new) /\
  length (seed_gates N n (tick U) ss) = length ss.
Proof.
  induction n as [|n IH]; intros U ss x Hl Hn Hx; cbn [seed_gates].
  - pose proof (Z.mod_pos_bound (x - U) N ltac:(lia)). by rewrite (proj2 (Z.ltb_ge _ _)) by lia.
  - set (ss' := <[slot_idx N (tick U) := _]> ss). rewrite next_ticket_tick.
    destruct (IH (U + 1) ss' x) as [E1 E2]; [by unfold ss'; rewrite length_insert | lia | done |].
    rewrite E1, E2. unfold ss'. rewrite length_insert. split; [| done].
    destruct (seed_mod x U Hx) as [Heq Hne].
    unfold slot_idx. rewrite (tick_mod N HN). pose proof (mod_range U).
    destruct (decide (x = U mod N)) as [Ex | Ex].
    + destruct (Heq Ex) as [-> ->]. rewrite (proj2 (Z.ltb_ge _ _)) by lia.
      rewrite (proj2 (Z.ltb_lt _ _)) by lia. rewrite Z.add_0_r, <- Ex.
      apply nth_lookup_Some. apply list_lookup_insert_eq. lia.
    + destruct (Hne Ex) as [Hpos ->].
      assert (nth (Z.to_nat x) (<[Z.to_nat (U mod N):=mkSlot (tick U)
        (cells (nth (Z.to_nat (U mod N)) ss slot_new))]> ss) slot_new =
        nth (Z.to_nat x) ss slot_new) as ->.
      { rewrite !nth_lookup. f_equal. apply list_lookup_insert_ne. lia. }
      replace (U + 1 + ((x - U) mod N - 1)) with (U + (x - U) mod N) by lia.
      destruct ((x - U) mod N - 1 <? Z.of_nat n) eqn:E3; bool_lia.
      * by rewrite (proj2 (Z.ltb_lt _ _)) by lia.
      * by rewrite (proj2 (Z.ltb_ge _ _)) by lia.
Qed.

Lemma inv_start : 0 <= g0 < 2 ^ 31 -> inv (start N g0).
Proof.
  intros Hh. pose proof (N_bounds N HN) as HNb.
  assert (tick g0 = g0) as Htk by (apply Z.mod_small; lia).
  pose proof (fun x Hx => seed_gates_spec (Z.to_nat N) g0 (replicate (Z.to_nat N) slot_new) x
    (length_replicate _ _) ltac:(lia) Hx) as Hseed. rewrite Htk in Hseed.
  split; cbn [start ring writers drainer host gh gH gC gT gslot gpay gpub]; try done.
  - destruct (Hseed 0 ltac:(lia)) as [_ Hl]. cbn [with_head slots]. rewrite Hl. apply length_replicate.
  - cbn. lia.
  - intros x Hx. unfold slot_inv. cbn [gslot gH gC]. destruct (Hseed x Hx) as [Hn _].
    unfold slotZ. cbn [with_head slots]. rewrite Hn.
    pose proof (Z.mod_pos_bound (x - g0) N ltac:(lia)).
    rewrite (proj2 (Z.ltb_lt _ _)) by lia. cbn [gate cells enc].
    split; [done |]. split.
    { rewrite Zplus_mod_idemp_r. replace (g0 + (x - g0)) with x by lia. apply Z.mod_small. lia. }
    split; [lia |]. split; [| lia]. rewrite nth_lookup. destruct (replicate _ _ !! _) as [sl |] eqn:Es; [| done].
    apply lookup_replicate in Es as [-> _]. done.
  - split; cbn; try done.
    + intros T p Hin. by apply elem_of_nil in Hin.
    + constructor.
    + intros T Hin. by apply elem_of_nil in Hin.
    + intros T HT. lia.
Qed.

Lemma reachable_inv s : 0 <= g0 < 2 ^ 31 -> reachable N g0 s -> inv s.
Proof.
  intros Hh. induction 1 as [| s s' _ IH Hs Hpace]; [by apply inv_start |].
  destruct Hs as [i Hs | Hs | Hs].
  - by eapply inv_wstep.
  - by eapply inv_dstep.
  - by eapply inv_hstep.
Qed.
End safety.

(** C26.  Ring safety, for rings of 2 to 2^29 slots, in every interleaving of the atomic
    accesses of any number of writers, the drainer (fencing at will) and the host
    (force-releasing slots of dead writers), in executions that are [paced]: no claimer is
    suspended between its load of the head and its CAS while 2^31 tickets go by, and the
    drainer is not 2^30 - N tickets behind when a ticket is claimed.  Tickets are drained in ticket order, each at most once, with
    exactly the payload its owner published; every ticket the cursor passed was
    either drained or is dead, never both; a ticket whose publish succeeded is
    never dead: it was drained or waits in its slot (or is being handed over). *)
Theorem ring_safety (N h : Z) (s : sys)
  (HN : exists k, 1 <= k <= 29 /\ N = 2 ^ k) (Hh : 0 <= h < 2 ^ 31)
  (Hr : reachable N h s) :
  StronglySorted Z.lt (map fst (gdrained (gh s))) /\
  (forall T p, (T, p) ∈ gdrained (gh s) ->
     h <= T < gC (gh s) /\ gpub (gh s) T = true /\ p = gpay (gh s) T) /\
  (forall T, h <= T < gC (gh s) -> T ∈ map fst (gdrained (gh s)) \/ T ∈ gdead (gh s)) /\
  (forall T, T ∈ gdead (gh s) -> gpub (gh s) T = false /\ T ∉ map fst (gdrained (gh s))) /\
  (forall T, gpub (gh s) T = true ->
     T ∈ map fst (gdrained (gh s)) \/ T < h \/
     gslot (gh s) (T mod N) = (KPub, T) \/ exists c, drainer s = DAdvance c (gpay (gh s) T)).
Proof.
  pose proof (reachable_inv N h HN s Hh Hr) as Hi. destruct (i_log _ _ _ Hi) as [L1 L2 L3 L4].
  split; [done |]. split; [done |]. split; [done |]. split.
  - intros T Hin. destruct (L3 T Hin) as [_ Hf]. split; [done |].
    intros ([U p] & -> & Hd)%list_elem_of_fmap. destruct (L1 U p Hd) as (_ & Ht & _). cbn in *. congruence.
  - intros T HT. destruct (i_pub _ _ _ Hi T HT) as [_ [Hlt | [Hs | (-> & c & p & Hd)]]].
    + destruct (decide (T < h)); [auto |]. left. destruct (L4 T ltac:(lia)) as [? | Hdead]; [done |].
      destruct (L3 T Hdead). congruence.
    + auto.
    + right. right. right. pose proof (i_drainer _ _ _ Hi) as Hdi. rewrite Hd in Hdi.
      destruct Hdi as (_ & _ & _ & -> & _). eauto.
Qed.

(** ** The operations are runs of the steps *)

Section runs.
  Variable N : Z.
  Hypothesis HN : 0 < N.

Definition ring_ok (r : Ring) : Prop :=
  length (slots r) = Z.to_nat N /\ Forall (fun s => length (cells s) = 8%nat) (slots r).

Lemma slot_idx_lt r t : ring_ok r -> (slot_idx N t < length (slots r))%nat.
Proof.
  intros [Hl _]. rewrite Hl. unfold slot_idx. pose proof (Z.mod_pos_bound t N HN). lia.
Qed.

Lemma slot_at_set r t s : ring_ok r -> slot_at N (set_slot N r t s) t = s.
Proof.
  intros Hr. pose proof (slot_idx_lt r t Hr). unfold slot_at, set_slot. cbn [slots].
  apply nth_lookup_Some. by apply list_lookup_insert_eq.
Qed.

Lemma length_cells_at r t : ring_ok r -> length (cells (slot_at N r t)) = 8%nat.
Proof.
  intros Hr. pose proof (slot_idx_lt r t Hr). destruct Hr as [_ Hf]. unfold slot_at.
  by apply (Forall_nth (fun s => length (cells s) = 8%nat) _ (slots r)).
Qed.

Lemma ring_ok_set r t s : ring_ok r -> length (cells s) = 8%nat -> ring_ok (set_slot N r t s).
Proof.
  intros [Hl Hf] Hs. split; cbn [set_slot slots]; [by rewrite length_insert | by apply Forall_insert].
Qed.

Lemma set_slot_twice r t s s' : set_slot N (set_slot N r t s) t s' = set_slot N r t s'.
Proof. unfold set_slot. cbn [slots head cursor]. by rewrite list_insert_insert_eq. Qed.

(** The ring after the first [k] cells of a payload are stored. *)
Fixpoint stored (r : Ring) (t : u32) (p : bytes) (k : nat) : Ring :=
  match k with
  | O => r
  | S k => set_cell N (stored r t p k) t k (payload_word p k)
  end.

Lemma stored_ok r t p k : ring_ok r -> ring_ok (stored r t p k).
Proof.
  intros Hr. induction k as [|k IH]; [done |]. cbn [stored]. unfold set_cell.
  apply ring_ok_set; [done |]. cbn. rewrite length_insert. by apply length_cells_at.
Qed.

Lemma set_slot_same r t : ring_ok r -> set_slot N r t (slot_at N r t) = r.
Proof.
  intros Hr. pose proof (slot_idx_lt r t Hr). unfold set_slot, slot_at. destruct r as [h c ss].
  cbn in *. f_equal. apply list_insert_id.
  destruct (nth_lookup_or_length ss (slot_idx N t) slot_new) as [Hs | Hs]; [exact Hs | lia].
Qed.

Lemma stored_cells r t p k :
  ring_ok r ->
  stored r t p k =
  set_slot N r t (mkSlot (gate (slot_at N r t))
    (fold_left (fun cs i => <[i := payload_word p i]> cs) (seq 0 k) (cells (slot_at N r t)))).
Proof.
  intros Hr. induction k as [|k IH].
  - cbn [stored seq fold_left]. transitivity (set_slot N r t (slot_at N r t)).
    + symmetry. by apply set_slot_same.
    + by destruct (slot_at N r t).
  - cbn [stored]. unfold set_cell. rewrite IH at 1. rewrite set_slot_twice.
    rewrite IH, slot_at_set by done. cbn [gate cells]. f_equal. f_equal.
    rewrite seq_S, fold_left_app. done.
Qed.

Lemma stored_all r t p :
  ring_ok r -> stored r t p 8 = set_slot N r t (write_payload (slot_at N r t) p).
Proof. intros Hr. rewrite stored_cells by done. done. Qed.

(** A thread alone: the reflexive-transitive closure of its steps. *)
Abbreviation wruns i := (rtc (fun s s' => wstep N s i s')).
Abbreviation druns := (rtc (dstep N)).

Lemma run_stores s i t p k :
  writers s i = WStore t p 0 -> (k <= 8)%nat ->
  exists s', wruns i s s' /\ writers s' i = WStore t p k /\ ring s' = stored (ring s) t p k.
Proof.
  intros Hw. induction k as [|k IH]; intros Hk.
  - exists s. split; [apply rtc_refl | done].
  - destruct IH as (s1 & Hr & Hw1 & Hring); [lia |].
    exists (set_ring (set_writer s1 i (WStore t p (k + 1))) (set_cell N (ring s1) t k (payload_word p k))).
    split; [eapply rtc_r; [exact Hr |]; apply w_store; [done | lia] |].
    split; [cbn; rewrite upd_eq; f_equal; lia | by cbn; rewrite Hring].
Qed.
Lemma run_try_claim s i :
  writers s i = WIdle ->
  exists s', wruns i s s' /\ ring s' = (try_claim N (ring s)).1 /\
    writers s' i = match (try_claim N (ring s)).2 with Some t => WClaimed t | None => WIdle end.
Proof.
  intros Hw. set (s1 := set_gh (set_writer s i (WGate (head (ring s)))) (g_load (gh s) i)).
  assert (wstep N s i s1) as H1 by (by apply w_load).
  assert (writers s1 i = WGate (head (ring s))) as Hw1 by (cbn; by rewrite upd_eq).
  unfold try_claim. destruct (gate (slot_at N (ring s) (head (ring s))) =? head (ring s)) eqn:E;
    cbn [negb fst snd]; bool_lia.
  - set (s2 := set_writer s1 i (WCas (head (ring s)))).
    assert (writers s2 i = WCas (head (ring s))) as Hw2 by (cbn; by rewrite upd_eq).
    eexists. split.
    + eapply rtc_l; [exact H1 |]. eapply rtc_l; [by apply w_gate_yes |].
      eapply rtc_once. eapply w_claim; [exact Hw2 | done].
    + cbn. by rewrite upd_eq.
  - exists (set_writer s1 i WIdle). split; [| by cbn; rewrite upd_eq].
    eapply rtc_l; [exact H1 |]. eapply rtc_once. by apply (w_gate_no N s1 i (head (ring s))).
Qed.

Lemma run_publish s i t p :
  ring_ok (ring s) -> writers s i = WClaimed t -> Z.land t TICKET_MASK = t -> payload_ok p ->
  exists s', wruns i s s' /\ ring s' = (publish N (ring s) t p).1 /\
    writers s' i = WDone t (publish N (ring s) t p).2.
Proof.
  intros Hr Hw Ht [Hl Hb]. unfold publish. rewrite Ht.
  set (s1 := set_gh (set_writer s i (WStore t p 0)) (g_pay (gh s) (gT (gh s) i) p)).
  assert (wstep N s i s1) as H1 by (by apply w_publish).
  assert (writers s1 i = WStore t p 0) as Hw1 by (cbn; by rewrite upd_eq).
  destruct (run_stores s1 i t p 8 Hw1 ltac:(lia)) as (s2 & Hrun & Hw2 & Hring).
  change (ring s1) with (ring s) in Hring. rewrite stored_all in Hring by done.
  rewrite <- Hring. fold (gate_at N s2 t).
  destruct (gate_at N s2 t =? t) eqn:E1; bool_lia.
  - eexists. split; [eapply rtc_l; [exact H1 |]; eapply rtc_r; [exact Hrun |]; by eapply w_pub |].
    cbn. by rewrite upd_eq.
  - set (s3 := set_writer s2 i (WReload t p)).
    assert (writers s3 i = WReload t p) as Hw3 by (cbn; by rewrite upd_eq).
    assert (wruns i s s3) as Hr3.
    { eapply rtc_l; [exact H1 |]. eapply rtc_r; [exact Hrun |]. by apply w_pub_lost. }
    destruct (gate_at N s2 t =? Z.lor t FENCED_BIT) eqn:E2; bool_lia.
    + set (s4 := set_writer s3 i (WSelf t)).
      assert (writers s4 i = WSelf t) as Hw4 by (cbn; by rewrite upd_eq).
      eexists. split.
      * eapply rtc_r; [eapply rtc_r; [exact Hr3 |] |].
        -- by apply (w_reload_fenced N s3 i t p).
        -- by apply (w_self N s4 i t).
      * cbn. by rewrite upd_eq.
    + eexists. split; [eapply rtc_r; [exact Hr3 |]; by apply (w_reload_gone N s3 i t p) |].
      cbn. by rewrite upd_eq.
Qed.

Lemma run_reads s c k :
  drainer s = DRead c 0 [] -> (k <= 8)%nat -> length (cells (slot_at N (ring s) c)) = 8%nat ->
  druns s (set_drainer s (DRead c k (concat (map (to_le 4) (take k (cells (slot_at N (ring s) c))))))).
Proof.
  intros Hd Hk Hl. induction k as [|k IH].
  - rewrite take_0. cbn [map concat]. assert (set_drainer s (DRead c 0 []) = s) as ->; [| apply rtc_refl].
    unfold set_drainer. rewrite <- Hd. by destruct s.
  - eapply rtc_r; [apply IH; lia |]. set (s1 := set_drainer _ _).
    pose proof (d_read N s1 c k _ eq_refl ltac:(lia)) as Hs. cbn [s1 set_drainer ring] in Hs.
    destruct (nth_lookup_or_length (cells (slot_at N (ring s) c)) k 0) as [E | E]; [| lia].
    rewrite (take_S_r _ k _ E), map_app, concat_app. cbn [map concat]. rewrite app_nil_r.
    replace (S k) with (k + 1)%nat by lia. exact Hs.
Qed.

Lemma run_poll_drain s :
  ring_ok (ring s) -> drainer s = DIdle ->
  exists s', druns s s' /\ ring s' = (poll_drain N (ring s)).1 /\ drainer s' = DIdle /\
    gdrained (gh s') = gdrained (gh s) ++
      match (poll_drain N (ring s)).2 with Drained _ p => [(gC (gh s), p)] | _ => [] end.
Proof.
  intros Hr Hd. unfold poll_drain. set (c := cursor (ring s)). fold (gate_at N s c).
  destruct (gate_at N s c =? published_gate c) eqn:E1; bool_lia.
  - pose proof (length_cells_at (ring s) c Hr) as Hl.
    set (s1 := set_drainer s (DRead c 0 [])).
    assert (druns s s1) as H1 by (apply rtc_once; by apply d_published).
    pose proof (run_reads s1 c 8 eq_refl ltac:(lia) Hl) as H2.
    rewrite take_ge in H2 by (cbn [s1 set_drainer ring]; lia).
    eexists. split.
    + etrans; [exact H1 |]. etrans; [exact H2 |]. eapply rtc_l; [by apply d_release |].
      eapply rtc_once. by eapply d_advance.
    + cbn. done.
  - destruct (gate_is_past N (gate_at N s c) c) eqn:E2.
    + eexists. split; [eapply rtc_l; [by apply d_past |]; eapply rtc_once; by eapply d_skip |].
      cbn. by rewrite app_nil_r.
    + exists s. split; [apply rtc_refl |]. cbn. by rewrite app_nil_r.
Qed.

Lemma run_fence_cursor s :
  drainer s = DIdle ->
  exists s', druns s s' /\ ring s' = (fence_cursor N (ring s)).1 /\ drainer s' = DIdle.
Proof.
  intros Hd. unfold fence_cursor. set (c := cursor (ring s)).
  destruct (head (ring s) =? c) eqn:E1; bool_lia; [exists s; split; [apply rtc_refl | done] |].
  set (s1 := set_drainer s (DFence c)).
  assert (dstep N s s1) as H1 by (by apply d_fence_load).
  fold (gate_at N s c). destruct (gate_at N s c =? c) eqn:E2; bool_lia.
  - eexists. split; [| split].
    + eapply rtc_l; [exact H1 |]. eapply rtc_l; [by apply (d_fence N s1 c) |].
      eapply rtc_once. by eapply d_fence_advance.
    + done.
    + done.
  - exists (set_drainer s1 DIdle). split; [| done].
    eapply rtc_l; [exact H1 |]. eapply rtc_once. by apply (d_fence_lost N s1 c).
Qed.

Lemma run_force_release s i t :
  host s = HIdle -> writers s i = WDead t -> Z.land t TICKET_MASK = t ->
  exists s', rtc (hstep N) s s' /\ ring s' = (force_release_slot N (ring s) t).1.
Proof.
  intros Hh Hw Ht. unfold force_release_slot. rewrite Ht. fold (gate_at N s t).
  destruct ((gate_at N s t =? t) || (gate_at N s t =? Z.lor t FENCED_BIT)) eqn:E1.
  - eexists. split.
    + eapply rtc_l; [apply (h_load N s i t); try done |].
      * apply orb_true_iff in E1 as [E1 | E1]; bool_lia; auto.
      * eapply rtc_once. by eapply h_store.
    + done.
  - exists s. split; [apply rtc_refl |]. by destruct (_ =? published_gate t).
Qed.
End runs.

(** Run without interference, [try_claim], [publish], [poll_drain],
    [fence_cursor] and [force_release_slot] are runs of the atomic steps of the
    concurrent system, ending in the same ring with the same outcome. *)
Theorem ring_ops_are_runs (N : Z) (s : sys) (i : nat) (HN : 0 < N) (Hr : ring_ok N (ring s)) :
  (writers s i = WIdle ->
   exists s', rtc (fun a b => wstep N a i b) s s' /\ ring s' = (try_claim N (ring s)).1 /\
     writers s' i = match (try_claim N (ring s)).2 with Some t => WClaimed t | None => WIdle end) /\
  (forall t p, writers s i = WClaimed t -> Z.land t TICKET_MASK = t -> payload_ok p ->
   exists s', rtc (fun a b => wstep N a i b) s s' /\ ring s' = (publish N (ring s) t p).1 /\
     writers s' i = WDone t (publish N (ring s) t p).2) /\
  (drainer s = DIdle ->
   exists s', rtc (dstep N) s s' /\ ring s' = (poll_drain N (ring s)).1 /\ drainer s' = DIdle /\
     gdrained (gh s') = gdrained (gh s) ++
       match (poll_drain N (ring s)).2 with Drained _ p => [(gC (gh s), p)] | _ => [] end) /\
  (drainer s = DIdle ->
   exists s', rtc (dstep N) s s' /\ ring s' = (fence_cursor N (ring s)).1 /\ drainer s' = DIdle) /\
  (forall t, host s = HIdle -> writers s i = WDead t -> Z.land t TICKET_MASK = t ->
   exists s', rtc (hstep N) s s' /\ ring s' = (force_release_slot N (ring s) t).1).
Proof.
  split; [| split; [| split; [| split]]].
  - by apply run_try_claim.
  - intros t p. by apply run_publish.
  - by apply run_poll_drain.
  - by apply run_fence_cursor.
  - intros t. by apply (run_force_release N s i t).
Qed.

(** ** Witnesses *)

Module RingWitness.
(** A writer claims ticket 7 and stalls; the drainer fences it. *)
Ltac go H c :=
  let Hs := fresh in
  pose proof c as Hs; apply (reach_step 2 7 _ _ H) in Hs;
  [clear H; rename Hs into H | intros [|j] t Hc Hd; vm_compute in Hc, Hd; try discriminate; split; vm_compute; reflexivity].

Lemma ex_run : exists s, reachable 2 7 s /\ gdead (gh s) = [7] /\ writers s 0%nat = WClaimed 7.
Proof.
  pose proof (reach_start 2 7) as H.
  go H (step_writer 2 _ _ 0 (w_load 2 (start 2 7) 0 eq_refl)).
  match type of H with reachable _ _ ?s =>
    go H (step_writer 2 _ _ 0 (w_gate_yes 2 s 0 7 eq_refl eq_refl)) end.
  match type of H with reachable _ _ ?s =>
    go H (step_writer 2 _ _ 0 (w_claim 2 s 0 7 eq_refl eq_refl)) end.
  match type of H with reachable _ _ ?s =>
    go H (step_drainer 2 _ _ (d_fence_load 2 s eq_refl ltac:(vm_compute; discriminate))) end.
  match type of H with reachable _ _ ?s =>
    go H (step_drainer 2 _ _ (d_fence 2 s 7 eq_refl eq_refl)) end.
  match type of H with reachable _ _ ?s =>
    go H (step_drainer 2 _ _ (d_fence_advance 2 s 7 eq_refl)) end.
  eexists. split; [exact H |]. split; vm_compute; reflexivity.
Qed.

Lemma ring_safety_witness :
  exists s, reachable 2 7 s /\ 7 ∈ gdead (gh s) /\ gpub (gh s) 7 = false.
Proof.
  destruct ex_run as (s & Hr & Hd & _). exists s. split; [exact Hr |].
  destruct (ring_safety 2 7 s) as (_ & _ & _ & Hdead & _).
  - exists 1. split; [lia | reflexivity].
  - lia.
  - exact Hr.
  - split; [rewrite Hd; by left |]. apply Hdead. rewrite Hd. by left.
Defined.

Lemma ring_ops_are_runs_witness :
  exists s', rtc (fun a b => wstep 2 a 0 b) (start 2 7) s' /\ writers s' 0%nat = WClaimed 7.
Proof.
  destruct (ring_ops_are_runs 2 (start 2 7) 0) as (H & _).
  - lia.
  - split; [reflexivity | by repeat constructor].
  - destruct H as (s' & Hr & _ & Hw); [reflexivity |].
    exists s'. split; [exact Hr | exact Hw].
Defined.
End RingWitness.
