(* ===== verification/Manifest.v ===== *)
(** * The manifest: [src/manifest.rs], in memory and as bytes

    Key bounds, table refs, the packed pool of refs, staged edits, the body
    codec with its window writer, and the block framing.  Commit and recovery over
    a device are in [ManifestLog].  The specification of the pool is a list of
    [(level, ref)] pairs ordered by level. *)

From stdpp Require Import base numbers list sorting.
From Stdlib Require Import ZArith Lia.
From S2P Require Import Prelude Device Crc.

(** ** Standard library *)

(** [u64::checked_sub], [u64::checked_add] *)
Definition u64_checked_sub (a b : u64) : option u64 :=
  if (a <? b)%Z then None else Some (a - b)%Z.
Definition u64_checked_add (a b : u64) : option u64 :=
  if (U64_MAX <? a + b)%Z then None else Some (a + b)%Z.

(** [slice::copy_within(lo..hi, dest)] *)
Definition copy_within {A} (lo hi dest : nat) (l : list A) : list A :=
  splice dest (sub lo (hi - lo) l) l.

(** [usize::div_ceil] *)
Definition div_ceil (a b : nat) : nat :=
  if (a mod b =? 0)%nat then a / b else a / b + 1.

(** [slice::partition_point]: the binary search for the first element that fails
    the predicate. *)
Definition partition_point {A} (p : A -> bool) (l : list A) : nat :=
  match binary_search_by
          (fun i => match l !! i with Some x => if p x then Lt else Gt | None => Gt end)
          (length l) with
  | inl i => i
  | inr i => i
  end.

(** [iter_mut().find(p)] followed by a write through the reference *)
Fixpoint update_first {A} (p : A -> bool) (f : A -> A) (l : list A) : list A :=
  match l with
  | [] => []
  | x :: l => if p x then f x :: l else x :: update_first p f l
  end.

(** [iter().position(p)] *)
Fixpoint position_of {A} (p : A -> bool) (l : list A) : option nat :=
  match l with
  | [] => None
  | x :: l => if p x then Some 0 else S <$> position_of p l
  end.

(** ** Key bounds *)

(** [len] is a [u16] used only as a length. *)
Record KeyBound := mkBound {
  kb_len : nat;
  kb_bytes : bytes;
}.

#[export] Instance KeyBound_eq_dec : EqDecision KeyBound.
Proof. solve_decision. Defined.

Definition as_slice (b : KeyBound) : bytes := take (kb_len b) (kb_bytes b).

Definition bound_min (a b : KeyBound) : KeyBound :=
  if (kb_len a =? 0)%nat then b
  else if (kb_len b =? 0)%nat then a
  else if bytes_ltb (as_slice b) (as_slice a) then b else a.

Definition bound_max (a b : KeyBound) : KeyBound :=
  if (kb_len a =? 0)%nat then b
  else if (kb_len b =? 0)%nat then a
  else if bytes_ltb (as_slice a) (as_slice b) then b else a.

(** ** Table refs *)

Record TableRef := mkRef {
  t_id : u32;
  first_block : u64;
  block_count : u32;
  first_key : KeyBound;
  last_key : KeyBound;
  t_max_seq : u64;
  t_min_seq : u64;
  entry_count : u32;
  rdel_blocks : u32;
  node_id : u32;
  seal_wall : u64;
}.

#[export] Instance TableRef_eq_dec : EqDecision TableRef.
Proof. solve_decision. Defined.

Definition data_blocks (t : TableRef) : option u64 :=
  match u64_checked_sub (block_count t) (rdel_blocks t) with
  | Some n => u64_checked_sub n 3
  | None => None
  end.

Definition data_first (t : TableRef) : u64 := first_block t.

Definition rdel_first (t : TableRef) : option u64 :=
  match data_blocks t with
  | Some d => u64_checked_add (first_block t) d
  | None => None
  end.

Definition footer_block (t : TableRef) : option u64 :=
  match u64_checked_add (first_block t) (block_count t) with
  | Some e => u64_checked_sub e 1
  | None => None
  end.

Definition end_block (t : TableRef) : u64 := (first_block t + block_count t)%Z.

Definition covers (t : TableRef) (key : bytes) : bool :=
  bytes_leb (as_slice (first_key t)) key && bytes_leb key (as_slice (last_key t)).

Definition with_first_key (k : KeyBound) (t : TableRef) : TableRef :=
  mkRef (t_id t) (first_block t) (block_count t) k (last_key t) (t_max_seq t) (t_min_seq t)
    (entry_count t) (rdel_blocks t) (node_id t) (seal_wall t).

Definition with_stamp (node : u32) (wall : u64) (t : TableRef) : TableRef :=
  mkRef (t_id t) (first_block t) (block_count t) (first_key t) (last_key t) (t_max_seq t)
    (t_min_seq t) (entry_count t) (rdel_blocks t) node wall.

(** ** The manifest and its edits *)

Record Manifest := mkManifest {
  m_seq : u64;
  wal_head : u64;
  next_table_id : u32;
  flushed_seq : u64;
  seq_high : u64;
  pool : list TableRef;
  counts : list nat;
}.

Record ManifestEdit := mkEdit {
  e_wal_head : option u64;
  e_flushed : u64;
  e_seq_high : u64;
  e_next_table_id : u32;
  removed : u64;
  narrowed : u64;
  narrow_to : KeyBound;
  added : option (nat * TableRef);
  stamped : option (u32 * u32 * u64);
}.

(** [bit]: false past bit 63. *)
Definition bit (mask : u64) (pos : nat) : bool :=
  (pos <? 64)%nat && (Z.land (Z.shiftr mask (Z.of_nat pos)) 1 =? 1)%Z.

Definition edit_set_wal_head (e : ManifestEdit) (head : u64) : ManifestEdit :=
  mkEdit (Some head) (e_flushed e) (e_seq_high e) (e_next_table_id e) (removed e) (narrowed e)
    (narrow_to e) (added e) (stamped e).

Definition edit_note_flushed (e : ManifestEdit) (sq : u64) : ManifestEdit :=
  mkEdit (e_wal_head e) (if (e_flushed e <? sq)%Z then sq else e_flushed e) (e_seq_high e)
    (e_next_table_id e) (removed e) (narrowed e) (narrow_to e) (added e) (stamped e).

Definition edit_raise_seq_high (e : ManifestEdit) (sq : u64) : ManifestEdit :=
  mkEdit (e_wal_head e) (e_flushed e) (if (e_seq_high e <? sq)%Z then sq else e_seq_high e)
    (e_next_table_id e) (removed e) (narrowed e) (narrow_to e) (added e) (stamped e).

Definition edit_advance_next_table_id (e : ManifestEdit) (floor : u32) : ManifestEdit :=
  mkEdit (e_wal_head e) (e_flushed e) (e_seq_high e)
    (if (e_next_table_id e <? floor)%Z then floor else e_next_table_id e) (removed e)
    (narrowed e) (narrow_to e) (added e) (stamped e).

Definition edit_add {E} (e : ManifestEdit) (level : nat) (t : TableRef)
  : result ManifestEdit (Error E) :=
  match added e with
  | Some _ => Err ManifestFull
  | None =>
      Ok (mkEdit (e_wal_head e) (e_flushed e) (e_seq_high e) (e_next_table_id e) (removed e)
            (narrowed e) (narrow_to e) (Some (level, t)) (stamped e))
  end.

Definition set_wal_head (m : Manifest) (head : u64) : Manifest :=
  mkManifest (m_seq m) head (next_table_id m) (flushed_seq m) (seq_high m) (pool m) (counts m).

Definition raise_seq_high (m : Manifest) (sq : u64) : Manifest :=
  mkManifest (m_seq m) (wal_head m) (next_table_id m) (flushed_seq m)
    (if (seq_high m <? sq)%Z then sq else seq_high m) (pool m) (counts m).

Definition note_flushed (m : Manifest) (sq : u64) : Manifest :=
  raise_seq_high
    (mkManifest (m_seq m) (wal_head m) (next_table_id m)
       (if (flushed_seq m <? sq)%Z then sq else flushed_seq m) (seq_high m) (pool m) (counts m))
    sq.

Definition set_next_table_id (m : Manifest) (id : u32) : Manifest :=
  mkManifest (m_seq m) (wal_head m) id (flushed_seq m) (seq_high m) (pool m) (counts m).

Definition bump_table_id {E} (m : Manifest) : result Manifest (Error E) :=
  if (U32_MAX <? next_table_id m + 1)%Z then Err CounterExhausted
  else Ok (set_next_table_id m (next_table_id m + 1)).

Definition alloc_table_id {E} (m : Manifest) : result (Manifest * u32) (Error E) :=
  let id := next_table_id m in
  let? m' := bump_table_id m in Ok (m', id).

Definition advance_next_table_id (m : Manifest) (floor : u32) : Manifest :=
  if (next_table_id m <? floor)%Z then set_next_table_id m floor else m.

Definition set_refs (m : Manifest) (pool : list TableRef) (counts : list nat) : Manifest :=
  mkManifest (m_seq m) (wal_head m) (next_table_id m) (flushed_seq m) (seq_high m) pool counts.

Definition set_seq (m : Manifest) (sq : u64) : Manifest :=
  mkManifest sq (wal_head m) (next_table_id m) (flushed_seq m) (seq_high m) (pool m) (counts m).

(** Pool index where a level begins, and the live refs. *)
Definition start (m : Manifest) (level : nat) : nat := sum_list (take level (counts m)).
Definition live (m : Manifest) : nat := sum_list (counts m).
Definition count_at (m : Manifest) (level : nat) : nat := nth level (counts m) 0.
Definition tables (m : Manifest) : list TableRef := take (live m) (pool m).

Definition find_table (m : Manifest) (id : u32) : option TableRef :=
  List.find (fun t => (t_id t =? id)%Z) (tables m).

Definition level_refs (m : Manifest) (level : nat) : list TableRef :=
  sub (start m level) (count_at m level) (pool m).

Definition l0 (m : Manifest) : list TableRef := take (count_at m 0) (pool m).

Definition max_seq (m : Manifest) : u64 := foldr Z.max 0%Z (t_max_seq <$> tables m).

Definition has_id (id : u32) (t : TableRef) : bool := (t_id t =? id)%Z.

(** A manifest block's parsed header. *)
Record BlockHead := mkHead {
  bh_seq : u64;
  bh_index : nat;
  bh_count : nat;
  bh_len : nat;
}.

(** "hrtman06", little endian *)
Definition MANIFEST_MAGIC : u64 :=
  Eval vm_compute in from_le [104; 114; 116; 109; 97; 110; 48; 54]%Z.
Definition BLOCK_HEADER : nat := 24.
Definition BLOCK_CRC : nat := 4.

(** Where a body is parsed from. *)
Class BodySource (S E : Type) := take_bytes : nat -> S -> result (bytes * S) (Error E).

(** A body held in one slice. *)
#[export] Instance SliceSource {E} : BodySource (list Z) E := fun n body =>
  if (n <=? length body)%nat then Ok (take n body, drop n body) else Err CorruptManifest.

Section shape.
  (** The const generics. *)
  Variables LEVELS TABLES KEY_MAX : nat.

Definition EMPTY_BOUND : KeyBound := mkBound 0 (replicate KEY_MAX 0%Z).

Definition from_slice (key : bytes) : option KeyBound :=
  if (KEY_MAX <? length key)%nat then None
  else
    match try_u16 (length key) with
    | None => None
    | Some _ => Some (mkBound (length key) (splice 0 key (replicate KEY_MAX 0%Z)))
    end.

(** The [while i > 0] loop: increment the last byte below 0xFF. *)
Fixpoint succ_loop (i : nat) (b : bytes) : option KeyBound :=
  match i with
  | O => None
  | S i =>
      let x := nth i b 0%Z in
      if negb (x =? 255)%Z then
        Some (mkBound (i + 1) (take i b ++ [(x + 1)%Z] ++ replicate (length b - (i + 1)) 0%Z))
      else succ_loop i b
  end.

Definition successor (b : KeyBound) : option KeyBound :=
  let len := kb_len b in
  if (len =? 0)%nat then None
  else if (len <? KEY_MAX)%nat then
    Some (mkBound (kb_len b + 1) (splice len [0%Z] (kb_bytes b)))
  else succ_loop len (kb_bytes b).

Definition EMPTY_REF : TableRef :=
  mkRef 0 0 0 EMPTY_BOUND EMPTY_BOUND 0 0 0 0 0 0.

Definition EMPTY_EDIT : ManifestEdit :=
  mkEdit None 0 0 0 0 0 EMPTY_BOUND None None.

Definition CAPACITY : nat := LEVELS * TABLES.

Definition new : Manifest :=
  mkManifest 0 0 0 0 0 (replicate CAPACITY EMPTY_REF) (replicate LEVELS 0%nat).

Definition free_refs (m : Manifest) : nat := CAPACITY - live m.

Definition insert_at {E} (m : Manifest) (pos level : nat) (t : TableRef)
  : result Manifest (Error E) :=
  let used := live m in
  if (CAPACITY <=? used)%nat then Err ManifestFull
  else
    let flat := copy_within pos used (pos + 1) (pool m) in
    let flat := <[pos := t]> flat in
    Ok (set_refs m flat (<[level := (count_at m level + 1)%nat]> (counts m))).

Definition l0_is_full (m : Manifest) : bool := (TABLES <=? count_at m 0)%nat.

Definition add_l0_table {E} (m : Manifest) (t : TableRef) : result Manifest (Error E) :=
  if (TABLES <=? count_at m 0)%nat then Err ManifestFull
  else insert_at m (count_at m 0) 0 t.

Definition level (m : Manifest) (idx : nat) : option (list TableRef) :=
  if (LEVELS <=? idx)%nat then None else Some (level_refs m idx).

Definition add_table_to_level {E} (m : Manifest) (level : nat) (t : TableRef)
  : result Manifest (Error E) :=
  if (LEVELS <=? level)%nat then Err (BadLevel level)
  else if (level =? 0)%nat then add_l0_table m t
  else
    let s := start m level in
    let within :=
      partition_point (fun r => bytes_ltb (as_slice (first_key r)) (as_slice (first_key t)))
        (level_refs m level) in
    insert_at m (s + within) level t.

(** [flat.copy_within(pos + 1..used, pos)] and the freed entry. *)
Definition remove_at (m : Manifest) (pos level : nat) : Manifest :=
  let used := live m in
  let flat := copy_within (pos + 1) used pos (pool m) in
  let flat := <[(used - 1)%nat := EMPTY_REF]> flat in
  set_refs m flat (<[level := (count_at m level - 1)%nat]> (counts m)).

Definition remove_table_from_level {E} (m : Manifest) (level : nat) (id : u32)
  : result (Manifest * bool) (Error E) :=
  if (LEVELS <=? level)%nat then Err (BadLevel level)
  else
    match position_of (has_id id) (level_refs m level) with
    | None => Ok (m, false)
    | Some pos => Ok (remove_at m (start m level + pos) level, true)
    end.

(** The source also has [debug_assert!(first <= t.last_key)], a condition on the caller that a
    release build does not check; the theorems state it as a hypothesis. *)
Definition narrow_table {E} (m : Manifest) (level : nat) (id : u32) (first : KeyBound)
  : result (Manifest * bool) (Error E) :=
  if (LEVELS <=? level)%nat then Err (BadLevel level)
  else
    let s := start m level in
    let n := count_at m level in
    match List.find (has_id id) (level_refs m level) with
    | None => Ok (m, false)
    | Some _ =>
        let raise t :=
          if bytes_ltb (as_slice (first_key t)) (as_slice first)
          then with_first_key first t else t in
        let refs := update_first (has_id id) raise (level_refs m level) in
        Ok (set_refs m (splice s refs (pool m)) (counts m), true)
    end.

(** ** Staged edits *)

Definition position {E} (m : Manifest) (level : nat) (id : u32)
  : result (option nat) (Error E) :=
  if (LEVELS <=? level)%nat then Err (BadLevel level)
  else
    Ok (option_map (fun p => (start m level + p)%nat)
          (position_of (has_id id) (level_refs m level))).

(** The staged edit and whether the table was found. *)
Definition stage_remove {E} (m : Manifest) (e : ManifestEdit) (level : nat) (id : u32)
  : result (ManifestEdit * bool) (Error E) :=
  let? found := position m level id in
  match found with
  | None => Ok (e, false)
  | Some pos =>
      Ok (mkEdit (e_wal_head e) (e_flushed e) (e_seq_high e) (e_next_table_id e)
            (Z.lor (removed e) (Z.shiftl 1 (Z.of_nat pos))) (narrowed e) (narrow_to e)
            (added e) (stamped e), true)
  end.

Definition stage_narrow {E} (m : Manifest) (e : ManifestEdit) (level : nat) (id : u32)
    (first : KeyBound) : result (ManifestEdit * bool) (Error E) :=
  let? found := position m level id in
  match found with
  | None => Ok (e, false)
  | Some pos =>
      if negb (narrowed e =? 0)%Z && negb (bool_decide (narrow_to e = first))
      then Err ManifestFull
      else
        Ok (mkEdit (e_wal_head e) (e_flushed e) (e_seq_high e) (e_next_table_id e)
              (removed e) (Z.lor (narrowed e) (Z.shiftl 1 (Z.of_nat pos))) first
              (added e) (stamped e), true)
  end.

Definition stage_stamp {E} (m : Manifest) (e : ManifestEdit) (id node : u32) (wall : u64)
  : result (ManifestEdit * bool) (Error E) :=
  match find_table m id with
  | None => Ok (e, false)
  | Some _ =>
      match stamped e with
      | Some _ => Err ManifestFull
      | None =>
          Ok (mkEdit (e_wal_head e) (e_flushed e) (e_seq_high e) (e_next_table_id e)
                (removed e) (narrowed e) (narrow_to e) (added e) (Some (id, node, wall)), true)
      end
  end.

(** [(1 << n) - 1], or all ones from 64 on *)
Definition mask_below (n : nat) : u64 :=
  if (64 <=? n)%nat then U64_MAX else (Z.shiftl 1 (Z.of_nat n) - 1)%Z.

Definition check_edit {E} (m : Manifest) (e : ManifestEdit) : result unit (Error E) :=
  let live := live m in
  let live_mask := mask_below live in
  if negb (Z.land (Z.lor (removed e) (narrowed e)) (Z.lxor U64_MAX live_mask) =? 0)%Z
  then Err ManifestFull
  else
    match added e with
    | None => Ok tt
    | Some (level, _) =>
        if (LEVELS <=? level)%nat then Err (BadLevel level)
        else
          let gone := Z.to_nat (count_ones (removed e)) in
          if (CAPACITY <=? live - gone)%nat then Err ManifestFull
          else if (level =? 0)%nat then
            let l0 :=
              (count_at m 0 -
               Z.to_nat (count_ones (Z.land (removed e) (mask_below (count_at m 0)))))%nat in
            if (TABLES <=? l0)%nat then Err ManifestFull else Ok tt
          else Ok tt
    end.

Fixpoint level_at_loop (cs : list nat) (li end_ pos : nat) : nat :=
  match cs with
  | [] => LEVELS - 1
  | n :: cs => if (pos <? end_ + n)%nat then li else level_at_loop cs (li + 1) (end_ + n) pos
  end.

Definition level_at (m : Manifest) (pos : nat) : nat := level_at_loop (counts m) 0 0 pos.

(** The scalar updates of [apply_checked]. *)
Definition apply_scalars (m : Manifest) (e : ManifestEdit) : Manifest :=
  let m := match e_wal_head e with Some head => set_wal_head m head | None => m end in
  let m := note_flushed m (e_flushed e) in
  let m := raise_seq_high m (e_seq_high e) in
  advance_next_table_id m (e_next_table_id e).

(** One step of the removal loop. *)
Definition remove_step (e : ManifestEdit) (m : Manifest) (pos : nat) : Manifest :=
  if bit (removed e) pos then remove_at m pos (level_at m pos) else m.

Definition apply_stamp (m : Manifest) (e : ManifestEdit) : Manifest :=
  match stamped e with
  | Some (id, node, wall) =>
      set_refs m (update_first (has_id id) (with_stamp node wall) (take (live m) (pool m)) ++
                  drop (live m) (pool m)) (counts m)
  | None => m
  end.

Definition apply_narrow (m : Manifest) (e : ManifestEdit) : Manifest :=
  set_refs m (imap (fun pos t => if bit (narrowed e) pos
                                 then with_first_key (narrow_to e) t else t)
                (take (live m) (pool m)) ++ drop (live m) (pool m)) (counts m).

Definition apply_removals (m : Manifest) (e : ManifestEdit) : Manifest :=
  fold_left (remove_step e) (rev (seq 0 (live m))) m.

(** As a release build runs it: the two [debug_assert!]s (the stamped id is live, the added ref
    fits) have no effect, and on an edit [check_edit] accepted the added ref does fit. *)
Definition apply_checked (m : Manifest) (e : ManifestEdit) : Manifest :=
  let m := apply_removals (apply_narrow (apply_stamp (apply_scalars m e) e) e) e in
  match added e with
  | Some (level, t) =>
      match add_table_to_level (E := unit) m level t with Ok m' => m' | Err _ => m end
  | None => m
  end.

Definition apply_edit {E} (m : Manifest) (e : ManifestEdit) : result Manifest (Error E) :=
  let? _ := check_edit m e in Ok (apply_checked m e).

(** ** The view an edit would leave *)

(** The loop of [view_level]: the refs the callback receives, in order. *)
Fixpoint view_loop (e : ManifestEdit) (li pos : nat) (refs : list TableRef)
    (pending : option TableRef) : list TableRef :=
  match refs with
  | [] => match pending with Some a => [a] | None => [] end
  | r :: refs =>
      if bit (removed e) pos then view_loop e li (pos + 1) refs pending
      else
        let t := if bit (narrowed e) pos then with_first_key (narrow_to e) r else r in
        let t :=
          match stamped e with
          | Some (id, node, wall) => if (t_id t =? id)%Z then with_stamp node wall t else t
          | None => t
          end in
        match pending with
        | Some a =>
            if (0 <? li)%nat && bytes_leb (as_slice (first_key a)) (as_slice (first_key t))
            then a :: t :: view_loop e li (pos + 1) refs None
            else t :: view_loop e li (pos + 1) refs pending
        | None => t :: view_loop e li (pos + 1) refs None
        end
  end.

Definition view_level (m : Manifest) (e : ManifestEdit) (li : nat) : list TableRef :=
  let pending :=
    match added e with
    | Some (l, t) => if (l =? li)%nat then Some t else None
    | None => None
    end in
  view_loop e li (start m li) (level_refs m li) pending.

Definition ref_len (t : TableRef) : nat := 56 + kb_len (first_key t) + kb_len (last_key t).

Definition view_body_len (m : Manifest) (e : ManifestEdit) : nat :=
  8 + 4 + 8 + 8 + 4 + 4 * LEVELS +
  fold_left (fun refs li => fold_left (fun refs t => refs + ref_len t)%nat (view_level m e li) refs)
    (seq 0 LEVELS) 0%nat.

Definition body_len (m : Manifest) : nat := view_body_len m EMPTY_EDIT.

(** ** Writing the body through a window *)

Record Window := mkWindow {
  w_out : bytes;
  w_pos : nat;
  w_lo : nat;
}.

Definition window_bytes (w : Window) (b : bytes) : Window :=
  let start := w_pos w in
  let end_ := start + length b in
  let hi := w_lo w + length (w_out w) in
  let from := start `max` w_lo w in
  let to := end_ `min` hi in
  mkWindow
    (if (from <? to)%nat
     then splice (from - w_lo w) (sub (from - start) (to - from) b) (w_out w)
     else w_out w)
    end_ (w_lo w).

Definition window_u16 (w : Window) (v : u16) : Window := window_bytes w (to_le 2 v).
Definition window_u32 (w : Window) (v : u32) : Window := window_bytes w (to_le 4 v).
Definition window_u64 (w : Window) (v : u64) : Window := window_bytes w (to_le 8 v).

Definition write_ref (w : Window) (t : TableRef) : Window :=
  let w := window_u32 w (t_id t) in
  let w := window_u64 w (first_block t) in
  let w := window_u32 w (block_count t) in
  let w := window_u16 w (Z.of_nat (kb_len (first_key t))) in
  let w := window_bytes w (as_slice (first_key t)) in
  let w := window_u16 w (Z.of_nat (kb_len (last_key t))) in
  let w := window_bytes w (as_slice (last_key t)) in
  let w := window_u64 w (t_max_seq t) in
  let w := window_u64 w (t_min_seq t) in
  let w := window_u32 w (entry_count t) in
  let w := window_u32 w (rdel_blocks t) in
  let w := window_u32 w (node_id t) in
  window_u64 w (seal_wall t).

Definition write_level (m : Manifest) (e : ManifestEdit) (w : Window) (li : nat) : Window :=
  let w := window_u32 w (Z.of_nat (length (view_level m e li))) in
  fold_left write_ref (view_level m e li) w.

Definition write_body (m : Manifest) (e : ManifestEdit) (w : Window) : Window :=
  let w := window_u64 w (default (wal_head m) (e_wal_head e)) in
  let w := window_u32 w (Z.max (next_table_id m) (e_next_table_id e)) in
  let w := window_u64 w (Z.max (flushed_seq m) (e_flushed e)) in
  let w := window_u64 w (Z.max (Z.max (seq_high m) (e_seq_high e)) (e_flushed e)) in
  let w := window_u32 w (Z.of_nat LEVELS) in
  fold_left (write_level m e) (seq 0 LEVELS) w.

(** ** Parsing a body *)

Section source.
  Context {S E : Type} `{!BodySource S E}.

Definition src_u16 (s : S) : result (u16 * S) (Error E) :=
  let? (b, s) := take_bytes 2 s in Ok (from_le b, s).
Definition src_u32 (s : S) : result (u32 * S) (Error E) :=
  let? (b, s) := take_bytes 4 s in Ok (from_le b, s).
Definition src_u64 (s : S) : result (u64 * S) (Error E) :=
  let? (b, s) := take_bytes 8 s in Ok (from_le b, s).

Definition decode_bound (s : S) : result (KeyBound * S) (Error E) :=
  let? (len, s) := src_u16 s in
  let n := Z.to_nat len in
  if (KEY_MAX <? n)%nat then Err CorruptManifest
  else
    let? (b, s) := take_bytes n s in
    Ok (mkBound n (splice 0 b (replicate KEY_MAX 0%Z)), s).

Definition decode_tableref (s : S) : result (TableRef * S) (Error E) :=
  let? (id, s) := src_u32 s in
  let? (first_block, s) := src_u64 s in
  let? (block_count, s) := src_u32 s in
  let? (first_key, s) := decode_bound s in
  let? (last_key, s) := decode_bound s in
  let? (max_seq, s) := src_u64 s in
  let? (min_seq, s) := src_u64 s in
  let? (entry_count, s) := src_u32 s in
  let? (rdel_blocks, s) := src_u32 s in
  let? (node_id, s) := src_u32 s in
  let? (seal_wall, s) := src_u64 s in
  Ok (mkRef id first_block block_count first_key last_key max_seq min_seq entry_count
        rdel_blocks node_id seal_wall, s).

(** [for i in 0..count { flat[total + i] = decode_tableref }] *)
Fixpoint decode_refs (count total : nat) (flat : list TableRef) (s : S)
  : result (list TableRef * S) (Error E) :=
  match count with
  | O => Ok (flat, s)
  | Datatypes.S count =>
      let? (t, s) := decode_tableref s in
      decode_refs count (total + 1) (<[total := t]> flat) s
  end.

(** [for li in 0..LEVELS], with [n] levels to go. *)
Fixpoint decode_levels (n li total : nat) (m : Manifest) (s : S)
  : result (Manifest * S) (Error E) :=
  match n with
  | O => Ok (m, s)
  | Datatypes.S n =>
      let? (c, s) := src_u32 s in
      if ((li =? 0)%nat && (Z.of_nat TABLES <? c)%Z) || (Z.of_nat (CAPACITY - total) <? c)%Z
      then Err CorruptManifest
      else
        let count := Z.to_nat c in
        let? (flat, s) := decode_refs count total (pool m) s in
        decode_levels n (li + 1) (total + count)
          (set_refs m flat (<[li := count]> (counts m))) s
  end.

Definition decode_body (s : S) : result (Manifest * S) (Error E) :=
  let? (head, s) := src_u64 s in
  let? (next_id, s) := src_u32 s in
  let? (flushed, s) := src_u64 s in
  let? (high, s) := src_u64 s in
  let? (levels, s) := src_u32 s in
  if negb (levels =? Z.of_nat LEVELS)%Z then Err CorruptManifest
  else
    decode_levels LEVELS 0 0
      (mkManifest 0 head next_id flushed high (pool new) (counts new)) s.

End source.

(** ** Block framing *)

Section block.
  (** The block size. *)
  Variable BLOCK : nat.

Definition chunk : nat := BLOCK - BLOCK_HEADER - BLOCK_CRC.

Definition MAX_BODY : nat :=
  8 + 4 + 8 + 8 + 4 + 4 * LEVELS + CAPACITY * (56 + 2 * KEY_MAX).

Definition max_blocks : u64 := Z.of_nat (div_ceil MAX_BODY chunk).

Definition blocks_for (len : nat) : nat :=
  let n := div_ceil len chunk in if (n =? 0)%nat then 1 else n.

Definition encoded_blocks (m : Manifest) : nat := blocks_for (body_len m).

Definition encode_view_block {E} (m : Manifest) (e : ManifestEdit) (sq : u64) (index : nat)
  : result bytes (Error E) :=
  let body := view_body_len m e in
  let count := blocks_for body in
  if (count <=? index)%nat then Err ManifestFull
  else
    let lo := index * chunk in
    let len := (body - lo) `min` chunk in
    let out := replicate BLOCK 0%Z in
    let w := write_body m e (mkWindow (sub BLOCK_HEADER len out) 0 lo) in
    let out := splice BLOCK_HEADER (w_out w) out in
    let out := splice 0 (to_le 8 MANIFEST_MAGIC) out in
    let out := splice 8 (to_le 8 sq) out in
    match try_u16 index, try_u16 count, try_u32 len with
    | Some i16, Some c16, Some l32 =>
        let out := splice 16 (to_le 2 i16) out in
        let out := splice 18 (to_le 2 c16) out in
        let out := splice 20 (to_le 4 l32) out in
        let crc_end := BLOCK_HEADER + len in
        let crc := crc32 (take crc_end out) in
        Ok (splice crc_end (to_le 4 crc) out)
    | _, _, _ => Err ManifestFull
    end.

Definition encode_block {E} (m : Manifest) (index : nat) : result bytes (Error E) :=
  encode_view_block m EMPTY_EDIT (m_seq m) index.

Definition encode {E} (m : Manifest) : result bytes (Error E) :=
  if (1 <? encoded_blocks m)%nat then Err ManifestFull else encode_block m 0.

(** The length is compared before it is converted, as the checked additions do. *)
Definition check_block (buf : bytes) : option BlockHead :=
  if negb (from_le (sub 0 8 buf) =? MANIFEST_MAGIC)%Z then None
  else
    let sq := from_le (sub 8 8 buf) in
    let index := Z.to_nat (from_le (sub 16 2 buf)) in
    let count := Z.to_nat (from_le (sub 18 2 buf)) in
    let len := from_le (sub 20 4 buf) in
    if (Z.of_nat BLOCK <? Z.of_nat BLOCK_HEADER + len + Z.of_nat BLOCK_CRC)%Z then None
    else
      let len := Z.to_nat len in
      let crc_end := BLOCK_HEADER + len in
      let stored := from_le (sub crc_end BLOCK_CRC buf) in
      if (crc32 (take crc_end buf) =? stored)%Z then Some (mkHead sq index count len)
      else None.

Definition decode {E} (buf : bytes) : result Manifest (Error E) :=
  match check_block buf with
  | None => Err CorruptManifest
  | Some head =>
      if negb (bh_index head =? 0)%nat || negb (bh_count head =? 1)%nat
      then Err CorruptManifest
      else
        let? (out, rest) := decode_body (sub BLOCK_HEADER (bh_len head) buf) in
        match rest with
        | [] => Ok (set_seq out (bh_seq head))
        | _ :: _ => Err CorruptManifest
        end
  end.
End block.
End shape.
