(* ===== verification/ManifestPool.v ===== *)
(** * The ref pool of the manifest refines a list of levels

    [pool_repr] relates the packed pool and its counts to the list of live refs
    tagged with their level, in level order.  Under it the operations of
    [Manifest] act on single levels, and committing an edit writes exactly what
    applying it produces. *)

From stdpp Require Import base numbers list sorting.
From Stdlib Require Import ZArith Lia.
From S2P Require Import Prelude Device Crc Manifest.

(** ** Tagged lists *)

Abbreviation tagged := (list (nat * TableRef)) (only parsing).

(** The refs of one level. *)
Definition lvl (l : nat) (T : list (nat * TableRef)) : list TableRef :=
  snd <$> filter (fun p => p.1 = l) T.

Definition below (l : nat) (T : list (nat * TableRef)) := filter (fun p => p.1 < l) T.
Definition above (l : nat) (T : list (nat * TableRef)) := filter (fun p => l < p.1) T.

Abbreviation in_order := (StronglySorted (fun p q : nat * TableRef => p.1 <= q.1)).

Lemma filter_all {A} (P : A -> Prop) `{!forall x, Decision (P x)} (l : list A) :
  Forall P l -> filter P l = l.
Proof. induction 1; [done |]. rewrite filter_cons_True by done. by f_equal. Qed.

Lemma filter_nothing {A} (P : A -> Prop) `{!forall x, Decision (P x)} (l : list A) :
  Forall (fun x => ~ P x) l -> filter P l = [].
Proof. induction 1; [done |]. by rewrite filter_cons_False. Qed.

Lemma filter_Forall {A} (P : A -> Prop) `{!forall x, Decision (P x)} (l : list A) :
  Forall P (filter P l).
Proof. apply Forall_forall. by intros x [? _]%list_elem_of_filter. Qed.

Lemma lvl_app l T1 T2 : lvl l (T1 ++ T2) = lvl l T1 ++ lvl l T2.
Proof. unfold lvl. by rewrite filter_app, fmap_app. Qed.

Lemma lvl_nil l T : Forall (fun p => p.1 <> l) T -> lvl l T = [].
Proof. intros. unfold lvl. by rewrite filter_nothing. Qed.

Lemma lvl_same l T : Forall (fun p => p.1 = l) T -> lvl l T = T.*2.
Proof. intros. unfold lvl. by rewrite filter_all. Qed.

Lemma lvl_cons l p T : lvl l (p :: T) = (if decide (p.1 = l) then [p.2] else []) ++ lvl l T.
Proof. unfold lvl. rewrite filter_cons. by destruct (decide _). Qed.

(** An ordered list is cut at every level. *)
Lemma split_at_level l T :
  in_order T -> T = below l T ++ filter (fun p => p.1 = l) T ++ above l T.
Proof.
  unfold below, above. induction 1 as [|p T Hs IH Hp]; [done |].
  rewrite !filter_cons. rewrite Forall_forall in Hp.
  destruct (lt_eq_lt_dec p.1 l) as [[Hl | Hl] | Hl].
  - rewrite decide_True by done. rewrite !(decide_False (P := _ = _)), (decide_False (P := _ < p.1)) by lia.
    cbn. by f_equal.
  - rewrite (decide_False (P := p.1 < l)), (decide_True (P := p.1 = l)), decide_False by lia.
    assert (filter (fun p => p.1 < l) T = []) as E.
    { apply filter_nothing, Forall_forall. intros q Hq. specialize (Hp q Hq). cbn in Hp. lia. }
    rewrite E in IH |- *. cbn in *. by f_equal.
  - rewrite (decide_False (P := p.1 < l)), (decide_False (P := p.1 = l)), decide_True by lia.
    assert (filter (fun p => p.1 < l) T = []) as E.
    { apply filter_nothing, Forall_forall. intros q Hq. specialize (Hp q Hq). cbn in Hp. lia. }
    assert (filter (fun p => p.1 = l) T = []) as E'.
    { apply filter_nothing, Forall_forall. intros q Hq. specialize (Hp q Hq). cbn in Hp. lia. }
    rewrite E, E' in IH |- *. cbn in *. by f_equal.
Qed.

Lemma refs_split l T :
  in_order T -> T.*2 = (below l T).*2 ++ lvl l T ++ (above l T).*2.
Proof. intros Hs. unfold lvl. rewrite <- !fmap_app. f_equal. by apply split_at_level. Qed.

Lemma length_lvl_filter l T : length (lvl l T) = length (filter (fun p => p.1 = l) T).
Proof. unfold lvl. apply length_fmap. Qed.

Lemma length_below_S l T :
  length (below (S l) T) = length (below l T) + length (lvl l T).
Proof.
  unfold below. rewrite length_lvl_filter. induction T as [|p T IH]; [done |].
  rewrite !filter_cons. repeat destruct (decide _); cbn [length]; lia.
Qed.

Lemma sum_levels n T :
  sum_list ((fun l => length (lvl l T)) <$> seq 0 n) = length (below n T).
Proof.
  induction n as [|n IH].
  - unfold below. rewrite filter_nothing; [done |]. apply Forall_forall. lia.
  - rewrite seq_S, fmap_app, length_below_S. cbn [fmap list_fmap Nat.add].
    rewrite sum_list_with_app, IH. cbn. lia.
Qed.

Lemma in_order_app T1 T2 :
  in_order (T1 ++ T2) <->
  in_order T1 /\ in_order T2 /\ (forall p q, p ∈ T1 -> q ∈ T2 -> p.1 <= q.1).
Proof. rewrite StronglySorted_app. split; intros (? & ? & ?); auto. Qed.

Definition key_of (t : TableRef) : bytes := as_slice (first_key t).

Abbreviation key_sorted := (StronglySorted (fun a b => bytes_le (key_of a) (key_of b))).

(** ** The representation *)

Section repr.
  Variables LEVELS TABLES KEY_MAX : nat.

  Abbreviation CAP := (CAPACITY LEVELS TABLES).
  Abbreviation EMPTY := (EMPTY_REF KEY_MAX).

Record pool_repr (m : Manifest) (T : list (nat * TableRef)) : Prop := {
  pr_levels : Forall (fun p => p.1 < LEVELS) T;
  pr_order : in_order T;
  pr_len : length T <= CAP;
  pr_pool : pool m = T.*2 ++ replicate (CAP - length T) EMPTY;
  pr_counts : counts m = (fun l => length (lvl l T)) <$> seq 0 LEVELS;
}.

Definition pool_wf (m : Manifest) : Prop := exists T, pool_repr m T.

Lemma new_repr : pool_repr (new LEVELS TABLES KEY_MAX) [].
Proof.
  split; cbn; try constructor; [lia | by rewrite Nat.sub_0_r |].
  apply list_eq. intros i. rewrite list_lookup_fmap.
  destruct (decide (i < LEVELS)).
  - rewrite lookup_replicate_2, lookup_seq_lt by lia. done.
  - rewrite (lookup_ge_None_2 (replicate _ _)) by (rewrite length_replicate; lia).
    by rewrite lookup_seq_ge by lia.
Qed.

Section fixed.
  Context (m : Manifest) (T : list (nat * TableRef)) (Hm : pool_repr m T).

Lemma start_repr l : l <= LEVELS -> start m l = length (below l T).
Proof.
  intros Hl. unfold start. rewrite (pr_counts _ _ Hm), <- fmap_take, take_seq.
  rewrite Nat.min_l by done. apply sum_levels.
Qed.

Lemma live_repr : live m = length T.
Proof.
  unfold live. rewrite (pr_counts _ _ Hm), sum_levels. unfold below.
  by rewrite filter_all by apply (pr_levels _ _ Hm).
Qed.

Lemma count_repr l : l < LEVELS -> count_at m l = length (lvl l T).
Proof.
  intros Hl. unfold count_at. apply nth_lookup_Some.
  rewrite (pr_counts _ _ Hm), list_lookup_fmap, lookup_seq_lt by done. done.
Qed.

Lemma tables_repr : tables m = T.*2.
Proof.
  unfold tables. rewrite live_repr, (pr_pool _ _ Hm).
  apply take_app_length'. by rewrite length_fmap.
Qed.

Lemma level_repr l : l < LEVELS -> level_refs m l = lvl l T.
Proof.
  intros Hl. unfold level_refs. rewrite start_repr, count_repr by lia.
  rewrite (pr_pool _ _ Hm). unfold sub.
  rewrite (refs_split l T (pr_order _ _ Hm)), <- !app_assoc.
  rewrite drop_app_length' by by rewrite length_fmap.
  by apply take_app_length'.
Qed.

Lemma level_at_loop_repr cs li pos p n :
  pos < length T -> T !! pos = Some p -> n = li + length cs -> n = LEVELS ->
  cs = (fun l => length (lvl l T)) <$> seq li (length cs) ->
  li <= p.1 ->
  level_at_loop LEVELS cs li (length (below li T)) pos = p.1.
Proof.
  intros Hpos Hp Hn HL. revert li Hn. induction cs as [|c cs IH]; intros li Hn Hcs Hli.
  - cbn in Hn. pose proof (pr_levels _ _ Hm) as HF. rewrite Forall_lookup in HF.
    specialize (HF _ _ Hp). cbn in HF. lia.
  - cbn [length seq fmap list_fmap] in Hcs. injection Hcs as Hc Hcs.
    cbn [level_at_loop]. rewrite Hc, <- length_below_S.
    pose proof (split_at_level (S li) T (pr_order _ _ Hm)) as Hs.
    destruct (pos <? length (below (S li) T))%nat eqn:E; bool_lia.
    + rewrite Hs, lookup_app_l in Hp by done.
      apply list_elem_of_lookup_2, list_elem_of_filter in Hp. lia.
    + rewrite Nat.add_1_r. apply IH; [cbn in Hn; lia | done |].
      rewrite Hs, lookup_app_r in Hp by done.
      apply list_elem_of_lookup_2, elem_of_app in Hp as [Hp | Hp];
        apply list_elem_of_filter in Hp; lia.
Qed.

Lemma level_at_repr pos p : T !! pos = Some p -> level_at LEVELS m pos = p.1.
Proof.
  intros Hp. unfold level_at.
  assert (length (below 0 T) = 0) as E0.
  { unfold below. rewrite filter_nothing; [done |]. apply Forall_forall. lia. }
  rewrite <- E0 at 2. apply (level_at_loop_repr _ _ _ _ LEVELS); auto with lia.
  - by eapply lookup_lt_Some.
  - by rewrite (pr_counts _ _ Hm), length_fmap, length_seq.
  - by rewrite (pr_counts _ _ Hm), length_fmap, length_seq.
Qed.
End fixed.

Lemma shift_up {X} (A B R : list X) (r t : X) :
  <[length A := t]> (copy_within (length A) (length A + length B) (length A + 1) (A ++ B ++ r :: R))
  = A ++ t :: B ++ R.
Proof.
  unfold copy_within, splice, sub.
  replace (length A + length B - length A) with (length B) by lia.
  rewrite drop_app_length, take_app_length.
  rewrite take_app_ge, drop_app_ge by lia.
  replace (length A + 1 - length A) with 1 by lia.
  replace (length A + 1 + length B - length A) with (S (length B)) by lia.
  rewrite <- app_assoc, insert_app_r_alt, Nat.sub_diag by lia. f_equal.
  rewrite (drop_app_ge B) by lia. replace (S (length B) - length B) with 1 by lia.
  by destruct B.
Qed.

Lemma shift_down {X} (A B R : list X) (x e : X) used :
  used = length A + S (length B) ->
  <[used - 1 := e]> (copy_within (length A + 1) used (length A) (A ++ x :: B ++ R))
  = A ++ B ++ e :: R.
Proof.
  intros ->. unfold copy_within, splice, sub.
  replace (length A + S (length B) - (length A + 1)) with (length B) by lia.
  rewrite drop_app_ge by lia. replace (length A + 1 - length A) with 1 by lia.
  change (drop 1 (x :: B ++ R)) with (B ++ R). rewrite (take_app_length B), (take_app_length A).
  rewrite drop_app_ge by lia.
  replace (length A + length B - length A) with (length B) by lia.
  rewrite insert_app_r_alt by lia.
  replace (length A + S (length B) - 1 - length A) with (length B) by lia.
  f_equal. rewrite insert_app_r_alt, Nat.sub_diag by lia. f_equal.
  destruct (drop (length B) (x :: B ++ R)) as [|y l] eqn:E.
  - apply (f_equal length) in E. rewrite length_drop in E. cbn in E. rewrite length_app in E. lia.
  - cbn. f_equal. apply (f_equal (drop 1)) in E. rewrite drop_drop in E.
    replace (length B + 1) with (S (length B)) in E by lia.
    change (drop (S (length B)) (x :: B ++ R)) with (drop (length B) (B ++ R)) in E.
    by rewrite drop_app_length in E.
Qed.

Lemma count_update T T' lv c :
  lv < LEVELS ->
  length (lvl lv T') = c ->
  (forall l, l <> lv -> length (lvl l T') = length (lvl l T)) ->
  <[lv := c]> ((fun l => length (lvl l T)) <$> seq 0 LEVELS) =
  (fun l => length (lvl l T')) <$> seq 0 LEVELS.
Proof.
  intros Hlv Hc Ho. apply list_eq. intros i.
  destruct (decide (i < LEVELS)) as [Hi | Hi].
  - rewrite (list_lookup_fmap _ (seq 0 LEVELS) i), lookup_seq_lt by done. cbn [fmap option_fmap option_map].
    destruct (decide (i = lv)) as [-> |].
    + rewrite list_lookup_insert_eq by by rewrite length_fmap, length_seq. by f_equal.
    + rewrite list_lookup_insert_ne, list_lookup_fmap, lookup_seq_lt by done.
      cbn. f_equal. by rewrite Ho.
  - rewrite !lookup_ge_None_2; [done | |]; rewrite ?length_insert, length_fmap, length_seq; lia.
Qed.

Lemma length_lvl_mid l A p B :
  length (lvl l (A ++ p :: B)) =
  length (lvl l (A ++ B)) + (if decide (p.1 = l) then 1 else 0).
Proof. rewrite !lvl_app, lvl_cons, !length_app. destruct (decide _); cbn; lia. Qed.

Lemma insert_at_repr {E} m A B lv t :
  pool_repr m (A ++ B) -> lv < LEVELS ->
  Forall (fun p => p.1 <= lv) A -> Forall (fun p => lv <= p.1) B ->
  insert_at (E := E) LEVELS TABLES m (length A) lv t =
    (if (CAP <=? length (A ++ B))%nat then Err ManifestFull
     else Ok (set_refs m ((A ++ (lv, t) :: B).*2 ++
                replicate (CAP - S (length (A ++ B))) EMPTY)
                ((fun l => length (lvl l (A ++ (lv, t) :: B))) <$> seq 0 LEVELS))) /\
  (length (A ++ B) < CAP -> pool_repr
    (set_refs m ((A ++ (lv, t) :: B).*2 ++ replicate (CAP - S (length (A ++ B))) EMPTY)
       ((fun l => length (lvl l (A ++ (lv, t) :: B))) <$> seq 0 LEVELS)) (A ++ (lv, t) :: B)).
Proof.
  intros Hm Hlv HA HB. rewrite length_app. split.
  - unfold insert_at. rewrite (live_repr _ _ Hm), length_app.
    destruct (_ <=? _)%nat eqn:Hc; bool_lia; [done |].
    do 2 f_equal.
    + rewrite (pr_pool _ _ Hm), length_app.
      destruct (CAP - (length A + length B)) as [|n] eqn:En; [lia |].
      replace (CAP - S (length A + length B)) with n by lia.
      rewrite !fmap_app, <- !app_assoc. cbn [replicate fmap list_fmap].
      pose proof (shift_up A.*2 B.*2 (replicate n EMPTY) EMPTY t) as H.
      rewrite !length_fmap in H. exact H.
    + rewrite (pr_counts _ _ Hm), (count_repr _ _ Hm) by done. apply count_update; [done | |].
      * rewrite length_lvl_mid, decide_True by done. done.
      * intros l Hl. rewrite length_lvl_mid, decide_False; [lia |]. cbn. congruence.
  - intros Hc. destruct Hm as [H1 H2 H3 _ _]. apply Forall_app in H1 as [H1 H1'].
    apply in_order_app in H2 as (H2 & H2' & H2'').
    rewrite Forall_forall in HA, HB. split; cbn [pool counts set_refs]; try done.
    + apply Forall_app. split; [done |]. by constructor.
    + apply in_order_app. split_and!; [done | |].
      * constructor; [done |]. apply Forall_forall. intros q Hq. by apply HB.
      * intros p q Hp [-> | Hq]%elem_of_cons; [by apply HA | by apply H2''].
    + rewrite length_app. cbn. lia.
    + rewrite length_app. cbn [length]. do 2 f_equal. lia.
Qed.

Lemma remove_at_repr m A p B :
  pool_repr m (A ++ p :: B) ->
  pool_repr (remove_at KEY_MAX m (length A) p.1) (A ++ B).
Proof.
  intros Hm. pose proof Hm as [H1 H2 H3 H4 H5].
  apply Forall_app in H1 as [H1 H1']. apply Forall_cons in H1' as [Hp H1'].
  apply in_order_app in H2 as (H2 & H2' & H2''). apply StronglySorted_inv in H2' as [H2' _].
  rewrite length_app in H3. cbn [length] in H3.
  split; cbn [remove_at pool counts set_refs].
  - by apply Forall_app.
  - apply in_order_app. split_and!; [done | done |]. intros x q Hx Hq. apply H2''; [done | by right].
  - rewrite length_app. lia.
  - rewrite (live_repr _ _ Hm), H4, !length_app. cbn [length].
    replace (CAP - (length A + length B)) with (S (CAP - (length A + S (length B)))) by lia.
    rewrite !fmap_app, <- !app_assoc. cbn [replicate fmap list_fmap app].
    pose proof (shift_down A.*2 B.*2 (replicate (CAP - (length A + S (length B))) EMPTY) p.2 EMPTY
      (length A + S (length B))) as H.
    rewrite !length_fmap in H. by apply H.
  - rewrite H5, (count_repr _ _ Hm) by done. apply count_update; [done | |].
    + rewrite length_lvl_mid, decide_True by done. lia.
    + intros l Hl. rewrite length_lvl_mid, decide_False; [lia |]. congruence.
Qed.

(** ** Operations on a single level *)

(** Insertion before the first ref whose first key is not smaller. *)
Fixpoint insert_by_key (a : TableRef) (l : list TableRef) : list TableRef :=
  match l with
  | [] => [a]
  | t :: l' => if bytes_leb (key_of a) (key_of t) then a :: t :: l' else t :: insert_by_key a l'
  end.

Fixpoint remove_first {A} (p : A -> bool) (l : list A) : list A :=
  match l with
  | [] => []
  | x :: l => if p x then l else x :: remove_first p l
  end.

Lemma partition_point_spec {A} (p : A -> bool) (l : list A) :
  (forall i j x y, i < j -> l !! i = Some x -> l !! j = Some y -> p y = true -> p x = true) ->
  let n := partition_point p l in
  n <= length l /\ (forall i x, i < n -> l !! i = Some x -> p x = true) /\
  (forall i x, n <= i -> l !! i = Some x -> p x = false).
Proof.
  intros Hmono. cbv zeta. unfold partition_point.
  set (f := fun i => _). assert (monotone_cmp f (length l)) as Hf.
  { intros i j Hij Hj. unfold f.
    destruct (lookup_lt_is_Some_2 l i) as [x Hx]; [lia |].
    destruct (lookup_lt_is_Some_2 l j) as [y Hy]; [lia |]. rewrite Hx, Hy.
    specialize (Hmono i j x y Hij Hx Hy).
    destruct (p x), (p y); split; try congruence; specialize (Hmono eq_refl); congruence. }
  pose proof (binary_search_spec f (length l) Hf) as H.
  destruct (binary_search_by f (length l)) as [i | i].
  - destruct H as [Hi H]. unfold f in H. destruct (lookup_lt_is_Some_2 l i Hi) as [x Hx].
    rewrite Hx in H. by destruct (p x).
  - destruct H as (Hi & H1 & H2). split; [done |]. split; intros j x Hj Hx.
    + specialize (H1 j Hj). unfold f in H1. rewrite Hx in H1. by destruct (p x).
    + specialize (H2 j Hj (lookup_lt_Some _ _ _ Hx)). unfold f in H2. rewrite Hx in H2.
      by destruct (p x).
Qed.

Lemma insert_by_key_cut a l n :
  n <= length l ->
  (forall i x, i < n -> l !! i = Some x -> bytes_ltb (key_of x) (key_of a) = true) ->
  (forall i x, n <= i -> l !! i = Some x -> bytes_ltb (key_of x) (key_of a) = false) ->
  take n l ++ a :: drop n l = insert_by_key a l.
Proof.
  revert n. induction l as [|t l IH]; intros n Hn H1 H2.
  - by replace n with 0 by (cbn in Hn; lia).
  - assert (bytes_leb (key_of a) (key_of t) = negb (bytes_ltb (key_of t) (key_of a))) as E.
    { unfold bytes_leb, bytes_ltb. rewrite (bytes_cmp_antisym (key_of a)).
      by destruct (bytes_cmp (key_of a) (key_of t)). }
    cbn [insert_by_key]. rewrite E. destruct n as [|n].
    + by rewrite (H2 0 t).
    + rewrite (H1 0 t) by (done || lia). cbn. f_equal. apply IH.
      * cbn in Hn. lia.
      * intros i x Hi. apply (H1 (S i) x). lia.
      * intros i x Hi. apply (H2 (S i) x). lia.
Qed.

Definition key_below (a t : TableRef) : bool := bytes_ltb (key_of t) (key_of a).

Lemma insert_by_key_point a l :
  key_sorted l ->
  let n := partition_point (key_below a) l in
  n <= length l /\ take n l ++ a :: drop n l = insert_by_key a l.
Proof.
  intros Hs. cbv zeta.
  destruct (partition_point_spec (key_below a) l) as (Hn & H1 & H2).
  - intros i j x y Hij Hx Hy. unfold key_below. rewrite !bytes_ltb_spec.
    apply bytes_le_lt_trans. exact (StronglySorted_lookup _ l i j x y Hs Hij Hx Hy).
  - split; [done |]. by apply insert_by_key_cut.
Qed.

Lemma position_remove_first {A} (p : A -> bool) (l : list A) :
  match position_of p l with
  | None => remove_first p l = l /\ existsb p l = false
  | Some i => exists x, l = take i l ++ x :: drop (i + 1) l /\ i < length l /\
      remove_first p l = take i l ++ drop (i + 1) l /\ existsb p l = true
  end.
Proof.
  induction l as [|y l IH]; cbn [position_of remove_first existsb]; [done |].
  destruct (p y) eqn:Ey; cbn [orb].
  - exists y. cbn. rewrite drop_0. split_and!; [done | lia | done | done].
  - destruct (position_of p l) as [i |]; cbn [fmap option_fmap option_map].
    + destruct IH as (x & H1 & H2 & H3 & H4). exists x. cbn. rewrite H3.
      split_and!; [by f_equal | lia | done | done].
    + destruct IH as [-> ->]. done.
Qed.

Lemma length_update_first {A} (p : A -> bool) f (l : list A) :
  length (update_first p f l) = length l.
Proof. induction l as [|x l IH]; cbn; [done |]. destruct (p x); cbn; auto. Qed.

Lemma find_existsb {A} (p : A -> bool) (l : list A) :
  is_Some (List.find p l) <-> existsb p l = true.
Proof.
  induction l as [|x l IH]; cbn; [split; [by intros [? ?] | done] |].
  destruct (p x); cbn; [split; eauto | done].
Qed.

(** Replacing one level, the others kept. *)
Definition one_level (m m' : Manifest) (lv : nat) (refs : list TableRef) : Prop :=
  forall j, j < LEVELS ->
    level LEVELS m' j = Some (if decide (j = lv) then refs else level_refs m j).

Lemma level_of_repr m T j :
  pool_repr m T -> j < LEVELS -> level LEVELS m j = Some (lvl j T).
Proof.
  intros Hm Hj. unfold level. rewrite (proj2 (Nat.leb_gt _ _)) by done.
  by rewrite (level_repr _ _ Hm).
Qed.

Lemma one_level_repr m T m' T' lv refs :
  pool_repr m T -> pool_repr m' T' -> lvl lv T' = refs ->
  (forall j, j <> lv -> lvl j T' = lvl j T) -> one_level m m' lv refs.
Proof.
  intros Hm Hm' H1 H2 j Hj. rewrite (level_of_repr _ _ _ Hm' Hj). f_equal.
  destruct (decide (j = lv)) as [-> |]; [done |]. rewrite (level_repr _ _ Hm) by done. auto.
Qed.

(** A level's own cut of the tagged list. *)
Lemma level_cut m T lv n :
  pool_repr m T -> lv < LEVELS ->
  let own := filter (fun p => p.1 = lv) T in
  exists A B, T = A ++ B /\ A = below lv T ++ take n own /\ B = drop n own ++ above lv T /\
    Forall (fun p => p.1 <= lv) A /\ Forall (fun p => lv <= p.1) B /\
    lvl lv A = take n (lvl lv T) /\ lvl lv B = drop n (lvl lv T).
Proof.
  intros Hm Hlv own. exists (below lv T ++ take n own), (drop n own ++ above lv T).
  assert (Forall (fun p => p.1 < lv) (below lv T)) as HA by apply filter_Forall.
  assert (Forall (fun p => lv < p.1) (above lv T)) as HB by apply filter_Forall.
  assert (Forall (fun p => p.1 = lv) own) as HO by apply filter_Forall.
  split_and!; try done.
  - rewrite <- app_assoc, (app_assoc (take n own)), take_drop. apply split_at_level, Hm.
  - apply Forall_app. split; [eapply Forall_impl; [exact HA |] | apply Forall_take; eapply Forall_impl; [exact HO |]];
      cbn; lia.
  - apply Forall_app. split; [apply Forall_drop; eapply Forall_impl; [exact HO |] | eapply Forall_impl; [exact HB |]];
      cbn; lia.
  - rewrite lvl_app, lvl_nil, lvl_same; [by rewrite fmap_take | by apply Forall_take |].
    eapply Forall_impl; [exact HA |]. cbn. lia.
  - rewrite lvl_app, lvl_same, (lvl_nil _ (above lv T)), app_nil_r;
      [by rewrite fmap_drop | | by apply Forall_drop].
    eapply Forall_impl; [exact HB |]. cbn. lia.
Qed.

(** What an accepted add leaves. *)
Definition grown (lv : nat) (t : TableRef) (T : list (nat * TableRef)) : list TableRef :=
  if (lv =? 0)%nat then lvl 0 T ++ [t] else insert_by_key t (lvl lv T).

Definition added_to (m : Manifest) (T : list (nat * TableRef)) (lv : nat) (t : TableRef)
    (m' : Manifest) : Prop :=
  length T < CAP /\
  exists A B, T = A ++ B /\ pool_repr m' (A ++ (lv, t) :: B) /\
    m' = set_refs m (pool m') (counts m') /\ lvl lv (A ++ (lv, t) :: B) = grown lv t T.

Lemma insert_level_repr {E} m T lv t n :
  pool_repr m T -> lv < LEVELS -> n <= length (lvl lv T) ->
  take n (lvl lv T) ++ t :: drop n (lvl lv T) = grown lv t T ->
  match insert_at (E := E) LEVELS TABLES m (start m lv + n) lv t with
  | Ok m' => added_to m T lv t m'
  | Err e => e = ManifestFull /\ length T = CAP
  end.
Proof.
  intros Hm Hlv Hn Hcut. pose proof (pr_len _ _ Hm) as Hlen.
  destruct (level_cut m T lv n Hm Hlv) as (A & B & HT & EA & EB & HA & HB & HlA & HlB).
  rewrite HT in Hm. destruct (insert_at_repr (E := E) m A B lv t Hm Hlv HA HB) as [Hi Hr].
  rewrite <- HT in *.
  assert (start m lv + n = length A) as ->.
  { rewrite (start_repr _ _ Hm) by lia. rewrite EA, length_app, length_take.
    rewrite length_lvl_filter in Hn. lia. }
  rewrite Hi. destruct (_ <=? _)%nat eqn:E2; bool_lia; [split; [done | lia] |].
  split; [done |]. exists A, B. split_and!; [done | by apply Hr | done |].
  rewrite lvl_app, lvl_cons, decide_True by done. cbn [app snd]. by rewrite HlA, HlB.
Qed.

Lemma add_table_repr {E} m T lv t :
  pool_repr m T -> (0 < lv -> key_sorted (lvl lv T)) ->
  match add_table_to_level (E := E) LEVELS TABLES m lv t with
  | Ok m' => lv < LEVELS /\ (lv = 0 -> length (lvl 0 T) < TABLES) /\ added_to m T lv t m'
  | Err e =>
      (e = BadLevel lv /\ LEVELS <= lv) \/
      (e = ManifestFull /\ lv < LEVELS /\
       ((lv = 0 /\ TABLES <= length (lvl 0 T)) \/ length T = CAP))
  end.
Proof.
  intros Hm Hs. unfold add_table_to_level.
  destruct (LEVELS <=? lv)%nat eqn:E1; bool_lia; [by left |].
  destruct (lv =? 0)%nat eqn:E0; bool_lia.
  - subst lv. unfold add_l0_table. rewrite (count_repr _ _ Hm) by done.
    destruct (TABLES <=? _)%nat eqn:E2; bool_lia; [right; eauto |].
    pose proof (insert_level_repr (E := E) m T 0 t (length (lvl 0 T)) Hm E1 ltac:(lia)) as H.
    rewrite firstn_all, drop_all in H. specialize (H eq_refl).
    change (start m 0) with 0 in H. cbn [Nat.add] in H.
    destruct (insert_at _ _ _ _ _ _) as [? | ?]; [done |]. right. destruct H. eauto.
  - rewrite (level_repr _ _ Hm) by done.
    destruct (insert_by_key_point t (lvl lv T) (Hs ltac:(lia))) as [Hn Hcut].
    assert (insert_by_key t (lvl lv T) = grown lv t T) as Eg
      by (unfold grown; by rewrite (proj2 (Nat.eqb_neq _ _))).
    rewrite Eg in Hcut. pose proof (insert_level_repr (E := E) m T lv t _ Hm E1 Hn Hcut) as H.
    change (fun r => bytes_ltb (as_slice (first_key r)) (as_slice (first_key t)))
      with (key_below t).
    destruct (insert_at _ _ _ _ _ _) as [? | ?]; [split_and!; (done || lia) |].
    right. destruct H. eauto.
Qed.

Lemma other_levels A B lv t j : j <> lv -> lvl j (A ++ (lv, t) :: B) = lvl j (A ++ B).
Proof. intros. rewrite !lvl_app, lvl_cons, decide_False by (cbn; congruence). done. Qed.

Lemma remove_table_repr {E} m T lv id :
  pool_repr m T ->
  match remove_table_from_level (E := E) LEVELS KEY_MAX m lv id with
  | Ok (m', found) =>
      lv < LEVELS /\ found = existsb (has_id id) (lvl lv T) /\
      exists T', pool_repr m' T' /\ lvl lv T' = remove_first (has_id id) (lvl lv T) /\
      (forall j, j <> lv -> lvl j T' = lvl j T)
  | Err e => e = BadLevel lv /\ LEVELS <= lv
  end.
Proof.
  intros Hm. unfold remove_table_from_level.
  destruct (LEVELS <=? lv)%nat eqn:E1; bool_lia; [done |].
  rewrite (level_repr _ _ Hm) by done.
  pose proof (position_remove_first (has_id id) (lvl lv T)) as Hp.
  destruct (position_of (has_id id) (lvl lv T)) as [pos |].
  - destruct Hp as (x & Hx & Hpos & -> & ->). split_and!; [done | done |].
    destruct (level_cut m T lv pos Hm E1) as (A & B & HT & EA & EB & HA & HB & HlA & HlB).
    rewrite length_lvl_filter in Hpos.
    destruct (drop pos (filter (fun p => p.1 = lv) T)) as [|p own] eqn:Ed.
    { apply (f_equal length) in Ed. rewrite length_drop in Ed. cbn in Ed. lia. }
    assert (p.1 = lv) as Hp1.
    { assert (Forall (fun p => p.1 = lv) (p :: own)) as HF
        by (rewrite <- Ed; apply Forall_drop, filter_Forall).
      by inversion HF. }
    exists (A ++ own ++ above lv T). cbn [app] in EB.
    assert (start m lv + pos = length A) as ->.
    { rewrite (start_repr _ _ Hm) by lia. rewrite EA, length_app, length_take. lia. }
    split_and!.
    + rewrite <- Hp1 at 1. apply remove_at_repr. by rewrite <- EB, <- HT.
    + rewrite lvl_app, HlA. f_equal. apply (f_equal (drop 1)) in HlB. rewrite drop_drop in HlB.
      rewrite <- HlB, EB, lvl_cons, decide_True by done. done.
    + intros j Hj. rewrite HT at 2. rewrite EB. destruct p as [l r]. cbn in Hp1. subst l.
      by rewrite other_levels.
  - destruct Hp as [-> ->]. split_and!; [done | done |]. exists T. done.
Qed.

Lemma replace_level_repr m T lv refs :
  pool_repr m T -> lv < LEVELS -> length refs = length (lvl lv T) ->
  exists T', pool_repr (set_refs m (splice (start m lv) refs (pool m)) (counts m)) T' /\
    lvl lv T' = refs /\ (forall j, j <> lv -> lvl j T' = lvl j T).
Proof.
  intros Hm Hlv Hlen.
  destruct (level_cut m T lv 0 Hm Hlv) as (A & B & HT & EA & EB & HA & HB & _ & _).
  rewrite app_nil_r in EA. rewrite drop_0 in EB.
  assert (length T = length (below lv T ++ (Datatypes.pair lv <$> refs) ++ above lv T)) as HlT.
  { rewrite (f_equal length (split_at_level lv T (pr_order _ _ Hm))).
    rewrite !length_app, length_fmap, Hlen, length_lvl_filter. done. }
  assert (lvl lv (below lv T ++ (Datatypes.pair lv <$> refs) ++ above lv T) = refs) as Hl.
  { rewrite !lvl_app, (lvl_nil _ (below lv T)), (lvl_nil _ (above lv T)), lvl_same.
    - cbn [app]. rewrite app_nil_r, <- list_fmap_compose. apply list_fmap_id.
    - by apply Forall_fmap, Forall_true.
    - eapply Forall_impl; [apply filter_Forall |]. cbn. lia.
    - eapply Forall_impl; [apply filter_Forall |]. cbn. lia. }
  assert (forall j, j <> lv -> lvl j (below lv T ++ (Datatypes.pair lv <$> refs) ++ above lv T)
    = lvl j T) as Ho.
  { intros j Hj. rewrite (f_equal (lvl j) (split_at_level lv T (pr_order _ _ Hm))).
    rewrite !lvl_app. f_equal. f_equal. rewrite !lvl_nil; [done | |].
    - eapply Forall_impl; [apply filter_Forall |]. cbn. congruence.
    - apply Forall_fmap, Forall_true. cbn. congruence. }
  exists (below lv T ++ (Datatypes.pair lv <$> refs) ++ above lv T).
  split; [| done]. pose proof Hm as [H1 H2 H3 H4 H5].
  split; cbn [pool counts set_refs].
  - rewrite HT, EA, EB in H1. rewrite !Forall_app in *. destruct H1 as (H1 & _ & H1').
    split_and!; [done | by apply Forall_fmap, Forall_true | done].
  - rewrite HT, EA, EB, !in_order_app in H2. rewrite !in_order_app.
    destruct H2 as (Hb & (_ & Ha & _) & _). split_and!; [exact Hb | | exact Ha | |].
    + clear. induction refs; constructor; [done |]. apply Forall_fmap, Forall_true. cbn. lia.
    + intros p q (r & -> & _)%list_elem_of_fmap [Hq _]%list_elem_of_filter. cbn. lia.
    + intros p q [Hp _]%list_elem_of_filter [Hq | Hq]%elem_of_app.
      * apply list_elem_of_fmap in Hq as (r & -> & _). cbn. lia.
      * apply list_elem_of_filter in Hq. lia.
  - lia.
  - rewrite H4, <- HlT, (start_repr _ _ Hm) by lia.
    rewrite (refs_split lv T H2), !fmap_app, <- list_fmap_compose.
    change (snd ∘ Datatypes.pair lv) with (@id TableRef). rewrite list_fmap_id.
    rewrite <- !app_assoc. unfold splice.
    rewrite take_app_length' by by rewrite length_fmap. f_equal. f_equal.
    rewrite drop_app_ge by (rewrite length_fmap; lia). rewrite length_fmap.
    replace (_ + _ - _) with (length (lvl lv T)) by lia. by rewrite drop_app_length.
  - rewrite H5. apply list_fmap_ext. intros i l Hi%lookup_seq. cbn.
    destruct (decide (l = lv)) as [-> |]; [by rewrite Hl | by rewrite Ho].
Qed.

Lemma narrow_table_repr {E} m T lv id first :
  pool_repr m T ->
  match narrow_table (E := E) LEVELS m lv id first with
  | Ok (m', found) =>
      lv < LEVELS /\ found = existsb (has_id id) (lvl lv T) /\
      exists T', pool_repr m' T' /\
      lvl lv T' =
        update_first (has_id id)
          (fun t => if bytes_ltb (key_of t) (as_slice first) then with_first_key first t else t)
          (lvl lv T) /\
      (forall j, j <> lv -> lvl j T' = lvl j T)
  | Err e => e = BadLevel lv /\ LEVELS <= lv
  end.
Proof.
  intros Hm. unfold narrow_table.
  destruct (LEVELS <=? lv)%nat eqn:E1; bool_lia; [done |].
  rewrite (level_repr _ _ Hm) by done.
  pose proof (find_existsb (has_id id) (lvl lv T)) as Hf.
  destruct (List.find (has_id id) (lvl lv T)) as [x |] eqn:Ef.
  - rewrite (proj1 Hf) by eauto. split_and!; [done | done |].
    apply (replace_level_repr m T lv _ Hm E1). apply length_update_first.
  - destruct (existsb (has_id id) (lvl lv T)) eqn:Ee; [by destruct (proj2 Hf eq_refl) |].
    split_and!; [done | done |]. exists T. split_and!; [done | | done].
    clear -Ee. induction (lvl lv T) as [|t l IH]; [done |]. cbn in *.
    apply orb_false_iff in Ee as [-> Ee]. f_equal. auto.
Qed.

(** Deeper levels are kept sorted by first key. *)
Definition deep_sorted (m : Manifest) : Prop :=
  forall l, 0 < l -> l < LEVELS -> key_sorted (level_refs m l).
End repr.

(** No room for another ref at level [lv]. *)
Definition pool_full (LEVELS TABLES : nat) (m : Manifest) (lv : nat) : Prop :=
  (lv = 0 /\ TABLES <= length (level_refs m 0)) \/ free_refs LEVELS TABLES m = 0.

(** A level of disjoint tables in key order, each with its bounds in order. *)
Definition disjoint_run (l : list TableRef) : Prop :=
  Forall (fun t => bytes_le (key_of t) (as_slice (last_key t))) l /\
  StronglySorted (fun a b => bytes_lt (as_slice (last_key a)) (key_of b)) l.

(** The narrowing of one ref. *)
Definition raise_first (first : KeyBound) (t : TableRef) : TableRef :=
  if bytes_ltb (key_of t) (as_slice first) then with_first_key first t else t.

Lemma raise_first_bounds first t :
  bytes_le (key_of t) (as_slice (last_key t)) -> bytes_le (as_slice first) (as_slice (last_key t)) ->
  last_key (raise_first first t) = last_key t /\ bytes_le (key_of t) (key_of (raise_first first t)) /\
  bytes_le (key_of (raise_first first t)) (as_slice (last_key t)).
Proof.
  intros Ht Hf. unfold raise_first. destruct (bytes_ltb _ _) eqn:E; [| by split_and!].
  apply bytes_ltb_spec in E. split_and!; [done | by apply bytes_lt_le | done].
Qed.

(** Narrowing a table inside its range keeps a level sorted and disjoint. *)
Lemma narrow_disjoint id first l :
  (forall t, List.find (has_id id) l = Some t -> bytes_le (as_slice first) (as_slice (last_key t))) ->
  disjoint_run l -> disjoint_run (update_first (has_id id) (raise_first first) l).
Proof.
  induction l as [| t l IH]; intros Hf [Hb Hs]; [done |].
  apply Forall_cons in Hb as [Ht Hb]. apply StronglySorted_inv in Hs as [Hs Hlt].
  cbn [update_first List.find] in *. destruct (has_id id t).
  - destruct (raise_first_bounds first t Ht (Hf t eq_refl)) as (El & _ & Hle).
    split; constructor; try done; rewrite El; done.
  - destruct (IH Hf (conj Hb Hs)) as [Hb' Hs']. split; constructor; try done.
    clear IH Hb' Hs' Hs Ht. revert Hf Hb Hlt.
    induction l as [| u l IHl]; intros Hf Hb Hlt; [done |].
    apply Forall_cons in Hb as [Hu Hb]. apply Forall_cons in Hlt as [Htu Hlt].
    cbn [update_first List.find] in *. destruct (has_id id u); constructor; auto.
    eapply bytes_lt_le_trans; [exact Htu |]. by apply raise_first_bounds; [| apply Hf].
Qed.

(** C29 The packed pool behaves as a family of levels.  From a well-formed pool with
    sorted deeper levels: adding a ref fails with [BadLevel] exactly when the level
    does not exist, with [ManifestFull] exactly when level 0 holds [TABLES] refs (for
    level 0) or the pool has no free ref, and otherwise appends it to level 0 or
    inserts it in first-key order; removing drops the first ref with the id and says
    whether there was one, and narrowing (to a bound not above the table's last key)
    raises its first key and keeps a sorted, disjoint level so; both fail exactly when
    the level does not exist.  Every other level is untouched and the pool stays
    packed and well-formed. *)
Theorem pool_ops_refine_levels {E} LEVELS TABLES KEY_MAX m lv t id first :
  pool_wf LEVELS TABLES KEY_MAX m -> deep_sorted LEVELS m ->
  match add_table_to_level (E := E) LEVELS TABLES m lv t with
  | Ok m' =>
      lv < LEVELS /\ ~ pool_full LEVELS TABLES m lv /\
      pool_wf LEVELS TABLES KEY_MAX m' /\
      one_level LEVELS m m' lv
        (if (lv =? 0)%nat then level_refs m 0 ++ [t] else insert_by_key t (level_refs m lv))
  | Err e =>
      (e = BadLevel lv /\ LEVELS <= lv) \/
      (e = ManifestFull /\ lv < LEVELS /\ pool_full LEVELS TABLES m lv)
  end /\
  match remove_table_from_level (E := E) LEVELS KEY_MAX m lv id with
  | Ok (m', found) =>
      lv < LEVELS /\
      pool_wf LEVELS TABLES KEY_MAX m' /\ found = existsb (has_id id) (level_refs m lv) /\
      one_level LEVELS m m' lv (remove_first (has_id id) (level_refs m lv))
  | Err e => e = BadLevel lv /\ LEVELS <= lv
  end /\
  ((forall t, List.find (has_id id) (level_refs m lv) = Some t ->
      bytes_le (as_slice first) (as_slice (last_key t))) ->
   match narrow_table (E := E) LEVELS m lv id first with
   | Ok (m', found) =>
       lv < LEVELS /\
       pool_wf LEVELS TABLES KEY_MAX m' /\ found = existsb (has_id id) (level_refs m lv) /\
       one_level LEVELS m m' lv
         (update_first (has_id id) (raise_first first) (level_refs m lv)) /\
       (disjoint_run (level_refs m lv) -> disjoint_run (level_refs m' lv))
   | Err e => e = BadLevel lv /\ LEVELS <= lv
   end).
Proof.
  intros [T Hm] Hs. split_and!.
  - pose proof (add_table_repr LEVELS TABLES KEY_MAX (E := E) m T lv t Hm) as H.
    assert (0 < lv -> lv < LEVELS -> key_sorted (lvl lv T)) as Hk.
    { intros H0 H1. rewrite <- (level_repr _ _ _ _ _ Hm) by done. by apply Hs. }
    destruct (add_table_to_level _ _ _ _ _) as [m' | e] eqn:Ea.
    + assert (lv < LEVELS) as Hlv.
      { unfold add_table_to_level in Ea. destruct (LEVELS <=? lv)%nat eqn:E1; bool_lia. done. }
      destruct H as (_ & H0 & Hroom & A & B & HT & Hr & _ & Hg); [auto |].
      split_and!; [done | | by eexists |].
      * unfold pool_full, free_refs. rewrite (live_repr _ _ _ _ _ Hm). intros [[-> H1] | H1]; [| lia].
        rewrite (level_repr _ _ _ _ _ Hm) in H1 by done. specialize (H0 eq_refl). lia.
      * eapply one_level_repr; [exact Hm | exact Hr | |].
        -- rewrite !(level_repr _ _ _ _ _ Hm) by lia. exact Hg.
        -- intros j Hj. rewrite HT. by apply other_levels.
    + destruct (decide (lv < LEVELS)) as [Hlv |].
      * destruct H as [H | (-> & _ & H)]; [auto | by left |].
        right. split_and!; [done | done |]. destruct H as [[-> H] | H].
        -- left. by rewrite (level_repr _ _ _ _ _ Hm).
        -- right. unfold free_refs. rewrite (live_repr _ _ _ _ _ Hm). lia.
      * unfold add_table_to_level in Ea. rewrite (proj2 (Nat.leb_le _ _)) in Ea by lia.
        injection Ea as <-. left. split; [done | lia].
  - pose proof (remove_table_repr LEVELS TABLES KEY_MAX (E := E) m T lv id Hm) as H.
    destruct (remove_table_from_level _ _ _ _ _) as [[m' found] | e]; [| done].
    destruct H as (Hlv & Hf & T' & Hr & Hg & Ho). rewrite (level_repr _ _ _ _ _ Hm) by done.
    split_and!; [done | by eexists | done |]. by eapply one_level_repr.
  - intros Hin. pose proof (narrow_table_repr LEVELS TABLES KEY_MAX (E := E) m T lv id first Hm) as H.
    destruct (narrow_table _ _ _ _ _) as [[m' found] | e]; [| done].
    destruct H as (Hlv & Hf & T' & Hr & Hg & Ho). rewrite (level_repr _ _ _ _ _ Hm) in * by done.
    split_and!; [done | by eexists | done | by eapply one_level_repr |].
    rewrite (level_repr _ _ _ _ _ Hr), Hg by done. by apply narrow_disjoint.
Qed.

(** ** A concrete pool *)

Module PoolWitness.
Definition bnd (k : Z) : KeyBound := mkBound 1 [k; 0%Z].
Definition tref (id k : Z) : TableRef := mkRef id (id * 10) 5 (bnd k) (bnd (k + 1)) 9 1 3 0 0 0.
Definition ex_T : list (nat * TableRef) := [(0, tref 1 97); (1, tref 2 97); (1, tref 3 99)].
Definition ex_m : Manifest :=
  mkManifest 4 0 9 0 0 (ex_T.*2 ++ [EMPTY_REF 2]) [1; 2].

Lemma ex_repr : pool_repr 2 2 2 ex_m ex_T.
Proof.
  split; try by_compute; reflexivity.
Qed.

Lemma ex_sorted : deep_sorted 2 ex_m.
Proof.
  intros [|[|l]] H1 H2; [lia | | lia].
  change (level_refs ex_m 1) with [tref 2 97; tref 3 99].
  repeat constructor. vm_compute. discriminate.
Qed.

Lemma ex_disjoint : disjoint_run (level_refs ex_m 1).
Proof.
  change (level_refs ex_m 1) with [tref 2 97; tref 3 99].
  split; repeat constructor; vm_compute; discriminate.
Qed.

Lemma pool_ops_refine_levels_witness :
  exists m', add_table_to_level (E := unit) 2 2 ex_m 1 (tref 4 98) = Ok m' /\
    level 2 m' 1 = Some [tref 2 97; tref 4 98; tref 3 99] /\
  exists m'', narrow_table (E := unit) 2 ex_m 1 3 (bnd 100) = Ok (m'', true) /\
    disjoint_run (level_refs m'' 1).
Proof.
  pose proof (pool_ops_refine_levels (E := unit) 2 2 2 ex_m 1 (tref 4 98) 3 (bnd 100)
    (ex_intro _ _ ex_repr) ex_sorted) as (H & _ & Hn).
  destruct (add_table_to_level (E := unit) 2 2 ex_m 1 (tref 4 98)) as [m' | e] eqn:E;
    [| vm_compute in E; discriminate].
  exists m'. split; [done |]. destruct H as (_ & _ & _ & H). split; [exact (H 1 ltac:(lia)) |].
  destruct (narrow_table (E := unit) 2 ex_m 1 3 (bnd 100)) as [[m'' []] | e] eqn:E';
    [| vm_compute in E'; discriminate | vm_compute in E'; discriminate].
  exists m''. split; [done |]. apply Hn; [| exact ex_disjoint].
  intros t Ht. vm_compute in Ht. injection Ht as <-. vm_compute. discriminate.
Defined.
End PoolWitness.
