(* ===== verification/ManifestEdit.v ===== *)
(** * Staged edits: what is committed is what is applied

    [view_level] streams the levels as an edit would leave them, without copying
    the manifest; [apply_checked] changes the pool in place.  Here both are shown to
    give the same levels, so the bytes a commit writes are the bytes of the manifest
    it leaves in memory. *)

From stdpp Require Import base numbers list sorting.
From Stdlib Require Import ZArith Lia.
From S2P Require Import Prelude Device Crc Manifest ManifestPool.

(** ** The edit of one ref and of a run of refs *)

Definition narrow_ref (e : ManifestEdit) (pos : nat) (r : TableRef) : TableRef :=
  if bit (narrowed e) pos then with_first_key (narrow_to e) r else r.

Definition stamp_ref (e : ManifestEdit) (r : TableRef) : TableRef :=
  match stamped e with
  | Some (id, node, wall) => if (t_id r =? id)%Z then with_stamp node wall r else r
  | None => r
  end.

Definition edit_ref (e : ManifestEdit) (pos : nat) (r : TableRef) : TableRef :=
  stamp_ref e (narrow_ref e pos r).

(** The refs of a run from pool position [pos] that survive, edited. *)
Fixpoint survivors (e : ManifestEdit) (pos : nat) (refs : list TableRef) : list TableRef :=
  match refs with
  | [] => []
  | r :: refs =>
      if bit (removed e) pos then survivors e (pos + 1) refs
      else edit_ref e pos r :: survivors e (pos + 1) refs
  end.

Lemma view_loop_survivors e li pos refs pending :
  view_loop e li pos refs pending =
  match pending with
  | None => survivors e pos refs
  | Some a =>
      if (li =? 0)%nat then survivors e pos refs ++ [a]
      else insert_by_key a (survivors e pos refs)
  end.
Proof.
  revert pos pending. induction refs as [|r refs IH]; intros pos pending.
  - destruct pending, li; done.
  - cbn [view_loop survivors]. change (if bit (narrowed e) pos then _ else r) with (narrow_ref e pos r).
    change (match stamped e with Some _ => _ | None => _ end) with (edit_ref e pos r).
    destruct (bit (removed e) pos); [apply IH |].
    destruct pending as [a |]; [| by rewrite IH].
    destruct li as [|li]; cbn [Nat.ltb Nat.leb Nat.eqb andb]; [by rewrite IH |].
    cbn [insert_by_key]. unfold key_of.
    destruct (bytes_leb _ _); by rewrite IH.
Qed.

Fixpoint cut_removed (e : ManifestEdit) (pos : nat) (T : list (nat * TableRef))
  : list (nat * TableRef) :=
  match T with
  | [] => []
  | p :: T =>
      if bit (removed e) pos then cut_removed e (pos + 1) T
      else p :: cut_removed e (pos + 1) T
  end.

Definition tag_edit (e : ManifestEdit) (pos : nat) (p : nat * TableRef) : nat * TableRef :=
  (p.1, edit_ref e pos p.2).

(** The live refs as the edit leaves them, before the added one. *)
Definition kept (e : ManifestEdit) (pos : nat) (T : list (nat * TableRef)) :=
  cut_removed e pos (imap (fun i => tag_edit e (pos + i)) T).

Lemma cut_removed_app e pos T1 T2 :
  cut_removed e pos (T1 ++ T2) = cut_removed e pos T1 ++ cut_removed e (pos + length T1) T2.
Proof.
  revert pos. induction T1 as [|p T1 IH]; intros pos; cbn [app cut_removed length].
  - by rewrite Nat.add_0_r.
  - rewrite IH. replace (pos + 1 + length T1) with (pos + S (length T1)) by lia.
    by destruct (bit _ _).
Qed.

Lemma kept_cons e pos p T :
  kept e pos (p :: T) =
  if bit (removed e) pos then kept e (pos + 1) T else tag_edit e pos p :: kept e (pos + 1) T.
Proof.
  unfold kept. cbn [imap cut_removed]. rewrite Nat.add_0_r.
  assert (imap ((fun i => tag_edit e (pos + i)) ∘ S) T =
    imap (fun i => tag_edit e (pos + 1 + i)) T) as E.
  { apply imap_ext. intros i x _. cbn. by replace (pos + S i) with (pos + 1 + i) by lia. }
  by rewrite E.
Qed.

Lemma kept_app e pos T1 T2 :
  kept e pos (T1 ++ T2) = kept e pos T1 ++ kept e (pos + length T1) T2.
Proof.
  revert pos. induction T1 as [|p T1 IH]; intros pos; cbn [app length].
  - by rewrite Nat.add_0_r.
  - rewrite !kept_cons, IH. replace (pos + 1 + length T1) with (pos + S (length T1)) by lia.
    by destruct (bit _ _).
Qed.

Lemma kept_levels e pos T (P : nat -> Prop) :
  Forall (fun p => P p.1) T -> Forall (fun p => P p.1) (kept e pos T).
Proof.
  intros H. revert pos. induction H as [|p T Hp HT IH]; intros pos; [constructor |].
  rewrite kept_cons. destruct (bit _ _); [apply IH | by constructor].
Qed.

Lemma kept_survivors e pos T : (kept e pos T).*2 = survivors e pos T.*2.
Proof.
  revert pos. induction T as [|p T IH]; intros pos; [done |].
  rewrite kept_cons. cbn [fmap list_fmap survivors].
  destruct (bit _ _); cbn [fmap list_fmap]; by rewrite IH.
Qed.

Lemma lvl_kept e l T :
  in_order T -> lvl l (kept e 0 T) = survivors e (length (below l T)) (lvl l T).
Proof.
  intros HT. rewrite (f_equal (kept e 0) (split_at_level l T HT)).
  rewrite !kept_app, !lvl_app. cbn [Nat.add].
  rewrite lvl_nil; [| apply (kept_levels e 0 _ (fun x => x <> l)); eapply Forall_impl;
    [apply filter_Forall |]; cbn; lia].
  rewrite lvl_same; [| apply (kept_levels e _ _ (fun x => x = l)), filter_Forall].
  rewrite (lvl_nil l (kept _ _ (above l T)));
    [| apply (kept_levels e _ _ (fun x => x <> l)); eapply Forall_impl;
    [apply filter_Forall |]; cbn; lia].
  by rewrite app_nil_r, kept_survivors.
Qed.

(** ** Bits and counts *)

Lemma bit_testbit x pos : pos < 64 -> bit x pos = Z.testbit x (Z.of_nat pos).
Proof.
  intros H. unfold bit. rewrite (proj2 (Nat.ltb_lt _ _)) by done. cbn [andb].
  rewrite Z.testbit_odd. change 1%Z with (Z.ones 1) at 1. rewrite Z.land_ones by lia.
  change (2 ^ 1)%Z with 2%Z. rewrite Zmod_odd. by destruct (Z.odd _).
Qed.

(** Positions below [n] whose bit is set. *)
Definition set_below (x : Z) (n : nat) : nat := length (List.filter (bit x) (seq 0 n)).

Lemma set_below_S x n : set_below x (S n) = set_below x n + (if bit x n then 1 else 0).
Proof.
  unfold set_below. rewrite seq_S, List.filter_app, length_app. cbn. by destruct (bit x n).
Qed.

Lemma set_below_ext x y n :
  (forall i, i < n -> bit x i = bit y i) -> set_below x n = set_below y n.
Proof. intros H. induction n as [|n IH]; [done |]. rewrite !set_below_S, IH, H by auto. done. Qed.

Lemma set_below_cut x n k :
  (forall i, n <= i -> i < n + k -> bit x i = false) -> set_below x (n + k) = set_below x n.
Proof.
  intros H. induction k as [|k IH]; [by rewrite Nat.add_0_r |].
  rewrite Nat.add_succ_r, set_below_S, IH, H by (auto with lia). lia.
Qed.

Lemma count_ones_below x n :
  n <= 64 -> (forall i, n <= i -> i < 64 -> bit x i = false) ->
  Z.to_nat (count_ones x) = set_below x n.
Proof.
  intros Hn H. unfold count_ones. rewrite Nat2Z.id.
  transitivity (set_below x 64).
  - unfold set_below. f_equal. apply List.filter_ext_in. intros i Hi%in_seq.
    symmetry. apply bit_testbit. lia.
  - replace 64 with (n + (64 - n)) by lia. apply set_below_cut. intros i Hi Hk. apply H; lia.
Qed.

Lemma testbit_mask_below n i :
  i < 64 -> Z.testbit (mask_below n) (Z.of_nat i) = (i <? n)%nat.
Proof.
  intros Hi. unfold mask_below. destruct (64 <=? n)%nat eqn:E; bool_lia.
  - change U64_MAX with (Z.ones 64). rewrite Z.ones_spec_low by lia.
    symmetry. apply Nat.ltb_lt. lia.
  - rewrite Z.shiftl_1_l. change (2 ^ Z.of_nat n - 1)%Z with (Z.pred (2 ^ Z.of_nat n)).
    rewrite <- Z.ones_equiv. rewrite Z.testbit_ones_nonneg by lia.
    destruct (i <? n)%nat eqn:E2; bool_lia.
Qed.

(** The mask test of [check_edit]: every position named is below [n]. *)
Lemma mask_test x n :
  Z.land x (Z.lxor U64_MAX (mask_below n)) = 0%Z ->
  forall i, n <= i -> i < 64 -> bit x i = false.
Proof.
  intros H i Hn Hi. rewrite bit_testbit by done.
  apply (f_equal (fun z => Z.testbit z (Z.of_nat i))) in H.
  rewrite Z.land_spec, Z.lxor_spec, testbit_mask_below, Z.bits_0 in H by done.
  change U64_MAX with (Z.ones 64) in H. rewrite Z.ones_spec_low in H by lia.
  rewrite (proj2 (Nat.ltb_ge _ _)) in H by done. cbn in H. by rewrite andb_true_r in H.
Qed.

Lemma bit_land_mask x n i : bit (Z.land x (mask_below n)) i = bit x i && (i <? n)%nat.
Proof.
  destruct (decide (i < 64)) as [Hi | Hi].
  - rewrite !bit_testbit, Z.land_spec, testbit_mask_below by done. done.
  - unfold bit. by rewrite (proj2 (Nat.ltb_ge _ _)) by lia.
Qed.

Lemma length_survivors e pos refs :
  length (survivors e pos refs) + set_below (removed e) (pos + length refs) =
  length refs + set_below (removed e) pos.
Proof.
  revert pos. induction refs as [|r refs IH]; intros pos; cbn [survivors length].
  - by rewrite Nat.add_0_r.
  - specialize (IH (pos + 1)). replace (pos + 1 + length refs) with (pos + S (length refs)) in IH by lia.
    rewrite Nat.add_1_r, set_below_S in IH. rewrite Nat.add_1_r.
    destruct (bit _ _); cbn [length]; lia.
Qed.

(** ** Applying an edit *)

Lemma scalars_view m e :
  m_seq (apply_scalars m e) = m_seq m /\
  wal_head (apply_scalars m e) = default (wal_head m) (e_wal_head e) /\
  next_table_id (apply_scalars m e) = Z.max (next_table_id m) (e_next_table_id e) /\
  flushed_seq (apply_scalars m e) = Z.max (flushed_seq m) (e_flushed e) /\
  seq_high (apply_scalars m e) = Z.max (Z.max (seq_high m) (e_seq_high e)) (e_flushed e).
Proof.
  unfold apply_scalars, advance_next_table_id, note_flushed, raise_seq_high.
  destruct (e_wal_head e); cbn [wal_head m_seq next_table_id flushed_seq seq_high set_wal_head];
    destruct (Z.ltb_spec (next_table_id m) (e_next_table_id e));
    cbn [wal_head m_seq next_table_id flushed_seq seq_high set_next_table_id];
    destruct (Z.ltb_spec (flushed_seq m) (e_flushed e)), (Z.ltb_spec (seq_high m) (e_flushed e));
    repeat case_match; bool_lia; split_and!; (reflexivity || lia).
Qed.

Section apply.
  Variables LEVELS TABLES KEY_MAX : nat.

  Abbreviation CAP := (CAPACITY LEVELS TABLES).
  Abbreviation repr := (pool_repr LEVELS TABLES KEY_MAX).

(** Only the refs and counts differ. *)
Definition same_scalars (m m' : Manifest) : Prop := m' = set_refs m (pool m') (counts m').

Lemma same_scalars_refl m : same_scalars m m.
Proof. by destruct m. Qed.

Lemma same_scalars_trans a b c : same_scalars a b -> same_scalars b c -> same_scalars a c.
Proof. unfold same_scalars. intros -> ->. done. Qed.

Lemma Forall_tags (P : nat -> Prop) (T : list (nat * TableRef)) :
  Forall (fun p => P p.1) T <-> Forall P T.*1.
Proof. symmetry. apply Forall_fmap. Qed.

Lemma tags_order (T T' : list (nat * TableRef)) :
  T'.*1 = T.*1 -> in_order T -> in_order T'.
Proof.
  revert T'. induction T as [|p T IH]; intros [|p' T'] E HT; try discriminate; [constructor |].
  cbn in E. injection E as Ep E. apply StronglySorted_inv in HT as [HT Hp].
  constructor; [by apply IH |]. rewrite Ep.
  apply (Forall_tags (fun x => p.1 <= x)). rewrite E. by apply Forall_tags.
Qed.

Lemma tags_lvl (T T' : list (nat * TableRef)) l :
  T'.*1 = T.*1 -> length (lvl l T') = length (lvl l T).
Proof.
  revert T'. induction T as [|p T IH]; intros [|p' T'] E; try discriminate; [done |].
  cbn in E. injection E as Ep E. rewrite !lvl_cons, !length_app, Ep, (IH T' E).
  by destruct (decide _).
Qed.

Lemma retag_repr m T T' :
  repr m T -> T'.*1 = T.*1 ->
  repr (set_refs m (T'.*2 ++ drop (live m) (pool m)) (counts m)) T'.
Proof.
  intros Hm E. pose proof Hm as [H1 H2 H3 H4 H5].
  assert (length T' = length T) as El.
  { apply (f_equal length) in E. by rewrite !length_fmap in E. }
  split; cbn [pool counts set_refs].
  - apply (Forall_tags (fun x => x < LEVELS)). rewrite E. by apply Forall_tags.
  - by eapply tags_order.
  - lia.
  - rewrite (live_repr _ _ _ _ _ Hm), H4, El. f_equal. apply drop_app_length'. by rewrite length_fmap.
  - rewrite H5. apply list_fmap_ext. intros i l _. symmetry. by apply tags_lvl.
Qed.

Lemma apply_scalars_repr m e T : repr m T -> repr (apply_scalars m e) T.
Proof.
  intros [H1 H2 H3 H4 H5].
  assert (pool (apply_scalars m e) = pool m /\ counts (apply_scalars m e) = counts m) as [Ep Ec].
  { unfold apply_scalars, advance_next_table_id. destruct (e_wal_head e); cbn;
      destruct (_ <? _)%Z; done. }
  split; by rewrite ?Ep, ?Ec.
Qed.

Lemma update_first_unique {A} (f : A -> A) (g : A -> Z) id (l : list A) :
  NoDup (g <$> l) ->
  update_first (fun x => g x =? id)%Z f l = (fun x => if (g x =? id)%Z then f x else x) <$> l.
Proof.
  induction l as [|x l IH]; intros Hn; [done |]. cbn. cbn in Hn. apply NoDup_cons in Hn as [Hx Hn].
  destruct (g x =? id)%Z eqn:E; [| by rewrite IH]. f_equal. bool_lia.
  rewrite <- (list_fmap_id l) at 1. apply list_fmap_ext. intros i y Hy. cbn.
  destruct (g y =? id)%Z eqn:E'; [| done]. bool_lia. exfalso. apply Hx.
  rewrite E, <- E'. by apply list_elem_of_fmap_2, list_elem_of_lookup_2 with i.
Qed.

(** Stamps name tables by id; ids are never reused. *)
Definition stamp_ok (e : ManifestEdit) (m : Manifest) : Prop :=
  stamped e <> None -> NoDup (t_id <$> tables m).

Lemma apply_stamp_repr m e T :
  repr m T -> stamp_ok e m ->
  repr (apply_stamp m e) ((fun p => (p.1, stamp_ref e p.2)) <$> T) /\
  same_scalars m (apply_stamp m e).
Proof.
  intros Hm Hs. unfold apply_stamp, stamp_ref. destruct (stamped e) as [[[id node] wall] |] eqn:Es.
  - assert (update_first (has_id id) (with_stamp node wall) (take (live m) (pool m)) =
      ((fun p : nat * TableRef => (p.1, if (t_id p.2 =? id)%Z then with_stamp node wall p.2 else p.2))
         <$> T).*2) as ->.
    { change (take (live m) (pool m)) with (tables m). unfold has_id.
      rewrite (update_first_unique _ t_id) by (apply Hs; congruence).
      rewrite (tables_repr _ _ _ _ _ Hm), <- !list_fmap_compose. done. }
    split; [| done]. apply (retag_repr m T); [done |]. by rewrite <- list_fmap_compose.
  - split; [| apply same_scalars_refl].
    assert ((fun p : nat * TableRef => (p.1, p.2)) <$> T = T) as ->; [| done].
    rewrite <- (list_fmap_id T) at 2. apply list_fmap_ext. by intros i [] _.
Qed.

Lemma apply_narrow_repr m e T :
  repr m T ->
  repr (apply_narrow m e) (imap (fun i p => (p.1, narrow_ref e i p.2)) T) /\
  same_scalars m (apply_narrow m e).
Proof.
  intros Hm. split; [| done]. unfold apply_narrow.
  assert (imap (fun pos t => if bit (narrowed e) pos then with_first_key (narrow_to e) t else t)
    (take (live m) (pool m)) = (imap (fun i p => (p.1, narrow_ref e i p.2)) T).*2) as ->.
  { change (take (live m) (pool m)) with (tables m). rewrite (tables_repr _ _ _ _ _ Hm).
    rewrite imap_fmap, fmap_imap. done. }
  apply (retag_repr m T); [done |]. rewrite fmap_imap.
  rewrite <- (imap_const fst T). done.
Qed.

Lemma apply_removals_repr e : forall T R m,
  repr m (T ++ R) ->
  repr (fold_left (remove_step LEVELS KEY_MAX e) (rev (seq 0 (length T))) m) (cut_removed e 0 T ++ R) /\
  same_scalars m (fold_left (remove_step LEVELS KEY_MAX e) (rev (seq 0 (length T))) m).
Proof.
  induction T as [|p T IH] using rev_ind; intros R m Hm.
  { split; [done | apply same_scalars_refl]. }
  rewrite length_app, Nat.add_1_r, seq_S, rev_app_distr. cbn [rev app fold_left Nat.add].
  rewrite <- app_assoc in Hm. cbn [app] in Hm.
  rewrite cut_removed_app, <- app_assoc. cbn [cut_removed Nat.add].
  assert (level_at LEVELS m (length T) = p.1) as El.
  { apply (level_at_repr _ _ _ _ _ Hm). rewrite lookup_app_r, Nat.sub_diag by done. done. }
  unfold remove_step at 2 4. rewrite El. destruct (bit (removed e) (length T)); cbn [app].
  - destruct (IH R _ (remove_at_repr _ _ _ _ _ _ _ Hm)) as [H1 H2]. split; [done |].
    eapply same_scalars_trans; [| exact H2]. done.
  - by apply IH.
Qed.

Lemma narrow_stamp e pos r : narrow_ref e pos (stamp_ref e r) = edit_ref e pos r.
Proof.
  unfold edit_ref, narrow_ref, stamp_ref. destruct (stamped e) as [[[id node] wall] |]; [| done].
  destruct (bit _ _), (t_id r =? id)%Z eqn:E; cbn [t_id with_first_key]; rewrite ?E; done.
Qed.

Definition apply_unadded (m : Manifest) (e : ManifestEdit) : Manifest :=
  apply_removals LEVELS KEY_MAX (apply_narrow (apply_stamp (apply_scalars m e) e) e) e.

Lemma apply_unadded_repr m e T :
  repr m T -> stamp_ok e m ->
  repr (apply_unadded m e) (kept e 0 T) /\
  same_scalars (apply_scalars m e) (apply_unadded m e).
Proof.
  intros Hm Hs. pose proof (apply_scalars_repr m e T Hm) as H0.
  destruct (apply_stamp_repr (apply_scalars m e) e T H0) as [H1 S1].
  { intros Hn. rewrite (tables_repr _ _ _ _ _ H0), <- (tables_repr _ _ _ _ _ Hm). by apply Hs. }
  destruct (apply_narrow_repr _ e _ H1) as [H2 S2].
  rewrite imap_fmap in H2.
  rewrite (imap_ext _ (fun i => tag_edit e (0 + i))) in H2
    by (intros i p _; unfold tag_edit; cbn; by rewrite narrow_stamp).
  rewrite <- (app_nil_r (imap _ _)) in H2.
  destruct (apply_removals_repr e _ _ _ H2) as [H3 S3]. rewrite app_nil_r in H2, H3.
  assert (length (imap (fun i => tag_edit e (0 + i)) T) =
    live (apply_narrow (apply_stamp (apply_scalars m e) e) e)) as El.
  { by rewrite (live_repr _ _ _ _ _ H2). }
  rewrite El in H3, S3. split; [exact H3 |].
  eapply same_scalars_trans; [exact S1 |]. eapply same_scalars_trans; [exact S2 | exact S3].
Qed.

(** The deeper level an edit adds to is sorted once narrowed. *)
Definition add_sorted (e : ManifestEdit) (m : Manifest) : Prop :=
  forall lv t, added e = Some (lv, t) -> 0 < lv ->
    key_sorted (survivors e (start m lv) (level_refs m lv)).

Lemma check_edit_room {E} m e T lv t :
  repr m T -> CAP <= 64 -> check_edit (E := E) LEVELS TABLES m e = Ok tt ->
  added e = Some (lv, t) ->
  lv < LEVELS /\ length (kept e 0 T) < CAP /\ (lv = 0 -> length (lvl 0 (kept e 0 T)) < TABLES).
Proof.
  intros Hm Hcap Hc Ha. unfold check_edit in Hc. rewrite Ha in Hc.
  pose proof (pr_len _ _ _ _ _ Hm) as Hlen.
  destruct (negb _) eqn:E1; [done |]. bool_lia.
  rewrite (live_repr _ _ _ _ _ Hm) in *. pose proof (mask_test _ _ E1) as Hbits.
  destruct (LEVELS <=? lv)%nat eqn:E2; [done |]. bool_lia.
  assert (forall i, length T <= i -> i < 64 -> bit (removed e) i = false) as Hrem.
  { intros i Hi Hi'. specialize (Hbits i Hi Hi'). rewrite bit_testbit in * by done.
    rewrite Z.lor_spec in Hbits. apply orb_false_iff in Hbits as [H _]. exact H. }
  rewrite (count_ones_below _ (length T)) in Hc by (lia || done).
  destruct (CAP <=? _)%nat eqn:E3; [done |]. bool_lia.
  pose proof (length_survivors e 0 T.*2) as Hls. rewrite length_fmap in Hls. cbn [Nat.add] in Hls.
  split_and!; [done | |].
  - rewrite <- (length_fmap snd (kept e 0 T)), kept_survivors.
    change (set_below (removed e) 0) with 0 in Hls. lia.
  - intros ->. cbn [Nat.eqb] in Hc. rewrite (count_repr _ _ _ _ _ Hm) in Hc by done.
    set (c := length (lvl 0 T)) in *.
    assert (c <= length T) as Hcl by (unfold c; rewrite length_lvl_filter; apply length_filter).
    rewrite (count_ones_below _ c) in Hc; [| lia |].
    + destruct (TABLES <=? _)%nat eqn:E4; [done |]. bool_lia.
      rewrite lvl_kept by apply Hm. pose proof (length_survivors e 0 (lvl 0 T)) as H0.
      assert (length (below 0 T) = 0) as -> by (rewrite <- sum_levels; done).
      fold c in H0. cbn [Nat.add] in H0.
      change (set_below (removed e) 0) with 0 in H0.
      rewrite (set_below_ext _ (removed e)) in E4; [lia |].
      intros i Hi. rewrite bit_land_mask, (proj2 (Nat.ltb_lt _ _)) by done. apply andb_true_r.
    + intros i Hi _. rewrite bit_land_mask, (proj2 (Nat.ltb_ge _ _)) by done. apply andb_false_r.
Qed.

Lemma view_level_kept m e T li :
  repr m T -> li < LEVELS ->
  view_level m e li =
  match added e with
  | Some (lv, t) => if (lv =? li)%nat then grown lv t (kept e 0 T) else lvl li (kept e 0 T)
  | None => lvl li (kept e 0 T)
  end.
Proof.
  intros Hm Hli. unfold view_level. rewrite view_loop_survivors.
  rewrite (start_repr _ _ _ _ _ Hm), (level_repr _ _ _ _ _ Hm) by lia.
  rewrite <- lvl_kept by apply Hm.
  destruct (added e) as [[lv t] |]; [| done].
  destruct (lv =? li)%nat eqn:E; [| done]. bool_lia. subst li. unfold grown.
  by destruct lv.
Qed.

Lemma apply_checked_repr {E} m e T :
  repr m T -> CAP <= 64 -> check_edit (E := E) LEVELS TABLES m e = Ok tt ->
  stamp_ok e m -> add_sorted e m ->
  exists T', repr (apply_checked LEVELS TABLES KEY_MAX m e) T' /\
    same_scalars (apply_scalars m e) (apply_checked LEVELS TABLES KEY_MAX m e) /\
    forall li, li < LEVELS -> lvl li T' = view_level m e li.
Proof.
  intros Hm Hcap Hc Hs Ha. destruct (apply_unadded_repr m e T Hm Hs) as [H1 S1].
  unfold apply_checked. fold (apply_unadded m e).
  destruct (added e) as [[lv t] |] eqn:Ea.
  - destruct (check_edit_room m e T lv t Hm Hcap Hc Ea) as (Hlv & Hroom & Hl0).
    pose proof (add_table_repr LEVELS TABLES KEY_MAX (E := unit) _ _ lv t H1) as H.
    specialize (H ltac:(intros H0; specialize (Ha lv t Ea H0);
      rewrite (start_repr _ _ _ _ _ Hm), (level_repr _ _ _ _ _ Hm), <- lvl_kept in Ha by (lia || apply Hm);
      exact Ha)).
    destruct (add_table_to_level _ _ _ _ _) as [m' | err].
    + destruct H as (_ & _ & _ & A & B & HT & Hr & Hsc & Hg).
      exists (A ++ (lv, t) :: B). split_and!; [done | by eapply same_scalars_trans |].
      intros li Hli. rewrite (view_level_kept m e T li Hm Hli), Ea.
      destruct (lv =? li)%nat eqn:El; bool_lia; [by subst li |].
      rewrite HT. apply other_levels. lia.
    + exfalso. destruct H as [[_ H] | (_ & _ & [[-> H] | H])]; [lia | | lia].
      specialize (Hl0 eq_refl). lia.
  - exists (kept e 0 T). split_and!; [done | done |].
    intros li Hli. by rewrite (view_level_kept m e T li Hm Hli), Ea.
Qed.
End apply.

(** C28 Applying a checked edit in memory leaves exactly the levels the commit
    streams to the device: for every level, the refs of the manifest after
    [apply_edit] are those of [view_level] before it, and the pool stays
    well-formed.  The edit must name live ids only once for a stamp, and the
    deeper level it adds to must be sorted after narrowing. *)
Theorem edit_view_is_applied {E} LEVELS TABLES KEY_MAX m e m' :
  pool_wf LEVELS TABLES KEY_MAX m -> CAPACITY LEVELS TABLES <= 64 ->
  stamp_ok e m -> add_sorted e m ->
  apply_edit (E := E) LEVELS TABLES KEY_MAX m e = Ok m' ->
  pool_wf LEVELS TABLES KEY_MAX m' /\
  (forall li, li < LEVELS -> level LEVELS m' li = Some (view_level m e li)) /\
  m_seq m' = m_seq m /\ wal_head m' = default (wal_head m) (e_wal_head e) /\
  next_table_id m' = Z.max (next_table_id m) (e_next_table_id e) /\
  flushed_seq m' = Z.max (flushed_seq m) (e_flushed e) /\
  seq_high m' = Z.max (Z.max (seq_high m) (e_seq_high e)) (e_flushed e).
Proof.
  intros [T Hm] Hcap Hs Ha He. unfold apply_edit in He.
  destruct (check_edit LEVELS TABLES m e) as [[] | err] eqn:Hc; [| done]. injection He as <-.
  destruct (apply_checked_repr LEVELS TABLES KEY_MAX m e T Hm Hcap Hc Hs Ha) as (T' & Hr & Hsc & Hl).
  split; [by eexists |]. split.
  - intros li Hli. rewrite (level_of_repr _ _ _ _ _ _ Hr Hli). by rewrite Hl.
  - rewrite Hsc. cbn. apply scalars_view.
Qed.

(** ** A concrete edit *)

Module EditWitness.
Import PoolWitness.

(** Narrow one table, remove another, add a third, stamp the first. *)
Definition ex_edit : ManifestEdit :=
  mkEdit (Some 7%Z) 5 0 12 4 2 (bnd 98) (Some (1, tref 5 98)) (Some (1, 6, 77)%Z).

Lemma edit_view_is_applied_witness :
  exists m', apply_edit (E := unit) 2 2 2 ex_m ex_edit = Ok m' /\
    level 2 m' 1 = Some (view_level ex_m ex_edit 1).
Proof.
  destruct (apply_edit (E := unit) 2 2 2 ex_m ex_edit) as [m' | e] eqn:E;
    [| vm_compute in E; discriminate].
  exists m'. split; [done |].
  destruct (edit_view_is_applied (E := unit) 2 2 2 ex_m ex_edit m') as (_ & H & _).
  - exists ex_T. exact ex_repr.
  - by_compute.
  - intros _. by_compute.
  - intros lv t [= <- <-] _. repeat constructor.
  - exact E.
  - apply H. lia.
Defined.
End EditWitness.
