(* ===== verification/ManifestCodec.v ===== *)
(** * The manifest's bytes: body codec and block framing

    Writing a body through the windows of its blocks gives the chunks of one byte
    string, and parsing that string from any [BodySource] that delivers it gives
    the manifest back.  A framed block passes [check_block] with its header. *)

From stdpp Require Import base numbers list sorting.
From Stdlib Require Import ZArith Lia.
From S2P Require Import Prelude Device Crc Manifest ManifestPool ManifestEdit.

(** ** The window writer *)

(** The window's buffer after the bytes [P] of a body have been written. *)
Definition windowed (init : bytes) (lo : nat) (P : bytes) : bytes :=
  let k := (length P - lo) `min` length init in sub lo k P ++ drop k init.

Definition win (init : bytes) (lo : nat) (P : bytes) : Window :=
  mkWindow (windowed init lo P) (length P) lo.

Lemma length_windowed init lo P : length (windowed init lo P) = length init.
Proof. unfold windowed. rewrite length_app, length_sub_min, length_drop. lia. Qed.

Lemma window_bytes_win init lo P b : window_bytes (win init lo P) b = win init lo (P ++ b).
Proof.
  unfold window_bytes, win. cbn [w_pos w_lo w_out]. rewrite length_windowed, length_app.
  f_equal. unfold windowed. rewrite length_app.
  set (n := length init). set (p := length P). set (q := length b).
  destruct (_ <? _)%nat eqn:E; bool_lia.
  - set (k := (p - lo) `min` n). set (k' := (p + q - lo) `min` n).
    assert (k <= k' /\ k = p `max` lo - lo /\ k' = (p + q) `min` (lo + n) - lo) as (Hk & E1 & E2) by lia.
    rewrite <- E1. unfold splice.
    assert (length (sub lo k P) = k) as Hl by (rewrite length_sub_min; fold p; lia).
    rewrite take_app_length' by done.
    replace (sub lo k' (P ++ b)) with
      (sub lo k P ++ sub (p `max` lo - p) ((p + q) `min` (lo + n) - p `max` lo) b).
    + rewrite <- app_assoc. f_equal. f_equal.
      rewrite length_sub by (fold q; lia).
      rewrite drop_app_ge by lia. rewrite drop_drop, Hl. f_equal. lia.
    + replace k' with (k + (k' - k)) by lia. rewrite sub_split, sub_app_l by (fold p; lia).
      f_equal. unfold sub. rewrite drop_app_ge by (fold p; lia). fold p.
      f_equal; [lia | f_equal; lia].
  - set (k := (p - lo) `min` n). set (k' := (p + q - lo) `min` n).
    assert (k' = k) as -> by lia. by rewrite sub_app_l by (fold p; lia).
Qed.

Lemma windowed_full init lo P :
  lo + length init <= length P -> windowed init lo P = sub lo (length init) P.
Proof.
  intros. unfold windowed. rewrite Nat.min_r by lia. by rewrite drop_all, app_nil_r.
Qed.

Lemma windowed_nil init lo : win init lo [] = mkWindow init 0 lo.
Proof. unfold win, windowed. by rewrite Nat.min_l by (cbn; lia). Qed.

(** ** Body sources *)

(** What the parser relies on: a source [yields] a byte string it hands out from
    the front. *)
Class BodySourceLaws (S E : Type) `{BodySource S E} := {
  yields : S -> bytes -> Prop;
  take_yields s b n :
    yields s b -> n <= length b ->
    exists s', take_bytes n s = Ok (take n b, s') /\ yields s' (drop n b);
}.

#[export, program] Instance SliceSource_laws {E} : BodySourceLaws (list Z) E := {|
  yields s b := s = b;
|}.
Next Obligation.
  intros E s b n -> Hn. unfold take_bytes, SliceSource. rewrite (proj2 (Nat.leb_le _ _)) by done.
  eauto.
Qed.

(** ** The body *)

Definition bound_bytes (b : KeyBound) : bytes := to_le 2 (Z.of_nat (kb_len b)) ++ as_slice b.

Definition ref_bytes (t : TableRef) : bytes :=
  to_le 4 (t_id t) ++ to_le 8 (first_block t) ++ to_le 4 (block_count t) ++
  bound_bytes (first_key t) ++ bound_bytes (last_key t) ++
  to_le 8 (t_max_seq t) ++ to_le 8 (t_min_seq t) ++ to_le 4 (entry_count t) ++
  to_le 4 (rdel_blocks t) ++ to_le 4 (node_id t) ++ to_le 8 (seal_wall t).

Definition refs_bytes (l : list TableRef) : bytes := concat (ref_bytes <$> l).

Definition level_bytes (l : list TableRef) : bytes :=
  to_le 4 (Z.of_nat (length l)) ++ refs_bytes l.

Definition body_bytes (head : u64) (next_id : u32) (flushed high : u64)
    (ls : list (list TableRef)) : bytes :=
  to_le 8 head ++ to_le 4 next_id ++ to_le 8 flushed ++ to_le 8 high ++
  to_le 4 (Z.of_nat (length ls)) ++ concat (level_bytes <$> ls).

Lemma write_ref_win init lo P t : write_ref (win init lo P) t = win init lo (P ++ ref_bytes t).
Proof.
  unfold write_ref, window_u16, window_u32, window_u64. rewrite !window_bytes_win.
  unfold ref_bytes, bound_bytes. by rewrite <- !app_assoc.
Qed.

Lemma write_refs_win init lo P l :
  fold_left write_ref l (win init lo P) = win init lo (P ++ refs_bytes l).
Proof.
  revert P. induction l as [|t l IH]; intros P.
  - cbn. by rewrite app_nil_r.
  - rewrite fold_left_cons, write_ref_win, IH. unfold refs_bytes. cbn [fmap list_fmap concat].
    by rewrite <- app_assoc.
Qed.

Lemma write_levels_win init lo m e ls P :
  fold_left (write_level m e) ls (win init lo P) =
  win init lo (P ++ concat (level_bytes ∘ view_level m e <$> ls)).
Proof.
  revert P. induction ls as [|li ls IH]; intros P.
  - cbn. by rewrite app_nil_r.
  - rewrite fold_left_cons. unfold write_level at 2, window_u32.
    rewrite window_bytes_win, write_refs_win, IH. cbn [fmap list_fmap concat].
    f_equal. unfold compose, level_bytes. by rewrite <- !app_assoc.
Qed.

(** ** Well-formed contents *)

Section codec.
  Variables LEVELS TABLES KEY_MAX : nat.

  Abbreviation CAP := (CAPACITY LEVELS TABLES).
  Abbreviation EMPTY := (EMPTY_REF KEY_MAX).

Record bound_ok (b : KeyBound) : Prop := {
  bo_max : kb_len b <= KEY_MAX;
  bo_u16 : (Z.of_nat (kb_len b) <= U16_MAX)%Z;
  bo_len : length (kb_bytes b) = KEY_MAX;
  bo_bytes : bytes_ok (kb_bytes b);
  bo_tail : kb_bytes b = as_slice b ++ replicate (KEY_MAX - kb_len b) 0%Z;
}.

Record ref_ok (t : TableRef) : Prop := {
  ro_id : fits 32 (t_id t);
  ro_first_block : fits 64 (first_block t);
  ro_block_count : fits 32 (block_count t);
  ro_first : bound_ok (first_key t);
  ro_last : bound_ok (last_key t);
  ro_max_seq : fits 64 (t_max_seq t);
  ro_min_seq : fits 64 (t_min_seq t);
  ro_entries : fits 32 (entry_count t);
  ro_rdel : fits 32 (rdel_blocks t);
  ro_node : fits 32 (node_id t);
  ro_wall : fits 64 (seal_wall t);
}.

Lemma bound_len b : bound_ok b -> length (kb_bytes b) = KEY_MAX /\ length (as_slice b) = kb_len b.
Proof.
  intros H. pose proof (bo_max _ H). pose proof (bo_len _ H). unfold as_slice.
  rewrite length_take. lia.
Qed.

Lemma length_ref_bytes t : ref_ok t -> length (ref_bytes t) = ref_len t.
Proof.
  intros H. unfold ref_bytes, bound_bytes, ref_len. rewrite !length_app, !length_to_le.
  rewrite (proj2 (bound_len _ (ro_first _ H))), (proj2 (bound_len _ (ro_last _ H))). lia.
Qed.

Definition refs_len (l : list TableRef) : nat := sum_list (ref_len <$> l).

Lemma length_refs_bytes l : Forall ref_ok l -> length (refs_bytes l) = refs_len l.
Proof.
  induction 1 as [|t l Ht Hl IH]; [done |]. unfold refs_bytes, refs_len in *.
  cbn [fmap list_fmap concat]. rewrite length_app, length_ref_bytes by done.
  rewrite IH. done.
Qed.

Lemma length_levels_bytes ls :
  Forall (Forall ref_ok) ls ->
  length (concat (level_bytes <$> ls)) = 4 * length ls + sum_list (refs_len <$> ls).
Proof.
  induction 1 as [|l ls Hl Hls IH]; [done |]. cbn [fmap list_fmap concat length].
  rewrite length_app, IH. unfold level_bytes. rewrite length_app, length_to_le.
  rewrite length_refs_bytes by done. cbn. lia.
Qed.

Lemma length_body_bytes h i f g ls :
  Forall (Forall ref_ok) ls ->
  length (body_bytes h i f g ls) = 32 + 4 * length ls + sum_list (refs_len <$> ls).
Proof.
  intros H. unfold body_bytes. rewrite !length_app, !length_to_le, length_levels_bytes by done. lia.
Qed.

Lemma fold_ref_len l n : fold_left (fun refs t => refs + ref_len t)%nat l n = n + refs_len l.
Proof.
  revert n. induction l as [|t l IH]; intros n; [cbn; lia |].
  rewrite fold_left_cons, IH. unfold refs_len. cbn. lia.
Qed.

(** The levels as an edit would leave them, and their bytes. *)
Definition view_levels (m : Manifest) (e : ManifestEdit) : list (list TableRef) :=
  view_level m e <$> seq 0 LEVELS.

Definition view_body (m : Manifest) (e : ManifestEdit) : bytes :=
  body_bytes (default (wal_head m) (e_wal_head e)) (Z.max (next_table_id m) (e_next_table_id e))
    (Z.max (flushed_seq m) (e_flushed e))
    (Z.max (Z.max (seq_high m) (e_seq_high e)) (e_flushed e)) (view_levels m e).

Lemma view_body_len_spec m e :
  Forall (Forall ref_ok) (view_levels m e) -> view_body_len LEVELS m e = length (view_body m e).
Proof.
  intros H. unfold view_body. rewrite length_body_bytes by done.
  unfold view_body_len, view_levels. rewrite length_fmap, length_seq.
  assert (forall js n, fold_left (fun refs li =>
    fold_left (fun refs t => refs + ref_len t)%nat (view_level m e li) refs) js n =
    n + sum_list (refs_len <$> (view_level m e <$> js))) as ->; [| lia].
  induction js as [|i js IH]; intros n; [cbn; lia |].
  rewrite fold_left_cons, IH, fold_ref_len. cbn. lia.
Qed.

Lemma write_body_win init lo m e :
  write_body LEVELS m e (mkWindow init 0 lo) = win init lo (view_body m e).
Proof.
  unfold write_body, window_u32, window_u64. rewrite <- windowed_nil, !window_bytes_win.
  rewrite write_levels_win. unfold view_body, body_bytes, view_levels.
  rewrite length_fmap, length_seq, <- list_fmap_compose, <- !app_assoc. done.
Qed.

(** ** Parsing from any source that delivers the bytes *)

Section source.
  Context {S E : Type} `{Src : !BodySource S E, !BodySourceLaws S E}.

Lemma take_yields_app (s : S) (b rest : bytes) n :
  yields s (b ++ rest) -> length b = n ->
  exists s', take_bytes n s = Ok (b, s') /\ yields s' rest.
Proof.
  intros Hy <-. destruct (take_yields s (b ++ rest) (length b) Hy) as (s' & H1 & H2).
  { rewrite length_app. lia. }
  rewrite take_app_length in H1. rewrite drop_app_length in H2. eauto.
Qed.

Lemma src_yields n v (s : S) rest :
  (0 <= v < 2 ^ (8 * Z.of_nat n))%Z -> yields s (to_le n v ++ rest) ->
  exists s', match take_bytes n s with Ok (b, s) => Ok (from_le b, s) | Err e => Err e end = Ok (v, s')
    /\ yields s' rest.
Proof.
  intros Hv Hy. destruct (take_yields_app s _ _ n Hy (length_to_le _ _)) as (s' & -> & H).
  exists s'. by rewrite from_to_le.
Qed.

Lemma src_u16_yields v (s : S) rest :
  fits 16 v -> yields s (to_le 2 v ++ rest) -> exists s', src_u16 s = Ok (v, s') /\ yields s' rest.
Proof. apply (src_yields 2). Qed.

Lemma src_u32_yields v (s : S) rest :
  fits 32 v -> yields s (to_le 4 v ++ rest) -> exists s', src_u32 s = Ok (v, s') /\ yields s' rest.
Proof. apply (src_yields 4). Qed.

Lemma src_u64_yields v (s : S) rest :
  fits 64 v -> yields s (to_le 8 v ++ rest) -> exists s', src_u64 s = Ok (v, s') /\ yields s' rest.
Proof. apply (src_yields 8). Qed.

Lemma splice_zero b :
  bound_ok b -> splice 0 (as_slice b) (replicate KEY_MAX 0%Z) = kb_bytes b.
Proof.
  intros H. destruct (bound_len b H) as [_ Hs]. unfold splice. cbn [take app Nat.add].
  rewrite drop_replicate, Hs. symmetry. apply (bo_tail _ H).
Qed.

Lemma decode_bound_yields b (s : S) rest :
  bound_ok b -> yields s (bound_bytes b ++ rest) ->
  exists s', decode_bound KEY_MAX s = Ok (b, s') /\ yields s' rest.
Proof.
  intros H Hy. unfold bound_bytes in Hy. rewrite <- app_assoc in Hy.
  pose proof (bo_u16 _ H) as Hu. pose proof (bo_max _ H).
  destruct (src_u16_yields (Z.of_nat (kb_len b)) s (as_slice b ++ rest)) as (s1 & E1 & Hy1);
    [| exact Hy |].
  { unfold fits. change (2 ^ 16)%Z with (U16_MAX + 1)%Z. lia. }
  unfold decode_bound. rewrite E1, Nat2Z.id. rewrite (proj2 (Nat.ltb_ge _ _)) by done.
  destruct (take_yields_app s1 _ _ (kb_len b) Hy1) as (s2 & E2 & Hy2); [apply bound_len, H |].
  rewrite E2. exists s2. split; [| done]. rewrite splice_zero by done. by destruct b.
Qed.

Ltac field_step :=
  match goal with
  | Hy : yields ?s (to_le 4 ?v ++ _) |- context [src_u32 ?s] =>
      let s' := fresh "s" in let E := fresh "E" in let H := fresh "Hy" in
      destruct (src_u32_yields v s _ ltac:(assumption) Hy) as (s' & E & H); rewrite E; clear E Hy
  | Hy : yields ?s (to_le 8 ?v ++ _) |- context [src_u64 ?s] =>
      let s' := fresh "s" in let E := fresh "E" in let H := fresh "Hy" in
      destruct (src_u64_yields v s _ ltac:(assumption) Hy) as (s' & E & H); rewrite E; clear E Hy
  | Hy : yields ?s (bound_bytes ?v ++ _) |- context [decode_bound _ ?s] =>
      let s' := fresh "s" in let E := fresh "E" in let H := fresh "Hy" in
      destruct (decode_bound_yields v s _ ltac:(assumption) Hy) as (s' & E & H); rewrite E; clear E Hy
  end.

Lemma decode_tableref_yields t (s : S) rest :
  ref_ok t -> yields s (ref_bytes t ++ rest) ->
  exists s', decode_tableref KEY_MAX s = Ok (t, s') /\ yields s' rest.
Proof.
  intros [] Hy. unfold ref_bytes in Hy. rewrite <- !app_assoc in Hy. unfold decode_tableref.
  repeat field_step. eexists. split; [by destruct t | done].
Qed.

Lemma decode_refs_yields l (s : S) rest A X :
  Forall ref_ok l -> yields s (refs_bytes l ++ rest) -> length l <= length X ->
  exists s', decode_refs KEY_MAX (length l) (length A) (A ++ X) s =
    Ok (A ++ l ++ drop (length l) X, s') /\ yields s' rest.
Proof.
  intros Hl. revert s A X. induction Hl as [|t l Ht Hl IH]; intros s A X Hy HX.
  - exists s. cbn. by rewrite drop_0.
  - unfold refs_bytes in Hy. cbn [fmap list_fmap concat] in Hy. rewrite <- app_assoc in Hy.
    destruct (decode_tableref_yields t s _ Ht Hy) as (s1 & E1 & Hy1).
    cbn [length decode_refs]. rewrite E1. destruct X as [|x X]; [cbn in HX; lia |].
    rewrite insert_app_r_alt, Nat.sub_diag by done. cbn [insert list_insert].
    destruct (IH s1 (A ++ [t]) X Hy1) as (s2 & E2 & Hy2); [cbn in HX; lia |].
    rewrite length_app in E2. cbn [length] in E2. rewrite <- !app_assoc in E2. cbn [app] in E2.
    exists s2. split; [exact E2 | done].
Qed.

(** A pool filled up to [P], and counts filled up to [cs]. *)
Definition partial (m : Manifest) (P : list TableRef) (cs : list nat) (n : nat) : Manifest :=
  set_refs m (P ++ replicate (CAP - length P) EMPTY) (cs ++ replicate n 0).

Lemma decode_levels_yields ls (s : S) rest m P cs :
  Forall (Forall ref_ok) ls -> (Z.of_nat CAP <= U32_MAX)%Z ->
  yields s (concat (level_bytes <$> ls) ++ rest) ->
  length P + length (concat ls) <= CAP ->
  (cs = [] -> forall l, head ls = Some l -> length l <= TABLES) ->
  exists s',
    decode_levels LEVELS TABLES KEY_MAX (length ls) (length cs) (length P)
      (partial m P cs (length ls)) s =
    Ok (partial m (P ++ concat ls) (cs ++ (length <$> ls)) 0, s') /\ yields s' rest.
Proof.
  intros Hls Hcap. revert s P cs. induction Hls as [|l ls Hl Hls IH]; intros s P cs Hy Hroom H0.
  { exists s. cbn. by rewrite !app_nil_r. }
  cbn [fmap list_fmap concat length] in Hy, Hroom |- *. rewrite length_app in Hroom.
  unfold level_bytes at 1 in Hy. rewrite <- !app_assoc in Hy.
  assert (fits 32 (Z.of_nat (length l))) as Hl32.
  { unfold fits. change (2 ^ 32)%Z with (U32_MAX + 1)%Z. lia. }
  destruct (src_u32_yields _ s _ Hl32 Hy) as (s1 & E1 & Hy1).
  cbn [decode_levels]. rewrite E1.
  assert ((length cs =? 0)%nat && (Z.of_nat TABLES <? Z.of_nat (length l))%Z = false) as ->.
  { destruct cs; [| done]. cbn [length Nat.eqb andb]. apply Z.ltb_ge.
    specialize (H0 eq_refl l eq_refl). lia. }
  cbn [orb]. rewrite (proj2 (Z.ltb_ge _ _)), Nat2Z.id by lia.
  destruct (decode_refs_yields l s1 _ P (replicate (CAP - length P) EMPTY) Hl Hy1)
    as (s2 & E2 & Hy2); [rewrite length_replicate; lia |].
  cbn [partial set_refs pool counts]. rewrite E2.
  destruct (IH s2 (P ++ l) (cs ++ [length l]) Hy2) as (s3 & E3 & Hy3).
  { rewrite length_app. lia. }
  { by destruct cs. }
  exists s3. split; [| done]. rewrite !length_app in E3. cbn [length] in E3.
  rewrite <- !app_assoc in E3. cbn [app] in E3. rewrite <- E3.
  f_equal. unfold partial, set_refs. cbn. f_equal.
  - rewrite drop_replicate, <- app_assoc, length_app. do 3 f_equal. lia.
  - rewrite insert_app_r_alt, Nat.sub_diag by done. by rewrite <- app_assoc.
Qed.

Lemma decode_body_yields (s : S) h i f g ls :
  length ls = LEVELS -> Forall (Forall ref_ok) ls ->
  (Z.of_nat CAP <= U32_MAX)%Z -> (Z.of_nat LEVELS <= U32_MAX)%Z ->
  fits 64 h -> fits 32 i -> fits 64 f -> fits 64 g ->
  length (concat ls) <= CAP -> (forall l, head ls = Some l -> length l <= TABLES) ->
  yields s (body_bytes h i f g ls) ->
  exists s',
    decode_body LEVELS TABLES KEY_MAX s =
    Ok (partial (mkManifest 0 h i f g [] []) (concat ls) (length <$> ls) 0, s') /\ yields s' [].
Proof.
  intros Hlen Hls Hcap HL Hh Hi Hf Hg Hroom H0 Hy. unfold body_bytes in Hy. rewrite Hlen in Hy.
  assert (fits 32 (Z.of_nat LEVELS)) as Hl32.
  { unfold fits. change (2 ^ 32)%Z with (U32_MAX + 1)%Z. lia. }
  unfold decode_body. repeat field_step. rewrite Z.eqb_refl. cbn [negb].
  match goal with H : yields ?s0 _ |- _ =>
    rewrite <- (app_nil_r (concat (level_bytes <$> ls))) in H;
    destruct (decode_levels_yields ls s0 [] (mkManifest 0 h i f g [] []) [] [] Hls Hcap H)
      as (s' & E' & Hy') end.
  - cbn. lia.
  - auto.
  - exists s'. split; [| done]. rewrite Hlen in E'. cbn [length app] in E'.
    unfold partial in E' at 1. cbn [length app set_refs wal_head m_seq next_table_id flushed_seq seq_high] in E'.
    rewrite Nat.sub_0_r in E'. exact E'.
Qed.
End source.

(** ** Well-formed manifests and edits *)

Record man_ok (m : Manifest) (T : list (nat * TableRef)) : Prop := {
  mo_repr : pool_repr LEVELS TABLES KEY_MAX m T;
  mo_l0 : length (lvl 0 T) <= TABLES;
  mo_refs : Forall ref_ok T.*2;
  mo_seq : fits 64 (m_seq m);
  mo_head : fits 64 (wal_head m);
  mo_next : fits 32 (next_table_id m);
  mo_flushed : fits 64 (flushed_seq m);
  mo_high : fits 64 (seq_high m);
}.

Record edit_ok (e : ManifestEdit) (m : Manifest) : Prop := {
  eo_head : forall h, e_wal_head e = Some h -> fits 64 h;
  eo_flushed : fits 64 (e_flushed e);
  eo_high : fits 64 (e_seq_high e);
  eo_next : fits 32 (e_next_table_id e);
  eo_narrow : bound_ok (narrow_to e);
  eo_added : forall l t, added e = Some (l, t) -> ref_ok t;
  eo_stamp : forall id node wall, stamped e = Some (id, node, wall) -> fits 32 node /\ fits 64 wall;
  eo_unique : stamp_ok e m;
  eo_sorted : add_sorted e m;
}.

(** The bounds the const assertions of the crate impose. *)
Record shape_ok : Prop := {
  so_levels : 0 < LEVELS;
  so_cap : CAP <= 64;
  so_u32 : (Z.of_nat LEVELS <= U32_MAX)%Z;
}.

Lemma below_S l T : in_order T -> below (S l) T = below l T ++ filter (fun p => p.1 = l) T.
Proof.
  intros H. rewrite (f_equal (below (S l)) (split_at_level l T H)).
  unfold below at 1. rewrite !filter_app.
  rewrite (filter_all _ (below l T)) by (eapply Forall_impl; [apply filter_Forall |]; cbn; lia).
  rewrite (filter_all _ (filter (fun p => p.1 = l) T))
    by (eapply Forall_impl; [apply filter_Forall |]; cbn; lia).
  rewrite (filter_nothing _ (above l T)), app_nil_r; [done |].
  eapply Forall_impl; [apply filter_Forall |]. cbn. lia.
Qed.

Lemma concat_levels T n :
  in_order T -> concat ((fun l => lvl l T) <$> seq 0 n) = (below n T).*2.
Proof.
  intros H. induction n as [|n IH].
  - unfold below. rewrite filter_nothing; [done |]. apply Forall_forall. lia.
  - rewrite seq_S, fmap_app, concat_app, IH, below_S, fmap_app by done.
    cbn. by rewrite app_nil_r.
Qed.

Lemma concat_all_levels m T :
  pool_repr LEVELS TABLES KEY_MAX m T -> concat ((fun l => lvl l T) <$> seq 0 LEVELS) = T.*2.
Proof.
  intros H. rewrite concat_levels by apply H. unfold below. by rewrite filter_all by apply H.
Qed.

(** The manifest a body decodes to. *)
Lemma decoded_manifest m T :
  pool_repr LEVELS TABLES KEY_MAX m T ->
  let ls := (fun l => lvl l T) <$> seq 0 LEVELS in
  partial (mkManifest 0 (wal_head m) (next_table_id m) (flushed_seq m) (seq_high m) [] [])
    (concat ls) (length <$> ls) 0 = set_seq m 0.
Proof.
  intros H. cbv zeta. rewrite (concat_all_levels m T H).
  unfold partial, set_refs, set_seq. cbn [m_seq wal_head next_table_id flushed_seq seq_high].
  rewrite (pr_pool _ _ _ _ _ H), (pr_counts _ _ _ _ _ H), length_fmap.
  rewrite app_nil_r, <- list_fmap_compose. done.
Qed.

Lemma edit_ref_ok e m pos r : edit_ok e m -> ref_ok r -> ref_ok (edit_ref e pos r).
Proof.
  intros He Hr. assert (ref_ok (narrow_ref e pos r)) as Hn.
  { unfold narrow_ref. destruct (bit _ _); [| done]. destruct Hr. split; try done. apply He. }
  unfold edit_ref, stamp_ref. destruct (stamped e) as [[[id node] wall] |] eqn:Es; [| done].
  destruct (_ =? _)%Z; [| done]. destruct (eo_stamp _ _ He _ _ _ Es).
  destruct Hn. by split.
Qed.

Lemma survivors_ok e m pos refs :
  edit_ok e m -> Forall ref_ok refs -> Forall ref_ok (survivors e pos refs).
Proof.
  intros He Hr. revert pos. induction Hr as [|r refs Hr Hrs IH]; intros pos; cbn; [constructor |].
  destruct (bit _ _); [apply IH |]. constructor; [by eapply edit_ref_ok | apply IH].
Qed.

Lemma insert_by_key_ok a l : ref_ok a -> Forall ref_ok l -> Forall ref_ok (insert_by_key a l).
Proof.
  intros Ha. induction 1 as [|t l Ht Hl IH]; cbn; [by apply Forall_singleton |].
  destruct (bytes_leb _ _); rewrite ?Forall_cons; auto.
Qed.

Lemma lvl_ok l T : Forall ref_ok T.*2 -> Forall ref_ok (lvl l T).
Proof.
  intros H. unfold lvl. apply Forall_forall. intros r (p & -> & Hp)%list_elem_of_fmap.
  apply list_elem_of_filter in Hp as [_ Hp]. rewrite Forall_forall in H. apply H.
  by apply list_elem_of_fmap_2.
Qed.

Lemma view_level_ok m T e li :
  man_ok m T -> edit_ok e m -> li < LEVELS -> Forall ref_ok (view_level m e li).
Proof.
  intros Hm He Hli. unfold view_level. rewrite view_loop_survivors.
  rewrite (level_repr _ _ _ _ _ (mo_repr _ _ Hm)) by done.
  assert (Forall ref_ok (survivors e (start m li) (lvl li T))) as Hs
    by (eapply survivors_ok; [exact He |]; apply lvl_ok, (mo_refs _ _ Hm)).
  destruct (added e) as [[lv t] |] eqn:Ea; [| done].
  pose proof (eo_added _ _ He _ _ Ea) as Ht.
  destruct (lv =? li)%nat; [| done]. destruct (li =? 0)%nat.
  - apply Forall_app. split; [done | by apply Forall_singleton].
  - by apply insert_by_key_ok.
Qed.

Lemma view_levels_ok m T e :
  man_ok m T -> edit_ok e m -> Forall (Forall ref_ok) (view_levels m e).
Proof.
  intros Hm He. unfold view_levels. apply Forall_fmap, Forall_forall.
  intros li [_ Hli]%elem_of_seq. by eapply view_level_ok.
Qed.

Lemma length_grown_l0 m T e {E} :
  man_ok m T -> CAP <= 64 -> check_edit (E := E) LEVELS TABLES m e = Ok tt -> 0 < LEVELS ->
  length (view_level m e 0) <= TABLES.
Proof.
  intros Hm Hcap Hc HL. pose proof (mo_repr _ _ Hm) as Hr.
  rewrite (view_level_kept LEVELS TABLES KEY_MAX m e T 0 Hr HL).
  assert (length (lvl 0 (kept e 0 T)) <= TABLES) as Hk.
  { rewrite lvl_kept by apply Hr. pose proof (length_survivors e (length (below 0 T)) (lvl 0 T)) as H.
    assert (length (below 0 T) = 0) as E0 by (rewrite <- sum_levels; done).
    rewrite E0 in *. pose proof (mo_l0 _ _ Hm). change (set_below (removed e) 0) with 0 in H. lia. }
  destruct (added e) as [[lv t'] |] eqn:Ea; [| done].
  destruct (lv =? 0)%nat eqn:E0; [| done]. bool_lia. subst lv.
  destruct (check_edit_room LEVELS TABLES KEY_MAX m e T 0 t' Hr Hcap Hc Ea) as (_ & _ & H).
  unfold grown. cbn [Nat.eqb]. rewrite length_app. cbn. specialize (H eq_refl). lia.
Qed.

Lemma fits_max w a b : fits w a -> fits w b -> fits w (Z.max a b).
Proof. unfold fits. lia. Qed.

(** A checked edit leaves a well-formed manifest whose body is the view's. *)
Lemma apply_checked_ok m T e {E} :
  shape_ok -> man_ok m T -> edit_ok e m -> check_edit (E := E) LEVELS TABLES m e = Ok tt ->
  exists T', man_ok (apply_checked LEVELS TABLES KEY_MAX m e) T' /\
    view_levels m e = (fun l => lvl l T') <$> seq 0 LEVELS /\
    let m' := apply_checked LEVELS TABLES KEY_MAX m e in
    view_body m e = body_bytes (wal_head m') (next_table_id m') (flushed_seq m') (seq_high m')
      ((fun l => lvl l T') <$> seq 0 LEVELS).
Proof.
  intros [HL Hcap Hu] Hm He Hc.
  destruct (apply_checked_repr LEVELS TABLES KEY_MAX m e T (mo_repr _ _ Hm) Hcap Hc
    (eo_unique _ _ He) (eo_sorted _ _ He)) as (T' & Hr & Hsc & Hl).
  exists T'. cbv zeta. set (m' := apply_checked LEVELS TABLES KEY_MAX m e) in *.
  assert (view_levels m e = (fun l => lvl l T') <$> seq 0 LEVELS) as Hv.
  { apply list_fmap_ext. intros i l [-> Hi]%lookup_seq. cbn. by rewrite Hl. }
  destruct (scalars_view m e) as (S0 & S1 & S2 & S3 & S4).
  split_and!; [| done |].
  - split; [done | | | | | | |]; try (rewrite Hsc; cbn; rewrite ?S0, ?S1, ?S2, ?S3, ?S4).
    + rewrite Hl by done. by eapply length_grown_l0.
    + rewrite <- (concat_all_levels m' T' Hr), <- Hv.
      apply Forall_concat. by eapply view_levels_ok.
    + apply Hm.
    + destruct (e_wal_head e) as [h |] eqn:Eh; cbn; [by apply (eo_head _ _ He) | apply Hm].
    + apply fits_max; [apply Hm | by destruct He].
    + apply fits_max; [apply Hm | by destruct He].
    + apply fits_max; [apply fits_max; [apply Hm | by destruct He] | by destruct He].
  - unfold view_body. rewrite Hv, Hsc. cbn [wal_head next_table_id flushed_seq seq_high set_refs].
    by rewrite S1, S2, S3, S4.
Qed.

(** ** Block framing *)

Section block.
  Variable BLOCK : nat.

  Abbreviation chunk := (chunk BLOCK).

Definition block_head (sq : u64) (i count len : nat) : bytes :=
  to_le 8 MANIFEST_MAGIC ++ to_le 8 sq ++ to_le 2 (Z.of_nat i) ++ to_le 2 (Z.of_nat count) ++
  to_le 4 (Z.of_nat len).

Definition frame (sq : u64) (i count : nat) (part : bytes) : bytes :=
  let front := block_head sq i count (length part) ++ part in
  front ++ to_le 4 (crc32 front) ++ replicate (BLOCK - 28 - length part) 0%Z.

Lemma length_block_head sq i count len : length (block_head sq i count len) = 24.
Proof. reflexivity. Qed.

Lemma length_frame sq i count part : length part + 28 <= BLOCK -> length (frame sq i count part) = BLOCK.
Proof.
  intros. unfold frame. rewrite !length_app, length_block_head, length_to_le, length_replicate. lia.
Qed.

Lemma block_head_ok sq i count len : bytes_ok (block_head sq i count len).
Proof. unfold block_head. rewrite !bytes_ok_app. auto with horton. Qed.

Lemma frame_ok sq i count part : bytes_ok part -> bytes_ok (frame sq i count part).
Proof.
  intros. unfold frame. rewrite !bytes_ok_app.
  split_and!; auto using block_head_ok, bytes_ok_replicate with horton.
Qed.

Definition head_fits (sq : u64) (i count len : nat) : Prop :=
  fits 64 sq /\ (Z.of_nat i <= U16_MAX)%Z /\ (Z.of_nat count <= U16_MAX)%Z /\
  (Z.of_nat len <= U32_MAX)%Z.

Lemma check_frame sq i count part :
  head_fits sq i count (length part) -> bytes_ok part -> length part + 28 <= BLOCK ->
  check_block BLOCK (frame sq i count part) = Some (mkHead sq i count (length part)).
Proof.
  intros (H1 & H2 & H3 & H4) Hok Hlen. unfold check_block, frame.
  set (front := block_head sq i count (length part) ++ part).
  set (tail := to_le 4 (crc32 front) ++ replicate (BLOCK - 28 - length part) 0%Z).
  assert (front ++ tail = to_le 8 MANIFEST_MAGIC ++ to_le 8 sq ++ to_le 2 (Z.of_nat i) ++
    to_le 2 (Z.of_nat count) ++ to_le 4 (Z.of_nat (length part)) ++ part ++ tail) as Ef.
  { unfold front, block_head. by rewrite <- !app_assoc. }
  assert (sub 0 8 (front ++ tail) = to_le 8 MANIFEST_MAGIC) as ->
    by (rewrite Ef; by apply sub_front).
  assert (sub 8 8 (front ++ tail) = to_le 8 sq) as ->
    by (rewrite Ef, (sub_skip 0) by done; by apply sub_front).
  assert (sub 16 2 (front ++ tail) = to_le 2 (Z.of_nat i)) as ->
    by (rewrite Ef, (sub_skip 8), (sub_skip 0) by done; by apply sub_front).
  assert (sub 18 2 (front ++ tail) = to_le 2 (Z.of_nat count)) as ->
    by (rewrite Ef, (sub_skip 10), (sub_skip 2), (sub_skip 0) by done; by apply sub_front).
  assert (sub 20 4 (front ++ tail) = to_le 4 (Z.of_nat (length part))) as ->
    by (rewrite Ef, (sub_skip 12), (sub_skip 4), (sub_skip 2), (sub_skip 0) by done;
        by apply sub_front).
  change (from_le (to_le 8 MANIFEST_MAGIC)) with MANIFEST_MAGIC.
  unfold U16_MAX, U32_MAX, fits in *.
  rewrite (from_to_le 8 sq), (from_to_le 2 (Z.of_nat i)), (from_to_le 2 (Z.of_nat count)),
    (from_to_le 4 (Z.of_nat (length part))) by lia.
  rewrite Z.eqb_refl. cbn [negb]. rewrite !Nat2Z.id.
  rewrite (proj2 (Z.ltb_ge _ _)) by (unfold BLOCK_HEADER, BLOCK_CRC; lia).
  assert (length front = BLOCK_HEADER + length part) as Hf
    by (unfold front; by rewrite length_app, length_block_head).
  rewrite <- Hf, take_app_length. unfold tail.
  rewrite sub_mid by done. rewrite from_to_le, Z.eqb_refl; [done |].
  apply crc32_fits. unfold front. apply bytes_ok_app. split; [apply block_head_ok | done].
Qed.

(** The chunk of a body that block [i] carries. *)
Definition part_of (body : bytes) (i : nat) : bytes :=
  sub (i * chunk) ((length body - i * chunk) `min` chunk) body.

Lemma length_part body i :
  length (part_of body i) = (length body - i * chunk) `min` chunk.
Proof. unfold part_of. rewrite length_sub_min. lia. Qed.

Lemma length_part_le body i : 28 < BLOCK -> length (part_of body i) + 28 <= BLOCK.
Proof. intros. rewrite length_part. unfold Manifest.chunk, BLOCK_HEADER, BLOCK_CRC. lia. Qed.

Lemma zeros_split a b : replicate (a + b) 0%Z = replicate a 0%Z ++ replicate b 0%Z.
Proof. apply replicate_add. Qed.

(** Filling the header fields and the body part of a zero block, then the CRC. *)
Lemma fill_block sq i count part :
  length part + 28 <= BLOCK ->
  let out := splice BLOCK_HEADER part (replicate BLOCK 0%Z) in
  let out := splice 0 (to_le 8 MANIFEST_MAGIC) out in
  let out := splice 8 (to_le 8 sq) out in
  let out := splice 16 (to_le 2 (Z.of_nat i)) out in
  let out := splice 18 (to_le 2 (Z.of_nat count)) out in
  let out := splice 20 (to_le 4 (Z.of_nat (length part))) out in
  splice (BLOCK_HEADER + length part)
    (to_le 4 (crc32 (take (BLOCK_HEADER + length part) out))) out = frame sq i count part.
Proof.
  intros Hlen. cbv zeta.
  set (n := length part). set (z := BLOCK - 28 - n).
  assert (replicate BLOCK 0%Z = (replicate 8 0%Z ++ replicate 8 0%Z ++ replicate 2 0%Z ++
    replicate 2 0%Z ++ replicate 4 0%Z) ++ replicate n 0%Z ++ replicate 4 0%Z ++ replicate z 0%Z) as ->.
  { rewrite <- !zeros_split. f_equal. lia. }
  rewrite splice_mid by (rewrite ?length_replicate; done).
  rewrite <- !app_assoc.
  rewrite splice_front by done.
  rewrite splice_mid by done.
  rewrite (app_assoc (to_le 8 MANIFEST_MAGIC) (to_le 8 sq)), splice_mid by done.
  rewrite (app_assoc _ (to_le 2 (Z.of_nat i))), splice_mid by done.
  rewrite (app_assoc _ (to_le 2 (Z.of_nat count))), splice_mid by done.
  assert ((((to_le 8 MANIFEST_MAGIC ++ to_le 8 sq) ++ to_le 2 (Z.of_nat i)) ++
    to_le 2 (Z.of_nat count)) ++ to_le 4 (Z.of_nat n) ++ part ++ replicate 4 0%Z ++ replicate z 0%Z
    = (block_head sq i count n ++ part) ++ replicate 4 0%Z ++ replicate z 0%Z) as ->.
  { unfold block_head. by rewrite <- !app_assoc. }
  assert (BLOCK_HEADER + n = length (block_head sq i count n ++ part)) as ->
    by by rewrite length_app, length_block_head.
  rewrite take_app_length, splice_mid by (rewrite ?length_to_le; done). done.
Qed.

Lemma encode_view_frame {E} m T e sq i :
  28 < BLOCK -> man_ok m T -> edit_ok e m ->
  let body := view_body m e in
  let count := blocks_for BLOCK (length body) in
  i < count -> (Z.of_nat count <= U16_MAX)%Z -> (Z.of_nat BLOCK <= U32_MAX)%Z ->
  encode_view_block (E := E) LEVELS BLOCK m e sq i = Ok (frame sq i count (part_of body i)).
Proof.
  intros HB Hm He body count Hi Hc Hb. unfold encode_view_block.
  rewrite (view_body_len_spec m e) by by eapply view_levels_ok.
  fold body. fold count. rewrite (proj2 (Nat.leb_gt _ _)) by done.
  rewrite write_body_win. fold body. cbn [win w_out].
  set (len := (length body - i * chunk) `min` chunk).
  assert (len + 28 <= BLOCK) as Hl by (unfold len, Manifest.chunk, BLOCK_HEADER, BLOCK_CRC; lia).
  assert (length (sub BLOCK_HEADER len (replicate BLOCK 0%Z)) = len) as Hs
    by (rewrite length_sub; [done | rewrite length_replicate; unfold BLOCK_HEADER; lia]).
  assert (i * chunk <= length body) as Hlo.
  { unfold count, blocks_for, div_ceil in Hi. pose proof (Nat.div_mod_eq (length body) chunk).
    destruct (_ mod _ =? 0)%nat eqn:E1; bool_lia; destruct (_ =? 0)%nat eqn:E2; bool_lia; nia. }
  rewrite windowed_full by (rewrite Hs; unfold len; lia).
  rewrite Hs. fold len. change (sub (i * chunk) len body) with (part_of body i).
  rewrite !try_u16_le, try_u32_le by lia.
  f_equal. pose proof (fill_block sq i count (part_of body i)) as H.
  rewrite length_part in H. fold len in H. by apply H.
Qed.

Lemma check_part sq body i :
  let count := blocks_for BLOCK (length body) in
  28 < BLOCK -> fits 64 sq -> bytes_ok body -> i < count -> (Z.of_nat count <= U16_MAX)%Z ->
  (Z.of_nat BLOCK <= U32_MAX)%Z ->
  check_block BLOCK (frame sq i count (part_of body i)) =
  Some (mkHead sq i count (length (part_of body i))).
Proof.
  intros count HB Hs Hb Hi Hc HB'. apply check_frame.
  - pose proof (length_part_le body i HB). unfold head_fits. split_and!; [done | lia | lia | lia].
  - by apply bytes_ok_sub.
  - by apply length_part_le.
Qed.
End block.

(** ** The empty edit, and one-block copies *)

Lemma empty_bound_ok : bound_ok (EMPTY_BOUND KEY_MAX).
Proof.
  split; cbn [kb_len kb_bytes EMPTY_BOUND].
  - lia.
  - unfold U16_MAX. lia.
  - apply length_replicate.
  - apply bytes_ok_replicate.
  - by rewrite Nat.sub_0_r.
Qed.

Lemma empty_edit_ok m : edit_ok (EMPTY_EDIT KEY_MAX) m.
Proof.
  split; cbn; try done; try (unfold fits; lia); [apply empty_bound_ok |].
  unfold stamp_ok. cbn. congruence.
Qed.

Lemma bit_zero i : bit 0 i = false.
Proof. unfold bit. rewrite Z.shiftr_0_l. apply andb_false_r. Qed.

Lemma survivors_empty pos refs : survivors (EMPTY_EDIT KEY_MAX) pos refs = refs.
Proof.
  revert pos. induction refs as [|r refs IH]; intros pos; [done |]. cbn [survivors].
  unfold edit_ref, narrow_ref. cbn [EMPTY_EDIT removed narrowed]. rewrite bit_zero. cbn. by rewrite IH.
Qed.

(** The body of a manifest. *)
Definition man_body (m : Manifest) (T : list (nat * TableRef)) : bytes :=
  body_bytes (wal_head m) (next_table_id m) (flushed_seq m) (seq_high m)
    ((fun l => lvl l T) <$> seq 0 LEVELS).

Lemma view_body_empty m T :
  man_ok m T -> view_body m (EMPTY_EDIT KEY_MAX) = man_body m T.
Proof.
  intros Hm. unfold view_body, man_body. cbn [EMPTY_EDIT e_wal_head e_next_table_id e_flushed e_seq_high].
  destruct Hm as [Hr _ _ _ Hh Hn Hf Hs]. unfold fits in *. rewrite !Z.max_l by lia.
  f_equal. apply list_fmap_ext. intros i l [-> Hi]%lookup_seq. cbn.
  unfold view_level. cbn [EMPTY_EDIT added]. rewrite view_loop_survivors, survivors_empty.
  by apply (level_repr _ _ _ _ _ Hr).
Qed.

Lemma bytes_ok_concat (ls : list (list Z)) : Forall bytes_ok ls -> bytes_ok (concat ls).
Proof. apply Forall_concat. Qed.

Lemma as_slice_ok b : bound_ok b -> bytes_ok (as_slice b).
Proof. intros H. apply Forall_take, (bo_bytes _ H). Qed.

Lemma ref_bytes_ok t : ref_ok t -> bytes_ok (ref_bytes t).
Proof.
  intros []. unfold ref_bytes, bound_bytes. rewrite !bytes_ok_app.
  split_and!; auto using as_slice_ok with horton.
Qed.

Lemma body_bytes_ok h i f g ls : Forall (Forall ref_ok) ls -> bytes_ok (body_bytes h i f g ls).
Proof.
  intros H. unfold body_bytes. rewrite !bytes_ok_app. split_and!; auto with horton.
  apply bytes_ok_concat, Forall_fmap. eapply Forall_impl; [exact H |]. intros l Hl.
  change (bytes_ok (level_bytes l)). unfold level_bytes. apply bytes_ok_app. split; [auto with horton |].
  apply bytes_ok_concat, Forall_fmap. eapply Forall_impl; [exact Hl |]. apply ref_bytes_ok.
Qed.

Lemma levels_ok T : Forall ref_ok T.*2 -> Forall (Forall ref_ok) ((fun l => lvl l T) <$> seq 0 LEVELS).
Proof. intros H. apply Forall_fmap, Forall_true. intros l. by apply lvl_ok. Qed.

Lemma man_body_ok m T : man_ok m T -> bytes_ok (man_body m T).
Proof. intros H. apply body_bytes_ok, levels_ok, H. Qed.

Lemma cap_u32 : shape_ok -> (Z.of_nat CAP <= U32_MAX)%Z.
Proof. intros [_ H _]. unfold U32_MAX. lia. Qed.

(** Any source that delivers a manifest's body decodes to it. *)
Lemma decode_man_body {S E} `{BodySourceLaws S E} (s : S) m T :
  shape_ok -> man_ok m T -> yields s (man_body m T) ->
  exists s', decode_body LEVELS TABLES KEY_MAX s = Ok (set_seq m 0, s') /\ yields s' [].
Proof.
  intros Hsh Hm Hy. destruct Hm as [Hr Hl0 Hrefs _ Hh Hn Hf Hs].
  edestruct decode_body_yields with (11 := Hy) as (s' & E1 & Hy'); try done.
  - by rewrite length_fmap, length_seq.
  - by apply levels_ok.
  - by apply cap_u32.
  - apply Hsh.
  - rewrite (concat_all_levels m T Hr), length_fmap. apply Hr.
  - intros l Hl. destruct Hsh as [HL _ _]. destruct LEVELS; [lia |]. cbn in Hl.
    injection Hl as <-. done.
  - rewrite (decoded_manifest m T Hr) in E1. eauto.
Qed.
End codec.

(** C31 A well-formed manifest that fits one block encodes to a block of the device's
    size that decodes to the same manifest, sequence number included; one that
    needs more blocks is refused with [ManifestFull]. *)
Theorem manifest_roundtrip {E} LEVELS TABLES KEY_MAX BLOCK m T :
  shape_ok LEVELS TABLES -> man_ok LEVELS TABLES KEY_MAX m T ->
  28 < BLOCK -> (Z.of_nat BLOCK <= U32_MAX)%Z ->
  if (encoded_blocks LEVELS KEY_MAX BLOCK m <=? 1)%nat then
    exists buf, encode (E := E) LEVELS KEY_MAX BLOCK m = Ok buf /\ length buf = BLOCK /\
      decode (E := E) LEVELS TABLES KEY_MAX BLOCK buf = Ok m
  else encode (E := E) LEVELS KEY_MAX BLOCK m = Err ManifestFull.
Proof.
  intros Hsh Hm HB HU. unfold encode, encode_block.
  assert (encoded_blocks LEVELS KEY_MAX BLOCK m =
    blocks_for BLOCK (length (man_body LEVELS m T))) as Eb.
  { unfold encoded_blocks, body_len. rewrite (view_body_len_spec LEVELS KEY_MAX).
    - by rewrite (view_body_empty LEVELS TABLES KEY_MAX m T).
    - eapply view_levels_ok; [exact Hm | apply empty_edit_ok]. }
  rewrite Eb. set (body := man_body LEVELS m T) in *.
  assert (0 < blocks_for BLOCK (length body)) as Hpos.
  { unfold blocks_for. destruct (_ =? 0)%nat eqn:E0; bool_lia. }
  destruct (_ <=? 1)%nat eqn:E1; bool_lia; [| by rewrite (proj2 (Nat.ltb_lt _ _))].
  assert (blocks_for BLOCK (length body) = 1) as E2 by lia.
  rewrite (proj2 (Nat.ltb_ge _ _)) by done.
  assert (view_body LEVELS m (EMPTY_EDIT KEY_MAX) = body) as Hv
    by by apply (view_body_empty LEVELS TABLES).
  assert ((Z.of_nat (blocks_for BLOCK (length body)) <= U16_MAX)%Z) as HU16
    by (rewrite E2; unfold U16_MAX; lia).
  rewrite (encode_view_frame LEVELS TABLES KEY_MAX BLOCK m T) by
    (rewrite ?Hv; first [done | apply empty_edit_ok]).
  rewrite Hv. eexists. split; [done |].
  split; [by apply length_frame, length_part_le |].
  unfold decode. rewrite check_part by (first [done | apply Hm | by eapply man_body_ok]).
  rewrite E2. cbn [bh_index bh_count bh_len bh_seq Nat.eqb negb orb].
  assert (part_of BLOCK body 0 = body) as Hp.
  { unfold part_of. cbn [Nat.mul]. rewrite Nat.sub_0_r. unfold sub. rewrite drop_0. apply take_ge.
    unfold blocks_for, div_ceil in E2. pose proof (Nat.div_mod_eq (length body) (chunk BLOCK)).
    assert (chunk BLOCK <> 0) by (unfold chunk, BLOCK_HEADER, BLOCK_CRC; lia).
    pose proof (Nat.mod_upper_bound (length body) (chunk BLOCK)).
    destruct (_ mod _ =? 0)%nat eqn:E3; bool_lia; destruct (_ =? 0)%nat eqn:E4; bool_lia; nia. }
  rewrite Hp. unfold frame. rewrite <- app_assoc, sub_mid by done.
  destruct (decode_man_body (E := E) (H0 := SliceSource_laws) LEVELS TABLES KEY_MAX body m T Hsh Hm eq_refl)
    as (s' & -> & Hy).
  cbn in Hy. subst s'. by destruct m.
Qed.

(** ** A concrete copy *)

Module CodecWitness.
Import PoolWitness.

Lemma ex_ok : man_ok 2 2 2 ex_m ex_T.
Proof.
  split; try (unfold fits; by_compute); [exact ex_repr |].
  repeat (apply Forall_cons; split; [split; try (unfold fits; by_compute); split; by_compute |]).
  constructor.
Qed.

Lemma manifest_roundtrip_witness :
  exists buf, encode (E := unit) 2 2 512 ex_m = Ok buf /\ decode (E := unit) 2 2 2 512 buf = Ok ex_m.
Proof.
  pose proof (manifest_roundtrip (E := unit) 2 2 2 512 ex_m ex_T) as H.
  destruct H as (buf & H1 & _ & H2); [split; by_compute | exact ex_ok | lia | by_compute |].
  exists buf. split; [exact H1 | exact H2].
Defined.
End CodecWitness.
