(* ===== verification/KeySucc.v ===== *)
(** * The successor of a key bound: [KeyBound::successor] of [src/manifest.rs]

    Compaction cuts its outputs between a key and its successor.  The successor is
    the cut point among all keys the store accepts. *)

From stdpp Require Import base numbers list.
From Stdlib Require Import ZArith Lia.
From S2P Require Import Prelude Device Manifest ManifestPool ManifestEdit ManifestCodec.

(** Appending a zero byte: nothing lies between. *)
Lemma le_iff_lt_zero k s : bytes_ok k -> bytes_le k s <-> bytes_lt k (s ++ [0%Z]).
Proof.
  intros Hk. unfold bytes_le, bytes_lt. revert s. induction Hk as [|x k Hx Hk IH]; intros [|y s]; cbn.
  - done.
  - done.
  - unfold fits in Hx. destruct (Z.compare_spec x 0); [| lia |]; [| done].
    destruct k; done.
  - destruct (Z.compare x y); [apply IH | done | done].
Qed.

(** No key of at most [n] bytes is above [n] bytes of 0xFF. *)
Lemma le_all_ff k n : bytes_ok k -> length k <= n -> bytes_le k (replicate n 255%Z).
Proof.
  intros Hk. unfold bytes_le. revert n. induction Hk as [|x k Hx Hk IH]; intros [|n] Hn; cbn in *;
    try done; [lia |].
  unfold fits in Hx. destruct (Z.compare_spec x 255); [apply IH; lia | done | lia].
Qed.

(** Incrementing the last byte below 0xFF and dropping the tail. *)
Lemma le_iff_lt_incr k p x n :
  bytes_ok k -> length k <= length p + 1 + n ->
  bytes_le k (p ++ [x] ++ replicate n 255%Z) <-> bytes_lt k (p ++ [(x + 1)%Z]).
Proof.
  intros Hk. revert k Hk. induction p as [|y p IH]; intros [|z k] Hk Hl; cbn in Hl |- *; try done.
  - apply Forall_cons in Hk as [_ Hk].
    assert (bytes_le k (replicate n 255%Z)) as Hff by (apply le_all_ff; [done | lia]).
    unfold bytes_le, bytes_lt in *. cbn.
    destruct (Z.compare_spec z x), (Z.compare_spec z (x + 1)); try lia; try done.
    split; [done |]. by destruct k.
  - apply Forall_cons in Hk as [_ Hk]. specialize (IH k Hk ltac:(lia)).
    unfold bytes_le, bytes_lt in *. cbn. destruct (Z.compare z y); [exact IH | done | done].
Qed.

Lemma succ_loop_spec i b :
  i <= length b -> drop i b = replicate (length b - i) 255%Z ->
  match succ_loop i b with
  | Some s => exists j x, j < i /\
      b = take j b ++ [x] ++ replicate (length b - (j + 1)) 255%Z /\ x <> 255%Z /\
      s = mkBound (j + 1) (take j b ++ [(x + 1)%Z] ++ replicate (length b - (j + 1)) 0%Z)
  | None => b = replicate (length b) 255%Z
  end.
Proof.
  induction i as [|i IH]; intros Hi Hd; cbn [succ_loop].
  { rewrite drop_0, Nat.sub_0_r in Hd. done. }
  destruct (lookup_lt_is_Some_2 b i Hi) as [x Hx].
  rewrite (nth_lookup_Some b i 0%Z x Hx).
  assert (drop i b = x :: replicate (length b - (i + 1)) 255%Z) as Hd'.
  { rewrite (drop_S _ x) by done. f_equal. by rewrite Nat.add_1_r. }
  destruct (x =? 255)%Z eqn:E; cbn [negb].
  - bool_lia. subst x. specialize (IH ltac:(lia)). rewrite Hd' in IH.
    replace (length b - i) with (S (length b - (i + 1))) in IH by lia. specialize (IH eq_refl).
    destruct (succ_loop i b); [| done]. destruct IH as (j & x & Hj & H). exists j, x. split; [lia | done].
  - bool_lia. exists i, x. split_and!; [lia | | done | done].
    rewrite <- (take_drop i b) at 1. by rewrite Hd'.
Qed.

(** The successor of a key bound is the exact cut after it.  For a well-formed
    non-empty bound, every key of at most [KEY_MAX] bytes is at or below the bound
    if and only if it is strictly below the successor, and the successor is again
    well-formed; there is no successor exactly when no such key is above the
    bound. *)
Theorem successor_is_cut KEY_MAX b :
  bound_ok KEY_MAX b -> 0 < kb_len b -> (Z.of_nat KEY_MAX <= U16_MAX)%Z ->
  match successor KEY_MAX b with
  | Some s =>
      bound_ok KEY_MAX s /\
      forall k, bytes_ok k -> length k <= KEY_MAX ->
        bytes_le k (as_slice b) <-> bytes_lt k (as_slice s)
  | None => forall k, bytes_ok k -> length k <= KEY_MAX -> bytes_le k (as_slice b)
  end.
Proof.
  intros Hb Hpos HK. unfold successor. rewrite (proj2 (Nat.eqb_neq _ _)) by lia.
  pose proof (bo_tail _ _ Hb) as Ht. destruct (bound_len _ _ Hb) as [Hl Hs].
  pose proof (bo_max _ _ Hb) as Hm. pose proof (bo_bytes _ _ Hb) as Hok.
  destruct (kb_len b <? KEY_MAX)%nat eqn:E; bool_lia.
  - assert (splice (kb_len b) [0%Z] (kb_bytes b) = kb_bytes b) as ->.
    { rewrite Ht. replace (KEY_MAX - kb_len b) with (S (KEY_MAX - kb_len b - 1)) by lia.
      cbn [replicate]. apply (splice_mid _ (as_slice b) [0%Z]); done. }
    assert (as_slice (mkBound (kb_len b + 1) (kb_bytes b)) = as_slice b ++ [0%Z]) as Ha.
    { unfold as_slice at 1. cbn [kb_len kb_bytes]. rewrite Ht, take_app_ge by lia. rewrite Hs.
      f_equal. replace (KEY_MAX - kb_len b) with (S (KEY_MAX - kb_len b - 1)) by lia.
      replace (kb_len b + 1 - kb_len b) with 1 by lia. done. }
    split.
    + split; cbn [kb_len kb_bytes]; try done; try lia. rewrite Ha, <- app_assoc, Ht at 1. f_equal.
      replace (KEY_MAX - kb_len b) with (S (KEY_MAX - (kb_len b + 1))) by lia. done.
    + intros k Hk _. rewrite Ha. by apply le_iff_lt_zero.
  - assert (kb_len b = KEY_MAX) as Elen by lia.
    assert (as_slice b = kb_bytes b) as Ea by (unfold as_slice; apply take_ge; lia).
    pose proof (succ_loop_spec (kb_len b) (kb_bytes b) ltac:(lia)) as H.
    rewrite drop_ge, Hl, Elen, Nat.sub_diag in H by lia. specialize (H eq_refl). rewrite Elen.
    destruct (succ_loop KEY_MAX (kb_bytes b)) as [s |].
    + destruct H as (j & x & Hj & Hbx & Hx & ->).
      set (p := take j (kb_bytes b)) in *. set (n := KEY_MAX - (j + 1)) in *.
      assert (length p = j) as Hp by (unfold p; rewrite length_take; lia).
      assert (as_slice (mkBound (j + 1) (p ++ [(x + 1)%Z] ++ replicate n 0%Z)) = p ++ [(x + 1)%Z]) as Ha.
      { unfold as_slice. cbn [kb_len kb_bytes]. rewrite app_assoc.
        apply take_app_length'. rewrite length_app. cbn. lia. }
      rewrite Hbx, !bytes_ok_app in Hok. destruct Hok as (Hop & Hox & _).
      apply Forall_cons in Hox as [Hox _]. unfold fits in Hox.
      split.
      * split; cbn [kb_len kb_bytes].
        -- lia.
        -- lia.
        -- rewrite !length_app, length_replicate. cbn. lia.
        -- rewrite !bytes_ok_app. split_and!; [done | | auto with horton].
           constructor; [unfold fits; lia | constructor].
        -- rewrite Ha. fold n. by rewrite <- app_assoc.
      * intros k Hk Hkl. rewrite Ha, Ea, Hbx. apply le_iff_lt_incr; [done | lia].
    + intros k Hk Hkl. rewrite Ea, H. by apply le_all_ff.
Qed.

Lemma successor_is_cut_witness :
  bytes_lt [1; 2; 255]%Z [1; 3]%Z /\ bytes_le [1; 2; 255]%Z [1; 2; 255]%Z.
Proof.
  pose proof (successor_is_cut 3 (mkBound 3 [1; 2; 255]%Z)) as H.
  change (successor 3 (mkBound 3 [1; 2; 255]%Z)) with (Some (mkBound 2 [1; 3; 0]%Z)) in H.
  destruct H as [_ H]; [split; by_compute | cbn; lia | by_compute |].
  specialize (H [1; 2; 255]%Z ltac:(by_compute) ltac:(cbn; lia)).
  split; [| apply bytes_le_refl]. apply H, bytes_le_refl.
Defined.
