(* ===== verification/ManifestLog.v ===== *)
(** * Committing and recovering the manifest: [src/manifest.rs]

    The copies of a [ManifestLayout] on a [BlockDevice]: [commit_edit] writes the
    next copy block by block, [recover_from] probes every copy and decodes the
    newest intact one through a [BlockSource].  The specification is that a commit
    is atomic. *)

From stdpp Require Import base numbers list.
From Stdlib Require Import ZArith Lia.
From S2P Require Import Prelude Device Crc Manifest.

(** ** Layouts *)

(** [ring] is 0 for the two-copy pair. *)
Record ManifestLayout := mkLayout {
  lay_first : u64;
  lay_second : u64;
  lay_ring : nat;
}.

Definition layout_pair (a b : u64) : ManifestLayout := mkLayout a b 0.

Definition layout_ring (start : u64) (copies : nat) : ManifestLayout :=
  mkLayout start 0 (if (copies <? 2)%nat then 2 else copies).

Definition copies (l : ManifestLayout) : nat :=
  if (lay_ring l =? 0)%nat then 2 else lay_ring l.

Definition copy_start (l : ManifestLayout) (k : nat) (stride : u64) : u64 :=
  if (lay_ring l =? 0)%nat then
    if Nat.even k then lay_first l else lay_second l
  else (lay_first l + Z.of_nat (k mod lay_ring l) * stride)%Z.

(** ** Streaming a body from a copy's blocks *)

Inductive Probe := Intact (sq : u64) (count : nat) | Blank | Corrupt.

Record BlockSource (D : Type) := mkSource {
  bs_device : D;
  bs_scratch : bytes;
  bs_start : u64;
  bs_count : nat;
  bs_next : nat;
  bs_off : nat;
  bs_len : nat;
}.
Arguments mkSource {D}. Arguments bs_device {D}. Arguments bs_scratch {D}.
Arguments bs_start {D}. Arguments bs_count {D}. Arguments bs_next {D}.
Arguments bs_off {D}. Arguments bs_len {D}.

Section log.
  Context {D E : Type} `{Dev : !BlockDevice D E}.
  (** The const generics. *)
  Variables LEVELS TABLES KEY_MAX : nat.

(** [manifest::read_block] *)
Definition load (d : D) (id : u64) : result bytes (Error E) := map_err Device (read_block d id).

(** The [while done < dst.len()] loop with [want] bytes to go.  Every step copies
    a byte or loads one of the blocks left. *)
Fixpoint take_loop (fuel want : nat) (s : BlockSource D) (dst : bytes)
  : result (bytes * BlockSource D) (Error E) :=
  match fuel with
  | O => Err CorruptManifest
  | S fuel =>
      if (want =? 0)%nat then Ok (dst, s)
      else if (bs_off s =? bs_len s)%nat then
        if (bs_next s =? bs_count s)%nat then Err CorruptManifest
        else
          let id := (bs_start s + Z.of_nat (bs_next s))%Z in
          let? buf := load (bs_device s) id in
          match check_block BLOCK buf with
          | None => Err CorruptManifest
          | Some head =>
              if negb (bh_index head =? bs_next s)%nat then Err CorruptManifest
              else
                take_loop fuel want
                  (mkSource (bs_device s) buf (bs_start s) (bs_count s) (bs_next s + 1) 0
                     (bh_len head)) dst
          end
      else
        let n := (bs_len s - bs_off s) `min` want in
        let from := BLOCK_HEADER + bs_off s in
        take_loop fuel (want - n)
          (mkSource (bs_device s) (bs_scratch s) (bs_start s) (bs_count s) (bs_next s)
             (bs_off s + n) (bs_len s))
          (dst ++ sub from n (bs_scratch s))
  end.

#[export] Instance BlockSource_source : BodySource (BlockSource D) E := fun n s =>
  take_loop (n + (bs_count s - bs_next s) + 1) n s [].

(** ** Probing and recovery *)

(** The [for i in 1..head.count] loop, [n] blocks to go: false is corrupt. *)
Fixpoint probe_rest (n i : nat) (d : D) (start : u64) (head : BlockHead)
  : result bool (Error E) :=
  match n with
  | O => Ok true
  | S n =>
      let? buf := load d (start + Z.of_nat i) in
      match check_block BLOCK buf with
      | None => Ok false
      | Some h =>
          let last := (i + 1 =? bh_count head)%nat in
          if negb (bh_seq h =? bh_seq head)%Z || negb (bh_index h =? i)%nat ||
             negb (bh_count h =? bh_count head)%nat ||
             (negb last && negb (bh_len h =? chunk BLOCK)%nat)
          then Ok false
          else probe_rest n (i + 1) d start head
      end
  end.

Definition blank_block (buf : bytes) : bool :=
  forallb (fun b => (b =? 0)%Z) buf || forallb (fun b => (b =? 255)%Z) buf.

Definition probe_copy (d : D) (start stride : u64) : result Probe (Error E) :=
  let? buf := load d start in
  if blank_block buf then Ok Blank
  else
    match check_block BLOCK buf with
    | None => Ok Corrupt
    | Some head =>
        if negb (bh_index head =? 0)%nat || (bh_count head =? 0)%nat ||
           (stride <? Z.of_nat (bh_count head))%Z
        then Ok Corrupt
        else if (1 <? bh_count head)%nat && negb (bh_len head =? chunk BLOCK)%nat
        then Ok Corrupt
        else
          let? ok := probe_rest (bh_count head - 1) 1 d start head in
          Ok (if ok then Intact (bh_seq head) (bh_count head) else Corrupt)
    end.

(** The [for k in 0..copies] loop of [recover_from], [n] copies to go: the best
    copy so far and whether a blank one was seen. *)
Fixpoint scan_copies (n k : nat) (d : D) (lay : ManifestLayout) (stride : u64)
    (best : option (u64 * u64 * nat)) (blank : bool)
  : result (option (u64 * u64 * nat) * bool) (Error E) :=
  match n with
  | O => Ok (best, blank)
  | S n =>
      let start := copy_start lay k stride in
      let? p := probe_copy d start stride in
      match p with
      | Intact sq count =>
          let better := match best with None => true | Some (s, _, _) => (s <? sq)%Z end in
          scan_copies n (k + 1) d lay stride
            (if better then Some (sq, start, count) else best) blank
      | Blank => scan_copies n (k + 1) d lay stride best true
      | Corrupt => scan_copies n (k + 1) d lay stride best blank
      end
  end.

Definition stride : u64 := max_blocks LEVELS TABLES KEY_MAX BLOCK.

(** Decoding the chosen copy. *)
Definition decode_copy (d : D) (sq start : u64) (count : nat)
  : result Manifest (Error E) :=
  let? (out, src) :=
    decode_body LEVELS TABLES KEY_MAX
      (mkSource d (replicate BLOCK 0%Z) start count 0 0 0) in
  if negb (bs_next src =? count)%nat || negb (bs_off src =? bs_len src)%nat
  then Err CorruptManifest
  else Ok (set_seq out sq).

Definition recover_from (d : D) (lay : ManifestLayout) : result (Manifest * bool) (Error E) :=
  let? (best, blank) := scan_copies (copies lay) 0 d lay stride None false in
  match best with
  | None => if blank then Ok (new LEVELS TABLES KEY_MAX, true) else Err CorruptManifest
  | Some (sq, start, count) =>
      let? out := decode_copy d sq start count in Ok (out, false)
  end.

Definition recover (d : D) (a b : u64) := recover_from d (layout_pair a b).

(** ** Commit *)

(** The [for i in 0..blocks] loop, [n] blocks to go. *)
Fixpoint write_copy (n i : nat) (m : Manifest) (e : ManifestEdit) (sq start : u64) (d : D)
  : D * result unit (Error E) :=
  match n with
  | O => (d, Ok tt)
  | S n =>
      match encode_view_block LEVELS BLOCK m e sq i with
      | Err err => (d, Err err)
      | Ok buf =>
          match write_block d (start + Z.of_nat i) buf with
          | (d', Err err) => (d', Err (Device err))
          | (d', Ok _) => write_copy n (i + 1) m e sq start d'
          end
      end
  end.

Definition commit_edit (m : Manifest) (e : ManifestEdit) (d : D) (lay : ManifestLayout)
  : Manifest * D * result unit (Error E) :=
  match check_edit (E := E) LEVELS TABLES m e with
  | Err err => (m, d, Err err)
  | Ok _ =>
      match u64_checked_add (m_seq m) 1 with
      | None => (m, d, Err CounterExhausted)
      | Some sq =>
          let k := Z.to_nat (sq mod Z.of_nat (copies lay)) in
          let start := copy_start lay k stride in
          let blocks := blocks_for BLOCK (view_body_len LEVELS m e) in
          match write_copy blocks 0 m e sq start d with
          | (d', Err err) => (m, d', Err err)
          | (d', Ok _) =>
              match dev_flush d' with
              | (d'', Err err) => (m, d'', Err (Device err))
              | (d'', Ok _) =>
                  (set_seq (apply_checked LEVELS TABLES KEY_MAX m e) sq, d'', Ok tt)
              end
          end
      end
  end.

Definition commit_to (m : Manifest) (d : D) (lay : ManifestLayout) :=
  commit_edit m (EMPTY_EDIT KEY_MAX) d lay.

Definition commit (m : Manifest) (d : D) (a b : u64) := commit_to m d (layout_pair a b).
End log.
