(* ===== verification/ManifestCrash.v ===== *)
(** * A manifest commit is atomic

    The copies of the manifest on the device, what recovery makes of them, and the
    crash argument: whatever write of a commit fails, recovery finds the manifest
    before the commit or the one it was writing. *)

From stdpp Require Import base numbers list sorting gmap.
From Stdlib Require Import ZArith Lia.
From S2P Require Import Prelude Device Crc Manifest ManifestPool ManifestEdit ManifestCodec ManifestLog.

(** ** Cutting a body into parts *)

Section parts.
  Variable BLOCK : nat.
  Abbreviation chunk := (chunk BLOCK).

Lemma chunk_pos : 28 < BLOCK -> 0 < chunk.
Proof. unfold Manifest.chunk, BLOCK_HEADER, BLOCK_CRC. lia. Qed.

Lemma blocks_for_spec len :
  28 < BLOCK ->
  let n := blocks_for BLOCK len in
  0 < n /\ len <= n * chunk /\ (n = 1 \/ (n - 1) * chunk < len).
Proof.
  intros HB n. unfold n, blocks_for, div_ceil. pose proof (chunk_pos HB).
  pose proof (Nat.div_mod_eq len chunk). pose proof (Nat.mod_upper_bound len chunk).
  destruct (_ mod _ =? 0)%nat eqn:E3; bool_lia; destruct (_ =? 0)%nat eqn:E4; bool_lia; nia.
Qed.

(** Every part but the last is full; together they end where the body ends. *)
Lemma part_end body i :
  28 < BLOCK -> i < blocks_for BLOCK (length body) ->
  i * chunk + length (part_of BLOCK body i) =
  if (i + 1 =? blocks_for BLOCK (length body))%nat then length body else (i + 1) * chunk.
Proof.
  intros HB Hi. rewrite length_part. destruct (blocks_for_spec (length body) HB) as (H1 & H2 & H3).
  destruct (_ =? _)%nat eqn:E; bool_lia; nia.
Qed.

Lemma part_full body i :
  28 < BLOCK -> i + 1 < blocks_for BLOCK (length body) -> length (part_of BLOCK body i) = chunk.
Proof.
  intros HB Hi. pose proof (part_end body i HB ltac:(lia)) as H.
  rewrite (proj2 (Nat.eqb_neq _ _)) in H by lia. lia.
Qed.

Lemma blocks_for_mono a b : 28 < BLOCK -> a <= b -> blocks_for BLOCK a <= blocks_for BLOCK b.
Proof.
  intros HB Hab. destruct (blocks_for_spec a HB) as (A1 & A2 & A3).
  destruct (blocks_for_spec b HB) as (B1 & B2 & B3). pose proof (chunk_pos HB).
  destruct A3; [lia |]. nia.
Qed.
End parts.

Section bodies.
  Variables LEVELS TABLES KEY_MAX : nat.

Lemma refs_len_le l :
  Forall (ref_ok KEY_MAX) l -> refs_len l <= length l * (56 + 2 * KEY_MAX).
Proof.
  unfold refs_len. induction 1 as [|t l Ht Hl IH]; [cbn; lia |].
  assert (ref_len t <= 56 + 2 * KEY_MAX) as H.
  { unfold ref_len. pose proof (bo_max _ _ (ro_first _ _ Ht)). pose proof (bo_max _ _ (ro_last _ _ Ht)). lia. }
  cbn [length]. change (sum_list (ref_len <$> t :: l)) with (ref_len t + sum_list (ref_len <$> l)).
  nia.
Qed.

Lemma sum_refs_len ls : sum_list (refs_len <$> ls) = refs_len (concat ls).
Proof.
  induction ls as [|l ls IH]; [done |]. unfold refs_len in *. cbn [concat].
  rewrite fmap_app, sum_list_with_app, <- IH. done.
Qed.

Lemma man_body_max m T :
  man_ok LEVELS TABLES KEY_MAX m T -> length (man_body LEVELS m T) <= MAX_BODY LEVELS TABLES KEY_MAX.
Proof.
  intros H. unfold man_body. rewrite (length_body_bytes KEY_MAX) by by apply levels_ok, H.
  rewrite length_fmap, length_seq, sum_refs_len.
  rewrite (concat_all_levels _ _ _ _ _ (mo_repr _ _ _ _ _ H)).
  pose proof (refs_len_le _ (mo_refs _ _ _ _ _ H)) as Hr. rewrite length_fmap in Hr.
  pose proof (pr_len _ _ _ _ _ (mo_repr _ _ _ _ _ H)). unfold MAX_BODY. nia.
Qed.

Lemma man_body_pos m T : 32 <= length (man_body LEVELS m T).
Proof. unfold man_body, body_bytes. rewrite !length_app, !length_to_le. lia. Qed.
End bodies.

(** ** Reading a copy *)

Section copies.
  Context {D E : Type} `{Dev : !BlockDevice D E}.
  Abbreviation chunk := (chunk BLOCK).

(** The blocks of an intact copy of a body. *)
Definition copy_blocks (body : bytes) : nat := blocks_for BLOCK (length body).

Definition copy_block (sq : u64) (body : bytes) (i : nat) : bytes :=
  frame BLOCK sq i (copy_blocks body) (part_of BLOCK body i).

Definition copy_at (d : D) (start : u64) (sq : u64) (body : bytes) : Prop :=
  forall i, i < copy_blocks body -> read_block d (start + Z.of_nat i) = Ok (copy_block sq body i).

(** What the format can frame. *)
Record framable (sq : u64) (body : bytes) : Prop := {
  fr_block : 28 < BLOCK;
  fr_u32 : (Z.of_nat BLOCK <= U32_MAX)%Z;
  fr_seq : fits 64 sq;
  fr_bytes : bytes_ok body;
  fr_count : (Z.of_nat (copy_blocks body) <= U16_MAX)%Z;
}.

Lemma check_copy_block sq body i :
  framable sq body -> i < copy_blocks body ->
  check_block BLOCK (copy_block sq body i) =
  Some (mkHead sq i (copy_blocks body) (length (part_of BLOCK body i))).
Proof. intros [] Hi. by apply check_part. Qed.

(** How far a source has read into a body. *)
Record reading (s : BlockSource D) (body rest : bytes) : Prop := {
  rd_copy : exists sq, framable sq body /\ copy_at (bs_device s) (bs_start s) sq body /\
    (0 < bs_next s -> bs_scratch s = copy_block sq body (bs_next s - 1));
  rd_count : bs_count s = copy_blocks body;
  rd_next : bs_next s <= bs_count s;
  rd_off : bs_off s <= bs_len s;
  rd_len : bs_len s = if (bs_next s =? 0)%nat then 0 else length (part_of BLOCK body (bs_next s - 1));
  rd_rest : rest = drop ((bs_next s - 1) * chunk + bs_off s) body;
}.

(** The next block continues exactly where the loaded one ends. *)
Lemma reading_load s body rest buf head :
  reading s body rest -> bs_off s = bs_len s -> bs_next s < bs_count s ->
  load (bs_device s) (bs_start s + Z.of_nat (bs_next s)) = Ok buf ->
  check_block BLOCK buf = Some head ->
  bh_index head = bs_next s /\
  reading (mkSource (bs_device s) buf (bs_start s) (bs_count s) (bs_next s + 1) 0 (bh_len head))
    body rest.
Proof.
  intros [(sq & Hf & Hc & Hs) H2 H3 H4 H5 H6] Ho Hn Hl Hk.
  assert (buf = copy_block sq body (bs_next s)) as ->.
  { unfold load in Hl. rewrite (Hc (bs_next s)) in Hl by lia. by injection Hl as <-. }
  rewrite (check_copy_block sq body _ Hf) in Hk by lia. injection Hk as <-.
  split; [done |]. split; cbn [bs_device bs_scratch bs_start bs_count bs_next bs_off bs_len bh_len]; try lia.
  - exists sq. split_and!; [done | done |]. intros _. by rewrite Nat.add_sub.
  - rewrite (proj2 (Nat.eqb_neq _ _)), Nat.add_sub by lia. done.
  - rewrite H6. f_equal. rewrite Nat.add_sub, Nat.add_0_r, Ho, H5.
    destruct (bs_next s =? 0)%nat eqn:E0; bool_lia.
    rewrite part_full; [| apply Hf | unfold copy_blocks in *; lia]. nia.
Qed.

Lemma reading_copy s body rest n :
  reading s body rest -> n <= bs_len s - bs_off s ->
  sub (BLOCK_HEADER + bs_off s) n (bs_scratch s) = take n rest /\
  reading (mkSource (bs_device s) (bs_scratch s) (bs_start s) (bs_count s) (bs_next s)
    (bs_off s + n) (bs_len s)) body (drop n rest).
Proof.
  intros [(sq & Hf & Hc & Hs) H2 H3 H4 H5 H6] Hn. split.
  - destruct n as [|n]; [done |]. assert (0 < bs_next s) as Hpos.
    { destruct (bs_next s =? 0)%nat eqn:E0; bool_lia. }
    rewrite (proj2 (Nat.eqb_neq _ _)) in H5 by lia. set (i := bs_next s - 1) in *.
    rewrite (Hs Hpos). unfold copy_block, frame. rewrite <- app_assoc, (sub_skip (bs_off s)) by done.
    rewrite sub_app_l by lia. rewrite H6. unfold part_of, sub.
    rewrite length_part in H5.
    rewrite take_drop_commute, take_take, Nat.min_l by lia.
    by rewrite <- take_drop_commute, drop_drop.
  - split; cbn [bs_device bs_scratch bs_start bs_count bs_next bs_off bs_len]; try done; try lia.
    + by exists sq.
    + rewrite H6, drop_drop. f_equal. lia.
Qed.

Lemma reading_end s body rest :
  reading s body rest -> bs_off s = bs_len s -> bs_next s = bs_count s -> rest = [].
Proof.
  intros [(sq & Hf & _) H2 H3 H4 H5 ->] Ho Hn.
  pose proof (blocks_for_spec BLOCK (length body) (fr_block _ _ Hf)) as (H1 & _).
  rewrite (proj2 (Nat.eqb_neq _ _)) in H5 by (unfold copy_blocks in *; lia).
  apply drop_ge. rewrite Ho, H5.
  rewrite part_end by (first [apply Hf | unfold copy_blocks in *; lia]).
  rewrite (proj2 (Nat.eqb_eq _ _)) by (unfold copy_blocks in *; lia). done.
Qed.

Lemma take_loop_reading fuel want s dst body rest :
  reading s body rest -> want <= length rest -> want + (bs_count s - bs_next s) < fuel ->
  exists s', take_loop fuel want s dst = Ok (dst ++ take want rest, s') /\
    reading s' body (drop want rest).
Proof.
  revert want s dst rest. induction fuel as [|fuel IH]; intros want s dst rest Hr Hw Hf; [lia |].
  cbn [take_loop]. destruct (want =? 0)%nat eqn:E0; bool_lia.
  { subst want. exists s. by rewrite take_0, drop_0, app_nil_r. }
  destruct (bs_off s =? bs_len s)%nat eqn:E1; bool_lia.
  - destruct (bs_next s =? bs_count s)%nat eqn:E2; bool_lia.
    { rewrite (reading_end s body rest Hr E1 E2) in Hw. cbn in Hw. lia. }
    pose proof (rd_next _ _ _ Hr). destruct (rd_copy _ _ _ Hr) as (sq & Hfr & Hc & _).
    pose proof (rd_count _ _ _ Hr) as Hcnt.
    assert (load (bs_device s) (bs_start s + Z.of_nat (bs_next s)) =
      Ok (copy_block sq body (bs_next s))) as El.
    { unfold load. rewrite (Hc (bs_next s)) by lia. done. }
    rewrite El. pose proof (check_copy_block sq body (bs_next s) Hfr ltac:(lia)) as Ek.
    rewrite Ek. destruct (reading_load s body rest _ _ Hr E1 ltac:(lia) El Ek) as [Hi Hr'].
    rewrite Hi, Nat.eqb_refl. cbn [negb]. apply IH; [done | done |]. cbn. lia.
  - pose proof (rd_off _ _ _ Hr).
    set (n := (bs_len s - bs_off s) `min` want).
    destruct (reading_copy s body rest n Hr ltac:(lia)) as [-> Hr'].
    destruct (IH (want - n) _ (dst ++ take n rest) (drop n rest) Hr') as (s' & -> & Hs').
    { rewrite length_drop. lia. }
    { cbn. lia. }
    exists s'. rewrite drop_drop in Hs'. replace (n + (want - n)) with want in Hs' by lia.
    split; [| done]. do 2 f_equal. rewrite <- app_assoc. f_equal.
    rewrite take_take_drop. f_equal. lia.
Qed.

(** A source over a copy of [body] delivers it. *)
Lemma take_reading body s rest n :
  reading s body rest -> n <= length rest ->
  exists s', take_bytes n s = Ok (take n rest, s') /\ reading s' body (drop n rest).
Proof.
  intros Hr Hn. unfold take_bytes, BlockSource_source.
  apply (take_loop_reading (n + (bs_count s - bs_next s) + 1) n s [] body rest Hr Hn). lia.
Qed.

Definition BlockSource_laws (body : bytes) : BodySourceLaws (BlockSource D) E := {|
  yields s rest := reading s body rest;
  take_yields s rest n := take_reading body s rest n;
|}.

(** A source that has delivered everything has loaded every block and used up the
    last. *)
Lemma reading_done body s :
  reading s body [] -> 0 < length body -> bs_next s = bs_count s /\ bs_off s = bs_len s.
Proof.
  intros [(sq & Hf & _) H2 H3 H4 H5 H6] Hb. apply (f_equal length) in H6.
  rewrite length_drop in H6. cbn in H6. pose proof (fr_block _ _ Hf) as HB.
  destruct (blocks_for_spec BLOCK (length body) HB) as (N1 & N2 & N3).
  fold (copy_blocks body) in N1, N2, N3. pose proof (chunk_pos BLOCK HB).
  destruct (bs_next s =? 0)%nat eqn:E0; bool_lia.
  pose proof (part_end BLOCK body (bs_next s - 1) HB) as Hp. fold (copy_blocks body) in Hp.
  specialize (Hp ltac:(lia)). replace (bs_next s - 1 + 1) with (bs_next s) in Hp by lia.
  destruct (bs_next s =? copy_blocks body)%nat eqn:E1; bool_lia. exfalso.
  destruct N3 as [N3 | N3]; [lia |]. assert (bs_next s <= copy_blocks body - 1) by lia. nia.
Qed.
End copies.

(** ** Probing and choosing *)

Section probing.
  Context {D E : Type} `{Dev : !BlockDevice D E}.

Lemma copy_block_not_blank sq body i : blank_block (copy_block sq body i) = false.
Proof. reflexivity. Qed.

(** A copy whose blocks are those of a new copy, or carry a sequence number below
    [lo], or fail the check. *)
Definition mixed (d : D) (start stride : u64) (lo sq : u64) (body : bytes) : Prop :=
  forall i, (Z.of_nat i < stride)%Z -> exists b, read_block d (start + Z.of_nat i) = Ok b /\
    ((i < copy_blocks body /\ b = copy_block sq body i) \/
     forall h, check_block BLOCK b = Some h -> (0 <= bh_seq h < lo)%Z).

Definition older (d : D) (start stride : u64) (lo : u64) : Prop :=
  forall i, (Z.of_nat i < stride)%Z -> exists b, read_block d (start + Z.of_nat i) = Ok b /\
    forall h, check_block BLOCK b = Some h -> (0 <= bh_seq h < lo)%Z.

Lemma probe_rest_spec n i (d : D) start stride lo sq body head :
  framable sq body -> (lo <= sq)%Z -> (Z.of_nat (i + n) <= stride)%Z ->
  mixed d start stride lo sq body ->
  bh_seq head = sq -> bh_count head = copy_blocks body -> i + n = copy_blocks body -> 0 < i ->
  exists ok, probe_rest n i d start head = Ok ok /\
    (ok = true -> forall j, i <= j -> j < i + n ->
      read_block d (start + Z.of_nat j) = Ok (copy_block sq body j)).
Proof.
  intros Hf Hlo Hst Hm Hs Hc. revert i Hst. induction n as [|n IH]; intros i Hst Hn Hi.
  { exists true. split; [done |]. intros _ j. lia. }
  cbn [probe_rest]. unfold load. destruct (Hm i) as (b & Hr & Hb); [lia |]. rewrite Hr. cbn [map_err].
  destruct Hb as [[Hib ->] | Hb].
  - rewrite (check_copy_block sq body i Hf Hib), Hs, Hc.
    cbn [bh_seq bh_index bh_count bh_len]. rewrite Z.eqb_refl, !Nat.eqb_refl. cbn [negb orb].
    assert (negb (i + 1 =? copy_blocks body)%nat &&
      negb (length (part_of BLOCK body i) =? chunk BLOCK)%nat = false) as ->.
    { destruct (i + 1 =? copy_blocks body)%nat eqn:El; [done |]. bool_lia. cbn [negb andb].
      rewrite part_full by (first [apply Hf | unfold copy_blocks in *; lia]). by rewrite Nat.eqb_refl. }
    destruct (IH (i + 1)) as (ok & -> & Hok); [lia | lia | lia |]. exists ok. split; [done |].
    intros Ht j Hj Hj'. destruct (decide (j = i)) as [-> |]; [done |]. apply Hok; [done | lia | lia].
  - destruct (check_block BLOCK b) as [h |] eqn:Eh; [| by exists false].
    specialize (Hb h eq_refl). rewrite (proj2 (Z.eqb_neq (bh_seq h) _)) by lia. cbn [negb orb].
    by exists false.
Qed.

Lemma probe_rest_total n i (d : D) start stride head :
  (forall i, (Z.of_nat i < stride)%Z -> exists b, read_block d (start + Z.of_nat i) = Ok b) ->
  n = 0 \/ (Z.of_nat (i + n) <= stride)%Z -> exists ok, probe_rest n i d start head = Ok ok.
Proof.
  intros Hr. revert i. induction n as [|n IH]; intros i Hst; [eexists; reflexivity |].
  cbn [probe_rest]. unfold load. destruct (Hr i) as (b & ->); [lia |]. cbn [map_err].
  destruct (check_block BLOCK b); [| eauto]. destruct (_ || _); [eauto |]. apply IH. lia.
Qed.

Lemma probe_readable (d : D) start stride b h :
  (forall i, (Z.of_nat i < stride)%Z -> exists b, read_block d (start + Z.of_nat i) = Ok b) ->
  read_block d start = Ok b -> check_block BLOCK b = Some h ->
  exists p, probe_copy d start stride = Ok p /\ forall s c, p = Intact s c -> s = bh_seq h.
Proof.
  intros Hr Hb Hh. unfold probe_copy, load. rewrite Hb. cbn [map_err].
  destruct (blank_block b); [eexists; split; [done |]; congruence |]. rewrite Hh.
  destruct (_ || _) eqn:E1; [eexists; split; [done |]; congruence |].
  destruct (_ && _) eqn:E2; [eexists; split; [done |]; congruence |].
  apply orb_false_iff in E1 as [_ E1]. bool_lia.
  destruct (probe_rest_total (bh_count h - 1) 1 d start stride h) as (ok & ->); [done | lia |].
  eexists. split; [done |]. intros s c Hp. destruct ok; [| discriminate]. by injection Hp as <- <-.
Qed.

Lemma probe_unchecked (d : D) start stride b :
  read_block d start = Ok b -> check_block BLOCK b = None ->
  exists p, probe_copy d start stride = Ok p /\ forall s c, p <> Intact s c.
Proof.
  intros Hb Hh. unfold probe_copy, load. rewrite Hb. cbn [map_err]. rewrite Hh.
  destruct (blank_block b); eexists; (split; [done | congruence]).
Qed.

Lemma probe_older (d : D) start stride lo :
  (0 < stride)%Z -> older d start stride lo ->
  exists p, probe_copy d start stride = Ok p /\ forall s c, p = Intact s c -> (0 <= s < lo)%Z.
Proof.
  intros Hst Ho. destruct (Ho 0) as (b & Hb & Hh); [lia |]. rewrite Z.add_0_r in Hb.
  destruct (check_block BLOCK b) as [h |] eqn:Eh.
  - destruct (probe_readable d start stride b h) as (p & Hp & Hs); [| done | done |].
    { intros i Hi. destruct (Ho i Hi) as (b' & ? & _). eauto. }
    exists p. split; [done |]. intros s c Hc. rewrite (Hs s c Hc). by apply Hh.
  - destruct (probe_unchecked d start stride b Hb Eh) as (p & Hp & Hs).
    exists p. split; [done |]. intros s c Hc. by destruct (Hs s c).
Qed.

(** A mixed copy is intact with the new sequence number only if it is whole. *)
Lemma probe_mixed (d : D) start stride lo sq body :
  framable sq body -> (Z.of_nat (copy_blocks body) <= stride)%Z -> (lo <= sq)%Z ->
  mixed d start stride lo sq body ->
  exists p, probe_copy d start stride = Ok p /\
    ((forall s c, p = Intact s c -> (0 <= s < lo)%Z) \/ copy_at d start sq body).
Proof.
  intros Hf Hst Hlo Hm. pose proof (blocks_for_spec BLOCK (length body) (fr_block _ _ Hf)) as (Hpos & _).
  fold (copy_blocks body) in Hpos.
  assert (forall i, (Z.of_nat i < stride)%Z -> exists b, read_block d (start + Z.of_nat i) = Ok b) as Hr.
  { intros i Hi. destruct (Hm i Hi) as (b' & ? & _). eauto. }
  destruct (Hm 0) as (b & Hb & Hc); [lia |]. rewrite Z.add_0_r in Hb. destruct Hc as [[_ ->] | Hc].
  - pose proof (check_copy_block sq body 0 Hf Hpos) as Hk. unfold probe_copy, load.
    rewrite Hb. cbn [map_err]. rewrite copy_block_not_blank, Hk.
    destruct (_ || _) eqn:E1; [eexists; split; [done |]; left; congruence |].
    destruct (_ && _) eqn:E2; [eexists; split; [done |]; left; congruence |].
    cbn [bh_count bh_seq] in *.
    destruct (probe_rest_spec (copy_blocks body - 1) 1 d start stride lo sq body
      (mkHead sq 0 (copy_blocks body) (length (part_of BLOCK body 0)))) as (ok & -> & Hok);
      [exact Hf | exact Hlo | lia | exact Hm | reflexivity | reflexivity | lia | lia |].
    eexists. split; [done |]. destruct ok; [right | left; congruence].
    intros i Hi. destruct (decide (i = 0)) as [-> |]; [by rewrite Z.add_0_r |].
    apply Hok; [done | lia | lia].
  - destruct (check_block BLOCK b) as [h |] eqn:Eh.
    + destruct (probe_readable d start stride b h Hr Hb Eh) as (p & Hp & Hs).
      exists p. split; [done |]. left. intros s c Hi. rewrite (Hs s c Hi). by apply Hc.
    + destruct (probe_unchecked d start stride b Hb Eh) as (p & Hp & Hs).
      exists p. split; [done |]. left. intros s c Hi. by destruct (Hs s c).
Qed.

Lemma probe_rest_whole n i (d : D) start sq body len :
  framable sq body -> copy_at d start sq body -> i + n = copy_blocks body ->
  probe_rest n i d start (mkHead sq 0 (copy_blocks body) len) = Ok true.
Proof.
  intros Hf Hc. revert i. induction n as [|n IH]; intros i Hn; [done |].
  cbn [probe_rest]. unfold load. rewrite (Hc i) by lia. cbn [map_err].
  rewrite (check_copy_block sq body i Hf) by lia.
  cbn [bh_seq bh_index bh_count bh_len]. rewrite Z.eqb_refl, !Nat.eqb_refl. cbn [negb orb].
  destruct (i + 1 =? copy_blocks body)%nat eqn:El; cbn [negb andb]; [apply IH; lia |]. bool_lia.
  rewrite part_full by (first [apply Hf | unfold copy_blocks in *; lia]).
  rewrite Nat.eqb_refl. apply IH. lia.
Qed.

Lemma probe_whole (d : D) start stride sq body :
  framable sq body -> (Z.of_nat (copy_blocks body) <= stride)%Z -> copy_at d start sq body ->
  probe_copy d start stride = Ok (Intact sq (copy_blocks body)).
Proof.
  intros Hf Hst Hc. pose proof (blocks_for_spec BLOCK (length body) (fr_block _ _ Hf)) as (Hpos & _).
  fold (copy_blocks body) in Hpos. unfold probe_copy, load.
  pose proof (Hc 0 Hpos) as H0. rewrite Z.add_0_r in H0. rewrite H0. cbn [map_err].
  rewrite copy_block_not_blank, (check_copy_block sq body 0 Hf Hpos).
  cbn [bh_index bh_count bh_seq bh_len Nat.eqb negb orb].
  rewrite (proj2 (Nat.eqb_neq _ _)), (proj2 (Z.ltb_ge _ _)) by lia. cbn [orb].
  assert ((1 <? copy_blocks body)%nat && negb (length (part_of BLOCK body 0) =? chunk BLOCK)%nat
    = false) as ->.
  { destruct (1 <? copy_blocks body)%nat eqn:E1; [| done]. bool_lia. cbn [andb].
    rewrite part_full by (first [apply Hf | unfold copy_blocks in *; lia]). by rewrite Nat.eqb_refl. }
  rewrite (probe_rest_whole _ 1 d start sq body) by (done || lia). done.
Qed.

(** Scanning finds the copy that is newer than every other intact one. *)
Lemma scan_newest (d : D) lay stride k0 sq c : forall n k best blank,
  (forall j, k <= j -> j < k + n -> exists p, probe_copy d (copy_start lay j stride) stride = Ok p /\
     if decide (j = k0) then p = Intact sq c
     else forall s' c', p = Intact s' c' -> (s' < sq)%Z) ->
  (k0 < k /\ best = Some (sq, copy_start lay k0 stride, c)) \/
  (k <= k0 < k + n /\ forall s b c', best = Some (s, b, c') -> (s < sq)%Z) ->
  exists blank', scan_copies n k d lay stride best blank =
    Ok (Some (sq, copy_start lay k0 stride, c), blank').
Proof.
  induction n as [|n IH]; intros k best blank Hp Hb.
  { destruct Hb as [[_ ->] | [Hk _]]; [| lia]. eexists. reflexivity. }
  cbn [scan_copies]. destruct (Hp k) as (p & -> & Hk); [lia | lia |].
  assert (forall j, k + 1 <= j -> j < k + 1 + n ->
    exists p, probe_copy d (copy_start lay j stride) stride = Ok p /\
     if decide (j = k0) then p = Intact sq c
     else forall s' c', p = Intact s' c' -> (s' < sq)%Z) as Hp' by (intros; apply Hp; lia).
  destruct (decide (k = k0)) as [-> | Hne].
  - subst p. destruct Hb as [[? _] | [_ Hb]]; [lia |]. apply IH; [done |]. left. split; [lia |].
    destruct best as [[[s b] c'] |]; [| done].
    by rewrite (proj2 (Z.ltb_lt _ _)) by by eapply Hb.
  - assert (forall best',
      (k0 < k /\ best' = Some (sq, copy_start lay k0 stride, c)) \/
      (k <= k0 < k + S n /\ forall s b c', best' = Some (s, b, c') -> (s < sq)%Z) ->
      (k0 < k + 1 /\ best' = Some (sq, copy_start lay k0 stride, c)) \/
      (k + 1 <= k0 < k + 1 + n /\ forall s b c', best' = Some (s, b, c') -> (s < sq)%Z)) as Hstep.
    { intros best' [[? ->] | [? ?]]; [left; split; [lia | done] | right; split; [lia | done]]. }
    destruct p as [s' c' | |]; apply IH; try done; apply Hstep; try done.
    specialize (Hk s' c' eq_refl). destruct Hb as [[Hk0 ->] | [Hk0 Hb]].
    + left. split; [done |]. by rewrite (proj2 (Z.ltb_ge _ _)) by lia.
    + right. split; [done |]. intros s b c1 Hb1.
      destruct best as [[[s0 b0] c0] |].
      * destruct (s0 <? s')%Z; injection Hb1 as <- <- <-; [done | by eapply Hb].
      * by injection Hb1 as <- <- <-.
Qed.

(** With no intact copy a blank one means a fresh device. *)
Lemma scan_blank (d : D) lay stride : forall n k blank,
  (forall j, k <= j -> j < k + n -> exists p, probe_copy d (copy_start lay j stride) stride = Ok p /\
     forall s c, p <> Intact s c) ->
  blank = true \/ (exists j, k <= j /\ j < k + n /\
    probe_copy d (copy_start lay j stride) stride = Ok Blank) ->
  scan_copies n k d lay stride None blank = Ok (None, true).
Proof.
  induction n as [|n IH]; intros k blank Hp Hb.
  { destruct Hb as [-> | (j & ? & ? & _)]; [done | lia]. }
  cbn [scan_copies]. destruct (Hp k) as (p & Ep & Hk); [lia | lia |]. rewrite Ep.
  destruct p as [s c | |]; [by destruct (Hk s c) | |].
  - apply IH; [intros; apply Hp; lia | by left].
  - apply IH; [intros; apply Hp; lia |]. destruct Hb as [-> | (j & Hj & Hj' & Ej)]; [by left |].
    right. exists j. split_and!; [| lia | done].
    destruct (decide (j = k)) as [-> |]; [| lia]. rewrite Ep in Ej. done.
Qed.
End probing.

(** ** Commit *)

(** What the format relies on when a write fails: the block is the old one, the
    new one, or one whose checksum does not match. *)
Class TornWrites (D E : Type) `{BlockDevice D E} :=
  torn_write d d' id b e :
    write_block d id b = (d', Err e) ->
    exists b', read_block d' id = Ok b' /\
      (b' = b \/ read_block d id = Ok b' \/ check_block BLOCK b' = None).

(** The copy a sequence number is written to. *)
Definition slot (lay : ManifestLayout) (sq : u64) : nat := Z.to_nat (sq mod Z.of_nat (copies lay)).

Section commits.
  Context {D E : Type} `{Dev : !BlockDevice D E, Laws : !DeviceLaws D E, Torn : !TornWrites D E}.
  Variables LEVELS TABLES KEY_MAX : nat.
  Variable lay : ManifestLayout.

  Abbreviation stride := (stride (D := D) (E := E) LEVELS TABLES KEY_MAX).
  Abbreviation start_of k := (copy_start lay k stride).

Record log_shape : Prop := {
  ls_shape : shape_ok LEVELS TABLES;
  ls_block : 28 < BLOCK;
  ls_u32 : (Z.of_nat BLOCK <= U32_MAX)%Z;
  ls_stride : (stride <= U16_MAX)%Z;
  ls_copies : 2 <= copies lay;
  ls_disjoint : forall j k, j < copies lay -> k < copies lay -> j <> k ->
    (start_of j + stride <= start_of k \/ start_of k + stride <= start_of j)%Z;
}.

(** The device holds [md] as its newest manifest ([fresh]: none yet, and [md] is
    the empty one); every block of every copy is readable, and none of a later
    commit is left. *)
Record on_disk (d : D) (md : Manifest) (Td : list (nat * TableRef)) (fresh : bool) : Prop := {
  od_ok : man_ok LEVELS TABLES KEY_MAX md Td;
  od_blocks : forall k i, k < copies lay -> (Z.of_nat i < stride)%Z ->
    exists b, read_block d (start_of k + Z.of_nat i) = Ok b /\
    forall h, check_block BLOCK b = Some h ->
      (0 <= bh_seq h <= m_seq md)%Z /\
      ((fresh = false /\ k = slot lay (m_seq md)) \/ (bh_seq h < m_seq md)%Z);
  od_current :
    if fresh then
      md = new LEVELS TABLES KEY_MAX /\
      forall k, k < copies lay -> exists b, read_block d (start_of k) = Ok b /\ blank_block b = true
    else copy_at d (start_of (slot lay (m_seq md))) (m_seq md) (man_body LEVELS md Td);
}.

Lemma max_blocks_pos : log_shape -> (0 < stride)%Z.
Proof.
  intros []. unfold ManifestLog.stride, max_blocks.
  pose proof (blocks_for_spec BLOCK (MAX_BODY LEVELS TABLES KEY_MAX) ls_block0) as (H & _ & _).
  unfold blocks_for in H. pose proof (chunk_pos BLOCK ls_block0).
  assert (div_ceil (MAX_BODY LEVELS TABLES KEY_MAX) (chunk BLOCK) <> 0); [| lia].
  unfold div_ceil. pose proof (Nat.div_mod_eq (MAX_BODY LEVELS TABLES KEY_MAX) (chunk BLOCK)).
  assert (0 < MAX_BODY LEVELS TABLES KEY_MAX) by (unfold MAX_BODY; lia).
  destruct (_ mod _ =? 0)%nat eqn:E1; bool_lia.
Qed.

Lemma man_framable m T sq :
  log_shape -> man_ok LEVELS TABLES KEY_MAX m T -> fits 64 sq ->
  framable (D := D) (E := E) sq (man_body LEVELS m T) /\
  (Z.of_nat (copy_blocks (D := D) (E := E) (man_body LEVELS m T)) <= stride)%Z.
Proof.
  intros Hs Hm Hq. pose proof (max_blocks_pos Hs) as Hp. destruct Hs.
  assert ((Z.of_nat (copy_blocks (D := D) (E := E) (man_body LEVELS m T)) <= stride)%Z) as Hc.
  { unfold copy_blocks.
    pose proof (blocks_for_mono BLOCK _ _ ls_block0 (man_body_max _ _ _ _ _ Hm)) as H.
    unfold ManifestLog.stride, max_blocks in *. unfold blocks_for at 2 in H.
    destruct (_ =? 0)%nat eqn:E0; bool_lia. }
  split; [| done]. split; try done; [by eapply man_body_ok | lia].
Qed.

Lemma slot_lt sq : log_shape -> slot lay sq < copies lay.
Proof.
  intros []. unfold slot. pose proof (Z.mod_pos_bound sq (Z.of_nat (copies lay))). lia.
Qed.

Lemma slot_next sq : log_shape -> slot lay (sq + 1) <> slot lay sq.
Proof.
  intros []. unfold slot. set (n := Z.of_nat (copies lay)).
  pose proof (Z.mod_pos_bound sq n) as B1. pose proof (Z.mod_pos_bound (sq + 1) n) as B2.
  intros H%Z2Nat.inj; [| lia | lia].
  assert (((sq + 1) - sq) mod n = 0)%Z as H'.
  { rewrite Zminus_mod, H, Z.sub_diag. apply Z.mod_0_l. lia. }
  replace (sq + 1 - sq)%Z with 1%Z in H' by lia. rewrite Z.mod_small in H'; lia.
Qed.

Lemma decode_whole d start m T :
  log_shape -> man_ok LEVELS TABLES KEY_MAX m T ->
  copy_at d start (m_seq m) (man_body LEVELS m T) ->
  decode_copy LEVELS TABLES KEY_MAX d (m_seq m) start (copy_blocks (D := D) (E := E) (man_body LEVELS m T))
    = Ok m.
Proof.
  intros Hs Hm Hc. destruct (man_framable m T (m_seq m) Hs Hm (mo_seq _ _ _ _ _ Hm)) as [Hf _].
  set (body := man_body LEVELS m T) in *. unfold decode_copy.
  set (count := copy_blocks (D := D) (E := E) body) in *.
  assert (reading (mkSource d (replicate BLOCK 0%Z) start count 0 0 0) body body) as Hy.
  { split; cbn; try done; try lia. exists (m_seq m). split_and!; [done | done | lia]. }
  destruct (decode_man_body (H0 := BlockSource_laws body) LEVELS TABLES KEY_MAX _ m T
    (ls_shape Hs) Hm Hy) as (s' & E1 & Hr).
  cbn [BlockSource_laws yields] in Hr. rewrite E1.
  pose proof (man_body_pos LEVELS m T). fold body in H.
  destruct (reading_done body s' Hr ltac:(lia)) as [E2 E3].
  assert (bs_count s' = count) as E4 by apply (rd_count _ _ _ Hr).
  rewrite E2, E3, E4, !Nat.eqb_refl. cbn. by destruct m.
Qed.

(** ** Recovery picks the newest whole copy *)

Lemma recover_newest d m T k0 :
  log_shape -> man_ok LEVELS TABLES KEY_MAX m T -> k0 < copies lay ->
  copy_at d (start_of k0) (m_seq m) (man_body LEVELS m T) ->
  (forall k, k < copies lay -> k <> k0 -> exists p, probe_copy d (start_of k) stride = Ok p /\
    forall s c, p = Intact s c -> (s < m_seq m)%Z) ->
  recover_from LEVELS TABLES KEY_MAX d lay = Ok (m, false).
Proof.
  intros Hs Hm Hk Hc Hp. destruct (man_framable m T (m_seq m) Hs Hm (mo_seq _ _ _ _ _ Hm)) as [Hf Hst].
  unfold recover_from.
  destruct (scan_newest d lay stride k0 (m_seq m)
    (copy_blocks (D := D) (E := E) (man_body LEVELS m T)) (copies lay) 0 None false) as (bl & ->).
  - intros j _ Hj. destruct (decide (j = k0)) as [-> |].
    + eexists. split; [by apply probe_whole | done].
    + by apply Hp.
  - right. split; [lia | done].
  - by rewrite (decode_whole d (start_of k0) m T Hs Hm Hc).
Qed.

Lemma recover_fresh d :
  (forall k, k < copies lay -> exists p, probe_copy d (start_of k) stride = Ok p /\
    forall s c, p <> Intact s c) ->
  (exists k, k < copies lay /\ probe_copy d (start_of k) stride = Ok Blank) ->
  recover_from LEVELS TABLES KEY_MAX d lay = Ok (new LEVELS TABLES KEY_MAX, true).
Proof.
  intros Hp (k & Hk & Hb). unfold recover_from. rewrite (scan_blank d lay stride (copies lay) 0).
  - done.
  - intros j _ Hj. by apply Hp.
  - right. exists k. split_and!; [lia | lia | done].
Qed.

Lemma probe_blank d k b :
  read_block d (start_of k) = Ok b -> blank_block b = true ->
  probe_copy d (start_of k) stride = Ok Blank.
Proof. intros Hr Hb. unfold probe_copy, load. rewrite Hr. cbn [map_err]. by rewrite Hb. Qed.

(** What recovery finds when all copies but [kt] are as on [on_disk], and [kt] is a
    commit in progress. *)
Lemma recover_in_progress d md Td fresh d' m' T' :
  log_shape -> on_disk d md Td fresh -> man_ok LEVELS TABLES KEY_MAX m' T' ->
  m_seq m' = (m_seq md + 1)%Z ->
  let kt := slot lay (m_seq m') in
  (forall k i, k < copies lay -> k <> kt -> (Z.of_nat i < stride)%Z ->
    read_block d' (start_of k + Z.of_nat i) = read_block d (start_of k + Z.of_nat i)) ->
  mixed d' (start_of kt) stride (m_seq md) (m_seq m') (man_body LEVELS m' T') ->
  recover_from LEVELS TABLES KEY_MAX d' lay = Ok (md, fresh) \/
  recover_from LEVELS TABLES KEY_MAX d' lay = Ok (m', false) /\
    copy_at d' (start_of kt) (m_seq m') (man_body LEVELS m' T').
Proof.
  intros Hs [Hok Hbl Hcur] Hm' Hq kt Hsame Hmix.
  destruct (man_framable m' T' (m_seq m') Hs Hm' (mo_seq _ _ _ _ _ Hm')) as [Hf' Hst'].
  pose proof (max_blocks_pos Hs) as Hpos.
  assert (forall k, k < copies lay -> k <> kt -> older d' (start_of k) stride (m_seq m')) as Hold.
  { intros k Hk Hkt i Hi. rewrite Hsame by done. destruct (Hbl k i Hk Hi) as (b & Hb & Hh).
    exists b. split; [done |]. intros h Eh. destruct (Hh h Eh) as [? _]. lia. }
  destruct (probe_mixed d' (start_of kt) stride (m_seq md) (m_seq m') (man_body LEVELS m' T'))
    as (p & Hp & [Hpi | Hwhole]); [done | done | lia | done | left | right].
  - destruct fresh.
    + destruct Hcur as [-> Hblank]. change (m_seq (new LEVELS TABLES KEY_MAX)) with 0%Z in *.
      assert (forall k, k < copies lay -> k <> kt ->
        probe_copy d' (start_of k) stride = Ok Blank) as Hb'.
      { intros k Hk Hne. destruct (Hblank k Hk) as (b & Hb & Hz).
        apply (probe_blank d' k b); [| done]. rewrite <- Hb.
        rewrite <- (Z.add_0_r (start_of k)). apply (Hsame k 0); [done | done | lia]. }
      apply recover_fresh.
      * intros k Hk. destruct (decide (k = kt)) as [-> | Hne].
        -- exists p. split; [done |]. intros s c Hc. specialize (Hpi s c Hc). lia.
        -- exists Blank. split; [by apply Hb' | congruence].
      * pose proof (ls_copies Hs). destruct (decide (kt = 0)) as [E0 | E0].
        -- exists 1. split; [lia |]. apply Hb'; lia.
        -- exists 0. split; [lia |]. apply Hb'; lia.
    + assert (slot lay (m_seq md) <> kt) as Hne
        by (intros H; apply (slot_next (m_seq md) Hs); unfold kt in H; congruence).
      apply (recover_newest d' md Td (slot lay (m_seq md)) Hs Hok (slot_lt _ Hs)).
      * destruct (man_framable md Td (m_seq md) Hs Hok (mo_seq _ _ _ _ _ Hok)) as [_ Hst].
        intros i Hi. rewrite Hsame; [by apply Hcur | by apply slot_lt | done | lia].
      * intros k Hk Hk0. destruct (decide (k = kt)) as [-> | Hkt].
        -- exists p. split; [done |]. intros s c Hc. apply (Hpi s c Hc).
        -- destruct (probe_older d' (start_of k) stride (m_seq md) Hpos) as (p' & Hp' & Hi').
           ++ intros i Hi. rewrite Hsame by done. destruct (Hbl k i Hk Hi) as (b & Hb & Hh).
              exists b. split; [done |]. intros h Eh.
              destruct (Hh h Eh) as [? [[_ ?] | ?]]; [done | lia].
           ++ exists p'. split; [done |]. intros s c Hc. apply (Hi' s c Hc).
  - split; [| done]. apply (recover_newest d' m' T' kt Hs Hm' (slot_lt _ Hs) Hwhole).
    intros k Hk Hk0. destruct (probe_older d' (start_of k) stride (m_seq m') Hpos (Hold k Hk Hk0))
      as (p' & Hp' & Hi').
    exists p'. split; [done |]. intros s c Hc. apply (Hi' s c Hc).
Qed.

(** ** Writing the copy *)

Section writing.
  Context (m : Manifest) (e : ManifestEdit) (sq start : u64) (body : bytes).
  Abbreviation count := (copy_blocks (D := D) (E := E) body).
  Abbreviation block := (copy_block (D := D) (E := E) sq body).
  Context (Hf : framable (D := D) (E := E) sq body).
  Context (Henc : forall j, j < count ->
    encode_view_block (E := E) LEVELS BLOCK m e sq j = Ok (block j)).

(** A block after the loop: new, as before, or detectably torn. *)
Definition after_write (d d' : D) (j : nat) : Prop :=
  forall old, read_block d (start + Z.of_nat j) = Ok old ->
  exists b, read_block d' (start + Z.of_nat j) = Ok b /\
    (b = block j \/ b = old \/ check_block BLOCK b = None).

Lemma block_shape j : length (block j) = BLOCK /\ bytes_ok (block j).
Proof.
  split; [apply length_frame, length_part_le, Hf |].
  apply frame_ok, bytes_ok_sub, Hf.
Qed.

Lemma write_copy_spec : forall n i d d' r,
  i + n = count -> write_copy LEVELS n i m e sq start d = (d', r) ->
  (forall id, (id < start + Z.of_nat i)%Z \/ (start + Z.of_nat (i + n) <= id)%Z ->
    read_block d' id = read_block d id) /\
  (forall j, i <= j -> j < i + n -> after_write d d' j) /\
  match r with
  | Ok _ => forall j, i <= j -> j < i + n -> read_block d' (start + Z.of_nat j) = Ok (block j)
  | Err err => exists e', err = Device e'
  end.
Proof.
  induction n as [|n IH]; intros i d d' r Hn Hw; cbn [write_copy] in Hw.
  { injection Hw as <- <-. split_and!; [done | intros; lia | intros; lia]. }
  rewrite Henc in Hw by lia.
  destruct (write_block d (start + Z.of_nat i) (block i)) as [d1 [[] | err]] eqn:Ew.
  - destruct (IH (i + 1) d1 d' r ltac:(lia) Hw) as (H1 & H2 & H3).
    assert (read_block d' (start + Z.of_nat i) = Ok (block i)) as Hi.
    { rewrite H1 by lia. by apply (read_written d d1), Ew; apply block_shape. }
    assert (forall id, (id <> start + Z.of_nat i)%Z -> read_block d1 id = read_block d id) as Hu.
    { intros id Hid. apply (read_unwritten _ _ _ _ _ _ Ew). congruence. }
    split_and!.
    + intros id Hid. rewrite H1 by lia. apply Hu. lia.
    + intros j Hj Hj'. destruct (decide (j = i)) as [-> |]; [intros old _; eauto |].
      intros old Ho. apply H2; [lia | lia |]. rewrite Hu by lia. done.
    + destruct r as [[] | err]; [| done]. intros j Hj Hj'.
      destruct (decide (j = i)) as [-> |]; [done | apply H3; lia].
  - injection Hw as <- <-. split_and!; [| | by eexists].
    + intros id Hid. apply (read_unwritten _ _ _ _ _ _ Ew). lia.
    + intros j Hj Hj' old Ho. destruct (decide (j = i)) as [-> |].
      * destruct (torn_write _ _ _ _ _ Ew) as (b & Hb & Hc). exists b. split; [done |].
        destruct Hc as [-> | [Hc | Hc]]; auto. rewrite Ho in Hc. injection Hc as ->. auto.
      * exists old. split; [| auto]. rewrite <- Ho. apply (read_unwritten _ _ _ _ _ _ Ew). lia.
Qed.
End writing.

(** A device on which the commit of [next] over [md] has begun. *)
Definition in_progress (d d' : D) (md next : Manifest) (T' : list (nat * TableRef)) : Prop :=
  let kt := slot lay (m_seq next) in
  (forall k i, k < copies lay -> k <> kt -> (Z.of_nat i < stride)%Z ->
    read_block d' (start_of k + Z.of_nat i) = read_block d (start_of k + Z.of_nat i)) /\
  mixed d' (start_of kt) stride (m_seq md) (m_seq next) (man_body LEVELS next T').

Lemma copy_at_ext (d d' : D) start sq body :
  (forall id, read_block d' id = read_block d id) -> copy_at d start sq body -> copy_at d' start sq body.
Proof. intros H Hc i Hi. rewrite H. by apply Hc. Qed.

Lemma in_progress_ext d d1 d' md next T' :
  (forall id, read_block d' id = read_block d1 id) ->
  in_progress d d1 md next T' -> in_progress d d' md next T'.
Proof.
  intros H [H1 H2]. split.
  - intros k i Hk Hkt Hi. rewrite H. by apply H1.
  - intros i Hi. rewrite H. by apply H2.
Qed.

Lemma write_copy_progress d md Td fresh m e next T' d' r :
  log_shape -> on_disk d md Td fresh -> man_ok LEVELS TABLES KEY_MAX next T' ->
  m_seq next = (m_seq md + 1)%Z ->
  (forall j, j < copy_blocks (D := D) (E := E) (man_body LEVELS next T') ->
    encode_view_block (E := E) LEVELS BLOCK m e (m_seq next) j =
    Ok (copy_block (D := D) (E := E) (m_seq next) (man_body LEVELS next T') j)) ->
  write_copy LEVELS (copy_blocks (D := D) (E := E) (man_body LEVELS next T')) 0 m e (m_seq next)
    (start_of (slot lay (m_seq next))) d = (d', r) ->
  in_progress d d' md next T' /\
  match r with
  | Ok _ => copy_at d' (start_of (slot lay (m_seq next))) (m_seq next) (man_body LEVELS next T')
  | Err err => exists e', err = Device e'
  end.
Proof.
  intros Hs Hd Hm Hq Henc Hw. set (kt := slot lay (m_seq next)) in *.
  destruct (man_framable next T' _ Hs Hm (mo_seq _ _ _ _ _ Hm)) as [Hf Hst].
  destruct (write_copy_spec m e _ _ _ Hf Henc (copy_blocks (D := D) (E := E) (man_body LEVELS next T'))
    0 d d' r eq_refl Hw) as (H1 & H2 & H3). cbn [Nat.add] in H1, H2, H3.
  split; [split |].
  - intros k i Hk Hkt Hi. apply H1.
    destruct (ls_disjoint Hs k kt Hk (slot_lt _ Hs) Hkt); [left | right]; lia.
  - intros i Hi. destruct (od_blocks _ _ _ _ Hd kt i (slot_lt _ Hs) Hi) as (old & Ho & Hh).
    assert (forall h, check_block BLOCK old = Some h -> (0 <= bh_seq h < m_seq md)%Z) as Hold.
    { intros h Eh. destruct (Hh h Eh) as [Hb [[_ Hkt] | Hlt]]; [| lia]. exfalso.
      apply (slot_next (m_seq md) Hs). rewrite <- Hq. exact Hkt. }
    destruct (decide (i < copy_blocks (D := D) (E := E) (man_body LEVELS next T'))) as [Hi' | Hi'].
    + destruct (H2 i ltac:(lia) ltac:(lia) old Ho) as (b & Hb & [-> | [-> | Hn]]).
      * eauto.
      * eauto.
      * exists b. split; [done |]. right. intros h Eh. congruence.
    + exists old. split; [| by right]. rewrite <- Ho. apply H1. lia.
  - destruct r as [[] | err]; [| done]. intros i Hi. apply H3; lia.
Qed.

Lemma on_disk_next d d' md Td fresh next T' :
  log_shape -> on_disk d md Td fresh -> man_ok LEVELS TABLES KEY_MAX next T' ->
  m_seq next = (m_seq md + 1)%Z -> in_progress d d' md next T' ->
  copy_at d' (start_of (slot lay (m_seq next))) (m_seq next) (man_body LEVELS next T') ->
  on_disk d' next T' false.
Proof.
  intros Hs Hd Hm Hq [H1 H2] Hc. split; [done | | done]. intros k i Hk Hi.
  destruct (man_framable next T' _ Hs Hm (mo_seq _ _ _ _ _ Hm)) as [Hf _].
  pose proof (mo_seq _ _ _ _ _ (od_ok _ _ _ _ Hd)) as Hfit. unfold fits in Hfit.
  destruct (decide (k = slot lay (m_seq next))) as [-> | Hne].
  - destruct (H2 i Hi) as (b & Hb & Hc'). exists b. split; [done |]. intros h Eh.
    destruct Hc' as [[Hib ->] | Hold].
    + rewrite (check_copy_block _ _ i Hf Hib) in Eh. injection Eh as <-. cbn [bh_seq].
      split; [lia | by left].
    + specialize (Hold h Eh). split; [lia | right; lia].
  - rewrite H1 by done. destruct (od_blocks _ _ _ _ Hd k i Hk Hi) as (b & Hb & Hh).
    exists b. split; [done |]. intros h Eh. destruct (Hh h Eh) as [? _]. split; [lia | right; lia].
Qed.

Lemma man_ok_set_seq m T sq :
  man_ok LEVELS TABLES KEY_MAX m T -> fits 64 sq -> man_ok LEVELS TABLES KEY_MAX (set_seq m sq) T.
Proof. intros [[H1 H2 H3 H4 H5] ] Hs. split; try done. Qed.

(** A commit whose edit passes the checks: the copy of the manifest it applies to is
    written block by block, then flushed. *)
Lemma commit_edit_runs m T e d :
  log_shape -> man_ok LEVELS TABLES KEY_MAX m T -> edit_ok KEY_MAX e m ->
  check_edit (E := E) LEVELS TABLES m e = Ok tt -> (m_seq m < U64_MAX)%Z ->
  let next := set_seq (apply_checked LEVELS TABLES KEY_MAX m e) (m_seq m + 1) in
  exists T', man_ok LEVELS TABLES KEY_MAX next T' /\
    let body := man_body LEVELS next T' in
    (forall j, j < copy_blocks (D := D) (E := E) body ->
       encode_view_block (E := E) LEVELS BLOCK m e (m_seq next) j =
       Ok (copy_block (D := D) (E := E) (m_seq next) body j)) /\
    commit_edit LEVELS TABLES KEY_MAX m e d lay =
      match write_copy LEVELS (copy_blocks (D := D) (E := E) body) 0 m e (m_seq next)
              (start_of (slot lay (m_seq next))) d with
      | (d', Err err) => (m, d', Err err)
      | (d', Ok _) =>
          match dev_flush d' with
          | (d'', Err err) => (m, d'', Err (Device err))
          | (d'', Ok _) => (next, d'', Ok tt)
          end
      end.
Proof.
  intros Hs Hm He Hc Hmax next.
  destruct (apply_checked_ok LEVELS TABLES KEY_MAX m T e (ls_shape Hs) Hm He Hc)
    as (T' & Hok & Hvl & Hvb).
  assert (fits 64 (m_seq m + 1)) as Hfit.
  { pose proof (mo_seq _ _ _ _ _ Hm). unfold fits, U64_MAX in *. lia. }
  assert (man_ok LEVELS TABLES KEY_MAX next T') as Hn by by apply man_ok_set_seq.
  exists T'. split; [done |]. intros body.
  destruct (man_framable next T' _ Hs Hn Hfit) as [Hf Hst].
  assert (view_body LEVELS m e = body) as Hbody by exact Hvb.
  assert (view_body_len LEVELS m e = length body) as Hlen.
  { rewrite (view_body_len_spec LEVELS KEY_MAX), Hbody; [done |]. by eapply view_levels_ok. }
  split.
  { intros j Hj. rewrite (encode_view_frame LEVELS TABLES KEY_MAX BLOCK m T); rewrite ?Hbody;
      first [done | apply Hs | apply Hf]. }
  unfold commit_edit. rewrite Hc. unfold u64_checked_add.
  rewrite (proj2 (Z.ltb_ge _ _)) by lia. by rewrite Hlen.
Qed.

(** What a commit leaves on the device, by its result. *)
Lemma commit_edit_spec d md Td fresh m T e m' d' r :
  log_shape -> on_disk d md Td fresh -> man_ok LEVELS TABLES KEY_MAX m T -> m_seq m = m_seq md ->
  edit_ok KEY_MAX e m -> check_edit (E := E) LEVELS TABLES m e = Ok tt -> (m_seq m < U64_MAX)%Z ->
  commit_edit LEVELS TABLES KEY_MAX m e d lay = (m', d', r) ->
  let next := set_seq (apply_checked LEVELS TABLES KEY_MAX m e) (m_seq m + 1) in
  exists T', man_ok LEVELS TABLES KEY_MAX next T' /\
  match r with
  | Ok _ => m' = next /\ on_disk d' next T' false
  | Err err => m' = m /\ (exists e', err = Device e') /\
      (recover_from LEVELS TABLES KEY_MAX d' lay = Ok (md, fresh) \/
       recover_from LEVELS TABLES KEY_MAX d' lay = Ok (next, false))
  end.
Proof.
  intros Hs Hd Hm Hq He Hc Hmax Hcm next.
  destruct (commit_edit_runs m T e d Hs Hm He Hc Hmax) as (T' & Hn & Henc & Erun). fold next in Hn, Henc, Erun.
  exists T'. split; [done |]. rewrite Erun in Hcm.
  destruct (write_copy _ _ _ _ _ _ _ _) as [d1 r1] eqn:Ew.
  destruct (write_copy_progress d md Td fresh m e next T' d1 r1 Hs Hd Hn ltac:(cbn; lia) Henc Ew)
    as [Hp Hr1].
  assert (forall d'', (forall id, read_block d'' id = read_block d1 id) ->
    recover_from LEVELS TABLES KEY_MAX d'' lay = Ok (md, fresh) \/
    recover_from LEVELS TABLES KEY_MAX d'' lay = Ok (next, false)) as Hrec.
  { intros d'' Hx. destruct (in_progress_ext _ _ d'' _ _ _ Hx Hp) as [P1 P2].
    destruct (recover_in_progress d md Td fresh d'' next T' Hs Hd Hn ltac:(cbn; lia) P1 P2)
      as [? | [? _]]; auto. }
  destruct r1 as [[] | err].
  - destruct (dev_flush d1) as [d2 [[] | err]] eqn:Efl; injection Hcm as <- <- <-.
    + split; [done |]. assert (forall id, read_block d2 id = read_block d1 id) as Hx
        by (intros id; by apply (read_flushed _ _ _ _ Efl)).
      eapply on_disk_next; [done | done | done | cbn; lia | by eapply in_progress_ext |].
      by eapply copy_at_ext.
    + split_and!; [done | by eexists |]. apply Hrec. intros id. by apply (read_flushed _ _ _ _ Efl).
  - injection Hcm as <- <- <-. split_and!; [done | done |]. by apply Hrec.
Qed.

(** ** Retrying a failed commit *)

(** The device holds [md] up to the copy the next commit goes to, which may hold blocks
    of earlier attempts at that commit. *)
Definition retriable (d : D) (md : Manifest) (fresh : bool) : Prop :=
  exists d0 Td, on_disk d0 md Td fresh /\
  let kt := slot lay (m_seq md + 1) in
  (forall k i, k < copies lay -> k <> kt -> (Z.of_nat i < stride)%Z ->
     read_block d (start_of k + Z.of_nat i) = read_block d0 (start_of k + Z.of_nat i)) /\
  (forall i, (Z.of_nat i < stride)%Z -> exists b, read_block d (start_of kt + Z.of_nat i) = Ok b /\
     forall h, check_block BLOCK b = Some h -> (0 <= bh_seq h <= m_seq md + 1)%Z).

Lemma on_disk_retriable d md Td fresh : log_shape -> on_disk d md Td fresh -> retriable d md fresh.
Proof.
  intros Hs Hd. exists d, Td. split; [done |]. split; [done |]. intros i Hi.
  destruct (od_blocks _ _ _ _ Hd _ i (slot_lt (m_seq md + 1) Hs) Hi) as (b & Hb & Hh).
  exists b. split; [done |]. intros h Eh. destruct (Hh h Eh) as [? _]. lia.
Qed.

Lemma retriable_ext d d' md fresh :
  (forall id, read_block d' id = read_block d id) -> retriable d md fresh -> retriable d' md fresh.
Proof.
  intros H (d0 & Td & Hd & H1 & H2). exists d0, Td. split; [done |]. split.
  - intros k i Hk Hkt Hi. rewrite H. by apply H1.
  - intros i Hi. rewrite H. by apply H2.
Qed.

(** Another attempt at the commit, over whatever earlier ones left. *)
Lemma write_copy_retries d md fresh m e next T' d' r :
  log_shape -> retriable d md fresh -> man_ok LEVELS TABLES KEY_MAX next T' ->
  m_seq next = (m_seq md + 1)%Z ->
  (forall j, j < copy_blocks (D := D) (E := E) (man_body LEVELS next T') ->
    encode_view_block (E := E) LEVELS BLOCK m e (m_seq next) j =
    Ok (copy_block (D := D) (E := E) (m_seq next) (man_body LEVELS next T') j)) ->
  write_copy LEVELS (copy_blocks (D := D) (E := E) (man_body LEVELS next T')) 0 m e (m_seq next)
    (start_of (slot lay (m_seq next))) d = (d', r) ->
  retriable d' md fresh /\ (r = Ok tt -> on_disk d' next T' false).
Proof.
  intros Hs (d0 & Td & Hd & Hsame & Hkt) Hm Hq Henc Hw. rewrite <- Hq in Hsame, Hkt.
  set (kt := slot lay (m_seq next)) in *.
  destruct (man_framable next T' _ Hs Hm (mo_seq _ _ _ _ _ Hm)) as [Hf Hst].
  pose proof (mo_seq _ _ _ _ _ (od_ok _ _ _ _ Hd)) as Hfit. unfold fits in Hfit.
  destruct (write_copy_spec m e _ _ _ Hf Henc (copy_blocks (D := D) (E := E) (man_body LEVELS next T'))
    0 d d' r eq_refl Hw) as (H1 & H2 & H3). cbn [Nat.add] in H1, H2, H3.
  assert (forall k i, k < copies lay -> k <> kt -> (Z.of_nat i < stride)%Z ->
    read_block d' (start_of k + Z.of_nat i) = read_block d0 (start_of k + Z.of_nat i)) as Ho.
  { intros k i Hk Hne Hi. rewrite <- Hsame by done. apply H1.
    destruct (ls_disjoint Hs k kt Hk (slot_lt _ Hs) Hne); [left | right]; lia. }
  assert (forall i, (Z.of_nat i < stride)%Z -> exists b, read_block d' (start_of kt + Z.of_nat i) = Ok b /\
     forall h, check_block BLOCK b = Some h -> (0 <= bh_seq h <= m_seq next)%Z) as Hk'.
  { intros i Hi. destruct (Hkt i Hi) as (old & Hr & Hh).
    destruct (decide (i < copy_blocks (D := D) (E := E) (man_body LEVELS next T'))) as [Hi' | Hi'].
    - destruct (H2 i ltac:(lia) ltac:(lia) old Hr) as (b & Hb & Hc). exists b. split; [done |].
      intros h Eh. destruct Hc as [-> | [-> | Hc]]; [| auto | congruence].
      rewrite (check_copy_block _ _ i Hf Hi') in Eh. injection Eh as <-. cbn [bh_seq]. lia.
    - exists old. split; [| auto]. rewrite <- Hr. apply H1. lia. }
  split.
  - exists d0, Td. rewrite <- Hq. by split.
  - intros ->. split; [done | |].
    + intros k i Hk Hi. destruct (decide (k = kt)) as [-> | Hne].
      * destruct (Hk' i Hi) as (b & Hb & Hh). exists b. split; [done |]. intros h Eh. split; [auto | by left].
      * rewrite Ho by done. destruct (od_blocks _ _ _ _ Hd k i Hk Hi) as (b & Hb & Hh).
        exists b. split; [done |]. intros h Eh. destruct (Hh h Eh) as [? _]. split; [lia | right; lia].
    + intros i Hi. apply H3; lia.
Qed.

Lemma commit_edit_retries d md fresh m T e m' d' r :
  log_shape -> retriable d md fresh -> man_ok LEVELS TABLES KEY_MAX m T -> m_seq m = m_seq md ->
  edit_ok KEY_MAX e m ->
  commit_edit LEVELS TABLES KEY_MAX m e d lay = (m', d', r) ->
  let next := set_seq (apply_checked LEVELS TABLES KEY_MAX m e) (m_seq m + 1) in
  match r with
  | Ok _ => m' = next /\ exists T', on_disk d' next T' false
  | Err _ => m' = m /\ retriable d' md fresh
  end.
Proof.
  intros Hs Hd Hm Hq He Hcm next.
  destruct (check_edit (E := E) LEVELS TABLES m e) as [[] | err] eqn:Hc.
  2: { unfold commit_edit in Hcm. rewrite Hc in Hcm. by injection Hcm as <- <- <-. }
  destruct (decide (m_seq m < U64_MAX)%Z) as [Hmax | Hmax].
  2: { unfold commit_edit, u64_checked_add in Hcm. rewrite Hc in Hcm.
       rewrite (proj2 (Z.ltb_lt _ _)) in Hcm by lia. by injection Hcm as <- <- <-. }
  destruct (commit_edit_runs m T e d Hs Hm He Hc Hmax) as (T' & Hn & Henc & Erun). fold next in Hn, Henc, Erun.
  rewrite Erun in Hcm. destruct (write_copy _ _ _ _ _ _ _ _) as [d1 r1] eqn:Ew.
  destruct (write_copy_retries d md fresh m e next T' d1 r1 Hs Hd Hn ltac:(cbn; lia) Henc Ew) as [Hr Hok].
  destruct r1 as [[] | err]; [| by injection Hcm as <- <- <-].
  destruct (dev_flush d1) as [d2 r2] eqn:Efl.
  assert (forall id, read_block d2 id = read_block d1 id) as Hx by (intros id; by apply (read_flushed _ _ _ _ Efl)).
  destruct r2 as [[] | err]; injection Hcm as <- <- <-; (split; [done |]); [| by eapply retriable_ext].
  exists T'. destruct (Hok eq_refl) as [O1 O2 O3]. split; [done | | by eapply copy_at_ext].
  intros k i Hk Hi. rewrite Hx. by apply O2.
Qed.

Lemma recover_on_disk d md Td fresh :
  log_shape -> on_disk d md Td fresh -> recover_from LEVELS TABLES KEY_MAX d lay = Ok (md, fresh).
Proof.
  intros Hs [Hok Hbl Hcur]. pose proof (max_blocks_pos Hs) as Hpos. destruct fresh.
  - destruct Hcur as [-> Hblank]. apply recover_fresh.
    + intros k Hk. destruct (Hblank k Hk) as (b & Hb & Hz).
      exists Blank. split; [by eapply probe_blank | done].
    + pose proof (ls_copies Hs). destruct (Hblank 0 ltac:(lia)) as (b & Hb & Hz).
      exists 0. split; [lia | by eapply probe_blank].
  - apply (recover_newest d md Td (slot lay (m_seq md)) Hs Hok (slot_lt _ Hs) Hcur).
    intros k Hk Hk0. destruct (probe_older d (start_of k) stride (m_seq md) Hpos) as (p & Hp & Hi).
    + intros i Hi. destruct (Hbl k i Hk Hi) as (b & Hb & Hh). exists b. split; [done |].
      intros h Eh. destruct (Hh h Eh) as [? [[_ ?] | ?]]; [done | lia].
    + exists p. split; [done |]. intros s c Hc. apply (Hi s c Hc).
Qed.

(** A device whose manifest blocks are all zero is fresh. *)
Lemma blank_on_disk d :
  log_shape ->
  (forall k i, k < copies lay -> (Z.of_nat i < stride)%Z ->
    read_block d (start_of k + Z.of_nat i) = Ok (replicate BLOCK 0%Z)) ->
  on_disk d (new LEVELS TABLES KEY_MAX) [] true.
Proof.
  intros Hs Hz. pose proof (max_blocks_pos Hs). pose proof (ls_block Hs).
  assert (blank_block (replicate BLOCK 0%Z) = true) as Hb.
  { unfold blank_block. apply orb_true_iff. left. apply forallb_forall.
    intros x Hx%list_elem_of_In%elem_of_replicate. destruct Hx as [-> _]. done. }
  assert (check_block BLOCK (replicate BLOCK 0%Z) = None) as Hn.
  { unfold check_block. assert (sub 0 8 (replicate BLOCK 0%Z) = replicate 8 0%Z) as ->; [| done].
    unfold sub. rewrite drop_0, take_replicate. f_equal. lia. }
  split.
  - split; try (unfold fits; cbn; lia); [apply new_repr | constructor].
  - intros k i Hk Hi. eexists. split; [by apply Hz |]. intros h Eh. congruence.
  - split; [done |]. intros k Hk. exists (replicate BLOCK 0%Z). split; [| done].
    rewrite <- (Z.add_0_r (start_of k)). apply (Hz k 0); [done | lia].
Qed.
End commits.

(** C15 A manifest commit is atomic.  Take a device that holds [md] (or none yet) and no
    block of a later commit, an in-memory manifest with its sequence number, and an
    edit; a failed write leaves the old block, the new one, or one whose checksum does
    not match ([TornWrites]).  If [commit_edit] succeeds, recovery returns exactly the
    manifest it left in memory, and the device again holds it.  If it fails, at whatever
    write or at the flush, the manifest in memory is unchanged and recovery returns
    either what it would have returned before or exactly the manifest being committed.
    The failed commit can be retried, with any edit: from what any number of failed
    attempts left ([retriable]), an attempt that succeeds is again what recovery returns,
    and one that fails leaves the manifest in memory and a device that can be tried again
    (what recovery finds between two attempts at different edits is not said:
    [retried_commit_mixes]). *)
Theorem commit_is_atomic {D E} `{Dev : !BlockDevice D E, !DeviceLaws D E, !TornWrites D E}
    LEVELS TABLES KEY_MAX lay d md fresh m T e m' d' r :
  log_shape (D := D) (E := E) LEVELS TABLES KEY_MAX lay ->
  man_ok LEVELS TABLES KEY_MAX m T -> m_seq m = m_seq md -> edit_ok KEY_MAX e m ->
  commit_edit LEVELS TABLES KEY_MAX m e d lay = (m', d', r) ->
  let next := set_seq (apply_checked LEVELS TABLES KEY_MAX m e) (m_seq m + 1) in
  (forall Td, on_disk LEVELS TABLES KEY_MAX lay d md Td fresh ->
    match r with
    | Ok _ =>
        m' = next /\ recover_from LEVELS TABLES KEY_MAX d' lay = Ok (next, false) /\
        exists T', on_disk LEVELS TABLES KEY_MAX lay d' next T' false
    | Err _ =>
        m' = m /\ retriable LEVELS TABLES KEY_MAX lay d' md fresh /\
        (recover_from LEVELS TABLES KEY_MAX d' lay = Ok (md, fresh) \/
         recover_from LEVELS TABLES KEY_MAX d' lay = Ok (next, false))
    end) /\
  (retriable LEVELS TABLES KEY_MAX lay d md fresh ->
    match r with
    | Ok _ =>
        m' = next /\ recover_from LEVELS TABLES KEY_MAX d' lay = Ok (next, false) /\
        exists T', on_disk LEVELS TABLES KEY_MAX lay d' next T' false
    | Err _ => m' = m /\ retriable LEVELS TABLES KEY_MAX lay d' md fresh
    end).
Proof.
  intros Hs Hm Hq He Hc next.
  assert (retriable LEVELS TABLES KEY_MAX lay d md fresh ->
    match r with
    | Ok _ =>
        m' = next /\ recover_from LEVELS TABLES KEY_MAX d' lay = Ok (next, false) /\
        exists T', on_disk LEVELS TABLES KEY_MAX lay d' next T' false
    | Err _ => m' = m /\ retriable LEVELS TABLES KEY_MAX lay d' md fresh
    end) as Hretry.
  { intros Hd. pose proof (commit_edit_retries LEVELS TABLES KEY_MAX lay d md fresh m T e m' d' r Hs Hd Hm Hq He Hc) as H.
    destruct r as [[] | err]; [| done]. destruct H as [-> [T' H]].
    split_and!; [done | by eapply recover_on_disk | by exists T']. }
  split; [| done]. intros Td Hd. specialize (Hretry (on_disk_retriable _ _ _ _ _ _ _ _ Hs Hd)).
  destruct r as [u | err]; [done |]. destruct Hretry as [-> Hre]. split_and!; [done | done |].
  destruct (check_edit (E := E) LEVELS TABLES m e) as [[] | err'] eqn:Ec.
  2: { unfold commit_edit in Hc. rewrite Ec in Hc. injection Hc as <- <-. left. by eapply recover_on_disk. }
  destruct (decide (m_seq m < U64_MAX)%Z) as [Hmax | Hmax].
  - by destruct (commit_edit_spec LEVELS TABLES KEY_MAX lay d md Td fresh m T e m d' (Err err) Hs Hd Hm Hq He Ec
      Hmax Hc) as (T' & _ & _ & _ & Hr).
  - unfold commit_edit, u64_checked_add in Hc. rewrite Ec in Hc.
    rewrite (proj2 (Z.ltb_lt _ _)) in Hc by lia. injection Hc as <- <-. left. by eapply recover_on_disk.
Qed.

(** ** A concrete device and run *)

Module ManifestWitness.
(** A disk of 64-byte blocks on which the write after [writes] more fails and
    leaves the block as it was, and whose flush fails while [deaf]. *)
Record fault_disk := mkFault { blocks : MemDisk.disk; writes : nat; deaf : bool }.

Definition fault_write (d : fault_disk) (id : u64) (b : bytes) : fault_disk * result unit unit :=
  match writes d with
  | O => (d, Err tt)
  | S n => (mkFault (<[id := b]> (blocks d)) n (deaf d), Ok tt)
  end.

#[local] Instance dev : BlockDevice fault_disk unit := {|
  BLOCK := 64;
  read_block d id := match MemDisk.read 64 (blocks d) id with Ok b => Ok b | Err _ => Err tt end;
  write_block := fault_write;
  dev_flush d := (d, if deaf d then Err tt else Ok tt);
|}.

#[local] Instance dev_laws : DeviceLaws fault_disk unit.
Proof.
  split; cbn [BLOCK read_block write_block dev_flush dev].
  - intros d id b. unfold MemDisk.read. destruct (blocks d !! id) as [b' |].
    + case_bool_decide as Hb; intros [= <-]; [done | apply MemDisk.zero_block_ok].
    + intros [= <-]. apply MemDisk.zero_block_ok.
  - unfold MemDisk.read, fault_write, MemDisk.disk. intros d d' id b Hl Hb Hw.
    destruct (writes d) as [|n]; [discriminate |]. injection Hw as <-. cbn [blocks].
    rewrite lookup_insert_eq. by rewrite bool_decide_eq_true_2.
  - unfold MemDisk.read, fault_write, MemDisk.disk. intros d d' id id' b r Hw Hne.
    destruct (writes d) as [|n]; injection Hw as <- <-; [done |]. cbn [blocks].
    by rewrite lookup_insert_ne.
  - by intros d d' id r [= <- <-].
Qed.

#[local] Instance dev_torn : TornWrites fault_disk unit.
Proof.
  intros d d' id b e Hw. cbn in Hw. unfold fault_write in Hw. destruct (writes d); [| discriminate].
  injection Hw as <- _. cbn. destruct (MemDisk.read 64 (blocks d) id) as [b' | []]. eauto.
Qed.

(** Two levels of two tables, keys of at most four bytes, copies of nine blocks. *)
Definition ex_lay : ManifestLayout := layout_pair 0 20.
Definition ex_bound (k : bytes) : KeyBound := default (EMPTY_BOUND 4) (from_slice 4 k).
Definition ex_ref (id first : Z) : TableRef :=
  mkRef id first 5 (ex_bound [97%Z]) (ex_bound [99%Z]) 7 1 3 0 0 0.
Definition ex_edit (head id first : Z) : ManifestEdit :=
  let e := edit_note_flushed (edit_set_wal_head (EMPTY_EDIT 4) head) head in
  match edit_add (E := unit) e 0 (ex_ref id first) with Ok e => e | Err _ => e end.

Definition ex_commit (m : Manifest) (e : ManifestEdit) (d : fault_disk) :=
  commit_edit 2 2 4 m e d ex_lay.

Definition ex_fresh : fault_disk := mkFault ∅ 100 false.

Lemma ex_shape : log_shape (D := fault_disk) (E := unit) 2 2 4 ex_lay.
Proof.
  split; [split | | | | |]; try by_compute.
  intros j k Hj Hk Hjk. change (copies ex_lay) with 2 in *.
  destruct j as [|[|j]], k as [|[|k]]; try lia; vm_compute; [left | right]; discriminate.
Qed.

Lemma ex_on_disk : on_disk 2 2 4 ex_lay ex_fresh (new 2 2 4) [] true.
Proof.
  apply blank_on_disk; [exact ex_shape |]. intros k i _ _. reflexivity.
Qed.

Lemma ex_edit_ok head id first m :
  fits 64 head -> fits 32 id -> fits 64 first -> edit_ok 4 (ex_edit head id first) m.
Proof.
  intros Hh Hi Hf.
  assert (bound_ok 4 (ex_bound [97%Z]) /\ bound_ok 4 (ex_bound [99%Z])) as [B1 B2].
  { split; split; by_compute. }
  assert (e_flushed (ex_edit head id first) = head) as Efl.
  { cbn. unfold fits in Hh. destruct (Z.ltb_spec 0 head); lia. }
  split.
  - intros h [= <-]. done.
  - by rewrite Efl.
  - by_compute.
  - by_compute.
  - apply empty_bound_ok.
  - intros l t [= <- <-]. split; cbn; try done; by_compute.
  - intros ??? [=].
  - intros H. by destruct H.
  - intros lv t [= <- <-]. lia.
Qed.

Lemma commit_is_atomic_witness :
  recover_from 2 2 4 (ex_commit (new 2 2 4) (ex_edit 11 0 100) ex_fresh).1.2 ex_lay =
    Ok ((ex_commit (new 2 2 4) (ex_edit 11 0 100) ex_fresh).1.1, false).
Proof.
  assert ((ex_commit (new 2 2 4) (ex_edit 11 0 100) ex_fresh).2 = Ok tt) as Hr
    by (vm_compute; reflexivity).
  destruct (ex_commit (new 2 2 4) (ex_edit 11 0 100) ex_fresh) as [[m' d'] r] eqn:Ec.
  cbn [fst snd] in *. subst r.
  pose proof (commit_is_atomic 2 2 4 ex_lay ex_fresh (new 2 2 4) true (new 2 2 4) []
    (ex_edit 11 0 100) m' d' (Ok tt) ex_shape (od_ok _ _ _ _ _ _ _ _ ex_on_disk) eq_refl
    (ex_edit_ok 11 0 100 _ ltac:(by_compute) ltac:(by_compute) ltac:(by_compute)) Ec) as [H _].
  cbv zeta in H. destruct (H [] ex_on_disk) as (H1 & H2 & _). rewrite H1. exact H2.
Defined.

(** A commit that fails at the flush keeps its sequence number, and the next
    commit reuses it for the same copy.  If that one is cut short after its first
    block, the copy holds one block of the second attempt and the rest of the
    first: every block passes its check, the sequence numbers agree, and recovery
    returns a manifest that neither commit wrote and that was never in memory. *)
Theorem retried_commit_mixes :
  let first := ex_edit 11 0 100 in
  let second := ex_edit 22 1 200 in
  let '(m1, d1, r1) := ex_commit (new 2 2 4) first (mkFault ∅ 4 true) in
  let '(m2, d2, r2) := ex_commit m1 second d1 in
  (exists e, r1 = Err (Device e)) /\ (exists e, r2 = Err (Device e)) /\
  exists m, recover_from 2 2 4 d2 ex_lay = Ok (m, false) /\
    wal_head m = 22%Z /\ (t_id <$> l0 m) = [0%Z] /\
    m <> set_seq (apply_checked 2 2 4 (new 2 2 4) first) 1 /\
    m <> set_seq (apply_checked 2 2 4 (new 2 2 4) second) 1.
Proof.
  vm_compute. split; [by eexists |]. split; [by eexists |].
  eexists. split; [reflexivity |]. split_and!; [done | done | discriminate | discriminate].
Qed.
End ManifestWitness.
