(* ===== verification/SstPlan.v ===== *)
(** * Planning a table: [src/sstable.rs]

    The sizes of entries, the greedy packing rule, the plans of the data and
    range-tombstone sections (pass 1 of a flush), and the bound on the blocks a
    full memtable can need, by which [open] sizes the table slots.  The theorem
    is that a flush always fits its slot. *)

From stdpp Require Import base numbers list.
From Stdlib Require Import ZArith Lia Sorting.Sorted.
From S2P Require Import Prelude Device Memtable Manifest.

(** ** The code *)

Definition ENTRY_HEADER : nat := 13.
Definition RESTART_INTERVAL : nat := 16.
Definition MAX_ENTRIES_PER_BLOCK : nat := 128 * RESTART_INTERVAL.
Definition CRC_LEN : nat := 4.
Definition MAX_DATA_TAIL : nat := 128 * 2 + 2 + CRC_LEN.
Definition RDEL_TRAILER : nat := 6.

Record SstEntry := mkSst {
  se_key : bytes;
  se_val : bytes;
  se_seq : u64;
  se_tombstone : bool;
  se_expire_at : u64;
}.

(** [From<memtable::Entry>] *)
Definition sst_from (e : Entry) : SstEntry :=
  mkSst (key e) (val e) (seq e) (tombstone e) (expire_at e).

Record RdelEntry := mkRdel { rd_start : bytes; rd_end : bytes; rd_seq : u64 }.

Record TablePlan := mkTablePlan {
  tp_data_blocks : nat;
  tp_entry_count : nat;
  tp_max_seq : u64;
  tp_min_seq : u64;
  tp_first_key : KeyBound;
  tp_last_key : KeyBound;
}.

Record RdelPlan := mkRdelPlan {
  rp_blocks : nat;
  rp_first : option bytes;
  rp_max_end : option bytes;
  rp_max_seq : u64;
  rp_min_seq : u64;
}.

(** [(total_len, key_len, val_len)] *)
Definition entry_sizes {E} (e : SstEntry) : result (nat * u16 * u16) (Error E) :=
  if (length (se_key e) =? 0)%nat then Err EmptyKey
  else
    match try_u16 (length (se_key e)) with
    | None => Err (KeyTooLarge (length (se_key e)) (Z.to_nat U16_MAX))
    | Some kl =>
        let vl_raw := if se_tombstone e then 0%nat else length (se_val e) in
        match try_u16 vl_raw with
        | None => Err (ValueTooLarge vl_raw (Z.to_nat U16_MAX))
        | Some vl =>
            let ttl := if negb (se_tombstone e) && negb (se_expire_at e =? 0)%Z then 8%nat else 0%nat in
            Ok (ENTRY_HEADER + length (se_key e) + vl_raw + ttl, kl, vl)%nat
        end
    end.

Section block.
  Variable BLOCK : nat.

Definition entry_fits (payload entries elen : nat) : bool :=
  if (BLOCK <? elen)%nat then false
  else if (MAX_ENTRIES_PER_BLOCK <=? entries)%nat then false
  else
    let new_r := (entries / RESTART_INTERVAL + 1)%nat in
    let tail := (new_r * 2 + 6)%nat in
    (payload + elen + tail <=? BLOCK)%nat.

(** [per_block] is [None] for the caller's [usize::MAX]: no limit on entries. *)
Definition packed_blocks_bound (total n emax room : nat) (per_block : option nat) : nat :=
  if (n =? 0)%nat then 0
  else
    let by_bytes := if (emax <? room)%nat then total / (room - emax + 1) else n in
    let bound := (by_bytes + match per_block with Some p => n / p | None => 0 end + 1)%nat in
    if (bound <? n)%nat then bound else n.

Definition max_flush_blocks (cap arena key_max val_max : nat) : nat :=
  let emax := (ENTRY_HEADER + key_max + val_max + 8)%nat in
  let data_total := (arena + cap * (ENTRY_HEADER + 8))%nat in
  let data :=
    packed_blocks_bound data_total cap emax (BLOCK - MAX_DATA_TAIL) (Some MAX_ENTRIES_PER_BLOCK) in
  let rmax := (12 + 2 * key_max)%nat in
  let rdel_total := (arena + cap * 12)%nat in
  let rdel := packed_blocks_bound rdel_total cap rmax (BLOCK - RDEL_TRAILER) None in
  (data + rdel + 3)%nat.

(** The loop state of [plan_table]. *)
Record PlanAcc := mkAcc {
  a_blocks : nat;
  a_payload : nat;
  a_n : nat;
  a_count : nat;
  a_max_seq : u64;
  a_min_seq : u64;
  a_first : option bytes;
  a_last : option bytes;
}.

Definition plan_step {E} (a : PlanAcc) (e : SstEntry) : result PlanAcc (Error E) :=
  let? (elen, _, _) := entry_sizes e in
  let? (blocks, payload, n) :=
    if entry_fits (a_payload a) (a_n a) elen then Ok (a_blocks a, a_payload a, a_n a)
    else if (a_n a =? 0)%nat then Err TableTooLarge
    else if negb (entry_fits 0 0 elen) then Err TableTooLarge
    else Ok (a_blocks a + 1, 0, 0)%nat in
  Ok (mkAcc blocks (payload + elen) (n + 1) (a_count a + 1)
        (if (a_max_seq a <? se_seq e)%Z then se_seq e else a_max_seq a)
        (if (se_seq e <? a_min_seq a)%Z then se_seq e else a_min_seq a)
        (match a_first a with None => Some (se_key e) | f => f end) (Some (se_key e))).

Fixpoint plan_loop {E} (a : PlanAcc) (es : list SstEntry) : result PlanAcc (Error E) :=
  match es with
  | [] => Ok a
  | e :: es => let? a' := plan_step a e in plan_loop a' es
  end.

Variable KEY_MAX : nat.

(** The closure [bound]. *)
Definition plan_bound {E} (k : option bytes) : result KeyBound (Error E) :=
  match k with
  | None => Ok (EMPTY_BOUND KEY_MAX)
  | Some k =>
      match from_slice KEY_MAX k with
      | Some b => Ok b
      | None => Err (KeyTooLarge (length k) KEY_MAX)
      end
  end.

Definition plan_table {E} (es : list SstEntry) : result TablePlan (Error E) :=
  let? a := plan_loop (mkAcc 0 0 0 0 0 U64_MAX None None) es in
  let blocks := if (0 <? a_n a)%nat then (a_blocks a + 1)%nat else a_blocks a in
  let? first := plan_bound (a_first a) in
  let? last := plan_bound (a_last a) in
  Ok (mkTablePlan blocks (a_count a) (a_max_seq a) (a_min_seq a) first last).

Definition rdel_entry_len (start_len end_len : nat) : nat := (start_len + end_len + 12)%nat.

(** The loop of [plan_rdel_blocks]: the plan so far, [blocks] inside it, and
    [payload]. *)
Fixpoint plan_rdel_loop {E} (p : RdelPlan) (payload : nat) (rs : list RdelEntry)
  : result (RdelPlan * nat) (Error E) :=
  match rs with
  | [] => Ok (p, payload)
  | r :: rs =>
      let first := match rp_first p with None => Some (rd_start r) | f => f end in
      let max_end :=
        if match rp_max_end p with None => true | Some end_ => bytes_ltb end_ (rd_end r) end
        then Some (rd_end r) else rp_max_end p in
      let mx := if (rp_max_seq p <? rd_seq r)%Z then rd_seq r else rp_max_seq p in
      let mn := if (rd_seq r <? rp_min_seq p)%Z then rd_seq r else rp_min_seq p in
      let el := rdel_entry_len (length (rd_start r)) (length (rd_end r)) in
      if (BLOCK <? el + RDEL_TRAILER)%nat then Err TableTooLarge
      else
        let full := (BLOCK <? payload + el + RDEL_TRAILER)%nat in
        plan_rdel_loop
          (mkRdelPlan (if full then rp_blocks p + 1 else rp_blocks p)%nat first max_end mx mn)
          ((if full then 0 else payload) + el)%nat rs
  end.

Definition plan_rdel_blocks {E} (rs : list RdelEntry) : result RdelPlan (Error E) :=
  let? (p, payload) := plan_rdel_loop (mkRdelPlan 0 None None 0 U64_MAX) 0 rs in
  Ok (mkRdelPlan (if (0 <? payload)%nat then rp_blocks p + 1 else rp_blocks p)%nat (rp_first p)
        (rp_max_end p) (rp_max_seq p) (rp_min_seq p)).
End block.

(** [bloom_k]: the multiplications are checked in [u64]. *)
Definition bloom_k (bloom_bits entries : Z) : u8 :=
  let k :=
    if (0 <? entries)%Z && (entries * 1000 <=? U64_MAX)%Z && (bloom_bits * 693 <=? U64_MAX)%Z
    then (bloom_bits * 693 / (entries * 1000))%Z else 1%Z in
  Z.min (Z.max k 1) 30.

(** The two streams a flush reads from the memtable. *)
Definition flush_points (l : list Entry) : list SstEntry :=
  map sst_from (List.filter (fun e => negb (range_del e)) l).

Definition flush_rdels (l : list Entry) : list RdelEntry :=
  map (fun e => mkRdel (key e) (val e) (seq e)) (List.filter range_del l).

(** [Db::flush_tref] of [src/db/flush.rs] *)
Definition flush_tref {E} (KEY_MAX : nat) (node id : u32) (base : u64) (total : nat)
    (plan : TablePlan) (rdel : RdelPlan) : result TableRef (Error E) :=
  let opt k := default (EMPTY_BOUND KEY_MAX) (k ≫= from_slice KEY_MAX) in
  match try_u32 total, try_u32 (tp_entry_count plan) with
  | Some blocks, Some count =>
      Ok (mkRef id base blocks (bound_min (tp_first_key plan) (opt (rp_first rdel)))
            (bound_max (tp_last_key plan) (opt (rp_max_end rdel)))
            (Z.max (tp_max_seq plan) (rp_max_seq rdel)) (Z.min (tp_min_seq plan) (rp_min_seq rdel))
            count (Z.of_nat (rp_blocks rdel)) node 0)
  | _, _ => Err TableTooLarge
  end.

(** ** Greedy packing stays within the bound *)

Definition elen (e : SstEntry) : nat :=
  (ENTRY_HEADER + length (se_key e) + (if se_tombstone e then 0 else length (se_val e)) +
   (if negb (se_tombstone e) && negb (se_expire_at e =? 0)%Z then 8 else 0))%nat.

Definition rlen (r : RdelEntry) : nat := rdel_entry_len (length (rd_start r)) (length (rd_end r)).

(** The entries a table can hold: sizes within the limits, and room for the entry
    and one restart offset in an empty block. *)
Definition packable (BLOCK KEY_MAX VAL_MAX : nat) (e : SstEntry) : Prop :=
  (0 < length (se_key e) <= KEY_MAX)%nat /\
  (length (if se_tombstone e then [] else se_val e) <= VAL_MAX)%nat /\ (elen e + 8 <= BLOCK)%nat.

Lemma entry_sizes_ok {E BLOCK KEY_MAX VAL_MAX} e :
  packable BLOCK KEY_MAX VAL_MAX e ->
  (Z.of_nat KEY_MAX <= U16_MAX)%Z -> (Z.of_nat VAL_MAX <= U16_MAX)%Z ->
  exists kl vl, entry_sizes (E := E) e = Ok (elen e, kl, vl) /\
    kl = Z.of_nat (length (se_key e)) /\
    vl = Z.of_nat (length (if se_tombstone e then [] else se_val e)).
Proof.
  intros (Hk & Hv & _) Hkm Hvm. unfold entry_sizes, try_u16, elen.
  rewrite (proj2 (Nat.eqb_neq _ _)) by lia. rewrite (proj2 (Z.leb_le _ _)) by lia.
  destruct (se_tombstone e); cbn [length] in *; rewrite (proj2 (Z.leb_le _ _)) by lia; eauto.
Qed.

Lemma entry_fits_empty BLOCK n : (n + 8 <= BLOCK)%nat -> entry_fits BLOCK 0 0 n = true.
Proof.
  intros. unfold entry_fits. rewrite (proj2 (Nat.ltb_ge _ _)) by lia.
  change (MAX_ENTRIES_PER_BLOCK <=? 0)%nat with false. apply Nat.leb_le. cbn. lia.
Qed.

(** A block that refuses an entry is full by count or by bytes. *)
Lemma entry_refused BLOCK payload n len emax :
  entry_fits BLOCK payload n len = false -> (len + 8 <= BLOCK)%nat -> (len <= emax)%nat ->
  (emax < BLOCK - MAX_DATA_TAIL)%nat ->
  (MAX_ENTRIES_PER_BLOCK <= n)%nat \/ (BLOCK - MAX_DATA_TAIL - emax + 1 <= payload)%nat.
Proof.
  unfold entry_fits. intros H Hl He Hr. rewrite (proj2 (Nat.ltb_ge _ _)) in H by lia.
  destruct (MAX_ENTRIES_PER_BLOCK <=? n)%nat eqn:En; bool_lia.
  right.
  pose proof (Nat.Div0.div_le_mono n 2047 RESTART_INTERVAL) as Hd.
  change (2047 / RESTART_INTERVAL)%nat with 127%nat in Hd.
  change MAX_ENTRIES_PER_BLOCK with 2048%nat in En. unfold MAX_DATA_TAIL, CRC_LEN in *. lia.
Qed.

Lemma from_slice_some {KEY_MAX} (Hkm : (Z.of_nat KEY_MAX <= U16_MAX)%Z) k :
  (length k <= KEY_MAX)%nat ->
  exists b, from_slice KEY_MAX k = Some b /\ as_slice b = k /\ kb_len b = length k.
Proof.
  intros Hk. unfold from_slice, try_u16. rewrite (proj2 (Nat.ltb_ge _ _)) by lia.
  rewrite (proj2 (Z.leb_le _ _)) by lia. eexists. split; [done |]. split; [| done].
  unfold as_slice. cbn [kb_len kb_bytes]. unfold splice. rewrite take_0, app_nil_l.
  by rewrite take_app_length.
Qed.

Section packing.
  Context {BLOCK KEY_MAX VAL_MAX : nat}.
Let emax := (ENTRY_HEADER + KEY_MAX + VAL_MAX + 8)%nat.
Let room := (BLOCK - MAX_DATA_TAIL)%nat.
  Hypothesis Hkm : (Z.of_nat KEY_MAX <= U16_MAX)%Z.
  Hypothesis Hvm : (Z.of_nat VAL_MAX <= U16_MAX)%Z.

(** What the packing loop keeps: blocks sealed by bytes and by count. *)
Record packed (a : PlanAcc) (total : nat) : Prop := {
  pk_split : exists sb sc, a_blocks a = (sb + sc)%nat /\
    ((emax < room)%nat -> (sb * (room - emax + 1) + a_payload a <= total)%nat) /\
    (sc * MAX_ENTRIES_PER_BLOCK + a_n a <= a_count a)%nat;
  pk_each : (a_blocks a + Nat.min 1 (a_n a) <= a_count a)%nat;
  pk_empty : a_n a = 0%nat -> a_payload a = 0%nat;
}.

Lemma elen_max e : packable BLOCK KEY_MAX VAL_MAX e -> (elen e <= emax)%nat.
Proof.
  intros (Hk & Hv & _). unfold elen, emax. destruct (se_tombstone e); cbn [length] in *;
    cases_goal; lia.
Qed.

Lemma plan_step_packed {E} a e total :
  packed a total -> packable BLOCK KEY_MAX VAL_MAX e ->
  exists a', plan_step (E := E) BLOCK a e = Ok a' /\ packed a' (total + elen e) /\
    a_count a' = (a_count a + 1)%nat /\
    a_max_seq a' = Z.max (a_max_seq a) (se_seq e) /\ a_min_seq a' = Z.min (a_min_seq a) (se_seq e) /\
    a_first a' = Some (default (se_key e) (a_first a)) /\ a_last a' = Some (se_key e).
Proof.
  intros [(sb & sc & Hb & Hby & Hcn) Heach Hempty] Hp. unfold plan_step.
  destruct (entry_sizes_ok (E := E) e Hp Hkm Hvm) as (kl & vl & -> & _).
  pose proof (elen_max e Hp) as Hem. destruct Hp as (Hk & Hv & Hl).
  assert (Z.max (a_max_seq a) (se_seq e) =
          if (a_max_seq a <? se_seq e)%Z then se_seq e else a_max_seq a) as ->
    by (cases_goal; bool_lia).
  assert (Z.min (a_min_seq a) (se_seq e) =
          if (se_seq e <? a_min_seq a)%Z then se_seq e else a_min_seq a) as ->
    by (cases_goal; bool_lia).
  assert (match a_first a with None => Some (se_key e) | f => f end =
          Some (default (se_key e) (a_first a))) as -> by (by destruct (a_first a)).
  destruct (entry_fits BLOCK (a_payload a) (a_n a) (elen e)) eqn:Ef.
  - eexists. split; [reflexivity |]. split; [| done]. split; cbn [a_blocks a_payload a_n a_count]; [| lia | lia].
    exists sb, sc. split_and!; [done | intros H; specialize (Hby H); lia | lia].
  - destruct (a_n a =? 0)%nat eqn:En; bool_lia.
    { rewrite (Hempty En), En, entry_fits_empty in Ef by lia. done. }
    rewrite entry_fits_empty by lia. cbn [negb].
    eexists. split; [reflexivity |]. split; [| done]. split; cbn [a_blocks a_payload a_n a_count]; [| lia | lia].
    destruct (decide (emax < room)%nat) as [Hr | Hr].
    + destruct (entry_refused _ _ _ _ _ Ef Hl Hem Hr) as [Hc | Hc].
      * exists sb, (S sc). split_and!; [lia | intros; specialize (Hby Hr); lia | lia].
      * exists (S sb), sc. split_and!; [lia | intros; specialize (Hby Hr); fold room in Hc; lia | lia].
    + exists (S sb), sc. split_and!; [lia | done | lia].
Qed.

(** The whole loop. *)
Lemma plan_loop_packed {E} es : forall a total,
  packed a total -> Forall (packable BLOCK KEY_MAX VAL_MAX) es ->
  exists a', plan_loop (E := E) BLOCK a es = Ok a' /\
    packed a' (total + sum_list_with elen es) /\ a_count a' = (a_count a + length es)%nat /\
    (a_max_seq a <= a_max_seq a')%Z /\ (a_min_seq a' <= a_min_seq a)%Z /\
    Forall (fun e => a_min_seq a' <= se_seq e <= a_max_seq a')%Z es /\
    a_first a' = match a_first a with None => se_key <$> head es | f => f end /\
    a_last a' = match last es with None => a_last a | Some e => Some (se_key e) end.
Proof.
  induction es as [|e es IH]; intros a total Ha Hes; cbn [plan_loop].
  - exists a. cbn. rewrite !Nat.add_0_r. split_and!; try (done || lia). by destruct (a_first a).
  - apply Forall_cons in Hes as [He Hes].
    destruct (plan_step_packed (E := E) a e total Ha He) as (a1 & -> & H1 & Hc & Hmx & Hmn & Hf & Hl).
    destruct (IH a1 _ H1 Hes) as (a' & -> & H2 & Hc' & Hmx' & Hmn' & Hall & Hf' & Hl').
    exists a'. split; [done |]. cbn [sum_list_with length]. rewrite Nat.add_assoc.
    split_and!; try (done || lia).
    + constructor; [lia | done].
    + rewrite Hf', Hf. by destruct (a_first a).
    + rewrite Hl', last_cons. destruct (last es); [done | exact Hl].
Qed.

(** A planned data section: its blocks, its count, and bounds on its entries. *)
Lemma plan_table_spec {E} es cap total :
  Forall (packable BLOCK KEY_MAX VAL_MAX) es -> (length es <= cap)%nat ->
  (sum_list_with elen es <= total)%nat ->
  exists p, plan_table (E := E) BLOCK KEY_MAX es = Ok p /\
    (tp_data_blocks p <= packed_blocks_bound total cap emax room (Some MAX_ENTRIES_PER_BLOCK))%nat /\
    tp_entry_count p = length es /\
    Forall (fun e => tp_min_seq p <= se_seq e <= tp_max_seq p)%Z es /\
    as_slice (tp_first_key p) = default [] (se_key <$> head es) /\
    as_slice (tp_last_key p) = default [] (se_key <$> last es) /\
    (kb_len (tp_first_key p) = 0%nat <-> es = []) /\ (kb_len (tp_last_key p) = 0%nat <-> es = []).
Proof.
  intros Hes Hn Htot. unfold plan_table.
  destruct (plan_loop_packed (E := E) es (mkAcc 0 0 0 0 0 U64_MAX None None) 0) as
    (a & -> & [(sb & sc & Hb & Hby & Hcn) Heach _] & Hc & _ & _ & Hall & Hf & Hl); [| done |].
  { split; cbn; try lia. exists 0%nat, 0%nat. cbn. lia. }
  cbn [a_count a_first a_last] in *.
  assert (forall k, k ∈ (se_key <$> es) -> (0 < length k <= KEY_MAX)%nat) as Hkeys.
  { intros k (e & -> & He)%list_elem_of_fmap. by apply (proj1 (Forall_forall _ _) Hes e He). }
  assert (forall (k : option bytes), k = None /\ es = [] \/ (exists x, k = Some x /\ x ∈ (se_key <$> es)) ->
    exists b, plan_bound (E := E) KEY_MAX k = Ok b /\ as_slice b = default [] k /\
      (kb_len b = 0%nat <-> es = [])) as Hbound.
  { intros k [[-> ->] | (x & -> & Hx)].
    - exists (EMPTY_BOUND KEY_MAX). done.
    - pose proof (Hkeys x Hx) as Hx'. destruct (from_slice_some Hkm x ltac:(lia)) as (b & Hb1 & Hb2 & Hb3).
      exists b. unfold plan_bound. rewrite Hb1. split_and!; try done. rewrite Hb3.
      split; [lia |]. intros ->. by apply elem_of_nil in Hx. }
  destruct (Hbound (a_first a)) as (bf & -> & Hbf1 & Hbf2).
  { rewrite Hf. destruct es as [|e es']; [by left | right]. exists (se_key e).
    split; [done |]. apply list_elem_of_here. }
  destruct (Hbound (a_last a)) as (bl & -> & Hbl1 & Hbl2).
  { rewrite Hl. destruct (last es) as [e|] eqn:El; [| by apply last_None in El; left].
    right. exists (se_key e). split; [done |]. apply last_Some in El as [l' ->].
    rewrite fmap_app. apply elem_of_app. right. apply list_elem_of_here. }
  eexists. split; [reflexivity |]. cbn [tp_data_blocks tp_entry_count tp_min_seq tp_max_seq tp_first_key tp_last_key].
  split; [| split_and!; try done; try lia].
  - set (bl' := if (0 <? a_n a)%nat then _ else _).
    assert (bl' = a_blocks a + Nat.min 1 (a_n a))%nat as -> by (unfold bl'; cases_goal; bool_lia).
    unfold packed_blocks_bound. destruct (cap =? 0)%nat eqn:Ecap; bool_lia.
    pose proof (Nat.Div0.div_le_mono (length es) cap MAX_ENTRIES_PER_BLOCK Hn) as Hdc.
    assert (sc <= length es / MAX_ENTRIES_PER_BLOCK)%nat as Hsc.
    { apply Nat.div_le_lower_bound; [done |]. lia. }
    destruct (emax <? room)%nat eqn:Er; bool_lia.
    + specialize (Hby Er).
      assert (sb <= total / (room - emax + 1))%nat as Hsb.
      { apply Nat.div_le_lower_bound; lia. }
      cases_goal; bool_lia.
    + cases_goal; bool_lia.
  - rewrite Hbf1, Hf. done.
  - rewrite Hbl1, Hl. by destruct (last es).
Qed.

End packing.

Section rdel_packing.
  Context {BLOCK KEY_MAX : nat}.

(** The range-tombstone section. *)
Definition rdel_packable (r : RdelEntry) : Prop :=
  (0 < length (rd_start r) <= KEY_MAX)%nat /\ (0 < length (rd_end r) <= KEY_MAX)%nat.

Hypothesis Hrdel : (12 + 2 * KEY_MAX + RDEL_TRAILER <= BLOCK)%nat.
Let rmax := (12 + 2 * KEY_MAX)%nat.
Let rroom := (BLOCK - RDEL_TRAILER)%nat.

Lemma plan_rdel_loop_spec {E} rs : forall p payload count total,
  Forall rdel_packable rs ->
  (rp_blocks p * (rroom - rmax + 1) + payload <= total)%nat ->
  (rp_blocks p + Nat.min 1 payload <= count)%nat ->
  exists p' payload', plan_rdel_loop (E := E) BLOCK p payload rs = Ok (p', payload') /\
    (rp_blocks p' * (rroom - rmax + 1) + payload' <= total + sum_list_with rlen rs)%nat /\
    (rp_blocks p' + Nat.min 1 payload' <= count + length rs)%nat /\
    (rp_max_seq p <= rp_max_seq p')%Z /\ (rp_min_seq p' <= rp_min_seq p)%Z /\
    Forall (fun r => rp_min_seq p' <= rd_seq r <= rp_max_seq p')%Z rs /\
    rp_first p' = match rp_first p with None => rd_start <$> head rs | f => f end /\
    (forall x, rp_max_end p' = Some x -> rp_max_end p = Some x \/ x ∈ (rd_end <$> rs)) /\
    (forall y, rp_max_end p = Some y \/ y ∈ (rd_end <$> rs) ->
       exists x, rp_max_end p' = Some x /\ bytes_le y x).
Proof.
  induction rs as [|r rs IH]; intros p payload count total Hrs Hb Hc; cbn [plan_rdel_loop].
  - exists p, payload. cbn. rewrite !Nat.add_0_r. split_and!; try (done || lia).
    + by destruct (rp_first p).
    + by left.
    + intros y [Hy | Hy%elem_of_nil]; [| done]. exists y. split; [done | reflexivity].
  - apply Forall_cons in Hrs as [[Hs He] Hrs].
    set (el := rdel_entry_len _ _). assert (el = rlen r) as Hel by done.
    assert (el <= rmax)%nat as Hmax by (unfold el, rdel_entry_len, rmax; lia).
    assert (0 < el)%nat as Hpos by (unfold el, rdel_entry_len; lia).
    rewrite (proj2 (Nat.ltb_ge BLOCK (el + RDEL_TRAILER))) by (unfold rmax in Hmax; lia).
    set (full := (BLOCK <? payload + el + RDEL_TRAILER)%nat).
    set (p1 := mkRdelPlan _ _ _ _ _).
    destruct (IH p1 ((if full then 0 else payload) + el)%nat (count + 1)%nat (total + el)%nat Hrs)
      as (p' & pl' & -> & H1 & H2 & H3 & H4 & H5 & H6 & H7 & H8).
    { unfold p1, full. cbn [rp_blocks]. destruct (BLOCK <? _)%nat eqn:Ef; bool_lia. }
    { unfold p1, full. cbn [rp_blocks]. destruct (BLOCK <? _)%nat eqn:Ef; bool_lia. }
    exists p', pl'. split; [done |]. cbn [sum_list_with length]. rewrite <- Hel.
    assert (rp_max_seq p <= rp_max_seq p1 /\ rd_seq r <= rp_max_seq p1)%Z
      by (unfold p1; cbn; cases_goal; bool_lia).
    assert (rp_min_seq p1 <= rp_min_seq p /\ rp_min_seq p1 <= rd_seq r)%Z
      by (unfold p1; cbn; cases_goal; bool_lia).
    split_and!; try (done || lia).
    + constructor; [lia | done].
    + rewrite H6. unfold p1. cbn [rp_first]. by destruct (rp_first p).
    + intros x Hx. destruct (H7 x Hx) as [Hp1 | Hx']; [| right; by apply list_elem_of_further].
      unfold p1 in Hp1. cbn [rp_max_end] in Hp1. destruct (match rp_max_end p with Some _ => _ | None => _ end);
        [| by left]. injection Hp1 as <-. right. apply list_elem_of_here.
    + assert (exists z, rp_max_end p1 = Some z /\ bytes_le (rd_end r) z /\
                forall y, rp_max_end p = Some y -> bytes_le y z) as (z & Hz & Hrz & Hyz).
      { unfold p1. cbn [rp_max_end]. destruct (rp_max_end p) as [m|] eqn:Em.
        - destruct (bytes_ltb m (rd_end r)) eqn:Elt.
          + eexists. split; [done |]. split; [reflexivity |]. intros y [= <-].
            apply bytes_ltb_spec in Elt. by apply bytes_lt_le.
          + exists m. split; [done |]. split; [| intros y [= <-]; reflexivity].
            apply bytes_not_lt. intros Hlt. apply bytes_ltb_spec in Hlt. congruence.
        - eexists. split; [done |]. split; [reflexivity | done]. }
      intros y Hy. assert (exists z', (rp_max_end p1 = Some z' \/ z' ∈ (rd_end <$> rs)) /\ bytes_le y z')
        as (z' & Hz' & Hle).
      { destruct Hy as [Hy | Hy]; [by exists z; auto |].
        rewrite fmap_cons in Hy. apply elem_of_cons in Hy as [-> | Hy]; [by exists z; auto |].
        exists y. split; [by right | reflexivity]. }
      destruct (H8 z' Hz') as (x & Hx & Hx'). exists x. split; [done |]. by etrans.
Qed.
End rdel_packing.

Lemma plan_rdel_blocks_spec {E BLOCK KEY_MAX} rs cap total :
  (12 + 2 * KEY_MAX + RDEL_TRAILER <= BLOCK)%nat ->
  Forall (rdel_packable (KEY_MAX := KEY_MAX)) rs -> (length rs <= cap)%nat ->
  (sum_list_with rlen rs <= total)%nat ->
  exists p, plan_rdel_blocks (E := E) BLOCK rs = Ok p /\
    (rp_blocks p <= packed_blocks_bound total cap (12 + 2 * KEY_MAX) (BLOCK - RDEL_TRAILER) None)%nat /\
    Forall (fun r => rp_min_seq p <= rd_seq r <= rp_max_seq p)%Z rs /\
    rp_first p = rd_start <$> head rs /\
    (forall x, rp_max_end p = Some x -> x ∈ (rd_end <$> rs)) /\
    (forall y, y ∈ (rd_end <$> rs) -> exists x, rp_max_end p = Some x /\ bytes_le y x).
Proof.
  intros Hrdel Hrs Hn Htot. unfold plan_rdel_blocks.
  destruct (plan_rdel_loop_spec (E := E) Hrdel rs (mkRdelPlan 0 None None 0 U64_MAX) 0 0 0 Hrs
    ltac:(cbn; lia) ltac:(cbn; lia)) as (p & pl & -> & H1 & H2 & _ & _ & H5 & H6 & H7 & H8).
  eexists. split; [reflexivity |]. cbn [rp_blocks rp_min_seq rp_max_seq rp_first rp_max_end].
  split_and!; try done.
  - set (bl := if (0 <? pl)%nat then _ else _).
    assert (bl = rp_blocks p + Nat.min 1 pl)%nat as -> by (unfold bl; cases_goal; bool_lia).
    unfold packed_blocks_bound. destruct (cap =? 0)%nat eqn:Ecap; bool_lia.
    destruct (12 + 2 * KEY_MAX <? BLOCK - RDEL_TRAILER)%nat eqn:Er; bool_lia.
    + assert (rp_blocks p <= total / (BLOCK - RDEL_TRAILER - (12 + 2 * KEY_MAX) + 1))%nat.
      { apply Nat.div_le_lower_bound; lia. }
      cases_goal; bool_lia.
    + cases_goal; bool_lia.
  - intros x Hx. by destruct (H7 x Hx) as [? | ?].
  - intros y Hy. apply H8. by right.
Qed.

(** ** A flush fits its slot *)

Definition entry_ok (KEY_MAX VAL_MAX : nat) (e : Entry) : Prop :=
  (0 < length (key e) <= KEY_MAX)%nat /\
  if range_del e then bytes_lt (key e) (val e) /\ (length (val e) <= KEY_MAX)%nat
  else (length (val e) <= VAL_MAX)%nat.

Lemma filled_entries {E CAP ARENA KEY_MAX VAL_MAX} t log :
  consts_ok CAP ARENA KEY_MAX VAL_MAX -> filled E CAP ARENA KEY_MAX VAL_MAX t log ->
  Forall (entry_ok KEY_MAX VAL_MAX) log.
Proof.
  intros Hc. induction 1 as [| | t log m t' _ IH _ Hrun]; [constructor.. |].
  constructor; [| done]. apply (run_mutation_ok Hc) in Hrun as ([Hk Hv] & _).
  split; [done |]. by destruct m.
Qed.

(** Entries ascending by key: the first and last bound the others. *)
Lemma before_le a b : before a b -> bytes_le (key a) (key b).
Proof. unfold before. rewrite bytes_le_lteq. tauto. Qed.

Lemma StronglySorted_filter {A} (R : A -> A -> Prop) (f : A -> bool) l :
  StronglySorted R l -> StronglySorted R (List.filter f l).
Proof.
  induction 1 as [|x l Hs IH Hx]; cbn; [constructor |]. destruct (f x); [| done].
  constructor; [done |]. apply Forall_forall. intros y [Hy _]%list_elem_of_In%filter_In.
  apply list_elem_of_In in Hy. by apply (proj1 (Forall_forall _ _) Hx).
Qed.

Lemma sorted_bounds l x :
  StronglySorted before l -> x ∈ l ->
  (forall h, head l = Some h -> bytes_le (key h) (key x)) /\
  (forall z, last l = Some z -> bytes_le (key x) (key z)).
Proof.
  intros Hs Hx. split.
  - destruct Hs as [|h l Hs Hh]; [by apply elem_of_nil in Hx |]. intros ? [= <-].
    apply elem_of_cons in Hx as [-> | Hx]; [reflexivity |].
    by apply before_le, (proj1 (Forall_forall _ _) Hh).
  - intros z [l' ->]%last_Some. apply elem_of_app in Hx as [Hx | ->%list_elem_of_singleton];
      [| reflexivity].
    induction l' as [|y l' IH]; [by apply elem_of_nil in Hx |].
    apply StronglySorted_inv in Hs as [Hs Hy]. apply elem_of_cons in Hx as [-> | Hx]; [| by apply IH].
    apply before_le, (proj1 (Forall_forall _ _) Hy). apply elem_of_app. right. by apply list_elem_of_singleton.
Qed.

Lemma bound_min_le a b k :
  (kb_len a <> 0%nat /\ bytes_le (as_slice a) k) \/ (kb_len b <> 0%nat /\ bytes_le (as_slice b) k) ->
  bytes_le (as_slice (bound_min a b)) k.
Proof.
  intros H. unfold bound_min.
  destruct (kb_len a =? 0)%nat eqn:Ea, (kb_len b =? 0)%nat eqn:Eb; bool_lia; try (intuition congruence).
  destruct (bytes_ltb (as_slice b) (as_slice a)) eqn:El.
  - apply bytes_ltb_spec, bytes_lt_le in El. destruct H as [[_ H] | [_ H]]; [by etrans | done].
  - apply bytes_ltb_ge in El. destruct H as [[_ H] | [_ H]]; [done | by etrans].
Qed.

Lemma bound_max_ge a b k :
  (kb_len a <> 0%nat /\ bytes_le k (as_slice a)) \/ (kb_len b <> 0%nat /\ bytes_le k (as_slice b)) ->
  bytes_le k (as_slice (bound_max a b)).
Proof.
  intros H. unfold bound_max.
  destruct (kb_len a =? 0)%nat eqn:Ea, (kb_len b =? 0)%nat eqn:Eb; bool_lia; try (intuition congruence).
  destruct (bytes_ltb (as_slice a) (as_slice b)) eqn:El.
  - apply bytes_ltb_spec, bytes_lt_le in El. destruct H as [[_ H] | [_ H]]; [by etrans | done].
  - apply bytes_ltb_ge in El. destruct H as [[_ H] | [_ H]]; [done | by etrans].
Qed.

Lemma filter_len {A} (f : A -> bool) l : (length (List.filter f l) <= length l)%nat.
Proof. induction l as [|x l IH]; cbn; [done |]. destruct (f x); cbn; lia. Qed.

Lemma filter_bytes f l : (log_bytes (List.filter f l) <= log_bytes l)%nat.
Proof. induction l as [|x l IH]; cbn; [done |]. destruct (f x); cbn; unfold log_bytes in *; lia. Qed.

Lemma log_bytes_perm l l' : l ≡ₚ l' -> log_bytes l = log_bytes l'.
Proof. unfold log_bytes. induction 1; cbn; lia. Qed.

Section flushing.
  Context {E : Type} {BLOCK CAP ARENA KEY_MAX VAL_MAX : nat}.
  Hypothesis Hconsts : consts_ok CAP ARENA KEY_MAX VAL_MAX.
  Hypothesis Hrec : (23 + KEY_MAX + VAL_MAX <= BLOCK)%nat.

(** What the log accepted: a record with an expiry carries it in its block. *)
Definition logged_in_block (e : Entry) : Prop :=
  range_del e = false -> expire_at e <> 0%Z ->
  (31 + length (key e) + length (val e) <= BLOCK)%nat.

Lemma point_packable e :
  entry_ok KEY_MAX VAL_MAX e -> logged_in_block e -> range_del e = false ->
  packable BLOCK KEY_MAX VAL_MAX (sst_from e) /\
  (elen (sst_from e) <= length (key e) + length (val e) + (ENTRY_HEADER + 8))%nat.
Proof.
  intros [Hk Hv] Hl Hr. rewrite Hr in Hv. specialize (Hl Hr).
  unfold packable, elen, sst_from, ENTRY_HEADER. cbn [se_key se_val se_tombstone se_expire_at].
  destruct (tombstone e); cbn [negb andb length]; [lia |].
  destruct (expire_at e =? 0)%Z eqn:Ex; cbn [negb]; bool_lia.
Qed.

Lemma points_total l :
  Forall (entry_ok KEY_MAX VAL_MAX) l -> Forall logged_in_block l ->
  Forall (packable BLOCK KEY_MAX VAL_MAX) (flush_points l) /\
  (sum_list_with elen (flush_points l) <=
     log_bytes l + length l * (ENTRY_HEADER + 8))%nat.
Proof.
  unfold flush_points. induction l as [|e l IH]; intros Hok Hlog; [split; [constructor | cbn; lia] |].
  apply Forall_cons in Hok as [He Hok]. apply Forall_cons in Hlog as [Hb Hlog].
  destruct (IH Hok Hlog) as [H1 H2]. cbn [List.filter length].
  change (log_bytes (e :: l)) with (length (key e) + length (val e) + log_bytes l)%nat.
  destruct (range_del e) eqn:Er; cbn [negb]; [split; [done | lia] |].
  destruct (point_packable e He Hb Er) as [Hp Hl]. cbn [map sum_list_with].
  split; [by constructor | lia].
Qed.

Lemma rdels_total l :
  Forall (entry_ok KEY_MAX VAL_MAX) l ->
  Forall (rdel_packable (KEY_MAX := KEY_MAX)) (flush_rdels l) /\
  (sum_list_with rlen (flush_rdels l) <= log_bytes l + length l * 12)%nat.
Proof.
  unfold flush_rdels. induction l as [|e l IH]; intros Hok; [split; [constructor | cbn; lia] |].
  apply Forall_cons in Hok as [[Hk Hv] Hok]. destruct (IH Hok) as [H1 H2]. cbn [List.filter length].
  change (log_bytes (e :: l)) with (length (key e) + length (val e) + log_bytes l)%nat.
  destruct (range_del e) eqn:Er; cbn [map sum_list_with]; [| split; [done | lia]].
  destruct Hv as [Hlt Hv]. pose proof (length_above _ _ Hlt). split.
  - constructor; [| done]. split; cbn; lia.
  - unfold rlen at 1, rdel_entry_len. cbn [rd_start rd_end]. lia.
Qed.
End flushing.

(** The range of keys and sequence numbers a table ref promises for an entry. *)
Definition ref_spans (t : TableRef) (e : Entry) : Prop :=
  (t_min_seq t <= seq e <= t_max_seq t)%Z /\
  bytes_le (as_slice (first_key t)) (key e) /\ bytes_le (key e) (as_slice (last_key t)) /\
  (range_del e = true -> bytes_le (val e) (as_slice (last_key t))).

Lemma in_points l e : e ∈ l -> range_del e = false -> sst_from e ∈ flush_points l.
Proof.
  intros He Hr. unfold flush_points. apply list_elem_of_fmap. exists e. split; [done |].
  apply list_elem_of_In, filter_In. split; [by apply list_elem_of_In | by rewrite Hr].
Qed.

Lemma in_rdels l e : e ∈ l -> range_del e = true -> mkRdel (key e) (val e) (seq e) ∈ flush_rdels l.
Proof.
  intros He Hr. unfold flush_rdels. apply list_elem_of_fmap. exists e. split; [done |].
  apply list_elem_of_In, filter_In. split; [by apply list_elem_of_In | done].
Qed.

Section spanning.
  Context {E : Type} {KEY_MAX : nat}.
  Hypothesis Hkm : (Z.of_nat KEY_MAX <= U16_MAX)%Z.

Definition rdel_bound (k : option bytes) : KeyBound :=
  default (EMPTY_BOUND KEY_MAX) (k ≫= from_slice KEY_MAX).

Lemma rdel_bound_some x :
  (0 < length x <= KEY_MAX)%nat -> kb_len (rdel_bound (Some x)) <> 0%nat /\ as_slice (rdel_bound (Some x)) = x.
Proof.
  intros Hx. unfold rdel_bound. cbn.
  destruct (from_slice_some Hkm x ltac:(lia)) as (b & -> & Hb & Hl). cbn. split; [lia | done].
Qed.

(** A ref built from plans with these bounds spans the entries. *)
Lemma tref_spans l (p : TablePlan) (rp : RdelPlan) t :
  StronglySorted before l ->
  Forall (fun x => tp_min_seq p <= se_seq x <= tp_max_seq p)%Z (flush_points l) ->
  Forall (fun r => rp_min_seq rp <= rd_seq r <= rp_max_seq rp)%Z (flush_rdels l) ->
  as_slice (tp_first_key p) = default [] (se_key <$> head (flush_points l)) ->
  as_slice (tp_last_key p) = default [] (se_key <$> last (flush_points l)) ->
  (kb_len (tp_first_key p) = 0%nat <-> flush_points l = []) ->
  (kb_len (tp_last_key p) = 0%nat <-> flush_points l = []) ->
  Forall (rdel_packable (KEY_MAX := KEY_MAX)) (flush_rdels l) ->
  Forall (fun r => bytes_le (rd_start r) (rd_end r)) (flush_rdels l) ->
  rp_first rp = rd_start <$> head (flush_rdels l) ->
  (forall x, rp_max_end rp = Some x -> x ∈ (rd_end <$> flush_rdels l)) ->
  (forall y, y ∈ (rd_end <$> flush_rdels l) -> exists x, rp_max_end rp = Some x /\ bytes_le y x) ->
  first_key t = bound_min (tp_first_key p) (rdel_bound (rp_first rp)) ->
  last_key t = bound_max (tp_last_key p) (rdel_bound (rp_max_end rp)) ->
  t_max_seq t = Z.max (tp_max_seq p) (rp_max_seq rp) ->
  t_min_seq t = Z.min (tp_min_seq p) (rp_min_seq rp) ->
  Forall (ref_spans t) l.
Proof.
  intros Hs Hps Hrs Hf Hl Hf0 Hl0 Hrp Hrle Hrf Hre1 Hre2 Et1 Et2 Et3 Et4. apply Forall_forall.
  intros e He. unfold ref_spans. rewrite Et1, Et2, Et3, Et4. destruct (range_del e) eqn:Er.
  - pose proof (in_rdels l e He Er) as Hin.
    pose proof (proj1 (Forall_forall _ _) Hrs _ Hin) as Hq. cbn in Hq.
    pose proof (proj1 (Forall_forall _ _) Hrle _ Hin) as Hle. cbn in Hle.
    destruct (Hre2 (val e)) as (x & Hx & Hvx); [by apply (list_elem_of_fmap_2 rd_end) in Hin |].
    assert (0 < length x <= KEY_MAX)%nat as Hxl.
    { destruct (proj1 (list_elem_of_fmap _ _ _) (Hre1 x Hx)) as (r & -> & Hr).
      by apply (proj1 (Forall_forall _ _) Hrp). }
    destruct (rdel_bound_some x Hxl) as [Hx0 Hxs].
    assert (bytes_le (val e) (as_slice (bound_max (tp_last_key p) (rdel_bound (rp_max_end rp))))) as Hv.
    { apply bound_max_ge. right. rewrite Hx, Hxs. done. }
    split_and!; [lia | lia | | by etrans | done].
    apply bound_min_le. right. rewrite Hrf.
    destruct (flush_rdels l) as [|h rs] eqn:Efr; [by apply elem_of_nil in Hin |]. cbn [head fmap option_fmap option_map].
    destruct (rdel_bound_some (rd_start h)) as [H0 ->]; [by apply Forall_cons in Hrp as [[? ?] _] |].
    split; [done |]. unfold flush_rdels in Efr.
    pose proof (StronglySorted_filter before range_del l Hs) as Hsf.
    assert (e ∈ List.filter range_del l) as Hef
      by (apply list_elem_of_In, filter_In; split; [by apply list_elem_of_In | done]).
    destruct (List.filter range_del l) as [|e0 l0] eqn:El0; [done |]. cbn [map] in Efr. injection Efr as <- _.
    by apply (proj1 (sorted_bounds _ e Hsf Hef) e0).
  - pose proof (in_points l e He Er) as Hin.
    pose proof (proj1 (Forall_forall _ _) Hps _ Hin) as Hq. cbn in Hq.
    pose proof (StronglySorted_filter before (fun x => negb (range_del x)) l Hs) as Hsf.
    assert (e ∈ List.filter (fun x => negb (range_del x)) l) as Hef
      by (apply list_elem_of_In, filter_In; split; [by apply list_elem_of_In | by rewrite Er]).
    assert (flush_points l <> []) as Hne by (intros H0; rewrite H0 in Hin; by apply elem_of_nil in Hin).
    destruct (sorted_bounds _ e Hsf Hef) as [Hb1 Hb2].
    split_and!; [lia | lia | apply bound_min_le | apply bound_max_ge | done]; left.
    + split; [by rewrite Hf0 |]. rewrite Hf. unfold flush_points.
      destruct (List.filter _ l) as [|e0 l0]; [by apply elem_of_nil in Hef |]. cbn. by apply Hb1.
    + split; [by rewrite Hl0 |]. rewrite Hl. unfold flush_points.
      destruct (last (List.filter _ l)) as [z|] eqn:Ez;
        [| apply last_None in Ez; rewrite Ez in Hef; by apply elem_of_nil in Hef].
      change (map sst_from) with (fmap (M := list) sst_from). rewrite fmap_last, Ez. cbn. by apply Hb2.
Qed.
End spanning.

(** Planning a flush, whatever filled the memtable. *)
Lemma flush_plan_spec {E} BLOCK {CAP ARENA KEY_MAX VAL_MAX} t log node id base
  (Hconsts : consts_ok CAP ARENA KEY_MAX VAL_MAX)
  (Hf : filled E CAP ARENA KEY_MAX VAL_MAX t log)
  (Hrec : (23 + KEY_MAX + VAL_MAX <= BLOCK)%nat)
  (Hrdel : (12 + 2 * KEY_MAX + RDEL_TRAILER <= BLOCK)%nat)
  (Hlog : Forall (logged_in_block (BLOCK := BLOCK)) log)
  (Hslot : (Z.of_nat (max_flush_blocks BLOCK CAP ARENA KEY_MAX VAL_MAX) <= U32_MAX)%Z) :
  exists p rp tref,
    plan_table (E := E) BLOCK KEY_MAX (flush_points (iter t)) = Ok p /\
    plan_rdel_blocks (E := E) BLOCK (flush_rdels (iter t)) = Ok rp /\
    let total := (rp_blocks rp + tp_data_blocks p + 3)%nat in
    (total <= max_flush_blocks BLOCK CAP ARENA KEY_MAX VAL_MAX)%nat /\
    flush_tref (E := E) KEY_MAX node id base total p rp = Ok tref /\
    block_count tref = Z.of_nat total /\ Forall (ref_spans tref) log.
Proof.
  destruct (filled_inv Hconsts t log Hf) as (Hw & Hp & Hb).
  pose proof (filled_entries t log Hconsts Hf) as Hok. destruct Hconsts as [_ Har [_ Hkm] Hvm].
  rewrite <- Hp in Hok. rewrite <- Hp in Hlog.
  assert (length (iter t) <= CAP)%nat as Hcap by (rewrite (length_iter t Hw); apply Hw).
  assert (log_bytes (iter t) = arena_len t) as Hbytes
    by (rewrite Hb; by apply log_bytes_perm).
  pose proof (wf_used _ _ _ Hw) as Hused.
  destruct (points_total Hrec (iter t) Hok Hlog) as [Hpk Hpt].
  destruct (rdels_total (VAL_MAX := VAL_MAX) Hrec (iter t) Hok) as [Hrk Hrt].
  assert (length (flush_points (iter t)) <= length (iter t))%nat as Hpl
    by (unfold flush_points; rewrite length_map; apply filter_len).
  assert (length (flush_rdels (iter t)) <= length (iter t))%nat as Hrl
    by (unfold flush_rdels; rewrite length_map; apply filter_len).
  destruct (plan_table_spec (E := E) Hkm Hvm (flush_points (iter t)) CAP (ARENA + CAP * (ENTRY_HEADER + 8))
    Hpk ltac:(lia) ltac:(nia)) as (p & -> & Hp1 & Hp2 & Hp3 & Hp4 & Hp5 & Hp6 & Hp7).
  destruct (plan_rdel_blocks_spec (E := E) (flush_rdels (iter t)) CAP (ARENA + CAP * 12)
    Hrdel Hrk ltac:(lia) ltac:(nia)) as (rp & -> & Hr1 & Hr2 & Hr3 & Hr4 & Hr5).
  assert (rp_blocks rp + tp_data_blocks p + 3 <= max_flush_blocks BLOCK CAP ARENA KEY_MAX VAL_MAX)%nat
    as Htot by (unfold max_flush_blocks; lia).
  assert (length (iter t) <= log_bytes (iter t))%nat as Hcount.
  { clear -Hok. unfold log_bytes. induction Hok as [|e l [He _] _ IH]; cbn; lia. }
  eexists p, rp, _. cbv zeta. split_and!; [done | done | done | | |]; unfold flush_tref, try_u32.
  - rewrite (proj2 (Z.leb_le _ U32_MAX)) by lia. rewrite (proj2 (Z.leb_le _ U32_MAX)) by lia.
    reflexivity.
  - done.
  - rewrite <- Hp. eapply (tref_spans Hkm _ p rp); try done; [apply Hw |].
    apply Forall_forall. intros r (e & -> & He)%list_elem_of_fmap.
    apply list_elem_of_In, filter_In in He as [He Hr]. apply list_elem_of_In in He.
    pose proof (proj1 (Forall_forall _ _) Hok e He) as [_ Hv]. rewrite Hr in Hv.
    cbn. apply bytes_lt_le, Hv.
Qed.

(** C32 A flush always fits.  Whatever mutations filled the memtable, as long as
    each was accepted by the log, both sections of its table can be planned, the
    planned table needs at most [max_flush_blocks] blocks (the size [open] demands
    of a slot), and the ref a flush builds spans the keys and sequence numbers of
    every entry, range ends included, so that no later read prunes the table by
    mistake. *)
Theorem flush_fits_slot {E} BLOCK {CAP ARENA KEY_MAX VAL_MAX} t log node id base
  (Hconsts : consts_ok CAP ARENA KEY_MAX VAL_MAX)
  (Hf : filled E CAP ARENA KEY_MAX VAL_MAX t log)
  (Hrec : (23 + KEY_MAX + VAL_MAX <= BLOCK)%nat)
  (Hrdel : (12 + 2 * KEY_MAX + RDEL_TRAILER <= BLOCK)%nat)
  (Hlog : Forall (logged_in_block (BLOCK := BLOCK)) log)
  (Hslot : (Z.of_nat (max_flush_blocks BLOCK CAP ARENA KEY_MAX VAL_MAX) <= U32_MAX)%Z) :
  exists p rp tref,
    plan_table (E := E) BLOCK KEY_MAX (flush_points (iter t)) = Ok p /\
    plan_rdel_blocks (E := E) BLOCK (flush_rdels (iter t)) = Ok rp /\
    let total := (rp_blocks rp + tp_data_blocks p + 3)%nat in
    (total <= max_flush_blocks BLOCK CAP ARENA KEY_MAX VAL_MAX)%nat /\
    flush_tref (E := E) KEY_MAX node id base total p rp = Ok tref /\
    block_count tref = Z.of_nat total /\ Forall (ref_spans tref) log.
Proof. by eapply flush_plan_spec. Qed.

Lemma flush_fits_slot_witness :
  exists p rp tref,
    plan_table (E := unit) 64 4 (flush_points (iter ex_table)) = Ok p /\
    plan_rdel_blocks (E := unit) 64 (flush_rdels (iter ex_table)) = Ok rp /\
    flush_tref (E := unit) 4 0 1 0 (rp_blocks rp + tp_data_blocks p + 3) p rp = Ok tref /\
    block_count tref = 5%Z.
Proof.
  destruct (flush_fits_slot (E := unit) 64 ex_table _ 0 1 0 ex_consts ex_filled) as
    (p & rp & tref & H1 & H2 & _ & H4 & H5 & _);
    [lia | unfold RDEL_TRAILER; lia | repeat constructor; by intros ? ?; cbn; lia | by vm_compute |].
  exists p, rp, tref. split; [exact H1 |]. split; [exact H2 |]. split; [exact H4 |].
  rewrite H5. clear -H1 H2. vm_compute in H1, H2. injection H1 as <-. injection H2 as <-. reflexivity.
Defined.
