(* ===== verification/SstWriter.v ===== *)
(** * Writing tables: [src/sstable.rs]

    The bloom filter, the sealing of one block (restart tail, trial compression,
    checksum, one device write) and the incremental [TableWriter] with its index.
    Block counts are [nat]; block ids are [u64] values with checked addition.  A
    compression scratch is passed through, [None] storing every block raw. *)

From stdpp Require Import base numbers list.
From Stdlib Require Import ZArith Lia.
From S2P Require Import Prelude Device Crc Compress Wal Manifest SstPlan.

(** ** The bloom filter *)

(** [u64::rotate_left] *)
Definition rotate_left (x : u64) (n : Z) : u64 :=
  wrap 64 (Z.lor (Z.shiftl x n) (Z.shiftr x (64 - n))).

Definition FX_SEED : u64 := 0x517cc1b727220a95.

Definition fx_fold (key : bytes) : u64 :=
  fold_left (fun h b => wrap 64 (wrap 64 (rotate_left h 5 + b) * FX_SEED)) key FX_SEED.

Definition splitmix64 (x : u64) : u64 :=
  let x := wrap 64 (x + 0x9e3779b97f4a7c15) in
  let z := x in
  let z := wrap 64 (Z.lxor z (Z.shiftr z 30) * 0xbf58476d1ce4e5b9) in
  let z := wrap 64 (Z.lxor z (Z.shiftr z 27) * 0x94d049bb133111eb) in
  Z.lxor z (Z.shiftr z 31).

Definition probe_positions (key : bytes) (k : u8) (bits : u64) : list Z :=
  let h1 := splitmix64 (fx_fold key) in
  let h2 := splitmix64 (Z.lxor h1 0x9e3779b97f4a7c15) in
  map (fun i => (wrap 64 (h1 + wrap 64 (Z.of_nat i * h2)) mod bits)%Z) (seq 0 (Z.to_nat k)).

(** [bloom[p / 8] |= 1 << (p % 8)] *)
Definition set_probe (bloom : bytes) (p : Z) : bytes :=
  let i := Z.to_nat (p / 8) in
  <[i := Z.lor (nth i bloom 0%Z) (Z.shiftl 1 (p mod 8))]> bloom.

Definition bloom_add (bloom key : bytes) (k : u8) : bytes :=
  let bits := (Z.of_nat (length bloom) * 8)%Z in
  if (bits =? 0)%Z then bloom
  else fold_left set_probe (probe_positions key k bits) bloom.

(** [bloom[p / 8] >> (p % 8) & 1 == 1] *)
Definition probe_set (bloom : bytes) (p : Z) : bool :=
  (Z.land (Z.shiftr (nth (Z.to_nat (p / 8)) bloom 0%Z) (p mod 8)) 1 =? 1)%Z.

Definition bloom_maybe_contains (bloom key : bytes) (k : u8) : bool :=
  let bits := (Z.of_nat (length bloom) * 8)%Z in
  if (bits =? 0)%Z then true
  else forallb (probe_set bloom) (probe_positions key k bits).

(** ** Sealing a block *)

(** Little-endian bytes of ["hrtsst02"]. *)
Definition SSTABLE_MAGIC : u64 := from_le [104; 114; 116; 115; 115; 116; 48; 50]%Z.

(** [buf[from..to].fill(0)] *)
Definition fill_zero (from to : nat) (buf : bytes) : bytes :=
  splice from (replicate (to - from) 0%Z) buf.

Section writer.
  Context {D E : Type} `{BlockDevice D E}.

Definition body_end : nat := BLOCK - CRC_LEN.

(** The restart tail, right-aligned before the checksum; plain padding without one. *)
Definition seal_tail (buf : bytes) (payload_len : nat) (restarts : option (list u16))
  : bytes * result unit (Error E) :=
  match restarts with
  | None => (fill_zero payload_len body_end buf, Ok tt)
  | Some rs =>
      let tail_len := (length rs * 2 + 2)%nat in
      if (body_end <? tail_len)%nat then (buf, Err TableTooLarge)
      else
        let rstart := (body_end - tail_len)%nat in
        if (rstart <? payload_len)%nat then (buf, Err TableTooLarge)
        else
          let buf := fill_zero payload_len rstart buf in
          let buf := splice rstart (concat (map (to_le 2) rs)) buf in
          match try_u16 (length rs) with
          | None => (buf, Err TableTooLarge)
          | Some rc => (splice (rstart + length rs * 2) (to_le 2 rc) buf, Ok tt)
          end
  end.

(** Trial compression of a data block: kept when [compress] accepts. *)
Definition seal_compress (buf : bytes) (restarts : option (list u16)) (cs : option scratch)
  : bytes * option scratch :=
  match restarts, cs with
  | Some _, Some s =>
      match compress BLOCK s (take body_end buf) with
      | (s, None) => (buf, Some s)
      | (s, Some clen) =>
          let buf := splice 0 (take clen (out s)) buf in
          let buf := fill_zero clen body_end buf in
          let flagged := Z.lor 0x8000 (Z.land (wrap 16 (Z.of_nat clen)) 0x7FFF) in
          (splice (body_end - 2) (to_le 2 flagged) buf, Some s)
      end
  | _, _ => (buf, cs)
  end.

Definition seal_block (d : D) (id : u64) (buf : bytes) (payload_len : nat)
  (restarts : option (list u16)) (cs : option scratch)
  : D * bytes * option scratch * result unit (Error E) :=
  match seal_tail buf payload_len restarts with
  | (buf, Err e) => (d, buf, cs, Err e)
  | (buf, Ok _) =>
      let '(buf, cs) := seal_compress buf restarts cs in
      let buf := splice body_end (to_le 4 (crc32 (take body_end buf))) buf in
      match write_block d id buf with
      | (d, Err e) => (d, buf, cs, Err (Device e))
      | (d, Ok _) => (d, buf, cs, Ok tt)
      end
  end.

(** ** The index *)

(** [(index, index_len)] with one entry appended. *)
Definition append_index (index : bytes) (index_len : nat) (first_key : option bytes)
  (block_id max_seq : u64) : result (bytes * nat) (Error E) :=
  match first_key with
  | None => Err TableTooLarge
  | Some fk =>
      match try_u16 (length fk) with
      | None => Err TableTooLarge
      | Some kl =>
          let elen := (2 + length fk + 8 + 8)%nat in
          if (BLOCK - CRC_LEN <? index_len + elen)%nat then Err TableTooLarge
          else
            let o := index_len in
            let index := splice o (to_le 2 kl) index in
            let index := splice (o + 2) fk index in
            let index := splice (o + 2 + length fk) (to_le 8 block_id) index in
            let index := splice (o + 10 + length fk) (to_le 8 max_seq) index in
            Ok (index, o + elen)%nat
      end
  end.

(** ** The table writer *)

Inductive PushOutcome := Buffered | BlockSealed.

Record FinishedTable := mkFinished {
  ft_data_blocks : nat;
  ft_entry_count : nat;
  ft_max_seq : u64;
  ft_min_seq : u64;
  ft_first_key : KeyBound;
  ft_last_key : KeyBound;
}.

Record TableWriter := mkTW {
  tw_base : u64;
  tw_k : u8;
  tw_data : bytes;
  tw_index : bytes;
  tw_bloom : bytes;
  tw_restarts : list u16;
  tw_payload : nat;
  tw_n : nat;
  tw_nrestarts : nat;
  tw_index_len : nat;
  tw_data_blocks : nat;
  tw_entry_count : nat;
  tw_block_first : bytes;
  tw_block_first_len : nat;
  tw_block_max_seq : u64;
  tw_first_key : bytes;
  tw_first_len : nat;
  tw_last_key : bytes;
  tw_last_len : nat;
  tw_max_seq : u64;
  tw_min_seq : u64;
  tw_data_limit : u64;
}.

(** The const generics [BLOOM_BYTES] and [KEY_MAX]. *)
  Variables BLOOM_BYTES KEY_MAX : nat.

Definition new (base : u64) (k : u8) : TableWriter :=
  mkTW base k (replicate BLOCK 0%Z) (replicate BLOCK 0%Z) (replicate BLOOM_BYTES 0%Z)
    (replicate 128 0%Z) 0 0 0 0 0 0 (replicate KEY_MAX 0%Z) 0 0 (replicate KEY_MAX 0%Z) 0
    (replicate KEY_MAX 0%Z) 0 0 U64_MAX U64_MAX.

Definition with_block_limit (w : TableWriter) (data_blocks : u64) : TableWriter :=
  mkTW (tw_base w) (tw_k w) (tw_data w) (tw_index w) (tw_bloom w) (tw_restarts w) (tw_payload w)
    (tw_n w) (tw_nrestarts w) (tw_index_len w) (tw_data_blocks w) (tw_entry_count w)
    (tw_block_first w) (tw_block_first_len w) (tw_block_max_seq w) (tw_first_key w) (tw_first_len w)
    (tw_last_key w) (tw_last_len w) (tw_max_seq w) (tw_min_seq w) data_blocks.

Definition last_key (w : TableWriter) : KeyBound :=
  default (EMPTY_BOUND KEY_MAX) (from_slice KEY_MAX (take (tw_last_len w) (tw_last_key w))).

Definition set_data (w : TableWriter) (data : bytes) : TableWriter :=
  mkTW (tw_base w) (tw_k w) data (tw_index w) (tw_bloom w) (tw_restarts w) (tw_payload w)
    (tw_n w) (tw_nrestarts w) (tw_index_len w) (tw_data_blocks w) (tw_entry_count w)
    (tw_block_first w) (tw_block_first_len w) (tw_block_max_seq w) (tw_first_key w) (tw_first_len w)
    (tw_last_key w) (tw_last_len w) (tw_max_seq w) (tw_min_seq w) (tw_data_limit w).

Definition set_index (w : TableWriter) (index : bytes) : TableWriter :=
  mkTW (tw_base w) (tw_k w) (tw_data w) index (tw_bloom w) (tw_restarts w) (tw_payload w)
    (tw_n w) (tw_nrestarts w) (tw_index_len w) (tw_data_blocks w) (tw_entry_count w)
    (tw_block_first w) (tw_block_first_len w) (tw_block_max_seq w) (tw_first_key w) (tw_first_len w)
    (tw_last_key w) (tw_last_len w) (tw_max_seq w) (tw_min_seq w) (tw_data_limit w).

(** The staging state after a seal: the index grown, everything of the block reset. *)
Definition next_block_staged (w : TableWriter) (index : bytes) (index_len : nat) : TableWriter :=
  mkTW (tw_base w) (tw_k w) (replicate BLOCK 0%Z) index (tw_bloom w) (tw_restarts w) 0
    0 0 index_len (tw_data_blocks w + 1) (tw_entry_count w)
    (tw_block_first w) 0 0 (tw_first_key w) (tw_first_len w)
    (tw_last_key w) (tw_last_len w) (tw_max_seq w) (tw_min_seq w) (tw_data_limit w).

Definition seal_current (d : D) (w : TableWriter) (cs : option scratch)
  : D * TableWriter * option scratch * result unit (Error E) :=
  match u64_checked_add (tw_base w) (Z.of_nat (tw_data_blocks w)) with
  | None => (d, w, cs, Err TableTooLarge)
  | Some id =>
      match seal_block d id (tw_data w) (tw_payload w)
              (Some (take (tw_nrestarts w) (tw_restarts w))) cs with
      | (d, buf, cs, Err e) => (d, set_data w buf, cs, Err e)
      | (d, buf, cs, Ok _) =>
          match append_index (tw_index w) (tw_index_len w)
                  (Some (take (tw_block_first_len w) (tw_block_first w))) id
                  (tw_block_max_seq w) with
          | Err e => (d, set_data w buf, cs, Err e)
          | Ok (index, index_len) => (d, next_block_staged w index index_len, cs, Ok tt)
          end
      end
  end.

(** [self.restarts[self.nrestarts] = ..; self.nrestarts += 1] every sixteenth entry. *)
Definition push_restart (w : TableWriter) : result TableWriter (Error E) :=
  if (tw_n w mod RESTART_INTERVAL =? 0)%nat then
    match try_u16 (tw_payload w) with
    | None => Err TableTooLarge
    | Some r =>
        Ok (mkTW (tw_base w) (tw_k w) (tw_data w) (tw_index w) (tw_bloom w)
              (<[tw_nrestarts w := r]> (tw_restarts w)) (tw_payload w) (tw_n w)
              (tw_nrestarts w + 1) (tw_index_len w) (tw_data_blocks w) (tw_entry_count w)
              (tw_block_first w) (tw_block_first_len w) (tw_block_max_seq w) (tw_first_key w)
              (tw_first_len w) (tw_last_key w) (tw_last_len w) (tw_max_seq w) (tw_min_seq w)
              (tw_data_limit w))
    end
  else Ok w.

(** The entry's bytes at [p]. *)
Definition stage_bytes (data : bytes) (p : nat) (e : SstEntry) (kl vl : u16) : bytes :=
  let data := splice p (to_le 2 kl) data in
  let data := splice (p + 2) (to_le 2 vl) data in
  let data := splice (p + 4) (to_le 8 (se_seq e)) data in
  let ttl := negb (se_tombstone e) && negb (se_expire_at e =? 0)%Z in
  let op := if se_tombstone e then Delete else if ttl then PutTtl else Put in
  let data := splice (p + 12) [op_to_u8 op] data in
  let ko := (p + ENTRY_HEADER)%nat in
  let data := splice ko (se_key e) data in
  let vlen := if se_tombstone e then 0%nat else length (se_val e) in
  let data := splice (ko + length (se_key e)) (take vlen (se_val e)) data in
  if ttl then splice (ko + length (se_key e) + vlen) (to_le 8 (se_expire_at e)) data else data.

Definition stage_entry (w : TableWriter) (e : SstEntry) (elen : nat) (kl vl : u16) : TableWriter :=
  let key := se_key e in
  let first_in_block := (tw_block_first_len w =? 0)%nat in
  let first := (tw_first_len w =? 0)%nat in
  mkTW (tw_base w) (tw_k w) (stage_bytes (tw_data w) (tw_payload w) e kl vl) (tw_index w)
    (bloom_add (tw_bloom w) key (tw_k w)) (tw_restarts w) (tw_payload w + elen) (tw_n w + 1)
    (tw_nrestarts w) (tw_index_len w) (tw_data_blocks w) (tw_entry_count w + 1)
    (if first_in_block then splice 0 key (tw_block_first w) else tw_block_first w)
    (if first_in_block then length key else tw_block_first_len w)
    (if (tw_block_max_seq w <? se_seq e)%Z then se_seq e else tw_block_max_seq w)
    (if first then splice 0 key (tw_first_key w) else tw_first_key w)
    (if first then length key else tw_first_len w)
    (splice 0 key (tw_last_key w)) (length key)
    (if (tw_max_seq w <? se_seq e)%Z then se_seq e else tw_max_seq w)
    (if (se_seq e <? tw_min_seq w)%Z then se_seq e else tw_min_seq w) (tw_data_limit w).

(** Room for the entry: the staging block sealed first when it is full. *)
Definition make_room (d : D) (w : TableWriter) (elen : nat) (cs : option scratch)
  : D * TableWriter * option scratch * result PushOutcome (Error E) :=
  if entry_fits BLOCK (tw_payload w) (tw_n w) elen then (d, w, cs, Ok Buffered)
  else if (tw_n w =? 0)%nat then (d, w, cs, Err TableTooLarge)
  else if (tw_data_limit w <? Z.min (Z.of_nat (tw_data_blocks w) + 2) U64_MAX)%Z
  then (d, w, cs, Err TableTooLarge)
  else
    match seal_current d w cs with
    | (d, w, cs, Err e) => (d, w, cs, Err e)
    | (d, w, cs, Ok _) =>
        if negb (entry_fits BLOCK 0 0 elen) then (d, w, cs, Err TableTooLarge)
        else (d, w, cs, Ok BlockSealed)
    end.

Definition push (d : D) (w : TableWriter) (e : SstEntry) (cs : option scratch)
  : D * TableWriter * option scratch * result PushOutcome (Error E) :=
  match entry_sizes e with
  | Err err => (d, w, cs, Err err)
  | Ok (elen, kl, vl) =>
      if (KEY_MAX <? length (se_key e))%nat
      then (d, w, cs, Err (KeyTooLarge (length (se_key e)) KEY_MAX))
      else
        match make_room d w elen cs with
        | (d, w, cs, Err err) => (d, w, cs, Err err)
        | (d, w, cs, Ok sealed) =>
            match push_restart w with
            | Err err => (d, w, cs, Err err)
            | Ok w => (d, stage_entry w e elen kl vl, cs, Ok sealed)
            end
        end
  end.

Definition seal_data (d : D) (w : TableWriter) (cs : option scratch)
  : D * TableWriter * option scratch * result nat (Error E) :=
  if (0 <? tw_n w)%nat then
    if (tw_data_limit w <=? Z.of_nat (tw_data_blocks w))%Z then (d, w, cs, Err TableTooLarge)
    else
      match seal_current d w cs with
      | (d, w, cs, Err e) => (d, w, cs, Err e)
      | (d, w, cs, Ok _) => (d, w, cs, Ok (tw_data_blocks w))
      end
  else (d, w, cs, Ok (tw_data_blocks w)).

(** [KeyBound::EMPTY] before the first push, the stored key after. *)
Definition finished_bound (key : bytes) (len : nat) : result KeyBound (Error E) :=
  if (len =? 0)%nat then Ok (EMPTY_BOUND KEY_MAX)
  else match from_slice KEY_MAX (take len key) with
       | Some b => Ok b
       | None => Err EmptyKey
       end.

(** The footer payload in a cleared buffer. *)
Definition footer_bytes (buf : bytes) (index_id bloom_id : u64) (entry_count : nat) (k : u8)
  (rdel_blocks : u32) (min_seq : u64) : bytes :=
  let buf := splice 0 (to_le 8 SSTABLE_MAGIC) buf in
  let buf := splice 8 (to_le 8 index_id) buf in
  let buf := splice 16 (to_le 8 bloom_id) buf in
  let buf := splice 24 (to_le 8 (Z.of_nat entry_count)) buf in
  let buf := splice 32 [k] buf in
  let buf := splice 33 (to_le 4 rdel_blocks) buf in
  splice 37 (to_le 8 min_seq) buf.

Definition finish_meta (d : D) (w : TableWriter) (rdel_blocks : u32) (rdel_min_seq : u64)
  : D * TableWriter * result FinishedTable (Error E) :=
  let min_seq := Z.min (tw_min_seq w) rdel_min_seq in
  match u64_checked_add (tw_base w) (Z.of_nat (tw_data_blocks w)) ≫= fun b =>
        u64_checked_add b rdel_blocks with
  | None => (d, w, Err TableTooLarge)
  | Some bloom_id =>
      let data := splice 0 (tw_bloom w) (replicate BLOCK 0%Z) in
      match seal_block d bloom_id data (length (tw_bloom w)) None None with
      | (d, data, _, Err e) => (d, set_data w data, Err e)
      | (d, data, _, Ok _) =>
          let w := set_data w data in
          match u64_checked_add bloom_id 1 with
          | None => (d, w, Err TableTooLarge)
          | Some index_id =>
              match seal_block d index_id (tw_index w) (tw_index_len w) None None with
              | (d, index, _, Err e) => (d, set_index w index, Err e)
              | (d, index, _, Ok _) =>
                  let w := set_index w index in
                  match u64_checked_add index_id 1 with
                  | None => (d, w, Err TableTooLarge)
                  | Some footer_id =>
                      let data := footer_bytes (replicate BLOCK 0%Z) index_id bloom_id
                                    (tw_entry_count w) (tw_k w) rdel_blocks min_seq in
                      match seal_block d footer_id data 45 None None with
                      | (d, data, _, Err e) => (d, set_data w data, Err e)
                      | (d, data, _, Ok _) =>
                          let w := set_data w data in
                          match dev_flush d with
                          | (d, Err e) => (d, w, Err (Device e))
                          | (d, Ok _) =>
                              (d, w,
                               let? first_key := finished_bound (tw_first_key w) (tw_first_len w) in
                               let? last := finished_bound (tw_last_key w) (tw_last_len w) in
                               Ok (mkFinished (tw_data_blocks w) (tw_entry_count w) (tw_max_seq w)
                                     min_seq first_key last))
                          end
                      end
                  end
              end
          end
      end
  end.

Definition finish (d : D) (w : TableWriter) (cs : option scratch)
  : D * TableWriter * option scratch * result FinishedTable (Error E) :=
  match seal_data d w cs with
  | (d, w, cs, Err e) => (d, w, cs, Err e)
  | (d, w, cs, Ok _) => let '(d, w, r) := finish_meta d w 0 U64_MAX in (d, w, cs, r)
  end.

(** [for e in entries { w.push(e)?; }] *)
Fixpoint push_all (d : D) (w : TableWriter) (es : list SstEntry) (cs : option scratch)
  : D * TableWriter * option scratch * result unit (Error E) :=
  match es with
  | [] => (d, w, cs, Ok tt)
  | e :: es =>
      match push d w e cs with
      | (d, w, cs, Err err) => (d, w, cs, Err err)
      | (d, w, cs, Ok _) => push_all d w es cs
      end
  end.

Definition write_table (d : D) (base : u64) (k : u8) (es : list SstEntry) (cs : option scratch)
  : D * result nat (Error E) :=
  match push_all d (new base k) es cs with
  | (d, _, _, Err e) => (d, Err e)
  | (d, w, cs, Ok _) =>
      match finish d w cs with
      | (d, _, _, Err e) => (d, Err e)
      | (d, _, _, Ok done) => (d, Ok (ft_data_blocks done + 3)%nat)
      end
  end.
End writer.
