(* ===== verification/SstReader.v ===== *)
(** * Reading tables: [src/sstable.rs]

    Block verification, the index and restart searches, the point lookup across
    data blocks and the probe of the range-tombstone section.  Every block is read
    through the block cache when there is one, so a read is a computation in
    [cached]: it threads the cache and may fail.  The caller's block buffers carry
    nothing from one read to the next and are omitted; the value buffer and the
    decompression buffer are passed.  A loop whose cursor only moves forward takes
    the length of its window as fuel and reports corruption without it, which the
    lemmas on the loops show not to happen. *)

From stdpp Require Import base numbers list.
From Stdlib Require Import ZArith Lia.
From S2P Require Import Prelude Device Crc Compress Cache Wal Manifest SstPlan SstWriter.

(** ** Computations that read through the cache

    The outer [option] is [None] only where [Cache.put] does not return, which its
    well-formedness excludes. *)

Definition cached (E A : Type) : Type :=
  option CacheCell -> option (option CacheCell * result A (Error E)).

Definition cret {E A} (a : A) : cached E A := fun c => Some (c, Ok a).

(** [let x = m?; f(x)] *)
Definition cbind {E A B} (m : cached E A) (f : A -> cached E B) : cached E B := fun c =>
  match m c with
  | None => None
  | Some (c, Err e) => Some (c, Err e)
  | Some (c, Ok a) => f a c
  end.

(** A computation that touches no block. *)
Definition pure {E A} (r : result A (Error E)) : cached E A := fun c => Some (c, r).

Notation "'let!' x := m 'in' k" := (cbind m (fun x => k))
  (at level 10, x pattern, m at level 200, k at level 200) : horton_scope.

(** ** Parsing *)

(** [payload.get(off..off + len)] *)
Definition slice_at (payload : bytes) (off len : nat) : option bytes :=
  if (off + len <=? length payload)%nat then Some (sub off len payload) else None.

(** [(first_key, block_id, next_offset)] *)
Definition index_entry_parse (payload : bytes) (off : nat) : option (bytes * u64 * nat) :=
  klb ← slice_at payload off 2;
  let kl := Z.to_nat (from_le klb) in
  if (kl =? 0)%nat then None
  else
    key ← slice_at payload (off + 2) kl;
    let id_off := (off + 2 + kl)%nat in
    idb ← slice_at payload id_off 8;
    let next := (id_off + 16)%nat in
    if (length payload <? next)%nat then None else Some (key, from_le idb, next).

Fixpoint index_entry_from (payload : bytes) (i off : nat) : option (bytes * u64 * nat) :=
  match i with
  | O => index_entry_parse payload off
  | S i => '(_, _, next) ← index_entry_parse payload off; index_entry_from payload i next
  end.

Definition index_entry_at (payload : bytes) (i : nat) : option (bytes * u64 * nat) :=
  index_entry_from payload i 0.

Record ParsedEntry := mkParsed {
  pe_key : bytes;
  pe_val : bytes;
  pe_seq : u64;
  pe_op : Op;
  pe_expire_at : u64;
}.

Definition data_entry_parse (payload : bytes) (off : nat) : option (ParsedEntry * nat) :=
  klb ← slice_at payload off 2;
  let kl := Z.to_nat (from_le klb) in
  if (kl =? 0)%nat then None
  else
    vlb ← slice_at payload (off + 2) 2;
    let vl := Z.to_nat (from_le vlb) in
    sqb ← slice_at payload (off + 4) 8;
    opb ← slice_at payload (off + 12) 1;
    op ← op_from_u8 (nth 0 opb 0%Z);
    key ← slice_at payload (off + ENTRY_HEADER) kl;
    val ← slice_at payload (off + ENTRY_HEADER + kl) vl;
    let next := (off + ENTRY_HEADER + kl + vl)%nat in
    '(expire_at, next) ←
      (if op_eqb op PutTtl
       then xb ← slice_at payload next 8; Some (from_le xb, next + 8)%nat
       else Some (0%Z, next));
    if (length payload <? next)%nat then None
    else Some (mkParsed key val (from_le sqb) op expire_at, next).

Definition rdel_parse_at (block : bytes) (off : nat) : option (RdelEntry * nat) :=
  slb ← slice_at block off 2;
  elb ← slice_at block (off + 2) 2;
  let sl := Z.to_nat (from_le slb) in
  let el := Z.to_nat (from_le elb) in
  if (sl =? 0)%nat || (el =? 0)%nat then None
  else
    sqb ← slice_at block (off + 4) 8;
    let start_at := (off + 12)%nat in
    start ← slice_at block start_at sl;
    end_ ← slice_at block (start_at + sl) el;
    Some (mkRdel start end_ (from_le sqb), start_at + sl + el)%nat.

(** ** Searching the index *)

Section search.
  Context {E : Type}.

(** The counting pass: an unparseable rest must be zero padding. *)
Fixpoint count_loop (fuel : nat) (payload : bytes) (off count : nat) (id : u64)
  : result nat (Error E) :=
  if (off <? length payload)%nat then
    match fuel with
    | O => Err (CorruptBlock id)
    | S fuel =>
        match index_entry_parse payload off with
        | Some (_, _, next) => count_loop fuel payload next (count + 1) id
        | None =>
            if all_zero (drop off payload) then Ok count else Err (CorruptBlock id)
        end
    end
  else Ok count.

(** The [while lo < hi] search; the window shrinks every step. *)
Fixpoint upper_loop (fuel : nat) (payload key : bytes) (lo hi : nat) (id : u64)
  : result nat (Error E) :=
  if (lo <? hi)%nat then
    match fuel with
    | O => Err (CorruptBlock id)
    | S fuel =>
        let mid := (lo + (hi - lo) / 2)%nat in
        match index_entry_at payload mid with
        | None => Err (CorruptBlock id)
        | Some (fkey, _, _) =>
            if bytes_leb fkey key then upper_loop fuel payload key (mid + 1) hi id
            else upper_loop fuel payload key lo mid id
        end
    end
  else Ok lo.

Definition index_upper_bound (payload key : bytes) (id : u64)
  : result (option (nat * nat)) (Error E) :=
  let? count := count_loop (length payload) payload 0 0 id in
  let? lo := upper_loop count payload key 0 count id in
  if (lo =? 0)%nat then Ok None else Ok (Some (lo, count)).

(** The walk back over duplicates of [key]. *)
Fixpoint walk_back (pos : nat) (payload key : bytes) (id : u64) : result nat (Error E) :=
  match pos with
  | O => Ok 0%nat
  | S pos' =>
      match index_entry_at payload pos with
      | None => Err (CorruptBlock id)
      | Some (fkey, _, _) =>
          if negb (bytes_eqb fkey key) then Ok pos else walk_back pos' payload key id
      end
  end.

Definition index_lookup (payload key : bytes) (id : u64)
  : result (option (u64 * nat)) (Error E) :=
  let? ub := index_upper_bound payload key id in
  match ub with
  | None => Ok None
  | Some (lo, count) =>
      let? pos := walk_back (lo - 1) payload key id in
      match index_entry_at payload pos with
      | None => Err (CorruptBlock id)
      | Some (_, block_id, _) => Ok (Some (block_id, count - pos)%nat)
      end
  end.

Definition index_last_le_block (payload key : bytes) (id : u64)
  : result (option u64) (Error E) :=
  let? ub := index_upper_bound payload key id in
  match ub with
  | None => Ok None
  | Some (lo, _) =>
      match index_entry_at payload (lo - 1) with
      | None => Err (CorruptBlock id)
      | Some (_, block_id, _) => Ok (Some block_id)
      end
  end.

(** ** Searching a data block *)

Inductive DataHit :=
  | HitValue (len : nat) (seq expire_at : u64)
  | HitTombstone (seq : u64).

Inductive BlockOutcome := Hit (h : DataHit) | Absent | Truncated.

Definition restart_at (payload : bytes) (rstart i : nat) : option nat :=
  b ← slice_at payload (rstart + i * 2) 2;
  let roff := Z.to_nat (from_le b) in
  if (rstart <=? roff)%nat then None else Some roff.

(** The restart search: the first restart whose key is at or after [key]. *)
Fixpoint restart_loop (fuel : nat) (payload key : bytes) (rstart lo hi : nat) (id : u64)
  : result nat (Error E) :=
  if (lo <? hi)%nat then
    match fuel with
    | O => Err (CorruptBlock id)
    | S fuel =>
        let mid := (lo + (hi - lo) / 2)%nat in
        match restart_at payload rstart mid ≫= data_entry_parse payload with
        | None => Err (CorruptBlock id)
        | Some (e, _) =>
            if bytes_ltb (pe_key e) key then restart_loop fuel payload key rstart (mid + 1) hi id
            else restart_loop fuel payload key rstart lo mid id
        end
    end
  else Ok lo.

(** The entries end at [off]: padding, or corruption. *)
Definition entries_end (payload : bytes) (off rstart : nat) (id : u64)
  : result BlockOutcome (Error E) :=
  if all_zero (sub off (rstart - off) payload) then Ok Truncated else Err (CorruptBlock id).

(** What the run loop returns for a visible entry, with the value buffer. *)
Definition take_hit (e : ParsedEntry) (val_buf : bytes)
  : result (BlockOutcome * bytes) (Error E) :=
  if op_eqb (pe_op e) Delete then Ok (Hit (HitTombstone (pe_seq e)), val_buf)
  else if (length val_buf <? length (pe_val e))%nat then Err (BufferTooSmall (length (pe_val e)))
  else Ok (Hit (HitValue (length (pe_val e)) (pe_seq e) (pe_expire_at e)),
           splice 0 (pe_val e) val_buf).

(** The loop over the version run of [key], from an entry of it. *)
Fixpoint run_loop (fuel : nat) (payload key val_buf : bytes) (rstart : nat) (id max_seq : u64)
  (e : ParsedEntry) (next : nat) : result (BlockOutcome * bytes) (Error E) :=
  if (pe_seq e <=? max_seq)%Z then take_hit e val_buf
  else if (rstart <=? next)%nat then Ok (Truncated, val_buf)
  else
    match fuel with
    | O => Err (CorruptBlock id)
    | S fuel =>
        match data_entry_parse payload next with
        | None => let? o := entries_end payload next rstart id in Ok (o, val_buf)
        | Some (e, n) =>
            if negb (bytes_eqb (pe_key e) key) then Ok (Absent, val_buf)
            else run_loop fuel payload key val_buf rstart id max_seq e n
        end
    end.

Fixpoint scan_loop (fuel : nat) (payload key val_buf : bytes) (rstart : nat) (id max_seq : u64)
  (off : nat) : result (BlockOutcome * bytes) (Error E) :=
  if (off <? rstart)%nat then
    match fuel with
    | O => Err (CorruptBlock id)
    | S fuel =>
        match data_entry_parse payload off with
        | None => let? o := entries_end payload off rstart id in Ok (o, val_buf)
        | Some (e, next) =>
            match bytes_cmp (pe_key e) key with
            | Lt => scan_loop fuel payload key val_buf rstart id max_seq next
            | Eq => run_loop fuel payload key val_buf rstart id max_seq e next
            | Gt => Ok (Absent, val_buf)
            end
        end
    end
  else Ok (Truncated, val_buf).

Definition data_lookup (payload key val_buf : bytes) (id max_seq : u64)
  : result (BlockOutcome * bytes) (Error E) :=
  let len := length payload in
  if (len <? 6)%nat then Err (CorruptBlock id)
  else
    let rcount := Z.to_nat (from_le (drop (len - 2) payload)) in
    if (len <? 2 + rcount * 2)%nat then Err (CorruptBlock id)
    else
      let rstart := (len - (2 + rcount * 2))%nat in
      let? lo := restart_loop rcount payload key rstart 0 rcount id in
      match (if (lo =? 0)%nat then Some 0%nat else restart_at payload rstart (lo - 1)) with
      | None => Err (CorruptBlock id)
      | Some off => scan_loop (rstart - off) payload key val_buf rstart id max_seq off
      end.
End search.

(** ** Verified blocks *)

Section blocks.
  Context {D E : Type} `{BlockDevice D E}.

Definition check_block_crc (block : bytes) (id : u64) : result unit (Error E) :=
  if (crc32 (take (BLOCK - CRC_LEN) block) =? from_le (drop (BLOCK - CRC_LEN) block))%Z
  then Ok tt else Err (CorruptBlock id).

(** [(inflated, decomp)] *)
Definition inflate_data_block (raw decomp : bytes) (id : u64)
  : result (bool * bytes) (Error E) :=
  if (BLOCK <? CRC_LEN)%nat then Err (CorruptBlock id)
  else
    let trailer := from_le (sub (body_end - 2) 2 raw) in
    if (Z.land trailer 0x8000 =? 0)%Z then Ok (false, decomp)
    else
      let clen := Z.to_nat (Z.land trailer 0x7FFF) in
      if (body_end <=? clen)%nat then Err (CorruptBlock id)
      else
        match decompress (take clen raw) (take body_end decomp) with
        | Done body => Ok (true, body ++ drop body_end decomp)
        | _ => Err (CorruptBlock id)
        end.

Definition data_entries_end (block : bytes) (id : u64) : result nat (Error E) :=
  if (BLOCK <? CRC_LEN)%nat then Err (CorruptBlock id)
  else
    let rcount := Z.to_nat (from_le (sub (body_end - 2) 2 block)) in
    let tail := (2 + rcount * 2)%nat in
    if (body_end <? tail)%nat then Err (CorruptBlock id) else Ok (body_end - tail)%nat.

Record ParsedDataEntry := mkParsedData {
  pd_key : bytes;
  pd_val : bytes;
  pd_seq : u64;
  pd_tombstone : bool;
  pd_expire_at : u64;
  pd_next : nat;
}.

Definition parse_data_entry (block : bytes) (off end_ : nat) (id : u64)
  : result ParsedDataEntry (Error E) :=
  if (end_ <=? off)%nat then Err (CorruptBlock id)
  else
    match data_entry_parse (take end_ block) off with
    | None => Err (CorruptBlock id)
    | Some (e, next) =>
        let tombstone := op_eqb (pe_op e) Delete in
        Ok (mkParsedData (pe_key e) (if tombstone then [] else pe_val e) (pe_seq e) tombstone
              (pe_expire_at e) next)
    end.

Definition rdel_block_count (block : bytes) (id : u64) : result nat (Error E) :=
  let? _ := check_block_crc block id in
  let raw := from_le (sub (BLOCK - CRC_LEN - 2) 2 block) in
  if negb (Z.land raw 0x8000 =? 0)%Z then Err (CorruptBlock id) else Ok (Z.to_nat raw).

(** ** Reads through the cache *)

  (** The device and the table's id, the first half of the cache key. *)
  Variable d : D.

(** [read_block_cached] into the caller's buffer. *)
Definition fetch (t : u32) (b : u64) (hot : bool) : cached E bytes :=
  fun c => read_block_cached d c t b hot.

(** [(logical body, decomp)]: the inflated block, or the raw one as stored. *)
Definition read_data_block (t : u32) (b : u64) (decomp : bytes) (hot : bool)
  : cached E (bytes * bool * bytes) :=
  let! raw := fetch t b hot in
  let! _ := pure (check_block_crc raw b) in
  let! p := pure (inflate_data_block raw decomp b) in
  cret (raw, fst p, snd p).

Definition footer_index_block (t : u32) (footer : u64) : cached E u64 :=
  let! blk := fetch t footer true in
  let! _ := pure (check_block_crc blk footer) in
  if negb (from_le (sub 0 8 blk) =? SSTABLE_MAGIC)%Z then pure (Err (CorruptBlock footer))
  else cret (from_le (sub 8 8 blk)).

(** The entries of one range-tombstone block. *)
Fixpoint rdel_entries_loop (n : nat) (block key : bytes) (max_seq id : u64) (off : nat)
  (best : option u64) : result (option u64) (Error E) :=
  match n with
  | O => Ok best
  | S n =>
      match rdel_parse_at block off with
      | None => Err (CorruptBlock id)
      | Some (e, next) =>
          let better := match best with None => true | Some s => (s <? rd_seq e)%Z end in
          rdel_entries_loop n block key max_seq id next
            (if (rd_seq e <=? max_seq)%Z && bytes_leb (rd_start e) key &&
                bytes_ltb key (rd_end e) && better
             then Some (rd_seq e) else best)
      end
  end.

(** The [for b in 0..rdel_blocks] loop, [rest] blocks from the [b]-th on. *)
Fixpoint rdel_blocks_loop (rest b : nat) (t : u32) (rdel_first : u64) (key : bytes)
  (max_seq : u64) (best : option u64) : cached E (option u64) :=
  match rest with
  | O => cret best
  | S rest =>
      match u64_checked_add rdel_first (Z.of_nat b) with
      | None => pure (Err (CorruptBlock rdel_first))
      | Some id =>
          let! block := fetch t id true in
          let! count := pure (rdel_block_count block id) in
          let! best := pure (rdel_entries_loop count block key max_seq id 0 best) in
          rdel_blocks_loop rest (b + 1) t rdel_first key max_seq best
      end
  end.

Definition covering_rdel_seq_in (t : u32) (rdel_first : u64) (rdel_blocks : u32)
  (key : bytes) (max_seq : u64) : cached E (option u64) :=
  rdel_blocks_loop (Z.to_nat rdel_blocks) 0 t rdel_first key max_seq None.

(** ** The table reader *)

Inductive Lookup :=
  | LValue (len : nat) (seq expire_at : u64)
  | LTombstone (seq : u64)
  | LMissing.

(** The device reference and the cache are the context here. *)
Record TableReader := mkReader {
  tr_table_id : u32;
  tr_index_block : u64;
  tr_bloom_block : u64;
  tr_entry_count : u64;
  tr_k : u8;
  tr_rdel_first : u64;
  tr_rdel_blocks : u32;
  tr_min_seq : u64;
}.

Definition parse_footer (t : u32) (footer : u64) (blk : bytes) : result TableReader (Error E) :=
  if negb (from_le (sub 0 8 blk) =? SSTABLE_MAGIC)%Z then Err (CorruptBlock footer)
  else
    let index_block := from_le (sub 8 8 blk) in
    let bloom_block := from_le (sub 16 8 blk) in
    let k := nth 32 blk 0%Z in
    if (k =? 0)%Z then Err (CorruptBlock footer)
    else
      let entry_count := from_le (sub 24 8 blk) in
      let rdel_blocks := from_le (sub 33 4 blk) in
      let min_seq := from_le (sub 37 8 blk) in
      match u64_checked_sub bloom_block rdel_blocks with
      | None => Err (CorruptBlock footer)
      | Some rdel_first =>
          Ok (mkReader t index_block bloom_block entry_count k rdel_first rdel_blocks min_seq)
      end.

Definition open_cached (t : u32) (footer : u64) : cached E TableReader :=
  let! blk := fetch t footer true in
  let! _ := pure (check_block_crc blk footer) in
  pure (parse_footer t footer blk).

Definition covering_rdel_seq (r : TableReader) (key : bytes) (max_seq : u64)
  : cached E (option u64) :=
  covering_rdel_seq_in (tr_table_id r) (tr_rdel_first r) (tr_rdel_blocks r) key max_seq.

(** The loop over data blocks; [remaining] bounds it. *)
Fixpoint blocks_loop (remaining : nat) (r : TableReader) (block_id : u64) (decomp key val_buf : bytes)
  (max_seq : u64) : cached E (Lookup * bytes) :=
  let! (raw, inflated, decomp) := read_data_block (tr_table_id r) block_id decomp true in
  let body := take body_end (if inflated then decomp else raw) in
  let! (o, val_buf) := pure (data_lookup body key val_buf block_id max_seq) in
  match o with
  | Hit (HitValue len seq expire_at) => cret (LValue len seq expire_at, val_buf)
  | Hit (HitTombstone seq) => cret (LTombstone seq, val_buf)
  | Absent => cret (LMissing, val_buf)
  | Truncated =>
      match remaining with
      | O => cret (LMissing, val_buf)
      | S remaining =>
          if (remaining =? 0)%nat then cret (LMissing, val_buf)
          else
            match u64_checked_add block_id 1 with
            | None => pure (Err (CorruptBlock block_id))
            | Some next => blocks_loop remaining r next decomp key val_buf max_seq
            end
      end
  end.

  (** The const generic: filter bytes of a table. *)
  Variable BLOOM_BYTES : nat.

Definition lookup_at (r : TableReader) (decomp key val_buf : bytes) (max_seq : u64)
  : cached E (Lookup * bytes) :=
  let! bloom := fetch (tr_table_id r) (tr_bloom_block r) true in
  if is_ok (check_block_crc bloom (tr_bloom_block r)) &&
     negb (bloom_maybe_contains (take BLOOM_BYTES bloom) key (tr_k r))
  then cret (LMissing, val_buf)
  else
    let! index := fetch (tr_table_id r) (tr_index_block r) true in
    let! _ := pure (check_block_crc index (tr_index_block r)) in
    let! found := pure (index_lookup (take (BLOCK - CRC_LEN) index) key (tr_index_block r)) in
    match found with
    | None => cret (LMissing, val_buf)
    | Some (block_id, remaining) => blocks_loop remaining r block_id decomp key val_buf max_seq
    end.

Definition lookup (r : TableReader) (decomp key val_buf : bytes) : cached E (Lookup * bytes) :=
  lookup_at r decomp key val_buf U64_MAX.

Definition get_at (r : TableReader) (decomp key val_buf : bytes) (max_seq : u64)
  : cached E (option nat * bytes) :=
  let! (l, val_buf) := lookup_at r decomp key val_buf max_seq in
  cret (match l with LValue len _ _ => Some len | _ => None end, val_buf).

Definition get (r : TableReader) (decomp key val_buf : bytes) : cached E (option nat * bytes) :=
  get_at r decomp key val_buf U64_MAX.
End blocks.
