(* ===== verification/SstBlock.v ===== *)
(** * Data blocks: [src/sstable.rs]

    What a sealed data block holds and what a search of it returns: the bloom
    filter has no false negatives, an entry's bytes parse back, the restart search
    never starts past the key's run, and [data_lookup] returns the first entry of
    the key visible at the snapshot. *)

From stdpp Require Import base numbers list.
From Stdlib Require Import ZArith Lia Sorting.Sorted.
From S2P Require Import Prelude Device Crc Compress Cache Wal Manifest SstPlan SstWriter SstReader.

(** ** The bloom filter has no false negatives *)

Lemma probe_set_testbit bloom p :
  probe_set bloom p = Z.testbit (nth (Z.to_nat (p / 8)) bloom 0%Z) (p mod 8).
Proof.
  unfold probe_set. rewrite Z.testbit_odd. generalize (Z.shiftr (nth (Z.to_nat (p / 8)) bloom 0%Z) (p mod 8)).
  intros x. change 1%Z with (Z.ones 1) at 1. rewrite Z.land_ones by lia.
  change (2 ^ 1)%Z with 2%Z. rewrite Zmod_odd. by destruct (Z.odd x).
Qed.

Lemma length_set_probe bloom p : length (set_probe bloom p) = length bloom.
Proof. apply length_insert. Qed.

(** Setting a probe keeps every set probe, and sets its own. *)
Lemma set_probe_spec bloom p q :
  (0 <= p < Z.of_nat (length bloom) * 8)%Z ->
  probe_set bloom q = true \/ q = p -> probe_set (set_probe bloom p) q = true.
Proof.
  intros Hp Hq. rewrite !probe_set_testbit in *. unfold set_probe. rewrite nth_lookup.
  assert (Z.to_nat (p / 8) < length bloom)%nat as Hi.
  { assert (p / 8 < Z.of_nat (length bloom))%Z by (apply Z.div_lt_upper_bound; lia).
    assert (0 <= p / 8)%Z by (apply Z.div_pos; lia). lia. }
  assert (0 <= p mod 8)%Z as Hm by (apply Z.mod_pos_bound; lia).
  destruct (decide (Z.to_nat (q / 8) = Z.to_nat (p / 8))) as [E | E].
  - rewrite E, list_lookup_insert_eq by done. cbn [default from_option]; unfold id. rewrite Z.lor_spec.
    destruct Hq as [Hq | ->]; [rewrite E in Hq; by rewrite Hq |].
    rewrite Z.shiftl_spec, Z.sub_diag by done. cbn. apply orb_true_r.
  - rewrite list_lookup_insert_ne, <- nth_lookup by done.
    destruct Hq as [Hq | ->]; [done | congruence].
Qed.

Lemma fold_set_probe ps bloom :
  Forall (fun p => (0 <= p < Z.of_nat (length bloom) * 8)%Z) ps ->
  length (fold_left set_probe ps bloom) = length bloom /\
  forall q, probe_set bloom q = true \/ q ∈ ps -> probe_set (fold_left set_probe ps bloom) q = true.
Proof.
  revert bloom. induction ps as [|p ps IH]; intros bloom Hps.
  - split; [done |]. intros q [? | Hq]; [done | by apply not_elem_of_nil in Hq].
  - inversion Hps as [|? ? Hp Hps' E1]; subst. cbn [fold_left].
    destruct (IH (set_probe bloom p)) as [Hl Hs]; [by rewrite length_set_probe |].
    rewrite length_set_probe in Hl. split; [done |].
    intros q [Hq | [-> | Hq]%elem_of_cons]; apply Hs; auto; left; apply set_probe_spec; auto.
Qed.

Lemma probes_in_range key k bits :
  (0 < bits)%Z -> Forall (fun p => (0 <= p < bits)%Z) (probe_positions key k bits).
Proof.
  intros Hb. unfold probe_positions. apply Forall_map, Forall_forall. intros i _. cbn.
  by apply Z.mod_pos_bound.
Qed.

Lemma bloom_add_spec bloom key k :
  length (bloom_add bloom key k) = length bloom /\
  bloom_maybe_contains (bloom_add bloom key k) key k = true /\
  forall key', bloom_maybe_contains bloom key' k = true ->
    bloom_maybe_contains (bloom_add bloom key k) key' k = true.
Proof.
  unfold bloom_add, bloom_maybe_contains.
  destruct (Z.of_nat (length bloom) * 8 =? 0)%Z eqn:Ez; [rewrite Ez; auto |]. bool_lia.
  destruct (fold_set_probe (probe_positions key k (Z.of_nat (length bloom) * 8)) bloom) as [Hl Hs].
  { apply probes_in_range. lia. }
  rewrite Hl. rewrite (proj2 (Z.eqb_neq _ _)) by done. split; [done |].
  split; [| intros key' Hk]; apply forallb_forall; intros q Hq; apply Hs.
  - right. by apply list_elem_of_In.
  - left. by apply (proj1 (forallb_forall _ _) Hk).
Qed.

(** ** Slices of known text *)

Lemma slice_front (x l : bytes) off n :
  off = 0%nat -> n = length x -> slice_at (x ++ l) off n = Some x.
Proof.
  intros -> ->. unfold slice_at. rewrite (proj2 (Nat.leb_le _ _)) by (rewrite length_app; lia).
  by rewrite sub_front.
Qed.

Lemma slice_skip (a l : bytes) off n :
  (length a <= off)%nat -> slice_at (a ++ l) off n = slice_at l (off - length a) n.
Proof.
  intros Ha. unfold slice_at. rewrite length_app, (sub_skip (off - length a)) by lia.
  destruct (off + n <=? length a + length l)%nat eqn:E1, (off - length a + n <=? length l)%nat eqn:E2;
    bool_lia; done.
Qed.

Lemma slice_past (l : bytes) off n : (length l < off + n)%nat -> slice_at l off n = None.
Proof. intros. unfold slice_at. by rewrite (proj2 (Nat.leb_gt _ _)). Qed.

(** Solve [slice_at (x1 ++ .. ++ xn) off len = Some xi]. *)
Ltac slices :=
  repeat rewrite <- app_assoc; unfold ENTRY_HEADER;
  repeat (rewrite slice_skip by (rewrite ?length_to_le; cbn [length]; lia));
  apply slice_front; rewrite ?length_to_le; cbn [length]; lia.

Lemma splice_app {A} off off' (a b l : list A) :
  off' = (off + length a)%nat -> (off + length a + length b <= length l)%nat ->
  splice off' b (splice off a l) = splice off (a ++ b) l.
Proof.
  intros -> Hl. assert (length (take off l ++ a) = off + length a)%nat as Ht
    by (rewrite length_app, length_take; lia).
  assert (splice off a l = (take off l ++ a) ++ drop (off + length a) l) as ->
    by (unfold splice; by rewrite app_assoc).
  unfold splice at 1. rewrite take_app_length' by done.
  rewrite drop_app_ge, drop_drop by lia. unfold splice. rewrite !app_assoc, Ht, length_app.
  f_equal. f_equal. lia.
Qed.

(** The checksum of the first [n] bytes written behind them. *)
Lemma splice_end {A} n (s l : list A) :
  length l = (n + length s)%nat -> splice n s l = take n l ++ s.
Proof. intros. unfold splice. rewrite drop_ge by lia. by rewrite app_nil_r. Qed.

(** ** Entries *)

Definition se_ttl (e : SstEntry) : bool := negb (se_tombstone e) && negb (se_expire_at e =? 0)%Z.

Definition se_op (e : SstEntry) : Op :=
  if se_tombstone e then Delete else if se_ttl e then PutTtl else Put.

(** The value bytes a table stores: none for a tombstone. *)
Definition se_stored (e : SstEntry) : bytes := if se_tombstone e then [] else se_val e.

Definition entry_bytes (e : SstEntry) : bytes :=
  to_le 2 (Z.of_nat (length (se_key e))) ++ to_le 2 (Z.of_nat (length (se_stored e))) ++
  to_le 8 (se_seq e) ++ [op_to_u8 (se_op e)] ++ se_key e ++ se_stored e ++
  (if se_ttl e then to_le 8 (se_expire_at e) else []).

(** What the format can carry. *)
Definition entry_wf (e : SstEntry) : Prop :=
  (0 < Z.of_nat (length (se_key e)) <= U16_MAX)%Z /\
  (Z.of_nat (length (se_stored e)) <= U16_MAX)%Z /\
  (0 <= se_seq e <= U64_MAX)%Z /\ (0 <= se_expire_at e <= U64_MAX)%Z /\
  bytes_ok (se_key e) /\ bytes_ok (se_stored e).

Lemma length_entry_bytes e : length (entry_bytes e) = elen e.
Proof.
  unfold entry_bytes, elen, se_stored, se_ttl, ENTRY_HEADER.
  destruct (se_tombstone e), (se_expire_at e =? 0)%Z; cbn [negb andb];
    rewrite !length_app, !length_to_le; cbn [length]; lia.
Qed.

(** [entry_sizes] accepts exactly these and reports the sizes of the wire form. *)
Lemma entry_sizes_wf {E} e n kl vl :
  entry_sizes (E := E) e = Ok (n, kl, vl) ->
  n = elen e /\ kl = Z.of_nat (length (se_key e)) /\ vl = Z.of_nat (length (se_stored e)) /\
  (0 < Z.of_nat (length (se_key e)) <= U16_MAX)%Z /\ (Z.of_nat (length (se_stored e)) <= U16_MAX)%Z.
Proof.
  unfold entry_sizes, elen, se_stored, try_u16. destruct (length (se_key e) =? 0)%nat eqn:E0; [done |].
  destruct (_ <=? U16_MAX)%Z eqn:E1; [| done].
  destruct (se_tombstone e); cbn [negb andb length].
  - intros [= <- <- <-]. bool_lia. repeat split; lia.
  - destruct (Z.of_nat (length (se_val e)) <=? U16_MAX)%Z eqn:E2; [| done].
    intros [= <- <- <-]. bool_lia. repeat split; lia.
Qed.

Lemma stage_bytes_splice data p e :
  (p + elen e <= length data)%nat ->
  stage_bytes data p e (Z.of_nat (length (se_key e))) (Z.of_nat (length (se_stored e))) =
  splice p (entry_bytes e) data.
Proof.
  intros Hl. rewrite <- length_entry_bytes in Hl. unfold entry_bytes in *.
  assert (take (if se_tombstone e then 0 else length (se_val e)) (se_val e) = se_stored e) as Ev
    by (unfold se_stored; destruct (se_tombstone e); [done | by rewrite take_ge]).
  assert ((if se_tombstone e then 0 else length (se_val e)) = length (se_stored e)) as En
    by (unfold se_stored; by destruct (se_tombstone e)).
  unfold stage_bytes. fold (se_ttl e). fold (se_op e). rewrite Ev, En.
  rewrite !length_app, !length_to_le in Hl. cbn [length] in Hl.
  unfold ENTRY_HEADER.
  assert ((if se_ttl e then 8 else 0) = length (if se_ttl e then to_le 8 (se_expire_at e) else []))%nat
    as Et by (destruct (se_ttl e); by rewrite ?length_to_le).
  repeat (rewrite (splice_app p) by (rewrite ?length_app, ?length_to_le; cbn [length]; lia)).
  destruct (se_ttl e).
  - rewrite (splice_app p) by (rewrite ?length_app, ?length_to_le in *; cbn [length]; lia).
    f_equal. by rewrite <- !app_assoc.
  - f_equal. by rewrite app_nil_r, <- !app_assoc.
Qed.

(** The parsed form. *)
Definition parsed_of (e : SstEntry) : ParsedEntry :=
  mkParsed (se_key e) (se_stored e) (se_seq e) (se_op e)
    (if se_ttl e then se_expire_at e else 0%Z).

Lemma op_back op : op_from_u8 (op_to_u8 op) = Some op.
Proof. by destruct op. Qed.

Lemma entry_parses pre e post :
  entry_wf e ->
  data_entry_parse (pre ++ entry_bytes e ++ post) (length pre) =
  Some (parsed_of e, length pre + elen e)%nat.
Proof.
  intros (Hk & Hv & Hs & Hx & _). set (l := pre ++ entry_bytes e ++ post).
  assert (length l = length pre + elen e + length post)%nat as Hl
    by (unfold l; rewrite !length_app, length_entry_bytes; lia).
  pose proof (length_entry_bytes e) as Hel. unfold entry_bytes in Hel.
  rewrite !length_app, !length_to_le in Hel. cbn [length] in Hel.
  assert (slice_at l (length pre) 2 = Some (to_le 2 (Z.of_nat (length (se_key e))))) as S1
    by (unfold l, entry_bytes; slices).
  assert (slice_at l (length pre + 2) 2 = Some (to_le 2 (Z.of_nat (length (se_stored e))))) as S2
    by (unfold l, entry_bytes; slices).
  assert (slice_at l (length pre + 4) 8 = Some (to_le 8 (se_seq e))) as S3
    by (unfold l, entry_bytes; slices).
  assert (slice_at l (length pre + 12) 1 = Some [op_to_u8 (se_op e)]) as S4
    by (unfold l, entry_bytes; slices).
  assert (slice_at l (length pre + ENTRY_HEADER) (length (se_key e)) = Some (se_key e)) as S5
    by (unfold l, entry_bytes; slices).
  assert (slice_at l (length pre + ENTRY_HEADER + length (se_key e)) (length (se_stored e)) =
          Some (se_stored e)) as S6 by (unfold l, entry_bytes; slices).
  assert (se_ttl e = true ->
          slice_at l (length pre + ENTRY_HEADER + length (se_key e) + length (se_stored e)) 8 =
          Some (to_le 8 (se_expire_at e))) as S7
    by (intros Et; unfold l, entry_bytes; rewrite Et; slices).
  assert (op_eqb (se_op e) PutTtl = se_ttl e) as Eop
    by (unfold op_eqb, se_op, se_ttl; destruct (se_tombstone e), (se_expire_at e =? 0)%Z; done).
  unfold data_entry_parse. rewrite S1. cbn [mbind option_bind].
  rewrite from_to_le, Nat2Z.id by (cbn; unfold U16_MAX in *; lia).
  rewrite (proj2 (Nat.eqb_neq _ _)) by lia. rewrite S2. cbn [mbind option_bind].
  rewrite from_to_le, Nat2Z.id by (cbn; unfold U16_MAX in *; lia).
  rewrite S3, S4. cbn [mbind option_bind nth]. rewrite op_back. cbn [mbind option_bind].
  rewrite from_to_le by (cbn; unfold U64_MAX in *; lia).
  rewrite S5. cbn [mbind option_bind]. rewrite S6. cbn [mbind option_bind]. rewrite Eop.
  unfold parsed_of. destruct (se_ttl e).
  - rewrite S7 by done. cbn [mbind option_bind]. rewrite from_to_le by (cbn; unfold U64_MAX in *; lia).
    rewrite length_to_le in Hel. unfold ENTRY_HEADER.
    rewrite (proj2 (Nat.ltb_ge _ _)) by lia. do 2 f_equal. lia.
  - cbn [mbind option_bind length] in *. unfold ENTRY_HEADER.
    rewrite (proj2 (Nat.ltb_ge _ _)) by lia. do 2 f_equal. lia.
Qed.

(** ** The body of a data block *)

Definition payload_of (es : list SstEntry) : bytes := concat (map entry_bytes es).
Definition payload_len (es : list SstEntry) : nat := length (payload_of es).

Definition n_restarts (n : nat) : nat := (n + 15) / RESTART_INTERVAL.

(** The offset of every sixteenth entry. *)
Definition restarts_of (es : list SstEntry) : list u16 :=
  map (fun j => Z.of_nat (payload_len (take (RESTART_INTERVAL * j) es)))
      (seq 0 (n_restarts (length es))).

Definition restart_bytes (rs : list u16) : bytes := concat (map (to_le 2) rs).

Lemma payload_of_app a b : payload_of (a ++ b) = payload_of a ++ payload_of b.
Proof. unfold payload_of. by rewrite map_app, concat_app. Qed.

Lemma payload_of_cons e es : payload_of (e :: es) = entry_bytes e ++ payload_of es.
Proof. done. Qed.

Lemma payload_len_app a b : payload_len (a ++ b) = (payload_len a + payload_len b)%nat.
Proof. unfold payload_len. by rewrite payload_of_app, length_app. Qed.

Lemma payload_len_cons e es : payload_len (e :: es) = (elen e + payload_len es)%nat.
Proof. unfold payload_len. by rewrite payload_of_cons, length_app, length_entry_bytes. Qed.

Lemma payload_len_snoc es e : payload_len (es ++ [e]) = (payload_len es + elen e)%nat.
Proof.
  rewrite payload_len_app, payload_len_cons. change (payload_len []) with 0%nat. lia.
Qed.

Lemma elen_pos e : (13 <= elen e)%nat.
Proof. unfold elen, ENTRY_HEADER. lia. Qed.

Lemma length_restart_bytes rs : length (restart_bytes rs) = (length rs * 2)%nat.
Proof.
  unfold restart_bytes. induction rs as [|r rs IH]; [done |].
  cbn [map concat]. rewrite length_app, length_to_le, IH. cbn [length]. lia.
Qed.

Lemma restart_slice a rs b j r :
  rs !! j = Some r -> slice_at (a ++ restart_bytes rs ++ b) (length a + j * 2) 2 = Some (to_le 2 r).
Proof.
  intros Hj. rewrite slice_skip by lia.
  replace (length a + j * 2 - length a)%nat with (j * 2)%nat by lia.
  rewrite <- (take_drop_middle rs j r Hj). unfold restart_bytes at 1.
  rewrite map_app, concat_app. cbn [map concat]. rewrite <- !app_assoc.
  assert (length (concat (map (to_le 2) (take j rs))) = j * 2)%nat as Hl.
  { change (length (restart_bytes (take j rs)) = j * 2)%nat. rewrite length_restart_bytes, length_take.
    apply lookup_lt_Some in Hj. lia. }
  rewrite slice_skip by lia. apply slice_front; [lia | by rewrite length_to_le].
Qed.

Lemma n_restarts_snoc n :
  n_restarts (n + 1) = (n_restarts n + (if n mod RESTART_INTERVAL =? 0 then 1 else 0))%nat.
Proof.
  unfold n_restarts, RESTART_INTERVAL. pose proof (Nat.div_mod n 16 ltac:(lia)) as Hd.
  pose proof (Nat.mod_upper_bound n 16 ltac:(lia)) as Hm.
  destruct (n mod 16 =? 0)%nat eqn:E; bool_lia.
  - replace (n + 1 + 15)%nat with ((n / 16 + 1) * 16)%nat by lia.
    replace (n + 15)%nat with (15 + (n / 16) * 16)%nat by lia.
    rewrite Nat.div_mul, Nat.div_add, (Nat.div_small 15) by lia. lia.
  - replace (n + 1 + 15)%nat with (n mod 16 + (n / 16 + 1) * 16)%nat by lia.
    replace (n + 15)%nat with ((n mod 16 - 1) + (n / 16 + 1) * 16)%nat by lia.
    rewrite !Nat.div_add, (Nat.div_small (n mod 16)), (Nat.div_small (n mod 16 - 1)) by lia. lia.
Qed.

Lemma restarts_below (es : list SstEntry) j : (j < n_restarts (length es))%nat -> (RESTART_INTERVAL * j < length es)%nat.
Proof.
  unfold n_restarts, RESTART_INTERVAL. intros Hj.
  pose proof (Nat.div_mod (length es + 15) 16 ltac:(lia)).
  pose proof (Nat.mod_upper_bound (length es + 15) 16 ltac:(lia)). lia.
Qed.

Lemma length_restarts_of es : length (restarts_of es) = n_restarts (length es).
Proof. unfold restarts_of. by rewrite length_map, length_seq. Qed.

Lemma restarts_of_snoc es e :
  restarts_of (es ++ [e]) =
  restarts_of es ++ (if (length es mod RESTART_INTERVAL =? 0)%nat
                     then [Z.of_nat (payload_len es)] else []).
Proof.
  unfold restarts_of. rewrite length_app. cbn [length]. rewrite n_restarts_snoc.
  rewrite seq_app, map_app. f_equal.
  - apply map_ext_in. intros j [_ Hj]%in_seq. rewrite take_app_le; [done |].
    pose proof (restarts_below es j). lia.
  - destruct (length es mod RESTART_INTERVAL =? 0)%nat eqn:Em; [| done]. bool_lia. cbn [seq map].
    do 3 f_equal. replace (RESTART_INTERVAL * (0 + n_restarts (length es)))%nat with (length es).
    { by rewrite take_app_length. }
    unfold n_restarts, RESTART_INTERVAL in *. pose proof (Nat.div_mod (length es) 16 ltac:(lia)).
    replace (length es + 15)%nat with (15 + (length es / 16) * 16)%nat by lia.
    rewrite Nat.div_add, (Nat.div_small 15) by lia. lia.
Qed.

Lemma restarts_lookup es j :
  (j < n_restarts (length es))%nat ->
  restarts_of es !! j = Some (Z.of_nat (payload_len (take (RESTART_INTERVAL * j) es))).
Proof.
  intros Hj. unfold restarts_of. rewrite list_lookup_fmap, lookup_seq_lt by done. done.
Qed.

Section body.
  Context {D E : Type} `{Dev : !BlockDevice D E}.

Definition rstart_of (es : list SstEntry) : nat := body_end - (length (restarts_of es) * 2 + 2).

Definition data_body (es : list SstEntry) : bytes :=
  payload_of es ++ replicate (rstart_of es - payload_len es) 0%Z ++
  restart_bytes (restarts_of es) ++ to_le 2 (Z.of_nat (length (restarts_of es))).

(** What [entry_fits] and the writer's checks establish of a block. *)
Record block_wf (es : list SstEntry) : Prop := {
  bw_nonempty : es <> [];
  bw_entries : Forall entry_wf es;
  bw_room : (payload_len es + length (restarts_of es) * 2 + 2 <= body_end)%nat;
  bw_offsets : Forall (fun r => (0 <= r <= U16_MAX)%Z) (restarts_of es);
  bw_restarts : (length (restarts_of es) <= 128)%nat;
}.

Lemma length_data_body es : block_wf es -> length (data_body es) = body_end.
Proof.
  intros [_ _ Hr _ _]. unfold data_body, rstart_of.
  rewrite !length_app, length_replicate, length_restart_bytes, length_to_le.
  fold (payload_len es). lia.
Qed.

Lemma body_parses es pre e suf :
  block_wf es -> es = pre ++ e :: suf ->
  data_entry_parse (data_body es) (payload_len pre) = Some (parsed_of e, payload_len (pre ++ [e])).
Proof.
  intros Hw ->. pose proof (bw_entries _ Hw) as Hf. apply Forall_app in Hf as [_ [He _]%Forall_cons].
  unfold data_body. rewrite payload_of_app, payload_of_cons, <- !app_assoc.
  unfold payload_len at 1. rewrite entry_parses by done. by rewrite payload_len_snoc.
Qed.

Lemma restarts_head es : es <> [] -> exists rs, restarts_of es = 0%Z :: rs.
Proof.
  intros Hne. unfold restarts_of.
  assert (n_restarts (length es) = S (n_restarts (length es) - 1)) as ->.
  { destruct es as [|e es]; [done |]. cbn [length]. unfold n_restarts, RESTART_INTERVAL.
    replace (S (length es) + 15)%nat with (length es + 1 * 16)%nat by lia. rewrite Nat.div_add by lia. lia. }
  cbn [seq map]. rewrite Nat.mul_0_r, take_0. eauto.
Qed.

(** Behind the entries there are zeros up to the restart offsets, and the first of
    those is zero as well. *)
Lemma body_end_zeros es :
  block_wf es -> (payload_len es < rstart_of es)%nat ->
  data_entry_parse (data_body es) (payload_len es) = None /\
  all_zero (sub (payload_len es) (rstart_of es - payload_len es) (data_body es)) = true.
Proof.
  intros Hw Hlt. set (z := (rstart_of es - payload_len es)%nat) in *. split.
  - destruct (restarts_head es (bw_nonempty _ Hw)) as [rs Ers].
    assert (slice_at (data_body es) (payload_len es) 2 = Some [0; 0]%Z) as Hs.
    { unfold data_body. rewrite Ers. fold z. rewrite slice_skip by (unfold payload_len; lia).
      destruct z as [|[|z']] eqn:Ez; [lia | |]; cbn [replicate app];
        apply (slice_front [0; 0]%Z); unfold payload_len; cbn; lia. }
    unfold data_entry_parse. rewrite Hs. done.
  - unfold data_body. fold z. rewrite sub_mid by (rewrite ?length_replicate; done).
    apply all_zero_spec; [apply bytes_ok_replicate |]. by apply Forall_replicate.
Qed.

Lemma body_restart es j :
  block_wf es -> (j < length (restarts_of es))%nat ->
  restart_at (data_body es) (rstart_of es) j =
  Some (payload_len (take (RESTART_INTERVAL * j) es)).
Proof.
  intros Hw Hj. rewrite length_restarts_of in Hj.
  pose proof (restarts_lookup es j Hj) as Hl. pose proof (restarts_below es j Hj) as Hb.
  pose proof (proj1 (Forall_lookup _ _) (bw_offsets _ Hw) _ _ Hl) as Ho. cbn in Ho.
  set (off := payload_len (take (RESTART_INTERVAL * j) es)) in *.
  unfold restart_at, data_body. rewrite app_assoc.
  assert (length (payload_of es ++ replicate (rstart_of es - payload_len es) 0%Z) = rstart_of es) as Hlen.
  { rewrite length_app, length_replicate. fold (payload_len es). pose proof (bw_room _ Hw).
    unfold rstart_of. lia. }
  rewrite <- Hlen at 2. rewrite (restart_slice _ _ _ _ _ Hl). cbn [mbind option_bind].
  rewrite from_to_le, Nat2Z.id by (cbn; unfold U16_MAX in *; lia).
  rewrite (proj2 (Nat.leb_gt _ _)); [done |].
  assert (off < payload_len es)%nat.
  { destruct (lookup_lt_is_Some_2 es (RESTART_INTERVAL * j) Hb) as [e He].
    unfold off. rewrite <- (take_drop_middle _ _ _ He) at 2.
    rewrite payload_len_app, payload_len_cons. pose proof (elen_pos e). lia. }
  pose proof (bw_room _ Hw). unfold rstart_of. lia.
Qed.

(** ** What a search returns *)

(** An entry of [key] that a read at [mx] sees. *)
Definition visible (key : bytes) (mx : u64) (e : SstEntry) : bool :=
  bytes_eqb (se_key e) key && (se_seq e <=? mx)%Z.

Definition key_ordered (es : list SstEntry) : Prop :=
  StronglySorted (fun a b => bytes_le (se_key a) (se_key b)) es.

(** The first visible entry; without one, whether a larger key was seen. *)
Definition block_result (es : list SstEntry) (key val_buf : bytes) (mx : u64)
  : result (BlockOutcome * bytes) (Error E) :=
  match List.find (visible key mx) es with
  | Some e => take_hit (parsed_of e) val_buf
  | None => Ok (if existsb (fun e => bytes_ltb key (se_key e)) es then Absent else Truncated, val_buf)
  end.

Lemma find_all_false {A} (f : A -> bool) l : Forall (fun a => f a = false) l -> List.find f l = None.
Proof. induction 1 as [|a l Ha Hl IH]; [done |]. cbn [List.find]. by rewrite Ha. Qed.

Lemma visible_lt key mx e : bytes_lt (se_key e) key -> visible key mx e = false.
Proof.
  intros Hlt. unfold visible. destruct (bytes_eqb _ _) eqn:Ee; [| done].
  apply bytes_eqb_spec in Ee. subst. by apply (irreflexivity bytes_lt) in Hlt.
Qed.

Lemma visible_gt key mx e : bytes_lt key (se_key e) -> visible key mx e = false.
Proof.
  intros Hlt. unfold visible. destruct (bytes_eqb _ _) eqn:Ee; [| done].
  apply bytes_eqb_spec in Ee. subst. by apply (irreflexivity bytes_lt) in Hlt.
Qed.

(** Smaller keys in front change nothing. *)
Lemma block_result_skip pre suf key buf mx :
  Forall (fun e => bytes_lt (se_key e) key) pre ->
  block_result (pre ++ suf) key buf mx = block_result suf key buf mx.
Proof.
  unfold block_result. induction 1 as [|e pre He Hp IH]; [done |].
  cbn [app List.find existsb]. rewrite visible_lt by done.
  rewrite (proj2 (bytes_ltb_ge _ _)) by (by apply bytes_lt_le). cbn [orb]. done.
Qed.

(** A larger key in front decides. *)
Lemma block_result_absent e suf key buf mx :
  key_ordered (e :: suf) -> bytes_lt key (se_key e) ->
  block_result (e :: suf) key buf mx = Ok (Absent, buf).
Proof.
  intros [_ Hs]%StronglySorted_inv Hlt. unfold block_result. rewrite find_all_false.
  - cbn [existsb]. by rewrite (proj2 (bytes_ltb_spec _ _)).
  - constructor; [by apply visible_gt |]. eapply Forall_impl; [exact Hs |]. intros e' He'. cbn in He'.
    apply visible_gt. eapply bytes_lt_le_trans; eauto.
Qed.

(** The end of the entries, in both loops. *)
Lemma block_result_nil key buf mx : block_result [] key buf mx = Ok (Truncated, buf).
Proof. done. Qed.

(** An entry of the key that is too new is passed over. *)
Lemma block_result_newer e suf key buf mx :
  se_key e = key -> (mx < se_seq e)%Z ->
  block_result (e :: suf) key buf mx = block_result suf key buf mx.
Proof.
  intros <- Hs. unfold block_result. cbn [List.find existsb]. unfold visible at 1.
  rewrite (proj2 (Z.leb_gt _ _)), andb_false_r by done.
  rewrite (proj2 (bytes_ltb_ge _ _)) by apply bytes_le_refl. done.
Qed.

Lemma run_loop_result es key buf id mx fuel suf : forall pre e,
  block_wf es -> es = pre ++ e :: suf -> key_ordered (e :: suf) -> se_key e = key ->
  (rstart_of es - payload_len (pre ++ [e]) <= fuel)%nat ->
  run_loop fuel (data_body es) key buf (rstart_of es) id mx (parsed_of e) (payload_len (pre ++ [e])) =
  block_result (e :: suf) key buf mx.
Proof.
  revert fuel. induction suf as [|e' suf IH]; intros fuel pre e Hw Ees Hso Hk Hf;
    destruct fuel as [|fuel]; cbn [run_loop]; change (pe_seq (parsed_of e)) with (se_seq e);
    (destruct (se_seq e <=? mx)%Z eqn:Eseq;
      [unfold block_result; cbn [List.find]; unfold visible at 1;
       by rewrite Eseq, Hk, bytes_eqb_refl |]); apply Z.leb_gt in Eseq;
    rewrite block_result_newer by done;
    assert (payload_len es <= rstart_of es)%nat as Hp
      by (pose proof (bw_room _ Hw); unfold rstart_of; lia).
  - rewrite (proj2 (Nat.leb_le _ _)) by lia. done.
  - destruct (rstart_of es <=? payload_len (pre ++ [e]))%nat eqn:Er; [done |]. bool_lia.
    rewrite <- Ees in *. destruct (body_end_zeros es Hw Er) as [Hn Hz]. rewrite Hn.
    unfold entries_end. by rewrite Hz.
  - exfalso. rewrite Ees in Hp at 1. rewrite !payload_len_app, !payload_len_cons in Hp.
    rewrite payload_len_snoc in Hf. pose proof (elen_pos e'). lia.
  - assert (es = (pre ++ [e]) ++ e' :: suf) as Ees' by (by rewrite <- app_assoc).
    assert (payload_len (pre ++ [e]) < rstart_of es)%nat as Hlt.
    { rewrite Ees' in Hp at 1. rewrite payload_len_app, payload_len_cons in Hp.
      pose proof (elen_pos e'). lia. }
    rewrite (proj2 (Nat.leb_gt _ _)) by done.
    rewrite (body_parses es _ _ _ Hw Ees'). change (pe_key (parsed_of e')) with (se_key e').
    apply StronglySorted_inv in Hso as [Hso Hle].
    destruct (bytes_eqb (se_key e') key) eqn:Ek; cbn [negb].
    + apply bytes_eqb_spec in Ek. apply IH; auto.
      rewrite payload_len_snoc. pose proof (elen_pos e'). lia.
    + rewrite block_result_absent; [done | done |]. apply Forall_inv in Hle. rewrite Hk in Hle.
      apply bytes_le_lteq in Hle as [? | ->]; [done |]. by rewrite bytes_eqb_refl in Ek.
Qed.

Lemma scan_loop_result es key buf id mx suf : forall fuel pre,
  block_wf es -> es = pre ++ suf -> key_ordered suf ->
  (rstart_of es - payload_len pre <= fuel)%nat ->
  scan_loop fuel (data_body es) key buf (rstart_of es) id mx (payload_len pre) =
  block_result suf key buf mx.
Proof.
  induction suf as [|e suf IH]; intros fuel pre Hw Ees Hso Hf;
    assert (payload_len es <= rstart_of es)%nat as Hp
      by (pose proof (bw_room _ Hw); unfold rstart_of; lia).
  - rewrite app_nil_r in Ees. subst pre.
    destruct fuel as [|fuel]; cbn [scan_loop].
    { by rewrite (proj2 (Nat.ltb_ge _ _)) by lia. }
    destruct (payload_len es <? rstart_of es)%nat eqn:Er; [| done]. bool_lia.
    destruct (body_end_zeros es Hw Er) as [Hn Hz]. rewrite Hn. unfold entries_end. by rewrite Hz.
  - assert (payload_len pre + elen e <= payload_len es)%nat as Hpe
      by (rewrite Ees, payload_len_app, payload_len_cons; lia).
    pose proof (elen_pos e) as Hel. destruct fuel as [|fuel]; [lia |]. cbn [scan_loop].
    rewrite (proj2 (Nat.ltb_lt _ _)) by lia.
    rewrite (body_parses es _ _ _ Hw Ees). change (pe_key (parsed_of e)) with (se_key e).
    destruct (bytes_cmp (se_key e) key) eqn:Ec.
    + apply bytes_cmp_eq in Ec. apply run_loop_result; auto. rewrite payload_len_snoc. lia.
    + etrans; [| symmetry; apply (block_result_skip [e]); by constructor]. apply IH; [done | | |].
      * by rewrite <- app_assoc.
      * apply StronglySorted_inv in Hso. tauto.
      * rewrite payload_len_snoc. lia.
    + rewrite block_result_absent; [done | done |]. unfold bytes_lt.
      by rewrite bytes_cmp_antisym, Ec.
Qed.

(** The restart search ends at a restart whose predecessor is below the key. *)
Lemma restart_loop_result es key id fuel lo hi :
  block_wf es -> (hi <= length (restarts_of es))%nat -> (lo <= hi)%nat -> (hi - lo <= fuel)%nat ->
  (lo = 0%nat \/ exists e, es !! (RESTART_INTERVAL * (lo - 1))%nat = Some e /\ bytes_lt (se_key e) key) ->
  exists r, restart_loop (E := E) fuel (data_body es) key (rstart_of es) lo hi id = Ok r /\
    (r <= hi)%nat /\
    (r = 0%nat \/ exists e, es !! (RESTART_INTERVAL * (r - 1))%nat = Some e /\ bytes_lt (se_key e) key).
Proof.
  intros Hw. revert lo hi. induction fuel as [|fuel IH]; intros lo hi Hhi Hle Hf Hlo; cbn [restart_loop].
  { rewrite (proj2 (Nat.ltb_ge _ _)) by lia. exists lo. auto. }
  destruct (lo <? hi)%nat eqn:Eb; bool_lia; [| exists lo; auto].
  set (mid := (lo + (hi - lo) / 2)%nat).
  assert ((hi - lo) / 2 < hi - lo)%nat by (apply Nat.div_lt; lia).
  rewrite body_restart by (auto; unfold mid; lia). cbn [mbind option_bind].
  assert (RESTART_INTERVAL * mid < length es)%nat as Hm
    by (apply restarts_below; rewrite <- length_restarts_of; unfold mid; lia).
  destruct (lookup_lt_is_Some_2 es _ Hm) as [e He].
  rewrite (body_parses es _ e (drop (S (RESTART_INTERVAL * mid)) es) Hw)
    by (symmetry; by apply take_drop_middle).
  change (pe_key (parsed_of e)) with (se_key e).
  destruct (bytes_ltb (se_key e) key) eqn:Ek.
  - destruct (IH (mid + 1) hi)%nat as (r & Er & Hr & Hk); try (unfold mid; lia).
    { right. exists e. replace (mid + 1 - 1)%nat with mid by lia. by apply bytes_ltb_spec in Ek. }
    exists r. auto.
  - destruct (IH lo mid)%nat as (r & Er & Hr & Hk); try (unfold mid; lia); auto.
    exists r. repeat split; auto. unfold mid in *. lia.
Qed.

Lemma key_ordered_app a b : key_ordered (a ++ b) ->
  key_ordered a /\ key_ordered b /\
  forall x y, x ∈ a -> y ∈ b -> bytes_le (se_key x) (se_key y).
Proof.
  induction a as [|e a IH]; cbn [app].
  { intros. repeat split; [constructor | done |]. intros x y Hx. by apply not_elem_of_nil in Hx. }
  intros [Hs Hf]%StronglySorted_inv. destruct (IH Hs) as (Ha & Hb & Hab).
  apply Forall_app in Hf as [Hfa Hfb]. repeat split; [by constructor | done |].
  intros x y [-> | Hx]%elem_of_cons Hy; [| auto]. rewrite Forall_forall in Hfb. auto.
Qed.

(** Searching a block gives its first visible entry of the key, and otherwise says
    whether a larger key was seen. *)
Lemma data_lookup_result es key buf id mx :
  block_wf es -> key_ordered es ->
  data_lookup (data_body es) key buf id mx = block_result es key buf mx.
Proof.
  intros Hw Hso. unfold data_lookup. rewrite length_data_body by done.
  pose proof (bw_room _ Hw) as Hr. pose proof (bw_restarts _ Hw) as Hc.
  destruct (restarts_head es (bw_nonempty _ Hw)) as [rs Ers].
  assert (1 <= length (restarts_of es))%nat as H1 by (rewrite Ers; cbn; lia).
  assert (13 <= payload_len es)%nat as H2.
  { destruct es as [|e es']; [by destruct (bw_nonempty _ Hw) |].
    rewrite payload_len_cons. pose proof (elen_pos e). lia. }
  assert (drop (body_end - 2) (data_body es) = to_le 2 (Z.of_nat (length (restarts_of es)))) as Hd.
  { unfold data_body. rewrite !app_assoc. apply drop_app_length'.
    pose proof (length_data_body es Hw) as Hl. unfold data_body in Hl.
    rewrite !length_app, length_to_le in *. lia. }
  rewrite Hd, from_to_le, Nat2Z.id by (change (2 ^ (8 * Z.of_nat 2))%Z with 65536%Z; lia).
  rewrite !(proj2 (Nat.ltb_ge _ _)) by lia.
  replace (body_end - (2 + length (restarts_of es) * 2))%nat with (rstart_of es)
    by (unfold rstart_of; lia).
  destruct (restart_loop_result es key id (length (restarts_of es)) 0 (length (restarts_of es)))
    as (r & -> & Hrle & Hk); auto; try lia.
  assert (exists pre suf, es = pre ++ suf /\ Forall (fun e => bytes_lt (se_key e) key) pre /\
    (if (r =? 0)%nat then Some 0%nat else restart_at (data_body es) (rstart_of es) (r - 1)) =
      Some (payload_len pre)) as (pre & suf & Ees & Hpre & Hoff).
  { destruct Hk as [-> | (e & He & Hlt)]; [exists [], es; by repeat split |].
    destruct (r =? 0)%nat eqn:E0; [exists [], es; by repeat split |]. bool_lia.
    exists (take (RESTART_INTERVAL * (r - 1)) es), (drop (RESTART_INTERVAL * (r - 1)) es).
    split; [by rewrite take_drop |]. split; [| apply body_restart; auto; lia].
    rewrite <- (take_drop_middle _ _ _ He) in Hso.
    apply key_ordered_app in Hso as (_ & _ & Hab). apply Forall_forall. intros x Hx.
    eapply bytes_le_lt_trans; [| exact Hlt]. apply Hab; [done | left]. }
  rewrite Hoff, (scan_loop_result es key buf id mx suf); auto.
  - symmetry. rewrite Ees. by apply block_result_skip.
  - rewrite Ees in Hso. apply key_ordered_app in Hso; tauto.
Qed.
End body.
