(* ===== verification/SstImage.v ===== *)
(** * Sealed block images: [src/sstable.rs]

    What [seal_block] writes and what the read funnel makes of it: every sealed
    block passes its checksum, a data block read back gives its body whether it
    was stored raw or compressed, and a read through a truthful cache returns what
    the device holds. *)

From stdpp Require Import base numbers list.
From Stdlib Require Import ZArith Lia.
From S2P Require Import Prelude Device Crc Compress Cache Wal Manifest SstPlan SstWriter SstReader SstBlock.

Section image.
  Context {D E : Type} `{Dev : !BlockDevice D E}.

(** A body followed by its checksum. *)
Definition image (x : bytes) : bytes := x ++ to_le 4 (crc32 x).

(** Bodies of the block size. *)
Definition body_ok (x : bytes) : Prop := length x = body_end /\ bytes_ok x.

Lemma length_image x : (CRC_LEN <= BLOCK)%nat -> body_ok x -> length (image x) = BLOCK.
Proof.
  intros HB [Hl _]. unfold image. rewrite length_app, length_to_le, Hl. unfold body_end, CRC_LEN in *. lia.
Qed.

Lemma image_bytes x : body_ok x -> bytes_ok (image x).
Proof. intros [_ Hb]. apply bytes_ok_app. auto with horton. Qed.

Lemma image_body x : body_ok x -> take body_end (image x) = x.
Proof. intros [Hl _]. unfold image. by apply take_app_length'. Qed.

Lemma image_checks x id : body_ok x -> check_block_crc (image x) id = Ok tt.
Proof.
  intros Hx. pose proof (image_body x Hx) as Ht. destruct Hx as [Hl Hb].
  unfold check_block_crc. fold body_end. rewrite Ht. unfold image.
  rewrite drop_app_length' by done. rewrite from_to_le by (by apply crc32_fits).
  by rewrite Z.eqb_refl.
Qed.

(** A slice of the body is a slice of the image. *)
Lemma image_sub x off n : body_ok x -> (off + n <= body_end)%nat -> sub off n (image x) = sub off n x.
Proof. intros [Hl _] Hle. unfold image. apply sub_app_l. lia. Qed.

(** ** Data bodies as stored *)

(** [x] is [body] raw, or a compressed form of it that inflates to [body]. *)
Definition inflates (x body : bytes) : Prop :=
  let trailer := from_le (sub (body_end - 2) 2 x) in
  (Z.land trailer 0x8000 = 0%Z /\ x = body) \/
  (Z.land trailer 0x8000 <> 0%Z /\ (Z.to_nat (Z.land trailer 0x7FFF) < body_end)%nat /\
   forall dst, length dst = body_end ->
     decompress (take (Z.to_nat (Z.land trailer 0x7FFF)) x) dst = Done body).

Lemma inflate_image x body decomp id :
  (6 <= BLOCK)%nat -> body_ok x -> inflates x body -> length body = body_end -> length decomp = BLOCK ->
  exists b dec, inflate_data_block (image x) decomp id = Ok (b, dec) /\ length dec = BLOCK /\
    take body_end (if b then dec else image x) = body.
Proof.
  intros HB Hx Hi Hbody Hd. unfold inflate_data_block.
  rewrite (proj2 (Nat.ltb_ge _ _)) by (unfold CRC_LEN; lia).
  rewrite image_sub by (auto; unfold body_end, CRC_LEN; lia).
  destruct Hi as [[Ht ->] | (Ht & Hc & Hdec)].
  - rewrite (proj2 (Z.eqb_eq _ _)) by done. exists false, decomp. rewrite image_body by done. auto.
  - rewrite (proj2 (Z.eqb_neq _ _)) by done. rewrite (proj2 (Nat.leb_gt _ _)) by done.
    set (clen := Z.to_nat (Z.land (from_le (sub (body_end - 2) 2 x)) 0x7FFF)) in *.
    assert (take clen (image x) = take clen x) as ->.
    { destruct Hx as [Hl _]. unfold image. apply take_app_le. lia. }
    rewrite Hdec by (rewrite length_take; unfold body_end in *; lia).
    exists true, (body ++ drop body_end decomp). split; [done |].
    rewrite length_app, length_drop, Hd, Hbody. split; [unfold body_end; lia |].
    by apply take_app_length'.
Qed.

(** ** What a seal writes *)

Lemma fill_zero_mid from to (buf : bytes) :
  (from <= to <= length buf)%nat ->
  fill_zero from to buf = take from buf ++ replicate (to - from) 0%Z ++ drop to buf.
Proof.
  intros Hle. unfold fill_zero, splice. rewrite length_replicate. do 2 f_equal. f_equal. lia.
Qed.

(** The outcome of the one device write of a seal. *)
Definition wrote (d : D) (id : u64) (b : bytes) (d' : D) (r : result unit (Error E)) : Prop :=
  match write_block d id b with
  | (d1, Ok _) => d' = d1 /\ r = Ok tt
  | (d1, Err e) => d' = d1 /\ r = Err (Device e)
  end.

(** The last step of a seal: checksum and write. *)
Lemma seal_write x tail :
  (CRC_LEN <= BLOCK)%nat -> body_ok x -> length tail = CRC_LEN ->
  splice body_end (to_le 4 (crc32 (take body_end (x ++ tail)))) (x ++ tail) = image x.
Proof.
  intros HB [Hl _] Ht. rewrite (take_app_length' x) by done.
  rewrite splice_end.
  - by rewrite take_app_length'.
  - rewrite length_app, length_to_le, Ht, Hl. done.
Qed.

(** Bloom, index and footer blocks: the payload padded with zeros. *)
Lemma seal_plain d id buf plen d' b' cs r :
  (CRC_LEN <= BLOCK)%nat -> length buf = BLOCK -> bytes_ok (take plen buf) -> (plen <= body_end)%nat ->
  seal_block d id buf plen None None = (d', b', cs, r) ->
  let x := take plen buf ++ replicate (body_end - plen) 0%Z in
  body_ok x /\ b' = image x /\ wrote d id b' d' r.
Proof.
  intros HB Hl Hb Hp Es x. unfold seal_block, seal_tail, seal_compress in Es.
  assert (length x = body_end) as Hx
    by (unfold x; rewrite length_app, length_take, length_replicate, Hl; unfold body_end in *; lia).
  assert (body_ok x) as Hok by (split; [done |]; apply bytes_ok_app; auto with horton).
  rewrite fill_zero_mid in Es by (unfold body_end in *; lia). rewrite app_assoc in Es. fold x in Es.
  rewrite seal_write in Es by (auto; rewrite length_drop, Hl; unfold body_end, CRC_LEN in *; lia).
  split; [done |]. unfold wrote.
  destruct (write_block d id (image x)) as [d1 [[] | e]] eqn:Ew; injection Es as <- <- _ <-;
    (split; [done |]); by rewrite Ew.
Qed.

Lemma bytes_ok_take n l : bytes_ok l -> bytes_ok (take n l).
Proof. apply Forall_take. Qed.

Lemma u16_low x : (0 <= x < 2 ^ 15)%Z -> Z.land x 0x8000 = 0%Z /\ Z.land x 0x7FFF = x.
Proof.
  intros Hx. split.
  - apply Z.bits_inj'. intros i Hi. rewrite Z.land_spec, Z.bits_0.
    destruct (decide (i = 15)%Z) as [-> | Hne].
    + rewrite (Z.testbit_odd x), Z.shiftr_div_pow2, (Z.div_small x) by lia. done.
    + change 0x8000%Z with (2 ^ 15)%Z. rewrite Z.pow2_bits_false by lia. by rewrite andb_false_r.
  - change 0x7FFF%Z with (Z.ones 15). rewrite Z.land_ones by lia. by apply Z.mod_small.
Qed.

(** The flag and length of a compressed block's trailer. *)
Lemma trailer_flag clen :
  (0 <= clen < 2 ^ 15)%Z ->
  let t := Z.lor 0x8000 (Z.land (wrap 16 clen) 0x7FFF) in
  (0 <= t < 65536)%Z /\ Z.land t 0x8000 <> 0%Z /\ Z.land t 0x7FFF = clen.
Proof.
  intros Hc t. destruct (u16_low clen Hc) as [H0 H1].
  assert (t = (0x8000 + clen)%Z) as Et.
  { unfold t, wrap. rewrite Z.mod_small, H1 by lia. symmetry.
    rewrite Z.add_nocarry_lxor, Z.lxor_lor; [done | |]; by rewrite Z.land_comm. }
  rewrite Et. split; [lia |].
  assert (Z.lor 0x8000 clen = (0x8000 + clen)%Z) as El.
  { symmetry. rewrite Z.add_nocarry_lxor, Z.lxor_lor; [done | |]; by rewrite Z.land_comm. }
  rewrite <- El, !Z.land_lor_distr_l, H0, H1. split; done.
Qed.

Lemma payload_bytes_ok es : Forall entry_wf es -> bytes_ok (payload_of es).
Proof.
  induction 1 as [|e es (_ & _ & _ & _ & Hk & Hv) Hes IH]; [constructor |].
  rewrite payload_of_cons. apply bytes_ok_app. split; [| done]. unfold entry_bytes.
  repeat (apply bytes_ok_app; split); auto with horton.
  - constructor; [| constructor]. unfold fits. destruct (se_op e); cbn; lia.
  - destruct (se_ttl e); [auto with horton | constructor].
Qed.

Lemma data_body_ok es : block_wf es -> body_ok (data_body es).
Proof.
  intros Hw. split; [by apply length_data_body |]. unfold data_body.
  repeat (apply bytes_ok_app; split); auto with horton.
  - apply payload_bytes_ok, (bw_entries _ Hw).
  - unfold restart_bytes. generalize (restarts_of es) as rs. induction rs as [|r rs IH]; [constructor |].
    cbn [map concat]. apply bytes_ok_app. auto with horton.
Qed.

Lemma data_body_trailer es :
  block_wf es -> sub (body_end - 2) 2 (data_body es) = to_le 2 (Z.of_nat (length (restarts_of es))).
Proof.
  intros Hw. pose proof (length_data_body es Hw) as Hl. unfold data_body in *. rewrite !app_assoc in *.
  rewrite length_app, length_to_le in Hl. unfold sub. rewrite drop_app_length' by lia.
  by apply take_ge; rewrite length_to_le.
Qed.

(** The tail a data seal adds makes the body. *)
Lemma seal_tail_data es buf :
  block_wf es -> length buf = BLOCK -> take (payload_len es) buf = payload_of es ->
  seal_tail buf (payload_len es) (Some (restarts_of es)) =
  (data_body es ++ drop body_end buf, Ok tt).
Proof.
  intros Hw Hl Hp. pose proof (bw_room _ Hw) as Hr. pose proof (bw_restarts _ Hw) as Hc.
  unfold seal_tail. rewrite (proj2 (Nat.ltb_ge body_end _)) by lia.
  change (body_end - (length (restarts_of es) * 2 + 2))%nat with (rstart_of es).
  assert (payload_len es <= rstart_of es)%nat as Hle by (unfold rstart_of; lia).
  assert (rstart_of es + length (restarts_of es) * 2 + 2 = body_end)%nat as Hre by (unfold rstart_of; lia).
  assert (body_end <= BLOCK)%nat as HbB by (unfold body_end; lia).
  rewrite (proj2 (Nat.ltb_ge (rstart_of es) _)) by lia.
  rewrite try_u16_le by (unfold U16_MAX; lia).
  rewrite fill_zero_mid, Hp by lia. rewrite app_assoc.
  set (P := payload_of es ++ replicate (rstart_of es - payload_len es) 0%Z).
  assert (length P = rstart_of es) as HP
    by (unfold P; rewrite length_app, length_replicate; fold (payload_len es); lia).
  fold (restart_bytes (restarts_of es)). rewrite splice_app.
  2: { by rewrite length_restart_bytes. }
  2: { rewrite length_restart_bytes, length_to_le, length_app, length_drop, HP. lia. }
  unfold splice. rewrite take_app_length' by done. unfold data_body. fold P.
  rewrite length_app, length_restart_bytes, length_to_le.
  rewrite drop_app_ge, drop_drop, HP by lia. unfold P. rewrite <- !app_assoc. do 6 f_equal. lia.
Qed.

(** The compressed form of a body: the stream, padding and the flagged length. *)
Lemma seal_flagged (c body tail : bytes) (flag : Z) :
  length body = body_end -> (length c + 2 <= body_end)%nat ->
  splice (body_end - 2) (to_le 2 flag)
    (fill_zero (length c) body_end (splice 0 c (body ++ tail))) =
  (c ++ replicate (body_end - 2 - length c) 0%Z ++ to_le 2 flag) ++ tail.
Proof.
  intros Hb Hc.
  assert (splice 0 c (body ++ tail) = (c ++ drop (length c) body) ++ tail) as ->.
  { unfold splice. rewrite take_0, Nat.add_0_l, drop_app_le by lia. by rewrite <- app_assoc. }
  assert (length (c ++ drop (length c) body) = body_end) as Hl
    by (rewrite length_app, length_drop; lia).
  rewrite fill_zero_mid by (rewrite length_app; lia).
  rewrite <- app_assoc, take_app_length, (app_assoc c (drop _ body) tail), drop_app_length' by done.
  replace (body_end - length c)%nat with ((body_end - 2 - length c) + 2)%nat by lia.
  rewrite replicate_add, <- !app_assoc, !(app_assoc c).
  apply splice_mid; [rewrite length_app, length_replicate; lia |].
  by rewrite length_to_le, length_replicate.
Qed.

(** Sealing a data block stores its body, raw or compressed. *)
Lemma seal_data_image d id es buf cs d' b' cs' r :
  (CRC_LEN <= BLOCK)%nat -> block_wf es -> length buf = BLOCK ->
  take (payload_len es) buf = payload_of es ->
  seal_block d id buf (payload_len es) (Some (restarts_of es)) cs = (d', b', cs', r) ->
  exists x, body_ok x /\ inflates x (data_body es) /\ b' = image x /\ wrote d id b' d' r.
Proof.
  intros HB Hw Hl Hp. unfold seal_block. rewrite seal_tail_data by done.
  pose proof (data_body_ok es Hw) as Hok. pose proof Hok as [Hbl Hbb].
  pose proof (bw_room _ Hw) as Hr. pose proof (bw_restarts _ Hw) as Hrs.
  assert (length (drop body_end buf) = CRC_LEN) as Htl
    by (rewrite length_drop, Hl; unfold body_end, CRC_LEN in *; lia).
  assert (inflates (data_body es) (data_body es)) as Hraw.
  { left. split; [| done]. rewrite data_body_trailer by done.
    rewrite from_to_le by (change (2 ^ (8 * Z.of_nat 2))%Z with 65536%Z; lia). apply u16_low. lia. }
  assert (forall x d1 c1, body_ok x -> inflates x (data_body es) ->
    (let buf := splice body_end (to_le 4 (crc32 (take body_end (x ++ drop body_end buf))))
                  (x ++ drop body_end buf) in
     match write_block d1 id buf with
     | (d, Err e) => (d, buf, c1, Err (Device e))
     | (d, Ok _) => (d, buf, c1, Ok tt)
     end) = (d', b', cs', r) -> d1 = d ->
    exists x, body_ok x /\ inflates x (data_body es) /\ b' = image x /\ wrote d id b' d' r) as Hfin.
  { intros x d1 c1 Hx Hi Es ->. cbn zeta in Es. rewrite seal_write in Es by done. exists x.
    split; [done |]. split; [done |]. unfold wrote.
    destruct (write_block d id (image x)) as [d1 [[] | e]] eqn:Ew; injection Es as <- <- _ <-;
      (split; [done |]); by rewrite Ew. }
  unfold seal_compress. destruct cs as [s |]; [| intros Es; by eapply Hfin in Es].
  rewrite (take_app_length' (data_body es)) by done.
  destruct (compress BLOCK s (data_body es)) as [s' [clen |]] eqn:Ec; [| intros Es; by eapply Hfin in Es].
  destruct (compress_shape _ _ _ _ _ Ec) as (_ & -> & Hsave & H15 & _).
  unfold COMPRESS_MIN_SAVING in Hsave. fold CRC_LEN body_end in Hsave.
  set (flag := Z.lor 0x8000 (Z.land (wrap 16 (Z.of_nat (length (out s')))) 0x7FFF)).
  destruct (trailer_flag (Z.of_nat (length (out s')))) as (Hf & Hf1 & Hf2); [lia |]. fold flag in Hf, Hf1, Hf2.
  rewrite (take_ge (out s')) by done. rewrite seal_flagged by (auto; lia).
  set (x := out s' ++ replicate (body_end - 2 - length (out s')) 0%Z ++ to_le 2 flag).
  assert (length x = body_end) as Hxl
    by (unfold x; rewrite !length_app, length_replicate, length_to_le; lia).
  assert (sub (body_end - 2) 2 x = to_le 2 flag) as Htr.
  { unfold x, sub. rewrite app_assoc, drop_app_length' by (rewrite length_app, length_replicate; lia).
    by apply take_ge; rewrite length_to_le. }
  intros Es. eapply (Hfin x) in Es; [done | | |done].
  - split; [done |]. unfold x. repeat (apply bytes_ok_app; split); auto with horton.
    by eapply compress_out_ok.
  - right. rewrite Htr, from_to_le, Hf2, Nat2Z.id by (change (2 ^ (8 * Z.of_nat 2))%Z with 65536%Z; lia).
    repeat split; [done | lia |]. intros dst Hd.
    replace (take (length (out s')) x) with (out s' ++ []).
    + eapply compress_inverts; [exact Ec | by rewrite Hd].
    + unfold x. by rewrite take_app_length, app_nil_r.
Qed.
End image.

(** ** Reads through a truthful cache

    [L t b] says that block [b] belongs to the live table [t].  A cache is truthful
    when its images of live blocks are the device's. *)

Section reads.
  Context {D E : Type} `{Laws : DeviceLaws D E}.

Definition truthful (d : D) (L : u32 -> u64 -> Prop) (c : option CacheCell) : Prop :=
  match c with
  | None => True
  | Some p =>
      wf (cell p) /\
      forall t b blk, holds (cell p) t b blk -> L t b -> read_block d b = Ok blk
  end.

(** What the cache, if there is one, holds; a computation adds live blocks only. *)
Definition held (c : option CacheCell) (t : u32) (b : u64) (blk : bytes) : Prop :=
  match c with None => False | Some p => holds (cell p) t b blk end.
Definition grows (L : u32 -> u64 -> Prop) (c c' : option CacheCell) : Prop :=
  forall t b blk, held c' t b blk -> held c t b blk \/ L t b.

(** From any truthful cache, [m] returns [r] and leaves a truthful cache. *)
Definition yields {A} (d : D) (L : u32 -> u64 -> Prop) (m : cached E A) (r : result A (Error E)) : Prop :=
  forall c, truthful d L c -> exists c', m c = Some (c', r) /\ truthful d L c' /\ grows L c c'.

  Context (d : D) (L : u32 -> u64 -> Prop).

Lemma yields_pure {A} (r : result A (Error E)) : yields d L (pure r) r.
Proof. intros c Hc. exists c. split_and!; [done | done |]. intros t b blk Hh. by left. Qed.

Lemma yields_ret {A} (a : A) : yields d L (cret a) (Ok a).
Proof. apply yields_pure. Qed.

Lemma yields_bind {A B} (m : cached E A) (f : A -> cached E B) r r' :
  yields d L m r ->
  match r with Ok a => yields d L (f a) r' | Err e => r' = Err e end ->
  yields d L (cbind m f) r'.
Proof.
  intros Hm Hf c Hc. destruct (Hm c Hc) as (c1 & E1 & Hc1 & Hg1). unfold cbind. rewrite E1.
  destruct r as [a | e]; [| subst r'; eauto]. destruct (Hf c1 Hc1) as (c2 & E2 & Hc2 & Hg2).
  exists c2. split_and!; [done | done |]. intros t b blk Hh. destruct (Hg2 t b blk Hh); auto.
Qed.

Lemma yields_bind_ok {A B} (m : cached E A) (f : A -> cached E B) a r :
  yields d L m (Ok a) -> yields d L (f a) r -> yields d L (cbind m f) r.
Proof. intros. eapply yields_bind; eauto. Qed.

Lemma yields_fetch t b hot :
  L t b -> yields d L (fetch d t b hot) (map_err Device (read_block d b)).
Proof.
  intros HL c Hc. unfold fetch. destruct c as [p |].
  - destruct Hc as [Hw Hh].
    destruct (read_through d p t b hot Hw) as (p' & -> & Hw' & Hh'); [eauto |].
    exists (Some p'). split; [done |]. split.
    + split; [done |]. intros t' b' blk Hb HL'. destruct (Hh' t' b' blk Hb) as [? | [[= -> ->] ?]]; eauto.
    + intros t' b' blk Hb. destruct (Hh' t' b' blk Hb) as [? | [[= -> ->] ?]]; auto.
  - unfold read_block_cached. exists None. split; [by destruct (read_block d b) |]. split; [done |]. by intros t' b' blk.
Qed.

Lemma yields_fetch_ok t b hot blk :
  L t b -> read_block d b = Ok blk -> yields d L (fetch d t b hot) (Ok blk).
Proof. intros HL Hr. pose proof (yields_fetch t b hot HL) as Hy. by rewrite Hr in Hy. Qed.

(** A stored data block read back: its body, wherever it is held. *)
Lemma yields_data_block t b hot x body decomp :
  (6 <= BLOCK)%nat -> L t b -> read_block d b = Ok (image x) -> body_ok x -> inflates x body ->
  length body = body_end -> length decomp = BLOCK ->
  exists raw infl dec, yields d L (read_data_block d t b decomp hot) (Ok (raw, infl, dec)) /\
    length dec = BLOCK /\ take body_end (if infl then dec else raw) = body.
Proof.
  intros HB HL Hr Hx Hi Hbody Hd.
  destruct (inflate_image x body decomp b HB Hx Hi Hbody Hd) as (infl & dec & Ei & Hdl & Ht).
  exists (image x), infl, dec. split; [| done]. unfold read_data_block.
  eapply yields_bind_ok; [by apply yields_fetch_ok |].
  eapply yields_bind_ok; [rewrite image_checks by done; apply yields_pure |].
  eapply yields_bind_ok; [rewrite Ei; apply yields_pure |]. apply yields_ret.
Qed.

(** ** Writes confined to a run of blocks *)

Definition same_outside (d1 d2 : D) (lo hi : Z) : Prop :=
  forall id, (id < lo \/ hi <= id)%Z -> read_block d2 id = read_block d1 id.

Lemma same_outside_refl d1 lo hi : same_outside d1 d1 lo hi.
Proof. done. Qed.

Lemma same_outside_trans d1 d2 d3 lo hi lo' hi' :
  same_outside d1 d2 lo hi -> same_outside d2 d3 lo' hi' ->
  same_outside d1 d3 (Z.min lo lo') (Z.max hi hi').
Proof. intros H1 H2 id Hid. rewrite H2, H1 by lia. done. Qed.

Lemma same_outside_weaken d1 d2 lo hi lo' hi' :
  same_outside d1 d2 lo hi -> (lo' <= lo)%Z -> (hi <= hi')%Z -> same_outside d1 d2 lo' hi'.
Proof. intros H1 ? ? id Hid. apply H1. lia. Qed.

Lemma wrote_outside d1 id b d2 r : wrote (E := E) d1 id b d2 r -> same_outside d1 d2 id (id + 1).
Proof.
  unfold wrote. destruct (write_block d1 id b) as [d3 r3] eqn:Ew. intros Hw id' Hid.
  assert (d2 = d3) as -> by (destruct r3; by destruct Hw).
  eapply read_unwritten; [exact Ew | lia].
Qed.

Lemma wrote_reads d1 id x d2 :
  (CRC_LEN <= BLOCK)%nat -> body_ok x -> wrote (E := E) d1 id (image x) d2 (Ok tt) ->
  read_block d2 id = Ok (image x).
Proof.
  intros HB Hx. unfold wrote. destruct (write_block d1 id (image x)) as [d3 [[] | e]] eqn:Ew.
  - intros [-> _]. eapply read_written; [by apply length_image | by apply image_bytes | exact Ew].
  - by intros [_ ?].
Qed.
End reads.
