(* ===== verification/SstIndex.v ===== *)
(** * The index block: [src/sstable.rs]

    One entry per data block.  The counting pass sees every entry, the binary
    search finds the last block that starts at or before the key, and the walk
    back ends at a block before which no entry of the key can lie. *)

From stdpp Require Import base numbers list.
From Stdlib Require Import ZArith Lia Sorting.Sorted.
From S2P Require Import Prelude Device Wal Manifest SstPlan SstWriter SstReader SstBlock.

Record IndexEntry := mkIdx { ix_key : bytes; ix_block : u64; ix_max_seq : u64 }.

Definition idx_bytes (i : IndexEntry) : bytes :=
  to_le 2 (Z.of_nat (length (ix_key i))) ++ ix_key i ++ to_le 8 (ix_block i) ++ to_le 8 (ix_max_seq i).

Definition idx_len (i : IndexEntry) : nat := 18 + length (ix_key i).

Definition idx_wf (i : IndexEntry) : Prop :=
  (0 < Z.of_nat (length (ix_key i)) <= U16_MAX)%Z /\ (0 <= ix_block i <= U64_MAX)%Z /\ bytes_ok (ix_key i).

Definition index_of (ies : list IndexEntry) : bytes := concat (map idx_bytes ies).

Lemma length_idx_bytes i : length (idx_bytes i) = idx_len i.
Proof. unfold idx_bytes, idx_len. rewrite !length_app, !length_to_le. lia. Qed.

Lemma index_of_app a b : index_of (a ++ b) = index_of a ++ index_of b.
Proof. unfold index_of. by rewrite map_app, concat_app. Qed.

Lemma index_of_bytes ies : Forall idx_wf ies -> bytes_ok (index_of ies).
Proof.
  induction 1 as [|i ies (_ & _ & Hk) Hi IH]; [constructor |].
  change (index_of (i :: ies)) with (idx_bytes i ++ index_of ies). apply bytes_ok_app. split; [| done].
  unfold idx_bytes. repeat (apply bytes_ok_app; split); auto with horton.
Qed.

Lemma length_index_cons i ies : length (index_of (i :: ies)) = (idx_len i + length (index_of ies))%nat.
Proof.
  change (index_of (i :: ies)) with (idx_bytes i ++ index_of ies). by rewrite length_app, length_idx_bytes.
Qed.

Lemma length_index_snoc ies i : length (index_of (ies ++ [i])) = (length (index_of ies) + idx_len i)%nat.
Proof.
  rewrite index_of_app, length_app. unfold index_of at 2. cbn [map concat].
  by rewrite app_nil_r, length_idx_bytes.
Qed.

Lemma append_index_snoc {D E} `{Dev : !BlockDevice D E} index ies fk id mx :
  length index = BLOCK -> take (length (index_of ies)) index = index_of ies ->
  match append_index index (length (index_of ies)) (Some fk) id mx with
  | Ok (index', n) =>
      length index' = BLOCK /\ n = length (index_of (ies ++ [mkIdx fk id mx])) /\
      (n <= body_end)%nat /\ take n index' = index_of (ies ++ [mkIdx fk id mx])
  | Err e => e = TableTooLarge /\
      ((U16_MAX < Z.of_nat (length fk))%Z \/
       (body_end < length (index_of (ies ++ [mkIdx fk id mx])))%nat)
  end.
Proof.
  intros Hl Ht. unfold append_index, try_u16. rewrite length_index_snoc. unfold idx_len. cbn [ix_key].
  destruct (Z.of_nat (length fk) <=? U16_MAX)%Z eqn:Ek; bool_lia; [| auto].
  set (o := length (index_of ies)) in *. fold body_end.
  destruct (body_end <? o + (2 + length fk + 8 + 8))%nat eqn:Er; bool_lia; [split; [done |]; right; lia |].
  assert (body_end <= BLOCK)%nat by (unfold body_end; lia).
  repeat (rewrite (splice_app o) by (rewrite ?length_app, ?length_to_le; lia)).
  rewrite <- !app_assoc. set (x := to_le 2 _ ++ _).
  assert (length x = 18 + length fk)%nat as Hx
    by (unfold x; rewrite !length_app, !length_to_le; lia).
  split; [rewrite length_splice; lia |]. split; [lia |]. split; [lia |].
  unfold splice. rewrite Ht, app_assoc, take_app_length' by (rewrite length_app; fold o; lia).
  rewrite index_of_app. f_equal. unfold index_of. cbn [map concat]. by rewrite app_nil_r.
Qed.

(** ** Parsing the index *)

Lemma idx_parses pre i post :
  idx_wf i ->
  index_entry_parse (pre ++ idx_bytes i ++ post) (length pre) =
  Some (ix_key i, ix_block i, length pre + idx_len i)%nat.
Proof.
  intros (Hk & Hb & _). set (l := pre ++ idx_bytes i ++ post).
  assert (length l = length pre + idx_len i + length post)%nat as Hl
    by (unfold l; rewrite !length_app, length_idx_bytes; lia).
  assert (slice_at l (length pre) 2 = Some (to_le 2 (Z.of_nat (length (ix_key i))))) as S1
    by (unfold l, idx_bytes; slices).
  assert (slice_at l (length pre + 2) (length (ix_key i)) = Some (ix_key i)) as S2
    by (unfold l, idx_bytes; slices).
  assert (slice_at l (length pre + 2 + length (ix_key i)) 8 = Some (to_le 8 (ix_block i))) as S3
    by (unfold l, idx_bytes; slices).
  unfold index_entry_parse. rewrite S1. cbn [mbind option_bind].
  rewrite from_to_le, Nat2Z.id by (cbn; unfold U16_MAX in *; lia).
  rewrite (proj2 (Nat.eqb_neq _ _)) by lia. rewrite S2. cbn [mbind option_bind].
  rewrite S3. cbn [mbind option_bind]. unfold idx_len in *.
  rewrite (proj2 (Nat.ltb_ge _ _)) by lia. rewrite from_to_le by (cbn; unfold U64_MAX in *; lia).
  do 2 f_equal. lia.
Qed.

Section index.
  Context {E : Type} (ies : list IndexEntry) (pad : nat) (id : u64).
  Context (Hwf : Forall idx_wf ies).

(** The index payload: the entries and zero padding to the end of the body. *)
Definition index_body : bytes := index_of ies ++ replicate pad 0%Z.

Lemma index_parse_at pre i suf :
  ies = pre ++ i :: suf ->
  index_entry_parse index_body (length (index_of pre)) =
  Some (ix_key i, ix_block i, length (index_of (pre ++ [i]))).
Proof.
  intros E0. pose proof Hwf as Hf. rewrite E0 in Hf. apply Forall_app in Hf as [_ [Hi _]%Forall_cons].
  unfold index_body. rewrite E0, index_of_app, <- app_assoc.
  change (index_of (i :: suf)) with (idx_bytes i ++ index_of suf). rewrite <- app_assoc.
  rewrite idx_parses by done. by rewrite length_index_snoc.
Qed.

Lemma index_from_lookup suf : forall pre j i,
  ies = pre ++ suf -> suf !! j = Some i ->
  exists next, index_entry_from index_body j (length (index_of pre)) = Some (ix_key i, ix_block i, next).
Proof.
  induction suf as [|i0 suf IH]; intros pre j i E0 Hj; [done |].
  destruct j as [|j]; cbn [index_entry_from].
  - injection Hj as ->. rewrite (index_parse_at _ _ _ E0). eauto.
  - rewrite (index_parse_at _ _ _ E0). cbn [mbind option_bind]. apply IH; [by rewrite <- app_assoc | done].
Qed.

Lemma index_at_lookup j i :
  ies !! j = Some i -> exists next, index_entry_at index_body j = Some (ix_key i, ix_block i, next).
Proof. intros Hj. apply (index_from_lookup ies [] j i); done. Qed.

Lemma count_loop_result suf : forall fuel pre,
  ies = pre ++ suf -> (length index_body - length (index_of pre) <= fuel)%nat ->
  count_loop (E := E) fuel index_body (length (index_of pre)) (length pre) id = Ok (length ies).
Proof.
  assert (length index_body = length (index_of ies) + pad)%nat as Hl
    by (unfold index_body; by rewrite length_app, length_replicate).
  induction suf as [|i suf IH]; intros fuel pre E0 Hf.
  - rewrite app_nil_r in E0. subst pre.
    destruct fuel as [|fuel]; cbn [count_loop]; [by rewrite (proj2 (Nat.ltb_ge _ _)) by lia |].
    destruct (length (index_of ies) <? length index_body)%nat eqn:El; [| done]. bool_lia.
    assert (index_entry_parse index_body (length (index_of ies)) = None) as ->.
    { unfold index_entry_parse, index_body. destruct (decide (2 <= pad)%nat).
      - replace pad with (2 + (pad - 2))%nat by lia. rewrite replicate_add, slice_skip by lia.
        by rewrite slice_front by (rewrite ?length_replicate; lia).
      - by rewrite slice_past by (rewrite length_app, length_replicate; lia). }
    assert (drop (length (index_of ies)) index_body = replicate pad 0%Z) as ->
      by (apply drop_app_length).
    rewrite (proj2 (all_zero_spec _ (bytes_ok_replicate _))); [done | by apply Forall_replicate].
  - assert (length (index_of pre) + idx_len i <= length index_body)%nat as Hle.
    { rewrite Hl, E0, index_of_app, length_app, length_index_cons. lia. }
    assert (18 <= idx_len i)%nat by (unfold idx_len; lia).
    destruct fuel as [|fuel]; [lia |]. cbn [count_loop]. rewrite (proj2 (Nat.ltb_lt _ _)) by lia.
    rewrite (index_parse_at _ _ _ E0).
    replace (length pre + 1)%nat with (length (pre ++ [i])) by (rewrite length_app; done).
    apply IH; [by rewrite <- app_assoc |]. rewrite length_index_snoc. lia.
Qed.

(** ** The searches *)

  Context (Hso : StronglySorted (fun a b => bytes_le (ix_key a) (ix_key b)) ies).

(** [n] splits the index: the blocks before it start at or before [key], the blocks
    from it on start after [key]. *)
Definition splits_at (key : bytes) (n : nat) : Prop :=
  (n <= length ies)%nat /\
  (forall j i, ies !! j = Some i -> (j < n)%nat -> bytes_le (ix_key i) key) /\
  (forall j i, ies !! j = Some i -> (n <= j)%nat -> bytes_lt key (ix_key i)).

Lemma index_sorted j k a b :
  ies !! j = Some a -> ies !! k = Some b -> (j <= k)%nat -> bytes_le (ix_key a) (ix_key b).
Proof.
  intros Ha Hb Hjk. destruct (decide (j = k)) as [-> |]; [simplify_eq; apply bytes_le_refl |].
  revert j k Ha Hb Hjk n. induction Hso as [|i l Hl IH Hf]; intros j k Ha Hb Hjk Hne; [done |].
  destruct k as [|k]; [lia |]. destruct j as [|j].
  - injection Ha as ->. rewrite Forall_forall in Hf. apply Hf. by eapply list_elem_of_lookup_2.
  - apply (IH ltac:(by inversion Hwf) Hl j k); auto; lia.
Qed.

Lemma upper_loop_result key fuel : forall lo hi,
  (hi - lo <= fuel)%nat -> (lo <= hi <= length ies)%nat ->
  (forall j i, ies !! j = Some i -> (j < lo)%nat -> bytes_le (ix_key i) key) ->
  (forall j i, ies !! j = Some i -> (hi <= j)%nat -> bytes_lt key (ix_key i)) ->
  exists n, upper_loop (E := E) fuel index_body key lo hi id = Ok n /\ splits_at key n.
Proof.
  induction fuel as [|fuel IH]; intros lo hi Hf Hle Hlo Hhi; cbn [upper_loop].
  { rewrite (proj2 (Nat.ltb_ge _ _)) by lia. exists lo. split; [done |].
    split; [lia |]. split; [done |]. intros. eapply Hhi; eauto. lia. }
  destruct (lo <? hi)%nat eqn:Eb; bool_lia.
  2: { exists lo. split; [done |]. split; [lia |]. split; [done |]. intros. eapply Hhi; eauto. lia. }
  set (mid := (lo + (hi - lo) / 2)%nat).
  assert ((hi - lo) / 2 < hi - lo)%nat by (apply Nat.div_lt; lia).
  destruct (lookup_lt_is_Some_2 ies mid) as [i Hi]; [unfold mid; lia |].
  destruct (index_at_lookup mid i Hi) as [next ->].
  destruct (bytes_leb (ix_key i) key) eqn:Ek.
  - apply bytes_leb_spec in Ek. apply IH; try (unfold mid; lia); auto. intros j i' Hj Hlt.
    etrans; [| exact Ek]. eapply index_sorted; eauto. lia.
  - apply bytes_leb_gt in Ek. apply IH; try (unfold mid; lia); auto. intros j i' Hj Hge.
    eapply bytes_lt_le_trans; [exact Ek |]. eapply index_sorted; eauto.
Qed.

Lemma index_upper_bound_result key :
  exists n, splits_at key n /\
    index_upper_bound (E := E) index_body key id =
    Ok (if (n =? 0)%nat then None else Some (n, length ies)).
Proof.
  destruct (upper_loop_result key (length ies) 0 (length ies)) as (n & En & Hn); try lia.
  { intros j i Hj. apply lookup_lt_Some in Hj. lia. }
  exists n. split; [done |]. unfold index_upper_bound.
  pose proof (count_loop_result ies (length index_body) []) as Hc.
  change (length (index_of [])) with 0%nat in Hc. cbn [length] in Hc. rewrite Hc by (auto; lia). rewrite En. by destruct (n =? 0)%nat.
Qed.

Lemma walk_back_result key pos :
  (pos < length ies)%nat ->
  exists p, walk_back (E := E) pos index_body key id = Ok p /\ (p <= pos)%nat /\
    (p = 0%nat \/ exists i, ies !! p = Some i /\ ix_key i <> key).
Proof.
  induction pos as [|pos IH]; intros Hp; cbn [walk_back].
  { exists 0%nat. auto. }
  destruct (lookup_lt_is_Some_2 ies (S pos) Hp) as [i Hi].
  destruct (index_at_lookup _ _ Hi) as [next ->].
  destruct (bytes_eqb (ix_key i) key) eqn:Ek; cbn [negb].
  - destruct IH as (p & Ep & Hle & Hk); [lia |]. exists p. split; [done |]. split; [lia | done].
  - exists (S pos). split; [done |]. split; [done |]. right. exists i. split; [done |].
    intros Ee. apply bytes_eqb_spec in Ee. congruence.
Qed.

(** Nothing found: every block starts after the key.  Otherwise the walk may begin
    at a block [p] that starts strictly before the key or is the first one, and it
    may go on to the last block. *)
Lemma index_lookup_result key :
  (index_lookup (E := E) index_body key id = Ok None /\
   Forall (fun i => bytes_lt key (ix_key i)) ies) \/
  (exists p i, ies !! p = Some i /\
     index_lookup (E := E) index_body key id = Ok (Some (ix_block i, length ies - p)%nat) /\
     (p = 0%nat \/ bytes_lt (ix_key i) key)).
Proof.
  destruct (index_upper_bound_result key) as (n & (Hn & Hlo & Hhi) & En).
  unfold index_lookup. rewrite En. destruct (n =? 0)%nat eqn:E0; bool_lia.
  - left. split; [done |]. apply Forall_lookup. intros j i Hj. eapply Hhi; eauto. lia.
  - right. destruct (walk_back_result key (n - 1)) as (p & -> & Hp & Hk); [lia |].
    destruct (lookup_lt_is_Some_2 ies p) as [i Hi]; [lia |].
    destruct (index_at_lookup _ _ Hi) as [next ->]. exists p, i. split; [done |].
    split; [done |]. destruct Hk as [-> | (i' & Hi' & Hne)]; [by left | right].
    rewrite Hi in Hi'. injection Hi' as <-. specialize (Hlo p i Hi ltac:(lia)). by apply bytes_le_lteq in Hlo as [? | ?].
Qed.

(** The reverse scan's seek: the last block that starts at or before the key. *)
Lemma index_last_le_result key :
  exists n, splits_at key n /\
    index_last_le_block (E := E) index_body key id =
    Ok (if (n =? 0)%nat then None else ix_block <$> ies !! (n - 1)%nat).
Proof.
  destruct (index_upper_bound_result key) as (n & Hn & En). exists n. split; [done |].
  unfold index_last_le_block. rewrite En. destruct (n =? 0)%nat eqn:E0; [done |]. bool_lia.
  destruct Hn as [Hle _]. destruct (lookup_lt_is_Some_2 ies (n - 1)) as [i Hi]; [lia |].
  destruct (index_at_lookup _ _ Hi) as [next ->]. by rewrite Hi.
Qed.
End index.
