(* ===== verification/SstRdel.v ===== *)
(** * The range-tombstone section of a table: [src/sstable.rs]

    The streaming [RdelWriter] and the probe [covering_rdel_seq_in].  The section
    written by a sequence of pushes holds exactly the pushed tombstones, and
    probing it gives the newest one at or below the snapshot that covers the key. *)

From stdpp Require Import base numbers list.
From Stdlib Require Import ZArith Lia.
From S2P Require Import Prelude Device Crc Compress Cache Wal Manifest SstPlan SstWriter SstReader SstBlock SstImage.

(** ** The writer *)

Section rdel_writer.
  Context {D E : Type} `{BlockDevice D E}.

Record RdelWriter := mkRW {
  rw_base : u64;
  rw_buf : bytes;
  rw_payload : nat;
  rw_count : nat;
  rw_blocks : nat;
  rw_limit : u32;
}.

Definition rdel_new (base : u64) (buf : bytes) : RdelWriter := mkRW base buf 0 0 0 U32_MAX.

Definition rdel_with_block_limit (w : RdelWriter) (blocks : u32) : RdelWriter :=
  mkRW (rw_base w) (rw_buf w) (rw_payload w) (rw_count w) (rw_blocks w) blocks.

(** The block written, and the cleared buffer on success. *)
Definition seal_rdel_block (d : D) (id : u64) (buf : bytes) (payload count : nat)
  : D * bytes * result unit (Error E) :=
  let buf := fill_zero payload (body_end - 2) buf in
  match try_u16 count with
  | None => (d, buf, Err TableTooLarge)
  | Some count16 =>
      let buf := splice (body_end - 2) (to_le 2 count16) buf in
      let buf := splice body_end (to_le 4 (crc32 (take body_end buf))) buf in
      match write_block d id buf with
      | (d, Err e) => (d, buf, Err (Device e))
      | (d, Ok _) => (d, replicate BLOCK 0%Z, Ok tt)
      end
  end.

Definition rdel_set_buf (w : RdelWriter) (buf : bytes) : RdelWriter :=
  mkRW (rw_base w) buf (rw_payload w) (rw_count w) (rw_blocks w) (rw_limit w).

(** Seal the staged block, within the limit. *)
Definition rdel_seal (d : D) (w : RdelWriter) : D * RdelWriter * result unit (Error E) :=
  if (rw_limit w <=? Z.of_nat (rw_blocks w))%Z then (d, w, Err TableTooLarge)
  else
    match u64_checked_add (rw_base w) (Z.of_nat (rw_blocks w)) with
    | None => (d, w, Err TableTooLarge)
    | Some id =>
        match seal_rdel_block d id (rw_buf w) (rw_payload w) (rw_count w) with
        | (d, buf, Err e) => (d, rdel_set_buf w buf, Err e)
        | (d, buf, Ok _) => (d, mkRW (rw_base w) buf 0 0 (rw_blocks w + 1) (rw_limit w), Ok tt)
        end
    end.

(** The tombstone's bytes behind the staged ones. *)
Definition rdel_stage (w : RdelWriter) (r : RdelEntry) (slen elen : u16) (el : nat) : RdelWriter :=
  let p := rw_payload w in
  let sl := Z.to_nat slen in
  let buf := splice p (to_le 2 slen) (rw_buf w) in
  let buf := splice (p + 2) (to_le 2 elen) buf in
  let buf := splice (p + 4) (to_le 8 (rd_seq r)) buf in
  let buf := splice (p + 12) (rd_start r) buf in
  let buf := splice (p + 12 + sl) (rd_end r) buf in
  mkRW (rw_base w) buf (p + el) (rw_count w + 1) (rw_blocks w) (rw_limit w).

Definition rdel_push (d : D) (w : RdelWriter) (r : RdelEntry) : D * RdelWriter * result unit (Error E) :=
  match try_u16 (length (rd_start r)), try_u16 (length (rd_end r)) with
  | None, _ => (d, w, Err (KeyTooLarge (length (rd_start r)) (Z.to_nat U16_MAX)))
  | _, None => (d, w, Err (KeyTooLarge (length (rd_end r)) (Z.to_nat U16_MAX)))
  | Some slen, Some elen =>
      let el := rdel_entry_len (Z.to_nat slen) (Z.to_nat elen) in
      if (BLOCK <? el + RDEL_TRAILER)%nat then (d, w, Err TableTooLarge)
      else if (BLOCK <? rw_payload w + el + RDEL_TRAILER)%nat then
        match rdel_seal d w with
        | (d, w, Err e) => (d, w, Err e)
        | (d, w, Ok _) => (d, rdel_stage w r slen elen el, Ok tt)
        end
      else (d, rdel_stage w r slen elen el, Ok tt)
  end.

Definition rdel_finish (d : D) (w : RdelWriter) : D * RdelWriter * result nat (Error E) :=
  if (0 <? rw_count w)%nat then
    match rdel_seal d w with
    | (d, w, Err e) => (d, w, Err e)
    | (d, w, Ok _) => (d, w, Ok (rw_blocks w))
    end
  else (d, w, Ok (rw_blocks w)).

(** [for r in rdels { w.push(r)?; }] *)
Fixpoint rdel_push_all (d : D) (w : RdelWriter) (rs : list RdelEntry)
  : D * RdelWriter * result unit (Error E) :=
  match rs with
  | [] => (d, w, Ok tt)
  | r :: rs =>
      match rdel_push d w r with
      | (d, w, Err e) => (d, w, Err e)
      | (d, w, Ok _) => rdel_push_all d w rs
      end
  end.

Definition write_rdel_blocks (d : D) (base : u64) (buf : bytes) (rs : list RdelEntry)
  : D * result nat (Error E) :=
  match rdel_push_all d (rdel_new base buf) rs with
  | (d, _, Err e) => (d, Err e)
  | (d, w, Ok _) => let '(d, _, r) := rdel_finish d w in (d, r)
  end.
End rdel_writer.

(** ** Blocks of tombstones *)

Definition rdel_bytes (r : RdelEntry) : bytes :=
  to_le 2 (Z.of_nat (length (rd_start r))) ++ to_le 2 (Z.of_nat (length (rd_end r))) ++
  to_le 8 (rd_seq r) ++ rd_start r ++ rd_end r.

Definition rdel_wf (r : RdelEntry) : Prop :=
  (0 < Z.of_nat (length (rd_start r)) <= U16_MAX)%Z /\ (0 < Z.of_nat (length (rd_end r)) <= U16_MAX)%Z /\
  (0 <= rd_seq r <= U64_MAX)%Z /\ bytes_ok (rd_start r) /\ bytes_ok (rd_end r).

Definition section_of (rs : list RdelEntry) : bytes := concat (map rdel_bytes rs).

Lemma length_rdel_bytes r : length (rdel_bytes r) = rlen r.
Proof. unfold rdel_bytes, rlen, rdel_entry_len. rewrite !length_app, !length_to_le. lia. Qed.

Lemma section_of_app a b : section_of (a ++ b) = section_of a ++ section_of b.
Proof. unfold section_of. by rewrite map_app, concat_app. Qed.

Lemma section_of_snoc rs r : section_of (rs ++ [r]) = section_of rs ++ rdel_bytes r.
Proof. rewrite section_of_app. unfold section_of at 2. cbn [map concat]. by rewrite app_nil_r. Qed.

Lemma length_section_snoc rs r : length (section_of (rs ++ [r])) = (length (section_of rs) + rlen r)%nat.
Proof. by rewrite section_of_snoc, length_app, length_rdel_bytes. Qed.

Lemma section_count rs : (14 * length rs <= length (section_of rs) + 2 * length rs)%nat.
Proof.
  induction rs as [|r rs IH]; [done |].
  change (section_of (r :: rs)) with (rdel_bytes r ++ section_of rs).
  rewrite length_app, length_rdel_bytes. unfold rlen, rdel_entry_len. cbn [length]. lia.
Qed.

Lemma section_bytes rs : Forall rdel_wf rs -> bytes_ok (section_of rs).
Proof.
  induction 1 as [|r rs (_ & _ & _ & Hs & He) Hr IH]; [constructor |].
  change (section_of (r :: rs)) with (rdel_bytes r ++ section_of rs). apply bytes_ok_app. split; [| done].
  unfold rdel_bytes. repeat (apply bytes_ok_app; split); auto with horton.
Qed.

Lemma rdel_parses pre r post :
  rdel_wf r ->
  rdel_parse_at (pre ++ rdel_bytes r ++ post) (length pre) = Some (r, length pre + rlen r)%nat.
Proof.
  intros (Hs & He & Hq & _). set (l := pre ++ rdel_bytes r ++ post).
  assert (slice_at l (length pre) 2 = Some (to_le 2 (Z.of_nat (length (rd_start r))))) as S1
    by (unfold l, rdel_bytes; slices).
  assert (slice_at l (length pre + 2) 2 = Some (to_le 2 (Z.of_nat (length (rd_end r))))) as S2
    by (unfold l, rdel_bytes; slices).
  assert (slice_at l (length pre + 4) 8 = Some (to_le 8 (rd_seq r))) as S3
    by (unfold l, rdel_bytes; slices).
  assert (slice_at l (length pre + 12) (length (rd_start r)) = Some (rd_start r)) as S4
    by (unfold l, rdel_bytes; slices).
  assert (slice_at l (length pre + 12 + length (rd_start r)) (length (rd_end r)) = Some (rd_end r)) as S5
    by (unfold l, rdel_bytes; slices).
  unfold rdel_parse_at. rewrite S1, S2. cbn [mbind option_bind].
  rewrite !from_to_le, !Nat2Z.id by (cbn; unfold U16_MAX in *; lia).
  rewrite !(proj2 (Nat.eqb_neq _ _)) by lia. cbn [orb]. rewrite S3. cbn [mbind option_bind].
  rewrite S4. cbn [mbind option_bind]. rewrite S5. cbn [mbind option_bind].
  rewrite from_to_le by (cbn; unfold U64_MAX in *; lia). destruct r as [st en sq].
  unfold rlen, rdel_entry_len. cbn [rd_start rd_end rd_seq]. do 2 f_equal. lia.
Qed.

(** The step of the probe over one tombstone. *)
Definition cover_step (key : bytes) (mx : u64) (best : option u64) (r : RdelEntry) : option u64 :=
  if (rd_seq r <=? mx)%Z && bytes_leb (rd_start r) key && bytes_ltb key (rd_end r) &&
     match best with None => true | Some s => (s <? rd_seq r)%Z end
  then Some (rd_seq r) else best.

(** A tombstone that covers [key] at [mx]. *)
Definition covers_key (key : bytes) (mx : u64) (r : RdelEntry) : Prop :=
  (rd_seq r <= mx)%Z /\ bytes_le (rd_start r) key /\ bytes_lt key (rd_end r).

(** The probe's fold is the newest covering tombstone. *)
Lemma cover_fold_newest key mx rs : forall best,
  match fold_left (cover_step key mx) rs best with
  | None => best = None /\ forall r, r ∈ rs -> ~ covers_key key mx r
  | Some s =>
      (best = Some s \/ exists r, r ∈ rs /\ covers_key key mx r /\ rd_seq r = s) /\
      (forall b, best = Some b -> (b <= s)%Z) /\
      forall r, r ∈ rs -> covers_key key mx r -> (rd_seq r <= s)%Z
  end.
Proof.
  induction rs as [|r rs IH]; intros best; cbn [fold_left].
  { destruct best as [b |]; [| split; [done | by intros r ?%not_elem_of_nil]].
    repeat split; auto; [intros ? [= <-]; lia | by intros r ?%not_elem_of_nil]. }
  specialize (IH (cover_step key mx best r)).
  assert (covers_key key mx r <->
    (rd_seq r <=? mx)%Z && bytes_leb (rd_start r) key && bytes_ltb key (rd_end r) = true) as Hc.
  { unfold covers_key. rewrite !andb_true_iff, Z.leb_le, bytes_leb_spec, bytes_ltb_spec. tauto. }
  destruct (fold_left (cover_step key mx) rs (cover_step key mx best r)) as [s |].
  - destruct IH as (Hin & Hb & Hall). unfold cover_step in Hin, Hb.
    destruct ((rd_seq r <=? mx)%Z && bytes_leb (rd_start r) key && bytes_ltb key (rd_end r)) eqn:Ec;
      cbn [andb] in Hin, Hb.
    + assert (covers_key key mx r) as Hr by (by apply Hc).
      assert (rd_seq r <= s /\ forall b, best = Some b -> b <= s)%Z as [Hrs Hbs].
      { destruct best as [b |]; [destruct (b <? rd_seq r)%Z eqn:Eb; bool_lia |].
        - specialize (Hb _ eq_refl). split; [done |]. intros ? [= <-]. lia.
        - specialize (Hb _ eq_refl). split; [lia |]. by intros ? [= <-].
        - specialize (Hb _ eq_refl). by split. }
      split; [| split; [done |]; intros r' [-> | Hr']%elem_of_cons; auto].
      destruct Hin as [Hin | (r' & Hr' & ?)]; [| right; exists r'; split; [by right | done]].
      destruct best as [b |]; [destruct (b <? rd_seq r)%Z |]; try (by left);
        right; exists r; (split; [left | split; [done | by injection Hin]]).
    + split; [| split; [done |]].
      * destruct Hin as [? | (r' & Hr' & ?)]; [by left |]. right. exists r'. split; [by right | done].
      * intros r' [-> | Hr']%elem_of_cons Hcov; [| auto]. apply Hc in Hcov. congruence.
  - destruct IH as [Hn Hall]. unfold cover_step in Hn.
    destruct ((rd_seq r <=? mx)%Z && bytes_leb (rd_start r) key && bytes_ltb key (rd_end r)) eqn:Ec;
      cbn [andb] in Hn.
    + destruct best as [b |]; [destruct (b <? rd_seq r)%Z |]; done.
    + split; [done |]. intros r' [-> | Hr']%elem_of_cons Hcov; [| by eapply Hall].
      apply Hc in Hcov. congruence.
Qed.

Section rdel_blocks.
  Context {D E : Type} `{Laws : DeviceLaws D E}.

Definition rdel_body (rs : list RdelEntry) : bytes :=
  section_of rs ++ replicate (body_end - 2 - length (section_of rs)) 0%Z ++
  to_le 2 (Z.of_nat (length rs)).

Record rblock_wf (rs : list RdelEntry) : Prop := {
  rb_entries : Forall rdel_wf rs;
  rb_room : (length (section_of rs) + RDEL_TRAILER <= BLOCK)%nat;
  rb_count : (Z.of_nat (length rs) < 2 ^ 15)%Z;
}.

Lemma rdel_body_ok rs : rblock_wf rs -> body_ok (rdel_body rs).
Proof.
  intros [Hf Hr _]. unfold RDEL_TRAILER, rdel_body, body_ok in *.
  split; [| repeat (apply bytes_ok_app; split); auto using section_bytes with horton].
  rewrite !length_app, length_replicate, length_to_le. unfold body_end, CRC_LEN in *. lia.
Qed.

Lemma rdel_count_image rs id :
  rblock_wf rs -> rdel_block_count (image (rdel_body rs)) id = Ok (length rs).
Proof.
  intros Hw. pose proof (rdel_body_ok rs Hw) as Hok. unfold rdel_block_count.
  rewrite image_checks by done. fold body_end.
  pose proof (rb_room _ Hw) as Hr. unfold RDEL_TRAILER in Hr.
  rewrite image_sub by (auto; unfold body_end, CRC_LEN in *; lia).
  assert (sub (body_end - 2) 2 (rdel_body rs) = to_le 2 (Z.of_nat (length rs))) as ->.
  { unfold rdel_body, sub. rewrite app_assoc.
    rewrite drop_app_length' by (rewrite length_app, length_replicate; unfold body_end, CRC_LEN in *; lia).
    by apply take_ge; rewrite length_to_le. }
  pose proof (rb_count _ Hw) as Hc. change (2 ^ 15)%Z with 32768%Z in Hc.
  rewrite from_to_le by (change (2 ^ (8 * Z.of_nat 2))%Z with 65536%Z; lia).
  rewrite (proj1 (u16_low (Z.of_nat (length rs)) ltac:(lia))). cbn [Z.eqb negb]. by rewrite Nat2Z.id.
Qed.

Lemma rdel_image_parses pre r suf : rblock_wf (pre ++ r :: suf) ->
  rdel_parse_at (image (rdel_body (pre ++ r :: suf))) (length (section_of pre)) = Some (r, length (section_of (pre ++ [r]))).
Proof.
  intros Hw. pose proof (rb_entries _ Hw) as Hf. apply Forall_app in Hf as [_ [Hr _]%Forall_cons].
  rewrite length_section_snoc. unfold image, rdel_body. rewrite section_of_app, <- !app_assoc.
  change (section_of (r :: suf)) with (rdel_bytes r ++ section_of suf). rewrite <- !app_assoc. by apply rdel_parses.
Qed.

Lemma rdel_entries_result rs key mx id suf : forall pre best,
  rblock_wf rs -> rs = pre ++ suf ->
  rdel_entries_loop (E := E) (length suf) (image (rdel_body rs)) key mx id (length (section_of pre)) best =
  Ok (fold_left (cover_step key mx) suf best).
Proof.
  induction suf as [|r suf IH]; intros pre best Hw Ers; [done |]. cbn [length rdel_entries_loop].
  rewrite Ers in Hw |- *. rewrite (rdel_image_parses pre r suf Hw). rewrite <- Ers in *.
  cbn [fold_left]. by apply IH; [| by rewrite <- app_assoc].
Qed.

(** The section on the device: one block per list of tombstones, from [first] on. *)
Definition section_on (d : D) (first : u64) (bs : list (list RdelEntry)) : Prop :=
  forall i rs, bs !! i = Some rs ->
    rblock_wf rs /\ read_block d (first + Z.of_nat i)%Z = Ok (image (rdel_body rs)).

Lemma rdel_blocks_result d L t first key mx suf : forall pre best,
  section_on d first (pre ++ suf) ->
  (forall i, (i < length (pre ++ suf))%nat -> L t (first + Z.of_nat i)%Z) ->
  (first + Z.of_nat (length (pre ++ suf)) <= U64_MAX)%Z ->
  yields d L (rdel_blocks_loop d (length suf) (length pre) t first key mx best)
    (Ok (fold_left (cover_step key mx) (concat suf) best)).
Proof.
  induction suf as [|rs suf IH]; intros pre best Hon HL Hmax.
  { apply yields_ret. }
  destruct (Hon (length pre) rs) as [Hw Hr]; [by apply list_lookup_middle |].
  rewrite length_app in Hmax. cbn [length] in *. cbn [rdel_blocks_loop].
  unfold u64_checked_add. rewrite (proj2 (Z.ltb_ge _ _)) by lia.
  eapply yields_bind_ok; [apply yields_fetch_ok; [| exact Hr] |].
  { apply HL. rewrite length_app. cbn [length]. lia. }
  eapply yields_bind_ok; [rewrite rdel_count_image by done; apply yields_pure |].
  eapply yields_bind_ok.
  { change 0%nat with (length (section_of [])). rewrite (rdel_entries_result rs _ _ _ rs []) by done.
    apply yields_pure. }
  cbn [concat]. rewrite fold_left_app.
  replace (length pre + 1)%nat with (length (pre ++ [rs])) by (by rewrite length_app).
  apply IH; rewrite <- app_assoc; [done | done |]. rewrite length_app. cbn [app length]. lia.
Qed.

(** Probing the section gives the newest tombstone that covers the key. *)
Lemma covering_rdel_result d L t first n key mx bs :
  section_on d first bs -> (forall i, (i < length bs)%nat -> L t (first + Z.of_nat i)%Z) ->
  (first + Z.of_nat (length bs) <= U64_MAX)%Z -> n = Z.of_nat (length bs) ->
  yields d L (covering_rdel_seq_in d t first n key mx)
    (Ok (fold_left (cover_step key mx) (concat bs) None)).
Proof.
  intros Hon HL Hmax ->. unfold covering_rdel_seq_in. rewrite Nat2Z.id.
  by apply (rdel_blocks_result d L t first key mx bs []).
Qed.
End rdel_blocks.

(** ** What the writer puts on the device *)

Section rdel_written.
  Context {D E : Type} `{Laws : DeviceLaws D E}.
  Context (HB : (RDEL_TRAILER <= BLOCK)%nat) (HB64 : (Z.of_nat BLOCK <= 65536)%Z).

(** A tombstone that fits an empty block. *)
Definition rdel_fits (r : RdelEntry) : Prop := rdel_wf r /\ (rlen r + RDEL_TRAILER <= BLOCK)%nat.

(** Greedy packing: sealed blocks and the staged one. *)
Definition rchunk_step (s : list (list RdelEntry) * list RdelEntry) (r : RdelEntry) :=
  let '(bs, cur) := s in
  if (BLOCK <? length (section_of cur) + rlen r + RDEL_TRAILER)%nat
  then (bs ++ [cur], [r]) else (bs, cur ++ [r]).

Definition rchunks (rs : list RdelEntry) : list (list RdelEntry) :=
  let '(bs, cur) := fold_left rchunk_step rs ([], []) in
  if (0 <? length cur)%nat then bs ++ [cur] else bs.

(** The blocks [bs] are on the device and [cur] is staged. *)
Record rdel_inv (d : D) (base : u64) (w : RdelWriter) (bs : list (list RdelEntry)) (cur : list RdelEntry)
  : Prop := {
  ri_base : rw_base w = base;
  ri_len : length (rw_buf w) = BLOCK;
  ri_blocks : rw_blocks w = length bs;
  ri_on : section_on d base bs;
  ri_payload : rw_payload w = length (section_of cur);
  ri_staged : take (length (section_of cur)) (rw_buf w) = section_of cur;
  ri_count : rw_count w = length cur;
  ri_cur : Forall rdel_wf cur;
  ri_room : (length (section_of cur) + RDEL_TRAILER <= BLOCK)%nat;
}.

Lemma rdel_seal_writes d id buf cur d' buf' r :
  length buf = BLOCK -> take (length (section_of cur)) buf = section_of cur ->
  rblock_wf cur ->
  seal_rdel_block d id buf (length (section_of cur)) (length cur) = (d', buf', r) ->
  wrote d id (image (rdel_body cur)) d' r /\ length buf' = BLOCK.
Proof.
  intros Hl Ht Hw Es. pose proof (rdel_body_ok cur Hw) as [Hbl Hbb].
  pose proof (rb_room _ Hw) as Hr. pose proof (rb_count _ Hw) as Hc.
  change (2 ^ 15)%Z with 32768%Z in Hc. unfold RDEL_TRAILER in *.
  unfold seal_rdel_block in Es. rewrite try_u16_le in Es by (unfold U16_MAX; lia).
  assert (body_end = BLOCK - 4)%nat as Hbe by done.
  rewrite fill_zero_mid, Ht in Es by lia. rewrite app_assoc in Es.
  set (P := section_of cur ++ replicate (body_end - 2 - length (section_of cur)) 0%Z) in Es.
  assert (length P = body_end - 2)%nat as HP
    by (unfold P; rewrite length_app, length_replicate; lia).
  assert (splice (body_end - 2) (to_le 2 (Z.of_nat (length cur))) (P ++ drop (body_end - 2) buf) =
          rdel_body cur ++ drop body_end buf) as Ex.
  { unfold splice. rewrite length_to_le, take_app_length' by done.
    rewrite drop_app_ge, drop_drop, HP by lia. unfold rdel_body, P. rewrite <- !app_assoc.
    do 4 f_equal. lia. }
  rewrite Ex, seal_write in Es.
  - unfold wrote. destruct (write_block d id (image (rdel_body cur))) as [d1 [[] | e]];
      injection Es as <- <- <-; (split; [done |]).
    + apply length_replicate.
    + apply length_image; [unfold CRC_LEN; lia | done].
  - unfold CRC_LEN. lia.
  - done.
  - rewrite length_drop, Hl. unfold CRC_LEN. lia.
Qed.

Lemma staged_wf cur :
  Forall rdel_wf cur -> (length (section_of cur) + RDEL_TRAILER <= BLOCK)%nat -> rblock_wf cur.
Proof.
  intros Hf Hr. split; [done | done |]. pose proof (section_count cur).
  change (2 ^ 15)%Z with 32768%Z. unfold RDEL_TRAILER in *. lia.
Qed.

Lemma rdel_seal_step d base w bs cur d' w' r :
  rdel_inv d base w bs cur ->
  (0 <= base)%Z -> (base + Z.of_nat (length bs) <= U64_MAX)%Z -> (Z.of_nat (length bs) < rw_limit w)%Z ->
  rdel_seal d w = (d', w', r) ->
  same_outside d d' base (base + Z.of_nat (length bs) + 1) /\ rw_limit w' = rw_limit w /\
  match r with
  | Ok _ => rdel_inv d' base w' (bs ++ [cur]) []
  | Err e => exists de, e = Device de
  end.
Proof.
  intros [Hb Hl Hn Hon Hp Hst Hc Hcur Hroom] Hpos Hmax Hlim. unfold rdel_seal.
  rewrite Hn, Hb. rewrite (proj2 (Z.leb_gt _ _)) by done.
  unfold u64_checked_add. rewrite (proj2 (Z.ltb_ge _ _)) by lia. rewrite Hp, Hc.
  pose proof (staged_wf cur Hcur Hroom) as Hw.
  destruct (seal_rdel_block _ _ _ _ _) as [[d1 buf1] r1] eqn:Es.
  destruct (rdel_seal_writes _ _ _ _ _ _ _ Hl Hst Hw Es) as [Hwr Hl1].
  pose proof (wrote_outside _ _ _ _ _ Hwr) as Ho.
  assert (same_outside d d1 base (base + Z.of_nat (length bs) + 1)) as Ho'
    by (eapply same_outside_weaken; [exact Ho | lia | lia]).
  destruct r1 as [[] | e]; intros [= <- <- <-]; (split; [done |]); (split; [done |]).
  - split; cbn; auto; [by rewrite length_app |].
    intros i rs Hi. apply lookup_app_Some in Hi as [Hi | [Hge Hi]].
    + destruct (Hon i rs Hi) as [? Hr]. split; [done |]. apply lookup_lt_Some in Hi.
      rewrite Ho; [done | lia].
    + apply list_lookup_singleton_Some in Hi as [Hi <-]. split; [done |].
      replace i with (length bs) by lia. apply (wrote_reads d _ _ d1); [unfold CRC_LEN, RDEL_TRAILER in *; lia | by apply rdel_body_ok | done].
  - unfold wrote in Hwr. destruct (write_block _ _ _) as [? [[] | de]]; destruct Hwr as [_ ?]; [done |].
    simplify_eq. eauto.
Qed.

Lemma rdel_stage_inv d base w bs cur r :
  rdel_inv d base w bs cur -> rdel_wf r ->
  (length (section_of cur) + rlen r + RDEL_TRAILER <= BLOCK)%nat ->
  rdel_inv d base (rdel_stage w r (Z.of_nat (length (rd_start r))) (Z.of_nat (length (rd_end r))) (rlen r))
    bs (cur ++ [r]).
Proof.
  intros [Hb Hl Hn Hon Hp Hst Hc Hcur Hroom] Hr Hfit. unfold rdel_stage. rewrite Nat2Z.id, Hp.
  unfold RDEL_TRAILER in *. pose proof (length_rdel_bytes r) as Hrl.
  assert (rlen r = 12 + length (rd_start r) + length (rd_end r))%nat as Hrlen
    by (unfold rlen, rdel_entry_len; lia).
  repeat (rewrite (splice_app (length (section_of cur)))
            by (rewrite ?length_app, ?length_to_le; lia)).
  rewrite <- !app_assoc. change (to_le 2 _ ++ _) with (rdel_bytes r).
  split; cbn [rw_base rw_buf rw_payload rw_count rw_blocks rw_limit]; auto.
  - rewrite length_splice; lia.
  - by rewrite length_section_snoc.
  - rewrite section_of_snoc. unfold splice. rewrite Hst, app_assoc. by apply take_app_length'.
  - by rewrite length_app, Hc.
  - apply Forall_app. split; [done | by constructor].
  - rewrite length_section_snoc. unfold RDEL_TRAILER. lia.
Qed.

Lemma rdel_push_step d base w bs cur r d' w' res :
  rdel_inv d base w bs cur -> rdel_fits r ->
  (0 <= base)%Z -> (base + Z.of_nat (length bs) + 1 <= U64_MAX)%Z ->
  (Z.of_nat (length bs) < rw_limit w)%Z ->
  rdel_push d w r = (d', w', res) ->
  same_outside d d' base (base + Z.of_nat (length bs) + 1) /\ rw_limit w' = rw_limit w /\
  match res with
  | Ok _ => let '(bs', cur') := rchunk_step (bs, cur) r in rdel_inv d' base w' bs' cur'
  | Err e => exists de, e = Device de
  end.
Proof.
  intros Hi [Hr Hrf] Hpos Hmax Hlim. pose proof Hr as (Hs & He & _).
  unfold rdel_push. rewrite !try_u16_le by lia. rewrite !Nat2Z.id. fold (rlen r).
  rewrite (proj2 (Nat.ltb_ge BLOCK _)) by lia. unfold rchunk_step. rewrite (ri_payload _ _ _ _ _ Hi).
  destruct (BLOCK <? length (section_of cur) + rlen r + RDEL_TRAILER)%nat eqn:Ef; bool_lia.
  - destruct (rdel_seal d w) as [[d1 w1] r1] eqn:Es.
    destruct (rdel_seal_step _ _ _ _ _ _ _ _ Hi Hpos ltac:(lia) Hlim Es) as (Ho & Hl1 & Hr1).
    destruct r1 as [[] | e]; intros [= <- <- <-]; (split; [done |]); (split; [done |]); [| done].
    apply (rdel_stage_inv _ _ _ _ []); [done | done |]. cbn. lia.
  - intros [= <- <- <-]. split; [apply same_outside_refl |]. split; [done |].
    apply rdel_stage_inv; [done | done | lia].
Qed.

Lemma rchunk_grows rs s : (length (fst s) <= length (fst (fold_left rchunk_step rs s)))%nat.
Proof.
  revert s. induction rs as [|r rs IH]; intros [bs cur]; [done |]. cbn [fold_left].
  etrans; [| apply IH]. unfold rchunk_step. destruct (BLOCK <? _)%nat; cbn [fst]; rewrite ?length_app; lia.
Qed.

Lemma rchunk_step_nonempty rs s :
  rs <> [] \/ snd s <> [] -> snd (fold_left rchunk_step rs s) <> [].
Proof.
  revert s. induction rs as [|r rs IH]; intros [bs cur] Hne; [by destruct Hne |]. cbn [fold_left].
  apply IH. right. unfold rchunk_step. destruct (BLOCK <? _)%nat; [done |]. by destruct cur.
Qed.

Lemma rchunk_concat rs s :
  concat (fst (fold_left rchunk_step rs s)) ++ snd (fold_left rchunk_step rs s) =
  concat (fst s) ++ snd s ++ rs.
Proof.
  revert s. induction rs as [|r rs IH]; intros [bs cur]; cbn [fold_left]; [by rewrite app_nil_r |].
  rewrite IH. unfold rchunk_step.
  destruct (BLOCK <? _)%nat; cbn [fst snd]; rewrite ?concat_app; cbn [concat app]; by rewrite ?app_nil_r, <- ?app_assoc.
Qed.

(** Packing keeps every tombstone, in order. *)
Lemma rchunks_concat rs : concat (rchunks rs) = rs.
Proof.
  pose proof (rchunk_concat rs ([], [])) as Hc. unfold rchunks.
  destruct (fold_left rchunk_step rs ([], [])) as [bs cur]. cbn [fst snd concat app] in Hc.
  destruct cur as [|r cur]; cbn [length Nat.ltb Nat.leb].
  - by rewrite app_nil_r in Hc.
  - rewrite concat_app. cbn [concat]. by rewrite app_nil_r.
Qed.

Lemma rdel_push_all_steps rs : forall d base w bs cur d' w' res,
  rdel_inv d base w bs cur -> Forall rdel_fits rs -> (0 <= base)%Z ->
  (base + Z.of_nat (length (fst (fold_left rchunk_step rs (bs, cur)))) + 1 <= U64_MAX)%Z ->
  (Z.of_nat (length (fst (fold_left rchunk_step rs (bs, cur)))) < rw_limit w)%Z ->
  rdel_push_all d w rs = (d', w', res) ->
  same_outside d d' base (base + Z.of_nat (length (fst (fold_left rchunk_step rs (bs, cur)))) + 1) /\
  rw_limit w' = rw_limit w /\
  match res with
  | Ok _ => rdel_inv d' base w' (fst (fold_left rchunk_step rs (bs, cur)))
              (snd (fold_left rchunk_step rs (bs, cur)))
  | Err e => exists de, e = Device de
  end.
Proof.
  induction rs as [|r rs IH]; intros d base w bs cur d' w' res Hi Hf Hpos Hmax Hlim;
    cbn [rdel_push_all fold_left] in *.
  { intros [= <- <- <-]. split; [apply same_outside_refl |]. done. }
  apply Forall_cons in Hf as [Hr Hf].
  destruct (rdel_push d w r) as [[d1 w1] r1] eqn:Ep.
  pose proof (rchunk_grows rs (rchunk_step (bs, cur) r)) as Hg.
  assert (length bs <= length (fst (rchunk_step (bs, cur) r)))%nat as Hg1
    by (unfold rchunk_step; destruct (BLOCK <? _)%nat; cbn [fst]; rewrite ?length_app; lia).
  destruct (rdel_push_step _ _ _ _ _ _ _ _ _ Hi Hr Hpos ltac:(lia) ltac:(lia) Ep) as (Ho & Hl1 & Hr1).
  destruct (rchunk_step (bs, cur) r) as [bs1 cur1] eqn:Ec. cbn [fst] in Hg, Hg1.
  destruct r1 as [[] | e].
  - intros Er. destruct (IH _ _ _ _ _ _ _ _ Hr1 Hf Hpos Hmax ltac:(lia) Er) as (Ho2 & Hl2 & Hr2).
    split; [| split; [congruence | done]].
    eapply same_outside_weaken; [eapply same_outside_trans; [exact Ho | exact Ho2] | lia | lia].
  - intros [= <- <- <-]. split; [| done]. eapply same_outside_weaken; [exact Ho | lia | lia].
Qed.

(** Writing the section: only its run is touched; on success it holds exactly the
    tombstones, packed as planned, and the only failures are the device's. *)
Lemma write_rdel_section d base buf rs d' res :
  length buf = BLOCK -> Forall rdel_fits rs -> (0 <= base)%Z ->
  (base + Z.of_nat (length (rchunks rs)) <= U64_MAX)%Z ->
  (Z.of_nat (length (rchunks rs)) <= U32_MAX)%Z ->
  write_rdel_blocks d base buf rs = (d', res) ->
  same_outside d d' base (base + Z.of_nat (length (rchunks rs))) /\
  match res with
  | Ok n => n = length (rchunks rs) /\ section_on d' base (rchunks rs)
  | Err e => exists de, e = Device de
  end.
Proof.
  intros Hl Hf Hpos Hmax Hlim. unfold write_rdel_blocks. destruct rs as [|r0 rs0].
  { cbn. intros [= <- <-]. split; [apply same_outside_refl |]. split; [done |]. by intros i rs. }
  set (rs := r0 :: rs0) in *. assert (rs <> []) as Hne by done. clearbody rs.
  pose proof (rchunk_step_nonempty rs ([], []) (or_introl Hne)) as Hcn. unfold rchunks in *.
  assert (rdel_inv d base (rdel_new base buf) [] []) as Hi
    by (split; cbn; auto; by intros i rs').
  destruct (rdel_push_all d (rdel_new base buf) rs) as [[d1 w1] r1] eqn:Ep.
  pose proof (rdel_push_all_steps rs d base _ [] [] d1 w1 r1 Hi Hf Hpos) as Hsteps.
  destruct (fold_left rchunk_step rs ([], [])) as [bs cur] eqn:Efold. cbn [fst snd] in *.
  assert ((0 <? length cur)%nat = true) as Hlc by (destruct cur; done). rewrite Hlc in *.
  rewrite length_app in *. cbn [length] in *.
  destruct (Hsteps ltac:(lia) ltac:(cbn; lia) Ep) as (Ho & Hl1 & Hr1).
  replace (base + Z.of_nat (length bs + 1))%Z with (base + Z.of_nat (length bs) + 1)%Z by lia.
  destruct r1 as [[] | e]; [| by intros [= <- <-]].
  unfold rdel_finish. rewrite (ri_count _ _ _ _ _ Hr1), Hlc.
  destruct (rdel_seal d1 w1) as [[d2 w2] r2] eqn:Es.
  destruct (rdel_seal_step _ _ _ _ _ _ _ _ Hr1 Hpos ltac:(lia) ltac:(rewrite Hl1; cbn; lia) Es)
    as (Ho2 & _ & Hr2).
  assert (same_outside d d2 base (base + Z.of_nat (length bs) + 1)) as Ho3
    by (eapply same_outside_weaken; [eapply same_outside_trans; [exact Ho | exact Ho2] | lia | lia]).
  destruct r2 as [[] | e]; intros [= <- <-]; (split; [done |]); [| done].
  split; [| apply Hr2]. by rewrite (ri_blocks _ _ _ _ _ Hr2), length_app.
Qed.

(** Pass 1 of a flush plans exactly the blocks the writer emits. *)
Lemma plan_rdel_loop_chunks rs : forall p payload bs cur p' payload',
  rp_blocks p = length bs -> payload = length (section_of cur) ->
  plan_rdel_loop (E := E) BLOCK p payload rs = Ok (p', payload') ->
  rp_blocks p' = length (fst (fold_left rchunk_step rs (bs, cur))) /\
  payload' = length (section_of (snd (fold_left rchunk_step rs (bs, cur)))).
Proof.
  induction rs as [|r rs IH]; intros p payload bs cur p' payload' Hb Hp;
    cbn [plan_rdel_loop fold_left].
  { intros [= <- <-]. auto. }
  fold (rlen r). destruct (BLOCK <? rlen r + RDEL_TRAILER)%nat; [done |].
  unfold rchunk_step at 2 4. rewrite Hp.
  destruct (BLOCK <? length (section_of cur) + rlen r + RDEL_TRAILER)%nat; apply IH; cbn [rp_blocks].
  - by rewrite length_app, Hb.
  - symmetry; apply (length_section_snoc [] r).
  - done.
  - by rewrite length_section_snoc.
Qed.

Lemma plan_rdel_chunks rs p :
  plan_rdel_blocks (E := E) BLOCK rs = Ok p -> rp_blocks p = length (rchunks rs).
Proof.
  unfold plan_rdel_blocks. destruct (plan_rdel_loop _ _ _ rs) as [[p' payload'] |] eqn:Ep; [| done].
  intros [= <-]. destruct (plan_rdel_loop_chunks rs (mkRdelPlan 0 None None 0 U64_MAX) 0 [] [] _ _ eq_refl eq_refl Ep) as [Hb Hp].
  unfold rchunks. destruct (fold_left rchunk_step rs ([], [])) as [bs cur]. cbn [fst snd rp_blocks] in *.
  subst payload'. pose proof (section_count cur).
  destruct cur as [|r cur]; [done |]. cbn [length] in *. rewrite (proj2 (Nat.ltb_lt 0 _)) by lia.
  cbn [Nat.ltb Nat.leb]. rewrite length_app, Hb. done.
Qed.
End rdel_written.

(** ** Round trip of the section *)

(** [o] is the newest tombstone at or below [mx] that covers [key]. *)
Definition newest_cover (key : bytes) (mx : u64) (rs : list RdelEntry) (o : option u64) : Prop :=
  match o with
  | None => forall r, r ∈ rs -> ~ covers_key key mx r
  | Some s =>
      (exists r, r ∈ rs /\ covers_key key mx r /\ rd_seq r = s) /\
      forall r, r ∈ rs -> covers_key key mx r -> (rd_seq r <= s)%Z
  end.

Lemma cover_fold_cover key mx rs : newest_cover key mx rs (fold_left (cover_step key mx) rs None).
Proof.
  pose proof (cover_fold_newest key mx rs None) as H.
  destruct (fold_left (cover_step key mx) rs None) as [s |]; cbn.
  - destruct H as ([? | ?] & _ & ?); done.
  - by destruct H.
Qed.

(** C17 The range-tombstone section reads back what was written.  Writing a list of
    tombstones, in any order, touches only the section's run and fails only with the
    device; on success it took exactly the planned number of blocks, and probing it
    for any key and snapshot, through any cache whose images are true, gives the
    newest tombstone at or below the snapshot whose half-open range contains the key,
    and nothing when there is none. *)
Theorem rdel_section_roundtrip {D E} `{Dev : !BlockDevice D E} {Laws : DeviceLaws D E}
  (d d' : D) base buf rs res
  (HB : (RDEL_TRAILER <= BLOCK)%nat) (HB64 : (Z.of_nat BLOCK <= 65536)%Z)
  (Hbuf : length buf = BLOCK) (Hrs : Forall rdel_fits rs) (Hbase : (0 <= base)%Z)
  (Hend : (base + Z.of_nat (length (rchunks rs)) <= U64_MAX)%Z)
  (Hn : (Z.of_nat (length (rchunks rs)) <= U32_MAX)%Z)
  (Hw : write_rdel_blocks d base buf rs = (d', res)) :
  same_outside d d' base (base + Z.of_nat (length (rchunks rs))) /\
  match res with
  | Err e => exists de, e = Device de
  | Ok n =>
      (forall p, plan_rdel_blocks (E := E) BLOCK rs = Ok p -> rp_blocks p = n) /\
      forall (L : u32 -> u64 -> Prop) t c key mx,
        (forall i, (i < n)%nat -> L t (base + Z.of_nat i)%Z) -> truthful d' L c ->
        exists o c', newest_cover key mx rs o /\
          covering_rdel_seq_in d' t base (Z.of_nat n) key mx c = Some (c', Ok o) /\
          truthful d' L c'
  end.
Proof.
  destruct (write_rdel_section HB HB64 _ _ _ _ _ _ Hbuf Hrs Hbase Hend Hn Hw) as [Ho Hr].
  split; [done |]. destruct res as [n | e]; [| done]. destruct Hr as [-> Hon].
  split; [intros p; by apply plan_rdel_chunks |]. intros L t c key mx HL Hc.
  destruct (covering_rdel_result d' L t base _ key mx (rchunks rs) Hon HL Hend eq_refl c Hc)
    as (c' & Ec & Hc' & _).
  rewrite rchunks_concat in Ec. exists (fold_left (cover_step key mx) rs None), c'.
  split; [apply cover_fold_cover | done].
Qed.

Lemma rdel_section_roundtrip_witness :
  exists d' o c', newest_cover [98]%Z 9 [mkRdel [97]%Z [99]%Z 7; mkRdel [98]%Z [98; 0]%Z 8] o /\
    @write_rdel_blocks _ _ (MemDisk.device 32) ∅ 3 (replicate 32 255%Z)
      [mkRdel [97]%Z [99]%Z 7; mkRdel [98]%Z [98; 0]%Z 8] = (d', Ok 2%nat) /\
    @covering_rdel_seq_in _ _ (MemDisk.device 32) d' 1 3 2 [98]%Z 9 None = Some (c', Ok o).
Proof.
  set (rs := [mkRdel [97]%Z [99]%Z 7; mkRdel [98]%Z [98; 0]%Z 8]).
  destruct (@write_rdel_blocks _ _ (MemDisk.device 32) ∅ 3 (replicate 32 255%Z) rs) as [d' r] eqn:Ew.
  assert (r = Ok 2%nat) as ->
    by (apply (f_equal snd) in Ew; cbn [snd] in Ew; rewrite <- Ew; vm_compute; reflexivity).
  pose proof (@rdel_section_roundtrip _ _ (MemDisk.device 32) (MemDisk.laws 32) ∅ d' 3
    (replicate 32 255%Z) rs (Ok 2%nat)) as H.
  destruct H as [_ [_ H]].
  - change (6 <= 32)%nat. lia.
  - change (Z.of_nat 32 <= 65536)%Z. lia.
  - reflexivity.
  - unfold rs. repeat constructor; cbn; unfold fits, U16_MAX, U64_MAX; lia.
  - lia.
  - vm_compute. discriminate.
  - vm_compute. discriminate.
  - exact Ew.
  - destruct (H (fun _ _ => True) 1%Z None [98]%Z 9%Z) as (o & c' & Ho & Ec & _); [done | done |].
    exists d', o, c'. auto.
Defined.
