(* ===== verification/SstTable.v ===== *)
(** * A table on the device and its point lookup: [src/sstable.rs]

    [table_on] describes the blocks of a finished table.  Reading it back, through
    any truthful cache, gives for every key the first entry visible at the
    snapshot, whatever blocks the key's version run spans. *)

From stdpp Require Import base numbers list.
From Stdlib Require Import ZArith Lia Sorting.Sorted.
From S2P Require Import Prelude Device Crc Compress Cache Wal Manifest SstPlan SstWriter SstReader SstBlock SstImage SstIndex SstRdel.

(** The newest and oldest sequence numbers of a run of entries. *)
Definition max_seq_of (es : list SstEntry) : u64 :=
  fold_left (fun m e => if (m <? se_seq e)%Z then se_seq e else m) es 0%Z.
Definition min_seq_of (es : list SstEntry) : u64 :=
  fold_left (fun m e => if (se_seq e <? m)%Z then se_seq e else m) es U64_MAX.

Definition first_key_of (es : list SstEntry) : bytes :=
  match es with [] => [] | e :: _ => se_key e end.

(** The index of data blocks at [base], [base + 1], .. *)
Definition index_entries (base : u64) (blks : list (list SstEntry)) : list IndexEntry :=
  imap (fun i es => mkIdx (first_key_of es) (base + Z.of_nat i) (max_seq_of es)) blks.

Lemma length_index_entries base blks : length (index_entries base blks) = length blks.
Proof. apply length_imap. Qed.

Lemma index_entries_snoc base blks es :
  index_entries base (blks ++ [es]) =
  index_entries base blks ++
    [mkIdx (first_key_of es) (base + Z.of_nat (length blks)) (max_seq_of es)].
Proof. unfold index_entries. rewrite imap_app. cbn. by rewrite Nat.add_0_r. Qed.

Lemma index_entries_lookup base blks i es :
  blks !! i = Some es ->
  index_entries base blks !! i = Some (mkIdx (first_key_of es) (base + Z.of_nat i) (max_seq_of es)).
Proof. intros Hi. unfold index_entries. by rewrite list_lookup_imap, Hi. Qed.

Lemma sorted_by_lookup {A} (R : A -> A -> Prop) l :
  (forall i j a b, l !! i = Some a -> l !! j = Some b -> (i < j)%nat -> R a b) -> StronglySorted R l.
Proof.
  induction l as [|x l IH]; intros H; constructor.
  - apply IH. intros i j a b Ha Hb Hij. apply (H (S i) (S j)); auto. lia.
  - apply Forall_lookup. intros j b Hb. apply (H 0%nat (S j)); auto. lia.
Qed.

(** A slice known to succeed. *)
Lemma subs_at (l : bytes) off n x : slice_at l off n = Some x -> sub off n l = x.
Proof. unfold slice_at. destruct (_ <=? _)%nat; [by intros [= <-] | done]. Qed.

Section table.
  Context {D E : Type} `{Laws : DeviceLaws D E}.
  Context (BLOOM_BYTES : nat).

(** The footer payload padded to a body. *)
Definition footer_body (index_id bloom_id entry_count : u64) (k : u8) (rdel_blocks : u32) (min_seq : u64)
  : bytes :=
  (to_le 8 SSTABLE_MAGIC ++ to_le 8 index_id ++ to_le 8 bloom_id ++ to_le 8 entry_count ++ [k] ++
   to_le 4 rdel_blocks ++ to_le 8 min_seq) ++ replicate (body_end - 45) 0%Z.

(** The finished table at [base]: data blocks [blks], tombstone blocks [rbs]. *)
Record table_on (d : D) (base : u64) (blks : list (list SstEntry)) (rbs : list (list RdelEntry))
  (k : u8) (entry_count min_seq : u64) : Prop := {
  to_data : forall i es, blks !! i = Some es ->
    block_wf es /\ exists x, body_ok x /\ inflates x (data_body es) /\
      read_block d (base + Z.of_nat i)%Z = Ok (image x);
  to_rdel : section_on d (base + Z.of_nat (length blks)) rbs;
  to_bloom : exists bl, length bl = BLOOM_BYTES /\ bytes_ok bl /\
    read_block d (base + Z.of_nat (length blks + length rbs))%Z =
      Ok (image (bl ++ replicate (body_end - BLOOM_BYTES) 0%Z)) /\
    forall e, e ∈ concat blks -> bloom_maybe_contains bl (se_key e) k = true;
  to_index_wf : Forall idx_wf (index_entries base blks);
  to_index_len : (length (index_of (index_entries base blks)) <= body_end)%nat;
  to_index : read_block d (base + Z.of_nat (length blks + length rbs) + 1)%Z =
    Ok (image (index_body (index_entries base blks)
                 (body_end - length (index_of (index_entries base blks)))));
  to_footer : read_block d (base + Z.of_nat (length blks + length rbs) + 2)%Z =
    Ok (image (footer_body (base + Z.of_nat (length blks + length rbs) + 1)
                 (base + Z.of_nat (length blks + length rbs)) entry_count k
                 (Z.of_nat (length rbs)) min_seq));
  to_k : (0 < k < 256)%Z;
  to_base : (0 <= base)%Z;
  to_end : (base + Z.of_nat (length blks + length rbs) + 2 <= U64_MAX)%Z;
  to_rdels : (Z.of_nat (length rbs) <= U32_MAX)%Z;
  to_count : (0 <= entry_count <= U64_MAX)%Z;
  to_min : (0 <= min_seq <= U64_MAX)%Z;
}.

  Context (HB : (49 <= BLOCK)%nat) (Hbloom : (BLOOM_BYTES + CRC_LEN <= BLOCK)%nat).

Section reading.
  Context (d : D) (base : u64) (blks : list (list SstEntry)) (rbs : list (list RdelEntry)).
  Context (k : u8) (ec ms : u64) (Hon : table_on d base blks rbs k ec ms).
  Context (L : u32 -> u64 -> Prop) (t : u32).
  Context (HL : forall i, (i < length blks + length rbs + 3)%nat -> L t (base + Z.of_nat i)%Z).

(** What opening the table gives. *)
Definition reader_of : TableReader :=
  mkReader t (base + Z.of_nat (length blks + length rbs) + 1)
    (base + Z.of_nat (length blks + length rbs)) ec k (base + Z.of_nat (length blks))
    (Z.of_nat (length rbs)) ms.

Lemma footer_body_ok index_id bloom_id n kk rdb m :
  (0 <= kk < 256)%Z -> body_ok (footer_body index_id bloom_id n kk rdb m).
Proof.
  intros Hk. unfold footer_body, body_ok. split.
  - rewrite !length_app, !length_to_le, length_replicate. cbn [length]. unfold body_end, CRC_LEN. lia.
  - apply bytes_ok_app. split; [| auto with horton].
    repeat (apply bytes_ok_app; split); auto with horton. constructor; [| constructor].
    unfold fits. lia.
Qed.

Lemma yields_open :
  yields d L (open_cached d t (base + Z.of_nat (length blks + length rbs) + 2)) (Ok reader_of).
Proof.
  pose proof Hon as [_ _ _ _ _ _ Hf Hk Hb He Hr Hc Hm]. unfold open_cached.
  set (bid := (base + Z.of_nat (length blks + length rbs))%Z) in *.
  eapply yields_bind_ok; [apply yields_fetch_ok; [| exact Hf] |].
  { replace (bid + 2)%Z with (base + Z.of_nat (length blks + length rbs + 2))%Z by (unfold bid; lia).
    apply HL. lia. }
  pose proof (footer_body_ok (bid + 1) bid ec k (Z.of_nat (length rbs)) ms ltac:(lia)) as Hok.
  eapply yields_bind_ok; [rewrite image_checks by done; apply yields_pure |].
  enough (parse_footer (E := E) t (bid + 2)
            (image (footer_body (bid + 1) bid ec k (Z.of_nat (length rbs)) ms)) = Ok reader_of) as ->
    by apply yields_pure.
  assert (body_end = BLOCK - 4)%nat as Hbe by done.
  unfold parse_footer. rewrite !image_sub by (auto; lia).
  assert (nth 32 (image (footer_body (bid + 1) bid ec k (Z.of_nat (length rbs)) ms)) 0%Z = k) as ->.
  { unfold image, footer_body. rewrite <- !app_assoc.
    do 4 (rewrite app_nth2 by (rewrite length_to_le; lia); rewrite length_to_le). done. }
  unfold footer_body, reader_of. fold bid.
  assert (from_le (to_le 8 SSTABLE_MAGIC) = SSTABLE_MAGIC) as Hmagic by (by vm_compute).
  erewrite !(subs_at _ 0 8), !(subs_at _ 8 8), !(subs_at _ 16 8), !(subs_at _ 24 8), !(subs_at _ 33 4),
    !(subs_at _ 37 8) by slices.
  rewrite Hmagic, Z.eqb_refl, !from_to_le by (cbn; unfold U64_MAX, U32_MAX in *; lia). cbn [negb].
  rewrite (proj2 (Z.eqb_neq k 0)) by lia. unfold u64_checked_sub.
  rewrite (proj2 (Z.ltb_ge _ _)) by (unfold bid; lia). do 2 f_equal. unfold bid. lia.
Qed.

(** ** The walk over data blocks *)

(** What a lookup of the whole table must return. *)
Definition table_result (es : list SstEntry) (key val_buf : bytes) (mx : u64)
  : result (Lookup * bytes) (Error E) :=
  match List.find (visible key mx) es with
  | None => Ok (LMissing, val_buf)
  | Some e =>
      if se_tombstone e then Ok (LTombstone (se_seq e), val_buf)
      else if (length val_buf <? length (se_val e))%nat then Err (BufferTooSmall (length (se_val e)))
      else Ok (LValue (length (se_val e)) (se_seq e) (if se_ttl e then se_expire_at e else 0%Z),
               splice 0 (se_val e) val_buf)
  end.

Lemma find_app {A} (f : A -> bool) a b :
  List.find f (a ++ b) = match List.find f a with Some x => Some x | None => List.find f b end.
Proof. induction a as [|x a IH]; [done |]. cbn [app List.find]. by destruct (f x). Qed.

(** The outcome of one block, as the walk continues from it. *)
Lemma block_outcome es key buf mx :
  match block_result (E := E) es key buf mx with
  | Ok (Hit (HitValue len sq ex), buf') => table_result es key buf mx = Ok (LValue len sq ex, buf')
  | Ok (Hit (HitTombstone sq), buf') => table_result es key buf mx = Ok (LTombstone sq, buf')
  | Ok (Absent, buf') => buf' = buf /\ List.find (visible key mx) es = None /\
      exists e, e ∈ es /\ bytes_lt key (se_key e)
  | Ok (Truncated, buf') => buf' = buf /\ List.find (visible key mx) es = None
  | Err e => table_result es key buf mx = Err e
  end.
Proof.
  unfold block_result, table_result. destruct (List.find (visible key mx) es) as [e |].
  - unfold take_hit, parsed_of. cbn [pe_op pe_val pe_seq pe_expire_at].
    assert (op_eqb (se_op e) Delete = se_tombstone e) as ->
      by (unfold op_eqb, se_op, se_ttl; destruct (se_tombstone e), (se_expire_at e =? 0)%Z; done).
    unfold se_stored. destruct (se_tombstone e); [done |]. by destruct (_ <? _)%nat.
  - destruct (existsb _ es) eqn:Ex; [| done]. split; [done |]. split; [done |].
    apply existsb_exists in Ex as (e & He & Hlt). exists e.
    split; [by apply list_elem_of_In | by apply bytes_ltb_spec].
Qed.

Lemma find_none_gt key mx es :
  (forall e, e ∈ es -> bytes_lt key (se_key e)) -> List.find (visible key mx) es = None.
Proof. intros Hgt. apply find_all_false, Forall_forall. intros e He. by apply visible_gt, Hgt. Qed.

Lemma yields_blocks_loop key mx suf : forall pre decomp buf,
  blks = pre ++ suf -> suf <> [] -> key_ordered (concat suf) -> length decomp = BLOCK ->
  yields d L (blocks_loop d (length suf) reader_of (base + Z.of_nat (length pre)) decomp key buf mx)
    (table_result (concat suf) key buf mx).
Proof.
  induction suf as [|es suf IH]; intros pre decomp buf Eb Hne Hso Hd; [done |]. clear Hne.
  destruct (to_data _ _ _ _ _ _ _ Hon (length pre) es) as (Hw & x & Hx & Hinf & Hr).
  { rewrite Eb. by apply list_lookup_middle. }
  assert (length blks = length pre + S (length suf))%nat as Hlen by (rewrite Eb, length_app; done).
  cbn [concat] in *. apply key_ordered_app in Hso as (Hes & Hsuf & Hcross).
  cbn [length blocks_loop]. change (tr_table_id reader_of) with t.
  destruct (yields_data_block d L t (base + Z.of_nat (length pre)) true x (data_body es) decomp)
    as (raw & infl & dec & Hy & Hdl & Hbody); auto; [lia | apply HL; lia | by apply length_data_body |].
  eapply yields_bind_ok; [exact Hy |]. cbn beta iota. rewrite Hbody.
  rewrite data_lookup_result by done. pose proof (block_outcome es key buf mx) as Ho.
  eapply yields_bind; [apply yields_pure |].
  unfold table_result at 1. rewrite find_app.
  destruct (block_result es key buf mx) as [[[[len sq ex | sq] | |] buf'] | e].
  - unfold table_result in Ho. destruct (List.find _ es); [| done]. rewrite Ho. apply yields_ret.
  - unfold table_result in Ho. destruct (List.find _ es); [| done]. rewrite Ho. apply yields_ret.
  - destruct Ho as (-> & -> & e & He & Hlt). rewrite find_none_gt; [apply yields_ret |].
    intros e' He'. eapply bytes_lt_le_trans; [exact Hlt | by apply Hcross].
  - destruct Ho as (-> & ->). destruct suf as [|es' suf]; [apply yields_ret |].
    cbn [length Nat.eqb]. unfold u64_checked_add.
    pose proof (to_end _ _ _ _ _ _ _ Hon) as He. cbn [length] in Hlen.
    rewrite (proj2 (Z.ltb_ge _ _)) by lia.
    replace (base + Z.of_nat (length pre) + 1)%Z with (base + Z.of_nat (length (pre ++ [es])))%Z
      by (rewrite length_app; cbn [length]; lia).
    apply (IH (pre ++ [es])); auto. by rewrite <- app_assoc.
  - unfold table_result in Ho |- *. rewrite find_app. by destruct (List.find _ es).
Qed.

Lemma concat_keys_sorted i j a b :
  key_ordered (concat blks) -> blks !! i = Some a -> blks !! j = Some b -> (i <= j)%nat ->
  a <> [] -> b <> [] -> bytes_le (first_key_of a) (first_key_of b).
Proof.
  intros Hso Hi Hj Hij Ha Hb. destruct (decide (i = j)) as [-> |]; [simplify_eq; apply bytes_le_refl |].
  rewrite <- (take_drop_middle blks i a Hi), concat_app in Hso. cbn [concat] in Hso.
  apply key_ordered_app in Hso as (_ & Hso & _). apply key_ordered_app in Hso as (_ & _ & Hcr).
  destruct a as [|ea a]; [done |]. destruct b as [|eb b]; [done |]. cbn [first_key_of].
  apply Hcr; [left |]. apply list_elem_of_In, in_concat. exists (eb :: b). split; [| by left].
  apply list_elem_of_In, (list_elem_of_lookup_2 _ (j - S i)). rewrite lookup_drop, <- Hj. f_equal. lia.
Qed.

Lemma index_keys_sorted :
  key_ordered (concat blks) ->
  StronglySorted (fun a b => bytes_le (ix_key a) (ix_key b)) (index_entries base blks).
Proof.
  intros Hso. apply sorted_by_lookup. intros i j a b Ha Hb Hij.
  unfold index_entries in Ha, Hb. rewrite list_lookup_imap in Ha, Hb.
  destruct (blks !! i) as [ea |] eqn:Ei; [| done]. destruct (blks !! j) as [eb |] eqn:Ej; [| done].
  injection Ha as <-. injection Hb as <-. cbn [ix_key].
  destruct (to_data _ _ _ _ _ _ _ Hon i ea Ei) as [Hwa _].
  destruct (to_data _ _ _ _ _ _ _ Hon j eb Ej) as [Hwb _].
  apply (concat_keys_sorted i j); auto; [lia | apply (bw_nonempty _ Hwa) | apply (bw_nonempty _ Hwb)].
Qed.

(** Blocks before [p] hold only keys below [key] when block [p] starts below it. *)
Lemma find_from_block key mx p es :
  key_ordered (concat blks) -> blks !! p = Some es -> es <> [] ->
  p = 0%nat \/ bytes_lt (first_key_of es) key ->
  List.find (visible key mx) (concat blks) = List.find (visible key mx) (concat (drop p blks)).
Proof.
  intros Hso Hp Hne [-> | Hlt]; [done |]. rewrite <- (take_drop p blks) at 1.
  rewrite concat_app, find_app, (find_all_false _ (concat (take p blks))); [done |].
  apply Forall_forall. intros e He. apply visible_lt.
  rewrite <- (take_drop_middle blks p es Hp), concat_app in Hso. cbn [concat] in Hso.
  apply key_ordered_app in Hso as (_ & _ & Hcr). destruct es as [|e0 es]; [done |].
  eapply bytes_le_lt_trans; [| exact Hlt]. cbn [first_key_of]. apply Hcr; [done | left].
Qed.

(** The lookup of an opened table: the first entry of the key visible at [mx]. *)
Lemma yields_lookup key mx decomp buf :
  key_ordered (concat blks) -> length decomp = BLOCK ->
  yields d L (lookup_at d BLOOM_BYTES reader_of decomp key buf mx)
    (table_result (concat blks) key buf mx).
Proof.
  intros Hso Hd. destruct (to_bloom _ _ _ _ _ _ _ Hon) as (bl & Hbl & Hbb & Hbr & Hbc).
  assert (body_end = BLOCK - 4)%nat as Hbe by done. unfold CRC_LEN in Hbloom.
  assert (body_ok (bl ++ replicate (body_end - BLOOM_BYTES) 0%Z)) as Hbok.
  { split; [rewrite length_app, length_replicate; lia |]. apply bytes_ok_app. auto with horton. }
  unfold lookup_at. change (tr_table_id reader_of) with t.
  change (tr_bloom_block reader_of) with (base + Z.of_nat (length blks + length rbs))%Z.
  change (tr_index_block reader_of) with (base + Z.of_nat (length blks + length rbs) + 1)%Z.
  change (tr_k reader_of) with k.
  eapply yields_bind_ok; [apply yields_fetch_ok; [apply HL; lia | exact Hbr] |]. cbn beta.
  rewrite image_checks by done. cbn [is_ok andb].
  assert (take BLOOM_BYTES (image (bl ++ replicate (body_end - BLOOM_BYTES) 0%Z)) = bl) as ->.
  { unfold image. rewrite <- app_assoc. by apply take_app_length'. }
  destruct (bloom_maybe_contains bl key k) eqn:Em; cbn [negb].
  2: { unfold table_result. rewrite find_all_false; [apply yields_ret |].
       apply Forall_forall. intros e He. unfold visible.
       destruct (bytes_eqb (se_key e) key) eqn:Ek; [| done]. apply bytes_eqb_spec in Ek.
       specialize (Hbc e He). congruence. }
  set (ies := index_entries base blks) in *.
  pose proof (to_index_len _ _ _ _ _ _ _ Hon) as Hil. fold ies in Hil.
  assert (body_ok (index_body ies (body_end - length (index_of ies)))) as Hiok.
  { unfold index_body. split; [rewrite length_app, length_replicate; lia |]. apply bytes_ok_app.
    split; [| auto with horton]. apply index_of_bytes, Hon. }
  eapply yields_bind_ok.
  { apply yields_fetch_ok; [| apply Hon].
    replace (base + Z.of_nat (length blks + length rbs) + 1)%Z
      with (base + Z.of_nat (length blks + length rbs + 1))%Z by lia. apply HL. lia. }
  eapply yields_bind_ok; [rewrite image_checks by done; apply yields_pure |].
  change (BLOCK - CRC_LEN)%nat with body_end. fold ies. rewrite image_body by done.
  destruct (index_lookup_result (E := E) ies (body_end - length (index_of ies))
    (base + Z.of_nat (length blks + length rbs) + 1) (to_index_wf _ _ _ _ _ _ _ Hon)
    (index_keys_sorted Hso) key) as [[Hf Hgt] | (p & i & Hi & Hf & Hp)];
    rewrite Hf; (eapply yields_bind_ok; [apply yields_pure |]).
  - unfold table_result. rewrite find_none_gt; [apply yields_ret |]. intros e He.
    apply list_elem_of_In, in_concat in He as (es & Hes & He).
    apply list_elem_of_In, list_elem_of_lookup in Hes as [j Hj].
    rewrite Forall_lookup in Hgt.
    specialize (Hgt j _ (index_entries_lookup base blks j es Hj)). cbn [ix_key] in Hgt.
    eapply bytes_lt_le_trans; [exact Hgt |].
    apply list_elem_of_In in He. destruct es as [|e0 es]; [by apply not_elem_of_nil in He |].
    cbn [first_key_of]. apply elem_of_cons in He as [-> | He]; [apply bytes_le_refl |].
    rewrite <- (take_drop_middle blks j _ Hj), concat_app in Hso. cbn [concat] in Hso.
    apply key_ordered_app in Hso as (_ & Hso & _). apply key_ordered_app in Hso as (Hso & _ & _).
    apply StronglySorted_inv in Hso as [_ Hso]. rewrite Forall_forall in Hso. by apply Hso.
  - assert (p < length blks)%nat as Hlt
      by (apply lookup_lt_Some in Hi; unfold ies in Hi; by rewrite length_index_entries in Hi).
    destruct (lookup_lt_is_Some_2 blks p Hlt) as [es Hes].
    unfold ies in Hi. rewrite (index_entries_lookup base blks p es Hes) in Hi. injection Hi as <-.
    cbn [ix_key ix_block] in *. unfold ies. rewrite length_index_entries, <- length_drop.
    destruct (to_data _ _ _ _ _ _ _ Hon p es Hes) as [Hw _].
    unfold table_result. rewrite (find_from_block key mx p es Hso Hes (bw_nonempty _ Hw) Hp).
    rewrite <- (length_take_le blks p) at 2 by lia.
    apply (yields_blocks_loop key mx (drop p blks) (take p blks)); auto.
    + by rewrite take_drop.
    + intros Hnil. apply (f_equal length) in Hnil. rewrite length_drop in Hnil. cbn in Hnil. lia.
    + rewrite <- (take_drop p blks), concat_app in Hso. apply key_ordered_app in Hso. tauto.
Qed.

(** The probe of the table's tombstones: the newest covering one. *)
Lemma yields_covering key mx :
  yields d L (covering_rdel_seq d reader_of key mx)
    (Ok (fold_left (cover_step key mx) (concat rbs) None)).
Proof.
  unfold covering_rdel_seq. cbn [reader_of tr_table_id tr_rdel_first tr_rdel_blocks].
  pose proof (to_end _ _ _ _ _ _ _ Hon). apply covering_rdel_result; [apply Hon | | lia | done].
  intros i Hi. replace (base + Z.of_nat (length blks) + Z.of_nat i)%Z
    with (base + Z.of_nat (length blks + i))%Z by lia. apply HL. lia.
Qed.
End reading.
End table.
