(* ===== verification/SstBuild.v ===== *)
(** * Building a table: [src/sstable.rs]

    The state of a [TableWriter] is the greedy packing of the entries pushed so
    far: sealed blocks on the device, one block staged.  A finished table holds
    exactly the pushed entries and the tombstones of its section; the writer
    touches only its own run of blocks and fails only with the device or when the
    index outgrows its block. *)

From stdpp Require Import base numbers list.
From Stdlib Require Import ZArith Lia Sorting.Sorted.
From S2P Require Import Prelude Device Crc Compress Cache Wal Manifest SstPlan SstWriter SstReader SstBlock SstImage SstIndex SstRdel SstTable.

Section build.
  Context {D E : Type} `{Laws : DeviceLaws D E}.
  Context (BLOOM_BYTES KEY_MAX : nat).
  Context (HB : (49 <= BLOCK)%nat) (HB64 : (Z.of_nat BLOCK <= 65536)%Z).
  Context (Hbloom : (BLOOM_BYTES + CRC_LEN <= BLOCK)%nat) (HK : (Z.of_nat KEY_MAX <= U16_MAX)%Z).

(** An entry that fits an empty block. *)
Definition entry_ok1 (e : SstEntry) : Prop :=
  entry_wf e /\ (length (se_key e) <= KEY_MAX)%nat /\ entry_fits BLOCK 0 0 (elen e) = true.

(** Greedy packing: sealed blocks and the staged one. *)
Definition chunk_step (s : list (list SstEntry) * list SstEntry) (e : SstEntry) :=
  let '(bs, cur) := s in
  if entry_fits BLOCK (payload_len cur) (length cur) (elen e) then (bs, cur ++ [e])
  else (bs ++ [cur], [e]).

Definition chunks (es : list SstEntry) : list (list SstEntry) :=
  let '(bs, cur) := fold_left chunk_step es ([], []) in
  if (0 <? length cur)%nat then bs ++ [cur] else bs.

Lemma n_restarts_S n : n_restarts (n + 1) = (n / RESTART_INTERVAL + 1)%nat.
Proof.
  unfold n_restarts, RESTART_INTERVAL. replace (n + 1 + 15)%nat with (n + 1 * 16)%nat by lia.
  by rewrite Nat.div_add.
Qed.

(** [entry_fits] is what a block needs to take the entry. *)
Lemma fits_block_wf cur e :
  Forall entry_wf cur -> entry_wf e ->
  entry_fits BLOCK (payload_len cur) (length cur) (elen e) = true -> block_wf (cur ++ [e]).
Proof.
  intros Hf He. unfold entry_fits. destruct (_ <? _)%nat; [done |].
  destruct (MAX_ENTRIES_PER_BLOCK <=? length cur)%nat eqn:Em; [done |].
  unfold MAX_ENTRIES_PER_BLOCK, RESTART_INTERVAL in Em. intros Hfit. bool_lia.
  assert (length (restarts_of (cur ++ [e])) = length cur / 16 + 1)%nat as Hr
    by (rewrite length_restarts_of, length_app; cbn [length]; apply n_restarts_S).
  assert (length cur / 16 < 128)%nat by (apply Nat.Div0.div_lt_upper_bound; lia).
  unfold RESTART_INTERVAL in Hfit. pose proof (payload_len_snoc cur e) as Hp.
  split.
  - by destruct cur.
  - apply Forall_app. split; [done | by constructor].
  - rewrite Hr, Hp. unfold body_end, CRC_LEN. lia.
  - apply Forall_lookup. intros j r Hj. pose proof (lookup_lt_Some _ _ _ Hj) as Hlt.
    rewrite length_restarts_of in Hlt. rewrite restarts_lookup in Hj by done.
    assert (Z.of_nat (payload_len (take (RESTART_INTERVAL * j) (cur ++ [e]))) = r) as <- by congruence.
    assert (payload_len (take (RESTART_INTERVAL * j) (cur ++ [e])) <= payload_len (cur ++ [e]))%nat.
    { rewrite <- (take_drop (RESTART_INTERVAL * j) (cur ++ [e])) at 2. rewrite payload_len_app. lia. }
    unfold U16_MAX. lia.
  - lia.
Qed.

Definition last_key_of (es : list SstEntry) : bytes :=
  match last es with Some e => se_key e | None => [] end.

(** The writer's state against the packing [(blks, cur)] of the entries pushed. *)
Record tw_inv (d : D) (base : u64) (k : u8) (limit : u64) (w : TableWriter)
  (blks : list (list SstEntry)) (cur : list SstEntry) : Prop := {
  ti_base : tw_base w = base;
  ti_k : tw_k w = k;
  ti_limit : tw_data_limit w = limit;
  ti_data_len : length (tw_data w) = BLOCK;
  ti_payload : tw_payload w = payload_len cur;
  ti_staged : take (payload_len cur) (tw_data w) = payload_of cur;
  ti_n : tw_n w = length cur;
  ti_restarts_len : length (tw_restarts w) = 128%nat;
  ti_nrestarts : tw_nrestarts w = length (restarts_of cur);
  ti_restarts : take (tw_nrestarts w) (tw_restarts w) = restarts_of cur;
  ti_index_len : length (tw_index w) = BLOCK;
  ti_index_n : tw_index_len w = length (index_of (index_entries base blks));
  ti_index : take (tw_index_len w) (tw_index w) = index_of (index_entries base blks);
  ti_index_fits : (tw_index_len w <= body_end)%nat;
  ti_bloom_len : length (tw_bloom w) = BLOOM_BYTES;
  ti_bloom_ok : bytes_ok (tw_bloom w);
  ti_bloom : forall e, e ∈ concat blks ++ cur -> bloom_maybe_contains (tw_bloom w) (se_key e) k = true;
  ti_blocks : tw_data_blocks w = length blks;
  ti_count : tw_entry_count w = length (concat blks ++ cur);
  ti_first_len : length (tw_block_first w) = KEY_MAX;
  ti_first : take (tw_block_first_len w) (tw_block_first w) = first_key_of cur;
  ti_first_n : tw_block_first_len w = length (first_key_of cur);
  ti_block_max : tw_block_max_seq w = max_seq_of cur;
  ti_max : tw_max_seq w = max_seq_of (concat blks ++ cur);
  ti_min : tw_min_seq w = min_seq_of (concat blks ++ cur);
  ti_on : forall i es, blks !! i = Some es ->
    block_wf es /\ exists x, body_ok x /\ inflates x (data_body es) /\
      read_block d (base + Z.of_nat i)%Z = Ok (image x);
  ti_cur : cur = [] \/ block_wf cur;
  ti_keys : Forall (fun e => (length (se_key e) <= KEY_MAX)%nat) (concat blks ++ cur);
  ti_head_len : length (tw_first_key w) = KEY_MAX;
  ti_head_n : tw_first_len w = length (first_key_of (concat blks ++ cur));
  ti_head : take (tw_first_len w) (tw_first_key w) = first_key_of (concat blks ++ cur);
  ti_last_len : length (tw_last_key w) = KEY_MAX;
  ti_last_n : tw_last_len w = length (last_key_of (concat blks ++ cur));
  ti_last : take (tw_last_len w) (tw_last_key w) = last_key_of (concat blks ++ cur);
}.

Lemma tw_new_inv d base k : tw_inv d base k U64_MAX (new BLOOM_BYTES KEY_MAX base k) [] [].
Proof.
  split; cbn; auto; try apply length_replicate; try lia.
  - apply bytes_ok_replicate.
  - intros e He. by apply not_elem_of_nil in He.
  - by intros i es.
Qed.

Lemma tw_limit_inv d base k limit limit' w blks cur :
  tw_inv d base k limit w blks cur ->
  tw_inv d base k limit' (with_block_limit w limit') blks cur.
Proof. intros Hi. destruct Hi. by split. Qed.

(** The device may change outside the sealed run. *)
Lemma tw_inv_device d d' base k limit w blks cur lo hi :
  tw_inv d base k limit w blks cur -> same_outside d d' lo hi ->
  (base + Z.of_nat (length blks) <= lo)%Z -> tw_inv d' base k limit w blks cur.
Proof.
  intros Hi Ho Hlo. destruct Hi. split; auto. intros i es Hes.
  destruct (ti_on0 i es Hes) as (Hw & x & Hx & Hinf & Hr). split; [done |]. exists x.
  split; [done |]. split; [done |]. apply lookup_lt_Some in Hes. rewrite Ho; [done | lia].
Qed.

Lemma concat_sealed (blks : list (list SstEntry)) cur :
  concat (blks ++ [cur]) ++ [] = concat blks ++ cur.
Proof. rewrite concat_app. cbn [concat]. by rewrite !app_nil_r. Qed.

(** The index of these blocks does not fit one block. *)
Definition index_overflow (base : u64) (blks : list (list SstEntry)) : Prop :=
  (body_end < length (index_of (index_entries base blks)))%nat.

(** Why a write fails. *)
Definition write_failure (base : u64) (blks : list (list SstEntry)) (e : Error E) : Prop :=
  (exists de, e = Device de) \/ (e = TableTooLarge /\ index_overflow base blks).

Lemma wrote_err d id b d' e : wrote (E := E) d id b d' (Err e) -> exists de, e = Device de.
Proof.
  unfold wrote. destruct (write_block d id b) as [? [[] | de]]; intros [_ ?]; [done |].
  simplify_eq. eauto.
Qed.

Lemma seal_current_step d base k limit w blks cur cs d' w' cs' r :
  tw_inv d base k limit w blks cur -> block_wf cur ->
  (0 <= base)%Z -> (base + Z.of_nat (length blks) <= U64_MAX)%Z ->
  seal_current d w cs = (d', w', cs', r) ->
  same_outside d d' (base + Z.of_nat (length blks)) (base + Z.of_nat (length blks) + 1) /\
  match r with
  | Ok _ => tw_inv d' base k limit w' (blks ++ [cur]) []
  | Err e => write_failure base (blks ++ [cur]) e
  end.
Proof.
  intros Hi Hw Hpos Hmax. pose proof Hi as [].
  unfold seal_current, u64_checked_add. rewrite ti_base0, ti_blocks0, (proj2 (Z.ltb_ge _ _)) by lia.
  rewrite ti_payload0, ti_restarts0.
  destruct (seal_block _ _ _ _ _ _) as [[[d1 buf] cs1] r1] eqn:Es.
  destruct (seal_data_image _ _ _ _ _ _ _ _ _ ltac:(unfold CRC_LEN; lia) Hw ti_data_len0 ti_staged0 Es)
    as (x & Hx & Hinf & -> & Hwr).
  pose proof (wrote_outside _ _ _ _ _ Hwr) as Ho.
  destruct r1 as [[] | e].
  2: { intros [= <- <- <- <-]. split; [done |]. left. by eapply wrote_err. }
  rewrite ti_first0, ti_index_n0, ti_block_max0.
  pose proof (append_index_snoc (tw_index w) (index_entries base blks) (first_key_of cur)
    (base + Z.of_nat (length blks)) (max_seq_of cur) ti_index_len0) as Ha.
  rewrite <- ti_index_n0 in Ha at 1. specialize (Ha ti_index0).
  rewrite <- index_entries_snoc in Ha.
  destruct (append_index _ _ _ _ _) as [[index' n'] | e] eqn:Eapp.
  - destruct Ha as (Hil & Hn & Hfit & Ht). intros [= <- <- <- <-]. split; [done |].
    split; cbn -[replicate]; auto; try apply length_replicate; rewrite ?concat_sealed; auto; try congruence.
    + by rewrite ti_blocks0, length_app.
    + intros i es Hes. apply lookup_app_Some in Hes as [Hes | [Hge Hes]].
      * destruct (ti_on0 i es Hes) as (Hwe & y & Hy & Hyi & Hr). split; [done |]. exists y.
        split; [done |]. split; [done |]. apply lookup_lt_Some in Hes. rewrite Ho; [done | lia].
      * apply list_lookup_singleton_Some in Hes as [Hz <-]. split; [done |]. exists x.
        split; [done |]. split; [done |]. replace i with (length blks) by lia.
        eapply wrote_reads; [unfold CRC_LEN; lia | done | exact Hwr].
  - destruct Ha as [-> Hov]. intros [= <- <- <- <-]. split; [done |]. right. split; [done |].
    destruct Hov as [Hk | Hov]; [| done]. exfalso.
    destruct cur as [|e0 cur]; [by destruct (bw_nonempty _ Hw) |]. cbn [first_key_of] in Hk.
    apply Forall_app in ti_keys0 as [_ [Hk0 _]%Forall_cons]. lia.
Qed.

Lemma take_restart_next {A} (l : list A) n x :
  (n < length l)%nat -> take (n + 1) (<[n := x]> l) = take n l ++ [x].
Proof.
  intros Hn. rewrite Nat.add_1_r, (take_S_r _ _ x).
  - by rewrite take_insert_ge by lia.
  - by apply list_lookup_insert_eq.
Qed.

(** The restart offsets after the entry at the end of [cur]. *)
Lemma push_restart_step d base k limit w blks cur e :
  tw_inv d base k limit w blks cur -> block_wf (cur ++ [e]) ->
  exists w1, push_restart (E := E) w = Ok w1 /\
    length (tw_restarts w1) = 128%nat /\ tw_nrestarts w1 = length (restarts_of (cur ++ [e])) /\
    take (tw_nrestarts w1) (tw_restarts w1) = restarts_of (cur ++ [e]) /\
    w1 = mkTW (tw_base w) (tw_k w) (tw_data w) (tw_index w) (tw_bloom w) (tw_restarts w1) (tw_payload w)
      (tw_n w) (tw_nrestarts w1) (tw_index_len w) (tw_data_blocks w) (tw_entry_count w)
      (tw_block_first w) (tw_block_first_len w) (tw_block_max_seq w) (tw_first_key w) (tw_first_len w)
      (tw_last_key w) (tw_last_len w) (tw_max_seq w) (tw_min_seq w) (tw_data_limit w).
Proof.
  intros Hi Hw. pose proof Hi as []. unfold push_restart.
  pose proof (restarts_of_snoc cur e) as Hs. pose proof (bw_restarts _ Hw) as Hr.
  pose proof (bw_room _ Hw) as Hroom. rewrite payload_len_snoc in Hroom. rewrite Hs in *.
  destruct (tw_n w mod RESTART_INTERVAL =? 0)%nat eqn:Em; rewrite ti_n0 in Em; rewrite Em in *.
  - assert (try_u16 (tw_payload w) = Some (Z.of_nat (payload_len cur))) as ->
      by (rewrite ti_payload0; apply try_u16_le; unfold body_end, CRC_LEN, U16_MAX in *; lia).
    rewrite length_app in Hr. cbn [length] in Hr.
    eexists. split; [done |]. cbn. rewrite length_insert, ti_nrestarts0, length_app.
    split; [done |]. split; [done |]. split; [| done].
    rewrite take_restart_next by lia. by rewrite <- ti_nrestarts0, ti_restarts0.
  - exists w. rewrite app_nil_r. split; [done |]. split; [done |]. split; [done |]. split; [done |].
    by destruct w.
Qed.

Lemma max_seq_of_snoc es e :
  max_seq_of (es ++ [e]) = if (max_seq_of es <? se_seq e)%Z then se_seq e else max_seq_of es.
Proof. unfold max_seq_of. by rewrite fold_left_app. Qed.

Lemma min_seq_of_snoc es e :
  min_seq_of (es ++ [e]) = if (se_seq e <? min_seq_of es)%Z then se_seq e else min_seq_of es.
Proof. unfold min_seq_of. by rewrite fold_left_app. Qed.

Lemma bloom_add_ok bloom key kk : bytes_ok bloom -> bytes_ok (bloom_add bloom key kk).
Proof.
  intros Hb. unfold bloom_add. destruct (_ =? 0)%Z; [done |].
  generalize (probe_positions key kk (Z.of_nat (length bloom) * 8)) as ps. intros ps.
  revert bloom Hb. induction ps as [|q ps IH]; intros bloom Hb; [done |]. cbn [fold_left]. apply IH.
  unfold set_probe. apply Forall_insert; [done |].
  assert (fits 8 (nth (Z.to_nat (q / 8)) bloom 0%Z)) as Hx.
  { rewrite nth_lookup. destruct (bloom !! Z.to_nat (q / 8)) eqn:El; [| done].
    by apply (Forall_lookup_1 _ _ _ _ Hb El). }
  pose proof (Z.mod_pos_bound q 8 ltac:(lia)) as Hm.
  unfold fits in *. rewrite Z.shiftl_1_l.
  assert (0 <= 2 ^ (q mod 8) < 2 ^ 8)%Z as Hp
    by (split; [apply Z.pow_nonneg; lia | apply Z.pow_lt_mono_r; lia]).
  split; [apply Z.lor_nonneg; lia |].
  destruct (decide (Z.lor (nth (Z.to_nat (q / 8)) bloom 0%Z) (2 ^ (q mod 8)) = 0)%Z) as [-> |]; [lia |].
  apply Z.log2_lt_pow2; [pose proof (proj2 (Z.lor_nonneg (nth (Z.to_nat (q / 8)) bloom 0%Z) (2 ^ (q mod 8))) ltac:(lia)); lia |].
  rewrite Z.log2_lor by lia. apply Z.max_lub_lt.
  - destruct (decide (nth (Z.to_nat (q / 8)) bloom 0%Z = 0)%Z) as [-> |]; [cbn; lia |].
    apply Z.log2_lt_pow2; lia.
  - rewrite Z.log2_pow2; lia.
Qed.

Lemma take_splice_front (key buf : bytes) :
  (length key <= length buf)%nat -> take (length key) (splice 0 key buf) = key.
Proof. intros. unfold splice. rewrite take_0. cbn [app]. apply take_app_length. Qed.

Lemma stage_entry_step d base k limit w blks cur e n kl vl :
  tw_inv d base k limit w blks cur -> entry_ok1 e ->
  entry_fits BLOCK (payload_len cur) (length cur) (elen e) = true ->
  entry_sizes (E := E) e = Ok (n, kl, vl) ->
  exists w1, push_restart (E := E) w = Ok w1 /\
    tw_inv d base k limit (stage_entry w1 e n kl vl) blks (cur ++ [e]).
Proof.
  intros Hi (He & Hkey & _) Hfit Hsz. destruct (entry_sizes_wf _ _ _ _ Hsz) as (-> & -> & -> & Hk1 & _).
  assert (Forall entry_wf cur) as Hcur
    by (destruct (ti_cur _ _ _ _ _ _ _ Hi) as [-> | Hw]; [constructor | apply Hw]).
  pose proof (fits_block_wf cur e Hcur He Hfit) as Hw.
  destruct (push_restart_step _ _ _ _ _ _ _ _ Hi Hw) as (w1 & Ew1 & Hrl & Hrn & Hrt & Hsame).
  exists w1. split; [done |]. destruct Hi. rewrite Hsame. unfold stage_entry.
  pose proof (bw_room _ Hw) as Hroom. rewrite payload_len_snoc in Hroom.
  assert (payload_len cur + elen e <= length (tw_data w))%nat as Hin
    by (rewrite ti_data_len0; unfold body_end in Hroom; lia).
  destruct (bloom_add_spec (tw_bloom w) (se_key e) k) as (Hbl & Hbc & Hbm).
  assert (length (first_key_of cur) = 0%nat -> cur = []) as Hcn.
  { intros Hz. destruct cur as [|e0 cur]; [done |]. apply Forall_cons in Hcur as [(Hz' & _) _].
    cbn in Hz. lia. }
  assert (length (first_key_of (concat blks ++ cur)) = 0%nat -> concat blks ++ cur = []) as Hall.
  { intros Hz. destruct (concat blks ++ cur) as [|e0 l] eqn:El; [done |]. exfalso.
    assert (e0 ∈ concat blks ++ cur) as Hin0 by (rewrite El; left).
    assert (entry_wf e0) as (Hz' & _); [| cbn in Hz; lia].
    apply elem_of_app in Hin0 as [Hin0 | Hin0]; [| by rewrite Forall_forall in Hcur; apply Hcur].
    apply list_elem_of_In, in_concat in Hin0 as (es & Hes & He0).
    apply list_elem_of_In, list_elem_of_lookup in Hes as [i Hes].
    destruct (ti_on0 i es Hes) as [Hwes _]. pose proof (bw_entries _ Hwes) as Hfe.
    rewrite Forall_forall in Hfe. by apply Hfe, list_elem_of_In. }
  split; cbn [tw_base tw_k tw_data tw_index tw_bloom tw_restarts tw_payload tw_n tw_nrestarts tw_index_len
    tw_data_blocks tw_entry_count tw_block_first tw_block_first_len tw_block_max_seq tw_first_key
    tw_first_len tw_last_key tw_last_len tw_max_seq tw_min_seq tw_data_limit]; auto.
  - rewrite ti_payload0, stage_bytes_splice by done. rewrite length_splice; [done |].
    by rewrite length_entry_bytes.
  - by rewrite ti_payload0, payload_len_snoc.
  - rewrite ti_payload0, stage_bytes_splice by done. unfold splice.
    rewrite ti_staged0, app_assoc, payload_of_app. unfold payload_of at 3. cbn [map concat].
    rewrite app_nil_r. apply take_app_length'.
    by rewrite payload_len_snoc, length_app, length_entry_bytes.
  - by rewrite ti_n0, length_app.
  - by rewrite ti_k0, Hbl.
  - by apply bloom_add_ok.
  - rewrite ti_k0. intros e'. rewrite app_assoc. intros [He' | ->%list_elem_of_singleton]%elem_of_app; auto.
  - rewrite ti_count0, app_assoc, (length_app (concat blks ++ cur)). done.
  - destruct (tw_block_first_len w =? 0)%nat; [| done]. rewrite length_splice; [done |]. lia.
  - destruct (tw_block_first_len w =? 0)%nat eqn:Ez; bool_lia.
    + rewrite ti_first_n0 in Ez. rewrite (Hcn Ez). cbn. apply take_splice_front. lia.
    + rewrite ti_first0. by destruct cur; [rewrite ti_first_n0 in Ez |].
  - destruct (tw_block_first_len w =? 0)%nat eqn:Ez; bool_lia.
    + rewrite ti_first_n0 in Ez. by rewrite (Hcn Ez).
    + rewrite ti_first_n0 in *. by destruct cur.
  - by rewrite max_seq_of_snoc, ti_block_max0.
  - by rewrite app_assoc, max_seq_of_snoc, ti_max0.
  - by rewrite app_assoc, min_seq_of_snoc, ti_min0.
  - rewrite app_assoc. apply Forall_app. split; [done | by constructor].
  - destruct (tw_first_len w =? 0)%nat; [rewrite length_splice by lia |]; done.
  - rewrite app_assoc. destruct (tw_first_len w =? 0)%nat eqn:Ez; bool_lia.
    + rewrite ti_head_n0 in Ez. by rewrite (Hall Ez).
    + rewrite ti_head_n0 in *. by destruct (concat blks ++ cur).
  - rewrite app_assoc. destruct (tw_first_len w =? 0)%nat eqn:Ez; bool_lia.
    + rewrite ti_head_n0 in Ez. rewrite (Hall Ez). cbn. apply take_splice_front. lia.
    + rewrite ti_head0. by destruct (concat blks ++ cur); [rewrite ti_head_n0 in Ez |].
  - rewrite length_splice by lia. done.
  - unfold last_key_of. by rewrite app_assoc, last_snoc.
  - unfold last_key_of. rewrite app_assoc, last_snoc. apply take_splice_front. lia.
Qed.

Lemma entry_sizes_some e :
  entry_wf e -> exists n kl vl, entry_sizes (E := E) e = Ok (n, kl, vl).
Proof.
  intros (Hk & Hv & _). unfold entry_sizes. rewrite (proj2 (Nat.eqb_neq _ _)) by lia.
  rewrite try_u16_le by lia. unfold se_stored in Hv.
  destruct (se_tombstone e); rewrite try_u16_le; eauto; cbn in *; lia.
Qed.

Lemma index_overflow_app base a b : index_overflow base a -> index_overflow base (a ++ b).
Proof.
  unfold index_overflow, index_entries. rewrite imap_app, index_of_app, length_app. lia.
Qed.

Lemma write_failure_app base a b e : write_failure base a e -> write_failure base (a ++ b) e.
Proof. intros [? | [? ?]]; [by left | right]. auto using index_overflow_app. Qed.

Lemma push_step d base k limit w blks cur e cs d' w' cs' r :
  tw_inv d base k limit w blks cur -> entry_ok1 e -> (0 <= base)%Z ->
  (base + Z.of_nat (length (fst (chunk_step (blks, cur) e))) <= U64_MAX)%Z ->
  (Z.of_nat (length (fst (chunk_step (blks, cur) e))) + 1 <= limit)%Z ->
  push KEY_MAX d w e cs = (d', w', cs', r) ->
  same_outside d d' base (base + Z.of_nat (length (fst (chunk_step (blks, cur) e)))) /\
  match r with
  | Ok _ => tw_inv d' base k limit w' (fst (chunk_step (blks, cur) e)) (snd (chunk_step (blks, cur) e))
  | Err err => write_failure base (fst (chunk_step (blks, cur) e)) err
  end.
Proof.
  intros Hi He Hpos Hmax Hlim. pose proof He as (Hwf & Hkey & Hfit0).
  destruct (entry_sizes_some e Hwf) as (n & kl & vl & Hsz).
  destruct (entry_sizes_wf _ _ _ _ Hsz) as (En & _). unfold push. rewrite Hsz, En in *.
  rewrite (proj2 (Nat.ltb_ge _ _)) by lia. unfold make_room.
  rewrite (ti_payload _ _ _ _ _ _ _ Hi), (ti_n _ _ _ _ _ _ _ Hi), (ti_limit _ _ _ _ _ _ _ Hi),
    (ti_blocks _ _ _ _ _ _ _ Hi).
  unfold chunk_step in *.
  destruct (entry_fits BLOCK (payload_len cur) (length cur) (elen e)) eqn:Ef; cbn [fst snd] in *.
  - destruct (stage_entry_step _ _ _ _ _ _ _ _ _ _ _ Hi He Ef Hsz) as (w1 & -> & Hi1).
    intros [= <- <- <- <-]. split; [apply same_outside_refl | done].
  - assert (block_wf cur) as Hw.
    { destruct (ti_cur _ _ _ _ _ _ _ Hi) as [-> | Hw]; [| done]. change (entry_fits BLOCK 0 0 (elen e) = false) in Ef. congruence. }
    rewrite (proj2 (Nat.eqb_neq _ _)) by (pose proof (bw_nonempty _ Hw); by destruct cur).
    rewrite length_app in Hmax, Hlim. cbn [length] in Hmax, Hlim.
    rewrite (proj2 (Z.ltb_ge _ _)) by lia.
    destruct (seal_current d w cs) as [[[d1 w1] cs1] r1] eqn:Es.
    destruct (seal_current_step _ _ _ _ _ _ _ _ _ _ _ _ Hi Hw Hpos ltac:(lia) Es) as [Ho Hr].
    assert (same_outside d d1 base (base + Z.of_nat (length (blks ++ [cur])))) as Ho'
      by (rewrite length_app; cbn [length]; eapply same_outside_weaken; [exact Ho | lia | lia]).
    destruct r1 as [[] | err]; [| intros [= <- <- <- <-]; auto].
    rewrite Hfit0. cbn [negb].
    destruct (stage_entry_step _ _ _ _ _ _ [] _ _ _ _ Hr He Hfit0 Hsz) as (w2 & -> & Hi2).
    intros [= <- <- <- <-]. auto.
Qed.

(** [push] reports a sealed block exactly when the entry opened a new one. *)
Lemma push_reports d base k limit w blks cur e cs d' w' cs' o :
  tw_inv d base k limit w blks cur -> push KEY_MAX d w e cs = (d', w', cs', Ok o) ->
  fst (chunk_step (blks, cur) e) = match o with BlockSealed => blks ++ [cur] | Buffered => blks end.
Proof.
  intros Hi. unfold push, make_room.
  rewrite (ti_payload _ _ _ _ _ _ _ Hi), (ti_n _ _ _ _ _ _ _ Hi).
  destruct (entry_sizes e) as [[[n kl] vl] | err] eqn:Hsz; [| done].
  destruct (entry_sizes_wf _ _ _ _ Hsz) as (-> & _). unfold chunk_step.
  destruct (_ <? _)%nat; [done |]. destruct (entry_fits BLOCK _ _ _).
  - destruct (push_restart w); intros [= <- <- <- <-]. done.
  - destruct (_ =? _)%nat; [done |]. destruct (_ <? _)%Z; [done |].
    destruct (seal_current d w cs) as [[[d1 w1] cs1] [[] | err]]; [| done].
    destruct (negb _); [done |]. destruct (push_restart w1); intros [= <- <- <- <-]. done.
Qed.

Lemma chunk_step_prefix s e : exists b, fst (chunk_step s e) = fst s ++ b.
Proof.
  destruct s as [bs cur]. unfold chunk_step. destruct (entry_fits _ _ _ _); cbn [fst].
  - exists []. by rewrite app_nil_r.
  - by exists [cur].
Qed.

Lemma chunk_prefix es s : exists b, fst (fold_left chunk_step es s) = fst s ++ b.
Proof.
  revert s. induction es as [|e es IH]; intros s; cbn [fold_left].
  - exists []. by rewrite app_nil_r.
  - destruct (IH (chunk_step s e)) as [b ->]. destruct (chunk_step_prefix s e) as [b' ->].
    exists (b' ++ b). by rewrite app_assoc.
Qed.

Lemma push_all_steps es : forall d base k limit w blks cur cs d' w' cs' r,
  tw_inv d base k limit w blks cur -> Forall entry_ok1 es -> (0 <= base)%Z ->
  let s := fold_left chunk_step es (blks, cur) in
  (base + Z.of_nat (length (fst s)) <= U64_MAX)%Z -> (Z.of_nat (length (fst s)) + 1 <= limit)%Z ->
  push_all KEY_MAX d w es cs = (d', w', cs', r) ->
  same_outside d d' base (base + Z.of_nat (length (fst s))) /\
  match r with
  | Ok _ => tw_inv d' base k limit w' (fst s) (snd s)
  | Err err => write_failure base (fst s) err
  end.
Proof.
  induction es as [|e es IH]; intros d base k limit w blks cur cs d' w' cs' r Hi Hf Hpos;
    cbn [push_all fold_left]; cbn zeta; intros Hmax Hlim.
  { intros [= <- <- <- <-]. split; [apply same_outside_refl | done]. }
  apply Forall_cons in Hf as [He Hf].
  destruct (push KEY_MAX d w e cs) as [[[d1 w1] cs1] r1] eqn:Ep.
  destruct (chunk_prefix es (chunk_step (blks, cur) e)) as [b Hb]. rewrite Hb in *.
  rewrite length_app in *.
  destruct (push_step _ _ _ _ _ _ _ _ _ _ _ _ _ Hi He Hpos ltac:(lia) ltac:(lia) Ep) as [Ho Hr].
  destruct r1 as [o | err].
  - destruct (chunk_step (blks, cur) e) as [blks1 cur1]. cbn [fst snd] in *. intros Er.
    pose proof (IH _ _ _ _ _ _ _ cs1 d' w' cs' r Hr Hf Hpos) as Hnext. cbn zeta in Hnext. rewrite Hb in Hnext.
    rewrite length_app in Hnext. destruct (Hnext Hmax Hlim Er) as [Ho2 Hr2]. split; [| done].
    eapply same_outside_weaken; [eapply same_outside_trans; [exact Ho | exact Ho2] | lia | lia].
  - intros [= <- <- <- <-]. split; [| by apply write_failure_app].
    eapply same_outside_weaken; [exact Ho | lia | lia].
Qed.

Lemma chunk_concat es s :
  concat (fst (fold_left chunk_step es s)) ++ snd (fold_left chunk_step es s) =
  concat (fst s) ++ snd s ++ es.
Proof.
  revert s. induction es as [|e es IH]; intros [bs cur]; cbn [fold_left]; [by rewrite app_nil_r |].
  rewrite IH. unfold chunk_step.
  destruct (entry_fits _ _ _ _); cbn [fst snd]; rewrite ?concat_app; cbn [concat app];
    by rewrite ?app_nil_r, <- ?app_assoc.
Qed.

(** Packing keeps every entry, in order. *)
Lemma chunks_concat es : concat (chunks es) = es.
Proof.
  pose proof (chunk_concat es ([], [])) as Hc. unfold chunks.
  destruct (fold_left chunk_step es ([], [])) as [bs cur]. cbn [fst snd concat app] in Hc.
  destruct cur as [|r cur]; cbn [length Nat.ltb Nat.leb].
  - by rewrite app_nil_r in Hc.
  - rewrite concat_app. cbn [concat]. by rewrite app_nil_r.
Qed.

Lemma seal_data_step d base k limit w blks cur cs d' w' cs' r :
  tw_inv d base k limit w blks cur -> (0 <= base)%Z ->
  let all := if (0 <? length cur)%nat then blks ++ [cur] else blks in
  (base + Z.of_nat (length all) <= U64_MAX)%Z -> (Z.of_nat (length all) <= limit)%Z ->
  seal_data d w cs = (d', w', cs', r) ->
  same_outside d d' base (base + Z.of_nat (length all)) /\
  match r with
  | Ok n => n = length all /\ tw_inv d' base k limit w' all []
  | Err err => write_failure base all err
  end.
Proof.
  intros Hi Hpos all Hmax Hlim. unfold seal_data.
  rewrite (ti_n _ _ _ _ _ _ _ Hi), (ti_limit _ _ _ _ _ _ _ Hi), (ti_blocks _ _ _ _ _ _ _ Hi).
  unfold all in *. destruct (0 <? length cur)%nat eqn:Ec; bool_lia.
  - assert (block_wf cur) as Hw by (destruct (ti_cur _ _ _ _ _ _ _ Hi) as [-> | ?]; [cbn in *; lia | done]).
    rewrite length_app in *. cbn [length] in *. rewrite (proj2 (Z.leb_gt _ _)) by lia.
    destruct (seal_current d w cs) as [[[d1 w1] cs1] r1] eqn:Es.
    destruct (seal_current_step _ _ _ _ _ _ _ _ _ _ _ _ Hi Hw Hpos ltac:(lia) Es) as [Ho Hr].
    assert (same_outside d d1 base (base + Z.of_nat (length blks + 1))) as Ho'
      by (eapply same_outside_weaken; [exact Ho | lia | lia]).
    destruct r1 as [[] | err]; intros [= <- <- <- <-]; [| auto].
    split; [done |]. split; [| done]. by rewrite (ti_blocks _ _ _ _ _ _ _ Hr), length_app.
  - assert (cur = []) as -> by (destruct cur; [done | cbn in *; lia]).
    intros [= <- <- <- <-]. split; [apply same_outside_refl |]. auto.
Qed.

(** ** The meta blocks *)

Lemma footer_bytes_take index_id bloom_id n k rdb m :
  let b := footer_bytes (replicate BLOCK 0%Z) index_id bloom_id n k rdb m in
  length b = BLOCK /\
  take 45 b ++ replicate (body_end - 45) 0%Z = footer_body index_id bloom_id (Z.of_nat n) k rdb m.
Proof.
  intros b.
  assert (b = splice 0 (to_le 8 SSTABLE_MAGIC ++ to_le 8 index_id ++ to_le 8 bloom_id ++
    to_le 8 (Z.of_nat n) ++ [k] ++ to_le 4 rdb ++ to_le 8 m) (replicate BLOCK 0%Z)) as Eb.
  { unfold b, footer_bytes.
    repeat (rewrite (splice_app 0)
      by (rewrite ?length_app, ?length_to_le, ?length_replicate; cbn [length]; lia)).
    by rewrite <- !app_assoc. }
  rewrite Eb. split.
  - rewrite length_splice; [apply length_replicate |].
    rewrite !length_app, !length_to_le, length_replicate. cbn [length]. lia.
  - unfold footer_body, splice. rewrite take_0. cbn [app]. by f_equal.
Qed.

Lemma u64_add_ok a b : (a + b <= U64_MAX)%Z -> u64_checked_add a b = Some (a + b)%Z.
Proof. intros. unfold u64_checked_add. by rewrite (proj2 (Z.ltb_ge _ _)). Qed.

Lemma finished_bound_ok key len :
  length key = KEY_MAX -> exists b, finished_bound (E := E) KEY_MAX key len = Ok b.
Proof.
  intros Hl. unfold finished_bound. destruct (len =? 0)%nat; [eauto |]. unfold from_slice.
  rewrite (proj2 (Nat.ltb_ge _ _)) by (rewrite length_take; lia).
  rewrite try_u16_le by (rewrite length_take; lia). eauto.
Qed.

(** The blocks of a writer have an index within the format. *)
Lemma index_entries_wf d base k limit w blks :
  tw_inv d base k limit w blks [] -> (0 <= base)%Z -> (base + Z.of_nat (length blks) <= U64_MAX)%Z ->
  Forall idx_wf (index_entries base blks).
Proof.
  intros Hi Hpos Hmax. apply Forall_lookup. intros i ie Hie.
  unfold index_entries in Hie. rewrite list_lookup_imap in Hie.
  destruct (blks !! i) as [es |] eqn:Ees; [| done]. injection Hie as <-.
  destruct (ti_on _ _ _ _ _ _ _ Hi i es Ees) as [Hw _]. apply lookup_lt_Some in Ees as Hlt.
  pose proof (bw_entries _ Hw) as Hf. destruct es as [|e es]; [by destruct (bw_nonempty _ Hw) |].
  apply Forall_cons in Hf as [(Hk & _ & _ & _ & Hkb & _) _].
  unfold idx_wf. cbn [ix_key ix_block first_key_of]. repeat split; auto; lia.
Qed.

Lemma finish_meta_step d base k limit w blks rbs m d' w' r :
  tw_inv d base k limit w blks [] -> (0 <= base)%Z -> (0 < k < 256)%Z ->
  section_on d (base + Z.of_nat (length blks)) rbs ->
  (base + Z.of_nat (length blks + length rbs) + 2 <= U64_MAX)%Z ->
  (Z.of_nat (length rbs) <= U32_MAX)%Z -> (Z.of_nat (length (concat blks)) <= U64_MAX)%Z ->
  (0 <= m <= U64_MAX)%Z -> (0 <= min_seq_of (concat blks) <= U64_MAX)%Z ->
  finish_meta KEY_MAX d w (Z.of_nat (length rbs)) m = (d', w', r) ->
  same_outside d d' (base + Z.of_nat (length blks + length rbs))
    (base + Z.of_nat (length blks + length rbs) + 3) /\
  match r with
  | Ok ft =>
      table_on BLOOM_BYTES d' base blks rbs k (Z.of_nat (length (concat blks)))
        (Z.min (min_seq_of (concat blks)) m) /\
      ft_data_blocks ft = length blks /\ ft_entry_count ft = length (concat blks) /\
      ft_max_seq ft = max_seq_of (concat blks) /\ ft_min_seq ft = Z.min (min_seq_of (concat blks)) m
  | Err e => exists de, e = Device de
  end.
Proof.
  intros Hi Hpos Hk Hsec Hend Hrn Hcn Hm Hmin. pose proof Hi as [].
  rewrite app_nil_r in *. set (bid := (base + Z.of_nat (length blks + length rbs))%Z) in *.
  assert (body_end = BLOCK - 4)%nat as Hbe by done. unfold CRC_LEN in Hbloom.
  unfold finish_meta. rewrite ti_base0, ti_blocks0, u64_add_ok by lia. cbn [mbind option_bind].
  rewrite u64_add_ok by (unfold bid in *; lia).
  replace (base + Z.of_nat (length blks) + Z.of_nat (length rbs))%Z with bid by (unfold bid; lia).
  (* the bloom block *)
  destruct (seal_block d bid _ _ None None) as [[[d1 b1] c1] r1] eqn:E1.
  apply seal_plain in E1 as (Hx1 & -> & Hw1);
    [| unfold CRC_LEN; lia
     | rewrite length_splice; rewrite ?length_replicate; lia
     | rewrite take_splice_front; [done | rewrite length_replicate; lia] | lia].
  rewrite take_splice_front, ti_bloom_len0 in * by (rewrite length_replicate; lia).
  pose proof (wrote_outside _ _ _ _ _ Hw1) as Ho1.
  destruct r1 as [[] | e].
  2: { intros [= <- <- <-]. split; [eapply same_outside_weaken; [exact Ho1 | lia | lia] |].
       by eapply wrote_err. }
  (* the index block *)
  rewrite u64_add_ok by lia.
  change (tw_index (set_data w ?b)) with (tw_index w).
  change (tw_index_len (set_data w ?b)) with (tw_index_len w).
  destruct (seal_block d1 (bid + 1) _ _ None None) as [[[d2 b2] c2] r2] eqn:E2.
  pose proof (index_entries_wf _ _ _ _ _ _ Hi Hpos ltac:(lia)) as Hiw.
  apply seal_plain in E2 as (Hx2 & -> & Hw2);
    [| unfold CRC_LEN; lia | done | rewrite ti_index0; by apply index_of_bytes | done].
  rewrite ti_index0, ti_index_n0 in *. fold (index_body (index_entries base blks)
    (body_end - length (index_of (index_entries base blks)))) in *.
  pose proof (wrote_outside _ _ _ _ _ Hw2) as Ho2.
  destruct r2 as [[] | e].
  2: { intros [= <- <- <-]. split; [| by eapply wrote_err].
       eapply same_outside_weaken; [eapply same_outside_trans; [exact Ho1 | exact Ho2] | lia | lia]. }
  (* the footer block *)
  rewrite u64_add_ok by lia.
  cbn [tw_entry_count tw_k tw_first_key tw_first_len tw_last_key tw_last_len tw_data_blocks tw_max_seq
    set_data set_index]. rewrite ti_count0, ti_k0, ti_min0.
  set (ms := Z.min (min_seq_of (concat blks)) m) in *.
  destruct (footer_bytes_take (bid + 1) bid (length (concat blks)) k (Z.of_nat (length rbs)) ms) as [Hfl Hft].
  destruct (seal_block d2 (bid + 1 + 1) _ 45 None None) as [[[d3 b3] c3] r3] eqn:E3.
  pose proof (footer_body_ok BLOOM_BYTES HB Hbloom (bid + 1) bid (Z.of_nat (length (concat blks))) k (Z.of_nat (length rbs)) ms
    ltac:(lia)) as Hfok.
  apply seal_plain in E3 as (Hx3 & -> & Hw3); [| unfold CRC_LEN; lia | done | | lia].
  2: { pose proof (proj2 Hfok) as Hfb. rewrite <- Hft in Hfb. by apply bytes_ok_app in Hfb as [? _]. }
  rewrite Hft in *. pose proof (wrote_outside _ _ _ _ _ Hw3) as Ho3.
  assert (same_outside d d3 bid (bid + 3)) as Ho.
  { eapply same_outside_weaken;
      [eapply same_outside_trans; [eapply same_outside_trans; [exact Ho1 | exact Ho2] | exact Ho3] | lia | lia]. }
  destruct r3 as [[] | e]; [| intros [= <- <- <-]; split; [done | by eapply wrote_err]].
  destruct (dev_flush d3) as [d4 r4] eqn:Efl.
  assert (forall id, read_block d4 id = read_block d3 id) as Hfd by (intros; by eapply read_flushed).
  assert (same_outside d d4 bid (bid + 3)) as Ho4 by (intros id Hid; rewrite Hfd; by apply Ho).
  destruct r4 as [[] | e]; [| intros [= <- <- <-]; split; [done | eauto]].
  destruct (finished_bound_ok (tw_first_key w) (tw_first_len w) ti_head_len0) as [fk ->].
  destruct (finished_bound_ok (tw_last_key w) (tw_last_len w) ti_last_len0) as [lk ->].
  intros [= <- <- <-]. split; [done |]. split; [| cbn; rewrite ti_blocks0, ti_max0; auto].
  assert (CRC_LEN <= BLOCK)%nat as HC by (unfold CRC_LEN; lia).
  split; auto; try (fold bid; lia).
  - intros i es Hes. destruct (ti_on0 i es Hes) as (Hwes & x & Hx & Hinf & Hr). split; [done |].
    exists x. split; [done |]. split; [done |]. apply lookup_lt_Some in Hes.
    rewrite Ho4; [done | unfold bid; lia].
  - intros i rs Hrs. destruct (Hsec i rs Hrs) as [Hwr Hr]. split; [done |]. apply lookup_lt_Some in Hrs.
    rewrite Ho4; [done | unfold bid; lia].
  - exists (tw_bloom w). rewrite <- ti_bloom_len0 at 1. split; [done |]. split; [done |]. split; [| done].
    fold bid. rewrite Hfd, Ho3, Ho2 by lia. by eapply wrote_reads.
  - fold bid. rewrite Hfd, Ho3 by lia. by eapply wrote_reads.
  - fold bid. rewrite Hfd. replace (bid + 2)%Z with (bid + 1 + 1)%Z by lia. by eapply wrote_reads.
Qed.

(** ** Whole tables *)

Lemma chunk_step_staged es s :
  es <> [] \/ snd s <> [] -> snd (fold_left chunk_step es s) <> [].
Proof.
  revert s. induction es as [|e es IH]; intros [bs cur] Hne; [by destruct Hne |]. cbn [fold_left].
  apply IH. right. unfold chunk_step. destruct (entry_fits _ _ _ _); [| done]. by destruct cur.
Qed.

Lemma chunks_cons es :
  es <> [] -> exists bs cur, fold_left chunk_step es ([], []) = (bs, cur) /\
    (0 <? length cur)%nat = true /\ chunks es = bs ++ [cur].
Proof.
  intros Hne. pose proof (chunk_step_staged es ([], []) (or_introl Hne)) as Hs. unfold chunks.
  destruct (fold_left chunk_step es ([], [])) as [bs cur]. exists bs, cur. cbn [snd] in Hs.
  assert ((0 <? length cur)%nat = true) as Hc by (by destruct cur). rewrite Hc. auto.
Qed.

(** All entries pushed and the data section sealed. *)
Lemma data_section_step d base k limit w es cs d1 w1 cs1 r1 :
  tw_inv d base k limit w [] [] -> Forall entry_ok1 es -> (0 <= base)%Z ->
  (base + Z.of_nat (length (chunks es)) <= U64_MAX)%Z -> (Z.of_nat (length (chunks es)) <= limit)%Z ->
  push_all KEY_MAX d w es cs = (d1, w1, cs1, r1) ->
  same_outside d d1 base (base + Z.of_nat (length (chunks es))) /\
  match r1 with
  | Err err => write_failure base (chunks es) err
  | Ok _ => forall d2 w2 cs2 r2, seal_data d1 w1 cs1 = (d2, w2, cs2, r2) ->
      same_outside d d2 base (base + Z.of_nat (length (chunks es))) /\
      match r2 with
      | Ok n => n = length (chunks es) /\ tw_inv d2 base k limit w2 (chunks es) []
      | Err err => write_failure base (chunks es) err
      end
  end.
Proof.
  intros Hi Hf Hpos Hmax Hlim. destruct es as [|e0 es0].
  { cbn. intros [= <- <- <- <-]. split; [apply same_outside_refl |]. intros d2 w2 cs2 r2 Es.
    by apply (seal_data_step _ _ _ _ _ _ _ _ _ _ _ _ Hi Hpos Hmax Hlim Es). }
  set (es := e0 :: es0) in *. assert (es <> []) as Hne by done. clearbody es.
  destruct (chunks_cons es Hne) as (bs & cur & Efold & Hc & Ech). rewrite Ech in *.
  rewrite length_app in *. cbn [length] in *. intros Ep.
  pose proof (push_all_steps es _ _ _ _ _ _ _ cs d1 w1 cs1 r1 Hi Hf Hpos) as Hs. cbn zeta in Hs.
  rewrite Efold in Hs. cbn [fst snd] in Hs. destruct (Hs ltac:(lia) ltac:(lia) Ep) as [Ho Hr].
  split; [eapply same_outside_weaken; [exact Ho | lia | lia] |].
  destruct r1 as [[] | err]; [| by apply write_failure_app]. intros d2 w2 cs2 r2 Es.
  pose proof (seal_data_step _ _ _ _ _ _ _ cs1 d2 w2 cs2 r2 Hr Hpos) as Hsd. cbn zeta in Hsd. rewrite Hc in Hsd.
  rewrite length_app in Hsd. cbn [length] in Hsd. destruct (Hsd ltac:(lia) ltac:(lia) Es) as [Ho2 Hr2].
  split; [| done]. eapply same_outside_weaken; [eapply same_outside_trans; [exact Ho | exact Ho2] | lia | lia].
Qed.

Lemma min_seq_bounds es : Forall entry_wf es -> (0 <= min_seq_of es <= U64_MAX)%Z.
Proof.
  intros Hf. unfold min_seq_of.
  enough (forall m, (0 <= m <= U64_MAX)%Z ->
    (0 <= fold_left (fun m e => if (se_seq e <? m)%Z then se_seq e else m) es m <= U64_MAX)%Z) as Hg
    by (apply Hg; unfold U64_MAX; lia).
  induction Hf as [|e es (_ & _ & Hs & _) Hf IH]; intros m Hb; [done |]. cbn [fold_left]. apply IH.
  destruct (se_seq e <? m)%Z; lia.
Qed.

Lemma entries_wf es : Forall entry_ok1 es -> Forall entry_wf es.
Proof. intros Hf. eapply Forall_impl; [exact Hf |]. by intros e (He & _). Qed.

(** A table without tombstones, written in one go. *)
Lemma write_table_step d base k es cs d' r :
  Forall entry_ok1 es -> (0 <= base)%Z -> (0 < k < 256)%Z ->
  (base + Z.of_nat (length (chunks es)) + 2 <= U64_MAX)%Z -> (Z.of_nat (length es) <= U64_MAX)%Z ->
  write_table BLOOM_BYTES KEY_MAX d base k es cs = (d', r) ->
  same_outside d d' base (base + Z.of_nat (length (chunks es)) + 3) /\
  match r with
  | Ok n => n = (length (chunks es) + 3)%nat /\
      table_on BLOOM_BYTES d' base (chunks es) [] k (Z.of_nat (length es)) (Z.min (min_seq_of es) U64_MAX)
  | Err e => write_failure base (chunks es) e
  end.
Proof.
  intros Hf Hpos Hk Hend Hcn. unfold write_table.
  destruct (push_all KEY_MAX d (new BLOOM_BYTES KEY_MAX base k) es cs) as [[[d1 w1] cs1] r1] eqn:Ep.
  destruct (data_section_step _ _ _ _ _ _ _ _ _ _ _ (tw_new_inv d base k) Hf Hpos ltac:(lia)
    ltac:(unfold U64_MAX in *; lia) Ep) as [Ho1 Hr1].
  assert (forall d2, same_outside d d2 base (base + Z.of_nat (length (chunks es))) ->
    same_outside d d2 base (base + Z.of_nat (length (chunks es)) + 3)) as Hw
    by (intros; eapply same_outside_weaken; [done | lia | lia]).
  destruct r1 as [[] | err]; [| intros [= <- <-]; auto]. unfold finish.
  destruct (seal_data d1 w1 cs1) as [[[d2 w2] cs2] r2] eqn:Es.
  destruct (Hr1 _ _ _ _ eq_refl) as [Ho2 Hr2].
  destruct r2 as [n2 | err]; [| intros [= <- <-]; auto]. destruct Hr2 as [_ Hi2].
  destruct (finish_meta KEY_MAX d2 w2 0 U64_MAX) as [[d3 w3] r3] eqn:Em.
  destruct (finish_meta_step _ _ _ _ _ _ [] U64_MAX _ _ _ Hi2 Hpos Hk ltac:(by intros i rs)
    ltac:(cbn [length]; rewrite Nat.add_0_r; lia) ltac:(done) ltac:(by rewrite chunks_concat)
    ltac:(unfold U64_MAX; lia) ltac:(rewrite chunks_concat; by apply min_seq_bounds, entries_wf) Em)
    as [Ho3 Hr3].
  cbn [length] in Ho3. rewrite Nat.add_0_r in Ho3.
  assert (same_outside d d3 base (base + Z.of_nat (length (chunks es)) + 3)) as Ho.
  { eapply same_outside_weaken; [eapply same_outside_trans; [exact Ho2 | exact Ho3] | lia | lia]. }
  rewrite chunks_concat in Hr3.
  destruct r3 as [ft | e]; intros [= <- <-]; (split; [done |]); [| by left].
  destruct Hr3 as (Hon & -> & _). auto.
Qed.
End build.

(** ** Round trip *)

(** The order of a run: keys ascending, the versions of a key newest first. *)
Definition version_before (a b : SstEntry) : Prop :=
  bytes_lt (se_key a) (se_key b) \/ (se_key a = se_key b /\ (se_seq b < se_seq a)%Z).

Definition version_ordered (es : list SstEntry) : Prop := StronglySorted version_before es.

Lemma version_key_ordered es : version_ordered es -> key_ordered es.
Proof.
  intros Hs. induction Hs as [|e es Hs IH Hf]; constructor; [done |].
  eapply Forall_impl; [exact Hf |]. intros e' [? | [-> _]]; [by apply bytes_lt_le | apply bytes_le_refl].
Qed.

(** [o] is the newest version of [key] at or below [mx] among [es]. *)
Definition newest_version (key : bytes) (mx : u64) (es : list SstEntry) (o : option SstEntry) : Prop :=
  match o with
  | None => forall e, e ∈ es -> se_key e = key -> (mx < se_seq e)%Z
  | Some e =>
      e ∈ es /\ se_key e = key /\ (se_seq e <= mx)%Z /\
      forall e', e' ∈ es -> se_key e' = key -> (se_seq e' <= mx)%Z -> (se_seq e' <= se_seq e)%Z
  end.

Lemma visible_spec key mx e : visible key mx e = true <-> se_key e = key /\ (se_seq e <= mx)%Z.
Proof. unfold visible. by rewrite andb_true_iff, bytes_eqb_spec, Z.leb_le. Qed.

Lemma find_newest key mx es :
  version_ordered es -> newest_version key mx es (List.find (visible key mx) es).
Proof.
  induction 1 as [|e es Hs IH Hf]; [by intros e ?%not_elem_of_nil |]. cbn [List.find].
  destruct (visible key mx e) eqn:Ev.
  - apply visible_spec in Ev as [Hk Hle]. repeat split; auto; [left |].
    intros e' [-> | He']%elem_of_cons Hk' Hle'; [lia |]. rewrite Forall_forall in Hf.
    destruct (Hf e' He') as [Hlt | [_ ?]]; [| lia]. rewrite Hk, Hk' in Hlt.
    by apply (irreflexivity bytes_lt) in Hlt.
  - assert (se_key e = key -> (mx < se_seq e)%Z) as He.
    { intros Hk. destruct (decide (se_seq e <= mx)%Z); [| lia].
      assert (visible key mx e = true) by (by apply visible_spec). congruence. }
    destruct (List.find (visible key mx) es) as [e0 |].
    + destruct IH as (Hin & Hk & Hle & Hall). repeat split; auto; [by right |].
      intros e' [-> | He']%elem_of_cons; auto. intros Hk' Hle'. specialize (He Hk'). lia.
    + intros e' [-> | He']%elem_of_cons; auto.
Qed.

(** What a lookup reports of the version it found. *)
Definition answer {E} (o : option SstEntry) (val_buf : bytes) : result (Lookup * bytes) (Error E) :=
  match o with
  | None => Ok (LMissing, val_buf)
  | Some e =>
      if se_tombstone e then Ok (LTombstone (se_seq e), val_buf)
      else if (length val_buf <? length (se_val e))%nat then Err (BufferTooSmall (length (se_val e)))
      else Ok (LValue (length (se_val e)) (se_seq e) (if se_ttl e then se_expire_at e else 0%Z),
               splice 0 (se_val e) val_buf)
  end.

(** C16 A table reads back what was written.  Writing a run of entries (keys ascending,
    versions newest first, each fitting a block) either fails with a device error or
    because the index outgrows its block, or puts the table on the device; in every
    case only the table's own run of blocks is touched.  Once written, opening it
    succeeds and looking up any key at any snapshot returns exactly the newest version
    at or below the snapshot: its value, expiry and sequence number, a tombstone, or
    nothing, for raw and compressed blocks, with runs that span blocks, and through
    any cache whose images are true. *)
Theorem table_roundtrip {D E} `{Dev : !BlockDevice D E} {Laws : DeviceLaws D E} BLOOM_BYTES KEY_MAX
  (d d' : D) base k es cs r
  (HB : (49 <= BLOCK)%nat) (HB64 : (Z.of_nat BLOCK <= 65536)%Z)
  (Hbloom : (BLOOM_BYTES + CRC_LEN <= BLOCK)%nat) (HK : (Z.of_nat KEY_MAX <= U16_MAX)%Z)
  (Hes : Forall (entry_ok1 KEY_MAX) es) (Hord : version_ordered es) (Hk : (0 < k < 256)%Z)
  (Hbase : (0 <= base)%Z) (Hend : (base + Z.of_nat (length (chunks es)) + 2 <= U64_MAX)%Z)
  (Hcount : (Z.of_nat (length es) <= U64_MAX)%Z)
  (Hw : write_table BLOOM_BYTES KEY_MAX d base k es cs = (d', r)) :
  same_outside d d' base (base + Z.of_nat (length (chunks es)) + 3) /\
  match r with
  | Err e => (exists de, e = Device de) \/ (e = TableTooLarge /\ index_overflow base (chunks es))
  | Ok n =>
      n = (length (chunks es) + 3)%nat /\
      forall (L : u32 -> u64 -> Prop) t c,
        (forall i, (i < n)%nat -> L t (base + Z.of_nat i)%Z) -> truthful d' L c ->
        exists rd c1, open_cached d' t (base + Z.of_nat n - 1) c = Some (c1, Ok rd) /\
        forall key mx val_buf decomp, length decomp = BLOCK ->
          exists o c2, newest_version key mx es o /\
            lookup_at d' BLOOM_BYTES rd decomp key val_buf mx c1 = Some (c2, answer o val_buf) /\
            truthful d' L c2
  end.
Proof.
  destruct (write_table_step BLOOM_BYTES KEY_MAX HB HB64 Hbloom HK _ _ _ _ _ _ _ Hes Hbase Hk Hend Hcount Hw)
    as [Ho Hr]. split; [done |]. destruct r as [n | e]; [| done]. destruct Hr as [-> Hon].
  split; [done |]. intros L t c HL Hc.
  assert (forall i, (i < length (chunks es) + length (@nil (list RdelEntry)) + 3)%nat ->
    L t (base + Z.of_nat i)%Z) as HL' by (cbn [length]; intros i Hi; apply HL; lia).
  destruct (yields_open BLOOM_BYTES HB Hbloom _ _ _ _ _ _ _ Hon L t HL' c Hc) as (c1 & Eo & Hc1 & _).
  cbn [length] in Eo. rewrite Nat.add_0_r in Eo.
  exists (reader_of base (chunks es) [] k (Z.of_nat (length es)) (Z.min (min_seq_of es) U64_MAX) t), c1.
  split; [rewrite <- Eo; f_equal; lia |]. intros key mx buf decomp Hd.
  assert (key_ordered (concat (chunks es))) as Hko by (rewrite chunks_concat; by apply version_key_ordered).
  destruct (yields_lookup BLOOM_BYTES HB Hbloom _ _ _ _ _ _ _ Hon L t HL' key mx decomp buf Hko Hd c1 Hc1)
    as (c2 & El & Hc2 & _).
  rewrite chunks_concat in El. exists (List.find (visible key mx) es), c2.
  split; [by apply find_newest | done].
Qed.

#[export] Instance entry_wf_dec e : Decision (entry_wf e).
Proof. unfold entry_wf. apply _. Defined.

#[export] Instance entry_ok1_dec `{BlockDevice D E} KEY_MAX e : Decision (entry_ok1 KEY_MAX e).
Proof. unfold entry_ok1. apply _. Defined.

#[export] Instance version_before_dec a b : Decision (version_before a b).
Proof. unfold version_before. apply _. Defined.

(** Two versions of one key, a tombstone and a value with an expiry. *)
Definition demo_entries : list SstEntry :=
  [mkSst [97]%Z [1; 2]%Z 5 false 0; mkSst [97]%Z [3]%Z 2 false 0; mkSst [98]%Z [] 4 true 0;
   mkSst [99]%Z [4]%Z 3 false 77].

Lemma table_roundtrip_witness :
  exists d' rd c1 o c2,
    @write_table _ _ (MemDisk.device 64) 8 4 ∅ 0 3 demo_entries (Some Compress.new) = (d', Ok 5%nat) /\
    @open_cached _ _ (MemDisk.device 64) d' 1 4 None = Some (c1, Ok rd) /\
    newest_version [97]%Z 4 demo_entries o /\
    @lookup_at _ _ (MemDisk.device 64) d' 8 rd (replicate 64 0%Z) [97]%Z [0; 0]%Z 4 c1 =
      Some (c2, answer o [0; 0]%Z).
Proof.
  destruct (@write_table _ _ (MemDisk.device 64) 8 4 ∅ 0 3 demo_entries (Some Compress.new))
    as [d' r] eqn:Ew.
  assert (r = Ok 5%nat) as -> by (apply (f_equal snd) in Ew; cbn [snd] in Ew; rewrite <- Ew; vm_compute; reflexivity).
  pose proof (@table_roundtrip _ _ (MemDisk.device 64) (MemDisk.laws 64) 8 4 ∅ d' 0 3 demo_entries
    (Some Compress.new) (Ok 5%nat)) as H.
  destruct H as [_ [_ H]].
  - change (49 <= 64)%nat. lia.
  - change (Z.of_nat 64 <= 65536)%Z. lia.
  - change (8 + 4 <= 64)%nat. lia.
  - change (4 <= 65535)%Z. lia.
  - apply (bool_decide_unpack _). vm_compute. exact I.
  - repeat constructor; apply (bool_decide_unpack _); vm_compute; exact I.
  - lia.
  - lia.
  - vm_compute. discriminate.
  - vm_compute. discriminate.
  - exact Ew.
  - destruct (H (fun _ _ => True) 1%Z None) as (rd & c1 & Eo & Hl); [done | done |].
    destruct (Hl [97]%Z 4%Z [0; 0]%Z (replicate 64 0%Z)) as (o & c2 & Ho & El & _); [done |].
    exists d', rd, c1, o, c2. auto.
Defined.
