(* ===== verification/Payload.v ===== *)
(** * Ring payloads: [src/drainer.rs], [mod payload]

    The 32-byte slot format that carries one mutation through the admission ring.
    A slice out of range would panic in the source; here it is [None], and the
    theorem says it never happens. *)

From stdpp Require Import base numbers list.
From Stdlib Require Import ZArith Lia.
From S2P Require Import Prelude Device Memtable Wal SstReader.

(** ** The code *)

Definition PUT : u8 := op_to_u8 Put.
Definition DELETE : u8 := op_to_u8 Delete.
Definition RANGE_DELETE : u8 := op_to_u8 RangeDelete.
Definition PUT_TTL : u8 := op_to_u8 PutTtl.

(** [payload::Decoded] *)
Inductive Payload :=
  | PPut (key val : bytes)
  | PDelete (key : bytes)
  | PRangeDelete (start end_ : bytes)
  | PPutTtl (key val : bytes) (expire_at : u64).

Inductive DecodeError := BadOp | BadKeyLen | BadValLen.

(** [u8::try_from(usize)] *)
Definition try_u8 (n : nat) : option u8 := if (Z.of_nat n <=? 255)%Z then Some (Z.of_nat n) else None.

(** [let mut p = [0u8; 32]] with the header bytes set. *)
Definition slot_with (op a b : u8) : bytes := [op; a; b] ++ replicate 29 0%Z.

Definition encode_put (key val : bytes) : option bytes :=
  match try_u8 (length key), try_u8 (length val) with
  | Some klen, Some vlen =>
      if (klen =? 0)%Z || (29 <? klen)%Z || (29 <? klen + vlen)%Z then None
      else
        let p := slot_with PUT klen vlen in
        let p := splice 3 key p in
        Some (splice (3 + length key) val p)
  | _, _ => None
  end.

Definition encode_delete (key : bytes) : option bytes :=
  match try_u8 (length key) with
  | Some klen => if (klen =? 0)%Z || (29 <? klen)%Z then None else Some (splice 3 key (slot_with DELETE klen 0))
  | None => None
  end.

Definition encode_range_delete (start end_ : bytes) : option bytes :=
  match try_u8 (length start), try_u8 (length end_) with
  | Some slen, Some elen =>
      if (slen =? 0)%Z || (elen =? 0)%Z || (29 <? slen + elen)%Z then None
      else
        let p := slot_with RANGE_DELETE slen elen in
        let p := splice 3 start p in
        Some (splice (3 + length start) end_ p)
  | _, _ => None
  end.

Definition encode_put_ttl (key val : bytes) (expire_at : u64) : option bytes :=
  if (expire_at =? 0)%Z then encode_put key val
  else
    match try_u8 (length key), try_u8 (length val) with
    | Some klen, Some vlen =>
        if (klen =? 0)%Z || (29 <? 8 + klen + vlen)%Z then None
        else
          let p := slot_with PUT_TTL klen vlen in
          let p := splice 3 (to_le 8 expire_at) p in
          let p := splice 11 key p in
          Some (splice (11 + length key) val p)
    | _, _ => None
    end.

(** [None] is a slice out of range. *)
Definition decode_body (op : Op) (a b : nat) (p : bytes) : option (result Payload DecodeError) :=
  match op with
  | Put =>
      if (a =? 0)%nat || (29 <? a)%nat then Some (Err BadKeyLen)
      else if (29 <? a + b)%nat then Some (Err BadValLen)
      else
        match slice_at p 3 a, slice_at p (3 + a) b with
        | Some k, Some v => Some (Ok (PPut k v))
        | _, _ => None
        end
  | Delete =>
      if (a =? 0)%nat || (29 <? a)%nat then Some (Err BadKeyLen)
      else if negb (b =? 0)%nat then Some (Err BadValLen)
      else match slice_at p 3 a with Some k => Some (Ok (PDelete k)) | None => None end
  | RangeDelete =>
      if (a =? 0)%nat || (29 <? a)%nat || (b =? 0)%nat || (29 <? b)%nat then Some (Err BadKeyLen)
      else if (29 <? a + b)%nat then Some (Err BadValLen)
      else
        match slice_at p 3 a, slice_at p (3 + a) b with
        | Some s, Some e => Some (Ok (PRangeDelete s e))
        | _, _ => None
        end
  | PutTtl =>
      if (a =? 0)%nat || (21 <? a)%nat then Some (Err BadKeyLen)
      else if (29 <? 8 + a + b)%nat then Some (Err BadValLen)
      else
        match slice_at p 3 8, slice_at p 11 a, slice_at p (11 + a) b with
        | Some x, Some k, Some v => Some (Ok (PPutTtl k v (from_le x)))
        | _, _, _ => None
        end
  end.

Definition decode (p : bytes) : option (result Payload DecodeError) :=
  let op :=
    if (nth 0 p 0 =? PUT)%Z then Some Put
    else if (nth 0 p 0 =? DELETE)%Z then Some Delete
    else if (nth 0 p 0 =? RANGE_DELETE)%Z then Some RangeDelete
    else if (nth 0 p 0 =? PUT_TTL)%Z then Some PutTtl
    else None in
  match op with
  | None => Some (Err BadOp)
  | Some op => decode_body op (Z.to_nat (nth 1 p 0%Z)) (Z.to_nat (nth 2 p 0%Z)) p
  end.

(** ** The wire format *)

Definition wire (m : Payload) : bytes :=
  match m with
  | PPut k v => [PUT; Z.of_nat (length k); Z.of_nat (length v)] ++ k ++ v
  | PDelete k => [DELETE; Z.of_nat (length k); 0%Z] ++ k
  | PRangeDelete s e => [RANGE_DELETE; Z.of_nat (length s); Z.of_nat (length e)] ++ s ++ e
  | PPutTtl k v x => [PUT_TTL; Z.of_nat (length k); Z.of_nat (length v)] ++ to_le 8 x ++ k ++ v
  end.

(** The mutations a slot can carry. *)
Definition carried (m : Payload) : Prop :=
  match m with
  | PPut k v => (0 < length k)%nat /\ (length k + length v <= 29)%nat
  | PDelete k => (0 < length k <= 29)%nat
  | PRangeDelete s e => (0 < length s)%nat /\ (0 < length e)%nat /\ (length s + length e <= 29)%nat
  | PPutTtl k v x => (0 < length k)%nat /\ (8 + length k + length v <= 29)%nat /\ fits 64 x
  end.

#[export] Instance carried_dec m : Decision (carried m).
Proof. destruct m; apply _. Defined.

(** A TTL put without expiry is a put. *)
Definition canonical (m : Payload) : Payload :=
  match m with PPutTtl k v x => if (x =? 0)%Z then PPut k v else m | _ => m end.

Definition encode (m : Payload) : option bytes :=
  match m with
  | PPut k v => encode_put k v
  | PDelete k => encode_delete k
  | PRangeDelete s e => encode_range_delete s e
  | PPutTtl k v x => encode_put_ttl k v x
  end.

Definition padded (m : Payload) : bytes := wire m ++ replicate (32 - length (wire m)) 0%Z.

(** ** Decoding *)

Lemma slice_body x y z body off n :
  slice_at (x :: y :: z :: body) (3 + off) n = if (off + n <=? length body)%nat then Some (sub off n body) else None.
Proof. unfold slice_at. cbn [length]. replace (3 + off + n <=? S (S (S (length body))))%nat with (off + n <=? length body)%nat; [done |]. apply eq_true_iff_eq. rewrite !Nat.leb_le. lia. Qed.

Lemma slot_parts (p : bytes) : length p = 32%nat ->
  exists x y z body, p = x :: y :: z :: body /\ length body = 29%nat.
Proof. intros Hl. destruct p as [|x [|y [|z body]]]; try done. exists x, y, z, body. split; [done |]. cbn in Hl. lia. Qed.

(** The two fields of a body that is long enough. *)
Lemma two_fields (body : bytes) off a b : (off + a + b <= length body)%nat ->
  exists pre k v rest, body = pre ++ k ++ v ++ rest /\ length pre = off /\ length k = a /\ length v = b /\
    sub off a body = k /\ sub (off + a) b body = v /\ sub 0 off body = pre.
Proof.
  intros Hl. exists (take off body), (sub off a body), (sub (off + a) b body), (drop (off + a + b) body).
  unfold sub. rewrite drop_0, !length_take, !length_drop. split_and!; auto; try lia.
  rewrite <- (take_drop off body) at 1. f_equal. rewrite <- (take_drop a (drop off body)) at 1. f_equal.
  rewrite drop_drop. rewrite <- (take_drop b (drop (off + a) body)) at 1. f_equal. by rewrite drop_drop.
Qed.

Lemma slice_field (l pre f rest : bytes) off n :
  l = pre ++ f ++ rest -> off = length pre -> n = length f -> slice_at l off n = Some f.
Proof.
  intros -> -> ->. unfold slice_at. rewrite (proj2 (Nat.leb_le _ _)) by (rewrite !length_app; lia).
  by rewrite sub_mid.
Qed.

(** Decide the length tests. *)
Ltac length_tests :=
  repeat first [rewrite (proj2 (Nat.eqb_neq _ _)) by lia | rewrite (proj2 (Nat.ltb_ge _ _)) by lia
    | rewrite (proj2 (Nat.eqb_eq _ _)) by lia]; cbn [orb negb].

Lemma decode_wire m rest : carried m -> length (wire m ++ rest) = 32%nat -> decode (wire m ++ rest) = Some (Ok m).
Proof.
  intros Hc Hl. unfold decode. destruct m as [k v | k | s e | k v x]; cbn [wire carried] in *; cbn [app nth];
    cbn [Z.eqb PUT DELETE RANGE_DELETE PUT_TTL op_to_u8 Pos.eqb]; rewrite ?Nat2Z.id; unfold decode_body; length_tests.
  - rewrite (slice_field _ [1; Z.of_nat (length k); Z.of_nat (length v)]%Z k (v ++ rest)) by (cbn; by rewrite <- ?app_assoc).
    rewrite (slice_field _ ([1; Z.of_nat (length k); Z.of_nat (length v)]%Z ++ k) v rest) by (cbn; by rewrite <- ?app_assoc).
    done.
  - by rewrite (slice_field _ [2; Z.of_nat (length k); 0]%Z k rest).
  - rewrite (slice_field _ [3; Z.of_nat (length s); Z.of_nat (length e)]%Z s (e ++ rest)) by (cbn; by rewrite <- ?app_assoc).
    rewrite (slice_field _ ([3; Z.of_nat (length s); Z.of_nat (length e)]%Z ++ s) e rest) by (cbn; by rewrite <- ?app_assoc).
    done.
  - destruct Hc as (H1 & H2 & H3).
    set (hd := [4; Z.of_nat (length k); Z.of_nat (length v)]%Z).
    rewrite (slice_field _ hd (to_le 8 x) (k ++ v ++ rest)) by (cbn; by rewrite <- ?app_assoc).
    rewrite (slice_field _ (hd ++ to_le 8 x) k (v ++ rest)) by (cbn; by rewrite <- ?app_assoc).
    rewrite (slice_field _ (hd ++ to_le 8 x ++ k) v rest) by (cbn; by rewrite <- ?app_assoc).
    by rewrite from_to_le by exact H3.
Qed.

(** [r] is a mutation only if [p] starts with its wire form. *)
Definition decodes (p : bytes) (o : option (result Payload DecodeError)) : Prop :=
  exists r, o = Some r /\ forall m, r = Ok m -> carried m /\ exists rest, p = wire m ++ rest.

Lemma decodes_err p e : decodes p (Some (Err e)).
Proof. exists (Err e). by split. Qed.

Lemma key_body y z body : length body = 29%nat -> (0 <= y)%Z -> (0 <= z)%Z ->
  decodes (DELETE :: y :: z :: body) (decode_body Delete (Z.to_nat y) (Z.to_nat z) (DELETE :: y :: z :: body)).
Proof.
  intros Hl Hy Hz. unfold decode_body. destruct (_ || _) eqn:E1; [apply decodes_err |].
  destruct (Z.to_nat z =? 0)%nat eqn:E2; [| apply decodes_err]. cbn [negb]. bool_lia.
  rewrite (slice_body _ _ _ _ 0 _). rewrite (proj2 (Nat.leb_le _ _)) by lia.
  destruct (two_fields body 0 (Z.to_nat y) 0 ltac:(lia)) as ([|] & k & v & rest & Eb & Hp & Hk & Hv & Ek & _ & _); [| done].
  eexists. split; [done |]. intros m [= <-]. rewrite Ek. cbn [carried wire]. split; [lia |]. exists (v ++ rest).
  cbn [app]. rewrite Eb. cbn [app]. do 3 f_equal; lia.
Qed.

Lemma fields_body op y z body : length body = 29%nat -> (0 <= y)%Z -> (0 <= z)%Z -> (op = Put \/ op = RangeDelete) ->
  decodes (op_to_u8 op :: y :: z :: body) (decode_body op (Z.to_nat y) (Z.to_nat z) (op_to_u8 op :: y :: z :: body)).
Proof.
  intros Hl Hy Hz Hop.
  destruct (decide (Z.to_nat y + Z.to_nat z <= 29)%nat) as [Hin |].
  - destruct (two_fields body 0 (Z.to_nat y) (Z.to_nat z) ltac:(lia)) as ([|] & k & v & rest & Eb & Hp & Hk & Hv & Ek & Ev & _); [| done].
    destruct Hop as [-> | ->]; unfold decode_body; (destruct (_ || _) eqn:E1; [apply decodes_err |]);
      (rewrite (proj2 (Nat.ltb_ge _ _)) by lia); bool_lia;
      rewrite (slice_body _ _ _ _ 0 _), (slice_body _ _ _ _ (Z.to_nat y) _);
      rewrite !(proj2 (Nat.leb_le _ _)) by lia; cbn [Nat.add] in Ev; rewrite Ek, Ev; (eexists; split; [done |]); intros m [= <-]; cbn [carried wire];
      (split; [lia |]); exists rest; cbn [app]; rewrite Eb; cbn [app]; rewrite <- app_assoc; do 3 f_equal; lia.
  - destruct Hop as [-> | ->]; unfold decode_body; (destruct (_ || _) eqn:E1; [apply decodes_err |]);
      (rewrite (proj2 (Nat.ltb_lt _ _)) by lia); apply decodes_err.
Qed.

Lemma ttl_body y z body : length body = 29%nat -> bytes_ok body -> (0 <= y)%Z -> (0 <= z)%Z ->
  decodes (PUT_TTL :: y :: z :: body) (decode_body PutTtl (Z.to_nat y) (Z.to_nat z) (PUT_TTL :: y :: z :: body)).
Proof.
  intros Hl Hb Hy Hz. unfold decode_body. destruct (_ || _) eqn:E1; [apply decodes_err |].
  destruct (29 <? _)%nat eqn:E2; [apply decodes_err |]. bool_lia.
  destruct (two_fields body 8 (Z.to_nat y) (Z.to_nat z) ltac:(lia)) as (pre & k & v & rest & Eb & Hp & Hk & Hv & Ek & Ev & Epre).
  rewrite (slice_body _ _ _ _ 0 8), (slice_body _ _ _ _ 8 _), (slice_body _ _ _ _ (8 + Z.to_nat y) _).
  rewrite !(proj2 (Nat.leb_le _ _)) by lia. rewrite Ek, Ev, Epre. eexists. split; [done |]. intros m [= <-].
  assert (bytes_ok pre) as Hpre by (rewrite Eb in Hb; apply bytes_ok_app in Hb as [? _]; done).
  cbn [carried wire]. split; [split_and!; try lia |].
  - pose proof (from_le_bound pre Hpre) as Hf. rewrite Hp in Hf. exact Hf.
  - exists rest. cbn [app]. rewrite <- Hp, to_from_le by done. rewrite Eb. rewrite <- !app_assoc. do 3 f_equal; lia.
Qed.

Lemma decode_total p : length p = 32%nat -> bytes_ok p -> decodes p (decode p).
Proof.
  intros Hl Hb. destruct (slot_parts p Hl) as (x & y & z & body & -> & Hbl).
  apply Forall_cons in Hb as [Hx Hb]. apply Forall_cons in Hb as [Hy Hb]. apply Forall_cons in Hb as [Hz Hb].
  unfold decode. cbn [nth]. unfold fits in Hy, Hz.
  destruct (Z.eqb_spec x PUT) as [-> |]; [apply (fields_body Put); auto; lia |].
  destruct (Z.eqb_spec x DELETE) as [-> |]; [apply key_body; auto; lia |].
  destruct (Z.eqb_spec x RANGE_DELETE) as [-> |]; [apply (fields_body RangeDelete); auto; lia |].
  destruct (Z.eqb_spec x PUT_TTL) as [-> |]; [apply ttl_body; auto; lia | apply decodes_err].
Qed.

(** ** Encoding *)

Lemma wire_len m : carried m -> (length (wire m) <= 32)%nat.
Proof. destruct m; cbn [carried wire]; intros; cbn [length app]; rewrite ?length_app, ?length_to_le; cbn [length]; lia. Qed.

Lemma splice_zeros (w f : bytes) n off : off = length w -> (length f <= n)%nat ->
  splice off f (w ++ replicate n 0%Z) = (w ++ f) ++ replicate (n - length f) 0%Z.
Proof.
  intros -> Hn. replace n with (length f + (n - length f))%nat at 1 by lia. rewrite replicate_add.
  rewrite splice_mid by (by rewrite ?length_replicate). by rewrite app_assoc.
Qed.

Lemma try_u8_le n : (n <= 255)%nat -> try_u8 n = Some (Z.of_nat n).
Proof. intros. unfold try_u8. by rewrite (proj2 (Z.leb_le _ _)) by lia. Qed.

Ltac header_tests :=
  repeat first [rewrite (proj2 (Z.eqb_neq _ _)) by lia | rewrite (proj2 (Z.ltb_ge _ _)) by lia]; cbn [orb].

Lemma try_u8_none n : (255 < n)%nat -> try_u8 n = None.
Proof. intros. unfold try_u8. by rewrite (proj2 (Z.leb_gt _ _)) by lia. Qed.

(** A field too long for its length byte, or past the byte budget, is refused. *)
Ltac refused n :=
  destruct (decide (n <= 255)%nat); [rewrite (try_u8_le n) by lia | by rewrite (try_u8_none n) by lia].

Ltac over_budget := match goal with |- (if ?b then None else _) = None => destruct b eqn:?E; [done | exfalso; bool_lia; lia] end.

Lemma encode_put_spec k v :
  encode_put k v = if decide (carried (PPut k v)) then Some (padded (PPut k v)) else None.
Proof.
  unfold encode_put. destruct (decide _) as [[H1 H2] | Hn]; cbn [carried] in *.
  - rewrite !try_u8_le by lia. header_tests. unfold slot_with.
    rewrite (splice_zeros [_; _; _]) by (done || lia). rewrite splice_zeros by (rewrite ?length_app; done || lia).
    unfold padded. cbn [wire]. rewrite <- !app_assoc. do 4 f_equal. rewrite !length_app. cbn [length]. f_equal. lia.
  - refused (length k). refused (length v). over_budget.
Qed.

Lemma encode_delete_spec k :
  encode_delete k = if decide (carried (PDelete k)) then Some (padded (PDelete k)) else None.
Proof.
  unfold encode_delete. destruct (decide _) as [H | Hn]; cbn [carried] in *.
  - rewrite try_u8_le by lia. header_tests. unfold slot_with.
    rewrite (splice_zeros [_; _; _]) by (done || lia).
    unfold padded. cbn [wire]. do 3 f_equal.
  - refused (length k). over_budget.
Qed.

Lemma encode_range_spec s e :
  encode_range_delete s e = if decide (carried (PRangeDelete s e)) then Some (padded (PRangeDelete s e)) else None.
Proof.
  unfold encode_range_delete. destruct (decide _) as [(H1 & H2 & H3) | Hn]; cbn [carried] in *.
  - rewrite !try_u8_le by lia. header_tests. unfold slot_with.
    rewrite (splice_zeros [_; _; _]) by (done || lia). rewrite splice_zeros by (rewrite ?length_app; done || lia).
    unfold padded. cbn [wire]. rewrite <- !app_assoc. do 4 f_equal. rewrite !length_app. cbn [length]. f_equal. lia.
  - refused (length s). refused (length e). over_budget.
Qed.

Lemma encode_ttl_spec k v x : x <> 0%Z -> fits 64 x ->
  encode_put_ttl k v x = if decide (carried (PPutTtl k v x)) then Some (padded (PPutTtl k v x)) else None.
Proof.
  intros Hx Hf. unfold encode_put_ttl. rewrite (proj2 (Z.eqb_neq _ _)) by done.
  destruct (decide _) as [(H1 & H2 & H3) | Hn]; cbn [carried] in *.
  - rewrite !try_u8_le by lia. header_tests. unfold slot_with.
    rewrite (splice_zeros [_; _; _]) by (rewrite ?length_to_le; done || lia).
    rewrite splice_zeros by (rewrite ?length_app, ?length_to_le; done || lia).
    rewrite splice_zeros by (rewrite ?length_app, ?length_to_le; done || lia).
    unfold padded. cbn [wire]. rewrite <- !app_assoc. do 5 f_equal. rewrite !length_app, !length_to_le. cbn [length]. f_equal. lia.
  - refused (length k). refused (length v). destruct (_ || _) eqn:E; [done |]. exfalso. apply Hn. unfold fits in *. bool_lia.
Qed.

(** Expiries are machine words. *)
Definition expiry_ok (m : Payload) : Prop := match m with PPutTtl _ _ x => fits 64 x | _ => True end.

(** The slot of a mutation that fits, and nothing for one that does not. *)
Lemma encode_spec m : expiry_ok m ->
  encode m = if decide (carried (canonical m)) then Some (padded (canonical m)) else None.
Proof.
  destruct m as [k v | k | s e | k v x]; cbn [encode canonical expiry_ok]; intros Hx.
  - apply encode_put_spec.
  - apply encode_delete_spec.
  - apply encode_range_spec.
  - destruct (Z.eqb_spec x 0) as [-> |]; [apply encode_put_spec | by apply encode_ttl_spec].
Qed.

Lemma padded_len m : carried m -> length (padded m) = 32%nat.
Proof. intros Hc. apply wire_len in Hc. unfold padded. rewrite length_app, length_replicate. lia. Qed.

(** ** The theorem *)

(** The slot codec is exact.  Encoding a mutation yields a 32-byte slot
    exactly when its fields fit the 29-byte budget (a TTL put with expiry 0 is a
    plain put), and decoding that slot gives the mutation back.  Decoding is
    total on every 32-byte slot: no slice is out of range, and the result is the
    mutation [m] exactly when [m] is one a slot can carry and the slot starts
    with its wire form, so no malformed slot is read as a mutation. *)
Theorem payload_codec_exact :
  (forall m, expiry_ok m ->
     match encode m with
     | Some p => carried (canonical m) /\ length p = 32%nat /\ decode p = Some (Ok (canonical m))
     | None => ~ carried (canonical m)
     end) /\
  (forall p, length p = 32%nat -> bytes_ok p ->
     exists r, decode p = Some r /\
       forall m, r = Ok m <-> carried m /\ exists rest, p = wire m ++ rest).
Proof.
  split.
  - intros m Hx. rewrite encode_spec by done. destruct (decide _) as [Hc |]; [| done].
    pose proof (padded_len _ Hc). split_and!; auto. by apply decode_wire.
  - intros p Hl Hb. destruct (decode_total p Hl Hb) as (r & Hr & Hm). exists r. split; [done |].
    intros m. split; [apply Hm |]. intros [Hc [rest ->]].
    rewrite decode_wire in Hr by done. by inversion Hr.
Qed.

Lemma payload_codec_exact_witness :
  (exists p, encode (PPutTtl [7; 8]%Z [9]%Z 77) = Some p /\ decode p = Some (Ok (PPutTtl [7; 8]%Z [9]%Z 77))) /\
  (exists r, decode (RANGE_DELETE :: 29 :: 1 :: replicate 29 65)%Z = Some r /\ r = Err BadValLen).
Proof.
  destruct payload_codec_exact as [He Hd]. split.
  - specialize (He (PPutTtl [7; 8]%Z [9]%Z 77)). eexists. split; [vm_compute; reflexivity |].
    apply He. cbn. unfold fits. lia.
  - destruct (Hd (RANGE_DELETE :: 29 :: 1 :: replicate 29 65)%Z) as (r & Hr & _); [reflexivity | |].
    + cbn [replicate]. repeat (apply Forall_cons; split; [unfold fits, RANGE_DELETE; cbn; lia |]). constructor.
    + exists r. split; [done |]. vm_compute in Hr. by inversion Hr.
Defined.
