(* ===== verification/Db.v ===== *)
(** * The database handle: [src/db/mod.rs], [src/db/compaction.rs]

    The [Db] record with its configuration and layout, snapshots, the slot
    headroom rules, the compaction triggers, [open], and the write path
    ([put], [delete], [delete_range], [put_with_ttl], [write]).  One call per
    [await]; a call returns the handle it leaves behind, failed or not. *)

From stdpp Require Import base numbers list.
From Stdlib Require Import ZArith Lia.
From S2P Require Import Prelude Device Slots Cache Memtable Wal Batch Manifest ManifestLog SstPlan.

(** ** Configuration *)

Record Config := mkConfig {
  c_wal_start : u64;
  c_wal_end : u64;
  c_tbl_start : u64;
  c_tbl_end : u64;
  c_manifest_a : u64;
  c_manifest_b : u64;
  c_manifest_ring : nat;
  c_device_blocks : u64;
  c_node_id : u32;
}.

Definition whole_device (device_blocks : u64) : Config :=
  mkConfig 0 0 0 0 0 0 0 device_blocks 0.

Definition config_new (wal_start wal_end tbl_start tbl_end manifest_a manifest_b : u64) : Config :=
  mkConfig wal_start wal_end tbl_start tbl_end manifest_a manifest_b 0 0 0.

Definition with_manifest_ring (c : Config) (copies : nat) : Config :=
  mkConfig (c_wal_start c) (c_wal_end c) (c_tbl_start c) (c_tbl_end c) (c_manifest_a c)
    (c_manifest_b c) (if (copies <? 2)%nat then 2 else copies) (c_device_blocks c) (c_node_id c).

Definition with_node_id (c : Config) (node_id : u32) : Config :=
  mkConfig (c_wal_start c) (c_wal_end c) (c_tbl_start c) (c_tbl_end c) (c_manifest_a c)
    (c_manifest_b c) (c_manifest_ring c) (c_device_blocks c) node_id.

Record SlotStats := mkSlotStats {
  ss_slots : u32;
  ss_slot_blocks : u64;
  ss_used : u32;
  ss_reserved : u32;
  ss_free : u32;
}.

Record OpenReport := mkOpenReport {
  recovered_records : u64;
  or_max_seq : u64;
  l0_tables : nat;
}.

Definition MAX_SNAPSHOTS : nat := 8.

(** ** The handle *)

(** The two block scratch buffers carry no state between calls and are omitted. *)
Record Db (D : Type) := mkDb {
  db_wal : WalWriter D;
  db_table : MemTable;
  db_manifest : Manifest;
  db_slots : SlotMap;
  job_gen : u32;
  job_active : bool;
  job_inputs : u64;
  manual_level : option nat;
  manual_mark : u32;
  manual_start : u32;
  manual_skip : u64;
  cfg : Config;
  next_seq : u64;
  snapshots : list u64;
  n_snapshots : nat;
  opened : bool;
  db_cache : BlockCache;
}.
Arguments mkDb {D}. Arguments db_wal {D}. Arguments db_table {D}. Arguments db_manifest {D}.
Arguments db_slots {D}. Arguments job_gen {D}. Arguments job_active {D}. Arguments job_inputs {D}.
Arguments manual_level {D}. Arguments manual_mark {D}. Arguments manual_start {D}.
Arguments manual_skip {D}. Arguments cfg {D}. Arguments next_seq {D}. Arguments snapshots {D}.
Arguments n_snapshots {D}. Arguments opened {D}. Arguments db_cache {D}.

Section setters.
  Context {D : Type}.
  Implicit Types db : Db D.

(** Assignments to the fields of the handle. *)
Definition set_core db (w : WalWriter D) (t : MemTable) (sq : u64) : Db D :=
  mkDb w t (db_manifest db) (db_slots db) (job_gen db) (job_active db) (job_inputs db)
    (manual_level db) (manual_mark db) (manual_start db) (manual_skip db) (cfg db) sq
    (snapshots db) (n_snapshots db) (opened db) (db_cache db).
Definition set_wal db w := set_core db w (db_table db) (next_seq db).
Definition set_table db t := set_core db (db_wal db) t (next_seq db).
Definition set_next_seq db sq := set_core db (db_wal db) (db_table db) sq.
Definition set_snapshots db (l : list u64) (n : nat) : Db D :=
  mkDb (db_wal db) (db_table db) (db_manifest db) (db_slots db) (job_gen db) (job_active db)
    (job_inputs db) (manual_level db) (manual_mark db) (manual_start db) (manual_skip db) (cfg db)
    (next_seq db) l n (opened db) (db_cache db).
Definition set_slots db (s : SlotMap) (active : bool) (inputs : u64) : Db D :=
  mkDb (db_wal db) (db_table db) (db_manifest db) s (job_gen db) active
    inputs (manual_level db) (manual_mark db) (manual_start db) (manual_skip db) (cfg db)
    (next_seq db) (snapshots db) (n_snapshots db) (opened db) (db_cache db).
Definition set_manual db (l : option nat) (mark start : u32) (skip : u64) : Db D :=
  mkDb (db_wal db) (db_table db) (db_manifest db) (db_slots db) (job_gen db) (job_active db)
    (job_inputs db) l mark start skip (cfg db) (next_seq db) (snapshots db)
    (n_snapshots db) (opened db) (db_cache db).
Definition set_manifest db (m : Manifest) : Db D :=
  mkDb (db_wal db) (db_table db) m (db_slots db) (job_gen db) (job_active db)
    (job_inputs db) (manual_level db) (manual_mark db) (manual_start db) (manual_skip db) (cfg db)
    (next_seq db) (snapshots db) (n_snapshots db) (opened db) (db_cache db).
Definition set_opened db (o : bool) : Db D :=
  mkDb (db_wal db) (db_table db) (db_manifest db) (db_slots db) (job_gen db) (job_active db)
    (job_inputs db) (manual_level db) (manual_mark db) (manual_start db) (manual_skip db) (cfg db)
    (next_seq db) (snapshots db) (n_snapshots db) o (db_cache db).
End setters.

(** ** Snapshots *)

Section snapshots.
  Context {D E : Type}.
  Implicit Types db : Db D.

Definition ensure_open db : result unit (Error E) := if opened db then Ok tt else Err NotOpen.

Definition snapshot db : Db D * result u64 (Error E) :=
  if negb (opened db) then (db, Err NotOpen)
  else if (MAX_SNAPSHOTS <=? n_snapshots db)%nat then (db, Err SnapshotLimit)
  else
    let snap := next_seq db in
    (set_snapshots db (<[n_snapshots db := snap]> (snapshots db)) (n_snapshots db + 1), Ok snap).

(** The [while i < self.n_snapshots] loop of [release_snapshot], [n] turns to go. *)
Fixpoint release_loop (n i : nat) (db : Db D) (snap : u64) : Db D :=
  match n with
  | O => db
  | S n =>
      if (nth i (snapshots db) 0 =? snap)%Z then
        let k := (n_snapshots db - 1)%nat in
        set_snapshots db (<[i := nth k (snapshots db) 0%Z]> (snapshots db)) k
      else release_loop n (i + 1) db snap
  end.

Definition release_snapshot db (snap : u64) : Db D := release_loop (n_snapshots db) 0 db snap.

Definition oldest_snapshot_seq db : u64 :=
  fold_left (fun min s => if (s <? min)%Z then s else min)
    (take (n_snapshots db) (snapshots db)) U64_MAX.
End snapshots.

(** ** Saturating arithmetic of the layout *)

Definition saturating_sub (a b : u64) : u64 := Z.max (a - b) 0.
Definition saturating_mul (a b : u64) : u64 := Z.min (a * b) U64_MAX.

Section db.
  Context {D E : Type} `{Dev : !BlockDevice D E}.
  (** The const generics. *)
  Variables KEY_MAX VAL_MAX CAP ARENA LEVELS TABLES CACHE : nat.
  Implicit Types db : Db D.

Definition SLOTS : Z := Z.of_nat (LEVELS * TABLES).

Definition MIN_SLOT_BLOCKS : u64 := Z.of_nat (max_flush_blocks BLOCK CAP ARENA KEY_MAX VAL_MAX).

Definition COMPACTION_RESERVE : u32 := if (2 <=? LEVELS)%nat then 2%Z else 0%Z.

(** ** Layout *)

Definition wal_share (space : u64) : u64 :=
  if (2 <? space / 8)%Z then (space / 8)%Z else 2%Z.

(** The [while space - wal_share(space) < need] loop.  The space left grows by at
    least 7 in 8 steps, so [need] + [need]/7 + 16 turns are enough. *)
Fixpoint min_space_loop (fuel : nat) (need space : u64) : u64 :=
  match fuel with
  | O => space
  | S fuel =>
      if (saturating_sub space (wal_share space) <? need)%Z
      then min_space_loop fuel need (space + 1) else space
  end.

Definition MIN_DEVICE_BLOCKS : u64 :=
  let need := (SLOTS * MIN_SLOT_BLOCKS)%Z in
  let space := min_space_loop (Z.to_nat (need + need / 7 + 16)) need need in
  (2 * stride (E := E) (D := D) LEVELS TABLES KEY_MAX + space)%Z.

Definition resolve_layout (c : Config) : Config :=
  if (c_device_blocks c =? 0)%Z then c
  else
    let total := c_device_blocks c in
    let stride := stride (E := E) (D := D) LEVELS TABLES KEY_MAX in
    let copies := if (c_manifest_ring c =? 0)%nat then 2%Z else Z.of_nat (c_manifest_ring c) in
    let manifest_end := saturating_mul stride copies in
    let space := saturating_sub total manifest_end in
    let slot := (saturating_sub space (wal_share space) / SLOTS)%Z in
    let tbl_start := (total - slot * SLOTS)%Z in
    mkConfig manifest_end tbl_start tbl_start total 0
      (if (c_manifest_ring c =? 0)%nat then stride else 0%Z) (c_manifest_ring c) total (c_node_id c).

Definition manifest_layout (c : Config) : ManifestLayout :=
  if (c_manifest_ring c =? 0)%nat then layout_pair (c_manifest_a c) (c_manifest_b c)
  else layout_ring (c_manifest_a c) (c_manifest_ring c).

Definition disjoint (a b : u64 * u64) : bool := (a.2 <=? b.1)%Z || (b.2 <=? a.1)%Z.

(** The inner loop of [check_regions] over [j = 0..k]. *)
Definition check_copies_below (lay : ManifestLayout) (st : u64) (copy : u64 * u64) (k : nat) : bool :=
  forallb (fun j => let other := copy_start lay j st in disjoint copy (other, other + st)%Z)
    (List.seq 0 k).

(** One turn of the loop over the copies. *)
Definition check_copy (c : Config) (lay : ManifestLayout) (st : u64) (k : nat) : bool :=
  let start := copy_start lay k st in
  match u64_checked_add start st with
  | None => false
  | Some end_ =>
      disjoint (start, end_) (c_wal_start c, c_wal_end c) &&
      disjoint (start, end_) (c_tbl_start c, c_tbl_end c) &&
      check_copies_below lay st (start, end_) k
  end.

(** Every refusal is [BadConfig]. *)
Definition check_regions (c : Config) : result unit (Error E) :=
  let st := stride (E := E) (D := D) LEVELS TABLES KEY_MAX in
  let lay := manifest_layout c in
  let wal := (c_wal_start c, c_wal_end c) in
  let tbl := (c_tbl_start c, c_tbl_end c) in
  if (wal.2 <=? wal.1)%Z || (tbl.2 <=? tbl.1)%Z || negb (disjoint wal tbl) then Err BadConfig
  else if forallb (check_copy c lay st) (List.seq 0 (copies lay)) then Ok tt
  else Err BadConfig.

Definition db_new (d : D) (config : Config) : Db D :=
  let config := resolve_layout config in
  mkDb (wal_new d (c_wal_start config) (c_wal_end config)) (Memtable.new CAP ARENA)
    (Manifest.new LEVELS TABLES KEY_MAX) Slots.new 0 false 0 None 0 0 0 config 0
    (replicate MAX_SNAPSHOTS 0%Z) 0 false (Cache.new BLOCK CACHE).

(** ** Slots and compaction triggers *)

Definition db_slot_of db (t : TableRef) : option u32 :=
  Slots.slot_of (db_slots db) (first_block t) (block_count t).

Definition slot_stats db : SlotStats :=
  let s := db_slots db in
  mkSlotStats (Slots.slots s) (slot_blocks s) (used_slots s) (reserved_slots s) (free_slots s).

Definition abort_job db : Db D :=
  if job_active db then set_slots db (release_all (db_slots db)) false 0 else db.

Definition is_due db (t : TableRef) : bool :=
  (t_id t <? manual_mark db)%Z &&
  match db_slot_of db t with
  | None => true
  | Some slot => (Z.land (manual_skip db) (Z.shiftl 1 slot) =? 0)%Z
  end.

Definition level_has_due db (l : nat) : bool :=
  match level LEVELS (db_manifest db) l with Some ts => existsb (is_due db) ts | None => false end.

Definition deeper_has_tables db (l : nat) : bool :=
  existsb (fun m => match level LEVELS (db_manifest db) m with
                    | Some ts => negb (length ts =? 0)%nat | None => false end)
    (List.seq (l + 1) (LEVELS - (l + 1))).

Definition manual_pending db : bool :=
  match manual_level db with
  | Some l => level_has_due db l || deeper_has_tables db l
  | None => false
  end.

(** The [while let Some(l)] loop: the level rises, so [LEVELS] turns are enough. *)
Fixpoint settle_loop (fuel : nat) (db : Db D) : Db D :=
  match fuel, manual_level db with
  | S fuel, Some l =>
      if level_has_due db l then db
      else if negb (deeper_has_tables db l)
      then set_manual db None (manual_mark db) (manual_start db) (manual_skip db)
      else
        let next := if (l + 1 <=? 255)%nat then Some (l + 1)%nat else None in
        let mark := if (l + 1 =? LEVELS - 1)%nat then manual_start db
                    else next_table_id (db_manifest db) in
        settle_loop fuel (set_manual db next mark (manual_start db) 0)
  | _, _ => db
  end.

Definition manual_settle db : Db D := if job_active db then db else settle_loop (S LEVELS) db.

Definition under_pressure db : bool :=
  (free_slots (db_slots db) + reserved_slots (db_slots db) <=? COMPACTION_RESERVE)%Z.

Definition wants_job db (l : nat) (pressure : bool) : bool :=
  let n := match level LEVELS (db_manifest db) l with Some ts => length ts | None => 0%nat end in
  (TABLES <=? n)%nat || (pressure && ((if (l =? 0)%nat then 2 else 1) <=? n)%nat).

Definition full_level db : option nat :=
  if (LEVELS <? 2)%nat then None
  else
    let levels := rev (List.seq 0 (LEVELS - 1)) in
    match find (fun l => wants_job db l false) levels with
    | Some l => Some l
    | None => let pressure := under_pressure db in find (fun l => wants_job db l pressure) levels
    end.

Definition compaction_pending db : bool :=
  job_active db || match full_level db with Some _ => true | None => false end || manual_pending db.

Definition request_compaction db (level : nat) : Db D * result unit (Error E) :=
  match ensure_open db with
  | Err e => (db, Err e)
  | Ok _ =>
      if (LEVELS <=? level)%nat then (db, Err (BadLevel level))
      else if (LEVELS <? 2)%nat then (db, Ok tt)
      else if (255 <? level)%nat then (db, Err (BadLevel level))
      else
        let db := abort_job db in
        let mark := next_table_id (db_manifest db) in
        (manual_settle (set_manual db (Some level) mark mark 0), Ok tt)
  end.

Definition no_room db : Error E := if compaction_pending db then NeedsCompaction else RegionFull.

Definition free_slot_for db (blocks : u64) : result u32 (Error E) :=
  if (slot_blocks (db_slots db) <? blocks)%Z then Err TableTooLarge
  else
    let headroom := (free_slots (db_slots db) + reserved_slots (db_slots db))%Z in
    match (if (COMPACTION_RESERVE <? headroom)%Z then find_free (db_slots db) else None) with
    | Some slot => Ok slot
    | None => Err (no_room db)
    end.
(** ** Opening *)

(** The loop over the live tables: the slots, and the newest table with its slot. *)
Fixpoint rebuild_slots (slots : SlotMap) (newest : option (u32 * u32)) (ts : list TableRef)
  : result (SlotMap * option (u32 * u32)) (Error E) :=
  match ts with
  | [] => Ok (slots, newest)
  | t :: ts =>
      match Slots.slot_of slots (first_block t) (block_count t) with
      | None => Err CorruptManifest
      | Some slot =>
          match mark_used slots slot with
          | (_, false) => Err CorruptManifest
          | (slots, true) =>
              let newer := match newest with None => true | Some (id, _) => (id <? t_id t)%Z end in
              rebuild_slots slots (if newer then Some (t_id t, slot) else newest) ts
          end
      end
  end.

(** The assignments before the first check. *)
Definition close_handle db : Db D :=
  mkDb (db_wal db) (Memtable.clear (db_table db)) (db_manifest db) (db_slots db)
    (wrap 32 (job_gen db + 1)) false 0 None (manual_mark db) (manual_start db) (manual_skip db)
    (cfg db) (next_seq db) (snapshots db) (n_snapshots db) false (db_cache db).

(** Replaying the log once manifest and slots are in place. *)
Definition open_wal db : Db D * result OpenReport (Error E) :=
  let m := db_manifest db in
  match Wal.recover_from CAP ARENA KEY_MAX VAL_MAX (db_wal db) (db_table db) (wal_head m)
          (flushed_seq m) with
  | (w, t, Err e) => (set_core db w t (next_seq db), Err e)
  | (w, t, Ok state) =>
      let sq := Z.max (Z.max (rs_max_seq state) (seq_high m)) (Manifest.max_seq m) in
      (set_opened (set_core db w t sq) true,
       Ok (mkOpenReport (records state) sq (length (l0 m))))
  end.

Definition open db : Db D * result OpenReport (Error E) :=
  let db := close_handle db in
  let c := cfg db in
  match check_regions c with
  | Err e => (db, Err e)
  | Ok _ =>
      match Slots.layout (c_tbl_start c) (c_tbl_end c) SLOTS MIN_SLOT_BLOCKS with
      | None => (db, Err BadConfig)
      | Some slots =>
          match ManifestLog.recover_from LEVELS TABLES KEY_MAX (device (db_wal db))
                  (manifest_layout c) with
          | Err e => (db, Err e)
          | Ok (manifest, fresh) =>
              let manifest := if fresh then set_wal_head manifest (c_wal_start c) else manifest in
              let db := set_manifest db manifest in
              match rebuild_slots slots None (tables manifest) with
              | Err e => (db, Err e)
              | Ok (slots, newest) =>
                  let slots := match newest with
                               | Some (_, slot) => set_hint_after slots slot | None => slots end in
                  open_wal (set_slots db slots (job_active db) (job_inputs db))
              end
          end
      end
  end.

(** ** Writing *)

Record StageMark := mkMark { mark_len : nat; mark_block : u64 }.

Inductive Mutation :=
  | MutPut (key val : bytes)
  | MutPutTtl (key val : bytes) (expire_at : u64)
  | MutDelete (key : bytes)
  | MutRangeDelete (start end_ : bytes).

Definition stage_mark db : StageMark := mkMark (stage_len (db_wal db)) (next_block (db_wal db)).

Definition rollback_commit db (mark : StageMark) (seqs : u64) : Db D * result unit (Error E) :=
  if (next_block (db_wal db) =? mark_block mark)%Z
  then (set_wal db (truncate_stage (db_wal db) (mark_len mark)), Ok tt)
  else
    match u64_checked_add (next_seq db) seqs with
    | None => (db, Err CounterExhausted)
    | Some sq => (set_next_seq db sq, Ok tt)
    end.

(** [rollback_commit(..)?; return Err(e)] *)
Definition roll_back db (mark : StageMark) (seqs : u64) (e : Error E) : Db D * Error E :=
  match rollback_commit db mark seqs with
  | (db, Ok _) => (db, e)
  | (db, Err e') => (db, e')
  end.

Definition check_mutation db (m : Mutation) : result unit (Error E) :=
  match m with
  | MutPut k v | MutPutTtl k v _ => check_insert CAP ARENA KEY_MAX VAL_MAX (db_table db) k v false
  | MutDelete k => check_insert CAP ARENA KEY_MAX VAL_MAX (db_table db) k [] true
  | MutRangeDelete s e => check_insert_range_del CAP ARENA KEY_MAX (db_table db) s e
  end.

Definition append_mutation (w : WalWriter D) (sq : u64) (m : Mutation) :=
  match m with
  | MutPut k v => Wal.append w sq Put k v
  | MutPutTtl k v exp => append_ttl w sq k v exp
  | MutDelete k => Wal.append w sq Delete k []
  | MutRangeDelete s e => Wal.append w sq RangeDelete s e
  end.

Definition insert_mutation (t : MemTable) (sq : u64) (m : Mutation) : result MemTable (Error E) :=
  match m with
  | MutPut k v => Memtable.insert CAP ARENA KEY_MAX VAL_MAX t k v sq false
  | MutPutTtl k v exp => insert_ttl CAP ARENA KEY_MAX VAL_MAX t k v sq exp
  | MutDelete k => Memtable.insert CAP ARENA KEY_MAX VAL_MAX t k [] sq true
  | MutRangeDelete s e => insert_range_del CAP ARENA KEY_MAX t s e sq
  end.

Definition commit_mutation db (m : Mutation) : Db D * result u64 (Error E) :=
  match ensure_open db with
  | Err e => (db, Err e)
  | Ok _ =>
  match check_mutation db m with
  | Err e => (db, Err e)
  | Ok _ =>
  match u64_checked_add (next_seq db) 1 with
  | None => (db, Err CounterExhausted)
  | Some sq =>
      let mark := stage_mark db in
      match append_mutation (db_wal db) sq m with
      | (w, Err e) => let '(db, e) := roll_back (set_wal db w) mark 0 e in (db, Err e)
      | (w, Ok _) =>
          match Wal.commit w with
          | (w, Err e) =>
              let landed := negb (next_block w =? mark_block mark)%Z in
              let '(db, e) := roll_back (set_wal db w) mark (if landed then 1 else 0) e in
              (db, Err e)
          | (w, Ok _) =>
              match insert_mutation (db_table db) sq m with
              | Err e => (set_core db w (db_table db) sq, Err e)
              | Ok t => (set_core db w t sq, Ok sq)
              end
          end
      end
  end
  end
  end.

Definition put db (key val : bytes) := commit_mutation db (MutPut key val).

Definition delete db (key : bytes) := commit_mutation db (MutDelete key).

Definition delete_range db (start end_ : bytes) : Db D * result u64 (Error E) :=
  match ensure_open db with
  | Err e => (db, Err e)
  | Ok _ =>
      if bytes_leb end_ start then (db, Ok (next_seq db))
      else commit_mutation db (MutRangeDelete start end_)
  end.

Definition put_with_ttl db (key val : bytes) (expire_at : u64) :=
  commit_mutation db (MutPutTtl key val expire_at).

(** ** Batches *)

Definition op_bytes (o : BatchOp) : nat := (length (op_key o) + length (op_val o))%nat.

Definition need_arena (os : list BatchOp) : nat := sum_list_with op_bytes os.

Definition need_wal (os : list BatchOp) : nat :=
  sum_list_with (fun o => WAL_RECORD_OVERHEAD + op_bytes o +
                          (if op_eqb (bo_kind o) PutTtl then 8 else 0))%nat os.

(** The loop that stages the group: [i] operations are staged.  The flag of an
    error says whether the stage is rolled back before returning. *)
Fixpoint append_ops (w : WalWriter D) (base : u64) (i n : nat) (os : list BatchOp)
  : WalWriter D * result unit (bool * Error E) :=
  match os with
  | [] => (w, Ok tt)
  | o :: os =>
      match u64_checked_add base (Z.of_nat i) with
      | None => (w, Err (false, CounterExhausted))
      | Some sq =>
          let more := (i + 1 <? n)%nat in
          let appended :=
            if op_eqb (bo_kind o) PutTtl
            then append_grouped_ttl w sq (op_key o) (op_val o) (bo_expire_at o) more
            else append_grouped w sq (bo_kind o) (op_key o) (op_val o) more in
          match appended with
          | (w, Err e) => (w, Err (true, e))
          | (w, Ok _) => append_ops w base (i + 1) n os
          end
      end
  end.

Definition insert_op (t : MemTable) (sq : u64) (o : BatchOp) : result MemTable (Error E) :=
  match bo_kind o with
  | Put => Memtable.insert CAP ARENA KEY_MAX VAL_MAX t (op_key o) (op_val o) sq false
  | Delete => Memtable.insert CAP ARENA KEY_MAX VAL_MAX t (op_key o) (op_val o) sq true
  | PutTtl => insert_ttl CAP ARENA KEY_MAX VAL_MAX t (op_key o) (op_val o) sq (bo_expire_at o)
  | RangeDelete => insert_range_del CAP ARENA KEY_MAX t (op_key o) (op_val o) sq
  end.

(** The loop that applies the group to the memtable. *)
Fixpoint apply_ops (t : MemTable) (base : u64) (i : nat) (os : list BatchOp)
  : MemTable * result unit (Error E) :=
  match os with
  | [] => (t, Ok tt)
  | o :: os =>
      match u64_checked_add base (Z.of_nat i) with
      | None => (t, Err CounterExhausted)
      | Some sq =>
          match insert_op t sq o with
          | Err e => (t, Err e)
          | Ok t => apply_ops t base (i + 1) os
          end
      end
  end.

(** [write] once the stage is drained and the capacity checks passed. *)
Definition write_group db (os : list BatchOp) : Db D * result u64 (Error E) :=
  let n := length os in
  match u64_checked_add (next_seq db) 1 with
  | None => (db, Err CounterExhausted)
  | Some base =>
  match u64_checked_add base (Z.of_nat n - 1) with
  | None => (db, Err CounterExhausted)
  | Some last =>
      let mark := stage_mark db in
      match append_ops (db_wal db) base 0 n os with
      | (w, Err (false, e)) => (set_wal db w, Err e)
      | (w, Err (true, e)) => let '(db, e) := roll_back (set_wal db w) mark 0 e in (db, Err e)
      | (w, Ok _) =>
          match Wal.commit w with
          | (w, Err e) =>
              let landed := negb (next_block w =? mark_block mark)%Z in
              let '(db, e) :=
                roll_back (set_wal db w) mark (if landed then Z.of_nat n else 0) e in
              (db, Err e)
          | (w, Ok _) =>
              match apply_ops (db_table db) base 0 os with
              | (t, Err e) => (set_core db w t last, Err e)
              | (t, Ok _) => (set_core db w t last, Ok base)
              end
          end
      end
  end
  end.

(** The sums are in [usize]; the batch's own limits keep them far below it. *)
Definition write db (b : WriteBatch) : Db D * result u64 (Error E) :=
  match ensure_open db with
  | Err e => (db, Err e)
  | Ok _ =>
      let os := ops b in
      let n := length os in
      if (n =? 0)%nat then (db, Ok (next_seq db))
      else if (BLOCK <? need_wal os)%nat then (db, Err (BatchTooLarge (need_wal os) BLOCK))
      else if (CAP <? len (db_table db) + n)%nat then (db, Err TableFull)
      else if (ARENA <? arena_len (db_table db) + need_arena os)%nat then (db, Err ArenaFull)
      else if (0 <? stage_len (db_wal db))%nat then
        match Wal.commit (db_wal db) with
        | (w, Err e) => (set_wal db w, Err e)
        | (w, Ok _) => write_group (set_wal db w) os
        end
      else write_group db os
  end.
End db.
