(* ===== verification/DbWrite.v ===== *)
(** * The write path keeps log and memtable together: [src/db/mod.rs]

    What every write call does to the write-ahead log, the memtable and the
    sequence counter, whatever the device does, and what of it survives a crash.
    The abstract state is the list of logged blocks and the list of entries in
    the memtable. *)

From stdpp Require Import base numbers list.
From Stdlib Require Import ZArith Lia.
From S2P Require Import Prelude Device Slots Cache Memtable Wal Batch Manifest ManifestLog SstPlan Db.

(** ** The records of a call *)

Definition mut_rec (sq : u64) (m : Mutation) : Decoded :=
  match m with
  | MutPut k v => rec_of sq Put k v 0 false
  | MutPutTtl k v exp => rec_of sq (if (exp =? 0)%Z then Put else PutTtl) k v exp false
  | MutDelete k => rec_of sq Delete k [] 0 false
  | MutRangeDelete s e => rec_of sq RangeDelete s e 0 false
  end.

Definition op_rec (sq : u64) (more : bool) (o : BatchOp) : Decoded :=
  if op_eqb (bo_kind o) PutTtl
  then rec_of sq (if (bo_expire_at o =? 0)%Z then Put else PutTtl) (op_key o) (op_val o)
         (bo_expire_at o) more
  else rec_of sq (bo_kind o) (op_key o) (op_val o) 0 more.

(** The group of a batch: consecutive sequence numbers, [more] on all but the last. *)
Fixpoint op_recs (sq : u64) (os : list BatchOp) : list Decoded :=
  match os with
  | [] => []
  | o :: os => op_rec sq (negb (length os =? 0)%nat) o :: op_recs (sq + 1) os
  end.

(** The arguments of a mutation, as their types bound them. *)
Definition mut_typed (m : Mutation) : Prop :=
  match m with
  | MutPut k v => bytes_ok k /\ bytes_ok v
  | MutPutTtl k v exp => bytes_ok k /\ bytes_ok v /\ fits 64 exp
  | MutDelete k => bytes_ok k
  | MutRangeDelete s e => bytes_ok s /\ bytes_ok e
  end.

(** The operations the batch API queues (see [batch_refines_queue]). *)
Definition op_ok (KEY_MAX VAL_MAX : nat) (o : BatchOp) : Prop :=
  bytes_ok (op_key o) /\ bytes_ok (op_val o) /\ fits 64 (bo_expire_at o) /\
  (bo_kind o = Delete -> op_val o = []) /\
  forall sq more, sizes_ok (KEY_MAX := KEY_MAX) (VAL_MAX := VAL_MAX) (rec_mut (op_rec sq more o)).

Lemma op_eqb_spec a b : reflect (a = b) (op_eqb a b).
Proof. unfold op_eqb. apply bool_decide_reflect. Qed.

Lemma rec_entry_sizes sq op k v exp more :
  length (key (rec_entry (rec_of sq op k v exp more))) = length k /\
  length (val (rec_entry (rec_of sq op k v exp more))) =
    length (if op_eqb op Delete then [] else v).
Proof. unfold rec_entry, rec_mut. by destruct op. Qed.

Lemma op_recs_length sq os : length (op_recs sq os) = length os.
Proof. revert sq. induction os as [|o os IH]; intros sq; cbn; [done |]. by rewrite IH. Qed.

Lemma op_rec_seq sq more o : d_seq (op_rec sq more o) = sq.
Proof. unfold op_rec. by destruct (op_eqb _ _). Qed.

Lemma op_rec_more sq more o : d_more (op_rec sq more o) = more.
Proof. unfold op_rec. by destruct (op_eqb _ _). Qed.

Lemma mut_rec_seq sq m : d_seq (mut_rec sq m) = sq.
Proof. by destruct m. Qed.

(** A group ends where its last record says so, and only there. *)
Lemma op_recs_closed sq os : os <> [] -> whole_groups (op_recs sq os) = op_recs sq os.
Proof.
  revert sq. induction os as [|o os IH]; intros sq Hne; [done |].
  destruct os as [|o' os].
  - cbn [op_recs whole_groups length]. by rewrite op_rec_more.
  - specialize (IH (sq + 1)%Z ltac:(done)). cbn [op_recs] in *. cbn [whole_groups] in *. by rewrite IH.
Qed.

Lemma op_recs_seqs sq os :
  Forall (fun r => (sq <= d_seq r < sq + Z.of_nat (length os))%Z) (op_recs sq os).
Proof.
  revert sq. induction os as [|o os IH]; intros sq; cbn [op_recs length]; constructor.
  - rewrite op_rec_seq. lia.
  - eapply Forall_impl; [apply IH |]. cbn. lia.
Qed.

Section writing.
  Context {D E : Type} `{Dev : !BlockDevice D E} {Laws : DeviceLaws D E}.
  Context {KEY_MAX VAL_MAX CAP ARENA : nat}.
  Hypothesis Hconsts : consts_ok CAP ARENA KEY_MAX VAL_MAX.
  Implicit Types db : Db D.

(** [db_inv db base bs tlog]: the open handle has written the blocks [bs] from
    [base] on and stages nothing; the memtable holds [tlog], newest first; every
    sequence number issued is at most [next_seq]. *)
Record db_inv db (base : u64) (bs : list (list Decoded)) (tlog : list Entry) : Prop := {
  di_open : opened db = true;
  di_wal : wal_inv (db_wal db) base bs [];
  di_group : group_open (db_wal db) = false;
  di_table : filled E CAP ARENA KEY_MAX VAL_MAX (db_table db) tlog;
  di_range : (0 <= next_seq db <= U64_MAX)%Z;
  di_logged : Forall (fun r => (d_seq r <= next_seq db)%Z) (concat bs);
  di_stored : Forall (fun e => (seq e <= next_seq db)%Z) tlog;
  di_sizes : Forall (fun r => sizes_ok (KEY_MAX := KEY_MAX) (VAL_MAX := VAL_MAX) (rec_mut r)) (concat bs);
}.

Lemma stage_empty w base bs : wal_inv w base bs [] -> stage_len w = 0%nat.
Proof. intros [Hs _ _ _ _ _ _]. by rewrite (inv_stage_len _ _ Hs). Qed.

(** Truncating an abandoned group restores the log. *)
Lemma truncate_group w base bs staged :
  wal_inv w base bs staged ->
  wal_inv (truncate_stage w 0) base bs [] /\ group_open (truncate_stage w 0) = false.
Proof. intros Hw. split; [| done]. by apply (truncate_stage_spec w base bs [] staged). Qed.

(** One append onto a stage that is empty or in an open group stays in RAM. *)
Lemma append_staged w base bs staged sq op k v exp more :
  wal_inv w base bs staged -> (staged = [] \/ group_open w = true) -> input_ok sq k v exp ->
  Forall (fun r => (d_seq r < sq)%Z) (concat bs ++ staged) ->
  match append_inner w sq op k v exp more with
  | (w', Ok _) =>
      wal_inv w' base bs (staged ++ [rec_of sq op k v exp more]) /\ group_open w' = more /\
      next_block w' = next_block w
  | (w', Err _) => wal_inv w' base bs staged /\ next_block w' = next_block w
  end.
Proof.
  intros Hw Hst Hin Hold.
  pose proof (append_inner_spec w base bs staged sq op k v exp more Hw Hin Hold) as Hs. cbv zeta in Hs.
  destruct (append_inner w sq op k v exp more) as [w' [[] | e]].
  - destruct Hs as (Hg & [[H1 H2] | (Hg0 & H1 & _)]); [done |]. exfalso.
    destruct Hst as [-> | Hst]; [| congruence].
    pose proof (inv_blocks _ _ _ _ H1) as Hb. apply Forall_app in Hb as [_ Hb].
    by apply Forall_cons in Hb as [(_ & _ & Hne & _) _].
  - by destruct Hs as (? & _ & ? & _).
Qed.

(** Committing a staged group: all of it, or, on an error, none of it or a whole
    block whose flush failed. *)
Lemma commit_group w base bs g :
  wal_inv w base bs g -> g <> [] -> group_open w = false ->
  match Wal.commit w with
  | (w', Ok _) =>
      wal_inv w' base (bs ++ [g]) [] /\ group_open w' = false
  | (w', Err e) =>
      group_open w' = false /\
      ((wal_inv w' base bs g /\ next_block w' = next_block w) \/
       (wal_inv w' base (bs ++ [g]) [] /\ next_block w' = (next_block w + 1)%Z /\
        exists d, e = Device d))
  end.
Proof.
  intros Hw Hne Hg. pose proof (commit_spec w base bs g Hw Hg) as [Hc Hg'].
  assert (forall w' e, Wal.commit w = (w', Err e) -> next_block w' <> next_block w ->
            exists d, e = Device d) as Hdev.
  { clear Hc Hg'. intros w' e. unfold Wal.commit.
    assert (forall w1, Wal.commit_flush w1 = (w', Err e) -> exists d, e = Device d) as Hfl.
    { intros w1. unfold commit_flush. destruct (dev_flush (device w1)) as [d' [[] | d]]; cbn; [done |].
      intros [= _ <-]. eauto. }
    destruct (0 <? stage_len w)%nat; [| by intros H _; apply Hfl in H].
    pose proof (write_stage_spec w base bs g Hw Hne Hg) as Hws.
    destruct (write_stage w) as [w1 [[] | e1]]; [by intros H _; apply Hfl in H |].
    intros [= -> ->]. by destruct Hws as (_ & _ & -> & _). }
  destruct (Wal.commit w) as [w' [[] | e]]; cbn [fst] in Hg'; rewrite Hg in Hg'.
  - destruct Hc as (bs' & Hw' & _ & ->). by rewrite decide_False in Hw' by done.
  - split; [done |]. destruct Hc as [(H1 & H2 & _) | (_ & H1 & H2)]; [by left | right].
    split_and!; [done | done |]. apply (Hdev w' e); [done | lia].
Qed.

(** The records of a mutation are what the memtable applies. *)
Lemma insert_mutation_run t sq m :
  insert_mutation (E := E) KEY_MAX VAL_MAX CAP ARENA t sq m =
  run_mutation (E := E) (CAP := CAP) (ARENA := ARENA) (KEY_MAX := KEY_MAX) (VAL_MAX := VAL_MAX)
    t (rec_mut (mut_rec sq m)).
Proof.
  destruct m as [k v | k v exp | k | s e]; cbn; try done.
  destruct (exp =? 0)%Z eqn:Ex; [| done]. apply Z.eqb_eq in Ex as ->. done.
Qed.

Lemma insert_op_run t sq more o :
  op_ok KEY_MAX VAL_MAX o ->
  insert_op (E := E) KEY_MAX VAL_MAX CAP ARENA t sq o =
  run_mutation (E := E) (CAP := CAP) (ARENA := ARENA) (KEY_MAX := KEY_MAX) (VAL_MAX := VAL_MAX)
    t (rec_mut (op_rec sq more o)).
Proof.
  intros (_ & _ & _ & Hdel & _). unfold insert_op, op_rec.
  destruct (bo_kind o) eqn:Ek; cbn; try done; [by rewrite Hdel |].
  destruct (bo_expire_at o =? 0)%Z eqn:Ex; [| done]. apply Z.eqb_eq in Ex as ->. done.
Qed.

(** A passed check is a successful insert. *)
Lemma check_mutation_insert db sq m :
  check_mutation (E := E) KEY_MAX VAL_MAX CAP ARENA db m = Ok tt ->
  exists t, insert_mutation (E := E) KEY_MAX VAL_MAX CAP ARENA (db_table db) sq m = Ok t.
Proof.
  destruct m as [k v | k v exp | k | s e]; cbn;
    unfold check_insert, check_insert_range_del, insert, insert_ttl, insert_range_del;
    [destruct (plan _ _ _ _ _ _ _ _); [eauto | done].. |].
  destruct (plan_range_del _ _ _ _ _ _); [eauto | done].
Qed.

Lemma append_mutation_inner w sq m :
  exists op k v exp, append_mutation w sq m = append_inner w sq op k v exp false /\
    mut_rec sq m = rec_of sq op k v exp false /\
    (mut_typed m -> bytes_ok k /\ bytes_ok v /\ fits 64 exp).
Proof.
  assert (fits 64 0) by (unfold fits; lia). assert (bytes_ok []) by constructor.
  destruct m as [k v | k v exp | k | s e]; cbn; do 4 eexists; (split; [reflexivity |]);
    (split; [reflexivity |]); tauto.
Qed.
(** Only the log, the memtable and the counter change. *)
Definition frame db db' : Prop := db' = set_core db (db_wal db') (db_table db') (next_seq db').

Lemma frame_refl db : frame db db.
Proof. by destruct db. Qed.

(** What a call that logs the group [g] may do. *)
Definition call_outcome db base bs tlog (g : list Decoded)
    (out : Db D * result u64 (Error E)) : Prop :=
  frame db out.1 /\
  match out with
  | (db', Ok s) =>
      (g = [] \/ s = (next_seq db + 1)%Z) /\
      next_seq db' = (next_seq db + Z.of_nat (length g))%Z /\
      db_inv db' base (bs ++ (if decide (g = []) then [] else [g])) (rev (map rec_entry g) ++ tlog)
  | (db', Err e) =>
      db_table db' = db_table db /\
      ((next_seq db' = next_seq db /\ db_inv db' base bs tlog) \/
       (g <> [] /\ (exists d, e = Device d) /\
        next_seq db' = (next_seq db + Z.of_nat (length g))%Z /\ db_inv db' base (bs ++ [g]) tlog))
  end.

Lemma outcome_refused db base bs tlog g e :
  db_inv db base bs tlog -> call_outcome db base bs tlog g (db, Err e).
Proof. intros Hi. split; [apply frame_refl |]. split; [done | by left]. Qed.

(** Rolling back what never landed. *)
Lemma roll_back_staged db base bs tlog g w staged mark seqs e :
  db_inv db base bs tlog -> wal_inv w base bs staged ->
  next_block w = next_block (db_wal db) -> mark = stage_mark db ->
  call_outcome db base bs tlog g
    (let '(db, e) := roll_back (E := E) (set_wal db w) mark seqs e in (db, Err e)).
Proof.
  intros [Ho Hw Hg Ht Hr Hl Hs Hz] Hw' Hn ->. unfold roll_back, rollback_commit.
  cbn [db_wal set_wal set_core stage_mark mark_block mark_len].
  rewrite Hn, Z.eqb_refl. rewrite (stage_empty _ _ _ Hw).
  destruct (truncate_group _ _ _ _ Hw') as [Ht' Hg'].
  split; [done |]. split; [done |]. left. split; [done |]. by split.
Qed.

Definition sized (g : list Decoded) : Prop :=
  Forall (fun r => sizes_ok (KEY_MAX := KEY_MAX) (VAL_MAX := VAL_MAX) (rec_mut r)) g.

Lemma db_inv_logged db base bs tlog w g sq :
  db_inv db base bs tlog -> wal_inv w base (bs ++ [g]) [] -> group_open w = false ->
  (next_seq db <= sq <= U64_MAX)%Z -> Forall (fun r => (d_seq r <= sq)%Z) g -> sized g ->
  db_inv (set_core db w (db_table db) sq) base (bs ++ [g]) tlog.
Proof.
  intros [Ho Hw Hg Ht Hr Hl Hs Hz] Hw' Hg' Hsq Hgs Hgz.
  assert (concat (bs ++ [g]) = concat bs ++ g) as Hcat
    by (rewrite concat_app; cbn [concat]; by rewrite app_nil_r).
  split; cbn; try done; [lia | | | rewrite Hcat; apply Forall_app; by split].
  - rewrite Hcat. apply Forall_app. split; [| done].
    eapply Forall_impl; [exact Hl |]. cbn. lia.
  - eapply Forall_impl; [exact Hs |]. cbn. lia.
Qed.

(** The commit of a staged group and what follows an error of it. *)
Lemma commit_refused db base bs tlog g w w' e :
  db_inv db base bs tlog -> wal_inv w base bs g -> g <> [] -> group_open w = false ->
  next_block w = next_block (db_wal db) ->
  (next_seq db + Z.of_nat (length g) <= U64_MAX)%Z ->
  Forall (fun r => (d_seq r <= next_seq db + Z.of_nat (length g))%Z) g -> sized g ->
  Wal.commit w = (w', Err e) ->
  call_outcome db base bs tlog g
    (let landed := negb (next_block w' =? next_block (db_wal db))%Z in
     let '(db, e) :=
       roll_back (E := E) (set_wal db w') (stage_mark db)
         (if landed then Z.of_nat (length g) else 0) e in (db, Err e)).
Proof.
  intros Hi Hw Hne Hg Hn Hmax Hgs Hgz Hc. pose proof (commit_group w base bs g Hw Hne Hg) as Hcg.
  rewrite Hc in Hcg. destruct Hcg as (Hg' & [[Hw' Hn'] | (Hw' & Hn' & d & ->)]).
  - cbv zeta. eapply roll_back_staged; [done | done | congruence | done].
  - cbv zeta. unfold roll_back, rollback_commit.
    cbn [db_wal set_wal set_core stage_mark mark_block next_seq].
    assert ((next_block w' =? next_block (db_wal db))%Z = false) as -> by (apply Z.eqb_neq; lia).
    cbn [negb]. unfold u64_checked_add. rewrite (proj2 (Z.ltb_ge _ _)) by lia.
    split; [done |]. split; [done |]. right. split_and!; [done | by eexists | done |].
    apply (db_inv_logged db base bs tlog w' g); try done. lia.
Qed.

(** Applying a logged group to the memtable. *)
Lemma db_inv_applied db base bs tlog w g t :
  db_inv db base bs tlog -> wal_inv w base (bs ++ [g]) [] -> group_open w = false -> g <> [] ->
  (next_seq db + Z.of_nat (length g) <= U64_MAX)%Z ->
  Forall (fun r => (d_seq r <= next_seq db + Z.of_nat (length g))%Z) g -> sized g ->
  filled E CAP ARENA KEY_MAX VAL_MAX t (rev (map rec_entry g) ++ tlog) ->
  call_outcome db base bs tlog g
    (set_core db w t (next_seq db + Z.of_nat (length g))%Z, Ok (next_seq db + 1)%Z).
Proof.
  intros Hi Hw Hg Hne Hmax Hgs Hgz Ht. split; [done |]. split; [by right |]. split; [done |].
  rewrite decide_False by done.
  destruct (db_inv_logged db base bs tlog w g (next_seq db + Z.of_nat (length g))%Z Hi Hw Hg)
    as [Ho Hw' Hg' _ Hr Hl Hs Hz]; [destruct Hi; lia | done | done |].
  split; cbn; try done. apply Forall_app. split; [| done].
  apply Forall_rev, Forall_map. eapply Forall_impl; [exact Hgs |]. cbn. intros r Hr'.
  by rewrite rec_entry_seq.
Qed.

(** ** Single mutations *)

Lemma commit_mutation_outcome db base bs tlog m :
  db_inv db base bs tlog -> mut_typed m ->
  call_outcome db base bs tlog [mut_rec (next_seq db + 1) m]
    (commit_mutation KEY_MAX VAL_MAX CAP ARENA db m).
Proof.
  intros Hi Hm. pose proof Hi as [Ho Hw Hg Ht Hr Hl Hs Hz]. unfold commit_mutation, ensure_open. rewrite Ho.
  destruct (check_mutation _ _ _ _ db m) as [[] | e] eqn:Ec; [| by apply outcome_refused].
  unfold u64_checked_add. destruct (U64_MAX <? next_seq db + 1)%Z eqn:Emax;
    [by apply outcome_refused |]. bool_lia.
  destruct (append_mutation_inner (db_wal db) (next_seq db + 1) m) as (op & k & v & exp & -> & Hrec & Hty).
  destruct (Hty Hm) as (Hk & Hv & Hexp). rewrite Hrec.
  set (r := rec_of (next_seq db + 1) op k v exp false) in *.
  pose proof (append_staged (db_wal db) base bs [] (next_seq db + 1) op k v exp false Hw
    (or_introl eq_refl)) as Ha.
  destruct (append_inner _ _ _ _ _ _ _) as [w [[] | e]].
  2: { destruct Ha as [Hw' Hn].
       { split_and!; try done. unfold fits, U64_MAX in *. lia. }
       { rewrite app_nil_r. eapply Forall_impl; [exact Hl |]. cbn. lia. }
       by eapply roll_back_staged. }
  destruct Ha as (Hw' & Hg' & Hn).
  { split_and!; try done. unfold fits, U64_MAX in *. lia. }
  { rewrite app_nil_r. eapply Forall_impl; [exact Hl |]. cbn. lia. }
  cbn [app] in Hw'. fold r in Hw'.
  assert (Forall (fun x => (d_seq x <= next_seq db + Z.of_nat (length [r]))%Z) [r]) as Hgs
    by (constructor; [cbn; lia | constructor]).
  destruct (check_mutation_insert db (next_seq db + 1) m Ec) as [t Hins].
  assert (sized [r]) as Hgz.
  { rewrite insert_mutation_run, Hrec in Hins. apply (run_mutation_ok Hconsts) in Hins as (Hz1 & _).
    constructor; [exact Hz1 | constructor]. }
  destruct (Wal.commit w) as [w' [[] | e]] eqn:Ecm.
  2: { by apply (commit_refused db base bs tlog [r] w w' e). }
  pose proof (commit_group w base bs [r] Hw' ltac:(done) Hg') as Hcg. rewrite Ecm in Hcg.
  destruct Hcg as [Hw'' Hg''].
  rewrite Hins.
  apply (db_inv_applied db base bs tlog w' [r] t); try done.
  rewrite insert_mutation_run, Hrec in Hins. cbn. eapply filled_step; [exact Ht | | exact Hins].
  fold r. change (logged (rec_mut r)) with (rec_entry r). rewrite rec_entry_seq.
  eapply Forall_impl; [exact Hs |]. cbn. lia.
Qed.
(** ** Batches *)

Lemma append_op_inner w sq more o :
  op_ok KEY_MAX VAL_MAX o ->
  exists op k v exp,
    (if op_eqb (bo_kind o) PutTtl
     then append_grouped_ttl w sq (op_key o) (op_val o) (bo_expire_at o) more
     else append_grouped w sq (bo_kind o) (op_key o) (op_val o) more) =
    append_inner w sq op k v exp more /\
    op_rec sq more o = rec_of sq op k v exp more /\ bytes_ok k /\ bytes_ok v /\ fits 64 exp.
Proof.
  intros (Hk & Hv & Hexp & _). unfold op_rec. destruct (op_eqb (bo_kind o) PutTtl).
  - do 4 eexists. split; [reflexivity |]. by split.
  - do 4 eexists. split; [reflexivity |]. split; [reflexivity |]. split_and!; try done.
Qed.

Lemma append_ops_spec first base bs os : forall w staged i n,
  wal_inv w base bs staged -> (staged = [] \/ group_open w = true) ->
  Forall (op_ok KEY_MAX VAL_MAX) os -> n = (i + length os)%nat ->
  (0 <= first)%Z -> (first + Z.of_nat n - 1 <= U64_MAX)%Z ->
  Forall (fun r => (d_seq r < first + Z.of_nat i)%Z) (concat bs ++ staged) ->
  match append_ops (E := E) w first i n os with
  | (w', Ok _) =>
      wal_inv w' base bs (staged ++ op_recs (first + Z.of_nat i) os) /\
      (os <> [] -> group_open w' = false) /\ next_block w' = next_block w
  | (w', Err (rolled, _)) =>
      rolled = true /\ next_block w' = next_block w /\ exists staged', wal_inv w' base bs staged'
  end.
Proof.
  induction os as [|o os IH]; intros w staged i n Hw Hst Hos Hn H0 Hmax Hold; cbn [append_ops op_recs].
  { rewrite app_nil_r. done. }
  apply Forall_cons in Hos as [Ho Hos]. cbn [length] in Hn.
  unfold u64_checked_add. rewrite (proj2 (Z.ltb_ge _ _)) by lia.
  assert ((i + 1 <? n)%nat = negb (length os =? 0)%nat) as ->.
  { destruct (length os =? 0)%nat eqn:El; cbn [negb]; bool_lia; [apply Nat.ltb_ge; lia | apply Nat.ltb_lt; lia]. }
  set (more := negb (length os =? 0)%nat).
  destruct (append_op_inner w (first + Z.of_nat i) more o Ho) as (op & k & v & exp & -> & Hr & Hk & Hv & Hexp).
  pose proof (append_staged w base bs staged (first + Z.of_nat i) op k v exp more Hw Hst) as Ha.
  assert (input_ok (first + Z.of_nat i) k v exp) as Hin
    by (split_and!; try done; unfold fits, U64_MAX in *; lia).
  specialize (Ha Hin Hold).
  destruct (append_inner _ _ _ _ _ _ _) as [w' [[] | e]].
  2: { destruct Ha as [Hw' Hn']. split_and!; [done | done |]. by eexists. }
  destruct Ha as (Hw' & Hg' & Hn').
  assert (staged ++ op_rec (first + Z.of_nat i) more o :: op_recs (first + Z.of_nat i + 1) os =
          (staged ++ [op_rec (first + Z.of_nat i) more o]) ++ op_recs (first + Z.of_nat (i + 1)) os) as ->.
  { rewrite <- app_assoc. do 3 f_equal. lia. }
  rewrite Hr in *. destruct os as [|o' os].
  { cbn. rewrite app_nil_r. done. }
  pose proof (IH w' (staged ++ [rec_of (first + Z.of_nat i) op k v exp more]) (i + 1)%nat n Hw'
    (or_intror Hg') Hos ltac:(lia) H0 Hmax) as IH'.
  assert (Forall (fun r => (d_seq r < first + Z.of_nat (i + 1))%Z)
    (concat bs ++ staged ++ [rec_of (first + Z.of_nat i) op k v exp more])) as Hold'.
  { rewrite app_assoc. apply Forall_app. split.
    - eapply Forall_impl; [exact Hold |]. cbn. lia.
    - constructor; [cbn; lia | constructor]. }
  specialize (IH' Hold'). destruct (append_ops _ _ _ _ _) as [w2 [[] | [rolled e]]]; rewrite <- Hn'.
  - destruct IH' as (H1 & H2 & H3). split_and!; [done | by intros _; apply H2 | done].
  - done.
Qed.

Lemma op_entry_bytes sq more o :
  op_ok KEY_MAX VAL_MAX o ->
  (length (key (logged (rec_mut (op_rec sq more o)))) +
   length (val (logged (rec_mut (op_rec sq more o)))))%nat = op_bytes o.
Proof.
  intros (_ & _ & _ & Hdel & _). unfold op_bytes, op_rec.
  change (logged (rec_mut ?r)) with (rec_entry r).
  destruct (op_eqb_spec (bo_kind o) PutTtl) as [Hk | Hk].
  - destruct (bo_expire_at o =? 0)%Z;
      rewrite (proj1 (rec_entry_sizes _ _ _ _ _ _)), (proj2 (rec_entry_sizes _ _ _ _ _ _)); done.
  - rewrite (proj1 (rec_entry_sizes _ _ _ _ _ _)), (proj2 (rec_entry_sizes _ _ _ _ _ _)).
    destruct (op_eqb_spec (bo_kind o) Delete) as [Hd | Hd]; [by rewrite Hdel | done].
Qed.

Lemma apply_ops_spec first os : forall t log i,
  filled E CAP ARENA KEY_MAX VAL_MAX t log -> Forall (op_ok KEY_MAX VAL_MAX) os ->
  (first + Z.of_nat i + Z.of_nat (length os) - 1 <= U64_MAX)%Z ->
  Forall (fun e => (seq e < first + Z.of_nat i)%Z) log ->
  (len t + length os <= CAP)%nat -> (arena_len t + need_arena os <= ARENA)%nat ->
  exists t', apply_ops (E := E) KEY_MAX VAL_MAX CAP ARENA t first i os = (t', Ok tt) /\
    filled E CAP ARENA KEY_MAX VAL_MAX t' (rev (map rec_entry (op_recs (first + Z.of_nat i) os)) ++ log).
Proof.
  induction os as [|o os IH]; intros t log i Hf Hos Hmax Hold Hlen Har; cbn [apply_ops op_recs].
  { by exists t. }
  apply Forall_cons in Hos as [Ho Hos]. cbn [length] in *. unfold need_arena in Har.
  cbn [sum_list_with] in Har. fold (need_arena os) in Har.
  unfold u64_checked_add. rewrite (proj2 (Z.ltb_ge _ _)) by lia.
  set (more := negb (length os =? 0)%nat). set (sq := (first + Z.of_nat i)%Z) in *.
  rewrite (insert_op_run t sq more o Ho).
  set (m := rec_mut (op_rec sq more o)).
  assert (fits_table (CAP := CAP) (ARENA := ARENA) t m) as Hfit.
  { unfold fits_table. pose proof (op_entry_bytes sq more o Ho) as Hb. fold m in Hb. lia. }
  assert (seq (logged m) = sq) as Hsq
    by (unfold m; change (logged (rec_mut ?r)) with (rec_entry r); by rewrite rec_entry_seq, op_rec_seq).
  pose proof (proj2 (run_mutation_ok (E := E) Hconsts t m _)
    (conj (proj2 (proj2 (proj2 (proj2 Ho))) sq more) (conj Hfit eq_refl))) as Hrun. rewrite Hrun.
  destruct (filled_inv Hconsts t log Hf) as (Hw & Hp & _).
  destruct (applied_step t m Hw Hfit) as (Hw' & Hp' & Hb').
  { rewrite Hp, Hsq. done. }
  assert (len (applied t m) = len t + 1)%nat as Hl'.
  { rewrite <- (length_iter _ Hw'), <- (length_iter _ Hw), Hp'. cbn. lia. }
  assert (filled E CAP ARENA KEY_MAX VAL_MAX (applied t m) (logged m :: log)) as Hf'.
  { eapply filled_step; [exact Hf | | exact Hrun]. by rewrite Hsq. }
  pose proof (op_entry_bytes sq more o Ho) as Hb. fold m in Hb.
  destruct (IH (applied t m) (logged m :: log) (i + 1)%nat Hf' Hos ltac:(lia)) as (t' & -> & Hf'').
  - constructor; [lia |]. eapply Forall_impl; [exact Hold |]. cbn. lia.
  - lia.
  - lia.
  - exists t'. split; [done |]. cbn [map rev]. rewrite <- app_assoc. cbn [app].
    unfold sq in *. replace (first + Z.of_nat i + 1)%Z with (first + Z.of_nat (i + 1))%Z by lia. done.
Qed.

Lemma op_recs_sized sq os : Forall (op_ok KEY_MAX VAL_MAX) os -> sized (op_recs sq os).
Proof.
  intros Hos. revert sq. induction Hos as [|o os (_ & _ & _ & _ & Ho) _ IH]; intros sq;
    cbn [op_recs]; constructor; [apply Ho | apply IH].
Qed.

Lemma write_outcome db base bs tlog b :
  db_inv db base bs tlog -> Forall (op_ok KEY_MAX VAL_MAX) (ops b) ->
  call_outcome db base bs tlog (op_recs (next_seq db + 1) (ops b))
    (write KEY_MAX VAL_MAX CAP ARENA db b).
Proof.
  intros Hi Hos. pose proof Hi as [Ho Hw Hg Ht Hr Hl Hs Hz]. unfold write, ensure_open. rewrite Ho.
  destruct (length (ops b) =? 0)%nat eqn:En; bool_lia.
  { apply nil_length_inv in En. rewrite En. split; [apply frame_refl |]. cbn.
    rewrite app_nil_r, Z.add_0_r. split_and!; [by left | done | done]. }
  destruct (BLOCK <? need_wal (ops b))%nat; [by apply outcome_refused |].
  destruct (CAP <? _)%nat eqn:Ecap; [by apply outcome_refused |].
  destruct (ARENA <? _)%nat eqn:Ear; [by apply outcome_refused |]. bool_lia.
  rewrite (stage_empty _ _ _ Hw). change (0 <? 0)%nat with false. cbv iota.
  assert (ops b <> []) as Hne by (by intros H; rewrite H in En).
  unfold write_group. unfold u64_checked_add at 1.
  destruct (U64_MAX <? next_seq db + 1)%Z eqn:E1; [by apply outcome_refused |].
  unfold u64_checked_add at 1.
  destruct (U64_MAX <? next_seq db + 1 + _)%Z eqn:E2; [by apply outcome_refused |]. bool_lia.
  set (g := op_recs (next_seq db + 1) (ops b)).
  assert (length g = length (ops b)) as Hgl by apply op_recs_length.
  assert (g <> []) as Hgne by (intros H; rewrite H in Hgl; cbn in Hgl; lia).
  assert (Forall (fun r => (d_seq r <= next_seq db + Z.of_nat (length g))%Z) g) as Hgs.
  { rewrite Hgl. eapply Forall_impl; [apply op_recs_seqs |]. cbn. lia. }
  assert (sized g) as Hgz by (by apply op_recs_sized).
  pose proof (append_ops_spec (next_seq db + 1) base bs (ops b) (db_wal db) [] 0 (length (ops b)) Hw
    (or_introl eq_refl) Hos ltac:(lia) ltac:(lia) ltac:(lia)) as Ha.
  destruct (append_ops _ _ _ _ _) as [w [[] | [rolled e]]].
  2: { destruct Ha as (-> & Hn & staged & Hw').
       { rewrite app_nil_r. eapply Forall_impl; [exact Hl |]. cbn. lia. }
       by eapply roll_back_staged. }
  destruct Ha as (Hw' & Hg' & Hn).
  { rewrite app_nil_r. eapply Forall_impl; [exact Hl |]. cbn. lia. }
  cbn [app] in Hw'. rewrite Z.add_0_r in Hw'. fold g in Hw'. specialize (Hg' Hne).
  destruct (Wal.commit w) as [w' [[] | e]] eqn:Ecm.
  2: { rewrite <- Hgl. apply (commit_refused db base bs tlog g w w' e); try done. lia. }
  pose proof (commit_group w base bs g Hw' Hgne Hg') as Hcg. rewrite Ecm in Hcg.
  destruct Hcg as [Hw'' Hg''].
  destruct (apply_ops_spec (next_seq db + 1) (ops b) (db_table db) tlog 0 Ht Hos ltac:(lia)) as (t & -> & Hf).
  { eapply Forall_impl; [exact Hs |]. cbn. lia. }
  { lia. }
  { lia. }
  rewrite Z.add_0_r in Hf. fold g in Hf.
  replace (next_seq db + 1 + (Z.of_nat (length (ops b)) - 1))%Z with (next_seq db + Z.of_nat (length g))%Z by lia.
  apply (db_inv_applied db base bs tlog w' g t); try done. lia.
Qed.
(** ** Which blocks a call can touch *)

(** From [w] to [w'] only blocks of the region at or after [lo] changed. *)
Definition touches (lo : u64) (w w' : WalWriter D) : Prop :=
  wal_start w' = wal_start w /\ wal_end w' = wal_end w /\
  ((lo <= next_block w)%Z -> (lo <= next_block w')%Z /\
   forall id, (id < lo \/ wal_end w <= id)%Z ->
     read_block (device w') id = read_block (device w) id).

#[export] Instance touches_preorder lo : PreOrder (touches lo).
Proof.
  split.
  - intros w. by split_and!.
  - intros w1 w2 w3 (Hs & He & H1) (Hs' & He' & H2). split_and!; [congruence.. |]. intros Hlo.
    destruct (H1 Hlo) as [Hlo' Hr]. destruct (H2 Hlo') as [? Hr']. split; [done |].
    intros id Hid. rewrite Hr' by (rewrite He; done). by apply Hr.
Qed.

Lemma touches_same lo w w' :
  wal_start w' = wal_start w -> wal_end w' = wal_end w -> next_block w' = next_block w ->
  device w' = device w -> touches lo w w'.
Proof. intros Hs He Hn Hd. split_and!; try done. by rewrite Hn, Hd. Qed.

Lemma write_stage_touches lo w : touches lo w (write_stage (E := E) w).1.
Proof.
  unfold write_stage. destruct (wal_end w <=? next_block w)%Z eqn:Ee; [reflexivity |]. bool_lia.
  cbv zeta. destruct (write_block _ _ _) as [d' r] eqn:Ew.
  pose proof (read_unwritten (device w) d' (next_block w)) as Hu.
  destruct r as [[] | e]; (split; [done |]); (split; [done |]); cbn [fst next_block device]; intros Hlo;
    (split; [lia |]); intros id Hid; (eapply Hu; [exact Ew | lia]).
Qed.

Lemma stage_record_touches lo w sq op k kl v vl exp more :
  touches lo w (stage_record w sq op k kl v vl exp more).
Proof. unfold stage_record. destruct (encode_record _ _ _ _ _ _ _ _ _). by apply touches_same. Qed.

Lemma append_touches lo w sq op k v exp more :
  touches lo w (append_inner (E := E) w sq op k v exp more).1.
Proof.
  unfold append_inner. destruct (try_u16 _) as [kl|]; [| reflexivity]. cbv zeta.
  destruct (try_u16 _) as [vl|]; [| reflexivity].
  destruct (BLOCK <? _)%nat; [reflexivity |]. destruct (BLOCK <? stage_len w + _)%nat; [| apply stage_record_touches].
  destruct (group_open w); [reflexivity |]. pose proof (write_stage_touches lo w) as Hw.
  destruct (write_stage w) as [w' [[] | e]]; cbn [fst] in *; [| done].
  etrans; [exact Hw | apply stage_record_touches].
Qed.

Lemma commit_flush_touches lo w : touches lo w (commit_flush (E := E) w).1.
Proof.
  unfold commit_flush. destruct (dev_flush (device w)) as [d' r] eqn:Ef.
  split_and!; try done. intros Hlo. split; [done |]. intros id _. cbn. by eapply read_flushed.
Qed.

Lemma commit_touches lo w : touches lo w (Wal.commit (E := E) w).1.
Proof.
  unfold Wal.commit. destruct (0 <? stage_len w)%nat; [| apply commit_flush_touches].
  pose proof (write_stage_touches lo w) as Hw. destruct (write_stage w) as [w' [[] | e]]; [| done].
  cbn [fst] in *. etrans; [exact Hw | apply commit_flush_touches].
Qed.

Lemma roll_back_touches lo db w mark seqs e :
  touches lo w (db_wal (roll_back (E := E) (set_wal db w) mark seqs e).1).
Proof.
  unfold roll_back, rollback_commit. cbn [db_wal set_wal set_core next_seq].
  destruct (_ =? _)%Z; [by apply touches_same |].
  destruct (u64_checked_add _ _); reflexivity.
Qed.

Lemma commit_mutation_touches lo db m :
  touches lo (db_wal db) (db_wal (commit_mutation (E := E) KEY_MAX VAL_MAX CAP ARENA db m).1).
Proof.
  unfold commit_mutation. destruct (ensure_open db); [| reflexivity].
  destruct (check_mutation _ _ _ _ db m); [| reflexivity].
  destruct (u64_checked_add _ _) as [sq|]; [| reflexivity]. cbv zeta.
  destruct (append_mutation_inner (db_wal db) sq m) as (op & k & v & exp & -> & _).
  pose proof (append_touches lo (db_wal db) sq op k v exp false) as Ha.
  destruct (append_inner _ _ _ _ _ _ _) as [w [[] | e]]; cbn [fst] in Ha.
  2: { pose proof (roll_back_touches lo db w (stage_mark db) 0 e) as Hr.
       destruct (roll_back _ _ _ _) as [db' e']. cbn [fst] in *. by etrans. }
  pose proof (commit_touches lo w) as Hc. destruct (Wal.commit w) as [w' [[] | e]]; cbn [fst] in Hc.
  2: { match goal with |- context [roll_back _ ?mk ?n e] =>
         pose proof (roll_back_touches lo db w' mk n e) as Hr end.
       destruct (roll_back _ _ _ _) as [db' e']. cbn [fst] in *. etrans; [exact Ha |]. by etrans. }
  destruct (insert_mutation _ _ _ _ _ _ _); cbn; by etrans.
Qed.

Lemma append_ops_touches lo first os : forall w i n,
  touches lo w (append_ops (E := E) w first i n os).1.
Proof.
  induction os as [|o os IH]; intros w i n; cbn [append_ops]; [reflexivity |].
  destruct (u64_checked_add _ _) as [sq|]; [| reflexivity]. cbv zeta.
  set (app := if op_eqb _ _ then _ else _).
  assert (touches lo w app.1) as Ha.
  { unfold app, append_grouped_ttl, append_grouped. destruct (op_eqb _ _); apply append_touches. }
  destruct app as [w' [[] | e]]; cbn [fst] in *; [| done]. etrans; [exact Ha | apply IH].
Qed.

Lemma write_touches lo db b :
  touches lo (db_wal db) (db_wal (write (E := E) KEY_MAX VAL_MAX CAP ARENA db b).1).
Proof.
  unfold write. destruct (ensure_open db); [| reflexivity]. cbv zeta.
  destruct (length (ops b) =? 0)%nat; [reflexivity |].
  destruct (BLOCK <? _)%nat; [reflexivity |]. destruct (CAP <? _)%nat; [reflexivity |].
  destruct (ARENA <? _)%nat; [reflexivity |].
  assert (forall db', touches lo (db_wal db') (db_wal (write_group (E := E) KEY_MAX VAL_MAX CAP ARENA db' (ops b)).1)) as Hg.
  { clear db. intros db. unfold write_group.
    destruct (u64_checked_add _ _) as [sq|]; [| reflexivity].
    destruct (u64_checked_add sq _) as [last|]; [| reflexivity]. cbv zeta.
    pose proof (append_ops_touches lo sq (ops b) (db_wal db) 0 (length (ops b))) as Ha.
    destruct (append_ops _ _ _ _ _) as [w [[] | [[] e]]]; cbn [fst] in Ha; [| | done].
    2: { pose proof (roll_back_touches lo db w (stage_mark db) 0 e) as Hr.
         destruct (roll_back _ _ _ _) as [db' e']. cbn [fst] in *. by etrans. }
    pose proof (commit_touches lo w) as Hc. destruct (Wal.commit w) as [w' [[] | e]]; cbn [fst] in Hc.
    2: { match goal with |- context [roll_back _ ?mk ?n e] =>
           pose proof (roll_back_touches lo db w' mk n e) as Hr end.
         destruct (roll_back _ _ _ _) as [db' e']. cbn [fst] in *. etrans; [exact Ha |]. by etrans. }
    destruct (apply_ops _ _ _ _ _ _ _ _) as [t [[] | e]]; cbn; by etrans. }
  destruct (0 <? stage_len (db_wal db))%nat; [| apply Hg].
  pose proof (commit_touches lo (db_wal db)) as Hc.
  destruct (Wal.commit (db_wal db)) as [w [[] | e]]; cbn [fst] in Hc; [| done].
  etrans; [exact Hc |]. apply (Hg (set_wal db w)).
Qed.
(** From [w] to [w'] no block behind the writer's position changed; after a success the
    block at its position has not changed either. *)
Definition reaches (ok : bool) (w w' : WalWriter D) : Prop :=
  (next_block w <= next_block w')%Z /\
  forall id, (if ok then next_block w' <= id else next_block w' < id)%Z ->
    read_block (device w') id = read_block (device w) id.

Lemma reaches_refl ok w : reaches ok w w.
Proof. by split. Qed.

Lemma reaches_weaken ok w w' : reaches true w w' -> reaches ok w w'.
Proof. intros [H1 H2]. split; [done |]. intros id Hid. apply H2. destruct ok; lia. Qed.

Lemma reaches_trans a b w1 w2 w3 : reaches a w1 w2 -> reaches b w2 w3 -> reaches (a && b) w1 w3.
Proof.
  intros [H1 H2] [H3 H4]. split; [lia |]. intros id Hid.
  rewrite H4, H2 by (destruct a, b; cbn in *; lia). done.
Qed.

Lemma reaches_same ok w w' :
  next_block w' = next_block w -> device w' = device w -> reaches ok w w'.
Proof. intros Hn Hd. split; [lia |]. intros id _. by rewrite Hd. Qed.

Lemma write_stage_reaches w : reaches (is_ok (write_stage (E := E) w).2) w (write_stage (E := E) w).1.
Proof.
  unfold write_stage. destruct (wal_end w <=? next_block w)%Z; [apply reaches_refl |].
  cbv zeta. destruct (write_block _ _ _) as [d' r] eqn:Ew.
  pose proof (read_unwritten (device w) d' (next_block w)) as Hu.
  destruct r as [[] | e]; (split; [cbn; lia |]); cbn [fst snd is_ok next_block device]; intros id Hid;
    (eapply Hu; [exact Ew | lia]).
Qed.

Lemma stage_record_reaches ok w sq op k kl v vl exp more :
  reaches ok w (stage_record w sq op k kl v vl exp more).
Proof. unfold stage_record. destruct (encode_record _ _ _ _ _ _ _ _ _). by apply reaches_same. Qed.

Lemma append_reaches w sq op k v exp more :
  let r := append_inner (E := E) w sq op k v exp more in reaches (is_ok r.2) w r.1.
Proof.
  unfold append_inner. destruct (try_u16 _) as [kl|]; [| apply reaches_refl]. cbv zeta.
  destruct (try_u16 _) as [vl|]; [| apply reaches_refl].
  destruct (BLOCK <? _)%nat; [apply reaches_refl |].
  destruct (BLOCK <? stage_len w + _)%nat; [| apply stage_record_reaches].
  destruct (group_open w); [apply reaches_refl |]. pose proof (write_stage_reaches w) as Hw.
  destruct (write_stage w) as [w' [[] | e]]; cbn [fst snd is_ok] in *; [| done].
  exact (reaches_trans true true _ _ _ Hw (stage_record_reaches _ _ _ _ _ _ _ _ _ _)).
Qed.

Lemma commit_flush_reaches ok w : reaches ok w (commit_flush (E := E) w).1.
Proof.
  unfold commit_flush. destruct (dev_flush (device w)) as [d' r] eqn:Ef.
  split; [cbn; lia |]. intros id _. cbn. by eapply read_flushed.
Qed.

Lemma commit_reaches w : reaches (is_ok (Wal.commit (E := E) w).2) w (Wal.commit (E := E) w).1.
Proof.
  unfold Wal.commit. destruct (0 <? stage_len w)%nat; [| apply commit_flush_reaches].
  pose proof (write_stage_reaches w) as Hw. destruct (write_stage w) as [w' [[] | e]]; [| done].
  cbn [fst snd is_ok] in *. exact (reaches_trans true _ _ _ _ Hw (commit_flush_reaches _ _)).
Qed.

Lemma roll_back_reaches db w mark seqs e :
  reaches true w (db_wal (roll_back (E := E) (set_wal db w) mark seqs e).1).
Proof.
  unfold roll_back, rollback_commit. cbn [db_wal set_wal set_core next_seq].
  destruct (_ =? _)%Z; [by apply reaches_same |].
  destruct (u64_checked_add _ _); apply reaches_refl.
Qed.

Lemma commit_mutation_reaches db m :
  let r := commit_mutation (E := E) KEY_MAX VAL_MAX CAP ARENA db m in
  reaches (is_ok r.2) (db_wal db) (db_wal r.1).
Proof.
  unfold commit_mutation. destruct (ensure_open db); [| apply reaches_refl].
  destruct (check_mutation _ _ _ _ db m); [| apply reaches_refl].
  destruct (u64_checked_add _ _) as [sq|]; [| apply reaches_refl]. cbv zeta.
  destruct (append_mutation_inner (db_wal db) sq m) as (op & k & v & exp & -> & _).
  pose proof (append_reaches (db_wal db) sq op k v exp false) as Ha. cbv zeta in Ha.
  destruct (append_inner _ _ _ _ _ _ _) as [w [[] | e]]; cbn [fst snd is_ok] in Ha.
  2: { pose proof (roll_back_reaches db w (stage_mark db) 0 e) as Hr.
       destruct (roll_back _ _ _ _) as [db' e']. exact (reaches_trans _ _ _ _ _ Ha Hr). }
  pose proof (commit_reaches w) as Hc. destruct (Wal.commit w) as [w' [[] | e]]; cbn [fst snd is_ok] in Hc.
  2: { match goal with |- context [roll_back _ ?mk ?n e] =>
         pose proof (roll_back_reaches db w' mk n e) as Hr end.
       destruct (roll_back _ _ _ _) as [db' e'].
       exact (reaches_trans _ _ _ _ _ (reaches_trans _ _ _ _ _ Ha Hc) Hr). }
  destruct (insert_mutation _ _ _ _ _ _ _); cbn;
    [| apply reaches_weaken]; exact (reaches_trans _ _ _ _ _ Ha Hc).
Qed.

Lemma append_ops_reaches first os : forall w i n,
  let r := append_ops (E := E) w first i n os in reaches (is_ok r.2) w r.1.
Proof.
  induction os as [|o os IH]; intros w i n; cbn [append_ops]; [apply reaches_refl |].
  destruct (u64_checked_add _ _) as [sq|]; [| apply reaches_refl]. cbv zeta.
  set (app := if op_eqb _ _ then _ else _).
  assert (reaches (is_ok app.2) w app.1) as Ha.
  { unfold app, append_grouped_ttl, append_grouped. destruct (op_eqb _ _); apply append_reaches. }
  destruct app as [w' [[] | e]]; cbn [fst snd is_ok] in *; [| done].
  exact (reaches_trans true _ _ _ _ Ha (IH _ _ _)).
Qed.

Lemma write_group_reaches db os :
  let r := write_group (E := E) KEY_MAX VAL_MAX CAP ARENA db os in
  reaches (is_ok r.2) (db_wal db) (db_wal r.1).
Proof.
  unfold write_group. destruct (u64_checked_add _ _) as [sq|]; [| apply reaches_refl].
  destruct (u64_checked_add sq _) as [last|]; [| apply reaches_refl]. cbv zeta.
  pose proof (append_ops_reaches sq os (db_wal db) 0 (length os)) as Ha. cbv zeta in Ha.
  destruct (append_ops _ _ _ _ _) as [w [[] | [[] e]]]; cbn [fst snd is_ok] in Ha; [| | done].
  2: { pose proof (roll_back_reaches db w (stage_mark db) 0 e) as Hr.
       destruct (roll_back _ _ _ _) as [db' e']. exact (reaches_trans _ _ _ _ _ Ha Hr). }
  pose proof (commit_reaches w) as Hc. destruct (Wal.commit w) as [w' [[] | e]]; cbn [fst snd is_ok] in Hc.
  2: { match goal with |- context [roll_back _ ?mk ?n e] =>
         pose proof (roll_back_reaches db w' mk n e) as Hr end.
       destruct (roll_back _ _ _ _) as [db' e'].
       exact (reaches_trans _ _ _ _ _ (reaches_trans _ _ _ _ _ Ha Hc) Hr). }
  destruct (apply_ops _ _ _ _ _ _ _ _) as [t [[] | e]]; cbn;
    [| apply reaches_weaken]; exact (reaches_trans _ _ _ _ _ Ha Hc).
Qed.

Lemma write_reaches db b :
  let r := write (E := E) KEY_MAX VAL_MAX CAP ARENA db b in reaches (is_ok r.2) (db_wal db) (db_wal r.1).
Proof.
  unfold write. destruct (ensure_open db); [| apply reaches_refl]. cbv zeta.
  destruct (length (ops b) =? 0)%nat; [apply reaches_refl |].
  destruct (BLOCK <? _)%nat; [apply reaches_refl |]. destruct (CAP <? _)%nat; [apply reaches_refl |].
  destruct (ARENA <? _)%nat; [apply reaches_refl |].
  destruct (0 <? stage_len (db_wal db))%nat; [| apply write_group_reaches].
  pose proof (commit_reaches (db_wal db)) as Hc.
  destruct (Wal.commit (db_wal db)) as [w [[] | e]]; cbn [fst snd is_ok] in Hc; [| done].
  exact (reaches_trans true _ _ _ _ Hc (write_group_reaches (set_wal db w) _)).
Qed.

(** ** Calls and histories *)

Inductive db_call :=
  | DPut (k v : bytes)
  | DDelete (k : bytes)
  | DDeleteRange (s e : bytes)
  | DPutTtl (k v : bytes) (exp : u64)
  | DWrite (b : WriteBatch).

Definition run_db_call db (c : db_call) : Db D * result u64 (Error E) :=
  match c with
  | DPut k v => put KEY_MAX VAL_MAX CAP ARENA db k v
  | DDelete k => delete KEY_MAX VAL_MAX CAP ARENA db k
  | DDeleteRange s e => delete_range KEY_MAX VAL_MAX CAP ARENA db s e
  | DPutTtl k v exp => put_with_ttl KEY_MAX VAL_MAX CAP ARENA db k v exp
  | DWrite b => write KEY_MAX VAL_MAX CAP ARENA db b
  end.

(** What a call logs when it is given the sequence numbers from [sq] on. *)
Definition call_recs (sq : u64) (c : db_call) : list Decoded :=
  match c with
  | DPut k v => [mut_rec sq (MutPut k v)]
  | DDelete k => [mut_rec sq (MutDelete k)]
  | DDeleteRange s e => if bytes_leb e s then [] else [mut_rec sq (MutRangeDelete s e)]
  | DPutTtl k v exp => [mut_rec sq (MutPutTtl k v exp)]
  | DWrite b => op_recs sq (ops b)
  end.

(** The operations a batch can hold, by its own checks. *)
Definition queued_ok (q : queued) : Prop :=
  bytes_ok (q_key q) /\ bytes_ok (q_val q) /\ fits 64 (q_expire q) /\
  (0 < length (q_key q) <= KEY_MAX)%nat /\
  match q_kind q with
  | Delete => q_val q = []
  | RangeDelete => bytes_lt (q_key q) (q_val q) /\ (length (q_val q) <= KEY_MAX)%nat
  | _ => (length (q_val q) <= VAL_MAX)%nat
  end.

Definition call_typed (c : db_call) : Prop :=
  match c with
  | DPut k v => mut_typed (MutPut k v)
  | DDelete k => mut_typed (MutDelete k)
  | DDeleteRange s e => mut_typed (MutRangeDelete s e)
  | DPutTtl k v exp => mut_typed (MutPutTtl k v exp)
  | DWrite b => Forall queued_ok (view b)
  end.

Ltac eval_queued :=
  unfold queued_ok; change (op_eqb Put Delete) with false; change (op_eqb PutTtl Delete) with false;
  change (op_eqb RangeDelete Delete) with false; change (op_eqb Delete Delete) with true;
  cbn [q_key q_val q_expire q_kind]; split_and!; try done; try lia.

Lemma queued_op_ok o :
  queued_ok (mkQueued (bo_kind o) (op_key o) (op_val o) (bo_expire_at o)) -> op_ok KEY_MAX VAL_MAX o.
Proof.
  intros (Hk & Hv & He & Hl & Hm). cbn in *. split_and!; try done.
  - intros Hd. by rewrite Hd in Hm.
  - intros sq more. unfold sizes_ok, op_rec, rec_mut.
    destruct (bo_kind o); try (destruct (bo_expire_at o =? 0)%Z); cbn; (split; [done |]); try done.
    all: exact (Nat.le_0_l _).
Qed.

(** Batches built through the public calls hold such operations. *)
Inductive built (OPS : nat) : WriteBatch -> Prop :=
  | built_new : built OPS (batch_new KEY_MAX VAL_MAX OPS)
  | built_clear b : built OPS b -> built OPS (batch_clear b)
  | built_put b b' k v : built OPS b -> bytes_ok k -> bytes_ok v ->
      batch_put KEY_MAX VAL_MAX OPS b k v = Ok b' -> built OPS b'
  | built_delete b b' k : built OPS b -> bytes_ok k ->
      batch_delete KEY_MAX VAL_MAX OPS b k = Ok b' -> built OPS b'
  | built_put_ttl b b' k v exp : built OPS b -> bytes_ok k -> bytes_ok v -> fits 64 exp ->
      batch_put_ttl KEY_MAX VAL_MAX OPS b k v exp = Ok b' -> built OPS b'
  | built_range b b' s e : built OPS b -> bytes_ok s -> bytes_ok e ->
      batch_range_delete KEY_MAX VAL_MAX OPS b s e = Ok b' -> built OPS b'.

Lemma pushed_ok OPS b b' kind k v exp :
  wf_batch KEY_MAX VAL_MAX OPS b -> Forall queued_ok (view b) ->
  push KEY_MAX VAL_MAX OPS b kind k v exp = Ok b' ->
  (acceptable KEY_MAX VAL_MAX kind k v ->
   queued_ok (mkQueued kind k (if op_eqb kind Delete then [] else v) exp)) ->
  wf_batch KEY_MAX VAL_MAX OPS b' /\ Forall queued_ok (view b').
Proof.
  intros Hw Hq Hp Hok. pose proof (push_spec b kind k v exp Hw) as Hs. rewrite Hp in Hs.
  destruct Hs as (Hw' & -> & Ha & _). split; [done |]. apply Forall_app. split; [done |].
  constructor; [by apply Hok | constructor].
Qed.

Lemma built_queued OPS b :
  built OPS b -> wf_batch KEY_MAX VAL_MAX OPS b /\ Forall queued_ok (view b).
Proof.
  assert (fits 64 0) as H0 by (unfold fits; lia).
  induction 1 as [| b _ [Hw _] | b b' k v _ [Hw Hq] Hk Hv Hp | b b' k _ [Hw Hq] Hk Hp
    | b b' k v exp _ [Hw Hq] Hk Hv He Hp | b b' s e _ [Hw Hq] Hs He Hp].
  - split; [apply batch_new_wf | constructor].
  - split; [| constructor]. split; cbn; [apply Hw | lia | apply Hw].
  - eapply pushed_ok; [done.. |]. intros (Hl & _ & [? | [? _]]); [done |].
    eval_queued.
  - eapply pushed_ok; [done.. |]. intros (Hl & _). eval_queued; constructor.
  - unfold batch_put_ttl in Hp. cbv zeta in Hp. eapply pushed_ok; [done.. |].
    intros (Hl & _ & Hd). destruct (exp =? 0)%Z; cbn;
      (destruct Hd as [? | [? _]]; [done |]); eval_queued.
  - unfold batch_range_delete in Hp. destruct (bytes_leb e s) eqn:Ele; [by injection Hp as <- |].
    destruct (KEY_MAX <? length e)%nat eqn:Ek; [done |]. bool_lia. eapply pushed_ok; [done.. |].
    intros (Hl & _ & [? | [? _]]); [done |]. eval_queued.
    by apply bytes_leb_gt.
Qed.

Lemma call_reaches db c :
  reaches (is_ok (run_db_call db c).2) (db_wal db) (db_wal (run_db_call db c).1).
Proof.
  destruct c as [k v | k | s e | k v exp | b]; cbn [run_db_call];
    try apply commit_mutation_reaches; [| apply write_reaches].
  unfold delete_range. destruct (ensure_open db); [| apply reaches_refl].
  destruct (bytes_leb e s); [apply reaches_refl | apply commit_mutation_reaches].
Qed.

Lemma call_outcome_holds db base bs tlog c :
  db_inv db base bs tlog -> call_typed c ->
  call_outcome db base bs tlog (call_recs (next_seq db + 1) c) (run_db_call db c) /\
  forall lo, touches lo (db_wal db) (db_wal (run_db_call db c).1).
Proof.
  intros Hi Hc. destruct c as [k v | k | s e | k v exp | b]; cbn [run_db_call call_recs].
  - split; [by apply commit_mutation_outcome | intros lo; apply commit_mutation_touches].
  - split; [by apply commit_mutation_outcome | intros lo; apply commit_mutation_touches].
  - unfold delete_range, ensure_open. rewrite (di_open _ _ _ _ Hi). destruct (bytes_leb e s).
    + split; [| reflexivity]. split; [apply frame_refl |]. cbn. rewrite app_nil_r, Z.add_0_r. split_and!; [by left | done | done].
    + split; [by apply commit_mutation_outcome | intros lo; apply commit_mutation_touches].
  - split; [by apply commit_mutation_outcome | intros lo; apply commit_mutation_touches].
  - split; [| intros lo; apply write_touches]. apply write_outcome; [done |].
    pose proof (proj1 (Forall_map (fun o => mkQueued (bo_kind o) (op_key o) (op_val o) (bo_expire_at o))
      _ (ops b)) Hc) as Hc'.
    eapply Forall_impl; [exact Hc' |]. intros o. apply queued_op_ok.
Qed.
End writing.

Arguments db_inv {D E Dev} KEY_MAX VAL_MAX CAP ARENA db base bs tlog.
Arguments queued_ok KEY_MAX VAL_MAX q : clear implicits.
Arguments call_typed KEY_MAX VAL_MAX c : clear implicits.
Arguments run_db_call {D E Dev} KEY_MAX VAL_MAX CAP ARENA db c.

(** C18 The contract of every write call, whatever the device does.  A call that
    returns [Ok] has appended exactly its group of records to the log as one
    block, stored exactly the same mutations in the memtable and advanced the
    counter by their number.  A call that returns an error has not changed the
    memtable, and either the log and the counter are as before, or the error is
    the device's, the whole group is in the log (its block landed and the flush
    failed) and its sequence numbers are consumed, never to be issued again.  No
    call touches anything else of the handle, or a block outside the part of the
    log region from [lo] on. *)
Theorem write_call_contract {D E} `{Dev : !BlockDevice D E} {Laws : DeviceLaws D E}
  {KEY_MAX VAL_MAX CAP ARENA} (db : Db D) base bs tlog (c : db_call)
  (Hconsts : consts_ok CAP ARENA KEY_MAX VAL_MAX)
  (Hi : db_inv (E := E) KEY_MAX VAL_MAX CAP ARENA db base bs tlog)
  (Hc : call_typed KEY_MAX VAL_MAX c) :
  let g := call_recs (next_seq db + 1) c in
  let out := run_db_call (E := E) KEY_MAX VAL_MAX CAP ARENA db c in
  frame db out.1 /\ (forall lo, touches lo (db_wal db) (db_wal out.1)) /\
  match out with
  | (db', Ok s) =>
      (g = [] \/ s = (next_seq db + 1)%Z) /\
      next_seq db' = (next_seq db + Z.of_nat (length g))%Z /\
      db_inv (E := E) KEY_MAX VAL_MAX CAP ARENA db' base
        (bs ++ (if decide (g = []) then [] else [g])) (rev (map rec_entry g) ++ tlog)
  | (db', Err e) =>
      db_table db' = db_table db /\
      ((next_seq db' = next_seq db /\ db_inv (E := E) KEY_MAX VAL_MAX CAP ARENA db' base bs tlog) \/
       (g <> [] /\ (exists d, e = Device d) /\
        next_seq db' = (next_seq db + Z.of_nat (length g))%Z /\
        db_inv (E := E) KEY_MAX VAL_MAX CAP ARENA db' base (bs ++ [g]) tlog))
  end.
Proof.
  intros g out. destruct (call_outcome_holds Hconsts db base bs tlog c Hi Hc) as [[Hf Hm] Ht]. done.
Qed.

(** ** Snapshots *)

(** The live snapshots. *)
Definition live_snapshots {D} (db : Db D) : list u64 := take (n_snapshots db) (snapshots db).

Record snapshots_ok {D} (db : Db D) : Prop := {
  sn_len : length (snapshots db) = MAX_SNAPSHOTS;
  sn_n : (n_snapshots db <= MAX_SNAPSHOTS)%nat;
}.

Lemma release_loop_spec {D} (db : Db D) snap n i :
  snapshots_ok db -> (i + n = n_snapshots db)%nat ->
  Forall (fun s => s <> snap) (take i (snapshots db)) ->
  let db' := release_loop n i db snap in
  snapshots_ok db' /\
  (live_snapshots db ≡ₚ (snap :: live_snapshots db') \/
   ((snap ∉ live_snapshots db) /\ live_snapshots db' = live_snapshots db)).
Proof.
  intros [Hl Hn]. revert i. induction n as [|n IH]; intros i Hi Hbefore; cbn [release_loop].
  { split; [by split |]. right. split; [| done]. unfold live_snapshots.
    rewrite Nat.add_0_r in Hi. rewrite <- Hi. intros Hin.
    by apply (proj1 (Forall_forall _ _) Hbefore snap Hin). }
  destruct (lookup_lt_is_Some_2 (snapshots db) i ltac:(lia)) as [x Hx].
  assert (nth i (snapshots db) 0%Z = x) as -> by (by apply nth_lookup_Some).
  destruct (x =? snap)%Z eqn:Ex; bool_lia.
  2: { apply IH; [lia |]. replace (i + 1)%nat with (S i) by lia.
       rewrite (take_S_r _ _ _ Hx). apply Forall_app. split; [done |]. constructor; [done | constructor]. }
  subst x. destruct (lookup_lt_is_Some_2 (snapshots db) (n_snapshots db - 1) ltac:(lia)) as [z Hz].
  assert (nth (n_snapshots db - 1) (snapshots db) 0%Z = z) as -> by (by apply nth_lookup_Some).
  split; [split; cbn; [by rewrite length_insert | lia] |]. left.
  unfold live_snapshots. cbn [snapshots n_snapshots set_snapshots].
  set (l := snapshots db) in *. set (k := (n_snapshots db - 1)%nat) in *.
  replace (n_snapshots db) with (S k) by lia. rewrite (take_S_r _ _ _ Hz).
  destruct (decide (i = k)) as [-> | Hik].
  - assert (z = snap) as -> by congruence. rewrite take_insert_ge by lia.
    by rewrite Permutation_app_comm.
  - rewrite take_insert_lt by lia. rewrite insert_take_drop by (rewrite length_take; lia).
    rewrite Permutation_app_comm. cbn [app].
    rewrite <- (take_drop_middle (take k l) i snap) at 1 by (rewrite lookup_take_lt by lia; done).
    rewrite <- !Permutation_middle. apply perm_swap.
Qed.

Lemma fold_min_bound l m :
  let r := fold_left (fun min s => if (s <? min)%Z then s else min) l m in
  (r = m \/ r ∈ l) /\ (r <= m)%Z /\ Forall (fun s => (r <= s)%Z) l.
Proof.
  revert m. induction l as [|s l IH]; intros m; cbn [fold_left]; [split_and!; [by left | lia | constructor] |].
  destruct (IH (if (s <? m)%Z then s else m)) as ([H1 | H1] & H2 & H3).
  - split_and!; [| destruct (s <? m)%Z eqn:E; bool_lia | constructor; [destruct (s <? m)%Z eqn:E; bool_lia | done]].
    rewrite H1. destruct (s <? m)%Z; [right; apply list_elem_of_here | by left].
  - split_and!; [by right; apply list_elem_of_further | destruct (s <? m)%Z eqn:E; bool_lia |
      constructor; [destruct (s <? m)%Z eqn:E; bool_lia | done]].
Qed.

(** C33 Snapshots are a bounded bag of sequence numbers: [snapshot] adds the current
    one or refuses exactly when the handle is closed or eight are live,
    [release_snapshot] removes one occurrence or changes nothing, and
    [oldest_snapshot_seq] is the least live one, [u64::MAX] when there is none. *)
Theorem snapshots_refine_bag {D E} (db : Db D) snap (Hok : snapshots_ok db) :
  (match snapshot (E := E) db with
   | (db', Ok s) =>
       s = next_seq db /\ opened db = true /\ (length (live_snapshots db) < MAX_SNAPSHOTS)%nat /\
       live_snapshots db' = live_snapshots db ++ [s] /\ snapshots_ok db'
   | (db', Err e) =>
       db' = db /\ (opened db = false /\ e = NotOpen \/
                    length (live_snapshots db) = MAX_SNAPSHOTS /\ e = SnapshotLimit)
   end) /\
  (let db' := release_snapshot db snap in
   snapshots_ok db' /\
   (live_snapshots db ≡ₚ (snap :: live_snapshots db') \/
    ((snap ∉ live_snapshots db) /\ live_snapshots db' = live_snapshots db))) /\
  (oldest_snapshot_seq db = U64_MAX \/ oldest_snapshot_seq db ∈ live_snapshots db) /\
  Forall (fun s => (oldest_snapshot_seq db <= s)%Z) (live_snapshots db).
Proof.
  pose proof Hok as [Hl Hn].
  assert (length (live_snapshots db) = n_snapshots db) as Hlive
    by (unfold live_snapshots; rewrite length_take; lia).
  split; [| split].
  - unfold snapshot. destruct (opened db) eqn:Eo; cbn [negb]; [| auto].
    destruct (MAX_SNAPSHOTS <=? n_snapshots db)%nat eqn:En; bool_lia.
    { split; [done |]. right. split; [lia | done]. }
    split_and!; try done; [lia | | split; cbn; [by rewrite length_insert | lia]].
    unfold live_snapshots. cbn. by rewrite insert_end by lia.
  - by apply release_loop_spec.
  - pose proof (fold_min_bound (live_snapshots db) U64_MAX) as (H1 & _ & H3). done.
Qed.

(** ** Witnesses *)

Module WriteWitness.
#[local] Instance dev : BlockDevice MemDisk.disk Empty_set := MemDisk.device 512.
#[local] Instance dev_laws : DeviceLaws MemDisk.disk Empty_set := MemDisk.laws 512.

Definition ex_db : Db MemDisk.disk :=
  set_opened (db_new (E := Empty_set) 4 8 64 1 1 0 ∅ (config_new 10 14 20 60 0 4)) true.

Lemma ex_inv : db_inv (E := Empty_set) 4 4 8 64 ex_db 10 [] [].
Proof.
  split; try done; [apply wal_new_inv | apply filled_new].
Qed.

Lemma write_call_contract_witness :
  exists db', run_db_call (E := Empty_set) 4 4 8 64 ex_db (DPutTtl [97%Z] [1%Z] 9) = (db', Ok 1%Z) /\
    db_inv (E := Empty_set) 4 4 8 64 db' 10 [[rec_of 1 PutTtl [97%Z] [1%Z] 9 false]]
      [mkEntry [97%Z] [1%Z] 1 false false 9].
Proof.
  pose proof (write_call_contract (E := Empty_set) ex_db 10 [] [] (DPutTtl [97%Z] [1%Z] 9) ex_consts ex_inv)
    as H.
  cbv zeta in H. destruct (run_db_call _ _ _ _ ex_db _) as [db' [s | e]] eqn:Er.
  - exists db'. destruct H as (_ & _ & _ & _ & H).
    + cbn. split_and!; [repeat constructor; unfold fits; lia.. | unfold fits; lia].
    + split; [| exact H]. apply (f_equal snd) in Er. vm_compute in Er. injection Er as <-. reflexivity.
  - apply (f_equal snd) in Er. vm_compute in Er. discriminate.
Defined.

Lemma snapshots_refine_bag_witness :
  live_snapshots (snapshot (E := Empty_set) ex_db).1 = [0%Z].
Proof.
  assert (snapshots_ok ex_db) as Hok by (split; cbn; [reflexivity | unfold MAX_SNAPSHOTS; lia]).
  destruct (snapshots_refine_bag (E := Empty_set) ex_db 0 Hok) as [H _].
  destruct (snapshot ex_db) as [db' [s | e]] eqn:Es.
  - destruct H as (-> & _ & _ & H & _). exact H.
  - apply (f_equal snd) in Es. vm_compute in Es. discriminate.
Defined.
End WriteWitness.
