(* ===== verification/DbOpen.v ===== *)
(** * Opening and crash recovery: [src/db/mod.rs]

    [open] finds the manifest, rebuilds the slot map from it and replays the
    log; together with the write path, what a crash at any point leaves is
    recovered. *)

From stdpp Require Import base numbers list gmap.
From Stdlib Require Import ZArith Lia.
From S2P Require Import Prelude Device Slots Cache Memtable Wal Batch Manifest ManifestPool ManifestCodec ManifestLog ManifestCrash SstPlan Db DbWrite.

(** ** Extending a log *)

Section logs.
  Context {D E : Type} `{Dev : !BlockDevice D E} {Laws : DeviceLaws D E}.

(** The blocks of the log that recovery consumes, from [id] to [id'], with the
    state of the scan at both ends. *)
Inductive log_pre (d : D) (end_ fl : u64)
  : u64 -> option u64 -> u64 -> list Decoded -> u64 -> option u64 -> u64 -> Prop :=
  | pre_nil id nt mx : log_pre d end_ fl id nt mx [] id nt mx
  | pre_block id nt mx b rs torn g id' nt' mx' :
      (id < end_)%Z -> read_block d id = Ok b -> parsed b rs torn ->
      outdated nt rs = false -> whole_groups rs <> [] ->
      tears rs torn = true \/ has_live fl (whole_groups rs) = true ->
      log_pre d end_ fl (id + 1)
        (if tears rs torn then Some (max_seq_of mx (whole_groups rs)) else None)
        (max_seq_of mx (whole_groups rs)) g id' nt' mx' ->
      log_pre d end_ fl id nt mx (whole_groups rs ++ g) id' nt' mx'.

(** Nothing of the log is at [id]: at most records the floor skips. *)
Definition quiet (d : D) (end_ fl id : u64) : Prop :=
  forall nt mx, exists g, log_on d end_ fl id nt mx g 0 /\ Forall (fun r => (d_seq r <= fl)%Z) g.

Lemma max_seq_of_ge mx g : (mx <= max_seq_of mx g)%Z /\ Forall (fun r => (d_seq r <= max_seq_of mx g)%Z) g.
Proof.
  unfold max_seq_of. revert mx. induction g as [|r g IH]; intros mx; cbn [fold_left].
  - split; [lia | constructor].
  - destruct (IH (if (mx <? d_seq r)%Z then d_seq r else mx)) as [H1 H2].
    split; [| constructor; [| done]]; destruct (mx <? d_seq r)%Z eqn:El; bool_lia.
Qed.

Lemma max_seq_of_le mx g hi :
  (mx <= hi)%Z -> Forall (fun r => (d_seq r <= hi)%Z) g -> (max_seq_of mx g <= hi)%Z.
Proof.
  unfold max_seq_of. intros Hmx Hg. revert mx Hmx. induction Hg as [|r g Hr _ IH]; intros mx Hmx; [done |].
  cbn [fold_left]. apply IH. destruct (mx <? d_seq r)%Z; lia.
Qed.

(** A log is a prefix that is consumed and an end that is not. *)
Lemma log_on_split d end_ fl id nt mx g n :
  log_on d end_ fl id nt mx g n ->
  exists g1 g2 nt', g = g1 ++ g2 /\
    log_pre d end_ fl id nt mx g1 (id + n) nt' (max_seq_of mx g1) /\
    Forall (fun r => (d_seq r <= fl)%Z) g2 /\
    ((forall z, nt = Some z -> (z <= mx)%Z) -> forall z, nt' = Some z -> (z <= max_seq_of mx g1)%Z).
Proof.
  induction 1 as [id nt mx Hend | id nt mx b rs torn Hid Hread Hp Hstop
    | id nt mx b rs torn Hid Hread Hp Ho Hne Ht Hlive
    | id nt mx b rs torn g n Hid Hread Hp Ho Hne Hgo _ IH].
  - exists [], [], nt. rewrite Z.add_0_r. split_and!; try done; constructor.
  - exists [], [], nt. rewrite Z.add_0_r. split_and!; try done; constructor.
  - exists [], (whole_groups rs), nt. rewrite Z.add_0_r. split_and!; try done; [constructor |].
    unfold has_live in Hlive. apply negb_false_iff, Z.eqb_eq in Hlive.
    clear -Hlive. induction (whole_groups rs) as [|r l IH]; [constructor |].
    rewrite live_count_cons in Hlive. assert (0 <= live_count fl l)%Z by (unfold live_count; lia).
    destruct (fl <? d_seq r)%Z eqn:El; bool_lia. constructor; [done |]. apply IH. lia.
  - destruct IH as (g1 & g2 & nt' & -> & Hpre & Hst & Hnt).
    exists (whole_groups rs ++ g1), g2, nt'. rewrite app_assoc, max_seq_of_app. split_and!; try done.
    + replace (id + (n + 1))%Z with (id + 1 + n)%Z by lia. eapply pre_block; eauto.
    + intros _. apply Hnt. intros z. destruct (tears rs torn); [| done]. intros [= <-]. lia.
Qed.

Lemma log_pre_ext d d' end_ fl id nt mx g id' nt' mx' :
  log_pre d end_ fl id nt mx g id' nt' mx' ->
  (forall i, (id <= i < id')%Z -> read_block d' i = read_block d i) ->
  (id <= id')%Z /\ log_pre d' end_ fl id nt mx g id' nt' mx'.
Proof.
  intros H. induction H as [id nt mx | id nt mx b rs torn g id' nt' mx' Hid Hread Hp Ho Hne Hgo Hpre IH].
  - intros _. split; [lia | constructor].
  - intros Hext. assert (id + 1 <= id')%Z as Hle.
    { clear -Hpre. revert Hpre. generalize (id + 1)%Z. intros i H. induction H; lia. }
    destruct IH as [_ IH]; [intros i Hi; apply Hext; lia |].
    split; [lia |]. eapply pre_block; eauto. rewrite Hext by lia. done.
Qed.

Lemma log_pre_on d end_ fl id nt mx g id' nt' mx' g' n :
  log_pre d end_ fl id nt mx g id' nt' mx' -> log_on d end_ fl id' nt' mx' g' n ->
  log_on d end_ fl id nt mx (g ++ g') (id' - id + n).
Proof.
  induction 1 as [id nt mx | id nt mx b rs torn g id' nt' mx' Hid Hread Hp Ho Hne Hgo Hpre IH].
  - intros H. by replace (id - id + n)%Z with n by lia.
  - intros H. rewrite <- app_assoc. replace (id' - id + n)%Z with (id' - (id + 1) + n + 1)%Z by lia.
    eapply log_block; eauto.
Qed.

(** Blocks written by the running handle continue a log, torn or not. *)
Lemma log_on_blocks_after d end_ fl bs base nt mx g n :
  log_at d base bs -> Forall good_block bs -> ascending None (concat bs) ->
  Forall (fun r => (fl < d_seq r)%Z) (concat bs) ->
  bs = [] \/ (base + Z.of_nat (length bs) <= end_)%Z ->
  (forall z, nt = Some z -> Forall (fun r => (z < d_seq r)%Z) (concat bs)) ->
  log_on d end_ fl (base + Z.of_nat (length bs)) (if decide (bs = []) then nt else None)
    (max_seq_of mx (concat bs)) g n ->
  log_on d end_ fl base nt mx (concat bs ++ g) (Z.of_nat (length bs) + n).
Proof.
  intros Hlog Hgood Hasc Hfl Hend Hnt Htail. destruct bs as [|b bs].
  { cbn in *. by rewrite Z.add_0_r in Htail. }
  rewrite decide_False in Htail by done. cbn [concat log_at length] in *.
  destruct Hlog as [Hread Hlog]. destruct Hend as [? | Hend]; [done |].
  apply Forall_cons in Hgood as [(Hok & Hlen & Hne & Hc) Hgood].
  pose proof Hfl as Hfl0. apply Forall_app in Hfl as [Hflb Hfl].
  rewrite max_seq_of_app in Htail.
  pose proof (ascending_app_l _ _ _ Hasc) as Hascb. apply ascending_app_r in Hasc.
  replace (Z.of_nat (S (length bs)) + n)%Z with (Z.of_nat (length bs) + n + 1)%Z by lia.
  rewrite <- app_assoc. unfold closed in Hc. rewrite <- Hc at 1.
  apply (log_block d end_ fl base nt mx (block_of b) b false); try done; try (by rewrite Hc); [lia | | | |].
  - by apply parsed_block_of.
  - unfold outdated. destruct nt as [z|]; [| done]. unfold first_seq_of. destruct b as [|r b]; [done |]. cbn.
    specialize (Hnt z eq_refl). cbn [app] in Hnt. apply Forall_cons in Hnt as [Hz _]. apply Z.leb_gt. lia.
  - right. rewrite Hc. by apply has_live_all.
  - rewrite tears_closed, Hc by done. apply log_on_blocks; try done; [right; lia |].
    by replace (base + 1 + Z.of_nat (length bs))%Z with (base + Z.of_nat (S (length bs)))%Z by lia.
Qed.

Lemma log_on_recs d end_ fl id nt mx g n : log_on d end_ fl id nt mx g n -> Forall rec_ok g.
Proof.
  assert (forall b rs torn, parsed b rs torn -> Forall rec_ok (whole_groups rs)) as Hw.
  { intros b rs torn (Hok & _). destruct (whole_groups_prefix rs) as [x Hx]. rewrite Hx in Hok.
    by apply Forall_app in Hok as [? _]. }
  induction 1; try constructor; [by eapply Hw |]. apply Forall_app. split; [by eapply Hw | done].
Qed.
End logs.

(** ** Replaying what the floor lets through *)

Definition unflushed (fl : u64) (g : list Decoded) : list Decoded :=
  List.filter (fun r => (fl <? d_seq r)%Z) g.

Lemma unflushed_app fl a b : unflushed fl (a ++ b) = unflushed fl a ++ unflushed fl b.
Proof. apply List.filter_app. Qed.

Lemma unflushed_stale fl g : Forall (fun r => (d_seq r <= fl)%Z) g -> unflushed fl g = [].
Proof.
  induction 1 as [|r g Hr _ IH]; [done |]. cbn. rewrite (proj2 (Z.ltb_ge _ _)) by done. done.
Qed.

Lemma unflushed_all fl g : Forall (fun r => (fl < d_seq r)%Z) g -> unflushed fl g = g.
Proof.
  induction 1 as [|r g Hr _ IH]; [done |]. cbn. rewrite (proj2 (Z.ltb_lt _ _)) by done.
  by unfold unflushed in IH; rewrite IH.
Qed.

Lemma unflushed_above fl g : Forall (fun r => (fl < d_seq r)%Z) (unflushed fl g).
Proof.
  apply Forall_forall. intros r [_ Hr]%list_elem_of_In%filter_In. lia.
Qed.

Lemma unflushed_sub fl g (P : Decoded -> Prop) : Forall P g -> Forall P (unflushed fl g).
Proof.
  rewrite !Forall_forall. intros H r [Hr _]%list_elem_of_In%filter_In. by apply H, list_elem_of_In.
Qed.

Lemma ascending_join a b :
  ascending None a -> ascending None b ->
  Forall (fun x => Forall (fun y => (d_seq x < d_seq y)%Z) b) a -> ascending None (a ++ b).
Proof.
  revert a. apply (rev_ind (fun a => ascending None a -> ascending None b ->
    Forall (fun x => Forall (fun y => (d_seq x < d_seq y)%Z) b) a -> ascending None (a ++ b))); [done |].
  intros x a IH Ha Hb Hab. apply Forall_app in Hab as [Hab Hx].
  apply Forall_cons in Hx as [Hx _]. rewrite <- app_assoc. cbn [app].
  assert (forall last l, ascending last (l ++ [x]) -> ascending None b -> ascending last (l ++ x :: b)) as Hgen.
  { clear -Hx. intros last l. revert last. induction l as [|z l IH]; intros last; cbn [app ascending].
    - intros [H _] Hb. split; [done |]. destruct b as [|y b]; [done |]. cbn in Hb |- *.
      apply Forall_cons in Hx as [Hx _]. split; [done | apply Hb].
    - intros [H Hl] Hb. split; [done | by apply IH]. }
  by apply Hgen.
Qed.

(** The log can be replayed into an empty memtable. *)
Record replays (CAP ARENA KEY_MAX VAL_MAX : nat) (rs : list Decoded) : Prop := {
  rp_asc : ascending None rs;
  rp_sizes : Forall (fun r => sizes_ok (KEY_MAX := KEY_MAX) (VAL_MAX := VAL_MAX) (rec_mut r)) rs;
  rp_cap : (length rs <= CAP)%nat;
  rp_arena : (log_bytes (map rec_entry rs) <= ARENA)%nat;
}.

Section recovering.
  Context {D E : Type} `{Dev : !BlockDevice D E} {Laws : DeviceLaws D E}.
  Context {KEY_MAX VAL_MAX CAP ARENA : nat}.
  Hypothesis Hconsts : consts_ok CAP ARENA KEY_MAX VAL_MAX.

Lemma replay_all_unflushed fl g : forall t,
  replay_all (CAP := CAP) (ARENA := ARENA) (KEY_MAX := KEY_MAX) (VAL_MAX := VAL_MAX) (E := E) fl t g =
  replay_all (CAP := CAP) (ARENA := ARENA) (KEY_MAX := KEY_MAX) (VAL_MAX := VAL_MAX) (E := E) fl t
    (unflushed fl g).
Proof.
  induction g as [|r g IH]; intros t; [done |]. unfold unflushed. cbn [List.filter replay_all].
  destruct (fl <? d_seq r)%Z eqn:El; [| apply IH]. cbn [replay_all]. rewrite El.
  destruct (replay_record _ _ _ _ t r); [apply IH | done].
Qed.

Lemma recover_live (w : WalWriter D) t0 from fl g n :
  (512 <= BLOCK)%nat -> length (stage w) = BLOCK -> bytes_ok (stage w) ->
  filled E CAP ARENA KEY_MAX VAL_MAX t0 [] ->
  log_on (device w) (wal_end w) fl from None 0 g n -> replays CAP ARENA KEY_MAX VAL_MAX (unflushed fl g) ->
  exists w' t,
    Wal.recover_from CAP ARENA KEY_MAX VAL_MAX w t0 from fl =
      (w', t, Ok (mkRecover (Z.of_nat (length (unflushed fl g))) (max_seq_of 0 g) n)) /\
    filled E CAP ARENA KEY_MAX VAL_MAX t (rev (map rec_entry (unflushed fl g))) /\
    stage_inv w' [] /\ group_open w' = false /\ next_block w' = (from + n)%Z /\
    device w' = device w /\ wal_start w' = wal_start w /\ wal_end w' = wal_end w.
Proof.
  intros Hmin Hl Hb Ht0 Hlog [Hasc Hsz Hcap Har].
  destruct (replay_all_filled (E := E) Hconsts fl (unflushed fl g) t0 []) as (t & Hrep & Hf);
    try done; [apply unflushed_above | by intros e He%elem_of_nil |].
  rewrite app_nil_r in Hf. rewrite <- replay_all_unflushed in Hrep.
  destruct (recover_loop_spec _ _ _ _ _ _ _ _ Hmin Hlog (S (Z.to_nat (wal_end w - from)))
    (stage w) from t0 t 0 0 ltac:(lia) ltac:(lia) Hrep) as [Ht Hr].
  destruct (recover_loop_stage CAP ARENA KEY_MAX VAL_MAX (S (Z.to_nat (wal_end w - from)))
    (device w) (stage w) (wal_end w) from fl t0 (mkRecover 0 0 0) None Hl Hb) as [Hs1 Hs2].
  unfold Wal.recover_from. destruct (recover_loop _ _ _ _ _ _ _ _ _ _ _ _ _) as [[st t'] r].
  cbn [fst snd] in *. subst t' r. rewrite !Z.add_0_l.
  eexists _, t. split; [reflexivity |]. split; [done |].
  split; [| done]. split; cbn [stage stage_len dirty_to]; try done.
  - split; lia.
  - rewrite Nat.max_r by lia. rewrite drop_ge by lia. constructor.
Qed.
End recovering.

(** ** The slot map of the manifest's tables *)

(** The tables sit in the slots [ss]. *)
Definition sits (sl : SlotMap) (ts : list TableRef) (ss : list Z) : Prop :=
  Forall2 (fun t s => Slots.slot_of sl (first_block t) (block_count t) = Some s) ts ss.

Definition same_geometry (a b : SlotMap) : Prop :=
  Slots.base a = Slots.base b /\ slot_blocks a = slot_blocks b /\ Slots.slots a = Slots.slots b.

#[export] Instance same_geometry_equiv : Equivalence same_geometry.
Proof.
  unfold same_geometry. split; [done | intros a b (? & ? & ?); done |].
  intros a b c (? & ? & ?) (? & ? & ?). split_and!; congruence.
Qed.

#[export] Instance slot_of_proper : Proper (same_geometry ==> eq ==> eq ==> eq) Slots.slot_of.
Proof. intros a b (H1 & H2 & H3) f ? <- n ? <-. unfold Slots.slot_of. by rewrite H1, H2, H3. Qed.

Lemma mark_used_geometry m s : same_geometry (mark_used m s).1 m.
Proof. unfold mark_used. by destruct (_ || _). Qed.

Lemma set_hint_geometry m s : same_geometry (set_hint_after m s) m.
Proof. unfold set_hint_after. by destruct (0 <? _)%Z. Qed.

Lemma set_hint_status m s i : status_of (set_hint_after m s) i = status_of m i.
Proof. unfold set_hint_after. by destruct (0 <? _)%Z. Qed.

Lemma Forall2_in_r {A B} (P : A -> B -> Prop) l k y :
  Forall2 P l k -> y ∈ k -> exists x, x ∈ l /\ P x y.
Proof.
  intros H Hy. apply list_elem_of_lookup in Hy as [i Hi].
  destruct (Forall2_lookup_r _ _ _ _ _ H Hi) as (x & Hx & Hp). exists x. split; [| done].
  by eapply list_elem_of_lookup_2.
Qed.

Section rebuild.
  Context {E : Type}.

(** What the loop over the tables does to a well-formed map without reservations. *)
Lemma rebuild_slots_spec ts : forall sl newest,
  Slots.wf sl -> Slots.reserved sl = 0%Z ->
  Forall (fun t => (0 <= first_block t)%Z /\ (0 <= block_count t)%Z) ts ->
  match rebuild_slots (E := E) sl newest ts with
  | Ok (sl', _) =>
      exists ss, sits sl ts ss /\ NoDup ss /\ Forall (fun s => status_of sl s = Free) ss /\
        Slots.wf sl' /\ Slots.reserved sl' = 0%Z /\ same_geometry sl' sl /\
        forall i, (0 <= i)%Z -> status_of sl' i = if decide (i ∈ ss) then Used else status_of sl i
  | Err e =>
      e = CorruptManifest /\
      forall ss, sits sl ts ss -> NoDup ss -> Forall (fun s => status_of sl s = Free) ss -> False
  end.
Proof.
  induction ts as [|t ts IH]; intros sl newest Hw Hr Hts; cbn [rebuild_slots].
  { exists []. split; [constructor |]. split; [constructor |]. split; [constructor |].
    by split_and!. }
  apply Forall_cons in Hts as [[Hf Hb] Hts].
  destruct (Slots.slot_of sl (first_block t) (block_count t)) as [s|] eqn:Es.
  2: { split; [done |]. intros ss Hs. inversion Hs. congruence. }
  pose proof (proj1 (Slots.slot_of_spec sl _ _ s Hw Hf Hb) Es) as (Hv & _).
  pose proof (mark_used_refines sl s Hw Hr (proj1 Hv)) as Hm.
  pose proof (mark_used_geometry sl s) as Hg.
  destruct (mark_used sl s) as [sl1 [|]]; cbn [fst] in Hg.
  2: { split; [done |]. intros ss Hs _ Hfree. inversion Hs as [| ? s' ? ss' Hs' _]; subst.
       rewrite Es in Hs'. injection Hs' as <-. apply Forall_cons in Hfree as [Hfree _].
       destruct Hm as [_ [H | H]]; [done | congruence]. }
  destruct Hm as (Hw1 & Hr1 & _ & Hfree & Hst). cbv zeta.
  match goal with |- context [rebuild_slots sl1 ?x ts] => set (nw := x) end.
  assert (forall s', s' <> s -> (0 <= s')%Z -> status_of sl1 s' = status_of sl s') as Hother.
  { intros s' Hne Hp. rewrite Hst by done. unfold set_status. by rewrite (proj2 (Z.eqb_neq _ _)). }
  assert (status_of sl1 s = Used) as Hself by (rewrite Hst by apply Hv; unfold set_status; by rewrite Z.eqb_refl).
  assert (forall ss, sits sl1 ts ss <-> sits sl ts ss) as Hsits.
  { intros ss. unfold sits. split; intros H; eapply Forall2_impl; try exact H; cbn; intros x y Hxy;
      [rewrite <- Hg | rewrite Hg]; done. }
  specialize (IH sl1 nw Hw1 Hr1 Hts). destruct (rebuild_slots sl1 nw ts) as [[sl' nw'] | e].
  - destruct IH as (ss & H1 & H2 & H3 & H4 & H5 & H6 & H7). exists (s :: ss).
    assert (s ∉ ss) as Hni.
    { intros Hin. pose proof (proj1 (Forall_forall _ _) H3 s Hin) as Hq. cbn in Hq. congruence. }
    split_and!; try done.
    + constructor; [done | by apply Hsits].
    + by constructor.
    + constructor; [done |]. apply Forall_forall. intros x Hx.
      pose proof (proj1 (Forall_forall _ _) H3 x Hx) as Hq. cbn in Hq. rewrite <- Hq. symmetry.
      apply Hother; [by intros -> |]. destruct (Forall2_in_r _ _ _ _ H1 Hx) as (y & Hy & Hxy).
      pose proof (proj1 (Forall_forall _ _) Hts y Hy) as [? ?].
      by apply (Slots.slot_of_spec sl1) in Hxy as [[? _] _].
    + by etrans.
    + intros i Hi. rewrite H7 by done. destruct (decide (i = s)) as [-> | Hne].
      * rewrite (decide_False (P := s ∈ ss)), decide_True by (done || apply list_elem_of_here). done.
      * destruct (decide (i ∈ ss)) as [Hin | Hin].
        -- by rewrite decide_True by (by apply list_elem_of_further).
        -- rewrite decide_False; [by apply Hother |]. by intros [? | ?]%elem_of_cons.
  - destruct IH as [-> Hno]. split; [done |]. intros ss0 Hs Hnd Hfr.
    inversion Hs as [| ? s' ? ss' Hs' Hss]; subst. rewrite Es in Hs'. injection Hs' as <-.
    apply NoDup_cons in Hnd as [Hni Hnd]. apply Forall_cons in Hfr as [_ Hfr].
    apply (Hno ss'); [by apply Hsits | done |]. apply Forall_forall. intros x Hx.
    rewrite Hother; [by apply (proj1 (Forall_forall _ _) Hfr) | by intros -> |].
    destruct (Forall2_in_r _ _ _ _ Hss Hx) as (y & Hy & Hxy).
    pose proof (proj1 (Forall_forall _ _) Hts y Hy) as [? ?].
    by apply (Slots.slot_of_spec sl) in Hxy as [[? _] _].
Qed.
End rebuild.

(** ** Opening *)

Section opening.
  Context {D E : Type} `{Dev : !BlockDevice D E} {Laws : DeviceLaws D E}.
  Context {KEY_MAX VAL_MAX CAP ARENA LEVELS TABLES : nat}.
  Implicit Types db : Db D.

  Abbreviation stride := (stride (D := D) (E := E) LEVELS TABLES KEY_MAX).
  Abbreviation MIN_SLOT := (MIN_SLOT_BLOCKS (D := D) (E := E) KEY_MAX VAL_MAX CAP ARENA).
  Abbreviation open db := (open (D := D) (E := E) KEY_MAX VAL_MAX CAP ARENA LEVELS TABLES db).

(** The compile-time assertions of [Db::new], and the least block of the log. *)
Record db_shape : Prop := {
  sh_consts : consts_ok CAP ARENA KEY_MAX VAL_MAX;
  sh_block : (512 <= BLOCK)%nat;
  sh_u32 : (Z.of_nat BLOCK <= U32_MAX)%Z;
  sh_slots : shape_ok LEVELS TABLES;
  sh_manifest : (stride <= U16_MAX)%Z;
}.

Record cfg_typed (c : Config) : Prop := {
  ct_wal : (0 <= c_wal_start c <= U64_MAX)%Z /\ (0 <= c_wal_end c <= U64_MAX)%Z;
  ct_tbl : (0 <= c_tbl_start c <= U64_MAX)%Z /\ (0 <= c_tbl_end c <= U64_MAX)%Z;
}.

(** A handle of this shape over [d], open or not. *)
Record handle_on db (d : D) (c : Config) : Prop := {
  ho_cfg : cfg db = c;
  ho_device : device (db_wal db) = d;
  ho_region : wal_start (db_wal db) = c_wal_start c /\ wal_end (db_wal db) = c_wal_end c;
  ho_stage : length (stage (db_wal db)) = BLOCK /\ bytes_ok (stage (db_wal db));
  ho_table : exists log, filled E CAP ARENA KEY_MAX VAL_MAX (db_table db) log;
}.

Lemma check_regions_copies c :
  check_regions (D := D) (E := E) KEY_MAX LEVELS TABLES c = Ok tt ->
  let lay := manifest_layout c in
  forall k, (k < copies lay)%nat ->
    (copy_start lay k stride + stride <= c_wal_start c \/ c_wal_end c <= copy_start lay k stride)%Z /\
    forall j, (j < k)%nat ->
      (copy_start lay k stride + stride <= copy_start lay j stride \/
       copy_start lay j stride + stride <= copy_start lay k stride)%Z.
Proof.
  unfold check_regions. cbv zeta. destruct (_ || _ || _); [done |].
  destruct (forallb _ _) eqn:Ef; [| done]. intros _ k Hk.
  rewrite forallb_forall in Ef. specialize (Ef k). rewrite in_seq in Ef. specialize (Ef ltac:(lia)).
  unfold check_copy, u64_checked_add in Ef. cbv zeta in Ef.
  destruct (U64_MAX <? _)%Z; [done |]. unfold disjoint in Ef. cbn [fst snd] in Ef.
  apply andb_true_iff in Ef as [Ef Hbelow]. apply andb_true_iff in Ef as [Hwal _].
  rewrite orb_true_iff, !Z.leb_le in Hwal. split; [done |]. intros j Hj.
  unfold check_copies_below in Hbelow. rewrite forallb_forall in Hbelow. specialize (Hbelow j).
  rewrite in_seq in Hbelow. specialize (Hbelow ltac:(lia)). cbv zeta in Hbelow.
  unfold disjoint in Hbelow. cbn [fst snd] in Hbelow. by rewrite orb_true_iff, !Z.leb_le in Hbelow.
Qed.

Lemma manifest_copies c : (2 <= copies (manifest_layout c))%nat.
Proof.
  unfold manifest_layout, copies, layout_pair, layout_ring.
  destruct (c_manifest_ring c =? 0)%nat eqn:E0; cbn [lay_ring Nat.eqb]; [lia |].
  destruct (c_manifest_ring c <? 2)%nat eqn:E2; cbn [lay_ring]; [done |]. bool_lia.
  rewrite (proj2 (Nat.eqb_neq _ _)) by lia. lia.
Qed.

Lemma regions_log_shape c :
  db_shape -> check_regions (D := D) (E := E) KEY_MAX LEVELS TABLES c = Ok tt ->
  log_shape (D := D) (E := E) LEVELS TABLES KEY_MAX (manifest_layout c).
Proof.
  intros [] Hc. split; try done; [lia | apply manifest_copies |].
  intros j k Hj Hk Hne. pose proof (check_regions_copies c Hc) as Hd. cbv zeta in Hd.
  destruct (decide (j < k)%nat).
  - destruct (Hd k Hk) as [_ H]. destruct (H j ltac:(lia)); auto.
  - destruct (Hd j Hj) as [_ H]. destruct (H k ltac:(lia)); auto.
Qed.

(** What the device holds: a manifest [m], its tables in slots of their own, and
    the log [g] over [n] blocks from the manifest's head. *)
Record recoverable (d : D) (c : Config) (m : Manifest) (ss : list Z) (g : list Decoded) (n : u64)
  : Prop := {
  rv_regions : check_regions (D := D) (E := E) KEY_MAX LEVELS TABLES c = Ok tt;
  rv_slots : exists sl, layout (c_tbl_start c) (c_tbl_end c) (SLOTS LEVELS TABLES) MIN_SLOT = Some sl /\
    sits sl (tables m) ss /\ NoDup ss;
  rv_manifest : exists md Td fresh,
    on_disk LEVELS TABLES KEY_MAX (manifest_layout c) d md Td fresh /\
    m = if fresh then set_wal_head md (c_wal_start c) else md;
  rv_head : (c_wal_start c <= wal_head m)%Z;
  rv_floor : (flushed_seq m <= seq_high m)%Z;
  rv_log : log_on d (c_wal_end c) (flushed_seq m) (wal_head m) None 0 g n;
  rv_replays : replays CAP ARENA KEY_MAX VAL_MAX (unflushed (flushed_seq m) g);
}.

Lemma closed_on_error db :
  match open db with
  | (db', Ok _) => opened db' = true
  | (db', Err _) => opened db' = false
  end.
Proof.
  unfold Db.open. cbv zeta.
  destruct (check_regions _ _ _ _); [| done]. destruct (layout _ _ _ _) as [sl|]; [| done].
  destruct (recover_from _ _ _ _ _) as [[m fresh] | e]; [| done].
  destruct (rebuild_slots sl None _) as [[sl' nw] | e]; [| done].
  unfold open_wal. destruct (Wal.recover_from _ _ _ _ _ _ _ _) as [[w t] [st | e]]; done.
Qed.

Lemma tables_ref_ok m T : man_ok LEVELS TABLES KEY_MAX m T -> Forall (ref_ok KEY_MAX) (tables m).
Proof.
  intros [Hr _ Hrefs _ _ _ _ _]. by rewrite (tables_repr LEVELS TABLES KEY_MAX m T Hr).
Qed.
Lemma max_seq_refs m :
  Forall (ref_ok KEY_MAX) (tables m) -> (0 <= Manifest.max_seq m <= U64_MAX)%Z.
Proof.
  unfold Manifest.max_seq. induction 1 as [|t l [] _ IH]; [cbn; unfold U64_MAX; lia |].
  rewrite fmap_cons. cbn [foldr]. unfold fits, U64_MAX in *.
  lia.
Qed.

(** Opening a recoverable device. *)
Lemma open_spec db d c m ss g n :
  db_shape -> cfg_typed c -> handle_on db d c -> recoverable d c m ss g n ->
  let fl := flushed_seq m in
  let sq := Z.max (Z.max (max_seq_of 0 g) (seq_high m)) (Manifest.max_seq m) in
  exists db', open db = (db', Ok (mkOpenReport (Z.of_nat (length (unflushed fl g))) sq (length (l0 m)))) /\
    db_inv (E := E) KEY_MAX VAL_MAX CAP ARENA db' (wal_head m + n) []
      (rev (map rec_entry (unflushed fl g))) /\
    next_seq db' = sq /\ db_manifest db' = m /\ handle_on db' d c /\
    next_block (db_wal db') = (wal_head m + n)%Z /\ job_active db' = false /\
    Slots.wf (db_slots db') /\
    forall i, (0 <= i)%Z -> status_of (db_slots db') i = if decide (i ∈ ss) then Used else Free.
Proof.
  intros Hsh [Hwal Htbl] [Hcfg Hdev [Hws Hwe] [Hsl Hsb] [log Hlog]]
    [Hreg (sl & Hlay & Hsits & Hnd) (md & Td & fresh & Hdisk & Hm) Hhead _ Hon Hrep] fl sq.
  pose proof (regions_log_shape c Hsh Hreg) as Hls. destruct Hsh as [Hconsts Hblk _ Hslots _].
  pose proof (recover_on_disk LEVELS TABLES KEY_MAX _ d md Td fresh Hls Hdisk) as Hrec.
  pose proof (od_ok _ _ _ _ _ _ _ _ Hdisk) as Hmok.
  assert (Forall (ref_ok KEY_MAX) (tables m)) as Hrefs.
  { pose proof (tables_ref_ok _ _ Hmok) as H. rewrite Hm. by destruct fresh. }
  assert (fits 64 (seq_high m)) as Hhigh by (rewrite Hm; destruct fresh; apply Hmok).
  pose proof (max_seq_refs m Hrefs) as Hmax.
  destruct (layout_wf _ _ (SLOTS LEVELS TABLES) _ _ (proj1 (proj1 Htbl)) ltac:(unfold SLOTS; lia)
    (proj2 (proj2 Htbl)) Hlay)
    as (Hslw & Hslr & Hslu).
  unfold Db.open, close_handle. cbn [cfg db_wal]. rewrite Hcfg, Hreg, Hlay, Hdev, Hrec, <- Hm.
  assert (Forall (fun t => (0 <= first_block t)%Z /\ (0 <= block_count t)%Z) (tables m)) as Hpos.
  { eapply Forall_impl; [exact Hrefs |]. intros t []. unfold fits in *. lia. }
  pose proof (rebuild_slots_spec (E := E) (tables m) sl None Hslw Hslr Hpos) as Hrb.
  assert (forall i, status_of sl i = Free) as Hfree.
  { intros i. unfold status_of. by rewrite Hslu, Hslr, Z.bits_0. }
  destruct (rebuild_slots sl None (tables m)) as [[sl' nw] | e].
  2: { exfalso. destruct Hrb as [_ Hno]. apply (Hno ss Hsits Hnd). by apply Forall_forall. }
  destruct Hrb as (ss' & Hsits' & Hnd' & _ & Hw' & Hr' & Hgeo & Hst).
  assert (ss' = ss) as ->.
  { clear -Hsits Hsits'. revert ss Hsits. induction Hsits' as [|t s ts ss' Hts _ IH];
      intros ss Hs; inversion Hs; subst; [done |]. f_equal; [congruence | by apply IH]. }
  set (slots := match nw with Some (_, slot) => _ | None => _ end).
  assert (Slots.wf slots /\ forall i, status_of slots i = status_of sl' i) as [Hwf Hstat].
  { unfold slots. destruct nw as [[id s]|]; [| done].
    split; [by apply set_hint_after_wf | intros i; apply set_hint_status]. }
  unfold open_wal. cbn [db_manifest db_wal db_table set_slots set_manifest job_active job_inputs].
  fold fl.
  destruct (recover_live Hconsts (db_wal db) (clear (db_table db)) (wal_head m) fl g n Hblk Hsl Hsb)
    as (w & t & -> & Hf & Hsti & Hg & Hnb & Hd & Hs & He).
  { eapply filled_clear, Hlog. }
  { rewrite Hdev, Hwe. exact Hon. }
  { exact Hrep. }
  eexists. split; [reflexivity |]. cbn [rs_max_seq records]. fold sq.
  pose proof (log_on_recs _ _ _ _ _ _ _ _ Hon) as Hrecs.
  assert (0 <= max_seq_of 0 g <= U64_MAX)%Z as Hg0.
  { split; [apply max_seq_of_ge |]. apply max_seq_of_le; [unfold U64_MAX; lia |].
    eapply Forall_impl; [exact Hrecs |]. intros r []. unfold fits, U64_MAX in *. lia. }
  split_and!; try done.
  - split; cbn; try done; [| unfold sq, fits, U64_MAX in *; lia |].
    + split; cbn; try done; [rewrite Hnb; lia | by left].
    + apply Forall_rev, Forall_map. apply unflushed_sub.
      eapply Forall_impl; [exact (proj2 (max_seq_of_ge 0 g)) |]. cbn. intros r Hr.
      rewrite rec_entry_seq. unfold sq. lia.
  - split; cbn; try done; [congruence | by rewrite Hs, He | | by eexists].
    split; apply Hsti.
  - cbn. intros i Hi. rewrite Hstat, Hst by done. by rewrite Hfree.
Qed.

(** ** Histories *)

(** Calls on the handle, with their results. *)
Inductive runs (db0 : Db D) : list (db_call * result u64 (Error E)) -> Db D -> Prop :=
  | runs_nil : runs db0 [] db0
  | runs_snoc tr db c db' r :
      runs db0 tr db -> call_typed KEY_MAX VAL_MAX c ->
      run_db_call KEY_MAX VAL_MAX CAP ARENA db c = (db', r) -> runs db0 (tr ++ [(c, r)]) db'.

(** The entries the callers were told are durable, oldest first. *)
Definition acked (tr : list (db_call * result u64 (Error E))) : list Entry :=
  concat (map (fun cr => match cr.2 with
                         | Ok s => map rec_entry (call_recs s cr.1)
                         | Err _ => [] end) tr).

(** The blocks a history logs: the group of every successful call, and of calls
    that failed with a device error possibly theirs, always whole. *)
Inductive logged_as : list (db_call * result u64 (Error E)) -> list (list Decoded) -> Prop :=
  | logged_nil : logged_as [] []
  | logged_ok tr bs c s :
      logged_as tr bs -> call_recs s c <> [] -> logged_as (tr ++ [(c, Ok s)]) (bs ++ [call_recs s c])
  | logged_noop tr bs c s :
      logged_as tr bs -> call_recs s c = [] -> logged_as (tr ++ [(c, Ok s)]) bs
  | logged_refused tr bs c e : logged_as tr bs -> logged_as (tr ++ [(c, Err e)]) bs
  | logged_landed tr bs c e s :
      logged_as tr bs -> logged_as (tr ++ [(c, Err (Device e))]) (bs ++ [call_recs s c]).

Lemma logged_as_nil bs : logged_as [] bs -> bs = [].
Proof.
  intros H. remember [] as tr eqn:Ht. destruct H; [done | by apply app_nil in Ht as [_ ?]..].
Qed.

(** The group of a successful call is in the log. *)
Lemma logged_as_ok tr c s bs :
  logged_as (tr ++ [(c, Ok s)]) bs -> call_recs s c <> [] ->
  exists bs', bs = bs' ++ [call_recs s c] /\ logged_as tr bs'.
Proof.
  intros H Hne. remember (tr ++ [(c, Ok s)]) as t eqn:Ht.
  destruct H; [by apply app_cons_not_nil in Ht | ..]; apply app_inj_tail in Ht as [-> Ht];
    [injection Ht as -> -> | injection Ht as -> -> | done..]; [eauto | done].
Qed.

Lemma call_recs_seqs sq c :
  Forall (fun r => (sq <= d_seq r < sq + Z.of_nat (length (call_recs sq c)))%Z) (call_recs sq c).
Proof.
  destruct c as [k v | k | s e | k v exp | b]; cbn [call_recs].
  - constructor; [cbn; lia | constructor].
  - constructor; [cbn; lia | constructor].
  - destruct (bytes_leb e s); constructor; [cbn; lia | constructor].
  - constructor; [cbn; lia | constructor].
  - rewrite op_recs_length. apply op_recs_seqs.
Qed.

Lemma call_recs_nil s s' c : call_recs s c = [] -> call_recs s' c = [].
Proof.
  destruct c as [k v | k | a b | k v exp | b]; cbn [call_recs]; try done.
  - by destruct (bytes_leb b a).
  - intros H. apply (f_equal length) in H. rewrite op_recs_length in H.
    apply nil_length_inv. by rewrite op_recs_length.
Qed.

Lemma acked_snoc tr c r :
  acked (tr ++ [(c, r)]) =
  acked tr ++ match r with Ok s => map rec_entry (call_recs s c) | Err _ => [] end.
Proof. unfold acked. rewrite map_app, concat_app. cbn. by rewrite app_nil_r. Qed.

Lemma concat_snoc {A} (bs : list (list A)) g : concat (bs ++ [g]) = concat bs ++ g.
Proof. rewrite concat_app. cbn. by rewrite app_nil_r. Qed.

(** No call has failed since the last one that logged a group. *)
Definition settle (b : bool) (cr : db_call * result u64 (Error E)) : bool :=
  match cr.2 with
  | Ok s => if decide (call_recs s cr.1 = []) then b else true
  | Err _ => false
  end.

Definition settled (tr : list (db_call * result u64 (Error E))) : bool := fold_left settle tr true.

Lemma settled_snoc tr cr : settled (tr ++ [cr]) = settle (settled tr) cr.
Proof. unfold settled. by rewrite fold_left_app. Qed.

Lemma inv_position db base bs tlog :
  db_inv (E := E) KEY_MAX VAL_MAX CAP ARENA db base bs tlog ->
  next_block (db_wal db) = (base + Z.of_nat (length bs))%Z.
Proof. by intros [_ [_ _ Hn _ _ _ _] _ _ _ _ _ _]. Qed.

Lemma reaches_next b (w0 w w' : WalWriter D) :
  reaches b w0 w -> reaches true w w' -> (next_block w < next_block w')%Z -> reaches true w0 w'.
Proof.
  intros [H1 H2] [H3 H4] Hlt. split; [lia |]. intros id Hid. rewrite H4, H2 by (destruct b; lia). done.
Qed.

Lemma runs_spec db0 base t0 tr db :
  consts_ok CAP ARENA KEY_MAX VAL_MAX ->
  db_inv (E := E) KEY_MAX VAL_MAX CAP ARENA db0 base [] t0 -> runs db0 tr db ->
  exists bs, logged_as tr bs /\
    db_inv (E := E) KEY_MAX VAL_MAX CAP ARENA db base bs (rev (acked tr) ++ t0) /\
    sublist (acked tr) (map rec_entry (concat bs)) /\
    (next_seq db0 <= next_seq db)%Z /\ Forall (fun r => (next_seq db0 < d_seq r)%Z) (concat bs) /\
    (forall lo, touches lo (db_wal db0) (db_wal db)) /\ reaches (settled tr) (db_wal db0) (db_wal db).
Proof.
  intros Hconsts Hi. induction 1 as [| tr db c db' r _ IH Hc Hrun].
  { exists []. split_and!; try done; try constructor; done. }
  destruct IH as (bs & Hlog & Hinv & Hsub & Hle & Hnew & Htch & Hrea).
  pose proof (call_reaches (E := E) (KEY_MAX := KEY_MAX) (VAL_MAX := VAL_MAX) (CAP := CAP) (ARENA := ARENA) db c) as Hcr. rewrite Hrun in Hcr. cbn [fst snd] in Hcr.
  pose proof (reaches_trans _ _ _ _ _ Hrea Hcr) as Hrea'. rewrite settled_snoc. unfold settle. cbn [fst snd].
  destruct (call_outcome_holds Hconsts db base bs _ c Hinv Hc) as [[_ Hout] Ht].
  rewrite Hrun in Hout, Ht. cbn [fst] in Ht.
  assert (forall lo, touches lo (db_wal db0) (db_wal db')) as Htch' by (intros lo; etrans; [apply Htch | apply Ht]).
  set (g := call_recs (next_seq db + 1) c) in *.
  assert (Forall (fun r => (next_seq db0 < d_seq r)%Z) g) as Hgnew.
  { eapply Forall_impl; [apply call_recs_seqs |]. cbn. lia. }
  assert (Forall (fun r => (next_seq db0 < d_seq r)%Z) (concat bs ++ g)) as Hnew'
    by (apply Forall_app; by split).
  rewrite acked_snoc. destruct r as [s | e].
  - destruct Hout as (Hs & Hseq & Hinv'). destruct (decide (g = [])) as [Hg | Hg].
    + assert (call_recs s c = []) as Hnil by (by eapply call_recs_nil). rewrite Hnil. cbn [map].
      exists bs. rewrite Hg in *. cbn in Hinv'. rewrite !app_nil_r in *. rewrite decide_True by done.
      rewrite andb_true_r in Hrea'. split_and!; try done; [by constructor | lia].
    + destruct Hs as [? | ->]; [done |]. fold g. exists (bs ++ [g]). rewrite concat_snoc, map_app, rev_app_distr.
      rewrite decide_False by done.
      split_and!; try done; [by apply logged_ok | by rewrite <- app_assoc | by apply sublist_app | lia |].
      apply (reaches_next _ _ _ _ Hrea Hcr).
      rewrite (inv_position _ _ _ _ Hinv), (inv_position _ _ _ _ Hinv'), length_app. cbn. lia.
  - destruct Hout as (_ & [[Hseq Hinv'] | (Hg & [de ->] & Hseq & Hinv')]); rewrite app_nil_r;
      rewrite andb_false_r in Hrea'.
    + exists bs. split_and!; try done; [by apply logged_refused | lia].
    + exists (bs ++ [g]). rewrite concat_snoc, map_app.
      split_and!; try done; [by apply logged_landed | | lia].
      by apply sublist_inserts_r.
Qed.
(** ** After a crash *)

Lemma on_disk_ext lay d d' md Td fresh :
  (forall k i, (k < copies lay)%nat -> (Z.of_nat i < stride)%Z ->
    read_block d' (copy_start lay k stride + Z.of_nat i) =
    read_block d (copy_start lay k stride + Z.of_nat i)) ->
  log_shape (D := D) (E := E) LEVELS TABLES KEY_MAX lay ->
  on_disk LEVELS TABLES KEY_MAX lay d md Td fresh -> on_disk LEVELS TABLES KEY_MAX lay d' md Td fresh.
Proof.
  intros Hext Hls [Hok Hbl Hcur]. pose proof (max_blocks_pos _ _ _ _ Hls) as Hpos. split; [done | |].
  - intros k i Hk Hi. rewrite Hext by done. by apply Hbl.
  - destruct fresh.
    + destruct Hcur as [-> Hb]. split; [done |]. intros k Hk. destruct (Hb k Hk) as (b & Hr & Hz).
      exists b. split; [| done]. rewrite <- (Z.add_0_r (copy_start _ _ _)) in Hr |- *.
      change 0%Z with (Z.of_nat 0) in Hr |- *. rewrite Hext by (done || lia). done.
    + intros i Hi.
      destruct (man_framable LEVELS TABLES KEY_MAX lay md Td (m_seq md) Hls Hok (mo_seq _ _ _ _ _ Hok)) as [_ Hst].
      rewrite Hext; [by apply Hcur | by eapply slot_lt | lia].
Qed.

(** Being quiet is a matter of the one block. *)
Lemma quiet_ext d d' end_ fl id :
  read_block d' id = read_block d id -> quiet d end_ fl id -> quiet d' end_ fl id.
Proof.
  intros Hr Hq nt mx. destruct (Hq nt mx) as (g & Hon & Hg). exists g. split; [| done].
  remember 0%Z as z eqn:Hz. destruct Hon as [| | | id nt mx b rs torn g n Hid Hread Hp Ho Hne Hgo Hon].
  - by apply log_region.
  - eapply log_old; [done | by rewrite Hr | done | done].
  - eapply log_stale; [done | by rewrite Hr | done..].
  - pose proof (log_blocks_nonneg _ _ _ _ _ _ _ _ Hon). lia.
Qed.

Lemma quiet_end d end_ fl id : (end_ <= id)%Z -> quiet d end_ fl id.
Proof. intros H nt mx. exists []. split; [by apply log_region | constructor]. Qed.

(** The device after a history is recoverable again, with a longer log. *)
Lemma recoverable_after db d c m ss g n db1 tr db2 :
  db_shape -> cfg_typed c -> handle_on db d c -> recoverable d c m ss g n ->
  (exists r, open db = (db1, r)) -> runs db1 tr db2 ->
  let d2 := device (db_wal db2) in
  let fl := flushed_seq m in
  (forall id, (wal_head m + n <= id < c_wal_end c)%Z -> quiet d (c_wal_end c) fl id) ->
  settled tr = true \/ quiet d2 (c_wal_end c) fl (next_block (db_wal db2)) ->
  exists bs, logged_as tr bs /\
    db_inv (E := E) KEY_MAX VAL_MAX CAP ARENA db2 (wal_head m + n) bs
      (rev (acked tr) ++ rev (map rec_entry (unflushed (flushed_seq m) g))) /\
    sublist (acked tr) (map rec_entry (concat bs)) /\
    exists g' n', unflushed (flushed_seq m) g' = unflushed (flushed_seq m) g ++ concat bs /\
      (forall id, (wal_head m + n' <= id < c_wal_end c)%Z -> quiet d2 (c_wal_end c) fl id) /\
      (replays CAP ARENA KEY_MAX VAL_MAX (unflushed (flushed_seq m) g') -> recoverable d2 c m ss g' n') /\
      ascending None (unflushed (flushed_seq m) g') /\
      Forall (fun r => sizes_ok (KEY_MAX := KEY_MAX) (VAL_MAX := VAL_MAX) (rec_mut r))
        (unflushed (flushed_seq m) g').
Proof.
  intros Hsh Hty Hh Hrv [r Hopen] Hruns d2 fl0 Hbehind Hlast. subst fl0. set (fl := flushed_seq m) in *.
  destruct (open_spec db d c m ss g n Hsh Hty Hh Hrv) as (db1' & Hopen' & Hinv1 & Hsq & _ & Hh1 & Hnb & _).
  rewrite Hopen in Hopen'. injection Hopen' as <- ->.
  destruct (runs_spec db1 _ _ tr db2 (sh_consts Hsh) Hinv1 Hruns)
    as (bs & Hlog & Hinv2 & Hsub & Hle & Hnew & Htch & Hrea1 & Hrea2).
  exists bs. split; [done |]. split; [done |]. split; [done |].
  assert (forall id, (next_block (db_wal db2) <= id)%Z -> quiet d2 (c_wal_end c) fl id) as Hquiets.
  { intros id Hid. destruct (decide (c_wal_end c <= id)%Z); [by apply quiet_end |].
    pose proof (ho_device _ _ _ Hh1) as Hdev. rewrite Hnb in Hrea1. destruct Hlast as [Hset | Hq].
    - rewrite Hset in Hrea2. apply (quiet_ext d); [rewrite <- Hdev; by apply Hrea2 | apply Hbehind; lia].
    - destruct (decide (id = next_block (db_wal db2))) as [-> |]; [done |].
      apply (quiet_ext d); [rewrite <- Hdev; apply Hrea2; destruct (settled tr); lia | apply Hbehind; lia]. }
  pose proof (Hquiets (next_block (db_wal db2)) ltac:(lia)) as Hquiet.
  destruct Hrv as [Hreg Hslots (md & Td & fresh & Hdisk & Hm) Hhead Hfloor Hon Hrep]. fold fl in Hfloor, Hon, Hrep.
  pose proof (log_blocks_nonneg _ _ _ _ _ _ _ _ Hon) as Hn0.
  destruct (log_on_split _ _ _ _ _ _ _ _ Hon) as (g1 & g2 & nt & Hg & Hpre & Hst & Hnt).
  specialize (Hnt ltac:(done)).
  destruct (Htch (wal_head m + n)%Z) as (_ & Hwe & Hrd). rewrite Hnb in Hrd. specialize (Hrd ltac:(lia)).
  destruct Hrd as [_ Hrd]. destruct Hh1 as [_ Hd1 [Hs1 He1] _ _]. rewrite Hd1, He1 in Hrd. rewrite He1 in Hwe.
  fold d2 in Hrd. pose proof (regions_log_shape c Hsh Hreg) as Hls.
  pose proof (max_seq_of_ge 0 g1) as [Hmx0 Hmx1]. rewrite Hg, max_seq_of_app in Hsq.
  pose proof (max_seq_of_ge (max_seq_of 0 g1) g2) as [Hmx2 _].
  destruct Hinv2 as [_ [Hsti Hlogat Hnext Hgood _ Hasc Hend] Hgo Hf Hr2 Hl2 Hs2 Hz2]. rewrite app_nil_r in Hasc.
  assert (Forall (fun r => (max_seq_of 0 g1 < d_seq r)%Z) (concat bs)) as Hnewer
    by (eapply Forall_impl; [exact Hnew |]; cbn; lia).
  assert (Forall (fun r => (fl < d_seq r)%Z) (concat bs)) as Hnewfl
    by (eapply Forall_impl; [exact Hnew |]; cbn; lia).
  destruct (log_pre_ext _ d2 _ _ _ _ _ _ _ _ _ Hpre) as [_ Hpre2]; [intros i Hi; apply Hrd; lia |].
  destruct (Hquiet (if decide (bs = []) then nt else None) (max_seq_of (max_seq_of 0 g1) (concat bs)))
    as (gt & Hgt & Hgts). fold d2 in Hlogat. rewrite Hnext in Hgt. rewrite Hwe in Hend.
  rewrite Hnext in Hend.
  pose proof (log_on_blocks_after d2 (c_wal_end c) fl bs (wal_head m + n) nt (max_seq_of 0 g1) gt 0
    Hlogat Hgood Hasc Hnewfl Hend) as Hbs. specialize (Hbs ltac:(intros z Hz'; eapply Forall_impl; [exact Hnewer |]; cbn; specialize (Hnt z Hz'); lia) Hgt).
  pose proof (log_pre_on _ _ _ _ _ _ _ _ _ _ _ _ Hpre2 Hbs) as Hon2.
  exists (g1 ++ concat bs ++ gt), (wal_head m + n - wal_head m + (Z.of_nat (length bs) + 0))%Z.
  assert (unflushed fl (g1 ++ concat bs ++ gt) = unflushed fl g ++ concat bs) as Hun.
  { rewrite Hg, !unflushed_app, (unflushed_stale fl g2), (unflushed_stale fl gt), (unflushed_all fl (concat bs)) by done.
    by rewrite !app_nil_r. }
  split; [exact Hun |]. rewrite Hun. destruct Hrep as [Hasc0 Hsz0 _ _].
  split; [intros id Hid; apply Hquiets; lia |]. split; [| split].
  - intros Hrep'. split; try done; [| fold fl; by rewrite Hun].
    exists md, Td, fresh. split; [| done]. eapply on_disk_ext; [| exact Hls | exact Hdisk].
    intros k i Hk Hi. apply Hrd.
    destruct (check_regions_copies c Hreg k Hk) as [[H | H] _]; [left | right]; lia.
  - apply ascending_join; try done. apply Forall_forall. intros a Ha.
    eapply Forall_impl; [exact Hnewer |]. cbn. intros b Hb.
    assert (d_seq a <= max_seq_of 0 g1)%Z; [| lia].
    rewrite Hg, unflushed_app, (unflushed_stale fl g2), app_nil_r in Ha by done.
    by apply (proj1 (Forall_forall _ _) (unflushed_sub fl g1 _ Hmx1) a Ha).
  - apply Forall_app. by split.
Qed.
End opening.

Arguments db_shape D E {Dev} KEY_MAX VAL_MAX CAP ARENA LEVELS TABLES.
Arguments handle_on {D E Dev} KEY_MAX VAL_MAX CAP ARENA db d c.
Arguments recoverable {D E Dev} KEY_MAX VAL_MAX CAP ARENA LEVELS TABLES d c m ss g n.
Arguments runs {D E Dev} KEY_MAX VAL_MAX CAP ARENA db0 _ _.

Lemma sublist_all {A} (l k : list A) : sublist l k -> (length k <= length l)%nat -> l = k.
Proof.
  induction 1 as [| x l k _ IH | x l k Hs _]; cbn [length]; [done | | ].
  - intros Hl. f_equal. apply IH. lia.
  - intros Hl. apply sublist_length in Hs. lia.
Qed.

(** C23 Opening recovers.  On a device that holds a manifest (and no block of a later
    commit), its tables in slots of their own, and a log whose mutations above the flush
    floor fit the memtable, [open] succeeds on any handle of the same shape: the
    memtable then holds exactly the logged mutations above the flush floor, the
    slots used are exactly the tables', the sequence counter is at or above every
    number the log and the tables carry, and the writer is positioned behind the
    log.  Whatever the device holds, a failed [open] leaves the handle closed. *)
Theorem open_recovers {D E} `{Dev : !BlockDevice D E} {Laws : DeviceLaws D E}
  {KEY_MAX VAL_MAX CAP ARENA LEVELS TABLES} (db : Db D) d c m ss g n
  (Hsh : db_shape D E KEY_MAX VAL_MAX CAP ARENA LEVELS TABLES) (Hty : cfg_typed c)
  (Hh : handle_on (E := E) KEY_MAX VAL_MAX CAP ARENA db d c)
  (Hrv : recoverable (E := E) KEY_MAX VAL_MAX CAP ARENA LEVELS TABLES d c m ss g n) :
  (exists db' rep, open (E := E) KEY_MAX VAL_MAX CAP ARENA LEVELS TABLES db = (db', Ok rep) /\
    opened db' = true /\ db_manifest db' = m /\
    filled E CAP ARENA KEY_MAX VAL_MAX (db_table db')
      (rev (map rec_entry (unflushed (flushed_seq m) g))) /\
    recovered_records rep = Z.of_nat (length (unflushed (flushed_seq m) g)) /\
    Forall (fun r => (d_seq r <= next_seq db')%Z) g /\ (Manifest.max_seq m <= next_seq db')%Z /\
    next_block (db_wal db') = (wal_head m + n)%Z /\ Slots.wf (db_slots db') /\
    forall i, (0 <= i)%Z -> status_of (db_slots db') i = if decide (i ∈ ss) then Used else Free) /\
  forall db0 : Db D, match open (E := E) KEY_MAX VAL_MAX CAP ARENA LEVELS TABLES db0 with
                     | (db', Ok _) => opened db' = true
                     | (db', Err _) => opened db' = false
                     end.
Proof.
  split; [| intros db0; apply closed_on_error].
  destruct (open_spec db d c m ss g n Hsh Hty Hh Hrv) as
    (db' & Ho & [H1 _ _ H2 _ _ _ _] & H3 & H4 & _ & H5 & _ & H6 & H7).
  eexists db', _. split; [exact Ho |]. cbn [recovered_records]. split_and!; try done.
  - eapply Forall_impl; [exact (proj2 (max_seq_of_ge 0 g)) |]. cbn. lia.
  - lia.
Qed.


(** ** Witnesses *)

Module OpenWitness.
#[local] Instance dev : BlockDevice MemDisk.disk Empty_set := MemDisk.device 512.
#[local] Instance dev_laws : DeviceLaws MemDisk.disk Empty_set := MemDisk.laws 512.

Definition ex_cfg : Config := config_new 10 14 20 40 0 4.
Definition ex_new (d : MemDisk.disk) : Db MemDisk.disk := db_new (E := Empty_set) 4 8 64 2 1 0 d ex_cfg.
Definition ex_open (db : Db MemDisk.disk) := open (E := Empty_set) 4 4 8 64 2 1 db.

Lemma ex_db_shape : db_shape MemDisk.disk Empty_set 4 4 8 64 2 1.
Proof.
  split; [apply ex_consts | cbn; lia | cbn; unfold U32_MAX; lia | | by_compute].
  split; cbn; unfold U32_MAX; lia.
Qed.

Lemma ex_typed : cfg_typed ex_cfg.
Proof. split; cbn; unfold U64_MAX; lia. Qed.

Lemma ex_handle d : handle_on (E := Empty_set) 4 4 8 64 (ex_new d) d ex_cfg.
Proof.
  split; try done; [split; [apply length_replicate | apply zeros_ok] |].
  exists []. apply filled_new.
Qed.

Definition ex_manifest : Manifest := set_wal_head (Manifest.new 2 1 4) 10.

Lemma ex_blank (id : Z) : read_block (∅ : MemDisk.disk) id = Ok (replicate 512 0%Z).
Proof. cbn. unfold MemDisk.read, MemDisk.disk. by rewrite lookup_empty. Qed.

Lemma ex_recoverable :
  recoverable (E := Empty_set) 4 4 8 64 2 1 (∅ : MemDisk.disk) ex_cfg ex_manifest [] [] 0.
Proof.
  assert (check_regions (D := MemDisk.disk) (E := Empty_set) 4 2 1 ex_cfg = Ok tt) as Hreg by (vm_compute; reflexivity).
  split; [exact Hreg | | | cbn; lia | cbn; lia | |].
  - eexists. split; [vm_compute; reflexivity |]. split; constructor.
  - exists (Manifest.new 2 1 4), [], true. split; [| done].
    apply blank_on_disk; [by apply (regions_log_shape (VAL_MAX := 4) (CAP := 8) (ARENA := 64)), Hreg; apply ex_db_shape |].
    intros k i _ _. apply ex_blank.
  - apply log_on_unwritten. right. split; [cbn; lia | apply ex_blank].
  - split; cbn; try constructor; lia.
Qed.

Lemma open_recovers_witness :
  exists db' rep, ex_open (ex_new ∅) = (db', Ok rep) /\ opened db' = true /\ next_block (db_wal db') = 10%Z.
Proof.
  destruct (open_recovers (E := Empty_set) (ex_new ∅) ∅ ex_cfg ex_manifest [] [] 0 ex_db_shape ex_typed
    (ex_handle ∅) ex_recoverable) as [(db' & rep & H1 & H2 & _ & _ & _ & _ & _ & H3 & _) _].
  exists db', rep. split; [exact H1 |]. split; [exact H2 | exact H3].
Defined.

Definition ex_db1 : Db MemDisk.disk := (ex_open (ex_new ∅)).1.
Definition ex_put : db_call := DPut [97%Z] [1%Z].
Definition ex_db2 : Db MemDisk.disk := (run_db_call (E := Empty_set) 4 4 8 64 ex_db1 ex_put).1.

Lemma ex_runs : runs (E := Empty_set) 4 4 8 64 ex_db1 ([] ++ [(ex_put, Ok 1%Z)]) ex_db2.
Proof.
  eapply runs_snoc; [apply runs_nil | cbn; split; repeat constructor; unfold fits; lia |].
  unfold ex_db2. apply Wal.WalWitness.pair_snd. vm_compute. reflexivity.
Qed.

Lemma ex_quiet id : (10 <= id < 14)%Z ->
  quiet (∅ : MemDisk.disk) (c_wal_end ex_cfg) (flushed_seq ex_manifest) id.
Proof.
  intros Hid nt mx. exists []. split; [| constructor]. apply log_on_unwritten. right.
  split; [cbn; lia | apply ex_blank].
Qed.


(** ** A failed flush can block the next open *)

(** A disk of 512-byte blocks whose first [fl_fails] flushes fail. *)
Record flaky := mkFlaky { fl_blocks : MemDisk.disk; fl_fails : nat }.

#[local] Instance flaky_device : BlockDevice flaky unit := {|
  BLOCK := 512;
  read_block d id := map_err (fun _ => tt) (MemDisk.read 512 (fl_blocks d) id);
  write_block d id b := (mkFlaky (<[id := b]> (fl_blocks d)) (fl_fails d), Ok tt);
  dev_flush d := match fl_fails d with
                 | O => (d, Ok tt)
                 | S n => (mkFlaky (fl_blocks d) n, Err tt)
                 end;
|}.

Lemma flaky_laws : DeviceLaws flaky unit.
Proof.
  split; cbn [BLOCK read_block write_block dev_flush flaky_device].
  - intros d id b H. destruct (MemDisk.read 512 (fl_blocks d) id) as [b' |] eqn:Er; [| done].
    injection H as ->. by apply (read_len (DeviceLaws := MemDisk.laws 512) _ _ _ Er).
  - intros d d' id b Hl Hb [= <-]. cbn [fl_blocks]. unfold MemDisk.read, MemDisk.disk.
    rewrite lookup_insert_eq. by rewrite bool_decide_eq_true_2.
  - intros d d' id id' b r [= <- <-] Hne. cbn [fl_blocks]. unfold MemDisk.read, MemDisk.disk.
    by rewrite lookup_insert_ne.
  - intros d d' id r. destruct (fl_fails d); by intros [= <- <-].
Qed.

Definition small_cfg : Config := config_new 20 30 30 40 0 10.
Definition small_new (d : flaky) : Db flaky := db_new (E := unit) 4 1 8 1 1 0 d small_cfg.
Definition small_open (db : Db flaky) := open (E := unit) 4 4 1 8 1 1 db.
Definition small_put (db : Db flaky) (k : bytes) := put (E := unit) 4 4 1 8 db k [1%Z].

Definition step0 : Db flaky := (small_open (small_new (mkFlaky ∅ 1))).1.
Definition step1 : Db flaky := (small_put step0 [97%Z]).1.
Definition step2 : Db flaky := (small_put step1 [98%Z]).1.

(** A write whose block lands but whose flush fails is not counted against the
    memtable.  With room for one entry: the first [put] fails at the flush, the
    second succeeds, and the log now holds two live records; the next [open]
    cannot replay them into the memtable, reports the log as corrupt and the
    database no longer opens, although no block is damaged. *)
Theorem landed_write_blocks_open :
  is_ok (small_open (small_new (mkFlaky ∅ 1))).2 = true /\
  (small_put step0 [97%Z]).2 = Err (Device tt) /\ (small_put step1 [98%Z]).2 = Ok 2%Z /\
  (small_open (small_new (device (db_wal step2)))).2 = Err (CorruptWal 21).
Proof. vm_compute. auto. Qed.
End OpenWitness.
