(* ===== verification/DbLayout.v ===== *)
(** * The layout of a whole device: [src/db/mod.rs]

    [Config::whole_device] lets the database place its regions.  The theorem is
    that every device of at least [MIN_DEVICE_BLOCKS] blocks gets regions that
    [open] accepts, with slots that hold a full memtable. *)

From stdpp Require Import base numbers list.
From Stdlib Require Import ZArith Lia.
From S2P Require Import Prelude Device Slots Cache Memtable Wal Batch Manifest ManifestLog SstPlan Db.

Section layout.
  Context {D E : Type} `{Dev : !BlockDevice D E}.
  Context {KEY_MAX VAL_MAX CAP ARENA LEVELS TABLES : nat}.

  Abbreviation stride := (stride (D := D) (E := E) LEVELS TABLES KEY_MAX).
  Abbreviation SLOTS := (SLOTS LEVELS TABLES).
  Abbreviation MIN_SLOT := (MIN_SLOT_BLOCKS (D := D) (E := E) KEY_MAX VAL_MAX CAP ARENA).

(** Table space left of [space] blocks. *)
Definition table_space (space : u64) : u64 := saturating_sub space (wal_share space).

Lemma table_space_mono a b : (0 <= a <= b)%Z -> (table_space a <= table_space b)%Z.
Proof.
  intros H. unfold table_space, saturating_sub, wal_share.
  destruct (2 <? a / 8)%Z eqn:Ea, (2 <? b / 8)%Z eqn:Eb; bool_lia;
    Z.to_euclidean_division_equations; lia.
Qed.

Lemma table_space_enough need space :
  (0 <= need)%Z -> (need + need / 7 + 2 <= space)%Z -> (need <= table_space space)%Z.
Proof.
  intros H0 H. unfold table_space, saturating_sub, wal_share.
  destruct (2 <? space / 8)%Z eqn:Ea; bool_lia; Z.to_euclidean_division_equations; lia.
Qed.

(** The search for the smallest space ends with one that is enough. *)
Lemma min_space_loop_spec need fuel : forall space,
  (0 <= need <= space)%Z -> (need + need / 7 + 3 - space <= Z.of_nat fuel)%Z ->
  (space <= min_space_loop fuel need space)%Z /\
  (need <= table_space (min_space_loop fuel need space))%Z.
Proof.
  induction fuel as [|fuel IH]; intros space Hs Hf; cbn [min_space_loop].
  { split; [lia |]. apply table_space_enough; lia. }
  fold (table_space space). destruct (table_space space <? need)%Z eqn:Et; bool_lia.
  destruct (IH (space + 1)%Z) as [H1 H2]; [lia | lia |]. split; [lia | done].
Qed.

Definition min_space : u64 :=
  let need := (SLOTS * MIN_SLOT)%Z in
  min_space_loop (Z.to_nat (need + need / 7 + 16)) need need.

Definition ring_copies (c : Config) : Z :=
  if (c_manifest_ring c =? 0)%nat then 2 else Z.of_nat (c_manifest_ring c).

Lemma min_space_spec :
  (SLOTS * MIN_SLOT <= min_space)%Z /\ (SLOTS * MIN_SLOT <= table_space min_space)%Z.
Proof.
  unfold min_space. cbv zeta. set (need := (SLOTS * MIN_SLOT)%Z).
  assert (0 <= need)%Z by (unfold need, Db.SLOTS, MIN_SLOT_BLOCKS; lia).
  apply min_space_loop_spec; [lia |]. Z.to_euclidean_division_equations; lia.
Qed.

Section device.
  Variable c : Config.
  Hypothesis Hslots : (0 < SLOTS <= MAX_SLOTS)%Z.
  Hypothesis Hring : c_manifest_ring c <> 1%nat.
  Hypothesis Hstride : (0 <= stride)%Z.
  Hypothesis Hsize : (stride * ring_copies c + min_space <= c_device_blocks c <= U64_MAX)%Z.

Let total := c_device_blocks c.
Let mend := (stride * ring_copies c)%Z.
Let slot := (table_space (total - mend) / SLOTS)%Z.
Let r := resolve_layout (D := D) (E := E) KEY_MAX LEVELS TABLES c.

Lemma min_slot_pos : (3 <= MIN_SLOT)%Z.
Proof. unfold MIN_SLOT_BLOCKS, max_flush_blocks. lia. Qed.

Lemma layout_facts :
  r = mkConfig mend (total - slot * SLOTS) (total - slot * SLOTS) total 0
        (if (c_manifest_ring c =? 0)%nat then stride else 0%Z) (c_manifest_ring c) total (c_node_id c) /\
  (MIN_SLOT <= slot)%Z /\ (0 <= mend)%Z /\ (mend + 2 <= total - slot * SLOTS)%Z /\ (0 < slot * SLOTS)%Z.
Proof.
  pose proof min_space_spec as [Hm1 Hm2]. pose proof min_slot_pos as Hp.
  assert (0 <= ring_copies c)%Z as Hc0 by (unfold ring_copies; destruct (_ =? _)%nat; lia).
  assert (0 <= mend)%Z as Hmend by (unfold mend; apply Z.mul_nonneg_nonneg; lia).
  assert (0 < SLOTS * MIN_SLOT)%Z as Hneed by (apply Z.mul_pos_pos; lia).
  fold mend total in Hsize.
  assert (SLOTS * MIN_SLOT <= table_space (total - mend))%Z as Hts.
  { etrans; [exact Hm2 |]. apply table_space_mono. lia. }
  assert (MIN_SLOT <= slot)%Z as Hslot by (apply Z.div_le_lower_bound; lia).
  assert (slot * SLOTS <= table_space (total - mend))%Z as Hle
    by (unfold slot; rewrite Z.mul_comm; apply Z.mul_div_le; lia).
  assert (table_space (total - mend) + 2 <= total - mend)%Z as Hwal.
  { clear -Hts Hneed. unfold table_space, saturating_sub, wal_share in *.
    destruct (2 <? (total - mend) / 8)%Z eqn:Es; bool_lia. }
  split; [| split_and!; try lia; apply Z.mul_pos_pos; lia].
  unfold r, resolve_layout. fold total. rewrite (proj2 (Z.eqb_neq total 0)) by lia. cbv zeta.
  fold (ring_copies c).
  assert (saturating_mul stride (ring_copies c) = mend) as ->
    by (unfold saturating_mul; fold mend; lia).
  assert (saturating_sub total mend = (total - mend)%Z) as -> by (unfold saturating_sub; lia). done.
Qed.

Lemma copy_starts k :
  (k < copies (manifest_layout r))%nat ->
  copies (manifest_layout r) = Z.to_nat (ring_copies c) /\
  copy_start (manifest_layout r) k stride = (Z.of_nat k * stride)%Z.
Proof.
  destruct layout_facts as (-> & _). unfold manifest_layout, copies, copy_start, ring_copies.
  cbn [c_manifest_ring c_manifest_a c_manifest_b]. destruct (c_manifest_ring c =? 0)%nat eqn:E0; bool_lia.
  - cbn. intros Hk. split; [done |]. destruct k as [|[|k]]; cbn; lia.
  - unfold layout_ring. rewrite (proj2 (Nat.ltb_ge _ _)) by lia. cbn [lay_ring lay_first].
    rewrite (proj2 (Nat.eqb_neq _ _)) by done. intros Hk. split; [lia |].
    rewrite Nat.mod_small by done. lia.
Qed.

Lemma regions_accepted :
  check_regions (D := D) (E := E) KEY_MAX LEVELS TABLES r = Ok tt.
Proof.
  destruct layout_facts as (Hr & Hslot & Hmend & Hwal & Htbl).
  set (ts := (total - slot * SLOTS)%Z) in *.
  assert (c_wal_start r = mend) as R1 by (by rewrite Hr).
  assert (c_wal_end r = ts) as R2 by (by rewrite Hr).
  assert (c_tbl_start r = ts) as R3 by (by rewrite Hr).
  assert (c_tbl_end r = total) as R4 by (by rewrite Hr).
  clear Hr. unfold check_regions. cbv zeta. cbn [fst snd]. rewrite R1, R2, R3, R4.
  rewrite (proj2 (Z.leb_gt ts mend)), (proj2 (Z.leb_gt total ts)) by lia.
  assert (disjoint (mend, ts) (ts, total) = true) as ->
    by (unfold disjoint; cbn [fst snd]; by rewrite Z.leb_refl).
  cbn [orb negb]. rewrite (proj2 (forallb_forall _ _)); [done |].
  intros k [_ Hk]%in_seq. cbn in Hk. destruct (copy_starts k Hk) as [Hc Hs].
  unfold check_copy. cbv zeta. rewrite Hs. unfold u64_checked_add.
  assert ((Z.of_nat k * stride + stride <= mend)%Z) as Hend.
  { unfold mend. rewrite Hc in Hk. assert (Z.of_nat k + 1 <= ring_copies c)%Z by lia. nia. }
  rewrite (proj2 (Z.ltb_ge _ _)) by (unfold total in *; lia). rewrite R1, R2, R3, R4.
  unfold disjoint at 1 2. cbn [fst snd].
  rewrite (proj2 (Z.leb_le _ mend)), (proj2 (Z.leb_le _ ts)) by lia. cbn [orb andb].
  unfold check_copies_below. apply forallb_forall. intros j [_ Hj]%in_seq. cbn in Hj. cbv zeta.
  destruct (copy_starts j ltac:(lia)) as [_ ->]. unfold disjoint. cbn [fst snd].
  apply orb_true_iff. right. apply Z.leb_le. nia.
Qed.

Lemma slots_accepted :
  exists sl, layout (c_tbl_start r) (c_tbl_end r) SLOTS MIN_SLOT = Some sl /\ (MIN_SLOT <= slot_blocks sl)%Z.
Proof.
  destruct layout_facts as (-> & Hslot & Hmend & Hwal & Htbl). cbn [c_tbl_start c_tbl_end].
  pose proof min_slot_pos. unfold layout.
  replace (total - (total - slot * SLOTS))%Z with (slot * SLOTS)%Z by lia. rewrite Z.div_mul by lia.
  rewrite (proj2 (Z.eqb_neq SLOTS 0)), (proj2 (Z.ltb_ge _ _)), (proj2 (Z.leb_gt total _)) by lia.
  cbn [orb]. rewrite (proj2 (Z.eqb_neq slot 0)), (proj2 (Z.ltb_ge _ _)) by lia. cbn [orb]. eauto.
Qed.

Lemma resolve_idempotent : resolve_layout (D := D) (E := E) KEY_MAX LEVELS TABLES r = r.
Proof.
  destruct layout_facts as (Hr & _ & Hm & Hw & Hs).
  transitivity (resolve_layout (D := D) (E := E) KEY_MAX LEVELS TABLES
    (mkConfig mend (total - slot * SLOTS) (total - slot * SLOTS) total 0
       (if (c_manifest_ring c =? 0)%nat then stride else 0%Z) (c_manifest_ring c) total (c_node_id c)));
    [by rewrite Hr |].
  unfold r, resolve_layout. fold total. cbn [c_device_blocks c_manifest_ring c_node_id].
  by rewrite (proj2 (Z.eqb_neq total 0)) by lia.
Qed.
End device.
End layout.

(** Every device of at least [MIN_DEVICE_BLOCKS] blocks works.  For a whole-device
    configuration (with a ring of [n] copies: [n - 2] more copies' worth of blocks),
    the resolved regions pass the checks of [open], the table region has a slot
    layout whose slots hold a full memtable, and resolving again changes nothing, so
    a reopen finds the same layout. *)
Theorem whole_device_opens {D E} `{Dev : !BlockDevice D E} {KEY_MAX VAL_MAX CAP ARENA LEVELS TABLES : nat}
  (c : Config) (Hslots : (0 < SLOTS LEVELS TABLES <= MAX_SLOTS)%Z) (Hring : c_manifest_ring c <> 1%nat)
  (Hsize : (MIN_DEVICE_BLOCKS (D := D) (E := E) KEY_MAX VAL_MAX CAP ARENA LEVELS TABLES +
            (ring_copies c - 2) * stride (D := D) (E := E) LEVELS TABLES KEY_MAX
            <= c_device_blocks c <= U64_MAX)%Z) :
  let r := resolve_layout (D := D) (E := E) KEY_MAX LEVELS TABLES c in
  check_regions (D := D) (E := E) KEY_MAX LEVELS TABLES r = Ok tt /\
  (exists sl,
     layout (c_tbl_start r) (c_tbl_end r) (SLOTS LEVELS TABLES)
       (MIN_SLOT_BLOCKS (D := D) (E := E) KEY_MAX VAL_MAX CAP ARENA) = Some sl /\
     (MIN_SLOT_BLOCKS (D := D) (E := E) KEY_MAX VAL_MAX CAP ARENA <= slot_blocks sl)%Z) /\
  resolve_layout (D := D) (E := E) KEY_MAX LEVELS TABLES r = r.
Proof.
  intros r.
  assert (0 <= stride (D := D) (E := E) LEVELS TABLES KEY_MAX)%Z as Hst
    by (unfold stride, max_blocks; lia).
  assert (stride (D := D) (E := E) LEVELS TABLES KEY_MAX * ring_copies c +
    min_space (D := D) (E := E) (KEY_MAX := KEY_MAX) (VAL_MAX := VAL_MAX) (CAP := CAP) (ARENA := ARENA)
      (LEVELS := LEVELS) (TABLES := TABLES) <= c_device_blocks c <= U64_MAX)%Z as Hsz.
  { unfold MIN_DEVICE_BLOCKS in Hsize. unfold min_space. cbv zeta in *. lia. }
  split_and!; [by eapply regions_accepted | by eapply slots_accepted | by eapply resolve_idempotent].
Qed.

Module LayoutWitness.
#[local] Instance dev : BlockDevice MemDisk.disk Empty_set := MemDisk.device 512.

Lemma whole_device_opens_witness :
  check_regions (D := MemDisk.disk) (E := Empty_set) 4 2 1
    (resolve_layout (D := MemDisk.disk) (E := Empty_set) 4 2 1 (whole_device 16)) = Ok tt.
Proof.
  apply (whole_device_opens (D := MemDisk.disk) (E := Empty_set) (KEY_MAX := 4) (VAL_MAX := 4) (CAP := 8)
    (ARENA := 64) (LEVELS := 2) (TABLES := 1) (whole_device 16)).
  - vm_compute. split; congruence.
  - discriminate.
  - vm_compute. split; congruence.
Defined.
End LayoutWitness.
