(* ===== verification/DbRead.v ===== *)
(** * Point reads: [src/db/read.rs]

    A read collects the newest version of a key from the memtable and from every
    table whose bounds hold it, prunes tables that cannot win, and answers from
    the winner unless a newer range tombstone hides it or it has expired.  The
    theorems say which version that is, whatever order the tables are visited in
    and whatever the cache holds.  The two shared block buffers carry nothing from
    one read to the next: the physical one is omitted, the decompression buffer is
    an argument, and [busy] says that another read in flight holds them. *)

From stdpp Require Import base numbers list.
From Stdlib Require Import ZArith Lia.
From S2P Require Import Prelude Device Compress Version Slots Cache Memtable Wal Manifest ManifestPool SstPlan SstWriter SstReader SstBlock SstImage SstIndex SstRdel SstTable SstBuild Db.

(** ** The code *)

Inductive Best := BMissing | BTombstone | BValue (len : nat).

Record ReadAcc := mkAcc {
  acc_stage : bytes;
  best : Best;
  best_ver : Version;
  best_expire_at : u64;
  cover_ver : Version;
}.

Definition acc_new (VAL_MAX : nat) : ReadAcc := mkAcc (replicate VAL_MAX 0%Z) BMissing ZERO 0 ZERO.

(** The two promotions of a hit, and of a covering range tombstone. *)
Definition take_value (a : ReadAcc) (v : Version) (tmp : bytes) (len : nat) (expire_at : u64) : ReadAcc :=
  mkAcc (splice 0 (take len tmp) (acc_stage a)) (BValue len) v expire_at (cover_ver a).
Definition take_tombstone (a : ReadAcc) (v : Version) : ReadAcc :=
  mkAcc (acc_stage a) BTombstone v (best_expire_at a) (cover_ver a).
Definition take_cover (a : ReadAcc) (v : Version) : ReadAcc :=
  mkAcc (acc_stage a) (best a) (best_ver a) (best_expire_at a) v.

Section read.
  Context {D E : Type} `{Dev : !BlockDevice D E}.
  (** The const generics. *)
  Variables VAL_MAX LEVELS BLOOM_BYTES : nat.
  Implicit Types db : Db D.

(** [self.node_id()] *)
Definition own_node db : u32 := c_node_id (cfg db).

Definition table_bound (t : TableRef) : Version := table (node_id t) (seal_wall t) (t_max_seq t).

(** The [match reader.lookup_at(..)]. *)
Definition consider_hit (t : TableRef) (max_seq : u64) (a : ReadAcc) (l : SstReader.Lookup) (tmp : bytes)
  : ReadAcc :=
  match l with
  | LValue len sq ex =>
      if (sq <=? max_seq)%Z && version_gt (table (node_id t) (seal_wall t) sq) (best_ver a)
      then take_value a (table (node_id t) (seal_wall t) sq) tmp len ex else a
  | LTombstone sq =>
      if (sq <=? max_seq)%Z && version_gt (table (node_id t) (seal_wall t) sq) (best_ver a)
      then take_tombstone a (table (node_id t) (seal_wall t) sq) else a
  | LMissing => a
  end.

(** The range-tombstone probe. *)
Definition consider_cover (d : D) (t : TableRef) (key : bytes) (max_seq : u64) (rd : TableReader) (a : ReadAcc)
  : cached E ReadAcc :=
  if (0 <? tr_rdel_blocks rd)%Z then
    let! q := covering_rdel_seq d rd key max_seq in
    cret match q with
         | Some q =>
             if version_gt (table (node_id t) (seal_wall t) q) (cover_ver a)
             then take_cover a (table (node_id t) (seal_wall t) q) else a
         | None => a
         end
  else cret a.

Definition consider_table (d : D) (t : TableRef) (key : bytes) (max_seq : u64) (decomp : bytes) (a : ReadAcc)
  : cached E ReadAcc :=
  if negb (covers t key) || negb (version_gt (table_bound t) (best_ver a)) then cret a
  else
    match footer_block t with
    | None => pure (Err CorruptManifest)
    | Some footer =>
        let! rd := open_cached d (t_id t) footer in
        let! (l, tmp) := lookup_at d BLOOM_BYTES rd decomp key (replicate VAL_MAX 0%Z) max_seq in
        consider_cover d t key max_seq rd (consider_hit t max_seq a l tmp)
    end.

(** The memtable's part of the accumulator. *)
Definition memtable_point db (key : bytes) (max_seq : u64) (a : ReadAcc) : ReadAcc :=
  match Memtable.get_at (db_table db) key max_seq with
  | None => a
  | Some en =>
      let v := memtable (own_node db) (lk_seq en) in
      if lk_tombstone en then take_tombstone a v
      else take_value a v (lk_val en) (length (lk_val en)) (lk_expire_at en)
  end.

Definition memtable_acc db (key : bytes) (max_seq : u64) : ReadAcc :=
  let a := memtable_point db key max_seq (acc_new VAL_MAX) in
  match max_covering_rdel (db_table db) key max_seq with
  | Some q => take_cover a (memtable (own_node db) q)
  | None => a
  end.

(** Level [li] in visiting order. *)
Definition visit_level db (li : nat) : list TableRef :=
  let tables := default [] (level LEVELS (db_manifest db) li) in
  if (li =? 0)%nat then reverse tables else tables.

Definition visit_order db : list TableRef := concat (map (visit_level db) (List.seq 0 LEVELS)).

(** [Some(tref.id) != exclude] *)
Definition included (exclude : option u32) (t : TableRef) : bool :=
  match exclude with None => true | Some id => negb (t_id t =? id)%Z end.

(** The loop over the tables. *)
Fixpoint consider_all (d : D) (ts : list TableRef) (exclude : option u32) (key : bytes) (max_seq : u64)
  (decomp : bytes) (a : ReadAcc) : cached E ReadAcc :=
  match ts with
  | [] => cret a
  | t :: ts =>
      let! a := if included exclude t then consider_table d t key max_seq decomp a else cret a in
      consider_all d ts exclude key max_seq decomp a
  end.

(** The [match acc.best]: the length read and the caller's buffer. *)
Definition finish_read (a : ReadAcc) (val_buf : bytes) (now : u64)
  : result (option nat * bytes) (Error E) :=
  match best a with
  | BMissing | BTombstone => Ok (None, val_buf)
  | BValue len =>
      if version_gt (cover_ver a) (best_ver a) then Ok (None, val_buf)
      else if negb (best_expire_at a =? 0)%Z && (best_expire_at a <=? now)%Z then Ok (None, val_buf)
      else if (length val_buf <? len)%nat then Err (BufferTooSmall len)
      else Ok (Some len, splice 0 (take len (acc_stage a)) val_buf)
  end.

Definition read_point (busy : bool) db (decomp key val_buf : bytes) (max_seq now : u64) (exclude : option u32)
  : cached E (option nat * bytes) :=
  let a := memtable_acc db key max_seq in
  if busy then pure (Err Busy)
  else
    let! a := consider_all (device (db_wal db)) (visit_order db) exclude key max_seq decomp a in
    pure (finish_read a val_buf now).

(** A read on the handle: the shared cache is the only thing it changes. *)
Definition set_cache db (c : BlockCache) : Db D :=
  mkDb (db_wal db) (db_table db) (db_manifest db) (db_slots db) (job_gen db) (job_active db)
    (job_inputs db) (manual_level db) (manual_mark db) (manual_start db) (manual_skip db) (cfg db)
    (next_seq db) (snapshots db) (n_snapshots db) (opened db) c.

Definition on_handle {A} db (m : cached E A) : option (Db D * result A (Error E)) :=
  match m (Some (mkCell (db_cache db) false)) with
  | Some (c, r) => Some (set_cache db (from_option cell (db_cache db) c), r)
  | None => None
  end.

Definition get_at_with_time (busy : bool) db (decomp key val_buf : bytes) (max_seq now : u64)
  : option (Db D * result (option nat * bytes) (Error E)) :=
  match ensure_open db with
  | Err e => Some (db, Err e)
  | Ok _ => on_handle db (read_point busy db decomp key val_buf max_seq now None)
  end.

Definition get_with_time (busy : bool) db (decomp key val_buf : bytes) (now : u64) :=
  get_at_with_time busy db decomp key val_buf U64_MAX now.

Definition get_at (busy : bool) db (decomp key val_buf : bytes) (max_seq : u64) :=
  get_at_with_time busy db decomp key val_buf max_seq 0.

Definition get (busy : bool) db (decomp key val_buf : bytes) :=
  get_at_with_time busy db decomp key val_buf U64_MAX 0.

(** The loop of [rdel_hides] over one level's tables. *)
Fixpoint hides_loop (d : D) (ts : list TableRef) (key : bytes) (max_seq : u64) (above : Version)
  : cached E bool :=
  match ts with
  | [] => cret false
  | t :: ts =>
      if (Manifest.rdel_blocks t =? 0)%Z || negb (version_gt (table_bound t) above) ||
         bytes_ltb key (as_slice (Manifest.first_key t)) || bytes_ltb (as_slice (Manifest.last_key t)) key
      then hides_loop d ts key max_seq above
      else
        match Manifest.rdel_first t with
        | None => pure (Err CorruptManifest)
        | Some first =>
            let! q := covering_rdel_seq_in d (t_id t) first (Manifest.rdel_blocks t) key max_seq in
            match q with
            | Some q =>
                if version_gt (table (node_id t) (seal_wall t) q) above then cret true
                else hides_loop d ts key max_seq above
            | None => hides_loop d ts key max_seq above
            end
        end
  end.

Definition rdel_hides db (key : bytes) (max_seq : u64) (above : Version) : cached E bool :=
  let mem :=
    match max_covering_rdel (db_table db) key max_seq with
    | Some q => version_gt (memtable (own_node db) q) above
    | None => false
    end in
  if mem then cret true
  else
    hides_loop (device (db_wal db))
      (concat (map (fun li => default [] (level LEVELS (db_manifest db) li)) (List.seq 0 LEVELS)))
      key max_seq above.
End read.

(** ** What a read sees *)

(** A version of the key: its value and expiry, or a tombstone. *)
Record Hit := mkHit { h_ver : Version; h_body : option (bytes * u64) }.

(** The contents of a table: its entries and its range tombstones. *)
Definition Contents : Type := list SstEntry * list RdelEntry.

Definition entry_body (e : Entry) : option (bytes * u64) :=
  if tombstone e then None else Some (val e, expire_at e).
Definition sst_body (e : SstEntry) : option (bytes * u64) :=
  if se_tombstone e then None else Some (se_val e, se_expire_at e).

(** The versions of [key] at or below [mx] in the memtable [mem] of node [n] and in
    the tables [ts]: a table counts where its bounds hold the key. *)
Inductive point (n : u32) (mem : list Entry) (contents : TableRef -> Contents) (ts : list TableRef)
  (key : bytes) (mx : u64) : Hit -> Prop :=
| point_mem e :
    e ∈ mem -> Memtable.visible key mx e ->
    point n mem contents ts key mx (mkHit (memtable n (Memtable.seq e)) (entry_body e))
| point_table t e :
    t ∈ ts -> covers t key = true -> e ∈ (contents t).1 -> se_key e = key -> (se_seq e <= mx)%Z ->
    point n mem contents ts key mx
      (mkHit (table (node_id t) (seal_wall t) (se_seq e)) (sst_body e)).

(** The range tombstones at or below [mx] that cover [key]. *)
Inductive cover (n : u32) (mem : list Entry) (contents : TableRef -> Contents) (ts : list TableRef)
  (key : bytes) (mx : u64) : Version -> Prop :=
| cover_mem e :
    e ∈ mem -> Memtable.covers key mx e ->
    cover n mem contents ts key mx (memtable n (Memtable.seq e))
| cover_table t r :
    t ∈ ts -> covers t key = true -> r ∈ (contents t).2 -> covers_key key mx r ->
    cover n mem contents ts key mx (table (node_id t) (seal_wall t) (rd_seq r)).

(** What a read must answer: the newest version, unless it is a tombstone, a newer
    range tombstone covers the key, or it has expired. *)
Definition reads {E} (P : Hit -> Prop) (C : Version -> Prop) (now : u64) (buf : bytes)
  (r : result (option nat * bytes) (Error E)) : Prop :=
  ((forall h, ~ P h) /\ r = Ok (None, buf)) \/
  exists h, P h /\ (forall h', P h' -> version_gt (h_ver h') (h_ver h) = false) /\
    match h_body h with
    | None => r = Ok (None, buf)
    | Some (v, ex) =>
        (((exists c, C c /\ version_gt c (h_ver h) = true) \/ (ex <> 0 /\ ex <= now)%Z) /\
         r = Ok (None, buf)) \/
        ((forall c, C c -> version_gt c (h_ver h) = false) /\ (ex = 0 \/ now < ex)%Z /\
         r = if (length buf <? length v)%nat then Err (BufferTooSmall (length v))
             else Ok (Some (length v), splice 0 v buf))
    end.

(** ** The merge rule on predicates *)

(** Sequence numbers start at 1 and [version_gt] ranks the versions of [V]: it is a
    strict weak order on them. *)
Definition orderly (V : Version -> Prop) : Prop :=
  (forall v, V v -> (0 < Version.seq v)%Z) /\
  forall a b c, V a -> V b -> V c -> version_gt a c = true -> version_gt a b = true \/ version_gt b c = true.

(** The clock condition is enough. *)
Lemma orderly_coherent (V : Version -> Prop) :
  (forall v, V v -> (0 < Version.seq v)%Z) -> (forall a b, V a -> V b -> coherent2 a b) -> orderly V.
Proof.
  intros Hs Hc. split; [done |]. intros a b c Ha Hb Hv G. destruct (decide (a = b)) as [-> | Hne]; [by right |].
  pose proof (Hs a Ha). pose proof (Hs b Hb).
  destruct (version_gt_total a b) as [? | Gba]; auto; try lia. right.
  apply (version_gt_trans_coherent b a c); auto.
Qed.

(** So is a single node, whatever its seal clocks. *)
Lemma orderly_one_node (V : Version -> Prop) n :
  (forall v, V v -> (0 < Version.seq v)%Z /\ node v = n) -> orderly V.
Proof.
  intros Hs. split; [intros; by apply Hs |]. intros a b c Ha Hb Hc.
  destruct (Hs a Ha), (Hs b Hb), (Hs c Hc).
  rewrite !version_gt_same by (lia || congruence). lia.
Qed.

Lemma orderly_sub (V W : Version -> Prop) : orderly V -> (forall v, W v -> V v) -> orderly W.
Proof. intros [Hs Hc] Hw. split; [intros; by apply Hs, Hw |]. intros a b c Ha Hb Hv. apply Hc; auto. Qed.

(** The version below another of the same table beats no more than it. *)
Lemma version_below n w s s' b :
  (0 < s <= s')%Z -> version_gt (mkVersion n w s') b = false -> version_gt (mkVersion n w s) b = false.
Proof.
  unfold version_gt. cbn [Version.seq node wall]. intros Hs.
  rewrite (proj2 (Z.eqb_neq s 0)), (proj2 (Z.eqb_neq s' 0)) by lia.
  destruct (Version.seq b =? 0)%Z; [done |]. destruct (n =? node b)%Z; [| done]. bool_lia.
Qed.

Lemma u64_sub_ok a b : (b <= a)%Z -> u64_checked_sub a b = Some (a - b)%Z.
Proof. intros. unfold u64_checked_sub. by rewrite (proj2 (Z.ltb_ge _ _)). Qed.

Lemma not_gt_step (V : Version -> Prop) v b b' :
  orderly V -> V v -> (b = ZERO \/ V b) -> V b' ->
  version_gt v b = false -> version_gt b' b = true -> version_gt v b' = false.
Proof.
  intros [Hs Hc] Hv Hb Hb' Hnb Hgt. destruct (version_gt v b') eqn:G; [| done]. exfalso.
  destruct Hb as [-> | Hb].
  - rewrite gt_ZERO in Hnb. specialize (Hs v Hv). bool_lia.
  - destruct (Hc v b b') as [? | G']; auto; [congruence |]. apply version_gt_asym in G'. congruence.
Qed.

Lemma not_gt_hidden (V : Version -> Prop) v c b :
  orderly V -> V v -> (c = ZERO \/ V c) -> (b = ZERO \/ V b) ->
  version_gt v c = false -> version_gt c b = false -> version_gt v b = false.
Proof.
  intros Ho Hv Hc Hb Hvc Hcb. destruct (version_gt v b) eqn:G; [| done]. exfalso.
  pose proof (proj1 Ho v Hv) as Hsv. destruct Hc as [-> | Hc].
  { rewrite gt_ZERO in Hvc. bool_lia. }
  pose proof (proj1 Ho c Hc) as Hsc. destruct Hb as [-> | Hb].
  { rewrite gt_ZERO in Hcb. bool_lia. }
  destruct (proj2 Ho v c b) as [? | ?]; auto; congruence.
Qed.

(** ** The accumulator *)

Section accumulator.
  Context (VAL_MAX : nat) (V : Version -> Prop) (HV : orderly V).
  Implicit Types (P Q : Hit -> Prop) (C K : Version -> Prop).

(** [a] has seen the versions [P] and the covering range tombstones [C]. *)
Record acc_inv P C (a : ReadAcc) : Prop := {
  ai_points : forall h, P h -> V (h_ver h);
  ai_covers : forall c, C c -> V c;
  ai_stage : length (acc_stage a) = VAL_MAX;
  ai_best : match best a with
    | BMissing => best_ver a = ZERO /\ forall h, ~ P h
    | BTombstone => exists h, P h /\ h_ver h = best_ver a /\ h_body h = None
    | BValue len => exists h v, P h /\ h_ver h = best_ver a /\ h_body h = Some (v, best_expire_at a) /\
        len = length v /\ take len (acc_stage a) = v
    end;
  ai_top : forall h, P h -> version_gt (h_ver h) (best_ver a) = false;
  ai_cover : cover_ver a = ZERO \/ C (cover_ver a);
  ai_hidden : forall c, C c -> version_gt c (best_ver a) = false \/ version_gt c (cover_ver a) = false;
}.

Lemma acc_inv_ext P Q C K a :
  (forall h, P h <-> Q h) -> (forall c, C c <-> K c) -> acc_inv P C a -> acc_inv Q K a.
Proof.
  intros HP HC [H1 H2 H3 H4 H5 H6 H7]. split; [| | done | | | |].
  - intros h Hh. by apply H1, HP.
  - intros c Hc. by apply H2, HC.
  - destruct (best a); [| destruct H4 as (h & Hh & H4) | destruct H4 as (h & v & Hh & H4)].
    + destruct H4 as [-> H4]. split; [done |]. intros h Hh. by apply (H4 h), HP.
    + exists h. split; [by apply HP | done].
    + exists h, v. split; [by apply HP | done].
  - intros h Hh. by apply H5, HP.
  - destruct H6 as [? | ?]; [by left | right; by apply HC].
  - intros c Hc. by apply H7, HC.
Qed.

Lemma best_in_V P C a : acc_inv P C a -> best_ver a = ZERO \/ V (best_ver a).
Proof.
  intros Hi. pose proof (ai_best _ _ _ Hi) as Hb. destruct (best a).
  - left; apply Hb.
  - destruct Hb as (h & Hh & <- & _). right. by apply (ai_points _ _ _ Hi).
  - destruct Hb as (h & v & Hh & <- & _). right. by apply (ai_points _ _ _ Hi).
Qed.

Lemma acc_new_inv : acc_inv (fun _ => False) (fun _ => False) (acc_new VAL_MAX).
Proof. split; cbn; try done; [by rewrite length_replicate | auto | by left]. Qed.

(** Versions that cannot beat the best so far are accounted for without a look. *)
Lemma acc_skip P Q C K a :
  (forall h, Q h -> V (h_ver h)) -> (forall c, K c -> V c) ->
  (forall h, Q h -> best a <> BMissing /\ version_gt (h_ver h) (best_ver a) = false) ->
  (forall c, K c -> version_gt c (best_ver a) = false) ->
  acc_inv P C a -> acc_inv (fun h => P h \/ Q h) (fun c => C c \/ K c) a.
Proof.
  intros HQ HK Hq Hk [H1 H2 H3 H4 H5 H6 H7]. split; [| | done | | | |].
  - intros h [? | ?]; auto.
  - intros c [? | ?]; auto.
  - destruct (best a); [| destruct H4 as (h & Hh & H4) | destruct H4 as (h & v & Hh & H4)].
    + destruct H4 as [-> H4]. split; [done |]. intros h [Hh | Hh]; [by apply (H4 h) |].
      by destruct (Hq h Hh).
    + exists h. split; [by left | done].
    + exists h, v. split; [by left | done].
  - intros h [? | Hh]; [auto | by apply Hq].
  - destruct H6 as [? | ?]; [by left | right; by left].
  - intros c [? | Hc]; [auto | left; auto].
Qed.

(** The accumulator with [h] as its best. *)
Definition promote (a : ReadAcc) (h : Hit) : ReadAcc :=
  match h_body h with
  | None => take_tombstone a (h_ver h)
  | Some (v, ex) => take_value a (h_ver h) v (length v) ex
  end.

Lemma promote_best a h :
  best_ver (promote a h) = h_ver h /\ cover_ver (promote a h) = cover_ver a /\ best (promote a h) <> BMissing.
Proof. unfold promote. by destruct (h_body h) as [[v ex] |]. Qed.

(** A winning hit of a source, which holds nothing newer. *)
Lemma acc_hit P Q C a h :
  acc_inv P C a -> Q h -> (forall h', Q h' -> V (h_ver h')) ->
  (forall h' b, Q h' -> version_gt (h_ver h) b = false -> version_gt (h_ver h') b = false) ->
  (forall v ex, h_body h = Some (v, ex) -> (length v <= VAL_MAX)%nat) ->
  acc_inv (fun h' => P h' \/ Q h') C
    (if version_gt (h_ver h) (best_ver a) then promote a h else a).
Proof.
  intros Hi Hh HQ Htop Hlen. pose proof (best_in_V _ _ _ Hi) as Hb.
  destruct (version_gt (h_ver h) (best_ver a)) eqn:G.
  - destruct (promote_best a h) as (E1 & E2 & _). destruct Hi as [H1 H2 H3 H4 H5 H6 H7]. split.
    + intros h' [? | ?]; auto.
    + done.
    + unfold promote. destruct (h_body h) as [[v ex] |] eqn:Ev; [| done]. cbn.
      specialize (Hlen v ex eq_refl). rewrite length_splice; [done |].
      rewrite length_take. lia.
    + unfold promote. destruct (h_body h) as [[v ex] |] eqn:Ev; cbn.
      * specialize (Hlen v ex eq_refl). exists h, v. split_and!; auto.
        rewrite firstn_all. apply take_splice_front. lia.
      * exists h. auto.
    + rewrite E1. intros h' [Hh' | Hh'].
      * apply (not_gt_step V _ (best_ver a)); auto.
      * apply Htop; [done | apply version_gt_irrefl].
    + rewrite E2. destruct H6 as [? | ?]; [by left | right; auto].
    + rewrite E1, E2. intros c Hc. destruct (H7 c Hc) as [Hn | ?]; [left | by right].
      apply (not_gt_step V _ (best_ver a)); auto.
  - enough (acc_inv (fun h' => P h' \/ Q h') (fun c => C c \/ False) a) as He.
    { revert He. apply acc_inv_ext; tauto. }
    apply acc_skip; auto; try done. intros h' Hh'. split; [| auto].
    intros Em. pose proof (ai_best _ _ _ Hi) as Hbm. rewrite Em in Hbm. destruct Hbm as [Ez _].
    rewrite Ez, gt_ZERO in G. specialize (HQ h Hh). apply HV in HQ. bool_lia.
Qed.

(** The newest covering range tombstone of a source. *)
Lemma acc_covered P C K a q :
  acc_inv P C a -> K q -> (forall c, K c -> V c) ->
  (forall c b, K c -> version_gt q b = false -> version_gt c b = false) ->
  acc_inv P (fun c => C c \/ K c) (if version_gt q (cover_ver a) then take_cover a q else a).
Proof.
  intros Hi Hq HK Htop. destruct Hi as [H1 H2 H3 H4 H5 H6 H7].
  destruct (version_gt q (cover_ver a)) eqn:G; split; cbn [take_cover acc_stage best best_ver best_expire_at cover_ver];
    auto; try (intros c [? | ?]; auto; fail).
  - intros c [Hc | Hc]; [| right; apply Htop; [done | apply version_gt_irrefl]].
    destruct (H7 c Hc) as [? | Hn]; [by left | right]. apply (not_gt_step V _ (cover_ver a)); auto.
    destruct H6; auto.
  - destruct H6; auto.
Qed.

Lemma finish_read_reads {E} P C a buf now :
  acc_inv P C a -> reads (E := E) P C now buf (finish_read a buf now).
Proof.
  intros Hi. pose proof (best_in_V _ _ _ Hi) as Hbv. destruct Hi as [H1 H2 H3 H4 H5 H6 H7].
  unfold finish_read, reads. destruct (best a) as [| | len].
  - left. by destruct H4.
  - destruct H4 as (h & Hh & Ev & Eb). right. exists h. rewrite Ev, Eb. auto.
  - destruct H4 as (h & v & Hh & Ev & Eb & -> & Et). right. exists h. rewrite Ev, Eb, Et.
    split; [done |]. split; [done |]. destruct (version_gt (cover_ver a) (best_ver a)) eqn:G.
    { left. split; [left | done]. exists (cover_ver a). destruct H6 as [Ez | ?]; [| done].
      by rewrite Ez in G. }
    destruct (negb (best_expire_at a =? 0)%Z && (best_expire_at a <=? now)%Z) eqn:Ex.
    { left. split; [right; bool_lia | done]. }
    right. split; [| split; [bool_lia | done]]. intros c Hc. destruct (H7 c Hc) as [? | Hn]; [done |].
    apply (not_gt_hidden V c (cover_ver a)); auto. destruct H6; auto.
Qed.
End accumulator.

(** ** One source at a time *)

Section sources.
  Context {D E : Type} `{Laws : DeviceLaws D E}.
  Context (VAL_MAX LEVELS BLOOM_BYTES : nat).
  Context (HB : (49 <= BLOCK)%nat) (Hbloom : (BLOOM_BYTES + CRC_LEN <= BLOCK)%nat).
  Context (d : D) (L : u32 -> u64 -> Prop).

(** The table [t] is on the device with contents [c], in version order, within the
    sequence bounds of its ref, and the cache may hold its blocks. *)
Record table_ok (t : TableRef) (c : Contents) : Prop := {
  tk_on : exists blks rbs k ec ms, concat blks = c.1 /\ concat rbs = c.2 /\
    table_on BLOOM_BYTES d (first_block t) blks rbs k ec ms /\
    block_count t = Z.of_nat (length blks + length rbs + 3) /\
    Manifest.rdel_blocks t = Z.of_nat (length rbs);
  tk_live : forall i, (Z.of_nat i < block_count t)%Z -> L (t_id t) (first_block t + Z.of_nat i)%Z;
  tk_end : (end_block t <= U64_MAX)%Z;
  tk_order : version_ordered c.1;
  tk_seqs : Forall (fun e => (0 < se_seq e <= t_max_seq t)%Z) c.1;
  tk_rseqs : Forall (fun r => (0 < rd_seq r <= t_max_seq t)%Z) c.2;
  tk_vals : Forall (fun e => (length (se_val e) <= VAL_MAX)%nat) c.1;
}.

Section read_spec.
  Context (n : u32) (mem : list Entry) (contents : TableRef -> Contents) (key : bytes) (mx : u64).
  Context (V : Version -> Prop) (HV : orderly V).

(** What one table adds. *)
Definition tpoint (t : TableRef) (h : Hit) : Prop :=
  covers t key = true /\ exists e, e ∈ (contents t).1 /\ se_key e = key /\ (se_seq e <= mx)%Z /\
    h = mkHit (table (node_id t) (seal_wall t) (se_seq e)) (sst_body e).
Definition tcover (t : TableRef) (v : Version) : Prop :=
  covers t key = true /\ exists r, r ∈ (contents t).2 /\ covers_key key mx r /\
    v = table (node_id t) (seal_wall t) (rd_seq r).

Lemma point_snoc ts t h :
  point n mem contents (ts ++ [t]) key mx h <-> point n mem contents ts key mx h \/ tpoint t h.
Proof.
  split.
  - intros [e He Hv | t' e [Ht | ->%list_elem_of_singleton]%elem_of_app Hc He Hk Hs].
    + left. by constructor.
    + left. by constructor.
    + right. split; [done |]. eauto.
  - intros [[e He Hv | t' e Ht Hc He Hk Hs] | (Hc & e & He & Hk & Hs & ->)].
    + by constructor.
    + constructor; auto. apply elem_of_app. by left.
    + constructor; auto. apply elem_of_app. right. by apply list_elem_of_singleton.
Qed.

Lemma cover_snoc ts t v :
  cover n mem contents (ts ++ [t]) key mx v <-> cover n mem contents ts key mx v \/ tcover t v.
Proof.
  split.
  - intros [e He Hv | t' r [Ht | ->%list_elem_of_singleton]%elem_of_app Hc Hr Hk].
    + left. by constructor.
    + left. by constructor.
    + right. split; [done |]. eauto.
  - intros [[e He Hv | t' r Ht Hc Hr Hk] | (Hc & r & Hr & Hk & ->)].
    + by constructor.
    + constructor; auto. apply elem_of_app. by left.
    + constructor; auto. apply elem_of_app. right. by apply list_elem_of_singleton.
Qed.

Lemma point_mono ts ts' h :
  (forall t, t ∈ ts -> t ∈ ts') -> point n mem contents ts key mx h -> point n mem contents ts' key mx h.
Proof. intros Hs []; constructor; auto. Qed.

Lemma cover_mono ts ts' v :
  (forall t, t ∈ ts -> t ∈ ts') -> cover n mem contents ts key mx v -> cover n mem contents ts' key mx v.
Proof. intros Hs []; constructor; auto. Qed.

(** The two prunes are exact. *)
Lemma prune_exact P C t a :
  table_ok t (contents t) -> acc_inv VAL_MAX V P C a ->
  (forall h, tpoint t h -> V (h_ver h)) -> (forall c, tcover t c -> V c) ->
  negb (covers t key) || negb (version_gt (table_bound t) (best_ver a)) = true ->
  acc_inv VAL_MAX V (fun h => P h \/ tpoint t h) (fun c => C c \/ tcover t c) a.
Proof.
  intros Ht Hi HP HC Hg. pose proof (tk_seqs _ _ Ht) as Hs. pose proof (tk_rseqs _ _ Ht) as Hr.
  rewrite Forall_forall in Hs. rewrite Forall_forall in Hr. apply acc_skip; auto.
  - intros h (Hc & e & He & Hk & Hm & ->). rewrite Hc in Hg. cbn [negb orb h_ver] in *.
    apply negb_true_iff in Hg. split; [| by apply (version_below _ _ _ (t_max_seq t)); auto].
    intros Em. pose proof (ai_best _ _ _ _ _ Hi) as Hb. rewrite Em in Hb. destruct Hb as [Ez _].
    rewrite Ez, gt_ZERO in Hg. cbn [table_bound table Version.seq] in Hg. specialize (Hs e He). bool_lia.
  - intros c (Hc & r & Hr' & _ & ->). rewrite Hc in Hg. cbn [negb orb] in Hg.
    apply negb_true_iff in Hg. by apply (version_below _ _ _ (t_max_seq t)); auto.
Qed.

(** The lookup's outcome promoted. *)
Lemma consider_hit_inv P C t a :
  table_ok t (contents t) -> acc_inv VAL_MAX V P C a -> covers t key = true ->
  (forall h, tpoint t h -> V (h_ver h)) ->
  exists l tmp, table_result (E := E) (contents t).1 key (replicate VAL_MAX 0%Z) mx = Ok (l, tmp) /\
    acc_inv VAL_MAX V (fun h => P h \/ tpoint t h) C (consider_hit t mx a l tmp).
Proof.
  intros Ht Hi Hc HP. pose proof (find_newest key mx _ (tk_order _ _ Ht)) as Hn.
  unfold table_result. destruct (List.find (visible key mx) (contents t).1) as [e |].
  - destruct Hn as (He & Hk & Hm & Hall).
    pose proof (tk_seqs _ _ Ht) as Hs. pose proof (tk_vals _ _ Ht) as Hv. rewrite Forall_forall in Hs, Hv.
    set (h := mkHit (table (node_id t) (seal_wall t) (se_seq e)) (sst_body e)).
    assert (acc_inv VAL_MAX V (fun h' => P h' \/ tpoint t h') C
      (if version_gt (h_ver h) (best_ver a) then promote a h else a)) as Hacc.
    { apply acc_hit; auto.
      - split; [done |]. eauto.
      - intros h' b (_ & e' & He' & Hk' & Hm' & ->). cbn [h h_ver].
        apply version_below. split; [by apply Hs | by apply Hall].
      - intros v ex. cbn [h h_body]. unfold sst_body. destruct (se_tombstone e); [done |].
        intros [= <- <-]. by apply Hv. }
    unfold sst_body in h. unfold se_ttl. destruct (se_tombstone e) eqn:Et.
    + exists (LTombstone (se_seq e)), (replicate VAL_MAX 0%Z). split; [done |]. cbn [consider_hit].
      rewrite (proj2 (Z.leb_le _ _) Hm). exact Hacc.
    + specialize (Hv e He). rewrite length_replicate, (proj2 (Nat.ltb_ge _ _)) by done.
      eexists _, _. split; [reflexivity |]. cbn [consider_hit]. rewrite (proj2 (Z.leb_le _ _) Hm).
      cbn [andb]. cbn [h h_ver promote h_body] in Hacc.
      unfold promote, take_value in Hacc. cbn [h_body h_ver] in Hacc. rewrite firstn_all in Hacc.
      unfold take_value. rewrite take_splice_front by (by rewrite length_replicate).
      replace (if negb false && negb (se_expire_at e =? 0)%Z then se_expire_at e else 0%Z)
        with (se_expire_at e); [exact Hacc |].
      cbn [negb andb]. destruct (Z.eqb_spec (se_expire_at e) 0); [by cbn [negb] | done].
  - exists LMissing, (replicate VAL_MAX 0%Z). split; [done |]. cbn [consider_hit].
    revert Hi. apply acc_inv_ext; [| done]. intros h. split; [by left |].
    intros [? | (_ & e & He & Hk & Hm & _)]; [done |]. specialize (Hn e He Hk). lia.
Qed.

(** The newest covering tombstone of a table. *)
Lemma covering_inv P C t a :
  table_ok t (contents t) -> acc_inv VAL_MAX V P C a -> covers t key = true ->
  (forall c, tcover t c -> V c) ->
  acc_inv VAL_MAX V P (fun c => C c \/ tcover t c)
    match fold_left (cover_step key mx) (contents t).2 None with
    | Some q =>
        if version_gt (table (node_id t) (seal_wall t) q) (cover_ver a)
        then take_cover a (table (node_id t) (seal_wall t) q) else a
    | None => a
    end.
Proof.
  intros Ht Hi Hc HC. pose proof (cover_fold_newest key mx (contents t).2 None) as Hf.
  pose proof (tk_rseqs _ _ Ht) as Hr. rewrite Forall_forall in Hr.
  destruct (fold_left (cover_step key mx) (contents t).2 None) as [q |].
  - destruct Hf as ([Hq | (r & Hrin & Hcov & <-)] & _ & Hall); [done |].
    apply acc_covered; auto.
    + split; [done |]. eauto.
    + intros c b (_ & r' & Hr' & Hcov' & ->). apply version_below. split; [by apply Hr | auto].
  - destruct Hf as [_ Hnone]. revert Hi. apply acc_inv_ext; [done |]. intros c. split; [by left |].
    intros [? | (_ & r & Hrin & Hcov & _)]; [done |]. by apply Hnone in Hcov.
Qed.

Lemma consider_table_step P C t a decomp :
  table_ok t (contents t) -> acc_inv VAL_MAX V P C a -> length decomp = BLOCK ->
  (forall h, tpoint t h -> V (h_ver h)) -> (forall c, tcover t c -> V c) ->
  exists a', yields d L (consider_table VAL_MAX BLOOM_BYTES d t key mx decomp a) (Ok a') /\
    acc_inv VAL_MAX V (fun h => P h \/ tpoint t h) (fun c => C c \/ tcover t c) a'.
Proof.
  intros Ht Hi Hd HP HC. unfold consider_table.
  destruct (negb (covers t key) || negb (version_gt (table_bound t) (best_ver a))) eqn:G.
  { exists a. split; [apply yields_ret | by apply prune_exact]. }
  apply orb_false_iff in G as [Hc%negb_false_iff _].
  destruct (tk_on _ _ Ht) as (blks & rbs & k & ec & ms & Eb & Er & Hon & Ecount & Erdel).
  assert (forall i, (i < length blks + length rbs + 3)%nat -> L (t_id t) (first_block t + Z.of_nat i)%Z) as HL
    by (intros i Hlt; apply (tk_live _ _ Ht); lia).
  pose proof (to_base _ _ _ _ _ _ _ _ Hon) as Hb0. pose proof (to_end _ _ _ _ _ _ _ _ Hon) as Hb1.
  assert (footer_block t = Some (first_block t + Z.of_nat (length blks + length rbs) + 2)%Z) as ->.
  { pose proof (tk_end _ _ Ht) as He. unfold end_block in He. unfold footer_block.
    rewrite u64_add_ok by done. rewrite Ecount, u64_sub_ok by lia. f_equal. lia. }
  destruct (consider_hit_inv P C t a Ht Hi Hc HP) as (l & tmp & El & Hi').
  pose proof (covering_inv _ C t _ Ht Hi' Hc HC) as Hi''.
  eexists. split; [| exact Hi''].
  eapply yields_bind_ok; [apply (yields_open BLOOM_BYTES HB Hbloom _ _ _ _ _ _ _ Hon L (t_id t) HL) |].
  eapply yields_bind_ok.
  { pose proof (yields_lookup BLOOM_BYTES HB Hbloom _ _ _ _ _ _ _ Hon L (t_id t) HL key mx decomp
      (replicate VAL_MAX 0%Z)) as Hy. rewrite Eb, El in Hy.
    apply Hy; [apply version_key_ordered, Ht | done]. }
  cbv beta iota. unfold consider_cover. cbn [reader_of tr_rdel_blocks].
  destruct (Z.ltb_spec 0 (Z.of_nat (length rbs))) as [Hlt | Hge].
  - eapply yields_bind_ok.
    { apply (yields_covering BLOOM_BYTES HB Hbloom _ _ _ _ _ _ _ Hon L (t_id t) HL). }
    rewrite Er. apply yields_ret.
  - assert (rbs = []) as -> by (destruct rbs; [done | cbn [length] in Hge; lia]).
    rewrite <- Er. apply yields_ret.
Qed.

(** Every table of [ts], visited in order. *)
Definition all_ok (ts : list TableRef) : Prop := Forall (fun t => table_ok t (contents t)) ts.

Lemma consider_all_step exclude decomp ts : forall pre a,
  let seen := pre ++ List.filter (included exclude) ts in
  all_ok (List.filter (included exclude) ts) -> length decomp = BLOCK ->
  (forall h, point n mem contents seen key mx h -> V (h_ver h)) ->
  (forall c, cover n mem contents seen key mx c -> V c) ->
  acc_inv VAL_MAX V (point n mem contents pre key mx) (cover n mem contents pre key mx) a ->
  exists a', yields d L (consider_all VAL_MAX BLOOM_BYTES d ts exclude key mx decomp a) (Ok a') /\
    acc_inv VAL_MAX V (point n mem contents seen key mx) (cover n mem contents seen key mx) a'.
Proof.
  induction ts as [|t ts IH]; intros pre a; cbv zeta; cbn [List.filter consider_all].
  { intros _ _ _ _ Hi. exists a. rewrite app_nil_r. split; [apply yields_ret | done]. }
  intros Hok Hd HP HC Hi. destruct (included exclude t).
  - apply Forall_cons in Hok as [Ht Hok]. rewrite (cons_middle t pre), app_assoc in *.
    destruct (consider_table_step _ _ t a decomp Ht Hi Hd) as (a1 & Hy & Hi1).
    + intros h Hh. apply HP. apply (point_mono (pre ++ [t])); [intros; apply elem_of_app; by left |].
      apply point_snoc. by right.
    + intros c Hh. apply HC. apply (cover_mono (pre ++ [t])); [intros; apply elem_of_app; by left |].
      apply cover_snoc. by right.
    + destruct (IH (pre ++ [t]) a1) as (a' & Hy' & Hi'); auto.
      { revert Hi1. apply acc_inv_ext; intros; symmetry; [apply point_snoc | apply cover_snoc]. }
      exists a'. split; [by eapply yields_bind_ok | done].
  - destruct (IH pre a) as (a' & Hy & Hi'); auto. exists a'.
    split; [eapply yields_bind_ok; [apply yields_ret | done] | done].
Qed.

(** The memtable's entries as the write path leaves them. *)
Definition mem_ok (es : list Entry) : Prop :=
  Forall (fun e => range_del e = false -> (length (val e) <= VAL_MAX)%nat) es.

Lemma memtable_acc_inv {CAP ARENA} (db : Db D) :
  wf CAP ARENA (db_table db) -> mem = iter (db_table db) -> mem_ok mem -> n = own_node db ->
  (forall h, point n mem contents [] key mx h -> V (h_ver h)) ->
  (forall c, cover n mem contents [] key mx c -> V c) ->
  acc_inv VAL_MAX V (point n mem contents [] key mx) (cover n mem contents [] key mx)
    (memtable_acc VAL_MAX db key mx).
Proof.
  clear HB Hbloom. intros Hw Hmem Hok Hn HP HC. unfold memtable_acc.
  assert (acc_inv VAL_MAX V (point n mem contents [] key mx) (fun _ => False)
    (memtable_point db key mx (acc_new VAL_MAX))) as Hi.
  { pose proof (get_at_iter _ key mx Hw) as Hg. rewrite <- Hmem in Hg. unfold memtable_point. rewrite <- Hn.
    pose proof (acc_new_inv VAL_MAX V) as H0.
    destruct (Memtable.get_at (db_table db) key mx) as [lk |].
    - destruct Hg as (e & He & Hv & -> & Hall). cbn [lookup_of lk_seq lk_tombstone lk_val lk_expire_at].
      set (h := mkHit (memtable n (Memtable.seq e)) (entry_body e)).
      assert (point n mem contents [] key mx h) as Hh by (by constructor).
      assert (acc_inv VAL_MAX V (fun h' => False \/ point n mem contents [] key mx h') (fun _ => False)
        (if version_gt (h_ver h) (best_ver (acc_new VAL_MAX)) then promote (acc_new VAL_MAX) h
         else acc_new VAL_MAX)) as Ha.
      { apply (acc_hit VAL_MAX V HV); auto.
        - intros h' b [e' He' Hv' | t e' Ht]; [| by apply not_elem_of_nil in Ht].
          apply version_below. split; [| by apply Hall]. apply (proj1 HV (memtable n (Memtable.seq e'))).
          apply (HP (mkHit _ (entry_body e'))). by constructor.
        - intros v ex. cbn [h h_body]. unfold entry_body. destruct (tombstone e); [done |].
          intros [= <- <-]. unfold mem_ok in Hok. rewrite Forall_forall in Hok. apply Hok; [done |].
          apply Hv. }
      cbn [acc_new best_ver] in Ha. rewrite gt_ZERO in Ha. specialize (HP h Hh). apply HV in HP.
      rewrite (proj2 (Z.eqb_neq _ _)) in Ha by lia. cbn [negb] in Ha.
      unfold promote in Ha. cbn [h h_body h_ver] in Ha. unfold entry_body in Ha.
      revert Ha. destruct (tombstone e); apply acc_inv_ext; tauto.
    - revert H0. apply acc_inv_ext; [| done]. intros h. split; [done |].
      intros [e He Hv | t e Ht]; [by apply (Hg e) in Hv | by apply not_elem_of_nil in Ht]. }
  pose proof (max_covering_rdel_iter (db_table db) key mx) as Hr. rewrite <- Hmem in Hr. rewrite <- Hn.
  destruct (max_covering_rdel (db_table db) key mx) as [q |].
  - destruct Hr as (e & He & Hcov & -> & Hall). set (a := memtable_point db key mx (acc_new VAL_MAX)) in *.
    assert (cover n mem contents [] key mx (memtable n (Memtable.seq e))) as Hc by (by constructor).
    assert (acc_inv VAL_MAX V (point n mem contents [] key mx) (fun c => False \/ cover n mem contents [] key mx c)
      (if version_gt (memtable n (Memtable.seq e)) (cover_ver a)
       then take_cover a (memtable n (Memtable.seq e)) else a)) as Ha.
    { apply (acc_covered VAL_MAX V HV); auto.
      intros c b [e' He' Hc' | t r Ht]; [| by apply not_elem_of_nil in Ht].
      apply version_below. split; [| by apply Hall]. apply (proj1 HV (memtable n (Memtable.seq e'))).
      apply HC. by constructor. }
    destruct (ai_cover _ _ _ _ _ Hi) as [Ez | ?]; [| done]. rewrite Ez, gt_ZERO in Ha.
    specialize (HC _ Hc). apply HV in HC. rewrite (proj2 (Z.eqb_neq _ _)) in Ha by lia.
    cbn [negb] in Ha. revert Ha. apply acc_inv_ext; tauto.
  - revert Hi. apply acc_inv_ext; [done |]. intros c. split; [done |].
    intros [e He Hc | t r Ht]; [by apply (Hr e) in Hc | by apply not_elem_of_nil in Ht].
Qed.

(** ** Range tombstones that hide a version *)

Lemma not_covers t :
  bytes_ltb key (as_slice (Manifest.first_key t)) || bytes_ltb (as_slice (Manifest.last_key t)) key = true ->
  covers t key = false.
Proof.
  intros G. unfold covers. apply andb_false_iff.
  apply orb_true_iff in G as [G | G]; [left | right]; by apply bytes_leb_gt, bytes_ltb_spec.
Qed.

Lemma tcover_pruned t above c :
  table_ok t (contents t) ->
  (Manifest.rdel_blocks t =? 0)%Z || negb (version_gt (table_bound t) above) ||
    bytes_ltb key (as_slice (Manifest.first_key t)) || bytes_ltb (as_slice (Manifest.last_key t)) key = true ->
  tcover t c -> version_gt c above = false.
Proof.
  intros Ht G (Hc & r & Hr & _ & ->). rewrite <- orb_assoc in G.
  apply orb_true_iff in G as [G | G]; [| apply not_covers in G; congruence].
  pose proof (tk_rseqs _ _ Ht) as Hs. rewrite Forall_forall in Hs. specialize (Hs r Hr).
  apply orb_true_iff in G as [G | G].
  - destruct (tk_on _ _ Ht) as (blks & rbs & k & ec & ms & _ & Er & _ & _ & Erdel).
    rewrite Erdel in G. destruct rbs; [| cbn [length] in G; bool_lia]. rewrite <- Er in Hr.
    by apply not_elem_of_nil in Hr.
  - apply negb_true_iff in G. by apply (version_below _ _ _ (t_max_seq t)).
Qed.

Lemma rdel_first_ok t c blks rbs k ec ms :
  table_ok t c -> table_on BLOOM_BYTES d (first_block t) blks rbs k ec ms ->
  block_count t = Z.of_nat (length blks + length rbs + 3) ->
  Manifest.rdel_blocks t = Z.of_nat (length rbs) ->
  Manifest.rdel_first t = Some (first_block t + Z.of_nat (length blks))%Z.
Proof.
  intros Ht Hon Ec Er. pose proof (tk_end _ _ Ht) as He. unfold end_block in He.
  unfold Manifest.rdel_first, Manifest.data_blocks. rewrite u64_sub_ok by lia. rewrite u64_sub_ok by lia.
  rewrite u64_add_ok by lia. f_equal. lia.
Qed.

Lemma hides_loop_step above ts :
  all_ok ts ->
  exists b, yields d L (hides_loop d ts key mx above) (Ok b) /\
    (b = true <-> exists t c, t ∈ ts /\ tcover t c /\ version_gt c above = true).
Proof.
  induction ts as [|t ts IH]; intros Hok; cbn [hides_loop].
  { exists false. split; [apply yields_ret |]. split; [done |].
    by intros (t & c & Ht%not_elem_of_nil & _). }
  apply Forall_cons in Hok as [Ht Hok]. destruct (IH Hok) as (b & Hy & Hb). clear IH.
  assert ((forall c, tcover t c -> version_gt c above = false) ->
    b = true <-> exists t' c, t' ∈ t :: ts /\ tcover t' c /\ version_gt c above = true) as Hskip.
  { intros Hn. rewrite Hb. split; intros (t' & c & Hin & Hc & Hg).
    - exists t', c. split; [by right | done].
    - apply elem_of_cons in Hin as [-> | ?]; [by rewrite Hn in Hg | eauto]. }
  destruct (_ || bytes_ltb _ _) eqn:G.
  { exists b. split; [done |]. apply Hskip. intros c. by apply tcover_pruned. }
  destruct (tk_on _ _ Ht) as (blks & rbs & k & ec & ms & Eb & Er & Hon & Ecount & Erdel).
  rewrite (rdel_first_ok t _ _ _ _ _ _ Ht Hon Ecount Erdel).
  pose proof (to_end _ _ _ _ _ _ _ _ Hon) as Hend.
  assert (yields d L (covering_rdel_seq_in d (t_id t) (first_block t + Z.of_nat (length blks))
    (Manifest.rdel_blocks t) key mx) (Ok (fold_left (cover_step key mx) (contents t).2 None))) as Hq.
  { rewrite <- Er. apply covering_rdel_result; [apply Hon | | lia | done].
    intros i Hi. replace (first_block t + Z.of_nat (length blks) + Z.of_nat i)%Z
      with (first_block t + Z.of_nat (length blks + i))%Z by lia. apply (tk_live _ _ Ht). lia. }
  assert (covers t key = true) as Hcov.
  { apply orb_false_iff in G as [G G4]. apply orb_false_iff in G as [_ G3].
    apply andb_true_iff. split; apply bytes_leb_spec.
    - by apply bytes_ltb_ge in G3.
    - by apply bytes_ltb_ge in G4. }
  pose proof (cover_fold_newest key mx (contents t).2 None) as Hf.
  pose proof (tk_rseqs _ _ Ht) as Hs. rewrite Forall_forall in Hs.
  destruct (fold_left (cover_step key mx) (contents t).2 None) as [q |].
  - destruct Hf as ([Hq' | (r & Hrin & Hr & <-)] & _ & Hall); [done |].
    destruct (version_gt (table (node_id t) (seal_wall t) (rd_seq r)) above) eqn:Gv.
    + exists true. split; [eapply yields_bind_ok; [exact Hq |]; cbv beta iota; rewrite Gv; apply yields_ret |].
      split; [intros _ | done]. exists t. eexists. split; [left |]. split; [split; [done | eauto] | done].
    + exists b. split; [eapply yields_bind_ok; [exact Hq |]; cbv beta iota; by rewrite Gv |].
      apply Hskip. intros c (_ & r' & Hr' & Hc' & ->).
      apply (version_below _ _ _ (rd_seq r)); [| done]. split; [by apply Hs | auto].
  - exists b. split; [by eapply yields_bind_ok; [exact Hq |] |]. apply Hskip.
    intros c (_ & r & Hrin & Hr & _). by apply Hf in Hr.
Qed.
End read_spec.
End sources.

(** ** Reads on the handle *)

Section reading.
  Context {D E : Type} `{Laws : DeviceLaws D E}.
  Context (VAL_MAX KEY_MAX LEVELS TABLES CAP ARENA BLOOM_BYTES : nat).

(** The state a read needs: an open handle whose memtable and tables are well-formed and
    whose cache holds true images of the blocks in [L]. *)
Record readable (db : Db D) (L : u32 -> u64 -> Prop) (contents : TableRef -> Contents) : Prop := {
  rb_open : opened db = true;
  rb_mem : wf CAP ARENA (db_table db);
  rb_vals : mem_ok VAL_MAX (iter (db_table db));
  rb_pool : pool_wf LEVELS TABLES KEY_MAX (db_manifest db);
  rb_tables : forall t, t ∈ tables (db_manifest db) ->
    table_ok VAL_MAX BLOOM_BYTES (device (db_wal db)) L t (contents t);
  rb_cache : truthful (device (db_wal db)) L (Some (mkCell (db_cache db) false));
}.

Definition db_point (db : Db D) (contents : TableRef -> Contents) (key : bytes) (mx : u64) : Hit -> Prop :=
  point (own_node db) (iter (db_table db)) contents (tables (db_manifest db)) key mx.
Definition db_cover (db : Db D) (contents : TableRef -> Contents) (key : bytes) (mx : u64) : Version -> Prop :=
  cover (own_node db) (iter (db_table db)) contents (tables (db_manifest db)) key mx.

(** The versions a read of [key] compares. *)
Definition db_versions (db : Db D) (contents : TableRef -> Contents) (key : bytes) (mx : u64) (v : Version) : Prop :=
  (exists h, db_point db contents key mx h /\ h_ver h = v) \/ db_cover db contents key mx v.

Lemma elem_of_levels m t :
  pool_wf LEVELS TABLES KEY_MAX m ->
  t ∈ tables m <-> exists l, (l < LEVELS)%nat /\ t ∈ level_refs m l.
Proof.
  intros [T HT]. rewrite (tables_repr _ _ _ _ _ HT), list_elem_of_fmap. split.
  - intros ([l t'] & -> & Hin). exists l.
    pose proof (pr_levels _ _ _ _ _ HT) as Hl. rewrite Forall_forall in Hl. specialize (Hl _ Hin).
    split; [done |]. rewrite (level_repr _ _ _ _ _ HT) by done. unfold lvl.
    apply list_elem_of_fmap. exists (l, t'). split; [done |]. by apply list_elem_of_filter.
  - intros (l & Hl & Hin). rewrite (level_repr _ _ _ _ _ HT) in Hin by done. unfold lvl in Hin.
    apply list_elem_of_fmap in Hin as ([l' t'] & -> & Hin). apply list_elem_of_filter in Hin as [_ Hin].
    by exists (l', t').
Qed.

(** The visits are exactly the tables of the manifest. *)
Lemma elem_of_visits (db : Db D) t :
  pool_wf LEVELS TABLES KEY_MAX (db_manifest db) ->
  t ∈ visit_order LEVELS db <-> t ∈ tables (db_manifest db).
Proof.
  intros Hp. rewrite elem_of_levels by done. unfold visit_order.
  rewrite list_elem_of_In, in_concat. split.
  - intros (l & Hl & Ht). apply in_map_iff in Hl as (li & <- & Hli%in_seq).
    exists li. split; [lia |]. apply list_elem_of_In in Ht. unfold visit_level, level in Ht.
    rewrite (proj2 (Nat.leb_gt _ _)) in Ht by lia. cbn [from_option id] in Ht.
    destruct (li =? 0)%nat; [by rewrite elem_of_reverse in Ht | done].
  - intros (li & Hli & Ht). exists (visit_level LEVELS db li). split.
    + apply in_map, in_seq. lia.
    + apply list_elem_of_In. unfold visit_level, level. rewrite (proj2 (Nat.leb_gt _ _)) by lia.
      cbn [from_option id]. destruct (li =? 0)%nat; [by rewrite elem_of_reverse | done].
Qed.

  Context (HB : (49 <= BLOCK)%nat) (Hbloom : (BLOOM_BYTES + CRC_LEN <= BLOCK)%nat).

Lemma point_iff n mem contents key mx ts ts' h :
  (forall t, t ∈ ts <-> t ∈ ts') ->
  point n mem contents ts key mx h <-> point n mem contents ts' key mx h.
Proof. intros Ht. split; apply point_mono; intros; by apply Ht. Qed.

Lemma cover_iff n mem contents key mx ts ts' v :
  (forall t, t ∈ ts <-> t ∈ ts') ->
  cover n mem contents ts key mx v <-> cover n mem contents ts' key mx v.
Proof. intros Ht. split; apply cover_mono; intros; by apply Ht. Qed.

Lemma reads_ext (P Q : Hit -> Prop) (C K : Version -> Prop) now buf (r : result (option nat * bytes) (Error E)) :
  (forall h, P h <-> Q h) -> (forall c, C c <-> K c) -> reads P C now buf r -> reads Q K now buf r.
Proof.
  intros HP HC [[Hn ->] | (h & Hh & Ht & Hr)]; [left | right].
  - split; [| done]. intros h Hh. by apply (Hn h), HP.
  - exists h. split; [by apply HP |]. split; [intros h' Hh'; by apply Ht, HP |].
    destruct (h_body h) as [[v ex] |]; [| done].
    destruct Hr as [[[(c & Hc & Hg) | Hx] ->] | (Hc & Hx & ->)].
    + left. split; [| done]. left. exists c. split; [by apply HC | done].
    + left. split; [by right | done].
    + right. split_and!; [| done | done]. intros c Hc'. by apply Hc, HC.
Qed.

(** Reading among the tables not excluded. *)
Lemma read_point_step (db : Db D) L contents decomp key buf mx now exclude :
  readable db L contents -> length decomp = BLOCK ->
  orderly (db_versions db contents key mx) ->
  exists r, yields (device (db_wal db)) L
      (read_point VAL_MAX LEVELS BLOOM_BYTES false db decomp key buf mx now exclude) r /\
    let ts := List.filter (included exclude) (tables (db_manifest db)) in
    reads (point (own_node db) (iter (db_table db)) contents ts key mx)
      (cover (own_node db) (iter (db_table db)) contents ts key mx) now buf r.
Proof.
  intros Hr Hd HV. set (ts := List.filter (included exclude) (visit_order LEVELS db)).
  assert (forall t, t ∈ ts -> t ∈ tables (db_manifest db)) as Hts.
  { intros t [Ht _]%list_elem_of_In%filter_In. by apply list_elem_of_In, elem_of_visits in Ht; [| apply Hr]. }
  assert (forall t, t ∈ ts <-> t ∈ List.filter (included exclude) (tables (db_manifest db))) as Hts'.
  { intros t. unfold ts. rewrite !list_elem_of_In, !filter_In, <- !list_elem_of_In.
    by rewrite elem_of_visits by apply Hr. }
  assert (forall h, point (own_node db) (iter (db_table db)) contents ts key mx h ->
    db_versions db contents key mx (h_ver h)) as HP.
  { intros h Hh. left. exists h. split; [| done]. by apply (point_mono _ _ _ _ _ ts). }
  assert (forall c, cover (own_node db) (iter (db_table db)) contents ts key mx c ->
    db_versions db contents key mx c) as HC.
  { intros c Hc. right. by apply (cover_mono _ _ _ _ _ ts). }
  assert (acc_inv VAL_MAX (db_versions db contents key mx)
    (point (own_node db) (iter (db_table db)) contents [] key mx)
    (cover (own_node db) (iter (db_table db)) contents [] key mx) (memtable_acc VAL_MAX db key mx)) as H0.
  { eapply memtable_acc_inv; [exact L | exact HV | apply Hr | done | apply Hr | done | |].
    - intros h Hh. apply HP. revert Hh. apply point_mono. by intros t ?%not_elem_of_nil.
    - intros c Hc. apply HC. revert Hc. apply cover_mono. by intros t ?%not_elem_of_nil. }
  destruct (consider_all_step VAL_MAX BLOOM_BYTES HB Hbloom (device (db_wal db)) L (own_node db)
    (iter (db_table db)) contents key mx _ HV exclude decomp (visit_order LEVELS db) []
    (memtable_acc VAL_MAX db key mx)) as (a & Hy & Ha); auto.
  { apply Forall_forall. intros t Ht. apply Hr. by apply Hts. }
  exists (finish_read a buf now). split.
  - eapply yields_bind_ok; [exact Hy | apply yields_pure].
  - cbn [app] in Ha. apply (finish_read_reads (E := E) _ _ HV _ _ _ buf now) in Ha. revert Ha.
    apply reads_ext; intros; [apply point_iff | apply cover_iff]; auto.
Qed.
Lemma filter_included_none ts : List.filter (included None) ts = ts.
Proof. induction ts as [|t ts IH]; [done |]. cbn. by rewrite IH. Qed.

Lemma readable_set_cache db L contents c :
  readable db L contents -> truthful (device (db_wal db)) L c ->
  readable (set_cache db (from_option cell (db_cache db) c)) L contents.
Proof. intros [H1 H2 H3 H4 H5 H6] Hc. split; try done. destruct c as [p |]; done. Qed.

Lemma on_handle_step {A} (db : Db D) L contents (m : cached E A) r :
  readable db L contents -> yields (device (db_wal db)) L m r ->
  exists c, on_handle db m = Some (set_cache db c, r) /\ readable (set_cache db c) L contents.
Proof.
  intros Hr Hy. destruct (Hy _ (rb_cache _ _ _ Hr)) as (c & Em & Hc & _).
  exists (from_option cell (db_cache db) c). unfold on_handle. rewrite Em.
  split; [done | by apply readable_set_cache].
Qed.

(** The memtable's half of [rdel_hides]. *)
Lemma memtable_hides db key mx above :
  Forall (fun e => (0 < Memtable.seq e)%Z) (iter (db_table db)) ->
  match max_covering_rdel (db_table db) key mx with
  | Some q => version_gt (memtable (own_node db) q) above
  | None => false
  end = true <->
  exists e, e ∈ iter (db_table db) /\ Memtable.covers key mx e /\
    version_gt (memtable (own_node (D := D) db) (Memtable.seq e)) above = true.
Proof.
  intros Hs. rewrite Forall_forall in Hs.
  pose proof (max_covering_rdel_iter (db_table db) key mx) as Hr.
  destruct (max_covering_rdel (db_table db) key mx) as [q |].
  - destruct Hr as (e & He & Hc & -> & Hall). split; [eauto |]. intros (e' & He' & Hc' & G).
    destruct (version_gt (memtable (own_node db) (Memtable.seq e)) above) eqn:G'; [done |].
    apply (version_below _ _ (Memtable.seq e')) in G'; [| split; [by apply Hs | by apply Hall]].
    unfold memtable in G. congruence.
  - split; [done |]. intros (e & He & Hc & _). by apply (Hr e) in Hc.
Qed.

Lemma rdel_hides_step (db : Db D) L contents key mx above :
  readable db L contents -> Forall (fun e => (0 < Memtable.seq e)%Z) (iter (db_table db)) ->
  exists b, yields (device (db_wal db)) L (rdel_hides LEVELS db key mx above) (Ok b) /\
    (b = true <-> exists c, db_cover db contents key mx c /\ version_gt c above = true).
Proof.
  intros Hr Hs. pose proof (memtable_hides db key mx above Hs) as Hm. unfold rdel_hides.
  set (mem := match max_covering_rdel (db_table db) key mx with Some _ => _ | None => _ end) in *.
  set (ts := concat _).
  assert (forall t, t ∈ ts <-> t ∈ tables (db_manifest db)) as Hts.
  { intros t. rewrite elem_of_levels by apply Hr. unfold ts. rewrite list_elem_of_In, in_concat. split.
    - intros (l & Hl & Ht). apply in_map_iff in Hl as (li & <- & Hli%in_seq). exists li.
      split; [lia |]. apply list_elem_of_In in Ht. unfold level in Ht.
      by rewrite (proj2 (Nat.leb_gt _ _)) in Ht by lia.
    - intros (li & Hli & Ht). exists (level_refs (db_manifest db) li). split; [| by apply list_elem_of_In].
      apply in_map_iff. exists li. split; [| apply in_seq; lia].
      unfold level. by rewrite (proj2 (Nat.leb_gt _ _)) by lia. }
  destruct mem eqn:Em.
  - exists true. split; [apply yields_ret |]. split; [intros _ | done].
    destruct (proj1 Hm eq_refl) as (e & He & Hc & G). eexists. split; [by apply cover_mem | done].
  - destruct (hides_loop_step VAL_MAX BLOOM_BYTES HB Hbloom (device (db_wal db)) L contents key mx above ts)
      as (b & Hy & Hb).
    { apply Forall_forall. intros t Ht. by apply Hr, Hts. }
    exists b. split; [done |]. rewrite Hb. split.
    + intros (t & c & Ht & (Hc & r & Hr' & Hk & ->) & G). eexists. split; [| exact G].
      constructor; auto. by apply Hts.
    + intros (c & [e He Hc | t r Ht Hc Hr' Hk] & G).
      * enough (false = true) by done. apply Hm. eauto.
      * exists t. eexists. split; [by apply Hts |]. split; [split; [done | eauto] | done].
Qed.
End reading.

(** A database written by one node is orderly, whatever its seal clocks. *)
Lemma one_node_orderly {D E} `{Dev : !BlockDevice D E} VAL_MAX KEY_MAX LEVELS TABLES CAP ARENA BLOOM_BYTES
  (db : Db D) L contents key mx :
  readable VAL_MAX KEY_MAX LEVELS TABLES CAP ARENA BLOOM_BYTES db L contents ->
  Forall (fun e => (0 < Memtable.seq e)%Z) (iter (db_table db)) ->
  Forall (fun t => node_id t = own_node db) (tables (db_manifest db)) ->
  orderly (db_versions db contents key mx).
Proof.
  intros Hr Hs Hn. rewrite Forall_forall in Hs. rewrite Forall_forall in Hn.
  apply (orderly_one_node _ (own_node db)).
  intros v [(h & [e He Hv | t e Ht Hc He Hk Hm] & <-) | [e He Hv | t r Ht Hc Hr' Hk]]; cbn.
  - split; [by apply Hs | done].
  - pose proof (tk_seqs _ _ _ _ _ _ (rb_tables _ _ _ _ _ _ _ _ _ _ Hr t Ht)) as Hq.
    rewrite Forall_forall in Hq. specialize (Hq e He). split; [lia | by apply Hn].
  - split; [by apply Hs | done].
  - pose proof (tk_rseqs _ _ _ _ _ _ (rb_tables _ _ _ _ _ _ _ _ _ _ Hr t Ht)) as Hq.
    rewrite Forall_forall in Hq. specialize (Hq r Hr'). split; [lia | by apply Hn].
Qed.

(** C20 A read answers from the newest version.  On an open handle with well-formed
    tables, and versions the merge rule ranks (one node, or clocks that agree with the
    sequence numbers), every timed read at any snapshot terminates and answers from
    the newest version of the key at or below the snapshot, over the memtable and all
    tables whose bounds hold the key, whatever was pruned, cached or compressed: its
    value, or nothing when it is a tombstone, a newer range tombstone covers the key or
    it expired (never an older version), or the exact length a short buffer needs.
    Only the cache of the handle changes, and it stays true.  A handle not open and a
    read in flight are refused. *)
Theorem get_reads_newest {D E} `{Dev : !BlockDevice D E} {Laws : DeviceLaws D E}
  (VAL_MAX KEY_MAX LEVELS TABLES CAP ARENA BLOOM_BYTES : nat) (db : Db D) L contents decomp key buf mx now
  (HB : (49 <= BLOCK)%nat) (Hbloom : (BLOOM_BYTES + CRC_LEN <= BLOCK)%nat)
  (Hr : readable VAL_MAX KEY_MAX LEVELS TABLES CAP ARENA BLOOM_BYTES db L contents)
  (Hd : length decomp = BLOCK) (HV : orderly (db_versions db contents key mx)) :
  (exists c r,
     get_at_with_time VAL_MAX LEVELS BLOOM_BYTES false db decomp key buf mx now = Some (set_cache db c, r) /\
     reads (db_point db contents key mx) (db_cover db contents key mx) now buf r /\
     readable VAL_MAX KEY_MAX LEVELS TABLES CAP ARENA BLOOM_BYTES (set_cache db c) L contents) /\
  get_at_with_time VAL_MAX LEVELS BLOOM_BYTES true db decomp key buf mx now =
    Some (set_cache db (db_cache db), Err Busy) /\
  get_at_with_time VAL_MAX LEVELS BLOOM_BYTES false (set_opened db false) decomp key buf mx now =
    Some (set_opened db false, Err NotOpen).
Proof.
  assert (ensure_open (E := E) db = Ok tt) as Eo.
  { unfold ensure_open. by rewrite (rb_open _ _ _ _ _ _ _ _ _ _ Hr). }
  split; [| split; [unfold get_at_with_time; by rewrite Eo | done]].
  destruct (read_point_step VAL_MAX KEY_MAX LEVELS TABLES CAP ARENA BLOOM_BYTES HB Hbloom db L contents
    decomp key buf mx now None Hr Hd HV) as (r & Hy & Hreads).
  destruct (on_handle_step VAL_MAX KEY_MAX LEVELS TABLES CAP ARENA BLOOM_BYTES db L contents _ r Hr Hy)
    as (c & Eh & Hr').
  exists c, r. unfold get_at_with_time. rewrite Eo. split; [done |]. split; [| done].
  cbv zeta in Hreads. revert Hreads. rewrite filter_included_none. done.
Qed.

(** The hiding test of the scans is exact.  [rdel_hides] terminates, changes nothing
    but the cache, and returns true exactly when some range tombstone at or below the
    snapshot, in the memtable or in a table whose bounds hold the key, covers the key
    and is newer than the given version, with the prunes and the early exit. *)
Theorem rdel_hides_exact {D E} `{Dev : !BlockDevice D E} {Laws : DeviceLaws D E}
  (VAL_MAX KEY_MAX LEVELS TABLES CAP ARENA BLOOM_BYTES : nat) (db : Db D) L contents key mx above
  (HB : (49 <= BLOCK)%nat) (Hbloom : (BLOOM_BYTES + CRC_LEN <= BLOCK)%nat)
  (Hr : readable VAL_MAX KEY_MAX LEVELS TABLES CAP ARENA BLOOM_BYTES db L contents)
  (Hs : Forall (fun e => (0 < Memtable.seq e)%Z) (iter (db_table db))) :
  exists b, yields (device (db_wal db)) L (rdel_hides LEVELS db key mx above) (Ok b) /\
    (b = true <-> exists c, db_cover db contents key mx c /\ version_gt c above = true).
Proof. by apply (rdel_hides_step VAL_MAX KEY_MAX LEVELS TABLES CAP ARENA BLOOM_BYTES). Qed.

(** ** A database with one table and one newer put *)

Module ReadWitness.
#[local] Instance dev : BlockDevice MemDisk.disk Empty_set := MemDisk.device 64.
#[local] Instance dev_laws : DeviceLaws MemDisk.disk Empty_set := MemDisk.laws 64.

Definition rd_disk : MemDisk.disk := fst (write_table (E := Empty_set) 8 4 ∅ 20 3 demo_entries None).
Definition rd_ref : TableRef :=
  mkRef 1 20 5 (mkBound 1 [97; 0; 0; 0]%Z) (mkBound 1 [99; 0; 0; 0]%Z) 5 2 4 0 0 0.
Definition rd_manifest : Manifest := mkManifest 1 10 2 5 5 [rd_ref] [1%nat].
Definition rd_table : MemTable :=
  match Memtable.insert (E := Empty_set) 8 64 4 4 (Memtable.new 8 64) [98]%Z [7]%Z 6 false with
  | Ok t => t
  | Err _ => Memtable.new 8 64
  end.
Definition rd_db : Db MemDisk.disk :=
  set_opened (set_manifest (set_table
    (db_new (E := Empty_set) 4 8 64 1 1 0 rd_disk (config_new 10 14 20 60 0 4)) rd_table) rd_manifest) true.
Definition rd_contents (t : TableRef) : Contents := (demo_entries, []).

Lemma rd_table_filled : filled Empty_set 8 64 4 4 rd_table [mkEntry [98]%Z [7]%Z 6 false false 0].
Proof. by apply (filled_step (Memtable.new 8 64) [] (MInsert [98]%Z [7]%Z 6 false)); [apply filled_new | |]. Qed.

Lemma rd_pool : pool_wf 1 1 4 rd_manifest.
Proof. exists [(0%nat, rd_ref)]. split; [by repeat constructor | by repeat constructor | cbn; lia | done | done]. Qed.

Lemma rd_on : table_on (E := Empty_set) 8 rd_disk 20 (chunks demo_entries) [] 3 4 2.
Proof.
  destruct (write_table (E := Empty_set) 8 4 ∅ 20 3 demo_entries None) as [d' r] eqn:Ew.
  assert (r = Ok 5%nat) as -> by (apply (f_equal snd) in Ew; cbn [snd] in Ew; rewrite <- Ew; vm_compute; reflexivity).
  destruct (write_table_step (E := Empty_set) 8 4 ltac:(by_compute) ltac:(by_compute) ltac:(by_compute)
    ltac:(by_compute) ∅ 20 3 demo_entries None d' (Ok 5%nat)) as [_ [_ Hon]].
  - apply (bool_decide_unpack _). vm_compute. exact I.
  - lia.
  - lia.
  - vm_compute. discriminate.
  - vm_compute. discriminate.
  - exact Ew.
  - apply (f_equal fst) in Ew. cbn [fst] in Ew. unfold rd_disk. rewrite Ew. exact Hon.
Qed.

Lemma rd_readable : readable (E := Empty_set) 4 4 1 1 8 64 8 rd_db (fun _ _ => True) rd_contents.
Proof.
  pose proof (filled_inv ex_consts _ _ rd_table_filled) as (Hw & Hp & _).
  split; [done | exact Hw | | exact rd_pool | | split; [apply Cache.new_wf | intros t b blk (en & Hi & _); by apply not_elem_of_nil in Hi]].
  - unfold mem_ok. cbn [rd_db set_opened set_manifest db_table set_table set_core]. rewrite Hp. by_compute.
  - intros t ->%list_elem_of_singleton. split.
    + exists (chunks demo_entries), [], 3%Z, 4%Z, 2%Z. split; [apply chunks_concat |]. split; [done |].
      split; [exact rd_on | done].
    + done.
    + vm_compute. discriminate.
    + repeat constructor; apply (bool_decide_unpack _); vm_compute; exact I.
    + by_compute.
    + constructor.
    + by_compute.
Qed.
Lemma rd_seqs : Forall (fun e => (0 < Memtable.seq e)%Z) (iter (db_table rd_db)).
Proof. by_compute. Qed.

Lemma get_reads_newest_witness :
  exists c r,
    get_at_with_time (E := Empty_set) 4 1 8 false rd_db (replicate 64 0%Z) [97]%Z [0; 0]%Z 4 0 =
      Some (set_cache rd_db c, r) /\
    reads (db_point rd_db rd_contents [97]%Z 4) (db_cover rd_db rd_contents [97]%Z 4) 0 [0; 0]%Z r.
Proof.
  destruct (get_reads_newest (E := Empty_set) 4 4 1 1 8 64 8 rd_db (fun _ _ => True) rd_contents
    (replicate 64 0%Z) [97]%Z [0; 0]%Z 4 0 ltac:(by_compute) ltac:(by_compute) rd_readable eq_refl
    (one_node_orderly 4 4 1 1 8 64 8 rd_db (fun _ _ => True) rd_contents [97]%Z 4 rd_readable rd_seqs
       ltac:(by_compute))) as [(c & r & Eg & Hr & _) _].
  exists c, r. split; [exact Eg | exact Hr].
Defined.

Lemma rdel_hides_exact_witness :
  exists b, yields (E := Empty_set) (device (db_wal rd_db)) (fun _ _ => True) (rdel_hides 1 rd_db [97]%Z 9 ZERO) (Ok b).
Proof.
  destruct (rdel_hides_exact (E := Empty_set) 4 4 1 1 8 64 8 rd_db (fun _ _ => True) rd_contents
    [97]%Z 9 ZERO ltac:(by_compute) ltac:(by_compute) rd_readable rd_seqs) as (b & Hy & _).
  exists b. exact Hy.
Defined.
End ReadWitness.
