(* ===== verification/DbFlush.v ===== *)
(** * Flush: [src/db/flush.rs]

    The memtable becomes a table in a free slot, a manifest commit makes it visible,
    and the memtable and the log start over.  The theorems say that a flush never
    changes what a read returns, that a failed one leaves the handle as it was, and
    that only its slot, the log and the manifest copies are written. *)

From stdpp Require Import base numbers list.
From Stdlib Require Import ZArith Lia Sorting.Sorted.
From S2P Require Import Prelude Device Compress Version Slots Cache Memtable Wal Manifest ManifestPool ManifestEdit ManifestCodec ManifestLog ManifestCrash SstPlan SstWriter SstReader SstBlock SstImage SstIndex SstRdel SstTable SstBuild Db DbWrite DbOpen DbRead.

(** ** The code *)

Section flush.
  Context {D E : Type} `{Dev : !BlockDevice D E}.
  (** The const generics. *)
  Variables KEY_MAX VAL_MAX CAP ARENA LEVELS TABLES BLOOM_BYTES : nat.
  Implicit Types db : Db D.

(** What [device_mut()] leaves behind, and the manifest with it. *)
Definition set_device db (d : D) : Db D :=
  let w := db_wal db in
  set_wal db (mkWriter d (wal_start w) (wal_end w) (stage w) (stage_len w) (dirty_to w) (next_block w)
                (w_max_seq w) (group_open w)).

(** [self.manifest.commit_edit(&edit, self.wal.device_mut(), ..)] *)
Definition commit_manifest db (edit : ManifestEdit) : Db D * result unit (Error E) :=
  let '(m, d, r) :=
    commit_edit LEVELS TABLES KEY_MAX (db_manifest db) edit (device (db_wal db)) (manifest_layout (cfg db)) in
  (set_manifest (set_device db d) m, r).

Definition wrap_wal_if_full db : Db D * result unit (Error E) :=
  if (next_block (db_wal db) <? c_wal_end (cfg db))%Z then (db, Ok tt)
  else
    let edit := edit_set_wal_head (EMPTY_EDIT KEY_MAX) (c_wal_start (cfg db)) in
    let edit := edit_note_flushed edit (next_seq db) in
    match commit_manifest db edit with
    | (db, Err e) => (db, Err e)
    | (db, Ok _) => (set_wal db (reset_to (db_wal db) (c_wal_start (cfg db))), Ok tt)
    end.

Definition write_flush_rdel (d : D) (t : MemTable) (base : u64) (buf : bytes) : D * result nat (Error E) :=
  write_rdel_blocks d base buf (flush_rdels (iter t)).

(** Pass 2: the table's blocks. *)
Definition write_flush_table (d : D) (t : MemTable) (base : u64) (k : u8) (plan : TablePlan) (rdel : RdelPlan)
  : D * result unit (Error E) :=
  let w := with_block_limit (SstWriter.new BLOOM_BYTES KEY_MAX base k) (Z.of_nat (tp_data_blocks plan)) in
  match push_all KEY_MAX d w (flush_points (iter t)) (Some Compress.new) with
  | (d, _, _, Err e) => (d, Err e)
  | (d, w, cs, Ok _) =>
      match seal_data d w cs with
      | (d, _, _, Err e) => (d, Err e)
      | (d, w, _, Ok data_blocks) =>
          match u64_checked_add base (Z.of_nat data_blocks) with
          | None => (d, Err TableTooLarge)
          | Some rdel_base =>
              match write_flush_rdel d t rdel_base (tw_data w) with
              | (d, Err e) => (d, Err e)
              | (d, Ok rdel_written) =>
                  match finish_meta KEY_MAX d w (Z.of_nat rdel_written) (rp_min_seq rdel) with
                  | (d, _, Err e) => (d, Err e)
                  | (d, _, Ok _) => (d, Ok tt)
                  end
              end
          end
      end
  end.

(** The edit of the commit. *)
Definition flush_edit db (base : u64) (total : nat) (plan : TablePlan) (rdel : RdelPlan)
  : result ManifestEdit (Error E) :=
  let id := next_table_id (db_manifest db) in
  if (U32_MAX <? id + 1)%Z then Err CounterExhausted
  else
    let edit := edit_advance_next_table_id (EMPTY_EDIT KEY_MAX) (id + 1) in
    let? tref := flush_tref KEY_MAX (c_node_id (cfg db)) id base total plan rdel in
    let? edit := edit_add edit 0 tref in
    let wraps := (c_wal_end (cfg db) <=? next_block (db_wal db))%Z in
    let edit := edit_set_wal_head edit (if wraps then c_wal_start (cfg db) else next_block (db_wal db)) in
    Ok (edit_note_flushed edit (next_seq db)).

(** After the commit point. *)
Definition flush_done db (slot : u32) : Db D :=
  let wraps := (c_wal_end (cfg db) <=? next_block (db_wal db))%Z in
  let db := set_slots db (claim (db_slots db) slot) (job_active db) (job_inputs db) in
  let db := set_table db (Memtable.clear (db_table db)) in
  if wraps then set_wal db (reset_to (db_wal db) (c_wal_start (cfg db))) else db.

(** From the plans on. *)
Definition flush_planned db (plan : TablePlan) (rdel : RdelPlan) : Db D * result unit (Error E) :=
  let k := bloom_k (Z.of_nat (BLOOM_BYTES * 8)) (Z.of_nat (tp_entry_count plan)) in
  let total := (rp_blocks rdel + tp_data_blocks plan + 3)%nat in
  if (U64_MAX <? Z.of_nat total)%Z then (db, Err TableTooLarge)
  else
    match free_slot_for LEVELS TABLES db (Z.of_nat total) with
    | Err e => (db, Err e)
    | Ok slot =>
        let base := slot_base (db_slots db) slot in
        match write_flush_table (device (db_wal db)) (db_table db) base k plan rdel with
        | (d, Err e) => (set_device db d, Err e)
        | (d, Ok _) =>
            let db := set_device db d in
            match flush_edit db base total plan rdel with
            | Err e => (db, Err e)
            | Ok edit =>
                match commit_manifest db edit with
                | (db, Err e) => (db, Err e)
                | (db, Ok _) => (flush_done db slot, Ok tt)
                end
            end
        end
    end.

Definition flush db : Db D * result unit (Error E) :=
  match ensure_open db with
  | Err e => (db, Err e)
  | Ok _ =>
      match Wal.commit (db_wal db) with
      | (w, Err e) => (set_wal db w, Err e)
      | (w, Ok _) =>
          let db := set_wal db w in
          if is_empty (db_table db) then wrap_wal_if_full db
          else if l0_is_full TABLES (db_manifest db) then (db, Err (no_room LEVELS TABLES db))
          else
            match plan_table BLOCK KEY_MAX (flush_points (iter (db_table db))) with
            | Err e => (db, Err e)
            | Ok plan =>
                match plan_rdel_blocks BLOCK (flush_rdels (iter (db_table db))) with
                | Err e => (db, Err e)
                | Ok rdel => flush_planned db plan rdel
                end
            end
      end
  end.
End flush.

(** ** Pass 1 plans what pass 2 writes *)

Section flushed.
  Context {D E : Type} `{Laws : DeviceLaws D E}.
  Context (KEY_MAX VAL_MAX CAP ARENA LEVELS TABLES BLOOM_BYTES : nat).
  Context (HB : (49 <= BLOCK)%nat) (HB64 : (Z.of_nat BLOCK <= 65536)%Z).
  Context (Hbloom : (BLOOM_BYTES + CRC_LEN <= BLOCK)%nat) (HK : (Z.of_nat KEY_MAX <= U16_MAX)%Z).

Lemma plan_loop_chunks es : forall a bs cur a',
  a_blocks a = length bs -> a_payload a = payload_len cur -> a_n a = length cur ->
  plan_loop (E := E) BLOCK a es = Ok a' ->
  a_blocks a' = length (fst (fold_left chunk_step es (bs, cur))) /\
  a_n a' = length (snd (fold_left chunk_step es (bs, cur))).
Proof.
  induction es as [|e es IH]; intros a bs cur a' Hb Hp Hn; cbn [plan_loop fold_left].
  { intros [= <-]. auto. }
  unfold plan_step. destruct (entry_sizes e) as [[[n kl] vl] |] eqn:Es; [| done].
  destruct (entry_sizes_wf _ _ _ _ Es) as (-> & _). unfold chunk_step at 2 4. rewrite Hb, Hp, Hn.
  destruct (entry_fits BLOCK (payload_len cur) (length cur) (elen e)).
  - apply IH; cbn [a_blocks a_payload a_n]; [done | | by rewrite length_app].
    rewrite payload_len_app, payload_len_cons. cbn. lia.
  - destruct (length cur =? 0)%nat; [done |]. destruct (negb _); [done |].
    apply IH; cbn [a_blocks a_payload a_n]; [by rewrite length_app | | done].
    rewrite payload_len_cons. cbn. lia.
Qed.

Lemma plan_table_chunks es p :
  plan_table (E := E) BLOCK KEY_MAX es = Ok p -> tp_data_blocks p = length (chunks es).
Proof.
  unfold plan_table. destruct (plan_loop BLOCK _ es) as [a |] eqn:Ep; [| done].
  destruct (plan_bound _ _) as [b1 |]; [| done]. destruct (plan_bound _ (a_last a)) as [b2 |]; [| done].
  intros [= <-]. cbn [tp_data_blocks].
  destruct (plan_loop_chunks es (SstPlan.mkAcc 0 0 0 0 0 U64_MAX None None) [] [] _ eq_refl eq_refl eq_refl Ep) as [Hb Hn].
  unfold chunks. destruct (fold_left chunk_step es ([], [])) as [bs cur]. cbn [fst snd] in *.
  rewrite Hn, Hb. destruct (0 <? length cur)%nat; [by rewrite length_app | done].
Qed.

Lemma plan_rdel_min rs : forall p payload p' payload',
  Forall (fun r => (0 <= rd_seq r)%Z) rs -> (0 <= rp_min_seq p <= U64_MAX)%Z ->
  plan_rdel_loop (E := E) BLOCK p payload rs = Ok (p', payload') -> (0 <= rp_min_seq p' <= U64_MAX)%Z.
Proof.
  induction rs as [|r rs IH]; intros p payload p' payload' Hs Hp; cbn [plan_rdel_loop].
  { by intros [= <- <-]. }
  apply Forall_cons in Hs as [Hr Hs]. destruct (BLOCK <? _)%nat; [done |].
  apply IH; [done |]. cbn [rp_min_seq]. destruct (rd_seq r <? rp_min_seq p)%Z eqn:El; bool_lia.
Qed.

(** ** Pass 2 puts the planned table on the device *)

Lemma write_flush_table_step d t base k p rp d' r :
  let es := flush_points (iter t) in
  let rs := flush_rdels (iter t) in
  plan_table (E := E) BLOCK KEY_MAX es = Ok p -> plan_rdel_blocks (E := E) BLOCK rs = Ok rp ->
  Forall (entry_ok1 KEY_MAX) es -> Forall rdel_fits rs -> (0 <= base)%Z -> (0 < k < 256)%Z ->
  (base + Z.of_nat (length (chunks es) + length (rchunks rs)) + 2 <= U64_MAX)%Z ->
  (Z.of_nat (length (rchunks rs)) <= U32_MAX)%Z -> (Z.of_nat (length es) <= U64_MAX)%Z ->
  write_flush_table KEY_MAX BLOOM_BYTES d t base k p rp = (d', r) ->
  same_outside d d' base (base + Z.of_nat (length (chunks es) + length (rchunks rs) + 3)) /\
  match r with
  | Ok _ => exists ms, table_on BLOOM_BYTES d' base (chunks es) (rchunks rs) k (Z.of_nat (length es)) ms
  | Err e => write_failure base (chunks es) e
  end.
Proof.
  intros es rs Hp Hrp Hes Hrs Hpos Hk Hend Hrn Hcn. unfold write_flush_table. fold es.
  rewrite (plan_table_chunks _ _ Hp).
  destruct (push_all _ _ _ _ _) as [[[d1 w1] cs1] r1] eqn:Ep.
  pose proof (tw_limit_inv BLOOM_BYTES KEY_MAX d base k U64_MAX (Z.of_nat (length (chunks es))) _ _ _
    (tw_new_inv BLOOM_BYTES KEY_MAX HB Hbloom d base k)) as Hi0.
  destruct (data_section_step BLOOM_BYTES KEY_MAX HB HB64 Hbloom HK d base k (Z.of_nat (length (chunks es))) _ es _ _ _ _ _ Hi0 Hes Hpos
    ltac:(lia) ltac:(lia) Ep) as [Ho1 Hr1].
  destruct r1 as [[] | e1]; [| intros [= <- <-]; split; [eapply same_outside_weaken; [exact Ho1 | lia | lia] | done]].
  destruct (seal_data d1 w1 cs1) as [[[d2 w2] cs2] r2] eqn:Es. destruct (Hr1 _ _ _ _ eq_refl) as [Ho2 Hr2].
  destruct r2 as [n | e2]; [| intros [= <- <-]; split; [eapply same_outside_weaken; [exact Ho2 | lia | lia] | done]].
  destruct Hr2 as [-> Hi2]. rewrite u64_add_ok by lia. unfold write_flush_rdel. fold rs.
  destruct (write_rdel_blocks d2 _ _ rs) as [d3 r3] eqn:Er.
  assert (0 <= base + Z.of_nat (length (chunks es)))%Z as Hb0 by lia.
  assert (base + Z.of_nat (length (chunks es)) + Z.of_nat (length (rchunks rs)) <= U64_MAX)%Z as Hb1 by lia.
  destruct (write_rdel_section ltac:(unfold RDEL_TRAILER; lia) HB64 _ _ _ _ _ _
    (ti_data_len _ _ _ _ _ _ _ _ _ Hi2) Hrs Hb0 Hb1 Hrn Er) as [Ho3 Hr3].
  pose proof (same_outside_trans _ _ _ _ _ _ _ Ho2 Ho3) as Ho23.
  destruct r3 as [n3 | e3].
  2: { intros [= <- <-]. split; [eapply same_outside_weaken; [exact Ho23 | lia | lia] | by left]. }
  destruct Hr3 as [-> Hsec].
  pose proof (tw_inv_device BLOOM_BYTES KEY_MAX HB Hbloom _ _ _ _ _ _ _ _ _ _ Hi2 Ho3 (Z.le_refl _)) as Hi3.
  destruct (finish_meta KEY_MAX d3 w2 _ _) as [[d4 w4] r4] eqn:Ef.
  assert (concat (chunks es) = es) as Ecc by apply chunks_concat.
  assert (0 <= rp_min_seq rp <= U64_MAX)%Z as Hmin.
  { unfold plan_rdel_blocks in Hrp. destruct (plan_rdel_loop BLOCK _ 0 rs) as [[p1 pl1] |] eqn:El; [| done].
    injection Hrp as <-. cbn [rp_min_seq]. eapply plan_rdel_min; [| | exact El]; [| cbn; unfold U64_MAX; lia].
    eapply Forall_impl; [exact Hrs |]. intros x [(_ & _ & Hx & _) _]. lia. }
  destruct (finish_meta_step BLOOM_BYTES KEY_MAX HB Hbloom HK d3 base k _ _ (chunks es) (rchunks rs) _ _ _ _ Hi3 Hpos Hk Hsec
    ltac:(lia) Hrn ltac:(by rewrite Ecc) Hmin ltac:(rewrite Ecc; by apply (min_seq_bounds BLOOM_BYTES KEY_MAX HB Hbloom), (entries_wf KEY_MAX)) Ef)
    as [Ho4 Hr4].
  pose proof (same_outside_trans _ _ _ _ _ _ _ Ho23 Ho4) as Ho.
  destruct r4 as [ft | e4]; intros [= <- <-]; (split; [eapply same_outside_weaken; [exact Ho | lia | lia] |]).
  - destruct Hr4 as [Hon _]. rewrite Ecc in Hon. eauto.
  - by left.
Qed.

(** ** The memtable as a table *)

(** An entry as the write path stores it. *)
Definition entry_typed (e : Entry) : Prop :=
  (0 < Memtable.seq e <= U64_MAX)%Z /\ bytes_ok (key e) /\ bytes_ok (val e) /\
  (0 <= expire_at e <= U64_MAX)%Z /\ logged_in_block (BLOCK := BLOCK) e.

  Context (Hrec : (23 + KEY_MAX + VAL_MAX <= BLOCK)%nat).
  Context (Hrd : (12 + 2 * KEY_MAX + RDEL_TRAILER <= BLOCK)%nat).

Lemma flush_points_ok l :
  Forall (entry_ok KEY_MAX VAL_MAX) l -> Forall entry_typed l ->
  Forall (entry_ok1 KEY_MAX) (flush_points l) /\
  Forall (fun e => (length (se_val e) <= VAL_MAX)%nat) (flush_points l).
Proof.
  intros Hok Hty. split; apply Forall_forall; intros x (e & -> & He)%list_elem_of_fmap;
    apply list_elem_of_In, filter_In in He as [He Hr]; apply list_elem_of_In in He;
    apply negb_true_iff in Hr; rewrite Forall_forall in Hok, Hty;
    pose proof (Hok e He) as [Hk Hv]; rewrite Hr in Hv.
  - destruct (Hty e He) as (Hs & Hkb & Hvb & Hex & Hlog).
    destruct (point_packable (BLOCK := BLOCK) (KEY_MAX := KEY_MAX) (VAL_MAX := VAL_MAX) Hrec e
      ltac:(split; [done | by rewrite Hr]) Hlog Hr) as [(Hpk & Hpv & Hpl) _].
    unfold entry_ok1, entry_wf. cbn [sst_from se_key se_val se_seq se_expire_at] in *.
    unfold U16_MAX in *. split; [| split; [lia |]].
    + split_and!; try lia; try done.
      * unfold se_stored. cbn [sst_from se_tombstone se_val]. destruct (tombstone e); cbn [length]; lia.
      * unfold se_stored. cbn [sst_from se_tombstone se_val]. destruct (tombstone e); [constructor | done].
    + unfold entry_fits. rewrite (proj2 (Nat.ltb_ge _ _)) by lia.
      change (MAX_ENTRIES_PER_BLOCK <=? 0)%nat with false. cbv zeta. apply Nat.leb_le.
      change (0 / RESTART_INTERVAL)%nat with 0%nat. lia.
  - exact Hv.
Qed.

Lemma flush_rdels_ok l :
  Forall (entry_ok KEY_MAX VAL_MAX) l -> Forall entry_typed l -> Forall rdel_fits (flush_rdels l).
Proof.
  intros Hok Hty. apply Forall_forall. intros x (e & -> & He)%list_elem_of_fmap.
  apply list_elem_of_In, filter_In in He as [He Hr]. apply list_elem_of_In in He.
  rewrite Forall_forall in Hok, Hty. pose proof (Hok e He) as [Hk Hv]. rewrite Hr in Hv.
  destruct Hv as [Hlt Hv]. destruct (Hty e He) as (Hs & Hkb & Hvb & _).
  pose proof (length_above _ _ Hlt) as Hvl. unfold rdel_fits, rdel_wf, U16_MAX in *.
  cbn [rd_start rd_end rd_seq]. unfold rlen, rdel_entry_len. cbn [rd_start rd_end]. split_and!; auto; lia.
Qed.

Lemma flush_points_ordered l : StronglySorted before l -> version_ordered (flush_points l).
Proof.
  intros Hs. apply (StronglySorted_filter before (fun e => negb (range_del e))) in Hs.
  unfold flush_points. induction Hs as [|e l' Hs IH Hf]; cbn [map]; constructor; [done |].
  apply Forall_forall. intros x (e' & -> & He')%list_elem_of_fmap. rewrite Forall_forall in Hf.
  exact (Hf e' He').
Qed.

(** The ref a flush builds for a table on the device describes it. *)
Lemma flushed_table_ok d L l node id base p rp tref k ec ms :
  let es := flush_points l in
  let rs := flush_rdels l in
  plan_table (E := E) BLOCK KEY_MAX es = Ok p -> plan_rdel_blocks (E := E) BLOCK rs = Ok rp ->
  flush_tref (E := E) KEY_MAX node id base (rp_blocks rp + tp_data_blocks p + 3) p rp = Ok tref ->
  StronglySorted before l -> Forall (entry_ok KEY_MAX VAL_MAX) l -> Forall entry_typed l ->
  Forall (ref_spans tref) l -> table_on BLOOM_BYTES d base (chunks es) (rchunks rs) k ec ms ->
  (end_block tref <= U64_MAX)%Z ->
  (forall i, (Z.of_nat i < block_count tref)%Z -> L id (base + Z.of_nat i)%Z) ->
  table_ok VAL_MAX BLOOM_BYTES d L tref (es, rs) /\
  t_id tref = id /\ first_block tref = base /\ node_id tref = node /\
  block_count tref = Z.of_nat (length (chunks es) + length (rchunks rs) + 3).
Proof.
  intros es rs Hp Hrp Ht Hs Hok Hty Hspan Hon Hend HL.
  pose proof (plan_table_chunks _ _ Hp) as Ep. assert (rp_blocks rp = length (rchunks rs)) as Er by (by eapply plan_rdel_chunks; [unfold RDEL_TRAILER; lia |]).
  unfold flush_tref in Ht. destruct (try_u32 _) as [bc |] eqn:Eb; [| done].
  destruct (try_u32 (tp_entry_count p)) as [cnt |]; [| done].
  assert (t_id tref = id /\ first_block tref = base /\ node_id tref = node /\ block_count tref = bc /\
    Manifest.rdel_blocks tref = Z.of_nat (rp_blocks rp)) as (E1 & E2 & E3 & E4 & E5)
    by (injection Ht as <-; done).
  clear Ht. assert (bc = Z.of_nat (rp_blocks rp + tp_data_blocks p + 3)) as Ebc.
  { unfold try_u32 in Eb. destruct (_ <=? _)%Z; congruence. }
  rewrite Ep, Er in Ebc. rewrite Er in E5. rewrite Forall_forall in Hty, Hspan.
  split_and!; auto; [| rewrite E4, Ebc; lia]. split; cbn [fst snd].
  - exists (chunks es), (rchunks rs), k, ec, ms. rewrite E2, E4, E5.
    split_and!; [apply chunks_concat | apply rchunks_concat | done | lia | done].
  - rewrite E1, E2. exact HL.
  - exact Hend.
  - by apply flush_points_ordered.
  - apply Forall_forall. intros x (e & -> & He)%list_elem_of_fmap.
    apply list_elem_of_In, filter_In in He as [He _]. apply list_elem_of_In in He.
    destruct (Hty e He) as [? _]. destruct (Hspan e He) as [? _]. cbn. lia.
  - apply Forall_forall. intros x (e & -> & He)%list_elem_of_fmap.
    apply list_elem_of_In, filter_In in He as [He _]. apply list_elem_of_In in He.
    destruct (Hty e He) as [? _]. destruct (Hspan e He) as [? _]. cbn. lia.
  - apply flush_points_ok; [done |]. by apply Forall_forall.
Qed.
End flushed.

(** ** Edits that only add *)

(** An edit that removes, narrows and stamps nothing. *)
Definition plain (e : ManifestEdit) : Prop := removed e = 0%Z /\ narrowed e = 0%Z /\ stamped e = None.

Lemma bit_of_zero pos : Manifest.bit 0 pos = false.
Proof. unfold Manifest.bit. rewrite Z.shiftr_0_l. apply andb_false_r. Qed.

Lemma view_loop_plain e li pos refs pending :
  plain e -> (li = 0%nat \/ pending = None) ->
  view_loop e li pos refs pending = refs ++ option_list pending.
Proof.
  intros (Hr & Hn & Hs). revert pos pending. induction refs as [|r refs IH]; intros pos pending Hp; [by destruct pending |].
  cbn [view_loop]. rewrite Hr, Hn, Hs, bit_of_zero. destruct pending as [a |]; [| by rewrite IH by auto].
  destruct Hp as [-> | ?]; [| done]. cbn [Nat.ltb Nat.leb andb]. by rewrite IH by auto.
Qed.

Section edits.
  Context (LEVELS TABLES KEY_MAX : nat).

Lemma tables_levels m :
  pool_wf LEVELS TABLES KEY_MAX m -> tables m = concat (level_refs m <$> List.seq 0 LEVELS).
Proof.
  intros [T HT]. rewrite (tables_repr _ _ _ _ _ HT), <- (concat_all_levels _ _ _ m T HT). f_equal.
  apply list_fmap_ext. intros i l [-> Hi]%lookup_seq. symmetry. apply (level_repr _ _ _ _ _ HT). lia.
Qed.

Lemma plain_tables {E} m T e :
  man_ok LEVELS TABLES KEY_MAX m T -> shape_ok LEVELS TABLES -> edit_ok KEY_MAX e m ->
  check_edit (E := E) LEVELS TABLES m e = Ok tt -> plain e ->
  (forall lv t, added e = Some (lv, t) -> lv = 0%nat) ->
  exists T', man_ok LEVELS TABLES KEY_MAX (apply_checked LEVELS TABLES KEY_MAX m e) T' /\
    tables (apply_checked LEVELS TABLES KEY_MAX m e) ≡ₚ option_list (snd <$> added e) ++ tables m /\
    next_table_id (apply_checked LEVELS TABLES KEY_MAX m e) = Z.max (next_table_id m) (e_next_table_id e) /\
    m_seq (apply_checked LEVELS TABLES KEY_MAX m e) = m_seq m.
Proof.
  intros Hm Hs He Hc Hp Hl0.
  destruct (apply_checked_ok LEVELS TABLES KEY_MAX m T e Hs Hm He Hc) as (T' & Hm' & Hv & _).
  destruct (apply_checked_repr LEVELS TABLES KEY_MAX m e T (mo_repr _ _ _ _ _ Hm) (so_cap _ _ Hs) Hc
    (eo_unique _ _ _ He) (eo_sorted _ _ _ He)) as (_ & _ & Hsc & _).
  exists T'. split; [done |]. split.
  - rewrite (tables_repr _ _ _ _ _ (mo_repr _ _ _ _ _ Hm')), <- (concat_all_levels _ _ _ _ T' (mo_repr _ _ _ _ _ Hm')), <- Hv.
    rewrite (tables_levels m (ex_intro _ T (mo_repr _ _ _ _ _ Hm))). unfold view_levels.
    pose proof (so_levels _ _ Hs) as HL. destruct LEVELS as [|n]; [lia |].
    cbn [List.seq fmap list_fmap concat].
    assert (forall li, (0 < li)%nat -> view_level m e li = level_refs m li) as Hrest.
    { intros li Hli. unfold view_level. destruct (added e) as [[lv t] |] eqn:Ea.
      - rewrite (Hl0 lv t eq_refl). rewrite (proj2 (Nat.eqb_neq _ _)) by lia.
        rewrite view_loop_plain by auto. apply app_nil_r.
      - rewrite view_loop_plain by auto. apply app_nil_r. }
    assert (view_level m e 0 = level_refs m 0 ++ option_list (snd <$> added e)) as ->.
    { unfold view_level. rewrite view_loop_plain by auto. f_equal.
      destruct (added e) as [[lv t] |] eqn:Ea; [| done]. by rewrite (Hl0 lv t eq_refl). }
    replace (view_level m e <$> List.seq 1 n) with (level_refs m <$> List.seq 1 n).
    + rewrite <- !app_assoc. apply Permutation_app_swap_app.
    + apply list_fmap_ext. intros i l [-> Hi]%lookup_seq. symmetry. apply Hrest. lia.
  - rewrite Hsc. cbn [next_table_id m_seq set_refs]. destruct (scalars_view m e) as (S0 & S1 & S2 & S3 & S4). split; assumption.
Qed.
End edits.

(** ** A commit writes one manifest copy *)

Section committing.
  Context {D E : Type} `{Laws : DeviceLaws D E}.
  Context (LEVELS TABLES KEY_MAX : nat).

Lemma write_copy_outside m e sq start : forall n i (d d' : D) r,
  write_copy LEVELS n i m e sq start d = (d', r) ->
  same_outside d d' (start + Z.of_nat i) (start + Z.of_nat (i + n)).
Proof.
  induction n as [|n IH]; intros i d d' r; cbn [write_copy]; [intros [= <- <-]; apply same_outside_refl |].
  destruct (encode_view_block _ _ _ _ _ _) as [buf | err]; [| intros [= <- <-]; apply same_outside_refl].
  destruct (write_block d _ buf) as [d1 [[] | err]] eqn:Ew; intros Hw.
  - intros id Hid. rewrite (IH _ _ _ _ Hw) by lia. apply (read_unwritten _ _ _ _ _ _ Ew). lia.
  - injection Hw as <- <-. intros id Hid. apply (read_unwritten _ _ _ _ _ _ Ew). lia.
Qed.

Lemma write_copy_error m e sq start : forall n i (d d' : D) err,
  (forall j, (j < i + n)%nat -> exists b, encode_view_block (E := E) LEVELS BLOCK m e sq j = Ok b) ->
  write_copy LEVELS n i m e sq start d = (d', Err err) -> exists de, err = Device de.
Proof.
  induction n as [|n IH]; intros i d d' err Henc; cbn [write_copy]; [done |].
  destruct (Henc i ltac:(lia)) as [b ->]. destruct (write_block d _ b) as [d1 [[] | e1]].
  - apply IH. intros j Hj. apply Henc. lia.
  - intros [= <- <-]. eauto.
Qed.

(** A checked commit of a well-formed manifest stays inside the copies. *)
Lemma commit_edit_outside m T e (d : D) lay m' d' r :
  log_shape (D := D) (E := E) LEVELS TABLES KEY_MAX lay -> man_ok LEVELS TABLES KEY_MAX m T -> edit_ok KEY_MAX e m ->
  commit_edit LEVELS TABLES KEY_MAX m e d lay = (m', d', r) ->
  let st := stride (D := D) (E := E) LEVELS TABLES KEY_MAX in
  (exists k, (k < copies lay)%nat /\ same_outside d d' (copy_start lay k st) (copy_start lay k st + st)) /\
  match r with
  | Ok _ => check_edit (E := E) LEVELS TABLES m e = Ok tt /\
      m' = set_seq (apply_checked LEVELS TABLES KEY_MAX m e) (m_seq m + 1) /\ (m_seq m < U64_MAX)%Z
  | Err err => m' = m /\
      (check_edit (E := E) LEVELS TABLES m e = Err err \/ err = CounterExhausted \/ exists de, err = Device de)
  end.
Proof.
  intros Hs Hm He. cbv zeta. unfold commit_edit. pose proof (ls_copies _ _ _ _ Hs) as Hcop.
  assert (forall lo hi, same_outside d d lo hi) as Hrefl by (intros; apply same_outside_refl).
  destruct (check_edit LEVELS TABLES m e) as [[] | err] eqn:Hc.
  2: { intros [= <- <- <-]. split; [exists 0%nat; split; [lia | apply Hrefl] |]. auto. }
  unfold u64_checked_add. destruct (U64_MAX <? m_seq m + 1)%Z eqn:Emax.
  { intros [= <- <- <-]. split; [exists 0%nat; split; [lia | apply Hrefl] |]. auto. }
  destruct (apply_checked_ok LEVELS TABLES KEY_MAX m T e (ls_shape _ _ _ _ Hs) Hm He Hc) as (T' & Hok & Hvl & Hvb).
  assert (Z.of_nat (blocks_for BLOCK (view_body_len LEVELS m e)) <= stride (D := D) (E := E) LEVELS TABLES KEY_MAX)%Z as Hst.
  { rewrite (view_body_len_spec LEVELS KEY_MAX) by (by eapply view_levels_ok).
    assert (view_body LEVELS m e = man_body LEVELS (apply_checked LEVELS TABLES KEY_MAX m e) T') as -> by exact Hvb.
    destruct (man_framable (D := D) (E := E) LEVELS TABLES KEY_MAX lay _ T' 0 Hs Hok) as [_ H']; [unfold fits; lia | exact H']. }
  set (sq := (m_seq m + 1)%Z). fold (slot lay sq).
  destruct (write_copy _ _ _ _ _ _ _ _) as [d1 r1] eqn:Ew. apply write_copy_outside in Ew as Ho1.
  pose proof (slot_lt _ _ _ _ sq Hs) as Hlt.
  assert (same_outside d d1 (copy_start lay (slot lay sq) (stride LEVELS TABLES KEY_MAX))
    (copy_start lay (slot lay sq) (stride LEVELS TABLES KEY_MAX) + stride (D := D) (E := E) LEVELS TABLES KEY_MAX)) as Ho.
  { eapply same_outside_weaken; [exact Ho1 | lia | cbn [Nat.add] in *; lia]. }
  assert (forall err, r1 = Err err -> exists de, err = Device de) as Hdev1.
  { intros err ->. eapply write_copy_error; [| exact Ew]. intros j Hj. cbn [Nat.add] in Hj.
    pose proof Hj as Hj'. rewrite (view_body_len_spec LEVELS KEY_MAX) in Hj' by (by eapply view_levels_ok).
    assert (fits 64 sq) as Hfit.
    { pose proof (mo_seq _ _ _ _ _ Hm). unfold sq, fits, U64_MAX in *. bool_lia. }
    assert (man_ok LEVELS TABLES KEY_MAX (set_seq (apply_checked LEVELS TABLES KEY_MAX m e) sq) T') as Hn by by apply man_ok_set_seq.
    destruct (man_framable (D := D) (E := E) LEVELS TABLES KEY_MAX lay _ T' sq Hs Hn Hfit) as [Hf _].
    assert (view_body LEVELS m e = man_body LEVELS (set_seq (apply_checked LEVELS TABLES KEY_MAX m e) sq) T') as Eb by exact Hvb.
    rewrite (encode_view_frame LEVELS TABLES KEY_MAX BLOCK m T); rewrite ?Eb; eauto;
      first [apply Hs | apply Hf | rewrite <- Eb; exact Hj']. }
  destruct r1 as [[] | e1]; [| intros [= <- <- <-]; split; [eauto |]; destruct (Hdev1 _ eq_refl) as [de ->]; eauto].
  destruct (dev_flush d1) as [d2 [[] | e2]] eqn:Ef; intros [= <- <- <-];
    (split; [exists (slot lay sq); split; [done |]; intros id Hid; rewrite (read_flushed _ _ _ _ Ef); by apply Ho |]).
  - split_and!; [done | done | bool_lia].
  - eauto.
Qed.
End committing.

(** ** The new ref is encodable *)

Section refs.
  Context {E : Type} (BLOCK KEY_MAX : nat) (HK : (Z.of_nat KEY_MAX <= U16_MAX)%Z).

Lemma from_slice_ok k b : bytes_ok k -> from_slice KEY_MAX k = Some b -> bound_ok KEY_MAX b.
Proof.
  intros Hk. unfold from_slice. destruct (KEY_MAX <? length k)%nat eqn:El; [done |].
  destruct (try_u16 _); [| done]. intros [= <-]. bool_lia.
  assert (splice 0 k (replicate KEY_MAX 0%Z) = k ++ replicate (KEY_MAX - length k) 0%Z) as Es.
  { unfold splice. rewrite take_0. cbn [app Nat.add]. by rewrite drop_replicate. }
  split; cbn [kb_len kb_bytes]; rewrite ?Es; try lia.
  - rewrite length_app, length_replicate. lia.
  - apply bytes_ok_app. auto with horton.
  - unfold as_slice. cbn [kb_len kb_bytes]. by rewrite take_app_length.
Qed.

Lemma bound_min_ok a b : bound_ok KEY_MAX a -> bound_ok KEY_MAX b -> bound_ok KEY_MAX (bound_min a b).
Proof. intros. unfold bound_min. by repeat case_match. Qed.
Lemma bound_max_ok a b : bound_ok KEY_MAX a -> bound_ok KEY_MAX b -> bound_ok KEY_MAX (bound_max a b).
Proof. intros. unfold bound_max. by repeat case_match. Qed.

(** The plan so far: sequence numbers in range and keys made of bytes. *)
Definition acc_typed (a : PlanAcc) : Prop :=
  (0 <= a_max_seq a <= U64_MAX)%Z /\ (0 <= a_min_seq a <= U64_MAX)%Z /\
  (forall k, a_first a = Some k -> bytes_ok k) /\ (forall k, a_last a = Some k -> bytes_ok k).

Lemma plan_loop_typed es : forall a a',
  Forall (fun e => (0 <= se_seq e <= U64_MAX)%Z /\ bytes_ok (se_key e)) es ->
  acc_typed a -> plan_loop (E := E) BLOCK a es = Ok a' -> acc_typed a'.
Proof.
  induction es as [|e es IH]; intros a a' Hes Ha; cbn [plan_loop]; [by intros [= <-] |].
  apply Forall_cons in Hes as [[Hs Hk] Hes]. unfold plan_step.
  destruct (entry_sizes e) as [[[n kl] vl] |]; [| done].
  assert (forall bl pl n', acc_typed (SstPlan.mkAcc bl pl n' (a_count a + 1)
    (if (a_max_seq a <? se_seq e)%Z then se_seq e else a_max_seq a)
    (if (se_seq e <? a_min_seq a)%Z then se_seq e else a_min_seq a)
    (match a_first a with None => Some (se_key e) | f => f end) (Some (se_key e)))) as Hstep.
  { intros. destruct Ha as (H1 & H2 & H3 & H4). unfold acc_typed. cbn [a_max_seq a_min_seq a_first a_last].
    split_and!; try (by intros k [= <-]); try (repeat case_match; lia).
    intros k. destruct (a_first a); [apply H3 | by intros [= <-]]. }
  destruct (entry_fits _ _ _ _); [apply IH; [done | apply Hstep] |].
  destruct (a_n a =? 0)%nat; [done |]. destruct (negb _); [done |]. apply IH; [done | apply Hstep].
Qed.

Definition rdel_typed (p : RdelPlan) : Prop :=
  (0 <= rp_max_seq p <= U64_MAX)%Z /\ (0 <= rp_min_seq p <= U64_MAX)%Z /\
  (forall k, rp_first p = Some k -> bytes_ok k) /\ (forall k, rp_max_end p = Some k -> bytes_ok k).

Lemma plan_rdel_typed rs : forall p pl p' pl',
  Forall (fun r => (0 <= rd_seq r <= U64_MAX)%Z /\ bytes_ok (rd_start r) /\ bytes_ok (rd_end r)) rs ->
  rdel_typed p -> plan_rdel_loop (E := E) BLOCK p pl rs = Ok (p', pl') -> rdel_typed p'.
Proof.
  induction rs as [|r rs IH]; intros p pl p' pl' Hrs Hp; cbn [plan_rdel_loop]; [by intros [= <- <-] |].
  apply Forall_cons in Hrs as [(Hs & Hk & He) Hrs]. destruct (BLOCK <? _)%nat; [done |]. apply IH; [done |].
  destruct Hp as (H1 & H2 & H3 & H4). unfold rdel_typed. cbn [rp_max_seq rp_min_seq rp_first rp_max_end].
  split_and!; try (repeat case_match; lia).
  - intros k. destruct (rp_first p); [apply H3 | by intros [= <-]].
  - intros k. destruct (match rp_max_end p with None => true | Some _ => _ end); [by intros [= <-] | apply H4].
Qed.

Lemma opt_bound_ok (o : option bytes) :
  (forall k, o = Some k -> bytes_ok k) ->
  bound_ok KEY_MAX (default (EMPTY_BOUND KEY_MAX) (o ≫= from_slice KEY_MAX)).
Proof.
  intros Ho. destruct o as [k |]; cbn; [| apply empty_bound_ok].
  destruct (from_slice KEY_MAX k) as [b |] eqn:Eb; cbn; [| apply empty_bound_ok].
  by apply (from_slice_ok k); [apply Ho |].
Qed.

Lemma plan_bound_ok (o : option bytes) b :
  (forall k, o = Some k -> bytes_ok k) -> plan_bound (E := E) KEY_MAX o = Ok b -> bound_ok KEY_MAX b.
Proof.
  intros Ho. unfold plan_bound. destruct o as [k |]; [| intros [= <-]; apply empty_bound_ok].
  destruct (from_slice KEY_MAX k) as [b' |] eqn:Eb; [| done]. intros [= <-].
  by apply (from_slice_ok k); [apply Ho |].
Qed.

Lemma flush_tref_ok l node id base total p rp tref :
  Forall (fun e => (0 <= Memtable.seq e <= U64_MAX)%Z /\ bytes_ok (key e) /\ bytes_ok (val e)) l ->
  plan_table (E := E) BLOCK KEY_MAX (flush_points l) = Ok p ->
  plan_rdel_blocks (E := E) BLOCK (flush_rdels l) = Ok rp ->
  fits 32 node -> fits 32 id -> (0 <= base <= U64_MAX)%Z -> (rp_blocks rp <= total)%nat ->
  flush_tref (E := E) KEY_MAX node id base total p rp = Ok tref -> ref_ok KEY_MAX tref.
Proof.
  intros Hl Hp Hrp Hnode Hid Hbase Htot Ht. unfold flush_tref, try_u32 in Ht.
  destruct (Z.leb_spec (Z.of_nat total) U32_MAX); [| done].
  destruct (Z.leb_spec (Z.of_nat (tp_entry_count p)) U32_MAX); [| done]. injection Ht as <-.
  unfold plan_table in Hp. destruct (plan_loop BLOCK _ (flush_points l)) as [a |] eqn:Ea; [| done].
  destruct (plan_bound KEY_MAX (a_first a)) as [b1 |] eqn:Eb1; [| done].
  destruct (plan_bound KEY_MAX (a_last a)) as [b2 |] eqn:Eb2; [| done]. injection Hp as <-.
  unfold plan_rdel_blocks in Hrp. destruct (plan_rdel_loop BLOCK _ 0 (flush_rdels l)) as [[p1 pl1] |] eqn:Er; [| done].
  injection Hrp as <-.
  assert (acc_typed a) as (A1 & A2 & A3 & A4).
  { eapply plan_loop_typed; [| | exact Ea].
    - apply Forall_forall. intros x (e & -> & He)%list_elem_of_fmap. rewrite Forall_forall in Hl.
      apply list_elem_of_In, filter_In in He as [He _]. apply list_elem_of_In in He. by destruct (Hl e He) as (? & ? & _).
    - unfold acc_typed. cbn. unfold U64_MAX. split_and!; done || lia. }
  assert (rdel_typed p1) as (R1 & R2 & R3 & R4).
  { eapply plan_rdel_typed; [| | exact Er].
    - apply Forall_forall. intros x (e & -> & He)%list_elem_of_fmap. rewrite Forall_forall in Hl.
      apply list_elem_of_In, filter_In in He as [He _]. apply list_elem_of_In in He. by destruct (Hl e He).
    - unfold rdel_typed. cbn. unfold U64_MAX. split_and!; done || lia. }
  unfold fits, U64_MAX, U32_MAX in *. cbn [rp_blocks tp_entry_count] in *.
  split; cbn [t_id first_block block_count Manifest.first_key Manifest.last_key t_max_seq t_min_seq entry_count
              Manifest.rdel_blocks node_id seal_wall tp_max_seq tp_min_seq tp_first_key tp_last_key tp_entry_count
              rp_max_seq rp_min_seq rp_first rp_max_end rp_blocks]; unfold fits; try lia.
  - apply bound_min_ok; [exact (plan_bound_ok _ _ A3 Eb1) | by apply opt_bound_ok].
  - apply bound_max_ok; [exact (plan_bound_ok _ _ A4 Eb2) | by apply opt_bound_ok].
Qed.
End refs.
