(* ===== verification/DbFlushSafe.v ===== *)
(** * A flush keeps every answer

    The state of a running database (log, memtable, manifest, tables in slots of
    their own, true cache), and what a flush makes of it whatever the device does:
    on success the memtable's versions are the new table's and every read answers
    as before, on failure the handle is as it was. *)

From stdpp Require Import base numbers list.
From Stdlib Require Import ZArith Lia Sorting.Sorted.
From S2P Require Import Prelude Device Compress Version Slots Cache Memtable Wal Manifest ManifestPool ManifestEdit ManifestCodec ManifestLog ManifestCrash SstPlan SstWriter SstReader SstBlock SstImage SstIndex SstRdel SstTable SstBuild Db DbWrite DbOpen DbRead DbFlush.

(** ** Where things lie *)

(** Block [b] belongs to the live table [t]. *)
Definition live_block (m : Manifest) (t : u32) (b : u64) : Prop :=
  exists r, r ∈ tables m /\ t_id r = t /\ (first_block r <= b < end_block r)%Z.

Lemma layout_region start end_ n min sl :
  (0 <= start)%Z -> (0 <= n)%Z -> layout start end_ n min = Some sl ->
  Slots.base sl = start /\ (Slots.base sl + Slots.slots sl * slot_blocks sl <= end_)%Z /\
  (min <= slot_blocks sl)%Z.
Proof.
  intros Hs Hn. unfold layout. destruct (_ || _ || (end_ <=? start)%Z) eqn:E1; [done |].
  destruct (((end_ - start) / n =? 0)%Z || _) eqn:E2; [done |]. intros [= <-]. cbn. bool_lia.
  pose proof (Z.mul_div_le (end_ - start) n ltac:(lia)). lia.
Qed.

Section where_.
  Context {D E : Type} `{Dev : !BlockDevice D E}.
  Context (KEY_MAX LEVELS TABLES : nat).

  Abbreviation stride := (stride (D := D) (E := E) LEVELS TABLES KEY_MAX).

(** The table region is apart from the log and from every manifest copy. *)
Lemma regions_tables c :
  check_regions (D := D) (E := E) KEY_MAX LEVELS TABLES c = Ok tt ->
  (c_wal_end c <= c_tbl_start c \/ c_tbl_end c <= c_wal_start c)%Z /\
  forall k, (k < copies (manifest_layout c))%nat ->
    let start := copy_start (manifest_layout c) k stride in
    (start + stride <= c_tbl_start c \/ c_tbl_end c <= start)%Z.
Proof.
  unfold check_regions. cbv zeta. destruct (_ || _ || _) eqn:E1; [done |].
  destruct (forallb _ _) eqn:Ef; [| done]. intros _.
  apply orb_false_iff in E1 as [_ E1]. apply negb_false_iff in E1. unfold disjoint in E1. cbn [fst snd] in E1.
  rewrite orb_true_iff, !Z.leb_le in E1. split; [done |]. intros k Hk.
  rewrite forallb_forall in Ef. specialize (Ef k). rewrite in_seq in Ef. specialize (Ef ltac:(lia)).
  unfold check_copy, u64_checked_add in Ef. cbv zeta in Ef. destruct (U64_MAX <? _)%Z; [done |].
  unfold disjoint in Ef. cbn [fst snd] in Ef. apply andb_true_iff in Ef as [Ef _].
  apply andb_true_iff in Ef as [_ Ht]. by rewrite orb_true_iff, !Z.leb_le in Ht.
Qed.
End where_.

(** ** Tables outlive writes elsewhere *)

Section ext.
  Context {D E : Type} `{Dev : !BlockDevice D E}.
  Context (VAL_MAX BLOOM_BYTES : nat).

Lemma table_on_ext (d d' : D) base blks rbs k ec ms :
  (forall b, (base <= b < base + Z.of_nat (length blks + length rbs + 3))%Z -> read_block d' b = read_block d b) ->
  table_on BLOOM_BYTES d base blks rbs k ec ms -> table_on BLOOM_BYTES d' base blks rbs k ec ms.
Proof.
  intros Hd [H1 H2 H3 H4 H5 H6 H7 H8 H9 H10 H11 H12 H13]. split; auto.
  - intros i es Hi. destruct (H1 i es Hi) as (Hw & x & Hx & Hinf & Hr). split; [done |].
    exists x. split_and!; auto. apply lookup_lt_Some in Hi. rewrite Hd by lia. done.
  - intros i rs Hi. destruct (H2 i rs Hi) as [Hw Hr]. split; [done |].
    apply lookup_lt_Some in Hi. rewrite Hd by lia. done.
  - destruct H3 as (bl & Hl & Hb & Hr & Hc). exists bl. split_and!; auto. rewrite Hd by lia. done.
  - rewrite Hd by lia. done.
  - rewrite Hd by lia. done.
Qed.

Lemma table_ok_ext (d d' : D) (L L' : u32 -> u64 -> Prop) t c :
  (forall b, (first_block t <= b < end_block t)%Z -> read_block d' b = read_block d b) ->
  (forall b, (first_block t <= b < end_block t)%Z -> L' (t_id t) b) ->
  table_ok VAL_MAX BLOOM_BYTES d L t c -> table_ok VAL_MAX BLOOM_BYTES d' L' t c.
Proof.
  intros Hd HL [(blks & rbs & k & ec & ms & Eb & Er & Hon & Ec & Erd) H2 H3 H4 H5 H6 H7].
  split; auto.
  - exists blks, rbs, k, ec, ms. split_and!; auto. eapply table_on_ext; [| exact Hon].
    intros b Hb. apply Hd. unfold end_block. lia.
  - intros i Hi. apply HL. unfold end_block. lia.
Qed.
End ext.

(** ** One node: versions rank by sequence number *)

Lemma version_gt_seqs a b a' b' :
  node a = node b -> node a' = node b' -> Version.seq a = Version.seq a' -> Version.seq b = Version.seq b' ->
  version_gt a b = version_gt a' b'.
Proof. intros E1 E2 E3 E4. unfold version_gt. by rewrite E1, E2, E3, E4, !Z.eqb_refl. Qed.

(** The same version of one node, wherever it is stored. *)
Definition same_version (n : u32) (a b : Version) : Prop :=
  node a = n /\ node b = n /\ Version.seq a = Version.seq b.
Definition same_hit (n : u32) (h h' : Hit) : Prop :=
  same_version n (h_ver h) (h_ver h') /\ h_body h = h_body h'.

Lemma reads_moved {E} n (P P' : Hit -> Prop) (C C' : Version -> Prop) now buf
  (r : result (option nat * bytes) (Error E)) :
  (forall h, P h -> exists h', P' h' /\ same_hit n h h') -> (forall h', P' h' -> exists h, P h /\ same_hit n h h') ->
  (forall c, C c -> exists c', C' c' /\ same_version n c c') ->
  (forall c', C' c' -> exists c, C c /\ same_version n c c') ->
  reads P C now buf r -> reads P' C' now buf r.
Proof.
  intros HP HP' HC HC' [[Hn ->] | (h & Hh & Ht & Hr)].
  { left. split; [| done]. intros h' Hh'. destruct (HP' h' Hh') as (h & Hh & _). by apply (Hn h). }
  right. destruct (HP h Hh) as (h' & Hh' & (N1 & N2 & S) & B). exists h'. split; [done |]. split.
  { intros g' Hg'. destruct (HP' g' Hg') as (g & Hg & (M1 & M2 & T) & _).
    rewrite <- (version_gt_seqs (h_ver g) (h_ver h)); [by apply Ht | congruence..]. }
  rewrite <- B. destruct (h_body h) as [[v ex] |]; [| done].
  destruct Hr as [[[(c & Hc & Hg) | Hx] ->] | (Hc & Hx & ->)].
  - left. split; [left | done]. destruct (HC c Hc) as (c' & Hc' & M1 & M2 & T). exists c'. split; [done |].
    rewrite <- Hg. symmetry. apply version_gt_seqs; congruence.
  - left. split; [by right | done].
  - right. split_and!; [| done | done]. intros c' Hc'. destruct (HC' c' Hc') as (c & Hcc & M1 & M2 & T).
    rewrite <- (version_gt_seqs c (h_ver h)); [by apply Hc | congruence..].
Qed.

(** ** The memtable's versions become the table's *)

Definition with_flushed (contents : TableRef -> Contents) (tref : TableRef) (l : list Entry) (t : TableRef) : Contents :=
  if decide (t = tref) then (flush_points l, flush_rdels l) else contents t.

Section moved.
  Context (n : u32) (l : list Entry) (contents : TableRef -> Contents) (ts ts' : list TableRef) (tref : TableRef).
  Context (Hspan : Forall (ref_spans tref) l) (Hnew : tref ∉ ts) (Hts : ts' ≡ₚ tref :: ts).
  Context (Hnode : node_id tref = n) (Hnodes : Forall (fun t => node_id t = n) ts).

  Abbreviation contents' := (with_flushed contents tref l).

Lemma flushed_contents : contents' tref = (flush_points l, flush_rdels l).
Proof. unfold with_flushed. by rewrite decide_True. Qed.

Lemma old_contents t : t ∈ ts -> contents' t = contents t.
Proof. intros Ht. unfold with_flushed. rewrite decide_False; [done |]. by intros ->. Qed.

Lemma ts'_cases t : t ∈ ts' <-> t = tref \/ t ∈ ts.
Proof. by rewrite Hts, elem_of_cons. Qed.

Lemma spans_point e key mx : e ∈ l -> Memtable.visible key mx e -> covers tref key = true.
Proof.
  intros He (Hk & _). rewrite Forall_forall in Hspan. destruct (Hspan e He) as (_ & H1 & H2 & _).
  unfold covers. rewrite <- Hk. apply andb_true_iff. by rewrite !bytes_leb_spec.
Qed.

Lemma spans_cover e key mx : e ∈ l -> Memtable.covers key mx e -> covers tref key = true.
Proof.
  intros He (Hr & _ & H1 & H2). rewrite Forall_forall in Hspan.
  destruct (Hspan e He) as (_ & H3 & _ & H4). unfold covers. apply andb_true_iff.
  rewrite !bytes_leb_spec. split; [by etrans |]. etrans; [by apply bytes_lt_le | by apply H4].
Qed.

Lemma in_nodes t : t ∈ ts -> node_id t = n.
Proof. intros Ht. rewrite Forall_forall in Hnodes. by apply Hnodes. Qed.

Lemma body_moved e : entry_body e = sst_body (sst_from e).
Proof. done. Qed.

Lemma point_moved key mx h :
  point n l contents ts key mx h ->
  exists h', point n [] contents' ts' key mx h' /\ same_hit n h h'.
Proof.
  intros [e He Hv | t e Ht Hc He Hk Hm].
  - pose proof (spans_point e key mx He Hv) as Hc. destruct Hv as (Hk & Hr & Hm).
    eexists. split; [apply (point_table n [] contents' ts' key mx tref (sst_from e)); auto |].
    + apply ts'_cases. by left.
    + rewrite flushed_contents. by apply in_points.
    + by rewrite Hnode.
  - eexists. split; [apply (point_table n [] contents' ts' key mx t e); auto |].
    + apply ts'_cases. by right.
    + by rewrite old_contents.
    + by rewrite (in_nodes t Ht).
Qed.

Lemma point_moved_back key mx h' :
  point n [] contents' ts' key mx h' ->
  exists h, point n l contents ts key mx h /\ same_hit n h h'.
Proof.
  intros [e He%not_elem_of_nil | t x Ht Hc He Hk Hm]; [done |].
  apply ts'_cases in Ht as [-> | Ht].
  - rewrite flushed_contents in He. apply list_elem_of_fmap in He as (e & -> & He).
    apply list_elem_of_In, filter_In in He as [He Hr]. apply list_elem_of_In in He.
    apply negb_true_iff in Hr. eexists. split; [by apply (point_mem n l contents ts key mx e) |].
    by rewrite Hnode.
  - rewrite old_contents in He by done. eexists. split; [by apply (point_table n l contents ts key mx t x) |].
    by rewrite (in_nodes t Ht).
Qed.

Lemma cover_moved key mx c :
  cover n l contents ts key mx c -> exists c', cover n [] contents' ts' key mx c' /\ same_version n c c'.
Proof.
  intros [e He Hv | t r Ht Hc Hr Hk].
  - pose proof (spans_cover e key mx He Hv) as Hc. destruct Hv as (Hr & Hm & H1 & H2).
    eexists. split.
    + apply (cover_table n [] contents' ts' key mx tref (mkRdel (Memtable.key e) (val e) (Memtable.seq e))); auto.
      * apply ts'_cases. by left.
      * rewrite flushed_contents. by apply in_rdels.
      * done.
    + by rewrite Hnode.
  - eexists. split; [apply (cover_table n [] contents' ts' key mx t r); auto |].
    + apply ts'_cases. by right.
    + by rewrite old_contents.
    + by rewrite (in_nodes t Ht).
Qed.

Lemma cover_moved_back key mx c' :
  cover n [] contents' ts' key mx c' -> exists c, cover n l contents ts key mx c /\ same_version n c c'.
Proof.
  intros [e He%not_elem_of_nil | t x Ht Hc Hr Hk]; [done |]. apply ts'_cases in Ht as [-> | Ht].
  - rewrite flushed_contents in Hr. apply list_elem_of_fmap in Hr as (e & -> & He).
    apply list_elem_of_In, filter_In in He as [He Hre]. apply list_elem_of_In in He.
    destruct Hk as (Hm & H1 & H2). eexists. split; [by apply (cover_mem n l contents ts key mx e) |].
    by rewrite Hnode.
  - rewrite old_contents in Hr by done. eexists. split; [by apply (cover_table n l contents ts key mx t x) |].
    by rewrite (in_nodes t Ht).
Qed.

(** Every read answers as before. *)
Lemma reads_flushed {E} key mx now buf (r : result (option nat * bytes) (Error E)) :
  reads (point n l contents ts key mx) (cover n l contents ts key mx) now buf r <->
  reads (point n [] contents' ts' key mx) (cover n [] contents' ts' key mx) now buf r.
Proof.
  assert (forall a b, same_version n a b -> same_version n b a) as Hv by (by intros a b (? & ? & ?)).
  assert (forall a b, same_hit n a b -> same_hit n b a) as Hh by (intros a b [? ?]; split; auto).
  split; apply (reads_moved n).
  - apply point_moved.
  - apply point_moved_back.
  - apply cover_moved.
  - apply cover_moved_back.
  - intros h' Hp. destruct (point_moved_back key mx h' Hp) as (h & ? & ?). eauto.
  - intros h Hp. destruct (point_moved key mx h Hp) as (h' & ? & ?). eauto.
  - intros c' Hp. destruct (cover_moved_back key mx c' Hp) as (c & ? & ?). eauto.
  - intros c Hp. destruct (cover_moved key mx c Hp) as (c' & ? & ?). eauto.
Qed.
End moved.

(** ** A running database *)

Section sound.
  Context {D E : Type} `{Laws : DeviceLaws D E}.
  Context (KEY_MAX VAL_MAX CAP ARENA LEVELS TABLES BLOOM_BYTES : nat).
  Implicit Types db : Db D.

  Abbreviation MIN_SLOT := (MIN_SLOT_BLOCKS (D := D) (E := E) KEY_MAX VAL_MAX CAP ARENA).

(** What the const assertions of the crate and the memtable's limits give. *)
Record table_shape : Prop := {
  ts_db : db_shape D E KEY_MAX VAL_MAX CAP ARENA LEVELS TABLES;
  ts_block : (Z.of_nat BLOCK <= 65536)%Z;
  ts_bloom : (BLOOM_BYTES + CRC_LEN <= BLOCK)%nat;
  ts_rec : (23 + KEY_MAX + VAL_MAX <= BLOCK)%nat;
  ts_rdel : (12 + 2 * KEY_MAX + RDEL_TRAILER <= BLOCK)%nat;
  ts_slot : (MIN_SLOT <= U32_MAX)%Z;
}.

(** The log and the memtable agree, every table of the manifest is on the device in a
    used slot of its own, and the cache is true of the live tables' blocks. *)
Record sound db (base : u64) (bs : list (list Decoded)) (tlog : list Entry) (contents : TableRef -> Contents) : Prop := {
  sd_inv : db_inv (E := E) KEY_MAX VAL_MAX CAP ARENA db base bs tlog;
  sd_typed : Forall entry_typed tlog;
  sd_regions : check_regions (D := D) (E := E) KEY_MAX LEVELS TABLES (cfg db) = Ok tt;
  sd_cfg : cfg_typed (cfg db);
  sd_node : fits 32 (c_node_id (cfg db));
  sd_wal : wal_start (db_wal db) = c_wal_start (cfg db) /\ wal_end (db_wal db) = c_wal_end (cfg db) /\
    (c_wal_start (cfg db) <= base)%Z;
  sd_slots : Slots.wf (db_slots db) /\
    exists sl, layout (c_tbl_start (cfg db)) (c_tbl_end (cfg db)) (SLOTS LEVELS TABLES) MIN_SLOT = Some sl /\
      same_geometry (db_slots db) sl;
  sd_manifest : exists T, man_ok LEVELS TABLES KEY_MAX (db_manifest db) T;
  sd_sits : Forall (fun t => exists s, db_slot_of db t = Some s /\ status_of (db_slots db) s = Used)
    (tables (db_manifest db)) /\ NoDup (db_slot_of db <$> tables (db_manifest db));
  sd_ids : Forall (fun t => (t_id t < next_table_id (db_manifest db))%Z) (tables (db_manifest db));
  sd_unique : NoDup (t_id <$> tables (db_manifest db));
  sd_tables : forall t, t ∈ tables (db_manifest db) ->
    table_ok VAL_MAX BLOOM_BYTES (device (db_wal db)) (live_block (db_manifest db)) t (contents t);
  sd_cache : truthful (device (db_wal db)) (live_block (db_manifest db)) (Some (mkCell (db_cache db) false));
  sd_cache_ids : forall t b blk, holds (db_cache db) t b blk -> (t < next_table_id (db_manifest db))%Z;
}.

  Context (Hsh : table_shape).

Lemma sh_consts' : consts_ok CAP ARENA KEY_MAX VAL_MAX.
Proof. apply Hsh. Qed.

Lemma sound_readable db base bs tlog contents :
  sound db base bs tlog contents ->
  readable VAL_MAX KEY_MAX LEVELS TABLES CAP ARENA BLOOM_BYTES db (live_block (db_manifest db)) contents.
Proof.
  intros []. destruct (filled_inv sh_consts' _ _ (di_table _ _ _ _ sd_inv0)) as (Hw & Hp & _).
  pose proof (filled_entries _ _ sh_consts' (di_table _ _ _ _ sd_inv0)) as Hok.
  split; auto; [apply sd_inv0 | |].
  - unfold mem_ok. rewrite Hp. eapply Forall_impl; [exact Hok |]. intros e [_ Hv] Hr. by rewrite Hr in Hv.
  - destruct sd_manifest0 as [T HT]. exists T. apply HT.
Qed.

Lemma sound_seqs db base bs tlog contents :
  sound db base bs tlog contents -> Forall (fun e => (0 < Memtable.seq e)%Z) (iter (db_table db)).
Proof.
  intros []. destruct (filled_inv sh_consts' _ _ (di_table _ _ _ _ sd_inv0)) as (_ & Hp & _).
  rewrite Hp. eapply Forall_impl; [exact sd_typed0 |]. intros e [? _]. lia.
Qed.

(** A table's blocks lie in the table region, in its slot. *)
Lemma table_span db base bs tlog contents t :
  sound db base bs tlog contents -> t ∈ tables (db_manifest db) ->
  exists s, db_slot_of db t = Some s /\ valid (db_slots db) s /\ status_of (db_slots db) s = Used /\
    (slot_base (db_slots db) s <= first_block t)%Z /\ (end_block t <= slot_base (db_slots db) (s + 1))%Z /\
    (c_tbl_start (cfg db) <= first_block t)%Z /\ (end_block t <= c_tbl_end (cfg db))%Z.
Proof.
  intros [] Ht. destruct sd_sits0 as [Hs _]. rewrite Forall_forall in Hs.
  destruct (Hs t Ht) as (s & Es & Hu). exists s. split; [done |].
  destruct sd_manifest0 as [T HT]. pose proof (mo_refs _ _ _ _ _ HT) as Hrefs.
  rewrite <- (tables_repr _ _ _ _ _ (mo_repr _ _ _ _ _ HT)), Forall_forall in Hrefs.
  destruct (Hrefs t Ht) as [_ Hf Hb _ _ _ _ _ _ _ _]. unfold fits in Hf, Hb.
  destruct sd_slots0 as [Hw (sl & El & Hg)]. unfold db_slot_of in Es.
  apply slot_of_spec in Es as (Hv & Hpos & Hlo & Hhi); [| done | lia | lia].
  assert (0 <= c_tbl_start (cfg db))%Z as Hc0 by (destruct sd_cfg0 as [_ [? ?]]; lia).
  assert (0 <= SLOTS LEVELS TABLES)%Z as Hn0 by (unfold SLOTS; lia).
  destruct (layout_region _ _ _ _ _ Hc0 Hn0 El) as (G1 & G2 & _). destruct Hg as (g1 & g2 & g3).
  pose proof (wf_blocks _ Hw) as Hbp. unfold slot_base, valid, end_block in *.
  rewrite <- g1, <- g2, <- g3 in G2. rewrite <- g1 in G1. rewrite <- G1. split_and!; auto; try nia.
Qed.

(** Everything but the device, the log position and the memtable as before. *)
Lemma sound_ext db db' base bs tlog base' bs' tlog' contents :
  sound db base bs tlog contents -> db_inv (E := E) KEY_MAX VAL_MAX CAP ARENA db' base' bs' tlog' ->
  Forall entry_typed tlog' -> db_manifest db' = db_manifest db -> db_slots db' = db_slots db ->
  cfg db' = cfg db -> db_cache db' = db_cache db ->
  wal_start (db_wal db') = wal_start (db_wal db) -> wal_end (db_wal db') = wal_end (db_wal db) ->
  (c_wal_start (cfg db) <= base')%Z ->
  (forall b, (c_tbl_start (cfg db) <= b < c_tbl_end (cfg db))%Z ->
    read_block (device (db_wal db')) b = read_block (device (db_wal db)) b) ->
  sound db' base' bs' tlog' contents.
Proof.
  intros Hs Hi Hty Em Esl Ec Eca Ews Ewe Hb Hd.
  assert (forall t b, t ∈ tables (db_manifest db) -> (first_block t <= b < end_block t)%Z ->
    read_block (device (db_wal db')) b = read_block (device (db_wal db)) b) as Htab.
  { intros t b Ht Hbt. destruct (table_span db base bs tlog contents t Hs Ht) as (s & _ & _ & _ & _ & _ & ? & ?).
    apply Hd. lia. }
  destruct Hs. split; unfold db_slot_of in *; rewrite ?Em, ?Esl, ?Ec, ?Eca, ?Ews, ?Ewe; auto.
  - destruct sd_wal0 as (? & ? & _). auto.
  - intros t Ht. eapply table_ok_ext; [by intros b; apply Htab | | by apply sd_tables0].
    intros b Hbt. exists t. auto.
  - destruct sd_cache0 as [Hw Hh]. split; [done |]. intros t b blk Hbl (r & Hr & Er & Hbr).
    rewrite (Htab r b Hr Hbr). apply (Hh t b blk Hbl). by exists r.
Qed.

Lemma log_at_ext (d d' : D) bs : forall lo,
  (forall b, (lo <= b < lo + Z.of_nat (length bs))%Z -> read_block d' b = read_block d b) ->
  log_at d lo bs -> log_at d' lo bs.
Proof.
  induction bs as [|x bs IH]; intros lo Hd; cbn [log_at length] in *; [done |].
  intros [Hx Hbs]. split; [rewrite Hd by lia; done |]. apply IH; [| done]. intros b Hb. apply Hd. lia.
Qed.

Lemma db_inv_device db base bs tlog d' :
  db_inv (E := E) KEY_MAX VAL_MAX CAP ARENA db base bs tlog ->
  (forall b, (base <= b < wal_end (db_wal db))%Z -> read_block d' b = read_block (device (db_wal db)) b) ->
  db_inv (E := E) KEY_MAX VAL_MAX CAP ARENA (set_device db d') base bs tlog.
Proof.
  intros [H1 [W1 W2 W3 W4 W5 W6 W7] H3 H4 H5 H6 H7 H8] Hd. split; auto. split; auto.
  - by destruct W1; split.
  - cbn [set_device set_wal set_core db_wal device]. eapply log_at_ext; [| exact W2]. intros b Hb. apply Hd.
    destruct W7 as [-> | ?]; [cbn [length] in Hb; lia | lia].
Qed.

(** A manifest commit on the handle. *)
Lemma commit_manifest_step db base bs tlog contents e db' r :
  sound db base bs tlog contents -> edit_ok KEY_MAX e (db_manifest db) ->
  commit_manifest KEY_MAX LEVELS TABLES db e = (db', r) ->
  exists m' d', db' = set_manifest (set_device db d') m' /\
    (forall b, (c_tbl_start (cfg db) <= b < c_tbl_end (cfg db))%Z \/
       (c_wal_start (cfg db) <= b < c_wal_end (cfg db))%Z ->
       read_block d' b = read_block (device (db_wal db)) b) /\
    match r with
    | Ok _ => check_edit (E := E) LEVELS TABLES (db_manifest db) e = Ok tt /\
        m' = set_seq (apply_checked LEVELS TABLES KEY_MAX (db_manifest db) e) (m_seq (db_manifest db) + 1) /\
        (m_seq (db_manifest db) < U64_MAX)%Z
    | Err err => m' = db_manifest db /\
        (check_edit (E := E) LEVELS TABLES (db_manifest db) e = Err err \/ err = CounterExhausted \/
         exists de, err = Device de)
    end.
Proof.
  intros Hs He. unfold commit_manifest.
  destruct (commit_edit _ _ _ _ _ _ _) as [[m' d'] r'] eqn:Ec. intros [= <- <-].
  destruct Hs. destruct sd_manifest0 as [T HT].
  pose proof (regions_log_shape (VAL_MAX := VAL_MAX) (CAP := CAP) (ARENA := ARENA) _ (ts_db Hsh) sd_regions0) as Hls.
  destruct (commit_edit_outside _ _ _ _ _ _ _ _ _ _ _ Hls HT He Ec) as [(k & Hk & Ho) Hr].
  exists m', d'. split; [done |]. split; [| done]. intros b Hb. apply Ho.
  destruct (regions_tables KEY_MAX LEVELS TABLES _ sd_regions0) as [_ Ht]. specialize (Ht k Hk). cbv zeta in Ht.
  destruct (check_regions_copies _ sd_regions0 k Hk) as [Hw _]. lia.
Qed.

(** A commit that adds the tables [new], which sit in used slots of their own. *)
Lemma sound_committed db db' base bs tlog contents new contents' base' bs' tlog' T' :
  sound db base bs tlog contents -> db_inv (E := E) KEY_MAX VAL_MAX CAP ARENA db' base' bs' tlog' ->
  Forall entry_typed tlog' -> cfg db' = cfg db -> db_cache db' = db_cache db ->
  wal_start (db_wal db') = wal_start (db_wal db) -> wal_end (db_wal db') = wal_end (db_wal db) ->
  (c_wal_start (cfg db) <= base')%Z -> man_ok LEVELS TABLES KEY_MAX (db_manifest db') T' ->
  tables (db_manifest db') ≡ₚ new ++ tables (db_manifest db) ->
  (next_table_id (db_manifest db) <= next_table_id (db_manifest db'))%Z ->
  Forall (fun t => (next_table_id (db_manifest db) <= t_id t < next_table_id (db_manifest db'))%Z) new -> NoDup (t_id <$> new) ->
  Slots.wf (db_slots db') -> same_geometry (db_slots db') (db_slots db) ->
  (forall s, valid (db_slots db) s -> status_of (db_slots db) s = Used -> status_of (db_slots db') s = Used) ->
  Forall (fun t => exists s, db_slot_of db' t = Some s /\ status_of (db_slots db') s = Used) new ->
  NoDup (db_slot_of db' <$> new ++ tables (db_manifest db)) ->
  (forall t b, t ∈ tables (db_manifest db) -> (first_block t <= b < end_block t)%Z ->
    read_block (device (db_wal db')) b = read_block (device (db_wal db)) b) ->
  (forall t, t ∈ new -> table_ok VAL_MAX BLOOM_BYTES (device (db_wal db')) (live_block (db_manifest db')) t (contents' t)) ->
  (forall t, t ∈ tables (db_manifest db) -> contents' t = contents t) ->
  sound db' base' bs' tlog' contents'.
Proof.
  intros Hs Hi Hty Ec Eca Ews Ewe Hb HT Hperm Hnext Hids Huq Hwf Hgeo Hused Hsit Hnd Hdev Hnew Hold.
  assert (forall t, t ∈ tables (db_manifest db') <-> t ∈ new \/ t ∈ tables (db_manifest db)) as Hin
    by (intros t; by rewrite Hperm, elem_of_app).
  pose proof (table_span db base bs tlog contents) as Hspan. destruct Hs.
  split; rewrite ?Ec, ?Eca, ?Ews, ?Ewe; auto.
  - destruct sd_wal0 as (? & ? & _). auto.
  - split; [done |]. destruct sd_slots0 as [_ (sl & El & Hg)]. exists sl. split; [done |]. by etrans.
  - by exists T'.
  - rewrite Hperm. split; [| done]. apply Forall_app. split; [done |].
    apply Forall_forall. intros t Ht. destruct (Hspan t ltac:(by split) Ht) as (s & Es & Hv & Hu & _).
    exists s. split; [| by apply Hused]. rewrite <- Es. unfold db_slot_of. by rewrite Hgeo.
  - rewrite Hperm. apply Forall_app. split; [eapply Forall_impl; [exact Hids |]; cbn; lia |].
    eapply Forall_impl; [exact sd_ids0 |]. cbn. lia.
  - rewrite Hperm, fmap_app. apply NoDup_app. split_and!; [done | | done].
    intros i (t & -> & Ht)%list_elem_of_fmap (t' & Ei & Ht')%list_elem_of_fmap. rewrite Forall_forall in Hids, sd_ids0.
    specialize (Hids t Ht). specialize (sd_ids0 t' Ht'). lia.
  - intros t [Ht | Ht]%Hin; [by apply Hnew |]. rewrite Hold by done.
    eapply table_ok_ext; [by intros b; apply Hdev | | by apply sd_tables0].
    intros b Hbt. exists t. split_and!; auto; try lia. by apply Hin; right.
  - destruct sd_cache0 as [Hw Hh]. split; [done |]. intros t b blk Hbl (r & [Hr | Hr]%Hin & Er & Hbr).
    + exfalso. rewrite Forall_forall in Hids. specialize (Hids r Hr). specialize (sd_cache_ids0 _ _ _ Hbl). lia.
    + rewrite (Hdev r b Hr) by lia. apply (Hh t b blk Hbl). by exists r.
  - intros t b blk Hbl. specialize (sd_cache_ids0 _ _ _ Hbl). lia.
Qed.

(** [db_inv] does not look at manifest and slots. *)
Lemma db_inv_core db db' base bs tlog :
  db_inv (E := E) KEY_MAX VAL_MAX CAP ARENA db base bs tlog ->
  db_wal db' = db_wal db -> db_table db' = db_table db -> next_seq db' = next_seq db -> opened db' = opened db ->
  db_inv (E := E) KEY_MAX VAL_MAX CAP ARENA db' base bs tlog.
Proof. intros [] E1 E2 E3 E4. split; rewrite ?E1, ?E2, ?E3, ?E4; done. Qed.

(** The log starts over at [b]. *)
Lemma db_inv_restart db base bs tlog b :
  db_inv (E := E) KEY_MAX VAL_MAX CAP ARENA db base bs tlog -> (0 <= b)%Z ->
  db_inv (E := E) KEY_MAX VAL_MAX CAP ARENA (set_wal db (reset_to (db_wal db) b)) b [] tlog.
Proof.
  intros [H1 [W1 W2 W3 W4 W5 W6 W7] H3 H4 H5 H6 H7 H8] Hb. split; auto; try constructor.
  - by destruct W1; split.
  - done.
  - cbn. lia.
  - constructor.
  - intros _. by apply W5.
  - done.
  - by left.
Qed.

Lemma db_inv_restart_here db base bs tlog :
  db_inv (E := E) KEY_MAX VAL_MAX CAP ARENA db base bs tlog ->
  db_inv (E := E) KEY_MAX VAL_MAX CAP ARENA db (next_block (db_wal db)) [] tlog.
Proof.
  intros [H1 [W1 W2 W3 W4 W5 W6 W7] H3 H4 H5 H6 H7 H8]. split; auto; try constructor;
    first [done | cbn; lia | by left | constructor].
Qed.

Lemma flush_edit_ok m e head sq next :
  e_wal_head e = Some head -> e_flushed e = sq -> e_seq_high e = 0%Z -> e_next_table_id e = next ->
  narrow_to e = EMPTY_BOUND KEY_MAX -> stamped e = None ->
  (forall lv t, added e = Some (lv, t) -> lv = 0%nat /\ ref_ok KEY_MAX t) ->
  (0 <= head <= U64_MAX)%Z -> (0 <= sq <= U64_MAX)%Z -> (0 <= next <= U32_MAX)%Z -> edit_ok KEY_MAX e m.
Proof.
  intros E1 E2 E3 E4 E5 E6 Ha Hh Hq Hn. unfold U64_MAX, U32_MAX in *.
  split; rewrite ?E1, ?E2, ?E3, ?E4, ?E5; unfold fits; try lia.
  - intros h [= <-]. lia.
  - apply empty_bound_ok.
  - intros l t Hlt. by destruct (Ha l t Hlt).
  - by rewrite E6.
  - unfold stamp_ok. by rewrite E6.
  - intros lv t Hlt Hpos. destruct (Ha lv t Hlt). lia.
Qed.

(** Wrapping the log of an empty memtable. *)
Lemma wrap_step db base bs contents db' r :
  sound db base bs [] contents -> wrap_wal_if_full KEY_MAX LEVELS TABLES db = (db', r) ->
  cfg db' = cfg db /\ db_table db' = db_table db /\ db_slots db' = db_slots db /\ next_seq db' = next_seq db /\
  tables (db_manifest db') ≡ₚ tables (db_manifest db) /\
  (forall e, r = Err e -> db_manifest db' = db_manifest db /\ sound db' base bs [] contents /\
     (e = CounterExhausted \/ exists de, e = Device de)) /\
  exists base' bs', sound db' base' bs' [] contents.
Proof.
  intros Hs. unfold wrap_wal_if_full. destruct (next_block _ <? _)%Z eqn:En.
  { intros [= <- <-]. split_and!; auto; [by intros ? [=] |]. by exists base, bs. }
  set (e := edit_note_flushed _ _).
  pose proof (sd_inv _ _ _ _ _ Hs) as Hi. pose proof (di_range _ _ _ _ Hi) as Hq.
  destruct (sd_cfg _ _ _ _ _ Hs) as [[Hc0 Hc1] _].
  assert (edit_ok KEY_MAX e (db_manifest db)) as He.
  { apply (flush_edit_ok _ _ (c_wal_start (cfg db)) (next_seq db) 0); try done; cbn; try (unfold U32_MAX; lia).
    destruct (0 <? next_seq db)%Z eqn:Ez; bool_lia. }
  destruct (commit_manifest _ _ _ db e) as [db1 r1] eqn:Ec.
  destruct (commit_manifest_step _ _ _ _ _ _ _ _ Hs He Ec) as (m' & d' & -> & Hd & Hr).
  destruct (sd_wal _ _ _ _ _ Hs) as (Ew & Ee & Hb).
  pose proof (db_inv_device db base bs [] d' Hi ltac:(intros b Hbb; apply Hd; lia)) as Hi1.
  destruct r1 as [[] | e1]; intros [= <- <-].
  - destruct Hr as (Hck & -> & Hmax). destruct (sd_manifest _ _ _ _ _ Hs) as [T HT].
    destruct (plain_tables LEVELS TABLES KEY_MAX _ T e HT (sh_slots (ts_db Hsh)) He Hck) as (T' & HT' & Hp & Hn & Hsq);
      [done | done |]. cbn [added e edit_note_flushed edit_set_wal_head EMPTY_EDIT fmap option_fmap option_map option_list app] in Hp.
    split_and!; auto; [done |]. exists (c_wal_start (cfg db)), [].
    apply (sound_committed db _ base bs [] contents [] contents _ _ _ T'); auto; try done.
    + apply (db_inv_restart (set_manifest (set_device db d') _) base bs []); [| lia]. by eapply db_inv_core.
    + apply man_ok_set_seq; [done |]. pose proof (mo_seq _ _ _ _ _ HT). unfold fits, U64_MAX in *. lia.
    + cbn [set_wal set_core db_manifest set_manifest set_seq next_table_id]. rewrite Hn. lia.
    + constructor.
    + apply (sd_slots _ _ _ _ _ Hs).
    + apply (sd_sits _ _ _ _ _ Hs).
    + intros t b Ht Hbt. apply Hd. left.
      destruct (table_span _ _ _ _ _ t Hs Ht) as (s & _ & _ & _ & _ & _ & ? & ?). lia.
    + by intros t Ht%not_elem_of_nil.
  - destruct Hr as [-> Herr]. match goal with |- context [_ /\ exists b' bs', sound ?x _ _ _ _] => assert (sound x base bs [] contents) as Hs'
      by (eapply sound_ext; eauto; try done) end.
    split_and!; auto; [| eauto]. intros e' [= <-]. split_and!; auto.
    destruct Herr as [Herr | ?]; [| done]. exfalso. revert Herr. unfold check_edit. cbn [e edit_note_flushed edit_set_wal_head EMPTY_EDIT removed narrowed added].
    by rewrite Z.lor_0_l, Z.land_0_l.
Qed.

(** The reasons a flush can fail: the device, room, counters, or an index that
    outgrows its block. *)
Definition flush_error db (e : Error E) : Prop :=
  (exists de, e = Device de) \/ e = NeedsCompaction \/ e = RegionFull \/ e = CounterExhausted \/ e = ManifestFull \/
  (e = TableTooLarge /\ exists b, index_overflow b (chunks (flush_points (iter (db_table db))))).

Lemma free_slot_step db base bs tlog contents (total : nat) :
  sound db base bs tlog contents -> (0 < total)%nat -> (Z.of_nat total <= MIN_SLOT)%Z ->
  match free_slot_for (E := E) LEVELS TABLES db (Z.of_nat total) with
  | Ok s => valid (db_slots db) s /\ status_of (db_slots db) s = Free /\
      (0 <= slot_base (db_slots db) s)%Z /\
      (slot_base (db_slots db) s + Z.of_nat total <= slot_base (db_slots db) (s + 1))%Z /\
      (c_tbl_start (cfg db) <= slot_base (db_slots db) s)%Z /\
      (slot_base (db_slots db) (s + 1) <= c_tbl_end (cfg db))%Z /\
      Slots.slot_of (db_slots db) (slot_base (db_slots db) s) (Z.of_nat total) = Some s
  | Err e => e = NeedsCompaction \/ e = RegionFull
  end.
Proof.
  intros Hs Hpos Htot. destruct (sd_slots _ _ _ _ _ Hs) as [Hw (sl & El & Hg)].
  destruct (sd_cfg _ _ _ _ _ Hs) as [_ [Hc0 Hc1]].
  assert (0 <= SLOTS LEVELS TABLES)%Z as Hn0 by (unfold SLOTS; lia).
  destruct (layout_region _ _ _ _ _ ltac:(exact (proj1 Hc0)) Hn0 El) as (G1 & G2 & G3).
  destruct Hg as (g1 & g2 & g3). rewrite <- g1, <- g2, <- g3 in G2. rewrite <- g1 in G1. rewrite <- g2 in G3.
  unfold free_slot_for. rewrite (proj2 (Z.ltb_ge _ _)) by lia. cbv zeta.
  assert (no_room (E := E) LEVELS TABLES db = NeedsCompaction \/ no_room (E := E) LEVELS TABLES db = RegionFull) as Hroom
    by (unfold no_room; destruct (compaction_pending _ _ _); auto).
  destruct (_ <? _ + _)%Z; [| done]. pose proof (find_free_spec (db_slots db) Hw) as Hff.
  destruct (find_free (db_slots db)) as [s |]; [| done]. destruct Hff as (Hv & Hf & _).
  pose proof (wf_blocks _ Hw) as Hbp. pose proof (wf_base _ Hw) as Hbase.
  assert (slot_base (db_slots db) (s + 1) = slot_base (db_slots db) s + slot_blocks (db_slots db))%Z as Enext
    by (unfold slot_base; lia).
  assert (0 <= slot_base (db_slots db) s)%Z as H0 by (unfold slot_base, valid in *; nia).
  split_and!; auto; try lia.
  - unfold slot_base, valid in *. nia.
  - unfold slot_base, valid in *. nia.
  - apply slot_of_spec; auto; [lia |]. split_and!; auto; lia.
Qed.
End sound.

Arguments sd_inv {_ _ _ _ _ _ _ _ _ _ _ _ _ _ _} _.
Arguments sd_typed {_ _ _ _ _ _ _ _ _ _ _ _ _ _ _} _.
Arguments sd_regions {_ _ _ _ _ _ _ _ _ _ _ _ _ _ _} _.
Arguments sd_cfg {_ _ _ _ _ _ _ _ _ _ _ _ _ _ _} _.
Arguments sd_node {_ _ _ _ _ _ _ _ _ _ _ _ _ _ _} _.
Arguments sd_wal {_ _ _ _ _ _ _ _ _ _ _ _ _ _ _} _.
Arguments sd_slots {_ _ _ _ _ _ _ _ _ _ _ _ _ _ _} _.
Arguments sd_manifest {_ _ _ _ _ _ _ _ _ _ _ _ _ _ _} _.
Arguments sd_sits {_ _ _ _ _ _ _ _ _ _ _ _ _ _ _} _.
Arguments sd_ids {_ _ _ _ _ _ _ _ _ _ _ _ _ _ _} _.
Arguments sd_unique {_ _ _ _ _ _ _ _ _ _ _ _ _ _ _} _.
Arguments sd_tables {_ _ _ _ _ _ _ _ _ _ _ _ _ _ _} _.
Arguments sd_cache {_ _ _ _ _ _ _ _ _ _ _ _ _ _ _} _.
Arguments sd_cache_ids {_ _ _ _ _ _ _ _ _ _ _ _ _ _ _} _.
Arguments ts_db {_ _ _ _ _ _ _ _ _ _} _.
Arguments ts_block {_ _ _ _ _ _ _ _ _ _} _.
Arguments ts_bloom {_ _ _ _ _ _ _ _ _ _} _.
Arguments ts_rec {_ _ _ _ _ _ _ _ _ _} _.
Arguments ts_rdel {_ _ _ _ _ _ _ _ _ _} _.
Arguments ts_slot {_ _ _ _ _ _ _ _ _ _} _.
Arguments table_span {_ _ _ _ _ _ _ _ _ _ _ _ _ _ _ _} _ _.
Arguments sound_committed {_ _ _ _ _ _ _ _ _ _} _ _ _ _ _ _ _ _ _ _ _ _.
