(* ===== verification/DbFlushKeeps.v ===== *)
(** * A flush, end to end

    The steps of [flush] put together: the table is written into a free slot, where
    no live table is; the commit makes it visible; the memtable and the log start
    over.  The theorems are about the whole call, on every outcome. *)

From stdpp Require Import base numbers list.
From Stdlib Require Import ZArith Lia Sorting.Sorted.
From S2P Require Import Prelude Device Compress Version Slots Cache Memtable Wal Manifest ManifestPool ManifestEdit ManifestCodec ManifestLog ManifestCrash SstPlan SstWriter SstReader SstBlock SstImage SstIndex SstRdel SstTable SstBuild Db DbWrite DbOpen DbRead DbFlush DbFlushSafe.

Lemma bloom_k_range bits entries : (0 < bloom_k bits entries < 256)%Z.
Proof. unfold bloom_k. lia. Qed.

Section keeps.
  Context {D E : Type} `{Laws : DeviceLaws D E}.
  Context (KEY_MAX VAL_MAX CAP ARENA LEVELS TABLES BLOOM_BYTES : nat).
  Implicit Types db : Db D.

  Abbreviation MIN_SLOT := (MIN_SLOT_BLOCKS (D := D) (E := E) KEY_MAX VAL_MAX CAP ARENA).
  Abbreviation sound := (sound (D := D) (E := E) KEY_MAX VAL_MAX CAP ARENA LEVELS TABLES BLOOM_BYTES).
  Context (Hsh : table_shape (D := D) (E := E) KEY_MAX VAL_MAX CAP ARENA LEVELS TABLES BLOOM_BYTES).

(** A device that kept the log and the live tables. *)
Lemma sound_device db base bs tlog contents d' :
  sound db base bs tlog contents ->
  (forall b, (c_wal_start (cfg db) <= b < c_wal_end (cfg db))%Z -> read_block d' b = read_block (device (db_wal db)) b) ->
  (forall t b, t ∈ tables (db_manifest db) -> (first_block t <= b < end_block t)%Z ->
    read_block d' b = read_block (device (db_wal db)) b) ->
  sound (set_device db d') base bs tlog contents.
Proof.
  intros Hs Hw Ht. destruct (sd_wal Hs) as (Ew & Ee & Hb).
  destruct (sd_manifest Hs) as [T HT].
  apply (sound_committed db _ base bs tlog contents [] contents _ _ _ T);
    auto; try done.
  - apply (db_inv_device KEY_MAX VAL_MAX CAP ARENA); [apply Hs |]. intros b Hbb. apply Hw. lia.
  - apply Hs.
  - constructor.
  - apply Hs.
  - apply Hs.
  - by intros t Hn%not_elem_of_nil.
Qed.

(** A free slot holds no block of a live table. *)
Lemma free_slot_apart db base bs tlog contents s t b :
  sound db base bs tlog contents -> valid (db_slots db) s -> status_of (db_slots db) s = Free ->
  t ∈ tables (db_manifest db) -> (first_block t <= b < end_block t)%Z ->
  (b < slot_base (db_slots db) s \/ slot_base (db_slots db) (s + 1) <= b)%Z.
Proof.
  intros Hs Hv Hf Ht Hb.
  destruct (table_span Hs Ht)
    as (s' & _ & Hv' & Hu & H1 & H2 & _).
  assert (s <> s') by congruence.
  pose proof (wf_blocks _ (proj1 (sd_slots Hs))) as Hbp.
  unfold slot_base, valid in *. nia.
Qed.

(** Writing into a free slot. *)
Lemma sound_slot_write db base bs tlog contents s d' lo hi :
  sound db base bs tlog contents -> valid (db_slots db) s -> status_of (db_slots db) s = Free ->
  (c_tbl_start (cfg db) <= lo)%Z -> (slot_base (db_slots db) s <= lo)%Z -> (hi <= slot_base (db_slots db) (s + 1))%Z ->
  (hi <= c_tbl_end (cfg db))%Z -> same_outside (device (db_wal db)) d' lo hi ->
  sound (set_device db d') base bs tlog contents.
Proof.
  intros Hs Hv Hf H1 H2 H3 H4 Ho. apply sound_device; [done | |].
  - intros b Hb. apply Ho.
    destruct (regions_tables KEY_MAX LEVELS TABLES _ (sd_regions Hs)) as [Ht _]. lia.
  - intros t b Ht Hb. apply Ho. pose proof (free_slot_apart _ _ _ _ _ s t b Hs Hv Hf Ht Hb). lia.
Qed.

(** ** The memtable as the two streams of a flush *)

Lemma log_bytes_count l : Forall (entry_ok KEY_MAX VAL_MAX) l -> (length l <= log_bytes l)%nat.
Proof.
  induction 1 as [|e l [Hk _] _ IH]; [done |]. unfold log_bytes in *. cbn [sum_list_with length]. lia.
Qed.

Lemma flush_stream db base bs tlog contents :
  sound db base bs tlog contents ->
  let l := iter (db_table db) in
  l ≡ₚ tlog /\ StronglySorted before l /\ Forall (entry_ok KEY_MAX VAL_MAX) l /\ Forall entry_typed l /\
  Forall (entry_ok1 KEY_MAX) (flush_points l) /\ Forall rdel_fits (flush_rdels l) /\
  (Z.of_nat (length (flush_points l)) <= U64_MAX)%Z.
Proof.
  intros Hs l. pose proof (di_table _ _ _ _ (sd_inv Hs)) as Hf.
  pose proof (sh_consts (ts_db Hsh)) as Hc. pose proof (sh_block (ts_db Hsh)) as Hb. pose proof (ts_block Hsh) as Hb64.
  destruct (filled_inv Hc _ _ Hf) as (Hw & Hp & _).
  pose proof (filled_entries _ _ Hc Hf) as Hok.
  pose proof (sd_typed Hs) as Hty. fold l in Hp. rewrite <- Hp in Hok, Hty.
  assert (HB : (49 <= BLOCK)%nat) by lia.
  assert (length l <= ARENA)%nat as Hlen.
  { pose proof (log_bytes_count l Hok). pose proof (wf_used _ _ _ Hw).
    destruct (filled_inv Hc _ _ Hf) as (_ & _ & Ea). pose proof (log_bytes_perm _ _ Hp). lia. }
  split_and!; auto.
  - apply Hw.
  - apply (flush_points_ok KEY_MAX VAL_MAX BLOOM_BYTES HB Hb64 (ts_bloom Hsh)); auto; apply Hc || apply Hsh.
  - apply (flush_rdels_ok KEY_MAX VAL_MAX BLOOM_BYTES HB Hb64 (ts_bloom Hsh)); auto; apply Hc || apply Hsh.
  - pose proof (ASSERT_ARENA_FITS _ _ _ _ Hc). unfold flush_points. rewrite length_map.
    pose proof (filter_len (fun e => negb (range_del e)) l). unfold U32_MAX, U64_MAX in *. lia.
Qed.

(** ** The commit of a flush *)

Lemma flush_edit_shape db eb total p rp edit :
  flush_edit (E := E) KEY_MAX db eb total p rp = Ok edit ->
  let id := next_table_id (db_manifest db) in
  let head := if (c_wal_end (cfg db) <=? next_block (db_wal db))%Z then c_wal_start (cfg db) else next_block (db_wal db) in
  exists tref, flush_tref (E := E) KEY_MAX (c_node_id (cfg db)) id eb total p rp = Ok tref /\ (id + 1 <= U32_MAX)%Z /\
    edit = mkEdit (Some head) (if (0 <? next_seq db)%Z then next_seq db else 0)%Z 0
      (if (0 <? id + 1)%Z then id + 1 else 0)%Z 0 0 (EMPTY_BOUND KEY_MAX) (Some (0%nat, tref)) None.
Proof.
  unfold flush_edit. cbv zeta. destruct (U32_MAX <? _)%Z eqn:Eu; [done |].
  destruct (flush_tref _ _ _ _ _ _ _) as [tref |]; [| done]. cbn. intros [= <-].
  exists tref. split; [done |]. split; [bool_lia |]. done.
Qed.

(** The log and the memtable start over. *)
Lemma db_inv_done db base bs tlog s :
  db_inv (E := E) KEY_MAX VAL_MAX CAP ARENA db base bs tlog -> (0 <= c_wal_start (cfg db))%Z ->
  let head := if (c_wal_end (cfg db) <=? next_block (db_wal db))%Z then c_wal_start (cfg db) else next_block (db_wal db) in
  db_inv (E := E) KEY_MAX VAL_MAX CAP ARENA (flush_done db s) head [] [].
Proof.
  intros Hi Hc. cbv zeta. unfold flush_done.
  set (db1 := set_slots db _ _ _).
  assert (db_inv (E := E) KEY_MAX VAL_MAX CAP ARENA (set_table db1 (clear (db_table db1))) base bs []) as Hi1.
  { destruct Hi. split; auto. by eapply filled_clear. }
  destruct (_ <=? _)%Z; [by apply (db_inv_restart KEY_MAX VAL_MAX CAP ARENA _ base bs) |].
  exact (db_inv_restart_here KEY_MAX VAL_MAX CAP ARENA _ _ _ _ Hi1).
Qed.

Lemma flush_done_fields db s :
  let db' := flush_done db s in
  cfg db' = cfg db /\ db_manifest db' = db_manifest db /\ db_cache db' = db_cache db /\
  db_slots db' = claim (db_slots db) s /\ next_seq db' = next_seq db /\ iter (db_table db') = [] /\
  device (db_wal db') = device (db_wal db) /\
  wal_start (db_wal db') = wal_start (db_wal db) /\ wal_end (db_wal db') = wal_end (db_wal db).
Proof. cbv zeta. unfold flush_done. destruct (_ <=? _)%Z; split_and!; try done; apply iter_empty; done. Qed.

(** What a successful flush leaves: one new table of this handle's node that spans the
    memtable's entries, the old tables, and an empty memtable. *)
Record flushed db db' (tref : TableRef) : Prop := {
  fl_tables : tables (db_manifest db') ≡ₚ tref :: tables (db_manifest db);
  fl_new : tref ∉ tables (db_manifest db);
  fl_id : t_id tref = next_table_id (db_manifest db);
  fl_node : node_id tref = c_node_id (cfg db);
  fl_span : Forall (ref_spans tref) (iter (db_table db));
  fl_mem : iter (db_table db') = [];
}.

(** The slot [s] takes a table of [total] blocks. *)
Record takes db (s : u32) (total : nat) : Prop := {
  tk_valid : valid (db_slots db) s;
  tk_free : status_of (db_slots db) s = Free;
  tk_pos : (0 <= slot_base (db_slots db) s)%Z;
  tk_room : (slot_base (db_slots db) s + Z.of_nat total <= slot_base (db_slots db) (s + 1))%Z;
  tk_lo : (c_tbl_start (cfg db) <= slot_base (db_slots db) s)%Z;
  tk_hi : (slot_base (db_slots db) (s + 1) <= c_tbl_end (cfg db))%Z;
  tk_slot : Slots.slot_of (db_slots db) (slot_base (db_slots db) s) (Z.of_nat total) = Some s;
}.

Lemma claim_geometry m i : same_geometry (claim m i) m.
Proof. unfold claim. by repeat case_match. Qed.

(** The claimed slot is the new table's own. *)
Lemma claimed_slot db base bs tlog contents s total tref :
  sound db base bs tlog contents -> takes db s total ->
  first_block tref = slot_base (db_slots db) s -> block_count tref = Z.of_nat total ->
  let slot_of t := Slots.slot_of (claim (db_slots db) s) (first_block t) (block_count t) in
  (forall i, valid (db_slots db) i -> status_of (db_slots db) i = Used -> status_of (claim (db_slots db) s) i = Used) /\
  slot_of tref = Some s /\ status_of (claim (db_slots db) s) s = Used /\
  NoDup (slot_of <$> tref :: tables (db_manifest db)).
Proof.
  intros Hs Htk Hfb Hbc. cbv zeta.
  destruct (claim_refines _ _ (proj1 (sd_slots Hs)) (tk_valid _ _ _ Htk) (tk_free _ _ _ Htk)) as [Hwf Hst].
  pose proof (tk_valid _ _ _ Htk) as [Hv0 _].
  assert (forall t, Slots.slot_of (claim (db_slots db) s) (first_block t) (block_count t) = db_slot_of db t) as Hsl
    by (intros t; by rewrite (claim_geometry (db_slots db) s)).
  assert (db_slot_of db tref = Some s) as Es by (unfold db_slot_of; rewrite Hfb, Hbc; apply Htk).
  split_and!.
  - intros i [Hi _] Hu. rewrite Hst by done. unfold set_status. by destruct (i =? s)%Z.
  - by rewrite Hsl.
  - rewrite Hst by done. unfold set_status. by rewrite Z.eqb_refl.
  - rewrite (list_fmap_ext _ (db_slot_of db)) by (intros; apply Hsl). cbn [fmap list_fmap]. rewrite Es.
    apply NoDup_cons. split; [| apply (sd_sits Hs)].
    intros (t & Et & Ht)%list_elem_of_fmap. pose proof (sd_sits Hs) as [Hall _]. rewrite Forall_forall in Hall.
    destruct (Hall t Ht) as (s' & Es' & Hu). pose proof (tk_free _ _ _ Htk). congruence.
Qed.

(** Planning succeeds, within a slot. *)
Lemma flush_plans db base bs tlog contents node id eb :
  sound db base bs tlog contents -> let l := iter (db_table db) in
  exists p rp tref, plan_table (E := E) BLOCK KEY_MAX (flush_points l) = Ok p /\
    plan_rdel_blocks (E := E) BLOCK (flush_rdels l) = Ok rp /\
    let total := (rp_blocks rp + tp_data_blocks p + 3)%nat in
    (total <= max_flush_blocks BLOCK CAP ARENA KEY_MAX VAL_MAX)%nat /\
    flush_tref (E := E) KEY_MAX node id eb total p rp = Ok tref /\
    block_count tref = Z.of_nat total /\ Forall (ref_spans tref) tlog.
Proof.
  intros Hs. apply (flush_plan_spec (E := E) BLOCK (db_table db) tlog node id eb (sh_consts (ts_db Hsh))
    (di_table _ _ _ _ (sd_inv Hs)) (ts_rec Hsh) (ts_rdel Hsh)); [| apply Hsh].
  eapply Forall_impl; [exact (sd_typed Hs) |]. intros e He. apply He.
Qed.

Lemma flush_tref_facts db base bs tlog contents p rp total eb tref :
  sound db base bs tlog contents -> let l := iter (db_table db) in
  plan_table (E := E) BLOCK KEY_MAX (flush_points l) = Ok p ->
  plan_rdel_blocks (E := E) BLOCK (flush_rdels l) = Ok rp ->
  total = (rp_blocks rp + tp_data_blocks p + 3)%nat ->
  flush_tref (E := E) KEY_MAX (c_node_id (cfg db)) (next_table_id (db_manifest db)) eb total p rp = Ok tref ->
  (Z.of_nat total <= MIN_SLOT)%Z /\ block_count tref = Z.of_nat total /\ first_block tref = eb /\
  t_id tref = next_table_id (db_manifest db) /\ node_id tref = c_node_id (cfg db) /\ Forall (ref_spans tref) l /\
  ((0 <= eb <= U64_MAX)%Z -> ref_ok KEY_MAX tref).
Proof.
  intros Hs l Hp Hrp -> Ht. destruct (flush_stream _ _ _ _ _ Hs) as (Hperm & _ & _ & Hty & _). fold l in Hperm, Hty.
  pose proof (sh_consts (ts_db Hsh)) as Hc.
  destruct (flush_plans db base bs tlog contents (c_node_id (cfg db)) (next_table_id (db_manifest db)) eb Hs)
    as (p' & rp' & tref' & Hp' & Hrp' & Hfit & Ht' & Hbc & Hspan).
  fold l in Hp', Hrp'. rewrite Hp in Hp'. rewrite Hrp in Hrp'. injection Hp' as <-. injection Hrp' as <-.
  rewrite Ht in Ht'. injection Ht' as <-. rewrite <- Hperm in Hspan.
  destruct (sd_manifest Hs) as [T HT]. pose proof (mo_next _ _ _ _ _ HT) as Hnx.
  split; [unfold MIN_SLOT_BLOCKS; lia |]. split; [done |]. 
  assert (first_block tref = eb /\ t_id tref = next_table_id (db_manifest db) /\ node_id tref = c_node_id (cfg db)) as (? & ? & ?).
  { unfold flush_tref in Ht. destruct (try_u32 _); [| done]. destruct (try_u32 _); [| done]. injection Ht as <-. done. }
  split_and!; auto. intros Heb.
  eapply (flush_tref_ok BLOCK KEY_MAX ltac:(apply Hc) l _ _ _ _ p rp); [| exact Hp | exact Hrp | apply Hs | exact Hnx | exact Heb | | exact Ht]; [| lia].
  eapply Forall_impl; [exact Hty |]. intros e (? & ? & ? & _). split_and!; auto; lia.
Qed.

(** The planned size is what both sections take, and a slot holds it. *)
Lemma flush_total db base bs tlog contents p rp :
  sound db base bs tlog contents -> let l := iter (db_table db) in
  plan_table (E := E) BLOCK KEY_MAX (flush_points l) = Ok p ->
  plan_rdel_blocks (E := E) BLOCK (flush_rdels l) = Ok rp ->
  let total := (rp_blocks rp + tp_data_blocks p + 3)%nat in
  (Z.of_nat total <= MIN_SLOT)%Z /\ total = (length (chunks (flush_points l)) + length (rchunks (flush_rdels l)) + 3)%nat.
Proof.
  intros Hs l Hp Hrp total. pose proof (sh_block (ts_db Hsh)) as Hb. assert (HB : (49 <= BLOCK)%nat) by lia. split.
  - destruct (flush_plans db base bs tlog contents 0 0 0 Hs) as (p' & rp' & tref' & Hp' & Hrp' & Hfit & _).
    fold l in Hp', Hrp'. rewrite Hp in Hp'. rewrite Hrp in Hrp'. injection Hp' as <-. injection Hrp' as <-.
    unfold MIN_SLOT_BLOCKS. fold total in Hfit. lia.
  - unfold total. rewrite (plan_table_chunks KEY_MAX BLOOM_BYTES HB (ts_bloom Hsh) _ _ Hp),
      (plan_rdel_chunks ltac:(unfold RDEL_TRAILER; lia) _ _ Hrp). lia.
Qed.

(** The edit of a flush is well-formed: it adds the new table to level 0 and moves the
    log head and the counters. *)
Lemma flush_edit_valid db base bs tlog contents s p rp edit :
  sound db base bs tlog contents -> let l := iter (db_table db) in
  plan_table (E := E) BLOCK KEY_MAX (flush_points l) = Ok p ->
  plan_rdel_blocks (E := E) BLOCK (flush_rdels l) = Ok rp ->
  let total := (rp_blocks rp + tp_data_blocks p + 3)%nat in
  takes db s total ->
  flush_edit (E := E) KEY_MAX db (slot_base (db_slots db) s) total p rp = Ok edit ->
  edit_ok KEY_MAX edit (db_manifest db) /\ plain edit /\
  e_next_table_id edit = (next_table_id (db_manifest db) + 1)%Z /\
  exists tref, added edit = Some (0%nat, tref) /\
    flush_tref (E := E) KEY_MAX (c_node_id (cfg db)) (next_table_id (db_manifest db)) (slot_base (db_slots db) s) total p rp = Ok tref.
Proof.
  intros Hs l Hp Hrp total Htk He.
  destruct (flush_edit_shape _ _ _ _ _ _ He) as (tref & Ht & Hid & ->).
  destruct (flush_tref_facts _ _ _ _ _ p rp total _ tref Hs Hp Hrp eq_refl Ht) as (_ & _ & _ & _ & _ & _ & Hrok).
  destruct (sd_cfg Hs) as [[Hw0 Hw1] [Ht0 Ht1]]. destruct (sd_wal Hs) as (Ew & Ee & Hb).
  pose proof (di_range _ _ _ _ (sd_inv Hs)) as Hq. pose proof (inv_next _ _ _ _ (di_wal _ _ _ _ (sd_inv Hs))) as Hnb.
  specialize (Hrok ltac:(destruct Htk; lia)). destruct (sd_manifest Hs) as [T HT].
  pose proof (mo_next _ _ _ _ _ HT) as Hnx. unfold fits in Hnx.
  rewrite (proj2 (Z.ltb_lt 0 (next_table_id (db_manifest db) + 1)%Z)) by lia.
  split_and!; [| done | done | by exists tref].
  eapply flush_edit_ok; try reflexivity; try lia.
  - intros lv t [= <- <-]. done.
  - destruct (_ <=? next_block _)%Z eqn:El; bool_lia.
  - cbn. destruct (0 <? next_seq db)%Z; lia.
  - cbn. lia.
Qed.

Lemma new_table_ok db base bs tlog contents s p rp tref k ec ms d' L :
  sound db base bs tlog contents -> let l := iter (db_table db) in
  plan_table (E := E) BLOCK KEY_MAX (flush_points l) = Ok p ->
  plan_rdel_blocks (E := E) BLOCK (flush_rdels l) = Ok rp ->
  let total := (rp_blocks rp + tp_data_blocks p + 3)%nat in
  takes db s total ->
  flush_tref (E := E) KEY_MAX (c_node_id (cfg db)) (next_table_id (db_manifest db)) (slot_base (db_slots db) s) total p rp = Ok tref ->
  table_on BLOOM_BYTES (device (db_wal db)) (slot_base (db_slots db) s) (chunks (flush_points l))
    (rchunks (flush_rdels l)) k ec ms ->
  (forall b, (c_tbl_start (cfg db) <= b < c_tbl_end (cfg db))%Z -> read_block d' b = read_block (device (db_wal db)) b) ->
  (forall b, (first_block tref <= b < end_block tref)%Z -> L (t_id tref) b) ->
  table_ok VAL_MAX BLOOM_BYTES d' L tref (flush_points l, flush_rdels l).
Proof.
  intros Hs l Hp Hrp total Htk Ht Hon Hd HL.
  destruct (flush_tref_facts _ _ _ _ _ p rp total _ tref Hs Hp Hrp eq_refl Ht) as (_ & Hbc & Hfb & Eid & _ & Hspan & _).
  destruct (flush_stream _ _ _ _ _ Hs) as (_ & Hso & Hok & Hty & _).
  pose proof (sh_consts (ts_db Hsh)) as Hc. pose proof (sh_block (ts_db Hsh)) as Hb.
  assert (HB : (49 <= BLOCK)%nat) by lia. destruct (sd_cfg Hs) as [_ [_ Ht1]].
  assert (first_block tref + Z.of_nat total <= c_tbl_end (cfg db))%Z as Hin by (destruct Htk; lia).
  destruct (flush_total _ _ _ _ _ _ _ Hs Hp Hrp) as [_ Etot]. fold l total in Etot.
  eapply (flushed_table_ok KEY_MAX VAL_MAX BLOOM_BYTES HB (ts_block Hsh) (ts_bloom Hsh) (ts_rec Hsh) (ts_rdel Hsh) d' L);
    [exact Hp | exact Hrp | exact Ht | exact Hso | exact Hok | exact Hty | exact Hspan | | |].
  - eapply table_on_ext; [| exact Hon]. intros b Hbb. apply Hd. destruct Htk. lia.
  - unfold end_block. lia.
  - intros i Hi. rewrite <- Hfb, <- Eid. apply HL. unfold end_block. lia.
Qed.

(** The commit point passed. *)
Lemma flush_commit_ok db base bs tlog contents s p rp k ec ms edit db2 :
  sound db base bs tlog contents -> let l := iter (db_table db) in
  plan_table (E := E) BLOCK KEY_MAX (flush_points l) = Ok p ->
  plan_rdel_blocks (E := E) BLOCK (flush_rdels l) = Ok rp ->
  let total := (rp_blocks rp + tp_data_blocks p + 3)%nat in
  takes db s total ->
  table_on BLOOM_BYTES (device (db_wal db)) (slot_base (db_slots db) s) (chunks (flush_points l))
    (rchunks (flush_rdels l)) k ec ms ->
  flush_edit (E := E) KEY_MAX db (slot_base (db_slots db) s) total p rp = Ok edit ->
  commit_manifest KEY_MAX LEVELS TABLES db edit = (db2, Ok tt) ->
  exists tref base', flushed db (flush_done db2 s) tref /\
    sound (flush_done db2 s) base' [] [] (with_flushed contents tref l).
Proof.
  intros Hs l Hp Hrp total Htk Hon He Hc.
  destruct (flush_edit_valid _ _ _ _ _ _ _ _ _ Hs Hp Hrp Htk He) as (Hok & Hpl & Hnid & tref & Ha & Ht). exists tref.
  destruct (flush_tref_facts _ _ _ _ _ p rp total _ tref Hs Hp Hrp eq_refl Ht) as (Hmin & Hbc & Hfb & Eid & En & Hspan & _).
  destruct (commit_manifest_step KEY_MAX VAL_MAX CAP ARENA LEVELS TABLES BLOOM_BYTES Hsh _ _ _ _ _ _ _ _ Hs Hok Hc)
    as (m' & d' & -> & Hd & Hck & -> & Hmax).
  destruct (sd_manifest Hs) as [T HT].
  destruct (plain_tables LEVELS TABLES KEY_MAX _ T edit HT (sh_slots (ts_db Hsh)) Hok Hck Hpl) as (T' & HT' & Hperm & Hn & Hsq);
    [intros lv t; by rewrite Ha; intros [= <- _] |].
  rewrite Ha in Hperm. cbn [fmap option_fmap option_map option_list snd app] in Hperm. rewrite Hnid, Z.max_r in Hn by lia.
  set (db1 := set_manifest _ _).
  destruct (claimed_slot _ _ _ _ _ _ _ _ Hs Htk Hfb Hbc) as (Hused & Hslot & Hsu & Hnd).
  pose proof (claim_refines _ _ (proj1 (sd_slots Hs)) (tk_valid _ _ _ Htk) (tk_free _ _ _ Htk)) as [Hwf _].
  pose proof (sd_inv Hs) as Hi. destruct (sd_wal Hs) as (Ew & Ee & Hb). destruct (sd_cfg Hs) as [[Hw0 Hw1] _].
  assert (db_inv (E := E) KEY_MAX VAL_MAX CAP ARENA db1 base bs tlog) as Hi1.
  { eapply (db_inv_core KEY_MAX VAL_MAX CAP ARENA (set_device db d')); try done.
    apply (db_inv_device KEY_MAX VAL_MAX CAP ARENA); [done |]. intros b Hbb. apply Hd. lia. }
  pose proof (db_inv_done db1 base bs tlog s Hi1 (proj1 Hw0)) as Hi2. cbv zeta in Hi2.
  destruct (flush_done_fields db1 s) as (F1 & F2 & F3 & F4 & F5 & F6 & F7 & F8 & F9).
  assert (tref ∉ tables (db_manifest db)) as Hnew.
  { intros Hin. pose proof (sd_ids Hs) as Hids. rewrite Forall_forall in Hids. specialize (Hids _ Hin). lia. }
  eexists. split; [split; rewrite ?F2; auto |].
  eapply (sound_committed db _ base bs tlog contents [tref] _ _ _ _ T'); [exact Hs | exact Hi2 | ..];
    rewrite ?F1, ?F2, ?F3, ?F4, ?F7, ?F8, ?F9; auto; try done.
  - cbn. destruct (_ <=? next_block _)%Z; [lia |]. pose proof (inv_next _ _ _ _ (di_wal _ _ _ _ Hi)). lia.
  - apply man_ok_set_seq; [done |]. pose proof (mo_seq _ _ _ _ _ HT). unfold fits, U64_MAX in *. lia.
  - cbn. lia.
  - apply Forall_singleton. cbn. lia.
  - apply NoDup_singleton.
  - apply claim_geometry.
  - apply Forall_singleton. exists s. unfold db_slot_of. by rewrite F4.
  - unfold db_slot_of. by rewrite F4.
  - intros t b Hin Hbt. apply Hd. left. destruct (table_span Hs Hin) as (? & _ & _ & _ & _ & _ & ? & ?). lia.
  - intros t ->%list_elem_of_singleton. rewrite flushed_contents.
    apply (new_table_ok db base bs tlog contents s p rp tref k ec ms); auto.
    intros b Hbt. exists tref. split_and!; [| done | lia | lia]. cbn. rewrite Hperm. apply list_elem_of_here.
  - intros t Hin. by apply (old_contents l contents (tables (db_manifest db))).
Qed.

Lemma flush_edit_error db base bs tlog contents eb p rp e :
  sound db base bs tlog contents -> let l := iter (db_table db) in
  plan_table (E := E) BLOCK KEY_MAX (flush_points l) = Ok p ->
  plan_rdel_blocks (E := E) BLOCK (flush_rdels l) = Ok rp ->
  flush_edit (E := E) KEY_MAX db eb (rp_blocks rp + tp_data_blocks p + 3) p rp = Err e -> e = CounterExhausted.
Proof.
  intros Hs l Hp Hrp. unfold flush_edit. cbv zeta. destruct (U32_MAX <? _)%Z; [by intros [= <-] |].
  destruct (flush_plans db base bs tlog contents (c_node_id (cfg db)) (next_table_id (db_manifest db)) eb Hs)
    as (p' & rp' & tref' & Hp' & Hrp' & _ & Ht' & _).
  fold l in Hp', Hrp'. rewrite Hp in Hp'. rewrite Hrp in Hrp'. injection Hp' as <-. injection Hrp' as <-.
  by rewrite Ht'.
Qed.

Lemma check_l0_error m edit tref (e : Error E) :
  added edit = Some (0%nat, tref) -> check_edit LEVELS TABLES m edit = Err e -> e = ManifestFull.
Proof.
  intros Ha. unfold check_edit. rewrite Ha. pose proof (so_levels _ _ (sh_slots (ts_db Hsh))) as HL.
  destruct (negb _); [by intros [= <-] |]. rewrite (proj2 (Nat.leb_gt LEVELS 0)) by lia.
  destruct (_ <=? _)%nat; [by intros [= <-] |]. cbn [Nat.eqb]. destruct (TABLES <=? _)%nat; [by intros [= <-] | done].
Qed.

Lemma commit_manifest_keeps db edit db' (r : result unit (Error E)) :
  commit_manifest KEY_MAX LEVELS TABLES db edit = (db', r) -> exists m d, db' = set_manifest (set_device db d) m.
Proof. unfold commit_manifest. destruct (commit_edit _ _ _ _ _ _ _) as [[m d] r']. intros [= <- <-]. eauto. Qed.

Lemma set_manifest_same db : set_manifest db (db_manifest db) = db.
Proof. by destruct db. Qed.

(** ** The flush *)

(** What a flush leaves, on each outcome: on failure memtable, manifest and slots as they
    were; on success the memtable's entries in a new table. *)
Definition flush_outcome db db' base bs tlog (contents : TableRef -> Contents) (r : result unit (Error E)) : Prop :=
  cfg db' = cfg db /\ next_seq db' = next_seq db /\
  match r with
  | Err e => db_table db' = db_table db /\ db_manifest db' = db_manifest db /\ db_slots db' = db_slots db /\
      flush_error db e /\ sound db' base bs tlog contents
  | Ok _ =>
      (iter (db_table db) = [] /\ db_table db' = db_table db /\ db_slots db' = db_slots db /\
       tables (db_manifest db') ≡ₚ tables (db_manifest db) /\
       exists base' bs', sound db' base' bs' [] contents) \/
      exists tref base', flushed db db' tref /\ sound db' base' [] [] (with_flushed contents tref (iter (db_table db)))
  end.

Lemma flush_planned_step db base bs tlog contents p rp db' r :
  sound db base bs tlog contents -> let l := iter (db_table db) in
  plan_table (E := E) BLOCK KEY_MAX (flush_points l) = Ok p ->
  plan_rdel_blocks (E := E) BLOCK (flush_rdels l) = Ok rp ->
  flush_planned KEY_MAX LEVELS TABLES BLOOM_BYTES db p rp = (db', r) -> flush_outcome db db' base bs tlog contents r.
Proof.
  intros Hs l Hp Hrp. unfold flush_planned. set (k := bloom_k _ _). set (total := (rp_blocks rp + _ + 3)%nat).
  pose proof (sh_consts (ts_db Hsh)) as Hc. pose proof (sh_block (ts_db Hsh)) as Hb.
  assert (HB : (49 <= BLOCK)%nat) by lia. pose proof (ts_slot Hsh) as Hslot.
  destruct (flush_stream _ _ _ _ _ Hs) as (_ & _ & _ & _ & Hpts & Hrds & Hcount). fold l in Hpts, Hrds, Hcount.
  destruct (flush_total db base bs tlog contents p rp Hs Hp Hrp) as [Hmin Etot]. fold l total in Hmin, Etot.
  rewrite (proj2 (Z.ltb_ge _ _)) by (unfold U32_MAX, U64_MAX in *; lia).
  pose proof (free_slot_step KEY_MAX VAL_MAX CAP ARENA LEVELS TABLES BLOOM_BYTES db base bs tlog contents total Hs
    ltac:(lia) Hmin) as Hfs.
  destruct (free_slot_for _ _ _ _) as [s | e]; [| intros [= <- <-]; unfold flush_outcome, flush_error; by intuition].
  assert (takes db s total) as Htk by (destruct Hfs as (? & ? & ? & ? & ? & ? & ?); by split).
  destruct (sd_cfg Hs) as [_ [_ Ht1]].
  destruct (write_flush_table _ _ _ _ _ _ _ _) as [d r1] eqn:Ew.
  destruct (write_flush_table_step KEY_MAX BLOOM_BYTES HB (ts_block Hsh) (ts_bloom Hsh) ltac:(apply Hc) _ _ _ _ _ _ _ _
    Hp Hrp Hpts Hrds (tk_pos _ _ _ Htk) (bloom_k_range _ _) ltac:(destruct Htk; fold l; lia) ltac:(fold l; lia) Hcount Ew)
    as [Ho Hr1]. fold l in Ho, Hr1. rewrite <- Etot in Ho.
  assert (sound (set_device db d) base bs tlog contents) as Hs1.
  { destruct Htk. apply (sound_slot_write db base bs tlog contents s d _ _ Hs) in Ho; auto; lia. }
  destruct r1 as [[] | e1].
  2: { intros [= <- <-]. split_and!; try done. destruct Hr1 as [[de ->] | [-> Hov]]; unfold flush_error; eauto 10. }
  destruct Hr1 as [ms Hon].
  destruct (flush_edit _ _ _ _ _ _) as [edit | e2] eqn:Ee.
  2: { intros [= <- <-]. split_and!; try done. rewrite (flush_edit_error (set_device db d) base bs tlog contents _ p rp e2 Hs1 Hp Hrp Ee).
    unfold flush_error. auto. }
  assert (takes (set_device db d) s total) as Htk1 by (destruct Htk; by split).
  destruct (commit_manifest _ _ _ _ _) as [db2 r2] eqn:Ec.
  destruct r2 as [[] | e2]; intros [= <- <-].
  - destruct (flush_commit_ok (set_device db d) base bs tlog contents s p rp k _ ms edit db2 Hs1 Hp Hrp Htk1 Hon Ee Ec)
      as (tref & base' & Hfl & Hs2).
    pose proof (commit_manifest_keeps _ _ _ _ Ec) as (m & d2 & Edb2). 
    destruct (flush_done_fields db2 s) as (F1 & _ & _ & _ & F5 & _). split; [by rewrite F1, Edb2 |].
    split; [by rewrite F5, Edb2 |]. right. exists tref, base'. by destruct Hfl.
  - destruct (flush_edit_valid _ _ _ _ _ _ _ _ _ Hs1 Hp Hrp Htk1 Ee) as (Hok & _ & _ & tref & Hadd & _).
    destruct (commit_manifest_step KEY_MAX VAL_MAX CAP ARENA LEVELS TABLES BLOOM_BYTES Hsh _ _ _ _ _ _ _ _ Hs1 Hok Ec)
      as (m' & d' & -> & Hd & -> & Herr). change (set_manifest _ _) with (set_manifest (set_device (set_device db d) d') (db_manifest (set_device (set_device db d) d'))).
    rewrite set_manifest_same. split_and!; try done.
    + destruct Herr as [Herr | [-> | [de ->]]]; [| unfold flush_error; eauto..].
      rewrite (check_l0_error _ _ _ _ Hadd Herr). unfold flush_error. auto 6.
    + apply sound_device; [done | |].
      * intros b Hbb. by apply Hd; right.
      * intros t b Hin Hbt. apply Hd. left. destruct (table_span Hs1 Hin) as (? & _ & _ & _ & _ & _ & ? & ?). lia.
Qed.

(** The commit of a log with nothing staged is a device flush. *)
Lemma flush_log_step db base bs tlog contents w r :
  sound db base bs tlog contents -> Wal.commit (db_wal db) = (w, r) ->
  sound (set_wal db w) base bs tlog contents /\ forall e, r = Err e -> exists de, e = Device de.
Proof.
  intros Hs. pose proof (sd_inv Hs) as Hi. pose proof (stage_empty _ _ _ (di_wal _ _ _ _ Hi)) as Hz.
  unfold Wal.commit. rewrite Hz. cbn [Nat.ltb Nat.leb]. intros Hc.
  pose proof (commit_flush_spec _ _ _ _ (di_wal _ _ _ _ Hi)) as (H1 & H2 & H3 & _). rewrite Hc in H1, H2, H3. cbn [fst] in *.
  unfold commit_flush in Hc. destruct (dev_flush (device (db_wal db))) as [d' r'] eqn:Ef. injection Hc as <- <-.
  split; [| intros e; destruct r' as [|]; cbn; [done | intros [= <-]; eauto]].
  destruct (sd_wal Hs) as (_ & _ & Hb).
  eapply (sound_ext KEY_MAX VAL_MAX CAP ARENA LEVELS TABLES BLOOM_BYTES db); eauto; try done.
  - destruct Hi. by split.
  - apply Hs.
  - intros b _. exact (read_flushed _ _ _ _ Ef).
Qed.

Lemma flush_step db base bs tlog contents db' r :
  sound db base bs tlog contents -> flush KEY_MAX LEVELS TABLES BLOOM_BYTES db = (db', r) ->
  flush_outcome db db' base bs tlog contents r.
Proof.
  intros Hs. unfold flush, ensure_open. rewrite (di_open _ _ _ _ (sd_inv Hs)).
  destruct (Wal.commit (db_wal db)) as [w r1] eqn:Ec. destruct (flush_log_step _ _ _ _ _ _ _ Hs Ec) as [Hs1 Herr].
  destruct r1 as [[] | e]; [| intros [= <- <-]; destruct (Herr _ eq_refl) as [de ->]; split_and!; try done; left; eauto].
  set (db1 := set_wal db w) in *. change (iter (db_table db)) with (iter (db_table db1)).
  change (db_table db) with (db_table db1).
  assert (forall r db', flush_outcome db1 db' base bs tlog contents r -> flush_outcome db db' base bs tlog contents r) as Hback.
  { intros r0 db0 (H1 & H2 & H3). split_and!; try done. destruct r0; [| done].
    destruct H3 as [H3 | (tref & b' & [] & H4)]; [by left | right]. exists tref, b'. by split. }
  destruct (is_empty (db_table db1)) eqn:Ei.
  - intros Hw. apply Hback. destruct (flush_stream _ _ _ _ _ Hs1) as (Hp & _).
    assert (iter (db_table db1) = []) as E0.
    { unfold is_empty in Ei. apply iter_empty. bool_lia. }
    rewrite E0 in Hp. apply Permutation_nil in Hp as ->.
    destruct (wrap_step KEY_MAX VAL_MAX CAP ARENA LEVELS TABLES BLOOM_BYTES Hsh _ _ _ _ _ _ Hs1 Hw)
      as (W1 & W2 & W3 & W4 & W5 & W6 & W7).
    split_and!; auto. destruct r as [[] | e]; [left; by split_and! |].
    destruct (W6 e eq_refl) as (W8 & W9 & Hk). split_and!; auto. unfold flush_error. destruct Hk as [-> | ?]; auto.
  - destruct (l0_is_full _ _).
    { intros [= <- <-]. apply Hback. split_and!; auto. unfold flush_error, no_room. destruct (compaction_pending _ _ _); auto. }
    destruct (flush_plans db1 base bs tlog contents 0 0 0 Hs1) as (p & rp & _ & Hp & Hrp & _). rewrite Hp, Hrp.
    intros Hf. apply Hback. by eapply flush_planned_step.
Qed.
End keeps.

(** C5 The flush contract.  On a sound handle, whatever the device does, a flush that
    fails leaves memtable, manifest and slots as they were and the handle sound, so it
    can be retried, and fails only for the device, for room ([NeedsCompaction],
    [RegionFull], [ManifestFull]), for an exhausted counter or for an index that
    outgrows its block; a flush that succeeds leaves the handle sound with an empty
    memtable and, unless the memtable was empty, exactly one more table, of this node,
    with a fresh id, in a slot of its own, that holds the memtable's entries and whose
    bounds span them; all other tables are as before. *)
Theorem flush_contract {D E} `{Dev : !BlockDevice D E} {Laws : DeviceLaws D E}
  (KEY_MAX VAL_MAX CAP ARENA LEVELS TABLES BLOOM_BYTES : nat) (db : Db D) base bs tlog contents db' r
  (Hsh : table_shape (D := D) (E := E) KEY_MAX VAL_MAX CAP ARENA LEVELS TABLES BLOOM_BYTES)
  (Hs : sound (E := E) KEY_MAX VAL_MAX CAP ARENA LEVELS TABLES BLOOM_BYTES db base bs tlog contents)
  (Hf : flush KEY_MAX LEVELS TABLES BLOOM_BYTES db = (db', r)) :
  flush_outcome KEY_MAX VAL_MAX CAP ARENA LEVELS TABLES BLOOM_BYTES db db' base bs tlog contents r.
Proof. by eapply flush_step. Qed.
