(* ===== verification/DbLife.v ===== *)
(** * The database against its specification

    Writes, flushes and reads of one node, in any order, with a device that may fail
    at any point: the handle stays sound, and every read answers as the history of
    accepted mutations says, by the crate's own visibility rule ([Model]). *)

From stdpp Require Import base numbers list sorting.
From Stdlib Require Import ZArith Lia Sorting.Sorted.
From S2P Require Import Prelude Device Model Compress Version Slots Cache Batch Memtable Wal Manifest ManifestPool ManifestEdit ManifestCodec ManifestLog ManifestCrash SstPlan SstWriter SstReader SstBlock SstImage SstIndex SstRdel SstTable SstBuild Db DbWrite DbOpen DbRead DbFlush DbFlushSafe DbFlushKeeps.

(** ** What a read must return, from the history *)

Section spec.
  Context {E : Type}.

(** The point versions of [key] and the range tombstones over it, newest first. *)
Definition key_points (h : list Entry) (key : bytes) : list Entry :=
  List.filter (fun e => negb (range_del e) && bytes_eqb (Memtable.key e) key) h.
Definition key_rdels (h : list Entry) (key : bytes) : list Entry :=
  List.filter (fun e => range_del e && bytes_leb (Memtable.key e) key && bytes_ltb key (val e)) h.

Definition entry_ttl (e : Entry) : VersionTtl := mkVT (Memtable.seq e) (tombstone e) (expire_at e).
Definition entry_version (e : Entry) : MVersion := mkMV (Memtable.seq e) (tombstone e).

(** The value of the winner where the model says a value is visible. *)
Definition spec_read (h : list Entry) (key buf : bytes) (mx now : u64) : result (option nat * bytes) (Error E) :=
  if model_visible_value (map entry_ttl (key_points h key)) (map Memtable.seq (key_rdels h key)) mx now then
    match model_winner (map entry_version (key_points h key)) mx ≫= (fun i => key_points h key !! i) with
    | Some e => if (length buf <? length (val e))%nat then Err (BufferTooSmall (length (val e)))
                else Ok (Some (length (val e)), splice 0 (val e) buf)
    | None => Ok (None, buf)
    end
  else Ok (None, buf).

(** A history: sequence numbers strictly descend. *)
Definition history (h : list Entry) : Prop := StronglySorted (fun a b => (Memtable.seq b < Memtable.seq a)%Z) h.

Lemma find_map_seq mx (l : list Entry) :
  List.find (fun v => (vt_seq v <=? mx)%Z) (map entry_ttl l) = entry_ttl <$> List.find (fun e => (Memtable.seq e <=? mx)%Z) l.
Proof. induction l as [|e l IH]; [done |]. cbn. by destruct (_ <=? _)%Z. Qed.

Lemma first_at_find mx (l : list Entry) : forall i (pre : list Entry), i = length pre ->
  (first_at (map entry_version l) mx i ≫= (fun j => (pre ++ l) !! j)) = List.find (fun e => (Memtable.seq e <=? mx)%Z) l.
Proof.
  induction l as [|e l IH]; intros i pre ->; [done |]. cbn. destruct (_ <=? _)%Z; cbn [mbind option_bind].
  - by rewrite list_lookup_middle.
  - rewrite <- (IH (length pre + 1)%nat (pre ++ [e])) by (by rewrite length_app). by rewrite <- app_assoc.
Qed.

Lemma history_map {B} (R : relation B) (f : Entry -> B) l :
  (forall a b, (Memtable.seq b < Memtable.seq a)%Z -> R (f a) (f b)) -> history l -> StronglySorted R (map f l).
Proof.
  intros Hf. induction 1 as [|e l Hs IH Hl]; cbn; constructor; [done |]. apply Forall_map.
  eapply Forall_impl; [exact Hl |]. intros x. apply Hf.
Qed.

Lemma history_filter p h : history h -> history (List.filter p h).
Proof. apply StronglySorted_filter. Qed.

(** The race as one search. *)
Lemma spec_read_find h key buf mx now :
  history h ->
  spec_read h key buf mx now =
  match List.find (fun e => (Memtable.seq e <=? mx)%Z) (key_points h key) with
  | Some e =>
      if negb (existsb (fun r => (Memtable.seq r <=? mx)%Z && (Memtable.seq e <? Memtable.seq r)%Z) (key_rdels h key)) &&
         negb (tombstone e) && ((expire_at e =? 0)%Z || (now <? expire_at e)%Z)
      then if (length buf <? length (val e))%nat then Err (BufferTooSmall (length (val e)))
           else Ok (Some (length (val e)), splice 0 (val e) buf)
      else Ok (None, buf)
  | None => Ok (None, buf)
  end.
Proof.
  intros Hh. unfold spec_read. pose proof (history_filter _ _ Hh : history (key_points h key)) as Hp.
  rewrite visible_value_spec by (eapply history_map; [| exact Hp]; done).
  rewrite model_winner_first by (eapply history_map; [| exact Hp]; done).
  rewrite find_map_seq. pose proof (first_at_find mx (key_points h key) 0 [] eq_refl) as Hf. cbn [app] in Hf. rewrite Hf. clear Hf.
  destruct (List.find _ _) as [e |]; cbn [fmap option_fmap option_map]; [| done].
  replace (existsb (fun q => (q <=? mx)%Z && (vt_seq (entry_ttl e) <? q)%Z) (map Memtable.seq (key_rdels h key)))
    with (existsb (fun r => (Memtable.seq r <=? mx)%Z && (Memtable.seq e <? Memtable.seq r)%Z) (key_rdels h key)).
  - done.
  - induction (key_rdels h key) as [|r l IH]; [done |]. cbn. by rewrite IH.
Qed.

(** One node's versions rank by sequence number. *)
Lemma memtable_gt n a b : (0 < a)%Z -> (0 < b)%Z -> version_gt (memtable n a) (memtable n b) = (b <? a)%Z.
Proof.
  intros Ha Hb. apply Bool.eq_true_iff_eq. rewrite Z.ltb_lt.
  apply (version_gt_same (memtable n a) (memtable n b)); cbn; lia.
Qed.

Lemma history_eq h a b : history h -> a ∈ h -> b ∈ h -> Memtable.seq a = Memtable.seq b -> a = b.
Proof.
  intros Hh [i Hi]%list_elem_of_lookup [j Hj]%list_elem_of_lookup Hs.
  destruct (Nat.lt_trichotomy i j) as [Hij | [-> | Hij]]; [| congruence |].
  - pose proof (StronglySorted_lookup _ _ _ _ _ _ Hh Hij Hi Hj) as Hlt. cbn in Hlt. lia.
  - pose proof (StronglySorted_lookup _ _ _ _ _ _ Hh Hij Hj Hi) as Hlt. cbn in Hlt. lia.
Qed.

Lemma newest_found mx l :
  history l ->
  match List.find (fun e => (Memtable.seq e <=? mx)%Z) l with
  | Some e => e ∈ l /\ (Memtable.seq e <= mx)%Z /\
      forall e', e' ∈ l -> (Memtable.seq e' <= mx)%Z -> (Memtable.seq e' <= Memtable.seq e)%Z
  | None => forall e, e ∈ l -> (mx < Memtable.seq e)%Z
  end.
Proof.
  induction 1 as [|x l Hs IH Hf]; [by intros e ?%not_elem_of_nil |]. cbn. rewrite Forall_forall in Hf.
  destruct (Z.leb_spec (Memtable.seq x) mx).
  - split_and!; [apply list_elem_of_here | done |]. intros e' [-> | He']%elem_of_cons _; [lia |]. specialize (Hf e' He'). lia.
  - destruct (List.find _ l) as [e |].
    + destruct IH as (He & Hle & Hmax). split_and!; [by apply list_elem_of_further | done |].
      intros e' [-> | He']%elem_of_cons Hle'; [lia | by apply Hmax].
    + intros e [-> | He]%elem_of_cons; [done | by apply IH].
Qed.

Lemma elem_key_points h key mx e :
  e ∈ key_points h key /\ (Memtable.seq e <= mx)%Z <-> e ∈ h /\ Memtable.visible key mx e.
Proof.
  unfold key_points, Memtable.visible. rewrite !list_elem_of_In, filter_In, <- list_elem_of_In, andb_true_iff, negb_true_iff, bytes_eqb_spec.
  tauto.
Qed.

Lemma elem_key_rdels h key mx e :
  e ∈ key_rdels h key /\ (Memtable.seq e <= mx)%Z <-> e ∈ h /\ Memtable.covers key mx e.
Proof.
  unfold key_rdels, Memtable.covers. rewrite !list_elem_of_In, filter_In, <- list_elem_of_In, !andb_true_iff, bytes_leb_spec, bytes_ltb_spec.
  tauto.
Qed.

(** The covering race of a history. *)
Lemma covered_spec n h contents key mx e :
  Forall (fun e => (0 < Memtable.seq e)%Z) h -> e ∈ h ->
  existsb (fun r => (Memtable.seq r <=? mx)%Z && (Memtable.seq e <? Memtable.seq r)%Z) (key_rdels h key) = true <->
  exists c, cover n h contents [] key mx c /\ version_gt c (memtable n (Memtable.seq e)) = true.
Proof.
  intros Hp He. rewrite Forall_forall in Hp. rewrite existsb_exists. split.
  - intros (r & Hr%list_elem_of_In & [Hle%Z.leb_le Hlt]%andb_true_iff).
    destruct (proj1 (elem_key_rdels h key mx r) (conj Hr Hle)) as [Hin Hc].
    exists (memtable n (Memtable.seq r)). split; [by constructor |]. by rewrite memtable_gt by auto.
  - intros (c & [r Hr Hc | t r ?%not_elem_of_nil _ _ _] & Hv); [| done].
    rewrite memtable_gt in Hv by auto. destruct (proj2 (elem_key_rdels h key mx r) (conj Hr Hc)) as [Hk Hle].
    exists r. split; [by apply list_elem_of_In |]. by rewrite Hv, (proj2 (Z.leb_le _ _)).
Qed.

(** A history's reads are deterministic. *)
Lemma reads_spec n h contents key mx now buf (r : result (option nat * bytes) (Error E)) :
  history h -> Forall (fun e => (0 < Memtable.seq e)%Z) h ->
  reads (point n h contents [] key mx) (cover n h contents [] key mx) now buf r -> r = spec_read h key buf mx now.
Proof.
  intros Hh Hp Hr. rewrite spec_read_find by done. pose proof (newest_found mx _ (history_filter _ _ Hh : history (key_points h key))) as Hf.
  destruct (List.find _ _) as [e |].
  2: { destruct Hr as [[_ ->] | (hit & [e He Hv | t e ?%not_elem_of_nil _ _ _ _] & _)]; [done | | done].
       destruct (proj2 (elem_key_points h key mx e) (conj He Hv)) as [Hk ?]. specialize (Hf e Hk). lia. }
  destruct Hf as (Hk & Hle & Hmax). destruct (proj1 (elem_key_points h key mx e) (conj Hk Hle)) as [He Hv].
  pose proof (Hp : Forall _ _) as Hp'. rewrite Forall_forall in Hp'.
  destruct Hr as [[Hn _] | (hit & [e0 He0 Hv0 | t e0 ?%not_elem_of_nil _ _ _ _] & Htop & Hb)]; [by destruct (Hn _ (point_mem n h contents [] key mx e He Hv)) | | done].
  assert (e0 = e) as ->.
  { destruct (proj2 (elem_key_points h key mx e0) (conj He0 Hv0)) as [Hk0 Hle0].
    apply (history_eq h); auto. specialize (Hmax e0 Hk0 Hle0).
    specialize (Htop _ (point_mem n h contents [] key mx e He Hv)). cbn [h_ver] in Htop. rewrite memtable_gt in Htop by auto.
    apply Z.ltb_ge in Htop. lia. }
  cbn [h_ver h_body] in Hb. unfold entry_body in Hb. pose proof (covered_spec n h contents key mx e Hp He) as Hcov.
  destruct (tombstone e); [rewrite andb_false_r; exact Hb |]. cbn [negb]. rewrite andb_true_r.
  destruct (existsb _ _); cbn [negb andb].
  - destruct Hb as [[_ ->] | (Hc & _)]; [done |]. destruct (proj1 Hcov eq_refl) as (c & Hcc & Hgt). rewrite (Hc c Hcc) in Hgt. done.
  - destruct Hb as [[[Hc | Hx] ->] | (_ & Hx & ->)].
    + by apply Hcov in Hc.
    + rewrite (proj2 (Z.eqb_neq _ _)) by lia. rewrite (proj2 (Z.ltb_ge _ _)) by lia. done.
    + destruct (Z.eqb_spec (expire_at e) 0); [done |]. by rewrite (proj2 (Z.ltb_lt _ _)) by lia.
Qed.
End spec.

(** ** The same versions, stored elsewhere *)

(** [P] and [Q] hold the same things up to [R]. *)
Definition agree {A} (R : relation A) (P Q : A -> Prop) : Prop :=
  (forall a, P a -> exists b, Q b /\ R a b) /\ (forall b, Q b -> exists a, P a /\ R a b).

Lemma agree_trans {A} (R : relation A) `{!Transitive R} P Q S : agree R P Q -> agree R Q S -> agree R P S.
Proof.
  intros [H1 H2] [H3 H4]. split.
  - intros a Ha. destruct (H1 a Ha) as (b & Hb & ?). destruct (H3 b Hb) as (c & ? & ?). eauto.
  - intros c Hc. destruct (H4 c Hc) as (b & Hb & ?). destruct (H2 b Hb) as (a & ? & ?). eauto.
Qed.

Lemma agree_sym {A} (R : relation A) `{!Symmetric R} P Q : agree R P Q -> agree R Q P.
Proof.
  intros [H1 H2]. split.
  - intros b Hb. destruct (H2 b Hb) as (a & ? & ?). eauto.
  - intros a Ha. destruct (H1 a Ha) as (b & ? & ?). eauto.
Qed.

Lemma agree_or {A} (R : relation A) (P Q P' Q' S S' : A -> Prop) :
  (forall a, S a <-> P a \/ P' a) -> (forall a, S' a <-> Q a \/ Q' a) -> agree R P Q -> agree R P' Q' -> agree R S S'.
Proof.
  intros HS HS' [H1 H2] [H3 H4]. split.
  - intros a [Ha | Ha]%HS; [destruct (H1 a Ha) as (b & ? & ?) | destruct (H3 a Ha) as (b & ? & ?)]; exists b; rewrite HS'; auto.
  - intros b [Hb | Hb]%HS'; [destruct (H2 b Hb) as (a & ? & ?) | destruct (H4 b Hb) as (a & ? & ?)]; exists a; rewrite HS; auto.
Qed.

Lemma agree_iff {A} (R : relation A) (P P' Q : A -> Prop) : (forall a, P' a <-> P a) -> agree R P Q -> agree R P' Q.
Proof.
  intros HP [H1 H2]. split; [intros a Ha%HP; by apply H1 |]. intros b Hb. destruct (H2 b Hb) as (a & Ha & ?).
  exists a. by rewrite HP.
Qed.

#[export] Instance same_version_sym n : Symmetric (same_version n).
Proof. by intros a b (? & ? & ?). Qed.
#[export] Instance same_version_trans n : Transitive (same_version n).
Proof. intros a b c (? & ? & ?) (? & ? & ?). split_and!; congruence. Qed.
#[export] Instance same_hit_sym n : Symmetric (same_hit n).
Proof. intros a b [? ?]. split; [by symmetry | done]. Qed.
#[export] Instance same_hit_trans n : Transitive (same_hit n).
Proof. intros a b c [? ?] [? ?]. split; [by etrans | congruence]. Qed.

Section agreeing.
  Context (n : u32).

(** No table. *)
Definition no_tables (t : TableRef) : Contents := ([], []).

Lemma point_app mem' a mem contents ts key mx h :
  mem' ≡ₚ a ++ mem ->
  point n mem' contents ts key mx h <-> point n a no_tables [] key mx h \/ point n mem contents ts key mx h.
Proof.
  intros Hp. split.
  - intros [e He Hv | t e Ht Hc He Hk Hm]; [| right; by constructor].
    rewrite Hp in He. apply elem_of_app in He as [He | He]; [left | right]; by constructor.
  - intros [[e He Hv | t e ?%not_elem_of_nil _ _ _ _] | [e He Hv | t e Ht Hc He Hk Hm]]; [| done | |].
    + constructor; [| done]. rewrite Hp. apply elem_of_app. by left.
    + constructor; [| done]. rewrite Hp. apply elem_of_app. by right.
    + by constructor.
Qed.

Lemma cover_app mem' a mem contents ts key mx c :
  mem' ≡ₚ a ++ mem ->
  cover n mem' contents ts key mx c <-> cover n a no_tables [] key mx c \/ cover n mem contents ts key mx c.
Proof.
  intros Hp. split.
  - intros [e He Hv | t e Ht Hc He Hk]; [| right; by constructor].
    rewrite Hp in He. apply elem_of_app in He as [He | He]; [left | right]; by constructor.
  - intros [[e He Hv | t e ?%not_elem_of_nil _ _ _] | [e He Hv | t e Ht Hc He Hk]]; [| done | |].
    + constructor; [| done]. rewrite Hp. apply elem_of_app. by left.
    + constructor; [| done]. rewrite Hp. apply elem_of_app. by right.
    + by constructor.
Qed.

Lemma points_agree a key mx : agree (same_hit n) (point n a no_tables [] key mx) (point n a no_tables [] key mx).
Proof.
  assert (forall h, point n a no_tables [] key mx h -> same_hit n h h) as Hr
    by (intros h [e He Hv | t e ?%not_elem_of_nil _ _ _ _]; [by split | done]).
  split; intros h Hh; exists h; auto.
Qed.

Lemma covers_agree a key mx : agree (same_version n) (cover n a no_tables [] key mx) (cover n a no_tables [] key mx).
Proof.
  assert (forall c, cover n a no_tables [] key mx c -> same_version n c c) as Hr
    by (intros c [e He Hv | t e ?%not_elem_of_nil _ _ _]; [by split | done]).
  split; intros c Hc; exists c; auto.
Qed.

Lemma reads_agree {E} P P' C C' now buf (r : result (option nat * bytes) (Error E)) :
  agree (same_hit n) P P' -> agree (same_version n) C C' -> reads P C now buf r -> reads P' C' now buf r.
Proof. intros [H1 H2] [H3 H4]. by apply (reads_moved n). Qed.
End agreeing.

(** ** Steps of a running handle *)

Section life.
  Context {D E : Type} `{Laws : DeviceLaws D E}.
  Context (KEY_MAX VAL_MAX CAP ARENA LEVELS TABLES BLOOM_BYTES : nat).
  Implicit Types db : Db D.

  Abbreviation sound := (sound (D := D) (E := E) KEY_MAX VAL_MAX CAP ARENA LEVELS TABLES BLOOM_BYTES).
  Context (Hsh : table_shape (D := D) (E := E) KEY_MAX VAL_MAX CAP ARENA LEVELS TABLES BLOOM_BYTES).

(** Records of a whole block are entries a table can hold. *)
Lemma rec_entry_typed (b : list Decoded) r :
  Forall rec_ok b -> (length (recs_bytes b) <= BLOCK)%nat -> r ∈ b -> (0 < d_seq r)%Z -> entry_typed (rec_entry r).
Proof.
  intros Hok Hl Hr Hpos. rewrite Forall_forall in Hok. destruct (Hok r Hr) as [Hs Hk Hv Hkl Hvl Hex Htot].
  assert (23 + length (rec_payload r) <= BLOCK)%nat as Hfit.
  { apply list_elem_of_split in Hr as (a & c & ->).
    rewrite recs_bytes_app, recs_bytes_cons, !length_app, length_rec_bytes in Hl. lia. }
  unfold rec_payload in Hfit. rewrite !length_app in Hfit. unfold fits in Hs.
  unfold rec_entry, rec_mut, entry_typed, logged_in_block, U64_MAX. destruct (d_op r) eqn:Eo; cbn [logged Memtable.seq key val expire_at range_del op_eqb].
  - split_and!; auto; lia.
  - split_and!; auto; try lia. constructor.
  - split_and!; auto; lia || done.
  - change (op_eqb PutTtl PutTtl) with true in Hex. cbv iota in Hex. unfold fits in Hex. split_and!; auto; try lia. intros _ Hne.
    assert (length (extra_of r) = 8)%nat as Hx by (unfold extra_of; rewrite Eo; cbn; done). lia.
Qed.

(** A read of the handle: only the cache changes, and it stays true. *)
Lemma sound_read {A} db base bs tlog contents (m : cached E A) r :
  sound db base bs tlog contents -> yields (device (db_wal db)) (live_block (db_manifest db)) m r ->
  exists c, on_handle db m = Some (set_cache db c, r) /\ sound (set_cache db c) base bs tlog contents.
Proof.
  intros Hs Hy. destruct (Hy _ (sd_cache Hs)) as (c & Em & Hc & Hg).
  exists (from_option cell (db_cache db) c). unfold on_handle. rewrite Em. split; [done |].
  destruct Hs. split; auto.
  - destruct sd_inv. by split.
  - destruct c as [c |]; cbn [from_option]; [done | exact sd_cache].
  - intros t b blk Hh. destruct c as [c |]; [| by eapply sd_cache_ids].
    destruct (Hg t b blk Hh) as [Hold | (x & Hx & <- & _)]; [by eapply sd_cache_ids |].
    rewrite Forall_forall in sd_ids. by apply sd_ids.
Qed.

(** What a call adds to the history. *)
Definition accepted (c : db_call) (r : result u64 (Error E)) : list Entry :=
  match r with Ok s => rev (map rec_entry (call_recs s c)) | Err _ => [] end.

Lemma good_block_typed g n :
  good_block g -> (0 <= n)%Z -> Forall (fun r => (n < d_seq r)%Z) g -> Forall entry_typed (map rec_entry g).
Proof.
  intros (Hok & Hl & _) Hn Hs. apply Forall_map, Forall_forall. intros r Hr. rewrite Forall_forall in Hs.
  apply (rec_entry_typed g); auto. specialize (Hs r Hr). lia.
Qed.

Lemma filled_history t log : filled E CAP ARENA KEY_MAX VAL_MAX t log -> history log.
Proof. induction 1; [constructor | constructor |]. by constructor. Qed.

(** Logging and inserting leave the tables alone. *)
Lemma sound_logged db db' base bs tlog contents bs' tlog' :
  sound db base bs tlog contents -> frame db db' -> (forall lo, touches lo (db_wal db) (db_wal db')) ->
  db_inv (E := E) KEY_MAX VAL_MAX CAP ARENA db' base bs' (tlog' ++ tlog) -> Forall entry_typed tlog' ->
  sound db' base bs' (tlog' ++ tlog) contents.
Proof.
  intros Hs Hfr Htch Hi Hty. destruct (Htch (next_block (db_wal db))) as (T1 & T2 & T3). destruct (T3 ltac:(lia)) as [_ T4].
  destruct (sd_wal Hs) as (Ew & Ee & Hb).
  eapply (sound_ext KEY_MAX VAL_MAX CAP ARENA LEVELS TABLES BLOOM_BYTES db); eauto; try (by rewrite Hfr).
  - apply Forall_app. split; [done | apply Hs].
  - intros b Hbb. apply T4. rewrite Ee. pose proof (inv_next _ _ _ _ (di_wal _ _ _ _ (sd_inv Hs))) as Hnb.
    destruct (regions_tables KEY_MAX LEVELS TABLES _ (sd_regions Hs)) as [Ht _]. lia.
Qed.

Lemma sound_write db base bs tlog contents c db' r :
  sound db base bs tlog contents -> call_typed KEY_MAX VAL_MAX c ->
  run_db_call KEY_MAX VAL_MAX CAP ARENA db c = (db', r) ->
  frame db db' /\ (next_seq db <= next_seq db')%Z /\
  Forall (fun e => (next_seq db < Memtable.seq e <= next_seq db')%Z) (accepted c r) /\
  exists bs', sound db' base bs' (accepted c r ++ tlog) contents.
Proof.
  intros Hs Hc Hrun.
  destruct (call_outcome_holds (sh_consts (ts_db Hsh)) db base bs tlog c (sd_inv Hs) Hc) as [[Hfr Hout] Htch].
  rewrite Hrun in Hfr, Hout, Htch. cbn [fst] in Hfr, Htch. pose proof (di_range _ _ _ _ (sd_inv Hs)) as Hrng.
  set (g := call_recs (next_seq db + 1) c) in *.
  pose proof (call_recs_seqs (next_seq db + 1) c) as Hg. fold g in Hg. split; [done |]. destruct r as [s | e]; cbn [accepted].
  - destruct Hout as (Hsq & Hn & Hi). assert (call_recs s c = g) as ->.
    { destruct Hsq as [Hnil | ->]; [| done]. rewrite Hnil. by apply (call_recs_nil (next_seq db + 1)). }
    split; [lia |]. split.
    { apply Forall_rev, Forall_map. eapply Forall_impl; [exact Hg |]. intros r Hr. rewrite rec_entry_seq. cbn in Hr. lia. }
    eexists. eapply sound_logged; eauto. apply Forall_rev.
    destruct (decide (g = [])) as [Hnil | Hne]; [rewrite Hnil; constructor |].
    apply (good_block_typed g (next_seq db)); [| lia | eapply Forall_impl; [exact Hg |]; cbn; lia].
    pose proof (inv_blocks _ _ _ _ (di_wal _ _ _ _ Hi)) as Hgb. apply Forall_app in Hgb as [_ Hgb]. exact (proj1 (Forall_singleton _ _) Hgb).
  - split; [destruct Hout as (_ & [[? _] | (_ & _ & ? & _)]); lia |]. split; [constructor |].
    destruct Hout as (_ & [[_ Hi] | (_ & _ & _ & Hi)]); eexists; (eapply (sound_logged db db' base bs tlog contents _ []); eauto).
Qed.

(** ** Opening *)

(** Every record of the log came from a block. *)
Definition from_block (r : Decoded) : Prop :=
  exists b, Forall rec_ok b /\ (length (recs_bytes b) <= BLOCK)%nat /\ r ∈ b.

Lemma log_on_records (d : D) end_ fl id nt mx g n :
  log_on (E := E) d end_ fl id nt mx g n -> (0 <= n)%Z /\ Forall from_block g.
Proof.
  assert (forall b rs torn id, read_block d id = Ok b -> parsed b rs torn -> Forall from_block (whole_groups rs)) as Hblk.
  { intros b rs torn i Hb (Hok & _ & tail & Hbt & _). apply Forall_forall. intros r Hr. exists rs. split_and!; [done | |].
    - destruct (Device.read_len _ _ _ Hb) as [Hl _]. rewrite Hbt, length_app in Hl. lia.
    - destruct (whole_groups_prefix rs) as [k Hk]. rewrite Hk. apply elem_of_app. by left. }
  induction 1 as [| | | id nt mx b rs torn g n Hid Hb Hp Ho Hne Ht Hl [IH1 IH2]].
  - split; [lia | constructor].
  - split; [lia | constructor].
  - split; [lia | by eapply Hblk].
  - split; [lia |]. apply Forall_app. split; [by eapply Hblk | done].
Qed.

Lemma rebuild_geometry ts : forall sl newest sl' newest',
  rebuild_slots (E := E) sl newest ts = Ok (sl', newest') -> same_geometry sl' sl.
Proof.
  induction ts as [|t ts IH]; intros sl newest sl' newest'; cbn [rebuild_slots]; [by intros [= <- <-] |].
  destruct (Slots.slot_of _ _ _) as [s |]; [| done]. pose proof (mark_used_geometry sl s) as Hg.
  destruct (mark_used sl s) as [sl1 [|]]; [| done]. intros Hr%IH. by etrans.
Qed.

Lemma open_frame db db' rep :
  open (E := E) KEY_MAX VAL_MAX CAP ARENA LEVELS TABLES db = (db', Ok rep) ->
  cfg db' = cfg db /\ db_cache db' = db_cache db /\
  exists sl, layout (c_tbl_start (cfg db)) (c_tbl_end (cfg db)) (SLOTS LEVELS TABLES)
    (MIN_SLOT_BLOCKS (D := D) (E := E) KEY_MAX VAL_MAX CAP ARENA) = Some sl /\ same_geometry (db_slots db') sl.
Proof.
  unfold Db.open. cbv zeta. destruct (check_regions _ _ _ _); [| done]. cbn [cfg close_handle].
  destruct (layout _ _ _ _) as [sl |]; [| done]. destruct (ManifestLog.recover_from _ _ _ _ _) as [[m fresh] |]; [| done].
  destruct (rebuild_slots sl None _) as [[sl' newest] |] eqn:Er; [| done]. unfold open_wal.
  destruct (Wal.recover_from _ _ _ _ _ _ _ _) as [[w t] [st |]]; [| done]. intros [= <- _]. cbn.
  split_and!; [done | done |]. exists sl. split; [done |]. pose proof (rebuild_geometry _ _ _ _ _ Er) as Hg.
  destruct newest as [[i s] |]; [| done]. etrans; [apply set_hint_geometry | done].
Qed.

Lemma sits_used db sl ss ts :
  Slots.wf (db_slots db) -> same_geometry (db_slots db) sl -> sits sl ts ss -> NoDup ss ->
  Forall (fun t => (0 <= first_block t /\ 0 <= block_count t)%Z) ts ->
  (forall i, (0 <= i)%Z -> status_of (db_slots db) i = if decide (i ∈ ss) then Used else Free) ->
  Forall (fun t => exists s, db_slot_of db t = Some s /\ status_of (db_slots db) s = Used) ts /\
  NoDup (db_slot_of db <$> ts).
Proof.
  intros Hwf Hgeo Hsits Hnd Hpos Hst.
  assert (db_slot_of db <$> ts = Some <$> ss) as Em.
  { clear -Hsits Hgeo. induction Hsits as [|t s ts ss Hs _ IH]; [done |]. cbn. rewrite IH. f_equal.
    rewrite <- Hs. unfold db_slot_of. by rewrite Hgeo. }
  split.
  - apply Forall_forall. intros t Ht. rewrite Forall_forall in Hpos. destruct (Hpos t Ht) as [H1 H2].
    assert (db_slot_of db t ∈ Some <$> ss) as (s & Es & Hin)%list_elem_of_fmap by (rewrite <- Em; by apply list_elem_of_fmap_2).
    exists s. split; [done |]. destruct (proj1 (Slots.slot_of_spec _ _ _ s Hwf H1 H2) Es) as [[Hv _] _].
    rewrite Hst by done. by rewrite decide_True.
  - rewrite Em. by apply NoDup_fmap_2; [apply _ |].
Qed.

Lemma sound_open db d c m ss g n contents db' rep :
  cfg_typed c -> fits 32 (c_node_id c) -> handle_on (E := E) KEY_MAX VAL_MAX CAP ARENA db d c ->
  recoverable (E := E) KEY_MAX VAL_MAX CAP ARENA LEVELS TABLES d c m ss g n ->
  Cache.wf (db_cache db) -> (forall t b blk, ~ holds (db_cache db) t b blk) ->
  Forall (fun t => (t_id t < next_table_id m)%Z) (tables m) -> NoDup (t_id <$> tables m) ->
  (forall t, t ∈ tables m -> table_ok VAL_MAX BLOOM_BYTES d (live_block m) t (contents t)) ->
  open (E := E) KEY_MAX VAL_MAX CAP ARENA LEVELS TABLES db = (db', Ok rep) ->
  db_manifest db' = m /\ cfg db' = c /\
  sound db' (wal_head m + n) [] (rev (map rec_entry (unflushed (flushed_seq m) g))) contents.
Proof.
  intros Hty Hnode Hh Hrv Hcw Hce Hids Huq Htab Ho.
  destruct (open_spec db d c m ss g n (ts_db Hsh) Hty Hh Hrv) as (db1 & Ho1 & Hi & _ & Em & Hh1 & Hnb & _ & Hwf & Hst).
  rewrite Ho in Ho1. injection Ho1 as <- _. destruct (open_frame _ _ _ Ho) as (_ & Eca & sl & El & Hgeo).
  destruct Hh1 as [Ec Ed [Ews Ewe] _ _]. destruct Hh as [Ec0 _ _ _ _]. rewrite Ec0 in El.
  destruct Hrv as [Hreg (sl' & El' & Hsits & Hnd) (md & Td & fresh & Hdisk & Em') Hhead _ Hlog _].
  rewrite El in El'. injection El' as <-. destruct (log_on_records _ _ _ _ _ _ _ _ Hlog) as [Hn0 Hrecs].
  assert (exists T, man_ok LEVELS TABLES KEY_MAX m T) as [T HT].
  { pose proof (od_ok _ _ _ _ _ _ _ _ Hdisk) as Hmd. rewrite Em'. destruct fresh; [| eauto]. exists Td.
    destruct Hmd, (ct_wal _ Hty) as [[? ?] _]. split; auto; [by destruct mo_repr; split |].
    cbn [set_wal_head wal_head]. unfold fits, U64_MAX in *. lia. }
  split; [done |]. split; [done |].
  split; rewrite ?Ec, ?Em, ?Ed, ?Eca; auto.
  - apply Forall_rev, Forall_map, Forall_forall. intros r [Hr Hpos]%list_elem_of_In%filter_In. apply list_elem_of_In in Hr.
    rewrite Forall_forall in Hrecs. destruct (Hrecs r Hr) as (b & Hb & Hl & Hrb). apply (rec_entry_typed b); auto.
    pose proof (mo_flushed _ _ _ _ _ HT) as [? _]. bool_lia.
  - split_and!; auto. lia.
  - eauto.
  - eauto.
  - apply (sits_used db' sl ss); auto. eapply Forall_impl; [exact (tables_ref_ok _ _ HT) |].
    intros t [_ [? _] [? _] _ _ _ _ _ _ _ _]. lia.
  - split; [done |]. intros t b blk Hb. by destruct (Hce _ _ _ Hb).
  - intros t b blk Hb. by destruct (Hce _ _ _ Hb).
Qed.

(** ** Lives *)

(** A handle opened on a device without tables, and what was done with it since; the
    history, newest first, is what the log held at the open and every accepted mutation. *)
Inductive life : Db D -> list Entry -> Prop :=
  | life_open db d c m ss g n db' rep :
      cfg_typed c -> fits 32 (c_node_id c) -> handle_on (E := E) KEY_MAX VAL_MAX CAP ARENA db d c ->
      recoverable (E := E) KEY_MAX VAL_MAX CAP ARENA LEVELS TABLES d c m ss g n ->
      Cache.wf (db_cache db) -> (forall t b blk, ~ holds (db_cache db) t b blk) -> tables m = [] ->
      open (E := E) KEY_MAX VAL_MAX CAP ARENA LEVELS TABLES db = (db', Ok rep) ->
      life db' (rev (map rec_entry (unflushed (flushed_seq m) g)))
  | life_write db h c db' r :
      life db h -> call_typed KEY_MAX VAL_MAX c -> run_db_call KEY_MAX VAL_MAX CAP ARENA db c = (db', r) ->
      life db' (accepted c r ++ h)
  | life_flush db h db' r :
      life db h -> flush KEY_MAX LEVELS TABLES BLOOM_BYTES db = (db', r) -> life db' h
  | life_read db h decomp key buf mx now db' r :
      life db h -> length decomp = BLOCK ->
      get_at_with_time VAL_MAX LEVELS BLOOM_BYTES false db decomp key buf mx now = Some (db', r) -> life db' h
  | life_snapshot db h db' (r : result u64 (Error E)) : life db h -> snapshot db = (db', r) -> life db' h
  | life_release db h snap : life db h -> life (release_snapshot db snap) h.

(** The handle stores exactly the history's versions. *)
Definition tells db (contents : TableRef -> Contents) (h : list Entry) : Prop :=
  forall key mx,
    agree (same_hit (own_node db)) (db_point db contents key mx) (point (own_node db) h no_tables [] key mx) /\
    agree (same_version (own_node db)) (db_cover db contents key mx) (cover (own_node db) h no_tables [] key mx).

(** Every table's bounds hold its entries, whose keys fit the scans' buffers. *)
Definition spanned db (contents : TableRef -> Contents) : Prop :=
  forall t e, t ∈ tables (db_manifest db) -> e ∈ (contents t).1 -> covers t (se_key e) = true /\ (length (se_key e) <= KEY_MAX)%nat.

Record living db (h : list Entry) : Prop := {
  lv_sound : exists base bs tlog contents, sound db base bs tlog contents /\ tells db contents h /\ spanned db contents;
  lv_nodes : Forall (fun t => node_id t = own_node db) (tables (db_manifest db));
  lv_history : history h;
  lv_seqs : Forall (fun e => (0 < Memtable.seq e <= next_seq db)%Z) h;
}.

Lemma tells_write db db' a contents h base bs tlog base' bs' :
  sound db base bs tlog contents -> sound db' base' bs' (a ++ tlog) contents ->
  db_manifest db' = db_manifest db -> cfg db' = cfg db -> tells db contents h -> tells db' contents (a ++ h).
Proof.
  intros Hs Hs' Em Ec Ht key mx. destruct (Ht key mx) as [Hp Hc].
  destruct (flush_stream _ _ _ _ _ _ _ Hsh _ _ _ _ _ Hs) as (Hpm & _).
  destruct (flush_stream _ _ _ _ _ _ _ Hsh _ _ _ _ _ Hs') as (Hpm' & _). rewrite <- Hpm in Hpm'.
  unfold db_point, db_cover, own_node in *. rewrite Em, Ec. split.
  - eapply agree_or; [by intros x; apply point_app | by intros x; apply point_app | apply points_agree | done].
  - eapply agree_or; [by intros x; apply cover_app | by intros x; apply cover_app | apply covers_agree | done].
Qed.

Lemma tells_flush db db' contents tref h :
  flushed db db' tref -> cfg db' = cfg db -> Forall (fun t => node_id t = own_node db) (tables (db_manifest db)) ->
  tells db contents h -> tells db' (with_flushed contents tref (iter (db_table db))) h.
Proof.
  intros [F1 F2 F3 F4 F5 F6] Ec Hn Ht key mx. destruct (Ht key mx) as [Hp Hc].
  unfold db_point, db_cover, own_node in *. rewrite Ec, F6. split.
  - eapply agree_trans; [apply _ | | exact Hp]. apply agree_sym; [apply _ |]. split.
    + intros a Ha. by eapply point_moved.
    + intros b Hb. by eapply point_moved_back.
  - eapply agree_trans; [apply _ | | exact Hc]. apply agree_sym; [apply _ |]. split.
    + intros a Ha. by eapply cover_moved.
    + intros b Hb. by eapply cover_moved_back.
Qed.

Lemma tells_open db contents h base bs :
  sound db base bs h contents -> tables (db_manifest db) = [] -> tells db contents h.
Proof.
  intros Hs Et key mx. destruct (flush_stream _ _ _ _ _ _ _ Hsh _ _ _ _ _ Hs) as (Hpm & _).
  unfold db_point, db_cover. rewrite Et. rewrite <- (app_nil_r h) in Hpm. split.
  - eapply agree_iff; [| apply points_agree]. intros x. rewrite (point_app _ _ h [] contents [] key mx x Hpm).
    split; [intros [? | [e ?%not_elem_of_nil | t e ?%not_elem_of_nil _ _ _ _]]; done | by left].
  - eapply agree_iff; [| apply covers_agree]. intros x. rewrite (cover_app _ _ h [] contents [] key mx x Hpm).
    split; [intros [? | [e ?%not_elem_of_nil | t e ?%not_elem_of_nil _ _ _]]; done | by left].
Qed.

(** A handle that differs in its cache or snapshots only. *)
Lemma living_same db db' h :
  living db h -> (forall base bs tlog contents, sound db base bs tlog contents -> sound db' base bs tlog contents) ->
  db_table db' = db_table db -> db_manifest db' = db_manifest db -> cfg db' = cfg db -> next_seq db' = next_seq db ->
  living db' h.
Proof.
  intros [(base & bs & tlog & contents & Hs & Ht & Hsp) Hn Hh Hq] Hsd Et Em Ec En. split; unfold own_node; rewrite ?Em, ?Ec, ?En; auto.
  exists base, bs, tlog, contents. split; [by apply Hsd |]. unfold tells, spanned, db_point, db_cover, own_node in *. by rewrite Et, Em, Ec.
Qed.

Lemma sound_snapshots db l n base bs tlog contents :
  sound db base bs tlog contents -> sound (set_snapshots db l n) base bs tlog contents.
Proof. intros []. split; auto. destruct sd_inv. by split. Qed.

Lemma release_keeps db snap : exists l n, release_snapshot db snap = set_snapshots db l n.
Proof.
  unfold release_snapshot. generalize (n_snapshots db) at 1 as k. generalize 0%nat as i. intros i k. revert i db.
  induction k as [|k IH]; intros i db; cbn [release_loop]; [exists (snapshots db), (n_snapshots db); by destruct db |].
  destruct (_ =? _)%Z; [eauto | apply IH].
Qed.

(** A step of the running handle keeps it alive. *)
Lemma living_write db h c db' r :
  living db h -> call_typed KEY_MAX VAL_MAX c -> run_db_call KEY_MAX VAL_MAX CAP ARENA db c = (db', r) ->
  living db' (accepted c r ++ h).
Proof.
  intros [(base & bs & tlog & contents & Hs & Ht & Hsp) Hn Hh Hq] Hc Hr.
  destruct (sound_write _ _ _ _ _ _ _ _ Hs Hc Hr) as (Hfr & Hle & Hacc & bs' & Hs').
  assert (db_manifest db' = db_manifest db) as Em by (by rewrite Hfr). assert (cfg db' = cfg db) as Ec by (by rewrite Hfr).
  pose proof (di_range _ _ _ _ (sd_inv Hs)) as Hrng. split.
  - exists base, bs', (accepted c r ++ tlog), contents. split_and!; [done | | unfold spanned; by rewrite Em].
    by apply (tells_write db db' (accepted c r) contents h base bs tlog base bs').
  - unfold own_node. by rewrite Em, Ec.
  - pose proof (filled_history _ _ (di_table _ _ _ _ (sd_inv Hs'))) as Ha. apply StronglySorted_app in Ha as (_ & Ha & _).
    apply StronglySorted_app. split_and!; [| done | done]. intros a b Hina Hinb. rewrite Forall_forall in Hacc. rewrite Forall_forall in Hq.
    specialize (Hacc a Hina). specialize (Hq b Hinb). cbn. lia.
  - apply Forall_app. split; [eapply Forall_impl; [exact Hacc |] | eapply Forall_impl; [exact Hq |]]; cbn; lia.
Qed.

(** A flushed table spans what the memtable held. *)
Lemma spanned_flush db db' base bs tlog contents tref :
  sound db base bs tlog contents -> flushed db db' tref -> spanned db contents ->
  spanned db' (with_flushed contents tref (iter (db_table db))).
Proof.
  intros Hs Hf Hsp t e Ht He. rewrite (fl_tables _ _ _ Hf) in Ht. unfold with_flushed in He.
  destruct (decide (t = tref)) as [-> | Hne]; [| apply elem_of_cons in Ht as [? | Ht]; [done | by apply Hsp]]. cbn [fst] in He.
  destruct (flush_stream _ _ _ _ _ _ _ Hsh _ _ _ _ _ Hs) as (_ & _ & Hok & _). rewrite Forall_forall in Hok.
  pose proof (fl_span _ _ _ Hf) as Hspan. rewrite Forall_forall in Hspan.
  apply list_elem_of_fmap in He as (x & -> & Hx). apply list_elem_of_In, filter_In in Hx as [Hx _]. apply list_elem_of_In in Hx.
  destruct (Hspan x Hx) as (_ & H1 & H2 & _). specialize (Hok x Hx). split.
  - unfold covers. apply andb_true_iff. split; by apply bytes_leb_spec.
  - by apply Hok.
Qed.

Lemma living_flush db h db' r :
  living db h -> flush KEY_MAX LEVELS TABLES BLOOM_BYTES db = (db', r) -> living db' h.
Proof.
  intros [(base & bs & tlog & contents & Hs & Ht & Hsp) Hn Hh Hq] Hf.
  destruct (flush_step _ _ _ _ _ _ _ Hsh _ _ _ _ _ _ _ Hs Hf) as (Ec & En & Hout).
  assert (forall cs, tells db' cs h -> spanned db' cs -> (exists b bs' tl, sound db' b bs' tl cs) ->
    Forall (fun t => node_id t = own_node db) (tables (db_manifest db')) -> living db' h) as Hdone.
  { intros cs Hte Hspn (b & bs' & tl & Hsd) Hns. split; [exists b, bs', tl, cs; auto | unfold own_node; by rewrite Ec | done | by rewrite En]. }
  destruct r as [[] | e].
  - destruct Hout as [(E0 & Et & _ & Hperm & b & bs' & Hsd) | (tref & b & Hfl & Hsd)].
    + apply (Hdone contents); [| intros t e; rewrite Hperm; apply Hsp | eauto | by rewrite Hperm].
      intros key mx. destruct (Ht key mx) as [Hp Hc]. unfold db_point, db_cover, own_node in *. rewrite Et, Ec. split.
      * eapply agree_iff; [| exact Hp]. intros x. split; intros [e He Hv | t e Htt Hcc He Hk Hm]; constructor; auto; by rewrite ?Hperm in *.
      * eapply agree_iff; [| exact Hc]. intros x. split; intros [e He Hv | t e Htt Hcc He Hk]; constructor; auto; by rewrite ?Hperm in *.
    + eapply Hdone; [by eapply tells_flush | by eapply spanned_flush | eauto |]. rewrite (fl_tables _ _ _ Hfl). constructor; [apply Hfl | done].
  - destruct Hout as (Et & Em & _ & _ & Hsd). apply (Hdone contents); [| unfold spanned; by rewrite Em | eauto | by rewrite Em].
    unfold tells, db_point, db_cover, own_node in *. by rewrite Et, Em, Ec.
Qed.

(** Reads of a living handle. *)
Lemma living_get db h decomp key buf mx now :
  living db h -> length decomp = BLOCK ->
  exists c, get_at_with_time (E := E) VAL_MAX LEVELS BLOOM_BYTES false db decomp key buf mx now =
    Some (set_cache db c, spec_read h key buf mx now) /\
    (forall base bs tlog contents, sound db base bs tlog contents -> tells db contents h -> sound (set_cache db c) base bs tlog contents).
Proof.
  intros [(base & bs & tlog & contents & Hs & Ht & Hsp) Hn Hh Hq] Hd.
  pose proof (sound_readable _ _ _ _ _ _ _ Hsh _ _ _ _ _ Hs) as Hr.
  pose proof (sh_block (ts_db Hsh)) as Hb. assert (HB : (49 <= BLOCK)%nat) by lia.
  pose proof (sound_seqs _ _ _ _ _ _ _ Hsh _ _ _ _ _ Hs) as Hsq.
  pose proof (one_node_orderly VAL_MAX KEY_MAX LEVELS TABLES CAP ARENA BLOOM_BYTES db _ contents key mx Hr Hsq Hn) as Hord.
  destruct (read_point_step VAL_MAX KEY_MAX LEVELS TABLES CAP ARENA BLOOM_BYTES HB (ts_bloom Hsh) db _ contents
    decomp key buf mx now None Hr Hd Hord) as (r & Hy & Hreads).
  cbv zeta in Hreads. rewrite filter_included_none in Hreads. destruct (Ht key mx) as [Hp Hc].
  apply (reads_agree _ _ _ _ _ _ _ _ Hp Hc) in Hreads. apply reads_spec in Hreads as ->; [| done |].
  2: { eapply Forall_impl; [exact Hq |]. cbn. lia. }
  unfold get_at_with_time, ensure_open. rewrite (di_open _ _ _ _ (sd_inv Hs)).
  destruct (Hy _ (sd_cache Hs)) as (c & Em & _ & _).
  exists (from_option cell (db_cache db) c). unfold on_handle. rewrite Em. split; [done |].
  intros base' bs' tlog' contents' Hs' _. destruct (sound_read _ _ _ _ _ _ _ Hs' Hy) as (c' & Eh & Hsd).
  unfold on_handle in Eh. rewrite Em in Eh. injection Eh as Eh. rewrite Eh. exact Hsd.
Qed.

Lemma life_living db h : life db h -> living db h.
Proof.
  induction 1 as [db d c m ss g n db' rep Hty Hnd Hh Hrv Hcw Hce Htm Ho | db h c db' r _ IH Hc Hr | db h db' r _ IH Hf
    | db h decomp key buf mx now db' r _ IH Hd Hg | db h db' r _ IH Hsn | db h snap _ IH].
  - destruct (sound_open db d c m ss g n no_tables db' rep Hty Hnd Hh Hrv Hcw Hce) as (Em & Ec & Hs);
      [by rewrite Htm | rewrite Htm; constructor | by intros t; rewrite Htm; intros ?%not_elem_of_nil | done |].
    assert (tables (db_manifest db') = []) as Et by (by rewrite Em). split.
    + eexists _, _, _, no_tables. split_and!; [exact Hs | by eapply tells_open |].
      intros t e. rewrite Et. by intros ?%not_elem_of_nil.
    + by rewrite Et.
    + exact (filled_history _ _ (di_table _ _ _ _ (sd_inv Hs))).
    + pose proof (di_stored _ _ _ _ (sd_inv Hs)) as Hst. pose proof (sd_typed Hs) as Htp.
      rewrite Forall_forall in Hst. rewrite Forall_forall in Htp. apply Forall_forall. intros e He.
      destruct (Htp e He) as [? _]. specialize (Hst e He). cbn in Hst. lia.
  - by eapply living_write.
  - by eapply living_flush.
  - destruct (living_get db h decomp key buf mx now IH Hd) as (c & Eg & Hsd). rewrite Eg in Hg. injection Hg as <- <-.
    pose proof (lv_sound _ _ IH) as (base & bs & tlog & contents & Hs & Ht & Hsp).
    split; [exists base, bs, tlog, contents; split_and!; [by apply Hsd | exact Ht | exact Hsp] | apply IH..].
  - unfold snapshot in Hsn. repeat (case_match; [by injection Hsn as <- <- |]). injection Hsn as <- <-.
    eapply living_same; eauto. intros. by apply sound_snapshots.
  - destruct (release_keeps db snap) as (l & n & ->). eapply living_same; eauto. intros. by apply sound_snapshots.
Qed.
End life.

(** C1 The database refines its specification.  Open a device without tables, and run
    any sequence of puts, deletes, range deletes, TTL puts, batches, flushes, reads,
    snapshots and releases, where any device call may fail: a timed read of any key at
    any snapshot then returns exactly what the reference model of the crate says of the
    history of accepted mutations, wherever flushes moved them: the newest version at
    or below the snapshot, unless it is deleted, hidden by a newer range tombstone or
    expired, or the length a short buffer would need.  A flush never changes an answer. *)
Theorem database_refines_model {D E} `{Dev : !BlockDevice D E} {Laws : DeviceLaws D E}
  (KEY_MAX VAL_MAX CAP ARENA LEVELS TABLES BLOOM_BYTES : nat) (db : Db D) h decomp key buf mx now
  (Hsh : table_shape (D := D) (E := E) KEY_MAX VAL_MAX CAP ARENA LEVELS TABLES BLOOM_BYTES)
  (Hl : life KEY_MAX VAL_MAX CAP ARENA LEVELS TABLES BLOOM_BYTES db h) (Hd : length decomp = BLOCK) :
  exists c, get_at_with_time (E := E) VAL_MAX LEVELS BLOOM_BYTES false db decomp key buf mx now =
    Some (set_cache db c, spec_read h key buf mx now).
Proof.
  destruct (living_get KEY_MAX VAL_MAX CAP ARENA LEVELS TABLES BLOOM_BYTES Hsh db h decomp key buf mx now
    (life_living _ _ _ _ _ _ _ Hsh db h Hl) Hd) as (c & Eg & _). by exists c.
Qed.

(** ** A put, a flush and a read back *)

Module LifeWitness.
#[local] Instance dev : BlockDevice MemDisk.disk Empty_set := MemDisk.device 512.
#[local] Instance dev_laws : DeviceLaws MemDisk.disk Empty_set := MemDisk.laws 512.

Definition lf_cfg : Config := config_new 10 14 20 100 0 4.
Definition lf_new (d : MemDisk.disk) : Db MemDisk.disk := db_new (E := Empty_set) 4 8 64 2 2 2 d lf_cfg.
Definition lf_manifest : Manifest := set_wal_head (Manifest.new 2 2 4) 10.

(** Opened, one put, flushed. *)
Definition lf_db1 : Db MemDisk.disk := (open (E := Empty_set) 4 4 8 64 2 2 (lf_new ∅)).1.
Definition lf_put : db_call := DPut [97%Z] [1%Z].
Definition lf_db2 : Db MemDisk.disk := (run_db_call (E := Empty_set) 4 4 8 64 lf_db1 lf_put).1.
Definition lf_db3 : Db MemDisk.disk := (flush (E := Empty_set) 4 2 2 8 lf_db2).1.

Lemma lf_shape : table_shape (D := MemDisk.disk) (E := Empty_set) 4 4 8 64 2 2 8.
Proof.
  split; [| by_compute..]. split; [apply ex_consts | cbn; lia | cbn; unfold U32_MAX; lia | | by_compute].
  split; cbn; unfold U32_MAX; lia.
Qed.

Lemma lf_typed : cfg_typed lf_cfg.
Proof. split; cbn; unfold U64_MAX; lia. Qed.

Lemma lf_handle d : handle_on (E := Empty_set) 4 4 8 64 (lf_new d) d lf_cfg.
Proof.
  split; try done; [split; [apply length_replicate | apply zeros_ok] |].
  exists []. apply filled_new.
Qed.

Lemma lf_recoverable :
  recoverable (E := Empty_set) 4 4 8 64 2 2 (∅ : MemDisk.disk) lf_cfg lf_manifest [] [] 0.
Proof.
  assert (check_regions (D := MemDisk.disk) (E := Empty_set) 4 2 2 lf_cfg = Ok tt) as Hreg by (vm_compute; reflexivity).
  split; [exact Hreg | | | cbn; lia | cbn; lia | |].
  - eexists. split; [vm_compute; reflexivity |]. split; constructor.
  - exists (Manifest.new 2 2 4), [], true. split; [| done].
    apply blank_on_disk; [by apply (regions_log_shape (VAL_MAX := 4) (CAP := 8) (ARENA := 64)), Hreg; apply lf_shape |].
    intros k i _ _. apply OpenWitness.ex_blank.
  - apply log_on_unwritten. right. split; [cbn; lia | apply OpenWitness.ex_blank].
  - split; cbn; try constructor; lia.
Qed.

Lemma cache_new_empty block slots t b blk : ~ holds (Cache.new block slots) t b blk.
Proof. intros (e & [-> _]%elem_of_replicate & Ho & _). done. Qed.

Lemma lf_life1 : life (E := Empty_set) 4 4 8 64 2 2 8 lf_db1 [].
Proof.
  eapply (life_open 4 4 8 64 2 2 8 (lf_new ∅) ∅ lf_cfg lf_manifest [] [] 0);
    [apply lf_typed | by_compute | apply lf_handle | apply lf_recoverable | apply new_wf | apply cache_new_empty | done |].
  unfold lf_db1. apply Wal.WalWitness.pair_snd. vm_compute. reflexivity.
Qed.

Lemma lf_life2 : life (E := Empty_set) 4 4 8 64 2 2 8 lf_db2 [mkEntry [97%Z] [1%Z] 1 false false 0].
Proof.
  apply (life_write 4 4 8 64 2 2 8 lf_db1 [] lf_put lf_db2 (Ok 1%Z)); [apply lf_life1 | cbn; split; repeat constructor; unfold fits; lia |].
  unfold lf_db2. apply Wal.WalWitness.pair_snd. vm_compute. reflexivity.
Qed.

Lemma lf_life3 : life (E := Empty_set) 4 4 8 64 2 2 8 lf_db3 [mkEntry [97%Z] [1%Z] 1 false false 0].
Proof.
  eapply (life_flush 4 4 8 64 2 2 8 lf_db2 _ lf_db3 (Ok tt)); [apply lf_life2 |].
  unfold lf_db3. apply Wal.WalWitness.pair_snd. vm_compute. reflexivity.
Qed.

(** The value is read back from the table, and a short buffer is told its length. *)
Lemma database_refines_model_witness :
  exists c c', get_at_with_time (E := Empty_set) 4 2 8 false lf_db3 (replicate 512 0%Z) [97]%Z [0; 0]%Z 5 0 =
    Some (set_cache lf_db3 c, Ok (Some 1%nat, [1; 0]%Z)) /\
  get_at_with_time (E := Empty_set) 4 2 8 false lf_db3 (replicate 512 0%Z) [97]%Z [] 5 0 =
    Some (set_cache lf_db3 c', Err (BufferTooSmall 1)).
Proof.
  destruct (database_refines_model (E := Empty_set) 4 4 8 64 2 2 8 lf_db3 _ (replicate 512 0%Z) [97]%Z [0; 0]%Z 5 0
    lf_shape lf_life3 ltac:(apply length_replicate)) as [c Hc].
  destruct (database_refines_model (E := Empty_set) 4 4 8 64 2 2 8 lf_db3 _ (replicate 512 0%Z) [97]%Z [] 5 0
    lf_shape lf_life3 ltac:(apply length_replicate)) as [c' Hc'].
  exists c, c'. split; [exact Hc | exact Hc'].
Defined.

Lemma flush_contract_witness :
  exists base bs tlog contents, flush_outcome (E := Empty_set) 4 4 8 64 2 2 8 lf_db2 lf_db3 base bs tlog contents (Ok tt).
Proof.
  destruct (lv_sound _ _ _ _ _ _ _ _ _ (life_living 4 4 8 64 2 2 8 lf_shape _ _ lf_life2)) as (base & bs & tlog & contents & Hs & _).
  exists base, bs, tlog, contents. apply (flush_contract (E := Empty_set) 4 4 8 64 2 2 8 lf_db2 base bs tlog contents lf_db3 (Ok tt) lf_shape Hs).
  unfold lf_db3. apply Wal.WalWitness.pair_snd. vm_compute. reflexivity.
Defined.
End LifeWitness.
