(* ===== verification/Drainer.v ===== *)
(** * The drainer and the writers' puts: [src/drainer.rs], [src/writer.rs]

    The drainer owns the database; writers share the ring and the durable watermark
    with it.  [sweep] is the whole function of the source: drain, fence on a stall,
    batch, one write, acknowledge.  The ring is reached through an interface, so the
    theorems hold whatever the writers do between two accesses.  The last theorem
    joins the parts: what a writer is told is durable is in the database. *)

From stdpp Require Import base numbers list sorting.
From Stdlib Require Import ZArith Lia.
From S2P Require Import Ring Prelude Device Model Compress Version Slots Cache Batch Memtable Wal Manifest ManifestPool ManifestEdit ManifestCodec ManifestLog ManifestCrash SstPlan SstWriter SstReader SstBlock SstImage SstIndex SstRdel SstTable SstBuild Payload Db DbWrite DbOpen DbRead DbFlush DbFlushSafe DbFlushKeeps DbLife.

(** ** The ring as the drainer sees it *)

Class RingPort (R : Type) := {
  rp_poll : R -> R * DrainPoll;
  rp_fence : R -> R * FenceOutcome;
}.

(** The tickets the cursor has passed, in order, with the payload of those drained:
    the ring hands out consecutive tickets from [base] on, and writers leave the
    cursor alone. *)
Class RingPortLaws (R : Type) `{RingPort R} (base : Z) := {
  rp_ok : R -> Prop;
  rp_log : R -> list (option bytes);
  rp_poll_law r : rp_ok r ->
    rp_ok (rp_poll r).1 /\
    match (rp_poll r).2 with
    | Drained t p => t = tick (base + Z.of_nat (length (rp_log r))) /\ payload_ok p /\
        rp_log (rp_poll r).1 = rp_log r ++ [Some p]
    | Skipped t => t = tick (base + Z.of_nat (length (rp_log r))) /\ rp_log (rp_poll r).1 = rp_log r ++ [None]
    | AwaitingPublish => rp_log (rp_poll r).1 = rp_log r
    end;
  rp_fence_law r : rp_ok r ->
    rp_ok (rp_fence r).1 /\
    match (rp_fence r).2 with
    | FencedTicket t => t = tick (base + Z.of_nat (length (rp_log r))) /\ rp_log (rp_fence r).1 = rp_log r ++ [None]
    | NotFenced => rp_log (rp_fence r).1 = rp_log r
    end;
}.

(** ** The code *)

(** [durable.load()], given the value loaded. *)
Definition is_ticket_durable (durable ticket : u32) : bool :=
  let dist := Z.land (wrap 32 (durable - Z.land ticket TICKET_MASK)) TICKET_MASK in
  negb (dist =? 0)%Z && (dist <? Z.shiftl 1 30)%Z.

Definition drain_watermark (durable : u32) : u32 := Z.land durable TICKET_MASK.

Inductive SweepOutcome := Swept (tickets : nat) | Idle | Stalled.

(** The ring and the watermark are shared references in the source. *)
Record Drainer (R D : Type) := mkDrainer {
  dr_ring : R;
  dr_db : Db D;
  dr_durable : u32;
  pending_tickets : list u32;
  pending_payloads : list bytes;
  pending_has_data : list bool;
  pending_len : nat;
  stall_budget : u32;
  stall_polls : u32;
  poisoned : bool;
  durable_seq : u64;
}.
Arguments mkDrainer {R D}. Arguments dr_ring {R D}. Arguments dr_db {R D}. Arguments dr_durable {R D}.
Arguments pending_tickets {R D}. Arguments pending_payloads {R D}. Arguments pending_has_data {R D}.
Arguments pending_len {R D}. Arguments stall_budget {R D}. Arguments stall_polls {R D}.
Arguments poisoned {R D}. Arguments durable_seq {R D}.

Section drainer.
  Context {R D E : Type} `{!RingPort R} `{Dev : !BlockDevice D E}.
  Context (KEY_MAX VAL_MAX CAP ARENA LEVELS TABLES BLOOM_BYTES MAX_WRITES : nat).
  Implicit Types d : Drainer R D.

Definition drainer_new (ring : R) (db : Db D) (durable : u32) : Drainer R D :=
  mkDrainer ring db durable (replicate MAX_WRITES 0%Z) (replicate MAX_WRITES (replicate 32 0%Z))
    (replicate MAX_WRITES false) 0 1024 0 false (next_seq db).

Definition with_ring d (r : R) : Drainer R D :=
  mkDrainer r (dr_db d) (dr_durable d) (pending_tickets d) (pending_payloads d) (pending_has_data d)
    (pending_len d) (stall_budget d) (stall_polls d) (poisoned d) (durable_seq d).
Definition with_db d (db : Db D) : Drainer R D :=
  mkDrainer (dr_ring d) db (dr_durable d) (pending_tickets d) (pending_payloads d) (pending_has_data d)
    (pending_len d) (stall_budget d) (stall_polls d) (poisoned d) (durable_seq d).
Definition with_durable d (w : u32) : Drainer R D :=
  mkDrainer (dr_ring d) (dr_db d) w (pending_tickets d) (pending_payloads d) (pending_has_data d)
    (pending_len d) (stall_budget d) (stall_polls d) (poisoned d) (durable_seq d).
Definition with_pending_len d (n : nat) : Drainer R D :=
  mkDrainer (dr_ring d) (dr_db d) (dr_durable d) (pending_tickets d) (pending_payloads d) (pending_has_data d)
    n (stall_budget d) (stall_polls d) (poisoned d) (durable_seq d).
Definition with_stall d (budget polls : u32) : Drainer R D :=
  mkDrainer (dr_ring d) (dr_db d) (dr_durable d) (pending_tickets d) (pending_payloads d) (pending_has_data d)
    (pending_len d) budget polls (poisoned d) (durable_seq d).
Definition poison d : Drainer R D :=
  mkDrainer (dr_ring d) (dr_db d) (dr_durable d) (pending_tickets d) (pending_payloads d) (pending_has_data d)
    (pending_len d) (stall_budget d) (stall_polls d) true (durable_seq d).
Definition with_durable_seq d (s : u64) : Drainer R D :=
  mkDrainer (dr_ring d) (dr_db d) (dr_durable d) (pending_tickets d) (pending_payloads d) (pending_has_data d)
    (pending_len d) (stall_budget d) (stall_polls d) (poisoned d) s.

Definition set_stall_budget d (budget : u32) : Drainer R D := with_stall d budget (stall_polls d).

Definition durable_watermark d : u32 := drain_watermark (dr_durable d).

Definition drainer_snapshot d : Drainer R D * result u64 (Error E) :=
  let '(db, r) := Db.snapshot (dr_db d) in (with_db d db, r).

Definition drainer_flush d : Drainer R D * result unit (Error E) :=
  let '(db, r) := flush KEY_MAX LEVELS TABLES BLOOM_BYTES (dr_db d) in (with_db d db, r).

(** The failed exchange is ignored. *)
Definition advance_durable d (ticket : u32) : Drainer R D :=
  let t := Z.land ticket TICKET_MASK in
  let next := Z.land (wrap 32 (t + 1)) TICKET_MASK in
  if (dr_durable d =? t)%Z then with_durable d next else d.

(** [for i in 0..self.pending_len] *)
Definition ack_pending d : Drainer R D :=
  let d := fold_left (fun d i => advance_durable d (nth i (pending_tickets d) 0%Z)) (List.seq 0 (pending_len d)) d in
  with_pending_len d 0.

(** One buffered ticket; a skipped one leaves the payload cell as it was. *)
Definition buffer_ticket d (r : R) (t : u32) (p : option bytes) : Drainer R D :=
  let i := pending_len d in
  mkDrainer r (dr_db d) (dr_durable d) (<[i := t]> (pending_tickets d))
    (match p with Some p => <[i := p]> (pending_payloads d) | None => pending_payloads d end)
    (<[i := match p with Some _ => true | None => false end]> (pending_has_data d))
    (i + 1) (stall_budget d) 0 (poisoned d) (durable_seq d).

(** [while self.pending_len < MAX_WRITES], [n] turns to go. *)
Fixpoint drain_loop (n : nat) d : Drainer R D :=
  match n with
  | O => d
  | S n =>
      match rp_poll (dr_ring d) with
      | (r, Drained t p) => drain_loop n (buffer_ticket d r t (Some p))
      | (r, Skipped t) => drain_loop n (buffer_ticket d r t None)
      | (r, AwaitingPublish) => with_ring d r
      end
  end.

Definition drain_phase d : Drainer R D :=
  if (pending_len d =? 0)%nat then drain_loop (MAX_WRITES - pending_len d) d else d.

(** Nothing published.  [None]: [stall_polls += 1] overflows. *)
Definition idle_phase d : option (Drainer R D) :=
  match checked_add32 (stall_polls d) 1 with
  | None => None
  | Some polls =>
      let d := with_stall d (stall_budget d) polls in
      if (stall_budget d <? polls)%Z then
        let d := with_stall d (stall_budget d) 0 in
        match rp_fence (dr_ring d) with
        | (r, FencedTicket t) => Some (advance_durable (with_ring d r) t)
        | (r, NotFenced) => Some (with_ring d r)
        end
      else Some d
  end.

(** One decoded mutation into the batch: [true] when it queued an operation. *)
Definition queue_payload (b : WriteBatch) (m : Payload) : result (WriteBatch * bool) (Error Empty_set) :=
  let queued (r : result WriteBatch (Error Empty_set)) :=
    match r with Ok b => Ok (b, true) | Err e => Err e end in
  match m with
  | PPut key val => queued (batch_put KEY_MAX VAL_MAX MAX_WRITES b key val)
  | PDelete key => queued (batch_delete KEY_MAX VAL_MAX MAX_WRITES b key)
  | PRangeDelete s e =>
      if bytes_ltb s e then queued (batch_range_delete KEY_MAX VAL_MAX MAX_WRITES b s e) else Ok (b, false)
  | PPutTtl key val x => queued (batch_put_ttl KEY_MAX VAL_MAX MAX_WRITES b key val x)
  end.

(** [for i in 0..self.pending_len] over the pending indices; [None] is a slice out of
    range in [decode]. *)
Fixpoint queue_loop d (is_ : list nat) (b : WriteBatch) (n_ops : nat) : option (result (WriteBatch * nat) (Error E)) :=
  match is_ with
  | [] => Some (Ok (b, n_ops))
  | i :: is_ =>
      if negb (nth i (pending_has_data d) false) then queue_loop d is_ b n_ops
      else
        match decode (nth i (pending_payloads d) []) with
        | None => None
        | Some (Err _) => Some (Err BadPayload)
        | Some (Ok m) =>
            match queue_payload b m with
            | Ok (b, true) => queue_loop d is_ b (n_ops + 1)
            | Ok (b, false) => queue_loop d is_ b n_ops
            | Err e => Some (Err (widen e))
            end
        end
  end.

Definition write_phase d (b : WriteBatch) (n_ops : nat) : Drainer R D * result SweepOutcome (Error E) :=
  let '(db, r) := Db.write KEY_MAX VAL_MAX CAP ARENA (dr_db d) b in
  let d := with_db d db in
  match r with
  | Ok base =>
      let tickets := pending_len d in
      match u64_checked_add base (Z.of_nat n_ops - 1) with
      | None => (d, Err CounterExhausted)
      | Some last => (ack_pending (with_durable_seq d last), Ok (Swept tickets))
      end
  | Err TableFull | Err ArenaFull => (d, Ok Stalled)
  | Err e => (poison d, Err e)
  end.

(** [None] is a panic; the theorems show there is none. *)
Definition sweep d : option (Drainer R D * result SweepOutcome (Error E)) :=
  if poisoned d then Some (d, Ok Idle)
  else
    let d := drain_phase d in
    if (pending_len d =? 0)%nat then
      match idle_phase d with Some d => Some (d, Ok Idle) | None => None end
    else
      match queue_loop d (List.seq 0 (pending_len d)) (batch_new KEY_MAX VAL_MAX MAX_WRITES) 0 with
      | None => None
      | Some (Err e) => Some (poison d, Err e)
      | Some (Ok (b, n_ops)) =>
          if (n_ops =? 0)%nat then Some (ack_pending d, Ok (Swept (pending_len d)))
          else Some (write_phase d b n_ops)
      end.
End drainer.

(** ** [writer.rs] *)

Record PutFuture := mkPut { put_ticket : u32 }.

(** [Put::poll], given the watermark it loads: the ticket, or pending. *)
Definition put_poll (p : PutFuture) (durable : u32) : option u32 :=
  if is_ticket_durable durable (put_ticket p) then Some (put_ticket p) else None.

(** [put]: claim, publish, and claim again if the ticket was fenced.  [between] is what
    other threads do to the ring between the claim and the publish of each turn; the
    source loops without bound, so the turns are given. *)
Fixpoint writer_put (N : Z) (between : list (Ring -> Ring)) (r : Ring) (payload : bytes)
  : Ring * option (result PutFuture (Error Empty_set)) :=
  match between with
  | [] => (r, None)
  | f :: between =>
      match Ring.try_claim N r with
      | (r, None) => (r, Some (Err RingFull))
      | (r, Some ticket) =>
          match Ring.publish N (f r) ticket payload with
          | (r, Published) => (r, Some (Ok (mkPut ticket)))
          | (r, Fenced) => writer_put N between r payload
          end
      end
  end.

(** ** Specification: what the resolved tickets mean *)

(** The operation a mutation queues; an empty range queues nothing. *)
Definition payload_op (m : Payload) : option queued :=
  match m with
  | PPut k v => Some (mkQueued Put k v 0)
  | PDelete k => Some (mkQueued Delete k [] 0)
  | PRangeDelete s e => if bytes_ltb s e then Some (mkQueued RangeDelete s e 0) else None
  | PPutTtl k v x => Some (mkQueued (if (x =? 0)%Z then Put else PutTtl) k v x)
  end.

(** A resolved ticket: its slot if it was drained, nothing if it was fenced. *)
Definition slot_ops (o : option bytes) : list queued :=
  match o with
  | Some p => match decode p with Some (Ok m) => option_list (payload_op m) | _ => [] end
  | None => []
  end.

Definition mutations (log : list (option bytes)) : list queued := concat (map slot_ops log).

Definition queued_entry (sq : u64) (q : queued) : Entry :=
  match q_kind q with
  | Put => mkEntry (q_key q) (q_val q) sq false false 0
  | Delete => mkEntry (q_key q) [] sq true false 0
  | RangeDelete => mkEntry (q_key q) (q_val q) sq true true 0
  | PutTtl => mkEntry (q_key q) (q_val q) sq false false (q_expire q)
  end.

(** Consecutive sequence numbers from [sq] on. *)
Fixpoint stamp (sq : u64) (qs : list queued) : list Entry :=
  match qs with
  | [] => []
  | q :: qs => queued_entry sq q :: stamp (sq + 1) qs
  end.

(** The history after [acked], newest first, over the history [h0] at the start. *)
Definition told (s0 : u64) (h0 : list Entry) (acked : list (option bytes)) : list Entry :=
  rev (stamp (s0 + 1) (mutations acked)) ++ h0.

(** A slot the database can take. *)
Definition slot_fits (KEY_MAX VAL_MAX : nat) (o : option bytes) : Prop :=
  match o with
  | Some p => exists m, decode p = Some (Ok m) /\
      match payload_op m with
      | Some q => acceptable KEY_MAX VAL_MAX (q_kind q) (q_key q) (q_val q) /\
          (q_kind q = RangeDelete -> (length (q_val q) <= KEY_MAX)%nat)
      | None => True
      end
  | None => True
  end.

Lemma mutations_app a b : mutations (a ++ b) = mutations a ++ mutations b.
Proof. unfold mutations. by rewrite map_app, concat_app. Qed.

Lemma stamp_app sq a : forall b, stamp sq (a ++ b) = stamp sq a ++ stamp (sq + Z.of_nat (length a)) b.
Proof.
  revert sq. induction a as [|q a IH]; intros sq b; cbn [app stamp length]; [by rewrite Z.add_0_r |].
  rewrite IH. do 3 f_equal. lia.
Qed.

Lemma told_app s0 h0 a b :
  told s0 h0 (a ++ b) = rev (stamp (s0 + Z.of_nat (length (mutations a)) + 1) (mutations b)) ++ told s0 h0 a.
Proof.
  unfold told. rewrite mutations_app, stamp_app, rev_app_distr, <- app_assoc. by replace (s0 + 1 + Z.of_nat (length (mutations a)))%Z with (s0 + Z.of_nat (length (mutations a)) + 1)%Z by lia.
Qed.

Lemma op_recs_stamp os : forall sq,
  map rec_entry (op_recs sq os) =
  stamp sq (map (fun o => mkQueued (bo_kind o) (op_key o) (op_val o) (bo_expire_at o)) os).
Proof.
  induction os as [|o os IH]; intros sq; [done |]. cbn [op_recs map stamp]. rewrite IH. f_equal.
  unfold op_rec, queued_entry. cbn [q_kind q_key q_val q_expire].
  destruct (bo_kind o); try done. change (op_eqb PutTtl PutTtl) with true. cbv iota.
  destruct (Z.eqb_spec (bo_expire_at o) 0) as [-> |]; done.
Qed.

(** ** Tickets *)

Lemma land_mask_tick x : Z.land x TICKET_MASK = tick x.
Proof. by rewrite land_mask. Qed.

Lemma ticket_durable_spec W T : (- 2 ^ 30 < W - T < 2 ^ 30)%Z ->
  put_poll (mkPut (tick T)) (tick W) = if (T <? W)%Z then Some (tick T) else None.
Proof.
  intros Hw. unfold put_poll, is_ticket_durable. cbn [put_ticket]. rewrite land_tick, land_wrap.
  assert (tick (tick W - tick T) = tick (W - T)) as -> by (unfold tick; by rewrite <- Zminus_mod).
  change (Z.shiftl 1 30) with (2 ^ 30)%Z.
  assert (negb (tick (W - T) =? 0)%Z && (tick (W - T) <? 2 ^ 30)%Z = (T <? W)%Z) as ->; [| done].
  destruct (Z.ltb_spec T W) as [Hlt | Hge].
  - unfold tick. rewrite Z.mod_small by lia. rewrite (proj2 (Z.eqb_neq _ _)) by lia. by rewrite (proj2 (Z.ltb_lt _ _)) by lia.
  - destruct (Z.eq_dec W T) as [-> | Hne]; [by rewrite Z.sub_diag |]. unfold tick.
    replace (W - T)%Z with (W - T + 2 ^ 31 + (-1) * 2 ^ 31)%Z by lia. rewrite Z.mod_add, Z.mod_small by lia.
    rewrite (proj2 (Z.ltb_ge _ _)) by lia. apply andb_false_r.
Qed.

(** A writer's poll answers for its ticket: with the watermark at ticket [W], the
    put of ticket [T] is complete exactly when [T] is behind the watermark, for tickets
    within half the ring of it on either side, whatever multiples of 2^31 have passed. *)
Theorem ticket_durable_iff (W T : Z) (Hw : (- 2 ^ 30 < W - T < 2 ^ 30)%Z) :
  (put_poll (mkPut (tick T)) (tick W) = Some (tick T) <-> (T < W)%Z) /\
  (put_poll (mkPut (tick T)) (tick W) = None <-> (W <= T)%Z) /\ drain_watermark (tick W) = tick W.
Proof.
  rewrite ticket_durable_spec by done. unfold drain_watermark. rewrite land_mask_tick, tick_idem.
  destruct (Z.ltb_spec T W); split_and!; try done; split; done || lia.
Qed.

Lemma ticket_durable_iff_witness :
  put_poll (mkPut (tick (2 ^ 31 - 1))) (tick (2 ^ 31 + 3)) = Some (2 ^ 31 - 1)%Z /\
  put_poll (mkPut (tick (2 ^ 31 + 3))) (tick (2 ^ 31 + 3)) = None.
Proof.
  split.
  - apply (ticket_durable_iff (2 ^ 31 + 3) (2 ^ 31 - 1)); lia.
  - apply (ticket_durable_iff (2 ^ 31 + 3) (2 ^ 31 + 3)); lia.
Defined.

(** ** One sweep *)

Section serving.
  Context {R D E : Type} `{Port : !RingPort R} {tbase : Z} {PLaws : RingPortLaws R tbase} `{Laws : DeviceLaws D E}.
  Context (KEY_MAX VAL_MAX CAP ARENA LEVELS TABLES BLOOM_BYTES MAX_WRITES : nat).
  Context (s0 : u64) (h0 : list Entry).
  Implicit Types d : Drainer R D.

  Abbreviation life := (life (D := D) (E := E) KEY_MAX VAL_MAX CAP ARENA LEVELS TABLES BLOOM_BYTES).
  Abbreviation sweep := (sweep (E := E) KEY_MAX VAL_MAX CAP ARENA MAX_WRITES).
  Context (Hsh : table_shape (D := D) (E := E) KEY_MAX VAL_MAX CAP ARENA LEVELS TABLES BLOOM_BYTES).

(** The buffered tickets. *)
Definition pending_slot d (i : nat) : option bytes :=
  if nth i (pending_has_data d) false then Some (nth i (pending_payloads d) []) else None.
Definition pending_slots d : list (option bytes) := map (pending_slot d) (List.seq 0 (pending_len d)).

(** The database holds the mutations of the tickets [acked], the buffer the tickets
    drained since, and the watermark stands between them. *)
Record serving d (acked : list (option bytes)) : Prop := {
  sv_ring : rp_ok (dr_ring d);
  sv_log : rp_log (dr_ring d) = acked ++ pending_slots d;
  sv_payloads : Forall (from_option payload_ok True) (rp_log (dr_ring d));
  sv_arrays : length (pending_tickets d) = MAX_WRITES /\ length (pending_payloads d) = MAX_WRITES /\
    length (pending_has_data d) = MAX_WRITES;
  sv_room : (pending_len d <= MAX_WRITES)%nat;
  sv_tickets : forall i, (i < pending_len d)%nat ->
    nth i (pending_tickets d) 0%Z = tick (tbase + Z.of_nat (length acked + i));
  sv_durable : dr_durable d = tick (tbase + Z.of_nat (length acked));
  sv_life : life (dr_db d) (told s0 h0 acked);
  sv_seq : poisoned d = false ->
    next_seq (dr_db d) = (s0 + Z.of_nat (length (mutations acked)))%Z /\ durable_seq d = next_seq (dr_db d);
  sv_stall : (0 <= stall_polls d < U32_MAX)%Z /\ (0 <= stall_budget d < U32_MAX)%Z;
}.

Lemma slots_len d : length (pending_slots d) = pending_len d.
Proof. unfold pending_slots. by rewrite length_map, length_seq. Qed.

(** *** Acknowledging *)

Lemma advance_at d Y : dr_durable d = tick Y -> advance_durable d (tick Y) = with_durable d (tick (Y + 1)).
Proof.
  intros Hd. unfold advance_durable. rewrite land_tick, Hd, Z.eqb_refl, land_wrap. by rewrite tick_add.
Qed.

Lemma ack_steps d X : forall n k, dr_durable d = tick (X + Z.of_nat k) ->
  (forall i, (k <= i < k + n)%nat -> nth i (pending_tickets d) 0%Z = tick (X + Z.of_nat i)) ->
  fold_left (fun d i => advance_durable d (nth i (pending_tickets d) 0%Z)) (List.seq k n) d =
  with_durable d (tick (X + Z.of_nat (k + n))).
Proof.
  intros n. revert d. induction n as [|n IH]; intros d k Hd Ht; cbn [List.seq fold_left].
  - rewrite Nat.add_0_r, <- Hd. by destruct d.
  - rewrite Ht by lia. rewrite (advance_at d _ Hd). rewrite IH.
    + cbn. do 2 f_equal. lia.
    + cbn. f_equal. lia.
    + intros i Hi. cbn. apply Ht. lia.
Qed.

(** The whole buffer is acknowledged. *)
Lemma ack_pending_eq d acked :
  (forall i, (i < pending_len d)%nat -> nth i (pending_tickets d) 0%Z = tick (tbase + Z.of_nat (length acked + i))) ->
  dr_durable d = tick (tbase + Z.of_nat (length acked)) ->
  ack_pending d = with_pending_len (with_durable d (tick (tbase + Z.of_nat (length (acked ++ pending_slots d))))) 0.
Proof.
  intros Ht Hd. unfold ack_pending. f_equal. rewrite (ack_steps d (tbase + Z.of_nat (length acked))).
  - cbn [Nat.add]. do 2 f_equal. rewrite length_app, slots_len. lia.
  - rewrite Hd. f_equal. lia.
  - intros i Hi. rewrite Ht by lia. f_equal. lia.
Qed.

(** *** Draining *)

Lemma buffer_serving d acked r t p :
  serving d acked -> (pending_len d < MAX_WRITES)%nat -> rp_ok r -> rp_log r = rp_log (dr_ring d) ++ [p] ->
  from_option payload_ok True p -> t = tick (tbase + Z.of_nat (length (rp_log (dr_ring d)))) ->
  serving (buffer_ticket d r t p) acked.
Proof.
  intros [H1 H2 H3 (A1 & A2 & A3) H4 H5 H6 H7 H8 H9] Hroom Hr Hlog Hp ->.
  assert (pending_slots (buffer_ticket d r (tick (tbase + Z.of_nat (length (rp_log (dr_ring d))))) p) = pending_slots d ++ [p]) as Hs.
  { unfold pending_slots. cbn [pending_len buffer_ticket]. rewrite seq_app, map_app. cbn [map List.seq Nat.add]. f_equal.
    - apply map_ext_in. intros i [_ Hi]%in_seq. unfold pending_slot. cbn [buffer_ticket pending_has_data pending_payloads].
      rewrite !nth_lookup, list_lookup_insert_ne by lia. destruct p; [rewrite list_lookup_insert_ne by lia |]; done.
    - f_equal. unfold pending_slot. cbn [buffer_ticket pending_has_data pending_payloads].
      rewrite !nth_lookup, list_lookup_insert_eq by lia. cbn [default]. destruct p; [| done]. by rewrite list_lookup_insert_eq by lia. }
  split; cbn [buffer_ticket dr_ring dr_db dr_durable pending_tickets pending_payloads pending_has_data pending_len poisoned durable_seq stall_polls stall_budget]; auto.
  - rewrite Hlog, H2, <- app_assoc. f_equal. symmetry. exact Hs.
  - rewrite Hlog. apply Forall_app. split; [done | by constructor].
  - split_and!; [by rewrite length_insert | destruct p; by rewrite ?length_insert | by rewrite length_insert].
  - lia.
  - intros i Hi. rewrite nth_lookup. destruct (decide (i = pending_len d)) as [-> | Hne].
    + rewrite list_lookup_insert_eq by lia. cbn. rewrite H2, length_app, slots_len. done.
    + rewrite list_lookup_insert_ne by lia. rewrite <- nth_lookup. apply H5. lia.
  - split; [unfold U32_MAX; lia | apply H9].
Qed.

Lemma drain_loop_serving n : forall d acked,
  serving d acked -> (n + pending_len d <= MAX_WRITES)%nat ->
  serving (drain_loop n d) acked /\ dr_db (drain_loop n d) = dr_db d /\ poisoned (drain_loop n d) = poisoned d /\
  dr_durable (drain_loop n d) = dr_durable d /\ stall_budget (drain_loop n d) = stall_budget d.
Proof.
  induction n as [|n IH]; intros d acked Hs Hn; cbn [drain_loop]; [done |].
  pose proof (rp_poll_law _ (sv_ring _ _ Hs)) as [Hok Hlaw].
  destruct (rp_poll (dr_ring d)) as [r [t p | | t]]; cbn [fst snd] in *.
  - destruct Hlaw as (Ht & Hp & Hl). apply (IH (buffer_ticket d r t (Some p))); [| cbn; lia].
    apply buffer_serving; auto. lia.
  - split; [| done]. destruct Hs. split; cbn; auto; by rewrite ?Hlaw.
  - destruct Hlaw as (Ht & Hl). apply (IH (buffer_ticket d r t None)); [| cbn; lia].
    apply buffer_serving; auto; [lia | done].
Qed.

(** *** Batching *)

(** A decoded payload is made of bytes. *)
Lemma decoded_typed p m : payload_ok p -> decode p = Some (Ok m) ->
  match payload_op m with
  | Some q => bytes_ok (q_key q) /\ bytes_ok (q_val q) /\ fits 64 (q_expire q) /\
      (q_kind q = Delete -> q_val q = []) /\ (q_kind q = RangeDelete -> bytes_lt (q_key q) (q_val q))
  | None => True
  end.
Proof.
  intros [Hl Hb] Hd. destruct (decode_total p Hl Hb) as (r & Hr & Hm). rewrite Hd in Hr. injection Hr as <-.
  destruct (Hm m eq_refl) as [Hc [rest ->]]. apply bytes_ok_app in Hb as [Hb _].
  destruct m as [k v | k | s e | k v x]; cbn [payload_op wire carried] in *.
  - apply bytes_ok_app in Hb as [_ Hb]. apply bytes_ok_app in Hb as [? ?]. cbn. split_and!; auto; try done.
  - apply bytes_ok_app in Hb as [_ ?]. cbn. split_and!; auto; try done; constructor.
  - apply bytes_ok_app in Hb as [_ Hb]. apply bytes_ok_app in Hb as [? ?].
    destruct (bytes_ltb s e) eqn:Elt; [| done]. cbn. split_and!; auto; try done.
    intros _. by apply bytes_ltb_spec.
  - apply bytes_ok_app in Hb as [_ Hb]. apply bytes_ok_app in Hb as [_ Hb]. apply bytes_ok_app in Hb as [? ?].
    cbn. destruct (x =? 0)%Z; split_and!; auto; try done; apply Hc.
Qed.

(** What queueing one mutation does. *)
Definition queue_outcome (b : WriteBatch) (m : Payload) (r : result (WriteBatch * bool) (Error Empty_set)) : Prop :=
  let fit := match payload_op m with
    | Some q => acceptable KEY_MAX VAL_MAX (q_kind q) (q_key q) (q_val q) /\ (q_kind q = RangeDelete -> (length (q_val q) <= KEY_MAX)%nat)
    | None => True
    end in
  match r with
  | Ok (b', q) => wf_batch KEY_MAX VAL_MAX MAX_WRITES b' /\ view b' = view b ++ option_list (payload_op m) /\
      q = bool_decide (is_Some (payload_op m)) /\ fit
  | Err _ => ~ fit
  end.

Lemma queue_payload_step b m :
  wf_batch KEY_MAX VAL_MAX MAX_WRITES b -> (length (view b) < MAX_WRITES)%nat ->
  queue_outcome b m (queue_payload KEY_MAX VAL_MAX MAX_WRITES b m).
Proof.
  intros Hw Hroom. unfold queue_payload, queue_outcome.
  destruct m as [k v | k | s e | k v x]; cbn [payload_op option_list].
  - pose proof (push_spec b Put k v 0 Hw) as Hp. unfold batch_put. cbn [q_kind q_key q_val].
    destruct (Batch.push _ _ _ _ _ _ _ _); [| tauto]. destruct Hp as (? & ? & ? & _). split_and!; auto; done.
  - pose proof (push_spec b Delete k [] 0 Hw) as Hp. unfold batch_delete. cbn [q_kind q_key q_val].
    destruct (Batch.push _ _ _ _ _ _ _ _); [| tauto]. destruct Hp as (? & ? & ? & _). split_and!; auto; done.
  - destruct (bytes_ltb s e) eqn:Elt; cbn [option_list q_kind q_key q_val]; [| by rewrite app_nil_r].
    unfold batch_range_delete. rewrite (proj2 (bytes_leb_gt e s)) by (by apply bytes_ltb_spec).
    destruct (KEY_MAX <? length e)%nat eqn:Ee; bool_lia; [intros [_ Hend]; specialize (Hend eq_refl); lia |].
    pose proof (push_spec b RangeDelete s e 0 Hw) as Hp.
    destruct (Batch.push _ _ _ _ _ _ _ _); [| tauto]. destruct Hp as (? & ? & ? & _). split_and!; auto; done.
  - unfold batch_put_ttl. cbv zeta. pose proof (push_spec b (if (x =? 0)%Z then Put else PutTtl) k v x Hw) as Hp.
    cbn [q_kind q_key q_val]. destruct (x =? 0)%Z; (destruct (Batch.push _ _ _ _ _ _ _ _); [| tauto]);
      destruct Hp as (? & ? & ? & _); split_and!; auto; done.
Qed.

Lemma fit_queued_ok q :
  bytes_ok (q_key q) -> bytes_ok (q_val q) -> fits 64 (q_expire q) -> (q_kind q = Delete -> q_val q = []) ->
  (q_kind q = RangeDelete -> bytes_lt (q_key q) (q_val q)) ->
  acceptable KEY_MAX VAL_MAX (q_kind q) (q_key q) (q_val q) -> (q_kind q = RangeDelete -> (length (q_val q) <= KEY_MAX)%nat) ->
  queued_ok KEY_MAX VAL_MAX q.
Proof.
  intros Hk Hv Hx Hdel Hrd (Ha & _ & Hval) Hend. unfold queued_ok. split_and!; auto; try lia.
  destruct (q_kind q); try (destruct Hval as [? | [? _]]; done); auto.
Qed.

(** The whole buffer, or the first slot the database cannot take. *)
Lemma queue_loop_step d : forall is_ b n,
  Forall (fun i => from_option payload_ok True (pending_slot d i)) is_ ->
  wf_batch KEY_MAX VAL_MAX MAX_WRITES b -> (length (view b) + length is_ <= MAX_WRITES)%nat ->
  let ms := mutations (map (pending_slot d) is_) in
  match queue_loop (E := E) KEY_MAX VAL_MAX MAX_WRITES d is_ b n with
  | None => False
  | Some (Ok (b', n')) => wf_batch KEY_MAX VAL_MAX MAX_WRITES b' /\ view b' = view b ++ ms /\
      n' = (n + length ms)%nat /\ Forall (queued_ok KEY_MAX VAL_MAX) ms /\
      Forall (slot_fits KEY_MAX VAL_MAX) (map (pending_slot d) is_)
  | Some (Err e) => ~ Forall (slot_fits KEY_MAX VAL_MAX) (map (pending_slot d) is_)
  end.
Proof.
  induction is_ as [|i is_ IH]; intros b n Hp Hw Hroom; cbn [queue_loop map].
  { cbn. rewrite app_nil_r, Nat.add_0_r. split_and!; auto. }
  apply Forall_cons in Hp as [Hi Hp]. cbn [length] in Hroom.
  unfold mutations. cbn [map concat]. fold (mutations (map (pending_slot d) is_)).
  pose proof (eq_refl (pending_slot d i)) as Es. unfold pending_slot in Es at 1.
  destruct (nth i (pending_has_data d) false); cbn [negb]; rewrite <- Es in *.
  2: { cbn [slot_ops app]. specialize (IH b n Hp Hw ltac:(lia)). cbv zeta in IH. destruct (queue_loop _ _ _ _ _ _ _) as [[[b' n'] | e] |]; auto.
       - destruct IH as (? & ? & ? & ? & ?). split_and!; auto.
       - intros Hf. apply IH. by apply Forall_cons in Hf as [_ Hf]. }
  cbn [from_option] in Hi. set (p := nth i (pending_payloads d) []) in *. destruct Hi as [Hl Hb].
  destruct (decode_total p Hl Hb) as (r & Hr & _). rewrite Hr. destruct r as [m | de].
  2: { intros [(m & Hm & _) _]%Forall_cons. congruence. }
  pose proof (queue_payload_step b m Hw ltac:(lia)) as Hq. pose proof (decoded_typed p m (conj Hl Hb) Hr) as Hty.
  unfold queue_outcome in Hq. cbv zeta in Hq. destruct (queue_payload _ _ _ b m) as [[b' qd] | qe].
  2: { intros [(m' & Hm & Hfit) _]%Forall_cons. assert (m' = m) as -> by congruence. by apply Hq. }
  destruct Hq as (Hw' & Hv & -> & Hfit). cbn [slot_ops]. rewrite Hr.
  assert (slot_fits KEY_MAX VAL_MAX (Some p)) as Hsf by (exists m; done).
  destruct (payload_op m) as [q |].
  - change (option_list (Some q)) with [q] in *. rewrite bool_decide_eq_true_2 by eauto. assert (length (view b') + length is_ <= MAX_WRITES)%nat as Hr' by (rewrite Hv, length_app; cbn [length]; lia).
    specialize (IH b' (n + 1)%nat Hp Hw' Hr'). cbv zeta in IH. rewrite Hv in IH.
    destruct (queue_loop _ _ _ _ _ _ _) as [[[b2 n2] | e] |]; auto.
    + destruct IH as (? & ? & ? & ? & ?). split_and!; auto.
      * by rewrite <- app_assoc in *.
      * cbn [app length]. lia.
      * cbn [app]. constructor; [| done]. destruct Hty as (? & ? & ? & ? & ?), Hfit. by apply fit_queued_ok.
    + intros Hf. apply IH. by apply Forall_cons in Hf as [_ Hf].
  - change (option_list (None : option queued)) with (@nil queued) in *. rewrite bool_decide_eq_false_2 by (by intros []). rewrite app_nil_r in Hv.
    assert (length (view b') + length is_ <= MAX_WRITES)%nat as Hr' by (rewrite Hv; lia).
    specialize (IH b' n Hp Hw' Hr'). cbv zeta in IH. rewrite Hv in IH.
    destruct (queue_loop _ _ _ _ _ _ _) as [[[b2 n2] | e] |]; auto.
    + destruct IH as (? & ? & ? & ? & ?). split_and!; auto.
    + intros Hf. apply IH. by apply Forall_cons in Hf as [_ Hf].
Qed.

(** *** Writing *)

Lemma view_empty b : view b = [] -> ops b = [].
Proof. unfold view. destruct (ops b); done. Qed.

Lemma life_batch db h b db' r :
  life db h -> Forall (queued_ok KEY_MAX VAL_MAX) (view b) -> Db.write KEY_MAX VAL_MAX CAP ARENA db b = (db', r) ->
  match r with
  | Ok s => life db' (rev (stamp s (view b)) ++ h) /\ (view b = [] \/ s = (next_seq db + 1)%Z) /\
      next_seq db' = (next_seq db + Z.of_nat (length (view b)))%Z /\ (next_seq db' <= U64_MAX)%Z
  | Err e => life db' h /\ (next_seq db' = next_seq db \/ exists de, e = Device de)
  end.
Proof.
  intros Hl Hq Hw.
  pose proof (life_write KEY_MAX VAL_MAX CAP ARENA LEVELS TABLES BLOOM_BYTES db h (DWrite b) db' r Hl Hq Hw) as Hl'.
  destruct (lv_sound _ _ _ _ _ _ _ _ _ (life_living _ _ _ _ _ _ _ Hsh _ _ Hl)) as (base & bs & tlog & contents & Hs & _).
  destruct (call_outcome_holds (sh_consts (ts_db Hsh)) db base bs tlog (DWrite b) (sd_inv Hs) Hq) as [[_ Hout] _].
  cbn [run_db_call] in Hout. rewrite Hw in Hout. cbn [call_recs] in Hout.
  assert (length (op_recs (next_seq db + 1) (ops b)) = length (view b)) as Hlen
    by (unfold view; by rewrite op_recs_length, length_map).
  destruct r as [s | e].
  - destruct Hout as (Hsq & Hn & Hi). cbn [accepted call_recs] in Hl'. rewrite op_recs_stamp in Hl'.
    pose proof (di_range _ _ _ _ Hi) as Hr. split_and!; [exact Hl' | | lia | lia].
    destruct Hsq as [Hnil | ->]; [left | by right]. apply nil_length_inv. by rewrite <- Hlen, Hnil.
  - split; [exact Hl' |]. destruct Hout as (_ & [[Hn _] | (_ & He & _)]); auto.
Qed.

(** What a sweep does, by what it returns. *)
Definition sweep_outcome d d' (acked : list (option bytes)) (r : result SweepOutcome (Error E)) : Prop :=
  match r with
  | Ok (Swept n) =>
      (0 < n)%nat /\ pending_len d' = 0%nat /\ poisoned d' = false /\
      exists more, length more = n /\ Forall (slot_fits KEY_MAX VAL_MAX) more /\ serving d' (acked ++ more)
  | Ok Idle =>
      (poisoned d = true /\ d' = d \/ pending_len d' = 0%nat /\ poisoned d' = false /\ dr_db d' = dr_db d) /\
      exists more, (more = [] \/ more = [None]) /\ serving d' (acked ++ more)
  | Ok Stalled =>
      (0 < pending_len d')%nat /\ poisoned d' = false /\ serving d' acked /\
      exists b, view b = mutations (pending_slots d') /\
        (Db.write KEY_MAX VAL_MAX CAP ARENA (dr_db d) b = (dr_db d', Err TableFull) \/
         Db.write KEY_MAX VAL_MAX CAP ARENA (dr_db d) b = (dr_db d', Err ArenaFull))
  | Err e =>
      poisoned d' = true /\ serving d' acked /\
      (dr_db d' = dr_db d /\ ~ Forall (slot_fits KEY_MAX VAL_MAX) (pending_slots d') \/
       e <> TableFull /\ e <> ArenaFull /\
       exists b, view b = mutations (pending_slots d') /\ Db.write KEY_MAX VAL_MAX CAP ARENA (dr_db d) b = (dr_db d', Err e))
  end.

(** The buffer becomes part of what is acknowledged. *)
Lemma acked_serving d d' acked :
  serving d acked -> rp_log (dr_ring d') = rp_log (dr_ring d) -> rp_ok (dr_ring d') ->
  pending_tickets d' = pending_tickets d -> pending_payloads d' = pending_payloads d ->
  pending_has_data d' = pending_has_data d -> pending_len d' = 0%nat ->
  stall_polls d' = stall_polls d -> stall_budget d' = stall_budget d ->
  dr_durable d' = tick (tbase + Z.of_nat (length (acked ++ pending_slots d))) ->
  life (dr_db d') (told s0 h0 (acked ++ pending_slots d)) ->
  (poisoned d' = false -> next_seq (dr_db d') = (s0 + Z.of_nat (length (mutations (acked ++ pending_slots d))))%Z /\
     durable_seq d' = next_seq (dr_db d')) ->
  serving d' (acked ++ pending_slots d).
Proof.
  intros [] El Hok E1 E2 E3 E4 E5 E6 Hd Hl Hq.
  assert (pending_slots d' = []) as Hp by (unfold pending_slots; by rewrite E4).
  split; rewrite ?El, ?E1, ?E2, ?E3, ?E4, ?E5, ?E6; auto.
  - by rewrite Hp, app_nil_r.
  - lia.
  - intros i Hi. lia.
Qed.

Lemma serving_poison d acked : serving d acked -> serving (poison d) acked.
Proof. intros []. by split. Qed.

(** The handle changed, the history did not. *)
Lemma serving_db d acked db :
  serving d acked -> life db (told s0 h0 acked) -> (poisoned d = false -> next_seq db = next_seq (dr_db d)) ->
  serving (with_db d db) acked.
Proof. intros [] Hl Hn. split; auto. cbn. intros Hp. rewrite (Hn Hp). auto. Qed.

Lemma write_phase_step d acked b :
  serving d acked -> poisoned d = false -> (0 < pending_len d)%nat -> Forall (slot_fits KEY_MAX VAL_MAX) (pending_slots d) ->
  view b = mutations (pending_slots d) -> Forall (queued_ok KEY_MAX VAL_MAX) (view b) -> (0 < length (view b))%nat ->
  let out := write_phase (E := E) KEY_MAX VAL_MAX CAP ARENA d b (length (view b)) in
  sweep_outcome d out.1 acked out.2.
Proof.
  intros Hs Hp Hl Hfit Hv Hq Hn. unfold write_phase.
  destruct (Db.write KEY_MAX VAL_MAX CAP ARENA (dr_db d) b) as [db r] eqn:Ew.
  pose proof (life_batch _ _ _ _ _ (sv_life _ _ Hs) Hq Ew) as Hout. destruct (sv_seq _ _ Hs Hp) as [Hseq Hdur].
  destruct r as [s | e].
  - destruct Hout as (Hlf & Hsq & Hnx & Hmax). destruct Hsq as [Hnil | ->]; [rewrite Hnil in Hn; cbn in Hn; lia |].
    unfold u64_checked_add. rewrite (proj2 (Z.ltb_ge _ _)) by lia. cbv zeta. cbn [fst snd sweep_outcome].
    rewrite (ack_pending_eq _ acked); [| exact (sv_tickets _ _ Hs) | exact (sv_durable _ _ Hs)]. split_and!; [done.. |].
    exists (pending_slots d). split_and!; [exact (slots_len d) | done |]. apply (acked_serving d); auto; try done; cbn.
    + apply Hs.
    + rewrite told_app, <- Hv, <- Hseq. exact Hlf.
    + intros _. rewrite mutations_app, length_app, <- Hv. lia.
  - destruct Hout as [Hlf Hnx].
    assert ((forall de, e <> Device de) -> serving (with_db d db) acked) as Hkeep.
    { intros Hne. apply serving_db; auto. destruct Hnx as [? | [de ->]]; [done | by destruct (Hne de)]. }
    assert (e <> TableFull -> e <> ArenaFull -> sweep_outcome d (poison (with_db d db)) acked (Err e)) as Hpo.
    { intros H1 H2. split_and!; [done | | right; split_and!; eauto]. destruct Hs. by split. }
    destruct e; try (apply Hpo; done).
    + cbn. split_and!; eauto.
    + cbn. split_and!; eauto.
Qed.

(** *** The sweep *)

Lemma idle_step d acked :
  serving d acked -> pending_len d = 0%nat ->
  exists d' more, idle_phase d = Some d' /\ (more = [] \/ more = [None]) /\ serving d' (acked ++ more) /\
    pending_len d' = 0%nat /\ poisoned d' = poisoned d /\ dr_db d' = dr_db d.
Proof.
  intros Hs Hp. pose proof (sv_stall _ _ Hs) as [[Hsp1 Hsp2] Hsb]. unfold idle_phase, checked_add32.
  rewrite (proj2 (Z.leb_le _ _)) by lia. cbv zeta. cbn [with_stall stall_budget stall_polls].
  assert (pending_slots d = []) as Hsl by (unfold pending_slots; by rewrite Hp).
  assert (forall polls r, (0 <= polls < U32_MAX)%Z -> rp_ok r -> rp_log r = rp_log (dr_ring d) ->
    serving (with_ring (with_stall (with_stall d (stall_budget d) (stall_polls d + 1)) (stall_budget d) polls) r) acked) as Hkeep.
  { intros polls r Hpo Hok Hlg. destruct Hs. split; cbn; auto; by rewrite Hlg. }
  destruct (stall_budget d <? stall_polls d + 1)%Z eqn:Eb; bool_lia.
  2: { eexists _, []. rewrite app_nil_r. split_and!; auto; try done. destruct Hs. split; cbn; auto. lia. }
  pose proof (rp_fence_law _ (sv_ring _ _ Hs)) as [Hok Hlaw]. cbn [dr_ring with_stall].
  destruct (rp_fence (dr_ring d)) as [r [t |]]; cbn [fst snd] in *.
  2: { eexists _, []. rewrite app_nil_r. split_and!; auto; try done. apply Hkeep; auto. unfold U32_MAX. lia. }
  destruct Hlaw as (-> & Hlog). rewrite (sv_log _ _ Hs), Hsl, app_nil_r in Hlog |- *.
  rewrite advance_at by (cbn; apply Hs). eexists _, [None]. split_and!; auto; try done.
  destruct Hs as [S1 S2 S3 S4 S5 S6 S7 S8 S9 S10]. split; cbn; auto.
  - rewrite Hlog. unfold pending_slots. cbn. rewrite Hp. cbn. by rewrite app_nil_r.
  - rewrite Hlog. apply Forall_app. split; [| by repeat constructor]. by rewrite S2, Hsl, app_nil_r in S3.
  - intros i Hi. lia.
  - rewrite length_app. cbn. f_equal. lia.
  - by rewrite told_app.
  - intros Hpo. rewrite mutations_app, app_nil_r. auto.
  - unfold U32_MAX in *. lia.
Qed.

Lemma sweep_step d acked :
  serving d acked -> exists d' r, sweep d = Some (d', r) /\ sweep_outcome d d' acked r.
Proof.
  intros Hs. unfold Drainer.sweep. destruct (poisoned d) eqn:Ep.
  { eexists _, _. split; [done |]. split; [by left |]. exists []. rewrite app_nil_r. auto. }
  set (d1 := drain_phase MAX_WRITES d).
  assert (serving d1 acked /\ dr_db d1 = dr_db d /\ poisoned d1 = false) as (Hs1 & Hdb & Hp1).
  { unfold d1, drain_phase. destruct (pending_len d =? 0)%nat eqn:E0; [| auto]. bool_lia.
    destruct (drain_loop_serving (MAX_WRITES - pending_len d) d acked Hs ltac:(lia)) as (? & ? & ? & _).
    split_and!; auto. congruence. }
  destruct (pending_len d1 =? 0)%nat eqn:E1; bool_lia.
  { destruct (idle_step d1 acked Hs1 E1) as (d2 & more & -> & Hm & Hs2 & Hl2 & Hp2 & Hd2).
    eexists _, _. split; [done |]. split; [right; split_and!; auto; congruence |]. eauto. }
  assert (Forall (fun i => from_option payload_ok True (pending_slot d1 i)) (List.seq 0 (pending_len d1))) as Hpay.
  { pose proof (sv_payloads _ _ Hs1) as Hpl. rewrite (sv_log _ _ Hs1) in Hpl. apply Forall_app in Hpl as [_ Hpl].
    unfold pending_slots in Hpl. by rewrite Forall_map in Hpl. }
  pose proof (queue_loop_step d1 (List.seq 0 (pending_len d1)) (batch_new KEY_MAX VAL_MAX MAX_WRITES) 0 Hpay
    batch_new_wf) as Hq.
  change (view (batch_new KEY_MAX VAL_MAX MAX_WRITES)) with (@nil queued) in Hq. rewrite length_seq in Hq.
  specialize (Hq (sv_room _ _ Hs1)). cbv zeta in Hq. fold (pending_slots d1) in Hq. cbn [app Nat.add] in Hq.
  destruct (queue_loop _ _ _ _ _ _ _) as [[[b n] | e] |]; [| | done].
  2: { eexists _, _. split; [done |]. cbn. split_and!; [done | by apply serving_poison |]. left. split; [done |]. exact Hq. }
  destruct Hq as (_ & Hv & Hn & Hqs & Hfit). rewrite <- Hv in Hn, Hqs. destruct (n =? 0)%nat eqn:En; bool_lia.
  - eexists _, _. split; [done |]. cbn [sweep_outcome]. rewrite (ack_pending_eq _ acked) by apply Hs1. split_and!; [lia | done | exact Hp1 |].
    exists (pending_slots d1). split_and!; [exact (slots_len d1) | done |].
    assert (mutations (pending_slots d1) = []) as Hnil by (apply nil_length_inv; rewrite <- Hv; lia).
    apply (acked_serving d1); auto; try done; cbn.
    + apply Hs1.
    + rewrite told_app, Hnil. apply Hs1.
    + rewrite mutations_app, Hnil, app_nil_r. apply Hs1.
  - rewrite Hn. pose proof (write_phase_step d1 acked b Hs1 Hp1 ltac:(lia) Hfit Hv Hqs ltac:(lia)) as Hw.
    cbv zeta in Hw. destruct (write_phase _ _ _ _ d1 b _) as [d2 r2]. exists d2, r2. split; [done |].
    unfold sweep_outcome in *. rewrite Hdb in Hw. cbn [fst snd] in Hw. destruct r2 as [[n2 | |] | e2]; auto.
    destruct Hw as [[[? _] | ?] ?]; [congruence | auto].
Qed.

(** *** The host's loop *)

(** The drainer made for a ring and a database, and what the host and the writers did
    since: sweeps, flushes, snapshots, budgets, and ring accesses of other threads. *)
Inductive hosted : Drainer R D -> Prop :=
  | hosted_new r db : rp_ok r -> rp_log r = [] -> life db h0 -> s0 = next_seq db ->
      hosted (drainer_new MAX_WRITES r db (tick tbase))
  | hosted_sweep d d' r : hosted d -> sweep d = Some (d', r) -> hosted d'
  | hosted_flush d d' r : hosted d ->
      drainer_flush (E := E) KEY_MAX LEVELS TABLES BLOOM_BYTES d = (d', r) -> hosted d'
  | hosted_snapshot d d' r : hosted d -> drainer_snapshot (E := E) d = (d', r) -> hosted d'
  | hosted_budget d budget : hosted d -> (0 <= budget < U32_MAX)%Z -> hosted (set_stall_budget d budget)
  | hosted_ring d r : hosted d -> rp_ok r -> rp_log r = rp_log (dr_ring d) -> hosted (with_ring d r).

(** The tickets behind the watermark. *)
Definition acked_slots d : list (option bytes) :=
  take (length (rp_log (dr_ring d)) - pending_len d) (rp_log (dr_ring d)).

Lemma serving_acked d acked : serving d acked -> acked_slots d = acked.
Proof.
  intros Hs. unfold acked_slots. rewrite (sv_log _ _ Hs), length_app, slots_len, Nat.add_sub. apply take_app_length.
Qed.

Lemma drainer_new_serving r db :
  rp_ok r -> rp_log r = [] -> life db h0 -> s0 = next_seq db -> serving (drainer_new MAX_WRITES r db (tick tbase)) [].
Proof.
  intros Hok Hlog Hl Hs. split; cbn; auto.
  - by rewrite Hlog.
  - by rewrite !length_replicate.
  - lia.
  - intros i Hi. lia.
  - by rewrite Z.add_0_r.
  - intros _. lia.
  - unfold U32_MAX. lia.
Qed.

Lemma flush_next_seq db h db' r :
  life db h -> flush KEY_MAX LEVELS TABLES BLOOM_BYTES db = (db', r) -> next_seq db' = next_seq db.
Proof.
  intros Hl Hf.
  destruct (lv_sound _ _ _ _ _ _ _ _ _ (life_living _ _ _ _ _ _ _ Hsh _ _ Hl)) as (base & bs & tlog & contents & Hs & _).
  by destruct (flush_step _ _ _ _ _ _ _ Hsh _ _ _ _ _ _ _ Hs Hf) as (_ & En & _).
Qed.

Lemma hosted_serving d : hosted d -> serving d (acked_slots d).
Proof.
  assert (forall d acked, serving d acked -> serving d (acked_slots d)) as Hre.
  { intros d0 acked Hs. by rewrite (serving_acked _ _ Hs). }
  induction 1 as [r db Hok Hlog Hl Hs | d d' r _ IH Hsw | d d' r _ IH Hf | d d' r _ IH Hsn | d budget _ IH Hb | d r _ IH Hok Hlog].
  - eapply Hre. by apply drainer_new_serving.
  - destruct (sweep_step d _ IH) as (d2 & r2 & Hsw2 & Hout). rewrite Hsw in Hsw2. injection Hsw2 as <- <-.
    unfold sweep_outcome in Hout. destruct r as [[n | |] | e].
    + destruct Hout as (_ & _ & _ & more & _ & _ & Hs). by eapply Hre.
    + destruct Hout as (_ & more & _ & Hs). by eapply Hre.
    + eapply Hre. apply Hout.
    + eapply Hre. apply Hout.
  - unfold drainer_flush in Hf. destruct (flush _ _ _ _ (dr_db d)) as [db r1] eqn:Ef. injection Hf as <- <-. eapply Hre.
    apply serving_db; [exact IH | by eapply life_flush; [apply IH |] |]. intros _. by eapply flush_next_seq; [apply IH |].
  - unfold drainer_snapshot in Hsn. destruct (Db.snapshot (dr_db d)) as [db r1] eqn:Es. injection Hsn as <- <-. eapply Hre.
    apply serving_db; [exact IH | by eapply life_snapshot; [apply IH |] |].
    intros _. unfold Db.snapshot in Es. repeat (case_match; [by injection Es as <- _ |]). by injection Es as <- _.
  - apply (Hre _ (acked_slots d)). destruct IH. split; cbn; auto. tauto.
  - apply (Hre _ (acked_slots d)). destruct IH. split; cbn; auto; by rewrite Hlog.
Qed.
End serving.

(** ** The ring itself as the port *)

(** What other threads do to the ring between two accesses of the drainer. *)
Inductive env_op := EClaim | EPublish (t : u32) (p : bytes) | EForceRelease (t : u32).

Definition run_env (N : Z) (r : Ring) (o : env_op) : Ring :=
  match o with
  | EClaim => (Ring.try_claim N r).1
  | EPublish t p => (Ring.publish N r t p).1
  | EForceRelease t => (Ring.force_release_slot N r t).1
  end.

(** The ring, what the other threads will do before each access, and the tickets the
    cursor has passed. *)
Record SharedRing (N : Z) := mkShared { sh_ring : Ring; sh_script : list (list env_op); sh_log : list (option bytes) }.

Arguments mkShared {N}. Arguments sh_ring {N}. Arguments sh_script {N}. Arguments sh_log {N}.

Definition env_turn {N : Z} (s : SharedRing N) : Ring * list (list env_op) :=
  match sh_script s with
  | [] => (sh_ring s, [])
  | os :: rest => (fold_left (run_env N) os (sh_ring s), rest)
  end.

#[export] Instance ring_port (N : Z) : RingPort (SharedRing N) := {
  rp_poll s :=
    let '(r, script) := env_turn s in
    let '(r, o) := Ring.poll_drain N r in
    (mkShared r script (sh_log s ++ match o with Drained _ p => [Some p] | Skipped _ => [None] | AwaitingPublish => [] end), o);
  rp_fence s :=
    let '(r, script) := env_turn s in
    let '(r, o) := Ring.fence_cursor N r in
    (mkShared r script (sh_log s ++ match o with FencedTicket _ => [None] | NotFenced => [] end), o);
}.

Section ring_port.
  Variable N : Z.
  Hypothesis HN : (0 < N)%Z.

Definition shared_ok (base : Z) (s : SharedRing N) : Prop :=
  ring_ok N (sh_ring s) /\ cursor (sh_ring s) = tick (base + Z.of_nat (length (sh_log s))).

(** Writers and the host keep the ring's shape and leave the cursor alone. *)
Lemma run_env_keeps r o : ring_ok N r -> ring_ok N (run_env N r o) /\ cursor (run_env N r o) = cursor r.
Proof.
  intros Hr. assert (forall t g, ring_ok N (set_gate N r t g)) as Hgate.
  { intros t g. apply ring_ok_set; [done |]. by apply length_cells_at. }
  destruct o as [| t p | t]; cbn [run_env].
  - unfold Ring.try_claim. destruct (negb _); [done |]. by split.
  - unfold Ring.publish. set (r1 := set_slot N r _ _).
    assert (ring_ok N r1) as H1.
    { apply ring_ok_set; [done |]. cbn [write_payload cells]. rewrite write_cells_words, length_words; [done |].
      by apply length_cells_at. }
    assert (forall t g, ring_ok N (set_gate N r1 t g)) as Hg1.
    { intros t' g. apply ring_ok_set; [done |]. by apply length_cells_at. }
    destruct (_ =? _)%Z; [split; [apply Hg1 | done] |]. destruct (_ =? _)%Z; split; done || apply Hg1.
  - unfold Ring.force_release_slot. destruct (_ || _); [split; [apply Hgate | done] |]. by destruct (_ =? _)%Z.
Qed.

Lemma env_turn_keeps base s : shared_ok base s ->
  ring_ok N (env_turn s).1 /\ cursor (env_turn s).1 = tick (base + Z.of_nat (length (sh_log s))).
Proof.
  intros [Hr Hc]. unfold env_turn. destruct (sh_script s) as [|os rest]; [done |]. cbn [fst].
  rewrite <- Hc. clear Hc. generalize dependent (sh_ring s). induction os as [|o os IH]; intros r Hr; [done |].
  cbn [fold_left]. destruct (run_env_keeps r o Hr) as [H1 H2]. rewrite <- H2. by apply IH.
Qed.

Lemma read_payload_ok s : length (cells s) = 8%nat -> payload_ok (read_payload s).
Proof.
  intros Hl. unfold read_payload, payload_ok. split.
  - replace 32%nat with (4 * length (cells s))%nat by lia. clear Hl. induction (cells s) as [|c l IH]; [done |].
    cbn [map concat length]. rewrite length_app, IH, length_to_le. lia.
  - clear Hl. induction (cells s) as [|c l IH]; [constructor |]. cbn [map concat]. apply bytes_ok_app. split; [apply to_le_ok | done].
Qed.

#[export] Instance ring_port_laws (base : Z) : RingPortLaws (SharedRing N) base.
Proof.
  refine {| rp_ok := shared_ok base; rp_log := sh_log |}; intros s Hs; destruct (env_turn_keeps base s Hs) as [Hr Hc];
    cbn [rp_poll rp_fence ring_port]; destruct (env_turn s) as [r script]; cbn [fst] in Hr, Hc.
  - unfold Ring.poll_drain. assert (forall g, ring_ok N (set_gate N r (cursor r) g)) as Hgate.
    { intros g. apply ring_ok_set; [done |]. by apply length_cells_at. }
    destruct (_ =? _)%Z; [| destruct (gate_is_past _ _ _)]; cbn.
    + split_and!; auto; [split; [apply Hgate |] | by apply read_payload_ok, length_cells_at ].
      cbn. rewrite Hc, next_ticket_tick, length_app. cbn. f_equal. lia.
    + split_and!; auto. split; [exact Hr |]. cbn. rewrite Hc, next_ticket_tick, length_app. cbn. f_equal. lia.
    + rewrite app_nil_r. split; [| done]. by split.
  - unfold Ring.fence_cursor. destruct (_ =? _)%Z; [cbn; rewrite app_nil_r; split; [by split | done] |].
    destruct (_ =? _)%Z; cbn.
    + split_and!; auto. split; cbn; [apply ring_ok_set; [done | by apply length_cells_at] |].
      rewrite Hc, next_ticket_tick, length_app. cbn. f_equal. lia.
    + rewrite app_nil_r. split; [by split | done].
Defined.
End ring_port.

(** ** The theorems *)

(** C4 What the watermark promises.  A drainer is made on a ring whose next ticket is
    [tbase] and an open database with history [h0]; then the host sweeps, flushes, takes
    snapshots and sets budgets, and writers claim and publish between any two ring
    accesses, with a device that may fail at any call.  At every point the watermark is
    the first ticket not yet resolved; every read of the database answers as the
    reference model says of [h0] followed by exactly the mutations of the tickets behind
    the watermark, in ticket order and with consecutive sequence numbers; a writer's
    poll says complete exactly when its ticket is behind it; and until the drainer is
    poisoned the durable sequence number is the tip a snapshot would pin. *)
Theorem watermark_refines_history {R D E} `{Port : !RingPort R} {tbase : Z} {PLaws : RingPortLaws R tbase}
  `{Dev : !BlockDevice D E} {Laws : DeviceLaws D E}
  (KEY_MAX VAL_MAX CAP ARENA LEVELS TABLES BLOOM_BYTES MAX_WRITES : nat) s0 h0 (d : Drainer R D)
  (Hsh : table_shape (D := D) (E := E) KEY_MAX VAL_MAX CAP ARENA LEVELS TABLES BLOOM_BYTES)
  (Hd : hosted (E := E) (tbase := tbase) KEY_MAX VAL_MAX CAP ARENA LEVELS TABLES BLOOM_BYTES MAX_WRITES s0 h0 d) :
  let acked := acked_slots (tbase := tbase) d in
  let mark := (tbase + Z.of_nat (length acked))%Z in
  durable_watermark d = tick mark /\
  (forall decomp key buf mx now, length decomp = BLOCK ->
    exists c, get_at_with_time (E := E) VAL_MAX LEVELS BLOOM_BYTES false (dr_db d) decomp key buf mx now =
      Some (set_cache (dr_db d) c, spec_read (told s0 h0 acked) key buf mx now)) /\
  (forall T, (- 2 ^ 30 < mark - T < 2 ^ 30)%Z ->
    put_poll (mkPut (tick T)) (dr_durable d) = if (T <? mark)%Z then Some (tick T) else None) /\
  (poisoned d = false ->
    durable_seq d = next_seq (dr_db d) /\ durable_seq d = (s0 + Z.of_nat (length (mutations acked)))%Z).
Proof.
  cbv zeta. pose proof (hosted_serving _ _ _ _ _ _ _ _ _ _ Hsh d Hd) as Hs. split_and!.
  - unfold durable_watermark, drain_watermark. by rewrite (sv_durable _ _ _ _ _ _ _ _ _ _ _ _ Hs), land_mask_tick, tick_idem.
  - intros decomp key buf mx now Hl.
    destruct (living_get KEY_MAX VAL_MAX CAP ARENA LEVELS TABLES BLOOM_BYTES Hsh (dr_db d) _ decomp key buf mx now
      (life_living _ _ _ _ _ _ _ Hsh _ _ (sv_life _ _ _ _ _ _ _ _ _ _ _ _ Hs)) Hl) as (c & Hc & _). by exists c.
  - intros T HT. rewrite (sv_durable _ _ _ _ _ _ _ _ _ _ _ _ Hs). by apply ticket_durable_spec.
  - intros Hp. destruct (sv_seq _ _ _ _ _ _ _ _ _ _ _ _ Hs Hp) as [? ?]. split; congruence.
Qed.

(** C14 One sweep, branch by branch.  It always returns, without a panic.  [Swept n]: the
    [n] oldest unacknowledged tickets, all well-formed and within the database's limits,
    were applied and the watermark moved past exactly those.  [Idle]: nothing was pending
    and at most one dead ticket was fenced and resolved, or the drainer is poisoned and
    nothing changed.  [Stalled]: the one write of the pending mutations was refused for
    lack of memtable room; the tickets stay buffered and the watermark stays.  An error
    poisons: either a pending slot was malformed or oversized and nothing was written, or
    the write itself failed; the watermark stays in both cases. *)
Theorem sweep_contract {R D E} `{Port : !RingPort R} {tbase : Z} {PLaws : RingPortLaws R tbase}
  `{Dev : !BlockDevice D E} {Laws : DeviceLaws D E}
  (KEY_MAX VAL_MAX CAP ARENA LEVELS TABLES BLOOM_BYTES MAX_WRITES : nat) s0 h0 (d : Drainer R D)
  (Hsh : table_shape (D := D) (E := E) KEY_MAX VAL_MAX CAP ARENA LEVELS TABLES BLOOM_BYTES)
  (Hd : hosted (E := E) (tbase := tbase) KEY_MAX VAL_MAX CAP ARENA LEVELS TABLES BLOOM_BYTES MAX_WRITES s0 h0 d) :
  exists d' r, sweep (E := E) KEY_MAX VAL_MAX CAP ARENA MAX_WRITES d = Some (d', r) /\
    sweep_outcome (tbase := tbase) KEY_MAX VAL_MAX CAP ARENA LEVELS TABLES BLOOM_BYTES MAX_WRITES s0 h0 d d'
      (acked_slots (tbase := tbase) d) r.
Proof. apply (sweep_step _ _ _ _ _ _ _ _ _ _ Hsh), (hosted_serving _ _ _ _ _ _ _ _ _ _ Hsh d Hd). Qed.

(** [n] sweeps in a row, each idle. *)
Fixpoint idle_sweeps {R D E} `{!RingPort R} `{!BlockDevice D E} (KEY_MAX VAL_MAX CAP ARENA MAX_WRITES n : nat)
    (d : Drainer R D) : option (Drainer R D) :=
  match n with
  | O => Some d
  | S n =>
      match sweep (E := E) KEY_MAX VAL_MAX CAP ARENA MAX_WRITES d with
      | Some (d, Ok Idle) => idle_sweeps (E := E) KEY_MAX VAL_MAX CAP ARENA MAX_WRITES n d
      | _ => None
      end
  end.

Section stalled.
  Context {D E : Type} `{Dev : !BlockDevice D E} (N : Z) (KEY_MAX VAL_MAX CAP ARENA MAX_WRITES : nat).
  Implicit Types d : Drainer (SharedRing N) D.

(** The ticket at the cursor is claimed and not published. *)
Definition claimed_at_cursor (r : Ring) : Prop :=
  exists C, cursor r = tick C /\ Ring.head r <> tick C /\ gate (slot_at N r (tick C)) = tick C.

Lemma claimed_polls (s : SharedRing N) : claimed_at_cursor (sh_ring s) -> sh_script s = [] -> rp_poll s = (s, AwaitingPublish).
Proof.
  intros (C & Hc & _ & Hg) Hs. cbn [rp_poll ring_port]. unfold env_turn. rewrite Hs. unfold Ring.poll_drain. rewrite Hc, Hg.
  unfold published_gate. rewrite next_ticket_tick.
  destruct (Z.eqb_spec (tick C) (tick (C + 1))) as [Heq | _]; [apply tick_inj in Heq; lia |].
  unfold gate_is_past. rewrite tick_small_land, land_tick, !Z.eqb_refl. cbn. rewrite app_nil_r. destruct s; cbn in *. by subst.
Qed.

Lemma claimed_fences (s : SharedRing N) : claimed_at_cursor (sh_ring s) -> sh_script s = [] ->
  exists s' C, cursor (sh_ring s) = tick C /\ rp_fence s = (s', FencedTicket (tick C)) /\
    cursor (sh_ring s') = tick (C + 1) /\ sh_log s' = sh_log s ++ [None].
Proof.
  intros (C & Hc & Hh & Hg) Hs. cbn [rp_fence ring_port]. unfold env_turn. rewrite Hs. unfold Ring.fence_cursor.
  rewrite Hc, (proj2 (Z.eqb_neq _ _)) by done. rewrite Hg, Z.eqb_refl. eexists _, C. split_and!; try done.
  cbn. by rewrite next_ticket_tick.
Qed.

Lemma drain_claimed d : claimed_at_cursor (sh_ring (dr_ring d)) -> sh_script (dr_ring d) = [] -> pending_len d = 0%nat ->
  drain_phase MAX_WRITES d = d.
Proof.
  intros Hc Hsc Hl. unfold drain_phase. rewrite Hl. cbn [Nat.eqb]. destruct (MAX_WRITES - 0)%nat; [done |]. cbn [drain_loop].
  rewrite claimed_polls by done. by destruct d.
Qed.

(** An idle sweep under the budget only counts. *)
Lemma idle_counts d k :
  claimed_at_cursor (sh_ring (dr_ring d)) -> sh_script (dr_ring d) = [] -> poisoned d = false -> pending_len d = 0%nat ->
  (0 <= stall_polls d)%Z -> (stall_polls d + Z.of_nat k <= stall_budget d < U32_MAX)%Z ->
  idle_sweeps (E := E) KEY_MAX VAL_MAX CAP ARENA MAX_WRITES k d = Some (with_stall d (stall_budget d) (stall_polls d + Z.of_nat k)).
Proof.
  intros Hc Hsc Hp Hl. revert d Hc Hsc Hp Hl. induction k as [|k IH]; intros d Hc Hsc Hp Hl H0 Hb.
  - cbn. rewrite Z.add_0_r. by destruct d.
  - cbn [idle_sweeps]. unfold sweep. rewrite Hp.
    rewrite drain_claimed by done.
    rewrite Hl. cbn [Nat.eqb]. unfold idle_phase, checked_add32. rewrite (proj2 (Z.leb_le _ _)) by lia. cbv zeta.
    cbn [with_stall stall_budget]. rewrite (proj2 (Z.ltb_ge _ _)) by lia.
    rewrite IH; auto; cbn; try lia. do 2 f_equal. lia.
Qed.

Lemma idle_sweeps_add n m d :
  idle_sweeps (E := E) KEY_MAX VAL_MAX CAP ARENA MAX_WRITES (n + m) d =
  idle_sweeps (E := E) KEY_MAX VAL_MAX CAP ARENA MAX_WRITES n d ≫= idle_sweeps (E := E) KEY_MAX VAL_MAX CAP ARENA MAX_WRITES m.
Proof.
  revert d. induction n as [|n IH]; intros d; [done |]. cbn [Nat.add idle_sweeps].
  destruct (sweep _ _ _ _ _ d) as [[d1 [[k | |] | e]] |]; done || apply IH.
Qed.

(** The sweep past the budget fences. *)
Lemma idle_fences d :
  claimed_at_cursor (sh_ring (dr_ring d)) -> sh_script (dr_ring d) = [] -> poisoned d = false -> pending_len d = 0%nat ->
  dr_durable d = cursor (sh_ring (dr_ring d)) -> stall_polls d = stall_budget d -> (0 <= stall_budget d < U32_MAX)%Z ->
  exists d', idle_sweeps (E := E) KEY_MAX VAL_MAX CAP ARENA MAX_WRITES 1 d = Some d' /\
    dr_durable d' = next_ticket (dr_durable d) /\ cursor (sh_ring (dr_ring d')) = dr_durable d' /\
    sh_log (dr_ring d') = sh_log (dr_ring d) ++ [None] /\ dr_db d' = dr_db d /\ stall_polls d' = 0%Z.
Proof.
  intros Hc Hsc Hp Hl Hw Hs Hb. cbn [idle_sweeps]. unfold sweep. rewrite Hp, drain_claimed by done. rewrite Hl. cbn [Nat.eqb].
  unfold idle_phase, checked_add32. rewrite (proj2 (Z.leb_le _ _)) by lia. cbv zeta.
  cbn [with_stall stall_budget dr_ring]. rewrite (proj2 (Z.ltb_lt _ _)) by lia.
  destruct (claimed_fences _ Hc Hsc) as (s' & C & HC & -> & E1 & E2). eexists. split; [done |]. rewrite Hw, HC in *.
  rewrite advance_at by done. cbn. rewrite next_ticket_tick, E1, E2. done.
Qed.
End stalled.

(** C22 A stalled writer cannot hold the watermark.  If the ticket at the watermark is
    claimed and never published, and nothing else happens, the first [stall_budget]
    sweeps after the last progress do nothing and the next one fences the ticket: it is
    resolved without a record, and the watermark passes it. *)
Theorem stalled_ticket_fenced {D E} `{Dev : !BlockDevice D E} (N : Z) (KEY_MAX VAL_MAX CAP ARENA MAX_WRITES : nat)
  (d : Drainer (SharedRing N) D)
  (Hc : claimed_at_cursor N (sh_ring (dr_ring d))) (Hq : sh_script (dr_ring d) = [])
  (Hw : dr_durable d = cursor (sh_ring (dr_ring d))) (Hp : poisoned d = false) (Hl : pending_len d = 0%nat)
  (Hs : stall_polls d = 0%Z) (Hb : (0 <= stall_budget d < U32_MAX)%Z) :
  idle_sweeps (E := E) KEY_MAX VAL_MAX CAP ARENA MAX_WRITES (Z.to_nat (stall_budget d)) d =
    Some (with_stall d (stall_budget d) (stall_budget d)) /\
  exists d', idle_sweeps (E := E) KEY_MAX VAL_MAX CAP ARENA MAX_WRITES (S (Z.to_nat (stall_budget d))) d = Some d' /\
    dr_durable d' = next_ticket (dr_durable d) /\ cursor (sh_ring (dr_ring d')) = dr_durable d' /\
    sh_log (dr_ring d') = sh_log (dr_ring d) ++ [None] /\ dr_db d' = dr_db d /\ stall_polls d' = 0%Z.
Proof.
  assert (idle_sweeps (E := E) KEY_MAX VAL_MAX CAP ARENA MAX_WRITES (Z.to_nat (stall_budget d)) d =
    Some (with_stall d (stall_budget d) (stall_budget d))) as Hn.
  { rewrite (idle_counts (E := E) N KEY_MAX VAL_MAX CAP ARENA MAX_WRITES d) by (done || lia). rewrite Hs. do 2 f_equal. lia. }
  split; [done |]. rewrite <- Nat.add_1_r, idle_sweeps_add, Hn. cbn [mbind option_bind].
  apply (idle_fences (E := E) N KEY_MAX VAL_MAX CAP ARENA MAX_WRITES (with_stall d (stall_budget d) (stall_budget d))); done.
Qed.

(** ** A put through the ring, and a writer that stalls *)

Module DrainWitness.
Import LifeWitness.
#[local] Instance dw_dev : BlockDevice MemDisk.disk Empty_set := dev.
#[local] Instance dw_dev_laws : DeviceLaws MemDisk.disk Empty_set := dev_laws.

Definition dw_slot : bytes := [1; 1; 1; 97; 1]%Z ++ replicate 27 0%Z.
Definition dw_ring : SharedRing 2 := mkShared (Ring.new 2) [[EClaim; EPublish 0 dw_slot]] [].
Definition dw_new : Drainer (SharedRing 2) MemDisk.disk := drainer_new 2 dw_ring lf_db1 (tick 0).
Definition dw_swept := sweep (E := Empty_set) 4 4 8 64 2 dw_new.
Definition dw_d1 : Drainer (SharedRing 2) MemDisk.disk := from_option fst dw_new dw_swept.

#[local] Instance dw_laws : RingPortLaws (SharedRing 2) 0 := ring_port_laws 2 ltac:(lia) 0.

Lemma dw_hosted0 : hosted (E := Empty_set) (tbase := 0) 4 4 8 64 2 2 8 2 0 [] dw_new.
Proof.
  apply hosted_new; [| done | apply lf_life1 | by_compute]. split; [| by_compute]. split; [by_compute |].
  repeat constructor.
Qed.

Lemma dw_hosted1 : hosted (E := Empty_set) (tbase := 0) 4 4 8 64 2 2 8 2 0 [] dw_d1.
Proof.
  eapply (hosted_sweep 4 4 8 64 2 2 8 2 0 [] dw_new dw_d1 (Ok (Swept 1))); [apply dw_hosted0 |].
  unfold dw_d1, dw_swept. vm_compute. reflexivity.
Qed.

Lemma watermark_refines_history_witness :
  durable_watermark dw_d1 = 1%Z /\
  put_poll (mkPut (tick 0)) (dr_durable dw_d1) = Some 0%Z /\
  exists c, get_at_with_time (E := Empty_set) 4 2 8 false (dr_db dw_d1) (replicate 512 0%Z) [97]%Z [0; 0]%Z 5 0 =
    Some (set_cache (dr_db dw_d1) c, Ok (Some 1%nat, [1; 0]%Z)).
Proof.
  destruct (watermark_refines_history (E := Empty_set) (tbase := 0) 4 4 8 64 2 2 8 2 0 [] dw_d1 lf_shape dw_hosted1)
    as (Hw & Hr & Hp & _).
  split_and!.
  - rewrite Hw. vm_compute. reflexivity.
  - rewrite Hp by (vm_compute; split; reflexivity). vm_compute. reflexivity.
  - destruct (Hr (replicate 512 0%Z) [97]%Z [0; 0]%Z 5%Z 0%Z) as [c Hc]; [apply length_replicate |].
    exists c. exact Hc.
Defined.

Lemma sweep_contract_witness :
  exists d' r, sweep (E := Empty_set) 4 4 8 64 2 dw_new = Some (d', r) /\
    sweep_outcome (tbase := 0) 4 4 8 64 2 2 8 2 0 [] dw_new d' (acked_slots (tbase := 0) dw_new) r.
Proof. apply (sweep_contract (E := Empty_set) (tbase := 0) 4 4 8 64 2 2 8 2 0 [] dw_new lf_shape dw_hosted0). Defined.

(** Claimed and never published; the budget is 3. *)
Definition dw_stalled : Drainer (SharedRing 2) MemDisk.disk :=
  set_stall_budget (drainer_new 2 (mkShared (Ring.try_claim 2 (Ring.new 2)).1 [] []) lf_db1 (tick 0)) 3.

Lemma stalled_ticket_fenced_witness :
  exists d', idle_sweeps (E := Empty_set) 4 4 8 64 2 4 dw_stalled = Some d' /\ dr_durable d' = 1%Z.
Proof.
  destruct (stalled_ticket_fenced (E := Empty_set) 2 4 4 8 64 2 dw_stalled) as (_ & d' & Hd & Hw & _).
  - exists 0%Z. split_and!; [by_compute | by_compute | by_compute].
  - reflexivity.
  - by_compute.
  - reflexivity.
  - reflexivity.
  - reflexivity.
  - vm_compute. split; [discriminate | reflexivity].
  - exists d'. split; [exact Hd |]. rewrite Hw. vm_compute. reflexivity.
Defined.
End DrainWitness.
