(* ===== verification/Scan.v ===== *)
(** * Forward scans: [src/scan.rs], [Scan]

    A scan merges the memtable and one cursor per table.  It borrows the handle, which
    does not change under it except for its cache, so the handle is a parameter here and
    a scan computation threads the scan, the cache and an error.  The physical block
    buffer carries nothing from one read to the next and is omitted; the logical one is
    kept with the id it holds.  A failed inflate leaves the logical buffer half written
    in the source; here it is unchanged, and nothing below speaks of it.  [None] is a
    panic: an index or a copy out of range, or a loop past its bound. *)

From stdpp Require Import base numbers list.
From Stdlib Require Import ZArith Lia.
From S2P Require Import Prelude Device Compress Version Slots Cache Memtable Wal Manifest ManifestPool SstPlan SstWriter SstReader SstBlock SstImage SstIndex SstRdel SstTable SstBuild Db DbRead.

Record ScanCursor := mkCursor {
  sc_table_id : u32;
  sc_node_id : u32;
  sc_seal_wall : u64;
  sc_first_block : u64;
  sc_data_blocks : u64;
  sc_block_idx : u64;
  sc_block_id : u64;
  sc_off : nat;
  sc_next : nat;
  sc_end : nat;
  sc_live : bool;
  sc_key : bytes;
  sc_key_len : nat;
  sc_seq : u64;
  sc_tombstone : bool;
  sc_val_len : nat;
  sc_expire_at : u64;
}.

Definition cursor_empty (KEY_MAX : nat) : ScanCursor :=
  mkCursor 0 0 0 0 0 0 0 0 0 0 false (replicate KEY_MAX 0%Z) 0 0 false 0 0.

(** The head key. *)
Definition sc_head_key (c : ScanCursor) : bytes := take (sc_key_len c) (sc_key c).

Record Scan := mkScan {
  sn_start : bytes;
  sn_start_len : nat;
  sn_end : bytes;
  sn_end_len : nat;
  sn_has_end : bool;
  sn_max_seq : u64;
  sn_now : u64;
  sn_block : bytes;
  sn_block_id : option u64;
  mem_idx : nat;
  mem_key : bytes;
  mem_key_len : nat;
  mem_val : bytes;
  mem_val_len : nat;
  mem_seq : u64;
  mem_tombstone : bool;
  mem_live : bool;
  mem_expire_at : u64;
  cursors : list ScanCursor;
  cursor_counts : list nat;
  level_base : list nat;
}.

(** ** Computations of a scan *)

(** On a scan state [S] and the cache. *)
Definition cstm (S E A : Type) : Type :=
  S -> option CacheCell -> option (S * option CacheCell * result A (Error E)).

Definition sret {S E A} (a : A) : cstm S E A := fun s c => Some (s, c, Ok a).
Definition sfail {S E A} (e : Error E) : cstm S E A := fun s c => Some (s, c, Err e).
Definition spanic {S E A} : cstm S E A := fun s c => None.
Definition sget {S E} : cstm S E S := fun s c => Some (s, c, Ok s).
Definition smod {S E} (f : S -> S) : cstm S E unit := fun s c => Some (f s, c, Ok tt).
Definition sbind {S E A B} (m : cstm S E A) (f : A -> cstm S E B) : cstm S E B := fun s c =>
  match m s c with
  | None => None
  | Some (s, c, Err e) => Some (s, c, Err e)
  | Some (s, c, Ok a) => f a s c
  end.
Definition slift {S E A} (m : cached E A) : cstm S E A := fun s c =>
  match m c with
  | None => None
  | Some (c, r) => Some (s, c, r)
  end.

Abbreviation scanm := (cstm Scan).

Notation "'let#' x := m 'in' k" := (sbind m (fun x => k))
  (at level 10, x pattern, m at level 200, k at level 200) : horton_scope.

(** ** Fields *)

Definition with_range (s : Scan) (start : bytes) (start_len : nat) (end_ : bytes) (end_len : nat) (has_end : bool)
    (mx now : u64) (bid : option u64) : Scan :=
  mkScan start start_len end_ end_len has_end mx now (sn_block s) bid (mem_idx s) (mem_key s) (mem_key_len s)
    (mem_val s) (mem_val_len s) (mem_seq s) (mem_tombstone s) (mem_live s) (mem_expire_at s) (cursors s)
    (cursor_counts s) (level_base s).
Definition with_block (s : Scan) (b : bytes) (id : option u64) : Scan :=
  mkScan (sn_start s) (sn_start_len s) (sn_end s) (sn_end_len s) (sn_has_end s) (sn_max_seq s) (sn_now s) b id
    (mem_idx s) (mem_key s) (mem_key_len s) (mem_val s) (mem_val_len s) (mem_seq s) (mem_tombstone s) (mem_live s)
    (mem_expire_at s) (cursors s) (cursor_counts s) (level_base s).
Definition with_mem (s : Scan) (idx : nat) (live : bool) : Scan :=
  mkScan (sn_start s) (sn_start_len s) (sn_end s) (sn_end_len s) (sn_has_end s) (sn_max_seq s) (sn_now s)
    (sn_block s) (sn_block_id s) idx (mem_key s) (mem_key_len s) (mem_val s) (mem_val_len s) (mem_seq s)
    (mem_tombstone s) live (mem_expire_at s) (cursors s) (cursor_counts s) (level_base s).
Definition with_cursors (s : Scan) (cs : list ScanCursor) (counts bases : list nat) : Scan :=
  mkScan (sn_start s) (sn_start_len s) (sn_end s) (sn_end_len s) (sn_has_end s) (sn_max_seq s) (sn_now s)
    (sn_block s) (sn_block_id s) (mem_idx s) (mem_key s) (mem_key_len s) (mem_val s) (mem_val_len s) (mem_seq s)
    (mem_tombstone s) (mem_live s) (mem_expire_at s) cs counts bases.

(** The head entry [v] found at slot [idx]. *)
Definition mem_head (s : Scan) (idx : nat) (v : Entry) : Scan :=
  mkScan (sn_start s) (sn_start_len s) (sn_end s) (sn_end_len s) (sn_has_end s) (sn_max_seq s) (sn_now s)
    (sn_block s) (sn_block_id s) idx (splice 0 (Memtable.key v) (mem_key s)) (length (Memtable.key v))
    (splice 0 (val v) (mem_val s)) (length (val v)) (Memtable.seq v) (tombstone v) true (expire_at v)
    (cursors s) (cursor_counts s) (level_base s).

(** Where cursor [ti] of level [li] is in the flattened pool. *)
Definition pool_idx (s : Scan) (li ti : nat) : nat := nth li (level_base s) 0%nat + ti.

Section scan.
  Context {D E : Type} `{Dev : !BlockDevice D E}.
  (** The const generics and the borrowed handle. *)
  Variables KEY_MAX VAL_MAX LEVELS TABLES : nat.
  Variable db : Db D.

Definition cursor_at (s : Scan) (i : nat) : ScanCursor := nth i (cursors s) (cursor_empty KEY_MAX).
Definition set_cursor (i : nat) (f : ScanCursor -> ScanCursor) (s : Scan) : Scan :=
  with_cursors s (<[i := f (cursor_at s i)]> (cursors s)) (cursor_counts s) (level_base s).

Definition scan_new : Scan :=
  mkScan (replicate KEY_MAX 0%Z) 0 (replicate KEY_MAX 0%Z) 0 false U64_MAX 0 (replicate BLOCK 0%Z) None 0
    (replicate KEY_MAX 0%Z) 0 (replicate VAL_MAX 0%Z) 0 0 false false 0
    (replicate (LEVELS * TABLES) (cursor_empty KEY_MAX)) (replicate LEVELS 0%nat) (replicate LEVELS 0%nat).

(** ** The shared buffer *)

Definition read_verify (t : u32) (id : u64) : scanm E unit :=
  let# s := sget in
  let# (raw, inflated, dec) := slift (read_data_block (device (db_wal db)) t id (sn_block s) false) in
  smod (fun s => with_block s (if inflated then dec else raw) (Some id)).

Definition read_verify_index (t : u32) (id : u64) : scanm E unit :=
  let# blk := slift (fetch (device (db_wal db)) t id true) in
  let# _ := smod (fun s => with_block s blk (sn_block_id s)) in
  let# _ := slift (pure (check_block_crc blk id)) in
  smod (fun s => with_block s (sn_block s) (Some id)).

(** [footer_index_block] with its buffer. *)
Definition read_footer_index (t : u32) (footer : u64) : scanm E u64 :=
  let# blk := slift (fetch (device (db_wal db)) t footer true) in
  let# _ := smod (fun s => with_block s blk (sn_block_id s)) in
  let# _ := slift (pure (check_block_crc blk footer)) in
  if negb (from_le (sub 0 8 blk) =? SSTABLE_MAGIC)%Z then sfail (CorruptBlock footer)
  else sret (from_le (sub 8 8 blk)).

Definition ensure_block (t : u32) (id : u64) : scanm E unit :=
  let# s := sget in
  if bool_decide (sn_block_id s = Some id) then sret tt else read_verify t id.

(** ** The memtable head *)

(** [while self.mem_idx < slot_len()], [n] slots to go; [None] where a copy does not fit. *)
Fixpoint mem_loop (n : nat) (s : Scan) : option Scan :=
  match n with
  | O => Some s
  | S n =>
      match slot_view (db_table db) (mem_idx s) with
      | Some v =>
          if (Memtable.seq v <=? sn_max_seq s)%Z && negb (range_del v) then
            if (KEY_MAX <? length (Memtable.key v))%nat || (VAL_MAX <? length (val v))%nat then None
            else Some (mem_head s (mem_idx s) v)
          else mem_loop n (with_mem s (mem_idx s + 1) (mem_live s))
      | None => mem_loop n (with_mem s (mem_idx s + 1) (mem_live s))
      end
  end.

Definition advance_mem : scanm E unit := fun s c =>
  let s := with_mem s (mem_idx s) false in
  match mem_loop (len (db_table db) - mem_idx s) s with
  | Some s => Some (s, c, Ok tt)
  | None => None
  end.

(** ** Table cursors *)

(** The next visible entry of the block from [off] on, with its offset. *)
Fixpoint park_entries (fuel : nat) (block : bytes) (off end_ : nat) (bid max_seq : u64) (floor : option bytes)
  : option (result (option (ParsedDataEntry * nat)) (Error E)) :=
  match fuel with
  | O => None
  | S fuel =>
      match parse_data_entry (E := E) block off end_ bid with
      | Err _ =>
          if (end_ <? off)%nat then None
          else if all_zero (sub off (end_ - off) block) then Some (Ok None) else Some (Err (CorruptBlock bid))
      | Ok e =>
          if (pd_seq e <=? max_seq)%Z && match floor with None => true | Some f => bytes_leb f (pd_key e) end
          then Some (Ok (Some (e, off)))
          else park_entries fuel block (pd_next e) end_ bid max_seq floor
      end
  end.

(** The cursor parked on [e] at [off]. *)
Definition parked (c : ScanCursor) (e : ParsedDataEntry) (off : nat) : ScanCursor :=
  mkCursor (sc_table_id c) (sc_node_id c) (sc_seal_wall c) (sc_first_block c) (sc_data_blocks c) (sc_block_idx c)
    (sc_block_id c) off (pd_next e) (sc_end c) true (splice 0 (pd_key e) (replicate KEY_MAX 0%Z))
    (length (pd_key e)) (pd_seq e) (pd_tombstone e) (length (pd_val e)) (pd_expire_at e).

Definition exhausted (c : ScanCursor) : ScanCursor :=
  mkCursor (sc_table_id c) (sc_node_id c) (sc_seal_wall c) (sc_first_block c) (sc_data_blocks c) (sc_block_idx c)
    (sc_block_id c) (sc_off c) (sc_next c) (sc_end c) false (sc_key c) (sc_key_len c) (sc_seq c)
    (sc_tombstone c) (sc_val_len c) (sc_expire_at c).

Definition at_block (id idx : u64) (end_ : nat) (c : ScanCursor) : ScanCursor :=
  mkCursor (sc_table_id c) (sc_node_id c) (sc_seal_wall c) (sc_first_block c) (sc_data_blocks c) idx
    id (sc_off c) 0 end_ (sc_live c) (sc_key c) (sc_key_len c) (sc_seq c)
    (sc_tombstone c) (sc_val_len c) (sc_expire_at c).

(** The outer loop of [park_cursor] on pool slot [i]: a block a turn. *)
Fixpoint park_loop (fuel i : nat) (floor : option bytes) : scanm E unit :=
  match fuel with
  | O => spanic
  | S fuel =>
      let# s := sget in
      let c := cursor_at s i in
      if negb (sc_live c) then sret tt
      else
        let# _ := ensure_block (sc_table_id c) (sc_block_id c) in
        let# s := sget in
        match park_entries (S (sc_end c)) (sn_block s) (sc_next c) (sc_end c) (sc_block_id c) (sn_max_seq s) floor with
        | None => spanic
        | Some (Err e) => sfail e
        | Some (Ok (Some (e, off))) =>
            if (KEY_MAX <? length (pd_key e))%nat then spanic else smod (set_cursor i (fun c => parked c e off))
        | Some (Ok None) =>
            if (sc_data_blocks c <=? sc_block_idx c + 1)%Z then smod (set_cursor i exhausted)
            else
              match u64_checked_add (sc_first_block c) (sc_block_idx c + 1) with
              | None => sfail (CorruptBlock (sc_first_block c))
              | Some nid =>
                  let# _ := read_verify (sc_table_id c) nid in
                  let# s := sget in
                  let# nend := slift (pure (data_entries_end (sn_block s) nid)) in
                  if (nend =? 0)%nat then sfail (CorruptBlock nid)
                  else
                    let# _ := smod (set_cursor i (at_block nid (sc_block_idx c + 1) nend)) in
                    park_loop fuel i floor
              end
        end
  end.

Definition park_cursor (li ti : nat) (floor : option bytes) : scanm E unit :=
  let# s := sget in
  let i := pool_idx s li ti in
  park_loop (S (Z.to_nat (sc_data_blocks (cursor_at s i)))) i floor.

Definition fresh_cursor (t : TableRef) (data_first data_blocks block_idx bid : u64) (end_ : nat) : ScanCursor :=
  mkCursor (t_id t) (node_id t) (seal_wall t) data_first data_blocks block_idx bid 0 0 end_ true
    (replicate KEY_MAX 0%Z) 0 0 false 0 0.

(** [add_cursor] from the first data block's buffer on. *)
Definition place_cursor (t : TableRef) (li : nat) (start : bytes) (data_first data_blocks block_idx bid : u64) : scanm E unit :=
  let# s := sget in
  let# end_ := slift (pure (data_entries_end (sn_block s) bid)) in
  if (end_ =? 0)%nat then sfail (CorruptBlock bid)
  else
    let ti := nth li (cursor_counts s) 0%nat in
    if (length (cursors s) <=? pool_idx s li ti)%nat then sfail CorruptManifest
    else
      let# _ := smod (fun s =>
        with_cursors s (<[pool_idx s li ti := fresh_cursor t data_first data_blocks block_idx bid end_]> (cursors s))
          (<[li := (ti + 1)%nat]> (cursor_counts s)) (level_base s)) in
      park_cursor li ti (Some start).

Definition add_cursor (t : TableRef) (li : nat) (start : bytes) : scanm E unit :=
  let first := data_first t in
  match data_blocks t with
  | None => sfail (CorruptBlock (first_block t))
  | Some blocks =>
      if (blocks =? 0)%Z then sret tt
      else
        match footer_block t with
        | None => sfail CorruptManifest
        | Some footer =>
            let# index_id := read_footer_index (t_id t) footer in
            let# _ := smod (fun s => with_block s (sn_block s) (Some footer)) in
            let# _ := read_verify_index (t_id t) index_id in
            let# s := sget in
            let# data_id := slift (pure (index_lookup (take (BLOCK - CRC_LEN) (sn_block s)) start index_id)) in
            let# block_idx :=
              match data_id with
              | Some (id, _) =>
                  match u64_checked_sub id first with Some i => sret i | None => sfail (CorruptBlock id) end
              | None => sret 0%Z
              end in
            if (blocks <=? block_idx)%Z then sfail (CorruptBlock (first_block t))
            else
              match u64_checked_add first block_idx with
              | None => sfail (CorruptBlock (first_block t))
              | Some bid =>
                  let# _ := read_verify (t_id t) bid in
                  place_cursor t li start first blocks block_idx bid
              end
        end
  end.

(** ** Seeking *)

Definition end_bound (s : Scan) : bytes := take (sn_end_len s) (sn_end s).

(** The tables of one level. *)
Fixpoint seek_tables (ts : list TableRef) (li : nat) (start : bytes) : scanm E unit :=
  match ts with
  | [] => sret tt
  | t :: ts =>
      let# s := sget in
      if bytes_ltb (as_slice (Manifest.last_key t)) start ||
         (sn_has_end s && bytes_leb (end_bound s) (as_slice (Manifest.first_key t)))
      then seek_tables ts li start
      else
        let from := if bytes_ltb (as_slice (Manifest.first_key t)) start then start else as_slice (Manifest.first_key t) in
        let# _ := add_cursor t li from in
        seek_tables ts li start
  end.

(** [for li in 0..LEVELS], [n] levels to go. *)
Fixpoint seek_levels (n li base : nat) (start : bytes) : scanm E unit :=
  match n with
  | O => sret tt
  | S n =>
      let# _ := smod (fun s => with_cursors s (cursors s) (cursor_counts s) (<[li := base]> (level_base s))) in
      let# _ := seek_tables (default [] (level LEVELS (db_manifest db) li)) li start in
      let# s := sget in
      seek_levels n (li + 1) (base + nth li (cursor_counts s) 0%nat) start
  end.

Definition seek_with_time (start : bytes) (end_ : option bytes) (max_seq now : u64) : scanm E unit :=
  match ensure_open (E := E) db with
  | Err e => sfail e
  | Ok _ =>
      if (KEY_MAX <? length start)%nat then sfail (KeyTooLarge (length start) KEY_MAX)
      else
        let go (s0 : Scan -> bytes) (end_len : nat) (has_end : bool) :=
          let# _ := smod (fun s =>
            with_range s (splice 0 start (sn_start s)) (length start) (s0 s) end_len has_end max_seq now None) in
          let# _ := smod (fun s => with_mem s (lower_bound (db_table db) start) (mem_live s)) in
          let# _ := advance_mem in
          let# _ := smod (fun s => with_cursors s (cursors s) (replicate LEVELS 0%nat) (level_base s)) in
          seek_levels LEVELS 0 0 start in
        match end_ with
        | Some [] => sfail EmptyKey
        | Some e =>
            if (KEY_MAX <? length e)%nat then sfail (KeyTooLarge (length e) KEY_MAX)
            else go (fun s => splice 0 e (sn_end s)) (length e) true
        | None => go sn_end 0%nat false
        end
  end.

Definition seek (start : bytes) (end_ : option bytes) (max_seq : u64) : scanm E unit :=
  seek_with_time start end_ max_seq 0.

(** ** Heads *)

Definition total_cursors (s : Scan) : nat := sum_list_with id (take LEVELS (cursor_counts s)).

(** [while li < LEVELS && s >= counts[li]] *)
Fixpoint pos_loop (counts : list nat) (src li : nat) : nat * nat :=
  match counts with
  | [] => (li, src)
  | n :: counts => if (n <=? src)%nat then pos_loop counts (src - n) (li + 1) else (li, src)
  end.

Definition cursor_pos (s : Scan) (src : nat) : nat * nat := pos_loop (take LEVELS (cursor_counts s)) (src - 1) 0.

(** The cursor of source [src], from 1 on. *)
Definition src_idx (s : Scan) (src : nat) : nat := let '(li, ti) := cursor_pos s src in pool_idx s li ti.
Definition src_cursor (s : Scan) (src : nat) : ScanCursor := cursor_at s (src_idx s src).

Definition head_key (s : Scan) (src : nat) : option bytes :=
  if (src =? 0)%nat then (if mem_live s then Some (take (mem_key_len s) (mem_key s)) else None)
  else let c := src_cursor s src in if sc_live c then Some (sc_head_key c) else None.

Record Head := mkHead { hd_key : bytes; hd_seq : u64; hd_tombstone : bool; hd_val_len : nat; hd_expire_at : u64 }.

Definition head (s : Scan) (src : nat) : option Head :=
  if (src =? 0)%nat then
    (if mem_live s
     then Some (mkHead (take (mem_key_len s) (mem_key s)) (mem_seq s) (mem_tombstone s) (mem_val_len s) (mem_expire_at s))
     else None)
  else
    let c := src_cursor s src in
    if sc_live c
    then Some (mkHead (sc_head_key c) (sc_seq c) (sc_tombstone c) (sc_val_len c) (sc_expire_at c))
    else None.

Definition head_version (s : Scan) (src : nat) : Version :=
  if (src =? 0)%nat then memtable (own_node db) (mem_seq s)
  else let c := src_cursor s src in table (sc_node_id c) (sc_seal_wall c) (sc_seq c).

(** One turn of [min_src]. *)
Definition min_step (s : Scan) (best : option (nat * bytes)) (src : nat) : option (nat * bytes) :=
  match head_key s src with
  | None => best
  | Some k =>
      match best with
      | None => Some (src, k)
      | Some (_, m) => if bytes_ltb k m then Some (src, k) else best
      end
  end.

Definition min_src (s : Scan) (total : nat) : option (nat * bytes) :=
  fold_left (min_step s) (List.seq 0 (total + 1)) None.

(** ** Advancing *)

(** [while self.mem_live && mem_key == minkey] *)
Fixpoint mem_past (fuel : nat) (minkey : bytes) : scanm E unit :=
  match fuel with
  | O => spanic
  | S fuel =>
      let# s := sget in
      if mem_live s && bytes_eqb (take (mem_key_len s) (mem_key s)) minkey then
        let# _ := smod (fun s => with_mem s (mem_idx s + 1) (mem_live s)) in
        let# _ := advance_mem in
        mem_past fuel minkey
      else sret tt
  end.

(** The inner [loop] of [advance_past_key] on one cursor. *)
Fixpoint cursor_past (fuel li ti : nat) (minkey : bytes) : scanm E unit :=
  match fuel with
  | O => spanic
  | S fuel =>
      let# s := sget in
      let c := cursor_at s (pool_idx s li ti) in
      if negb (sc_live c) then sret tt
      else if negb (bytes_eqb (sc_head_key c) minkey) then sret tt
      else
        let# _ := park_cursor li ti None in
        cursor_past fuel li ti minkey
  end.

(** A bound on the entries of a cursor's table. *)
Definition cursor_bound (c : ScanCursor) : nat := Z.to_nat (sc_data_blocks c) * BLOCK.

(** [for src in 1..=total], over the sources to go. *)
Fixpoint cursors_past (srcs : list nat) (minkey : bytes) : scanm E unit :=
  match srcs with
  | [] => sret tt
  | src :: srcs =>
      let# s := sget in
      let '(li, ti) := cursor_pos s src in
      let# _ := cursor_past (S (cursor_bound (cursor_at s (pool_idx s li ti)))) li ti minkey in
      cursors_past srcs minkey
  end.

Definition advance_past_key (minkey : bytes) (total : nat) : scanm E unit :=
  let# _ := mem_past (S (len (db_table db))) minkey in
  cursors_past (List.seq 1 total) minkey.

(** ** The merge *)

Record Winner := mkWinner {
  w_src : nat;
  w_ver : Version;
  w_tombstone : bool;
  w_key_len : nat;
  w_val_len : nat;
  w_expire_at : u64;
}.

(** One turn of pass 2. *)
Definition win_step (s : Scan) (min_key : bytes) (w : Winner) (src : nat) : Winner :=
  match head s src with
  | None => w
  | Some h =>
      if negb (bytes_eqb (hd_key h) min_key) then w
      else
        let ver := head_version s src in
        if version_gt ver (w_ver w)
        then mkWinner src ver (hd_tombstone h) (length (hd_key h)) (hd_val_len h) (hd_expire_at h) else w
  end.

Definition winner_of (s : Scan) (total min : nat) (min_key : bytes) : Winner :=
  fold_left (win_step s min_key) (List.seq 0 (total + 1)) (mkWinner min ZERO false (length min_key) 0 0).

(** The winner's key bytes. *)
Definition winner_key (s : Scan) (w : Winner) : bytes :=
  take (w_key_len w) (if (w_src w =? 0)%nat then mem_key s else sc_key (src_cursor s (w_src w))).

(** The winner's value into [val_buf]. *)
Definition copy_value (w : Winner) (val_buf : bytes) : scanm E bytes :=
  let# s := sget in
  if (w_src w =? 0)%nat then sret (splice 0 (take (w_val_len w) (mem_val s)) val_buf)
  else
    let c := src_cursor s (w_src w) in
    let# _ := ensure_block (sc_table_id c) (sc_block_id c) in
    let# s := sget in
    match parse_data_entry (E := E) (sn_block s) (sc_off c) (sc_end c) (sc_block_id c) with
    | Err _ => sfail (CorruptBlock (sc_block_id c))
    | Ok e => if (length val_buf <? length (pd_val e))%nat then spanic else sret (splice 0 (pd_val e) val_buf)
    end.

(** [next]: the lengths and the two buffers, or the end. *)
Fixpoint next_loop (fuel total : nat) (key_buf val_buf : bytes) : scanm E (option (nat * nat * bytes * bytes)) :=
  match fuel with
  | O => spanic
  | S fuel =>
      let# s := sget in
      match min_src s total with
      | None => sret None
      | Some (src, min_key) =>
          if sn_has_end s && bytes_leb (end_bound s) min_key then sret None
          else
            let w := winner_of s total src min_key in
            let wkey := winner_key s w in
            let# covered := slift (rdel_hides LEVELS db wkey (sn_max_seq s) (w_ver w)) in
            let expired := negb (w_tombstone w) && negb (w_expire_at w =? 0)%Z && (w_expire_at w <=? sn_now s)%Z in
            if (Version.seq (w_ver w) =? 0)%Z || w_tombstone w || covered || expired then
              let# _ := advance_past_key wkey total in
              next_loop fuel total key_buf val_buf
            else if (length key_buf <? w_key_len w)%nat then sfail (BufferTooSmall (w_key_len w))
            else
              let key_buf := splice 0 wkey key_buf in
              if (length val_buf <? w_val_len w)%nat then sfail (BufferTooSmall (w_val_len w))
              else
                let# val_buf := copy_value w val_buf in
                let# _ := advance_past_key (take (w_key_len w) key_buf) total in
                sret (Some (w_key_len w, w_val_len w, key_buf, val_buf))
      end
  end.

(** A bound on the entries of every source: a turn of the merge passes at least one. *)
Definition next_bound (s : Scan) : nat :=
  len (db_table db) + sum_list_with cursor_bound (cursors s).

Definition next (key_buf val_buf : bytes) : scanm E (option (nat * nat * bytes * bytes)) :=
  let# s := sget in
  next_loop (S (next_bound s)) (total_cursors s) key_buf val_buf.
End scan.
