(* ===== verification/ScanPark.v ===== *)
(** * What a scan's cursors stand on: [src/scan.rs]

    Parking a table cursor: from any position it stops at the first entry left that the
    scan may see, whatever blocks lie between, or is exhausted when there is none. *)

From stdpp Require Import base numbers list.
From Stdlib Require Import ZArith Lia Sorting.Sorted.
From S2P Require Import Prelude Device Compress Version Slots Cache Memtable Wal Manifest ManifestPool SstPlan SstWriter SstReader SstBlock SstImage SstIndex SstRdel SstTable SstBuild Db DbRead Scan.

(** ** Runs of a scan computation *)

Section runs.
  Context {D E : Type} `{Laws : DeviceLaws D E}.
  Context {S : Type} (d : D) (L : u32 -> u64 -> Prop).

(** From any truthful cache, [m] takes the scan from [s] to [s'] and returns [r]. *)
Definition sruns {A} (m : cstm S E A) (s s' : S) (r : result A (Error E)) : Prop :=
  forall c, truthful d L c -> exists c', m s c = Some (s', c', r) /\ truthful d L c' /\ grows L c c'.

Lemma grows_refl c : grows L c c.
Proof. intros t b blk. by left. Qed.

Lemma sruns_ret {A} (a : A) s : sruns (sret a) s s (Ok a).
Proof. intros c Hc. exists c. split_and!; [done | done | apply grows_refl]. Qed.

Lemma sruns_fail {A} (e : Error E) s : sruns (sfail (A := A) e) s s (Err e).
Proof. intros c Hc. exists c. split_and!; [done | done | apply grows_refl]. Qed.

Lemma sruns_get s : sruns sget s s (Ok s).
Proof. intros c Hc. exists c. split_and!; [done | done | apply grows_refl]. Qed.

Lemma sruns_mod f s : sruns (smod f) s (f s) (Ok tt).
Proof. intros c Hc. exists c. split_and!; [done | done | apply grows_refl]. Qed.

Lemma sruns_lift {A} (m : cached E A) r s : yields d L m r -> sruns (slift m) s s r.
Proof. intros Hy c Hc. destruct (Hy c Hc) as (c' & Em & ? & ?). exists c'. unfold slift. by rewrite Em. Qed.

Lemma sruns_bind {A B} (m : cstm S E A) (f : A -> cstm S E B) s s1 s2 r r' :
  sruns m s s1 r -> match r with Ok a => sruns (f a) s1 s2 r' | Err e => s2 = s1 /\ r' = Err e end ->
  sruns (sbind m f) s s2 r'.
Proof.
  intros Hm Hf c Hc. destruct (Hm c Hc) as (c1 & E1 & Hc1 & Hg1). unfold sbind. rewrite E1.
  destruct r as [a | e]; [| destruct Hf as [-> ->]; eauto]. destruct (Hf c1 Hc1) as (c2 & E2 & Hc2 & Hg2).
  exists c2. split_and!; [done | done |]. intros t b blk Hh. destruct (Hg2 t b blk Hh); auto.
Qed.

Lemma sruns_seq {A B} (m : cstm S E A) (f : A -> cstm S E B) s s1 s2 a r :
  sruns m s s1 (Ok a) -> sruns (f a) s1 s2 r -> sruns (sbind m f) s s2 r.
Proof. intros. eapply sruns_bind; eauto. Qed.

Lemma sruns_get_seq {A} (f : S -> cstm S E A) s s' r : sruns (f s) s s' r -> sruns (sbind sget f) s s' r.
Proof. intros. eapply sruns_seq; [apply sruns_get | done]. Qed.

Lemma sruns_mod_seq {A} g (f : unit -> cstm S E A) s s' r : sruns (f tt) (g s) s' r -> sruns (sbind (smod g) f) s s' r.
Proof. intros. eapply sruns_seq; [apply sruns_mod | done]. Qed.
End runs.

(** The first element that passes, with what follows it. *)
Fixpoint seek_in {A} (f : A -> bool) (l : list A) : option (A * list A) :=
  match l with
  | [] => None
  | x :: l => if f x then Some (x, l) else seek_in f l
  end.

Lemma seek_in_filter {A} (f : A -> bool) l :
  List.filter f l = match seek_in f l with Some (x, r) => x :: List.filter f r | None => [] end.
Proof. induction l as [|x l IH]; [done |]. cbn. by destruct (f x). Qed.

Lemma seek_in_app {A} (f : A -> bool) a b :
  seek_in f (a ++ b) = match seek_in f a with Some (x, r) => Some (x, r ++ b) | None => seek_in f b end.
Proof. induction a as [|x a IH]; [done |]. cbn. by destruct (f x). Qed.

Lemma seek_in_split {A} (f : A -> bool) l x r :
  seek_in f l = Some (x, r) -> exists pre, l = pre ++ x :: r /\ f x = true /\ Forall (fun y => f y = false) pre.
Proof.
  induction l as [|y l IH]; cbn; [done |]. destruct (f y) eqn:Ey.
  - intros [= -> ->]. exists []. by split_and!.
  - intros (pre & -> & ? & ?)%IH. exists (y :: pre). split_and!; auto.
Qed.

Lemma seek_in_none {A} (f : A -> bool) l : seek_in f l = None -> Forall (fun y => f y = false) l.
Proof. induction l as [|y l IH]; cbn; [constructor |]. destruct (f y) eqn:Ey; [done |]. intros ?%IH. by constructor. Qed.

(** ** Reading a data block's entries *)

Lemma length_payload es : (length es <= payload_len es)%nat.
Proof.
  induction es as [|e es IH]; [unfold payload_len; cbn; lia |].
  rewrite payload_len_cons. cbn [length]. pose proof (elen_pos e). lia.
Qed.

Section entries.
  Context {D E : Type} `{Laws : DeviceLaws D E}.
  Context (HB : (49 <= BLOCK)%nat).

Lemma body_entries es : block_wf es ->
  take (rstart_of es) (data_body es) = payload_of es ++ replicate (rstart_of es - payload_len es) 0%Z.
Proof.
  intros Hw. unfold data_body. rewrite app_assoc. apply take_app_length'.
  rewrite length_app, length_replicate. fold (payload_len es). pose proof (bw_room _ Hw). unfold rstart_of. lia.
Qed.

Lemma rstart_bound es : block_wf es -> (payload_len es <= rstart_of es)%nat /\ (0 < rstart_of es <= body_end)%nat.
Proof.
  intros Hw. pose proof (bw_room _ Hw). pose proof (bw_nonempty _ Hw). unfold rstart_of.
  destruct es as [|e es]; [done |]. rewrite payload_len_cons in *. pose proof (elen_pos e). lia.
Qed.

(** The logical block holds the body of [es]. *)
Definition holds_body (blk : bytes) (es : list SstEntry) : Prop :=
  length blk = BLOCK /\ take body_end blk = data_body es.

Lemma held_entries blk es : block_wf es -> holds_body blk es ->
  take (rstart_of es) blk = payload_of es ++ replicate (rstart_of es - payload_len es) 0%Z.
Proof.
  intros Hw [_ Hb]. rewrite <- body_entries, <- Hb by done. rewrite take_take.
  destruct (rstart_bound es Hw) as [_ ?]. f_equal. lia.
Qed.

Lemma held_end blk es id : block_wf es -> holds_body blk es ->
  data_entries_end (E := E) blk id = Ok (rstart_of es).
Proof.
  intros Hw [Hl Hb]. unfold data_entries_end. rewrite (proj2 (Nat.ltb_ge _ _)) by (unfold CRC_LEN; lia).
  assert (body_end = BLOCK - 4)%nat as Hbe by done.
  assert (sub (body_end - 2) 2 blk = to_le 2 (Z.of_nat (length (restarts_of es)))) as ->.
  { rewrite <- (data_body_trailer es Hw), <- Hb. unfold sub. rewrite skipn_firstn_comm, take_take. f_equal. lia. }
  pose proof (bw_restarts _ Hw). pose proof (bw_room _ Hw).
  rewrite from_to_le, Nat2Z.id by (change (2 ^ (8 * Z.of_nat 2))%Z with 65536%Z; lia).
  rewrite (proj2 (Nat.ltb_ge _ _)) by lia. f_equal. unfold rstart_of. lia.
Qed.

(** The parsed form a cursor caches. *)
Definition head_of (e : SstEntry) (next : nat) : ParsedDataEntry :=
  mkParsedData (se_key e) (se_stored e) (se_seq e) (se_tombstone e) (if se_ttl e then se_expire_at e else 0%Z) next.

Lemma held_parses blk es pre e suf id : block_wf es -> holds_body blk es -> es = pre ++ e :: suf ->
  parse_data_entry (E := E) blk (payload_len pre) (rstart_of es) id = Ok (head_of e (payload_len (pre ++ [e]))).
Proof.
  intros Hw Hh Es. unfold parse_data_entry. destruct (rstart_bound es Hw) as [Hr _].
  pose proof (bw_entries _ Hw) as Hf. rewrite Es in Hf. apply Forall_app in Hf as [_ [He _]%Forall_cons].
  assert (payload_len pre + elen e <= payload_len es)%nat as Hlt
    by (rewrite Es, payload_len_app, payload_len_cons; lia).
  pose proof (elen_pos e). rewrite (proj2 (Nat.leb_gt _ _)) by lia.
  rewrite (held_entries blk es Hw Hh), Es. rewrite payload_of_app, payload_of_cons, <- !app_assoc.
  unfold payload_len at 1. rewrite entry_parses by done. rewrite payload_len_snoc. unfold head_of. f_equal.
  cbn [parsed_of pe_op pe_key pe_val pe_seq pe_expire_at].
  assert (op_eqb (se_op e) Delete = se_tombstone e) as ->
    by (unfold op_eqb, se_op, se_ttl; destruct (se_tombstone e), (se_expire_at e =? 0)%Z; done).
  f_equal. unfold se_stored. by destruct (se_tombstone e).
Qed.

(** Past the last entry: padding. *)
Lemma held_ends blk es id : block_wf es -> holds_body blk es ->
  (exists e, parse_data_entry (E := E) blk (payload_len es) (rstart_of es) id = Err e) /\
  all_zero (sub (payload_len es) (rstart_of es - payload_len es) blk) = true.
Proof.
  intros Hw Hh. destruct (rstart_bound es Hw) as [Hr _].
  assert (sub (payload_len es) (rstart_of es - payload_len es) blk = replicate (rstart_of es - payload_len es) 0%Z) as Hz.
  { unfold sub. rewrite firstn_skipn_comm. replace (payload_len es + (rstart_of es - payload_len es))%nat with (rstart_of es) by lia.
    rewrite (held_entries blk es Hw Hh). unfold payload_len at 1. by rewrite drop_app_length. }
  split.
  - unfold parse_data_entry. destruct (rstart_of es <=? payload_len es)%nat eqn:El; [eauto |]. bool_lia.
    rewrite (held_entries blk es Hw Hh). unfold data_entry_parse.
    assert (slice_at (payload_of es ++ replicate (rstart_of es - payload_len es) 0%Z) (payload_len es) 2 = None \/
            slice_at (payload_of es ++ replicate (rstart_of es - payload_len es) 0%Z) (payload_len es) 2 = Some [0; 0]%Z) as [-> | ->].
    { destruct (rstart_of es - payload_len es)%nat as [|[|n]] eqn:En; [lia | left | right].
      - apply slice_past. rewrite length_app. unfold payload_len. cbn. lia.
      - rewrite slice_skip by (unfold payload_len; lia). cbn [replicate]. apply (slice_front [0; 0]%Z); unfold payload_len; cbn; lia. }
    + cbn. eauto.
    + cbn. eauto.
  - rewrite Hz. apply all_zero_spec; [apply bytes_ok_replicate |]. by apply Forall_replicate.
Qed.

(** The entries a cursor may stop at. *)
Definition shows (mx : u64) (floor : option bytes) (e : SstEntry) : bool :=
  (se_seq e <=? mx)%Z && match floor with None => true | Some f => bytes_leb f (se_key e) end.

Lemma park_entries_step blk es id mx floor : block_wf es -> holds_body blk es -> forall suf pre fuel,
  es = pre ++ suf -> (length suf < fuel)%nat ->
  park_entries (E := E) fuel blk (payload_len pre) (rstart_of es) id mx floor =
  Some (Ok match seek_in (shows mx floor) suf with
           | Some (e, rest) => Some (head_of e (payload_len es - payload_len rest)%nat, (payload_len es - payload_len (e :: rest))%nat)
           | None => None
           end).
Proof.
  intros Hw Hh. induction suf as [|e suf IH]; intros pre fuel Es Hf; (destruct fuel as [|fuel]; [cbn in Hf; lia |]); cbn [park_entries seek_in].
  - rewrite app_nil_r in Es. subst pre. destruct (held_ends blk es id Hw Hh) as [[e ->] Hz]. rewrite Hz.
    destruct (rstart_bound es Hw). by rewrite (proj2 (Nat.ltb_ge _ _)) by lia.
  - rewrite (held_parses blk es pre e suf id Hw Hh Es). cbn [head_of pd_seq pd_key pd_next]. fold (shows mx floor e).
    destruct (shows mx floor e).
    + do 3 f_equal. rewrite Es, !payload_len_app, !payload_len_cons. change (payload_len []) with 0%nat. f_equal; [| lia].
      unfold head_of. f_equal. lia.
    + rewrite (IH (pre ++ [e])); [done | by rewrite <- app_assoc | cbn in Hf; lia].
Qed.
End entries.

(** The places of a table's sections. *)
Lemma section_parts t nb nr :
  (0 <= first_block t)%Z -> block_count t = Z.of_nat (nb + nr + 3) -> Manifest.rdel_blocks t = Z.of_nat nr -> (end_block t <= U64_MAX)%Z ->
  data_blocks t = Some (Z.of_nat nb) /\ footer_block t = Some (first_block t + Z.of_nat (nb + nr) + 2)%Z.
Proof.
  intros H0 Hcount Hrdel Hend. unfold end_block in Hend. rewrite Hcount in Hend.
  unfold data_blocks, footer_block. rewrite Hcount, Hrdel. rewrite (u64_sub_ok (Z.of_nat _)), u64_add_ok by lia.
  rewrite !u64_sub_ok by lia. split; f_equal; lia.
Qed.

(** The block the index sends a search for [start] to. *)
Lemma index_finds {D E} `{Laws : DeviceLaws D E} BLOOM_BYTES (HB : (49 <= BLOCK)%nat) (Hbloom : (BLOOM_BYTES + CRC_LEN <= BLOCK)%nat)
  (d : D) base blks rbs k ec ms start id : table_on BLOOM_BYTES d base blks rbs k ec ms -> key_ordered (concat blks) -> blks <> [] ->
  exists p es data_id, blks !! p = Some es /\ (p = 0%nat \/ bytes_lt (first_key_of es) start) /\
    index_lookup (E := E) (index_body (index_entries base blks) (body_end - length (index_of (index_entries base blks)))) start id = Ok data_id /\
    (data_id = None /\ p = 0%nat \/ exists n, data_id = Some ((base + Z.of_nat p)%Z, n)).
Proof.
  intros Hon Hso Hne. destruct (index_lookup_result (E := E) (index_entries base blks)
    (body_end - length (index_of (index_entries base blks))) id (to_index_wf _ _ _ _ _ _ _ _ Hon)
    (index_keys_sorted BLOOM_BYTES HB Hbloom d base blks rbs k ec ms Hon Hso) start) as [[Hf Hgt] | (p & i & Hi & Hf & Hp)].
  - destruct blks as [|es bs] eqn:Eb; [done |]. exists 0%nat, es, None. rewrite Hf. split_and!; [done | by left | done | by left].
  - unfold index_entries in Hi. rewrite list_lookup_imap in Hi. destruct (blks !! p) as [es |] eqn:Ep; [| done].
    injection Hi as <-. exists p, es. eexists. rewrite Hf. split_and!; [done | exact Hp | reflexivity | right; eexists; reflexivity].
Qed.

(** A table holds no more entries than its data blocks have bytes. *)
Lemma on_entries_bound {D E} `{Dev : !BlockDevice D E} BLOOM_BYTES (d : D) base blks rbs k ec ms :
  table_on BLOOM_BYTES d base blks rbs k ec ms -> (length (concat blks) <= length blks * BLOCK)%nat.
Proof.
  intros Hon. assert (Forall (fun es => (length es <= BLOCK)%nat) blks) as Hf.
  { apply Forall_lookup. intros i es Hi. destruct (to_data _ _ _ _ _ _ _ _ Hon i es Hi) as (Hw & _).
    pose proof (bw_room _ Hw). pose proof (length_payload es). unfold body_end in *. lia. }
  clear - Hf. induction Hf as [|es bs He Hf IH]; [done |]. cbn [concat length]. rewrite length_app. lia.
Qed.

(** ** The shared buffer *)

Section parking.
  Context {D E : Type} `{Laws : DeviceLaws D E}.
  Context (HB : (49 <= BLOCK)%nat) (KEY_MAX VAL_MAX LEVELS BLOOM_BYTES : nat).
  Context (db : Db D) (L : u32 -> u64 -> Prop).

  Abbreviation dev := (device (db_wal db)).
  Abbreviation sruns := (sruns dev L).

(** A buffer is the block its id names. *)
Definition buf_ok (blk : bytes) (bid : option u64) : Prop :=
  length blk = BLOCK /\
  forall id, bid = Some id -> exists x, read_block dev id = Ok (image x) /\ body_ok x /\ inflates x (take body_end blk).

Definition buffered (s : Scan) : Prop := buf_ok (sn_block s) (sn_block_id s).

Lemma inflates_eq x b b' : inflates x b -> inflates x b' -> length b = body_end -> b = b'.
Proof.
  intros [[H1 ->] | (H1 & _ & H2)] [[H3 ->] | (H3 & _ & H4)] Hl; try done.
  specialize (H2 (replicate body_end 0%Z) (length_replicate _ _)). specialize (H4 (replicate body_end 0%Z) (length_replicate _ _)).
  congruence.
Qed.

Lemma with_block_id s : with_block s (sn_block s) (sn_block_id s) = s.
Proof. by destruct s. Qed.

Section table.
  Context (t : TableRef) (blks : list (list SstEntry)) (rbs : list (list RdelEntry)) (k : u8) (ec ms : u64).
  Context (Hon : table_on BLOOM_BYTES dev (first_block t) blks rbs k ec ms).
  Context (HL : forall i, (i < length blks + length rbs + 3)%nat -> L (t_id t) (first_block t + Z.of_nat i)%Z).

(** A data block, read and inflated. *)
Lemma data_block_read buf p es :
  length buf = BLOCK -> blks !! p = Some es ->
  exists raw infl dec, yields dev L (read_data_block dev (t_id t) (first_block t + Z.of_nat p) buf false) (Ok (raw, infl, dec)) /\
    holds_body (if infl then dec else raw : bytes) es /\ buf_ok (if infl then dec else raw : bytes) (Some (first_block t + Z.of_nat p)%Z).
Proof.
  intros Hl Hp. destruct (to_data _ _ _ _ _ _ _ _ Hon p es Hp) as (Hw & x & Hx & Hi & Hr).
  pose proof (length_data_body es Hw) as Hbl. pose proof (lookup_lt_Some _ _ _ Hp) as Hlt.
  destruct (inflate_image x (data_body es) buf (first_block t + Z.of_nat p) ltac:(lia) Hx Hi Hbl Hl)
    as (infl & dec & Ei & Hdl & Ht).
  exists (image x), infl, dec.
  assert (length (if infl then dec else image x) = BLOCK) as Hbk
    by (destruct infl; [done | apply length_image; [unfold CRC_LEN; lia | done]]).
  split_and!.
  - unfold read_data_block. eapply yields_bind_ok; [apply yields_fetch_ok; [apply HL; lia | exact Hr] |].
    eapply yields_bind_ok; [rewrite image_checks by done; apply yields_pure |].
    eapply yields_bind_ok; [rewrite Ei; apply yields_pure |]. apply yields_ret.
  - by split.
  - split; [done |]. intros id [= <-]. exists x. rewrite Ht. done.
Qed.

(** The buffer that names a data block holds it. *)
Lemma buf_holds blk p es : buf_ok blk (Some (first_block t + Z.of_nat p)%Z) -> blks !! p = Some es -> holds_body blk es.
Proof.
  intros [Hl Hb] Hp. split; [done |]. destruct (Hb _ eq_refl) as (x & Hr & Hx & Hi).
  destruct (to_data _ _ _ _ _ _ _ _ Hon p es Hp) as (Hw & y & Hy & Hi' & Hr').
  assert (y = x) as ->.
  { rewrite Hr in Hr'. injection Hr' as Him. by rewrite <- (image_body x Hx), Him, image_body. }
  symmetry. apply (inflates_eq x); auto. by apply length_data_body.
Qed.

Lemma load_step s p es :
  length (sn_block s) = BLOCK -> blks !! p = Some es ->
  exists blk, sruns (read_verify db (t_id t) (first_block t + Z.of_nat p)) s
      (with_block s blk (Some (first_block t + Z.of_nat p)%Z)) (Ok tt) /\ holds_body blk es /\
    buffered (with_block s blk (Some (first_block t + Z.of_nat p)%Z)).
Proof.
  intros Hl Hp. destruct (data_block_read (sn_block s) p es Hl Hp) as (raw & infl & dec & Hy & Hh & Hb).
  exists (if infl then dec else raw). split_and!; [| done | done].
  unfold read_verify. apply sruns_get_seq. eapply sruns_seq; [apply sruns_lift, Hy |]. apply (sruns_mod (S := Scan)).
Qed.

Lemma ensure_step s p es :
  buffered s -> blks !! p = Some es ->
  exists blk, sruns (ensure_block db (t_id t) (first_block t + Z.of_nat p)) s
      (with_block s blk (Some (first_block t + Z.of_nat p)%Z)) (Ok tt) /\ holds_body blk es /\
    buffered (with_block s blk (Some (first_block t + Z.of_nat p)%Z)).
Proof.
  intros Hb Hp. unfold ensure_block.
  destruct (bool_decide (sn_block_id s = Some (first_block t + Z.of_nat p)%Z)) eqn:Eb.
  - apply bool_decide_eq_true in Eb. exists (sn_block s). rewrite <- Eb, with_block_id. split_and!; [| | done].
    + apply sruns_get_seq. rewrite bool_decide_eq_true_2 by done. apply sruns_ret.
    + unfold buffered in Hb. rewrite Eb in Hb. by eapply buf_holds.
  - destruct (load_step s p es (proj1 Hb) Hp) as (blk & Hrun & Hh & Hbuf). exists blk. split_and!; auto.
    apply sruns_get_seq. rewrite Eb. exact Hrun.
Qed.

(** ** Cursors *)

(** The cursor is in block [p], past the entries [pre] and before [suf]. *)
Record positioned (c : ScanCursor) (p : nat) (es pre suf : list SstEntry) : Prop := {
  ps_id : sc_table_id c = t_id t;
  ps_node : sc_node_id c = node_id t;
  ps_wall : sc_seal_wall c = seal_wall t;
  ps_first : sc_first_block c = first_block t;
  ps_blocks : sc_data_blocks c = Z.of_nat (length blks);
  ps_block : blks !! p = Some es;
  ps_split : es = pre ++ suf;
  ps_idx : sc_block_idx c = Z.of_nat p;
  ps_bid : sc_block_id c = (first_block t + Z.of_nat p)%Z;
  ps_next : sc_next c = payload_len pre;
  ps_end : sc_end c = rstart_of es;
  ps_live : sc_live c = true;
}.

(** Its head is [e], which follows [pre]. *)
Record headed (c : ScanCursor) (pre : list SstEntry) (e : SstEntry) : Prop := {
  hd_off : sc_off c = payload_len pre;
  hd_bytes : sc_head_key c = se_key e;
  hd_len : sc_key_len c = length (se_key e);
  hd_sq : sc_seq c = se_seq e;
  hd_tomb : sc_tombstone c = se_tombstone e;
  hd_vlen : sc_val_len c = length (se_stored e);
  hd_exp : sc_expire_at c = if se_ttl e then se_expire_at e else 0%Z;
}.

(** The cursor stands on [e], and [after] is left of its table. *)
Definition stands_on (c : ScanCursor) (e : SstEntry) (after : list SstEntry) : Prop :=
  exists p es pre suf, positioned c p es (pre ++ [e]) suf /\ headed c pre e /\ after = suf ++ concat (drop (S p) blks).

Definition same_table (c' c : ScanCursor) : Prop :=
  sc_table_id c' = sc_table_id c /\ sc_data_blocks c' = sc_data_blocks c.

Definition put_cursor (i : nat) (c : ScanCursor) (s : Scan) : Scan :=
  with_cursors s (<[i := c]> (cursors s)) (cursor_counts s) (level_base s).

Lemma cursor_at_put i c s : (i < length (cursors s))%nat -> cursor_at KEY_MAX (put_cursor i c s) i = c.
Proof. intros Hi. unfold cursor_at, put_cursor. cbn. by rewrite nth_lookup, list_lookup_insert_eq. Qed.

Lemma put_cursor_twice i c c' s b id :
  put_cursor i c' (with_block (put_cursor i c s) b id) = put_cursor i c' (with_block s b id).
Proof. unfold put_cursor, with_block, with_cursors. cbn. by rewrite list_insert_insert_eq. Qed.

Lemma set_cursor_put i f s : set_cursor KEY_MAX i f s = put_cursor i (f (cursor_at KEY_MAX s i)) s.
Proof. done. Qed.

Lemma parked_stands c p es pre suf e rest :
  positioned c p es pre suf -> block_wf es -> (length (se_key e) <= KEY_MAX)%nat ->
  (exists mid, suf = mid ++ e :: rest) ->
  stands_on (parked KEY_MAX c (head_of e (payload_len es - payload_len rest)) (payload_len es - payload_len (e :: rest)))
    e (rest ++ concat (drop (S p) blks)).
Proof.
  intros [] Hw Hk [mid Hs]. exists p, es, (pre ++ mid), rest.
  assert (es = (pre ++ mid) ++ e :: rest) as Es by (rewrite ps_split0, Hs; by rewrite <- app_assoc).
  assert (payload_len es = payload_len (pre ++ mid) + payload_len (e :: rest))%nat as Hl by (rewrite Es at 1; by rewrite payload_len_app).
  assert (payload_len es = payload_len ((pre ++ mid) ++ [e]) + payload_len rest)%nat as Hl'.
  { rewrite Hl, payload_len_cons, payload_len_snoc. lia. }
  split_and!; [| | done].
  - split; try done; [by rewrite <- app_assoc |]. cbn [parked sc_next head_of pd_next]. lia.
  - split; try done; [cbn [parked sc_off]; lia |]. unfold sc_head_key. cbn [parked sc_key sc_key_len head_of pd_key].
    apply take_splice_front. by rewrite length_replicate.
Qed.

(** Parking: the first entry left that shows, or the end. *)
Lemma park_step floor i : Forall (fun e => (length (se_key e) <= KEY_MAX)%nat) (concat blks) ->
  forall fuel s c p es pre suf,
  positioned c p es pre suf -> cursor_at KEY_MAX s i = c -> (i < length (cursors s))%nat -> buffered s ->
  (length blks <= fuel + p)%nat ->
  exists c' blk id, sruns (park_loop KEY_MAX db fuel i floor) s (put_cursor i c' (with_block s blk id)) (Ok tt) /\
    buffered (with_block s blk id) /\ same_table c' c /\
    match seek_in (shows (sn_max_seq s) floor) (suf ++ concat (drop (S p) blks)) with
    | Some (e, after) => stands_on c' e after
    | None => sc_live c' = false
    end.
Proof.
  intros Hkeys. induction fuel as [|fuel IH]; intros s c p es pre suf Hpos Hc Hi Hbuf Hfuel.
  { pose proof (lookup_lt_Some _ _ _ (ps_block _ _ _ _ _ Hpos)). lia. }
  pose proof (ps_block _ _ _ _ _ Hpos) as Hp. destruct (to_data _ _ _ _ _ _ _ _ Hon p es Hp) as (Hw & _).
  destruct (ensure_step s p es Hbuf Hp) as (blk & Hen & Hh & Hb1). set (s1 := with_block s blk _) in *.
  assert (length suf <= rstart_of es)%nat as Hlen.
  { destruct (rstart_bound HB es Hw) as [Hr _]. pose proof (f_equal payload_len (ps_split _ _ _ _ _ Hpos)) as Hpl.
    rewrite payload_len_app in Hpl. pose proof (length_payload suf). lia. }
  assert (Forall (fun e => (length (se_key e) <= KEY_MAX)%nat) es) as Hkes.
  { rewrite Forall_forall in Hkeys. apply Forall_forall. intros e He. apply Hkeys. apply list_elem_of_In, in_concat.
    exists es. split; apply list_elem_of_In; [by eapply list_elem_of_lookup_2 | done]. }
  rewrite seek_in_app. cbn [park_loop].
  pose proof (park_entries_step (E := E) HB blk es (first_block t + Z.of_nat p) (sn_max_seq s) floor Hw Hh suf pre
    (S (rstart_of es)) (ps_split _ _ _ _ _ Hpos) ltac:(lia)) as Hpark.
  assert (cursor_at KEY_MAX s1 i = c) as Hc1 by done.
  destruct (seek_in (shows (sn_max_seq s) floor) suf) as [[e rest] |] eqn:Esk.
  - destruct (seek_in_split _ _ _ _ Esk) as (mid & Hmid & _ & _).
    assert (length (se_key e) <= KEY_MAX)%nat as Hke.
    { rewrite (ps_split _ _ _ _ _ Hpos), Hmid in Hkes. rewrite !Forall_app, Forall_cons in Hkes. apply Hkes. }
    exists (parked KEY_MAX c (head_of e (payload_len es - payload_len rest)) (payload_len es - payload_len (e :: rest))),
      blk, (Some (first_block t + Z.of_nat p)%Z). split_and!; [| done | done | by eapply parked_stands; eauto].
    apply sruns_get_seq. rewrite Hc, (ps_live _ _ _ _ _ Hpos), (ps_id _ _ _ _ _ Hpos), (ps_bid _ _ _ _ _ Hpos). cbn [negb].
    eapply sruns_seq; [exact Hen |]. apply sruns_get_seq.
    rewrite (ps_next _ _ _ _ _ Hpos), (ps_end _ _ _ _ _ Hpos). change (sn_block s1) with blk. change (sn_max_seq s1) with (sn_max_seq s).
    rewrite Hpark. cbn [head_of pd_key]. rewrite (proj2 (Nat.ltb_ge _ _)) by lia.
    pose proof (sruns_mod (S := Scan) (E := E) dev L (set_cursor KEY_MAX i (fun c => parked KEY_MAX c (head_of e (payload_len es - payload_len rest)) (payload_len es - payload_len (e :: rest)))) s1) as Hm.
    rewrite set_cursor_put, Hc1 in Hm. exact Hm.
  - pose proof (lookup_lt_Some _ _ _ Hp) as Hlt. pose proof (to_end _ _ _ _ _ _ _ _ Hon) as Hend.
    destruct (decide (S p < length blks)%nat) as [Hmore | Hlast].
    2: { exists (exhausted c), blk, (Some (first_block t + Z.of_nat p)%Z). split_and!; [| done | done |].
      - apply sruns_get_seq. rewrite Hc, (ps_live _ _ _ _ _ Hpos), (ps_id _ _ _ _ _ Hpos), (ps_bid _ _ _ _ _ Hpos). cbn [negb].
        eapply sruns_seq; [exact Hen |]. apply sruns_get_seq.
        rewrite (ps_next _ _ _ _ _ Hpos), (ps_end _ _ _ _ _ Hpos). change (sn_block s1) with blk. change (sn_max_seq s1) with (sn_max_seq s).
        rewrite Hpark, (ps_blocks _ _ _ _ _ Hpos), (ps_idx _ _ _ _ _ Hpos). rewrite (proj2 (Z.leb_le _ _)) by lia.
        pose proof (sruns_mod (S := Scan) (E := E) dev L (set_cursor KEY_MAX i exhausted) s1) as Hm. rewrite set_cursor_put, Hc1 in Hm. exact Hm.
      - rewrite (drop_ge blks) by lia. done. }
    destruct (lookup_lt_is_Some_2 blks (S p) Hmore) as [es' Hp'].
    destruct (to_data _ _ _ _ _ _ _ _ Hon (S p) es' Hp') as (Hw' & _). destruct (rstart_bound HB es' Hw') as [_ Hr'].
    destruct (load_step s1 (S p) es' (proj1 Hb1) Hp') as (blk' & Hld & Hh' & Hb2). set (s2 := with_block s1 blk' _) in *.
    set (c2 := at_block (first_block t + Z.of_nat (S p)) (Z.of_nat (S p)) (rstart_of es') c).
    assert (positioned c2 (S p) es' [] es') as Hpos2 by (destruct Hpos; split; done).
    destruct (IH (put_cursor i c2 s2) c2 (S p) es' [] es') as (c' & b' & id' & Hrun & Hbuf' & Hst & Hres); auto; try lia.
    { by apply cursor_at_put. }
    { cbn. by rewrite length_insert. }
    exists c', b', id'. split_and!; [| done | done |].
    + change (with_block s b' id') with (with_block s2 b' id'). rewrite <- (put_cursor_twice i c2).
      apply sruns_get_seq. rewrite Hc, (ps_live _ _ _ _ _ Hpos), (ps_id _ _ _ _ _ Hpos), (ps_bid _ _ _ _ _ Hpos). cbn [negb].
      eapply sruns_seq; [exact Hen |]. apply sruns_get_seq.
      rewrite (ps_next _ _ _ _ _ Hpos), (ps_end _ _ _ _ _ Hpos). change (sn_block s1) with blk. change (sn_max_seq s1) with (sn_max_seq s).
      rewrite Hpark, (ps_blocks _ _ _ _ _ Hpos), (ps_idx _ _ _ _ _ Hpos), (ps_first _ _ _ _ _ Hpos).
      rewrite (proj2 (Z.leb_gt _ _)) by lia. rewrite u64_add_ok by (unfold U64_MAX in *; lia).
      replace (first_block t + (Z.of_nat p + 1))%Z with (first_block t + Z.of_nat (S p))%Z by lia.
      eapply sruns_seq; [exact Hld |]. apply sruns_get_seq. eapply sruns_seq.
      { apply sruns_lift. change (sn_block s2) with blk'. rewrite (held_end (E := E) HB blk' es' _ Hw' Hh'). apply yields_pure. }
      rewrite (proj2 (Nat.eqb_neq _ _)) by lia. apply sruns_mod_seq. rewrite set_cursor_put.
      replace (Z.of_nat p + 1)%Z with (Z.of_nat (S p)) by lia.
      change (cursor_at KEY_MAX s2 i) with (cursor_at KEY_MAX s i). rewrite Hc. exact Hrun.
    + rewrite (drop_S _ _ _ Hp'). cbn [concat]. exact Hres.
Qed.

(** ** Adding a cursor *)

  Context (Hbloom : (BLOOM_BYTES + CRC_LEN <= BLOCK)%nat).
  Context (Hcount : block_count t = Z.of_nat (length blks + length rbs + 3)).
  Context (Hrdel : Manifest.rdel_blocks t = Z.of_nat (length rbs)).
  Context (Hend : (end_block t <= U64_MAX)%Z).

  Abbreviation index_id := (first_block t + Z.of_nat (length blks + length rbs) + 1)%Z.
  Abbreviation footer_id := (first_block t + Z.of_nat (length blks + length rbs) + 2)%Z.

Lemma table_parts : data_blocks t = Some (Z.of_nat (length blks)) /\ footer_block t = Some footer_id.
Proof. apply (section_parts t _ (length rbs)); auto. apply (to_base _ _ _ _ _ _ _ _ Hon). Qed.

(** The footer block, and the index it names. *)
Lemma footer_read :
  exists blk, yields dev L (fetch dev (t_id t) footer_id true) (Ok blk) /\ length blk = BLOCK /\
    check_block_crc (E := E) blk footer_id = Ok tt /\ from_le (sub 0 8 blk) = SSTABLE_MAGIC /\ from_le (sub 8 8 blk) = index_id.
Proof.
  pose proof Hon as [_ _ _ _ _ _ Hf Hk Hb He Hr Hc Hm].
  set (bid := (first_block t + Z.of_nat (length blks + length rbs))%Z) in *.
  pose proof (footer_body_ok BLOOM_BYTES HB Hbloom (bid + 1) bid ec k (Z.of_nat (length rbs)) ms ltac:(lia)) as Hok.
  set (fb := footer_body (bid + 1) bid ec k (Z.of_nat (length rbs)) ms) in *.
  exists (image fb). assert (body_end = BLOCK - 4)%nat as Hbe by done. split_and!.
  - apply yields_fetch_ok; [| exact Hf].
    replace (bid + 2)%Z with (first_block t + Z.of_nat (length blks + length rbs + 2))%Z by (unfold bid; lia). apply HL. lia.
  - apply length_image; [unfold CRC_LEN; lia | done].
  - by rewrite image_checks.
  - rewrite image_sub by (auto; lia). unfold fb, footer_body. erewrite (subs_at _ 0 8) by slices. by vm_compute.
  - rewrite image_sub by (auto; lia). unfold fb, footer_body. erewrite (subs_at _ 8 8) by slices.
    rewrite from_to_le; [done |]. cbn. unfold U64_MAX, bid in *. lia.
Qed.

Lemma read_footer_step s :
  exists blk, sruns (read_footer_index db (t_id t) footer_id) s (with_block s blk (sn_block_id s)) (Ok index_id) /\
    length blk = BLOCK.
Proof.
  destruct footer_read as (blk & Hy & Hl & Hc & Hm & Hi). exists blk. split; [| done].
  unfold read_footer_index. eapply sruns_seq; [apply sruns_lift, Hy |]. apply sruns_mod_seq.
  eapply sruns_seq; [apply sruns_lift; rewrite Hc; apply yields_pure |]. rewrite Hm, Z.eqb_refl, Hi. apply sruns_ret.
Qed.

Lemma index_body_ok : body_ok (index_body (index_entries (first_block t) blks) (body_end - length (index_of (index_entries (first_block t) blks)))).
Proof.
  pose proof (to_index_len _ _ _ _ _ _ _ _ Hon) as Hil. unfold index_body. split; [rewrite length_app, length_replicate; lia |].
  apply bytes_ok_app. split; [| auto with horton]. apply index_of_bytes, Hon.
Qed.

Lemma index_read :
  exists blk, yields dev L (fetch dev (t_id t) index_id true) (Ok blk) /\ length blk = BLOCK /\ check_block_crc (E := E) blk index_id = Ok tt /\
    take (BLOCK - CRC_LEN) blk = index_body (index_entries (first_block t) blks) (body_end - length (index_of (index_entries (first_block t) blks))).
Proof.
  pose proof index_body_ok as Hok. eexists. split_and!; [| | | by apply image_body, Hok].
  - apply yields_fetch_ok; [| apply Hon].
    replace index_id with (first_block t + Z.of_nat (length blks + length rbs + 1))%Z by lia. apply HL. lia.
  - apply length_image; [unfold CRC_LEN; lia | exact Hok].
  - by rewrite image_checks.
Qed.

Lemma read_index_step s :
  exists blk, sruns (read_verify_index db (t_id t) index_id) s (with_block s blk (Some index_id)) (Ok tt) /\ length blk = BLOCK /\
    take (BLOCK - CRC_LEN) blk = index_body (index_entries (first_block t) blks) (body_end - length (index_of (index_entries (first_block t) blks))).
Proof.
  destruct index_read as (blk & Hy & Hl & Hc & Ht). exists blk. split_and!; [| done | done].
  unfold read_verify_index. eapply sruns_seq; [apply sruns_lift, Hy |]. apply sruns_mod_seq.
  eapply sruns_seq; [apply sruns_lift; rewrite Hc; apply yields_pure |].
  pose proof (sruns_mod (S := Scan) (E := E) dev L) as Hm. eapply Hm.
Qed.

(** Entries of blocks before the one the index names are below the start. *)
Lemma seek_from_block mx start p es :
  key_ordered (concat blks) -> blks !! p = Some es -> es <> [] -> p = 0%nat \/ bytes_lt (first_key_of es) start ->
  seek_in (shows mx (Some start)) (concat blks) = seek_in (shows mx (Some start)) (es ++ concat (drop (S p) blks)).
Proof.
  intros Hso Hp Hne Hlt. assert (concat blks = concat (take p blks) ++ es ++ concat (drop (S p) blks)) as Ec.
  { rewrite <- (take_drop_middle blks p es Hp) at 1. by rewrite concat_app. }
  rewrite Ec, seek_in_app. destruct (seek_in (shows mx (Some start)) (concat (take p blks))) as [[e r] |] eqn:Es; [| done]. exfalso.
  apply seek_in_split in Es as (pre & Et & Hs & _). destruct Hlt as [-> | Hlt]; [rewrite take_0 in Et; by destruct pre |].
  rewrite Ec in Hso. apply key_ordered_app in Hso as (_ & _ & Hcr). destruct es as [|e0 es]; [done |]. cbn [first_key_of] in Hlt.
  assert (bytes_le (se_key e) (se_key e0)) as Hle by (apply Hcr; [rewrite Et; apply elem_of_app; right; left | left]).
  unfold shows in Hs. apply andb_true_iff in Hs as [_ Hs]. apply bytes_leb_spec in Hs.
  pose proof (bytes_le_lt_trans _ _ _ Hle Hlt) as Hx. apply (bytes_lt_le_trans _ _ _ Hx) in Hs. exact (irreflexivity bytes_lt _ Hs).
Qed.

(** The block the index sends the seek to. *)
Lemma index_step (s : Scan) start blk :
  key_ordered (concat blks) -> blks <> [] ->
  take (BLOCK - CRC_LEN) blk = index_body (index_entries (first_block t) blks) (body_end - length (index_of (index_entries (first_block t) blks))) ->
  exists p es data_id, blks !! p = Some es /\ (p = 0%nat \/ bytes_lt (first_key_of es) start) /\
    sruns (slift (pure (index_lookup (E := E) (take (BLOCK - CRC_LEN) blk) start index_id))) s s (Ok data_id) /\
    (data_id = None /\ p = 0%nat \/ exists n, data_id = Some ((first_block t + Z.of_nat p)%Z, n)).
Proof.
  intros Hso Hne ->. destruct (index_finds BLOOM_BYTES HB Hbloom dev (first_block t) blks rbs k ec ms start index_id Hon Hso Hne)
    as (p & es & did & Hp & Hst & Hf & Hdid).
  exists p, es, did. split_and!; auto. rewrite Hf. apply sruns_lift, yields_pure.
Qed.

(** The scan with cursor [c] new at level [li]. *)
Definition add_to (li : nat) (c : ScanCursor) (s : Scan) : Scan :=
  with_cursors s (<[pool_idx s li (nth li (cursor_counts s) 0%nat) := c]> (cursors s))
    (<[li := (nth li (cursor_counts s) 0 + 1)%nat]> (cursor_counts s)) (level_base s).

Lemma add_to_twice li c c' s blk id i :
  i = pool_idx s li (nth li (cursor_counts s) 0%nat) ->
  put_cursor i c' (with_block (add_to li c s) blk id) = add_to li c' (with_block s blk id).
Proof. intros ->. unfold put_cursor, add_to, with_block, with_cursors, pool_idx. cbn. by rewrite list_insert_insert_eq. Qed.

Lemma place_step s li start p es :
  key_ordered (concat blks) -> Forall (fun e => (length (se_key e) <= KEY_MAX)%nat) (concat blks) ->
  (pool_idx s li (nth li (cursor_counts s) 0%nat) < length (cursors s))%nat ->
  buffered s -> holds_body (sn_block s) es -> blks !! p = Some es -> p = 0%nat \/ bytes_lt (first_key_of es) start ->
  exists c blk id, sruns (place_cursor KEY_MAX db t li start (first_block t) (Z.of_nat (length blks)) (Z.of_nat p)
      (first_block t + Z.of_nat p)) s (add_to li c (with_block s blk id)) (Ok tt) /\
    buffered (with_block s blk id) /\ sc_data_blocks c = Z.of_nat (length blks) /\
    match seek_in (shows (sn_max_seq s) (Some start)) (concat blks) with
    | Some (e, after) => stands_on c e after
    | None => sc_live c = false
    end.
Proof.
  intros Hso Hkeys Hi Hbuf Hh Hp Hst. destruct (to_data _ _ _ _ _ _ _ _ Hon p es Hp) as (Hw & _).
  destruct (rstart_bound HB es Hw) as [_ Hr]. pose proof (lookup_lt_Some _ _ _ Hp) as Hlt.
  set (c0 := fresh_cursor KEY_MAX t (first_block t) (Z.of_nat (length blks)) (Z.of_nat p) (first_block t + Z.of_nat p) (rstart_of es)).
  assert (positioned c0 p es [] es) as Hpos by (split; done). set (i := pool_idx s li _) in *.
  assert (cursor_at KEY_MAX (add_to li c0 s) i = c0) as Hc
    by (unfold cursor_at, add_to; cbn; rewrite nth_lookup, list_lookup_insert_eq; done).
  destruct (park_step (Some start) i Hkeys (S (length blks)) (add_to li c0 s) c0 p es [] es) as (c & blk & id & Hrun & Hb & [_ Hdb] & Hres);
    auto; [cbn; by rewrite length_insert | lia |].
  exists c, blk, id. split_and!; [| done | by rewrite Hdb |].
  - unfold place_cursor. apply sruns_get_seq. eapply sruns_seq.
    { apply sruns_lift. rewrite (held_end (E := E) HB (sn_block s) es _ Hw Hh). apply yields_pure. }
    rewrite (proj2 (Nat.eqb_neq _ _)), (proj2 (Nat.leb_gt _ _)) by lia. apply sruns_mod_seq. fold c0.
    change (with_cursors s _ _ _) with (add_to li c0 s). unfold park_cursor. apply sruns_get_seq.
    change (pool_idx (add_to li c0 s) li _) with i. rewrite Hc, <- (add_to_twice li c0 c s blk id i) by done.
    change (sc_data_blocks c0) with (Z.of_nat (length blks)). rewrite Nat2Z.id. exact Hrun.
  - rewrite (seek_from_block _ start p es Hso Hp (bw_nonempty _ Hw) Hst). exact Hres.
Qed.

Lemma add_step s li start :
  key_ordered (concat blks) -> Forall (fun e => (length (se_key e) <= KEY_MAX)%nat) (concat blks) -> blks <> [] ->
  (pool_idx s li (nth li (cursor_counts s) 0%nat) < length (cursors s))%nat -> buffered s ->
  exists c blk id, sruns (add_cursor KEY_MAX db t li start) s (add_to li c (with_block s blk id)) (Ok tt) /\
    buffered (with_block s blk id) /\ sc_data_blocks c = Z.of_nat (length blks) /\
    match seek_in (shows (sn_max_seq s) (Some start)) (concat blks) with
    | Some (e, after) => stands_on c e after
    | None => sc_live c = false
    end.
Proof.
  intros Hso Hkeys Hne Hi Hbuf. destruct table_parts as [Hdb Hfb].
  destruct (read_footer_step s) as (b1 & Hr1 & Hl1).
  set (s1 := with_block (with_block s b1 (sn_block_id s)) b1 (Some footer_id)).
  destruct (read_index_step s1) as (b2 & Hr2 & Hl2 & Ht2). set (s2 := with_block s1 b2 (Some index_id)) in *.
  destruct (index_step s2 start b2 Hso Hne Ht2) as (p & es & did & Hp & Hst & Hlk & Hdid).
  pose proof (lookup_lt_Some _ _ _ Hp) as Hlt. pose proof (to_base _ _ _ _ _ _ _ _ Hon). pose proof (to_end _ _ _ _ _ _ _ _ Hon).
  destruct (load_step s2 p es Hl2 Hp) as (b3 & Hr3 & Hh3 & Hb3). set (s3 := with_block s2 b3 _) in *.
  destruct (place_step s3 li start p es Hso Hkeys Hi Hb3 Hh3 Hp Hst) as (c & blk & id & Hr4 & Hb4 & Hc & Hres).
  exists c, blk, id. split_and!; [| done | done | done].
  unfold add_cursor. rewrite Hdb, Hfb. rewrite (proj2 (Z.eqb_neq _ _)) by (destruct blks; [done | cbn; lia]).
  eapply sruns_seq; [exact Hr1 |]. apply sruns_mod_seq. eapply sruns_seq; [exact Hr2 |].
  apply sruns_get_seq. change (sn_block s2) with b2. eapply sruns_seq; [exact Hlk |]. unfold data_first.
  apply (sruns_seq _ _ _ _ s2 s2 _ (Z.of_nat p)).
  { destruct Hdid as [[-> ->] | [n ->]]; [apply sruns_ret |]. rewrite u64_sub_ok by lia.
    replace (first_block t + Z.of_nat p - first_block t)%Z with (Z.of_nat p) by lia. apply sruns_ret. }
  rewrite (proj2 (Z.leb_gt _ _)), u64_add_ok by lia. eapply sruns_seq; [exact Hr3 | exact Hr4].
Qed.

Lemma add_none s li start : blks = [] -> sruns (add_cursor KEY_MAX db t li start) s s (Ok tt).
Proof. intros E0. destruct table_parts as [Hdb _]. unfold add_cursor. rewrite Hdb, E0. apply sruns_ret. Qed.
End table.
End parking.
