(* ===== verification/ScanMerge.v ===== *)
(** * The merge of a forward scan: [src/scan.rs]

    What a scan still has ahead of it, source by source, and what one [next] makes of it. *)

From stdpp Require Import base numbers list sets.
From Stdlib Require Import ZArith Lia Sorting.Sorted.
From S2P Require Import Prelude Device Compress Version Slots Cache Memtable Wal Manifest ManifestPool SstPlan SstWriter SstReader SstBlock SstImage SstIndex SstRdel SstTable SstBuild Db DbRead Scan ScanPark.

(** ** Lists passed from the front *)

Fixpoint pass {A} (f : A -> bool) (l : list A) : list A :=
  match l with
  | [] => []
  | x :: l' => if f x then pass f l' else l
  end.

Lemma pass_map {A B} (g : A -> B) (f : B -> bool) l : pass f (map g l) = map g (pass (fun x => f (g x)) l).
Proof. induction l as [|x l IH]; [done |]. cbn. by destruct (f (g x)). Qed.

Lemma length_pass {A} (f : A -> bool) l : (length (pass f l) <= length l)%nat.
Proof. induction l as [|x l IH]; [done |]. cbn. destruct (f x); cbn; lia. Qed.

Lemma sum_take_le (l : list nat) a : (sum_list_with id (take a l) <= sum_list_with id l)%nat.
Proof. revert a. induction l as [|x l IH]; intros [|a]; cbn; try lia. specialize (IH a). lia. Qed.

(** The walk over the level counts. *)
Lemma pos_loop_spec counts : forall x li, (x < sum_list_with id counts)%nat ->
  exists a, pos_loop counts x li = (li + a, x - sum_list_with id (take a counts))%nat /\ (a < length counts)%nat /\
    (sum_list_with id (take a counts) <= x)%nat.
Proof.
  induction counts as [|n counts IH]; intros x li; cbn [sum_list_with pos_loop]; [lia |]. change (id n) with n. intros Hx.
  destruct (n <=? x)%nat eqn:En; bool_lia.
  - destruct (IH (x - n)%nat (li + 1)%nat) as (a & -> & Ha & Hs); [lia |]. exists (S a).
    cbn [take length sum_list_with]. change (id n) with n. split_and!; [f_equal; lia | lia | lia].
  - exists 0%nat. cbn. split_and!; [f_equal; lia | lia | lia].
Qed.

Lemma splice_full (v : bytes) : splice 0 v (replicate (length v) 0%Z) = v.
Proof. unfold splice. cbn. rewrite drop_ge, app_nil_r by (rewrite length_replicate; lia). done. Qed.

(** ** The newest of the heads on a key *)

Section picking.
  Context (hd : nat -> option Head) (ver : nat -> Version) (k : bytes).

Definition pick_step (w : Winner) (src : nat) : Winner :=
  match hd src with
  | None => w
  | Some h =>
      if negb (bytes_eqb (hd_key h) k) then w
      else if version_gt (ver src) (w_ver w)
      then mkWinner src (ver src) (hd_tombstone h) (length (hd_key h)) (hd_val_len h) (hd_expire_at h) else w
  end.

Definition picked (src : nat) (h : Head) : Winner :=
  mkWinner src (ver src) (hd_tombstone h) (length (hd_key h)) (hd_val_len h) (hd_expire_at h).

Lemma pick_fold (V : Version -> Prop) l : orderly V ->
  (forall src h, src ∈ l -> hd src = Some h -> hd_key h = k -> V (ver src)) ->
  forall w, w_ver w = ZERO \/ V (w_ver w) ->
  let w' := fold_left pick_step l w in
  (w' = w \/ exists src h, src ∈ l /\ hd src = Some h /\ hd_key h = k /\ w' = picked src h) /\
  (forall v, V v -> version_gt v (w_ver w) = false -> version_gt v (w_ver w') = false) /\
  (forall src h, src ∈ l -> hd src = Some h -> hd_key h = k -> version_gt (ver src) (w_ver w') = false).
Proof.
  intros Ho. induction l as [|a l IH]; intros HV w Hw; cbv zeta; cbn [fold_left].
  { split_and!; [by left | done | by intros ? ? ?%not_elem_of_nil]. }
  assert (forall src h, src ∈ l -> hd src = Some h -> hd_key h = k -> V (ver src)) as HV'
    by (intros; eapply HV; eauto; by right).
  set (w1 := pick_step w a).
  assert ((w1 = w \/ exists h, hd a = Some h /\ hd_key h = k /\ w1 = picked a h) /\
          (w_ver w1 = ZERO \/ V (w_ver w1)) /\
          (forall v, V v -> version_gt v (w_ver w) = false -> version_gt v (w_ver w1) = false) /\
          (forall h, hd a = Some h -> hd_key h = k -> version_gt (ver a) (w_ver w1) = false))
    as (H1 & H2 & H3 & H4).
  { unfold w1, pick_step. destruct (hd a) as [h |] eqn:Eh; [| split_and!; auto; done].
    destruct (bytes_eqb (hd_key h) k) eqn:Ek; cbn [negb].
    - apply bytes_eqb_spec in Ek. pose proof (HV a h ltac:(left) Eh Ek) as Hva.
      destruct (version_gt (ver a) (w_ver w)) eqn:Eg.
      + split_and!; [right; eauto | by right | |].
        * intros v Hv Hng. by apply (not_gt_step V v (w_ver w)).
        * intros h' _ _. cbn. by apply version_gt_irrefl.
      + split_and!; [by left | done | done | by intros].
    - split_and!; [by left | done | done |]. intros h' [= <-] Eq. apply bytes_eqb_spec in Eq. congruence. }
  destruct (IH HV' w1 H2) as (I1 & I2 & I3). split_and!.
  - destruct I1 as [-> | (src & h & ? & ? & ? & ?)].
    + destruct H1 as [-> | (h & ? & ? & ?)]; [by left |]. right. exists a, h. split_and!; auto. left.
    + right. exists src, h. split_and!; auto. by right.
  - auto.
  - intros src h [-> | Hin]%elem_of_cons Hh Hk; [| by eapply I3]. apply I2; [by eapply HV; eauto; left | by eapply H4].
Qed.
End picking.

Section merge.
  Context {D E : Type} `{Laws : DeviceLaws D E}.
  Context (KEY_MAX VAL_MAX LEVELS TABLES CAP ARENA BLOOM_BYTES : nat).
  Context (HB : (49 <= BLOCK)%nat) (Hbloom : (BLOOM_BYTES + CRC_LEN <= BLOCK)%nat).
  Context (db : Db D) (L : u32 -> u64 -> Prop) (contents : TableRef -> Contents).

  Abbreviation dev := (device (db_wal db)).
  Abbreviation sruns := (sruns dev L).
  Abbreviation mem := (iter (db_table db)).

(** What a scan asks of the handle beyond what a read does: versions the merge rule ranks,
    keys within the key buffers, and tables with no entry above their last key.  Entries
    below a table's first key may be there: a narrowed table's dead ones. *)
Record scannable : Prop := {
  sb_read : readable VAL_MAX KEY_MAX LEVELS TABLES CAP ARENA BLOOM_BYTES db L contents;
  sb_seqs : Forall (fun e => (0 < Memtable.seq e)%Z) mem;
  sb_keys : Forall (fun e => (length (Memtable.key e) <= KEY_MAX)%nat) mem;
  sb_order : forall k mx, orderly (db_versions db contents k mx);
  sb_span : forall t e, t ∈ tables (db_manifest db) -> e ∈ (contents t).1 ->
    bytes_le (se_key e) (as_slice (Manifest.last_key t)) /\ (length (se_key e) <= KEY_MAX)%nat;
}.

  Context (Hsb : scannable).

(** ** The memtable's side *)

Definition mem_vis (mx : u64) (e : Entry) : bool := (Memtable.seq e <=? mx)%Z && negb (range_del e).

(** What is left of the memtable. *)
Definition mem_rest (s : Scan) : list Entry := List.filter (mem_vis (sn_max_seq s)) (drop (mem_idx s) mem).

Record mem_on (s : Scan) (e : Entry) : Prop := {
  mo_at : mem !! mem_idx s = Some e;
  mo_vis : mem_vis (sn_max_seq s) e = true;
  mo_key : take (mem_key_len s) (mem_key s) = Memtable.key e;
  mo_klen : mem_key_len s = length (Memtable.key e);
  mo_val : take (mem_val_len s) (mem_val s) = val e;
  mo_vlen : mem_val_len s = length (val e);
  mo_seq : mem_seq s = Memtable.seq e;
  mo_tomb : mem_tombstone s = tombstone e;
  mo_exp : mem_expire_at s = expire_at e;
}.

(** The head fields are the first entry left. *)
Definition mem_stands (s : Scan) : Prop :=
  length (mem_key s) = KEY_MAX /\ length (mem_val s) = VAL_MAX /\
  if mem_live s then exists e, mem_on s e else mem_rest s = [].

(** What every step of the merge keeps. *)
Record kept (s s' : Scan) : Prop := {
  kp_mx : sn_max_seq s' = sn_max_seq s;
  kp_now : sn_now s' = sn_now s;
  kp_has : sn_has_end s' = sn_has_end s;
  kp_end : end_bound s' = end_bound s;
  kp_counts : cursor_counts s' = cursor_counts s;
  kp_base : level_base s' = level_base s;
}.

#[local] Instance kept_preorder : PreOrder kept.
Proof. split; [intros s; by split | intros a b c [] []; split; congruence]. Qed.

Lemma mem_len : length mem = len (db_table db).
Proof.
  unfold iter. rewrite length_map. unfold live_slots. rewrite length_take.
  pose proof (rb_mem _ _ _ _ _ _ _ _ _ _ (sb_read Hsb)) as Hw. pose proof (wf_cap _ _ _ Hw). pose proof (wf_len _ _ _ Hw). lia.
Qed.

Lemma mem_view i : slot_view (db_table db) i = mem !! i.
Proof. unfold slot_view, iter. by rewrite <- list_lookup_fmap. Qed.

Lemma mem_loop_step n : forall s, (n = length mem - mem_idx s)%nat ->
  length (mem_key s) = KEY_MAX -> length (mem_val s) = VAL_MAX -> mem_live s = false ->
  exists s', mem_loop KEY_MAX VAL_MAX db n s = Some s' /\ mem_stands s' /\ mem_rest s' = mem_rest s /\ kept s s' /\
    cursors s' = cursors s /\ sn_block s' = sn_block s /\ sn_block_id s' = sn_block_id s.
Proof.
  induction n as [|n IH]; intros s Hn Hk Hv Hl; cbn [mem_loop].
  - exists s. split_and!; try done. unfold mem_stands. rewrite Hl. split_and!; auto.
    unfold mem_rest. by rewrite drop_ge by lia.
  - rewrite mem_view. destruct (lookup_lt_is_Some_2 mem (mem_idx s)) as [e He]; [lia |]. rewrite He.
    fold (mem_vis (sn_max_seq s) e). destruct (mem_vis (sn_max_seq s) e) eqn:Ev.
    + pose proof (list_elem_of_lookup_2 _ _ _ He) as Hin.
      pose proof (sb_keys Hsb) as Hks. pose proof (rb_vals _ _ _ _ _ _ _ _ _ _ (sb_read Hsb)) as Hvs. unfold mem_ok in Hvs.
      rewrite Forall_forall in Hks, Hvs. specialize (Hks e Hin). apply andb_true_iff in Ev as Ev'. destruct Ev' as [_ Hrd%negb_true_iff].
      specialize (Hvs e Hin Hrd). rewrite !(proj2 (Nat.ltb_ge _ _)) by lia. cbn [orb].
      eexists. split; [reflexivity |]. split_and!; try done.
      split_and!; [cbn; rewrite length_splice; lia | cbn; rewrite length_splice; lia |]. cbn [mem_live mem_head]. exists e.
      split; try done; cbn; apply take_splice_front; lia.
    + destruct (IH (with_mem s (mem_idx s + 1) (mem_live s))) as (s' & Es & Hst & Hr & Hkp & ?); auto; [cbn; lia |].
      exists s'. split_and!; try tauto; [| by destruct Hkp; split]. rewrite Hr. unfold mem_rest. cbn [mem_idx with_mem sn_max_seq].
      rewrite (drop_S _ _ _ He). cbn [List.filter]. rewrite Ev. f_equal. f_equal. lia.
Qed.

(** The memtable head moves to the next visible entry. *)
Lemma advance_mem_step s :
  length (mem_key s) = KEY_MAX -> length (mem_val s) = VAL_MAX ->
  exists s', sruns (advance_mem (E := E) KEY_MAX VAL_MAX db) s s' (Ok tt) /\ mem_stands s' /\ mem_rest s' = mem_rest s /\
    kept s s' /\ cursors s' = cursors s /\ sn_block s' = sn_block s /\ sn_block_id s' = sn_block_id s.
Proof.
  intros Hk Hv. destruct (mem_loop_step (len (db_table db) - mem_idx s) (with_mem s (mem_idx s) false)) as (s' & Es & Hst & Hr & Hkp & Hrest);
    auto; [cbn; by rewrite mem_len |].
  exists s'. split_and!; try tauto; [| by destruct Hkp; split].
  intros c Hc. exists c. unfold advance_mem. cbn [mem_idx with_mem]. rewrite Es. split_and!; auto. apply grows_refl.
Qed.

Lemma mem_rest_head s e : mem_on s e ->
  mem_rest s = e :: List.filter (mem_vis (sn_max_seq s)) (drop (mem_idx s + 1) mem).
Proof.
  intros Ho. unfold mem_rest. rewrite (drop_S _ _ _ (mo_at _ _ Ho)). cbn [List.filter]. rewrite (mo_vis _ _ Ho).
  do 3 f_equal. lia.
Qed.

(** ** The tables' side *)

(** The table's blocks on the device. *)
Definition table_blocks (t : TableRef) (blks : list (list SstEntry)) : Prop :=
  exists rbs k ec ms, concat blks = (contents t).1 /\ table_on BLOOM_BYTES dev (first_block t) blks rbs k ec ms /\
    block_count t = Z.of_nat (length blks + length rbs + 3) /\ Manifest.rdel_blocks t = Z.of_nat (length rbs) /\
    forall i, (i < length blks + length rbs + 3)%nat -> L (t_id t) (first_block t + Z.of_nat i)%Z.

(** The cursor's table has [es] left, the head first. *)
Definition curs_rem (mx : u64) (c : ScanCursor) (t : TableRef) (es : list SstEntry) : Prop :=
  t ∈ tables (db_manifest db) /\
  match es with
  | [] => sc_live c = false
  | e :: r => exists blks after, table_blocks t blks /\ stands_on t blks c e after /\ r = List.filter (shows mx None) after
  end.

Record standing (s : Scan) (rs : list (TableRef * list SstEntry)) : Prop := {
  st_buf : buffered db s;
  st_mem : mem_stands s;
  st_counts : length (cursor_counts s) = LEVELS;
  st_base : forall li, (li < LEVELS)%nat -> nth li (level_base s) 0%nat = sum_list_with id (take li (cursor_counts s));
  st_total : sum_list_with id (cursor_counts s) = length rs;
  st_pool : (length rs <= length (cursors s))%nat;
  st_cur : forall j t es, rs !! j = Some (t, es) -> curs_rem (sn_max_seq s) (cursor_at KEY_MAX s j) t es;
}.

Lemma table_has_blocks t : t ∈ tables (db_manifest db) -> exists blks, table_blocks t blks.
Proof.
  intros Ht. pose proof (rb_tables _ _ _ _ _ _ _ _ _ _ (sb_read Hsb) t Ht) as Hk.
  destruct (tk_on _ _ _ _ _ _ Hk) as (blks & rbs & k & ec & ms & Eb & Er & Hon & Ec & Erd). exists blks, rbs, k, ec, ms.
  split_and!; auto. intros i Hi. apply (tk_live _ _ _ _ _ _ Hk). lia.
Qed.

Lemma block_keys t blks : t ∈ tables (db_manifest db) -> table_blocks t blks ->
  Forall (fun e => (length (se_key e) <= KEY_MAX)%nat) (concat blks).
Proof.
  intros Ht (rbs & k & ec & ms & -> & _). apply Forall_forall. intros e He. by apply (sb_span Hsb t).
Qed.

(** Source [src] is pool slot [src - 1]. *)
Lemma src_slot s rs src : standing s rs -> (0 < src <= length rs)%nat ->
  exists li ti, cursor_pos LEVELS s src = (li, ti) /\ pool_idx s li ti = (src - 1)%nat.
Proof.
  intros Hst Hs. unfold cursor_pos. rewrite take_ge by (rewrite (st_counts _ _ Hst); lia).
  destruct (pos_loop_spec (cursor_counts s) (src - 1) 0) as (a & -> & Ha & Hle); [rewrite (st_total _ _ Hst); lia |].
  eexists _, _. split; [reflexivity |]. unfold pool_idx. cbn [Nat.add].
  rewrite (st_base _ _ Hst) by (rewrite (st_counts _ _ Hst) in Ha; lia). lia.
Qed.

(** The memtable's side reads the memtable's fields. *)
Lemma mem_stands_put s j c blk id : mem_stands s -> mem_stands (put_cursor j c (with_block s blk id)).
Proof.
  intros (? & ? & Hm). split_and!; auto. cbn [mem_live put_cursor with_cursors with_block]. destruct (mem_live s); [| done].
  destruct Hm as [e []]. exists e. by split.
Qed.

Lemma standing_put s rs j t es0 es c blk id :
  standing s rs -> rs !! j = Some (t, es0) -> buffered db (with_block s blk id) -> curs_rem (sn_max_seq s) c t es ->
  standing (put_cursor j c (with_block s blk id)) (<[j := (t, es)]> rs).
Proof.
  intros [] Hj Hb Hc. pose proof (lookup_lt_Some _ _ _ Hj). split; try done.
  - by apply mem_stands_put.
  - cbn. by rewrite length_insert.
  - cbn. by rewrite !length_insert.
  - intros i t' es' Hi. destruct (decide (j = i)) as [<- | Hne].
    + rewrite list_lookup_insert_eq in Hi by done. injection Hi as <- <-. rewrite cursor_at_put by (cbn; lia). done.
    + rewrite list_lookup_insert_ne in Hi by done. unfold cursor_at, put_cursor. cbn.
      rewrite nth_lookup, list_lookup_insert_ne, <- nth_lookup by done. by apply st_cur0.
Qed.

(** A table holds no more entries than its blocks have bytes. *)
Lemma entries_bound t blks : table_blocks t blks -> (length (concat blks) <= length blks * BLOCK)%nat.
Proof. intros (rbs & k & ec & ms & _ & Hon & _). by eapply on_entries_bound. Qed.

Lemma stands_bound mx t blks c e after : table_blocks t blks -> stands_on t blks c e after ->
  (length (e :: List.filter (shows mx None) after) <= cursor_bound c)%nat.
Proof.
  intros Htb (p & es & pre & suf & Hpos & _ & ->). unfold cursor_bound. rewrite (ps_blocks _ _ _ _ _ _ _ Hpos), Nat2Z.id.
  pose proof (entries_bound t blks Htb). pose proof (ps_block _ _ _ _ _ _ _ Hpos) as Hp.
  assert (length (concat blks) = length (concat (take p blks)) + (length es + length (concat (drop (S p) blks))))%nat as Hl.
  { rewrite <- (take_drop_middle blks p es Hp) at 1. rewrite concat_app. cbn [concat]. by rewrite !length_app. }
  pose proof (f_equal length (ps_split _ _ _ _ _ _ _ Hpos)) as Hes. rewrite !length_app in Hes. cbn [length] in *.
  pose proof (filter_length (shows mx None) (suf ++ concat (drop (S p) blks))) as Hfl. rewrite length_app in Hfl. lia.
Qed.

(** Parking source [j] past its head. *)
Lemma park_source s rs j t e r li ti :
  standing s rs -> rs !! j = Some (t, e :: r) -> pool_idx s li ti = j ->
  exists s', sruns (park_cursor KEY_MAX db li ti None) s s' (Ok tt) /\ standing s' (<[j := (t, r)]> rs) /\
    kept s s' /\ mem_rest s' = mem_rest s.
Proof.
  intros Hst Hj Hpool. pose proof (lookup_lt_Some _ _ _ Hj) as Hlt. pose proof (st_pool _ _ Hst) as Hp.
  destruct (st_cur _ _ Hst _ _ _ Hj) as (Ht & blks & after & Htb & Hon & Er).
  pose proof (block_keys t blks Ht Htb) as Hkeys. destruct Hon as (p & es & pre & suf & Hpos & Hhd & ->).
  assert (exists rbs k ec ms, table_on BLOOM_BYTES dev (first_block t) blks rbs k ec ms /\
    forall i, (i < length blks + length rbs + 3)%nat -> L (t_id t) (first_block t + Z.of_nat i)%Z) as (rbs & k & ec & ms & Hto & HL)
    by (destruct Htb as (rbs & k & ec & ms & _ & ? & _ & _ & ?); eauto 10).
  destruct (park_step HB KEY_MAX BLOOM_BYTES db L t blks rbs k ec ms Hto HL None j Hkeys (S (length blks)) s
    (cursor_at KEY_MAX s j) p es (pre ++ [e]) suf Hpos eq_refl ltac:(lia) (st_buf _ _ Hst) ltac:(lia))
    as (c' & blk & id & Hrun & Hb & [Hid Hdb] & Hres).
  exists (put_cursor j c' (with_block s blk id)). split_and!; [| | by split | done].
  - unfold park_cursor. apply sruns_get_seq. rewrite Hpool, (ps_blocks _ _ _ _ _ _ _ Hpos), Nat2Z.id. exact Hrun.
  - apply (standing_put s rs j t (e :: r)); auto. split; [done |].
    rewrite (seek_in_filter (shows (sn_max_seq s) None)) in Er. destruct (seek_in _ _) as [[x after] |].
    + rewrite Er. exists blks, after. done.
    + by rewrite Er.
Qed.

(** ** Advancing past a key *)

Lemma standing_mem s s' rs :
  standing s rs -> mem_stands s' -> kept s s' -> cursors s' = cursors s -> sn_block s' = sn_block s ->
  sn_block_id s' = sn_block_id s -> standing s' rs.
Proof.
  intros [] Hm [] Hcs Hb Hid. split; auto.
  - unfold buffered. by rewrite Hb, Hid.
  - congruence.
  - intros li Hli. rewrite kp_base0, kp_counts0. auto.
  - congruence.
  - by rewrite Hcs.
  - intros j t es Hj. unfold cursor_at. rewrite Hcs, kp_mx0. by apply st_cur0.
Qed.

Abbreviation ekey_is k := (fun e => bytes_eqb (Memtable.key e) k).
Abbreviation skey_is k := (fun e => bytes_eqb (se_key e) k).

Lemma mem_past_step k rs : forall fuel s, standing s rs -> (length (mem_rest s) < fuel)%nat ->
  exists s', sruns (mem_past (E := E) KEY_MAX VAL_MAX db fuel k) s s' (Ok tt) /\ standing s' rs /\ kept s s' /\
    mem_rest s' = pass (ekey_is k) (mem_rest s).
Proof.
  induction fuel as [|fuel IH]; intros s Hst Hf; [lia |]. cbn [mem_past].
  pose proof (st_mem _ _ Hst) as (Hk & Hv & Hm). destruct (mem_live s) eqn:El.
  - destruct Hm as [e Ho]. pose proof (mem_rest_head s e Ho) as Hrest. rewrite Hrest in *. cbn [pass length] in *.
    destruct (bytes_eqb (Memtable.key e) k) eqn:Ek.
    + destruct (advance_mem_step (with_mem s (mem_idx s + 1) (mem_live s))) as (s1 & Hrun & Hms & Hr1 & Hkp & Hc & Hb & Hid); auto.
      assert (kept s s1) as Hkp1 by (destruct Hkp; by split). assert (standing s1 rs) as Hst1 by (eapply standing_mem; eauto).
      change (mem_rest (with_mem s (mem_idx s + 1) (mem_live s)))
        with (List.filter (mem_vis (sn_max_seq s)) (drop (mem_idx s + 1) mem)) in Hr1.
      destruct (IH s1 Hst1) as (s' & Hrun' & Hst' & Hkp' & Hr'); [rewrite Hr1; lia |].
      exists s'. split_and!; [| done | by etrans | by rewrite Hr', Hr1].
      apply sruns_get_seq. rewrite El, (mo_key _ _ Ho), Ek. cbn [andb]. apply sruns_mod_seq. by eapply sruns_seq.
    + exists s. split_and!; [| done | done | done]. apply sruns_get_seq. rewrite El, (mo_key _ _ Ho), Ek. apply sruns_ret.
  - exists s. split_and!; [| done | done | by rewrite Hm]. apply sruns_get_seq. rewrite El. apply sruns_ret.
Qed.

Lemma cursor_past_step k j t li ti : forall fuel s rs es, standing s rs -> rs !! j = Some (t, es) -> pool_idx s li ti = j ->
  (length es < fuel)%nat ->
  exists s', sruns (cursor_past KEY_MAX db fuel li ti k) s s' (Ok tt) /\ standing s' (<[j := (t, pass (skey_is k) es)]> rs) /\
    kept s s' /\ mem_rest s' = mem_rest s.
Proof.
  induction fuel as [|fuel IH]; intros s rs es Hst Hj Hpool Hf; [lia |]. cbn [cursor_past].
  pose proof (st_cur _ _ Hst _ _ _ Hj) as [Ht Hc]. destruct es as [|e r]; cbn [pass].
  - exists s. rewrite list_insert_id by done. split_and!; try done. apply sruns_get_seq. rewrite Hpool, Hc. apply sruns_ret.
  - destruct Hc as (blks & after & Htb & (p & es & pre & suf & Hpos & Hhd & Ea) & Er).
    destruct (bytes_eqb (se_key e) k) eqn:Ek.
    + destruct (park_source s rs j t e r li ti Hst Hj Hpool) as (s1 & Hrun & Hst1 & Hkp & Hm).
      destruct (IH s1 (<[j := (t, r)]> rs) r) as (s' & Hrun' & Hst' & Hkp' & Hm'); auto.
      { apply list_lookup_insert_eq. by apply lookup_lt_Some in Hj. }
      { unfold pool_idx. by rewrite (kp_base _ _ Hkp). }
      { cbn in Hf. lia. }
      rewrite list_insert_insert_eq in Hst'. exists s'. split_and!; [| done | by etrans | congruence].
      apply sruns_get_seq. rewrite Hpool, (ps_live _ _ _ _ _ _ _ Hpos), (hd_bytes _ _ _ Hhd), Ek. cbn [negb]. by eapply sruns_seq.
    + exists s. rewrite list_insert_id by done. split_and!; try done. apply sruns_get_seq.
      rewrite Hpool, (ps_live _ _ _ _ _ _ _ Hpos), (hd_bytes _ _ _ Hhd), Ek. apply sruns_ret.
Qed.

Definition pass_table (k : bytes) (te : TableRef * list SstEntry) : TableRef * list SstEntry :=
  (te.1, pass (skey_is k) te.2).

Lemma curs_bound mx c t es : curs_rem mx c t es -> (length es <= cursor_bound c)%nat.
Proof.
  intros [_ H1]. destruct es as [|e r]; [cbn; lia |]. destruct H1 as (blks & after & Htb & Hon & ->). by eapply stands_bound.
Qed.

Lemma cursors_past_step k : forall n s rs done, standing s (done ++ rs) -> length rs = n ->
  exists s', sruns (cursors_past KEY_MAX LEVELS db (List.seq (S (length done)) n) k) s s' (Ok tt) /\
    standing s' (done ++ map (pass_table k) rs) /\ kept s s' /\ mem_rest s' = mem_rest s.
Proof.
  induction n as [|n IH]; intros s rs done Hst Hn.
  { destruct rs; [| done]. exists s. split_and!; try done. apply sruns_ret. }
  destruct rs as [|[t es] rs]; [done |]. injection Hn as Hn. cbn [List.seq cursors_past map].
  assert ((done ++ (t, es) :: rs) !! length done = Some (t, es)) as Hj by (by rewrite lookup_app_r, Nat.sub_diag by lia).
  destruct (src_slot s _ (S (length done)) Hst) as (li & ti & Hpos & Hpool); [rewrite length_app; cbn; lia |].
  replace (S (length done) - 1)%nat with (length done) in Hpool by lia.
  pose proof (curs_bound _ _ _ _ (st_cur _ _ Hst _ _ _ Hj)) as Hb.
  destruct (cursor_past_step k (length done) t li ti (S (cursor_bound (cursor_at KEY_MAX s (length done)))) s _ es Hst Hj Hpool ltac:(lia))
    as (s1 & Hrun & Hst1 & Hkp & Hm).
  rewrite insert_app_r_alt, Nat.sub_diag in Hst1 by lia. cbn [insert list_insert] in Hst1.
  destruct (IH s1 rs (done ++ [(t, pass (skey_is k) es)])) as (s' & Hrun' & Hst' & Hkp' & Hm'); auto.
  { by rewrite <- app_assoc. }
  rewrite length_app, Nat.add_1_r in Hrun'. rewrite <- app_assoc in Hst'.
  exists s'. split_and!; [| done | by etrans | congruence]. apply sruns_get_seq. rewrite Hpos, Hpool. by eapply sruns_seq.
Qed.

(** Every source drops the key. *)
Lemma advance_step s rs k : standing s rs ->
  exists s', sruns (advance_past_key KEY_MAX VAL_MAX LEVELS db k (length rs)) s s' (Ok tt) /\
    standing s' (map (pass_table k) rs) /\ kept s s' /\ mem_rest s' = pass (ekey_is k) (mem_rest s).
Proof.
  intros Hst. destruct (mem_past_step k rs (S (len (db_table db))) s Hst) as (s1 & Hrun & Hst1 & Hkp & Hm).
  { unfold mem_rest. pose proof (filter_length (mem_vis (sn_max_seq s)) (drop (mem_idx s) mem)) as Hl.
    rewrite length_drop, mem_len in Hl. lia. }
  destruct (cursors_past_step k (length rs) s1 rs [] Hst1 eq_refl) as (s' & Hrun' & Hst' & Hkp' & Hm').
  exists s'. split_and!; [| done | by etrans | congruence]. unfold advance_past_key. by eapply sruns_seq.
Qed.

(** ** Sources *)

(** A key and one of its versions. *)
Definition Item : Type := bytes * Hit.

Definition ikey_is (k : bytes) (x : Item) : bool := bytes_eqb x.1 k.

Definition mem_item (e : Entry) : Item := (Memtable.key e, mkHit (memtable (own_node db) (Memtable.seq e)) (entry_body e)).
Definition sst_item (t : TableRef) (e : SstEntry) : Item :=
  (se_key e, mkHit (table (node_id t) (seal_wall t) (se_seq e)) (sst_body e)).
Definition table_items (te : TableRef * list SstEntry) : list Item := map (sst_item te.1) te.2.

(** The sources of a scan, the memtable first. *)
Definition sources (s : Scan) (rs : list (TableRef * list SstEntry)) : list (list Item) :=
  map mem_item (mem_rest s) :: map table_items rs.

Lemma sources_pass k s rs s' :
  mem_rest s' = pass (ekey_is k) (mem_rest s) ->
  sources s' (map (pass_table k) rs) = map (pass (ikey_is k)) (sources s rs).
Proof.
  intros Hm. unfold sources. cbn [map]. rewrite Hm, !map_map. f_equal; [by rewrite pass_map |].
  apply map_ext. intros [t es]. unfold table_items. cbn [pass_table fst snd]. by rewrite pass_map.
Qed.

(** What the scan reads off the head of a source. *)
Record head_is (s : Scan) (src : nat) (x : Item) : Prop := {
  hi_key : head_key KEY_MAX LEVELS s src = Some x.1;
  hi_ver : head_version KEY_MAX LEVELS db s src = h_ver x.2;
  hi_head : exists h, head KEY_MAX LEVELS s src = Some h /\ hd_key h = x.1 /\
    match h_body x.2 with
    | None => hd_tombstone h = true
    | Some (v, ex) => hd_tombstone h = false /\ hd_val_len h = length v /\ hd_expire_at h = ex
    end;
  hi_bytes : take (length x.1) (if (src =? 0)%nat then mem_key s else sc_key (src_cursor KEY_MAX LEVELS s src)) = x.1;
}.

Lemma sst_ttl e : se_tombstone e = false -> (if se_ttl e then se_expire_at e else 0%Z) = se_expire_at e.
Proof. intros Et. unfold se_ttl. rewrite Et. cbn. destruct (Z.eqb_spec (se_expire_at e) 0); [by cbn | done]. Qed.

Lemma cursor_head s rs j t e r : standing s rs -> rs !! j = Some (t, e :: r) -> head_is s (S j) (sst_item t e).
Proof.
  intros Hst Hj. pose proof (lookup_lt_Some _ _ _ Hj) as Hlt.
  destruct (src_slot s rs (S j) Hst) as (li & ti & Hpos & Hpool); [lia |]. replace (S j - 1)%nat with j in Hpool by lia.
  destruct (st_cur _ _ Hst _ _ _ Hj) as (Ht & blks & after & Htb & (p & es & pre & suf & Hps & Hhd & Ea) & Er).
  assert (src_cursor KEY_MAX LEVELS s (S j) = cursor_at KEY_MAX s j) as Hc by (unfold src_cursor, src_idx; by rewrite Hpos, Hpool).
  pose proof (ps_live _ _ _ _ _ _ _ Hps) as Hl. split.
  - unfold head_key. cbn [Nat.eqb]. by rewrite Hc, Hl, (hd_bytes _ _ _ Hhd).
  - unfold head_version. cbn [Nat.eqb]. rewrite Hc, (ps_node _ _ _ _ _ _ _ Hps), (ps_wall _ _ _ _ _ _ _ Hps), (hd_sq _ _ _ Hhd). done.
  - eexists. unfold head. cbn [Nat.eqb]. rewrite Hc, Hl. split; [reflexivity |]. cbn [hd_key hd_tombstone hd_val_len hd_expire_at].
    rewrite (hd_tomb _ _ _ Hhd), (hd_vlen _ _ _ Hhd), (hd_exp _ _ _ Hhd), (hd_bytes _ _ _ Hhd). split; [done |].
    cbn [sst_item snd h_body]. unfold sst_body, se_stored. destruct (se_tombstone e) eqn:Et; [done |]. by rewrite sst_ttl.
  - cbn [Nat.eqb sst_item fst]. rewrite Hc, <- (hd_len _ _ _ Hhd). apply (hd_bytes _ _ _ Hhd).
Qed.

Lemma mem_head_is s e : mem_live s = true -> mem_on s e -> head_is s 0 (mem_item e).
Proof.
  intros Hl []. split; cbn.
  - unfold head_key. cbn. by rewrite Hl, mo_key0.
  - unfold head_version. cbn. by rewrite mo_seq0.
  - eexists. unfold head. cbn. rewrite Hl. split; [reflexivity |]. cbn. rewrite mo_key0, mo_tomb0, mo_vlen0, mo_exp0.
    split; [done |]. unfold entry_body. by destruct (tombstone e).
  - by rewrite <- mo_klen0.
Qed.

Lemma no_head s src : head_key KEY_MAX LEVELS s src = None <-> head KEY_MAX LEVELS s src = None.
Proof. unfold head_key, head. destruct (src =? 0)%nat; [by destruct (mem_live s) |]. cbv zeta. by destruct (sc_live _). Qed.

Lemma source_head s rs src l : standing s rs -> sources s rs !! src = Some l ->
  match l with [] => head_key KEY_MAX LEVELS s src = None | x :: _ => head_is s src x end.
Proof.
  intros Hst Hl. destruct src as [|j].
  - cbn in Hl. injection Hl as <-. destruct (st_mem _ _ Hst) as (_ & _ & Hm). destruct (mem_live s) eqn:El.
    + destruct Hm as [e Ho]. rewrite (mem_rest_head s e Ho). by apply mem_head_is.
    + rewrite Hm. unfold head_key. cbn. by rewrite El.
  - change ((table_items <$> rs) !! j = Some l) in Hl. rewrite list_lookup_fmap in Hl. destruct (rs !! j) as [[t es] |] eqn:Ej; [| done]. injection Hl as <-.
    destruct es as [|e r]; cbn.
    + destruct (src_slot s rs (S j) Hst) as (li & ti & Hpos & Hpool); [apply lookup_lt_Some in Ej; lia |].
      replace (S j - 1)%nat with j in Hpool by lia.
      destruct (st_cur _ _ Hst _ _ _ Ej) as [_ Hd]. unfold head_key. cbn [Nat.eqb]. unfold src_cursor, src_idx.
      by rewrite Hpos, Hpool, Hd.
    + by eapply cursor_head.
Qed.

(** ** The least key and its newest version *)

Lemma min_fold s l : forall b,
  match fold_left (min_step KEY_MAX LEVELS s) l b with
  | None => b = None /\ forall src, src ∈ l -> head_key KEY_MAX LEVELS s src = None
  | Some (src, k) =>
      (b = Some (src, k) \/ src ∈ l /\ head_key KEY_MAX LEVELS s src = Some k) /\
      (forall src' k', b = Some (src', k') -> bytes_le k k') /\
      (forall src' k', src' ∈ l -> head_key KEY_MAX LEVELS s src' = Some k' -> bytes_le k k')
  end.
Proof.
  induction l as [|a l IH]; intros b; cbn [fold_left].
  { destruct b as [[src k] |]; [| split; [done | by intros ? ?%not_elem_of_nil]].
    split_and!; [by left | intros ? ? [= <- <-]; apply bytes_le_refl | by intros ? ? ?%not_elem_of_nil]. }
  specialize (IH (min_step KEY_MAX LEVELS s b a)). destruct (fold_left _ l _) as [[src k] |].
  - destruct IH as (H1 & H2 & H3).
    assert ((forall src' k', b = Some (src', k') -> bytes_le k k') /\
            (forall k', head_key KEY_MAX LEVELS s a = Some k' -> bytes_le k k') /\
            (min_step KEY_MAX LEVELS s b a = Some (src, k) -> b = Some (src, k) \/ src = a /\ head_key KEY_MAX LEVELS s a = Some k))
      as (Hb & Ha & Hm).
    { unfold min_step in *. destruct (head_key KEY_MAX LEVELS s a) as [ka |] eqn:Ea; [| split_and!; [done | done | by left]].
      destruct b as [[sb kb] |]; [| split_and!; [done | intros ? [= <-]; by eapply H2 | intros [= <- <-]; by right]].
      destruct (bytes_ltb ka kb) eqn:El.
      - apply bytes_ltb_spec in El. specialize (H2 _ _ eq_refl). split_and!; [| by intros ? [= <-] | intros [= <- <-]; by right].
        intros ? ? [= <- <-]. etrans; [exact H2 | by apply bytes_lt_le].
      - split_and!; [done | | by left]. intros ? [= <-]. etrans; [by eapply H2 |]. destruct (bytes_lt_trichotomy ka kb) as [G | G].
        + apply bytes_ltb_spec in G. congruence.
        + apply bytes_le_lteq. destruct G as [-> | ?]; auto. }
    split_and!; [| done |].
    + destruct H1 as [H1 | [H1 H1']]; [destruct (Hm H1) as [? | [-> ?]]; [by left |] | ]; right; (split; [| done]); set_solver.
    + intros src' k' [-> | Hin]%elem_of_cons Hk; [by apply Ha | by eapply H3].
  - destruct IH as [H1 H2]. unfold min_step in H1. destruct (head_key KEY_MAX LEVELS s a) as [ka |] eqn:Ea.
    + destruct b as [[sb kb] |]; [destruct (bytes_ltb ka kb) |]; done.
    + split; [done |]. intros src [-> | ?]%elem_of_cons; auto.
Qed.

Definition items_of (s : Scan) (rs : list (TableRef * list SstEntry)) (x : Item) : Prop := exists l, l ∈ sources s rs /\ x ∈ l.

(** Newest first within a key. *)
Definition item_before (a b : Item) : Prop :=
  bytes_lt a.1 b.1 \/
  a.1 = b.1 /\ forall v, version_gt (h_ver a.2) v = false -> version_gt (h_ver b.2) v = false.
Definition in_order (l : list Item) : Prop := StronglySorted item_before l.

Lemma in_order_head x l y : in_order (x :: l) -> y ∈ x :: l ->
  bytes_le x.1 y.1 /\ (y.1 = x.1 -> forall v, version_gt (h_ver x.2) v = false -> version_gt (h_ver y.2) v = false).
Proof.
  intros [_ Hf]%StronglySorted_inv [-> | Hy]%elem_of_cons; [split; [apply bytes_le_refl | auto] |].
  rewrite Forall_forall in Hf. destruct (Hf y Hy) as [Hlt | [Heq Hv]].
  - split; [by apply bytes_lt_le |]. intros Eq. rewrite Eq in Hlt. by apply irreflexivity in Hlt; [| apply _].
  - split; [rewrite Heq; apply bytes_le_refl | auto].
Qed.

Lemma in_order_pass k l : in_order l -> Forall (fun x => bytes_le k x.1) l ->
  in_order (pass (ikey_is k) l) /\
  forall x, x ∈ pass (ikey_is k) l <-> x ∈ l /\ bytes_lt k x.1.
Proof.
  induction l as [|y l IH]; intros Ho Hk; cbn [pass]; [split; [done | set_solver] |]. unfold ikey_is at 1 3.
  apply Forall_cons in Hk as [Hy Hk]. pose proof (StronglySorted_inv Ho) as [Ho' _]. destruct (bytes_eqb y.1 k) eqn:Ek.
  - apply bytes_eqb_spec in Ek. destruct (IH Ho' Hk) as [H1 H2]. split; [done |]. intros x. rewrite H2, elem_of_cons.
    split; [tauto |]. intros [[-> | ?] Hx]; [| done]. rewrite Ek in Hx. by apply irreflexivity in Hx; [| apply _].
  - split; [done |]. intros x. split; [| tauto]. intros Hx. split; [done |]. destruct (in_order_head y l x Ho Hx) as [Hle _].
    eapply bytes_lt_le_trans; [| exact Hle]. apply bytes_le_lteq in Hy as [? | ->]; [done |].
    by rewrite (proj2 (bytes_eqb_spec _ _)) in Ek.
Qed.

Lemma source_lookup s rs l : l ∈ sources s rs <-> exists src, (src ∈ List.seq 0 (length rs + 1)) /\ sources s rs !! src = Some l.
Proof.
  rewrite list_elem_of_lookup. split; [| intros (? & _ & ?); eauto]. intros [i Hi]. exists i. split; [| done].
  apply list_elem_of_In, in_seq. apply lookup_lt_Some in Hi. unfold sources in Hi. cbn in Hi. rewrite length_map in Hi. lia.
Qed.

Lemma seq_source s rs src : src ∈ List.seq 0 (length rs + 1) -> exists l, sources s rs !! src = Some l.
Proof.
  intros Hs. apply lookup_lt_is_Some_2. apply list_elem_of_In, in_seq in Hs. unfold sources. cbn. rewrite length_map. lia.
Qed.

(** The first pass finds the least key left. *)
Lemma min_src_step s rs : standing s rs -> Forall in_order (sources s rs) ->
  match min_src KEY_MAX LEVELS s (length rs) with
  | None => forall x, ~ items_of s rs x
  | Some (src, k) => (exists x, items_of s rs x /\ x.1 = k) /\ forall x, items_of s rs x -> bytes_le k x.1
  end.
Proof.
  intros Hst Hord. rewrite Forall_forall in Hord. unfold min_src. pose proof (min_fold s (List.seq 0 (length rs + 1)) None) as Hm.
  destruct (fold_left _ _ None) as [[src k] |].
  - destruct Hm as ([? | [Hin Hk]] & _ & Hall); [done |]. split.
    + destruct (seq_source s rs src Hin) as [l Hl]. pose proof (source_head s rs src l Hst Hl) as Hh.
      destruct l as [|x l]; [congruence |]. exists x. rewrite (hi_key _ _ _ Hh) in Hk. split; [| by injection Hk].
      exists (x :: l). split; [by eapply list_elem_of_lookup_2 | left].
    + intros x (l & Hl & Hx). pose proof (Hord l Hl) as Ho. apply source_lookup in Hl as (j & Hj & Hl).
      pose proof (source_head s rs j l Hst Hl) as Hh. destruct l as [|y l]; [by apply not_elem_of_nil in Hx |].
      etrans; [by eapply Hall, Hh |]. by apply (in_order_head y l x Ho Hx).
  - destruct Hm as [_ Hm]. intros x (l & Hl & Hx). apply source_lookup in Hl as (j & Hj & Hl).
    pose proof (source_head s rs j l Hst Hl) as Hh. destruct l as [|y l]; [by apply not_elem_of_nil in Hx |].
    pose proof (hi_key _ _ _ Hh) as Hy. rewrite (Hm j Hj) in Hy. done.
Qed.

(** The winner: an item of the key that none of the key's beats. *)
Record wins (s : Scan) (rs : list (TableRef * list SstEntry)) (k : bytes) (w : Winner) (x : Item) (l : list Item) : Prop := {
  wi_at : sources s rs !! w_src w = Some (x :: l);
  wi_key : x.1 = k;
  wi_ver : w_ver w = h_ver x.2;
  wi_klen : w_key_len w = length k;
  wi_body : match h_body x.2 with
            | None => w_tombstone w = true
            | Some (v, ex) => w_tombstone w = false /\ w_val_len w = length v /\ w_expire_at w = ex
            end;
  wi_bytes : winner_key KEY_MAX LEVELS s w = k;
  wi_best : forall y, items_of s rs y -> y.1 = k -> version_gt (h_ver y.2) (h_ver x.2) = false;
}.

Lemma winner_step s rs k src (V : Version -> Prop) :
  standing s rs -> Forall in_order (sources s rs) -> orderly V ->
  (forall x, items_of s rs x -> x.1 = k -> V (h_ver x.2)) ->
  (forall x, items_of s rs x -> bytes_le k x.1) -> (exists x, items_of s rs x /\ x.1 = k) ->
  exists x l, wins s rs k (winner_of KEY_MAX LEVELS db s (length rs) src k) x l.
Proof.
  intros Hst Hord Ho HV Hmin (x0 & Hx0 & Hk0). rewrite Forall_forall in Hord. unfold winner_of.
  set (w0 := mkWinner src ZERO false (length k) 0 0).
  assert (forall j h, j ∈ List.seq 0 (length rs + 1) -> head KEY_MAX LEVELS s j = Some h -> hd_key h = k ->
    exists x l, sources s rs !! j = Some (x :: l) /\ x.1 = k /\ head_is s j x) as Hhd.
  { intros j h Hj Hh Hk. destruct (seq_source s rs j Hj) as [l Hl]. pose proof (source_head s rs j l Hst Hl) as Hs.
    destruct l as [|x l]; [apply no_head in Hs; congruence |]. exists x, l. split_and!; auto.
    destruct (hi_head _ _ _ Hs) as (h' & Hh' & Hk' & _). congruence. }
  destruct (pick_fold (head KEY_MAX LEVELS s) (head_version KEY_MAX LEVELS db s) k V (List.seq 0 (length rs + 1)) Ho) with (w := w0) as (I1 & I2 & I3); [| by left |].
  { intros j h Hj Hh Hk. destruct (Hhd j h Hj Hh Hk) as (x & l & Hl & Hxk & Hi). rewrite (hi_ver _ _ _ Hi). apply HV; [| done].
    exists (x :: l). split; [by eapply list_elem_of_lookup_2 | left]. }
  change (pick_step (head KEY_MAX LEVELS s) (head_version KEY_MAX LEVELS db s) k) with (win_step KEY_MAX LEVELS db s k) in *.
  set (w := fold_left _ _ w0) in *.
  assert (forall y, items_of s rs y -> y.1 = k -> version_gt (h_ver y.2) (w_ver w) = false) as Hbest.
  { intros y (l & Hl & Hy) Hyk. pose proof (Hord l Hl) as Hol. pose proof Hl as Hl'. apply source_lookup in Hl as (j & Hj & Hl).
    pose proof (source_head s rs j l Hst Hl) as Hs. destruct l as [|x l]; [by apply not_elem_of_nil in Hy |].
    destruct (in_order_head x l y Hol Hy) as [Hle Hdom]. assert (x.1 = k) as Hxk.
    { apply bytes_le_antisym; [by rewrite <- Hyk |]. apply Hmin. exists (x :: l). split; [done | left]. }
    destruct (hi_head _ _ _ Hs) as (h & Hh & Hhk & _). apply Hdom; [congruence |]. rewrite <- (hi_ver _ _ _ Hs).
    apply (I3 j h Hj Hh). congruence. }
  destruct I1 as [Ew | (j & h & Hj & Hh & Hk & Ew)].
  { exfalso. specialize (Hbest x0 Hx0 Hk0). rewrite Ew in Hbest. cbn [w0 w_ver] in Hbest. rewrite gt_ZERO in Hbest.
    pose proof (proj1 Ho _ (HV x0 Hx0 Hk0)). bool_lia. }
  destruct (Hhd j h Hj Hh Hk) as (x & l & Hl & Hxk & Hi). exists x, l. unfold picked in Ew. rewrite Ew in *. destruct (hi_head _ _ _ Hi) as (h' & Hh' & _ & Hb).
  rewrite Hh in Hh'. injection Hh' as <-. pose proof (hi_bytes _ _ _ Hi) as Hby. split; cbn [w_src w_ver w_key_len w_tombstone w_val_len w_expire_at]; auto.
  - apply (hi_ver _ _ _ Hi).
  - by rewrite Hk.
  - unfold winner_key. cbn [w_key_len w_src]. by rewrite Hk, <- Hxk.
  - intros y Hy Hyk. rewrite <- (hi_ver _ _ _ Hi). by apply Hbest.
Qed.

(** ** The value *)

Lemma standing_block s rs blk id : standing s rs -> buffered db (with_block s blk id) -> standing (with_block s blk id) rs.
Proof.
  intros [] Hb. split; auto. destruct st_mem0 as (? & ? & Hm). split_and!; auto. cbn [mem_live with_block].
  destruct (mem_live s); [| done]. destruct Hm as [e []]. exists e. by split.
Qed.

Lemma copy_step s rs k w x l v ex vb :
  standing s rs -> wins s rs k w x l -> h_body x.2 = Some (v, ex) -> (length v <= length vb)%nat ->
  exists s', sruns (copy_value KEY_MAX LEVELS db w vb) s s' (Ok (splice 0 v vb)) /\ standing s' rs /\ kept s s' /\
    mem_rest s' = mem_rest s.
Proof.
  intros Hst Hw Hb Hv. pose proof (wi_body _ _ _ _ _ _ Hw) as Hbody. rewrite Hb in Hbody. destruct Hbody as (_ & Hvl & _).
  pose proof (wi_at _ _ _ _ _ _ Hw) as Hat. unfold copy_value. destruct (w_src w) as [|j] eqn:Es.
  - exists s. split_and!; try done. apply sruns_get_seq. cbn [Nat.eqb]. cbn in Hat. injection Hat as Hat.
    destruct (st_mem _ _ Hst) as (_ & _ & Hm). destruct (mem_live s); [| by rewrite Hm in Hat].
    destruct Hm as [e Ho]. rewrite (mem_rest_head s e Ho) in Hat. injection Hat as <- _. cbn in Hb. unfold entry_body in Hb.
    destruct (tombstone e); [done |]. injection Hb as <- <-. rewrite Hvl, <- (mo_vlen _ _ Ho), (mo_val _ _ Ho). apply sruns_ret.
  - change ((table_items <$> rs) !! j = Some (x :: l)) in Hat. rewrite list_lookup_fmap in Hat.
    destruct (rs !! j) as [[t es0] |] eqn:Ej; [| done]. destruct es0 as [|e r]; [done |]. injection Hat as <- _.
    cbn in Hb. unfold sst_body in Hb. destruct (se_tombstone e) eqn:Et; [done |]. injection Hb as <- <-.
    destruct (src_slot s rs (S j) Hst) as (li & ti & Hpos & Hpool); [apply lookup_lt_Some in Ej; lia |]. replace (S j - 1)%nat with j in Hpool by lia.
    destruct (st_cur _ _ Hst _ _ _ Ej) as (Ht & blks & after & Htb & (p & es & pre & suf & Hps & Hhd & Ea) & Er).
    destruct Htb as (rbs & tk & ec & ms & _ & Hto & _ & _ & HL). pose proof (ps_block _ _ _ _ _ _ _ Hps) as Hp.
    destruct (ensure_step HB BLOOM_BYTES db L t blks rbs tk ec ms Hto HL s p es (st_buf _ _ Hst) Hp) as (blk & Hen & Hh & Hbuf).
    destruct (to_data _ _ _ _ _ _ _ _ Hto p es Hp) as (Hwf & _).
    exists (with_block s blk (Some (first_block t + Z.of_nat p)%Z)). split_and!; [| by apply standing_block | by split | done].
    assert (src_cursor KEY_MAX LEVELS s (S j) = cursor_at KEY_MAX s j) as Hc by (unfold src_cursor, src_idx; by rewrite Hpos, Hpool).
    apply sruns_get_seq. cbn [Nat.eqb]. rewrite Hc, (ps_id _ _ _ _ _ _ _ Hps), (ps_bid _ _ _ _ _ _ _ Hps).
    eapply sruns_seq; [exact Hen |]. apply sruns_get_seq. rewrite (hd_off _ _ _ Hhd), (ps_end _ _ _ _ _ _ _ Hps).
    change (sn_block (with_block s blk _)) with blk.
    rewrite (held_parses (E := E) HB blk es pre e suf _ Hwf Hh) by (rewrite (ps_split _ _ _ _ _ _ _ Hps); by rewrite <- app_assoc).
    cbn [head_of pd_val]. unfold se_stored. rewrite Et, (proj2 (Nat.ltb_ge _ _)) by lia. apply sruns_ret.
Qed.

(** ** What a scan has ahead *)

(** The keys below the scan's end. *)
Definition below (s : Scan) (k : bytes) : Prop := sn_has_end s = true -> bytes_lt k (end_bound s).

(** A point read of [k] at the scan's snapshot and time finds nothing; finds [v]. *)
Definition hidden (s : Scan) (k : bytes) : Prop :=
  reads (E := E) (db_point db contents k (sn_max_seq s)) (db_cover db contents k (sn_max_seq s)) (sn_now s) [] (Ok (None, [])).
Definition shown (s : Scan) (k v : bytes) : Prop :=
  reads (E := E) (db_point db contents k (sn_max_seq s)) (db_cover db contents k (sn_max_seq s)) (sn_now s)
    (replicate (length v) 0%Z) (Ok (Some (length v), v)).

(** The scan is before the keys of [F], with at most [N] versions of them to go: of the
    keys of [F] below its end, its sources hold every version a read would compare. *)
Definition frontier (F : bytes -> Prop) (N : nat) (s : Scan) : Prop :=
  exists rs, standing s rs /\ Forall in_order (sources s rs) /\ (forall x, items_of s rs x -> F x.1) /\
    (forall k, F k -> below s k -> forall h, db_point db contents k (sn_max_seq s) h <-> items_of s rs (k, h)) /\
    (length (concat (sources s rs)) <= N)%nat.

Lemma frontier_sub (F F' : bytes -> Prop) N s rs :
  standing s rs -> Forall in_order (sources s rs) -> (forall x, items_of s rs x -> F' x.1) -> (forall k, F' k -> F k) ->
  (forall k, F k -> below s k -> forall h, db_point db contents k (sn_max_seq s) h <-> items_of s rs (k, h)) ->
  (length (concat (sources s rs)) <= N)%nat -> frontier F' N s.
Proof. intros. exists rs. split_and!; auto. Qed.

Lemma length_concat_pass (f : Item -> bool) ls x l : (x :: l) ∈ ls -> f x = true ->
  (length (concat (map (pass f) ls)) < length (concat ls))%nat.
Proof.
  assert (forall ls, (length (concat (map (pass f) ls)) <= length (concat ls))%nat) as Hle.
  { clear. induction ls as [|a ls IH]; [done |]. cbn [map concat]. rewrite !length_app. pose proof (length_pass f a). lia. }
  intros Hin Hf. induction ls as [|a ls IH]; [by apply not_elem_of_nil in Hin |]. cbn [map concat]. rewrite !length_app.
  apply elem_of_cons in Hin as [<- | Hin]; [| specialize (IH Hin); pose proof (length_pass f a); lia].
  cbn [pass length]. rewrite Hf. pose proof (length_pass f l). specialize (Hle ls). lia.
Qed.

(** Past its least key, a scan is before the keys above it. *)
Lemma advance_frontier (F : bytes -> Prop) N s rs k x l :
  standing s rs -> Forall in_order (sources s rs) -> (forall y, items_of s rs y -> F y.1) ->
  (forall k, F k -> below s k -> forall h, db_point db contents k (sn_max_seq s) h <-> items_of s rs (k, h)) ->
  (length (concat (sources s rs)) <= N)%nat -> (forall y, items_of s rs y -> bytes_le k y.1) ->
  (x :: l) ∈ sources s rs -> x.1 = k ->
  exists s' N', sruns (advance_past_key KEY_MAX VAL_MAX LEVELS db k (length rs)) s s' (Ok tt) /\ kept s s' /\ (N' < N)%nat /\
    frontier (fun k' => F k' /\ bytes_lt k k') N' s'.
Proof.
  intros Hst Hord HF Hpts HN Hmin Hx Hk. destruct (advance_step s rs k Hst) as (s' & Hrun & Hst' & Hkp & Hm).
  pose proof (sources_pass k s rs s' Hm) as Hsrc.
  pose proof (length_concat_pass (ikey_is k) _ x l Hx (proj2 (bytes_eqb_spec _ _) Hk)) as Hlen. rewrite <- Hsrc in Hlen.
  exists s', (length (concat (sources s' (map (pass_table k) rs)))). split_and!; [done | done | lia |].
  assert (forall l, l ∈ sources s rs -> in_order (pass (ikey_is k) l) /\
    forall x, x ∈ pass (ikey_is k) l <-> x ∈ l /\ bytes_lt k x.1) as Hpass.
  { intros l' Hl'. rewrite Forall_forall in Hord. apply in_order_pass; [auto |]. apply Forall_forall. intros y Hy. apply Hmin. by exists l'. }
  assert (forall y, items_of s' (map (pass_table k) rs) y <-> items_of s rs y /\ bytes_lt k y.1) as Hitems.
  { intros y. unfold items_of. rewrite Hsrc. split.
    - intros (l' & Hl' & Hy). apply list_elem_of_fmap in Hl' as (l0 & -> & Hl0). apply (Hpass l0 Hl0) in Hy as [? ?]. eauto.
    - intros ((l0 & Hl0 & Hy) & Hlt). eexists. split; [apply list_elem_of_fmap; by exists l0 | by apply Hpass]. }
  exists (map (pass_table k) rs). split_and!; auto.
  - rewrite Hsrc. apply Forall_forall. intros l' Hl'. apply list_elem_of_fmap in Hl' as (l0 & -> & Hl0). by apply Hpass.
  - intros y [Hy Hlt]%Hitems. auto.
  - intros k' [HF' Hlt] Hb h. rewrite (kp_mx _ _ Hkp), Hitems, (Hpts k' HF'); [cbn; tauto |].
    unfold below in *. rewrite (kp_has _ _ Hkp), (kp_end _ _ Hkp) in Hb. done.
Qed.

(** ** One call of [next] *)

(** What a call from a scan before [F] may answer.  The end: nothing of [F] is left to
    show.  An entry: the least key shown, with its value in the buffers, and the scan is
    before the keys above it.  A short buffer: its length, and the entry stays ahead. *)
Definition next_outcome (F : bytes -> Prop) (N : nat) (kb vb : bytes) (s s' : Scan)
    (r : result (option (nat * nat * bytes * bytes)) (Error E)) : Prop :=
  kept s s' /\ exists F' N', frontier F' N' s' /\ (N' <= N)%nat /\ (forall k, F' k -> F k) /\
  match r with
  | Ok None => forall k, F k -> below s k -> hidden s k
  | Ok (Some (kl, vl, kb', vb')) => exists k v,
      F k /\ below s k /\ shown s k v /\ (N' < N)%nat /\ (forall k', F' k' -> bytes_lt k k') /\
      (forall k', F k' -> below s k' -> F' k' \/ k' = k \/ hidden s k') /\
      kl = length k /\ vl = length v /\ (kl <= length kb)%nat /\ (vl <= length vb)%nat /\
      kb' = splice 0 k kb /\ vb' = splice 0 v vb
  | Err e => exists k v n,
      F' k /\ below s k /\ shown s k v /\ (forall k', F' k' -> bytes_le k k') /\
      (forall k', F k' -> below s k' -> F' k' \/ hidden s k') /\ e = BufferTooSmall n /\
      ((length kb < length k)%nat /\ n = length k \/
       (length k <= length kb)%nat /\ (length vb < length v)%nat /\ n = length v)
  end.

Lemma kept_below s s' k : kept s s' -> below s' k <-> below s k.
Proof. intros [? ? Hh He _ _]. unfold below. by rewrite Hh, He. Qed.

Lemma kept_hidden s s' k : kept s s' -> hidden s' k <-> hidden s k.
Proof. intros [Hm Hn _ _ _ _]. unfold hidden. by rewrite Hm, Hn. Qed.

Lemma kept_shown s s' k v : kept s s' -> shown s' k v <-> shown s k v.
Proof. intros [Hm Hn _ _ _ _]. unfold shown. by rewrite Hm, Hn. Qed.

(** A key passed over does not change what a call answers. *)
Lemma next_outcome_past F N N1 kb vb s s1 s' r k :
  kept s s1 -> (N1 < N)%nat -> (forall k', F k' -> below s k' -> bytes_lt k k' \/ hidden s k') ->
  next_outcome (fun k' => F k' /\ bytes_lt k k') N1 kb vb s1 s' r -> next_outcome F N kb vb s s' r.
Proof.
  intros Hkp HN Hpast (Hkp' & F' & N' & Hf & HN' & Hsub & Hr). split; [by etrans |]. exists F', N'.
  split_and!; [done | lia | intros k' ?%Hsub; tauto |]. destruct r as [[[[[kl vl] kb'] vb'] |] | e].
  - destruct Hr as (k' & v & HFk & Hb & Hsh & Hlt & Habove & Hrest & Hbufs). exists k', v.
    rewrite (kept_below _ _ _ Hkp) in Hb. rewrite (kept_shown _ _ _ _ Hkp) in Hsh. split_and!; try tauto; [lia |].
    intros k2 Hk2 Hb2. destruct (Hpast k2 Hk2 Hb2) as [Hlt2 | ?]; [| by right; right].
    specialize (Hrest k2 (conj Hk2 Hlt2)). rewrite (kept_below _ _ _ Hkp), (kept_hidden _ _ _ Hkp) in Hrest. auto.
  - intros k2 Hk2 Hb2. destruct (Hpast k2 Hk2 Hb2) as [Hlt2 | ?]; [| done].
    specialize (Hr k2 (conj Hk2 Hlt2)). rewrite (kept_below _ _ _ Hkp), (kept_hidden _ _ _ Hkp) in Hr. auto.
  - destruct Hr as (k' & v & n & HFk & Hb & Hsh & Habove & Hrest & He). exists k', v, n.
    rewrite (kept_below _ _ _ Hkp) in Hb. rewrite (kept_shown _ _ _ _ Hkp) in Hsh. split_and!; try tauto.
    intros k2 Hk2 Hb2. destruct (Hpast k2 Hk2 Hb2) as [Hlt2 | ?]; [| by right].
    specialize (Hrest k2 (conj Hk2 Hlt2)). rewrite (kept_below _ _ _ Hkp), (kept_hidden _ _ _ Hkp) in Hrest. auto.
Qed.

Lemma hidden_none s k : (forall h, ~ db_point db contents k (sn_max_seq s) h) -> hidden s k.
Proof. intros Hn. left. done. Qed.

Definition skips (w : Winner) (covered : bool) (now : u64) : bool :=
  ((Version.seq (w_ver w) =? 0)%Z || w_tombstone w || covered ||
   (negb (w_tombstone w) && negb (w_expire_at w =? 0)%Z && (w_expire_at w <=? now)%Z)).

(** The test of the merge on a newest version is the read's. *)
Lemma winner_reads k mx now w (x : Item) b :
  w_ver w = h_ver x.2 ->
  match h_body x.2 with
  | None => w_tombstone w = true
  | Some (v, ex) => w_tombstone w = false /\ w_val_len w = length v /\ w_expire_at w = ex
  end ->
  db_point db contents k mx x.2 -> (forall h, db_point db contents k mx h -> version_gt (h_ver h) (h_ver x.2) = false) ->
  (b = true <-> exists c, db_cover db contents k mx c /\ version_gt c (w_ver w) = true) ->
  if skips w b now then reads (E := E) (db_point db contents k mx) (db_cover db contents k mx) now [] (Ok (None, []))
  else exists v ex, h_body x.2 = Some (v, ex) /\ w_val_len w = length v /\
    reads (E := E) (db_point db contents k mx) (db_cover db contents k mx) now (replicate (length v) 0%Z) (Ok (Some (length v), v)).
Proof.
  intros Hver Hbody Hx Hbest Hb. rewrite Hver in Hb.
  assert (0 < Version.seq (h_ver x.2))%Z as Hseq by (apply (proj1 (sb_order Hsb k mx)); left; eauto).
  unfold skips. rewrite Hver, (proj2 (Z.eqb_neq _ _)) by lia. cbn [orb].
  destruct (h_body x.2) as [[v ex] |] eqn:Ebody.
  - destruct Hbody as (-> & Hvl & ->). cbn [orb negb andb].
    destruct (b || (negb (ex =? 0)%Z && (ex <=? now)%Z)) eqn:Ec.
    + right. exists x.2. split_and!; auto. rewrite Ebody. left. split; [| done]. apply orb_true_iff in Ec as [-> | Ec]; [left; by apply Hb |].
      right. bool_lia.
    + apply orb_false_iff in Ec as [-> Ec]. exists v, ex. split_and!; auto. right. exists x.2. split_and!; auto. rewrite Ebody. right.
      split_and!; [| bool_lia |].
      * intros c Hc. destruct (version_gt c (h_ver x.2)) eqn:Eg; [| done]. enough (false = true) by done. apply Hb. eauto.
      * rewrite length_replicate, Nat.ltb_irrefl, splice_full. done.
  - rewrite Hbody. cbn [orb]. right. exists x.2. rewrite Ebody. auto.
Qed.

Lemma winner_shows s rs k w x l b :
  wins s rs k w x l -> db_point db contents k (sn_max_seq s) x.2 ->
  (forall h, db_point db contents k (sn_max_seq s) h -> items_of s rs (k, h)) ->
  (b = true <-> exists c, db_cover db contents k (sn_max_seq s) c /\ version_gt c (w_ver w) = true) ->
  if skips w b (sn_now s) then hidden s k
  else exists v ex, h_body x.2 = Some (v, ex) /\ shown s k v /\ w_val_len w = length v.
Proof.
  intros Hw Hx Hall Hb. pose proof (winner_reads k (sn_max_seq s) (sn_now s) w x b (wi_ver _ _ _ _ _ _ Hw) (wi_body _ _ _ _ _ _ Hw) Hx) as Hr.
  specialize (Hr ltac:(intros h Hh; apply (wi_best _ _ _ _ _ _ Hw (k, h)); [by apply Hall | done]) Hb).
  destruct (skips w b (sn_now s)); [exact Hr |]. destruct Hr as (v & ex & ? & ? & ?). by exists v, ex.
Qed.

Lemma next_loop_step kb vb : forall fuel F N s rs,
  standing s rs -> Forall in_order (sources s rs) -> (forall x, items_of s rs x -> F x.1) ->
  (forall k, F k -> below s k -> forall h, db_point db contents k (sn_max_seq s) h <-> items_of s rs (k, h)) ->
  (length (concat (sources s rs)) <= N)%nat -> (N < fuel)%nat ->
  exists s' r, sruns (next_loop KEY_MAX VAL_MAX LEVELS db fuel (length rs) kb vb) s s' r /\ next_outcome F N kb vb s s' r.
Proof.
  induction fuel as [|fuel IH]; intros F N s rs Hst Hord HF Hpts HN Hfuel; [lia |]. cbn [next_loop].
  pose proof (min_src_step s rs Hst Hord) as Hmin. destruct (min_src KEY_MAX LEVELS s (length rs)) as [[src k] |] eqn:Em.
  2: { exists s, (Ok None). split; [apply sruns_get_seq; rewrite Em; apply sruns_ret |]. split; [done |]. exists F, N.
       split_and!; [by exists rs | done | done |]. intros k Hk Hb. apply hidden_none. intros h Hh%(Hpts k Hk Hb). by apply Hmin in Hh. }
  destruct Hmin as [(x0 & Hx0 & Hk0) Hmin]. destruct (sn_has_end s && bytes_leb (end_bound s) k) eqn:Ee.
  { exists s, (Ok None). split; [apply sruns_get_seq; rewrite Em, Ee; apply sruns_ret |]. split; [done |]. exists F, N.
    split_and!; [by exists rs | done | done |]. intros k' Hk Hb. apply hidden_none. intros h Hh%(Hpts k' Hk Hb). apply Hmin in Hh. cbn in Hh.
    apply andb_true_iff in Ee as [He%Hb Hle%bytes_leb_spec]. assert (bytes_lt k' k') as Hx by (eapply bytes_lt_le_trans; [exact He |]; by etrans).
    by apply irreflexivity in Hx; [| apply _]. }
  assert (F k) as HFk by (rewrite <- Hk0; by apply HF).
  assert (below s k) as Hbk.
  { intros Hh. rewrite Hh in Ee. cbn in Ee. destruct (bytes_lt_trichotomy k (end_bound s)) as [? | G]; [done |].
    rewrite (proj2 (bytes_leb_spec _ _)) in Ee; [done |]. apply bytes_le_lteq. destruct G as [<- | ?]; auto. }
  destruct (winner_step s rs k src (db_versions db contents k (sn_max_seq s)) Hst Hord (sb_order Hsb k _)) as (x & l & Hw); eauto.
  { intros y Hy Hyk. left. exists y.2. split; [| done]. apply (Hpts k HFk Hbk). destruct y as [yk yh]. cbn in Hyk. by subst yk. }
  set (w := winner_of _ _ _ _ _ _ _) in *. pose proof (wi_key _ _ _ _ _ _ Hw) as Hxk.
  assert ((x :: l) ∈ sources s rs) as Hxl by (eapply list_elem_of_lookup_2, Hw).
  assert (db_point db contents k (sn_max_seq s) x.2) as Hpx.
  { apply (Hpts k HFk Hbk). exists (x :: l). split; [done |]. rewrite <- Hxk. destruct x. left. }
  destruct (rdel_hides_step VAL_MAX KEY_MAX LEVELS TABLES CAP ARENA BLOOM_BYTES HB Hbloom db L contents k (sn_max_seq s) (w_ver w)
    (sb_read Hsb) (sb_seqs Hsb)) as (b & Hyb & Hb).
  pose proof (winner_shows s rs k w x l b Hw Hpx (fun h => proj1 (Hpts k HFk Hbk h)) Hb) as Hsh.
  pose proof (wi_bytes _ _ _ _ _ _ Hw) as Hwk. pose proof (wi_klen _ _ _ _ _ _ Hw) as Hkl.
  assert (forall k', F k' -> below s k' -> bytes_lt k k' \/ k' = k \/ hidden s k') as Hpast.
  { intros k' Hk' Hb'. destruct (bytes_lt_trichotomy k k') as [? | [-> | Hlt]]; auto. right. right. apply hidden_none.
    intros h Hh%(Hpts k' Hk' Hb'). apply Hmin in Hh. cbn in Hh. pose proof (bytes_le_lt_trans _ _ _ Hh Hlt) as Hx.
    by apply irreflexivity in Hx; [| apply _]. }
  destruct (skips w b (sn_now s)) eqn:Esk.
  - destruct (advance_frontier F N s rs k x l Hst Hord HF Hpts HN Hmin Hxl Hxk) as (s1 & N1 & Hrun1 & Hkp1 & HN1 & rs1 & Hst1 & Hord1 & HF1 & Hpts1 & HNl).
    assert (length rs1 = length rs) as Hlen by (rewrite <- (st_total _ _ Hst1), <- (st_total _ _ Hst); by rewrite (kp_counts _ _ Hkp1)).
    destruct (IH _ N1 s1 rs1 Hst1 Hord1 HF1 Hpts1 HNl ltac:(lia)) as (s' & r & Hrun & Hout). exists s', r. split.
    + apply sruns_get_seq. rewrite Em, Ee. fold w. rewrite Hwk. eapply sruns_seq; [apply sruns_lift, Hyb |]. unfold skips in Esk; rewrite Esk.
      eapply sruns_seq; [exact Hrun1 |]. by rewrite <- Hlen.
    + eapply next_outcome_past; eauto. intros k' Hk' Hb'. destruct (Hpast k' Hk' Hb') as [? | [-> | ?]]; auto.
  - destruct Hsh as (v & ex & Hbody & Hsh & Hvl).
    assert (forall n, (length kb < length k)%nat /\ n = length k \/ (length k <= length kb)%nat /\ (length vb < length v)%nat /\ n = length v ->
      next_outcome F N kb vb s s (Err (BufferTooSmall n))) as Hshort.
    { intros n Hn. split; [done |]. exists (fun k' => F k' /\ bytes_le k k'), N. split_and!; [| done | tauto |].
      - apply (frontier_sub F _ N s rs); auto. tauto.
      - exists k, v, n. split_and!; auto; [apply bytes_le_refl | tauto |]. intros k' Hk' Hb'.
        destruct (Hpast k' Hk' Hb') as [? | [-> | ?]]; [left; split; [done | by apply bytes_lt_le] | left; split; [done | apply bytes_le_refl] | by right]. }
    destruct (Nat.ltb_spec (length kb) (w_key_len w)) as [Ekb | Ekb].
    { exists s, (Err (BufferTooSmall (w_key_len w))). split; [| apply Hshort; left; lia]. apply sruns_get_seq. rewrite Em, Ee. fold w. rewrite Hwk.
      eapply sruns_seq; [apply sruns_lift, Hyb |]. unfold skips in Esk; rewrite Esk, (proj2 (Nat.ltb_lt _ _)) by done. apply sruns_fail. }
    destruct (Nat.ltb_spec (length vb) (w_val_len w)) as [Evb | Evb].
    { exists s, (Err (BufferTooSmall (w_val_len w))). split; [| apply Hshort; right; lia]. apply sruns_get_seq. rewrite Em, Ee. fold w. rewrite Hwk.
      eapply sruns_seq; [apply sruns_lift, Hyb |]. unfold skips in Esk; rewrite Esk, (proj2 (Nat.ltb_ge _ _)) by done. cbv zeta.
      rewrite (proj2 (Nat.ltb_lt _ _)) by done. apply sruns_fail. }
    destruct (copy_step s rs k w x l v ex vb Hst Hw Hbody ltac:(lia)) as (s1 & Hrun1 & Hst1 & Hkp1 & Hm1).
    assert (sources s1 rs = sources s rs) as Hs1 by (unfold sources; by rewrite Hm1).
    assert (forall y, items_of s1 rs y <-> items_of s rs y) as Hi1 by (intros y; unfold items_of; by rewrite Hs1).
    destruct (advance_frontier F N s1 rs k x l Hst1) as (s' & N' & Hrun2 & Hkp2 & HN' & Hfr); rewrite ?Hs1; auto.
    { intros y Hy%Hi1. auto. }
    { intros k' Hk' Hb' h. rewrite Hi1, (kp_mx _ _ Hkp1). apply Hpts; [done |]. by apply (kept_below s s1). }
    { intros y Hy%Hi1. auto. }
    exists s', (Ok (Some (w_key_len w, w_val_len w, splice 0 k kb, splice 0 v vb))). split.
    + apply sruns_get_seq. rewrite Em, Ee. fold w. rewrite Hwk. eapply sruns_seq; [apply sruns_lift, Hyb |].
      unfold skips in Esk; rewrite Esk, (proj2 (Nat.ltb_ge _ _)) by done. cbv zeta. rewrite (proj2 (Nat.ltb_ge _ _)) by done.
      eapply sruns_seq; [exact Hrun1 |]. rewrite Hkl, take_splice_front by lia. eapply sruns_seq; [exact Hrun2 |]. apply sruns_ret.
    + split; [by etrans |]. exists (fun k' => F k' /\ bytes_lt k k'), N'. split_and!; [done | lia | tauto |].
      exists k, v. split_and!; auto; [tauto |]. intros k' Hk' Hb'. destruct (Hpast k' Hk' Hb') as [? | ?]; auto.
Qed.

Lemma rest_bound (rs : list (TableRef * list SstEntry)) : forall cs,
  (length rs <= length cs)%nat ->
  (forall j t es, rs !! j = Some (t, es) -> (length es <= cursor_bound (nth j cs (cursor_empty KEY_MAX)))%nat) ->
  (length (concat (map table_items rs)) <= sum_list_with cursor_bound cs)%nat.
Proof.
  induction rs as [|[t es] rs IH]; intros cs Hl Hb; [cbn; lia |]. destruct cs as [|c cs]; [cbn in Hl; lia |].
  cbn [map concat sum_list_with]. rewrite length_app. unfold table_items at 1. rewrite length_map.
  pose proof (Hb 0%nat t es eq_refl) as H0. cbn [nth] in H0. specialize (IH cs ltac:(cbn in Hl; lia) (fun j => Hb (S j))).
  cbn [snd]. lia.
Qed.

Lemma total_step s rs : standing s rs -> total_cursors LEVELS s = length rs.
Proof. intros Hst. unfold total_cursors. rewrite take_ge by (rewrite (st_counts _ _ Hst); lia). apply (st_total _ _ Hst). Qed.

(** One call. *)
Lemma next_step F N s kb vb : frontier F N s ->
  exists s' r, sruns (next KEY_MAX VAL_MAX LEVELS db kb vb) s s' r /\ next_outcome F N kb vb s s' r.
Proof.
  intros (rs & Hst & Hord & HF & Hpts & HN). set (n := length (concat (sources s rs))) in *.
  assert (n <= next_bound db s)%nat as Hn.
  { unfold n, sources, next_bound. cbn [concat]. rewrite length_app, length_map.
    pose proof (filter_length (mem_vis (sn_max_seq s)) (drop (mem_idx s) mem)) as Hl. rewrite length_drop, mem_len in Hl.
    pose proof (rest_bound rs (cursors s) (st_pool _ _ Hst)) as Hr. unfold mem_rest.
    enough (length (concat (map table_items rs)) <= sum_list_with cursor_bound (cursors s))%nat by lia.
    apply Hr. intros j t es Hj. eapply curs_bound. by apply (st_cur _ _ Hst). }
  destruct (next_loop_step kb vb (S (next_bound db s)) F n s rs Hst Hord HF Hpts ltac:(lia) ltac:(lia)) as (s' & r & Hrun & Hkp & F' & N' & Hf & HN' & Hsub & Hr).
  exists s', r. split.
  - unfold next. apply sruns_get_seq. by rewrite (total_step s rs Hst).
  - split; [done |]. exists F', N'. split_and!; [done | lia | done |]. destruct r as [[[[[kl vl] kb'] vb'] |] | e]; [| done | done].
    destruct Hr as (k & v & ? & ? & ? & ? & Hr). exists k, v. split_and!; try tauto. lia.
Qed.
End merge.
