(* ===== verification/ScanSeek.v ===== *)
(** * Seeking and draining a forward scan: [src/scan.rs]

    [seek] puts the scan before every key of its range; the calls of [next] then list
    exactly what point reads of those keys would show. *)

From stdpp Require Import base numbers list sets sorting.
From Stdlib Require Import ZArith Lia Sorting.Sorted.
From S2P Require Import Prelude Device Compress Version Slots Cache Memtable Wal Manifest ManifestPool SstPlan SstWriter SstReader SstBlock SstImage SstIndex SstRdel SstTable SstBuild Db DbRead Scan ScanPark ScanMerge.

Lemma sum_insert (l : list nat) i n : (i < length l)%nat ->
  (sum_list_with id (<[i := n]> l) + nth i l 0 = sum_list_with id l + n)%nat.
Proof.
  revert i. induction l as [|x l IH]; intros [|i] Hi; cbn [length] in Hi; try lia.
  - change (n + sum_list_with id l + x = x + sum_list_with id l + n)%nat. lia.
  - specialize (IH i ltac:(lia)). change (x + sum_list_with id (<[i := n]> l) + nth i l 0 = x + sum_list_with id l + n)%nat. lia.
Qed.

(** Nothing is counted from [i] on. *)
Lemma sum_upto (l : list nat) i : (forall j, (i <= j)%nat -> nth j l 0%nat = 0%nat) -> sum_list_with id l = sum_list_with id (take i l).
Proof.
  revert i. induction l as [|x l IH]; intros i Hz; [by destruct i |]. destruct i as [|i]; cbn.
  - specialize (Hz 0%nat ltac:(lia)) as H0. cbn in H0. rewrite H0, (IH 0%nat); [by rewrite take_0 |]. intros j _. apply (Hz (S j)). lia.
  - rewrite (IH i); [done |]. intros j Hj. apply (Hz (S j)). lia.
Qed.

Lemma take_insert_above {A} (l : list A) i j x : (i <= j)%nat -> take i (<[j := x]> l) = take i l.
Proof. intros. by rewrite take_insert_ge by lia. Qed.

Lemma map_concat_ext {A B} (f g : A -> list B) l : (forall x, f x = g x) -> concat (map f l) = concat (map g l).
Proof. intros Hf. f_equal. by apply map_ext. Qed.

Section seeking.
  Context {D E : Type} `{Laws : DeviceLaws D E}.
  Context (KEY_MAX VAL_MAX LEVELS TABLES CAP ARENA BLOOM_BYTES : nat).
  Context (HB : (49 <= BLOCK)%nat) (Hbloom : (BLOOM_BYTES + CRC_LEN <= BLOCK)%nat).
  Context (db : Db D) (L : u32 -> u64 -> Prop) (contents : TableRef -> Contents).
  Context (Hsb : scannable KEY_MAX VAL_MAX LEVELS TABLES CAP ARENA BLOOM_BYTES db L contents).

  Abbreviation dev := (device (db_wal db)).
  Abbreviation sruns := (sruns dev L).
  Abbreviation curs_rem := (curs_rem BLOOM_BYTES db L contents).
  Abbreviation mem_stands := (mem_stands KEY_MAX VAL_MAX db).
  Abbreviation standing := (standing KEY_MAX VAL_MAX LEVELS BLOOM_BYTES db L contents).

(** ** One table *)

(** Where the cursor of a table starts: a narrowed table's entries below its first key
    are dead. *)
Definition seek_from (start : bytes) (t : TableRef) : bytes :=
  if bytes_ltb (as_slice (Manifest.first_key t)) start then start else as_slice (Manifest.first_key t).

(** The entries of a table from there on that the scan may see. *)
Definition from_start (mx : u64) (start : bytes) (t : TableRef) : list SstEntry :=
  List.filter (shows mx (Some (seek_from start t))) (contents t).1.

Lemma seek_from_le start t k :
  bytes_le (seek_from start t) k <-> bytes_le start k /\ bytes_le (as_slice (Manifest.first_key t)) k.
Proof.
  unfold seek_from. destruct (bytes_ltb (as_slice (Manifest.first_key t)) start) eqn:El.
  - apply bytes_ltb_spec in El. split; [| tauto]. intros Hk. split; [done |]. etrans; [apply bytes_lt_le, El | done].
  - split; [| tauto]. intros Hk. split; [| done]. etrans; [| exact Hk].
    destruct (bytes_lt_trichotomy (as_slice (Manifest.first_key t)) start) as [G | [<- | G]].
    + apply bytes_ltb_spec in G. congruence.
    + apply bytes_le_refl.
    + by apply bytes_lt_le.
Qed.

(** The table's bounds put it outside the range. *)
Definition pruned (s : Scan) (start : bytes) (t : TableRef) : bool :=
  bytes_ltb (as_slice (Manifest.last_key t)) start || (sn_has_end s && bytes_leb (end_bound s) (as_slice (Manifest.first_key t))).

(** The cursors a table gets: none or one. *)
Definition seek_of (s : Scan) (start : bytes) (t : TableRef) : list (TableRef * list SstEntry) :=
  if pruned s start t then [] else match (contents t).1 with [] => [] | _ => [(t, from_start (sn_max_seq s) start t)] end.

Lemma filter_above mx start es e r :
  key_ordered es -> seek_in (shows mx (Some start)) es = Some (e, r) ->
  List.filter (shows mx (Some start)) es = e :: List.filter (shows mx None) r.
Proof.
  intros Hko Hs. rewrite seek_in_filter, Hs. f_equal. apply seek_in_split in Hs as (pre & -> & Hse & _).
  apply key_ordered_app in Hko as (_ & Hko & _). apply StronglySorted_inv in Hko as [_ Hf]. rewrite Forall_forall in Hf.
  unfold shows in Hse. apply andb_true_iff in Hse as [_ Hse%bytes_leb_spec].
  apply filter_ext_in. intros a Ha. unfold shows. do 2 f_equal. apply bytes_leb_spec. etrans; [exact Hse |].
  apply Hf. by apply list_elem_of_In.
Qed.

(** The scan once the cursors of the first [n] levels have a place. *)
Record seeking (n : nat) (s : Scan) (rs : list (TableRef * list SstEntry)) : Prop := {
  sk_buf : buffered db s;
  sk_mem : mem_stands s;
  sk_counts : length (cursor_counts s) = LEVELS;
  sk_bases : length (level_base s) = LEVELS;
  sk_base : forall l, (l < n)%nat -> (l < LEVELS)%nat -> nth l (level_base s) 0%nat = sum_list_with id (take l (cursor_counts s));
  sk_zero : forall l, (n <= l)%nat -> nth l (cursor_counts s) 0%nat = 0%nat;
  sk_total : sum_list_with id (cursor_counts s) = length rs;
  sk_pool : (length rs <= length (cursors s))%nat;
  sk_cur : forall j t es, rs !! j = Some (t, es) -> curs_rem (sn_max_seq s) (cursor_at KEY_MAX s j) t es;
}.

(** What seeking the tables leaves alone. *)
Record ranged (s s' : Scan) : Prop := {
  rg_mx : sn_max_seq s' = sn_max_seq s;
  rg_now : sn_now s' = sn_now s;
  rg_has : sn_has_end s' = sn_has_end s;
  rg_end : end_bound s' = end_bound s;
  rg_mem : mem_rest db s' = mem_rest db s;
  rg_pool : length (cursors s') = length (cursors s);
}.

#[local] Instance ranged_preorder : PreOrder ranged.
Proof. split; [intros s; by split | intros a b c [] []; split; congruence]. Qed.

Lemma next_slot li s rs : seeking (S li) s rs -> (li < LEVELS)%nat -> pool_idx s li (nth li (cursor_counts s) 0%nat) = length rs.
Proof.
  intros Hs Hli. unfold pool_idx. rewrite (sk_base _ _ _ Hs) by lia. rewrite <- (sk_total _ _ _ Hs).
  rewrite (sum_upto (cursor_counts s) (S li)) by (intros; apply (sk_zero _ _ _ Hs); lia).
  destruct (lookup_lt_is_Some_2 (cursor_counts s) li) as [x Hx]; [rewrite (sk_counts _ _ _ Hs); lia |].
  rewrite (take_S_r _ _ _ Hx), sum_list_with_app, nth_lookup, Hx. cbn. unfold id. lia.
Qed.

Lemma seeking_add li s rs c blk id t es :
  seeking (S li) s rs -> (li < LEVELS)%nat -> (length rs < length (cursors s))%nat -> buffered db (with_block s blk id) ->
  curs_rem (sn_max_seq s) c t es -> seeking (S li) (add_to li c (with_block s blk id)) (rs ++ [(t, es)]).
Proof.
  intros Hs Hli Hroom Hb Hc. pose proof (next_slot li s rs Hs Hli) as Hslot.
  assert (cursors (add_to li c (with_block s blk id)) = <[length rs := c]> (cursors s)) as Hcs by (rewrite <- Hslot; done).
  assert (cursor_counts (add_to li c (with_block s blk id)) = <[li := (nth li (cursor_counts s) 0 + 1)%nat]> (cursor_counts s)) as Hct by done.
  destruct Hs. split; try done.
  - apply (mem_stands_put KEY_MAX VAL_MAX db s (length rs) c blk id) in sk_mem0. destruct sk_mem0 as (? & ? & Hm). split_and!; auto.
    cbn [mem_live add_to put_cursor with_cursors with_block] in *. destruct (mem_live s); [| done]. destruct Hm as [e []]. exists e. by split.
  - rewrite Hct. by rewrite length_insert.
  - intros l Hl Hl'. rewrite Hct, take_insert_above by lia. by apply sk_base0.
  - intros l Hl. rewrite Hct, nth_lookup, list_lookup_insert_ne, <- nth_lookup by lia. by apply sk_zero0.
  - rewrite Hct. pose proof (sum_insert (cursor_counts s) li (nth li (cursor_counts s) 0 + 1) ltac:(lia)). rewrite length_app. cbn. lia.
  - rewrite Hcs, length_insert, length_app. cbn. lia.
  - intros j t' es' Hj. unfold cursor_at. rewrite Hcs, nth_lookup. change (sn_max_seq (add_to li c (with_block s blk id))) with (sn_max_seq s).
    apply lookup_app_Some in Hj as [Hj | [Hge Hj]].
    + rewrite list_lookup_insert_ne by (apply lookup_lt_Some in Hj; lia). rewrite <- nth_lookup. by apply sk_cur0.
    + apply list_lookup_singleton_Some in Hj as [Hz Heq]. injection Heq as <- <-. replace j with (length rs) by lia.
      by rewrite list_lookup_insert_eq.
Qed.

Lemma add_table li s rs start t :
  seeking (S li) s rs -> (li < LEVELS)%nat -> (length rs < length (cursors s))%nat -> t ∈ tables (db_manifest db) -> pruned s start t = false ->
  exists s', sruns (add_cursor KEY_MAX db t li (seek_from start t)) s s' (Ok tt) /\
    seeking (S li) s' (rs ++ seek_of s start t) /\ ranged s s' /\ level_base s' = level_base s.
Proof.
  intros Hs Hli Hroom Ht Hpr. unfold seek_of. rewrite Hpr.
  pose proof (rb_tables _ _ _ _ _ _ _ _ _ _ (sb_read _ _ _ _ _ _ _ _ _ _ Hsb) t Ht) as Hok.
  destruct (tk_on _ _ _ _ _ _ Hok) as (blks & rbs & k & ec & ms & Eb & Er & Hon & Ecount & Erdel).
  assert (forall i, (i < length blks + length rbs + 3)%nat -> L (t_id t) (first_block t + Z.of_nat i)%Z) as HL
    by (intros i Hlt; apply (tk_live _ _ _ _ _ _ Hok); lia).
  assert (table_blocks BLOOM_BYTES db L contents t blks) as Htb by (exists rbs, k, ec, ms; done).
  pose proof (block_keys KEY_MAX VAL_MAX LEVELS TABLES CAP ARENA BLOOM_BYTES db L contents Hsb t blks Ht Htb) as Hkeys.
  assert (key_ordered (concat blks)) as Hko by (rewrite Eb; apply version_key_ordered, Hok).
  set (from := seek_from start t).
  destruct (decide (blks = [])) as [-> | Hne].
  - exists s. split_and!; [by apply (add_none KEY_MAX BLOOM_BYTES db L t [] rbs k ec ms Hon Ecount Erdel (tk_end _ _ _ _ _ _ Hok)) | | done | done].
    rewrite <- Eb, app_nil_r. done.
  - destruct (add_step HB KEY_MAX BLOOM_BYTES db L t blks rbs k ec ms Hon HL Hbloom Ecount Erdel (tk_end _ _ _ _ _ _ Hok) s li from
      Hko Hkeys Hne) as (c & blk & id & Hrun & Hb & _ & Hres); [by rewrite (next_slot li s rs) | apply (sk_buf _ _ _ Hs) |].
    exists (add_to li c (with_block s blk id)). split_and!; [done | | | done].
    + assert ((contents t).1 <> []) as Hne'.
      { rewrite <- Eb. destruct blks as [|es bs]; [done |]. destruct (to_data _ _ _ _ _ _ _ _ Hon 0%nat es eq_refl) as (Hw & _).
        pose proof (bw_nonempty _ Hw). cbn. by destruct es. }
      assert (match (contents t).1 with [] => [] | _ => [(t, from_start (sn_max_seq s) start t)] end = [(t, from_start (sn_max_seq s) start t)]) as ->
        by (by destruct (contents t).1).
      apply seeking_add; auto. rewrite Eb in *. split; [done |]. unfold from_start. fold from.
      destruct (seek_in _ _) as [[e after] |] eqn:Esk.
      * rewrite (filter_above _ _ _ _ _ Hko Esk). exists blks, after. done.
      * rewrite seek_in_filter, Esk. done.
    + split; try done. cbn. by rewrite length_insert.
Qed.

Lemma seek_of_ranged s s' start t : ranged s s' -> seek_of s' start t = seek_of s start t.
Proof. intros []. unfold seek_of, pruned. by rewrite rg_mx0, rg_has0, rg_end0. Qed.

Lemma seek_of_length s start t : (length (seek_of s start t) <= 1)%nat.
Proof. unfold seek_of. destruct (pruned s start t); [cbn; lia |]. destruct (contents t).1; cbn; lia. Qed.

Lemma seeks_length s start ts : (length (concat (map (seek_of s start) ts)) <= length ts)%nat.
Proof.
  induction ts as [|t ts IH]; [cbn; lia |]. cbn [map concat]. rewrite length_app. pose proof (seek_of_length s start t).
  cbn [length]. lia.
Qed.

(** ** Levels *)

Lemma seek_tables_step start li : (li < LEVELS)%nat -> forall ts s rs,
  seeking (S li) s rs -> (forall t, t ∈ ts -> t ∈ tables (db_manifest db)) -> (length rs + length ts <= length (cursors s))%nat ->
  exists s', sruns (seek_tables KEY_MAX db ts li start) s s' (Ok tt) /\ seeking (S li) s' (rs ++ concat (map (seek_of s start) ts)) /\
    ranged s s' /\ level_base s' = level_base s.
Proof.
  intros Hli. induction ts as [|t ts IH]; intros s rs Hs Hts Hroom; cbn [seek_tables map concat].
  { exists s. rewrite app_nil_r. split_and!; try done. apply sruns_ret. }
  cbn [length] in Hroom. assert (t ∈ tables (db_manifest db)) as Ht by (apply Hts; left).
  destruct (pruned s start t) eqn:Ep.
  - destruct (IH s rs Hs) as (s' & Hrun & Hs' & Hrg & Hlb); [intros; apply Hts; by right | lia |]. exists s'. split_and!; auto.
    + apply sruns_get_seq. fold (pruned s start t). rewrite Ep. exact Hrun.
    + unfold seek_of at 1. rewrite Ep. exact Hs'.
  - destruct (add_table li s rs start t Hs Hli ltac:(lia) Ht Ep) as (s1 & Hrun1 & Hs1 & Hrg1 & Hlb1).
    pose proof (seek_of_length s start t) as Hl1.
    destruct (IH s1 _ Hs1) as (s' & Hrun & Hs' & Hrg & Hlb);
      [intros; apply Hts; by right | rewrite (rg_pool _ _ Hrg1), length_app; lia |].
    exists s'. split_and!; [| | by etrans | congruence].
    + apply sruns_get_seq. fold (pruned s start t). rewrite Ep. by eapply sruns_seq.
    + rewrite <- app_assoc in Hs'. erewrite (map_ext (seek_of s1 start)) in Hs' by (intros; by apply seek_of_ranged). exact Hs'.
Qed.

Lemma seeking_level li s rs : seeking li s rs -> (li < LEVELS)%nat ->
  seeking (S li) (with_cursors s (cursors s) (cursor_counts s) (<[li := length rs]> (level_base s))) rs.
Proof.
  intros [] Hli. split; auto.
  - destruct sk_mem0 as (? & ? & Hm). split_and!; auto. cbn [mem_live with_cursors].
    destruct (mem_live s); [| done]. destruct Hm as [e []]. exists e. by split.
  - cbn. by rewrite length_insert.
  - intros l Hl Hl'. cbn. rewrite nth_lookup. destruct (decide (l = li)) as [-> | Hne].
    + rewrite list_lookup_insert_eq by lia. cbn. by rewrite <- sk_total0, (sum_upto _ li).
    + rewrite list_lookup_insert_ne, <- nth_lookup by done. apply sk_base0; lia.
  - intros l Hl. apply sk_zero0. lia.
Qed.

(** The tables by level. *)
Abbreviation levels_from li n := (concat (map (level_refs (db_manifest db)) (List.seq li n))).

Lemma seek_levels_step start : forall n li s rs,
  (li + n = LEVELS)%nat -> seeking li s rs ->
  (forall t, t ∈ levels_from li n -> t ∈ tables (db_manifest db)) ->
  (length rs + length (levels_from li n) <= length (cursors s))%nat ->
  exists s', sruns (seek_levels KEY_MAX LEVELS db n li (length rs) start) s s' (Ok tt) /\
    standing s' (rs ++ concat (map (seek_of s start) (levels_from li n))) /\ ranged s s'.
Proof.
  induction n as [|n IH]; intros li s rs Hln Hs Hts Hroom; cbn [seek_levels List.seq map concat].
  { exists s. rewrite app_nil_r. assert (li = LEVELS) as -> by lia. split_and!; [apply sruns_ret | | done].
    destruct Hs. split; auto. }
  cbn [List.seq map concat] in Hts, Hroom. rewrite length_app in Hroom. set (ts := level_refs (db_manifest db) li) in *.
  pose proof (seeking_level li s rs Hs ltac:(lia)) as Hs0. set (s0 := with_cursors _ _ _ _) in *.
  assert (ranged s s0) as Hrg0 by done.
  destruct (seek_tables_step start li ltac:(lia) ts s0 rs Hs0) as (s1 & Hrun1 & Hs1 & Hrg1 & Hlb1).
  { intros t Ht. apply Hts, elem_of_app. by left. }
  { cbn. lia. }
  set (rs1 := rs ++ concat (map (seek_of s0 start) ts)) in *.
  assert (length rs1 <= length rs + length ts)%nat as Hl1.
  { unfold rs1. rewrite length_app. pose proof (seeks_length s0 start ts). lia. }
  destruct (IH (S li) s1 rs1 ltac:(lia) Hs1) as (s' & Hrun & Hs' & Hrg).
  { intros t Ht. apply Hts, elem_of_app. by right. }
  { rewrite (rg_pool _ _ Hrg1). cbn. lia. }
  exists s'. split_and!; [| | by etrans; [exact Hrg0 | etrans]].
  - apply sruns_mod_seq. unfold level. rewrite (proj2 (Nat.leb_gt _ _)) by lia. cbn [default from_option id].
    eapply sruns_seq; [exact Hrun1 |]. apply sruns_get_seq. pose proof (next_slot li s1 rs1 Hs1 ltac:(lia)) as Hns.
    unfold pool_idx in Hns. rewrite Hlb1 in Hns. cbn in Hns.
    rewrite nth_lookup, list_lookup_insert_eq in Hns by (rewrite (sk_bases _ _ _ Hs); lia). cbn in Hns. rewrite Hns, Nat.add_1_r. exact Hrun.
  - rewrite map_app, concat_app, app_assoc. change (seek_of s start) with (seek_of s0 start).
    erewrite (map_ext (seek_of s1 start)) in Hs' by (intros; by apply seek_of_ranged). exact Hs'.
Qed.

(** ** The range *)

(** The buffers of a scan, new or used. *)
Record shaped (s : Scan) : Prop := {
  sp_block : length (sn_block s) = BLOCK;
  sp_end : length (sn_end s) = KEY_MAX;
  sp_key : length (mem_key s) = KEY_MAX;
  sp_val : length (mem_val s) = VAL_MAX;
  sp_pool : length (cursors s) = (LEVELS * TABLES)%nat;
  sp_bases : length (level_base s) = LEVELS;
}.

Lemma levels_room : (length (levels_from 0 LEVELS) <= LEVELS * TABLES)%nat.
Proof.
  destruct (rb_pool _ _ _ _ _ _ _ _ _ _ (sb_read _ _ _ _ _ _ _ _ _ _ Hsb)) as [T HT].
  assert (forall n, (n <= LEVELS)%nat -> length (levels_from 0 n) = length (ManifestPool.below n T)) as Hn.
  { induction n as [|n IH]; intros Hn.
    - unfold ManifestPool.below. rewrite filter_nothing; [done |]. apply Forall_forall. lia.
    - rewrite seq_S, map_app, concat_app, length_app, IH, length_below_S by lia. cbn [map concat Nat.add]. rewrite app_nil_r.
      by rewrite (level_repr _ _ _ _ _ HT) by lia. }
  rewrite Hn by done. pose proof (pr_len _ _ _ _ _ HT). unfold CAPACITY in *. unfold ManifestPool.below.
  pose proof (length_filter (fun p : nat * TableRef => (p.1 < LEVELS)%nat) T). lia.
Qed.

Lemma elem_of_levels_from t : t ∈ levels_from 0 LEVELS <-> t ∈ tables (db_manifest db).
Proof.
  rewrite (elem_of_levels KEY_MAX LEVELS TABLES) by apply (sb_read _ _ _ _ _ _ _ _ _ _ Hsb). rewrite list_elem_of_In, in_concat. split.
  - intros (l & Hl & Ht). apply in_map_iff in Hl as (i & <- & Hi%in_seq). exists i. split; [lia | by apply list_elem_of_In].
  - intros (i & Hi & Ht). eexists. split; [| by apply list_elem_of_In]. apply in_map_iff. exists i. split; [done |]. apply in_seq. lia.
Qed.

(** What is kept of the memtable, and of a table, is in order. *)
Lemma kept_mem_order (f : Entry -> bool) l : StronglySorted before l -> Forall (fun e => (0 < Memtable.seq e)%Z) l ->
  in_order (map (mem_item db) (List.filter f l)).
Proof.
  intros Hso Hq. induction Hso as [|e l Hso IH Hf]; [constructor |]. apply Forall_cons in Hq as [He Hq]. cbn [List.filter].
  destruct (f e); [| auto]. cbn [map]. constructor; [by apply IH |]. apply Forall_forall. intros y Hy.
  apply list_elem_of_fmap in Hy as (b & -> & Hb). apply list_elem_of_In, filter_In in Hb as [Hb _]. apply list_elem_of_In in Hb.
  rewrite Forall_forall in Hf, Hq. specialize (Hf b Hb). specialize (Hq b Hb).
  destruct Hf as [Hlt | [Heq Hlt]]; [by left | right]. split; [done |]. intros v. apply version_below. lia.
Qed.

Lemma kept_table_order (f : SstEntry -> bool) t : t ∈ tables (db_manifest db) -> in_order (table_items (t, List.filter f (contents t).1)).
Proof.
  intros Ht. pose proof (rb_tables _ _ _ _ _ _ _ _ _ _ (sb_read _ _ _ _ _ _ _ _ _ _ Hsb) t Ht) as Hok.
  pose proof (tk_order _ _ _ _ _ _ Hok) as Hso. pose proof (tk_seqs _ _ _ _ _ _ Hok) as Hq. unfold table_items. cbn [fst snd].
  induction Hso as [|e l Hso IH Hf]; [constructor |]. apply Forall_cons in Hq as [He Hq]. cbn [List.filter].
  destruct (f e); [| auto]. cbn [map]. constructor; [by apply IH |]. apply Forall_forall. intros y Hy.
  apply list_elem_of_fmap in Hy as (b & -> & Hb). apply list_elem_of_In, filter_In in Hb as [Hb _]. apply list_elem_of_In in Hb.
  rewrite Forall_forall in Hf, Hq. specialize (Hf b Hb). specialize (Hq b Hb).
  destruct Hf as [Hlt | [Heq Hlt]]; [by left | right]. split; [done |]. intros v. apply version_below. lia.
Qed.

(** The memtable from [start] on. *)
Lemma mem_items_order s : in_order (map (mem_item db) (mem_rest db s)).
Proof.
  unfold mem_rest. pose proof (rb_mem _ _ _ _ _ _ _ _ _ _ (sb_read _ _ _ _ _ _ _ _ _ _ Hsb)) as Hw.
  pose proof (wf_sorted _ _ _ Hw) as Hso. pose proof (sb_seqs _ _ _ _ _ _ _ _ _ _ Hsb) as Hq.
  rewrite <- (take_drop (mem_idx s) (iter (db_table db))) in Hso, Hq. apply StronglySorted_app_1_r in Hso.
  apply Forall_app in Hq as [_ Hq]. by apply kept_mem_order.
Qed.

Lemma table_items_order mx start t : t ∈ tables (db_manifest db) -> in_order (table_items (t, from_start mx start t)).
Proof. apply kept_table_order. Qed.

Lemma elem_of_sought s start te : te ∈ concat (map (seek_of s start) (levels_from 0 LEVELS)) <->
  exists t, t ∈ tables (db_manifest db) /\ pruned s start t = false /\ (contents t).1 <> [] /\ te = (t, from_start (sn_max_seq s) start t).
Proof.
  rewrite list_elem_of_In, in_concat. split.
  - intros (l & Hl & Hte). apply in_map_iff in Hl as (t & <- & Ht). exists t. apply list_elem_of_In, elem_of_levels_from in Ht.
    unfold seek_of in Hte. destruct (pruned s start t); [done |]. destruct (contents t).1; [done |].
    destruct Hte as [<- | []]. split_and!; done.
  - intros (t & Ht & Hp & Hne & ->). exists (seek_of s start t). split.
    + apply in_map_iff. exists t. split; [done |]. by apply list_elem_of_In, elem_of_levels_from.
    + unfold seek_of. rewrite Hp. destruct (contents t).1; [done |]. by left.
Qed.

(** The sources of a scan that has sought [start]. *)
Lemma elem_of_items s start rs x :
  rs = concat (map (seek_of s start) (levels_from 0 LEVELS)) ->
  items_of db s rs x <->
  (exists e, e ∈ mem_rest db s /\ x = mem_item db e) \/
  (exists t e, t ∈ tables (db_manifest db) /\ pruned s start t = false /\ e ∈ from_start (sn_max_seq s) start t /\ x = sst_item t e).
Proof.
  intros ->. unfold items_of, sources. split.
  - intros (l & [-> | Hl]%elem_of_cons & Hx).
    + left. apply list_elem_of_fmap in Hx as (e & -> & He). eauto.
    + right. apply list_elem_of_fmap in Hl as (te & -> & Hte). apply elem_of_sought in Hte as (t & Ht & Hp & _ & ->).
      unfold table_items in Hx. cbn [fst snd] in Hx. apply list_elem_of_fmap in Hx as (e & -> & He). eauto 10.
  - intros [(e & He & ->) | (t & e & Ht & Hp & He & ->)].
    + eexists. split; [left |]. apply list_elem_of_fmap. eauto.
    + exists (table_items (t, from_start (sn_max_seq s) start t)). split.
      * right. apply list_elem_of_fmap. eexists. split; [reflexivity |]. apply elem_of_sought. exists t. split_and!; auto.
        intros E0. unfold from_start in He. rewrite E0 in He. by apply not_elem_of_nil in He.
      * unfold table_items. apply list_elem_of_fmap. eauto.
Qed.

Lemma from_start_spec mx start t e :
  e ∈ from_start mx start t <-> e ∈ (contents t).1 /\ (se_seq e <= mx)%Z /\ bytes_le start (se_key e) /\
    bytes_le (as_slice (Manifest.first_key t)) (se_key e).
Proof.
  unfold from_start. rewrite list_elem_of_In, filter_In, <- list_elem_of_In. unfold shows.
  rewrite andb_true_iff, Z.leb_le, bytes_leb_spec, seek_from_le. done.
Qed.

Lemma mem_rest_spec s start e : mem_rest db s = List.filter (mem_vis (sn_max_seq s)) (drop (lower_bound (db_table db) start) (iter (db_table db))) ->
  e ∈ mem_rest db s <-> e ∈ iter (db_table db) /\ range_del e = false /\ (Memtable.seq e <= sn_max_seq s)%Z /\ bytes_le start (Memtable.key e).
Proof.
  intros ->. pose proof (rb_mem _ _ _ _ _ _ _ _ _ _ (sb_read _ _ _ _ _ _ _ _ _ _ Hsb)) as Hw.
  destruct (find_run_spec _ start Hw) as (_ & [Hlo Hhi] & _). rewrite Forall_forall in Hlo, Hhi.
  rewrite list_elem_of_In, filter_In, <- list_elem_of_In. unfold mem_vis. rewrite andb_true_iff, Z.leb_le, negb_true_iff. split.
  - intros (He & ? & ?). specialize (Hhi e He). split_and!; auto. rewrite <- (take_drop (lower_bound (db_table db) start) (iter (db_table db))).
    apply elem_of_app. by right.
  - intros (He & ? & ? & Hle). split_and!; auto. rewrite <- (take_drop (lower_bound (db_table db) start) (iter (db_table db))) in He.
    apply elem_of_app in He as [He | ?]; [| done]. specialize (Hlo e He). pose proof (bytes_lt_le_trans _ _ _ Hlo Hle) as Hx.
    by apply irreflexivity in Hx; [| apply _].
Qed.

Lemma not_pruned s start t k : bytes_le start k -> below s k -> covers t k = true -> pruned s start t = false.
Proof.
  intros Hk Hb Hc. unfold covers in Hc. apply andb_true_iff in Hc as [Hf%bytes_leb_spec Hl%bytes_leb_spec]. unfold pruned.
  apply orb_false_iff. split.
  - destruct (bytes_ltb _ _) eqn:El; [| done]. apply bytes_ltb_spec in El.
    assert (bytes_lt k k) as Hx by (eapply bytes_le_lt_trans; [exact Hl |]; by eapply bytes_lt_le_trans). by apply irreflexivity in Hx; [| apply _].
  - destruct (sn_has_end s) eqn:Eh; [| done]. cbn. destruct (bytes_leb _ _) eqn:El; [| done]. apply bytes_leb_spec in El.
    assert (bytes_lt k k) as Hx by (eapply bytes_lt_le_trans; [exact (Hb Eh) |]; by etrans). by apply irreflexivity in Hx; [| apply _].
Qed.

(** The sources hold every version of the keys of the range. *)
Lemma sought_frontier s start rs :
  standing s rs -> rs = concat (map (seek_of s start) (levels_from 0 LEVELS)) ->
  mem_rest db s = List.filter (mem_vis (sn_max_seq s)) (drop (lower_bound (db_table db) start) (iter (db_table db))) ->
  frontier KEY_MAX VAL_MAX LEVELS BLOOM_BYTES db L contents (bytes_le start) (length (concat (sources db s rs))) s.
Proof.
  intros Hst Ers Hm. exists rs. split_and!; [done | | | | done].
  - apply Forall_forall. intros l [-> | Hl]%elem_of_cons; [apply mem_items_order |].
    apply list_elem_of_fmap in Hl as (te & -> & Hte). rewrite Ers in Hte. apply elem_of_sought in Hte as (t & Ht & _ & _ & ->).
    by apply table_items_order.
  - intros x Hx. apply (elem_of_items s start rs x Ers) in Hx as [(e & He & ->) | (t & e & _ & _ & He & ->)]; cbn.
    + apply (mem_rest_spec s start e Hm) in He. tauto.
    + apply from_start_spec in He. tauto.
  - intros k Hk Hb h. rewrite (elem_of_items s start rs _ Ers). split.
    + intros [e He (<- & Hr & Hq) | t e Ht Hc He <- Hq].
      * left. exists e. split; [| done]. by apply (mem_rest_spec s start e Hm).
      * right. exists t, e. split_and!; auto; [by eapply not_pruned |]. apply from_start_spec. unfold covers in Hc. rewrite andb_true_iff, bytes_leb_spec in Hc. tauto.
    + intros [(e & He & Heq) | (t & e & Ht & Hp & He & Heq)]; injection Heq as -> ->.
      * apply (mem_rest_spec s start e Hm) in He as (He & Hr & Hq & _). by constructor.
      * apply from_start_spec in He as (He & Hq & _ & Hfk). constructor; auto. unfold covers. apply andb_true_iff.
        split; apply bytes_leb_spec; [done |]. by apply (sb_span _ _ _ _ _ _ _ _ _ _ Hsb t e Ht He).
Qed.

(** [seek]: the scan is before every key of the range. *)
Lemma seek_step s start end_ mx now :
  shaped s -> (length start <= KEY_MAX)%nat -> (forall e, end_ = Some e -> e <> [] /\ (length e <= KEY_MAX)%nat) ->
  exists s' N, sruns (seek_with_time KEY_MAX VAL_MAX LEVELS db start end_ mx now) s s' (Ok tt) /\
    frontier KEY_MAX VAL_MAX LEVELS BLOOM_BYTES db L contents (bytes_le start) N s' /\
    sn_max_seq s' = mx /\ sn_now s' = now /\ (forall k, below s' k <-> forall e, end_ = Some e -> bytes_lt k e).
Proof.
  intros Hsh Hs He. set (eb := match end_ with Some e => splice 0 e (sn_end s) | None => sn_end s end).
  set (el := match end_ with Some e => length e | None => 0%nat end). set (he := match end_ with Some _ => true | None => false end).
  set (s0 := with_range s (splice 0 start (sn_start s)) (length start) eb el he mx now None).
  set (s1 := with_mem s0 (lower_bound (db_table db) start) (mem_live s0)).
  destruct (advance_mem_step KEY_MAX VAL_MAX LEVELS TABLES CAP ARENA BLOOM_BYTES HB Hbloom db L contents Hsb s1) as (s2 & Hrun2 & Hms2 & Hmr2 & Hkp2 & Hc2 & Hb2 & Hi2);
    [apply (sp_key _ Hsh) | apply (sp_val _ Hsh) |].
  set (s3 := with_cursors s2 (cursors s2) (replicate LEVELS 0%nat) (level_base s2)).
  assert (seeking 0 s3 []) as Hsk.
  { assert (forall l, nth l (replicate LEVELS 0%nat) 0%nat = 0%nat) as Hz.
    { intros l. destruct (nth_in_or_default l (replicate LEVELS 0%nat) 0%nat) as [Hin | ->]; [| done]. apply list_elem_of_In in Hin.
      by apply elem_of_replicate in Hin as [-> _]. }
    split; cbn; try lia; auto.
    - split; [cbn; rewrite Hb2; apply (sp_block _ Hsh) |]. cbn. rewrite Hi2. done.
    - destruct Hms2 as (? & ? & Hm). split_and!; auto. cbn [mem_live s3 with_cursors]. destruct (mem_live s2); [| done].
      destruct Hm as [e []]. exists e. by split.
    - by rewrite length_replicate.
    - rewrite (kp_base _ _ Hkp2). apply (sp_bases _ Hsh).
    - rewrite (sum_upto _ 0) by auto. by rewrite take_0.
    - by intros j t es ?. }
  destruct (seek_levels_step start LEVELS 0 s3 [] ltac:(lia) Hsk) as (s' & Hrun & Hst & Hrg).
  { intros t Ht. by apply elem_of_levels_from. }
  { cbn [length]. change (cursors s3) with (cursors s2). rewrite Hc2. change (cursors s1) with (cursors s).
    rewrite (sp_pool _ Hsh). pose proof levels_room. lia. }
  assert (sn_max_seq s' = mx) as Hmx by (rewrite (rg_mx _ _ Hrg); apply (kp_mx _ _ Hkp2)).
  exists s'. eexists. split_and!; [| eapply (sought_frontier s' start); [exact Hst | |] | done | |].
  - unfold seek_with_time, ensure_open. rewrite (rb_open _ _ _ _ _ _ _ _ _ _ (sb_read _ _ _ _ _ _ _ _ _ _ Hsb)).
    rewrite (proj2 (Nat.ltb_ge _ _)) by lia. cbv zeta.
    assert (forall f, f s = s0 -> sruns (let# _ := smod f in let# _ := smod (fun s => with_mem s (lower_bound (db_table db) start) (mem_live s)) in
      let# _ := advance_mem (E := E) KEY_MAX VAL_MAX db in let# _ := smod (fun s => with_cursors s (cursors s) (replicate LEVELS 0%nat) (level_base s)) in
      seek_levels KEY_MAX LEVELS db LEVELS 0 0 start) s s' (Ok tt)) as Hgo.
    { intros f Hf. apply sruns_mod_seq. rewrite Hf. apply sruns_mod_seq. eapply sruns_seq; [exact Hrun2 |]. apply sruns_mod_seq. exact Hrun. }
    destruct end_ as [e |]; [| by apply Hgo]. destruct (He e eq_refl) as [Hne Hle]. destruct e as [|b e]; [done |].
    rewrite (proj2 (Nat.ltb_ge _ _)) by lia. by apply Hgo.
  - rewrite app_nil_l. apply map_concat_ext. intros t. symmetry. by apply seek_of_ranged.
  - rewrite (rg_mem _ _ Hrg). change (mem_rest db s3) with (mem_rest db s2). rewrite Hmr2, Hmx. done.
  - rewrite (rg_now _ _ Hrg). apply (kp_now _ _ Hkp2).
  - intros k. unfold below. rewrite (rg_has _ _ Hrg), (rg_end _ _ Hrg). change (sn_has_end s3) with (sn_has_end s2).
    change (end_bound s3) with (end_bound s2). rewrite (kp_has _ _ Hkp2), (kp_end _ _ Hkp2).
    change (sn_has_end s1) with he. change (end_bound s1) with (take el eb). unfold he, el, eb.
    destruct end_ as [e |]; [| split; done]. rewrite take_splice_front by (rewrite (sp_end _ Hsh); by apply He).
    split; [intros Hk ? [= <-]; auto | auto].
Qed.

(** ** Draining *)

(** A caller's loop: [next] until the end, the entries in the order they come. *)
Fixpoint drain (fuel : nat) (kb vb : bytes) : scanm E (list (bytes * bytes)) :=
  match fuel with
  | O => spanic
  | S fuel =>
      let# r := next KEY_MAX VAL_MAX LEVELS db kb vb in
      match r with
      | None => sret []
      | Some (kl, vl, kb, vb) =>
          let# l := drain fuel kb vb in
          sret ((take kl kb, take vl vb) :: l)
      end
  end.

Abbreviation frontier := (frontier KEY_MAX VAL_MAX LEVELS BLOOM_BYTES db L contents).
Abbreviation shown := (shown (E := E) db contents).
Abbreviation hidden := (hidden (E := E) db contents).

(** What a read shows fits the scan's buffers. *)
Lemma read_fits k mx now v : reads (E := E) (db_point db contents k mx) (db_cover db contents k mx) now (replicate (length v) 0%Z) (Ok (Some (length v), v)) ->
  (length k <= KEY_MAX)%nat /\ (length v <= VAL_MAX)%nat.
Proof.
  intros [[_ ?] | (h & Hh & _ & Hb)]; [done |]. destruct (h_body h) as [[v' ex] |] eqn:Eb; [| done].
  destruct Hb as [[_ ?] | (_ & _ & Hr)]; [done |]. assert (length v' = length v) as <-.
  { destruct (_ <? _)%nat; [done |]. by injection Hr. }
  pose proof (sb_read _ _ _ _ _ _ _ _ _ _ Hsb) as Hrd. destruct Hh as [e He (<- & Hrd' & _) | t e Ht _ He <- _]; cbn in Eb.
  - pose proof (sb_keys _ _ _ _ _ _ _ _ _ _ Hsb) as Hk. pose proof (rb_vals _ _ _ _ _ _ _ _ _ _ Hrd) as Hv. unfold mem_ok in Hv.
    rewrite Forall_forall in Hk, Hv. unfold entry_body in Eb. destruct (tombstone e); [done |]. injection Eb as <- _. auto.
  - pose proof (tk_vals _ _ _ _ _ _ (rb_tables _ _ _ _ _ _ _ _ _ _ Hrd t Ht)) as Hv. rewrite Forall_forall in Hv.
    unfold sst_body in Eb. destruct (se_tombstone e); [done |]. injection Eb as <- _. split; [| by apply Hv].
    by apply (sb_span _ _ _ _ _ _ _ _ _ _ Hsb t e Ht He).
Qed.

(** The entries of [F] below the end, in key order and once each. *)
Record listing (F : bytes -> Prop) (s : Scan) (kvs : list (bytes * bytes)) : Prop := {
  ls_sorted : StronglySorted (fun a b => bytes_lt a.1 b.1) kvs;
  ls_shown : forall k v, (k, v) ∈ kvs -> F k /\ below s k /\ shown s k v;
  ls_all : forall k, F k -> below s k -> k ∈ kvs.*1 \/ hidden s k;
}.

Lemma drain_step : forall fuel F N s kb vb,
  frontier F N s -> (N < fuel)%nat -> (KEY_MAX <= length kb)%nat -> (VAL_MAX <= length vb)%nat ->
  exists s' kvs, sruns (drain fuel kb vb) s s' (Ok kvs) /\ listing F s kvs.
Proof.
  induction fuel as [|fuel IH]; intros F N s kb vb Hf HN Hkb Hvb; [lia |]. cbn [drain].
  destruct (next_step KEY_MAX VAL_MAX LEVELS TABLES CAP ARENA BLOOM_BYTES HB Hbloom db L contents Hsb F N s kb vb Hf)
    as (s1 & r & Hrun & Hkp & F' & N' & Hf' & HN' & Hsub & Hr).
  destruct r as [[[[[kl vl] kb'] vb'] |] | e].
  - destruct Hr as (k & v & HFk & Hbk & Hsh & Hlt & Habove & Hrest & -> & -> & Hkl & Hvl & -> & ->).
    destruct (IH F' N' s1 (splice 0 k kb) (splice 0 v vb) Hf' ltac:(lia)) as (s' & kvs & Hrun' & [Hso Hin Hall]);
      [rewrite length_splice; lia | rewrite length_splice; lia |].
    exists s', ((k, v) :: kvs). split.
    + eapply sruns_seq; [exact Hrun |]. cbn beta iota. eapply sruns_seq; [exact Hrun' |].
      rewrite !take_splice_front by lia. apply sruns_ret.
    + split.
      * constructor; [done |]. apply Forall_forall. intros [k' v'] Hk'. by apply Habove, (Hin k' v').
      * intros k' v' [[= -> ->] | Hk']%elem_of_cons; [done |]. destruct (Hin k' v' Hk') as (HF' & Hb' & Hs').
        rewrite (kept_below _ _ _ Hkp) in Hb'. rewrite (kept_shown _ _ _ _ _ _ Hkp) in Hs'. auto.
      * intros k' HF' Hb'. cbn. rewrite elem_of_cons. destruct (Hrest k' HF' Hb') as [HF1 | [-> | Hh]]; auto.
        rewrite <- (kept_below _ _ _ Hkp) in Hb'. destruct (Hall k' HF1 Hb') as [? | Hh]; auto.
        rewrite (kept_hidden _ _ _ _ _ Hkp) in Hh. auto.
  - exists s1, []. split; [eapply sruns_seq; [exact Hrun | apply sruns_ret] |].
    split; [constructor | by intros ? ? ?%not_elem_of_nil | auto].
  - exfalso. destruct Hr as (k & v & n & _ & _ & Hsh & _ & _ & _ & Hn). apply read_fits in Hsh. lia.
Qed.
End seeking.
