(* ===== verification/ScanSpec.v ===== *)
(** * What a forward scan lists

    The contract of [next], and the listing of a whole scan against the specification of
    reads, on any well-formed handle and on every handle a life of the database reaches. *)

From stdpp Require Import base numbers list sets sorting gmap.
From Stdlib Require Import ZArith Lia Sorting.Sorted.
From S2P Require Import Prelude Device Model Compress Version Slots Cache Batch Memtable Wal Manifest ManifestPool ManifestEdit ManifestCodec ManifestLog ManifestCrash SstPlan SstWriter SstReader SstBlock SstImage SstIndex SstRdel SstTable SstBuild Db DbWrite DbOpen DbLayout DbRead DbFlush DbFlushSafe DbFlushKeeps DbLife Scan ScanPark ScanMerge ScanSeek.

(** ** Seeks refused *)

Section refused.
  Context {D E : Type} `{Dev : !BlockDevice D E}.
  Context (KEY_MAX VAL_MAX LEVELS : nat).

(** A refused seek leaves the scan and the cache alone. *)
Lemma seek_refused (db : Db D) start end_ mx now s c :
  (opened db = false -> seek_with_time (E := E) KEY_MAX VAL_MAX LEVELS db start end_ mx now s c = Some (s, c, Err NotOpen)) /\
  (opened db = true -> (KEY_MAX < length start)%nat ->
   seek_with_time (E := E) KEY_MAX VAL_MAX LEVELS db start end_ mx now s c = Some (s, c, Err (KeyTooLarge (length start) KEY_MAX))) /\
  (opened db = true -> (length start <= KEY_MAX)%nat -> end_ = Some [] ->
   seek_with_time (E := E) KEY_MAX VAL_MAX LEVELS db start end_ mx now s c = Some (s, c, Err EmptyKey)) /\
  (forall e, opened db = true -> (length start <= KEY_MAX)%nat -> end_ = Some e -> (KEY_MAX < length e)%nat ->
   seek_with_time (E := E) KEY_MAX VAL_MAX LEVELS db start end_ mx now s c = Some (s, c, Err (KeyTooLarge (length e) KEY_MAX))).
Proof.
  unfold seek_with_time, ensure_open. split_and!.
  - by intros ->.
  - intros -> Hl. by rewrite (proj2 (Nat.ltb_lt _ _)).
  - intros -> Hl ->. by rewrite (proj2 (Nat.ltb_ge _ _)).
  - intros e -> Hl -> He. rewrite (proj2 (Nat.ltb_ge _ _)) by done. destruct e as [|x e]; [cbn in He; lia |].
    by rewrite (proj2 (Nat.ltb_lt _ _)).
Qed.

Lemma scan_new_shaped TABLES : shaped KEY_MAX VAL_MAX LEVELS TABLES (scan_new (D := D) (E := E) KEY_MAX VAL_MAX LEVELS TABLES).
Proof. split; cbn; by rewrite length_replicate. Qed.
End refused.

(** ** The listing *)

Section listing.
  Context {D E : Type} `{Laws : DeviceLaws D E}.
  Context (KEY_MAX VAL_MAX LEVELS TABLES CAP ARENA BLOOM_BYTES : nat).
  Context (HB : (49 <= BLOCK)%nat) (Hbloom : (BLOOM_BYTES + CRC_LEN <= BLOCK)%nat).

(** The range of a scan. *)
Definition in_range (start : bytes) (end_ : option bytes) (k : bytes) : Prop :=
  bytes_le start k /\ forall e, end_ = Some e -> bytes_lt k e.

(** What a point read of [k] answers into a buffer. *)
Abbreviation answers db contents k mx now buf r :=
  (reads (E := E) (db_point db contents k mx) (db_cover db contents k mx) now buf r).

(** [kvs] are the entries of the range, each key once, in order. *)
Record lists (value : bytes -> bytes -> Prop) (none : bytes -> Prop) (range : bytes -> Prop) (kvs : list (bytes * bytes)) : Prop := {
  li_sorted : StronglySorted (fun a b => bytes_lt a.1 b.1) kvs;
  li_value : forall k v, (k, v) ∈ kvs -> range k /\ value k v;
  li_none : forall k, range k -> k ∉ kvs.*1 -> none k;
}.

Lemma scan_lists (db : Db D) L contents s start end_ mx now kb vb c :
  scannable KEY_MAX VAL_MAX LEVELS TABLES CAP ARENA BLOOM_BYTES db L contents -> shaped KEY_MAX VAL_MAX LEVELS TABLES s ->
  (length start <= KEY_MAX)%nat -> (forall e, end_ = Some e -> e <> [] /\ (length e <= KEY_MAX)%nat) ->
  (KEY_MAX <= length kb)%nat -> (VAL_MAX <= length vb)%nat -> truthful (device (db_wal db)) L c ->
  exists fuel s' c' kvs,
    (let# _ := seek_with_time KEY_MAX VAL_MAX LEVELS db start end_ mx now in drain KEY_MAX VAL_MAX LEVELS db fuel kb vb) s c = Some (s', c', Ok kvs) /\
    truthful (device (db_wal db)) L c' /\
    lists (fun k v => answers db contents k mx now (replicate (length v) 0%Z) (Ok (Some (length v), v)))
      (fun k => answers db contents k mx now [] (Ok (None, []))) (in_range start end_) kvs.
Proof.
  intros Hsb Hs Hst He Hkb Hvb Hc.
  destruct (seek_step KEY_MAX VAL_MAX LEVELS TABLES CAP ARENA BLOOM_BYTES HB Hbloom db L contents Hsb s start end_ mx now Hs Hst He)
    as (s1 & N & Hrun1 & Hf & Emx & Enow & Hbelow).
  destruct (drain_step KEY_MAX VAL_MAX LEVELS TABLES CAP ARENA BLOOM_BYTES HB Hbloom db L contents Hsb (S N) _ N s1 kb vb Hf ltac:(lia) Hkb Hvb)
    as (s' & kvs & Hrun2 & [Hso Hin Hall]).
  destruct (sruns_seq _ L _ (fun _ => drain KEY_MAX VAL_MAX LEVELS db (S N) kb vb) _ _ _ _ _ Hrun1 Hrun2 c Hc) as (c' & Em & Hc' & _).
  exists (S N), s', c', kvs. split; [exact Em |]. split; [done |].
  unfold ScanMerge.shown, ScanMerge.hidden in *. rewrite Emx, Enow in *. split.
  - done.
  - intros k v Hk. destruct (Hin k v Hk) as (? & Hb & ?). rewrite Hbelow in Hb. done.
  - intros k [Hk Hb] Hno. apply Hbelow in Hb. destruct (Hall k Hk Hb) as [? | ?]; done.
Qed.
End listing.

(** ** A living database *)

Section living.
  Context {D E : Type} `{Laws : DeviceLaws D E}.
  Context (KEY_MAX VAL_MAX CAP ARENA LEVELS TABLES BLOOM_BYTES : nat).
  Context (Hsh : table_shape (D := D) (E := E) KEY_MAX VAL_MAX CAP ARENA LEVELS TABLES BLOOM_BYTES).

Lemma living_sound db h : living KEY_MAX VAL_MAX CAP ARENA LEVELS TABLES BLOOM_BYTES db h ->
  exists base bs tlog contents, sound KEY_MAX VAL_MAX CAP ARENA LEVELS TABLES BLOOM_BYTES db base bs tlog contents /\
    scannable KEY_MAX VAL_MAX LEVELS TABLES CAP ARENA BLOOM_BYTES db (live_block (db_manifest db)) contents /\ tells db contents h.
Proof.
  intros [(base & bs & tlog & contents & Hs & Ht & Hsp) Hn Hh Hq].
  pose proof (sound_readable _ _ _ _ _ _ _ Hsh _ _ _ _ _ Hs) as Hr. pose proof (sound_seqs _ _ _ _ _ _ _ Hsh _ _ _ _ _ Hs) as Hsq.
  destruct (flush_stream _ _ _ _ _ _ _ Hsh _ _ _ _ _ Hs) as (_ & _ & Hok & _).
  exists base, bs, tlog, contents. split_and!; [exact Hs | | exact Ht]. split; [exact Hr | exact Hsq | | |].
  - eapply Forall_impl; [exact Hok |]. intros e He. by apply He.
  - intros k mx. by apply (one_node_orderly VAL_MAX KEY_MAX LEVELS TABLES CAP ARENA BLOOM_BYTES db _ contents k mx Hr Hsq Hn).
  - intros t e Htt He. destruct (Hsp t e Htt He) as [Hc Hk]. unfold covers in Hc.
    apply andb_true_iff in Hc as [_ Hc%bytes_leb_spec]. done.
Qed.

Lemma living_scannable db h : living KEY_MAX VAL_MAX CAP ARENA LEVELS TABLES BLOOM_BYTES db h ->
  exists L contents, scannable KEY_MAX VAL_MAX LEVELS TABLES CAP ARENA BLOOM_BYTES db L contents /\ tells db contents h.
Proof. intros (base & bs & tlog & contents & _ & Hsb & Ht)%living_sound. by eexists _, contents. Qed.

(** The specification shows one value or none. *)
Lemma spec_read_one h k v mx now : history h -> spec_read (E := E) h k (replicate (length v) 0%Z) mx now = Ok (Some (length v), v) ->
  spec_read (E := E) h k [] mx now <> Ok (None, []) /\
  forall v', spec_read (E := E) h k (replicate (length v') 0%Z) mx now = Ok (Some (length v'), v') -> v' = v.
Proof.
  intros Hh. setoid_rewrite spec_read_find; [| done..]. destruct (List.find _ _) as [e |]; [| done].
  destruct (_ && _ && _); [| done]. intros Hv.
  assert (forall w, (if length (replicate (length w) 0%Z) <? length (val e) then Err (BufferTooSmall (length (val e)))
    else Ok (Some (length (val e)), splice 0 (val e) (replicate (length w) 0%Z)))%nat = Ok (E := Error E) (Some (length w), w) -> w = val e) as Hw.
  { intros w. destruct (length (replicate (length w) 0%Z) <? length (val e))%nat; [done |]. intros Hw. injection Hw as Hl Hw. by rewrite <- Hl, splice_full in Hw. }
  apply Hw in Hv as ->. split; [by destruct (length [] <? length (val e))%nat |]. intros v' Hv'. by apply Hw.
Qed.

Lemma living_answers db contents h k buf mx now (r : result (option nat * bytes) (Error E)) :
  living KEY_MAX VAL_MAX CAP ARENA LEVELS TABLES BLOOM_BYTES db h -> tells db contents h ->
  reads (db_point db contents k mx) (db_cover db contents k mx) now buf r -> r = spec_read h k buf mx now.
Proof.
  intros Hl Ht Hr. destruct (Ht k mx) as [Hp Hc]. apply (reads_agree _ _ _ _ _ _ _ _ Hp Hc) in Hr.
  apply reads_spec in Hr; [done | apply Hl |]. eapply Forall_impl; [apply Hl |]. cbn. lia.
Qed.
End living.

(** C2 A scan lists exactly the model's live keys.  On every handle a life of the
    database reaches, a new scan that seeks any range at any snapshot and time succeeds,
    and calling [next] until it answers the end terminates: with key and value buffers of
    the maximal lengths the calls return, in strictly ascending key order and each once,
    exactly the pairs of a key of the range and the value the reference model shows for
    it in the history of accepted mutations, whatever mixture of memtable entries, older
    versions, tombstones, range tombstones, expired entries, levels and cached or
    compressed blocks lies under them. *)
Theorem scan_refines_model {D E} `{Dev : !BlockDevice D E} {Laws : DeviceLaws D E}
  (KEY_MAX VAL_MAX CAP ARENA LEVELS TABLES BLOOM_BYTES : nat) (db : Db D) h start end_ mx now kb vb
  (Hsh : table_shape (D := D) (E := E) KEY_MAX VAL_MAX CAP ARENA LEVELS TABLES BLOOM_BYTES)
  (Hl : life KEY_MAX VAL_MAX CAP ARENA LEVELS TABLES BLOOM_BYTES db h)
  (Hs : (length start <= KEY_MAX)%nat) (He : forall e, end_ = Some e -> e <> [] /\ (length e <= KEY_MAX)%nat)
  (Hkb : (KEY_MAX <= length kb)%nat) (Hvb : (VAL_MAX <= length vb)%nat) :
  exists fuel s' c' kvs,
    (let# _ := seek_with_time (E := E) KEY_MAX VAL_MAX LEVELS db start end_ mx now in drain KEY_MAX VAL_MAX LEVELS db fuel kb vb)
      (scan_new (D := D) (E := E) KEY_MAX VAL_MAX LEVELS TABLES) (Some (mkCell (db_cache db) false)) = Some (s', c', Ok kvs) /\
    StronglySorted (fun a b => bytes_lt a.1 b.1) kvs /\
    forall k v, (k, v) ∈ kvs <->
      in_range start end_ k /\ spec_read (E := E) h k (replicate (length v) 0%Z) mx now = Ok (Some (length v), v).
Proof.
  pose proof (life_living _ _ _ _ _ _ _ Hsh db h Hl) as Hlv.
  destruct (living_scannable _ _ _ _ _ _ _ Hsh db h Hlv) as (L & contents & Hsb & Ht).
  pose proof (sh_block (ts_db Hsh)) as Hb. assert (HB : (49 <= BLOCK)%nat) by lia.
  destruct (scan_lists KEY_MAX VAL_MAX LEVELS TABLES CAP ARENA BLOOM_BYTES HB (ts_bloom Hsh) db L contents
    (scan_new (D := D) (E := E) KEY_MAX VAL_MAX LEVELS TABLES) start end_ mx now kb vb _ Hsb (scan_new_shaped _ _ _ _) Hs He Hkb Hvb
    (rb_cache _ _ _ _ _ _ _ _ _ _ (sb_read _ _ _ _ _ _ _ _ _ _ Hsb))) as (fuel & s' & c' & kvs & Em & _ & [Hso Hv Hn]).
  pose proof (fun k buf r => living_answers _ _ _ _ _ _ _ db contents h k buf mx now r Hlv Ht) as Hans.
  exists fuel, s', c', kvs. split_and!; [exact Em | exact Hso |]. intros k v. split.
  - intros Hk. destruct (Hv k v Hk) as [Hr Ha]. split; [done |]. symmetry. by apply Hans.
  - intros [Hr Ha]. destruct (spec_read_one h k v mx now (lv_history _ _ _ _ _ _ _ _ _ Hlv) Ha) as [Hne Hone].
    destruct (decide (k ∈ kvs.*1)) as [([k' v'] & -> & Hk)%list_elem_of_fmap | Hno].
    + rewrite <- (Hone v'); [done |]. symmetry. by apply Hans, Hv.
    + destruct Hne. symmetry. by apply Hans, Hn.
Qed.

(** C6 The contract of a scan's [next].  From a scan that is before the keys of [F], a
    call terminates whatever the buffers, and keeps the range, the snapshot and the time.
    It answers the end only when a point read of every key of [F] below the scan's end
    finds nothing; an entry that is the least key of [F] a point read shows, with its
    value, copied to the front of the buffers, after which the scan is before the keys
    above it; or the length a short buffer needs, and then that entry is still the least
    ahead, so a retry with larger buffers yields it. *)
Theorem scan_next_contract {D E} `{Dev : !BlockDevice D E} {Laws : DeviceLaws D E}
  (KEY_MAX VAL_MAX LEVELS TABLES CAP ARENA BLOOM_BYTES : nat) (db : Db D) L contents F N s kb vb
  (HB : (49 <= BLOCK)%nat) (Hbloom : (BLOOM_BYTES + CRC_LEN <= BLOCK)%nat)
  (Hsb : scannable KEY_MAX VAL_MAX LEVELS TABLES CAP ARENA BLOOM_BYTES db L contents)
  (Hf : frontier KEY_MAX VAL_MAX LEVELS BLOOM_BYTES db L contents F N s) :
  exists s' r, sruns (device (db_wal db)) L (next KEY_MAX VAL_MAX LEVELS db kb vb) s s' r /\
    next_outcome KEY_MAX VAL_MAX LEVELS BLOOM_BYTES db L contents F N kb vb s s' r.
Proof. by apply (next_step KEY_MAX VAL_MAX LEVELS TABLES CAP ARENA BLOOM_BYTES). Qed.

(** ** A table entry and a newer put, listed *)

Module ScanWitness.
Import LifeWitness.
#[local] Existing Instance dev.
#[local] Existing Instance dev_laws.

Definition sw_put : db_call := DPut [98%Z] [2%Z; 2%Z].
Definition sw_db : Db MemDisk.disk := (run_db_call (E := Empty_set) 4 4 8 64 lf_db3 sw_put).1.
Definition sw_history : list Entry := [mkEntry [98%Z] [2%Z; 2%Z] 2 false false 0; mkEntry [97%Z] [1%Z] 1 false false 0].

Lemma sw_life : life (E := Empty_set) 4 4 8 64 2 2 8 sw_db sw_history.
Proof.
  apply (life_write 4 4 8 64 2 2 8 lf_db3 _ sw_put sw_db (Ok 2%Z)); [apply lf_life3 | cbn; split; repeat constructor; unfold fits; lia |].
  unfold sw_db. apply Wal.WalWitness.pair_snd. vm_compute. reflexivity.
Qed.

(** A caller's buffer. *)
Definition sw_buf : bytes := replicate 4 0%Z.

(** Both keys are listed, one from the table and one from the memtable. *)
Lemma scan_refines_model_witness :
  exists fuel s' c' kvs,
    (let# _ := seek_with_time (E := Empty_set) 4 4 2 sw_db [97%Z] (Some [99%Z]) 9 0 in drain 4 4 2 sw_db fuel sw_buf sw_buf)
      (scan_new (D := MemDisk.disk) (E := Empty_set) 4 4 2 2) (Some (mkCell (db_cache sw_db) false)) = Some (s', c', Ok kvs) /\
    ([97%Z], [1%Z]) ∈ kvs /\ ([98%Z], [2%Z; 2%Z]) ∈ kvs /\ ([97%Z], [3%Z]) ∉ kvs.
Proof.
  destruct (scan_refines_model (E := Empty_set) 4 4 8 64 2 2 8 sw_db sw_history [97%Z] (Some [99%Z]) 9 0 sw_buf sw_buf
    lf_shape sw_life) as (fuel & s' & c' & kvs & Em & _ & Hall);
    [cbn; lia | intros e [= <-]; split; [done | cbn; lia] | cbn; lia | cbn; lia |].
  exists fuel, s', c', kvs. split; [exact Em |]. split_and!.
  - apply Hall. split; [split; [by_compute | intros e [= <-]; by_compute] | vm_compute; reflexivity].
  - apply Hall. split; [split; [by_compute | intros e [= <-]; by_compute] | vm_compute; reflexivity].
  - intros [_ Hx]%Hall. vm_compute in Hx. discriminate.
Defined.

(** The first call after the seek. *)
Lemma scan_next_contract_witness :
  exists L contents N s s' r,
    frontier (E := Empty_set) 4 4 2 8 sw_db L contents (bytes_le [97%Z]) N s /\
    sruns (device (db_wal sw_db)) L (next (E := Empty_set) 4 4 2 sw_db sw_buf sw_buf) s s' r /\
    next_outcome (E := Empty_set) 4 4 2 8 sw_db L contents (bytes_le [97%Z]) N sw_buf sw_buf s s' r.
Proof.
  pose proof (life_living 4 4 8 64 2 2 8 lf_shape _ _ sw_life) as Hlv.
  destruct (living_scannable 4 4 8 64 2 2 8 lf_shape _ _ Hlv) as (L & contents & Hsb & _).
  destruct (seek_step (E := Empty_set) 4 4 2 2 8 64 8 ltac:(by_compute) ltac:(by_compute) sw_db L contents Hsb
    (scan_new (D := MemDisk.disk) (E := Empty_set) 4 4 2 2) [97%Z] None 9 0 (scan_new_shaped _ _ _ _) ltac:(cbn; lia) ltac:(done))
    as (s & N & _ & Hf & _).
  destruct (scan_next_contract (E := Empty_set) 4 4 2 2 8 64 8 sw_db L contents (bytes_le [97%Z]) N s sw_buf sw_buf
    ltac:(by_compute) ltac:(by_compute) Hsb Hf) as (s' & r & Hr & Ho).
  exists L, contents, N, s, s', r. split_and!; [exact Hf | exact Hr | exact Ho].
Defined.
End ScanWitness.

(** ** A read error in the middle of a call *)

(** The merge moves its sources one by one, so a device error after the winner's source
    moved and before the others did leaves a scan that is before no set of keys: a retry
    takes the versions left of the same key for its newest. *)
Module ScanFault.

(** A disk one block of which cannot be read. *)
Record flaky := mkFlaky { fk_disk : MemDisk.disk; fk_bad : option u64 }.

Definition fk_read (d : flaky) (id : u64) : result bytes unit :=
  if bool_decide (fk_bad d = Some id) then Err tt
  else match MemDisk.read 64 (fk_disk d) id with Ok b => Ok b | Err _ => Err tt end.

#[local] Instance fk_dev : BlockDevice flaky unit := {|
  BLOCK := 64;
  read_block := fk_read;
  write_block d id b := (mkFlaky (MemDisk.write (fk_disk d) id b).1 (fk_bad d), Ok tt);
  dev_flush d := (d, Ok tt);
|}.

(** Three versions of a key fill the first data block; the memtable deletes the key. *)
Definition fk_entries : list SstEntry :=
  [mkSst [97]%Z [5; 5; 5; 5]%Z 5 false 0; mkSst [97]%Z [2; 2; 2; 2]%Z 2 false 0; mkSst [97]%Z [1; 1; 1; 1]%Z 1 false 0;
   mkSst [99]%Z [4; 4; 4; 4]%Z 3 false 0].
Definition fk_ref : TableRef := mkRef 1 20 5 (mkBound 1 [97; 0; 0; 0]%Z) (mkBound 1 [99; 0; 0; 0]%Z) 5 1 4 0 0 0.
Definition fk_table : MemTable :=
  match Memtable.insert (E := unit) 8 64 4 4 (Memtable.new 8 64) [97]%Z [] 6 true with Ok t => t | Err _ => Memtable.new 8 64 end.
Definition fk_db (bad : option u64) : Db flaky :=
  let d := (write_table (E := unit) 8 4 (mkFlaky ∅ None) 20 3 fk_entries None).1 in
  set_opened (set_manifest (set_table (db_new (E := unit) 4 8 64 1 1 0 (mkFlaky (fk_disk d) bad) (config_new 10 14 20 60 0 4)) fk_table)
    (mkManifest 1 10 2 5 5 [fk_ref] [1%nat])) true.

Definition fk_buf : bytes := replicate 4 0%Z.

(** Seek, one call while block [bad] cannot be read, and the same call again. *)
Definition fk_run (bad : option u64) :=
  match (let# _ := seek (E := unit) 4 4 1 (fk_db None) [97]%Z None U64_MAX in next (E := unit) 4 4 1 (fk_db bad) fk_buf fk_buf)
          (scan_new (D := flaky) (E := unit) 4 4 1 1) None with
  | Some (s, c, r) => Some (r, snd <$> next (E := unit) 4 4 1 (fk_db None) fk_buf fk_buf s c)
  | None => None
  end.

(** With the device well the deleted key is skipped; after a transient error the retry
    yields its oldest version. *)
Example retry_yields_deleted_key :
  fk_run None = Some (Ok (Some (1, 4, [99; 0; 0; 0]%Z, [4; 4; 4; 4]%Z))%nat, Some (Ok None)) /\
  fk_run (Some 21%Z) = Some (Err (Device tt), Some (Ok (Some (1, 4, [97; 0; 0; 0]%Z, [1; 1; 1; 1]%Z))%nat)).
Proof. vm_compute. done. Qed.
End ScanFault.
