(* ===== verification/ScanRev.v ===== *)
(** * Reverse scans: [src/scan.rs], [RevScan]

    The mirror of [Scan]: a cursor per table walks its blocks backward and parks on the
    newest visible version of the greatest key left.  The conventions are those of
    [Scan]; a search of the loaded block reads the buffer only and returns its result,
    [None] where a copy does not fit. *)

From stdpp Require Import base numbers list.
From Stdlib Require Import ZArith Lia.
From S2P Require Import Prelude Device Compress Version Slots Cache Memtable Wal Manifest ManifestPool SstPlan SstWriter SstReader SstBlock SstImage SstIndex SstRdel SstTable SstBuild Db DbRead Scan.

Record RevCursor := mkRevCursor {
  rc_table_id : u32;
  rc_node_id : u32;
  rc_seal_wall : u64;
  rc_first_block : u64;
  rc_block_idx : u64;
  rc_block_id : u64;
  rc_off : nat;
  rc_end : nat;
  rc_live : bool;
  rc_key : bytes;
  rc_key_len : nat;
  rc_seq : u64;
  rc_tombstone : bool;
  rc_val_len : nat;
  rc_expire_at : u64;
}.

Definition rev_cursor_empty (KEY_MAX : nat) : RevCursor :=
  mkRevCursor 0 0 0 0 0 0 0 0 false (replicate KEY_MAX 0%Z) 0 0 false 0 0.

Definition rc_head_key (c : RevCursor) : bytes := take (rc_key_len c) (rc_key c).

Record RevScan := mkRevScan {
  rs_ceil : bytes;
  rs_ceil_len : nat;
  rs_lower : bytes;
  rs_lower_len : nat;
  rs_has_lower : bool;
  rs_max_seq : u64;
  rs_now : u64;
  rs_block : bytes;
  rs_block_id : option u64;
  rs_mem_idx : nat;
  rs_mem_key : bytes;
  rs_mem_key_len : nat;
  rs_mem_val : bytes;
  rs_mem_val_len : nat;
  rs_mem_seq : u64;
  rs_mem_tombstone : bool;
  rs_mem_live : bool;
  rs_mem_expire_at : u64;
  rs_cursors : list RevCursor;
  rs_cursor_counts : list nat;
  rs_level_base : list nat;
}.

(** A head found in a block. *)
Record RevHead := mkRevHead {
  rh_key : bytes;
  rh_key_len : nat;
  rh_seq : u64;
  rh_tombstone : bool;
  rh_val_len : nat;
  rh_expire_at : u64;
  rh_off : nat;
}.

Definition rh_bytes (h : RevHead) : bytes := take (rh_key_len h) (rh_key h).

(** With its block: id, entries end, index. *)
Record RevHeadAt := mkRevHeadAt { ra_head : RevHead; ra_block_id : u64; ra_end : nat; ra_block_idx : u64 }.

(** ** Fields *)

Definition rev_with_range (s : RevScan) (ceil : bytes) (ceil_len : nat) (lower : bytes) (lower_len : nat) (has_lower : bool) (mx now : u64) : RevScan :=
  mkRevScan ceil ceil_len lower lower_len has_lower mx now (rs_block s) (rs_block_id s) (rs_mem_idx s) (rs_mem_key s) (rs_mem_key_len s)
    (rs_mem_val s) (rs_mem_val_len s) (rs_mem_seq s) (rs_mem_tombstone s) (rs_mem_live s) (rs_mem_expire_at s) (rs_cursors s)
    (rs_cursor_counts s) (rs_level_base s).
Definition rev_with_block (s : RevScan) (b : bytes) (id : option u64) : RevScan :=
  mkRevScan (rs_ceil s) (rs_ceil_len s) (rs_lower s) (rs_lower_len s) (rs_has_lower s) (rs_max_seq s) (rs_now s) b id
    (rs_mem_idx s) (rs_mem_key s) (rs_mem_key_len s) (rs_mem_val s) (rs_mem_val_len s) (rs_mem_seq s) (rs_mem_tombstone s) (rs_mem_live s)
    (rs_mem_expire_at s) (rs_cursors s) (rs_cursor_counts s) (rs_level_base s).
Definition rev_with_mem (s : RevScan) (idx : nat) (live : bool) : RevScan :=
  mkRevScan (rs_ceil s) (rs_ceil_len s) (rs_lower s) (rs_lower_len s) (rs_has_lower s) (rs_max_seq s) (rs_now s)
    (rs_block s) (rs_block_id s) idx (rs_mem_key s) (rs_mem_key_len s) (rs_mem_val s) (rs_mem_val_len s) (rs_mem_seq s)
    (rs_mem_tombstone s) live (rs_mem_expire_at s) (rs_cursors s) (rs_cursor_counts s) (rs_level_base s).
Definition rev_with_cursors (s : RevScan) (cs : list RevCursor) (counts bases : list nat) : RevScan :=
  mkRevScan (rs_ceil s) (rs_ceil_len s) (rs_lower s) (rs_lower_len s) (rs_has_lower s) (rs_max_seq s) (rs_now s)
    (rs_block s) (rs_block_id s) (rs_mem_idx s) (rs_mem_key s) (rs_mem_key_len s) (rs_mem_val s) (rs_mem_val_len s) (rs_mem_seq s)
    (rs_mem_tombstone s) (rs_mem_live s) (rs_mem_expire_at s) cs counts bases.

(** The head entry [v] of a run that starts at slot [idx]. *)
Definition rev_mem_head (s : RevScan) (idx : nat) (v : Entry) : RevScan :=
  mkRevScan (rs_ceil s) (rs_ceil_len s) (rs_lower s) (rs_lower_len s) (rs_has_lower s) (rs_max_seq s) (rs_now s)
    (rs_block s) (rs_block_id s) idx (splice 0 (Memtable.key v) (rs_mem_key s)) (length (Memtable.key v))
    (splice 0 (val v) (rs_mem_val s)) (length (val v)) (Memtable.seq v) (tombstone v) true (expire_at v)
    (rs_cursors s) (rs_cursor_counts s) (rs_level_base s).

Definition rev_pool_idx (s : RevScan) (li ti : nat) : nat := nth li (rs_level_base s) 0%nat + ti.

Definition ceil_bound (s : RevScan) : bytes := take (rs_ceil_len s) (rs_ceil s).
Definition lower_bound_of (s : RevScan) : bytes := take (rs_lower_len s) (rs_lower s).

(** A bound of a search: entries below the key qualify, or at it when inclusive; [None]
    takes every entry. *)
Definition RevBound : Type := option (bytes * bool).

Definition bound_ok (bound : RevBound) (key : bytes) : bool :=
  match bound with
  | None => true
  | Some (bk, inclusive) => bytes_ltb key bk || (inclusive && bytes_eqb key bk)
  end.

(** ** Searching the loaded block *)

Section block.
  Context {D E : Type} `{Dev : !BlockDevice D E}.
  Variables (KEY_MAX : nat) (block : bytes) (bid : u64) (end_ : nat).

Definition restart_off (i rcount : nat) : option nat :=
  if (rcount <=? i)%nat then None
  else
    let off := (end_ + i * 2)%nat in
    if (BLOCK - CRC_LEN <? off + 2)%nat then None
    else
      let roff := Z.to_nat (from_le (sub off 2 block)) in
      if (roff <? end_)%nat then Some roff else None.

Definition restart_off_or (i rcount : nat) : result nat (Error E) :=
  match restart_off i rcount with Some off => Ok off | None => Err (CorruptBlock bid) end.

Definition entry_key_at (off : nat) : result bytes (Error E) :=
  let? e := parse_data_entry (E := E) block off end_ bid in Ok (pd_key e).

Definition block_first_key : result bytes (Error E) := entry_key_at 0.

(** [while lo < hi]; the range halves. *)
Fixpoint qualifying_loop (fuel lo hi rcount : nat) (bound : RevBound) (r : option nat) : result (option nat) (Error E) :=
  match fuel with
  | O => Ok r
  | S fuel =>
      if (lo <? hi)%nat then
        let mid := (lo + (hi - lo) / 2)%nat in
        let? roff := restart_off_or mid rcount in
        let? key := entry_key_at roff in
        if bound_ok bound key then qualifying_loop fuel (mid + 1) hi rcount bound (Some mid)
        else qualifying_loop fuel lo mid rcount bound r
      else Ok r
  end.

Definition last_qualifying_restart (rcount : nat) (bound : RevBound) : result (option nat) (Error E) :=
  qualifying_loop rcount 0 rcount rcount bound None.

Definition rev_head (e : ParsedDataEntry) (off : nat) : RevHead :=
  mkRevHead (splice 0 (pd_key e) (replicate KEY_MAX 0%Z)) (length (pd_key e)) (pd_seq e) (pd_tombstone e) (length (pd_val e)) (pd_expire_at e) off.

(** [while off < limit]: the strictly greatest qualifying key of the region. *)
Fixpoint region_loop (fuel : nat) (top_region : bool) (off limit : nat) (bound : RevBound) (max_seq : u64) (rbest : option RevHead)
  : option (result (option RevHead) (Error E)) :=
  match fuel with
  | O => None
  | S fuel =>
      if (off <? limit)%nat then
        match parse_data_entry (E := E) block off end_ bid with
        | Err _ => if top_region && all_zero (sub off (end_ - off) block) then Some (Ok rbest) else Some (Err (CorruptBlock bid))
        | Ok e =>
            if negb (bound_ok bound (pd_key e)) then Some (Ok rbest)
            else if (pd_seq e <=? max_seq)%Z && match rbest with None => true | Some rb => bytes_ltb (rh_bytes rb) (pd_key e) end then
              if (KEY_MAX <? length (pd_key e))%nat then None
              else region_loop fuel top_region (pd_next e) limit bound max_seq (Some (rev_head e off))
            else region_loop fuel top_region (pd_next e) limit bound max_seq rbest
        end
      else Some (Ok rbest)
  end.

(** A tie keeps the earlier region's version. *)
Definition merge_best (best rbest : option RevHead) : option RevHead :=
  match rbest with
  | None => best
  | Some rb => match best with None => Some rb | Some b => if bytes_leb (rh_bytes b) (rh_bytes rb) then Some rb else best end
  end.

(** The early break before region [j]. *)
Definition region_below (j rstart rcount : nat) (best : option RevHead) : result bool (Error E) :=
  match best with
  | Some b =>
      if (j <? rstart)%nat then
        let? nroff := restart_off_or (j + 1) rcount in
        let? nkey := entry_key_at nroff in
        Ok (bytes_ltb nkey (rh_bytes b))
      else Ok false
  | None => Ok false
  end.

Definition region_limit (j rstart rcount : nat) : result nat (Error E) :=
  if (j =? rstart)%nat then Ok end_ else restart_off_or (j + 1) rcount.

(** The regions from [j] down. *)
Fixpoint walk_regions (j rstart rcount : nat) (bound : RevBound) (max_seq : u64) (best : option RevHead) : option (result (option RevHead) (Error E)) :=
  match region_below j rstart rcount best with
  | Err e => Some (Err e)
  | Ok true => Some (Ok best)
  | Ok false =>
      match restart_off_or j rcount with
      | Err e => Some (Err e)
      | Ok rs =>
          match region_limit j rstart rcount with
          | Err e => Some (Err e)
          | Ok limit =>
              match region_loop (S end_) (j =? rstart)%nat rs limit bound max_seq None with
              | None => None
              | Some (Err e) => Some (Err e)
              | Some (Ok rbest) =>
                  match j with
                  | O => Some (Ok (merge_best best rbest))
                  | S j => walk_regions j rstart rcount bound max_seq (merge_best best rbest)
                  end
              end
          end
      end
  end.

Definition walk_regions_rev (rcount rstart : nat) (bound : RevBound) (max_seq : u64) : option (result (option RevHead) (Error E)) :=
  walk_regions rstart rstart rcount bound max_seq None.

Definition search_block_rev (bound : RevBound) (max_seq : u64) : option (result (option RevHead) (Error E)) :=
  let body_end := (BLOCK - CRC_LEN)%nat in
  let rcount := Z.to_nat (from_le (sub (body_end - 2) 2 block)) in
  if (rcount =? 0)%nat then Some (Err (CorruptBlock bid))
  else
    match last_qualifying_restart rcount bound with
    | Err e => Some (Err e)
    | Ok None => Some (Ok None)
    | Ok (Some rstart) => walk_regions_rev rcount rstart bound max_seq
    end.
End block.

Section rev.
  Context {D E : Type} `{Dev : !BlockDevice D E}.
  (** The const generics and the borrowed handle. *)
  Variables KEY_MAX VAL_MAX LEVELS TABLES : nat.
  Variable db : Db D.

Abbreviation revm := (cstm RevScan E).

Definition rev_cursor_at (s : RevScan) (i : nat) : RevCursor := nth i (rs_cursors s) (rev_cursor_empty KEY_MAX).
Definition rev_set_cursor (i : nat) (f : RevCursor -> RevCursor) (s : RevScan) : RevScan :=
  rev_with_cursors s (<[i := f (rev_cursor_at s i)]> (rs_cursors s)) (rs_cursor_counts s) (rs_level_base s).

Definition rev_new : RevScan :=
  mkRevScan (replicate KEY_MAX 0%Z) 0 (replicate KEY_MAX 0%Z) 0 false U64_MAX 0 (replicate BLOCK 0%Z) None 0
    (replicate KEY_MAX 0%Z) 0 (replicate VAL_MAX 0%Z) 0 0 false false 0
    (replicate (LEVELS * TABLES) (rev_cursor_empty KEY_MAX)) (replicate LEVELS 0%nat) (replicate LEVELS 0%nat).

(** A search as a computation. *)
Definition searched {A} (o : option (result A (Error E))) : revm A :=
  match o with
  | None => spanic
  | Some (Ok a) => sret a
  | Some (Err e) => sfail e
  end.

(** ** The shared buffer *)

Definition read_verify_rev (t : u32) (id : u64) : revm unit :=
  let# s := sget in
  let# (raw, inflated, dec) := slift (read_data_block (device (db_wal db)) t id (rs_block s) false) in
  smod (fun s => rev_with_block s (if inflated then dec else raw) (Some id)).

Definition read_verify_index_rev (t : u32) (id : u64) : revm unit :=
  let# blk := slift (fetch (device (db_wal db)) t id true) in
  let# _ := smod (fun s => rev_with_block s blk (rs_block_id s)) in
  let# _ := slift (pure (check_block_crc blk id)) in
  smod (fun s => rev_with_block s (rs_block s) (Some id)).

(** [footer_index_block] with its buffer. *)
Definition read_footer_index_rev (t : u32) (footer : u64) : revm u64 :=
  let# blk := slift (fetch (device (db_wal db)) t footer true) in
  let# _ := smod (fun s => rev_with_block s blk (rs_block_id s)) in
  let# _ := slift (pure (check_block_crc blk footer)) in
  if negb (from_le (sub 0 8 blk) =? SSTABLE_MAGIC)%Z then sfail (CorruptBlock footer)
  else sret (from_le (sub 8 8 blk)).

Definition ensure_block_rev (t : u32) (id : u64) : revm unit :=
  let# s := sget in
  if bool_decide (rs_block_id s = Some id) then sret tt else read_verify_rev t id.

(** The loaded block's entries end; a data block is never empty. *)
Definition loaded_end (id : u64) : revm nat :=
  let# s := sget in
  let# end_ := slift (pure (data_entries_end (rs_block s) id)) in
  if (end_ =? 0)%nat then sfail (CorruptBlock id) else sret end_.

(** ** The memtable head *)

(** [while let Some(w) = mem.slot_view(j)], down the run of [key]: its start, and its
    newest visible slot. *)
Fixpoint run_loop_rev (j : nat) (key : bytes) (max_seq : u64) (run_start : nat) (newest : option nat) : nat * option nat :=
  match slot_view (db_table db) j with
  | None => (run_start, newest)
  | Some w =>
      if negb (bytes_eqb (Memtable.key w) key) then (run_start, newest)
      else
        let newest := if negb (range_del w) && (Memtable.seq w <=? max_seq)%Z then Some j else newest in
        match j with
        | O => (j, newest)
        | S j' => run_loop_rev j' key max_seq j newest
        end
  end.

(** [while self.mem_idx < mem.slot_len()]; the index falls. *)
Fixpoint mem_loop_rev (fuel : nat) (s : RevScan) : option RevScan :=
  match fuel with
  | O => None
  | S fuel =>
      if (rs_mem_idx s <? len (db_table db))%nat then
        match slot_view (db_table db) (rs_mem_idx s) with
        | None => Some s
        | Some landing =>
            let '(run_start, newest) := run_loop_rev (rs_mem_idx s) (Memtable.key landing) (rs_max_seq s) (rs_mem_idx s) None in
            let s := rev_with_mem s run_start (rs_mem_live s) in
            match newest ≫= slot_view (db_table db) with
            | Some v =>
                if (KEY_MAX <? length (Memtable.key v))%nat || (VAL_MAX <? length (val v))%nat then None
                else Some (rev_mem_head s run_start v)
            | None => if (run_start =? 0)%nat then Some s else mem_loop_rev fuel (rev_with_mem s (run_start - 1) (rs_mem_live s))
            end
        end
      else Some s
  end.

Definition advance_mem_rev : revm unit := fun s c =>
  match mem_loop_rev (S (len (db_table db))) (rev_with_mem s (rs_mem_idx s) false) with
  | Some s => Some (s, c, Ok tt)
  | None => None
  end.

(** ** Table cursors *)

(** [while pidx > 0]: the blocks before the [n]-th. *)
Fixpoint resolve_loop (n : nat) (table_id : u32) (first : u64) (key : bytes) (max_seq : u64) (best : option RevHeadAt) : revm (option RevHeadAt) :=
  match n with
  | O => sret best
  | S n =>
      match u64_checked_add first (Z.of_nat n) with
      | None => sfail (CorruptBlock first)
      | Some pbid =>
          let# _ := read_verify_rev table_id pbid in
          let# pend := loaded_end pbid in
          let# s := sget in
          let# hit := searched (search_block_rev KEY_MAX (rs_block s) pbid pend (Some (key, true)) max_seq) in
          match hit with
          | Some h =>
              if bytes_eqb (rh_bytes h) key then
                let best := Some (mkRevHeadAt h pbid pend (Z.of_nat n)) in
                let# fkey := searched (Some (block_first_key (rs_block s) pbid pend)) in
                if negb (bytes_eqb (rh_bytes h) fkey) then sret best else resolve_loop n table_id first key max_seq best
              else sret best
          | None => sret best
          end
      end
  end.

Definition resolve_run (table_id : u32) (first idx : u64) (key : bytes) (max_seq : u64) : revm (option RevHeadAt) :=
  resolve_loop (Z.to_nat idx) table_id first key max_seq None.

Definition rev_parked (a : RevHeadAt) (c : RevCursor) : RevCursor :=
  let h := ra_head a in
  mkRevCursor (rc_table_id c) (rc_node_id c) (rc_seal_wall c) (rc_first_block c) (ra_block_idx a) (ra_block_id a) (rh_off h) (ra_end a) true
    (rh_key h) (rh_key_len h) (rh_seq h) (rh_tombstone h) (rh_val_len h) (rh_expire_at h).

Definition rev_exhausted (c : RevCursor) : RevCursor :=
  mkRevCursor (rc_table_id c) (rc_node_id c) (rc_seal_wall c) (rc_first_block c) (rc_block_idx c) (rc_block_id c) (rc_off c) (rc_end c) false
    (rc_key c) (rc_key_len c) (rc_seq c) (rc_tombstone c) (rc_val_len c) (rc_expire_at c).

Definition rev_at_block (id idx : u64) (end_ : nat) (c : RevCursor) : RevCursor :=
  mkRevCursor (rc_table_id c) (rc_node_id c) (rc_seal_wall c) (rc_first_block c) idx id (rc_off c) end_ (rc_live c)
    (rc_key c) (rc_key_len c) (rc_seq c) (rc_tombstone c) (rc_val_len c) (rc_expire_at c).

(** The candidate found in the cursor's block. *)
Definition park_on (i : nat) (c : RevCursor) (h : RevHead) (max_seq : u64) : revm unit :=
  if match find_table (db_manifest db) (rc_table_id c) with
     | Some t => bytes_ltb (rh_bytes h) (as_slice (Manifest.first_key t))
     | None => false
     end
  then smod (rev_set_cursor i rev_exhausted)
  else
    let# s := sget in
    let# fkey := searched (Some (block_first_key (rs_block s) (rc_block_id c) (rc_end c))) in
    let here := mkRevHeadAt h (rc_block_id c) (rc_end c) (rc_block_idx c) in
    let# a :=
      if (0 <? rc_block_idx c)%Z && bytes_eqb (rh_bytes h) fkey then
        let# r := resolve_run (rc_table_id c) (rc_first_block c) (rc_block_idx c) (rh_bytes h) max_seq in
        sret (default here r)
      else sret here in
    smod (rev_set_cursor i (rev_parked a)).

(** The loop of [park_cursor_rev] on pool slot [i]: a block a turn. *)
Fixpoint park_loop_rev (fuel i : nat) (bound : RevBound) (max_seq : u64) : revm unit :=
  match fuel with
  | O => spanic
  | S fuel =>
      let# s := sget in
      let c := rev_cursor_at s i in
      if negb (rc_live c) then sret tt
      else
        let# _ := ensure_block_rev (rc_table_id c) (rc_block_id c) in
        let# s := sget in
        let# hit := searched (search_block_rev KEY_MAX (rs_block s) (rc_block_id c) (rc_end c) bound max_seq) in
        match hit with
        | Some h => park_on i c h max_seq
        | None =>
            if (rc_block_idx c =? 0)%Z then smod (rev_set_cursor i rev_exhausted)
            else
              match u64_checked_add (rc_first_block c) (rc_block_idx c - 1) with
              | None => sfail (CorruptBlock (rc_first_block c))
              | Some nid =>
                  let# _ := read_verify_rev (rc_table_id c) nid in
                  let# nend := loaded_end nid in
                  let# _ := smod (rev_set_cursor i (rev_at_block nid (rc_block_idx c - 1) nend)) in
                  park_loop_rev fuel i bound max_seq
              end
        end
  end.

(** A bound key past the buffer panics. *)
Definition park_cursor_rev (li ti : nat) (bound : RevBound) : revm unit :=
  if match bound with Some (k, _) => (KEY_MAX <? length k)%nat | None => false end then spanic
  else
    let# s := sget in
    let i := rev_pool_idx s li ti in
    park_loop_rev (S (Z.to_nat (rc_block_idx (rev_cursor_at s i)))) i bound (rs_max_seq s).

Definition rev_fresh_cursor (t : TableRef) (data_first block_idx bid : u64) (end_ : nat) : RevCursor :=
  mkRevCursor (t_id t) (node_id t) (seal_wall t) data_first block_idx bid 0 end_ true (replicate KEY_MAX 0%Z) 0 0 false 0 0.

(** [add_cursor_rev] from the data block's buffer on. *)
Definition place_cursor_rev (t : TableRef) (li : nat) (from : bytes) (data_first block_idx bid : u64) : revm unit :=
  let# end_ := loaded_end bid in
  let# s := sget in
  let ti := nth li (rs_cursor_counts s) 0%nat in
  if (length (rs_cursors s) <=? rev_pool_idx s li ti)%nat then sfail CorruptManifest
  else
    let# _ := smod (fun s =>
      rev_with_cursors s (<[rev_pool_idx s li ti := rev_fresh_cursor t data_first block_idx bid end_]> (rs_cursors s))
        (<[li := (ti + 1)%nat]> (rs_cursor_counts s)) (rs_level_base s)) in
    park_cursor_rev li ti (match from with [] => None | _ => Some (ceil_bound s, true) end).

Definition add_cursor_rev (t : TableRef) (li : nat) (from : bytes) : revm unit :=
  let first := data_first t in
  match data_blocks t with
  | None => sfail (CorruptBlock (first_block t))
  | Some blocks =>
      if (blocks =? 0)%Z then sret tt
      else
        match footer_block t with
        | None => sfail CorruptManifest
        | Some footer =>
            let# index_id := read_footer_index_rev (t_id t) footer in
            let# _ := smod (fun s => rev_with_block s (rs_block s) (Some footer)) in
            let# _ := read_verify_index_rev (t_id t) index_id in
            let# s := sget in
            let# block_idx :=
              match from with
              | [] => sret (Some (blocks - 1)%Z)
              | _ =>
                  let# found := slift (pure (index_last_le_block (take (BLOCK - CRC_LEN) (rs_block s)) from index_id)) in
                  match found with
                  | Some id => match u64_checked_sub id first with Some i => sret (Some i) | None => sfail (CorruptBlock id) end
                  | None => sret None
                  end
              end in
            match block_idx with
            | None => sret tt
            | Some block_idx =>
                if (blocks <=? block_idx)%Z then sfail (CorruptBlock (first_block t))
                else
                  match u64_checked_add first block_idx with
                  | None => sfail (CorruptBlock (first_block t))
                  | Some bid =>
                      let# _ := read_verify_rev (t_id t) bid in
                      place_cursor_rev t li from first block_idx bid
                  end
            end
        end
  end.

(** ** Seeking *)

(** The tables of one level. *)
Fixpoint seek_tables_rev (ts : list TableRef) (li : nat) (from : bytes) : revm unit :=
  match ts with
  | [] => sret tt
  | t :: ts =>
      let# s := sget in
      if (negb (length from =? 0)%nat && bytes_ltb (ceil_bound s) (as_slice (Manifest.first_key t))) ||
         (rs_has_lower s && bytes_leb (as_slice (Manifest.last_key t)) (lower_bound_of s))
      then seek_tables_rev ts li from
      else
        let# _ := add_cursor_rev t li from in
        seek_tables_rev ts li from
  end.

(** [for li in 0..LEVELS], [n] levels to go. *)
Fixpoint seek_levels_rev (n li base : nat) (from : bytes) : revm unit :=
  match n with
  | O => sret tt
  | S n =>
      let# _ := smod (fun s => rev_with_cursors s (rs_cursors s) (rs_cursor_counts s) (<[li := base]> (rs_level_base s))) in
      let# _ := seek_tables_rev (default [] (level LEVELS (db_manifest db) li)) li from in
      let# s := sget in
      seek_levels_rev n (li + 1) (base + nth li (rs_cursor_counts s) 0%nat) from
  end.

(** [while ub < n && slot_view(ub).key == from] *)
Fixpoint run_end (fuel ub : nat) (from : bytes) : nat :=
  match fuel with
  | O => ub
  | S fuel =>
      match slot_view (db_table db) ub with
      | Some v => if (ub <? len (db_table db))%nat && bytes_eqb (Memtable.key v) from then run_end fuel (ub + 1) from else ub
      | None => ub
      end
  end.

(** The slot the memtable walk starts at. *)
Definition mem_start_rev (from : bytes) : nat :=
  let n := len (db_table db) in
  if (n =? 0)%nat then 0%nat
  else
    match from with
    | [] => (n - 1)%nat
    | _ =>
        let lo := lower_bound (db_table db) from in
        let ub := run_end (n - lo) lo from in
        if (0 <? ub)%nat then (ub - 1)%nat else n
    end.

Definition seek_prev_with_time (from : bytes) (lower : option bytes) (max_seq now : u64) : revm unit :=
  match ensure_open (E := E) db with
  | Err e => sfail e
  | Ok _ =>
      if (KEY_MAX <? length from)%nat then sfail (KeyTooLarge (length from) KEY_MAX)
      else
        let go (low : RevScan -> bytes) (low_len : nat) (has_low : bool) :=
          let# _ := smod (fun s =>
            rev_with_range s (match from with [] => rs_ceil s | _ => splice 0 from (rs_ceil s) end) (length from) (low s) low_len has_low max_seq now) in
          let# _ := smod (fun s => rev_with_mem s (mem_start_rev from) (rs_mem_live s)) in
          let# _ := advance_mem_rev in
          let# _ := smod (fun s => rev_with_cursors s (rs_cursors s) (replicate LEVELS 0%nat) (rs_level_base s)) in
          seek_levels_rev LEVELS 0 0 from in
        match lower with
        | Some l =>
            if (KEY_MAX <? length l)%nat then sfail (KeyTooLarge (length l) KEY_MAX)
            else go (fun s => splice 0 l (rs_lower s)) (length l) true
        | None => go rs_lower 0%nat false
        end
  end.

Definition seek_prev (from : bytes) (lower : option bytes) (max_seq : u64) : revm unit := seek_prev_with_time from lower max_seq 0.

(** ** Heads *)

Definition total_cursors_rev (s : RevScan) : nat := sum_list_with id (take LEVELS (rs_cursor_counts s)).

Definition cursor_pos_rev (s : RevScan) (src : nat) : nat * nat := pos_loop (take LEVELS (rs_cursor_counts s)) (src - 1) 0.

(** The cursor of source [src], from 1 on. *)
Definition rev_src_idx (s : RevScan) (src : nat) : nat := let '(li, ti) := cursor_pos_rev s src in rev_pool_idx s li ti.
Definition rev_src_cursor (s : RevScan) (src : nat) : RevCursor := rev_cursor_at s (rev_src_idx s src).

Definition head_key_rev (s : RevScan) (src : nat) : option bytes :=
  if (src =? 0)%nat then (if rs_mem_live s then Some (take (rs_mem_key_len s) (rs_mem_key s)) else None)
  else let c := rev_src_cursor s src in if rc_live c then Some (rc_head_key c) else None.

Definition head_rev (s : RevScan) (src : nat) : option Head :=
  if (src =? 0)%nat then
    (if rs_mem_live s
     then Some (mkHead (take (rs_mem_key_len s) (rs_mem_key s)) (rs_mem_seq s) (rs_mem_tombstone s) (rs_mem_val_len s) (rs_mem_expire_at s))
     else None)
  else
    let c := rev_src_cursor s src in
    if rc_live c
    then Some (mkHead (rc_head_key c) (rc_seq c) (rc_tombstone c) (rc_val_len c) (rc_expire_at c))
    else None.

Definition head_version_rev (s : RevScan) (src : nat) : Version :=
  if (src =? 0)%nat then memtable (own_node db) (rs_mem_seq s)
  else let c := rev_src_cursor s src in table (rc_node_id c) (rc_seal_wall c) (rc_seq c).

(** One turn of [max_src]. *)
Definition max_step (s : RevScan) (best : option (nat * bytes)) (src : nat) : option (nat * bytes) :=
  match head_key_rev s src with
  | None => best
  | Some k =>
      match best with
      | None => Some (src, k)
      | Some (_, m) => if bytes_ltb m k then Some (src, k) else best
      end
  end.

Definition max_src (s : RevScan) (total : nat) : option (nat * bytes) :=
  fold_left (max_step s) (List.seq 0 (total + 1)) None.

(** ** Advancing *)

(** [while self.mem_live && mem_key == maxkey] *)
Fixpoint mem_past_rev (fuel : nat) (maxkey : bytes) : revm unit :=
  match fuel with
  | O => spanic
  | S fuel =>
      let# s := sget in
      if rs_mem_live s && bytes_eqb (take (rs_mem_key_len s) (rs_mem_key s)) maxkey then
        if (rs_mem_idx s =? 0)%nat then smod (fun s => rev_with_mem s (rs_mem_idx s) false)
        else
          let# _ := smod (fun s => rev_with_mem s (rs_mem_idx s - 1) (rs_mem_live s)) in
          let# _ := advance_mem_rev in
          mem_past_rev fuel maxkey
      else sret tt
  end.

(** The inner [loop] on one cursor; a park leaves the key, so it turns at most twice. *)
Fixpoint cursor_past_rev (fuel li ti : nat) (maxkey : bytes) : revm unit :=
  match fuel with
  | O => spanic
  | S fuel =>
      let# s := sget in
      let c := rev_cursor_at s (rev_pool_idx s li ti) in
      if negb (rc_live c && bytes_eqb (rc_head_key c) maxkey) then sret tt
      else
        let# _ := park_cursor_rev li ti (Some (maxkey, false)) in
        cursor_past_rev fuel li ti maxkey
  end.

(** [for src in 1..=total], over the sources to go. *)
Fixpoint cursors_past_rev (srcs : list nat) (maxkey : bytes) : revm unit :=
  match srcs with
  | [] => sret tt
  | src :: srcs =>
      let# s := sget in
      let '(li, ti) := cursor_pos_rev s src in
      let# _ := cursor_past_rev 2 li ti maxkey in
      cursors_past_rev srcs maxkey
  end.

Definition advance_past_key_rev (maxkey : bytes) (total : nat) : revm unit :=
  let# _ := mem_past_rev (S (len (db_table db))) maxkey in
  if (KEY_MAX <? length maxkey)%nat then spanic else cursors_past_rev (List.seq 1 total) maxkey.

(** ** The merge *)

(** One turn of pass 2. *)
Definition win_step_rev (s : RevScan) (max_key : bytes) (w : Winner) (src : nat) : Winner :=
  match head_rev s src with
  | None => w
  | Some h =>
      if negb (bytes_eqb (hd_key h) max_key) then w
      else
        let ver := head_version_rev s src in
        if version_gt ver (w_ver w)
        then mkWinner src ver (hd_tombstone h) (length (hd_key h)) (hd_val_len h) (hd_expire_at h) else w
  end.

Definition winner_of_rev (s : RevScan) (total max : nat) (max_key : bytes) : Winner :=
  fold_left (win_step_rev s max_key) (List.seq 0 (total + 1)) (mkWinner max ZERO false (length max_key) 0 0).

(** The winner's key bytes. *)
Definition winner_key_rev (s : RevScan) (w : Winner) : bytes :=
  take (w_key_len w) (if (w_src w =? 0)%nat then rs_mem_key s else rc_key (rev_src_cursor s (w_src w))).

(** The winner's value into [val_buf]. *)
Definition copy_value_rev (w : Winner) (val_buf : bytes) : revm bytes :=
  let# s := sget in
  if (w_src w =? 0)%nat then sret (splice 0 (take (w_val_len w) (rs_mem_val s)) val_buf)
  else
    let c := rev_src_cursor s (w_src w) in
    let# _ := ensure_block_rev (rc_table_id c) (rc_block_id c) in
    let# s := sget in
    match parse_data_entry (E := E) (rs_block s) (rc_off c) (rc_end c) (rc_block_id c) with
    | Err _ => sfail (CorruptBlock (rc_block_id c))
    | Ok e => if (length val_buf <? length (pd_val e))%nat then spanic else sret (splice 0 (pd_val e) val_buf)
    end.

(** [prev]: the lengths and the two buffers, or the end. *)
Fixpoint prev_loop (fuel total : nat) (key_buf val_buf : bytes) : revm (option (nat * nat * bytes * bytes)) :=
  match fuel with
  | O => spanic
  | S fuel =>
      let# s := sget in
      match max_src s total with
      | None => sret None
      | Some (src, max_key) =>
          if rs_has_lower s && bytes_leb max_key (lower_bound_of s) then sret None
          else
            let w := winner_of_rev s total src max_key in
            let wkey := winner_key_rev s w in
            let# covered := slift (rdel_hides LEVELS db wkey (rs_max_seq s) (w_ver w)) in
            let expired := negb (w_tombstone w) && negb (w_expire_at w =? 0)%Z && (w_expire_at w <=? rs_now s)%Z in
            if (Version.seq (w_ver w) =? 0)%Z || w_tombstone w || covered || expired then
              let# _ := advance_past_key_rev wkey total in
              prev_loop fuel total key_buf val_buf
            else if (length key_buf <? w_key_len w)%nat then sfail (BufferTooSmall (w_key_len w))
            else
              let key_buf := splice 0 wkey key_buf in
              if (length val_buf <? w_val_len w)%nat then sfail (BufferTooSmall (w_val_len w))
              else
                let# val_buf := copy_value_rev w val_buf in
                let# _ := advance_past_key_rev (take (w_key_len w) key_buf) total in
                sret (Some (w_key_len w, w_val_len w, key_buf, val_buf))
      end
  end.

(** A bound on the entries of a cursor's table. *)
Definition rev_cursor_bound (c : RevCursor) : nat :=
  match find_table (db_manifest db) (rc_table_id c) with
  | Some t => Z.to_nat (block_count t) * BLOCK
  | None => 0
  end.

(** A turn of the merge passes at least one entry. *)
Definition prev_bound (s : RevScan) : nat := len (db_table db) + sum_list_with rev_cursor_bound (rs_cursors s).

Definition prev (key_buf val_buf : bytes) : revm (option (nat * nat * bytes * bytes)) :=
  let# s := sget in
  prev_loop (S (prev_bound s)) (total_cursors_rev s) key_buf val_buf.
End rev.
