(* ===== verification/ScanRevBlock.v ===== *)
(** * Searching a block backward: [src/scan.rs]

    The greatest entry at or below a bound that a reverse scan may see, newest first among
    the versions of a key, and that the search over restart points and regions finds it. *)

From stdpp Require Import base numbers list.
From Stdlib Require Import ZArith Lia Sorting.Sorted.
From S2P Require Import Prelude Device Compress Version Slots Cache Memtable Wal Manifest ManifestPool SstPlan SstWriter SstReader SstBlock SstImage SstIndex SstRdel SstTable SstBuild Db DbRead Scan ScanPark ScanRev.

(** ** The top of a list *)

(** Comparisons of keys as propositions. *)
Ltac keys :=
  repeat match goal with
  | H : bytes_ltb _ _ = true |- _ => apply bytes_ltb_spec in H
  | H : bytes_ltb _ _ = false |- _ => apply bytes_ltb_ge in H
  | H : bytes_leb _ _ = true |- _ => apply bytes_leb_spec in H
  | H : bytes_leb _ _ = false |- _ => apply bytes_leb_gt in H
  | H : bytes_eqb _ _ = true |- _ => apply bytes_eqb_spec in H
  end.

Lemma keys_absurd a b : bytes_lt a b -> bytes_le b a -> False.
Proof. intros Hl Hr. exact (irreflexivity bytes_lt a (bytes_lt_le_trans _ _ _ Hl Hr)). Qed.

Section top.
  Context {A : Type} (key : A -> bytes).

(** The first element of the greatest key. *)
Definition top_step (b : option A) (x : A) : option A :=
  match b with None => Some x | Some y => if bytes_ltb (key y) (key x) then Some x else b end.
Definition top_of (l : list A) : option A := fold_left top_step l None.

(** The top of an earlier list [a] and a later one [b]: a tie is the earlier's. *)
Definition top_merge (b a : option A) : option A :=
  match a with
  | None => b
  | Some x => match b with None => Some x | Some y => if bytes_leb (key y) (key x) then Some x else b end
  end.

Lemma top_fold l : forall b, fold_left top_step l b = top_merge (top_of l) b.
Proof.
  induction l as [|a l IH]; intros b; [by destruct b |]. unfold top_of. cbn [fold_left]. rewrite !IH. cbn [top_step].
  destruct b as [x |]; cbn [top_step]; [| by destruct (top_of l)].
  destruct (top_of l) as [y |]; cbn [top_merge].
  - destruct (bytes_ltb (key x) (key a)) eqn:E1, (bytes_leb (key y) (key a)) eqn:E2; cbn [top_merge];
      rewrite ?E1, ?E2; destruct (bytes_leb (key a) (key x)) eqn:E3, (bytes_leb (key y) (key x)) eqn:E4; try done; exfalso; keys;
      eauto using keys_absurd, bytes_le_trans, bytes_lt_le, bytes_lt_le_trans, bytes_le_lt_trans.
  - destruct (bytes_ltb (key x) (key a)) eqn:E1, (bytes_leb (key a) (key x)) eqn:E2; try done; exfalso; keys;
      eauto using keys_absurd, bytes_lt_le.
Qed.

Lemma top_app a b : top_of (a ++ b) = top_merge (top_of b) (top_of a).
Proof. unfold top_of. by rewrite fold_left_app, top_fold. Qed.

Lemma top_cons a l : top_of (a :: l) = top_merge (top_of l) (Some a).
Proof. apply (top_fold l (Some a)). Qed.

Lemma top_none l : top_of l = None -> l = [].
Proof. destruct l as [|a l]; [done |]. rewrite top_cons. cbn. destruct (top_of l); [by destruct (bytes_leb _ _) | done]. Qed.

Lemma top_split l x : top_of l = Some x ->
  exists pre suf, l = pre ++ x :: suf /\ Forall (fun y => bytes_lt (key y) (key x)) pre /\ Forall (fun y => bytes_le (key y) (key x)) suf.
Proof.
  revert x. induction l as [|a l IH]; intros x; [done |]. rewrite top_cons. cbn [top_merge].
  destruct (top_of l) as [y |] eqn:Et; [| intros [= <-]; apply top_none in Et as ->; by exists [], []].
  destruct (IH y eq_refl) as (pre & suf & -> & Hp & Hs). destruct (bytes_leb (key y) (key a)) eqn:El; intros [= <-]; keys.
  - exists [], (pre ++ y :: suf). split_and!; [done | done |]. apply Forall_app. rewrite Forall_cons. split_and!; [| done |].
    + eapply Forall_impl; [exact Hp |]. intros z Hz. apply bytes_lt_le. eapply bytes_lt_le_trans; [exact Hz | exact El].
    + eapply Forall_impl; [exact Hs |]. intros z Hz. exact (bytes_le_trans _ _ _ Hz El).
  - exists (a :: pre), suf. split_and!; auto.
Qed.

Lemma top_in l x : top_of l = Some x -> x ∈ l.
Proof. intros (pre & suf & -> & _)%top_split. apply elem_of_app. right. left. Qed.

Lemma top_le l x y : top_of l = Some x -> y ∈ l -> bytes_le (key y) (key x).
Proof.
  intros (pre & suf & -> & Hp & Hs)%top_split. rewrite Forall_forall in Hp, Hs.
  intros [Hy | [-> | Hy]%elem_of_cons]%elem_of_app; [by apply bytes_lt_le, Hp | apply bytes_le_refl | by apply Hs].
Qed.

(** Nothing earlier reaches the later top. *)
Lemma top_merge_later b a y : b = Some y -> (forall x, a = Some x -> bytes_lt (key x) (key y)) -> top_merge b a = b.
Proof.
  intros -> Ha. destruct a as [x |]; [| done]. cbn. destruct (bytes_leb (key y) (key x)) eqn:El; [| done]. exfalso. keys.
  eauto using keys_absurd.
Qed.
End top.

Lemma top_map {A B} (key : B -> bytes) (f : A -> B) l : top_of key (map f l) = f <$> top_of (fun x => key (f x)) l.
Proof.
  induction l as [|a l IH]; [done |]. cbn [map]. rewrite !top_cons, IH. destruct (top_of _ l) as [y |]; [| done].
  cbn. by destruct (bytes_leb _ _).
Qed.

(** A stricter filter that keeps the top. *)
Lemma top_floor {A} (key : A -> bytes) (floor : bytes) l :
  top_of key (List.filter (fun x => bytes_leb floor (key x)) l) =
  match top_of key l with Some x => if bytes_ltb (key x) floor then None else Some x | None => None end.
Proof.
  induction l as [|a l IH]; [done |]. cbn [List.filter]. rewrite top_cons. cbn [top_merge].
  destruct (bytes_leb floor (key a)) eqn:Ef.
  - rewrite top_cons, IH. cbn [top_merge]. destruct (top_of key l) as [y |].
    + destruct (bytes_ltb (key y) floor) eqn:E1, (bytes_leb (key y) (key a)) eqn:E2; rewrite ?E1, ?E2;
        destruct (bytes_ltb (key a) floor) eqn:E3; try done; exfalso; keys;
        eauto using keys_absurd, bytes_le_trans, bytes_lt_le, bytes_lt_le_trans, bytes_le_lt_trans.
    + destruct (bytes_ltb (key a) floor) eqn:E3; [| done]. exfalso. keys. eauto using keys_absurd.
  - rewrite IH. destruct (top_of key l) as [y |].
    + destruct (bytes_ltb (key y) floor) eqn:E1, (bytes_leb (key y) (key a)) eqn:E2; rewrite ?E1;
        destruct (bytes_ltb (key a) floor) eqn:E3; try done; exfalso; keys;
        eauto using keys_absurd, bytes_le_trans, bytes_lt_le, bytes_lt_le_trans, bytes_le_lt_trans.
    + destruct (bytes_ltb (key a) floor) eqn:E3; [done |]. exfalso. keys. eauto using keys_absurd.
Qed.

Lemma nothing_passes {A} (f : A -> bool) l : (forall x, x ∈ l -> f x = false) -> List.filter f l = [].
Proof.
  induction l as [|a l IH]; intros Hf; [done |]. cbn. rewrite (Hf a) by left. apply IH. intros x Hx. apply Hf. by right.
Qed.

(** ** Bounds *)

Lemma bound_ok_down b k k' : bound_ok b k = true -> bytes_le k' k -> bound_ok b k' = true.
Proof.
  destruct b as [[bk incl] |]; [| done]. cbn. rewrite !orb_true_iff, !andb_true_iff, !bytes_ltb_spec, !bytes_eqb_spec.
  intros [Hlt | [Hi ->]] Hle; [left; by eapply bytes_le_lt_trans |]. apply bytes_le_lteq in Hle as [? | ->]; [by left | by right].
Qed.

(** What a search at [mx] below the bound may stop at. *)
Definition qual (mx : u64) (b : RevBound) (e : SstEntry) : bool := (se_seq e <=? mx)%Z && bound_ok b (se_key e).

Lemma qual_past mx b e es : key_ordered (e :: es) -> bound_ok b (se_key e) = false -> List.filter (qual mx b) (e :: es) = [].
Proof.
  intros Hso Hb. apply nothing_passes. intros x Hx. unfold qual. apply andb_false_iff. right.
  destruct (bound_ok b (se_key x)) eqn:Ex; [| done]. apply StronglySorted_inv in Hso as [_ Hf]. rewrite Forall_forall in Hf.
  rewrite <- Hb. symmetry. eapply bound_ok_down; [exact Ex |]. apply elem_of_cons in Hx as [-> | Hx]; [apply bytes_le_refl | auto].
Qed.

(** Entries with their offsets. *)
Fixpoint placed (off : nat) (es : list SstEntry) : list (nat * SstEntry) :=
  match es with
  | [] => []
  | e :: es => (off, e) :: placed (off + elen e) es
  end.

Lemma placed_app off a b : placed off (a ++ b) = placed off a ++ placed (off + payload_len a) b.
Proof.
  revert off. induction a as [|e a IH]; intros off; [by rewrite Nat.add_0_r |].
  cbn [app placed]. rewrite IH, payload_len_cons. do 3 f_equal. lia.
Qed.

Lemma placed_snd off es : map snd (placed off es) = es.
Proof. revert off. induction es as [|e es IH]; intros off; [done |]. cbn. by rewrite IH. Qed.

Lemma placed_elem off es o e : (o, e) ∈ placed off es -> e ∈ es.
Proof. intros H. rewrite <- (placed_snd off es). apply list_elem_of_fmap. by exists (o, e). Qed.

Lemma placed_split es o e : (o, e) ∈ placed 0 es -> exists pre suf, es = pre ++ e :: suf /\ o = payload_len pre.
Proof.
  assert (forall off, (o, e) ∈ placed off es -> exists pre suf, es = pre ++ e :: suf /\ o = (off + payload_len pre)%nat) as Hg.
  { induction es as [|x es IH]; intros off; [by intros ?%not_elem_of_nil |]. cbn [placed]. intros [[= -> ->] | Hin]%elem_of_cons.
    - exists [], es. split; [done |]. change (payload_len []) with 0%nat. lia.
    - destruct (IH _ Hin) as (pre & suf & -> & ->). exists (x :: pre), suf. rewrite payload_len_cons. split; [done | lia]. }
  intros H. destruct (Hg 0%nat H) as (pre & suf & ? & ?). eauto.
Qed.

Abbreviation pkey := (fun x : nat * SstEntry => se_key x.2).
Abbreviation pqual mx b := (fun x : nat * SstEntry => qual mx b x.2).

(** The tops of a block. *)
Definition found (KEY_MAX : nat) (x : nat * SstEntry) : RevHead := rev_head KEY_MAX (head_of x.2 0) x.1.

Lemma found_bytes KEY_MAX x : (length (se_key x.2) <= KEY_MAX)%nat -> rh_bytes (found KEY_MAX x) = se_key x.2.
Proof. intros Hk. unfold rh_bytes, found, rev_head. cbn. apply take_splice_front. by rewrite length_replicate. Qed.

Lemma rev_head_next KEY_MAX e n off : rev_head KEY_MAX (head_of e n) off = found KEY_MAX (off, e).
Proof. done. Qed.

Section search.
  Context {D E : Type} `{Laws : DeviceLaws D E}.
  Context (HB : (49 <= BLOCK)%nat) (KEY_MAX : nat).
  Context (blk : bytes) (es : list SstEntry) (bid : u64) (b : RevBound) (mx : u64).
  Context (Hw : block_wf es) (Hh : holds_body blk es) (Hso : key_ordered es).
  Context (Hkeys : Forall (fun e => (length (se_key e) <= KEY_MAX)%nat) es).

  Abbreviation found := (found KEY_MAX).

Lemma key_fits e : e ∈ es -> (length (se_key e) <= KEY_MAX)%nat.
Proof. rewrite Forall_forall in Hkeys. auto. Qed.

Lemma merge_found (x y : option (nat * SstEntry)) :
  (forall z, x = Some z -> z.2 ∈ es) -> (forall z, y = Some z -> z.2 ∈ es) ->
  merge_best (found <$> x) (found <$> y) = found <$> top_merge pkey x y.
Proof.
  intros Hx Hy. destruct y as [y |]; [| done]. destruct x as [x |]; [| done]. cbn [fmap option_fmap option_map merge_best top_merge].
  rewrite !found_bytes by (apply key_fits; auto). by destruct (bytes_leb _ _).
Qed.

(** A region, [rest] behind it; the top one reads on into the padding. *)
Lemma region_step tr limit q rest : es = q ++ rest ->
  limit = payload_len q \/ rest = [] /\ tr = true /\ limit = rstart_of es ->
  forall region pre rbest fuel, q = pre ++ region -> (length region < fuel)%nat -> (forall z, rbest = Some z -> z.2 ∈ es) ->
  region_loop (E := E) KEY_MAX blk bid (rstart_of es) fuel tr (payload_len pre) limit b mx (found <$> rbest) =
  Some (Ok (found <$> fold_left (top_step pkey) (List.filter (pqual mx b) (placed (payload_len pre) region)) rbest)).
Proof.
  intros Es Hlim. destruct (rstart_bound HB es Hw) as [Hpl _].
  assert (payload_len q <= payload_len es)%nat as Hq by (rewrite Es, payload_len_app; lia).
  induction region as [|e region IH]; intros pre rbest fuel Eq Hf Hin; (destruct fuel as [|fuel]; [cbn in Hf; lia |]);
    cbn [region_loop placed List.filter fold_left].
  - rewrite app_nil_r in Eq. subst pre. destruct (Nat.ltb_spec (payload_len q) limit) as [Hlt | Hge]; [| done].
    destruct Hlim as [-> | (-> & -> & ->)]; [lia |]. rewrite app_nil_r in Es. subst q.
    destruct (held_ends (E := E) HB blk es bid Hw Hh) as [[err ->] ->]. done.
  - assert (es = pre ++ e :: region ++ rest) as Ees by (rewrite Es, Eq; by rewrite <- app_assoc).
    assert (payload_len pre < limit)%nat as Hoff.
    { pose proof (elen_pos e). rewrite Eq, payload_len_app, payload_len_cons in *. destruct Hlim as [-> | (_ & _ & ->)]; lia. }
    rewrite (proj2 (Nat.ltb_lt _ _)) by done. rewrite (held_parses (E := E) HB blk es pre e (region ++ rest) bid Hw Hh Ees).
    change (pd_key (head_of e (payload_len (pre ++ [e])))) with (se_key e). change (pd_seq (head_of e (payload_len (pre ++ [e])))) with (se_seq e).
    assert (e ∈ es) as Hein by (rewrite Ees; apply elem_of_app; right; left).
    destruct (bound_ok b (se_key e)) eqn:Eb; cbn [negb].
    2: { assert (List.filter (pqual mx b) (placed (payload_len pre) (e :: region)) = []) as Hn; [| cbn [placed List.filter] in Hn; by rewrite Hn].
         apply nothing_passes. intros [o x] Hx%placed_elem. cbn [snd].
         assert (key_ordered (e :: region)) as Hsr by (rewrite Ees, app_comm_cons in Hso; apply key_ordered_app in Hso as (_ & Hso' & _); by apply key_ordered_app in Hso' as [? _]).
         pose proof (qual_past mx b e region Hsr Eb) as Hnil. destruct (qual mx b x) eqn:Ex; [| done].
         assert (x ∈ List.filter (qual mx b) (e :: region)) as Hbad by (apply list_elem_of_In, filter_In; by rewrite <- list_elem_of_In).
         rewrite Hnil in Hbad. by apply not_elem_of_nil in Hbad. }
    assert (forall rb, (forall z, rb = Some z -> z.2 ∈ es) ->
      region_loop (E := E) KEY_MAX blk bid (rstart_of es) fuel tr (pd_next (head_of e (payload_len (pre ++ [e])))) limit b mx (found <$> rb) =
      Some (Ok (found <$> fold_left (top_step pkey) (List.filter (pqual mx b) (placed (payload_len pre + elen e) region)) rb))) as Hgo.
    { intros rb Hrb. cbn [head_of pd_next]. rewrite (IH (pre ++ [e]) rb fuel), payload_len_snoc; [done | by rewrite <- app_assoc | cbn in Hf; lia | done]. }
    unfold qual at 1. cbn [snd]. rewrite Eb, andb_true_r. destruct (se_seq e <=? mx)%Z eqn:Eq'; [| by apply Hgo].
    cbn [andb fold_left]. assert (match found <$> rbest with None => true | Some rb => bytes_ltb (rh_bytes rb) (se_key e) end =
      match rbest with None => true | Some z => bytes_ltb (se_key z.2) (se_key e) end) as ->.
    { destruct rbest as [z |]; [| done]. cbn [fmap option_fmap option_map]. by rewrite found_bytes by (apply key_fits; auto). }
    rewrite rev_head_next. destruct rbest as [z |]; cbn [top_step snd].
    + destruct (bytes_ltb (se_key z.2) (se_key e)); [| by apply Hgo].
      rewrite (proj2 (Nat.ltb_ge _ _)) by (by apply key_fits). change (Some (found (payload_len pre, e))) with (found <$> Some (payload_len pre, e)).
      apply Hgo. by intros ? [= <-].
    + rewrite (proj2 (Nat.ltb_ge _ _)) by (by apply key_fits). change (Some (found (payload_len pre, e))) with (found <$> Some (payload_len pre, e)).
      apply Hgo. by intros ? [= <-].
Qed.

(** ** Restart points *)

  Abbreviation nr := (n_restarts (length es)).
  Abbreviation upto j := (take (RESTART_INTERVAL * j) es).

Lemma sub_held off n : (off + n <= body_end)%nat -> sub off n blk = sub off n (data_body es).
Proof. intros Hle. rewrite <- (proj2 Hh). unfold sub. rewrite skipn_firstn_comm, take_take. f_equal. lia. Qed.

Lemma restart_step j : (j < nr)%nat -> restart_off_or (E := E) blk bid (rstart_of es) j nr = Ok (payload_len (upto j)).
Proof.
  intros Hj. pose proof (body_restart es j Hw) as Hr. rewrite length_restarts_of in Hr. specialize (Hr Hj).
  pose proof (bw_room _ Hw) as Hroom. rewrite length_restarts_of in Hroom.
  assert (rstart_of es = body_end - nr * 2 - 2)%nat as Ers by (unfold rstart_of; rewrite length_restarts_of; lia).
  unfold restart_at, slice_at in Hr. rewrite (length_data_body es Hw), (proj2 (Nat.leb_le _ _)) in Hr by lia. cbn [mbind option_bind] in Hr.
  unfold restart_off_or, restart_off. change (BLOCK - CRC_LEN)%nat with body_end.
  rewrite (proj2 (Nat.leb_gt _ _)), (proj2 (Nat.ltb_ge _ _)) by lia. rewrite sub_held by lia.
  destruct (_ <=? _)%nat eqn:El in Hr; [done |]. injection Hr as Hr. bool_lia. rewrite Hr in *.
  by rewrite (proj2 (Nat.ltb_lt _ _)) by lia.
Qed.

Lemma restart_entry j : (j < nr)%nat -> exists e suf, es = upto j ++ e :: suf /\ entry_key_at (E := E) blk bid (rstart_of es) (payload_len (upto j)) = Ok (se_key e).
Proof.
  intros Hj%restarts_below. destruct (lookup_lt_is_Some_2 es _ Hj) as [e He]. exists e, (drop (S (RESTART_INTERVAL * j)) es).
  assert (es = upto j ++ e :: drop (S (RESTART_INTERVAL * j)) es) as Es by (by rewrite take_drop_middle). split; [done |].
  unfold entry_key_at. by rewrite (held_parses (E := E) HB blk es _ e _ bid Hw Hh Es).
Qed.

Lemma some_restart : (0 < nr)%nat.
Proof.
  pose proof (bw_nonempty _ Hw). destruct es as [|e l]; [done |]. unfold n_restarts, RESTART_INTERVAL. cbn [length].
  pose proof (Nat.div_mod (S (length l) + 15) 16 ltac:(lia)). pose proof (Nat.mod_upper_bound (S (length l) + 15) 16 ltac:(lia)). lia.
Qed.

(** The search misses only a block whose first key is past the bound. *)
Lemma qualifying_step : forall fuel lo hi r, (hi <= nr)%nat -> (hi - lo <= fuel)%nat -> (r = None -> lo = 0%nat) -> (forall m, r = Some m -> (m < nr)%nat) ->
  (hi = nr \/ exists e suf, es = upto hi ++ e :: suf /\ bound_ok b (se_key e) = false) ->
  exists r', qualifying_loop (E := E) blk bid (rstart_of es) fuel lo hi nr b r = Ok r' /\
    match r' with Some m => (m < nr)%nat | None => exists e suf, es = e :: suf /\ bound_ok b (se_key e) = false end.
Proof.
  assert (forall r lo hi, (r = None -> lo = 0%nat) -> (forall m, r = Some m -> (m < nr)%nat) -> (hi <= lo)%nat ->
    (hi = nr \/ exists e suf, es = upto hi ++ e :: suf /\ bound_ok b (se_key e) = false) ->
    match r with Some m => (m < nr)%nat | None => exists e suf, es = e :: suf /\ bound_ok b (se_key e) = false end) as Hend.
  { intros r lo hi H0 Hr Hle Hhi. destruct r as [m |]; [auto |]. specialize (H0 eq_refl). pose proof some_restart.
    assert (hi = 0%nat) as -> by lia. destruct Hhi as [? | Hhi]; [lia |]. exact Hhi. }
  induction fuel as [|fuel IH]; intros lo hi r Hhi Hf H0 Hr Hlast; cbn [qualifying_loop].
  { exists r. split; [done |]. apply (Hend r lo hi); auto. lia. }
  destruct (Nat.ltb_spec lo hi) as [Hlt | Hge]; [| exists r; split; [done |]; by apply (Hend r lo hi)].
  set (mid := (lo + (hi - lo) / 2)%nat). assert (lo <= mid < hi)%nat as Hmid.
  { unfold mid. pose proof (Nat.Div0.div_lt_upper_bound (hi - lo) 2 (hi - lo) ltac:(lia)). lia. }
  rewrite restart_step by lia. destruct (restart_entry mid ltac:(lia)) as (e & suf & Es & ->).
  destruct (bound_ok b (se_key e)) eqn:Eb; apply IH; auto; try lia; try done.
  - intros m [= <-]. lia.
  - right. eauto.
Qed.

(** ** Regions *)

(** What qualifies from region [j] on. *)
Definition from_region (j : nat) : list (nat * SstEntry) :=
  List.filter (pqual mx b) (placed (payload_len (upto j)) (drop (RESTART_INTERVAL * j) es)).

(** Region [j], a later one behind it. *)
Definition region_of (j : nat) : list SstEntry := drop (RESTART_INTERVAL * j) (upto (S j)).

Lemma region_split j : upto (S j) = upto j ++ region_of j.
Proof.
  unfold region_of. rewrite <- (take_drop (RESTART_INTERVAL * j) (upto (S j))) at 1. rewrite take_take. do 2 f_equal.
  unfold RESTART_INTERVAL. lia.
Qed.

Lemma from_region_S j :
  from_region j = List.filter (pqual mx b) (placed (payload_len (upto j)) (region_of j)) ++ from_region (S j).
Proof.
  unfold from_region. rewrite <- List.filter_app. f_equal. pose proof (region_split j) as Hs.
  assert (drop (RESTART_INTERVAL * j) es = region_of j ++ drop (RESTART_INTERVAL * S j) es) as ->.
  { rewrite <- (take_drop (RESTART_INTERVAL * S j) es) at 1. rewrite Hs, <- app_assoc, drop_app.
    assert (RESTART_INTERVAL * j - length (upto j) = 0 \/ length es <= RESTART_INTERVAL * j)%nat as [-> | Hge] by (rewrite length_take; lia).
    - rewrite drop_ge by (rewrite length_take; lia). done.
    - unfold region_of. rewrite !(drop_ge es), !(take_ge es), !(drop_ge es), app_nil_r by (unfold RESTART_INTERVAL in *; lia).
      by rewrite drop_nil. }
  by rewrite placed_app, Hs, payload_len_app.
Qed.

Lemma from_region_in j x : x ∈ from_region j -> x.2 ∈ drop (RESTART_INTERVAL * j) es.
Proof. intros [Hx _]%list_elem_of_In%filter_In. destruct x. by apply list_elem_of_In, placed_elem in Hx. Qed.

Lemma from_region_es j x : x ∈ from_region j -> x.2 ∈ es.
Proof. intros Hx%from_region_in. rewrite <- (take_drop (RESTART_INTERVAL * j) es). apply elem_of_app. by right. Qed.

Lemma length_region_le pre l suf : es = pre ++ l ++ suf -> (length l <= rstart_of es)%nat.
Proof.
  intros Es. destruct (rstart_bound HB es Hw) as [Hpl _]. pose proof (length_payload l).
  pose proof (f_equal payload_len Es) as Hp. rewrite !payload_len_app in Hp. lia.
Qed.

Lemma top_from_es j z : top_of pkey (from_region j) = Some z -> z.2 ∈ es.
Proof. intros Hz%top_in. by eapply from_region_es. Qed.

(** The top region and a lower one. *)
Lemma top_region_step j : (j < nr)%nat ->
  region_loop (E := E) KEY_MAX blk bid (rstart_of es) (S (rstart_of es)) true (payload_len (upto j)) (rstart_of es) b mx None =
  Some (Ok (found <$> top_of pkey (from_region j))).
Proof.
  intros Hj. change None with (found <$> (None : option (nat * SstEntry))) at 1.
  rewrite (region_step true (rstart_of es) es [] ltac:(by rewrite app_nil_r) ltac:(by right)
    (drop (RESTART_INTERVAL * j) es) (upto j) None); [done | by rewrite take_drop | | done].
  pose proof (length_region_le (upto j) (drop (RESTART_INTERVAL * j) es) [] ltac:(by rewrite app_nil_r, take_drop)). lia.
Qed.

Lemma low_region_step j : (S j < nr)%nat ->
  region_loop (E := E) KEY_MAX blk bid (rstart_of es) (S (rstart_of es)) false (payload_len (upto j)) (payload_len (upto (S j))) b mx None =
  Some (Ok (found <$> top_of pkey (List.filter (pqual mx b) (placed (payload_len (upto j)) (region_of j))))).
Proof.
  intros Hj. change None with (found <$> (None : option (nat * SstEntry))) at 1.
  rewrite (region_step false (payload_len (upto (S j))) (upto (S j)) (drop (RESTART_INTERVAL * S j) es) ltac:(by rewrite take_drop) ltac:(by left)
    (region_of j) (upto j) None); [done | apply region_split | | done].
  assert (es = upto j ++ region_of j ++ drop (RESTART_INTERVAL * S j) es) as Es by (by rewrite app_assoc, <- region_split, take_drop).
  pose proof (length_region_le _ _ _ Es). lia.
Qed.

(** The best so far when the walk is at region [j]. *)
Definition walk_at (rstart j : nat) (best : option (nat * SstEntry)) : Prop :=
  j = rstart /\ best = None \/ (j < rstart)%nat /\ best = top_of pkey (from_region (S j)).

Lemma upto_mono i j x : (i <= j)%nat -> x ∈ upto i -> x ∈ upto j.
Proof.
  intros Hij Hx. replace (upto i) with (take (RESTART_INTERVAL * i) (upto j)) in Hx by (rewrite take_take; f_equal; unfold RESTART_INTERVAL; lia).
  rewrite <- (take_drop (RESTART_INTERVAL * i) (upto j)). apply elem_of_app. by left.
Qed.

(** Entries before a region are at or below its first key. *)
Lemma region_first j e suf x : es = upto j ++ e :: suf -> x ∈ upto j -> bytes_le (se_key x) (se_key e).
Proof. intros Es Hx. pose proof Hso as Ho. rewrite Es in Ho. apply key_ordered_app in Ho as (_ & _ & Ho). apply Ho; [done | left]. Qed.

Lemma early_break j e suf y : es = upto (S j) ++ e :: suf -> top_of pkey (from_region (S j)) = Some y ->
  bytes_lt (se_key e) (se_key y.2) -> top_of pkey (from_region 0) = Some y.
Proof.
  intros Es Hy Hlt. assert (forall i, (i <= S j)%nat -> top_of pkey (from_region i) = Some y) as Hall; [| by apply Hall; lia].
  intros i Hi. remember (S j - i)%nat as n eqn:En. revert i Hi En. induction n as [|n IH]; intros i Hi En.
  { by replace i with (S j) by lia. }
  rewrite from_region_S, top_app, (IH (S i)) by lia. eapply top_merge_later; [done |]. intros [o x] Hx%top_in.
  apply list_elem_of_In, filter_In in Hx as [Hx%list_elem_of_In%placed_elem _]. cbn [snd]. eapply bytes_le_lt_trans; [| exact Hlt].
  apply (region_first (S j) e suf x Es). apply (upto_mono (S i)); [lia |]. rewrite region_split. apply elem_of_app. by right.
Qed.

(** One turn: the walk is done, or region [j] is merged in. *)
Lemma turn_step rstart j best : (rstart < nr)%nat -> (j <= rstart)%nat -> walk_at rstart j best ->
  region_below (E := E) blk bid (rstart_of es) j rstart nr (found <$> best) = Ok true /\ best = top_of pkey (from_region 0) \/
  region_below (E := E) blk bid (rstart_of es) j rstart nr (found <$> best) = Ok false /\
  exists limit rbest, region_limit (E := E) blk bid (rstart_of es) j rstart nr = Ok limit /\
    region_loop (E := E) KEY_MAX blk bid (rstart_of es) (S (rstart_of es)) (j =? rstart)%nat (payload_len (upto j)) limit b mx None = Some (Ok rbest) /\
    merge_best (found <$> best) rbest = found <$> top_of pkey (from_region j).
Proof.
  intros Hrs Hj [[-> ->] | [Hlt Eb]]; unfold region_limit.
  - right. split; [done |]. exists (rstart_of es). eexists. rewrite Nat.eqb_refl. split_and!; [done | by apply top_region_step |].
    by destruct (top_of pkey (from_region rstart)).
  - destruct (restart_entry (j + 1) ltac:(lia)) as (e & suf & Es & Hk). rewrite Nat.add_1_r in *.
    assert (region_below (E := E) blk bid (rstart_of es) j rstart nr (found <$> best) =
      Ok match best with Some y => bytes_ltb (se_key e) (se_key y.2) | None => false end) as ->.
    { unfold region_below. destruct best as [y |]; [| done]. cbn [fmap option_fmap option_map]. rewrite (proj2 (Nat.ltb_lt _ _)) by done.
      rewrite Nat.add_1_r, restart_step, Hk by lia. rewrite found_bytes; [done |]. apply key_fits. by eapply top_from_es. }
    destruct (match best with Some y => bytes_ltb (se_key e) (se_key y.2) | None => false end) eqn:Ebr; [left | right]; (split; [done |]).
    + destruct best as [y |]; [| done]. keys. symmetry in Eb. symmetry. by eapply early_break.
    + exists (payload_len (upto (S j))). eexists. rewrite (proj2 (Nat.eqb_neq _ _)) by lia. rewrite restart_step by lia.
      split_and!; [done | by apply low_region_step; lia |]. rewrite merge_found.
      * by rewrite from_region_S, top_app, Eb.
      * intros z Hz. rewrite Eb in Hz. by eapply top_from_es.
      * intros [o z] Hz%top_in. apply list_elem_of_In, filter_In in Hz as [Hz%list_elem_of_In%placed_elem _].
        rewrite <- (take_drop (RESTART_INTERVAL * S j) es), region_split. cbn [snd]. rewrite !elem_of_app. auto.
Qed.

Lemma walk_step rstart : (rstart < nr)%nat -> forall j best, (j <= rstart)%nat -> walk_at rstart j best ->
  walk_regions (E := E) KEY_MAX blk bid (rstart_of es) j rstart nr b mx (found <$> best) = Some (Ok (found <$> top_of pkey (from_region 0))).
Proof.
  intros Hrs. induction j as [|j IH]; intros best Hj Hat; cbn [walk_regions];
    destruct (turn_step rstart _ best Hrs Hj Hat) as [[-> ->] | (-> & limit & rbest & Hl & Hrl & Hm)]; try done;
    rewrite restart_step by lia; rewrite Hl, Hrl, Hm; [done |].
  apply IH; [lia |]. right. split; [lia | done].
Qed.

(** The search finds the top of what qualifies. *)
Lemma search_step :
  search_block_rev (E := E) KEY_MAX blk bid (rstart_of es) b mx =
  Some (Ok (found <$> top_of pkey (List.filter (pqual mx b) (placed 0 es)))).
Proof.
  unfold search_block_rev. cbv zeta. change (BLOCK - CRC_LEN)%nat with body_end. rewrite sub_held by (unfold body_end, CRC_LEN; lia).
  rewrite (data_body_trailer es Hw). pose proof (bw_restarts _ Hw) as Hn. rewrite length_restarts_of in *.
  rewrite from_to_le, Nat2Z.id by (change (2 ^ (8 * Z.of_nat 2))%Z with 65536%Z; lia). pose proof some_restart as Hpos.
  rewrite (proj2 (Nat.eqb_neq _ _)) by lia. unfold last_qualifying_restart.
  destruct (qualifying_step nr 0 nr None) as (r & -> & Hr); try lia; try done.
  change (placed 0 es) with (placed (payload_len (upto 0)) (drop (RESTART_INTERVAL * 0) es)). fold (from_region 0).
  destruct r as [m |].
  - unfold walk_regions_rev. change None with (found <$> (None : option (nat * SstEntry))) at 1. apply walk_step; [done | done |]. by left.
  - destruct Hr as (e & suf & Es & Eb). assert (from_region 0 = []) as ->; [| done]. unfold from_region. apply nothing_passes.
    intros [o x] Hx%placed_elem. cbn [snd drop Nat.mul] in *. pose proof Hso as Ho. rewrite Es in Ho.
    pose proof (qual_past mx b e suf Ho Eb) as Hnil. destruct (qual mx b x) eqn:Ex; [| done].
    assert (x ∈ List.filter (qual mx b) (e :: suf)) as Hbad by (apply list_elem_of_In, filter_In; rewrite <- list_elem_of_In, <- Es; by rewrite drop_0 in Hx).
    rewrite Hnil in Hbad. by apply not_elem_of_nil in Hbad.
Qed.
End search.
