(* ===== verification/ScanRevPark.v ===== *)
(** * What a reverse scan's cursors stand on: [src/scan.rs]

    Parking a reverse cursor: from any block it stops at the greatest key left below the
    bound, on its newest visible version, wherever the versions of the key begin. *)

From stdpp Require Import base numbers list sorting.
From Stdlib Require Import ZArith Lia Sorting.Sorted.
From S2P Require Import Prelude Device Compress Version Slots Cache Memtable Wal Manifest ManifestPool SstPlan SstWriter SstReader SstBlock SstImage SstIndex SstRdel SstTable SstBuild Db DbRead Scan ScanPark ScanRev ScanRevBlock.

(** ** Entries with their blocks *)

Fixpoint located (i : nat) (blks : list (list SstEntry)) : list (nat * (nat * SstEntry)) :=
  match blks with
  | [] => []
  | es :: bs => map (pair i) (placed 0 es) ++ located (S i) bs
  end.

Abbreviation lkey := (fun x : nat * (nat * SstEntry) => se_key x.2.2).
Abbreviation lqual mx b := (fun x : nat * (nat * SstEntry) => qual mx b x.2.2).

Lemma located_app i a b : located i (a ++ b) = located i a ++ located (i + length a) b.
Proof.
  revert i. induction a as [|es a IH]; intros i; cbn [app located length]; [by rewrite Nat.add_0_r |].
  rewrite IH, <- app_assoc. do 3 f_equal. lia.
Qed.

Lemma located_entries i blks : map (fun x => x.2.2) (located i blks) = concat blks.
Proof.
  revert i. induction blks as [|es bs IH]; intros i; [done |]. cbn [located concat]. rewrite map_app, map_map, IH. f_equal.
  apply (placed_snd 0).
Qed.

Lemma located_at i blks x : x ∈ located i blks -> exists es, (i <= x.1)%nat /\ blks !! (x.1 - i)%nat = Some es /\ x.2 ∈ placed 0 es.
Proof.
  revert i. induction blks as [|es bs IH]; intros i; [by intros ?%not_elem_of_nil |]. cbn [located].
  intros [(y & -> & Hy)%list_elem_of_fmap | Hx]%elem_of_app.
  - exists es. cbn [fst snd]. rewrite Nat.sub_diag. done.
  - destruct (IH _ Hx) as (es' & Hle & Hl & Hp). exists es'. split_and!; [lia | | done].
    by replace (x.1 - i)%nat with (S (x.1 - S i)) by lia.
Qed.

Lemma filter_map_swap {A B} (f : A -> B) (p : B -> bool) l : List.filter p (map f l) = map f (List.filter (fun x => p (f x)) l).
Proof. induction l as [|a l IH]; [done |]. cbn. rewrite IH. by destruct (p (f a)). Qed.

(** A table is found by its id. *)
Lemma find_unique m t : NoDup (t_id <$> tables m) -> t ∈ tables m -> find_table m (t_id t) = Some t.
Proof.
  unfold find_table. induction (tables m) as [|a l IH]; intros Hn Ht; [by apply not_elem_of_nil in Ht |].
  cbn in Hn. apply NoDup_cons in Hn as [Ha Hn]. cbn. destruct (Z.eqb_spec (t_id a) (t_id t)) as [Eq | Hne].
  - apply elem_of_cons in Ht as [-> | Ht]; [done |]. exfalso. apply Ha. rewrite Eq. by apply list_elem_of_fmap_2.
  - apply elem_of_cons in Ht as [-> | Ht]; [done | by apply IH].
Qed.

Section parking.
  Context {D E : Type} `{Laws : DeviceLaws D E}.
  Context (HB : (49 <= BLOCK)%nat) (KEY_MAX BLOOM_BYTES : nat).
  Context (db : Db D) (L : u32 -> u64 -> Prop) (Data : u64 -> Prop).

  Abbreviation dev := (device (db_wal db)).
  Abbreviation sruns := (sruns dev L).
  Abbreviation found := (found KEY_MAX).

(** A buffer that names a data block is that block; it may hold another one raw. *)
Definition rbuf (blk : bytes) (bid : option u64) : Prop :=
  length blk = BLOCK /\ forall id, bid = Some id -> Data id -> buf_ok db blk bid.

Lemma buf_rbuf blk bid : buf_ok db blk bid -> rbuf blk bid.
Proof. intros Hb. split; [apply Hb | done]. Qed.

Definition rbuffered (s : RevScan) : Prop := rbuf (rs_block s) (rs_block_id s).

Definition rput (i : nat) (c : RevCursor) (s : RevScan) : RevScan :=
  rev_with_cursors s (<[i := c]> (rs_cursors s)) (rs_cursor_counts s) (rs_level_base s).

Lemma rput_at i c s : (i < length (rs_cursors s))%nat -> rev_cursor_at KEY_MAX (rput i c s) i = c.
Proof. intros Hi. unfold rev_cursor_at, rput. cbn. by rewrite nth_lookup, list_lookup_insert_eq. Qed.

Lemma rput_twice i c c' s b id : rput i c' (rev_with_block (rput i c s) b id) = rput i c' (rev_with_block s b id).
Proof. unfold rput, rev_with_block, rev_with_cursors. cbn. by rewrite list_insert_insert_eq. Qed.

Lemma sruns_set_cursor i f s : sruns (smod (rev_set_cursor KEY_MAX i f)) s (rput i (f (rev_cursor_at KEY_MAX s i)) s) (Ok tt).
Proof. exact (sruns_mod (S := RevScan) (E := E) dev L (rev_set_cursor KEY_MAX i f) s). Qed.

Section table.
  Context (t : TableRef) (blks : list (list SstEntry)) (rbs : list (list RdelEntry)) (k : u8) (ec ms : u64).
  Context (Hon : table_on BLOOM_BYTES dev (first_block t) blks rbs k ec ms).
  Context (HL : forall i, (i < length blks + length rbs + 3)%nat -> L (t_id t) (first_block t + Z.of_nat i)%Z).
  Context (Hvo : version_ordered (concat blks)).
  Context (Hkeys : Forall (fun e => (length (se_key e) <= KEY_MAX)%nat) (concat blks)).
  Context (Hfind : find_table (db_manifest db) (t_id t) = Some t).

  Context (HData : forall p, (p < length blks)%nat -> Data (first_block t + Z.of_nat p)%Z).

  Abbreviation blk_id p := (first_block t + Z.of_nat p)%Z.

Lemma rload_step s p es :
  length (rs_block s) = BLOCK -> blks !! p = Some es ->
  exists blk, sruns (read_verify_rev db (t_id t) (blk_id p)) s (rev_with_block s blk (Some (blk_id p))) (Ok tt) /\ holds_body blk es /\
    rbuf blk (Some (blk_id p)).
Proof.
  intros Hl Hp. destruct (data_block_read HB BLOOM_BYTES db L t blks rbs k ec ms Hon HL (rs_block s) p es Hl Hp) as (raw & infl & dec & Hy & Hh & Hb).
  exists (if infl then dec else raw). split_and!; [| done | by apply buf_rbuf].
  unfold read_verify_rev. apply sruns_get_seq. eapply sruns_seq; [apply sruns_lift, Hy |]. apply (sruns_mod (S := RevScan)).
Qed.

Lemma rev_with_block_id s : rev_with_block s (rs_block s) (rs_block_id s) = s.
Proof. by destruct s. Qed.

Lemma rensure_step s p es :
  rbuffered s -> blks !! p = Some es ->
  exists blk, sruns (ensure_block_rev db (t_id t) (blk_id p)) s (rev_with_block s blk (Some (blk_id p))) (Ok tt) /\ holds_body blk es /\
    rbuf blk (Some (blk_id p)).
Proof.
  intros Hb Hp. unfold ensure_block_rev. destruct (bool_decide (rs_block_id s = Some (blk_id p))) eqn:Eb.
  - apply bool_decide_eq_true in Eb. exists (rs_block s). unfold rbuffered in Hb. rewrite Eb in Hb.
    assert (rev_with_block s (rs_block s) (Some (blk_id p)) = s) as -> by (rewrite <- Eb; apply rev_with_block_id). split_and!; [| | done].
    + apply sruns_get_seq. rewrite bool_decide_eq_true_2 by done. apply sruns_ret.
    + eapply (buf_holds BLOOM_BYTES db t blks rbs k ec ms Hon); [| exact Hp]. apply Hb with (blk_id p); [done |]. apply HData. by eapply lookup_lt_Some.
  - destruct (rload_step s p es (proj1 Hb) Hp) as (blk & Hrun & Hh & Hbuf). exists blk. split_and!; auto.
    apply sruns_get_seq. rewrite Eb. exact Hrun.
Qed.

Lemma loaded_end_step s p es id : holds_body (rs_block s) es -> blks !! p = Some es ->
  sruns (loaded_end (E := E) id) s s (Ok (rstart_of es)).
Proof.
  intros Hh Hp. destruct (to_data _ _ _ _ _ _ _ _ Hon p es Hp) as (Hw & _). destruct (rstart_bound HB es Hw) as [_ Hr].
  unfold loaded_end. apply sruns_get_seq. eapply sruns_seq.
  { apply sruns_lift. rewrite (held_end (E := E) HB (rs_block s) es _ Hw Hh). apply yields_pure. }
  rewrite (proj2 (Nat.eqb_neq _ _)) by lia. apply sruns_ret.
Qed.

Lemma block_entries p es e : blks !! p = Some es -> e ∈ es -> e ∈ concat blks.
Proof. intros Hp He. apply list_elem_of_In, in_concat. exists es. split; apply list_elem_of_In; [by eapply list_elem_of_lookup_2 | done]. Qed.

Lemma block_split p es : blks !! p = Some es -> concat blks = concat (take p blks) ++ es ++ concat (drop (S p) blks).
Proof. intros Hp. rewrite <- (take_drop_middle blks p es Hp) at 1. by rewrite concat_app. Qed.

Lemma block_ordered p es : blks !! p = Some es -> key_ordered es.
Proof.
  intros Hp. pose proof (version_key_ordered _ Hvo) as Hko. rewrite (block_split p es Hp) in Hko.
  apply key_ordered_app in Hko as (_ & Hko & _). by apply key_ordered_app in Hko as [? _].
Qed.

(** Earlier blocks are at or below; a version of the same key there is newer. *)
Lemma earlier_before p es x e : blks !! p = Some es -> x ∈ concat (take p blks) -> e ∈ es ->
  bytes_le (se_key x) (se_key e) /\ (se_key x = se_key e -> (se_seq e < se_seq x)%Z).
Proof.
  intros Hp Hx He. pose proof Hvo as Ho. rewrite (block_split p es Hp) in Ho.
  assert (version_before x e) as [Hlt | [Heq Hlt]].
  { eapply StronglySorted_app_1_elem_of; [exact Ho | done |]. apply elem_of_app. by left. }
  - split; [by apply bytes_lt_le |]. intros Heq. rewrite Heq in Hlt. by apply irreflexivity in Hlt; [| apply _].
  - split; [rewrite Heq; apply bytes_le_refl | done].
Qed.

Lemma search_block p es blk mx b id : blks !! p = Some es -> holds_body blk es ->
  search_block_rev (E := E) KEY_MAX blk id (rstart_of es) b mx = Some (Ok (found <$> top_of pkey (List.filter (pqual mx b) (placed 0 es)))).
Proof.
  intros Hp Hh. destruct (to_data _ _ _ _ _ _ _ _ Hon p es Hp) as (Hw & _). apply search_step; auto; [by eapply block_ordered |].
  rewrite Forall_forall in Hkeys. apply Forall_forall. intros e He. apply Hkeys. by eapply block_entries.
Qed.

Lemma first_key_step p es blk id : blks !! p = Some es -> holds_body blk es ->
  exists e0 l, es = e0 :: l /\ block_first_key (E := E) blk id (rstart_of es) = Ok (se_key e0).
Proof.
  intros Hp Hh. destruct (to_data _ _ _ _ _ _ _ _ Hon p es Hp) as (Hw & _). pose proof (bw_nonempty _ Hw).
  destruct es as [|e0 l] eqn:Ees; [done |]. exists e0, l. split; [done |]. rewrite <- Ees in *. unfold block_first_key, entry_key_at.
  change 0%nat with (payload_len []). rewrite (held_parses (E := E) HB blk es [] e0 l id Hw Hh Ees). done.
Qed.

(** ** The top of the first blocks *)

Definition top_at (mx : u64) (b : RevBound) (n : nat) : option (nat * (nat * SstEntry)) :=
  top_of lkey (List.filter (lqual mx b) (located 0 (take n blks))).

Lemma top_at_S mx b n es : blks !! n = Some es ->
  top_at mx b (S n) = top_merge lkey (pair n <$> top_of pkey (List.filter (pqual mx b) (placed 0 es))) (top_at mx b n).
Proof.
  intros Hn. unfold top_at. rewrite (take_S_r _ _ _ Hn), located_app, List.filter_app, top_app. f_equal.
  rewrite length_take_le by (apply lookup_lt_Some in Hn; lia). cbn [located]. rewrite app_nil_r, Nat.add_0_l, filter_map_swap, top_map. done.
Qed.

Lemma top_at_in mx b n x : top_at mx b n = Some x ->
  x.2.2 ∈ concat (take n blks) /\ qual mx b x.2.2 = true /\ exists es, (x.1 < n)%nat /\ blks !! x.1 = Some es /\ x.2 ∈ placed 0 es.
Proof.
  intros Hx%top_in. apply list_elem_of_In, filter_In in Hx as [Hx Hq]. apply list_elem_of_In in Hx. split_and!; [| done |].
  - rewrite <- (located_entries 0). apply list_elem_of_fmap. eauto.
  - destruct (located_at _ _ _ Hx) as (es & _ & Hl & Hp). exists es. rewrite Nat.sub_0_r in Hl.
    apply lookup_take_Some in Hl as [Hl Hlt]. done.
Qed.

Lemma block_top mx b es o e : top_of pkey (List.filter (pqual mx b) (placed 0 es)) = Some (o, e) ->
  e ∈ es /\ (o, e) ∈ placed 0 es /\ (se_seq e <= mx)%Z /\ bound_ok b (se_key e) = true.
Proof.
  intros Hx%top_in. apply list_elem_of_In, filter_In in Hx as [Hx%list_elem_of_In Hq]. unfold qual in Hq. cbn in Hq. apply andb_true_iff in Hq as [Hq%Z.leb_le ?].
  split_and!; auto. by eapply placed_elem.
Qed.

(** A head in its block. *)
Definition at_head (x : nat * (nat * SstEntry)) : RevHeadAt :=
  mkRevHeadAt (found x.2) (blk_id x.1) (rstart_of (nth x.1 blks [])) (Z.of_nat x.1).

Lemma nth_block p es : blks !! p = Some es -> nth p blks [] = es.
Proof. intros Hp. by rewrite nth_lookup, Hp. Qed.

Lemma entry_fits p es e : blks !! p = Some es -> e ∈ es -> (length (se_key e) <= KEY_MAX)%nat.
Proof. intros Hp He. rewrite Forall_forall in Hkeys. apply Hkeys. by eapply block_entries. Qed.

(** ** Following a version run *)

(** What the blocks before the [n]-th have of [key], and [best] without it. *)
Definition run_top (mx : u64) (key : bytes) (n : nat) (best : option RevHeadAt) : option RevHeadAt :=
  match top_at mx (Some (key, true)) n with
  | Some x => if bytes_eqb (lkey x) key then Some (at_head x) else best
  | None => best
  end.

(** Block [n] has nothing visible of the key: neither do the ones before it. *)
Lemma run_stops mx key n es best : blks !! n = Some es -> es <> [] -> (forall e, e ∈ es -> bytes_le (se_key e) key) ->
  (forall o e, top_of pkey (List.filter (pqual mx (Some (key, true))) (placed 0 es)) = Some (o, e) -> se_key e <> key) ->
  run_top mx key (S n) best = best.
Proof.
  intros Hn Hne Hle Hno. unfold run_top. rewrite (top_at_S _ _ _ _ Hn).
  assert (forall x, top_at mx (Some (key, true)) n = Some x -> se_key x.2.2 = key -> False) as Hearly.
  { intros x Hx Hk. destruct (top_at_in _ _ _ _ Hx) as (Hin & Hq & _). destruct es as [|e0 l] eqn:Ees; [done |]. rewrite <- Ees in *.
    assert (e0 ∈ es) as He0 by (rewrite Ees; left). destruct (earlier_before n es _ e0 Hn Hin He0) as [Hle0 Hseq].
    assert (se_key e0 = key) as Ek by (apply bytes_le_antisym; [by apply Hle | by rewrite <- Hk]).
    specialize (Hseq ltac:(congruence)). unfold qual in Hq. apply andb_true_iff in Hq as [Hq%Z.leb_le _].
    destruct (top_of pkey (List.filter (pqual mx (Some (key, true))) (placed 0 es))) as [[o e] |] eqn:Et.
    - destruct (block_top _ _ _ _ _ Et) as (He & _). apply (Hno o e eq_refl).
      destruct (earlier_before n es _ e Hn Hin He) as [Hlee _]. apply bytes_le_antisym; [by apply Hle | by rewrite <- Hk].
    - apply top_none in Et. rewrite Ees in Et. cbn [placed List.filter snd] in Et. unfold qual in Et. cbn [bound_ok] in Et.
      rewrite Ek, (proj2 (bytes_eqb_spec key key)), orb_true_r, andb_true_r, (proj2 (Z.leb_le _ _)) in Et by (done || lia). done. }
  destruct (top_at mx (Some (key, true)) n) as [x |] eqn:Ex; [specialize (Hearly x eq_refl) |]; cbn [top_merge];
    destruct (top_of pkey _) as [[o e] |] eqn:Et; cbn [fmap option_fmap option_map snd]; try done.
  - specialize (Hno o e eq_refl). destruct (bytes_leb (se_key e) (se_key x.2.2)); cbn [snd];
      destruct (bytes_eqb _ _) eqn:Eb; try done; keys; exfalso; auto.
  - destruct (bytes_eqb _ _) eqn:Eb; [keys; exfalso; auto | done].
  - specialize (Hno o e eq_refl). destruct (bytes_eqb _ _) eqn:Eb; [keys; exfalso; auto | done].
Qed.

(** Block [n] has it: the ones before it may have more while it is the first key. *)
Lemma run_goes mx key n es o e best : blks !! n = Some es ->
  top_of pkey (List.filter (pqual mx (Some (key, true))) (placed 0 es)) = Some (o, e) -> se_key e = key ->
  run_top mx key (S n) best = run_top mx key n (Some (at_head (n, (o, e)))).
Proof.
  intros Hn Et Ek. unfold run_top. rewrite (top_at_S _ _ _ _ Hn), Et. cbn [fmap option_fmap option_map].
  destruct (top_at mx (Some (key, true)) n) as [x |] eqn:Ex; cbn [top_merge snd].
  - destruct (top_at_in _ _ _ _ Ex) as (_ & Hq & _). unfold qual in Hq. apply andb_true_iff in Hq as [_ Hq]. cbn in Hq.
    destruct (bytes_leb (se_key e) (se_key x.2.2)) eqn:El.
    + assert (se_key x.2.2 = key) as ->; [| by rewrite (proj2 (bytes_eqb_spec key key))].
      keys. apply orb_true_iff in Hq as [Hq%bytes_ltb_spec | Hq%bytes_eqb_spec]; [| done]. exfalso. rewrite Ek in El. eauto using keys_absurd.
    + cbn [snd]. rewrite (proj2 (bytes_eqb_spec (se_key e) key)) by done. destruct (bytes_eqb (se_key x.2.2) key) eqn:Eb; [| done].
      exfalso. keys. rewrite Ek, Eb in El. by apply irreflexivity in El; [| apply _].
  - rewrite (proj2 (bytes_eqb_spec (se_key e) key)) by done. done.
Qed.

(** A block read into the buffer, and its entries' end. *)
Lemma visit_block s p es : length (rs_block s) = BLOCK -> blks !! p = Some es ->
  exists blk, holds_body blk es /\ rbuf blk (Some (blk_id p)) /\
    forall A (f : nat -> cstm RevScan E A) s' r, sruns (f (rstart_of es)) (rev_with_block s blk (Some (blk_id p))) s' r ->
      sruns (let# _ := read_verify_rev db (t_id t) (blk_id p) in let# e := loaded_end (blk_id p) in f e) s s' r.
Proof.
  intros Hl Hp. destruct (rload_step s p es Hl Hp) as (blk & Hld & Hh & Hb). exists blk. split_and!; [done | done |].
  intros A f s' r Hf. eapply sruns_seq; [exact Hld |]. eapply sruns_seq; [| exact Hf]. by eapply (loaded_end_step (rev_with_block s blk _)).
Qed.

Lemma searched_step {A} (o : option (result A (Error E))) a s : o = Some (Ok a) -> sruns (searched o) s s (Ok a).
Proof. intros ->. apply sruns_ret. Qed.

(** A block whose first key is not the key ends the run. *)
Lemma run_ends mx key n es e0 l best : blks !! n = Some es -> es = e0 :: l -> (forall e, e ∈ es -> bytes_le (se_key e) key) ->
  se_key e0 <> key -> run_top mx key n best = best.
Proof.
  intros Hes Ees Hle Hne. unfold run_top. destruct (top_at mx (Some (key, true)) n) as [x |] eqn:Ex; [| done].
  destruct (bytes_eqb (se_key x.2.2) key) eqn:Exk; [| done].
  exfalso. destruct (top_at_in _ _ _ _ Ex) as (Hin & _). destruct (earlier_before n es _ e0 Hes Hin) as [Hl0 _]; [rewrite Ees; left |].
  keys. apply Hne, bytes_le_antisym; [apply Hle; rewrite Ees; left | by rewrite <- Exk].
Qed.

Lemma resolve_step mx key : forall n s best, (n <= length blks)%nat -> length (rs_block s) = BLOCK -> (n = 0%nat -> rbuffered s) ->
  (forall e, e ∈ concat (take n blks) -> bytes_le (se_key e) key) ->
  exists blk id, sruns (resolve_loop KEY_MAX db n (t_id t) (first_block t) key mx best) s (rev_with_block s blk id) (Ok (run_top mx key n best)) /\
    rbuf blk id.
Proof.
  induction n as [|n IH]; intros s best Hn Hl Hbuf Hle; cbn [resolve_loop].
  { exists (rs_block s), (rs_block_id s). rewrite rev_with_block_id. split; [| by apply Hbuf]. apply sruns_ret. }
  destruct (lookup_lt_is_Some_2 blks n) as [es Hes]; [lia |].
  pose proof (to_base _ _ _ _ _ _ _ _ Hon) as H0. pose proof (to_end _ _ _ _ _ _ _ _ Hon) as Hend. rewrite u64_add_ok by (unfold U64_MAX in *; lia).
  destruct (visit_block s n es Hl Hes) as (blk & Hh & Hb & Hvis). set (s1 := rev_with_block s blk _) in *.
  assert (forall e, e ∈ concat (take n blks) \/ e ∈ es -> bytes_le (se_key e) key) as Hles.
  { intros e He. apply Hle. rewrite (take_S_r _ _ _ Hes), concat_app, elem_of_app. cbn. by rewrite app_nil_r. }
  destruct (to_data _ _ _ _ _ _ _ _ Hon n es Hes) as (Hw & _).
  pose proof (search_block n es blk mx (Some (key, true)) (blk_id n) Hes Hh) as Hsearch.
  destruct (first_key_step n es blk (blk_id n) Hes Hh) as (e0 & l & Ees & Hfk).
  assert (forall e, e ∈ es -> bytes_le (se_key e) key) as Hes_le by auto.
  destruct (top_of pkey (List.filter (pqual mx (Some (key, true))) (placed 0 es))) as [[o e] |] eqn:Et; cbn [fmap option_fmap option_map] in Hsearch.
  2: { exists blk, (Some (blk_id n)). split; [| done]. rewrite (run_stops mx key n es best Hes (bw_nonempty _ Hw) Hes_le) by (by rewrite Et).
       apply Hvis, sruns_get_seq. eapply sruns_seq; [by apply searched_step, Hsearch | apply sruns_ret]. }
  destruct (block_top _ _ _ _ _ Et) as (He & _). pose proof (found_bytes KEY_MAX (o, e) (entry_fits n es e Hes He)) as Hfb. cbn [snd] in Hfb.
  destruct (bytes_eqb (se_key e) key) eqn:Ek.
  2: { exists blk, (Some (blk_id n)). split; [| done]. rewrite (run_stops mx key n es best Hes (bw_nonempty _ Hw) Hes_le).
       - apply Hvis, sruns_get_seq. eapply sruns_seq; [by apply searched_step, Hsearch |]. cbn beta iota. rewrite Hfb, Ek. apply sruns_ret.
       - rewrite Et. intros ? ? [= <- <-] Eq. by rewrite (proj2 (bytes_eqb_spec _ _)) in Ek. }
  pose proof (proj1 (bytes_eqb_spec _ _) Ek) as Ek'. rewrite (run_goes mx key n es o e best Hes Et Ek').
  unfold at_head. cbn [fst snd]. rewrite (nth_block n es Hes). destruct (bytes_eqb (se_key e) (se_key e0)) eqn:Ef.
  - destruct (IH s1 (Some (mkRevHeadAt (found (o, e)) (blk_id n) (rstart_of es) (Z.of_nat n)))) as (blk' & id' & Hrun & Hb'); auto; [lia | apply Hb |].
    exists blk', id'. split; [| done]. apply Hvis, sruns_get_seq. eapply sruns_seq; [by apply searched_step, Hsearch |]. cbn beta iota zeta. rewrite Hfb, Ek.
    eapply sruns_seq; [apply searched_step; change (rs_block s1) with blk; by rewrite Hfk |]. rewrite Ef. exact Hrun.
  - exists blk, (Some (blk_id n)). split; [| done]. rewrite (run_ends mx key n es e0 l _ Hes Ees Hes_le).
    + apply Hvis, sruns_get_seq. eapply sruns_seq; [by apply searched_step, Hsearch |]. cbn beta iota zeta. rewrite Hfb, Ek.
      eapply sruns_seq; [apply searched_step; change (rs_block s1) with blk; by rewrite Hfk |]. rewrite Ef. apply sruns_ret.
    + intros E0. rewrite Ek', E0, (proj2 (bytes_eqb_spec key key)) in Ef by done. done.
Qed.

(** ** Cursors *)

(** The cursor is in block [p]. *)
Record rplaced (c : RevCursor) (p : nat) (es : list SstEntry) : Prop := {
  rp_id : rc_table_id c = t_id t;
  rp_node : rc_node_id c = node_id t;
  rp_wall : rc_seal_wall c = seal_wall t;
  rp_first : rc_first_block c = first_block t;
  rp_block : blks !! p = Some es;
  rp_idx : rc_block_idx c = Z.of_nat p;
  rp_bid : rc_block_id c = blk_id p;
  rp_end : rc_end c = rstart_of es;
  rp_live : rc_live c = true;
}.

(** Its head is [e], at [off]. *)
Record rheaded (c : RevCursor) (off : nat) (e : SstEntry) : Prop := {
  rk_off : rc_off c = off;
  rk_bytes : rc_head_key c = se_key e;
  rk_len : rc_key_len c = length (se_key e);
  rk_sq : rc_seq c = se_seq e;
  rk_tomb : rc_tombstone c = se_tombstone e;
  rk_vlen : rc_val_len c = length (se_stored e);
  rk_exp : rc_expire_at c = if se_ttl e then se_expire_at e else 0%Z;
}.

(** The cursor stands on a located entry, or is exhausted. *)
Definition rstood (c : RevCursor) (o : option (nat * (nat * SstEntry))) : Prop :=
  match o with
  | None => rc_live c = false
  | Some x => exists es, rplaced c x.1 es /\ x.2 ∈ placed 0 es /\ rheaded c x.2.1 x.2.2
  end.

(** Entries below the table's first key are dead. *)
Definition floored (o : option (nat * (nat * SstEntry))) : option (nat * (nat * SstEntry)) :=
  match o with
  | Some x => if bytes_ltb (lkey x) (as_slice (Manifest.first_key t)) then None else Some x
  | None => None
  end.

Lemma top_at_bound mx b p es e : blks !! p = Some es -> e ∈ es -> bound_ok b (se_key e) = true ->
  top_at mx b p = top_at mx (Some (se_key e, true)) p.
Proof.
  intros Hp He Hb. unfold top_at. f_equal. apply filter_ext_in. intros x Hx%list_elem_of_In. unfold qual. f_equal.
  assert (x.2.2 ∈ concat (take p blks)) as Hin by (rewrite <- (located_entries 0); apply list_elem_of_fmap; eauto).
  destruct (earlier_before p es _ e Hp Hin He) as [Hle _]. rewrite (bound_ok_down _ _ _ Hb Hle). symmetry.
  eapply bound_ok_down; [| exact Hle]. cbn. by rewrite (proj2 (bytes_eqb_spec _ _)), orb_true_r.
Qed.

(** The entry a cursor parks on, from the candidate of its block. *)
Lemma head_top mx b p es o e e0 l : blks !! p = Some es -> es = e0 :: l ->
  top_of pkey (List.filter (pqual mx b) (placed 0 es)) = Some (o, e) ->
  exists y, top_at mx b (S p) = Some y /\ se_key y.2.2 = se_key e /\
    (if (0 <? Z.of_nat p)%Z && bytes_eqb (se_key e) (se_key e0) then default (at_head (p, (o, e))) (run_top mx (se_key e) p None)
     else at_head (p, (o, e))) = at_head y.
Proof.
  intros Hp Ees Et. destruct (block_top _ _ _ _ _ Et) as (He & _ & _ & Hb).
  rewrite (top_at_S _ _ _ _ Hp), Et, (top_at_bound mx b p es e Hp He Hb). cbn [fmap option_fmap option_map]. set (hit := (p, (o, e))).
  destruct ((0 <? Z.of_nat p)%Z && bytes_eqb (se_key e) (se_key e0)) eqn:Ec.
  - unfold run_top. destruct (top_at mx (Some (se_key e, true)) p) as [x |] eqn:Ex; cbn [top_merge default from_option id]; [| by exists hit].
    destruct (top_at_in _ _ _ _ Ex) as (Hin & _). destruct (earlier_before p es _ e Hp Hin He) as [Hle _].
    change (se_key hit.2.2) with (se_key e). destruct (bytes_eqb (se_key x.2.2) (se_key e)) eqn:Exk.
    + keys. exists x. rewrite Exk, (proj2 (bytes_leb_spec _ _)) by apply bytes_le_refl. done.
    + exists hit. destruct (bytes_leb (se_key e) (se_key x.2.2)) eqn:El; [| done]. keys.
      rewrite (proj2 (bytes_eqb_spec _ _)) in Exk; [done |]. by apply bytes_le_antisym.
  - exists hit. split; [| done]. apply top_merge_later with hit; [done |]. intros x Ex. change (se_key hit.2.2) with (se_key e).
    destruct (top_at_in _ _ _ _ Ex) as (Hin & _). destruct (earlier_before p es _ e0 Hp Hin) as [Hle _]; [rewrite Ees; left |].
    eapply bytes_le_lt_trans; [exact Hle |]. pose proof (block_ordered p es Hp) as Hko. rewrite Ees in Hko, He.
    apply StronglySorted_inv in Hko as [_ Hf]. rewrite Forall_forall in Hf.
    assert (se_key e0 <> se_key e) as Hne.
    { intros Eq. destruct p as [|p]; [by rewrite take_0 in Hin; apply not_elem_of_nil in Hin |].
      rewrite (proj2 (bytes_eqb_spec _ _)), andb_true_r in Ec by done. bool_lia. }
    apply elem_of_cons in He as [-> | He]; [done |]. specialize (Hf e He). by apply bytes_le_lteq in Hf as [? | ?].
Qed.

Lemma parked_stood c p es y mx b : rplaced c p es -> top_at mx b (S p) = Some y -> rstood (rev_parked (at_head y) c) (Some y).
Proof.
  intros [] Hy. destruct (top_at_in _ _ _ _ Hy) as (_ & _ & es' & _ & Hl & Hpl). exists es'. split_and!; [| done |].
  - split; try done. cbn. by rewrite (nth_block _ _ Hl).
  - split; try done. apply (found_bytes KEY_MAX). eapply entry_fits; [exact Hl |]. destruct (y.2). by eapply placed_elem.
Qed.

Lemma park_on_step i mx b s c p es o e : rplaced c p es -> rev_cursor_at KEY_MAX s i = c -> rbuffered s -> holds_body (rs_block s) es ->
  top_of pkey (List.filter (pqual mx b) (placed 0 es)) = Some (o, e) ->
  exists c' blk id, sruns (park_on KEY_MAX db i c (found (o, e)) mx) s (rput i c' (rev_with_block s blk id)) (Ok tt) /\
    rbuf blk id /\ rc_table_id c' = t_id t /\ rstood c' (floored (top_at mx b (S p))).
Proof.
  intros Hpl Hc Hbuf Hh Et. destruct Hpl as [Hid Hnode Hwall Hfirst Hp Hidx Hbid Hend Hlive]. pose proof Hp as Hp0.
  assert (rplaced c p es) as Hpl by done.
  destruct (block_top _ _ _ _ _ Et) as (He & _). pose proof (found_bytes KEY_MAX (o, e) (entry_fits p es e Hp He)) as Hfb. cbn [snd] in Hfb.
  destruct (first_key_step p es (rs_block s) (blk_id p) Hp Hh) as (e0 & l & Ees & Hfk).
  destruct (head_top mx b p es o e e0 l Hp Ees Et) as (y & Hy & Hyk & Hpick).
  unfold park_on. rewrite Hid, Hfind, Hfb, Hbid, Hend, Hfirst, Hidx, Hy. cbn [floored]. rewrite Hyk.
  destruct (bytes_ltb (se_key e) (as_slice (Manifest.first_key t))).
  { exists (rev_exhausted c), (rs_block s), (rs_block_id s). rewrite rev_with_block_id. split_and!; [| done | done | done].
    pose proof (sruns_set_cursor i rev_exhausted s) as Hm. rewrite Hc in Hm. exact Hm. }
  set (here := mkRevHeadAt _ _ _ _). assert (here = at_head (p, (o, e))) as Ehere by (unfold here, at_head; cbn [fst snd]; by rewrite (nth_block p es)).
  assert (exists blk id a, sruns (if (0 <? Z.of_nat p)%Z && bytes_eqb (se_key e) (se_key e0)
      then let# r := resolve_run KEY_MAX db (t_id t) (first_block t) (Z.of_nat p) (se_key e) mx in sret (default here r)
      else sret here) s (rev_with_block s blk id) (Ok a) /\ rbuf blk id /\ a = at_head y) as (blk & id & a & Hrun & Hb & ->).
  { rewrite <- Ehere in Hpick. destruct ((0 <? Z.of_nat p)%Z && bytes_eqb (se_key e) (se_key e0)).
    - destruct (resolve_step mx (se_key e) p s None) as (blk & id & Hrun & Hb); [by apply lookup_lt_Some in Hp; lia | apply Hbuf | done | |].
      { intros x Hx. by apply (earlier_before p es x e Hp Hx He). }
      exists blk, id. eexists. split_and!; [| done | exact Hpick]. eapply sruns_seq; [| apply sruns_ret].
      unfold resolve_run. rewrite Nat2Z.id. exact Hrun.
    - exists (rs_block s), (rs_block_id s), here. rewrite rev_with_block_id. split_and!; [apply sruns_ret | done | done]. }
  exists (rev_parked (at_head y) c), blk, id. split_and!; [| done | done | by eapply parked_stood].
  apply sruns_get_seq. eapply sruns_seq; [apply searched_step; by rewrite Hfk |]. eapply sruns_seq; [exact Hrun |].
  pose proof (sruns_set_cursor i (rev_parked (at_head y)) (rev_with_block s blk id)) as Hm.
  change (rev_cursor_at KEY_MAX (rev_with_block s blk id) i) with (rev_cursor_at KEY_MAX s i) in Hm. rewrite Hc in Hm. exact Hm.
Qed.

(** Parking: the top of the cursor's block and the ones before it. *)
Lemma park_rev_step i mx b : forall fuel s c p es, rplaced c p es -> rev_cursor_at KEY_MAX s i = c -> (i < length (rs_cursors s))%nat ->
  rbuffered s -> (p < fuel)%nat ->
  exists c' blk id, sruns (park_loop_rev KEY_MAX db fuel i b mx) s (rput i c' (rev_with_block s blk id)) (Ok tt) /\
    rbuf blk id /\ rc_table_id c' = t_id t /\ rstood c' (floored (top_at mx b (S p))).
Proof.
  induction fuel as [|fuel IH]; intros s c p es Hpl Hc Hi Hbuf Hf; [lia |]. cbn [park_loop_rev].
  pose proof Hpl as [Hid Hnode Hwall Hfirst Hp Hidx Hbid Hend Hlive].
  destruct (rensure_step s p es Hbuf Hp) as (blk & Hen & Hh & Hb). set (s1 := rev_with_block s blk (Some (blk_id p))) in *.
  pose proof (search_block p es blk mx b (blk_id p) Hp Hh) as Hsearch.
  assert (forall c' blk' id', rput i c' (rev_with_block s1 blk' id') = rput i c' (rev_with_block s blk' id')) as Hs1 by done.
  assert (forall A (f : option RevHead -> cstm RevScan E A) s' r, sruns (f (found <$> top_of pkey (List.filter (pqual mx b) (placed 0 es)))) s1 s' r ->
    sruns (let# _ := ensure_block_rev db (t_id t) (blk_id p) in let# s := sget in
           let# hit := searched (search_block_rev KEY_MAX (rs_block s) (blk_id p) (rstart_of es) b mx) in f hit) s s' r) as Hgo.
  { intros A f s' r Hr. eapply sruns_seq; [exact Hen |]. apply sruns_get_seq. eapply sruns_seq; [by apply searched_step, Hsearch | exact Hr]. }
  destruct (top_of pkey (List.filter (pqual mx b) (placed 0 es))) as [[o e] |] eqn:Et; cbn [fmap option_fmap option_map] in Hgo.
  { destruct (park_on_step i mx b s1 c p es o e Hpl Hc Hb Hh Et) as (c' & blk' & id' & Hrun & Hb' & Hid' & Hst).
    exists c', blk', id'. split_and!; [| done | done | done]. apply sruns_get_seq. rewrite Hc, Hlive, Hid, Hbid, Hend. cbn [negb].
    apply Hgo. exact Hrun. }
  rewrite (top_at_S _ _ _ _ Hp), Et. cbn [fmap option_fmap option_map]. destruct p as [|p].
  { exists (rev_exhausted c), blk, (Some (blk_id 0)). split_and!; [| done | done | done]. apply sruns_get_seq.
    rewrite Hc, Hlive, Hid, Hbid, Hend, Hidx. cbn [negb]. apply Hgo. pose proof (sruns_set_cursor i rev_exhausted s1) as Hm.
    change (rev_cursor_at KEY_MAX s1 i) with (rev_cursor_at KEY_MAX s i) in Hm. rewrite Hc in Hm. exact Hm. }
  destruct (lookup_lt_is_Some_2 blks p) as [es' Hp']; [apply lookup_lt_Some in Hp; lia |]. pose proof (lookup_lt_Some _ _ _ Hp') as Hlt.
  destruct (visit_block s1 p es' (proj1 Hb) Hp') as (blk2 & Hh2 & Hb2 & Hvis). set (s2 := rev_with_block s1 blk2 _) in *.
  set (c2 := rev_at_block (blk_id p) (Z.of_nat p) (rstart_of es') c).
  assert (rplaced c2 p es') as Hpl2 by (by split).
  destruct (IH (rput i c2 s2) c2 p es' Hpl2) as (c' & blk' & id' & Hrun & Hb' & Hid' & Hst); [by apply rput_at | cbn; by rewrite length_insert | done | lia |].
  exists c', blk', id'. split_and!; [| done | done |].
  2: { unfold top_merge. by destruct (top_at mx b (S p)). }
  rewrite rput_twice in Hrun. apply sruns_get_seq. rewrite Hc, Hlive, Hid, Hbid, Hend, Hidx, Hfirst. cbn [negb]. apply Hgo.
  rewrite (proj2 (Z.eqb_neq _ _)) by lia. pose proof (to_base _ _ _ _ _ _ _ _ Hon). pose proof (to_end _ _ _ _ _ _ _ _ Hon).
  replace (Z.of_nat (S p) - 1)%Z with (Z.of_nat p) by lia. rewrite u64_add_ok by (unfold U64_MAX in *; lia).
  apply Hvis. eapply sruns_seq; [apply sruns_set_cursor |]. change (rev_cursor_at KEY_MAX s2 i) with (rev_cursor_at KEY_MAX s i). rewrite Hc. exact Hrun.
Qed.

(** The entries of a table a reverse scan still has below a bound. *)
Definition below_bound (mx : u64) (b : RevBound) : list SstEntry :=
  List.filter (fun e => qual mx b e && bytes_leb (as_slice (Manifest.first_key t)) (se_key e)) (concat blks).

(** With nothing of the bound past block [p], the cursor stands on the top of them. *)
Lemma floored_top mx b p : (forall e, e ∈ concat (drop p blks) -> bound_ok b (se_key e) = false) ->
  (fun x => x.2.2) <$> floored (top_at mx b p) = top_of se_key (below_bound mx b).
Proof.
  intros Hno. unfold below_bound. rewrite <- (located_entries 0 blks), filter_map_swap, top_map. f_equal.
  transitivity (floored (top_of lkey (List.filter (lqual mx b) (located 0 blks)))).
  - f_equal. unfold top_at. f_equal. rewrite <- (take_drop p blks) at 2. rewrite located_app, List.filter_app.
    rewrite (nothing_passes _ (located _ (drop p blks))); [by rewrite app_nil_r |]. intros x Hx. unfold qual. apply andb_false_iff. right.
    apply Hno. rewrite <- (located_entries (0 + length (take p blks))). apply list_elem_of_fmap. eauto.
  - unfold floored. rewrite <- (top_floor lkey). f_equal. induction (located 0 blks) as [|x l IHl]; [done |]. cbn [List.filter].
    destruct (qual mx b x.2.2); cbn [andb List.filter]; [| done]. destruct (bytes_leb _ _); by rewrite IHl.
Qed.

(** ** Adding a cursor *)

  Context (Hbloom : (BLOOM_BYTES + CRC_LEN <= BLOCK)%nat).
  Context (Hcount : block_count t = Z.of_nat (length blks + length rbs + 3)).
  Context (Hrdel : Manifest.rdel_blocks t = Z.of_nat (length rbs)).
  Context (Hend : (end_block t <= U64_MAX)%Z).

  Abbreviation index_id := (first_block t + Z.of_nat (length blks + length rbs) + 1)%Z.
  Abbreviation footer_id := (first_block t + Z.of_nat (length blks + length rbs) + 2)%Z.
  Context (HIndex : ~ Data index_id).

(** The last block that starts at or before the key, if any; the blocks after it are past it. *)
Lemma index_last from :
  exists n, (n <= length blks)%nat /\
    index_last_le_block (E := E) (index_body (index_entries (first_block t) blks) (body_end - length (index_of (index_entries (first_block t) blks)))) from index_id =
      Ok (if (n =? 0)%nat then None else Some (blk_id (n - 1))) /\
    forall e, e ∈ concat (drop n blks) -> bytes_lt from (se_key e).
Proof.
  destruct (index_last_le_result (E := E) (index_entries (first_block t) blks) (body_end - length (index_of (index_entries (first_block t) blks)))
    index_id (to_index_wf _ _ _ _ _ _ _ _ Hon) (index_keys_sorted BLOOM_BYTES HB Hbloom dev (first_block t) blks rbs k ec ms Hon (version_key_ordered _ Hvo)) from)
    as (n & (Hn & _ & Hhi) & Hf). rewrite length_index_entries in Hn. exists n. split_and!; [done | |].
  - rewrite Hf. destruct (Nat.eqb_spec n 0) as [| Hne]; [done |]. unfold index_entries. rewrite list_lookup_imap.
    destruct (lookup_lt_is_Some_2 blks (n - 1)) as [es ->]; [lia | done].
  - intros e (es & Hes & He)%list_elem_of_In%in_concat. apply list_elem_of_In, list_elem_of_lookup in Hes as [j Hj]. rewrite lookup_drop in Hj.
    apply list_elem_of_In in He. assert (index_entries (first_block t) blks !! (n + j)%nat = Some (mkIdx (first_key_of es) (blk_id (n + j)) (max_seq_of es))) as Hi
      by (unfold index_entries; by rewrite list_lookup_imap, Hj).
    pose proof (Hhi _ _ Hi ltac:(lia)) as Hlt. cbn [ix_key] in Hlt. eapply bytes_lt_le_trans; [exact Hlt |].
    pose proof (block_ordered _ _ Hj) as Hko. destruct es as [|e0 l]; [by apply not_elem_of_nil in He |]. cbn [first_key_of].
    apply StronglySorted_inv in Hko as [_ Hfa]. rewrite Forall_forall in Hfa.
    apply elem_of_cons in He as [-> | He]; [apply bytes_le_refl | by apply Hfa].
Qed.

(** The scan with cursor [c] new at level [li]. *)
Definition add_to_rev (li : nat) (c : RevCursor) (s : RevScan) : RevScan :=
  rev_with_cursors s (<[rev_pool_idx s li (nth li (rs_cursor_counts s) 0%nat) := c]> (rs_cursors s))
    (<[li := (nth li (rs_cursor_counts s) 0 + 1)%nat]> (rs_cursor_counts s)) (rs_level_base s).

Lemma add_to_rev_twice li c c' s blk id i :
  i = rev_pool_idx s li (nth li (rs_cursor_counts s) 0%nat) ->
  rput i c' (rev_with_block (add_to_rev li c s) blk id) = add_to_rev li c' (rev_with_block s blk id).
Proof. intros ->. unfold rput, add_to_rev, rev_with_block, rev_with_cursors, rev_pool_idx. cbn. by rewrite list_insert_insert_eq. Qed.

(** The bound a seek parks at. *)
Definition seek_bound (from : bytes) : RevBound := match from with [] => None | _ => Some (from, true) end.

(** The cursor stands on the top of what its table has below the bound. *)
Definition rtop (c : RevCursor) (mx : u64) (b : RevBound) : Prop :=
  exists o, rstood c o /\ (fun x => x.2.2) <$> o = top_of se_key (below_bound mx b).

Lemma place_rev_step s li from p es :
  (rev_pool_idx s li (nth li (rs_cursor_counts s) 0%nat) < length (rs_cursors s))%nat -> (length from <= KEY_MAX)%nat -> (from <> [] -> ceil_bound s = from) ->
  rbuffered s -> holds_body (rs_block s) es -> blks !! p = Some es -> (forall e, e ∈ concat (drop (S p) blks) -> bound_ok (seek_bound from) (se_key e) = false) ->
  exists c blk id, sruns (place_cursor_rev KEY_MAX db t li from (first_block t) (Z.of_nat p) (blk_id p)) s (add_to_rev li c (rev_with_block s blk id)) (Ok tt) /\
    rbuf blk id /\ rc_table_id c = t_id t /\ rtop c (rs_max_seq s) (seek_bound from).
Proof.
  intros Hi Hfl Hceil Hbuf Hh Hp Hno. set (i := rev_pool_idx s li _) in *.
  set (c0 := rev_fresh_cursor KEY_MAX t (first_block t) (Z.of_nat p) (blk_id p) (rstart_of es)).
  assert (rplaced c0 p es) as Hpl by (by split).
  assert (rev_cursor_at KEY_MAX (add_to_rev li c0 s) i = c0) as Hc
    by (unfold rev_cursor_at, add_to_rev; cbn; rewrite nth_lookup, list_lookup_insert_eq; done).
  destruct (park_rev_step i (rs_max_seq s) (seek_bound from) (S p) (add_to_rev li c0 s) c0 p es Hpl Hc) as (c & blk & id & Hrun & Hb & Hid & Hst);
    [cbn; by rewrite length_insert | done | lia |].
  exists c, blk, id. split_and!; [| done | done | by eexists; split; [exact Hst | apply floored_top]].
  unfold place_cursor_rev. eapply sruns_seq; [by eapply loaded_end_step |]. apply sruns_get_seq. fold i. rewrite (proj2 (Nat.leb_gt _ _)) by lia.
  apply sruns_mod_seq. fold c0. change (rev_with_cursors s _ _ _) with (add_to_rev li c0 s).
  match goal with |- context [park_cursor_rev _ _ _ _ ?m] => assert (m = seek_bound from) as -> end.
  { destruct from as [|x from]; [done |]. cbn. by rewrite Hceil. }
  unfold park_cursor_rev. assert (match seek_bound from with Some (k0, _) => (KEY_MAX <? length k0)%nat | None => false end = false) as ->.
  { destruct from as [|x from]; [done |]. by apply Nat.ltb_ge. }
  apply sruns_get_seq. change (rev_pool_idx (add_to_rev li c0 s) li _) with i. rewrite Hc, <- (add_to_rev_twice li c0 c s blk id i) by done.
  cbn [c0 rev_fresh_cursor rc_block_idx]. rewrite Nat2Z.id. exact Hrun.
Qed.

Lemma read_footer_rev s :
  exists blk, sruns (read_footer_index_rev db (t_id t) footer_id) s (rev_with_block s blk (rs_block_id s)) (Ok index_id).
Proof.
  destruct (footer_read HB BLOOM_BYTES db L t blks rbs k ec ms Hon HL Hbloom Hcount) as (blk & Hy & Hl & Hc & Hm & Hi).
  exists blk. unfold read_footer_index_rev. eapply sruns_seq; [apply sruns_lift, Hy |]. apply sruns_mod_seq.
  eapply sruns_seq; [apply sruns_lift; rewrite Hc; apply yields_pure |]. rewrite Hm, Z.eqb_refl, Hi. apply sruns_ret.
Qed.

Lemma read_index_rev s :
  exists blk, sruns (read_verify_index_rev db (t_id t) index_id) s (rev_with_block s blk (Some index_id)) (Ok tt) /\ length blk = BLOCK /\
    take (BLOCK - CRC_LEN) blk = index_body (index_entries (first_block t) blks) (body_end - length (index_of (index_entries (first_block t) blks))).
Proof.
  destruct (index_read HB BLOOM_BYTES db L t blks rbs k ec ms Hon HL Hbloom Hcount) as (blk & Hy & Hl & Hc & Ht). exists blk. split_and!; [| done | done].
  unfold read_verify_index_rev. eapply sruns_seq; [apply sruns_lift, Hy |]. apply sruns_mod_seq.
  eapply sruns_seq; [apply sruns_lift; rewrite Hc; apply yields_pure |]. exact (sruns_mod (S := RevScan) (E := E) dev L _ _).
Qed.

(** The block a seek starts at: the last one, or the last that starts at or before [from]. *)
Lemma seek_block s from blk : blks <> [] ->
  take (BLOCK - CRC_LEN) blk = index_body (index_entries (first_block t) blks) (body_end - length (index_of (index_entries (first_block t) blks))) ->
  exists o, sruns (match from with
      | [] => sret (Some (Z.of_nat (length blks) - 1)%Z)
      | _ =>
          let# found := slift (pure (index_last_le_block (E := E) (take (BLOCK - CRC_LEN) blk) from index_id)) in
          match found with
          | Some id => match u64_checked_sub id (first_block t) with Some i => sret (Some i) | None => sfail (CorruptBlock id) end
          | None => sret None
          end
      end) s s (Ok o) /\
    match o with
    | None => below_bound (rs_max_seq s) (seek_bound from) = []
    | Some i => exists p, i = Z.of_nat p /\ (p < length blks)%nat /\
        forall e, e ∈ concat (drop (S p) blks) -> bound_ok (seek_bound from) (se_key e) = false
    end.
Proof.
  intros Hne Ht. assert (0 < length blks)%nat as Hpos by (destruct blks; [done | cbn; lia]).
  destruct from as [|x from].
  { eexists. split; [apply sruns_ret |]. exists (length blks - 1)%nat. split_and!; [lia | lia |]. intros e.
    rewrite drop_ge by lia. by intros ?%not_elem_of_nil. }
  destruct (index_last (x :: from)) as (n & Hn & Hf & Hpast). pose proof (to_base _ _ _ _ _ _ _ _ Hon) as H0.
  assert (forall e, e ∈ concat (drop n blks) -> bound_ok (seek_bound (x :: from)) (se_key e) = false) as Hno.
  { intros e He. specialize (Hpast e He). cbn [seek_bound bound_ok]. apply orb_false_iff. split.
    - apply bytes_ltb_ge. by apply bytes_lt_le.
    - apply andb_false_iff. right. destruct (bytes_eqb _ _) eqn:Eq; [| done]. keys. rewrite Eq in Hpast. by apply irreflexivity in Hpast; [| apply _]. }
  exists (if (n =? 0)%nat then None else Some (Z.of_nat (n - 1))). split.
  - eapply sruns_seq; [apply sruns_lift; rewrite Ht, Hf; apply yields_pure |]. destruct (Nat.eqb_spec n 0) as [| Hn0]; [apply sruns_ret |].
    rewrite u64_sub_ok by lia. replace (blk_id (n - 1) - first_block t)%Z with (Z.of_nat (n - 1)) by lia. apply sruns_ret.
  - destruct (Nat.eqb_spec n 0) as [-> | Hn0].
    + unfold below_bound. apply nothing_passes. intros e He. unfold qual. rewrite (Hno e), andb_false_r by (by rewrite drop_0). done.
    + exists (n - 1)%nat. split_and!; [done | lia |]. by replace (S (n - 1)) with n by lia.
Qed.

Lemma add_rev_step s li from : blks <> [] ->
  (rev_pool_idx s li (nth li (rs_cursor_counts s) 0%nat) < length (rs_cursors s))%nat -> (length from <= KEY_MAX)%nat -> (from <> [] -> ceil_bound s = from) ->
  exists blk id, rbuf blk id /\
    (below_bound (rs_max_seq s) (seek_bound from) = [] /\
       sruns (add_cursor_rev KEY_MAX db t li from) s (rev_with_block s blk id) (Ok tt) \/
     exists c, sruns (add_cursor_rev KEY_MAX db t li from) s (add_to_rev li c (rev_with_block s blk id)) (Ok tt) /\
       rc_table_id c = t_id t /\ rtop c (rs_max_seq s) (seek_bound from)).
Proof.
  intros Hne Hi Hfl Hceil. destruct (table_parts BLOOM_BYTES db t blks rbs k ec ms Hon Hcount Hrdel Hend) as [Hdb Hfb].
  destruct (read_footer_rev s) as (b1 & Hr1). set (s1 := rev_with_block (rev_with_block s b1 (rs_block_id s)) b1 (Some footer_id)).
  destruct (read_index_rev s1) as (b2 & Hr2 & Hl2 & Ht2). set (s2 := rev_with_block s1 b2 (Some index_id)) in *.
  destruct (seek_block s2 from b2 Hne Ht2) as (o & Hr3 & Ho).
  assert (forall A (f : option u64 -> cstm RevScan E A) s' r, sruns (f o) s2 s' r ->
    sruns (let# index := read_footer_index_rev db (t_id t) footer_id in
           let# _ := smod (fun s => rev_with_block s (rs_block s) (Some footer_id)) in
           let# _ := read_verify_index_rev db (t_id t) index in
           let# s := sget in
           let# block_idx := match from with
              | [] => sret (Some (Z.of_nat (length blks) - 1)%Z)
              | _ =>
                  let# found := slift (pure (index_last_le_block (E := E) (take (BLOCK - CRC_LEN) (rs_block s)) from index)) in
                  match found with
                  | Some id => match u64_checked_sub id (first_block t) with Some i => sret (Some i) | None => sfail (CorruptBlock id) end
                  | None => sret None
                  end
              end in f block_idx) s s' r) as Hgo.
  { intros A f s' r Hf. eapply sruns_seq; [exact Hr1 |]. apply sruns_mod_seq. eapply sruns_seq; [exact Hr2 |]. apply sruns_get_seq.
    eapply sruns_seq; [exact Hr3 | exact Hf]. }
  unfold add_cursor_rev, data_first. rewrite Hdb, Hfb. rewrite (proj2 (Z.eqb_neq _ _)) by (destruct blks; [done | cbn; lia]).
  destruct o as [i |].
  2: { exists b2, (Some index_id). split; [split; [done |]; by intros ? [= <-] ?%HIndex |]. left. split; [exact Ho |]. apply Hgo, sruns_ret. }
  destruct Ho as (p & -> & Hp & Hno). destruct (lookup_lt_is_Some_2 blks p Hp) as [es Hes].
  destruct (rload_step s2 p es Hl2 Hes) as (b3 & Hr4 & Hh3 & Hb3). set (s3 := rev_with_block s2 b3 _) in *.
  destruct (place_rev_step s3 li from p es Hi Hfl Hceil Hb3 Hh3 Hes Hno) as (c & blk & id & Hr5 & Hb & Hid & Htop).
  pose proof (to_base _ _ _ _ _ _ _ _ Hon). pose proof (to_end _ _ _ _ _ _ _ _ Hon).
  exists blk, id. split; [done |]. right. exists c. split_and!; [| done | done]. apply Hgo.
  rewrite (proj2 (Z.leb_gt _ _)), u64_add_ok by (unfold U64_MAX in *; lia). eapply sruns_seq; [exact Hr4 | exact Hr5].
Qed.

Lemma add_rev_none s li from : blks = [] -> sruns (add_cursor_rev KEY_MAX db t li from) s s (Ok tt).
Proof.
  intros E0. destruct (table_parts BLOOM_BYTES db t blks rbs k ec ms Hon Hcount Hrdel Hend) as [Hdb _].
  unfold add_cursor_rev. rewrite Hdb, E0. apply sruns_ret.
Qed.
End table.
End parking.
