(* ===== verification/ScanRevMerge.v ===== *)
(** * The merge of a reverse scan: [src/scan.rs]

    What a reverse scan still has below it, source by source, and what one [prev] makes of
    it. *)

From stdpp Require Import base numbers list sets sorting.
From Stdlib Require Import ZArith Lia Sorting.Sorted.
From S2P Require Import Prelude Device Compress Version Slots Cache Memtable Wal Manifest ManifestPool SstPlan SstWriter SstReader SstBlock SstImage SstIndex SstRdel SstTable SstBuild Db DbRead Scan ScanPark ScanMerge ScanRev ScanRevBlock ScanRevPark.

(** A top of one key is the first. *)
Lemma top_same {A} (key : A -> bytes) a l : Forall (fun x => key x = key a) l -> top_of key (a :: l) = Some a.
Proof.
  intros Hf. rewrite top_cons. destruct (top_of key l) as [y |] eqn:Ey; [| done]. apply top_in in Ey. rewrite Forall_forall in Hf.
  cbn. rewrite (Hf y Ey). by rewrite (proj2 (bytes_leb_spec _ _)) by apply bytes_le_refl.
Qed.

(** The entries of a table below its head. *)
Abbreviation sunder k := (fun e => bytes_ltb (se_key e) k).

Lemma below_under t blks mx b e : e ∈ below_bound t blks mx b ->
  below_bound t blks mx (Some (se_key e, false)) = List.filter (sunder (se_key e)) (below_bound t blks mx b).
Proof.
  unfold below_bound. intros He. apply list_elem_of_In, filter_In in He as [_ He]. apply andb_true_iff in He as [Hq _].
  unfold qual in Hq. apply andb_true_iff in Hq as [_ Hb]. set (k := se_key e) in *. clearbody k. clear e.
  induction (concat blks) as [|x l IH]; [done |]. cbn [List.filter]. rewrite IH. unfold qual, bound_ok at 1. cbn [andb].
  rewrite orb_false_r. destruct (bytes_ltb (se_key x) k) eqn:El.
  - rewrite (bound_ok_down b k (se_key x) Hb) by (apply bytes_lt_le; by apply bytes_ltb_spec). destruct (_ && _); cbn [List.filter]; by rewrite ?El.
  - rewrite andb_false_r. cbn [andb]. destruct (_ && _ && _); cbn [List.filter]; by rewrite ?El.
Qed.

Section merge.
  Context {D E : Type} `{Laws : DeviceLaws D E}.
  Context (KEY_MAX VAL_MAX LEVELS TABLES CAP ARENA BLOOM_BYTES : nat).
  Context (HB : (49 <= BLOCK)%nat) (Hbloom : (BLOOM_BYTES + CRC_LEN <= BLOCK)%nat).
  Context (db : Db D) (L : u32 -> u64 -> Prop) (contents : TableRef -> Contents).

  Abbreviation dev := (device (db_wal db)).
  Abbreviation sruns := (sruns dev L).
  Abbreviation mem := (iter (db_table db)).
  Abbreviation table_blocks := (table_blocks BLOOM_BYTES db L contents).

(** What a reverse scan asks beyond a forward one: a table is found by its id, and tables
    share no block. *)
Record rev_scannable : Prop := {
  rv_scan : scannable KEY_MAX VAL_MAX LEVELS TABLES CAP ARENA BLOOM_BYTES db L contents;
  rv_ids : NoDup (t_id <$> tables (db_manifest db));
  rv_apart : forall t t' id, t ∈ tables (db_manifest db) -> t' ∈ tables (db_manifest db) ->
    (first_block t <= id < end_block t)%Z -> (first_block t' <= id < end_block t')%Z -> t = t';
}.

  Context (Hrv : rev_scannable).

(** ** The memtable's side *)

Lemma rmem_len : length mem = len (db_table db).
Proof. by eapply mem_len, rv_scan. Qed.

Lemma rmem_view i : slot_view (db_table db) i = mem !! i.
Proof. apply mem_view. Qed.

Lemma mem_sorted : StronglySorted (fun a b => bytes_le (Memtable.key a) (Memtable.key b)) mem.
Proof.
  pose proof (rb_mem _ _ _ _ _ _ _ _ _ _ (sb_read _ _ _ _ _ _ _ _ _ _ (rv_scan Hrv))) as Hw.
  pose proof (wf_sorted _ _ _ Hw) as Hso. induction Hso as [|e l Hso IH Hf]; constructor; [done |].
  eapply Forall_impl; [exact Hf |]. intros b [Hlt | [Heq _]]; [by apply bytes_lt_le | rewrite Heq; apply bytes_le_refl].
Qed.

(** The walk down a run from slot [j]: its start, and its first visible slot. *)
Lemma run_loop_step k mx : forall j start newest, (j < length mem)%nat ->
  exists r run, take (S j) mem = take r mem ++ run /\ Forall (fun e => Memtable.key e = k) run /\ (r <= S j)%nat /\
    (forall e, (0 < r)%nat -> mem !! (r - 1)%nat = Some e -> Memtable.key e <> k) /\
    let '(r', n') := run_loop_rev db j k mx start newest in
    r' = (match run with [] => start | _ => r end) /\
    n' ≫= slot_view (db_table db) = match List.filter (mem_vis mx) run with e :: _ => Some e | [] => newest ≫= slot_view (db_table db) end.
Proof.
  induction j as [|j IH]; intros start newest Hj; cbn [run_loop_rev]; rewrite rmem_view;
    destruct (lookup_lt_is_Some_2 mem _ Hj) as [w Hw]; rewrite Hw; destruct (bytes_eqb (Memtable.key w) k) eqn:Ek; cbn [negb].
  - apply bytes_eqb_spec in Ek. exists 0%nat, [w]. split_and!; [by rewrite (take_S_r _ _ _ Hw), take_0 | by constructor | lia | lia | done |].
    unfold mem_vis. cbn [List.filter]. rewrite (andb_comm (_ <=? _)%Z). destruct (_ && _); [| done].
    cbn. by rewrite rmem_view.
  - exists 1%nat, []. split_and!; [by rewrite app_nil_r | done | lia | | done | done]. intros e _ He. rewrite Nat.sub_diag, Hw in He. injection He as <-.
    intros Eq. by rewrite (proj2 (bytes_eqb_spec _ _)) in Ek.
  - apply bytes_eqb_spec in Ek. set (nw := if _ && _ then _ else _).
    destruct (IH (S j) nw ltac:(lia)) as (r & run & Hs & Hf & Hr & Hne & Hres). exists r, (run ++ [w]).
    split_and!; [by rewrite (take_S_r _ _ _ Hw), Hs, <- app_assoc | | lia | done |].
    { apply Forall_app. split; [done |]. by constructor. }
    destruct (run_loop_rev db j k mx (S j) nw) as [r' n']. destruct Hres as [-> ->]. split.
    + destruct run as [|e run]; [| done]. cbn. apply (f_equal length) in Hs. rewrite app_nil_r, !length_take in Hs. lia.
    + rewrite List.filter_app. destruct (List.filter (mem_vis mx) run) as [|e l]; [| done]. cbn [app List.filter]. unfold nw, mem_vis.
      rewrite (andb_comm (_ <=? _)%Z). destruct (_ && _); [| done]. cbn. by rewrite rmem_view.
  - exists (S (S j)), []. split_and!; [by rewrite app_nil_r | done | lia | | done | done]. intros e _ He.
    replace (S (S j) - 1)%nat with (S j) in He by lia. rewrite Hw in He. injection He as <-.
    intros Eq. by rewrite (proj2 (bytes_eqb_spec _ _)) in Ek.
Qed.

Lemma mem_le i j x y : (i < j)%nat -> mem !! i = Some x -> mem !! j = Some y -> bytes_le (Memtable.key x) (Memtable.key y).
Proof.
  intros Hij Hx Hy. pose proof mem_sorted as Hso. rewrite <- (take_drop j mem) in Hso.
  apply (StronglySorted_app_1_elem_of _ _ _ x y Hso); apply list_elem_of_lookup.
  - exists i. by rewrite lookup_take_lt by lia.
  - exists 0%nat. by rewrite lookup_drop, Nat.add_0_r.
Qed.

(** The slots before a run are below it. *)
Lemma before_run k r e : (forall e, (0 < r)%nat -> mem !! (r - 1)%nat = Some e -> Memtable.key e <> k) ->
  mem !! r = Some e -> Memtable.key e = k -> Forall (fun x => bytes_lt (Memtable.key x) k) (take r mem).
Proof.
  intros Hne He Hk. apply Forall_lookup. intros i y Hy. apply lookup_take_Some in Hy as [Hy Hlt].
  destruct (lookup_lt_is_Some_2 mem (r - 1)) as [x Hx]; [apply lookup_lt_Some in He; lia |].
  assert (bytes_lt (Memtable.key x) k) as Hx_lt.
  { pose proof (mem_le (r - 1) r x e ltac:(lia) Hx He) as Hle. rewrite Hk in Hle.
    apply bytes_le_lteq in Hle as [? | Heq]; [done |]. destruct (Hne x ltac:(lia) Hx Heq). }
  destruct (decide (i = r - 1)%nat) as [-> | Hne'].
  - rewrite Hx in Hy. by injection Hy as <-.
  - eapply bytes_le_lt_trans; [| exact Hx_lt]. by apply (mem_le i (r - 1)); [lia | |].
Qed.

(** The head fields hold [e]. *)
Record rmem_on (s : RevScan) (e : Entry) : Prop := {
  ro_key : take (rs_mem_key_len s) (rs_mem_key s) = Memtable.key e;
  ro_klen : rs_mem_key_len s = length (Memtable.key e);
  ro_val : take (rs_mem_val_len s) (rs_mem_val s) = val e;
  ro_vlen : rs_mem_val_len s = length (val e);
  ro_seq : rs_mem_seq s = Memtable.seq e;
  ro_tomb : rs_mem_tombstone s = tombstone e;
  ro_exp : rs_mem_expire_at s = expire_at e;
}.

Abbreviation under k := (fun e => bytes_ltb (Memtable.key e) k).

(** The memtable has [ms] left, the head its top; the slots before the head's run are what is left under it. *)
Definition rmem_stands (s : RevScan) (ms : list Entry) : Prop :=
  length (rs_mem_key s) = KEY_MAX /\ length (rs_mem_val s) = VAL_MAX /\
  match top_of Memtable.key ms with
  | None => rs_mem_live s = false
  | Some e => rs_mem_live s = true /\ rmem_on s e /\ (rs_mem_idx s < length mem)%nat /\
      List.filter (under (Memtable.key e)) ms = List.filter (mem_vis (rs_max_seq s)) (take (rs_mem_idx s) mem)
  end.

(** What every step of the merge keeps. *)
Record rkept (s s' : RevScan) : Prop := {
  rk_mx : rs_max_seq s' = rs_max_seq s;
  rk_now : rs_now s' = rs_now s;
  rk_ceil : ceil_bound s' = ceil_bound s;
  rk_has : rs_has_lower s' = rs_has_lower s;
  rk_lower : lower_bound_of s' = lower_bound_of s;
  rk_counts : rs_cursor_counts s' = rs_cursor_counts s;
  rk_base : rs_level_base s' = rs_level_base s;
}.

#[local] Instance rkept_preorder : PreOrder rkept.
Proof. split; [intros s; by split | intros a b c [] []; split; congruence]. Qed.

(** What the memtable's side leaves alone. *)
Record rkept_mem (s s' : RevScan) : Prop := {
  rm_kept : rkept s s';
  rm_cursors : rs_cursors s' = rs_cursors s;
  rm_block : rs_block s' = rs_block s;
  rm_block_id : rs_block_id s' = rs_block_id s;
}.

#[local] Instance rkept_mem_preorder : PreOrder rkept_mem.
Proof. split; [intros s; by split | intros a b c [] []; split; [by etrans | congruence..]]. Qed.

Lemma filter_same {A} (f : A -> bool) l : Forall (fun x => f x = true) l -> List.filter f l = l.
Proof. induction 1 as [|x l Hx _ IH]; [done |]. cbn. by rewrite Hx, IH. Qed.

(** The top of the slots up to a run's end. *)
Lemma run_top_is mx k r run e0 l : Forall (fun x => bytes_lt (Memtable.key x) k) (take r mem) -> Forall (fun e => Memtable.key e = k) run ->
  List.filter (mem_vis mx) run = e0 :: l ->
  top_of Memtable.key (List.filter (mem_vis mx) (take r mem ++ run)) = Some e0 /\ Memtable.key e0 = k /\ e0 ∈ run /\
  List.filter (under k) (List.filter (mem_vis mx) (take r mem ++ run)) = List.filter (mem_vis mx) (take r mem).
Proof.
  intros Hlo Hrun Hf. assert (forall x, x ∈ e0 :: l -> Memtable.key x = k) as Hk.
  { intros x Hx. rewrite <- Hf in Hx. apply list_elem_of_In, filter_In in Hx as [Hx%list_elem_of_In _]. rewrite Forall_forall in Hrun. auto. }
  assert (Memtable.key e0 = k) as Hk0 by (apply Hk; left).
  assert (forall x, x ∈ List.filter (mem_vis mx) (take r mem) -> bytes_lt (Memtable.key x) k) as Hlo'.
  { intros x Hx. apply list_elem_of_In, filter_In in Hx as [Hx%list_elem_of_In _]. rewrite Forall_forall in Hlo. auto. }
  rewrite List.filter_app, Hf. split_and!; [| done | |].
  - rewrite top_app, (top_same Memtable.key e0 l) by (apply Forall_forall; intros x Hx; rewrite Hk0; apply Hk; by right).
    apply top_merge_later with e0; [done |]. intros x Hx%top_in. rewrite Hk0. auto.
  - assert (e0 ∈ e0 :: l) as Hin by left. rewrite <- Hf in Hin. by apply list_elem_of_In, filter_In in Hin as [Hin%list_elem_of_In _].
  - rewrite List.filter_app, (nothing_passes _ (e0 :: l)), app_nil_r.
    + apply filter_same. apply Forall_forall. intros x Hx. by apply bytes_ltb_spec, Hlo'.
    + intros x Hx. rewrite (Hk x Hx). apply bytes_ltb_ge, bytes_le_refl.
Qed.

Lemma mem_fits e : e ∈ mem -> range_del e = false -> (length (Memtable.key e) <= KEY_MAX)%nat /\ (length (val e) <= VAL_MAX)%nat.
Proof.
  intros Hin Hrd. pose proof (sb_keys _ _ _ _ _ _ _ _ _ _ (rv_scan Hrv)) as Hks.
  pose proof (rb_vals _ _ _ _ _ _ _ _ _ _ (sb_read _ _ _ _ _ _ _ _ _ _ (rv_scan Hrv))) as Hvs. unfold mem_ok in Hvs.
  rewrite Forall_forall in Hks, Hvs. auto.
Qed.

Lemma mem_loop_rev_step : forall fuel s, (rs_mem_idx s < fuel)%nat -> (rs_mem_idx s < length mem)%nat ->
  length (rs_mem_key s) = KEY_MAX -> length (rs_mem_val s) = VAL_MAX -> rs_mem_live s = false ->
  exists s', mem_loop_rev KEY_MAX VAL_MAX db fuel s = Some s' /\
    rmem_stands s' (List.filter (mem_vis (rs_max_seq s)) (take (S (rs_mem_idx s)) mem)) /\ rkept_mem s s'.
Proof.
  induction fuel as [|fuel IH]; intros s Hf Hi Hk Hv Hl; [lia |]. cbn [mem_loop_rev]. rewrite <- rmem_len, (proj2 (Nat.ltb_lt _ _)) by done.
  rewrite rmem_view. destruct (lookup_lt_is_Some_2 mem _ Hi) as [w Hw]. rewrite Hw.
  destruct (run_loop_step (Memtable.key w) (rs_max_seq s) (rs_mem_idx s) (rs_mem_idx s) None Hi) as (r & run & Hs & Hrun & Hr & Hne & Hres).
  destruct (run_loop_rev db _ _ _ _ _) as [r' n']. destruct Hres as [-> ->].
  assert (w ∈ run /\ (r <= rs_mem_idx s)%nat) as [Hin Hle].
  { rewrite (take_S_r _ _ _ Hw) in Hs. destruct run as [|x run' _] using rev_ind.
    - exfalso. rewrite app_nil_r in Hs. pose proof (f_equal length Hs) as Hl'. rewrite length_app, !length_take in Hl'. cbn in Hl'.
      assert (r = S (rs_mem_idx s)) as -> by lia. apply (Hne w); [lia | by replace (S (rs_mem_idx s) - 1)%nat with (rs_mem_idx s) by lia | done].
    - rewrite app_assoc in Hs. apply app_inj_tail in Hs as [Hs ->]. split; [apply elem_of_app; right; left |].
      apply (f_equal length) in Hs. rewrite length_app, !length_take in Hs. lia. }
  assert (match run with [] => rs_mem_idx s | _ => r end = r) as -> by (destruct run; [by apply not_elem_of_nil in Hin | done]).
  assert (Forall (fun x => bytes_lt (Memtable.key x) (Memtable.key w)) (take r mem)) as Hlo.
  { destruct (lookup_lt_is_Some_2 mem r) as [e He]; [lia |]. apply (before_run _ r e Hne He).
    assert (e ∈ run) as Her; [| rewrite Forall_forall in Hrun; auto].
    assert (take (S (rs_mem_idx s)) mem !! r = Some e) as Hx by (by rewrite lookup_take_lt by lia).
    rewrite Hs, lookup_app_r, length_take_le, Nat.sub_diag in Hx by (rewrite ?length_take; lia). by apply list_elem_of_lookup_2 in Hx. }
  rewrite Hs. destruct (List.filter (mem_vis (rs_max_seq s)) run) as [|e0 l] eqn:Ef.
  - rewrite List.filter_app, Ef, app_nil_r. cbn [mbind option_bind]. destruct r as [|r]; cbn [Nat.eqb].
    + eexists. split; [reflexivity |]. split; [| by split]. rewrite take_0. by split_and!.
    + destruct (IH (rev_with_mem (rev_with_mem s (S r) (rs_mem_live s)) r (rs_mem_live s))) as (s' & Es & Hst & Hkp); auto; cbn; try lia.
      exists s'. rewrite ?Nat.sub_0_r. cbn [Nat.sub]. rewrite ?Nat.sub_0_r. split_and!; [exact Es | exact Hst |]. destruct Hkp as [[]]. by split.
  - destruct (run_top_is (rs_max_seq s) (Memtable.key w) r run e0 l Hlo Hrun Ef) as (Htop & Hk0 & He0 & Hund).
    assert (e0 ∈ mem /\ range_del e0 = false) as [Hem Hrd].
    { split.
      - rewrite <- (take_drop (S (rs_mem_idx s)) mem), Hs, !elem_of_app. auto.
      - assert (e0 ∈ e0 :: l) as Hx by left. rewrite <- Ef in Hx. apply list_elem_of_In, filter_In in Hx as [_ Hx].
        unfold mem_vis in Hx. apply andb_true_iff in Hx as [_ Hx]. by apply negb_true_iff in Hx. }
    destruct (mem_fits e0 Hem Hrd) as [Hfk Hfv]. rewrite !(proj2 (Nat.ltb_ge _ _)) by lia. cbn [orb].
    eexists. split; [reflexivity |]. split; [| by split]. unfold rmem_stands. rewrite Htop.
    cbn [rs_mem_key rs_mem_val rs_mem_live rs_mem_idx rs_max_seq rev_mem_head rev_with_mem].
    split_and!; [rewrite length_splice; lia | rewrite length_splice; lia | done | | lia |].
    + split; try done; cbn [rs_mem_key rs_mem_key_len rs_mem_val rs_mem_val_len rev_mem_head rev_with_mem]; apply take_splice_front; lia.
    + rewrite Hk0. exact Hund.
Qed.

(** The memtable head moves to the top of the slots up to [mem_idx]. *)
Lemma advance_mem_rev_step s : (rs_mem_idx s < length mem)%nat -> length (rs_mem_key s) = KEY_MAX -> length (rs_mem_val s) = VAL_MAX ->
  exists s', sruns (advance_mem_rev (E := E) KEY_MAX VAL_MAX db) s s' (Ok tt) /\
    rmem_stands s' (List.filter (mem_vis (rs_max_seq s)) (take (S (rs_mem_idx s)) mem)) /\ rkept_mem s s'.
Proof.
  intros Hi Hk Hv. destruct (mem_loop_rev_step (S (len (db_table db))) (rev_with_mem s (rs_mem_idx s) false)) as (s' & Es & Hst & Hkp); auto.
  { cbn. rewrite <- rmem_len. lia. }
  exists s'. split_and!; [| exact Hst | destruct Hkp as [[]]; by split]. intros c Hc. exists c. unfold advance_mem_rev. rewrite Es.
  split_and!; auto. apply grows_refl.
Qed.

(** No slot to start at. *)
Lemma advance_mem_rev_end s : (length mem <= rs_mem_idx s)%nat -> length (rs_mem_key s) = KEY_MAX -> length (rs_mem_val s) = VAL_MAX ->
  exists s', sruns (advance_mem_rev (E := E) KEY_MAX VAL_MAX db) s s' (Ok tt) /\ rmem_stands s' [] /\ rkept_mem s s'.
Proof.
  intros Hi Hk Hv. exists (rev_with_mem s (rs_mem_idx s) false). split_and!; [| by split_and! | by split].
  intros c Hc. exists c. unfold advance_mem_rev. cbn [mem_loop_rev rs_mem_idx rev_with_mem]. rewrite <- rmem_len, (proj2 (Nat.ltb_ge _ _)) by done.
  split_and!; auto. apply grows_refl.
Qed.

(** ** The tables' side *)

Definition data_id (id : u64) : Prop :=
  exists t blks p, t ∈ tables (db_manifest db) /\ table_blocks t blks /\ (p < length blks)%nat /\ id = (first_block t + Z.of_nat p)%Z.

Abbreviation rbuffered := (rbuffered db data_id).

(** The cursor's table has [es] left, the head its top. *)
Definition rcurs (mx : u64) (c : RevCursor) (t : TableRef) (es : list SstEntry) : Prop :=
  t ∈ tables (db_manifest db) /\ rc_table_id c = t_id t /\
  exists blks b, table_blocks t blks /\ es = below_bound t blks mx b /\ rtop t blks c mx b.

Record rstanding (s : RevScan) (ms : list Entry) (rs : list (TableRef * list SstEntry)) : Prop := {
  rt_buf : rbuffered s;
  rt_mem : rmem_stands s ms;
  rt_counts : length (rs_cursor_counts s) = LEVELS;
  rt_base : forall li, (li < LEVELS)%nat -> nth li (rs_level_base s) 0%nat = sum_list_with id (take li (rs_cursor_counts s));
  rt_total : sum_list_with id (rs_cursor_counts s) = length rs;
  rt_pool : (length rs <= length (rs_cursors s))%nat;
  rt_cur : forall j t es, rs !! j = Some (t, es) -> rcurs (rs_max_seq s) (rev_cursor_at KEY_MAX s j) t es;
}.

(** What the table of a cursor gives its lemmas. *)
Lemma table_facts t blks : t ∈ tables (db_manifest db) -> table_blocks t blks ->
  exists rbs k ec ms, table_on BLOOM_BYTES dev (first_block t) blks rbs k ec ms /\
    (forall i, (i < length blks + length rbs + 3)%nat -> L (t_id t) (first_block t + Z.of_nat i)%Z) /\
    version_ordered (concat blks) /\ Forall (fun e => (length (se_key e) <= KEY_MAX)%nat) (concat blks) /\
    find_table (db_manifest db) (t_id t) = Some t /\ (forall p, (p < length blks)%nat -> data_id (first_block t + Z.of_nat p)%Z) /\
    block_count t = Z.of_nat (length blks + length rbs + 3) /\ Manifest.rdel_blocks t = Z.of_nat (length rbs) /\ (end_block t <= U64_MAX)%Z /\
    ~ data_id (first_block t + Z.of_nat (length blks + length rbs) + 1)%Z.
Proof.
  intros Ht Htb. pose proof (rb_tables _ _ _ _ _ _ _ _ _ _ (sb_read _ _ _ _ _ _ _ _ _ _ (rv_scan Hrv)) t Ht) as Hok.
  pose proof (block_keys KEY_MAX VAL_MAX LEVELS TABLES CAP ARENA BLOOM_BYTES db L contents (rv_scan Hrv) t blks Ht Htb) as Hkeys.
  pose proof Htb as (rbs & k & ec & ms & Hc & Hon & Hcount & Hrdel & HL). exists rbs, k, ec, ms.
  split_and!; auto; [rewrite Hc; apply Hok | by apply find_unique; [apply (rv_ids Hrv) |] | by intros p Hp; exists t, blks, p | apply Hok |].
  intros (t' & blks' & p & Ht' & Htb' & Hp & Eid). pose proof Htb' as (rbs' & k' & ec' & ms' & _ & _ & Hcount' & Hrdel' & _).
  assert (t = t') as <-.
  { apply (rv_apart Hrv t t' (first_block t + Z.of_nat (length blks + length rbs) + 1)%Z); auto; unfold end_block; lia. }
  lia.
Qed.

Lemma rsrc_slot s ms rs src : rstanding s ms rs -> (0 < src <= length rs)%nat ->
  exists li ti, cursor_pos_rev LEVELS s src = (li, ti) /\ rev_pool_idx s li ti = (src - 1)%nat.
Proof.
  intros Hst Hs. unfold cursor_pos_rev. rewrite take_ge by (rewrite (rt_counts _ _ _ Hst); lia).
  destruct (pos_loop_spec (rs_cursor_counts s) (src - 1) 0) as (a & -> & Ha & Hle); [rewrite (rt_total _ _ _ Hst); lia |].
  eexists _, _. split; [reflexivity |]. unfold rev_pool_idx. cbn [Nat.add].
  rewrite (rt_base _ _ _ Hst) by (rewrite (rt_counts _ _ _ Hst) in Ha; lia). lia.
Qed.

Lemma rmem_stands_put s ms j c blk id : rmem_stands s ms -> rmem_stands (rput j c (rev_with_block s blk id)) ms.
Proof.
  intros (? & ? & Hm). split_and!; auto. destruct (top_of Memtable.key ms) as [e |]; [| done].
  destruct Hm as (? & [] & ? & ?). split_and!; auto. by split.
Qed.

Lemma rstanding_put s ms rs j t es0 es c blk id :
  rstanding s ms rs -> rs !! j = Some (t, es0) -> rbuf db data_id blk id -> rcurs (rs_max_seq s) c t es ->
  rstanding (rput j c (rev_with_block s blk id)) ms (<[j := (t, es)]> rs).
Proof.
  intros [] Hj Hb Hc. pose proof (lookup_lt_Some _ _ _ Hj). split; try done.
  - by apply rmem_stands_put.
  - cbn. by rewrite length_insert.
  - cbn. by rewrite !length_insert.
  - intros i t' es' Hi. destruct (decide (j = i)) as [<- | Hne].
    + rewrite list_lookup_insert_eq in Hi by done. injection Hi as <- <-. rewrite rput_at by (cbn; lia). done.
    + rewrite list_lookup_insert_ne in Hi by done. unfold rev_cursor_at, rput. cbn.
      rewrite nth_lookup, list_lookup_insert_ne, <- nth_lookup by done. by apply rt_cur0.
Qed.

(** Re-parking source [j] below its head. *)
Lemma rpark_source s ms rs j t es e li ti :
  rstanding s ms rs -> rs !! j = Some (t, es) -> top_of se_key es = Some e -> rev_pool_idx s li ti = j ->
  exists s', sruns (park_cursor_rev KEY_MAX db li ti (Some (se_key e, false))) s s' (Ok tt) /\
    rstanding s' ms (<[j := (t, List.filter (sunder (se_key e)) es)]> rs) /\ rkept s s'.
Proof.
  intros Hst Hj Htop Hpool. pose proof (lookup_lt_Some _ _ _ Hj) as Hlt. pose proof (rt_pool _ _ _ Hst) as Hp.
  destruct (rt_cur _ _ _ Hst _ _ _ Hj) as (Ht & Hid & blks & b & Htb & -> & o & Hso & Eo). rewrite Htop in Eo.
  destruct o as [x |]; [| done]. injection Eo as Ex. destruct Hso as (es' & Hpl & Hpx & Hhd).
  destruct (table_facts t blks Ht Htb) as (rbs & k & ec & m & Hon & HL & Hvo & Hkeys & Hfind & HD & _).
  pose proof (rp_block _ _ _ _ _ Hpl) as Hbl. assert (e ∈ es') as He by (rewrite <- Ex; destruct (x.2); by eapply placed_elem).
  destruct (park_rev_step HB KEY_MAX BLOOM_BYTES db L data_id t blks rbs k ec m Hon HL Hvo Hkeys Hfind HD j (rs_max_seq s) (Some (se_key e, false))
    (S x.1) s (rev_cursor_at KEY_MAX s j) x.1 es' Hpl eq_refl ltac:(lia) (rt_buf _ _ _ Hst) ltac:(lia)) as (c' & blk & id & Hrun & Hb & Hid' & Hst').
  exists (rput j c' (rev_with_block s blk id)). split_and!; [| | by split].
  - unfold park_cursor_rev. rewrite (proj2 (Nat.ltb_ge _ _)) by (rewrite Forall_forall in Hkeys; apply Hkeys; by eapply block_entries).
    apply sruns_get_seq. rewrite Hpool, (rp_idx _ _ _ _ _ Hpl), Nat2Z.id. exact Hrun.
  - eapply rstanding_put; eauto. split_and!; auto. exists blks, (Some (se_key e, false)). split_and!; [done | |].
    + symmetry. apply below_under. by eapply top_in.
    + eexists. split; [exact Hst' |]. apply floored_top. intros y Hy. cbn. rewrite orb_false_r. apply bytes_ltb_ge.
      apply list_elem_of_In, in_concat in Hy as (es2 & Hes2 & Hy). apply list_elem_of_In in Hes2, Hy. apply list_elem_of_lookup in Hes2 as [i Hi].
      rewrite lookup_drop in Hi. eapply (earlier_before blks Hvo (S x.1 + i)); [exact Hi | | exact Hy].
      apply list_elem_of_In, in_concat. exists es'. split; apply list_elem_of_In; [| done]. apply list_elem_of_lookup. exists x.1.
      rewrite lookup_take_lt by lia. done.
Qed.

(** ** Advancing below a key *)

(** What a cursor shows of the top of its entries. *)
Lemma rcurs_top mx c t es : rcurs mx c t es ->
  match top_of se_key es with
  | None => rc_live c = false
  | Some e => rc_live c = true /\ rc_head_key c = se_key e
  end.
Proof.
  intros (_ & _ & blks & b & _ & -> & o & Hst & <-). destruct o as [x |]; [| done].
  destruct Hst as (es' & Hpl & _ & Hhd). cbn. split; [apply (rp_live _ _ _ _ _ Hpl) | apply (rk_bytes _ _ _ Hhd)].
Qed.

(** Under a key that is above them all. *)
Lemma under_all {A} (key : A -> bytes) k l e : top_of key l = Some e -> bytes_lt (key e) k -> List.filter (fun x => bytes_ltb (key x) k) l = l.
Proof.
  intros Ht Hlt. apply filter_same, Forall_forall. intros x Hx. apply bytes_ltb_spec. eapply bytes_le_lt_trans; [| exact Hlt]. by eapply top_le.
Qed.

Lemma key_under a k : bytes_le a k -> bytes_eqb a k = false -> bytes_lt a k.
Proof. intros Hle He. apply bytes_le_lteq in Hle as [? | ->]; [done |]. by rewrite (proj2 (bytes_eqb_spec _ _)) in He. Qed.

Lemma cursor_past_rev_step k s ms rs j t es li ti : rstanding s ms rs -> rs !! j = Some (t, es) -> rev_pool_idx s li ti = j ->
  (forall e, e ∈ es -> bytes_le (se_key e) k) ->
  exists s', sruns (cursor_past_rev KEY_MAX db 2 li ti k) s s' (Ok tt) /\ rstanding s' ms (<[j := (t, List.filter (sunder k) es)]> rs) /\ rkept s s'.
Proof.
  intros Hst Hj Hpool Hle. cbn [cursor_past_rev]. pose proof (rcurs_top _ _ _ _ (rt_cur _ _ _ Hst _ _ _ Hj)) as Hc.
  destruct (top_of se_key es) as [e |] eqn:Et.
  2: { apply top_none in Et as ->. exists s. rewrite list_insert_id by done. split_and!; [| done | done]. apply sruns_get_seq. rewrite Hpool, Hc. apply sruns_ret. }
  destruct Hc as [Hl Hk]. destruct (bytes_eqb (se_key e) k) eqn:Ek.
  - pose proof Ek as Ek'. apply bytes_eqb_spec in Ek'. subst k.
    destruct (rpark_source s ms rs j t es e li ti Hst Hj Et Hpool) as (s1 & Hrun & Hst1 & Hkp). exists s1. split_and!; [| done | done].
    apply sruns_get_seq. rewrite Hpool, Hl, Hk, Ek. cbn [andb negb]. eapply sruns_seq; [exact Hrun |]. apply sruns_get_seq.
    assert (rev_pool_idx s1 li ti = j) as -> by (unfold rev_pool_idx; by rewrite (rk_base _ _ Hkp)).
    pose proof (rcurs_top _ _ _ _ (rt_cur _ _ _ Hst1 j t _ ltac:(apply list_lookup_insert_eq; by eapply lookup_lt_Some))) as Hc1.
    destruct (top_of se_key (List.filter _ es)) as [e1 |] eqn:Et1; [| rewrite Hc1; apply sruns_ret]. destruct Hc1 as [-> ->].
    apply top_in, list_elem_of_In, filter_In in Et1 as [_ Hlt%bytes_ltb_spec].
    destruct (bytes_eqb (se_key e1) (se_key e)) eqn:E1; [| apply sruns_ret]. exfalso. apply bytes_eqb_spec in E1. rewrite E1 in Hlt.
    by apply irreflexivity in Hlt; [| apply _].
  - exists s. rewrite (under_all se_key k es e Et) by (apply key_under; [apply Hle; by eapply top_in | done]). rewrite list_insert_id by done.
    split_and!; [| done | done]. apply sruns_get_seq. rewrite Hpool, Hl, Hk, Ek. apply sruns_ret.
Qed.

Definition under_table (k : bytes) (te : TableRef * list SstEntry) : TableRef * list SstEntry := (te.1, List.filter (sunder k) te.2).

Lemma cursors_past_rev_step k ms : forall n s rs done, rstanding s ms (done ++ rs) -> length rs = n ->
  (forall t es e, (t, es) ∈ rs -> e ∈ es -> bytes_le (se_key e) k) ->
  exists s', sruns (cursors_past_rev KEY_MAX LEVELS db (List.seq (S (length done)) n) k) s s' (Ok tt) /\
    rstanding s' ms (done ++ map (under_table k) rs) /\ rkept s s'.
Proof.
  induction n as [|n IH]; intros s rs done Hst Hn Hle.
  { destruct rs; [| done]. exists s. split_and!; try done. apply sruns_ret. }
  destruct rs as [|[t es] rs]; [done |]. injection Hn as Hn. cbn [List.seq cursors_past_rev map].
  assert ((done ++ (t, es) :: rs) !! length done = Some (t, es)) as Hj by (by rewrite lookup_app_r, Nat.sub_diag by lia).
  destruct (rsrc_slot s ms _ (S (length done)) Hst) as (li & ti & Hpos & Hpool); [rewrite length_app; cbn; lia |].
  replace (S (length done) - 1)%nat with (length done) in Hpool by lia.
  destruct (cursor_past_rev_step k s ms _ (length done) t es li ti Hst Hj Hpool) as (s1 & Hrun & Hst1 & Hkp).
  { intros e. apply (Hle t es e). left. }
  rewrite insert_app_r_alt, Nat.sub_diag in Hst1 by lia. cbn [insert list_insert] in Hst1.
  destruct (IH s1 rs (done ++ [(t, List.filter (sunder k) es)])) as (s' & Hrun' & Hst' & Hkp'); auto.
  { by rewrite <- app_assoc. }
  { intros t' es' e Hin. apply (Hle t' es' e). by right. }
  rewrite length_app, Nat.add_1_r in Hrun'. rewrite <- app_assoc in Hst'.
  exists s'. split_and!; [| done | by etrans]. apply sruns_get_seq. rewrite Hpos. by eapply sruns_seq.
Qed.

Lemma rstanding_mem s s' ms ms' rs : rstanding s ms rs -> rmem_stands s' ms' -> rkept_mem s s' -> rstanding s' ms' rs.
Proof.
  intros [] Hm [[] Hcs Hb Hid]. split; auto.
  - unfold ScanRevPark.rbuffered. by rewrite Hb, Hid.
  - congruence.
  - intros li Hli. rewrite rk_base0, rk_counts0. auto.
  - congruence.
  - by rewrite Hcs.
  - intros j t es Hj. unfold rev_cursor_at. rewrite Hcs, rk_mx0. by apply rt_cur0.
Qed.

Lemma mem_past_rev_step k s ms rs : rstanding s ms rs -> (forall e, e ∈ ms -> bytes_le (Memtable.key e) k) ->
  exists s', sruns (mem_past_rev (E := E) KEY_MAX VAL_MAX db (S (len (db_table db))) k) s s' (Ok tt) /\
    rstanding s' (List.filter (under k) ms) rs /\ rkept s s'.
Proof.
  intros Hst Hle. cbn [mem_past_rev]. pose proof (rt_mem _ _ _ Hst) as (Hk & Hv & Hm). destruct (top_of Memtable.key ms) as [e |] eqn:Et.
  2: { apply top_none in Et as ->. exists s. split_and!; [| done | done]. apply sruns_get_seq. rewrite Hm. apply sruns_ret. }
  destruct Hm as (Hl & Ho & Hi & Hund). destruct (bytes_eqb (Memtable.key e) k) eqn:Ek.
  2: { exists s. rewrite (under_all Memtable.key k ms e Et) by (apply key_under; [apply Hle; by eapply top_in | done]). split_and!; [| done | done].
       apply sruns_get_seq. rewrite Hl, (ro_key _ _ Ho), Ek. apply sruns_ret. }
  pose proof Ek as Ek'. apply bytes_eqb_spec in Ek'. subst k. rewrite Hund. destruct (rs_mem_idx s) as [|i] eqn:Ei.
  - exists (rev_with_mem s 0 false). rewrite take_0. split_and!; [| | by split].
    + apply sruns_get_seq. rewrite Hl, (ro_key _ _ Ho), Ek, Ei. cbn [andb Nat.eqb].
      pose proof (sruns_mod (S := RevScan) (E := E) dev L (fun s => rev_with_mem s (rs_mem_idx s) false) s) as Hmd. cbn beta in Hmd. rewrite Ei in Hmd. exact Hmd.
    + eapply rstanding_mem; [exact Hst | by split_and! | by split].
  - destruct (advance_mem_rev_step (rev_with_mem s i (rs_mem_live s))) as (s1 & Hrun & Hms & Hkp); [cbn; lia | done | done |].
    change (rs_max_seq (rev_with_mem s i (rs_mem_live s))) with (rs_max_seq s) in Hms. change (rs_mem_idx (rev_with_mem s i (rs_mem_live s))) with i in Hms.
    assert (rkept_mem s s1) as Hkp1 by (destruct Hkp as [[]]; by split).
    exists s1. split_and!; [| by eapply rstanding_mem | apply Hkp1].
    apply sruns_get_seq. rewrite Hl, (ro_key _ _ Ho), Ek, Ei. cbn [andb Nat.eqb]. apply sruns_mod_seq. rewrite Ei. replace (S i - 1)%nat with i by lia.
    eapply sruns_seq; [exact Hrun |]. rewrite <- rmem_len. destruct (length mem) as [|n]; [lia |]. cbn [mem_past_rev]. apply sruns_get_seq.
    destruct Hms as (_ & _ & Hm1). rewrite <- Hund in Hm1. destruct (top_of Memtable.key (List.filter _ ms)) as [e1 |] eqn:Et1; [| rewrite Hm1; apply sruns_ret].
    destruct Hm1 as (Hl1 & Ho1 & _). rewrite Hl1, (ro_key _ _ Ho1). apply top_in, list_elem_of_In, filter_In in Et1 as [_ Hlt%bytes_ltb_spec].
    destruct (bytes_eqb (Memtable.key e1) (Memtable.key e)) eqn:E1; [| apply sruns_ret]. exfalso. apply bytes_eqb_spec in E1. rewrite E1 in Hlt.
    by apply irreflexivity in Hlt; [| apply _].
Qed.

(** Every source drops the key. *)
Lemma advance_rev_step s ms rs k : rstanding s ms rs -> (length k <= KEY_MAX)%nat -> (forall e, e ∈ ms -> bytes_le (Memtable.key e) k) ->
  (forall t es e, (t, es) ∈ rs -> e ∈ es -> bytes_le (se_key e) k) ->
  exists s', sruns (advance_past_key_rev KEY_MAX VAL_MAX LEVELS db k (length rs)) s s' (Ok tt) /\
    rstanding s' (List.filter (under k) ms) (map (under_table k) rs) /\ rkept s s'.
Proof.
  intros Hst Hk Hm Ht. destruct (mem_past_rev_step k s ms rs Hst Hm) as (s1 & Hrun & Hst1 & Hkp).
  destruct (cursors_past_rev_step k _ (length rs) s1 rs [] Hst1 eq_refl Ht) as (s' & Hrun' & Hst' & Hkp').
  exists s'. split_and!; [| done | by etrans]. unfold advance_past_key_rev. eapply sruns_seq; [exact Hrun |].
  rewrite (proj2 (Nat.ltb_ge _ _)) by done. exact Hrun'.
Qed.

(** ** Sources *)

Definition rsources (ms : list Entry) (rs : list (TableRef * list SstEntry)) : list (list Item) :=
  map (mem_item db) ms :: map table_items rs.

Definition ritems (ms : list Entry) (rs : list (TableRef * list SstEntry)) (x : Item) : Prop := exists l, l ∈ rsources ms rs /\ x ∈ l.

Abbreviation iunder k := (fun x : Item => bytes_ltb x.1 k).

Lemma rsources_under k ms rs : rsources (List.filter (under k) ms) (map (under_table k) rs) = map (List.filter (iunder k)) (rsources ms rs).
Proof.
  unfold rsources. cbn [map]. rewrite !map_map, filter_map_swap. f_equal. apply map_ext. intros [t es].
  unfold table_items. cbn [under_table fst snd]. by rewrite filter_map_swap.
Qed.

(** What the scan reads off the head of a source. *)
Record rhead_is (s : RevScan) (src : nat) (x : Item) : Prop := {
  ri_key : head_key_rev KEY_MAX LEVELS s src = Some x.1;
  ri_ver : head_version_rev KEY_MAX LEVELS db s src = h_ver x.2;
  ri_head : exists h, head_rev KEY_MAX LEVELS s src = Some h /\ hd_key h = x.1 /\
    match h_body x.2 with
    | None => hd_tombstone h = true
    | Some (v, ex) => hd_tombstone h = false /\ hd_val_len h = length v /\ hd_expire_at h = ex
    end;
  ri_bytes : take (length x.1) (if (src =? 0)%nat then rs_mem_key s else rc_key (rev_src_cursor KEY_MAX LEVELS s src)) = x.1;
}.

Lemma rsrc_cursor s ms rs j : rstanding s ms rs -> (j < length rs)%nat -> rev_src_cursor KEY_MAX LEVELS s (S j) = rev_cursor_at KEY_MAX s j.
Proof.
  intros Hst Hj. destruct (rsrc_slot s ms rs (S j) Hst) as (li & ti & Hpos & Hpool); [lia |]. replace (S j - 1)%nat with j in Hpool by lia.
  unfold rev_src_cursor, rev_src_idx. by rewrite Hpos, Hpool.
Qed.

Lemma rcursor_head s ms rs j t es e : rstanding s ms rs -> rs !! j = Some (t, es) -> top_of se_key es = Some e -> rhead_is s (S j) (sst_item t e).
Proof.
  intros Hst Hj Htop. pose proof (rsrc_cursor s ms rs j Hst (lookup_lt_Some _ _ _ Hj)) as Hc.
  destruct (rt_cur _ _ _ Hst _ _ _ Hj) as (Ht & Hid & blks & b & Htb & -> & o & Hso & Eo). rewrite Htop in Eo.
  destruct o as [x |]; [| done]. injection Eo as Ex. destruct Hso as (es' & Hpl & _ & Hhd). rewrite Ex in Hhd.
  pose proof (rp_live _ _ _ _ _ Hpl) as Hl. split.
  - unfold head_key_rev. cbn [Nat.eqb]. by rewrite Hc, Hl, (rk_bytes _ _ _ Hhd).
  - unfold head_version_rev. cbn [Nat.eqb]. rewrite Hc, (rp_node _ _ _ _ _ Hpl), (rp_wall _ _ _ _ _ Hpl), (rk_sq _ _ _ Hhd). done.
  - eexists. unfold head_rev. cbn [Nat.eqb]. rewrite Hc, Hl. split; [reflexivity |]. cbn [hd_key hd_tombstone hd_val_len hd_expire_at].
    rewrite (rk_tomb _ _ _ Hhd), (rk_vlen _ _ _ Hhd), (rk_exp _ _ _ Hhd), (rk_bytes _ _ _ Hhd). split; [done |].
    cbn [sst_item snd h_body]. unfold sst_body, se_stored. destruct (se_tombstone e) eqn:Et; [done |]. by rewrite sst_ttl.
  - cbn [Nat.eqb sst_item fst]. rewrite Hc, <- (rk_len _ _ _ Hhd). apply (rk_bytes _ _ _ Hhd).
Qed.

Lemma rmem_head s e : rs_mem_live s = true -> rmem_on s e -> rhead_is s 0 (mem_item db e).
Proof.
  intros Hl []. split; cbn.
  - unfold head_key_rev. cbn. by rewrite Hl, ro_key0.
  - unfold head_version_rev. cbn. by rewrite ro_seq0.
  - eexists. unfold head_rev. cbn. rewrite Hl. split; [reflexivity |]. cbn. rewrite ro_key0, ro_tomb0, ro_vlen0, ro_exp0.
    split; [done |]. unfold entry_body. by destruct (tombstone e).
  - by rewrite <- ro_klen0.
Qed.

Lemma rno_head s src : head_key_rev KEY_MAX LEVELS s src = None <-> head_rev KEY_MAX LEVELS s src = None.
Proof. unfold head_key_rev, head_rev. destruct (src =? 0)%nat; [by destruct (rs_mem_live s) |]. cbv zeta. by destruct (rc_live _). Qed.

Lemma rsource_head s ms rs src l : rstanding s ms rs -> rsources ms rs !! src = Some l ->
  match top_of fst l with None => head_key_rev KEY_MAX LEVELS s src = None | Some x => rhead_is s src x end.
Proof.
  intros Hst Hl. destruct src as [|j].
  - cbn in Hl. injection Hl as <-. rewrite top_map. destruct (rt_mem _ _ _ Hst) as (_ & _ & Hm). cbn [mem_item fst].
    destruct (top_of (fun x => Memtable.key x) ms) as [e |] eqn:Et; cbn [fmap option_fmap option_map].
    + destruct Hm as (Hl & Ho & _). by apply rmem_head.
    + unfold head_key_rev. cbn. by rewrite Hm.
  - change ((table_items <$> rs) !! j = Some l) in Hl. rewrite list_lookup_fmap in Hl. destruct (rs !! j) as [[t es] |] eqn:Ej; [| done]. injection Hl as <-.
    unfold table_items. cbn [fst snd]. rewrite top_map. cbn [sst_item fst].
    destruct (top_of (fun x => se_key x) es) as [e |] eqn:Et; cbn [fmap option_fmap option_map]; [by eapply rcursor_head |].
    pose proof (rcurs_top _ _ _ _ (rt_cur _ _ _ Hst _ _ _ Ej)) as Hc. change (top_of se_key es = None) in Et. rewrite Et in Hc.
    unfold head_key_rev. cbn [Nat.eqb]. by rewrite (rsrc_cursor s ms rs j Hst (lookup_lt_Some _ _ _ Ej)), Hc.
Qed.

(** The top of an ordered source: no key above it, no newer version of it. *)
Lemma in_order_top l x y : in_order l -> top_of fst l = Some x -> y ∈ l ->
  bytes_le y.1 x.1 /\ (y.1 = x.1 -> forall v, version_gt (h_ver x.2) v = false -> version_gt (h_ver y.2) v = false).
Proof.
  intros Ho Ht Hy. split; [by eapply (top_le fst) |]. intros Eq. destruct (top_split _ _ _ Ht) as (pre & suf & -> & Hp & _).
  apply elem_of_app in Hy as [Hy | Hy].
  - rewrite Forall_forall in Hp. specialize (Hp y Hy). rewrite Eq in Hp. by apply irreflexivity in Hp; [| apply _].
  - apply StronglySorted_app_1_r in Ho. by apply (in_order_head x suf y Ho Hy).
Qed.

(** ** The greatest key and its newest version *)

(** The first pass as a top. *)
Lemma max_src_top s total :
  max_src KEY_MAX LEVELS s total = top_of snd (omap (fun src => (fun k => (src, k)) <$> head_key_rev KEY_MAX LEVELS s src) (List.seq 0 (total + 1))).
Proof.
  unfold max_src, top_of. generalize (List.seq 0 (total + 1)). intros l. generalize (@None (nat * bytes)). induction l as [|src l IH]; intros b; [done |].
  cbn [fold_left omap list_omap]. rewrite IH. unfold max_step at 1. destruct (head_key_rev KEY_MAX LEVELS s src) as [k |]; cbn [fmap option_fmap option_map]; [| done].
  cbn [fold_left]. f_equal. destruct b as [[sb kb] |]; [| done]. done.
Qed.

Lemma rsource_lookup ms rs l : l ∈ rsources ms rs <-> exists src, (src ∈ List.seq 0 (length rs + 1)) /\ rsources ms rs !! src = Some l.
Proof.
  rewrite list_elem_of_lookup. split; [| intros (? & _ & ?); eauto]. intros [i Hi]. exists i. split; [| done].
  apply list_elem_of_In, in_seq. apply lookup_lt_Some in Hi. unfold rsources in Hi. cbn in Hi. rewrite length_map in Hi. lia.
Qed.

Lemma rseq_source ms rs src : src ∈ List.seq 0 (length rs + 1) -> exists l, rsources ms rs !! src = Some l.
Proof.
  intros Hs. apply lookup_lt_is_Some_2. apply list_elem_of_In, in_seq in Hs. unfold rsources. cbn. rewrite length_map. lia.
Qed.

(** A source's top has its head. *)
Lemma item_head s ms rs y : rstanding s ms rs -> Forall in_order (rsources ms rs) -> ritems ms rs y ->
  exists src l x, src ∈ List.seq 0 (length rs + 1) /\ rsources ms rs !! src = Some l /\ in_order l /\ y ∈ l /\ top_of fst l = Some x /\ rhead_is s src x.
Proof.
  intros Hst Hord (l & Hl & Hy). rewrite Forall_forall in Hord. pose proof (Hord l Hl) as Ho. apply rsource_lookup in Hl as (src & Hs & Hl).
  pose proof (rsource_head s ms rs src l Hst Hl) as Hh. destruct (top_of fst l) as [x |] eqn:Et; [by exists src, l, x |].
  apply top_none in Et as ->. by apply not_elem_of_nil in Hy.
Qed.

(** The first pass finds the greatest key left. *)
Lemma max_src_step s ms rs : rstanding s ms rs -> Forall in_order (rsources ms rs) ->
  match max_src KEY_MAX LEVELS s (length rs) with
  | None => forall x, ~ ritems ms rs x
  | Some (src, k) => (exists x, ritems ms rs x /\ x.1 = k) /\ forall x, ritems ms rs x -> bytes_le x.1 k
  end.
Proof.
  intros Hst Hord. rewrite max_src_top. set (hs := omap _ _).
  assert (forall y, ritems ms rs y -> exists z, z ∈ hs /\ bytes_le y.1 z.2) as Hcov.
  { intros y Hy. destruct (item_head s ms rs y Hst Hord Hy) as (src & l & x & Hs & _ & Ho & Hyl & Hx & Hi). exists (src, x.1). split.
    - apply list_elem_of_omap. exists src. split; [done |]. by rewrite (ri_key _ _ _ Hi).
    - by apply (in_order_top l x y Ho Hx Hyl). }
  destruct (top_of snd hs) as [[src k] |] eqn:Et.
  - split.
    + pose proof (top_in _ _ _ Et) as Hin. apply list_elem_of_omap in Hin as (src' & Hs & Hk). destruct (head_key_rev _ _ _ src') as [k' |] eqn:Ek; [| done].
      injection Hk as -> ->. destruct (rseq_source ms rs src Hs) as [l Hl]. pose proof (rsource_head s ms rs src l Hst Hl) as Hh.
      destruct (top_of fst l) as [x |] eqn:Ex; [| congruence]. exists x. rewrite (ri_key _ _ _ Hh) in Ek. split; [| by injection Ek].
      exists l. split; [by eapply list_elem_of_lookup_2 | by eapply top_in].
    + intros x Hx. destruct (Hcov x Hx) as (z & Hz & Hle). etrans; [exact Hle |]. by apply (top_le snd hs (src, k) z Et).
  - apply top_none in Et. intros x Hx. destruct (Hcov x Hx) as (z & Hz & _). rewrite Et in Hz. by apply not_elem_of_nil in Hz.
Qed.

(** The winner: the top of its source, an item of the key that none of the key's beats. *)
Record rwins (s : RevScan) (ms : list Entry) (rs : list (TableRef * list SstEntry)) (k : bytes) (w : Winner) (x : Item) (l : list Item) : Prop := {
  rw_at : rsources ms rs !! w_src w = Some l;
  rw_top : top_of fst l = Some x;
  rw_key : x.1 = k;
  rw_ver : w_ver w = h_ver x.2;
  rw_klen : w_key_len w = length k;
  rw_body : match h_body x.2 with
            | None => w_tombstone w = true
            | Some (v, ex) => w_tombstone w = false /\ w_val_len w = length v /\ w_expire_at w = ex
            end;
  rw_bytes : winner_key_rev KEY_MAX LEVELS s w = k;
  rw_best : forall y, ritems ms rs y -> y.1 = k -> version_gt (h_ver y.2) (h_ver x.2) = false;
}.

Lemma rwinner_step s ms rs k src (V : Version -> Prop) :
  rstanding s ms rs -> Forall in_order (rsources ms rs) -> orderly V ->
  (forall x, ritems ms rs x -> x.1 = k -> V (h_ver x.2)) ->
  (forall x, ritems ms rs x -> bytes_le x.1 k) -> (exists x, ritems ms rs x /\ x.1 = k) ->
  exists x l, rwins s ms rs k (winner_of_rev KEY_MAX LEVELS db s (length rs) src k) x l.
Proof.
  intros Hst Hord Ho HV Hmax (x0 & Hx0 & Hk0). unfold winner_of_rev. set (w0 := mkWinner src ZERO false (length k) 0 0).
  assert (forall j h, j ∈ List.seq 0 (length rs + 1) -> head_rev KEY_MAX LEVELS s j = Some h -> hd_key h = k ->
    exists x l, rsources ms rs !! j = Some l /\ top_of fst l = Some x /\ x.1 = k /\ rhead_is s j x) as Hhd.
  { intros j h Hj Hh Hk. destruct (rseq_source ms rs j Hj) as [l Hl]. pose proof (rsource_head s ms rs j l Hst Hl) as Hs.
    destruct (top_of fst l) as [x |] eqn:Ex; [| apply rno_head in Hs; congruence]. exists x, l. split_and!; auto.
    destruct (ri_head _ _ _ Hs) as (h' & Hh' & Hk' & _). congruence. }
  destruct (pick_fold (head_rev KEY_MAX LEVELS s) (head_version_rev KEY_MAX LEVELS db s) k V (List.seq 0 (length rs + 1)) Ho) with (w := w0)
    as (I1 & _ & I3); [| by left |].
  { intros j h Hj Hh Hk. destruct (Hhd j h Hj Hh Hk) as (x & l & Hl & Hx & Hxk & Hi). rewrite (ri_ver _ _ _ Hi). apply HV; [| done].
    exists l. split; [by eapply list_elem_of_lookup_2 | by eapply top_in]. }
  change (pick_step (head_rev KEY_MAX LEVELS s) (head_version_rev KEY_MAX LEVELS db s) k) with (win_step_rev KEY_MAX LEVELS db s k) in *.
  set (w := fold_left _ _ w0) in *.
  assert (forall y, ritems ms rs y -> y.1 = k -> version_gt (h_ver y.2) (w_ver w) = false) as Hbest.
  { intros y Hy Hyk. destruct (item_head s ms rs y Hst Hord Hy) as (j & l & x & Hj & Hl & Hol & Hyl & Hx & Hi).
    destruct (in_order_top l x y Hol Hx Hyl) as [Hle Hdom]. assert (x.1 = k) as Hxk.
    { apply bytes_le_antisym; [| by rewrite <- Hyk]. apply Hmax. exists l. split; [by eapply list_elem_of_lookup_2 | by eapply top_in]. }
    destruct (ri_head _ _ _ Hi) as (h & Hh & Hhk & _). apply Hdom; [congruence |]. rewrite <- (ri_ver _ _ _ Hi).
    apply (I3 j h Hj Hh). congruence. }
  destruct I1 as [Ew | (j & h & Hj & Hh & Hk & Ew)].
  { exfalso. specialize (Hbest x0 Hx0 Hk0). rewrite Ew in Hbest. cbn [w0 w_ver] in Hbest. rewrite gt_ZERO in Hbest.
    pose proof (proj1 Ho _ (HV x0 Hx0 Hk0)). bool_lia. }
  destruct (Hhd j h Hj Hh Hk) as (x & l & Hl & Hx & Hxk & Hi). exists x, l. unfold picked in Ew. rewrite Ew in *.
  destruct (ri_head _ _ _ Hi) as (h' & Hh' & _ & Hb). rewrite Hh in Hh'. injection Hh' as <-. pose proof (ri_bytes _ _ _ Hi) as Hby.
  split; cbn [w_src w_ver w_key_len w_tombstone w_val_len w_expire_at]; auto.
  - apply (ri_ver _ _ _ Hi).
  - by rewrite Hk.
  - unfold winner_key_rev. cbn [w_key_len w_src]. by rewrite Hk, <- Hxk.
  - intros y Hy Hyk. rewrite <- (ri_ver _ _ _ Hi). by apply Hbest.
Qed.

(** ** The value *)

Lemma rstanding_block s ms rs blk id : rstanding s ms rs -> rbuf db data_id blk id -> rstanding (rev_with_block s blk id) ms rs.
Proof.
  intros [] Hb. split; auto. destruct rt_mem0 as (? & ? & Hm). split_and!; auto.
  destruct (top_of Memtable.key ms) as [e |]; [| done]. destruct Hm as (? & [] & ? & ?). split_and!; auto. by split.
Qed.

Lemma rcopy_step s ms rs k w x l v ex vb :
  rstanding s ms rs -> rwins s ms rs k w x l -> h_body x.2 = Some (v, ex) -> (length v <= length vb)%nat ->
  exists s', sruns (copy_value_rev KEY_MAX LEVELS db w vb) s s' (Ok (splice 0 v vb)) /\ rstanding s' ms rs /\ rkept s s'.
Proof.
  intros Hst Hw Hb Hv. pose proof (rw_body _ _ _ _ _ _ _ Hw) as Hbody. rewrite Hb in Hbody. destruct Hbody as (_ & Hvl & _).
  pose proof (rw_at _ _ _ _ _ _ _ Hw) as Hat. pose proof (rw_top _ _ _ _ _ _ _ Hw) as Htop. unfold copy_value_rev. destruct (w_src w) as [|j] eqn:Es.
  - exists s. split_and!; try done. apply sruns_get_seq. cbn [Nat.eqb]. cbn in Hat. injection Hat as <-. rewrite top_map in Htop. cbn [mem_item fst] in Htop.
    destruct (rt_mem _ _ _ Hst) as (_ & _ & Hm). change (fun x0 => Memtable.key x0) with Memtable.key in Htop.
    destruct (top_of Memtable.key ms) as [e |]; [| done]. destruct Hm as (_ & Ho & _). injection Htop as <-. cbn in Hb. unfold entry_body in Hb.
    destruct (tombstone e); [done |]. injection Hb as <- <-. rewrite Hvl, <- (ro_vlen _ _ Ho), (ro_val _ _ Ho). apply sruns_ret.
  - change ((table_items <$> rs) !! j = Some l) in Hat. rewrite list_lookup_fmap in Hat. destruct (rs !! j) as [[t es] |] eqn:Ej; [| done]. injection Hat as <-.
    unfold table_items in Htop. cbn [fst snd] in Htop. rewrite top_map in Htop. cbn [sst_item fst] in Htop. change (fun x0 => se_key x0) with se_key in Htop.
    destruct (top_of se_key es) as [e |] eqn:Ee; [| done]. injection Htop as <-. cbn in Hb. unfold sst_body in Hb. destruct (se_tombstone e) eqn:Et; [done |].
    injection Hb as <- <-. pose proof (rsrc_cursor s ms rs j Hst (lookup_lt_Some _ _ _ Ej)) as Hc.
    destruct (rt_cur _ _ _ Hst _ _ _ Ej) as (Ht & Hid & blks & b & Htb & -> & o & Hso & Eo). rewrite Ee in Eo. destruct o as [y |]; [| done]. injection Eo as Ey.
    destruct Hso as (es' & Hpl & Hpy & Hhd). rewrite Ey in Hhd.
    destruct (table_facts t blks Ht Htb) as (rbs & tk & ec & m & Hon & HL & Hvo & Hkeys & Hfind & HD & _). pose proof (rp_block _ _ _ _ _ Hpl) as Hbl.
    destruct (rensure_step HB BLOOM_BYTES db L data_id t blks rbs tk ec m Hon HL HD s y.1 es' (rt_buf _ _ _ Hst) Hbl) as (blk & Hen & Hh & Hbuf).
    exists (rev_with_block s blk (Some (first_block t + Z.of_nat y.1)%Z)). split_and!; [| by apply rstanding_block | by split].
    apply sruns_get_seq. cbn [Nat.eqb]. rewrite Hc, (rp_id _ _ _ _ _ Hpl), (rp_bid _ _ _ _ _ Hpl). eapply sruns_seq; [exact Hen |]. apply sruns_get_seq.
    rewrite (rk_off _ _ _ Hhd), (rp_end _ _ _ _ _ Hpl). change (rs_block (rev_with_block s blk _)) with blk.
    destruct y as [i [off ey]]. cbn [fst snd] in *. subst ey. destruct (placed_split es' off e Hpy) as (pre & suf & Esp & ->).
    destruct (to_data _ _ _ _ _ _ _ _ Hon i es' Hbl) as (Hwf & _). rewrite (held_parses (E := E) HB blk es' pre e suf _ Hwf Hh Esp).
    cbn [head_of pd_val]. unfold se_stored. rewrite Et, (proj2 (Nat.ltb_ge _ _)) by lia. apply sruns_ret.
Qed.

(** ** What a reverse scan has below it *)

(** The keys above the scan's lower bound. *)
Definition above (s : RevScan) (k : bytes) : Prop := rs_has_lower s = true -> bytes_lt (lower_bound_of s) k.

(** A point read of [k] at the scan's snapshot and time finds nothing; finds [v]. *)
Definition rhidden (s : RevScan) (k : bytes) : Prop :=
  reads (E := E) (db_point db contents k (rs_max_seq s)) (db_cover db contents k (rs_max_seq s)) (rs_now s) [] (Ok (None, [])).
Definition rshown (s : RevScan) (k v : bytes) : Prop :=
  reads (E := E) (db_point db contents k (rs_max_seq s)) (db_cover db contents k (rs_max_seq s)) (rs_now s)
    (replicate (length v) 0%Z) (Ok (Some (length v), v)).

(** The scan is after the keys of [F], with at most [N] versions of them to go. *)
Definition at_frontier (F : bytes -> Prop) (N : nat) (s : RevScan) (ms : list Entry) (rs : list (TableRef * list SstEntry)) : Prop :=
  rstanding s ms rs /\ Forall in_order (rsources ms rs) /\ (forall x, ritems ms rs x -> F x.1 /\ (length x.1 <= KEY_MAX)%nat) /\
  (forall k, F k -> above s k -> forall h, db_point db contents k (rs_max_seq s) h <-> ritems ms rs (k, h)) /\
  (length (concat (rsources ms rs)) <= N)%nat /\ (length ms <= length mem)%nat.
Definition rfrontier (F : bytes -> Prop) (N : nat) (s : RevScan) : Prop := exists ms rs, at_frontier F N s ms rs.

Lemma length_concat_under (f : Item -> bool) ls x l : l ∈ ls -> x ∈ l -> f x = false ->
  (length (concat (map (List.filter f) ls)) < length (concat ls))%nat.
Proof.
  assert (forall ls, (length (concat (map (List.filter f) ls)) <= length (concat ls))%nat) as Hle.
  { clear. induction ls as [|a ls IH]; [done |]. cbn [map concat]. rewrite !length_app. pose proof (filter_length f a). lia. }
  intros Hl Hx Hf. induction ls as [|a ls IH]; [by apply not_elem_of_nil in Hl |]. cbn [map concat]. rewrite !length_app.
  apply elem_of_cons in Hl as [<- | Hl]; [| specialize (IH Hl); pose proof (filter_length f a); lia].
  specialize (Hle ls). enough (length (List.filter f l) < length l)%nat by lia. clear - Hx Hf. induction l as [|y l IH]; [by apply not_elem_of_nil in Hx |].
  cbn [List.filter length]. apply elem_of_cons in Hx as [<- | Hx]; [rewrite Hf; pose proof (filter_length f l); lia |].
  destruct (f y); cbn [length]; specialize (IH Hx); lia.
Qed.

Lemma in_order_filter (f : Item -> bool) l : in_order l -> in_order (List.filter f l).
Proof.
  intros Ho. induction Ho as [|x l Ho IH Hf]; [constructor |]. cbn. destruct (f x); [| done]. constructor; [done |].
  rewrite Forall_forall in *. intros y Hy. apply list_elem_of_In, filter_In in Hy as [Hy%list_elem_of_In _]. auto.
Qed.

Lemma ritems_under k ms rs y : ritems (List.filter (under k) ms) (map (under_table k) rs) y <-> ritems ms rs y /\ bytes_lt y.1 k.
Proof.
  unfold ritems. rewrite rsources_under. split.
  - intros (l & (l0 & -> & Hl0)%list_elem_of_fmap & Hy). apply list_elem_of_In, filter_In in Hy as [Hy%list_elem_of_In Hlt%bytes_ltb_spec]. eauto.
  - intros ((l & Hl & Hy) & Hlt). exists (List.filter (iunder k) l). split; [apply list_elem_of_fmap; by exists l |].
    apply list_elem_of_In, filter_In. rewrite <- list_elem_of_In. split; [done | by apply bytes_ltb_spec].
Qed.

(** Past its greatest key, a scan is after the keys below it. *)
Lemma advance_rfrontier (F : bytes -> Prop) N s ms rs k x :
  at_frontier F N s ms rs -> (forall y, ritems ms rs y -> bytes_le y.1 k) -> ritems ms rs x -> x.1 = k ->
  exists s' N' ms' rs', sruns (advance_past_key_rev KEY_MAX VAL_MAX LEVELS db k (length rs)) s s' (Ok tt) /\ rkept s s' /\ (N' < N)%nat /\
    length rs' = length rs /\ at_frontier (fun k' => F k' /\ bytes_lt k' k) N' s' ms' rs'.
Proof.
  intros (Hst & Hord & HF & Hpts & HN & Hms) Hmax Hx Hk.
  destruct (advance_rev_step s ms rs k Hst) as (s' & Hrun & Hst' & Hkp).
  { rewrite <- Hk. by apply HF. }
  { intros e He. apply (Hmax (mem_item db e)). eexists. split; [left |]. by apply list_elem_of_fmap_2. }
  { intros t es e Hin He. apply (Hmax (sst_item t e)). exists (table_items (t, es)). split; [right; by apply list_elem_of_fmap_2 |].
    unfold table_items. by apply list_elem_of_fmap_2. }
  exists s', (length (concat (rsources (List.filter (under k) ms) (map (under_table k) rs)))), (List.filter (under k) ms), (map (under_table k) rs).
  split_and!; [done | done | | by rewrite length_map |].
  - rewrite rsources_under. destruct Hx as (l & Hl & Hxl). eapply Nat.lt_le_trans; [| exact HN]. eapply (length_concat_under _ _ x l); auto.
    rewrite Hk. apply bytes_ltb_ge, bytes_le_refl.
  - split_and!; [done | | | | done | etrans; [apply List.filter_length_le | exact Hms]].
    + rewrite rsources_under. rewrite Forall_forall in *. intros l (l0 & -> & Hl0)%list_elem_of_fmap. by apply in_order_filter, Hord.
    + intros y [Hy Hlt]%ritems_under. split; [split; [by apply HF | done] | by apply HF].
    + intros k' [HF' Hlt] Ha h. rewrite (rk_mx _ _ Hkp), ritems_under, (Hpts k' HF'); [cbn; tauto |].
      unfold above in *. rewrite (rk_has _ _ Hkp), (rk_lower _ _ Hkp) in Ha. done.
Qed.

(** ** One call of [prev] *)

(** What a call from a scan after [F] may answer.  The end: nothing of [F] is left to
    show.  An entry: the greatest key shown, with its value in the buffers, and the scan
    is after the keys below it.  A short buffer: its length, and the entry stays. *)
Definition prev_outcome (F : bytes -> Prop) (N : nat) (kb vb : bytes) (s s' : RevScan)
    (r : result (option (nat * nat * bytes * bytes)) (Error E)) : Prop :=
  rkept s s' /\ exists F' N', rfrontier F' N' s' /\ (N' <= N)%nat /\ (forall k, F' k -> F k) /\
  match r with
  | Ok None => forall k, F k -> above s k -> rhidden s k
  | Ok (Some (kl, vl, kb', vb')) => exists k v,
      F k /\ above s k /\ rshown s k v /\ (N' < N)%nat /\ (forall k', F' k' -> bytes_lt k' k) /\
      (forall k', F k' -> above s k' -> F' k' \/ k' = k \/ rhidden s k') /\
      kl = length k /\ vl = length v /\ (kl <= length kb)%nat /\ (vl <= length vb)%nat /\
      kb' = splice 0 k kb /\ vb' = splice 0 v vb
  | Err e => exists k v n,
      F' k /\ above s k /\ rshown s k v /\ (forall k', F' k' -> bytes_le k' k) /\
      (forall k', F k' -> above s k' -> F' k' \/ rhidden s k') /\ e = BufferTooSmall n /\
      ((length kb < length k)%nat /\ n = length k \/
       (length k <= length kb)%nat /\ (length vb < length v)%nat /\ n = length v)
  end.

Lemma rkept_above s s' k : rkept s s' -> above s' k <-> above s k.
Proof. intros [? ? ? Hh He _ _]. unfold above. by rewrite Hh, He. Qed.

Lemma rkept_hidden s s' k : rkept s s' -> rhidden s' k <-> rhidden s k.
Proof. intros [Hm Hn _ _ _ _ _]. unfold rhidden. by rewrite Hm, Hn. Qed.

Lemma rkept_shown s s' k v : rkept s s' -> rshown s' k v <-> rshown s k v.
Proof. intros [Hm Hn _ _ _ _ _]. unfold rshown. by rewrite Hm, Hn. Qed.

(** A key passed over does not change what a call answers. *)
Lemma prev_outcome_past F N N1 kb vb s s1 s' r k :
  rkept s s1 -> (N1 < N)%nat -> (forall k', F k' -> above s k' -> bytes_lt k' k \/ rhidden s k') ->
  prev_outcome (fun k' => F k' /\ bytes_lt k' k) N1 kb vb s1 s' r -> prev_outcome F N kb vb s s' r.
Proof.
  intros Hkp HN Hpast (Hkp' & F' & N' & Hf & HN' & Hsub & Hr). split; [by etrans |]. exists F', N'.
  split_and!; [done | lia | intros k' ?%Hsub; tauto |]. destruct r as [[[[[kl vl] kb'] vb'] |] | e].
  - destruct Hr as (k' & v & HFk & Hb & Hsh & Hlt & Habove & Hrest & Hbufs). exists k', v.
    rewrite (rkept_above _ _ _ Hkp) in Hb. rewrite (rkept_shown _ _ _ _ Hkp) in Hsh. split_and!; try tauto; [lia |].
    intros k2 Hk2 Hb2. destruct (Hpast k2 Hk2 Hb2) as [Hlt2 | ?]; [| by right; right].
    specialize (Hrest k2 (conj Hk2 Hlt2)). rewrite (rkept_above _ _ _ Hkp), (rkept_hidden _ _ _ Hkp) in Hrest. auto.
  - intros k2 Hk2 Hb2. destruct (Hpast k2 Hk2 Hb2) as [Hlt2 | ?]; [| done].
    specialize (Hr k2 (conj Hk2 Hlt2)). rewrite (rkept_above _ _ _ Hkp), (rkept_hidden _ _ _ Hkp) in Hr. auto.
  - destruct Hr as (k' & v & n & HFk & Hb & Hsh & Habove & Hrest & He). exists k', v, n.
    rewrite (rkept_above _ _ _ Hkp) in Hb. rewrite (rkept_shown _ _ _ _ Hkp) in Hsh. split_and!; try tauto.
    intros k2 Hk2 Hb2. destruct (Hpast k2 Hk2 Hb2) as [Hlt2 | ?]; [| by right].
    specialize (Hrest k2 (conj Hk2 Hlt2)). rewrite (rkept_above _ _ _ Hkp), (rkept_hidden _ _ _ Hkp) in Hrest. auto.
Qed.

Lemma rhidden_none s k : (forall h, ~ db_point db contents k (rs_max_seq s) h) -> rhidden s k.
Proof. intros Hn. left. done. Qed.

(** Above the greatest key left nothing is shown. *)
Lemma nothing_above F N s ms rs k : at_frontier F N s ms rs -> (forall y, ritems ms rs y -> bytes_le y.1 k) ->
  forall k', F k' -> above s k' -> bytes_lt k' k \/ k' = k \/ rhidden s k'.
Proof.
  intros (_ & _ & _ & Hpts & _) Hmax k' Hk' Ha. destruct (bytes_lt_trichotomy k' k) as [? | [-> | Hlt]]; auto. right. right. apply rhidden_none.
  intros h Hh%(Hpts k' Hk' Ha). apply Hmax in Hh. cbn in Hh. eauto using keys_absurd.
Qed.

(** A call that ends below everything shown. *)
Lemma prev_ends F N s ms rs kb vb : at_frontier F N s ms rs -> (forall k, F k -> above s k -> forall h, ~ ritems ms rs (k, h)) ->
  prev_outcome F N kb vb s s (Ok None).
Proof.
  intros Hf Hno. split; [done |]. exists F, N. split_and!; [by exists ms, rs | done | done |]. intros k Hk Ha. apply rhidden_none.
  intros h Hh. apply (Hno k Hk Ha h). destruct Hf as (_ & _ & _ & Hpts & _). by apply Hpts.
Qed.

(** A short buffer leaves the greatest key ahead. *)
Lemma prev_short F N s ms rs k v n kb vb : at_frontier F N s ms rs -> (forall y, ritems ms rs y -> bytes_le y.1 k) ->
  F k -> above s k -> rshown s k v ->
  (length kb < length k)%nat /\ n = length k \/ (length k <= length kb)%nat /\ (length vb < length v)%nat /\ n = length v ->
  prev_outcome F N kb vb s s (Err (BufferTooSmall n)).
Proof.
  intros Hf Hmax HFk Ha Hsh Hn. pose proof (nothing_above F N s ms rs k Hf Hmax) as Hpast. split; [done |].
  exists (fun k' => F k' /\ bytes_le k' k), N. destruct Hf as (Hst & Hord & HF & Hpts & HN & Hms). split_and!; [| done | tauto |].
  - exists ms, rs. split_and!; auto.
    + intros y Hy. split; [split; [by apply HF | auto] | by apply HF].
    + intros k' [? _]. auto.
  - exists k, v, n. split_and!; auto; [apply bytes_le_refl | tauto |]. intros k' Hk' Ha'.
    destruct (Hpast k' Hk' Ha') as [? | [-> | ?]]; [left; split; [done | by apply bytes_lt_le] | left; split; [done | apply bytes_le_refl] | by right].
Qed.

(** The winner of the greatest key, with the test of a read on it. *)
Lemma winner_turn F N s ms rs src k :
  at_frontier F N s ms rs -> (forall y, ritems ms rs y -> bytes_le y.1 k) -> (exists x, ritems ms rs x /\ x.1 = k) -> above s k ->
  exists x l b, rwins s ms rs k (winner_of_rev KEY_MAX LEVELS db s (length rs) src k) x l /\ ritems ms rs x /\ F k /\
    yields dev L (rdel_hides LEVELS db k (rs_max_seq s) (w_ver (winner_of_rev KEY_MAX LEVELS db s (length rs) src k))) (Ok b) /\
    if skips (winner_of_rev KEY_MAX LEVELS db s (length rs) src k) b (rs_now s) then rhidden s k
    else exists v ex, h_body x.2 = Some (v, ex) /\ rshown s k v /\ w_val_len (winner_of_rev KEY_MAX LEVELS db s (length rs) src k) = length v.
Proof.
  intros Hf Hmax Hex Ha. pose proof Hf as (Hst & Hord & HF & Hpts & HN & Hms). destruct Hex as (x0 & Hx0 & Hk0).
  assert (F k) as HFk by (rewrite <- Hk0; by apply HF).
  destruct (rwinner_step s ms rs k src (db_versions db contents k (rs_max_seq s)) Hst Hord (sb_order _ _ _ _ _ _ _ _ _ _ (rv_scan Hrv) k _)) as (x & l & Hw); eauto.
  { intros y Hy Hyk. left. exists y.2. split; [| done]. apply (Hpts k HFk Ha). destruct y as [yk yh]. cbn in Hyk. by subst yk. }
  set (w := winner_of_rev _ _ _ _ _ _ _) in *. pose proof (rw_key _ _ _ _ _ _ _ Hw) as Hxk.
  assert (ritems ms rs x) as Hx by (exists l; split; [eapply list_elem_of_lookup_2, Hw | eapply top_in, Hw]).
  destruct (rdel_hides_step VAL_MAX KEY_MAX LEVELS TABLES CAP ARENA BLOOM_BYTES HB Hbloom db L contents k (rs_max_seq s) (w_ver w)
    (sb_read _ _ _ _ _ _ _ _ _ _ (rv_scan Hrv)) (sb_seqs _ _ _ _ _ _ _ _ _ _ (rv_scan Hrv))) as (b & Hyb & Hb).
  exists x, l, b. split_and!; auto.
  pose proof (winner_reads KEY_MAX VAL_MAX LEVELS TABLES CAP ARENA BLOOM_BYTES HB Hbloom db L contents (rv_scan Hrv) k (rs_max_seq s) (rs_now s) w x b
    (rw_ver _ _ _ _ _ _ _ Hw) (rw_body _ _ _ _ _ _ _ Hw)) as Hr.
  specialize (Hr ltac:(apply (Hpts k HFk Ha); rewrite <- Hxk; by destruct x)
    ltac:(intros h Hh; apply (rw_best _ _ _ _ _ _ _ Hw (k, h)); [by apply (Hpts k HFk Ha) | done]) Hb).
  destruct (skips w b (rs_now s)); [exact Hr |]. destruct Hr as (v & ex & ? & ? & ?). by exists v, ex.
Qed.

Lemma prev_loop_step kb vb : forall fuel F N s ms rs, at_frontier F N s ms rs -> (N < fuel)%nat ->
  exists s' r, sruns (prev_loop KEY_MAX VAL_MAX LEVELS db fuel (length rs) kb vb) s s' r /\ prev_outcome F N kb vb s s' r.
Proof.
  induction fuel as [|fuel IH]; intros F N s ms rs Hf Hfuel; [lia |]. cbn [prev_loop]. pose proof Hf as (Hst & Hord & HF & Hpts & HN & Hms).
  pose proof (max_src_step s ms rs Hst Hord) as Hmax. destruct (max_src KEY_MAX LEVELS s (length rs)) as [[src k] |] eqn:Em.
  2: { exists s, (Ok None). split; [apply sruns_get_seq; rewrite Em; apply sruns_ret |]. eapply prev_ends; [exact Hf |]. intros; apply Hmax. }
  destruct Hmax as [Hex Hmax]. destruct (rs_has_lower s && bytes_leb k (lower_bound_of s)) eqn:Ee.
  { exists s, (Ok None). split; [apply sruns_get_seq; rewrite Em, Ee; apply sruns_ret |]. eapply prev_ends; [exact Hf |].
    intros k' _ Ha h Hh%Hmax. cbn in Hh. apply andb_true_iff in Ee as [He%Ha Hle%bytes_leb_spec]. exact (keys_absurd _ _ He (bytes_le_trans _ _ _ Hh Hle)). }
  assert (above s k) as Ha by (intros Hh; rewrite Hh in Ee; cbn in Ee; by apply bytes_leb_gt).
  destruct (winner_turn F N s ms rs src k Hf Hmax Hex Ha) as (x & l & b & Hw & Hx & HFk & Hyb & Hsh).
  set (w := winner_of_rev KEY_MAX LEVELS db s (length rs) src k) in *. pose proof (rw_key _ _ _ _ _ _ _ Hw) as Hxk.
  pose proof (rw_bytes _ _ _ _ _ _ _ Hw) as Hwk. pose proof (rw_klen _ _ _ _ _ _ _ Hw) as Hkl.
  pose proof (nothing_above F N s ms rs k Hf Hmax) as Hpast.
  destruct (skips w b (rs_now s)) eqn:Esk; unfold skips in Esk.
  - destruct (advance_rfrontier F N s ms rs k x Hf Hmax Hx Hxk) as (s1 & N1 & ms1 & rs1 & Hrun1 & Hkp1 & HN1 & Hlen & Hf1).
    destruct (IH _ N1 s1 ms1 rs1 Hf1 ltac:(lia)) as (s' & r & Hrun & Hout). exists s', r. split.
    + apply sruns_get_seq. rewrite Em, Ee. fold w. rewrite Hwk. eapply sruns_seq; [apply sruns_lift, Hyb |]. rewrite Esk.
      eapply sruns_seq; [exact Hrun1 |]. by rewrite <- Hlen.
    + eapply prev_outcome_past; eauto. intros k' Hk' Ha'. destruct (Hpast k' Hk' Ha') as [? | [-> | ?]]; auto.
  - destruct Hsh as (v & ex & Hbody & Hsh & Hvl).
    destruct (Nat.ltb_spec (length kb) (w_key_len w)) as [Ekb | Ekb].
    { exists s, (Err (BufferTooSmall (w_key_len w))). split; [| eapply prev_short; eauto; left; lia]. apply sruns_get_seq. rewrite Em, Ee. fold w. rewrite Hwk.
      eapply sruns_seq; [apply sruns_lift, Hyb |]. rewrite Esk, (proj2 (Nat.ltb_lt _ _)) by done. apply sruns_fail. }
    destruct (Nat.ltb_spec (length vb) (w_val_len w)) as [Evb | Evb].
    { exists s, (Err (BufferTooSmall (w_val_len w))). split; [| eapply prev_short; eauto; right; lia]. apply sruns_get_seq. rewrite Em, Ee. fold w. rewrite Hwk.
      eapply sruns_seq; [apply sruns_lift, Hyb |]. rewrite Esk, (proj2 (Nat.ltb_ge _ _)) by done. cbv zeta.
      rewrite (proj2 (Nat.ltb_lt _ _)) by done. apply sruns_fail. }
    destruct (rcopy_step s ms rs k w x l v ex vb Hst Hw Hbody ltac:(lia)) as (s1 & Hrun1 & Hst1 & Hkp1).
    assert (at_frontier F N s1 ms rs) as Hf1.
    { split_and!; auto. intros k' Hk' Ha' h. rewrite (rk_mx _ _ Hkp1). apply Hpts; [done |]. by apply (rkept_above s s1). }
    destruct (advance_rfrontier F N s1 ms rs k x Hf1 Hmax Hx Hxk) as (s' & N' & ms' & rs' & Hrun2 & Hkp2 & HN' & _ & Hf').
    exists s', (Ok (Some (w_key_len w, w_val_len w, splice 0 k kb, splice 0 v vb))). split.
    + apply sruns_get_seq. rewrite Em, Ee. fold w. rewrite Hwk. eapply sruns_seq; [apply sruns_lift, Hyb |].
      rewrite Esk, (proj2 (Nat.ltb_ge _ _)) by done. cbv zeta. rewrite (proj2 (Nat.ltb_ge _ _)) by done.
      eapply sruns_seq; [exact Hrun1 |]. rewrite Hkl, take_splice_front by lia. eapply sruns_seq; [exact Hrun2 |]. apply sruns_ret.
    + split; [by etrans |]. exists (fun k' => F k' /\ bytes_lt k' k), N'. split_and!; [by exists ms', rs' | lia | tauto |].
      exists k, v. split_and!; auto; [tauto |]. intros k' Hk' Ha'. destruct (Hpast k' Hk' Ha') as [? | ?]; auto.
Qed.

(** ** The fuel of a call *)

Lemma rcurs_bound mx c t es : rcurs mx c t es -> (length es <= rev_cursor_bound db c)%nat.
Proof.
  intros (Ht & Hid & blks & b & Htb & -> & _). unfold rev_cursor_bound. rewrite Hid, find_unique by (auto; apply (rv_ids Hrv)).
  pose proof (entries_bound BLOOM_BYTES db L contents t blks Htb) as Hb. destruct Htb as (rbs & k & ec & m & _ & _ & -> & _). rewrite Nat2Z.id.
  unfold below_bound. etrans; [apply List.filter_length_le |]. etrans; [exact Hb |]. apply Nat.mul_le_mono_r. lia.
Qed.

Lemma rrest_bound (rs : list (TableRef * list SstEntry)) : forall cs, (length rs <= length cs)%nat ->
  (forall j t es, rs !! j = Some (t, es) -> (length es <= rev_cursor_bound db (nth j cs (rev_cursor_empty KEY_MAX)))%nat) ->
  (length (concat (map table_items rs)) <= sum_list_with (rev_cursor_bound db) cs)%nat.
Proof.
  induction rs as [|[t es] rs IH]; intros cs Hl Hb; [cbn; lia |]. destruct cs as [|c cs]; [cbn in Hl; lia |].
  cbn [map concat sum_list_with]. rewrite length_app. unfold table_items at 1. rewrite length_map.
  pose proof (Hb 0%nat t es eq_refl) as H0. cbn [nth] in H0. specialize (IH cs ltac:(cbn in Hl; lia) (fun j => Hb (S j))).
  cbn [snd]. lia.
Qed.

(** One call. *)
Lemma prev_step F N s kb vb : rfrontier F N s ->
  exists s' r, sruns (prev KEY_MAX VAL_MAX LEVELS db kb vb) s s' r /\ prev_outcome F N kb vb s s' r.
Proof.
  intros (ms & rs & Hf). pose proof Hf as (Hst & Hord & HF & Hpts & HN & Hms). set (n := length (concat (rsources ms rs))) in *.
  assert (n <= prev_bound db s)%nat as Hn.
  { unfold n, rsources, prev_bound. cbn [concat]. rewrite length_app, length_map, <- rmem_len.
    pose proof (rrest_bound rs (rs_cursors s) (rt_pool _ _ _ Hst)) as Hr.
    enough (length (concat (map table_items rs)) <= sum_list_with (rev_cursor_bound db) (rs_cursors s))%nat by lia.
    apply Hr. intros j t es Hj. eapply rcurs_bound. by apply (rt_cur _ _ _ Hst). }
  destruct (prev_loop_step kb vb (S (prev_bound db s)) F n s ms rs) as (s' & r & Hrun & Hkp & F' & N' & Hf' & HN' & Hsub & Hr); [by split_and! | lia |].
  exists s', r. split.
  - unfold prev. apply sruns_get_seq. unfold total_cursors_rev. rewrite take_ge by (rewrite (rt_counts _ _ _ Hst); lia).
    rewrite (rt_total _ _ _ Hst). exact Hrun.
  - split; [done |]. exists F', N'. split_and!; [done | lia | done |]. destruct r as [[[[[kl vl] kb'] vb'] |] | e]; [| done | done].
    destruct Hr as (k & v & ? & ? & ? & ? & Hr). exists k, v. split_and!; try tauto. lia.
Qed.
End merge.
