(* ===== verification/ScanRevSeek.v ===== *)
(** * Seeking and draining a reverse scan: [src/scan.rs]

    [seek_prev] puts the scan after every key of its range; the calls of [prev] then list,
    from the greatest key down, exactly what point reads of those keys would show. *)

From stdpp Require Import base numbers list sets sorting.
From Stdlib Require Import ZArith Lia Sorting.Sorted.
From S2P Require Import Prelude Device Compress Version Slots Cache Memtable Wal Manifest ManifestPool SstPlan SstWriter SstReader SstBlock SstImage SstIndex SstRdel SstTable SstBuild Db DbRead Scan ScanPark ScanMerge ScanSeek ScanRev ScanRevBlock ScanRevPark ScanRevMerge.

Section seeking.
  Context {D E : Type} `{Laws : DeviceLaws D E}.
  Context (KEY_MAX VAL_MAX LEVELS TABLES CAP ARENA BLOOM_BYTES : nat).
  Context (HB : (49 <= BLOCK)%nat) (Hbloom : (BLOOM_BYTES + CRC_LEN <= BLOCK)%nat).
  Context (db : Db D) (L : u32 -> u64 -> Prop) (contents : TableRef -> Contents).
  Context (Hrv : rev_scannable KEY_MAX VAL_MAX LEVELS TABLES CAP ARENA BLOOM_BYTES db L contents).

  Abbreviation dev := (device (db_wal db)).
  Abbreviation sruns := (sruns dev L).
  Abbreviation mem := (iter (db_table db)).
  Abbreviation table_blocks := (table_blocks BLOOM_BYTES db L contents).
  Abbreviation rcurs := (rcurs BLOOM_BYTES db L contents).
  Abbreviation rmem_stands := (rmem_stands KEY_MAX VAL_MAX db).
  Abbreviation rstanding := (rstanding KEY_MAX VAL_MAX LEVELS BLOOM_BYTES db L contents).
  Abbreviation rbuffered := (rbuffered db (data_id BLOOM_BYTES db L contents)).
  Abbreviation Hsb := (rv_scan _ _ _ _ _ _ _ _ _ _ Hrv).

(** ** The memtable *)

(** [run_end]: past the run of the key. *)
Lemma run_end_step from : forall fuel ub, (length mem - ub <= fuel)%nat -> (ub <= length mem)%nat ->
  exists u, run_end db fuel ub from = u /\ (ub <= u <= length mem)%nat /\
    (forall i e, (ub <= i < u)%nat -> mem !! i = Some e -> Memtable.key e = from) /\ (forall e, mem !! u = Some e -> Memtable.key e <> from).
Proof.
  induction fuel as [|fuel IH]; intros ub Hf Hub; cbn [run_end].
  { exists ub. split_and!; [done | lia | lia | lia |]. intros e He. apply lookup_lt_Some in He. lia. }
  rewrite mem_view. destruct (mem !! ub) as [v |] eqn:Ev.
  - pose proof (lookup_lt_Some _ _ _ Ev) as Hlt.
    rewrite <- (rmem_len KEY_MAX VAL_MAX LEVELS TABLES CAP ARENA BLOOM_BYTES HB Hbloom db L contents Hrv), (proj2 (Nat.ltb_lt _ _)) by done. cbn [andb].
    destruct (bytes_eqb (Memtable.key v) from) eqn:Ek.
    + destruct (IH (ub + 1)%nat ltac:(lia) ltac:(lia)) as (u & Eu & Hu & Hin & Hout). exists u. split_and!; [done | lia | lia | | done].
      intros i e Hi He. destruct (decide (i = ub)) as [-> | Hne]; [| apply (Hin i e); [lia | done]].
      rewrite Ev in He. injection He as <-. by apply bytes_eqb_spec.
    + exists ub. split_and!; [done | lia | lia | lia |]. intros e He. rewrite Ev in He. injection He as <-. intros Eq.
      by rewrite (proj2 (bytes_eqb_spec _ _)) in Ek.
  - exists ub. split_and!; [done | lia | lia | lia |]. intros e He. congruence.
Qed.

(** The memtable walk starts at the last slot at or below [from], past the end without one. *)
Lemma mem_start_step from :
  exists u, (u <= length mem)%nat /\ (forall i e, mem !! i = Some e -> (i < u)%nat <-> bound_ok (seek_bound from) (Memtable.key e) = true) /\
    (u = 0%nat /\ (length mem <= mem_start_rev db from)%nat \/ (0 < u)%nat /\ mem_start_rev db from = (u - 1)%nat).
Proof.
  pose proof (rmem_len KEY_MAX VAL_MAX LEVELS TABLES CAP ARENA BLOOM_BYTES HB Hbloom db L contents Hrv) as Hlen.
  unfold mem_start_rev. rewrite <- Hlen. destruct (Nat.eqb_spec (length mem) 0) as [E0 | Hn0].
  { exists 0%nat. split_and!; [lia | | left; lia]. intros i e He%lookup_lt_Some. lia. }
  destruct from as [|b from].
  { exists (length mem). split_and!; [lia | | right; lia]. intros i e He. apply lookup_lt_Some in He. cbn. split; [done | lia]. }
  pose proof (rb_mem _ _ _ _ _ _ _ _ _ _ (sb_read _ _ _ _ _ _ _ _ _ _ Hsb)) as Hw. set (from' := b :: from).
  destruct (find_run_spec _ from' Hw) as (Hlo & [Hbelow Habove] & _). set (lo := lower_bound (db_table db) from') in *. rewrite <- Hlen in Hlo.
  destruct (run_end_step from' (length mem - lo) lo ltac:(lia) ltac:(lia)) as (u & Eu & Hu & Hin & Hout). rewrite Eu.
  exists u. split_and!; [lia | | destruct (Nat.ltb_spec 0 u); [right; lia | left; lia]].
  intros i e He. change (seek_bound from') with (Some (from', true)). cbn [bound_ok]. rewrite orb_true_iff, andb_true_iff, bytes_ltb_spec, bytes_eqb_spec. split.
  - intros Hi. destruct (decide (i < lo)%nat) as [Hlt | Hge]; [left | right; split; [done | apply (Hin i e); [lia | done]]].
    rewrite Forall_forall in Hbelow. apply Hbelow. apply list_elem_of_lookup. exists i. by rewrite lookup_take_lt.
  - intros Hok. destruct (decide (i < u)%nat) as [| Hge]; [done |]. exfalso.
    assert (bytes_le from' (Memtable.key e)) as Hle.
    { rewrite Forall_forall in Habove. apply Habove. apply list_elem_of_lookup. exists (i - lo)%nat. rewrite lookup_drop. by replace (lo + (i - lo))%nat with i by lia. }
    destruct Hok as [Hlt | [_ Heq]]; [by eauto using keys_absurd |].
    destruct (decide (i = u)) as [-> | Hne]; [by destruct (Hout e He) |].
    destruct (lookup_lt_is_Some_2 mem u) as [eu Heu]; [apply lookup_lt_Some in He; lia |]. apply (Hout eu Heu). apply bytes_le_antisym.
    + rewrite <- Heq. by apply (mem_le KEY_MAX VAL_MAX LEVELS TABLES CAP ARENA BLOOM_BYTES HB Hbloom db L contents Hrv u i); [lia | |].
    + rewrite Forall_forall in Habove. apply Habove. apply list_elem_of_lookup. exists (u - lo)%nat. rewrite lookup_drop. by replace (lo + (u - lo))%nat with u by lia.
Qed.

(** The entries of the memtable a scan from [from] may see. *)
Definition mem_upto (mx : u64) (from : bytes) : list Entry :=
  List.filter (fun e => mem_vis mx e && bound_ok (seek_bound from) (Memtable.key e)) mem.

Lemma filter_take {A} (f g : A -> bool) u : forall l, (forall i e, l !! i = Some e -> (i < u)%nat <-> g e = true) ->
  List.filter (fun e => f e && g e) l = List.filter f (take u l).
Proof.
  induction u as [|u IH]; intros l Hl.
  - rewrite take_0. apply nothing_passes. intros x Hx. apply list_elem_of_lookup in Hx as [i Hi]. destruct (g x) eqn:Eg; [| apply andb_false_r].
    apply (Hl i x Hi) in Eg. lia.
  - destruct l as [|a l]; [done |]. cbn [take List.filter]. rewrite (proj1 (Hl 0%nat a eq_refl) ltac:(lia)), andb_true_r, (IH l); [done |].
    intros i e He. rewrite <- (Hl (S i) e He). lia.
Qed.

Lemma seek_mem_step s from : rs_mem_idx s = mem_start_rev db from -> length (rs_mem_key s) = KEY_MAX -> length (rs_mem_val s) = VAL_MAX ->
  exists s', sruns (advance_mem_rev (E := E) KEY_MAX VAL_MAX db) s s' (Ok tt) /\ rmem_stands s' (mem_upto (rs_max_seq s) from) /\ rkept_mem s s'.
Proof.
  intros Ei Hk Hv. destruct (mem_start_step from) as (u & Hu & Hok & Hst). unfold mem_upto. rewrite (filter_take _ _ u _ Hok).
  destruct Hst as [[-> Hge] | [Hpos Eu]].
  - rewrite take_0. apply (advance_mem_rev_end KEY_MAX VAL_MAX LEVELS TABLES CAP ARENA BLOOM_BYTES HB Hbloom db L contents Hrv); auto. by rewrite Ei.
  - assert (u = S (rs_mem_idx s)) as -> by (rewrite Ei, Eu; lia).
    apply (advance_mem_rev_step KEY_MAX VAL_MAX LEVELS TABLES CAP ARENA BLOOM_BYTES HB Hbloom db L contents Hrv); auto; lia.
Qed.

(** ** One table *)

(** The entries of a table a scan from [from] may see. *)
Definition table_upto (mx : u64) (from : bytes) (t : TableRef) : list SstEntry :=
  List.filter (fun e => qual mx (seek_bound from) e && bytes_leb (as_slice (Manifest.first_key t)) (se_key e)) (contents t).1.

(** The table's bounds put it outside the range. *)
Definition rpruned (s : RevScan) (from : bytes) (t : TableRef) : bool :=
  (negb (length from =? 0)%nat && bytes_ltb (ceil_bound s) (as_slice (Manifest.first_key t))) ||
  (rs_has_lower s && bytes_leb (as_slice (Manifest.last_key t)) (lower_bound_of s)).

(** The cursors [add] of the tables [ts]: none for a pruned table or one with nothing to show. *)
Record sought (s : RevScan) (from : bytes) (ts : list TableRef) (add : list (TableRef * list SstEntry)) : Prop := {
  so_len : (length add <= length ts)%nat;
  so_in : forall t es, (t, es) ∈ add -> t ∈ ts /\ es = table_upto (rs_max_seq s) from t;
  so_all : forall t, t ∈ ts -> rpruned s from t = false -> table_upto (rs_max_seq s) from t <> [] -> (t, table_upto (rs_max_seq s) from t) ∈ add;
}.

Lemma sought_nil s from : sought s from [] [].
Proof. split; [done | by intros ? ? ?%not_elem_of_nil | by intros ? ?%not_elem_of_nil]. Qed.

Lemma sought_app s from ts1 ts2 a1 a2 : sought s from ts1 a1 -> sought s from ts2 a2 -> sought s from (ts1 ++ ts2) (a1 ++ a2).
Proof.
  intros [H1 H2 H3] [H4 H5 H6]. split.
  - rewrite !length_app. lia.
  - intros t es [Hin | Hin]%elem_of_app; rewrite elem_of_app; [destruct (H2 t es Hin) | destruct (H5 t es Hin)]; auto.
  - intros t [Ht | Ht]%elem_of_app Hp Hne; rewrite elem_of_app; auto.
Qed.

(** The scan once the cursors of the first [n] levels have a place. *)
Record rseeking (n : nat) (s : RevScan) (ms : list Entry) (rs : list (TableRef * list SstEntry)) : Prop := {
  rq_buf : rbuffered s;
  rq_mem : rmem_stands s ms;
  rq_counts : length (rs_cursor_counts s) = LEVELS;
  rq_bases : length (rs_level_base s) = LEVELS;
  rq_base : forall l, (l < n)%nat -> (l < LEVELS)%nat -> nth l (rs_level_base s) 0%nat = sum_list_with id (take l (rs_cursor_counts s));
  rq_zero : forall l, (n <= l)%nat -> nth l (rs_cursor_counts s) 0%nat = 0%nat;
  rq_total : sum_list_with id (rs_cursor_counts s) = length rs;
  rq_pool : (length rs <= length (rs_cursors s))%nat;
  rq_cur : forall j t es, rs !! j = Some (t, es) -> rcurs (rs_max_seq s) (rev_cursor_at KEY_MAX s j) t es;
}.

(** What seeking the tables leaves alone. *)
Record rranged (s s' : RevScan) : Prop := {
  rg_rmx : rs_max_seq s' = rs_max_seq s;
  rg_rnow : rs_now s' = rs_now s;
  rg_rceil : ceil_bound s' = ceil_bound s;
  rg_rhas : rs_has_lower s' = rs_has_lower s;
  rg_rlower : lower_bound_of s' = lower_bound_of s;
  rg_rpool : length (rs_cursors s') = length (rs_cursors s);
}.

#[local] Instance rranged_preorder : PreOrder rranged.
Proof. split; [intros s; by split | intros a b c [] []; split; congruence]. Qed.

Lemma sought_ranged s s' from ts add : rranged s s' -> sought s' from ts add -> sought s from ts add.
Proof. intros [] [H1 H2 H3]. unfold rpruned in *. rewrite rg_rmx0, rg_rceil0, rg_rhas0, rg_rlower0 in *. by split. Qed.

Lemma rnext_slot li s ms rs : rseeking (S li) s ms rs -> (li < LEVELS)%nat -> rev_pool_idx s li (nth li (rs_cursor_counts s) 0%nat) = length rs.
Proof.
  intros Hs Hli. unfold rev_pool_idx. rewrite (rq_base _ _ _ _ Hs) by lia. rewrite <- (rq_total _ _ _ _ Hs).
  rewrite (sum_upto (rs_cursor_counts s) (S li)) by (intros; apply (rq_zero _ _ _ _ Hs); lia).
  destruct (lookup_lt_is_Some_2 (rs_cursor_counts s) li) as [x Hx]; [rewrite (rq_counts _ _ _ _ Hs); lia |].
  rewrite (take_S_r _ _ _ Hx), sum_list_with_app, nth_lookup, Hx. cbn. unfold id. lia.
Qed.

(** The memtable's side reads the memtable's fields. *)
Lemma rmem_same s s' ms : rmem_stands s ms -> rs_mem_key s' = rs_mem_key s -> rs_mem_key_len s' = rs_mem_key_len s -> rs_mem_val s' = rs_mem_val s ->
  rs_mem_val_len s' = rs_mem_val_len s -> rs_mem_seq s' = rs_mem_seq s -> rs_mem_tombstone s' = rs_mem_tombstone s -> rs_mem_expire_at s' = rs_mem_expire_at s ->
  rs_mem_live s' = rs_mem_live s -> rs_mem_idx s' = rs_mem_idx s -> rs_max_seq s' = rs_max_seq s -> rmem_stands s' ms.
Proof.
  intros (? & ? & Hm) E1 E2 E3 E4 E5 E6 E7 E8 E9 E10. unfold ScanRevMerge.rmem_stands. rewrite E1, E3, E8, E9, E10. split_and!; auto.
  destruct (top_of Memtable.key ms) as [e |]; [| done]. destruct Hm as (? & [] & ? & ?). split_and!; auto. split; congruence.
Qed.

Lemma rseeking_add li s ms rs c blk id t es :
  rseeking (S li) s ms rs -> (li < LEVELS)%nat -> (length rs < length (rs_cursors s))%nat -> rbuf db (data_id BLOOM_BYTES db L contents) blk id ->
  rcurs (rs_max_seq s) c t es -> rseeking (S li) (add_to_rev li c (rev_with_block s blk id)) ms (rs ++ [(t, es)]).
Proof.
  intros Hs Hli Hroom Hb Hc. pose proof (rnext_slot li s ms rs Hs Hli) as Hslot.
  assert (rs_cursors (add_to_rev li c (rev_with_block s blk id)) = <[length rs := c]> (rs_cursors s)) as Hcs by (rewrite <- Hslot; done).
  assert (rs_cursor_counts (add_to_rev li c (rev_with_block s blk id)) = <[li := (nth li (rs_cursor_counts s) 0 + 1)%nat]> (rs_cursor_counts s)) as Hct by done.
  destruct Hs. split; try done.
  - by eapply rmem_same.
  - rewrite Hct. by rewrite length_insert.
  - intros l Hl Hl'. rewrite Hct, take_insert_above by lia. by apply rq_base0.
  - intros l Hl. rewrite Hct, nth_lookup, list_lookup_insert_ne, <- nth_lookup by lia. by apply rq_zero0.
  - rewrite Hct. pose proof (sum_insert (rs_cursor_counts s) li (nth li (rs_cursor_counts s) 0 + 1) ltac:(lia)). rewrite length_app. cbn. lia.
  - rewrite Hcs, length_insert, length_app. cbn. lia.
  - intros j t' es' Hj. unfold rev_cursor_at. rewrite Hcs, nth_lookup. change (rs_max_seq (add_to_rev li c (rev_with_block s blk id))) with (rs_max_seq s).
    apply lookup_app_Some in Hj as [Hj | [Hge Hj]].
    + rewrite list_lookup_insert_ne by (apply lookup_lt_Some in Hj; lia). rewrite <- nth_lookup. by apply rq_cur0.
    + apply list_lookup_singleton_Some in Hj as [Hz Heq]. injection Heq as <- <-. replace j with (length rs) by lia.
      by rewrite list_lookup_insert_eq.
Qed.

Lemma rseeking_block n s ms rs blk id : rseeking n s ms rs -> rbuf db (data_id BLOOM_BYTES db L contents) blk id -> rseeking n (rev_with_block s blk id) ms rs.
Proof. intros [] Hb. split; try done. by eapply rmem_same. Qed.

Lemma radd_table li s ms rs from t :
  rseeking (S li) s ms rs -> (li < LEVELS)%nat -> (length rs < length (rs_cursors s))%nat -> t ∈ tables (db_manifest db) ->
  (length from <= KEY_MAX)%nat -> (from <> [] -> ceil_bound s = from) ->
  exists s' add, sruns (add_cursor_rev KEY_MAX db t li from) s s' (Ok tt) /\ rseeking (S li) s' ms (rs ++ add) /\ sought s from [t] add /\
    rranged s s' /\ rs_level_base s' = rs_level_base s.
Proof.
  intros Hs Hli Hroom Ht Hfl Hceil.
  destruct (table_has_blocks KEY_MAX VAL_MAX LEVELS TABLES CAP ARENA BLOOM_BYTES HB Hbloom db L contents Hsb t Ht) as [blks Htb].
  destruct (table_facts KEY_MAX VAL_MAX LEVELS TABLES CAP ARENA BLOOM_BYTES HB Hbloom db L contents Hrv t blks Ht Htb)
    as (rbs & k & ec & m & Hon & HL & Hvo & Hkeys & Hfind & HD & Hcount & Hrdel & Hend & HI).
  assert (forall mx, below_bound t blks mx (seek_bound from) = table_upto mx from t) as Eup.
  { intros mx. unfold below_bound, table_upto. by destruct Htb as (? & ? & ? & ? & -> & _). }
  assert (table_upto (rs_max_seq s) from t = [] -> sought s from [t] []) as Hnone.
  { intros E0. split; [cbn; lia | by intros ? ? ?%not_elem_of_nil |]. by intros t' ->%list_elem_of_singleton _ ?. }
  destruct (decide (blks = [])) as [E0 | Hne].
  { exists s, []. rewrite app_nil_r. split_and!; [| done | | done | done].
    - by apply (add_rev_none KEY_MAX BLOOM_BYTES db L t blks rbs k ec m).
    - apply Hnone. rewrite <- Eup, E0. done. }
  destruct (add_rev_step HB KEY_MAX BLOOM_BYTES db L (data_id BLOOM_BYTES db L contents) t blks rbs k ec m Hon HL Hvo Hkeys Hfind HD Hbloom Hcount Hrdel Hend HI
    s li from Hne) as (blk & id & Hb & [[E0 Hrun] | (c & Hrun & Hid & Htop)]); [by rewrite (rnext_slot li s ms rs) | done | done | |].
  - exists (rev_with_block s blk id), []. rewrite app_nil_r. split_and!; [done | by apply rseeking_block | | by split | done]. apply Hnone. by rewrite <- Eup.
  - exists (add_to_rev li c (rev_with_block s blk id)), [(t, table_upto (rs_max_seq s) from t)]. split_and!; [done | | | | done].
    + apply rseeking_add; auto. split_and!; auto. exists blks, (seek_bound from). by rewrite Eup.
    + split; [cbn; lia | |].
      * intros t' es [= -> ->]%list_elem_of_singleton. split; [by apply list_elem_of_singleton | done].
      * intros t' ->%list_elem_of_singleton _ _. by apply list_elem_of_singleton.
    + split; try done. cbn. by rewrite length_insert.
Qed.

(** ** Levels *)

Lemma rseek_tables_step from li : (li < LEVELS)%nat -> (length from <= KEY_MAX)%nat -> forall ts s ms rs,
  rseeking (S li) s ms rs -> (forall t, t ∈ ts -> t ∈ tables (db_manifest db)) -> (length rs + length ts <= length (rs_cursors s))%nat ->
  (from <> [] -> ceil_bound s = from) ->
  exists s' add, sruns (seek_tables_rev KEY_MAX db ts li from) s s' (Ok tt) /\ rseeking (S li) s' ms (rs ++ add) /\ sought s from ts add /\
    rranged s s' /\ rs_level_base s' = rs_level_base s.
Proof.
  intros Hli Hfl. induction ts as [|t ts IH]; intros s ms rs Hs Hts Hroom Hceil; cbn [seek_tables_rev].
  { exists s, []. rewrite app_nil_r. split_and!; [apply sruns_ret | done | apply sought_nil | done | done]. }
  cbn [length] in Hroom. assert (t ∈ tables (db_manifest db)) as Ht by (apply Hts; left).
  destruct (rpruned s from t) eqn:Ep.
  - destruct (IH s ms rs Hs) as (s' & add & Hrun & Hs' & Hso & Hrg & Hlb); [intros; apply Hts; by right | lia | done |]. exists s', add. split_and!; auto.
    + apply sruns_get_seq. unfold rpruned in Ep. rewrite Ep. exact Hrun.
    + apply (sought_app s from [t] ts [] add); [| done]. split; [cbn; lia | by intros ? ? ?%not_elem_of_nil |].
      intros t' ->%list_elem_of_singleton Hp. congruence.
  - destruct (radd_table li s ms rs from t Hs Hli ltac:(lia) Ht Hfl Hceil) as (s1 & a1 & Hrun1 & Hs1 & Hso1 & Hrg1 & Hlb1).
    pose proof (so_len _ _ _ _ Hso1) as Hl1. cbn in Hl1.
    destruct (IH s1 ms _ Hs1) as (s' & add & Hrun & Hs' & Hso & Hrg & Hlb);
      [intros; apply Hts; by right | rewrite (rg_rpool _ _ Hrg1), length_app; lia | by rewrite (rg_rceil _ _ Hrg1) |].
    exists s', (a1 ++ add). split_and!; [| by rewrite app_assoc | | by etrans | congruence].
    + apply sruns_get_seq. unfold rpruned in Ep. rewrite Ep. by eapply sruns_seq.
    + apply (sought_app s from [t] ts a1 add); [done |]. by eapply sought_ranged.
Qed.

Lemma rseeking_level li s ms rs : rseeking li s ms rs -> (li < LEVELS)%nat ->
  rseeking (S li) (rev_with_cursors s (rs_cursors s) (rs_cursor_counts s) (<[li := length rs]> (rs_level_base s))) ms rs.
Proof.
  intros [] Hli. split; auto.
  - by eapply rmem_same.
  - cbn. by rewrite length_insert.
  - intros l Hl Hl'. cbn. rewrite nth_lookup. destruct (decide (l = li)) as [-> | Hne].
    + rewrite list_lookup_insert_eq by lia. cbn. by rewrite <- rq_total0, (sum_upto _ li).
    + rewrite list_lookup_insert_ne, <- nth_lookup by done. apply rq_base0; lia.
  - intros l Hl. apply rq_zero0. lia.
Qed.

Abbreviation levels_from li n := (concat (map (level_refs (db_manifest db)) (List.seq li n))).

Lemma rseek_levels_step from : (length from <= KEY_MAX)%nat -> forall n li s ms rs,
  (li + n = LEVELS)%nat -> rseeking li s ms rs -> (forall t, t ∈ levels_from li n -> t ∈ tables (db_manifest db)) ->
  (length rs + length (levels_from li n) <= length (rs_cursors s))%nat -> (from <> [] -> ceil_bound s = from) ->
  exists s' add, sruns (seek_levels_rev KEY_MAX LEVELS db n li (length rs) from) s s' (Ok tt) /\ rstanding s' ms (rs ++ add) /\
    sought s from (levels_from li n) add /\ rranged s s'.
Proof.
  intros Hfl. induction n as [|n IH]; intros li s ms rs Hln Hs Hts Hroom Hceil; cbn [seek_levels_rev List.seq map concat].
  { exists s, []. rewrite app_nil_r. assert (li = LEVELS) as -> by lia. split_and!; [apply sruns_ret | | apply sought_nil | done].
    destruct Hs. split; auto. }
  cbn [List.seq map concat] in Hts, Hroom. rewrite length_app in Hroom. set (ts := level_refs (db_manifest db) li) in *.
  pose proof (rseeking_level li s ms rs Hs ltac:(lia)) as Hs0. set (s0 := rev_with_cursors _ _ _ _) in *.
  assert (rranged s s0) as Hrg0 by done.
  destruct (rseek_tables_step from li ltac:(lia) Hfl ts s0 ms rs Hs0) as (s1 & a1 & Hrun1 & Hs1 & Hso1 & Hrg1 & Hlb1).
  { intros t Ht. apply Hts, elem_of_app. by left. }
  { cbn. lia. }
  { done. }
  pose proof (so_len _ _ _ _ Hso1) as Hl1.
  destruct (IH (S li) s1 ms (rs ++ a1) ltac:(lia) Hs1) as (s' & add & Hrun & Hs' & Hso & Hrg).
  { intros t Ht. apply Hts, elem_of_app. by right. }
  { rewrite (rg_rpool _ _ Hrg1), length_app. cbn. lia. }
  { rewrite (rg_rceil _ _ Hrg1). done. }
  exists s', (a1 ++ add). split_and!; [| by rewrite app_assoc | | by etrans; [exact Hrg0 | etrans]].
  - apply sruns_mod_seq. unfold level. rewrite (proj2 (Nat.leb_gt _ _)) by lia. cbn [default from_option id].
    eapply sruns_seq; [exact Hrun1 |]. apply sruns_get_seq. pose proof (rnext_slot li s1 ms _ Hs1 ltac:(lia)) as Hns.
    unfold rev_pool_idx in Hns. rewrite Hlb1 in Hns. cbn in Hns.
    rewrite nth_lookup, list_lookup_insert_eq in Hns by (rewrite (rq_bases _ _ _ _ Hs); lia). cbn in Hns. rewrite Hns, Nat.add_1_r. exact Hrun.
  - eapply sought_ranged; [exact Hrg0 |]. apply sought_app; [done |]. by eapply sought_ranged.
Qed.

(** ** The range *)

(** The buffers of a reverse scan, new or used. *)
Record rshaped (s : RevScan) : Prop := {
  rz_block : rbuffered s;
  rz_ceil : length (rs_ceil s) = KEY_MAX;
  rz_lower : length (rs_lower s) = KEY_MAX;
  rz_key : length (rs_mem_key s) = KEY_MAX;
  rz_val : length (rs_mem_val s) = VAL_MAX;
  rz_pool : length (rs_cursors s) = (LEVELS * TABLES)%nat;
  rz_bases : length (rs_level_base s) = LEVELS;
}.

(** The sources of a scan that has sought [from]. *)
Lemma sought_items s from rs x : sought s from (levels_from 0 LEVELS) rs -> ritems db (mem_upto (rs_max_seq s) from) rs x ->
  (exists e, e ∈ mem_upto (rs_max_seq s) from /\ x = mem_item db e) \/
  (exists t e, t ∈ tables (db_manifest db) /\ e ∈ table_upto (rs_max_seq s) from t /\ x = sst_item t e).
Proof.
  intros Hso (l & [-> | Hl]%elem_of_cons & Hx).
  - left. apply list_elem_of_fmap in Hx as (e & -> & He). eauto.
  - right. apply list_elem_of_fmap in Hl as ([t es] & -> & Hte). destruct (so_in _ _ _ _ Hso t es Hte) as [Ht ->].
    apply (elem_of_levels_from KEY_MAX VAL_MAX LEVELS TABLES CAP ARENA BLOOM_BYTES HB Hbloom db L contents Hsb) in Ht.
    unfold table_items in Hx. cbn [fst snd] in Hx. apply list_elem_of_fmap in Hx as (e & -> & He). eauto 10.
Qed.

Lemma mem_sought s from rs e : e ∈ mem_upto (rs_max_seq s) from -> ritems db (mem_upto (rs_max_seq s) from) rs (mem_item db e).
Proof. intros He. eexists. split; [left |]. apply list_elem_of_fmap. eauto. Qed.

Lemma table_sought s from rs t e : sought s from (levels_from 0 LEVELS) rs -> t ∈ tables (db_manifest db) -> rpruned s from t = false ->
  e ∈ table_upto (rs_max_seq s) from t -> ritems db (mem_upto (rs_max_seq s) from) rs (sst_item t e).
Proof.
  intros Hso Ht Hp He. exists (table_items (t, table_upto (rs_max_seq s) from t)).
  split; [| unfold table_items; apply list_elem_of_fmap; eauto].
  right. apply list_elem_of_fmap. eexists. split; [reflexivity |]. apply (so_all _ _ _ _ Hso); [| done |].
  - by apply (elem_of_levels_from KEY_MAX VAL_MAX LEVELS TABLES CAP ARENA BLOOM_BYTES HB Hbloom db L contents Hsb).
  - intros E0. rewrite E0 in He. by apply not_elem_of_nil in He.
Qed.

Lemma table_upto_spec mx from t e : e ∈ table_upto mx from t <->
  e ∈ (contents t).1 /\ (se_seq e <= mx)%Z /\ bound_ok (seek_bound from) (se_key e) = true /\ bytes_le (as_slice (Manifest.first_key t)) (se_key e).
Proof.
  unfold table_upto. rewrite list_elem_of_In, filter_In, <- list_elem_of_In. unfold qual. rewrite !andb_true_iff, Z.leb_le, bytes_leb_spec. tauto.
Qed.

Lemma mem_upto_spec mx from e : e ∈ mem_upto mx from <->
  e ∈ mem /\ range_del e = false /\ (Memtable.seq e <= mx)%Z /\ bound_ok (seek_bound from) (Memtable.key e) = true.
Proof.
  unfold mem_upto. rewrite list_elem_of_In, filter_In, <- list_elem_of_In. unfold mem_vis. rewrite !andb_true_iff, Z.leb_le, negb_true_iff. tauto.
Qed.

(** What a bound of [from] takes. *)
Lemma seek_bound_spec from k : bound_ok (seek_bound from) k = true <-> from = [] \/ bytes_le k from.
Proof.
  destruct from as [|b from]; [cbn; tauto |]. change (seek_bound (b :: from)) with (Some (b :: from, true)). cbn [bound_ok andb].
  rewrite orb_true_iff, bytes_ltb_spec, bytes_eqb_spec, bytes_le_lteq. split; [tauto |]. by intros [? | ?].
Qed.

Lemma not_rpruned s from t k : (from <> [] -> ceil_bound s = from) -> bound_ok (seek_bound from) k = true -> above s k -> covers t k = true ->
  rpruned s from t = false.
Proof.
  intros Hceil Hk%seek_bound_spec Ha Hc. unfold covers in Hc. apply andb_true_iff in Hc as [Hf%bytes_leb_spec Hl%bytes_leb_spec]. unfold rpruned.
  apply orb_false_iff. split; apply andb_false_iff.
  - destruct Hk as [-> | Hk]; [by left |]. destruct from as [|b from]; [by left |]. right. rewrite Hceil by done. apply bytes_ltb_ge. by etrans.
  - destruct (rs_has_lower s) eqn:Eh; [right | by left]. apply bytes_leb_gt. eapply bytes_lt_le_trans; [by apply Ha | done].
Qed.

(** The sources hold every version of the keys of the range. *)
Lemma rsought_frontier s s' from rs : rstanding s' (mem_upto (rs_max_seq s) from) rs -> sought s from (levels_from 0 LEVELS) rs -> rranged s s' ->
  (from <> [] -> ceil_bound s = from) ->
  at_frontier KEY_MAX VAL_MAX LEVELS BLOOM_BYTES db L contents (fun k => bound_ok (seek_bound from) k = true)
    (length (concat (rsources db (mem_upto (rs_max_seq s) from) rs))) s' (mem_upto (rs_max_seq s) from) rs.
Proof.
  intros Hst Hso Hrg Hceil. pose proof (rb_mem _ _ _ _ _ _ _ _ _ _ (sb_read _ _ _ _ _ _ _ _ _ _ Hsb)) as Hw.
  split_and!; [done | | | | done | apply List.filter_length_le].
  - apply Forall_forall. intros l [-> | Hl]%elem_of_cons.
    + apply (kept_mem_order BLOOM_BYTES HB Hbloom db); [apply (wf_sorted _ _ _ Hw) | apply (sb_seqs _ _ _ _ _ _ _ _ _ _ Hsb)].
    + apply list_elem_of_fmap in Hl as ([t es] & -> & Hte). destruct (so_in _ _ _ _ Hso t es Hte) as [Ht ->].
      apply (kept_table_order KEY_MAX VAL_MAX LEVELS TABLES CAP ARENA BLOOM_BYTES HB Hbloom db L contents Hsb).
      by apply (elem_of_levels_from KEY_MAX VAL_MAX LEVELS TABLES CAP ARENA BLOOM_BYTES HB Hbloom db L contents Hsb).
  - intros x Hx. apply (sought_items s from rs x Hso) in Hx as [(e & He%mem_upto_spec & ->) | (t & e & Ht & He%table_upto_spec & ->)]; cbn.
    + split; [tauto |]. pose proof (sb_keys _ _ _ _ _ _ _ _ _ _ Hsb) as Hks. rewrite Forall_forall in Hks. apply Hks. tauto.
    + split; [tauto |]. apply (sb_span _ _ _ _ _ _ _ _ _ _ Hsb t e Ht). tauto.
  - intros k Hk Ha h. rewrite (rg_rmx _ _ Hrg). unfold above in Ha. rewrite (rg_rhas _ _ Hrg), (rg_rlower _ _ Hrg) in Ha. split.
    + intros [e He (<- & Hr & Hq) | t e Ht Hc He <- Hq].
      * apply (mem_sought s from rs e). by apply mem_upto_spec.
      * apply (table_sought s from rs t e Hso Ht); [by apply (not_rpruned s from t (se_key e)) |]. apply table_upto_spec.
        unfold covers in Hc. rewrite andb_true_iff, bytes_leb_spec in Hc. tauto.
    + intros Hx. apply (sought_items s from rs _ Hso) in Hx as [(e & He%mem_upto_spec & Heq) | (t & e & Ht & He%table_upto_spec & Heq)]; injection Heq as -> ->.
      * destruct He as (He & Hr & Hq & _). by constructor.
      * destruct He as (He & Hq & _ & Hfk). constructor; auto. unfold covers. apply andb_true_iff.
        split; apply bytes_leb_spec; [done |]. by apply (sb_span _ _ _ _ _ _ _ _ _ _ Hsb t e Ht He).
Qed.
(** What the range's fields hold after a seek. *)
Lemma sought_ceil s from : length (rs_ceil s) = KEY_MAX -> (length from <= KEY_MAX)%nat -> from <> [] ->
  take (length from) (match from with [] => rs_ceil s | _ => splice 0 from (rs_ceil s) end) = from.
Proof. intros Hl Hf Hne. destruct from; [done |]. apply take_splice_front. lia. Qed.

Lemma no_counts l : nth l (replicate LEVELS 0%nat) 0%nat = 0%nat.
Proof.
  destruct (nth_in_or_default l (replicate LEVELS 0%nat) 0%nat) as [Hin | ->]; [| done]. apply list_elem_of_In in Hin.
  by apply elem_of_replicate in Hin as [-> _].
Qed.

(** [seek_prev]: the scan is after every key of the range. *)
Lemma rseek_step s from lower mx now :
  rshaped s -> (length from <= KEY_MAX)%nat -> (forall l, lower = Some l -> (length l <= KEY_MAX)%nat) ->
  exists s' N, sruns (seek_prev_with_time KEY_MAX VAL_MAX LEVELS db from lower mx now) s s' (Ok tt) /\
    rfrontier KEY_MAX VAL_MAX LEVELS BLOOM_BYTES db L contents (fun k => bound_ok (seek_bound from) k = true) N s' /\
    rs_max_seq s' = mx /\ rs_now s' = now /\ (forall k, above s' k <-> forall l, lower = Some l -> bytes_lt l k).
Proof.
  intros Hsh Hf Hlow. set (lb := match lower with Some l => splice 0 l (rs_lower s) | None => rs_lower s end).
  set (ll := match lower with Some l => length l | None => 0%nat end). set (hl := match lower with Some _ => true | None => false end).
  set (s0 := rev_with_range s (match from with [] => rs_ceil s | _ => splice 0 from (rs_ceil s) end) (length from) lb ll hl mx now).
  set (s1 := rev_with_mem s0 (mem_start_rev db from) (rs_mem_live s0)).
  destruct (seek_mem_step s1 from eq_refl (rz_key _ Hsh) (rz_val _ Hsh)) as (s2 & Hrun2 & Hms2 & [Hkp2 Hc2 Hb2 Hi2]).
  change (rs_max_seq s1) with mx in Hms2.
  set (s3 := rev_with_cursors s2 (rs_cursors s2) (replicate LEVELS 0%nat) (rs_level_base s2)).
  assert (rs_max_seq s3 = mx) as Hmx3 by apply (rk_mx _ _ Hkp2).
  assert (from <> [] -> ceil_bound s3 = from) as Hceil.
  { intros Hne. change (ceil_bound s3) with (ceil_bound s2). rewrite (rk_ceil _ _ Hkp2). by apply sought_ceil; [apply (rz_ceil _ Hsh) | |]. }
  assert (rseeking 0 s3 (mem_upto mx from) []) as Hsk.
  { split; cbn; try lia; auto using no_counts.
    - unfold ScanRevPark.rbuffered. cbn. rewrite Hb2, Hi2. apply (rz_block _ Hsh).
    - by eapply rmem_same.
    - by rewrite length_replicate.
    - rewrite (rk_base _ _ Hkp2). apply (rz_bases _ Hsh).
    - rewrite (sum_upto _ 0) by auto using no_counts. by rewrite take_0.
    - by intros j t es ?. }
  destruct (rseek_levels_step from Hf LEVELS 0 s3 _ [] ltac:(lia) Hsk) as (s' & rs & Hrun & Hst & Hso & Hrg); [| | done |].
  { intros t Ht. by apply (elem_of_levels_from KEY_MAX VAL_MAX LEVELS TABLES CAP ARENA BLOOM_BYTES HB Hbloom db L contents Hsb). }
  { cbn [length]. change (rs_cursors s3) with (rs_cursors s2). rewrite Hc2. change (rs_cursors s1) with (rs_cursors s).
    rewrite (rz_pool _ Hsh). pose proof (levels_room KEY_MAX VAL_MAX LEVELS TABLES CAP ARENA BLOOM_BYTES HB Hbloom db L contents Hsb). lia. }
  exists s'. eexists. split_and!; [| eexists _, _; eapply (rsought_frontier s3 s' from rs); [by rewrite Hmx3 | done..] | | |].
  - unfold seek_prev_with_time, ensure_open. rewrite (rb_open _ _ _ _ _ _ _ _ _ _ (sb_read _ _ _ _ _ _ _ _ _ _ Hsb)).
    rewrite (proj2 (Nat.ltb_ge _ _)) by lia. cbv zeta.
    assert (forall f, f s = s0 -> sruns (let# _ := smod f in let# _ := smod (fun s => rev_with_mem s (mem_start_rev db from) (rs_mem_live s)) in
      let# _ := advance_mem_rev (E := E) KEY_MAX VAL_MAX db in let# _ := smod (fun s => rev_with_cursors s (rs_cursors s) (replicate LEVELS 0%nat) (rs_level_base s)) in
      seek_levels_rev KEY_MAX LEVELS db LEVELS 0 0 from) s s' (Ok tt)) as Hgo.
    { intros f Hfs. apply sruns_mod_seq. rewrite Hfs. apply sruns_mod_seq. eapply sruns_seq; [exact Hrun2 |]. apply sruns_mod_seq. exact Hrun. }
    destruct lower as [l |]; [| by apply Hgo]. rewrite (proj2 (Nat.ltb_ge _ _)) by (specialize (Hlow l eq_refl); lia). by apply Hgo.
  - rewrite (rg_rmx _ _ Hrg). exact Hmx3.
  - rewrite (rg_rnow _ _ Hrg). apply (rk_now _ _ Hkp2).
  - intros k. unfold above. rewrite (rg_rhas _ _ Hrg), (rg_rlower _ _ Hrg). change (rs_has_lower s3) with (rs_has_lower s2).
    change (lower_bound_of s3) with (lower_bound_of s2). rewrite (rk_has _ _ Hkp2), (rk_lower _ _ Hkp2).
    change (rs_has_lower s1) with hl. change (lower_bound_of s1) with (take ll lb). unfold hl, ll, lb.
    destruct lower as [l |]; [| split; done]. rewrite take_splice_front by (rewrite (rz_lower _ Hsh); by apply Hlow).
    split; [intros Hk ? [= <-]; auto | auto].
Qed.

(** ** Draining *)

(** A caller's loop: [prev] until the end, the entries in the order they come. *)
Fixpoint rdrain (fuel : nat) (kb vb : bytes) : cstm RevScan E (list (bytes * bytes)) :=
  match fuel with
  | O => spanic
  | S fuel =>
      let# r := prev KEY_MAX VAL_MAX LEVELS db kb vb in
      match r with
      | None => sret []
      | Some (kl, vl, kb, vb) =>
          let# l := rdrain fuel kb vb in
          sret ((take kl kb, take vl vb) :: l)
      end
  end.

(** The entries of [F] above the lower bound, in descending key order and once each. *)
Record rlisting (F : bytes -> Prop) (s : RevScan) (kvs : list (bytes * bytes)) : Prop := {
  lr_sorted : StronglySorted (fun a b => bytes_lt b.1 a.1) kvs;
  lr_shown : forall k v, (k, v) ∈ kvs -> F k /\ above s k /\ rshown (E := E) db contents s k v;
  lr_all : forall k, F k -> above s k -> k ∈ kvs.*1 \/ rhidden (E := E) db contents s k;
}.

Lemma rdrain_step : forall fuel F N s kb vb,
  rfrontier KEY_MAX VAL_MAX LEVELS BLOOM_BYTES db L contents F N s -> (N < fuel)%nat -> (KEY_MAX <= length kb)%nat -> (VAL_MAX <= length vb)%nat ->
  exists s' kvs, sruns (rdrain fuel kb vb) s s' (Ok kvs) /\ rlisting F s kvs.
Proof.
  induction fuel as [|fuel IH]; intros F N s kb vb Hf HN Hkb Hvb; [lia |]. cbn [rdrain].
  destruct (prev_step KEY_MAX VAL_MAX LEVELS TABLES CAP ARENA BLOOM_BYTES HB Hbloom db L contents Hrv F N s kb vb Hf)
    as (s1 & r & Hrun & Hkp & F' & N' & Hf' & HN' & Hsub & Hr).
  destruct r as [[[[[kl vl] kb'] vb'] |] | e].
  - destruct Hr as (k & v & HFk & Hbk & Hsh & Hlt & Hbelow & Hrest & -> & -> & Hkl & Hvl & -> & ->).
    destruct (IH F' N' s1 (splice 0 k kb) (splice 0 v vb) Hf' ltac:(lia)) as (s' & kvs & Hrun' & [Hso Hin Hall]);
      [rewrite length_splice; lia | rewrite length_splice; lia |].
    exists s', ((k, v) :: kvs). split.
    + eapply sruns_seq; [exact Hrun |]. cbn beta iota. eapply sruns_seq; [exact Hrun' |].
      rewrite !take_splice_front by lia. apply sruns_ret.
    + split.
      * constructor; [done |]. apply Forall_forall. intros [k' v'] Hk'. by apply Hbelow, (Hin k' v').
      * intros k' v' [[= -> ->] | Hk']%elem_of_cons; [done |]. destruct (Hin k' v' Hk') as (HF' & Hb' & Hs').
        rewrite (rkept_above _ _ _ Hkp) in Hb'. rewrite (rkept_shown _ _ _ _ _ _ Hkp) in Hs'. auto.
      * intros k' HF' Hb'. cbn. rewrite elem_of_cons. destruct (Hrest k' HF' Hb') as [HF1 | [-> | Hh]]; auto.
        rewrite <- (rkept_above _ _ _ Hkp) in Hb'. destruct (Hall k' HF1 Hb') as [? | Hh]; auto.
        rewrite (rkept_hidden _ _ _ _ _ Hkp) in Hh. auto.
  - exists s1, []. split; [eapply sruns_seq; [exact Hrun | apply sruns_ret] |].
    split; [constructor | by intros ? ? ?%not_elem_of_nil | auto].
  - exfalso. destruct Hr as (k & v & n & _ & _ & Hsh & _ & _ & _ & Hn).
    apply (read_fits KEY_MAX VAL_MAX LEVELS TABLES CAP ARENA BLOOM_BYTES db L contents Hsb) in Hsh. lia.
Qed.
End seeking.
