(* ===== verification/ScanRevSpec.v ===== *)
(** * What a reverse scan lists

    The whole listing of a reverse scan against the specification of reads, on any
    well-formed handle and on every handle a life of the database reaches. *)

From stdpp Require Import base numbers list sets sorting gmap.
From Stdlib Require Import ZArith Lia Sorting.Sorted.
From S2P Require Import Prelude Device Model Compress Version Slots Cache Batch Memtable Wal Manifest ManifestPool ManifestEdit ManifestCodec ManifestLog ManifestCrash SstPlan SstWriter SstReader SstBlock SstImage SstIndex SstRdel SstTable SstBuild Db DbWrite DbOpen DbLayout DbRead DbFlush DbFlushSafe DbFlushKeeps DbLife Scan ScanPark ScanMerge ScanSeek ScanSpec ScanRev ScanRevBlock ScanRevPark ScanRevMerge ScanRevSeek.

(** A key of the range, which is closed above and open below; an empty [from] sets no
    ceiling. *)
Definition in_range_rev (from : bytes) (lower : option bytes) (k : bytes) : Prop :=
  (from = [] \/ bytes_le k from) /\ forall l, lower = Some l -> bytes_lt l k.

Section listing.
  Context {D E : Type} `{Laws : DeviceLaws D E}.
  Context (KEY_MAX VAL_MAX LEVELS TABLES CAP ARENA BLOOM_BYTES : nat).
  Context (HB : (49 <= BLOCK)%nat) (Hbloom : (BLOOM_BYTES + CRC_LEN <= BLOCK)%nat).
  Context (db : Db D) (L : u32 -> u64 -> Prop) (contents : TableRef -> Contents).
  Context (Hrv : rev_scannable KEY_MAX VAL_MAX LEVELS TABLES CAP ARENA BLOOM_BYTES db L contents).

Lemma rev_new_shaped : rshaped KEY_MAX VAL_MAX LEVELS TABLES BLOOM_BYTES db L contents (rev_new (D := D) (E := E) KEY_MAX VAL_MAX LEVELS TABLES).
Proof. split; cbn; try by rewrite length_replicate. split; [cbn; by rewrite length_replicate | done]. Qed.

(** What a point read of [k] answers into a buffer. *)
Abbreviation answers k mx now buf r :=
  (reads (E := E) (db_point db contents k mx) (db_cover db contents k mx) now buf r).

Lemma rev_scan_lists s from lower mx now kb vb c :
  rshaped KEY_MAX VAL_MAX LEVELS TABLES BLOOM_BYTES db L contents s -> (length from <= KEY_MAX)%nat ->
  (forall l, lower = Some l -> (length l <= KEY_MAX)%nat) -> (KEY_MAX <= length kb)%nat -> (VAL_MAX <= length vb)%nat ->
  truthful (device (db_wal db)) L c ->
  exists fuel s' c' kvs,
    (let# _ := seek_prev_with_time KEY_MAX VAL_MAX LEVELS db from lower mx now in rdrain KEY_MAX VAL_MAX LEVELS db fuel kb vb) s c = Some (s', c', Ok kvs) /\
    StronglySorted (fun a b => bytes_lt b.1 a.1) kvs /\
    (forall k v, (k, v) ∈ kvs -> in_range_rev from lower k /\ answers k mx now (replicate (length v) 0%Z) (Ok (Some (length v), v))) /\
    (forall k, in_range_rev from lower k -> k ∉ kvs.*1 -> answers k mx now [] (Ok (None, []))).
Proof.
  intros Hs Hf Hl Hkb Hvb Hc.
  destruct (rseek_step KEY_MAX VAL_MAX LEVELS TABLES CAP ARENA BLOOM_BYTES HB Hbloom db L contents Hrv s from lower mx now Hs Hf Hl)
    as (s1 & N & Hrun1 & Hfr & Emx & Enow & Habove).
  destruct (rdrain_step KEY_MAX VAL_MAX LEVELS TABLES CAP ARENA BLOOM_BYTES HB Hbloom db L contents Hrv (S N) _ N s1 kb vb Hfr ltac:(lia) Hkb Hvb)
    as (s' & kvs & Hrun2 & [Hso Hin Hall]).
  destruct (sruns_seq _ L _ (fun _ => rdrain KEY_MAX VAL_MAX LEVELS db (S N) kb vb) _ _ _ _ _ Hrun1 Hrun2 c Hc) as (c' & Em & _ & _).
  exists (S N), s', c', kvs. unfold rshown, rhidden in *. rewrite Emx, Enow in *. split_and!; [exact Em | done | |].
  - intros k v Hk. destruct (Hin k v Hk) as (Hok%seek_bound_spec & Hb & ?). rewrite Habove in Hb. done.
  - intros k [Hk%seek_bound_spec Hb] Hno. apply Habove in Hb. destruct (Hall k Hk Hb) as [? | ?]; done.
Qed.
End listing.

(** ** A living database *)

Section living.
  Context {D E : Type} `{Laws : DeviceLaws D E}.
  Context (KEY_MAX VAL_MAX CAP ARENA LEVELS TABLES BLOOM_BYTES : nat).
  Context (Hsh : table_shape (D := D) (E := E) KEY_MAX VAL_MAX CAP ARENA LEVELS TABLES BLOOM_BYTES).

Lemma fmap_unique {A B} (f : A -> B) l x y : NoDup (f <$> l) -> x ∈ l -> y ∈ l -> f x = f y -> x = y.
Proof.
  intros Hn [i Hi]%list_elem_of_lookup [j Hj]%list_elem_of_lookup Hf. assert (i = j) as ->; [| congruence].
  apply (NoDup_lookup (f <$> l) i j (f x)); [done | |]; by rewrite list_lookup_fmap, ?Hi, ?Hj; cbn; rewrite ?Hf.
Qed.

(** Tables sit in slots of their own. *)
Lemma sound_apart db base bs tlog contents t t' id :
  sound KEY_MAX VAL_MAX CAP ARENA LEVELS TABLES BLOOM_BYTES db base bs tlog contents ->
  t ∈ tables (db_manifest db) -> t' ∈ tables (db_manifest db) ->
  (first_block t <= id < end_block t)%Z -> (first_block t' <= id < end_block t')%Z -> t = t'.
Proof.
  intros Hs Ht Ht' Hid Hid'.
  destruct (table_span Hs Ht) as (s & Es & _ & _ & Hlo & Hhi & _).
  destruct (table_span Hs Ht') as (s' & Es' & _ & _ & Hlo' & Hhi' & _).
  pose proof (wf_blocks _ (proj1 (sd_slots Hs))) as Hbp. unfold slot_base in *.
  assert (s = s') as -> by nia. apply (fmap_unique (db_slot_of db) (tables (db_manifest db))); [apply (sd_sits Hs) | done | done | congruence].
Qed.

Lemma living_rev_scannable db h : living KEY_MAX VAL_MAX CAP ARENA LEVELS TABLES BLOOM_BYTES db h ->
  exists L contents, rev_scannable KEY_MAX VAL_MAX LEVELS TABLES CAP ARENA BLOOM_BYTES db L contents /\ tells db contents h.
Proof.
  intros (base & bs & tlog & contents & Hs & Hsb & Ht)%(living_sound _ _ _ _ _ _ _ Hsh). eexists _, contents. split; [| exact Ht].
  split; [exact Hsb | apply (sd_unique Hs) |]. intros. by eapply sound_apart.
Qed.
End living.

(** C3 A reverse scan lists exactly the model's live keys.  On every handle a life of the
    database reaches, a new reverse scan that seeks any range, closed above at a key or
    from the last one and open below, at any snapshot and time succeeds, and calling
    [prev] until it answers the end terminates: with key and value buffers of the maximal
    lengths the calls return, in strictly descending key order and each once, exactly the
    pairs of a key of the range and the value the reference model shows for it in the
    history of accepted mutations, wherever the versions of a key begin: in a memtable
    run, in the blocks before the one a cursor stands in, or in several tables. *)
Theorem rev_scan_refines_model {D E} `{Dev : !BlockDevice D E} {Laws : DeviceLaws D E}
  (KEY_MAX VAL_MAX CAP ARENA LEVELS TABLES BLOOM_BYTES : nat) (db : Db D) h from lower mx now kb vb
  (Hsh : table_shape (D := D) (E := E) KEY_MAX VAL_MAX CAP ARENA LEVELS TABLES BLOOM_BYTES)
  (Hl : life KEY_MAX VAL_MAX CAP ARENA LEVELS TABLES BLOOM_BYTES db h)
  (Hf : (length from <= KEY_MAX)%nat) (Hlow : forall l, lower = Some l -> (length l <= KEY_MAX)%nat)
  (Hkb : (KEY_MAX <= length kb)%nat) (Hvb : (VAL_MAX <= length vb)%nat) :
  exists fuel s' c' kvs,
    (let# _ := seek_prev_with_time (E := E) KEY_MAX VAL_MAX LEVELS db from lower mx now in rdrain KEY_MAX VAL_MAX LEVELS db fuel kb vb)
      (rev_new (D := D) (E := E) KEY_MAX VAL_MAX LEVELS TABLES) (Some (mkCell (db_cache db) false)) = Some (s', c', Ok kvs) /\
    StronglySorted (fun a b => bytes_lt b.1 a.1) kvs /\
    forall k v, (k, v) ∈ kvs <->
      in_range_rev from lower k /\ spec_read (E := E) h k (replicate (length v) 0%Z) mx now = Ok (Some (length v), v).
Proof.
  pose proof (life_living _ _ _ _ _ _ _ Hsh db h Hl) as Hlv.
  destruct (living_rev_scannable _ _ _ _ _ _ _ Hsh db h Hlv) as (L & contents & Hrv & Ht).
  pose proof (sh_block (ts_db Hsh)) as Hb. assert (HB : (49 <= BLOCK)%nat) by lia.
  destruct (rev_scan_lists KEY_MAX VAL_MAX LEVELS TABLES CAP ARENA BLOOM_BYTES HB (ts_bloom Hsh) db L contents Hrv
    (rev_new (D := D) (E := E) KEY_MAX VAL_MAX LEVELS TABLES) from lower mx now kb vb _ (rev_new_shaped _ _ _ _ _ _ _ _) Hf Hlow Hkb Hvb
    (rb_cache _ _ _ _ _ _ _ _ _ _ (sb_read _ _ _ _ _ _ _ _ _ _ (rv_scan _ _ _ _ _ _ _ _ _ _ Hrv)))) as (fuel & s' & c' & kvs & Em & Hso & Hv & Hn).
  pose proof (fun k buf r => living_answers _ _ _ _ _ _ _ db contents h k buf mx now r Hlv Ht) as Hans.
  exists fuel, s', c', kvs. split_and!; [exact Em | exact Hso |]. intros k v. split.
  - intros Hk. destruct (Hv k v Hk) as [Hr Ha]. split; [done |]. symmetry. by apply Hans.
  - intros [Hr Ha]. destruct (spec_read_one h k v mx now (lv_history _ _ _ _ _ _ _ _ _ Hlv) Ha) as [Hne Hone].
    destruct (decide (k ∈ kvs.*1)) as [([k' v'] & -> & Hk)%list_elem_of_fmap | Hno].
    + rewrite <- (Hone v'); [done |]. symmetry. by apply Hans, Hv.
    + destruct Hne. symmetry. by apply Hans, Hn.
Qed.

(** ** A table entry and a newer put, listed from the end *)

Module RevScanWitness.
Import LifeWitness ScanWitness.
#[local] Existing Instance LifeWitness.dev.
#[local] Existing Instance LifeWitness.dev_laws.

(** Both keys are listed, one from the table and one from the memtable; the lower bound
    itself is not in the range. *)
Lemma rev_scan_refines_model_witness :
  exists fuel s' c' kvs,
    (let# _ := seek_prev_with_time (E := Empty_set) 4 4 2 sw_db [98%Z] (Some [96%Z]) 9 0 in rdrain 4 4 2 sw_db fuel sw_buf sw_buf)
      (rev_new (D := MemDisk.disk) (E := Empty_set) 4 4 2 2) (Some (mkCell (db_cache sw_db) false)) = Some (s', c', Ok kvs) /\
    ([98%Z], [2%Z; 2%Z]) ∈ kvs /\ ([97%Z], [1%Z]) ∈ kvs /\ ([97%Z], [3%Z]) ∉ kvs.
Proof.
  destruct (rev_scan_refines_model (E := Empty_set) 4 4 8 64 2 2 8 sw_db sw_history [98%Z] (Some [96%Z]) 9 0 sw_buf sw_buf
    lf_shape sw_life) as (fuel & s' & c' & kvs & Em & _ & Hall);
    [cbn; lia | intros l [= <-]; cbn; lia | cbn; lia | cbn; lia |].
  exists fuel, s', c', kvs. split; [exact Em |]. split_and!.
  - apply Hall. split; [split; [right; by_compute | intros l [= <-]; by_compute] | vm_compute; reflexivity].
  - apply Hall. split; [split; [right; by_compute | intros l [= <-]; by_compute] | vm_compute; reflexivity].
  - intros [_ Hx]%Hall. vm_compute in Hx. discriminate.
Defined.
End RevScanWitness.
