(* ===== verification/Steps.v ===== *)
(** * Stateful computations

    The merge engine threads cursors, mergers and a writer through calls that may fail
    or, outside their contract, panic.  A computation takes a state to a state and a
    result; [None] is a panic.  On an error the state is the one reached. *)

From stdpp Require Import base list.
From Stdlib Require Import Lia.
From S2P Require Import Prelude Device.

Definition stm (S E A : Type) : Type := S -> option (S * result A (Error E)).

Definition st_ret {S E A} (a : A) : stm S E A := fun s => Some (s, Ok a).
Definition st_fail {S E A} (e : Error E) : stm S E A := fun s => Some (s, Err e).
Definition st_panic {S E A} : stm S E A := fun _ => None.
Definition st_get {S E} : stm S E S := fun s => Some (s, Ok s).
Definition st_mod {S E} (f : S -> S) : stm S E unit := fun s => Some (f s, Ok tt).
Definition st_pure {S E A} (r : result A (Error E)) : stm S E A := fun s => Some (s, r).
Definition st_bind {S E A B} (m : stm S E A) (f : A -> stm S E B) : stm S E B := fun s =>
  match m s with
  | None => None
  | Some (s, Err e) => Some (s, Err e)
  | Some (s, Ok a) => f a s
  end.

(** A computation on a part of the state. *)
Definition st_zoom {S T E A} (get : S -> T) (put : T -> S -> S) (m : stm T E A) : stm S E A := fun s =>
  match m (get s) with
  | None => None
  | Some (t, r) => Some (put t s, r)
  end.

Notation "'let@' x := m 'in' k" := (st_bind m (fun x => k))
  (at level 10, x pattern, m at level 200, k at level 200) : horton_scope.

(** ** Their runs *)

Section runs.
  Context {S E : Type}.

(** From [s], [m] reaches [s'] and returns [r]. *)
Definition st_runs {A} (m : stm S E A) (s s' : S) (r : result A (Error E)) : Prop := m s = Some (s', r).

Lemma st_runs_ret {A} (a : A) s : st_runs (st_ret a) s s (Ok a).
Proof. done. Qed.

Lemma st_runs_mod f s : st_runs (st_mod f) s (f s) (Ok tt).
Proof. done. Qed.

Lemma st_runs_pure {A} (r : result A (Error E)) s : st_runs (st_pure r) s s r.
Proof. done. Qed.

Lemma st_runs_seq {A B} (m : stm S E A) (f : A -> stm S E B) s s1 s2 a r :
  st_runs m s s1 (Ok a) -> st_runs (f a) s1 s2 r -> st_runs (st_bind m f) s s2 r.
Proof. unfold st_runs, st_bind. by intros ->. Qed.

Lemma st_runs_get {B} (f : S -> stm S E B) s s' r : st_runs (f s) s s' r -> st_runs (st_bind st_get f) s s' r.
Proof. done. Qed.

Lemma st_runs_mod_seq {B} g (f : unit -> stm S E B) s s' r :
  st_runs (f tt) (g s) s' r -> st_runs (st_bind (st_mod g) f) s s' r.
Proof. done. Qed.
End runs.

Lemma st_runs_zoom {S T E A} (get : S -> T) (put : T -> S -> S) (m : stm T E A) s t r :
  st_runs m (get s) t r -> st_runs (st_zoom get put m) s (put t s) r.
Proof. unfold st_runs, st_zoom. by intros ->. Qed.
