(* ===== verification/CompactCursor.v ===== *)
(** * The read cursors of a compaction: [src/compact.rs]

    A cursor walks the data blocks of one table, an entry at a time.  It reads the device
    directly: a merge streams each block once and leaves the cache alone.  A fixed array
    with a length is the list of its valid prefix, and the shared physical buffer, dead
    after each read, is omitted.  A failed inflate leaves the logical buffer half written
    in the source; here it is unchanged. *)

From stdpp Require Import base numbers list sets.
From Stdlib Require Import ZArith Lia Sorting.Sorted.
From S2P Require Import Prelude Device Steps Compress Cache Wal Manifest SstPlan SstWriter SstReader SstBlock SstImage SstIndex SstRdel SstTable SstBuild DbRead ScanPark ScanMerge.

Record Cursor := mkCur {
  cu_first_block : u64;
  cu_data_blocks : u64;
  cu_block_idx : u64;
  cu_block_id : u64;
  cu_block : bytes;
  cu_rstart : nat;
  cu_next : nat;
  cu_live : bool;
  cu_key : bytes;
  cu_val : bytes;
  cu_seq : u64;
  cu_tombstone : bool;
  cu_expire_at : u64;
}.

(** The head as an entry. *)
Definition cu_entry (c : Cursor) : SstEntry := mkSst (cu_key c) (cu_val c) (cu_seq c) (cu_tombstone c) (cu_expire_at c).

Definition cu_set_block (blk : bytes) (c : Cursor) : Cursor :=
  mkCur (cu_first_block c) (cu_data_blocks c) (cu_block_idx c) (cu_block_id c) blk (cu_rstart c) (cu_next c)
    (cu_live c) (cu_key c) (cu_val c) (cu_seq c) (cu_tombstone c) (cu_expire_at c).
Definition cu_set_at (id idx : u64) (rstart : nat) (c : Cursor) : Cursor :=
  mkCur (cu_first_block c) (cu_data_blocks c) idx id (cu_block c) rstart (cu_next c)
    (cu_live c) (cu_key c) (cu_val c) (cu_seq c) (cu_tombstone c) (cu_expire_at c).
Definition cu_set_live (live : bool) (c : Cursor) : Cursor :=
  mkCur (cu_first_block c) (cu_data_blocks c) (cu_block_idx c) (cu_block_id c) (cu_block c) (cu_rstart c) (cu_next c)
    live (cu_key c) (cu_val c) (cu_seq c) (cu_tombstone c) (cu_expire_at c).
Definition cu_set_head (e : ParsedDataEntry) (c : Cursor) : Cursor :=
  mkCur (cu_first_block c) (cu_data_blocks c) (cu_block_idx c) (cu_block_id c) (cu_block c) (cu_rstart c) (pd_next e)
    true (pd_key e) (pd_val e) (pd_seq e) (pd_tombstone e) (pd_expire_at e).

Section cursor.
  Context {D E : Type} `{Dev : !BlockDevice D E}.
  Context (KEY_MAX VAL_MAX : nat) (d : D).

Definition CURSOR_EMPTY : Cursor := mkCur 0 0 0 0 (replicate BLOCK 0%Z) 0 0 false [] [] 0 false 0.

(** A read with no cache at hand. *)
Definition uncached {S A} (m : cached E A) : stm S E A := fun s =>
  match m None with
  | None => None
  | Some (_, r) => Some (s, r)
  end.

Definition cu_read_data_block (idx : u64) : stm Cursor E unit :=
  let@ c := st_get in
  match u64_checked_add (cu_first_block c) idx with
  | None => st_fail (CorruptBlock (cu_first_block c))
  | Some id =>
      let@ (raw, inflated, dec) := uncached (SstReader.read_data_block d 0 id (cu_block c) false) in
      let@ _ := st_mod (cu_set_block (if inflated then dec else raw)) in
      let@ c := st_get in
      let@ rstart := st_pure (data_entries_end (E := E) (cu_block c) id) in
      if (rstart =? 0)%nat then st_fail (CorruptBlock id) else st_mod (cu_set_at id idx rstart)
  end.

Definition parse_head_at (off : nat) : stm Cursor E bool :=
  let@ c := st_get in
  match parse_data_entry (E := E) (cu_block c) off (cu_rstart c) (cu_block_id c) with
  | Err _ =>
      if (cu_rstart c <? off)%nat then st_panic
      else if all_zero (sub off (cu_rstart c - off) (cu_block c)) then st_ret false
      else st_fail (CorruptBlock (cu_block_id c))
  | Ok e =>
      if (KEY_MAX <? length (pd_key e))%nat then st_fail (KeyTooLarge (length (pd_key e)) KEY_MAX)
      else if (VAL_MAX <? length (pd_val e))%nat then st_fail (ValueTooLarge (length (pd_val e)) VAL_MAX)
      else
        let@ _ := st_mod (cu_set_head e) in
        st_ret true
  end.

Definition advance_cursor : stm Cursor E bool :=
  let@ c := st_get in
  let@ parked := if (cu_next c <? cu_rstart c)%nat then parse_head_at (cu_next c) else st_ret false in
  if parked then st_ret true
  else
    match u64_checked_add (cu_block_idx c) 1 with
    | None => st_fail (CorruptBlock (cu_block_id c))
    | Some idx =>
        if (cu_data_blocks c <=? idx)%Z then
          let@ _ := st_mod (cu_set_live false) in
          st_ret false
        else
          let@ _ := cu_read_data_block idx in
          let@ parked := parse_head_at 0 in
          if parked then st_ret true
          else
            let@ c := st_get in
            st_fail (CorruptBlock (cu_block_id c))
    end.

(** [while cur.live && key < floor] *)
Fixpoint skip_below (fuel : nat) (floor : bytes) : stm Cursor E unit :=
  match fuel with
  | O => st_panic
  | S fuel =>
      let@ c := st_get in
      if cu_live c && bytes_ltb (cu_key c) floor then
        let@ _ := advance_cursor in
        skip_below fuel floor
      else st_ret tt
  end.

(** [init_cursor] from the starting block on. *)
Definition start_cursor (floor : bytes) (start : u64) : stm Cursor E unit :=
  let@ _ := cu_read_data_block start in
  let@ parked := parse_head_at 0 in
  if parked then
    let@ c := st_get in
    skip_below (S (Z.to_nat (cu_data_blocks c) * BLOCK)) floor
  else
    let@ c := st_get in
    st_fail (CorruptBlock (cu_first_block c)).

Definition init_cursor (t : TableRef) : stm Cursor E unit :=
  let@ _ := st_mod (fun _ => mkCur (data_first t) 0 0 0 (replicate BLOCK 0%Z) 0 0 false [] [] 0 false 0) in
  match data_blocks t with
  | None => st_fail (CorruptBlock (first_block t))
  | Some blocks =>
      let@ _ := st_mod (fun _ => mkCur (data_first t) blocks 0 0 (replicate BLOCK 0%Z) 0 0 false [] [] 0 false 0) in
      if (blocks =? 0)%Z then st_ret tt
      else
        match footer_block t with
        | None => st_fail CorruptManifest
        | Some footer =>
            let@ index_id := uncached (footer_index_block d (t_id t) footer) in
            let@ raw := uncached (fetch d (t_id t) index_id true) in
            let@ _ := st_pure (check_block_crc raw index_id) in
            let@ hit := st_pure (index_lookup (E := E) (take (BLOCK - CRC_LEN) raw) (as_slice (Manifest.first_key t)) index_id) in
            let@ start :=
              match hit with
              | Some (id, _) =>
                  match u64_checked_sub id (data_first t) with
                  | Some i => if (i <? blocks)%Z then st_ret i else st_fail (CorruptBlock index_id)
                  | None => st_fail (CorruptBlock index_id)
                  end
              | None => st_ret 0%Z
              end in
            start_cursor (as_slice (Manifest.first_key t)) start
        end
  end.

(** ** [EntryStream] *)

Definition stream_open (t : TableRef) : option (Cursor * result unit (Error E)) := init_cursor t CURSOR_EMPTY.

Definition stream_head (c : Cursor) : option (bytes * u64 * bool) :=
  if cu_live c then Some (cu_key c, cu_seq c, cu_tombstone c) else None.

Definition stream_advance : stm Cursor E bool := advance_cursor.
End cursor.

(** ** What a cursor stands on *)

Section walk.
  Context {D E : Type} `{Laws : DeviceLaws D E}.
  Context (HB : (49 <= BLOCK)%nat) (KEY_MAX VAL_MAX BLOOM_BYTES : nat) (d : D).

  Abbreviation anywhere := (fun (_ : u32) (_ : u64) => True).

Lemma uncached_runs {S A} (m : cached E A) (s : S) r : yields d anywhere m r -> st_runs (uncached m) s s r.
Proof. intros Hy. destruct (Hy None I) as (c & Em & _). unfold st_runs, uncached. by rewrite Em. Qed.

(** The entry a reader sees of [e]: a tombstone carries no value and no expiry. *)
Definition seen (e : SstEntry) : SstEntry :=
  mkSst (se_key e) (se_stored e) (se_seq e) (se_tombstone e) (if se_ttl e then se_expire_at e else 0%Z).

Section table.
  Context (t : TableRef) (blks : list (list SstEntry)) (rbs : list (list RdelEntry)) (k : u8) (ec ms : u64).
  Context (Hon : table_on BLOOM_BYTES d (first_block t) blks rbs k ec ms).
  Context (Hfit : Forall (fun e => (length (se_key e) <= KEY_MAX /\ length (se_stored e) <= VAL_MAX)%nat) (concat blks)).

(** The cursor is in the block [es], the [p]-th, with [pre] behind its next offset. *)
Record in_block (c : Cursor) (p : nat) (es pre suf : list SstEntry) : Prop := {
  ib_first : cu_first_block c = first_block t;
  ib_blocks : cu_data_blocks c = Z.of_nat (length blks);
  ib_at : blks !! p = Some es;
  ib_split : es = pre ++ suf;
  ib_idx : cu_block_idx c = Z.of_nat p;
  ib_id : cu_block_id c = (first_block t + Z.of_nat p)%Z;
  ib_body : holds_body (cu_block c) es;
  ib_rstart : cu_rstart c = rstart_of es;
}.

(** It stands on [e], and [after] is left of the table. *)
Definition stands (c : Cursor) (e : SstEntry) (after : list SstEntry) : Prop :=
  exists p es pre suf, in_block c p es (pre ++ [e]) suf /\ cu_next c = payload_len (pre ++ [e]) /\
    cu_live c = true /\ cu_entry c = seen e /\ after = suf ++ concat (drop (S p) blks).

Lemma read_block_step c p es :
  cu_first_block c = first_block t -> cu_data_blocks c = Z.of_nat (length blks) -> length (cu_block c) = BLOCK -> blks !! p = Some es ->
  exists c', st_runs (cu_read_data_block d (Z.of_nat p)) c c' (Ok tt) /\ in_block c' p es [] es.
Proof.
  intros Hf Hd Hl Hp. destruct (to_data _ _ _ _ _ _ _ _ Hon p es Hp) as (Hw & x & Hx & Hi & Hr).
  pose proof (length_data_body es Hw) as Hbl. pose proof (lookup_lt_Some _ _ _ Hp) as Hlt. pose proof (to_end _ _ _ _ _ _ _ _ Hon) as Hend.
  destruct (inflate_image x (data_body es) (cu_block c) (first_block t + Z.of_nat p) ltac:(lia) Hx Hi Hbl Hl)
    as (infl & dec & Ei & Hdl & Ht).
  set (blk := if infl then dec else image x).
  assert (length blk = BLOCK) as Hbk by (unfold blk; destruct infl; [done | apply length_image; [unfold CRC_LEN; lia | done]]).
  assert (holds_body blk es) as Hh by (by split).
  destruct (rstart_bound HB es Hw) as [_ Hrs].
  eexists. split.
  - unfold cu_read_data_block. apply st_runs_get. rewrite Hf, u64_add_ok by lia. eapply st_runs_seq.
    + apply uncached_runs. unfold read_data_block. eapply yields_bind_ok; [apply yields_fetch_ok; [done | exact Hr] |].
      eapply yields_bind_ok; [rewrite image_checks by done; apply yields_pure |].
      eapply yields_bind_ok; [rewrite Ei; apply yields_pure |]. apply yields_ret.
    + apply st_runs_mod_seq. apply st_runs_get. cbn [fst snd cu_set_block cu_block]. fold blk. eapply st_runs_seq.
      { rewrite (held_end (E := E) HB blk es _ Hw Hh). apply st_runs_pure. }
      rewrite (proj2 (Nat.eqb_neq _ _)) by lia. apply st_runs_mod.
  - by split.
Qed.

Lemma block_fits p es : blks !! p = Some es ->
  Forall (fun e => (length (se_key e) <= KEY_MAX /\ length (se_stored e) <= VAL_MAX)%nat) es.
Proof.
  intros Hp. rewrite Forall_forall in Hfit. apply Forall_forall. intros e He. apply Hfit. apply list_elem_of_In, in_concat.
  exists es. split; apply list_elem_of_In; [by eapply list_elem_of_lookup_2 | done].
Qed.

(** Parsing the next entry of the block. *)
Lemma parse_step c p es pre e suf : in_block c p es pre (e :: suf) ->
  exists c', st_runs (parse_head_at (E := E) KEY_MAX VAL_MAX (payload_len pre)) c c' (Ok true) /\
    stands c' e (suf ++ concat (drop (S p) blks)).
Proof.
  intros []. destruct (to_data _ _ _ _ _ _ _ _ Hon p es ib_at0) as (Hw & _). pose proof (block_fits p es ib_at0) as Hf.
  pose proof ib_split0 as Hes. rewrite Hes in Hf. apply Forall_app in Hf as [_ [[Hk Hv] _]%Forall_cons].
  exists (cu_set_head (head_of e (payload_len (pre ++ [e]))) c). split.
  - unfold parse_head_at. apply st_runs_get. rewrite ib_rstart0. rewrite (held_parses (E := E) HB _ es pre e suf _ Hw ib_body0 Hes).
    cbn [head_of pd_key pd_val]. rewrite !(proj2 (Nat.ltb_ge _ _)) by lia. apply st_runs_mod_seq. apply st_runs_ret.
  - exists p, es, pre, suf. split_and!; try done. split; try done. by rewrite <- app_assoc.
Qed.

(** At the padding. *)
Lemma parse_end c p es pre : in_block c p es pre [] -> st_runs (parse_head_at (E := E) KEY_MAX VAL_MAX (payload_len pre)) c c (Ok false).
Proof.
  intros []. rewrite app_nil_r in ib_split0. subst pre. destruct (to_data _ _ _ _ _ _ _ _ Hon p es ib_at0) as (Hw & _).
  destruct (held_ends (E := E) HB (cu_block c) es (cu_block_id c) Hw ib_body0) as [[e He] Hz]. destruct (rstart_bound HB es Hw) as [Hr _].
  unfold parse_head_at. apply st_runs_get. rewrite ib_rstart0, He, (proj2 (Nat.ltb_ge _ _)) by lia. rewrite Hz. apply st_runs_ret.
Qed.

(** A cursor walks the table's entries in order. *)
Lemma cursor_advance c e after : stands c e after ->
  exists c', match after with
  | [] => st_runs (advance_cursor (E := E) KEY_MAX VAL_MAX d) c c' (Ok false) /\ cu_live c' = false
  | e' :: after' => st_runs (advance_cursor (E := E) KEY_MAX VAL_MAX d) c c' (Ok true) /\ stands c' e' after'
  end.
Proof.
  intros (p & es & pre & suf & Hib & Hnext & Hlive & Hent & ->).
  pose proof (ib_at _ _ _ _ _ Hib) as Hp. destruct (to_data _ _ _ _ _ _ _ _ Hon p es Hp) as (Hw & _).
  destruct (rstart_bound HB es Hw) as [Hr _]. pose proof (f_equal payload_len (ib_split _ _ _ _ _ Hib)) as Hpl. rewrite payload_len_app in Hpl.
  destruct suf as [|e' suf]; cbn [app].
  - assert (exists c0, st_runs (if (cu_next c <? cu_rstart c)%nat then parse_head_at (E := E) KEY_MAX VAL_MAX (cu_next c) else st_ret false) c c0 (Ok false) /\ c0 = c)
      as (c0 & Hpe & ->).
    { exists c. split; [| done]. destruct (_ <? _)%nat; [rewrite Hnext; by eapply parse_end | apply st_runs_ret]. }
    pose proof (lookup_lt_Some _ _ _ Hp) as Hlt. pose proof (to_end _ _ _ _ _ _ _ _ Hon) as Hend. pose proof (to_base _ _ _ _ _ _ _ _ Hon) as Hb0.
    destruct (blks !! S p) as [es' |] eqn:Hp'.
    + rewrite (drop_S _ _ _ Hp'). cbn [concat].
      destruct (read_block_step c (S p) es' (ib_first _ _ _ _ _ Hib) (ib_blocks _ _ _ _ _ Hib) (proj1 (ib_body _ _ _ _ _ Hib)) Hp') as (c1 & Hrd & Hib1).
      destruct (to_data _ _ _ _ _ _ _ _ Hon (S p) es' Hp') as (Hw' & _). destruct es' as [|e' es']; [by destruct (bw_nonempty _ Hw') |].
      destruct (parse_step c1 (S p) (e' :: es') [] e' es' Hib1) as (c' & Hps & Hst). exists c'. cbn [app]. split; [| done].
      apply lookup_lt_Some in Hp'. unfold advance_cursor. apply st_runs_get. eapply st_runs_seq; [exact Hpe |]. cbn beta iota.
      rewrite (ib_idx _ _ _ _ _ Hib), u64_add_ok by lia. rewrite (ib_blocks _ _ _ _ _ Hib), (proj2 (Z.leb_gt _ _)) by lia.
      replace (Z.of_nat p + 1)%Z with (Z.of_nat (S p)) by lia. eapply st_runs_seq; [exact Hrd |]. eapply st_runs_seq; [exact Hps |]. apply st_runs_ret.
    + apply lookup_ge_None in Hp'. rewrite (drop_ge blks) by lia. cbn [concat]. exists (cu_set_live false c). split; [| done].
      unfold advance_cursor. apply st_runs_get. eapply st_runs_seq; [exact Hpe |]. cbn beta iota.
      rewrite (ib_idx _ _ _ _ _ Hib), u64_add_ok by lia. rewrite (ib_blocks _ _ _ _ _ Hib), (proj2 (Z.leb_le _ _)) by lia.
      apply st_runs_mod_seq. apply st_runs_ret.
  - assert (in_block c p es (pre ++ [e]) (e' :: suf)) as Hib1 by done.
    destruct (parse_step c p es (pre ++ [e]) e' suf Hib1) as (c' & Hps & Hst). exists c'. split; [| done].
    rewrite payload_len_cons in Hpl. pose proof (elen_pos e').
    unfold advance_cursor. apply st_runs_get. rewrite Hnext, (ib_rstart _ _ _ _ _ Hib), (proj2 (Nat.ltb_lt _ _)) by lia.
    eapply st_runs_seq; [exact Hps |]. apply st_runs_ret.
Qed.

Lemma skip_step floor : forall fuel c e after, stands c e after -> (length after + 1 < fuel)%nat ->
  exists c', st_runs (skip_below (E := E) KEY_MAX VAL_MAX d fuel floor) c c' (Ok tt) /\
  match pass (fun x => bytes_ltb (se_key x) floor) (e :: after) with
  | [] => cu_live c' = false
  | e' :: after' => stands c' e' after'
  end.
Proof.
  induction fuel as [|fuel IH]; intros c e after Hst Hf; [lia |]. cbn [skip_below pass].
  assert (cu_live c = true /\ cu_key c = se_key e) as [Hl Hk].
  { destruct Hst as (p & es & pre & suf & _ & _ & Hl & He & _). split; [done |]. by injection He. }
  destruct (bytes_ltb (se_key e) floor) eqn:El.
  - destruct (cursor_advance c e after Hst) as (c1 & Hadv). destruct after as [|e' after].
    + destruct Hadv as [Hrun Hd]. destruct fuel as [|fuel]; [cbn in Hf; lia |]. exists c1. split; [| done].
      apply st_runs_get. rewrite Hl, Hk, El. cbn [andb]. eapply st_runs_seq; [exact Hrun |]. cbn [skip_below]. apply st_runs_get.
      rewrite Hd. apply st_runs_ret.
    + destruct Hadv as [Hrun Hs1]. destruct (IH c1 e' after Hs1) as (c' & Hrun' & Hres); [cbn in Hf; lia |]. exists c'. split; [| done].
      apply st_runs_get. rewrite Hl, Hk, El. cbn [andb]. by eapply st_runs_seq.
  - exists c. split; [| done]. apply st_runs_get. rewrite Hl, Hk, El. apply st_runs_ret.
Qed.

(** ** Opening *)

  Context (Hbloom : (BLOOM_BYTES + CRC_LEN <= BLOCK)%nat).
  Context (Hcount : block_count t = Z.of_nat (length blks + length rbs + 3)).
  Context (Hrdel : Manifest.rdel_blocks t = Z.of_nat (length rbs)).
  Context (Hend : (end_block t <= U64_MAX)%Z).

  Abbreviation index_id := (first_block t + Z.of_nat (length blks + length rbs) + 1)%Z.
  Abbreviation footer_id := (first_block t + Z.of_nat (length blks + length rbs) + 2)%Z.

Lemma footer_step {S} (s : S) : st_runs (uncached (footer_index_block d (t_id t) footer_id)) s s (Ok index_id).
Proof.
  pose proof Hon as [_ _ _ _ _ _ Hf Hk Hb He Hr Hc Hm].
  set (bid := (first_block t + Z.of_nat (length blks + length rbs))%Z) in *.
  pose proof (footer_body_ok BLOOM_BYTES HB Hbloom (bid + 1) bid ec k (Z.of_nat (length rbs)) ms ltac:(lia)) as Hok.
  set (fb := footer_body (bid + 1) bid ec k (Z.of_nat (length rbs)) ms) in *. assert (body_end = BLOCK - 4)%nat as Hbe by done.
  apply uncached_runs. unfold footer_index_block. eapply yields_bind_ok; [apply yields_fetch_ok; [done | exact Hf] |].
  eapply yields_bind_ok; [rewrite image_checks by done; apply yields_pure |].
  rewrite !image_sub by (auto; lia). unfold fb, footer_body. erewrite !(subs_at _ 0 8), !(subs_at _ 8 8) by slices.
  assert (from_le (to_le 8 SSTABLE_MAGIC) = SSTABLE_MAGIC) as -> by (by vm_compute). rewrite Z.eqb_refl. cbn [negb].
  rewrite from_to_le by (cbn; unfold U64_MAX, bid in *; lia). apply yields_ret.
Qed.

Lemma pass_all {A} (f : A -> bool) a b : Forall (fun x => f x = true) a -> pass f (a ++ b) = pass f b.
Proof. induction 1 as [|x a Hx Ha IH]; [done |]. cbn. by rewrite Hx. Qed.

(** A fresh cursor stands on the first entry at or above the table's first key. *)
Lemma init_step c : key_ordered (concat blks) ->
  exists c', st_runs (init_cursor (E := E) KEY_MAX VAL_MAX d t) c c' (Ok tt) /\
  match pass (fun x => bytes_ltb (se_key x) (as_slice (Manifest.first_key t))) (concat blks) with
  | [] => cu_live c' = false
  | e :: after => stands c' e after
  end.
Proof.
  intros Hso. pose proof (to_base _ _ _ _ _ _ _ _ Hon) as H0. pose proof (to_end _ _ _ _ _ _ _ _ Hon) as H1.
  destruct (section_parts t (length blks) (length rbs) H0 Hcount Hrdel Hend) as [Hdb Hfb].
  set (c0 := mkCur (data_first t) (Z.of_nat (length blks)) 0 0 (replicate BLOCK 0%Z) 0 0 false [] [] 0 false 0).
  set (floor := as_slice (Manifest.first_key t)).
  destruct (decide (blks = [])) as [E0 | Hne].
  { exists c0. split; [| by rewrite E0]. unfold init_cursor. apply st_runs_mod_seq. rewrite Hdb. apply st_runs_mod_seq.
    rewrite (proj2 (Z.eqb_eq _ _)) by (by rewrite E0). apply st_runs_ret. }
  pose proof (to_index_len _ _ _ _ _ _ _ _ Hon) as Hil.
  set (ib := index_body (index_entries (first_block t) blks) (body_end - length (index_of (index_entries (first_block t) blks)))) in *.
  assert (body_ok ib) as Hiok.
  { unfold ib, index_body. split; [rewrite length_app, length_replicate; lia |]. apply bytes_ok_app. split; [| auto with horton].
    apply index_of_bytes, Hon. }
  destruct (index_finds BLOOM_BYTES HB Hbloom d (first_block t) blks rbs k ec ms floor index_id Hon Hso Hne)
    as (p & es & did & Hp & Hlow & Hf & Hdid). fold ib in Hf. pose proof (lookup_lt_Some _ _ _ Hp) as Hlt.
  destruct (read_block_step c0 p es eq_refl eq_refl (length_replicate _ _) Hp) as (c1 & Hrd & Hib1).
  destruct (to_data _ _ _ _ _ _ _ _ Hon p es Hp) as (Hw & _). destruct es as [|e es]; [by destruct (bw_nonempty _ Hw) |].
  destruct (parse_step c1 p (e :: es) [] e es Hib1) as (c2 & Hps & Hst2).
  assert (cu_data_blocks c2 = Z.of_nat (length blks)) as Hc2 by (destruct Hst2 as (? & ? & ? & ? & [] & _); done).
  assert (concat blks = concat (take p blks) ++ (e :: es) ++ concat (drop (S p) blks)) as Ec.
  { rewrite <- (take_drop_middle blks p _ Hp) at 1. by rewrite concat_app. }
  pose proof (on_entries_bound BLOOM_BYTES d _ _ _ _ _ _ Hon) as Hbnd.
  destruct (skip_step floor (S (length blks * BLOCK)) c2 e (es ++ concat (drop (S p) blks)) Hst2) as (c' & Hsk & Hres).
  { apply (f_equal length) in Ec. rewrite !length_app in *. cbn [length] in Ec. lia. }
  exists c'. split.
  - unfold init_cursor. apply st_runs_mod_seq. rewrite Hdb. apply st_runs_mod_seq.
    rewrite (proj2 (Z.eqb_neq _ _)) by (destruct blks; [done | cbn; lia]). rewrite Hfb. eapply st_runs_seq; [apply footer_step |].
    eapply st_runs_seq; [apply uncached_runs, yields_fetch_ok; [done | apply Hon] |]. fold ib.
    eapply st_runs_seq; [rewrite image_checks by done; apply st_runs_pure |]. change (BLOCK - CRC_LEN)%nat with body_end.
    rewrite image_body by done. eapply st_runs_seq; [fold floor; rewrite Hf; apply st_runs_pure |].
    apply (st_runs_seq _ _ c0 c0 c' (Z.of_nat p)).
    { destruct Hdid as [[-> ->] | [n ->]]; [apply st_runs_ret |]. unfold data_first. rewrite u64_sub_ok by lia.
      replace (first_block t + Z.of_nat p - first_block t)%Z with (Z.of_nat p) by lia. rewrite (proj2 (Z.ltb_lt _ _)) by lia. apply st_runs_ret. }
    unfold start_cursor. eapply st_runs_seq; [exact Hrd |]. eapply st_runs_seq; [exact Hps |]. cbn beta iota. apply st_runs_get.
    rewrite Hc2, Nat2Z.id. exact Hsk.
  - rewrite Ec, pass_all; [exact Hres |]. apply Forall_forall. intros x Hx. apply bytes_ltb_spec.
    destruct Hlow as [-> | Hlow]; [rewrite take_0 in Hx; by apply not_elem_of_nil in Hx |].
    eapply bytes_le_lt_trans; [| exact Hlow]. rewrite Ec in Hso. apply key_ordered_app in Hso as (_ & _ & Hcr). cbn [first_key_of].
    apply Hcr; [done |]. left.
Qed.
End table.
End walk.
