(* ===== verification/CompactRdel.v ===== *)
(** * The range-tombstone merge of a compaction: [src/compact.rs]

    A bounded k-way merge over the range-tombstone sections of a job's inputs, one head
    per source and one that reads the targets' sections one after another.  An owned
    entry, an array with a length for each end, is an [RdelEntry]; a copy of a longer key
    would panic.  A head or pending entry with its flag is an option.  The block buffer is
    read afresh by every fill and omitted. *)

From stdpp Require Import base numbers list sets.
From Stdlib Require Import ZArith Lia Sorting.Sorted.
From S2P Require Import Prelude Device Steps Compress Cache Wal Manifest SstPlan SstWriter SstReader SstBlock SstImage SstRdel SstBuild DbRead CompactCursor.

Definition COMPACTION_KMAX : nat := 8.

(** One input table: its level and manifest reference. *)
Record Input := mkInput { in_level : nat; in_tref : TableRef }.

(** The target level's live refs and the ids to read. *)
Record TargetView := mkTargets { tv_level : list TableRef; tv_ids : list u32 }.

Record RdelHead := mkRHead {
  rh_first_block : u64;
  rh_rdel_blocks : u32;
  rh_lower : KeyBound;
  rh_concat : bool;
  rh_next_target : nat;
  rh_block : u32;
  rh_off : nat;
  rh_remaining : nat;
  rh_entry : option RdelEntry;
}.

Record RdelMerger := mkMerger {
  rm_heads : list RdelHead;
  rm_n : nat;
  rm_pending : option RdelEntry;
  rm_current : RdelEntry;
  rm_last_emitted : option RdelEntry;
  rm_bottommost : bool;
  rm_oldest_snapshot : u64;
}.

Definition rh_new (first_block : u64) (rdel_blocks : u32) (lower : KeyBound) : RdelHead :=
  mkRHead first_block rdel_blocks lower false 0 0 0 0 None.

Definition owned_empty : RdelEntry := mkRdel [] [] 0.

(** Same range, whatever the sequence. *)
Definition same_range (a b : RdelEntry) : bool := bytes_eqb (rd_start a) (rd_start b) && bytes_eqb (rd_end a) (rd_end b).

(** Merge order: start ascending, then sequence descending. *)
Definition rdel_entry_less (a b : RdelEntry) : bool :=
  bytes_ltb (rd_start a) (rd_start b) || (bytes_eqb (rd_start a) (rd_start b) && (rd_seq b <? rd_seq a)%Z).

Definition rh_set_section (first : u64) (blocks : u32) (lower : KeyBound) (h : RdelHead) : RdelHead :=
  mkRHead first blocks lower (rh_concat h) (rh_next_target h + 1) 0 0 0 (rh_entry h).
Definition rh_set_at (block : u32) (off remaining : nat) (h : RdelHead) : RdelHead :=
  mkRHead (rh_first_block h) (rh_rdel_blocks h) (rh_lower h) (rh_concat h) (rh_next_target h) block off remaining (rh_entry h).
Definition rh_set_entry (e : option RdelEntry) (h : RdelHead) : RdelHead :=
  mkRHead (rh_first_block h) (rh_rdel_blocks h) (rh_lower h) (rh_concat h) (rh_next_target h) (rh_block h) (rh_off h) (rh_remaining h) e.

Definition rm_set_head (i : nat) (h : RdelHead) (m : RdelMerger) : RdelMerger :=
  mkMerger (<[i := h]> (rm_heads m)) (rm_n m) (rm_pending m) (rm_current m) (rm_last_emitted m) (rm_bottommost m) (rm_oldest_snapshot m).
Definition rm_set_pending (p : option RdelEntry) (m : RdelMerger) : RdelMerger :=
  mkMerger (rm_heads m) (rm_n m) p (rm_current m) (rm_last_emitted m) (rm_bottommost m) (rm_oldest_snapshot m).
Definition rm_emit (p : RdelEntry) (m : RdelMerger) : RdelMerger :=
  mkMerger (rm_heads m) (rm_n m) (rm_pending m) p (Some p) (rm_bottommost m) (rm_oldest_snapshot m).

Section rdel.
  Context {D E : Type} `{Dev : !BlockDevice D E}.
  Context (KEY_MAX : nat) (d : D).

Definition rm_head (m : RdelMerger) (i : nat) : RdelHead := nth i (rm_heads m) (rh_new 0 0 (EMPTY_BOUND KEY_MAX)).

(** [TargetView::section] *)
Definition section (v : TargetView) (i : nat) : option (result (u64 * u32 * KeyBound) (Error E)) :=
  match tv_ids v !! i with
  | None => None
  | Some id =>
      match List.find (fun t => (t_id t =? id)%Z) (tv_level v) with
      | None => Some (Err CorruptManifest)
      | Some t =>
          match rdel_first t with
          | Some first => Some (Ok (first, Manifest.rdel_blocks t, Manifest.first_key t))
          | None => Some (Err CorruptManifest)
          end
      end
  end.

(** [copy_from_entry]: the arrays hold [KEY_MAX] bytes. *)
Definition copy_entry (e : RdelEntry) : option RdelEntry :=
  if (KEY_MAX <? length (rd_start e))%nat || (KEY_MAX <? length (rd_end e))%nat then None else Some e.

(** [fill_rdel_head] once the head is known to be empty. *)
Fixpoint fill_loop (fuel : nat) (v : TargetView) : stm RdelHead E unit :=
  match fuel with
  | O => st_panic
  | S fuel =>
      let@ h := st_get in
      if (rh_rdel_blocks h <=? rh_block h)%Z then
        if negb (rh_concat h) then st_ret tt
        else
          match section v (rh_next_target h) with
          | None => st_ret tt
          | Some (Err e) => st_fail e
          | Some (Ok (first, blocks, lower)) =>
              let@ _ := st_mod (rh_set_section first blocks lower) in
              fill_loop fuel v
          end
      else
        match u64_checked_add (rh_first_block h) (rh_block h) with
        | None => st_fail (CorruptBlock (rh_first_block h))
        | Some id =>
            let@ raw := uncached (fetch d 0 id true) in
            let@ count := st_pure (rdel_block_count raw id) in
            if (count =? 0)%nat then
              let@ _ := st_mod (rh_set_at (rh_block h + 1) 0 0) in
              fill_loop fuel v
            else
              let remaining := if (rh_remaining h =? 0)%nat then count else rh_remaining h in
              let@ _ := st_mod (rh_set_at (rh_block h) (rh_off h) remaining) in
              match rdel_parse_at raw (rh_off h) with
              | None => st_fail (CorruptBlock id)
              | Some (e, next) =>
                  let@ _ := st_mod (if (remaining - 1 =? 0)%nat then rh_set_at (rh_block h + 1) 0 0
                                    else rh_set_at (rh_block h) next (remaining - 1)) in
                  let lower := as_slice (rh_lower h) in
                  if bytes_leb (rd_end e) lower then fill_loop fuel v
                  else
                    match copy_entry (mkRdel (if bytes_ltb (rd_start e) lower then lower else rd_start e) (rd_end e) (rd_seq e)) with
                    | None => st_panic
                    | Some c => st_mod (rh_set_entry (Some c))
                    end
              end
        end
  end.

(** The sections of the targets in blocks. *)
Definition target_blocks (v : TargetView) (id : u32) : nat :=
  match List.find (fun t => (t_id t =? id)%Z) (tv_level v) with Some t => Z.to_nat (Manifest.rdel_blocks t) | None => 0 end.

(** A bound on the turns of a fill: every block once and every entry once. *)
Definition fill_bound (v : TargetView) (h : RdelHead) : nat :=
  (Z.to_nat (rh_rdel_blocks h) * (BLOCK + 1) + sum_list_with (fun id => target_blocks v id * (BLOCK + 1) + 1) (tv_ids v))%nat.

Definition fill_rdel_head (v : TargetView) : stm RdelHead E unit :=
  let@ h := st_get in
  match rh_entry h with
  | Some _ => st_ret tt
  | None => fill_loop (S (fill_bound v h)) v
  end.

Definition MERGER_EMPTY : RdelMerger :=
  mkMerger (replicate COMPACTION_KMAX (rh_new 0 0 (EMPTY_BOUND KEY_MAX))) 0 None owned_empty None false U64_MAX.

(** Head [i] of a new merger. *)
Definition new_head (sources : list Input) (n_src : nat) (retired : u8) (with_targets : bool) (i : nat) : RdelHead :=
  match sources !! i with
  | Some s =>
      if (i <? n_src)%nat && negb (Z.testbit retired (Z.of_nat i)) then
        rh_new (default U64_MAX (rdel_first (in_tref s))) (Manifest.rdel_blocks (in_tref s)) (Manifest.first_key (in_tref s))
      else mkRHead 0 0 (EMPTY_BOUND KEY_MAX) ((i =? n_src)%nat && with_targets) 0 0 0 0 None
  | None => mkRHead 0 0 (EMPTY_BOUND KEY_MAX) ((i =? n_src)%nat && with_targets) 0 0 0 0 None
  end.

Definition merger_new (sources : list Input) (retired : u8) (with_targets bottommost : bool) (oldest_snapshot : u64) : RdelMerger :=
  let n_src := Nat.min (length sources) (COMPACTION_KMAX - 1) in
  mkMerger (map (new_head sources n_src retired with_targets) (List.seq 0 COMPACTION_KMAX))
    (n_src + (if with_targets then 1 else 0)) None owned_empty None bottommost oldest_snapshot.

(** One turn of [min_head]. *)
Definition min_head_step (m : RdelMerger) (best : option nat) (i : nat) : option nat :=
  match rh_entry (rm_head m i) with
  | None => best
  | Some e =>
      match best with
      | None => Some i
      | Some j => match rh_entry (rm_head m j) with Some b => if rdel_entry_less e b then Some i else best | None => best end
      end
  end.

Definition min_head (m : RdelMerger) : option nat := fold_left (min_head_step m) (List.seq 0 (rm_n m)) None.

Definition set_pending_from_head (e : RdelEntry) (m : RdelMerger) : RdelMerger :=
  let shadowed :=
    match rm_last_emitted m with
    | Some p => (rd_seq e <? rd_seq p)%Z && (rd_seq p <=? rm_oldest_snapshot m)%Z && same_range p e
    | None => false
    end in
  if rm_bottommost m && (rd_seq e <? rm_oldest_snapshot m)%Z && shadowed then rm_set_pending None m
  else rm_set_pending (Some e) m.

(** [for i in 0..self.n], [todo] heads to go. *)
Fixpoint fill_heads (todo : list nat) (v : TargetView) : stm RdelMerger E unit :=
  match todo with
  | [] => st_ret tt
  | i :: todo =>
      let@ m := st_get in
      let@ _ :=
        match rh_entry (rm_head m i) with
        | Some _ => st_ret tt
        | None => st_zoom (fun m => rm_head m i) (rm_set_head i) (fill_rdel_head v)
        end in
      fill_heads todo v
  end.

Fixpoint next_merged_loop (fuel : nat) (v : TargetView) : stm RdelMerger E bool :=
  match fuel with
  | O => st_panic
  | S fuel =>
      let@ m := st_get in
      let@ _ := fill_heads (List.seq 0 (rm_n m)) v in
      let@ m := st_get in
      match min_head m with
      | None =>
          match rm_pending m with
          | Some p =>
              let@ _ := st_mod (fun m => rm_set_pending None (rm_emit p m)) in
              st_ret true
          | None => st_ret false
          end
      | Some mi =>
          match rh_entry (rm_head m mi) with
          | None => st_panic
          | Some h =>
              let taken := rm_set_head mi (rh_set_entry None (rm_head m mi)) in
              match rm_pending m with
              | Some p =>
                  if (rd_seq h =? rd_seq p)%Z && bytes_leb (rd_start h) (rd_end p) then
                    let grown := if bytes_ltb (rd_end p) (rd_end h) then mkRdel (rd_start p) (rd_end h) (rd_seq p) else p in
                    let@ _ := st_mod (fun m => taken (rm_set_pending (Some grown) m)) in
                    next_merged_loop fuel v
                  else
                    let@ _ := st_mod (fun m => taken (set_pending_from_head h (rm_emit p m))) in
                    st_ret true
              | None =>
                  let@ _ := st_mod (fun m => taken (set_pending_from_head h m)) in
                  next_merged_loop fuel v
              end
          end
      end
  end.

(** A bound on the entries of all sections. *)
Definition merge_bound (v : TargetView) (m : RdelMerger) : nat :=
  (length (rm_heads m) + sum_list_with (fill_bound v) (rm_heads m))%nat.

Definition next_merged (v : TargetView) : stm RdelMerger E bool :=
  let@ m := st_get in
  next_merged_loop (S (merge_bound v m)) v.

Definition current_entry (m : RdelMerger) : RdelEntry := rm_current m.
End rdel.

(** ** Dropping pieces at the bottom *)

Record DropOrigin := mkOrigin {
  do_node : u32;
  do_max_wall : u64;
  do_outside_same_min : u64;
  do_outside_foreign_min : u64 * u32;
}.

(** The key ranges a job lost track in; [None] is everywhere. *)
Definition Inexact : Type := option (list (KeyBound * KeyBound)).

Record RdelDrop := mkDrop {
  dr_origin : DropOrigin;
  dr_snapshot_floor : u64;
  dr_inexact : list (KeyBound * KeyBound);
}.

(** [(w, n) < (w', n')] *)
Definition wall_lt (a b : u64 * u32) : bool := (fst a <? fst b)%Z || ((fst a =? fst b)%Z && (snd a <? snd b)%Z).

Definition drop_new (bottommost : bool) (oldest_snapshot : u64) (origin : DropOrigin) (inexact : Inexact) : RdelDrop :=
  match inexact, bottommost with
  | Some l, true => mkDrop origin oldest_snapshot l
  | _, _ => mkDrop (mkOrigin (do_node origin) (do_max_wall origin) U64_MAX (U64_MAX, U32_MAX)) 0 (default [] inexact)
  end.

Definition drops (r : RdelDrop) (start end_ : bytes) (seq : u64) : bool :=
  (seq <? dr_snapshot_floor r)%Z && (seq <? do_outside_same_min (dr_origin r))%Z &&
  wall_lt (do_max_wall (dr_origin r), do_node (dr_origin r)) (do_outside_foreign_min (dr_origin r)) &&
  forallb (fun '(from, to) => bytes_leb end_ (as_slice from) || bytes_leb (as_slice to) start) (dr_inexact r).

(** ** Bounds of the output section *)

Record RdelStats := mkStats { rs_first : KeyBound; rs_last : KeyBound; rs_max_seq : u64; rs_min_seq : u64 }.

Definition stats_new (KEY_MAX : nat) : RdelStats := mkStats (EMPTY_BOUND KEY_MAX) (EMPTY_BOUND KEY_MAX) 0 U64_MAX.

Definition observe {E} (KEY_MAX : nat) (s : RdelStats) (e : RdelEntry) (id : u64) : result RdelStats (Error E) :=
  match from_slice KEY_MAX (rd_start e), from_slice KEY_MAX (rd_end e) with
  | Some start, Some end_ =>
      Ok (mkStats (bound_min (rs_first s) start) (bound_max (rs_last s) end_)
            (if (rs_max_seq s <? rd_seq e)%Z then rd_seq e else rs_max_seq s)
            (if (rd_seq e <? rs_min_seq s)%Z then rd_seq e else rs_min_seq s))
  | _, _ => Err (CorruptBlock id)
  end.

(** ** What a head has left *)

(** The live part of a section: entries ending above the bound, cut to start there. *)
Definition clip_start (lower : bytes) (e : RdelEntry) : RdelEntry :=
  mkRdel (if bytes_ltb (rd_start e) lower then lower else rd_start e) (rd_end e) (rd_seq e).
Definition clip (lower : bytes) (rs : list RdelEntry) : list RdelEntry :=
  map (clip_start lower) (List.filter (fun e => negb (bytes_leb (rd_end e) lower)) rs).

Lemma clip_app lower a b : clip lower (a ++ b) = clip lower a ++ clip lower b.
Proof. unfold clip. by rewrite List.filter_app, map_app. Qed.

Lemma clip_length lower rs : (length (clip lower rs) <= length rs)%nat.
Proof. unfold clip. rewrite length_map. apply List.filter_length_le. Qed.

Section heads.
  Context {D E : Type} `{Laws : DeviceLaws D E}.
  (** [live]: the blocks of the job's tables. *)
  Context (KEY_MAX : nat) (d : D) (v : TargetView) (live : u64 -> Prop).

  Abbreviation anywhere := (fun (_ : u32) (_ : u64) => True).

(** Entries within the key buffers. *)
Definition sized (e : RdelEntry) : Prop := (length (rd_start e) <= KEY_MAX /\ length (rd_end e) <= KEY_MAX)%nat.

(** One section on the device, and its live lower bound. *)
Record sect_on (first : u64) (blocks : u32) (lower : KeyBound) (bs : list (list RdelEntry)) : Prop := {
  so_on : section_on (E := E) d first bs;
  so_live : forall i, (i < length bs)%nat -> live (first + Z.of_nat i);
  so_pos : (0 <= first)%Z;
  so_max : (first + Z.of_nat (length bs) <= U64_MAX)%Z;
  so_blocks : blocks = Z.of_nat (length bs);
  so_sized : Forall sized (concat bs);
  so_lower : (length (as_slice lower) <= KEY_MAX)%nat;
}.

(** The targets from the [n]-th on. *)
Definition later (n : nat) (secs : list (KeyBound * list (list RdelEntry))) : Prop :=
  length (tv_ids v) = (n + length secs)%nat /\
  forall i lower bs, secs !! i = Some (lower, bs) ->
    exists first blocks, section (E := E) v (n + i) = Some (Ok (first, blocks, lower)) /\ sect_on first blocks lower bs.

(** The head's position in its section: [unread] is to come, in [nb] blocks. *)
Definition at_section (h : RdelHead) (bs : list (list RdelEntry)) (b : nat) (unread : list RdelEntry) : Prop :=
  rh_block h = Z.of_nat b /\
  (rh_remaining h = 0%nat /\ rh_off h = 0%nat /\ unread = concat (drop b bs) \/
   exists pre suf, bs !! b = Some (pre ++ suf) /\ suf <> [] /\ rh_remaining h = length suf /\
     rh_off h = length (section_of pre) /\ unread = suf ++ concat (drop (S b) bs)).

Definition sections_live (secs : list (KeyBound * list (list RdelEntry))) : list RdelEntry :=
  concat (map (fun '(lower, bs) => clip (as_slice lower) (concat bs)) secs).

(** What the head will still yield, beyond the entry it holds. *)
Definition head_rest (h : RdelHead) (l : list RdelEntry) : Prop :=
  exists bs b unread secs, sect_on (rh_first_block h) (rh_rdel_blocks h) (rh_lower h) bs /\ at_section h bs b unread /\
    (if rh_concat h then later (rh_next_target h) secs else secs = []) /\
    l = clip (as_slice (rh_lower h)) unread ++ sections_live secs.

(** A fill's measure. *)
Definition secs_weight (secs : list (KeyBound * list (list RdelEntry))) : nat :=
  sum_list_with (fun '(_, bs) => S (length bs + length (concat bs))) secs.

Lemma block_count_le rs : rblock_wf rs -> (length rs <= BLOCK)%nat.
Proof. intros Hw. pose proof (rb_room _ Hw). pose proof (section_count rs). lia. Qed.

Lemma section_entries_le first bs : section_on (E := E) d first bs -> (length (concat bs) <= length bs * BLOCK)%nat.
Proof.
  intros Hon. assert (Forall (fun rs => (length rs <= BLOCK)%nat) bs) as Hf
    by (apply Forall_lookup; intros i rs Hi; apply block_count_le, (Hon i rs Hi)).
  clear Hon. induction Hf as [|rs bs Hr Hf IH]; [done |]. cbn [concat length]. rewrite length_app. lia.
Qed.

Lemma sized_clip lower e : sized e -> (length lower <= KEY_MAX)%nat -> sized (clip_start lower e).
Proof. intros [] ?. unfold clip_start. by destruct (bytes_ltb _ _). Qed.

Lemma copy_sized e : sized e -> copy_entry KEY_MAX e = Some e.
Proof. intros []. unfold copy_entry. by rewrite !(proj2 (Nat.ltb_ge _ _)) by lia. Qed.

(** The position in the current block, fresh or resumed. *)
Lemma at_block h bs b unread rs : at_section h bs b unread -> bs !! b = Some rs -> rs <> [] ->
  exists pre e suf, rs = pre ++ e :: suf /\ rh_off h = length (section_of pre) /\
    (if (rh_remaining h =? 0)%nat then length rs else rh_remaining h) = length (e :: suf) /\
    unread = e :: suf ++ concat (drop (S b) bs).
Proof.
  intros [_ [(Hr & Ho & ->) | (pre & suf & Hb & Hne & Hr & Ho & ->)]] Hrs Hn.
  - destruct rs as [|e rs]; [done |]. exists [], e, rs. rewrite Hr, Ho, (drop_S _ _ _ Hrs). done.
  - rewrite Hrs in Hb. injection Hb as ->. destruct suf as [|e suf]; [done |]. exists pre, e, suf. rewrite Hr. done.
Qed.

Lemma at_section_end h bs b unread : at_section h bs b unread -> (length bs <= b)%nat -> unread = [].
Proof.
  intros [_ [(_ & _ & ->) | (pre & suf & Hb & _)]] Hge; [by rewrite drop_ge by lia |]. apply lookup_lt_Some in Hb. lia.
Qed.

Lemma clip_cons lower e rs :
  clip lower (e :: rs) = if bytes_leb (rd_end e) lower then clip lower rs else clip_start lower e :: clip lower rs.
Proof. unfold clip. cbn. by destruct (bytes_leb _ _). Qed.

Definition fills (h h' : RdelHead) (l : list RdelEntry) : Prop :=
  rh_concat h' = rh_concat h /\
  match l with
  | [] => rh_entry h' = None /\ head_rest h' []
  | e :: l => rh_entry h' = Some e /\ sized e /\ head_rest h' l
  end.

Lemma fill_loop_step : forall fuel h bs b unread secs,
  rh_entry h = None -> sect_on (rh_first_block h) (rh_rdel_blocks h) (rh_lower h) bs -> at_section h bs b unread ->
  (if rh_concat h then later (rh_next_target h) secs else secs = []) ->
  (length bs - b + length unread + secs_weight secs < fuel)%nat ->
  exists h', st_runs (fill_loop (E := E) KEY_MAX d fuel v) h h' (Ok tt) /\
    fills h h' (clip (as_slice (rh_lower h)) unread ++ sections_live secs).
Proof.
  induction fuel as [|fuel IH]; intros h bs b unread secs Hent Hso Hat Hlat Hf; [lia |]. cbn [fill_loop].
  pose proof (proj1 Hat) as Hblk. pose proof (so_blocks _ _ _ _ Hso) as Hnb.
  destruct (decide (length bs <= b)%nat) as [Hge | Hlt].
  - pose proof (at_section_end _ _ _ _ Hat Hge) as ->. cbn [app].
    assert ((rh_rdel_blocks h <=? rh_block h)%Z = true) as Hle by (rewrite Hnb, Hblk; apply Z.leb_le; lia).
    destruct (rh_concat h) eqn:Ec.
    + destruct secs as [|[lower bs'] secs].
      * exists h. split; [| split; [done |]; split; [done |]; exists bs, b, [], []; rewrite Ec; done].
        apply st_runs_get. rewrite Hle, Ec. cbn [negb]. unfold section.
        rewrite lookup_ge_None_2 by (destruct Hlat as [Hl _]; cbn in Hl; lia). apply st_runs_ret.
      * destruct (proj2 Hlat 0%nat lower bs' eq_refl) as (first & blocks & Hsec & Hso'). rewrite Nat.add_0_r in Hsec.
        destruct (IH (rh_set_section first blocks lower h) bs' 0%nat (concat bs') secs) as (h' & Hrun & Hfl); auto.
        { split; [done |]. left. done. }
        { cbn [rh_concat rh_set_section]. rewrite Ec. destruct Hlat as [Hl Hi]. split; [cbn in *; lia |].
          intros i lo bs2 Hi2. destruct (Hi (S i) lo bs2 Hi2) as (f2 & b2 & Hs2 & Ho2). exists f2, b2. split; [| done].
          rewrite <- Hs2. f_equal. cbn. lia. }
        { cbn [secs_weight sum_list_with] in Hf. unfold secs_weight in *. cbn in Hf. lia. }
        exists h'. split; [| done]. apply st_runs_get. rewrite Hle, Ec. cbn [negb]. rewrite Hsec. apply st_runs_mod_seq. exact Hrun.
    + subst secs. exists h. split; [| split; [done |]; split; [done |]; exists bs, b, [], []; rewrite Ec; done].
      apply st_runs_get. rewrite Hle, Ec. apply st_runs_ret.
  - destruct (lookup_lt_is_Some_2 bs b) as [rs Hrs]; [lia |]. destruct (so_on _ _ _ _ Hso b rs Hrs) as [Hw Hrd].
    assert ((rh_rdel_blocks h <=? rh_block h)%Z = false) as Hgt by (rewrite Hnb, Hblk; apply Z.leb_gt; lia).
    pose proof (so_pos _ _ _ _ Hso) as H0. pose proof (so_max _ _ _ _ Hso) as H1.
    assert (forall (f : bytes -> stm RdelHead E unit) s2 r, st_runs (f (image (rdel_body rs))) h s2 r ->
      st_runs (st_bind (uncached (fetch d 0 (rh_first_block h + Z.of_nat b) true)) f) h s2 r) as Hread.
    { intros f s2 r Hr. eapply st_runs_seq; [eapply uncached_runs, yields_fetch_ok; [done | exact Hrd] | exact Hr]. }
    destruct (decide (rs = [])) as [-> | Hne].
    + assert (unread = concat (drop (S b) bs)) as ->.
      { destruct Hat as [_ [(_ & _ & ->) | (pre & suf & Hb & Hn & _)]]; [by rewrite (drop_S _ _ _ Hrs) |].
        rewrite Hrs in Hb. injection Hb as Hb. symmetry in Hb. by apply app_eq_nil in Hb as [_ ->]. }
      destruct (IH (rh_set_at (rh_block h + 1) 0 0 h) bs (S b) (concat (drop (S b) bs)) secs) as (h' & Hrun & Hfl); auto.
      { split; [cbn; lia |]. left. done. }
      { lia. }
      exists h'. split; [| done]. apply st_runs_get. rewrite Hgt, Hblk, u64_add_ok by lia. apply Hread.
      eapply st_runs_seq; [rewrite rdel_count_image by done; apply st_runs_pure |]. cbn [length Nat.eqb].
      apply st_runs_mod_seq. rewrite Hblk in Hrun. exact Hrun.
    + destruct (at_block h bs b unread rs Hat Hrs Hne) as (pre & e & suf & Ers & Hoff & Hrem & ->).
      set (h1 := if (length (e :: suf) - 1 =? 0)%nat then rh_set_at (Z.of_nat b + 1) 0 0 (rh_set_at (Z.of_nat b) (rh_off h) (length (e :: suf)) h)
                 else rh_set_at (Z.of_nat b) (length (section_of (pre ++ [e]))) (length (e :: suf) - 1) (rh_set_at (Z.of_nat b) (rh_off h) (length (e :: suf)) h)).
      assert (exists b1, at_section h1 bs b1 (suf ++ concat (drop (S b) bs)) /\ (b <= b1)%nat) as (b1 & Hat1 & Hb1).
      { unfold h1. destruct suf as [|e2 suf]; cbn [length Nat.sub Nat.eqb].
        - exists (S b). split; [| lia]. split; [cbn; lia |]. left. done.
        - exists b. split; [| lia]. split; [done |]. right. exists (pre ++ [e]), (e2 :: suf). rewrite <- app_assoc. cbn [app]. rewrite <- Ers. done. }
      assert (rh_lower h1 = rh_lower h /\ rh_concat h1 = rh_concat h /\ rh_next_target h1 = rh_next_target h /\ rh_first_block h1 = rh_first_block h /\
        rh_rdel_blocks h1 = rh_rdel_blocks h /\ rh_entry h1 = None) as (El & Ec & En & Ef & Eb & Ee) by (unfold h1; clear -Hent; destruct (_ =? _)%nat; cbn; auto 10).
      assert (forall (f : RdelEntry -> stm RdelHead E unit) s2 r, st_runs (f e) h1 s2 r -> st_runs
        (let@ _ := st_mod (rh_set_at (Z.of_nat b) (rh_off h) (length (e :: suf))) in
         match rdel_parse_at (image (rdel_body rs)) (rh_off h) with
         | None => st_fail (CorruptBlock (rh_first_block h + Z.of_nat b))
         | Some (x, next) =>
             let@ _ := st_mod (if (length (e :: suf) - 1 =? 0)%nat then rh_set_at (Z.of_nat b + 1) 0 0
                               else rh_set_at (Z.of_nat b) next (length (e :: suf) - 1)) in f x
         end) h s2 r) as Hstep.
      { intros f s2 r Hr. apply st_runs_mod_seq. rewrite Hoff, Ers, rdel_image_parses by (by rewrite <- Ers). apply st_runs_mod_seq.
        unfold h1 in Hr. rewrite Hoff in Hr. revert Hr. destruct (length (e :: suf) - 1 =? 0)%nat; intros Hr; exact Hr. }
      rewrite clip_cons. destruct (bytes_leb (rd_end e) (as_slice (rh_lower h))) eqn:Edead.
      * destruct (IH h1 bs b1 (suf ++ concat (drop (S b) bs)) secs) as (h' & Hrun & Hfl); rewrite ?El, ?Ec, ?En, ?Ef, ?Eb; auto.
        { cbn [length] in Hf. lia. }
        rewrite El in Hfl. exists h'. split; [| destruct Hfl as [Hc Hm]; split; [congruence | done]].
        apply st_runs_get. rewrite Hgt, Hblk, u64_add_ok by lia. apply Hread.
        eapply st_runs_seq; [rewrite rdel_count_image by done; apply st_runs_pure |].
        rewrite (proj2 (Nat.eqb_neq _ _)) by (destruct rs; [done | cbn; lia]). cbv zeta. rewrite Hrem.
        apply (Hstep (fun e => if bytes_leb (rd_end e) (as_slice (rh_lower h)) then fill_loop KEY_MAX d fuel v else
          match copy_entry KEY_MAX (mkRdel (if bytes_ltb (rd_start e) (as_slice (rh_lower h)) then as_slice (rh_lower h) else rd_start e) (rd_end e) (rd_seq e)) with
          | None => st_panic | Some c => st_mod (rh_set_entry (Some c)) end)). rewrite Edead. exact Hrun.
      * assert (sized (clip_start (as_slice (rh_lower h)) e)) as Hsz.
        { apply sized_clip; [| apply (so_lower _ _ _ _ Hso)]. pose proof (so_sized _ _ _ _ Hso) as Hall. rewrite Forall_forall in Hall.
          apply Hall. apply list_elem_of_In, in_concat. exists rs. split; apply list_elem_of_In; [by eapply list_elem_of_lookup_2 |].
          rewrite Ers. apply elem_of_app. right. left. }
        exists (rh_set_entry (Some (clip_start (as_slice (rh_lower h)) e)) h1). split.
        -- apply st_runs_get. rewrite Hgt, Hblk, u64_add_ok by lia. apply Hread.
           eapply st_runs_seq; [rewrite rdel_count_image by done; apply st_runs_pure |].
           rewrite (proj2 (Nat.eqb_neq _ _)) by (destruct rs; [done | cbn; lia]). cbv zeta. rewrite Hrem.
           apply (Hstep (fun e => if bytes_leb (rd_end e) (as_slice (rh_lower h)) then fill_loop KEY_MAX d fuel v else
             match copy_entry KEY_MAX (mkRdel (if bytes_ltb (rd_start e) (as_slice (rh_lower h)) then as_slice (rh_lower h) else rd_start e) (rd_end e) (rd_seq e)) with
             | None => st_panic | Some c => st_mod (rh_set_entry (Some c)) end)). rewrite Edead.
           fold (clip_start (as_slice (rh_lower h)) e). rewrite copy_sized by done. apply st_runs_mod.
        -- split; [done |]. cbn [app]. split; [done |]. split; [done |]. exists bs, b1, (suf ++ concat (drop (S b) bs)), secs.
           cbn [rh_set_entry rh_first_block rh_rdel_blocks rh_lower rh_concat rh_next_target]. rewrite El, Ec, En, Ef, Eb. done.
Qed.
End heads.
