(* ===== verification/RdelMerge.v ===== *)
(** * The merged range-tombstone stream: [src/compact.rs]

    What [RdelMerger::next_merged] yields.  The inputs are the lists of live entries the
    heads have left; one call emits the next entry of the merged section.  Nothing is
    invented, every covered [(key, sequence)] stays covered (below the bottom exactly; at
    the bottom an entry shadowed by a newer one of the same range may go), and the starts
    ascend. *)

From stdpp Require Import base numbers list sets sorting.
From Stdlib Require Import ZArith Lia Sorting.Sorted.
From S2P Require Import Prelude Device Steps Compress Cache Wal Manifest SstPlan SstWriter SstReader SstBlock SstImage SstRdel SstBuild DbRead CompactCursor CompactRdel.

(** ** Coverage *)

(** Some entry of [rs] deletes [k] at sequence [s]. *)
Definition covered (rs : list RdelEntry) (k : bytes) (s : u64) : Prop :=
  exists r, r ∈ rs /\ bytes_le (rd_start r) k /\ bytes_lt k (rd_end r) /\ rd_seq r = s.

Lemma covered_app a b k s : covered (a ++ b) k s <-> covered a k s \/ covered b k s.
Proof.
  unfold covered. split.
  - intros (x & [Hx | Hx]%elem_of_app & H); [left | right]; by exists x.
  - intros [(x & Hx & H) | (x & Hx & H)]; exists x; (split; [| done]); apply elem_of_app; auto.
Qed.

Lemma covered_cons r rs k s :
  covered (r :: rs) k s <-> (bytes_le (rd_start r) k /\ bytes_lt k (rd_end r) /\ rd_seq r = s) \/ covered rs k s.
Proof.
  unfold covered. split.
  - intros (x & [-> | Hx]%elem_of_cons & H); [by left | right; by exists x].
  - intros [H | (x & Hx & H)]; [exists r | exists x]; (split; [| done]); [left | by right].
Qed.

Lemma covered_nil k s : ~ covered [] k s.
Proof. intros (r & Hr & _). by apply not_elem_of_nil in Hr. Qed.

Lemma covered_concat ls k s : covered (concat ls) k s <-> exists l, l ∈ ls /\ covered l k s.
Proof.
  unfold covered. split.
  - intros (r & Hr & Hc). apply list_elem_of_In, in_concat in Hr as (l & Hl & Hr). exists l. split; [by apply list_elem_of_In |].
    exists r. split; [by apply list_elem_of_In | done].
  - intros (l & Hl & r & Hr & Hc). exists r. split; [| done]. apply list_elem_of_In, in_concat. exists l. by rewrite <- !list_elem_of_In.
Qed.

(** Clipping keeps what is at or above the bound. *)
Lemma covered_clip lower rs k s : covered (clip lower rs) k s <-> covered rs k s /\ bytes_le lower k.
Proof.
  unfold covered, clip. split.
  - intros (r & Hr & Hs & He & Hq). apply list_elem_of_In, in_map_iff in Hr as (e & <- & Hin). apply filter_In in Hin as [Hin _].
    cbn in *. destruct (bytes_ltb (rd_start e) lower) eqn:El.
    + apply bytes_ltb_spec in El. split; [| done]. exists e. split; [by apply list_elem_of_In |]. split; [| done].
      apply bytes_lt_le. by eapply bytes_lt_le_trans.
    + apply bytes_ltb_ge in El. split; [| by eapply bytes_le_trans]. exists e. split; [by apply list_elem_of_In | done].
  - intros [(e & Hin & Hs & He & Hq) Hl]. exists (clip_start lower e). split.
    + apply list_elem_of_In, in_map, filter_In. split; [by apply list_elem_of_In |]. apply negb_true_iff, bytes_leb_gt.
      by eapply bytes_le_lt_trans.
    + cbn. destruct (bytes_ltb (rd_start e) lower); done.
Qed.

(** ** One entry into the merged section *)

(** The drop rule on arrival: an older entry of the range just emitted. *)
Definition arrive (bot : bool) (oldest : u64) (last : option RdelEntry) (e : RdelEntry) : option RdelEntry :=
  if bot && (rd_seq e <? oldest)%Z &&
     match last with
     | Some p => (rd_seq e <? rd_seq p)%Z && (rd_seq p <=? oldest)%Z && same_range p e
     | None => false
     end
  then None else Some e.

(** Taking [e]: what is emitted and what is pending after. *)
Definition absorb (bot : bool) (oldest : u64) (last p : option RdelEntry) (e : RdelEntry) : option RdelEntry * option RdelEntry :=
  match p with
  | Some q =>
      if (rd_seq e =? rd_seq q)%Z && bytes_leb (rd_start e) (rd_end q) then
        (None, Some (if bytes_ltb (rd_end q) (rd_end e) then mkRdel (rd_start q) (rd_end e) (rd_seq q) else q))
      else (Some q, arrive bot oldest (Some q) e)
  | None => (None, arrive bot oldest last e)
  end.

(** Seen by every reader through a newer entry of [em]. *)
Definition shadowed_by (bot : bool) (oldest : u64) (em : list RdelEntry) (k : bytes) (s : u64) : Prop :=
  bot = true /\ (s < oldest)%Z /\ exists s', (s < s' <= oldest)%Z /\ covered em k s'.

Definition within (from to : list RdelEntry) : Prop := forall k s, covered to k s -> covered from k s.
Definition kept (bot : bool) (oldest : u64) (em from to : list RdelEntry) : Prop :=
  forall k s, covered from k s -> covered to k s \/ shadowed_by bot oldest em k s.

(** A nonempty range. *)
Definition proper (r : RdelEntry) : Prop := bytes_lt (rd_start r) (rd_end r).

Lemma covered_one r k s : covered [r] k s <-> bytes_le (rd_start r) k /\ bytes_lt k (rd_end r) /\ rd_seq r = s.
Proof. rewrite covered_cons. split; [by intros [? | []%covered_nil] | by left]. Qed.

Lemma shadowed_mono bot oldest a b k s : (forall s', covered a k s' -> covered b k s') -> shadowed_by bot oldest a k s -> shadowed_by bot oldest b k s.
Proof. intros Hi (Hb & Hs & s' & Hr & Hc). split; [done |]. split; [done |]. exists s'. auto. Qed.

Lemma arrive_within bot oldest last e k s : covered (option_list (arrive bot oldest last e)) k s -> covered [e] k s.
Proof. unfold arrive. destruct (_ && _ && _); [by intros []%covered_nil | done]. Qed.

Lemma arrive_kept bot oldest last e k s : covered [e] k s ->
  covered (option_list (arrive bot oldest last e)) k s \/ shadowed_by bot oldest (option_list last) k s.
Proof.
  intros Hc. unfold arrive. destruct (_ && _ && _) eqn:Ed; [right | by left].
  apply andb_true_iff in Ed as [[-> Hs%Z.ltb_lt]%andb_true_iff Hl]. destruct last as [p |]; [| done].
  apply andb_true_iff in Hl as [[Hn%Z.ltb_lt Ho%Z.leb_le]%andb_true_iff Hr]. unfold same_range in Hr.
  apply andb_true_iff in Hr as [E1%bytes_eqb_spec E2%bytes_eqb_spec]. apply covered_one in Hc as (Hle & Hlt & Hq).
  split; [done |]. split; [lia |]. exists (rd_seq p). split; [lia |]. apply covered_one. by rewrite E1, E2.
Qed.

Lemma grown_covers q e k s : rd_seq e = rd_seq q -> bytes_le (rd_start e) (rd_end q) -> bytes_le (rd_start q) (rd_start e) ->
  covered [if bytes_ltb (rd_end q) (rd_end e) then mkRdel (rd_start q) (rd_end e) (rd_seq q) else q] k s <-> covered [q; e] k s.
Proof.
  intros Hs Ha Hb. rewrite (covered_cons q [e]), !covered_one. destruct (bytes_ltb (rd_end q) (rd_end e)) eqn:El; cbn [rd_start rd_end rd_seq].
  - apply bytes_ltb_spec in El. split.
    + intros (H1 & H2 & H3). destruct (bytes_ltb k (rd_end q)) eqn:Ek; [left | right].
      * by apply bytes_ltb_spec in Ek.
      * apply bytes_ltb_ge in Ek. split; [by eapply bytes_le_trans | split; [done | congruence]].
    + intros [(H1 & H2 & H3) | (H1 & H2 & H3)].
      * split; [done |]. split; [| done]. eapply bytes_lt_le_trans; [exact H2 |]. by apply bytes_lt_le.
      * split; [by eapply bytes_le_trans |]. split; [done | congruence].
  - apply bytes_ltb_ge in El. split; [by left |]. intros [? | (H1 & H2 & H3)]; [done |].
    split; [by eapply bytes_le_trans |]. split; [by eapply bytes_lt_le_trans | congruence].
Qed.

(** What [absorb] does to coverage. *)
Lemma absorb_covers bot oldest last p e o p' : absorb bot oldest last p e = (o, p') ->
  (forall q, p = Some q -> bytes_le (rd_start q) (rd_start e)) ->
  within (option_list p ++ [e]) (option_list o ++ option_list p') /\
  kept bot oldest (option_list (match o with Some _ => o | None => last end)) (option_list p ++ [e]) (option_list o ++ option_list p').
Proof.
  unfold absorb. intros Ha Hq. destruct p as [q |].
  - destruct (_ && _) eqn:Ec.
    + injection Ha as <- <-. apply andb_true_iff in Ec as [E1%Z.eqb_eq E2%bytes_leb_spec].
      split; intros k s Hc; [| left]; cbn [option_list from_option app] in *; by apply (grown_covers q e k s E1 E2 (Hq q eq_refl)).
    + injection Ha as <- <-. split; intros k s Hc; cbn [option_list from_option app] in *; apply covered_cons in Hc.
      * apply covered_cons. destruct Hc as [? | Hc]; [by left |]. right. by eapply arrive_within.
      * rewrite covered_app. destruct Hc as [? | Hc]; [left; left; by apply (covered_one q) |]. destruct (arrive_kept bot oldest (Some q) e k s Hc); [left; by right | by right].
  - injection Ha as <- <-. split; intros k s Hc; cbn [option_list from_option app] in *; [exact (arrive_within _ _ _ _ _ _ Hc) |].
    rewrite covered_app. destruct (arrive_kept bot oldest last e k s Hc); [left; by right | by right].
Qed.

(** The pending entry is the one taken, or the old one with its end or the longer of the two. *)
Lemma absorb_shape bot oldest last p e o p' : absorb bot oldest last p e = (o, p') ->
  (forall q, o = Some q -> p = Some q) /\
  forall r, p' = Some r -> (r = e /\ o = p) \/
    (o = None /\ exists q, p = Some q /\ rd_start r = rd_start q /\
      (rd_end r = rd_end q \/ rd_end r = rd_end e /\ bytes_lt (rd_end q) (rd_end e))).
Proof.
  assert (forall last r, arrive bot oldest last e = Some r -> r = e) as Har.
  { intros la r. unfold arrive. destruct (_ && _ && _); [done | by intros [= ->]]. }
  unfold absorb. intros Ha. destruct p as [q |].
  - destruct (_ && _).
    + injection Ha as <- <-. split; [done |]. intros r [= <-]. right. split; [done |]. exists q. split; [done |].
      destruct (bytes_ltb (rd_end q) (rd_end e)) eqn:El; [| auto]. apply bytes_ltb_spec in El. cbn. auto.
    + injection Ha as <- Hp. split; [done |]. intros r ->. left. by apply Har in Hp.
  - injection Ha as <- Hp. split; [done |]. intros r ->. left. by apply Har in Hp.
Qed.

(** ** The heads *)

Section merge.
  Context {D E : Type} `{Laws : DeviceLaws D E}.
  Context (KEY_MAX : nat) (d : D) (v : TargetView) (live : u64 -> Prop).

  Abbreviation head_rest := (head_rest (E := E) KEY_MAX d v live).
  Abbreviation rm_head := (rm_head KEY_MAX).

(** What the head yields from here on. *)
Definition head_list (h : RdelHead) (l : list RdelEntry) : Prop :=
  match rh_entry h with
  | Some e => exists l', l = e :: l' /\ sized KEY_MAX e /\ head_rest h l'
  | None => head_rest h l
  end.

Lemma secs_weight_le : forall secs n, later (E := E) KEY_MAX d v live n secs ->
  (secs_weight secs <= sum_list_with (fun id => target_blocks v id * (BLOCK + 1) + 1) (drop n (tv_ids v)))%nat.
Proof.
  induction secs as [|[lower bs] secs IH]; intros n [Hl Hs]; [cbn; lia |]. cbn [secs_weight sum_list_with].
  destruct (Hs 0%nat lower bs eq_refl) as (first & blocks & Hsec & Hso). rewrite Nat.add_0_r in Hsec.
  destruct (lookup_lt_is_Some_2 (tv_ids v) n) as [id Hid]; [cbn in Hl; lia |]. rewrite (drop_S _ _ _ Hid). cbn [sum_list_with].
  assert (length bs = target_blocks v id) as Hb.
  { unfold section in Hsec. rewrite Hid in Hsec. unfold target_blocks. destruct (List.find _ _) as [t |]; [| done].
    destruct (rdel_first t); [| done]. injection Hsec as _ <- _. rewrite (so_blocks _ _ _ _ _ _ _ Hso). lia. }
  pose proof (section_entries_le d first bs (so_on _ _ _ _ _ _ _ Hso)). specialize (IH (S n)). fold (secs_weight secs).
  enough (later (E := E) KEY_MAX d v live (S n) secs) as Hlat by (specialize (IH Hlat); nia).
  split; [cbn in *; lia |]. intros i lo bs2 Hi. destruct (Hs (S i) lo bs2 Hi) as (f2 & b2 & Hs2 & Ho2). exists f2, b2.
  split; [| done]. rewrite <- Hs2. f_equal. lia.
Qed.

Lemma sum_drop_le {A} (f : A -> nat) n l : (sum_list_with f (drop n l) <= sum_list_with f l)%nat.
Proof. revert n. induction l as [|x l IH]; intros [|n]; cbn; [lia | lia | lia |]. specialize (IH n). lia. Qed.

Lemma head_rest_bound h bs b unread secs : sect_on (E := E) KEY_MAX d live (rh_first_block h) (rh_rdel_blocks h) (rh_lower h) bs ->
  at_section h bs b unread -> (if rh_concat h then later (E := E) KEY_MAX d v live (rh_next_target h) secs else secs = []) ->
  (length bs - b + length unread + secs_weight secs <= fill_bound v h)%nat.
Proof.
  intros Hso Hat Hlat. unfold fill_bound. rewrite (so_blocks _ _ _ _ _ _ _ Hso), Nat2Z.id.
  pose proof (section_entries_le d _ bs (so_on _ _ _ _ _ _ _ Hso)) as Hse.
  assert (length unread <= length (concat bs))%nat as Hu.
  { destruct Hat as [_ [(_ & _ & ->) | (pre & suf & Hb & _ & _ & _ & ->)]].
    - rewrite <- (take_drop b bs) at 2. rewrite concat_app, length_app. lia.
    - rewrite <- (take_drop_middle bs b _ Hb) at 2. rewrite concat_app. cbn [concat]. rewrite !length_app. lia. }
  assert (secs_weight secs <= sum_list_with (fun id => target_blocks v id * (BLOCK + 1) + 1) (tv_ids v))%nat.
  { destruct (rh_concat h); [| subst secs; cbn; lia]. pose proof (secs_weight_le secs _ Hlat).
    pose proof (sum_drop_le (fun id => target_blocks v id * (BLOCK + 1) + 1)%nat (rh_next_target h) (tv_ids v)). lia. }
  nia.
Qed.

Lemma fill_head_step h l : head_list h l ->
  exists h', st_runs (fill_rdel_head (E := E) KEY_MAX d v) h h' (Ok tt) /\ head_list h' l /\ rh_entry h' = hd_error l.
Proof.
  intros Hl. unfold head_list in Hl. destruct (rh_entry h) as [e |] eqn:Ee.
  - destruct Hl as (l' & -> & Hrest). exists h. split; [| split; [unfold head_list; rewrite Ee; by exists l' | done]].
    apply st_runs_get. rewrite Ee. apply st_runs_ret.
  - destruct Hl as (bs & b & unread & secs & Hso & Hat & Hlat & ->). pose proof (head_rest_bound h bs b unread secs Hso Hat Hlat) as Hb.
    destruct (fill_loop_step KEY_MAX d v live (S (fill_bound v h)) h bs b unread secs Ee Hso Hat Hlat) as (h' & Hrun & _ & Hf); [lia |].
    exists h'. split; [apply st_runs_get; rewrite Ee; exact Hrun |]. unfold head_list.
    destruct (clip _ _ ++ _) as [|e l]; destruct Hf as [-> Hf]; (split; [| done]); [done |]. by exists l.
Qed.

Lemma head_list_length h l : head_list h l -> (length l <= S (fill_bound v h))%nat.
Proof.
  assert (forall l, head_rest h l -> (length l <= fill_bound v h)%nat) as Hr.
  { intros l0 (bs & b & unread & secs & Hso & Hat & Hlat & ->). pose proof (head_rest_bound h bs b unread secs Hso Hat Hlat) as Hb.
    rewrite length_app. pose proof (clip_length (as_slice (rh_lower h)) unread).
    enough (length (sections_live secs) <= secs_weight secs)%nat by lia. clear.
    induction secs as [|[lower bs] secs IH]; [cbn; lia |]. unfold sections_live, secs_weight in *. cbn [map concat sum_list_with].
    rewrite length_app. pose proof (clip_length (as_slice lower) (concat bs)). lia. }
  unfold head_list. destruct (rh_entry h) as [e |]; [| intros Hl; specialize (Hr l Hl); lia].
  intros (l' & -> & _ & Hl). specialize (Hr l' Hl). cbn. lia.
Qed.

(** ** The merger *)

(** The heads' lists. *)
Record merging (m : RdelMerger) (ls : list (list RdelEntry)) : Prop := {
  mg_n : length ls = rm_n m;
  mg_room : (rm_n m <= length (rm_heads m))%nat;
  mg_heads : forall i l, ls !! i = Some l -> head_list (rm_head m i) l;
}.

Definition rm_with_heads (hs : list RdelHead) (m : RdelMerger) : RdelMerger :=
  mkMerger hs (rm_n m) (rm_pending m) (rm_current m) (rm_last_emitted m) (rm_bottommost m) (rm_oldest_snapshot m).

Lemma rm_head_set m i j h : (i < length (rm_heads m))%nat ->
  rm_head (rm_set_head i h m) j = if decide (i = j) then h else rm_head m j.
Proof.
  intros Hi. unfold CompactRdel.rm_head. cbn [rm_set_head rm_heads]. rewrite !nth_lookup. destruct (decide (i = j)) as [<- | Hne].
  - by rewrite list_lookup_insert_eq.
  - by rewrite list_lookup_insert_ne.
Qed.

Lemma merging_set m ls i h l : merging m ls -> (i < length ls)%nat -> head_list h l -> merging (rm_set_head i h m) (<[i := l]> ls).
Proof.
  intros [Hn Hr Hh] Hi Hl. split.
  - by rewrite length_insert.
  - cbn. by rewrite length_insert.
  - intros j l2 Hj. rewrite rm_head_set by lia. apply list_lookup_insert_Some in Hj as [(<- & <- & _) | [Hne Hj]]; [by rewrite decide_True |].
    rewrite decide_False by done. by apply Hh.
Qed.

Lemma fill_heads_step ls : forall todo m, merging m ls -> Forall (fun i => (i < length ls)%nat) todo ->
  exists m' hs, st_runs (fill_heads (E := E) KEY_MAX d todo v) m m' (Ok tt) /\ m' = rm_with_heads hs m /\ merging m' ls /\
    (forall i l, ls !! i = Some l -> i ∈ todo \/ rh_entry (rm_head m i) = hd_error l -> rh_entry (rm_head m' i) = hd_error l).
Proof.
  induction todo as [|i todo IH]; intros m Hm Ht.
  - exists m, (rm_heads m). split; [apply st_runs_ret |]. split; [by destruct m |]. split; [done |].
    intros i l Hi [Hin | He]; [by apply not_elem_of_nil in Hin | done].
  - apply Forall_cons in Ht as [Hi Ht]. destruct (lookup_lt_is_Some_2 ls i Hi) as [l Hl]. pose proof (mg_heads _ _ Hm i l Hl) as Hhl.
    assert (exists m1 hs, st_runs (match rh_entry (rm_head m i) with
        | Some _ => st_ret tt
        | None => st_zoom (fun m => rm_head m i) (rm_set_head i) (fill_rdel_head (E := E) KEY_MAX d v) end) m m1 (Ok tt) /\
      m1 = rm_with_heads hs m /\ merging m1 ls /\ rh_entry (rm_head m1 i) = hd_error l /\
      (forall j, j <> i -> rm_head m1 j = rm_head m j)) as (m1 & hs1 & Hrun1 & Em1 & Hm1 & He1 & Hj1).
    { destruct (rh_entry (rm_head m i)) as [e |] eqn:Ee.
      - exists m, (rm_heads m). split; [apply st_runs_ret |]. split; [by destruct m |]. split; [done |]. split; [| done].
        unfold head_list in Hhl. rewrite Ee in *. destruct Hhl as (l' & -> & _). done.
      - destruct (fill_head_step (rm_head m i) l Hhl) as (h' & Hrun & Hl' & He'). exists (rm_set_head i h' m), (<[i := h']> (rm_heads m)).
        assert (i < length (rm_heads m))%nat as Hi2 by (pose proof (mg_room _ _ Hm); pose proof (mg_n _ _ Hm); lia).
        split; [by apply (st_runs_zoom (fun m => rm_head m i) (rm_set_head i)) |]. split; [done |].
        split; [| split; [by rewrite rm_head_set, decide_True | intros j Hj; by rewrite rm_head_set, decide_False]].
        pose proof (merging_set m ls i h' l Hm Hi Hl') as Hms. by rewrite list_insert_id in Hms. }
    destruct (IH m1 Hm1 Ht) as (m' & hs & Hrun & Em & Hm' & Hfill). exists m', hs. split.
    { cbn [fill_heads]. apply st_runs_get. eapply st_runs_seq; [exact Hrun1 | exact Hrun]. }
    split; [by rewrite Em, Em1 |]. split; [done |]. intros j l2 Hj Hor. apply Hfill; [done |].
    destruct (decide (j = i)) as [-> | Hne]; [right; by replace l2 with l by congruence |].
    destruct Hor as [[-> | Hin]%elem_of_cons | He]; [done | by left |]. right. by rewrite Hj1.
Qed.

Lemma entry_less_start a b : bytes_le (rd_start b) (rd_start a) \/ rdel_entry_less a b = true.
Proof.
  unfold rdel_entry_less. destruct (bytes_ltb (rd_start a) (rd_start b)) eqn:El; [by right | left]. by apply bytes_ltb_ge.
Qed.

Lemma entry_less_le a b : rdel_entry_less a b = true -> bytes_le (rd_start a) (rd_start b).
Proof.
  unfold rdel_entry_less. intros [Hlt | [Heq _]%andb_true_iff]%orb_true_iff; [by apply bytes_lt_le, bytes_ltb_spec |].
  apply bytes_eqb_spec in Heq as ->. apply bytes_le_refl.
Qed.

(** The chosen head starts no later than any other. *)
Lemma min_head_least m :
  match min_head KEY_MAX m with
  | None => forall i, (i < rm_n m)%nat -> rh_entry (rm_head m i) = None
  | Some j => (j < rm_n m)%nat /\ exists e, rh_entry (rm_head m j) = Some e /\
      forall i e', (i < rm_n m)%nat -> rh_entry (rm_head m i) = Some e' -> bytes_le (rd_start e) (rd_start e')
  end.
Proof.
  unfold min_head. induction (rm_n m) as [|n IH]; [cbn; lia |].
  rewrite seq_S, fold_left_app. cbn [fold_left Nat.add]. unfold min_head_step.
  destruct (fold_left _ _ None) as [j |]; destruct (rh_entry (rm_head m n)) as [e |] eqn:En; cbn [Nat.add].
  - destruct IH as (Hj & b & Hb & Hle). rewrite Hb. destruct (rdel_entry_less e b) eqn:El.
    + split; [lia |]. exists e. split; [done |]. intros i e' Hi He'. destruct (decide (i = n)) as [-> | Hne].
      { replace e' with e by congruence. apply bytes_le_refl. }
      eapply bytes_le_trans; [by apply entry_less_le |]. by apply (Hle i); [lia |].
    + split; [lia |]. exists b. split; [done |]. intros i e' Hi He'. destruct (decide (i = n)) as [-> | Hne]; [| by apply (Hle i); [lia |]].
      replace e' with e by congruence. destruct (entry_less_start e b) as [? | Hx]; [done | congruence].
  - destruct IH as (Hj & b & Hb & Hle). split; [lia |]. exists b. split; [done |]. intros i e' Hi He'.
    apply (Hle i); [| done]. destruct (decide (i = n)) as [-> | Hne]; [congruence | lia].
  - split; [lia |]. exists e. split; [done |]. intros i e' Hi He'. destruct (decide (i = n)) as [-> | Hne].
    + replace e' with e by congruence. apply bytes_le_refl.
    + rewrite IH in He' by lia. done.
  - intros i Hi. destruct (decide (i = n)) as [-> | Hne]; [done | apply IH; lia].
Qed.

(** ** One pull *)

Definition left_of (p : option RdelEntry) (ls : list (list RdelEntry)) : list RdelEntry := option_list p ++ concat ls.

Definition start_le (a b : RdelEntry) : Prop := bytes_le (rd_start a) (rd_start b).

(** The merge's order: sorted heads, the pending entry before them, the emitted before it. *)
Record lined (last p : option RdelEntry) (ls : list (list RdelEntry)) : Prop := {
  ln_sorted : Forall (StronglySorted start_le) ls;
  ln_proper : Forall proper (left_of p ls);
  ln_sized : Forall (sized KEY_MAX) (left_of p ls);
  ln_pending : forall q, p = Some q -> Forall (start_le q) (concat ls);
  ln_last : forall c, last = Some c -> Forall (start_le c) (left_of p ls);
}.

Lemma take_head (ls : list (list RdelEntry)) i e l : ls !! i = Some (e :: l) -> concat ls ≡ₚ e :: concat (<[i := l]> ls).
Proof.
  intros Hi. rewrite <- (take_drop_middle ls i _ Hi) at 1. rewrite (insert_take_drop ls i) by (by eapply lookup_lt_Some).
  rewrite !concat_app. cbn [concat app]. by rewrite <- Permutation_middle.
Qed.

Lemma covered_perm a b k s : a ≡ₚ b -> covered a k s <-> covered b k s.
Proof. intros Hp. unfold covered. by setoid_rewrite Hp. Qed.

Lemma lined_absorb bot oldest last p ls i e l o p' : lined last p ls -> ls !! i = Some (e :: l) -> Forall (start_le e) (concat ls) ->
  absorb bot oldest last p e = (o, p') -> lined (match o with Some _ => o | None => last end) p' (<[i := l]> ls).
Proof.
  intros [Hso Hpr Hsz Hpe Hla] Hi Hmin Ha. pose proof (take_head ls i e l Hi) as Hperm.
  destruct (absorb_shape _ _ _ _ _ _ _ Ha) as [Ho Hp']. unfold left_of in *.
  rewrite Hperm in *. apply Forall_cons in Hmin as [_ Hmin].
  apply Forall_app in Hpr as [Hpr1 [Hpe2 Hpr2]%Forall_cons]. apply Forall_app in Hsz as [Hsz1 [Hse2 Hsz2]%Forall_cons].
  assert (forall r, p' = Some r -> proper r /\ sized KEY_MAX r /\ Forall (start_le r) (concat (<[i := l]> ls)) /\
    (forall c, (match o with Some _ => o | None => last end) = Some c -> start_le c r)) as Hr.
  { intros r Er. destruct (Hp' r Er) as [[-> Eo] | (Eo & q & Eq & Es & Een)].
    - split_and!; [done | done | done |]. intros c Hc. destruct p as [q |]; subst o.
      + injection Hc as <-. specialize (Hpe q eq_refl). rewrite Hperm in Hpe. by apply Forall_cons in Hpe as [? _].
      + specialize (Hla c Hc). rewrite Hperm in Hla. cbn in Hla. by apply Forall_cons in Hla as [? _].
    - subst p o. cbn in Hpr1, Hsz1. apply Forall_cons in Hpr1 as [Hq _]. apply Forall_cons in Hsz1 as [[Hz1 Hz2] _]. destruct Hse2 as [_ Hse2].
      specialize (Hpe q eq_refl). rewrite Hperm in Hpe. apply Forall_cons in Hpe as [_ Hpe]. split_and!.
      + unfold proper in *. rewrite Es. destruct Een as [-> | [-> Hlt]]; [done |]. eapply bytes_lt_le_trans; [exact Hq |]. by apply bytes_lt_le.
      + split; [by rewrite Es |]. by destruct Een as [-> | [-> _]].
      + unfold start_le in *. by rewrite Es.
      + intros c Hc. specialize (Hla c Hc). cbn in Hla. apply Forall_cons in Hla as [? _]. unfold start_le in *. by rewrite Es. }
  assert (forall P : RdelEntry -> Prop, (forall r, p' = Some r -> P r) -> Forall P (concat (<[i := l]> ls)) -> Forall P (option_list p' ++ concat (<[i := l]> ls))) as Hall.
  { intros P H1 H2. apply Forall_app. split; [| done]. destruct p' as [r |]; [| constructor]. constructor; [by apply H1 | constructor]. }
  split.
  - apply Forall_insert; [done |]. rewrite Forall_lookup in Hso. specialize (Hso i _ Hi). by inversion Hso.
  - apply Hall; [| done]. intros r Er. by apply Hr.
  - apply Hall; [| done]. intros r Er. by apply Hr.
  - intros r Er. by apply Hr.
  - intros c Hc. apply Hall; [intros r Er; by apply Hr |]. destruct o as [q |].
    + injection Hc as <-. specialize (Hpe q (Ho q eq_refl)). rewrite Hperm in Hpe. by apply Forall_cons in Hpe as [_ ?].
    + specialize (Hla c Hc). rewrite Hperm in Hla. apply Forall_app in Hla as [_ Hla]. by apply Forall_cons in Hla as [_ ?].
Qed.

Abbreviation remaining m ls := (left_of (rm_pending m) ls).

(** One [next_merged]: [r] says whether an entry was emitted. *)
Definition pulled (m : RdelMerger) (ls : list (list RdelEntry)) (r : bool) (m' : RdelMerger) (ls' : list (list RdelEntry)) : Prop :=
  let em := option_list (rm_last_emitted m) in let c := rm_current m' in
  rm_bottommost m' = rm_bottommost m /\ rm_oldest_snapshot m' = rm_oldest_snapshot m /\
  if r then
    rm_last_emitted m' = Some c /\ proper c /\ sized KEY_MAX c /\ (forall c0, rm_last_emitted m = Some c0 -> start_le c0 c) /\
    within (remaining m ls) (c :: remaining m' ls') /\
    kept (rm_bottommost m) (rm_oldest_snapshot m) (c :: em) (remaining m ls) (c :: remaining m' ls') /\
    (length (remaining m' ls') < length (remaining m ls))%nat
  else
    rm_last_emitted m' = rm_last_emitted m /\ remaining m' ls' = [] /\
    kept (rm_bottommost m) (rm_oldest_snapshot m) em (remaining m ls) [].

Lemma pulled_trans m ls m1 ls1 r m' ls' : rm_last_emitted m1 = rm_last_emitted m -> rm_bottommost m1 = rm_bottommost m ->
  rm_oldest_snapshot m1 = rm_oldest_snapshot m -> within (remaining m ls) (remaining m1 ls1) ->
  kept (rm_bottommost m) (rm_oldest_snapshot m) (option_list (rm_last_emitted m)) (remaining m ls) (remaining m1 ls1) ->
  (length (remaining m1 ls1) <= length (remaining m ls))%nat -> pulled m1 ls1 r m' ls' -> pulled m ls r m' ls'.
Proof.
  intros El Eb Eo Hw Hk Hlen Hp. unfold pulled in *. rewrite El, Eb, Eo in Hp. destruct Hp as (Hb & Ho & Hp).
  split; [done |]. split; [done |]. destruct r.
  - destruct Hp as (H1 & H2 & H3 & H4 & H5 & H6 & H7). split_and!; [done | done | done | done | | | lia].
    + intros k s Hc. by apply Hw, H5.
    + intros k s Hc. destruct (Hk k s Hc) as [Hc1 | Hs]; [by apply H6 |]. right. eapply shadowed_mono; [| exact Hs].
      intros s' Hc'. apply covered_cons. by right.
  - destruct Hp as (H1 & H2 & H3). split_and!; [done | done |]. intros k s Hc. destruct (Hk k s Hc) as [Hc1 | Hs]; [by apply H3 | by right].
Qed.

(** The merger once entry [e] left head [i]. *)
Definition took (i : nat) (e : RdelEntry) (m : RdelMerger) : option RdelEntry * RdelMerger :=
  let '(o, p') := absorb (rm_bottommost m) (rm_oldest_snapshot m) (rm_last_emitted m) (rm_pending m) e in
  (o, rm_set_head i (rh_set_entry None (rm_head m i)) (rm_set_pending p' (match o with Some q => rm_emit q m | None => m end))).

Lemma set_pending_arrive e m : set_pending_from_head e m = rm_set_pending (arrive (rm_bottommost m) (rm_oldest_snapshot m) (rm_last_emitted m) e) m.
Proof. unfold set_pending_from_head, arrive. by destruct (_ && _ && _). Qed.

(** After the heads are filled, a turn takes the least head. *)
Lemma turn_taken fuel m i e : min_head KEY_MAX m = Some i -> rh_entry (rm_head m i) = Some e ->
  forall m' r,
  st_runs (match fst (took i e m) with Some _ => st_ret true | None => next_merged_loop (E := E) KEY_MAX d fuel v end) (snd (took i e m)) m' r ->
  st_runs (let@ m := st_get in
      match min_head KEY_MAX m with
      | None =>
          match rm_pending m with
          | Some p =>
              let@ _ := st_mod (fun m => rm_set_pending None (rm_emit p m)) in
              st_ret true
          | None => st_ret false
          end
      | Some mi =>
          match rh_entry (rm_head m mi) with
          | None => st_panic
          | Some h =>
              let taken := rm_set_head mi (rh_set_entry None (rm_head m mi)) in
              match rm_pending m with
              | Some p =>
                  if (rd_seq h =? rd_seq p)%Z && bytes_leb (rd_start h) (rd_end p) then
                    let grown := if bytes_ltb (rd_end p) (rd_end h) then mkRdel (rd_start p) (rd_end h) (rd_seq p) else p in
                    let@ _ := st_mod (fun m => taken (rm_set_pending (Some grown) m)) in
                    next_merged_loop KEY_MAX d fuel v
                  else
                    let@ _ := st_mod (fun m => taken (set_pending_from_head h (rm_emit p m))) in
                    st_ret true
              | None =>
                  let@ _ := st_mod (fun m => taken (set_pending_from_head h m)) in
                  next_merged_loop KEY_MAX d fuel v
              end
          end
      end) m m' r.
Proof.
  intros Hmin He m' r. unfold took, absorb. intros Hrun. apply st_runs_get. rewrite Hmin, He. cbv zeta. destruct (rm_pending m) as [q |] eqn:Ep.
  - destruct (_ && _); apply st_runs_mod_seq; rewrite ?set_pending_arrive; exact Hrun.
  - apply st_runs_mod_seq. rewrite set_pending_arrive. exact Hrun.
Qed.

Lemma took_step m ls i e l : merging m ls -> lined (rm_last_emitted m) (rm_pending m) ls -> ls !! i = Some (e :: l) ->
  rh_entry (rm_head m i) = Some e -> Forall (start_le e) (concat ls) ->
  let '(o, m1) := took i e m in
  merging m1 (<[i := l]> ls) /\ lined (rm_last_emitted m1) (rm_pending m1) (<[i := l]> ls) /\
  match o with
  | Some _ => pulled m ls true m1 (<[i := l]> ls)
  | None => forall r m' ls', pulled m1 (<[i := l]> ls) r m' ls' -> pulled m ls r m' ls'
  end.
Proof.
  intros Hm Hln Hi He Hmin. unfold took. destruct (absorb _ _ _ _ _) as [o p'] eqn:Ea.
  pose proof (take_head ls i e l Hi) as Hperm. destruct (absorb_shape _ _ _ _ _ _ _ Ea) as [Ho _].
  assert (forall q, rm_pending m = Some q -> bytes_le (rd_start q) (rd_start e)) as Hq.
  { intros q Eq. pose proof (ln_pending _ _ _ Hln q Eq) as Hf. rewrite Hperm in Hf. by apply Forall_cons in Hf as [? _]. }
  destruct (absorb_covers _ _ _ _ _ _ _ Ea Hq) as [Hw Hk]. pose proof (lined_absorb _ _ _ _ _ _ _ _ _ _ Hln Hi Hmin Ea) as Hln1.
  assert (forall k s, covered (remaining m ls) k s <-> covered (option_list (rm_pending m) ++ [e]) k s \/ covered (concat (<[i := l]> ls)) k s) as Hrem.
  { intros k s. unfold left_of. rewrite !covered_app, (covered_perm _ _ k s Hperm), covered_cons, covered_one. tauto. }
  set (m1 := rm_set_head _ _ _).
  assert (merging m1 (<[i := l]> ls)) as Hm1.
  { apply merging_set; [by destruct o, Hm | by apply lookup_lt_Some in Hi |]. pose proof (mg_heads _ _ Hm i _ Hi) as Hh.
    unfold head_list in *. rewrite He in Hh. destruct Hh as (l' & [= <-] & _ & Hh). exact Hh. }
  assert (rm_pending m1 = p') as Ep by done.
  assert (rm_last_emitted m1 = match o with Some _ => o | None => rm_last_emitted m end) as El by (by destruct o).
  split; [done |]. split; [by rewrite Ep, El |].
  assert (length (remaining m1 (<[i := l]> ls)) <= length (remaining m ls) /\ (o <> None -> length (remaining m1 (<[i := l]> ls)) < length (remaining m ls)))%nat as [Hle Hlt].
  { unfold left_of. rewrite Ep, !length_app, (Permutation_length Hperm). destruct o as [q |]; [rewrite (Ho q eq_refl) |];
      destruct p', (rm_pending m); cbn; split; intros; try done; lia. }
  destruct o as [q |].
  - specialize (Ho q eq_refl). unfold pulled. split; [done |]. split; [done |]. split; [done |].
    pose proof (ln_proper _ _ _ Hln) as Hp1. pose proof (ln_sized _ _ _ Hln) as Hs1. unfold left_of in Hp1, Hs1. rewrite Ho in Hp1, Hs1.
    apply Forall_cons in Hp1 as [Hp1 _]. apply Forall_cons in Hs1 as [Hs1 _]. split; [done |]. split; [done |]. split.
    { intros c0 Hc0. pose proof (ln_last _ _ _ Hln c0 Hc0) as Hf. unfold left_of in Hf. rewrite Ho in Hf. by apply Forall_cons in Hf as [? _]. }
    split_and!; [| | by apply Hlt].
    + intros k s Hc. apply Hrem. change (rm_current m1) with q in Hc. unfold left_of in Hc. rewrite Ep, app_comm_cons in Hc. apply covered_app in Hc as [Hc | Hc]; [| by right].
      left. apply Hw. exact Hc.
    + intros k s Hc. change (rm_current m1) with q. unfold left_of. rewrite Ep, app_comm_cons, covered_app.
      apply Hrem in Hc as [Hc | Hc]; [| left; by right]. destruct (Hk k s Hc) as [Hc1 | Hs]; [left; left; exact Hc1 |]. right.
      eapply shadowed_mono; [| exact Hs]. intros s' Hc'. apply covered_one in Hc'. apply covered_cons. by left.
  - intros r m' ls'. apply pulled_trans; try done.
    + intros k s Hc. apply Hrem. unfold left_of in Hc. rewrite Ep in Hc. apply covered_app in Hc as [Hc | Hc]; [left; apply Hw; exact Hc | by right].
    + intros k s Hc. unfold left_of. rewrite Ep, covered_app.
      apply Hrem in Hc as [Hc | Hc]; [| left; by right]. destruct (Hk k s Hc) as [Hc1 | Hs]; [left; left; exact Hc1 | by right].
Qed.

Lemma merge_loop_step : forall fuel m ls, merging m ls -> lined (rm_last_emitted m) (rm_pending m) ls -> (length (concat ls) < fuel)%nat ->
  exists m' r ls', st_runs (next_merged_loop (E := E) KEY_MAX d fuel v) m m' (Ok r) /\ merging m' ls' /\
    lined (rm_last_emitted m') (rm_pending m') ls' /\ pulled m ls r m' ls'.
Proof.
  induction fuel as [|fuel IH]; intros m ls Hm Hln Hf; [lia |]. cbn [next_merged_loop].
  destruct (fill_heads_step ls (List.seq 0 (rm_n m)) m Hm) as (m0 & hs & Hrun0 & Em0 & Hm0 & Hfill).
  { apply Forall_forall. intros i Hi. apply list_elem_of_In, in_seq in Hi. rewrite (mg_n _ _ Hm). lia. }
  assert (forall i l, ls !! i = Some l -> rh_entry (rm_head m0 i) = hd_error l) as Hfilled.
  { intros i l Hi. apply (Hfill i l Hi). left. apply list_elem_of_In, in_seq. apply lookup_lt_Some in Hi. rewrite (mg_n _ _ Hm) in Hi. lia. }
  assert (lined (rm_last_emitted m0) (rm_pending m0) ls) as Hln0 by (by subst m0).
  assert (forall r m' ls', pulled m0 ls r m' ls' -> pulled m ls r m' ls') as Hpl by (by subst m0).
  pose proof (min_head_least m0) as Hmin. destruct (min_head KEY_MAX m0) as [i |] eqn:Emin.
  - destruct Hmin as (Hi & e & He & Hle). rewrite <- (mg_n _ _ Hm0) in Hi. destruct (lookup_lt_is_Some_2 ls i Hi) as [l0 Hl0].
    pose proof (Hfilled i l0 Hl0) as Hh. rewrite He in Hh. destruct l0 as [|x l]; [done |]. injection Hh as <-.
    assert (Forall (start_le e) (concat ls)) as Hall.
    { apply Forall_forall. intros x Hx. apply list_elem_of_In, in_concat in Hx as (lx & Hlx & Hx). apply list_elem_of_In in Hlx, Hx.
      apply list_elem_of_lookup in Hlx as [j Hj]. destruct lx as [|y lx]; [by apply not_elem_of_nil in Hx |].
      assert (start_le e y) as Hy by (apply (Hle j); [rewrite <- (mg_n _ _ Hm0); by eapply lookup_lt_Some | by rewrite (Hfilled j _ Hj)]).
      apply elem_of_cons in Hx as [-> | Hx]; [done |]. pose proof (ln_sorted _ _ _ Hln) as Hs. rewrite Forall_lookup in Hs. specialize (Hs j _ Hj).
      apply StronglySorted_inv in Hs as [_ Hs]. rewrite Forall_forall in Hs. eapply bytes_le_trans; [exact Hy | by apply Hs]. }
    pose proof (took_step m0 ls i e l Hm0 Hln0 Hl0 He Hall) as Ht.
    assert (forall m' r, st_runs (match fst (took i e m0) with Some _ => st_ret true | None => next_merged_loop (E := E) KEY_MAX d fuel v end) (snd (took i e m0)) m' r ->
      st_runs (next_merged_loop (E := E) KEY_MAX d (S fuel) v) m m' r) as Hgo.
    { intros m' r Hr. cbn [next_merged_loop]. apply st_runs_get. eapply st_runs_seq; [exact Hrun0 |]. by eapply turn_taken. }
    destruct (took i e m0) as [o m1]. destruct Ht as (Hm1 & Hln1 & Hp1). destruct o as [q |].
    + exists m1, true, (<[i := l]> ls). split; [apply Hgo, st_runs_ret |]. auto.
    + destruct (IH m1 (<[i := l]> ls) Hm1 Hln1) as (m' & r & ls' & Hrun & Hm' & Hln' & Hp').
      { pose proof (Permutation_length (take_head ls i e l Hl0)) as Hlen. cbn in Hlen. lia. }
      exists m', r, ls'. split; [apply Hgo, Hrun | auto].
  - assert (concat ls = []) as Hnil.
    { assert (Forall (fun l => l = []) ls) as Hn.
      { apply Forall_lookup. intros i l Hi. pose proof (Hfilled i l Hi) as Hh. rewrite Hmin in Hh by (rewrite <- (mg_n _ _ Hm0); by eapply lookup_lt_Some).
        by destruct l. }
      clear -Hn. induction Hn as [|x l -> Hl IH]; done. }
    assert (forall m', rm_heads m' = rm_heads m0 -> rm_n m' = rm_n m0 -> merging m' ls) as Hmg.
    { intros m' E1 E2. destruct Hm0 as [H1 H2 H3]. split; [congruence | congruence |]. intros j l Hj. unfold CompactRdel.rm_head. rewrite E1. by apply H3. }
    destruct (rm_pending m0) as [p |] eqn:Ep.
    + exists (rm_set_pending None (rm_emit p m0)), true, ls. split.
      { apply st_runs_get. eapply st_runs_seq; [exact Hrun0 |]. apply st_runs_get. rewrite Emin, Ep. apply st_runs_mod_seq, st_runs_ret. }
      split; [by apply Hmg |]. unfold left_of. cbn [rm_set_pending rm_emit rm_last_emitted rm_pending].
      destruct Hln0 as [Hso Hpr Hsz Hpe Hla]. unfold left_of in *. rewrite Hnil, app_nil_r in *. apply Forall_cons in Hpr as [Hpr _]. apply Forall_cons in Hsz as [Hsz _].
      split; [split; unfold left_of; rewrite ?Hnil; try done; intros; constructor |]. apply Hpl. unfold pulled, left_of. rewrite Ep, Hnil.
      cbn [rm_set_pending rm_emit rm_last_emitted rm_pending rm_current rm_bottommost rm_oldest_snapshot].
      split_and!; try done.
      * intros c0 Hc0. specialize (Hla c0 Hc0). by apply Forall_cons in Hla as [? _].
      * by intros k s.
      * intros k s Hc. by left.
      * cbn. lia.
    + exists m0, false, ls. split.
      { apply st_runs_get. eapply st_runs_seq; [exact Hrun0 |]. apply st_runs_get. rewrite Emin, Ep. apply st_runs_ret. }
      split; [done |]. split; [by rewrite Ep |]. apply Hpl. unfold pulled, left_of. rewrite Ep, Hnil. split_and!; try done. intros k s Hc. by left.
Qed.

Lemma heads_total : forall hs (ls : list (list RdelEntry)), Forall2 (fun h (l : list RdelEntry) => length l <= S (fill_bound v h))%nat (take (length ls) hs) ls ->
  (length (concat ls) <= length hs + sum_list_with (fill_bound v) hs)%nat.
Proof.
  intros hs ls. revert hs. induction ls as [|l ls IH]; intros hs Hf; [cbn; lia |].
  destruct hs as [|h hs]; [by inversion Hf |]. cbn [take length] in Hf. apply Forall2_cons in Hf as [Hl Hf].
  specialize (IH hs Hf). cbn [concat length sum_list_with]. rewrite length_app. lia.
Qed.

Lemma merge_bound_le m ls : merging m ls -> (length (concat ls) <= merge_bound v m)%nat.
Proof.
  intros [Hn Hr Hh]. apply heads_total. apply Forall2_lookup. intros i.
  destruct (decide (i < length ls)%nat) as [Hi | Hge].
  - rewrite lookup_take_lt by done. destruct (lookup_lt_is_Some_2 ls i Hi) as [l Hl].
    destruct (lookup_lt_is_Some_2 (rm_heads m) i) as [h Hh2]; [lia |]. rewrite Hl, Hh2. constructor.
    specialize (Hh i l Hl). unfold CompactRdel.rm_head in Hh. rewrite nth_lookup, Hh2 in Hh. by apply head_list_length.
  - rewrite lookup_take_ge by lia. rewrite lookup_ge_None_2 by lia. constructor.
Qed.

Lemma next_merged_step m ls : merging m ls -> lined (rm_last_emitted m) (rm_pending m) ls ->
  exists m' r ls', st_runs (next_merged (E := E) KEY_MAX d v) m m' (Ok r) /\ merging m' ls' /\
    lined (rm_last_emitted m') (rm_pending m') ls' /\ pulled m ls r m' ls'.
Proof.
  intros Hm Hln. pose proof (merge_bound_le m ls Hm). destruct (merge_loop_step (S (merge_bound v m)) m ls Hm Hln) as (m' & r & ls' & Hrun & Hrest); [lia |].
  exists m', r, ls'. split; [| done]. apply st_runs_get. exact Hrun.
Qed.

(** ** The whole section *)

(** Pulling to the end yields [outs]. *)
Inductive pulls : RdelMerger -> list RdelEntry -> RdelMerger -> Prop :=
  | pulls_end m m' : st_runs (next_merged (E := E) KEY_MAX d v) m m' (Ok false) -> pulls m [] m'
  | pulls_next m m1 outs m' : st_runs (next_merged (E := E) KEY_MAX d v) m m1 (Ok true) -> pulls m1 outs m' ->
      pulls m (current_entry m1 :: outs) m'.

Lemma pulls_all : forall n m ls, (length (remaining m ls) < n)%nat -> merging m ls -> lined (rm_last_emitted m) (rm_pending m) ls ->
  exists outs m', pulls m outs m' /\ StronglySorted start_le outs /\ Forall proper outs /\ Forall (sized KEY_MAX) outs /\
    (forall c0, rm_last_emitted m = Some c0 -> Forall (start_le c0) outs) /\ within (remaining m ls) outs /\
    kept (rm_bottommost m) (rm_oldest_snapshot m) (option_list (rm_last_emitted m) ++ outs) (remaining m ls) outs /\
    (length outs <= length (remaining m ls))%nat.
Proof.
  induction n as [|n IH]; intros m ls Hn Hm Hln; [lia |].
  destruct (next_merged_step m ls Hm Hln) as (m1 & r & ls1 & Hrun & Hm1 & Hln1 & Hb & Ho & Hp). destruct r.
  - destruct Hp as (El & Hpr & Hsz & Hord & Hw & Hk & Hlen).
    destruct (IH m1 ls1 ltac:(lia) Hm1 Hln1) as (outs & m' & Hpu & Hso & Hprs & Hszs & Hfirst & Hw' & Hk' & Hlo). rewrite El, Hb, Ho in *.
    exists (current_entry m1 :: outs), m'. split; [by eapply pulls_next |]. specialize (Hfirst _ eq_refl). split_and!.
    + by constructor.
    + by constructor.
    + by constructor.
    + intros c0 Hc0. specialize (Hord c0 Hc0). constructor; [done |]. eapply Forall_impl; [exact Hfirst |]. intros x Hx. by eapply bytes_le_trans.
    + intros k s Hc. apply Hw. apply covered_cons in Hc as [Hc | Hc]; apply covered_cons; [by left | right; by apply Hw'].
    + intros k s Hc. destruct (Hk k s Hc) as [Hc1 | Hs].
      * apply covered_cons in Hc1 as [Hc1 | Hc1]; [left; apply covered_cons; by left |].
        destruct (Hk' k s Hc1) as [Hc2 | Hs]; [left; apply covered_cons; by right |]. right. eapply shadowed_mono; [| exact Hs].
        intros s' Hc'. apply covered_app. right. exact Hc'.
      * right. eapply shadowed_mono; [| exact Hs]. intros s' Hc'. apply covered_app. apply covered_cons in Hc' as [Hc' | Hc']; [right; apply covered_cons; by left | by left].
    + cbn [length]. lia.
  - destruct Hp as (El & Hnil & Hk). exists [], m1. split; [by apply pulls_end |]. split_and!; [constructor | constructor | constructor | intros; constructor | | | cbn; lia].
    + intros k s Hc. by apply covered_nil in Hc.
    + intros k s Hc. rewrite app_nil_r. by apply Hk.
Qed.

(** ** A new merger *)

(** A source with its section: the live bound and the blocks. *)
Definition source_on (s : Input) (sec : KeyBound * list (list RdelEntry)) : Prop :=
  fst sec = Manifest.first_key (in_tref s) /\
  sect_on (E := E) KEY_MAX d live (default U64_MAX (rdel_first (in_tref s))) (Manifest.rdel_blocks (in_tref s)) (fst sec) (snd sec).

Definition sec_live (sec : KeyBound * list (list RdelEntry)) : list RdelEntry := clip (as_slice (fst sec)) (concat (snd sec)).

(** The heads' lists: a source's unless retired, then all targets'. *)
Definition new_lists (secs : list (KeyBound * list (list RdelEntry))) (retired : u8) (with_targets : bool)
  (tsecs : list (KeyBound * list (list RdelEntry))) : list (list RdelEntry) :=
  imap (fun i sec => if Z.testbit retired (Z.of_nat i) then [] else sec_live sec) secs ++
  (if with_targets then [sections_live tsecs] else []).

Lemma sect_on_nil : (length (as_slice (EMPTY_BOUND KEY_MAX)) <= KEY_MAX)%nat -> sect_on (E := E) KEY_MAX d live 0 0 (EMPTY_BOUND KEY_MAX) [].
Proof. intros Hl. split; try done. intros i Hi. cbn in Hi. lia. Qed.

Lemma new_merging sources secs retired (wt bot : bool) oldest tsecs : (length sources < COMPACTION_KMAX)%nat -> Forall2 source_on sources secs ->
  (if wt then later (E := E) KEY_MAX d v live 0 tsecs else tsecs = []) ->
  merging (merger_new KEY_MAX sources retired wt bot oldest) (new_lists secs retired wt tsecs).
Proof.
  intros Hlen Hsrc Ht. pose proof (Forall2_length _ _ _ Hsrc) as Hl2. unfold COMPACTION_KMAX in Hlen.
  assert (Nat.min (length sources) (COMPACTION_KMAX - 1) = length sources) as Hmin by (unfold COMPACTION_KMAX; lia).
  assert (as_slice (EMPTY_BOUND KEY_MAX) = []) as He by done.
  split.
  - unfold merger_new, new_lists. cbn [rm_n]. rewrite Hmin, length_app, length_imap, Hl2. by destruct wt.
  - unfold merger_new. cbn [rm_n rm_heads]. rewrite Hmin, length_map, length_seq. unfold COMPACTION_KMAX. destruct wt; lia.
  - intros i l Hi.
    assert (forall h, nth i (rm_heads (merger_new KEY_MAX sources retired wt bot oldest)) h = new_head KEY_MAX sources (length sources) retired wt i) as Hnth.
    { intros h. unfold merger_new. cbn [rm_heads]. rewrite Hmin. assert (i < COMPACTION_KMAX)%nat as Hk.
      { apply lookup_lt_Some in Hi. unfold new_lists in Hi. rewrite length_app, length_imap in Hi. unfold COMPACTION_KMAX. destruct wt; cbn in Hi; lia. }
      rewrite nth_lookup, list_lookup_fmap, lookup_seq_lt by done. done. }
    unfold CompactRdel.rm_head. rewrite Hnth. unfold new_lists in Hi. unfold new_head.
    apply lookup_app_Some in Hi as [Hi | [Hge Hi]].
    + rewrite list_lookup_imap in Hi. destruct (secs !! i) as [sec |] eqn:Es; [| done]. injection Hi as <-.
      destruct (Forall2_lookup_r _ _ _ _ _ Hsrc Es) as (s & Hs & Hfst & Hso). rewrite Hs.
      rewrite (proj2 (Nat.ltb_lt _ _)) by (by eapply lookup_lt_Some). cbn [andb]. destruct (Z.testbit _ _); cbn [negb].
      * exists [], 0%nat, [], []. split; [apply sect_on_nil; rewrite He; cbn; lia |]. split; [split; [done | by left] |].
        rewrite (proj2 (Nat.eqb_neq _ _)) by (apply lookup_lt_Some in Hs; lia). done.
      * exists (snd sec), 0%nat, (concat (snd sec)), []. split; [cbn; by rewrite <- Hfst |]. split; [split; [done | by left] |].
        split; [done |]. unfold sec_live, sections_live. cbn. by rewrite app_nil_r, Hfst.
    + rewrite length_imap in *. destruct wt; [| done]. apply list_lookup_singleton_Some in Hi as [Hi <-]. assert (i = length sources) as -> by lia.
      rewrite lookup_ge_None_2 by lia. rewrite Nat.eqb_refl. cbn [andb].
      exists [], 0%nat, [], tsecs. split; [apply sect_on_nil; rewrite He; cbn; lia |]. split; [split; [done | by left] |]. done.
Qed.

Lemma clip_sorted lower rs : StronglySorted start_le rs -> StronglySorted start_le (clip lower rs).
Proof.
  induction 1 as [|e rs Hs IH Hf]; [constructor |]. rewrite clip_cons. destruct (bytes_leb _ _); [done |]. constructor; [done |].
  apply Forall_forall. intros x Hx. unfold clip in Hx. apply list_elem_of_In, in_map_iff in Hx as (y & <- & Hy).
  apply filter_In in Hy as [Hy _]. apply list_elem_of_In in Hy. rewrite Forall_forall in Hf. specialize (Hf y Hy). unfold start_le in *. cbn.
  destruct (bytes_ltb (rd_start e) lower) eqn:E1, (bytes_ltb (rd_start y) lower) eqn:E2; try done.
  - by apply bytes_ltb_ge.
  - apply bytes_ltb_ge in E1. apply bytes_ltb_spec in E2. apply bytes_lt_le in E2. by eapply bytes_le_trans.
Qed.

Lemma clip_elem lower rs x : x ∈ clip lower rs -> exists e, e ∈ rs /\ bytes_lt lower (rd_end e) /\ x = clip_start lower e.
Proof.
  unfold clip. intros Hx. apply list_elem_of_In, in_map_iff in Hx as (y & <- & Hy). apply filter_In in Hy as [Hy He].
  exists y. split; [by apply list_elem_of_In |]. split; [by apply bytes_leb_gt, negb_true_iff | done].
Qed.

Lemma clip_proper lower e : proper e -> bytes_lt lower (rd_end e) -> proper (clip_start lower e).
Proof. unfold proper. cbn. by destruct (bytes_ltb _ _). Qed.

(** Later sections start above what the earlier ones start with. *)
Inductive apart : list (KeyBound * list (list RdelEntry)) -> Prop :=
  | apart_nil : apart []
  | apart_cons lower bs secs : apart secs ->
      Forall (fun sec => bytes_le (as_slice lower) (as_slice (fst sec)) /\
        Forall (fun e => bytes_le (rd_start e) (as_slice (fst sec))) (concat bs)) secs -> apart ((lower, bs) :: secs).

Definition sec_ordered (sec : KeyBound * list (list RdelEntry)) : Prop :=
  StronglySorted start_le (concat (snd sec)) /\ Forall proper (concat (snd sec)).

Lemma sections_live_elem secs x : x ∈ sections_live secs -> exists sec, sec ∈ secs /\ x ∈ sec_live sec.
Proof.
  unfold sections_live. intros Hx. apply list_elem_of_In, in_concat in Hx as (l & Hl & Hx). apply in_map_iff in Hl as ([lower bs] & <- & Hs).
  exists (lower, bs). split; by apply list_elem_of_In.
Qed.

Lemma sections_sorted secs : apart secs -> Forall sec_ordered secs -> StronglySorted start_le (sections_live secs).
Proof.
  induction 1 as [|lower bs secs Ha IH Hf]; intros Hs; [constructor |]. apply Forall_cons in Hs as [[Hso _] Hs].
  unfold sections_live. cbn [map concat]. fold (sections_live secs). specialize (IH Hs).
  apply StronglySorted_app. split_and!; [| by apply clip_sorted | done]. intros x y Hx Hy.
  apply clip_elem in Hx as (e & He & _ & ->). apply sections_live_elem in Hy as ([lo2 bs2] & Hs2 & Hy).
  apply clip_elem in Hy as (e2 & _ & _ & ->). rewrite Forall_forall in Hf. destruct (Hf _ Hs2) as [Hl Hst]. rewrite Forall_forall in Hst.
  specialize (Hst e He). unfold start_le. cbn in *. eapply (bytes_le_trans _ (as_slice lo2)).
  - by destruct (bytes_ltb _ _).
  - destruct (bytes_ltb (rd_start e2) (as_slice lo2)) eqn:E2; [apply bytes_le_refl | by apply bytes_ltb_ge].
Qed.

Lemma sec_live_ok first blocks sec : sect_on (E := E) KEY_MAX d live first blocks (fst sec) (snd sec) -> sec_ordered sec ->
  StronglySorted start_le (sec_live sec) /\ Forall (fun r => proper r /\ sized KEY_MAX r) (sec_live sec).
Proof.
  intros Hon [Hs Hp]. split; [by apply clip_sorted |]. apply Forall_forall. intros x Hx. apply clip_elem in Hx as (e & He & Hl & ->).
  rewrite Forall_forall in Hp. pose proof (so_sized _ _ _ _ _ _ _ Hon) as Hz. rewrite Forall_forall in Hz.
  split; [apply clip_proper; auto | apply sized_clip; [auto | apply (so_lower _ _ _ _ _ _ _ Hon)]].
Qed.

Lemma new_lined sources secs retired (wt : bool) tsecs : Forall2 source_on sources secs ->
  (if wt then later (E := E) KEY_MAX d v live 0 tsecs else tsecs = []) -> Forall sec_ordered (secs ++ tsecs) -> apart tsecs ->
  lined None None (new_lists secs retired wt tsecs).
Proof.
  intros Hsrc Ht Hord Hap. apply Forall_app in Hord as [Ho1 Ho2].
  assert (Forall (fun l => StronglySorted start_le l /\ Forall (fun r => proper r /\ sized KEY_MAX r) l) (new_lists secs retired wt tsecs)) as Hall.
  { apply Forall_app. split.
    - apply Forall_lookup. intros i l Hi. rewrite list_lookup_imap in Hi. destruct (secs !! i) as [sec |] eqn:Es; [| done]. injection Hi as <-.
      destruct (Z.testbit _ _); [split; constructor |]. destruct (Forall2_lookup_r _ _ _ _ _ Hsrc Es) as (s & _ & _ & Hso).
      rewrite Forall_lookup in Ho1. eapply sec_live_ok; [exact Hso | by eapply Ho1].
    - destruct wt; [| constructor]. constructor; [| constructor]. split; [by apply sections_sorted |]. apply Forall_forall. intros x Hx.
      apply sections_live_elem in Hx as (sec & Hs & Hx). pose proof Hs as Hs2. apply list_elem_of_lookup in Hs as [i Hi]. destruct sec as [lower bs].
      destruct (proj2 Ht i lower bs Hi) as (first & blocks & _ & Hso). rewrite Forall_forall in Ho2.
      destruct (sec_live_ok first blocks (lower, bs) Hso (Ho2 _ Hs2)) as [_ Hf]. rewrite Forall_forall in Hf. by apply Hf. }
  assert (Forall (fun r => proper r /\ sized KEY_MAX r) (concat (new_lists secs retired wt tsecs))) as Hc.
  { apply Forall_concat. eapply Forall_impl; [exact Hall |]. by intros l [_ ?]. }
  split; unfold left_of; cbn [option_list app].
  - eapply Forall_impl; [exact Hall |]. by intros l [? _].
  - eapply Forall_impl; [exact Hc |]. by intros l [? _].
  - eapply Forall_impl; [exact Hc |]. by intros l [_ ?].
  - done.
  - done.
Qed.

(** [k] is deleted at [s] by a section of the job, above its table's live bound. *)
Definition job_covers (secs : list (KeyBound * list (list RdelEntry))) (retired : u8) (tsecs : list (KeyBound * list (list RdelEntry)))
  (k : bytes) (s : u64) : Prop :=
  (exists i sec, secs !! i = Some sec /\ Z.testbit retired (Z.of_nat i) = false /\ covered (concat (snd sec)) k s /\ bytes_le (as_slice (fst sec)) k) \/
  (exists sec, sec ∈ tsecs /\ covered (concat (snd sec)) k s /\ bytes_le (as_slice (fst sec)) k).

Lemma new_lists_cover secs retired (wt : bool) tsecs k s : (wt = false -> tsecs = []) ->
  covered (concat (new_lists secs retired wt tsecs)) k s <-> job_covers secs retired tsecs k s.
Proof.
  intros Hwt. unfold new_lists, job_covers. rewrite concat_app, covered_app, !covered_concat.
  assert ((exists l, l ∈ (if wt then [sections_live tsecs] else []) /\ covered l k s) <-> covered (sections_live tsecs) k s) as ->.
  { destruct wt.
    - split; [| intros Hc; exists (sections_live tsecs); split; [left | done]]. intros (l & Hl & Hc). by apply list_elem_of_singleton in Hl as ->.
    - rewrite Hwt by done. split; [intros (l & Hl & _); by apply not_elem_of_nil in Hl | by intros Hc%covered_nil]. }
  apply Morphisms_Prop.or_iff_morphism; split.
  - intros (l & Hl & Hc). apply list_elem_of_lookup in Hl as [i Hi]. rewrite list_lookup_imap in Hi. destruct (secs !! i) as [sec |] eqn:Es; [| done].
    injection Hi as <-. destruct (Z.testbit _ _) eqn:Eb; [by apply covered_nil in Hc |]. apply covered_clip in Hc. by exists i, sec.
  - intros (i & sec & Hi & Hb & Hc). exists (sec_live sec). split; [| by apply covered_clip]. apply list_elem_of_lookup. exists i.
    rewrite list_lookup_imap, Hi. cbn. by rewrite Hb.
  - intros Hc. apply covered_concat in Hc as (l & Hl & Hc). apply list_elem_of_In, in_map_iff in Hl as ([lower bs] & <- & Hs).
    exists (lower, bs). split; [by apply list_elem_of_In | by apply covered_clip].
  - intros ([lower bs] & Hs & Hc). apply covered_concat. exists (clip (as_slice lower) (concat bs)). split; [| by apply covered_clip].
    apply list_elem_of_In, in_map_iff. exists (lower, bs). split; [done | by apply list_elem_of_In].
Qed.

(** C9 The range-tombstone merge keeps every deletion.  Pulled to its end, the merger
    yields a section of nonempty ranges in ascending start order.  It covers a key at a
    sequence only where a live section of the job does, and everything the job covers
    stays covered; only at the bottom may a deletion older than every snapshot go, and
    then a newer one that every snapshot sees covers the key in its place. *)
Theorem rdel_merge_covers sources secs retired (wt bot : bool) oldest tsecs :
  (length sources < COMPACTION_KMAX)%nat -> Forall2 source_on sources secs ->
  (if wt then later (E := E) KEY_MAX d v live 0 tsecs else tsecs = []) -> Forall sec_ordered (secs ++ tsecs) -> apart tsecs ->
  exists outs m', pulls (merger_new KEY_MAX sources retired wt bot oldest) outs m' /\
    StronglySorted start_le outs /\ Forall proper outs /\
    (forall k s, covered outs k s -> job_covers secs retired tsecs k s) /\
    (forall k s, job_covers secs retired tsecs k s ->
      covered outs k s \/ (bot = true /\ (s < oldest)%Z /\ exists s', (s < s' <= oldest)%Z /\ covered outs k s')).
Proof.
  intros Hlen Hsrc Ht Hord Hap. set (ls := new_lists secs retired wt tsecs).
  destruct (pulls_all (S (length (left_of None ls))) (merger_new KEY_MAX sources retired wt bot oldest) ls) as (outs & m' & Hpu & Hso & Hpr & _ & _ & Hw & Hk & _).
  - cbn. lia.
  - by apply new_merging.
  - by eapply new_lined.
  - assert (forall k s, covered (left_of None ls) k s <-> job_covers secs retired tsecs k s) as Hcov.
    { intros k s. apply new_lists_cover. by intros ->. }
    exists outs, m'. split_and!; [done | done | done | |].
    + intros k s Hc. by apply Hcov, Hw.
    + intros k s Hc. apply Hcov in Hc. exact (Hk k s Hc).
Qed.
End merge.

(** ** Writes elsewhere *)

(** The merger stands as it did when the job's blocks read the same. *)
Section moved.
  Context {D E : Type} `{Laws : DeviceLaws D E}.
  Context (KEY_MAX : nat) (d d' : D) (v : TargetView) (live : u64 -> Prop).
  Context (Hsame : forall id, live id -> read_block d' id = read_block d id).

Lemma sect_on_ext first blocks lower bs : sect_on (E := E) KEY_MAX d live first blocks lower bs -> sect_on (E := E) KEY_MAX d' live first blocks lower bs.
Proof.
  intros []. split; auto. intros i rs Hi. destruct (so_on i rs Hi) as [Hw Hr]. split; [done |]. rewrite Hsame; [done |].
  apply so_live. by eapply lookup_lt_Some.
Qed.

Lemma head_rest_ext h l : head_rest (E := E) KEY_MAX d v live h l -> head_rest (E := E) KEY_MAX d' v live h l.
Proof.
  intros (bs & b & unread & secs & Hso & Hat & Hlat & ->). exists bs, b, unread, secs. split; [by apply sect_on_ext |]. split; [done |]. split; [| done].
  destruct (rh_concat h); [| done]. destruct Hlat as [Hl Hi]. split; [done |]. intros i lower bs' Hb. destruct (Hi i lower bs' Hb) as (f & n & Hs & Ho).
  exists f, n. split; [done | by apply sect_on_ext].
Qed.

Lemma merging_ext m ls : merging (E := E) KEY_MAX d v live m ls -> merging (E := E) KEY_MAX d' v live m ls.
Proof.
  intros [Hn Hr Hh]. split; [done | done |]. intros i l Hi. specialize (Hh i l Hi). unfold head_list in *.
  destruct (rh_entry _); [destruct Hh as (l' & -> & Hz & Hh); exists l'; split; [done |]; split; [done |] |]; by apply head_rest_ext.
Qed.
End moved.

(** ** A source and a target on a disk *)

Module RdelWitness.
#[local] Instance dev : BlockDevice MemDisk.disk Empty_set := MemDisk.device 64.
#[local] Instance dev_laws : DeviceLaws MemDisk.disk Empty_set := MemDisk.laws 64.

Definition rw_src : list RdelEntry := [mkRdel [97%Z] [99%Z] 7; mkRdel [98%Z] [102%Z] 9].
Definition rw_tgt : list RdelEntry := [mkRdel [97%Z] [100%Z] 3; mkRdel [99%Z] [101%Z] 7].

Definition rw_disk : MemDisk.disk := <[10%Z := image (rdel_body rw_src)]> (<[20%Z := image (rdel_body rw_tgt)]> ∅).

Definition rw_ref (id first : Z) (lo : bytes) : TableRef :=
  mkRef id first 4 (mkBound 1 (lo ++ [0; 0; 0]%Z)) (mkBound 1 [102; 0; 0; 0]%Z) 9 3 0 1 1 0.

Definition rw_source : Input := mkInput 0 (rw_ref 1 10 [97%Z]).
Definition rw_view : TargetView := mkTargets [rw_ref 2 20 [98%Z]] [2%Z].

Lemma section_one first rs : rblock_wf rs -> read_block rw_disk first = Ok (image (rdel_body rs)) -> section_on (E := Empty_set) rw_disk first [rs].
Proof. intros Hw Hr [|i] rs' Hi; [| done]. injection Hi as <-. split; [done |]. by rewrite Z.add_0_r. Qed.

Lemma rw_source_on : source_on (E := Empty_set) 4 rw_disk (fun _ => True) rw_source (Manifest.first_key (in_tref rw_source), [rw_src]).
Proof.
  split; [done |]. split; [| done | by_compute | by_compute | done | repeat constructor; cbn; lia | cbn; lia].
  apply section_one; [| vm_compute; reflexivity]. split; [repeat constructor; by_compute | by_compute | by_compute].
Qed.

Lemma rw_target_on : later (E := Empty_set) 4 rw_disk rw_view (fun _ => True) 0 [(mkBound 1 [98; 0; 0; 0]%Z, [rw_tgt])].
Proof.
  split; [done |]. intros [|i] lower bs Hi; [| done]. injection Hi as <- <-. exists 20%Z, 1%Z. split; [vm_compute; reflexivity |].
  split; [| done | by_compute | by_compute | done | repeat constructor; cbn; lia | cbn; lia].
  apply section_one; [| vm_compute; reflexivity]. split; [repeat constructor; by_compute | by_compute | by_compute].
Qed.

(** The two deletions at sequence 7 meet, and the target's oldest is cut at its bound. *)
Lemma rdel_merge_covers_witness :
  exists outs m', pulls (E := Empty_set) 4 rw_disk rw_view (merger_new 4 [rw_source] 0 true false 5) outs m' /\
    covered outs [99%Z] 3 /\ ~ covered outs [97%Z] 3 /\ covered outs [100%Z] 7.
Proof.
  destruct (rdel_merge_covers (E := Empty_set) 4 rw_disk rw_view (fun _ => True) [rw_source] [(Manifest.first_key (in_tref rw_source), [rw_src])] 0 true false 5
    [(mkBound 1 [98; 0; 0; 0]%Z, [rw_tgt])]) as (outs & m' & Hp & _ & _ & Hin & Hk).
  - cbn. unfold COMPACTION_KMAX. lia.
  - constructor; [exact rw_source_on | constructor].
  - exact rw_target_on.
  - repeat constructor; by_compute.
  - repeat constructor.
  - exists outs, m'. split; [exact Hp |]. split_and!.
    + destruct (Hk [99%Z] 3%Z) as [Hc | [Hb _]]; [| exact Hc | discriminate Hb].
      right. exists (mkBound 1 [98; 0; 0; 0]%Z, [rw_tgt]). split; [left |]. split; [| by_compute].
      exists (mkRdel [97%Z] [100%Z] 3). split; [left |]. split_and!; [by_compute | by_compute | done].
    + intros Hc. destruct (Hin _ _ Hc) as [([|i] & sec & Hi & _ & (r & Hr & _ & _ & Hs) & _) | (sec & Hs & _ & Hl)].
      * injection Hi as <-. cbn in Hr. repeat (apply elem_of_cons in Hr as [-> | Hr]; [discriminate Hs |]). by apply not_elem_of_nil in Hr.
      * done.
      * apply list_elem_of_singleton in Hs as ->. revert Hl. by_compute.
    + destruct (Hk [100%Z] 7%Z) as [Hc | [Hb _]]; [| exact Hc | discriminate Hb].
      right. exists (mkBound 1 [98; 0; 0; 0]%Z, [rw_tgt]). split; [left |]. split; [| by_compute].
      exists (mkRdel [99%Z] [101%Z] 7). split; [right; left |]. split_and!; [by_compute | by_compute | done].
Defined.
End RdelWitness.
