(* ===== verification/Compact.v ===== *)
(** * The merge engine of a compaction: [src/compact.rs]

    The caller's scratch, the coverage stream and the bounded merge step.  The fields of
    [Compaction] are grouped: [Job] holds what the selection sets, [Cover] the coverage
    stream, the rest is the merge in progress.  An array with a count is the list of its
    valid prefix; [inexact] with its count at [usize::MAX] is [None].  The shared read
    buffer is dead between reads and omitted. *)

From stdpp Require Import base numbers list sets.
From Stdlib Require Import ZArith Lia.
From S2P Require Import Prelude Device Steps Compress Cache Wal Manifest SstPlan SstWriter SstReader Db CompactCursor CompactRdel.

Definition COVER_ACTIVE : nat := 8.
Definition INEXACT_RANGES : nat := 4.

Inductive Progress := Done | More.

Inductive KeyState := KeyIdle | KeyMerging | KeyDropping.

Inductive State := Idle | Merging.

Inductive CoverState := Pull | Look | CoverDone.

Inductive MergeOutcome := MergeMore | Split | Exhausted.

#[export] Instance KeyState_eq_dec : EqDecision KeyState.
Proof. solve_decision. Defined.
#[export] Instance State_eq_dec : EqDecision State.
Proof. solve_decision. Defined.
#[export] Instance CoverState_eq_dec : EqDecision CoverState.
Proof. solve_decision. Defined.

(** What the selection of a job sets. *)
Record Job := mkJob {
  jb_inputs : list Input;
  jb_src_retired : u8;
  jb_target_level : nat;
  jb_tgt : list u32;
  jb_tgt_retired : nat;
  jb_bottommost : bool;
  jb_snapshots : list u64;
  jb_oldest_snapshot : u64;
  jb_outside_same_min : u64;
  jb_outside_foreign_min : u64 * u32;
  jb_node : u32;
  jb_max_wall : u64;
  jb_tight : bool;
  jb_manual : bool;
  jb_outputs : u32;
  jb_rdel_budget : u32;
  jb_data_budget : u64;
  jb_split_margin : u64;
  jb_bloom_k : u8;
  jb_out_slot : u32;
  jb_out_base : u64;
  jb_out_lo : KeyBound;
  jb_gen : u32;
}.

(** The coverage stream. *)
Record Cover := mkCover {
  cv_merger : RdelMerger;
  cv_state : CoverState;
  cv_look : RdelEntry;
  cv_active : list RdelEntry;
  cv_inexact : Inexact;
}.

Record Compaction := mkComp {
  co_state : State;
  co_job : Job;
  co_purge_before : u64;
  co_writer : TableWriter;
  co_compress : scratch;
  co_cursors : list Cursor;
  co_tgt_open : nat;
  co_key : bytes;
  co_key_state : KeyState;
  co_served : list bool;
  co_cover : Cover;
  co_key_cover : u64;
}.

(** Assignments to the fields. *)
Definition set_co_state (s : State) (c : Compaction) : Compaction :=
  mkComp s (co_job c) (co_purge_before c) (co_writer c) (co_compress c) (co_cursors c) (co_tgt_open c) (co_key c)
    (co_key_state c) (co_served c) (co_cover c) (co_key_cover c).
Definition set_co_job (j : Job) (c : Compaction) : Compaction :=
  mkComp (co_state c) j (co_purge_before c) (co_writer c) (co_compress c) (co_cursors c) (co_tgt_open c) (co_key c)
    (co_key_state c) (co_served c) (co_cover c) (co_key_cover c).
Definition set_co_writer (w : TableWriter) (cs : scratch) (c : Compaction) : Compaction :=
  mkComp (co_state c) (co_job c) (co_purge_before c) w cs (co_cursors c) (co_tgt_open c) (co_key c)
    (co_key_state c) (co_served c) (co_cover c) (co_key_cover c).
Definition set_co_cursor (i : nat) (cu : Cursor) (c : Compaction) : Compaction :=
  mkComp (co_state c) (co_job c) (co_purge_before c) (co_writer c) (co_compress c) (<[i := cu]> (co_cursors c)) (co_tgt_open c) (co_key c)
    (co_key_state c) (co_served c) (co_cover c) (co_key_cover c).
Definition set_co_tgt_open (n : nat) (c : Compaction) : Compaction :=
  mkComp (co_state c) (co_job c) (co_purge_before c) (co_writer c) (co_compress c) (co_cursors c) n (co_key c)
    (co_key_state c) (co_served c) (co_cover c) (co_key_cover c).
Definition set_co_key (key : bytes) (s : KeyState) (served : list bool) (c : Compaction) : Compaction :=
  mkComp (co_state c) (co_job c) (co_purge_before c) (co_writer c) (co_compress c) (co_cursors c) (co_tgt_open c) key
    s served (co_cover c) (co_key_cover c).
Definition set_co_cover (cv : Cover) (c : Compaction) : Compaction :=
  mkComp (co_state c) (co_job c) (co_purge_before c) (co_writer c) (co_compress c) (co_cursors c) (co_tgt_open c) (co_key c)
    (co_key_state c) (co_served c) cv (co_key_cover c).
Definition set_co_key_cover (s : u64) (c : Compaction) : Compaction :=
  mkComp (co_state c) (co_job c) (co_purge_before c) (co_writer c) (co_compress c) (co_cursors c) (co_tgt_open c) (co_key c)
    (co_key_state c) (co_served c) (co_cover c) s.

Definition set_cv_merger (m : RdelMerger) (cv : Cover) : Cover :=
  mkCover m (cv_state cv) (cv_look cv) (cv_active cv) (cv_inexact cv).
Definition set_cv_state (s : CoverState) (look : RdelEntry) (cv : Cover) : Cover :=
  mkCover (cv_merger cv) s look (cv_active cv) (cv_inexact cv).
Definition set_cv_active (active : list RdelEntry) (x : Inexact) (cv : Cover) : Cover :=
  mkCover (cv_merger cv) (cv_state cv) (cv_look cv) active x.

(** ** The active set of the coverage stream *)

(** [a[i] = a[n - 1]; n -= 1] *)
Definition swap_remove {A} (i : nat) (l : list A) : list A :=
  match last l with
  | Some x => take (length l - 1) (<[i := x]> l)
  | None => l
  end.

(** [while i < n { if gone(a[i]) { swap_remove } else { i += 1 } }] *)
Fixpoint sweep {A} (fuel : nat) (gone : A -> bool) (i : nat) (l : list A) : list A :=
  match fuel with
  | O => l
  | S fuel =>
      match l !! i with
      | None => l
      | Some a => if gone a then sweep fuel gone i (swap_remove i l) else sweep fuel gone (i + 1) l
      end
  end.

Definition swept (gone : RdelEntry -> bool) (l : list RdelEntry) : list RdelEntry := sweep (length l) gone 0 l.

(** The index of the oldest, the first of equals. *)
Definition min_active (l : list RdelEntry) : nat :=
  fold_left (fun m j => match l !! j, l !! m with
                        | Some a, Some b => if (rd_seq a <? rd_seq b)%Z then j else m
                        | _, _ => m
                        end) (List.seq 1 (length l - 1)) 0%nat.

Section evict.
  Context (KEY_MAX : nat).

Definition evict (inexact : Inexact) (from to : bytes) : Inexact :=
  match from_slice KEY_MAX from, from_slice KEY_MAX to with
  | Some f, Some t =>
      match inexact with
      | None => None
      | Some l =>
          match last l with
          | Some (lf, lt) =>
              if (length l =? INEXACT_RANGES)%nat || bytes_leb (as_slice f) (as_slice lt) then
                Some (take (length l - 1) l ++ [(lf, if bytes_ltb (as_slice lt) (as_slice t) then t else lt)])
              else Some (l ++ [(f, t)])
          | None => Some (l ++ [(f, t)])
          end
      end
  | _, _ => None
  end.

(** [r] against the active set at [key]. *)
Definition track (key : bytes) (r : RdelEntry) (active : list RdelEntry) (inexact : Inexact) : list RdelEntry * Inexact :=
  if existsb (fun a => (rd_seq r <=? rd_seq a)%Z && bytes_leb (rd_end r) (rd_end a)) active then (active, inexact)
  else
    let active := swept (fun a => (rd_seq a <=? rd_seq r)%Z && bytes_leb (rd_end a) (rd_end r)) active in
    if (length active <? COVER_ACTIVE)%nat then (active ++ [r], inexact)
    else
      match active !! min_active active with
      | Some old =>
          if (rd_seq old <? rd_seq r)%Z then (<[min_active active := r]> active, evict inexact key (rd_end old))
          else (active, evict inexact key (rd_end r))
      | None => (active, inexact)
      end.
End evict.

Section cover.
  Context {D E : Type} `{Dev : !BlockDevice D E}.
  Context (KEY_MAX : nat) (d : D).

(** The loop of [cover_key]. *)
Fixpoint cover_loop (fuel : nat) (v : TargetView) (key : bytes) (oldest : u64) : stm Cover E unit :=
  match fuel with
  | O => st_panic
  | S fuel =>
      let@ cv := st_get in
      let@ _ :=
        if bool_decide (cv_state cv = Pull) then
          let@ more := st_zoom cv_merger set_cv_merger (next_merged KEY_MAX d v) in
          st_mod (fun cv => if more : bool then set_cv_state Look (current_entry (cv_merger cv)) cv else set_cv_state CoverDone (cv_look cv) cv)
        else st_ret tt in
      let@ cv := st_get in
      if negb (bool_decide (cv_state cv = Look)) || bytes_ltb key (rd_start (cv_look cv)) then st_ret tt
      else
        let r := cv_look cv in
        let@ _ := st_mod (set_cv_state Pull r) in
        if (oldest <=? rd_seq r)%Z || bytes_leb (rd_end r) key then cover_loop fuel v key oldest
        else
          let@ _ := st_mod (fun cv => let '(a, x) := track KEY_MAX key r (cv_active cv) (cv_inexact cv) in set_cv_active a x cv) in
          cover_loop fuel v key oldest
  end.

Definition cover_key (v : TargetView) (key : bytes) (oldest : u64) : stm Cover E u64 :=
  let@ cv := st_get in
  if bool_decide (cv_state cv = CoverDone) && (length (cv_active cv) =? 0)%nat then st_ret 0%Z
  else
    let@ _ := st_mod (fun cv => set_cv_active (swept (fun a => bytes_leb (rd_end a) key) (cv_active cv)) (cv_inexact cv) cv) in
    let@ _ := cover_loop (merge_bound v (cv_merger cv) + 3) v key oldest in
    let@ cv := st_get in
    st_ret (fold_left Z.max (map rd_seq (cv_active cv)) 0%Z).
End cover.

(** ** The scratch *)

Section scratch.
  Context {D E : Type} `{Dev : !BlockDevice D E}.
  Context (KEY_MAX VAL_MAX BLOOM_BYTES : nat).

Definition JOB_EMPTY : Job :=
  mkJob [] 0 0 [] 0 false [] U64_MAX U64_MAX (U64_MAX, U32_MAX) 0 0 false false 0 0 0 0 1 0 0 (EMPTY_BOUND KEY_MAX) 0.

Definition COVER_EMPTY : Cover := mkCover (MERGER_EMPTY KEY_MAX) CoverDone owned_empty [] (Some []).

Definition comp_new : Compaction :=
  mkComp Idle JOB_EMPTY 0 (SstWriter.new BLOOM_BYTES KEY_MAX 0 0) Compress.new (replicate COMPACTION_KMAX CURSOR_EMPTY) 0 [] KeyIdle
    (replicate (MAX_SNAPSHOTS + 1) false) COVER_EMPTY 0.

(** What [reset] clears of the job; the rest stays until the next selection. *)
Definition reset_job (j : Job) : Job :=
  mkJob [] 0 (jb_target_level j) [] 0 (jb_bottommost j) (jb_snapshots j) (jb_oldest_snapshot j) U64_MAX (U64_MAX, U32_MAX) 0 0
    false false 0 0 (jb_data_budget j) (jb_split_margin j) (jb_bloom_k j) (jb_out_slot j) (jb_out_base j) (EMPTY_BOUND KEY_MAX) (jb_gen j).

Definition comp_reset (c : Compaction) : Compaction :=
  mkComp Idle (reset_job (co_job c)) (co_purge_before c) (co_writer c) (co_compress c) (co_cursors c) 0 (co_key c) KeyIdle (co_served c)
    (mkCover (cv_merger (co_cover c)) CoverDone (cv_look (co_cover c)) [] (Some [])) 0.

Definition start_cover (has_rdels : bool) (c : Compaction) : Compaction :=
  let j := co_job c in
  set_co_key_cover 0 (set_co_cover
    (mkCover (merger_new KEY_MAX (jb_inputs j) 0 (0 <? length (jb_tgt j))%nat false (jb_oldest_snapshot j))
       (if has_rdels then Pull else CoverDone) (cv_look (co_cover c)) [] (Some [])) c).

Definition n_src (c : Compaction) : nat := length (jb_inputs (co_job c)).

Definition n_cursors (c : Compaction) : nat := n_src c + (if (0 <? length (jb_tgt (co_job c)))%nat then 1 else 0).

(** [self.cursors[i]] *)
Definition co_cursor (c : Compaction) (i : nat) : Cursor := nth i (co_cursors c) CURSOR_EMPTY.

(** [f] on cursor [i]; an index past the array panics. *)
Definition on_cursor {A} (i : nat) (m : stm Cursor E A) : stm Compaction E A :=
  let@ c := st_get in
  match co_cursors c !! i with
  | None => st_panic
  | Some _ => st_zoom (fun c => co_cursor c i) (set_co_cursor i) m
  end.

(** The loop of [open_next_target]. *)
Fixpoint open_targets (fuel : nat) (d : D) (tgt_level : list TableRef) : stm Compaction E unit :=
  match fuel with
  | O => st_panic
  | S fuel =>
      let@ c := st_get in
      match jb_tgt (co_job c) !! co_tgt_open c with
      | None => on_cursor (n_src c) (st_mod (cu_set_live false))
      | Some id =>
          match List.find (fun t => (t_id t =? id)%Z) tgt_level with
          | None => st_fail CorruptManifest
          | Some t =>
              let@ _ := st_mod (set_co_tgt_open (co_tgt_open c + 1)) in
              let@ _ := on_cursor (n_src c) (init_cursor KEY_MAX VAL_MAX d t) in
              let@ c := st_get in
              if cu_live (co_cursor c (n_src c)) then st_ret tt else open_targets fuel d tgt_level
          end
      end
  end.

Definition open_next_target (d : D) (tgt_level : list TableRef) : stm Compaction E unit :=
  let@ c := st_get in
  open_targets (S (length (jb_tgt (co_job c)))) d tgt_level.

Definition advance_input (d : D) (ci : nat) (tgt_level : list TableRef) : stm Compaction E unit :=
  let@ more := on_cursor ci (advance_cursor KEY_MAX VAL_MAX d) in
  let@ c := st_get in
  if negb more && (ci =? n_src c)%nat then open_next_target d tgt_level else st_ret tt.

Definition should_split (c : Compaction) : bool :=
  let w := co_writer c in
  if (tw_entry_count w =? 0)%nat then false
  else if (jb_data_budget (co_job c) <? Z.of_nat (tw_data_blocks w) + jb_split_margin (co_job c))%Z then true
  else (BLOCK - CRC_LEN <? tw_index_len w + Z.to_nat (jb_split_margin (co_job c)) * (18 + KEY_MAX))%nat.

Definition key_run_blocks (n_snapshots : nat) : u64 :=
  let versions := (1 + n_snapshots)%nat in
  let entry := (ENTRY_HEADER + KEY_MAX + VAL_MAX + 8)%nat in
  let room := (BLOCK - MAX_DATA_TAIL)%nat in
  let seals := if (entry <? room)%nat then (1 + versions * entry / (room - entry + 1))%nat else versions in
  Z.of_nat (seals + 1).

(** One turn of [min_key_cursor]; [None] is [COMPACTION_KMAX]. *)
Definition min_key_step (cs : list Cursor) (best : option nat) (ci : nat) : option nat :=
  match cs !! ci with
  | None => best
  | Some c =>
      if negb (cu_live c) then best
      else
        match best with
        | None => Some ci
        | Some b => match cs !! b with Some cb => if bytes_ltb (cu_key c) (cu_key cb) then Some ci else best | None => best end
        end
  end.

Definition min_key_cursor (cs : list Cursor) : option nat := fold_left (min_key_step cs) (List.seq 0 (length cs)) None.

Definition head_step (cs : list Cursor) (best : nat) (head ci : nat) : nat :=
  match cs !! ci, cs !! best, cs !! head with
  | Some c, Some b, Some h =>
      if cu_live c && negb (ci =? best)%nat && bytes_eqb (cu_key c) (cu_key b) && (cu_seq h <? cu_seq c)%Z then ci else head
  | _, _, _ => head
  end.

Definition head_cursor (cs : list Cursor) (best : nat) : nat := fold_left (head_step cs best) (List.seq 0 (length cs)) best.

Definition outside_clear (j : Job) (wall seq : u64) : bool :=
  let '(w, n) := jb_outside_foreign_min j in
  (seq <? jb_outside_same_min j)%Z && ((wall <? w)%Z || ((wall =? w)%Z && (jb_node j <? n)%Z)).

Definition may_drop_key (c : Compaction) (cu : Cursor) : bool :=
  let j := co_job c in
  let effective_tombstone := cu_tombstone cu || (negb (cu_expire_at cu =? 0)%Z && (cu_expire_at cu <=? co_purge_before c)%Z) in
  jb_bottommost j && effective_tombstone && (cu_seq cu <? jb_oldest_snapshot j)%Z && outside_clear j (jb_max_wall j) (cu_seq cu).

Definition drop_origin (j : Job) : DropOrigin :=
  mkOrigin (jb_node j) (jb_max_wall j) (jb_outside_same_min j) (jb_outside_foreign_min j).

(** The live view, then the snapshots. *)
Definition job_thresholds (j : Job) : list u64 := U64_MAX :: jb_snapshots j.

(** Some unserved threshold covers [seq]. *)
Fixpoint wanted (seq : u64) (ths : list u64) (served : list bool) : bool :=
  match ths, served with
  | th :: ths, s :: served => (negb s && (seq <=? th)%Z) || wanted seq ths served
  | _, _ => false
  end.

Fixpoint serve (seq : u64) (ths : list u64) (served : list bool) : list bool :=
  match ths, served with
  | th :: ths, s :: served => (if (seq <=? th)%Z then true else s) :: serve seq ths served
  | _, served => served
  end.

(** The output entry of a version: an expired value becomes a tombstone. *)
Definition purged (purge_before : u64) (e : SstEntry) : bool :=
  negb (se_tombstone e) && negb (se_expire_at e =? 0)%Z && (se_expire_at e <=? purge_before)%Z.

Definition out_entry (purge_before : u64) (e : SstEntry) : SstEntry :=
  mkSst (se_key e) (if purged purge_before e then [] else se_val e) (se_seq e) (se_tombstone e || purged purge_before e)
    (if se_tombstone e || purged purge_before e then 0%Z else se_expire_at e).

Definition ranges_overlap (a_first a_last b_first b_last : KeyBound) : bool :=
  bytes_leb (as_slice a_first) (as_slice b_last) && bytes_leb (as_slice b_first) (as_slice a_last).
End scratch.

(** ** The merge *)

Section merge.
  Context {D E : Type} `{Dev : !BlockDevice D E}.
  Context (KEY_MAX VAL_MAX : nat).

(** A computation on the scratch that reads the device. *)
Definition reading {A} (m : D -> stm Compaction E A) : stm (D * Compaction) E A := fun '(d, c) =>
  match m d c with
  | None => None
  | Some (c, r) => Some ((d, c), r)
  end.

Definition push_out (e : SstEntry) : stm (D * Compaction) E PushOutcome := fun '(d, c) =>
  match push KEY_MAX d (co_writer c) e (Some (co_compress c)) with
  | (d, w, cs, r) => Some ((d, set_co_writer w (default (co_compress c) cs) c), r)
  end.

Definition job_view (j : Job) (tgt_level : list TableRef) : TargetView := mkTargets tgt_level (jb_tgt j).

(** A new key: the per-key state starts over. *)
Definition start_key (tgt_level : list TableRef) (key : bytes) (head : nat) : stm (D * Compaction) E unit :=
  let@ _ := reading (fun _ => st_mod (fun c =>
    set_co_key key (if may_drop_key c (co_cursor c head) then KeyDropping else KeyMerging) (replicate (MAX_SNAPSHOTS + 1) false) c)) in
  let@ cover := reading (fun d =>
    let@ c := st_get in
    st_zoom co_cover set_co_cover (cover_key KEY_MAX d (job_view (co_job c) tgt_level) (co_key c) (jb_oldest_snapshot (co_job c)))) in
  reading (fun _ => st_mod (set_co_key_cover cover)).

(** The head version: emitted when an unserved threshold covers it.  [true] when an
    output block sealed. *)
Definition take_head (tgt_level : list TableRef) (head : nat) : stm (D * Compaction) E bool :=
  let@ (_, c) := st_get in
  let cu := co_cursor c head in
  let ths := job_thresholds (co_job c) in
  let hidden := (cu_seq cu <? co_key_cover c)%Z in
  if negb (bool_decide (co_key_state c = KeyDropping)) && negb hidden && wanted (cu_seq cu) ths (co_served c) then
    let@ sealed := push_out (out_entry (co_purge_before c) (cu_entry cu)) in
    let@ _ := reading (fun _ => st_mod (fun c => set_co_key (co_key c) (co_key_state c) (serve (cu_seq cu) ths (co_served c)) c)) in
    let@ _ := reading (fun d => advance_input KEY_MAX VAL_MAX d head tgt_level) in
    st_ret (match sealed with BlockSealed => true | Buffered => false end)
  else
    let@ _ := reading (fun d => advance_input KEY_MAX VAL_MAX d head tgt_level) in
    st_ret false.

Fixpoint merge_loop (fuel : nat) (tgt_level : list TableRef) : stm (D * Compaction) E MergeOutcome :=
  match fuel with
  | O => st_panic
  | S fuel =>
      let@ (_, c) := st_get in
      let cs := take (n_cursors c) (co_cursors c) in
      match min_key_cursor cs with
      | None =>
          let@ _ := reading (fun _ => st_mod (fun c => set_co_key (co_key c) KeyIdle (co_served c) c)) in
          st_ret Exhausted
      | Some best =>
          let head := head_cursor cs best in
          let hkey := cu_key (co_cursor c best) in
          let fresh := bool_decide (co_key_state c = KeyIdle) || negb (bytes_eqb (co_key c) hkey) in
          if fresh && should_split KEY_MAX c then
            let@ _ := reading (fun _ => st_mod (fun c => set_co_key (co_key c) KeyIdle (co_served c) c)) in
            st_ret Split
          else
            let@ _ := if fresh then start_key tgt_level hkey head else st_ret tt in
            let@ sealed := take_head tgt_level head in
            if sealed then st_ret MergeMore else merge_loop fuel tgt_level
      end
  end.

(** A bound on the entries left: those of the open tables, and of the targets to come. *)
Definition entries_bound (c : Compaction) (tgt_level : list TableRef) : nat :=
  sum_list_with (fun cu => Z.to_nat (cu_data_blocks cu) * BLOCK)%nat (co_cursors c) +
  sum_list_with (fun id => match List.find (fun t => (t_id t =? id)%Z) tgt_level with
                           | Some t => Z.to_nat (default 0%Z (data_blocks t)) * BLOCK
                           | None => 0
                           end)%nat (jb_tgt (co_job c)).

Definition merge_step (tgt_level : list TableRef) : stm (D * Compaction) E MergeOutcome :=
  let@ (_, c) := st_get in
  merge_loop (S (entries_bound c tgt_level)) tgt_level.
End merge.
