(* ===== verification/CompactCover.v ===== *)
(** * The coverage stream of a compaction: [src/compact.rs]

    [cover_key] advances a second, streaming merge of the job's range tombstones to the
    key being merged and returns the newest deletion of it that every reader sees.  It
    never overstates, and outside the key ranges it recorded as inexact it is exact. *)

From stdpp Require Import base numbers list sets.
From Stdlib Require Import ZArith Lia Sorting.Sorted.
From S2P Require Import Prelude Device Steps Compress Cache Wal Manifest SstPlan SstWriter SstReader SstBlock SstImage SstRdel SstBuild DbRead DbFlush CompactCursor CompactRdel RdelMerge Compact.

(** ** The active set *)

Lemma swap_remove_at {A} (pre : list A) a rest : exists rest', swap_remove (length pre) (pre ++ a :: rest) = pre ++ rest' /\ rest' ≡ₚ rest.
Proof.
  unfold swap_remove. induction rest as [|y r _] using rev_ind.
  - exists []. rewrite last_snoc, list_insert_id by (by apply list_lookup_middle). split; [| done].
    rewrite length_app. cbn [length]. replace (length pre + 1 - 1)%nat with (length pre) by lia. by rewrite take_app_length, app_nil_r.
  - exists (y :: r). split; [| by rewrite Permutation_app_comm]. rewrite app_comm_cons, app_assoc, last_snoc.
    rewrite <- app_assoc. rewrite insert_app_r_alt, Nat.sub_diag by lia. cbn [app]. change (<[0%nat := y]> (a :: r ++ [y])) with ((y :: r) ++ [y]).
    rewrite app_assoc. rewrite (length_app pre). cbn [length].
    replace (length pre + S (length (r ++ [y])) - 1)%nat with (length (pre ++ y :: r)) by (rewrite !length_app; cbn; lia). by rewrite take_app_length.
Qed.

Lemma swap_remove_shape {A} (l : list A) i a : l !! i = Some a -> exists rest, swap_remove i l = take i l ++ rest /\ rest ≡ₚ drop (S i) l.
Proof.
  intros Hi. pose proof (lookup_lt_Some _ _ _ Hi) as Hlt. destruct (swap_remove_at (take i l) a (drop (S i) l)) as (rest & Hr & Hp).
  rewrite (take_drop_middle l i a Hi), length_take, Nat.min_l in Hr by lia. by exists rest.
Qed.

Lemma list_filter_perm {A} (f : A -> bool) a b : a ≡ₚ b -> List.filter f a ≡ₚ List.filter f b.
Proof.
  induction 1 as [|x a b _ IH|x y a|a b c _ IH1 _ IH2]; cbn; [done | by destruct (f x); rewrite IH | | by rewrite IH1].
  destruct (f x), (f y); try done. apply Permutation_swap.
Qed.

Lemma sweep_perm {A} (gone : A -> bool) : forall fuel i l, (length l - i <= fuel)%nat ->
  sweep fuel gone i l ≡ₚ take i l ++ List.filter (fun a => negb (gone a)) (drop i l).
Proof.
  induction fuel as [|fuel IH]; intros i l Hf; cbn [sweep].
  { rewrite take_ge, drop_ge by lia. by rewrite app_nil_r. }
  destruct (l !! i) as [a |] eqn:Hi; [| apply lookup_ge_None in Hi; rewrite take_ge, drop_ge by lia; by rewrite app_nil_r].
  pose proof (lookup_lt_Some _ _ _ Hi) as Hlt. rewrite (drop_S _ _ _ Hi). cbn [List.filter]. destruct (gone a) eqn:Eg; cbn [negb].
  - destruct (swap_remove_shape l i a Hi) as (rest & -> & Hp). pose proof (Permutation_length Hp) as Hl. rewrite length_drop in Hl.
    rewrite IH by (rewrite length_app, length_take; lia). rewrite take_app_le, take_take, Nat.min_id by (rewrite length_take; lia).
    rewrite drop_app_ge by (rewrite length_take; lia). rewrite length_take, Nat.min_l, Nat.sub_diag, drop_0 by lia.
    by apply Permutation_app_head, list_filter_perm.
  - rewrite IH by lia. rewrite Nat.add_1_r, (take_S_r _ _ _ Hi), <- app_assoc. done.
Qed.

Lemma swept_elem gone l a : a ∈ swept gone l <-> a ∈ l /\ gone a = false.
Proof.
  unfold swept. rewrite (sweep_perm gone (length l) 0 l) by lia. rewrite take_0, drop_0. cbn [app].
  rewrite !list_elem_of_In, (filter_In _ a l), negb_true_iff. done.
Qed.

(** ** The inexact ranges *)

Definition inexact_has (x : Inexact) (k : bytes) : Prop :=
  match x with
  | None => True
  | Some l => exists f t, (f, t) ∈ l /\ bytes_le (as_slice f) k /\ bytes_lt k (as_slice t)
  end.

#[export] Instance inexact_has_dec x k : Decision (inexact_has x k).
Proof.
  destruct x as [l |]; [| left; exact I]. destruct (existsb (fun '(f, t) => bytes_leb (as_slice f) k && bytes_ltb k (as_slice t)) l) eqn:Ex.
  - left. apply existsb_exists in Ex as ([f t] & Hin & [H1%bytes_leb_spec H2%bytes_ltb_spec]%andb_true_iff). exists f, t. split; [by apply list_elem_of_In | done].
  - right. intros (f & t & Hin & H1%bytes_leb_spec & H2%bytes_ltb_spec). apply list_elem_of_In in Hin.
    assert (existsb (fun '(f, t) => bytes_leb (as_slice f) k && bytes_ltb k (as_slice t)) l = true); [| congruence].
    apply existsb_exists. exists (f, t). split; [done |]. by rewrite H1, H2.
Defined.

(** Ranges recorded at or below [K]. *)
Definition froms_le (x : Inexact) (K : bytes) : Prop :=
  match x with None => True | Some l => forall f t, (f, t) ∈ l -> bytes_le (as_slice f) K end.

Lemma from_slice_slice KEY_MAX k b : from_slice KEY_MAX k = Some b -> as_slice b = k.
Proof.
  unfold from_slice. destruct (_ <? _)%nat eqn:El; [done |]. apply Nat.ltb_ge in El. destruct (try_u16 _); [| done]. intros [= <-].
  unfold as_slice. cbn. unfold splice. rewrite take_0. cbn [app]. by rewrite take_app_length.
Qed.

Lemma evict_spec KEY_MAX x from to : froms_le x from ->
  let x' := evict KEY_MAX x from to in
  froms_le x' from /\ (forall k, inexact_has x k -> inexact_has x' k) /\ (forall k, bytes_le from k -> bytes_lt k to -> inexact_has x' k).
Proof.
  intros Hf. unfold evict. destruct (from_slice KEY_MAX from) as [f |] eqn:Ef; [| done]. destruct (from_slice KEY_MAX to) as [t |] eqn:Et; [| done].
  destruct x as [l |]; [| done]. apply from_slice_slice in Ef, Et.
  assert (let x' := Some (l ++ [(f, t)]) in froms_le x' from /\ (forall k, inexact_has (Some l) k -> inexact_has x' k) /\
    (forall k, bytes_le from k -> bytes_lt k to -> inexact_has x' k)) as Hadd.
  { split_and!.
    - intros f0 t0 [Hin | Hin%list_elem_of_singleton]%elem_of_app; [by eapply Hf |]. injection Hin as -> ->. rewrite Ef. apply bytes_le_refl.
    - intros k (f0 & t0 & Hin & Hk). exists f0, t0. split; [apply elem_of_app; by left | done].
    - intros k H1 H2. exists f, t. rewrite Ef, Et. split; [apply elem_of_app; right; by left | done]. }
  destruct (last l) as [[lf lt] |] eqn:El; [| exact Hadd]. destruct (_ || _); [| exact Hadd]. clear Hadd.
  apply last_Some in El as [l' ->]. rewrite length_app. cbn [length]. replace (length l' + 1 - 1)%nat with (length l') by lia. rewrite take_app_length.
  assert (bytes_le (as_slice lf) from) as Hlf by (apply (Hf lf lt), elem_of_app; right; by left).
  set (t' := if bytes_ltb (as_slice lt) (as_slice t) then t else lt).
  assert (bytes_le (as_slice lt) (as_slice t') /\ bytes_le (as_slice t) (as_slice t')) as [Hl1 Hl2].
  { unfold t'. destruct (bytes_ltb _ _) eqn:Eb; [apply bytes_ltb_spec, bytes_lt_le in Eb | apply bytes_ltb_ge in Eb]; split; auto using bytes_le_refl. }
  split_and!.
  - intros f0 t0 [Hin | Hin%list_elem_of_singleton]%elem_of_app; [apply (Hf f0 t0), elem_of_app; by left |]. injection Hin as -> ->. done.
  - intros k (f0 & t0 & [Hin | Hin%list_elem_of_singleton]%elem_of_app & H1 & H2).
    + exists f0, t0. split; [apply elem_of_app; by left | done].
    + injection Hin as -> ->. exists lf, t'. split; [apply elem_of_app; right; by left |]. split; [done |]. by eapply bytes_lt_le_trans.
  - intros k H1 H2. exists lf, t'. split; [apply elem_of_app; right; by left |]. split; [by eapply bytes_le_trans |].
    eapply bytes_lt_le_trans; [exact H2 |]. by rewrite <- Et.
Qed.

Lemma min_active_lt l : (0 < length l)%nat -> (min_active l < length l)%nat.
Proof.
  intros Hl. unfold min_active. assert (forall js m, (m < length l)%nat -> Forall (fun j => (j < length l)%nat) js ->
    (fold_left (fun m j => match l !! j, l !! m with
                        | Some a, Some b => if (rd_seq a <? rd_seq b)%Z then j else m
                        | _, _ => m
                        end) js m < length l)%nat) as Hgen.
  { induction js as [|j js IH]; intros m Hm Hf; [done |]. apply Forall_cons in Hf as [Hj Hf]. cbn [fold_left]. apply IH; [| done].
    destruct (l !! j), (l !! m); try done. by destruct (_ <? _)%Z. }
  apply Hgen; [done |]. apply Forall_forall. intros j Hj. apply list_elem_of_In, in_seq in Hj. lia.
Qed.

(** Taking [r] into the active set loses no cover at or above the key. *)
Lemma track_spec KEY_MAX key r active x active' x' : froms_le x key -> track KEY_MAX key r active x = (active', x') ->
  (forall a, a ∈ active' -> a ∈ active \/ a = r) /\ froms_le x' key /\ (forall k, inexact_has x k -> inexact_has x' k) /\
  (forall y k, y ∈ r :: active -> bytes_le key k -> bytes_lt k (rd_end y) ->
    (exists a, a ∈ active' /\ (rd_seq y <= rd_seq a)%Z /\ bytes_lt k (rd_end a)) \/ inexact_has x' k).
Proof.
  intros Hf Ht. unfold track in Ht. destruct (existsb _ active) eqn:Eex.
  - injection Ht as <- <-. split_and!; auto. intros y k Hy H1 H2. left. apply elem_of_cons in Hy as [-> | Hy].
    + apply existsb_exists in Eex as (a & Ha & [Hs%Z.leb_le He%bytes_leb_spec]%andb_true_iff). exists a. split; [by apply list_elem_of_In |].
      split; [done |]. by eapply bytes_lt_le_trans.
    + exists y. split; [done |]. split; [lia | done].
  - set (active1 := swept _ active) in Ht.
    assert (forall y k, y ∈ active -> bytes_lt k (rd_end y) -> y ∈ active1 \/ (rd_seq y <= rd_seq r)%Z /\ bytes_lt k (rd_end r)) as Hsw.
    { intros y k Hy Hk. destruct ((rd_seq y <=? rd_seq r)%Z && bytes_leb (rd_end y) (rd_end r)) eqn:Ed.
      - right. apply andb_true_iff in Ed as [Hs%Z.leb_le He%bytes_leb_spec]. split; [done |]. by eapply bytes_lt_le_trans.
      - left. apply swept_elem. done. }
    assert (forall a, a ∈ active1 -> a ∈ active) as Hsub by (intros a [Ha _]%swept_elem; done).
    destruct (length active1 <? COVER_ACTIVE)%nat eqn:El.
    + injection Ht as <- <-. split_and!; auto.
      * intros a [Ha | Ha%list_elem_of_singleton]%elem_of_app; auto.
      * intros y k Hy H1 H2. left. apply elem_of_cons in Hy as [-> | Hy].
        -- exists r. split; [apply elem_of_app; right; by left |]. split; [lia | done].
        -- destruct (Hsw y k Hy H2) as [Hin | [Hs Hk]]; [exists y | exists r]; (split; [apply elem_of_app |]); [by left | split; [lia | done] | right; by left | done].
    + apply Nat.ltb_ge in El. unfold COVER_ACTIVE in El. destruct (lookup_lt_is_Some_2 active1 (min_active active1)) as [old Hold]; [apply min_active_lt; lia |].
      rewrite Hold in Ht. destruct (rd_seq old <? rd_seq r)%Z eqn:Eo; injection Ht as <- <-.
      * destruct (evict_spec KEY_MAX x key (rd_end old) Hf) as (Hf' & Hm & Hn). split_and!; auto.
        -- intros a Ha. apply list_elem_of_lookup in Ha as [i Hi]. apply list_lookup_insert_Some in Hi as [(_ & -> & _) | [_ Hi]]; [by right |].
           left. by eapply Hsub, list_elem_of_lookup_2.
        -- assert (r ∈ <[min_active active1 := r]> active1) as Hr.
           { apply list_elem_of_lookup. exists (min_active active1). apply list_lookup_insert_eq. by eapply lookup_lt_Some. }
           intros y k Hy H1 H2. apply elem_of_cons in Hy as [-> | Hy]; [left; exists r; split; [done | split; [lia | done]] |].
           destruct (Hsw y k Hy H2) as [Hin | [Hs Hk]]; [| left; by exists r]. apply list_elem_of_lookup in Hin as [i Hi].
           destruct (decide (i = min_active active1)) as [-> | Hne].
           { right. apply Hn; [done |]. by replace old with y by congruence. }
           left. exists y. split; [| split; [lia | done]]. apply list_elem_of_lookup. exists i. by rewrite list_lookup_insert_ne.
      * destruct (evict_spec KEY_MAX x key (rd_end r) Hf) as (Hf' & Hm & Hn). split_and!; auto.
        intros y k Hy H1 H2. apply elem_of_cons in Hy as [-> | Hy]; [right; by apply Hn |].
        destruct (Hsw y k Hy H2) as [Hin | [Hs Hk]]; [left; exists y; split; [done | split; [lia | done]] | right; by apply Hn].
Qed.

(** ** The stream *)

Section stream.
  Context {D E : Type} `{Laws : DeviceLaws D E}.
  Context (KEY_MAX : nat) (v : TargetView) (live : u64 -> Prop).
  (** The deletions of the job, and the oldest snapshot. *)
  Context (J : bytes -> u64 -> Prop) (oldest : u64).

Definition in_merger (cv : Cover) (ls : list (list RdelEntry)) : list RdelEntry := left_of (rm_pending (cv_merger cv)) ls.

(** What the stream has not tracked yet. *)
Definition ahead (cv : Cover) (ls : list (list RdelEntry)) : list RdelEntry :=
  (if bool_decide (cv_state cv = Look) then [cv_look cv] else []) ++ in_merger cv ls.

(** The stream at keys from [K] on. *)
Record covering (d : D) (cv : Cover) (ls : list (list RdelEntry)) (K : bytes) : Prop := {
  cg_merging : merging (E := E) KEY_MAX d v live (cv_merger cv) ls;
  cg_lined : lined KEY_MAX (rm_last_emitted (cv_merger cv)) (rm_pending (cv_merger cv)) ls;
  cg_exact : rm_bottommost (cv_merger cv) = false;
  cg_done : cv_state cv = CoverDone -> in_merger cv ls = [];
  cg_look : cv_state cv = Look -> rm_last_emitted (cv_merger cv) = Some (cv_look cv);
  cg_within : forall k s, covered (ahead cv ls) k s -> J k s;
  cg_active : forall a, a ∈ cv_active cv ->
    (forall k, bytes_le (rd_start a) k -> bytes_lt k (rd_end a) -> J k (rd_seq a)) /\ (rd_seq a < oldest)%Z /\ bytes_le (rd_start a) K;
  cg_known : forall k s, J k s -> (s < oldest)%Z -> bytes_le K k ->
    covered (ahead cv ls) k s \/ (exists a, a ∈ cv_active cv /\ (s <= rd_seq a)%Z /\ bytes_lt k (rd_end a)) \/ inexact_has (cv_inexact cv) k;
  cg_froms : froms_le (cv_inexact cv) K;
}.

Lemma froms_mono x K K' : bytes_le K K' -> froms_le x K -> froms_le x K'.
Proof. destruct x as [l |]; [| done]. intros Hle Hf f t Hin. eapply bytes_le_trans; [by eapply Hf | done]. Qed.

(** At the next key, what ended is forgotten. *)
Lemma covering_key d cv ls K key : covering d cv ls K -> bytes_le K key ->
  let cv' := set_cv_active (swept (fun a => bytes_leb (rd_end a) key) (cv_active cv)) (cv_inexact cv) cv in
  covering d cv' ls key /\ (forall a, a ∈ cv_active cv' -> bytes_lt key (rd_end a)).
Proof.
  intros [] HK cv'. split.
  - split; try done.
    + intros a [Ha _]%swept_elem. destruct (cg_active0 a Ha) as (H1 & H2 & H3). split_and!; [done | done |]. by eapply bytes_le_trans.
    + intros k s HJ Hs Hk. destruct (cg_known0 k s HJ Hs) as [? | [(a & Ha & H1 & H2) | ?]]; [by eapply bytes_le_trans | by left | | by right; right].
      right. left. exists a. split; [| done]. apply swept_elem. split; [done |]. apply bytes_leb_gt. by eapply bytes_le_lt_trans.
    + by eapply froms_mono.
  - intros a [_ Ha]%swept_elem. by apply bytes_leb_gt.
Qed.

(** Pulling the next deletion. *)
Lemma pull_step d cv ls K : covering d cv ls K -> cv_state cv = Pull ->
  exists cv' ls', st_runs (let@ more := st_zoom cv_merger set_cv_merger (next_merged (E := E) KEY_MAX d v) in
      st_mod (fun cv => if more : bool then set_cv_state Look (current_entry (cv_merger cv)) cv else set_cv_state CoverDone (cv_look cv) cv)) cv cv' (Ok tt) /\
    covering d cv' ls' K /\ cv_active cv' = cv_active cv /\ cv_inexact cv' = cv_inexact cv /\
    (cv_state cv' = Look /\ (length (in_merger cv' ls') < length (in_merger cv ls))%nat \/ cv_state cv' = CoverDone).
Proof.
  intros Hc Hp. pose proof Hc as [].
  assert (ahead cv ls = in_merger cv ls) as Eah by (unfold ahead; by rewrite Hp).
  destruct (next_merged_step KEY_MAX d v live (cv_merger cv) ls cg_merging0 cg_lined0) as (m' & r & ls' & Hrun & Hm' & Hl' & Hb & Ho & Hpl).
  rewrite cg_exact0 in Hb, Hpl. eexists _, ls'. split.
  { eapply st_runs_seq; [apply st_runs_zoom; exact Hrun |]. apply st_runs_mod. }
  destruct r.
  - destruct Hpl as (El & Hpr & _ & Hord & Hw & Hk & Hlen). split_and!; [| done | done | left; done].
    assert (forall k s, covered (in_merger cv ls) k s <-> covered (rm_current m' :: left_of (rm_pending m') ls') k s) as Hiff.
    { intros k s. split; [| apply Hw]. intros Hcv. destruct (Hk k s Hcv) as [? | [Hx _]]; [done | discriminate]. }
    split; try done.
    + intros k s Hcv. apply cg_within0. rewrite Eah. by apply Hiff.
    + intros k s HJ Hs HK. destruct (cg_known0 k s HJ Hs HK) as [Hcv | ?]; [left | by right]. rewrite Eah in Hcv. by apply Hiff in Hcv.
  - destruct Hpl as (El & Hnil & Hk). split_and!; [| done | done | by right]. split; try done.
    + intros k s Hcv. unfold ahead, in_merger in Hcv. cbn in Hcv. rewrite Hnil in Hcv. by apply covered_nil in Hcv.
    + intros k s HJ Hs HK. destruct (cg_known0 k s HJ Hs HK) as [Hcv | ?]; [| by right]. rewrite Eah in Hcv.
      destruct (Hk k s Hcv) as [[]%covered_nil | [Hx _]]. discriminate.
Qed.

Definition ends_past (key : bytes) (cv : Cover) : Prop := forall a, a ∈ cv_active cv -> bytes_lt key (rd_end a).

Lemma skip_look d cv ls key : covering d cv ls key -> cv_state cv = Look ->
  (oldest <=? rd_seq (cv_look cv))%Z || bytes_leb (rd_end (cv_look cv)) key = true -> covering d (set_cv_state Pull (cv_look cv) cv) ls key.
Proof.
  intros [] Hl Hskip.
  assert (ahead cv ls = cv_look cv :: in_merger cv ls) as Eah by (unfold ahead; by rewrite Hl).
  split; try done.
  - intros k s Hcv. apply cg_within0. rewrite Eah. apply covered_cons. right. exact Hcv.
  - intros k s HJ Hs HK. destruct (cg_known0 k s HJ Hs HK) as [Hcv | ?]; [left | by right]. rewrite Eah in Hcv.
    apply covered_cons in Hcv as [(_ & H2 & H3) | Hcv]; [| exact Hcv]. exfalso. apply orb_true_iff in Hskip as [Ho%Z.leb_le | He%bytes_leb_spec]; [lia |].
    eapply (irreflexivity bytes_lt k), bytes_lt_le_trans; [exact H2 |]. by eapply bytes_le_trans.
Qed.

Lemma track_look d cv ls key a' x' : covering d cv ls key -> ends_past key cv -> cv_state cv = Look -> bytes_le (rd_start (cv_look cv)) key ->
  (oldest <=? rd_seq (cv_look cv))%Z || bytes_leb (rd_end (cv_look cv)) key = false ->
  track KEY_MAX key (cv_look cv) (cv_active cv) (cv_inexact cv) = (a', x') ->
  let cv' := set_cv_active a' x' (set_cv_state Pull (cv_look cv) cv) in
  covering d cv' ls key /\ ends_past key cv' /\ (forall k, inexact_has (cv_inexact cv) k -> inexact_has x' k).
Proof.
  intros [] Hep Hl Hst Hskip Ht. apply orb_false_iff in Hskip as [Ho%Z.leb_gt He%bytes_leb_gt].
  destruct (track_spec _ _ _ _ _ _ _ cg_froms0 Ht) as (Hsub & Hf & Hm & Hcov).
  assert (ahead cv ls = cv_look cv :: in_merger cv ls) as Eah by (unfold ahead; by rewrite Hl).
  split; [| split; [intros a Ha; destruct (Hsub a Ha) as [? | ->]; auto | done]]. split; try done.
  - intros k s Hcv. apply cg_within0. rewrite Eah. apply covered_cons. right. exact Hcv.
  - intros a Ha. destruct (Hsub a Ha) as [Hin | ->]; [by apply cg_active0 |]. split_and!; [| done | done].
    intros k H1 H2. apply cg_within0. rewrite Eah. apply covered_cons. by left.
  - intros k s HJ Hs HK. destruct (cg_known0 k s HJ Hs HK) as [Hcv | [(a & Ha & H1 & H2) | Hx]].
    + rewrite Eah in Hcv. apply covered_cons in Hcv as [(_ & H2 & H3) | Hcv]; [| left; exact Hcv]. right.
      destruct (Hcov (cv_look cv) k) as [(a & Ha & Hs' & Hk) | ?]; [left | done | done | | by right]. left. exists a. split_and!; [done | lia | done].
    + right. destruct (Hcov a k) as [(b & Hb & Hs' & Hk) | ?]; [by right | done | done | | by right]. left. exists b. split_and!; [done | lia | done].
    + right. right. by apply Hm.
Qed.

(** Past the key: nothing ahead starts at or below it. *)
Definition past_key (key : bytes) (cv : Cover) (ls : list (list RdelEntry)) : Prop := forall s, ~ covered (ahead cv ls) key s.

Lemma cover_loop_step d key : forall fuel cv ls, covering d cv ls key -> ends_past key cv ->
  (length (in_merger cv ls) + (if bool_decide (cv_state cv = Look) then 1 else 0) < fuel)%nat ->
  exists cv' ls', st_runs (cover_loop (E := E) KEY_MAX d fuel v key oldest) cv cv' (Ok tt) /\ covering d cv' ls' key /\ ends_past key cv' /\
    past_key key cv' ls' /\ (forall k, inexact_has (cv_inexact cv) k -> inexact_has (cv_inexact cv') k).
Proof.
  induction fuel as [|fuel IH]; intros cv ls Hc Hep Hf; [lia |]. cbn [cover_loop].
  assert (exists cv1 ls1, st_runs (if bool_decide (cv_state cv = Pull) then
          let@ more := st_zoom cv_merger set_cv_merger (next_merged (E := E) KEY_MAX d v) in
          st_mod (fun cv => if more : bool then set_cv_state Look (current_entry (cv_merger cv)) cv else set_cv_state CoverDone (cv_look cv) cv)
        else st_ret tt) cv cv1 (Ok tt) /\ covering d cv1 ls1 key /\ ends_past key cv1 /\ cv_inexact cv1 = cv_inexact cv /\
      (cv_state cv1 = CoverDone \/ cv_state cv1 = Look /\ (length (in_merger cv1 ls1) < fuel)%nat)) as (cv1 & ls1 & Hrun1 & Hc1 & Hep1 & Ex1 & Hst1).
  { destruct (cv_state cv) eqn:Es; rewrite ?Es in Hf; cbn in Hf.
    - destruct (pull_step d cv ls key Hc Es) as (cv1 & ls1 & Hrun & Hc1 & Ea & Ex & Hor). exists cv1, ls1. rewrite bool_decide_true by done.
      split_and!; [done | done | unfold ends_past; by rewrite Ea | done |]. cbn in Hf. destruct Hor as [[? ?] | ?]; [right; split; [done | lia] | by left].
    - exists cv, ls. rewrite bool_decide_false by done. split_and!; [apply st_runs_ret | done | done | done |]. right. split; [done |]. rewrite bool_decide_true in Hf by done. lia.
    - exists cv, ls. rewrite bool_decide_false by done. split_and!; [apply st_runs_ret | done | done | done |]. by left. }
  assert (forall (f : Cover -> stm Cover E unit) s2 r, st_runs (f cv1) cv1 s2 r ->
    st_runs (let@ cv := st_get in
      let@ _ := (if bool_decide (cv_state cv = Pull) then
          let@ more := st_zoom cv_merger set_cv_merger (next_merged (E := E) KEY_MAX d v) in
          st_mod (fun cv => if more : bool then set_cv_state Look (current_entry (cv_merger cv)) cv else set_cv_state CoverDone (cv_look cv) cv)
        else st_ret tt) in let@ cv := st_get in f cv) cv s2 r) as Hgo.
  { intros f s2 r Hr. apply st_runs_get. eapply st_runs_seq; [exact Hrun1 |]. by apply st_runs_get. }
  rewrite <- Ex1. destruct Hst1 as [Hdone | [Hlook Hlen]].
  - exists cv1, ls1. split_and!; auto.
    + apply Hgo. rewrite bool_decide_false by (by rewrite Hdone). apply st_runs_ret.
    + intros s Hcv. unfold ahead in Hcv. rewrite bool_decide_false in Hcv by (by rewrite Hdone). rewrite (cg_done _ _ _ _ Hc1 Hdone) in Hcv. by apply covered_nil in Hcv.
  - destruct (bytes_ltb key (rd_start (cv_look cv1))) eqn:Epast.
    + exists cv1, ls1. split_and!; auto.
      * apply Hgo. rewrite Epast, orb_true_r. apply st_runs_ret.
      * apply bytes_ltb_spec in Epast. intros s (r & Hr & H1 & _ & _). unfold ahead in Hr. rewrite bool_decide_true in Hr by done.
        pose proof (ln_last _ _ _ _ (cg_lined _ _ _ _ Hc1) _ (cg_look _ _ _ _ Hc1 Hlook)) as Hall. rewrite Forall_forall in Hall.
        apply (irreflexivity bytes_lt key). eapply bytes_lt_le_trans; [exact Epast |]. apply elem_of_cons in Hr as [-> | Hr]; [done |].
        eapply bytes_le_trans; [apply (Hall r Hr) | done].
    + assert (bytes_le (rd_start (cv_look cv1)) key) as Hst by (by apply bytes_ltb_ge).
      destruct ((oldest <=? rd_seq (cv_look cv1))%Z || bytes_leb (rd_end (cv_look cv1)) key) eqn:Eskip.
      * destruct (IH (set_cv_state Pull (cv_look cv1) cv1) ls1) as (cv' & ls' & Hrun & Hc' & Hrest); [by apply skip_look | done | rewrite bool_decide_false by done; unfold in_merger in *; cbn; lia |].
        exists cv', ls'. split; [| done]. apply Hgo. rewrite bool_decide_true, Epast by done. cbn [negb orb]. apply st_runs_mod_seq. cbv zeta. rewrite Eskip. exact Hrun.
      * destruct (track KEY_MAX key (cv_look cv1) (cv_active cv1) (cv_inexact cv1)) as [a' x'] eqn:Et.
        destruct (track_look d cv1 ls1 key a' x' Hc1 Hep1 Hlook Hst Eskip Et) as (Hc2 & Hep2 & Hm2).
        destruct (IH _ ls1 Hc2 Hep2) as (cv' & ls' & Hrun & Hc' & Hep' & Hp' & Hm'); [rewrite bool_decide_false by done; unfold in_merger in *; cbn; lia |].
        exists cv', ls'. split_and!; auto. apply Hgo. rewrite bool_decide_true, Epast by done. cbn [negb orb]. apply st_runs_mod_seq. cbv zeta. rewrite Eskip.
        apply st_runs_mod_seq. cbn [set_cv_state cv_active cv_inexact]. rewrite Et. exact Hrun.
Qed.

Lemma max_fold l : forall c, (c <= fold_left Z.max l c)%Z /\ (forall s, s ∈ l -> (s <= fold_left Z.max l c)%Z) /\ (fold_left Z.max l c = c \/ fold_left Z.max l c ∈ l).
Proof.
  induction l as [|x l IH]; intros c; cbn [fold_left]; [split_and!; [lia | by intros s Hs%not_elem_of_nil | by left] |].
  destruct (IH (Z.max c x)) as (H1 & H2 & H3). split_and!; [lia | |].
  - intros s [-> | Hs]%elem_of_cons; [lia | by apply H2].
  - destruct H3 as [H3 | H3]; [| right; by right]. rewrite H3. destruct (Z.max_spec c x) as [[_ ->] | [_ ->]]; [right; left | by left].
Qed.

(** One key: the cover is the sequence of a deletion every reader sees, and outside the
    inexact ranges no such deletion is newer. *)
Lemma cover_key_step d cv ls K key : covering d cv ls K -> bytes_le K key ->
  exists cv' ls' c, st_runs (cover_key (E := E) KEY_MAX d v key oldest) cv cv' (Ok c) /\ covering d cv' ls' key /\
    (c = 0%Z \/ J key c /\ (c < oldest)%Z) /\ (forall s, J key s -> (s < oldest)%Z -> (s <= c)%Z \/ inexact_has (cv_inexact cv') key) /\
    (forall k, inexact_has (cv_inexact cv) k -> inexact_has (cv_inexact cv') k).
Proof.
  intros Hc HK. unfold cover_key. destruct (bool_decide (cv_state cv = CoverDone) && (length (cv_active cv) =? 0)%nat) eqn:Eq.
  - apply andb_true_iff in Eq as [Hd%bool_decide_eq_true Hn%Nat.eqb_eq]. apply length_zero_iff_nil in Hn.
    destruct (covering_key d cv ls K key Hc HK) as [Hc1 _]. exists cv, ls, 0%Z.
    assert (covering d cv ls key) as Hc2. { destruct cv. cbn in *. subst. exact Hc1. }
    split; [apply st_runs_get; rewrite bool_decide_true, Hn by done; apply st_runs_ret |]. split_and!; [done | by left | | done].
    intros s HJ Hs. right. destruct (cg_known _ _ _ _ Hc2 key s HJ Hs (bytes_le_refl _)) as [Hcv | [(a & Ha & _) | ?]]; [| | done].
    + unfold ahead in Hcv. rewrite bool_decide_false in Hcv by (by rewrite Hd). rewrite (cg_done _ _ _ _ Hc2 Hd) in Hcv. by apply covered_nil in Hcv.
    + rewrite Hn in Ha. by apply not_elem_of_nil in Ha.
  - destruct (covering_key d cv ls K key Hc HK) as [Hc1 Hep1].
    set (cv1 := set_cv_active (swept (fun a => bytes_leb (rd_end a) key) (cv_active cv)) (cv_inexact cv) cv) in *.
    destruct (cover_loop_step d key (merge_bound v (cv_merger cv) + 3) cv1 ls Hc1 Hep1) as (cv' & ls' & Hrun & Hc' & Hep' & Hpast & Hm).
    { pose proof (merge_bound_le KEY_MAX d v live (cv_merger cv) ls (cg_merging _ _ _ _ Hc)) as Hb. unfold in_merger, left_of.
      change (cv_merger cv1) with (cv_merger cv). rewrite length_app. destruct (rm_pending (cv_merger cv)); cbn; destruct (bool_decide (cv_state cv = Look)); lia. }
    exists cv', ls', (fold_left Z.max (map rd_seq (cv_active cv')) 0%Z). split.
    { apply st_runs_get. rewrite Eq. apply st_runs_mod_seq. eapply st_runs_seq; [exact Hrun |]. apply st_runs_get, st_runs_ret. }
    destruct (max_fold (map rd_seq (cv_active cv')) 0%Z) as (_ & Hmax & Hin). split_and!; [done | | | done].
    + destruct Hin as [? | Hin]; [by left |]. right. apply list_elem_of_In, in_map_iff in Hin as (a & Ea & Ha). apply list_elem_of_In in Ha. rewrite <- Ea.
      destruct (cg_active _ _ _ _ Hc' a Ha) as (H1 & H2 & H3). split; [apply H1; [done | by apply Hep'] | done].
    + intros s HJ Hs. destruct (cg_known _ _ _ _ Hc' key s HJ Hs (bytes_le_refl _)) as [Hcv | [(a & Ha & H1 & _) | ?]]; [by apply Hpast in Hcv | left | by right].
      etrans; [exact H1 |]. apply Hmax. apply list_elem_of_In, in_map, list_elem_of_In. done.
Qed.

(** A device that reads the job's blocks the same. *)
Lemma covering_ext d d' cv ls K : (forall id, live id -> read_block d' id = read_block d id) -> covering d cv ls K -> covering d' cv ls K.
Proof. intros Hsame []. split; auto. by eapply merging_ext. Qed.
End stream.

(** ** A new stream *)

(** After [start_cover]: the deletions of the job are all ahead. *)
Lemma start_covering {D E : Type} `{Laws : DeviceLaws D E} KEY_MAX (d : D) (v : TargetView) live sources secs (wt has : bool) tsecs oldest look :
  (length sources < COMPACTION_KMAX)%nat -> Forall2 (source_on (E := E) KEY_MAX d live) sources secs ->
  (if wt then later (E := E) KEY_MAX d v live 0 tsecs else tsecs = []) -> Forall sec_ordered (secs ++ tsecs) -> apart tsecs ->
  (has = false -> concat (new_lists secs 0 wt tsecs) = []) ->
  covering (E := E) KEY_MAX v live (job_covers secs 0 tsecs) oldest d
    (mkCover (merger_new KEY_MAX sources 0 wt false oldest) (if has then Pull else CoverDone) look [] (Some [])) (new_lists secs 0 wt tsecs) [].
Proof.
  intros Hlen Hsrc Ht Hord Hap Hhas.
  assert (forall k s, covered (concat (new_lists secs 0 wt tsecs)) k s <-> job_covers secs 0 tsecs k s) as Hcov by (intros k s; apply new_lists_cover; by intros ->).
  assert (forall look, ahead (mkCover (merger_new KEY_MAX sources 0 wt false oldest) (if has then Pull else CoverDone) look [] (Some [])) (new_lists secs 0 wt tsecs) = concat (new_lists secs 0 wt tsecs)) as Ha
    by (intros lk; unfold ahead; by destruct has).
  split; try done.
  - by apply new_merging.
  - by eapply new_lined.
  - cbn. destruct has; [done |]. intros _. by apply Hhas.
  - cbn. by destruct has.
  - intros k s. rewrite Ha. apply Hcov.
  - intros a Ha'%not_elem_of_nil. done.
  - intros k s HJ _ _. left. rewrite Ha. by apply Hcov.
  - intros f t Hf%not_elem_of_nil. done.
Qed.
