(* ===== verification/CompactKeep.v ===== *)
(** * Which versions a compaction keeps: [src/compact.rs]

    The merge pops the versions of its inputs in key order, newest first, and emits a
    version when some threshold (the live view, a snapshot) still needs it.  Here the
    emitted versions are compared with the popped ones: every version a reader of a
    threshold sees is emitted, unless a deletion every reader sees hides it or the whole
    key is dropped at the bottom. *)

From stdpp Require Import base numbers list sets sorting.
From Stdlib Require Import ZArith Lia Sorting.Sorted.
From S2P Require Import Prelude Device Steps Manifest SstPlan SstBuild Db CompactCursor CompactRdel RdelMerge Compact CompactCover.

Section keep.
  (** The job, its purge cutoff, and its deletions: [J k s], a range tombstone of the job
      with sequence [s] covers [k]. *)
  Context (j : Job) (pb : u64) (J : bytes -> u64 -> Prop).

  Abbreviation oldest := (jb_oldest_snapshot j).
  Abbreviation ths := (job_thresholds j).
  Abbreviation out := (out_entry pb).

(** The head of a key that [may_drop_key] lets go with all older versions. *)
Definition droppable (e : SstEntry) : bool :=
  jb_bottommost j && (se_tombstone e || (negb (se_expire_at e =? 0)%Z && (se_expire_at e <=? pb)%Z)) && (se_seq e <? oldest)%Z &&
  outside_clear j (jb_max_wall j) (se_seq e).

Lemma may_drop_droppable c cu : co_job c = j -> co_purge_before c = pb -> may_drop_key c cu = droppable (cu_entry cu).
Proof. intros E1 E2. unfold may_drop_key, droppable. by rewrite E1, E2. Qed.

(** The newest version of [k] at or below [th]. *)
Definition newest (k : bytes) (th : u64) (P : list SstEntry) (p : SstEntry) : Prop :=
  p ∈ P /\ se_key p = k /\ (se_seq p <= th)%Z /\ forall q, q ∈ P -> se_key q = k -> (se_seq q <= th)%Z -> (se_seq q <= se_seq p)%Z.

Definition top (k : bytes) (P : list SstEntry) (p : SstEntry) : Prop :=
  p ∈ P /\ se_key p = k /\ forall q, q ∈ P -> se_key q = k -> (se_seq q <= se_seq p)%Z.

(** Below a deletion that every reader sees. *)
Definition hidden (p : SstEntry) : Prop := exists s, J (se_key p) s /\ (se_seq p < s < oldest)%Z.

Definition dropped (k : bytes) (P : list SstEntry) : Prop := exists q, top k P q /\ droppable q = true.

(** Emitted [O] of popped [P], with the inexact ranges [x]. *)
Record keeping (P O : list SstEntry) (x : Inexact) : Prop := {
  kp_kept : forall k th p, th ∈ ths -> newest k th P p -> out p ∈ O \/ hidden p \/ dropped k P;
  kp_from : forall o, o ∈ O -> exists p, p ∈ P /\ o = out p /\ ~ dropped (se_key p) P /\
    (inexact_has x (se_key p) \/ forall s, J (se_key p) s -> (s < oldest)%Z -> (s <= se_seq p)%Z);
}.

(** What [served], the key state and the cover say of the versions of [k] popped so far. *)
Record at_key (k : bytes) (st : KeyState) (served : list bool) (cover : u64) (P O : list SstEntry) (x : Inexact) : Prop := {
  ak_state : st = KeyMerging \/ st = KeyDropping;
  ak_len : (length ths <= length served)%nat;
  ak_served : forall i th, ths !! i = Some th ->
    match served !! i with
    | Some true => exists p, newest k th P p /\ out p ∈ O
    | _ => forall p, p ∈ P -> se_key p = k -> (se_seq p <= th)%Z -> (se_seq p < cover)%Z \/ st = KeyDropping
    end;
  ak_cover : cover = 0%Z \/ J k cover /\ (cover < oldest)%Z;
  ak_exact : inexact_has x k \/ forall s, J k s -> (s < oldest)%Z -> (s <= cover)%Z;
}.

(** Whether the key is dropped agrees with its newest version, [e] if none is popped yet. *)
Definition drop_agrees (k : bytes) (st : KeyState) (P : list SstEntry) (e : SstEntry) : Prop :=
  (exists q, top k P q /\ (st = KeyDropping <-> droppable q = true)) \/
  ((forall q, q ∈ P -> se_key q <> k) /\ (st = KeyDropping <-> droppable e = true)).

(** [P] in version order, and [e] next. *)
Definition next_version (P : list SstEntry) (e : SstEntry) : Prop := version_ordered P /\ Forall (fun p => version_before p e) P.

Lemma next_seq P e q : next_version P e -> q ∈ P -> se_key q = se_key e -> (se_seq e < se_seq q)%Z.
Proof.
  intros [_ Hb] Hq Hk. rewrite Forall_forall in Hb. destruct (Hb q Hq) as [Hlt | [_ ?]]; [| done].
  rewrite Hk in Hlt. by apply (irreflexivity bytes_lt) in Hlt.
Qed.

Lemma ordered_unique P a b : version_ordered P -> a ∈ P -> b ∈ P -> se_key a = se_key b -> se_seq a = se_seq b -> a = b.
Proof.
  intros Ho Ha Hb Hk Hs. induction Ho as [|x P Ho IH Hf]; [by apply not_elem_of_nil in Ha |].
  assert (forall y, y ∈ P -> se_key x = se_key y -> se_seq x = se_seq y -> False) as Hx.
  { intros y Hy E1 E2. rewrite Forall_forall in Hf. destruct (Hf y Hy) as [Hlt | [_ Hlt]]; [| lia].
    rewrite E1 in Hlt. by apply (irreflexivity bytes_lt) in Hlt. }
  apply elem_of_cons in Ha as [-> | Ha], Hb as [-> | Hb]; [done | exfalso; eauto | exfalso; eauto | auto].
Qed.

Lemma top_unique k P a b : version_ordered P -> top k P a -> top k P b -> a = b.
Proof.
  intros Ho (Ha & Ka & Ta) (Hb & Kb & Tb). apply (ordered_unique P); [done | done | done | congruence |].
  pose proof (Ta b Hb Kb). pose proof (Tb a Ha Ka). lia.
Qed.

(** Popping one more version leaves the newest of the others. *)
Lemma top_snoc_other k P e q : se_key e <> k -> top k (P ++ [e]) q <-> top k P q.
Proof.
  intros Hne. unfold top. split.
  - intros ([Hin | ->%list_elem_of_singleton]%elem_of_app & Hk & Ht); [| done]. split_and!; [done | done |]. intros y Hy Hyk. apply Ht; [apply elem_of_app; by left | done].
  - intros (Hin & Hk & Ht). split_and!; [apply elem_of_app; by left | done |]. intros y [Hy | ->%list_elem_of_singleton]%elem_of_app Hyk; [by apply Ht | done].
Qed.

Lemma top_snoc_old k P e q : next_version P e -> top k P q -> top k (P ++ [e]) q.
Proof.
  intros Hn (Hin & Hk & Ht). split_and!; [apply elem_of_app; by left | done |].
  intros y [Hy | ->%list_elem_of_singleton]%elem_of_app Hyk; [by apply Ht |]. pose proof (next_seq P e q Hn Hin). rewrite Hk, Hyk in *. specialize (H eq_refl). lia.
Qed.

Lemma top_snoc_new P e : (forall q, q ∈ P -> se_key q <> se_key e) -> top (se_key e) (P ++ [e]) e.
Proof.
  intros Hno. split_and!; [apply elem_of_app; right; by left | done |]. intros y [Hy | ->%list_elem_of_singleton]%elem_of_app Hyk; [by apply Hno in Hy | lia].
Qed.

Lemma version_ordered_snoc P e : next_version P e -> version_ordered (P ++ [e]).
Proof.
  intros [Ho Hb]. apply StronglySorted_app. split_and!; [| done | repeat constructor]. intros a b Ha ->%list_elem_of_singleton.
  rewrite Forall_forall in Hb. by apply Hb.
Qed.
Lemma wanted_spec sq l : forall served, wanted sq l served = true <-> exists i th, l !! i = Some th /\ served !! i = Some false /\ (sq <= th)%Z.
Proof.
  induction l as [|th l IH]; intros [|s served]; cbn [wanted].
  - split; [done | by intros (i & ? & ? & _)].
  - split; [done | by intros (i & ? & ? & _)].
  - split; [done | by intros (i & ? & _ & ? & _)].
  - rewrite orb_true_iff, IH. split.
    + intros [[Hs%negb_true_iff Hle%Z.leb_le]%andb_true_iff | (i & th' & H1 & H2 & H3)]; [exists 0%nat, th; by subst s | by exists (S i), th'].
    + intros ([|i] & th' & H1 & H2 & H3); [left | right; by exists i, th']. injection H1 as ->. injection H2 as ->. cbn. by apply Z.leb_le.
Qed.

Lemma serve_lookup sq l : forall served i,
  serve sq l served !! i = match l !! i, served !! i with Some th, Some s => Some (if (sq <=? th)%Z then true else s) | _, o => o end.
Proof.
  induction l as [|th l IH]; intros [|s served] [|i]; cbn; try done; by destruct (l !! i).
Qed.

Lemma serve_length sq l : forall served, length (serve sq l served) = length served.
Proof. induction l as [|th l IH]; intros [|s served]; cbn; [done | done | done |]. by rewrite IH. Qed.

(** The merge's decision on the head [e]. *)
Definition emits (st : KeyState) (cover : u64) (served : list bool) (e : SstEntry) : bool :=
  negb (bool_decide (st = KeyDropping)) && negb (se_seq e <? cover)%Z && wanted (se_seq e) ths served.

Lemma newest_snoc_old k th P e p : next_version P e -> newest k th P p -> newest k th (P ++ [e]) p.
Proof.
  intros Hn (Hin & Hk & Hle & Ht). split_and!; [apply elem_of_app; by left | done | done |].
  intros y [Hy | ->%list_elem_of_singleton]%elem_of_app Hyk Hyl; [by apply Ht |]. pose proof (next_seq P e p Hn Hin) as Hs. rewrite Hk, Hyk in Hs. specialize (Hs eq_refl). lia.
Qed.

(** The newest at a threshold after popping [e]: as before, or [e] where there was none. *)
Lemma newest_snoc k th P e p : next_version P e -> newest k th (P ++ [e]) p ->
  newest k th P p \/ (p = e /\ se_key e = k /\ (se_seq e <= th)%Z /\ forall q, q ∈ P -> se_key q = k -> (th < se_seq q)%Z).
Proof.
  intros Hn ([Hin | ->%list_elem_of_singleton]%elem_of_app & Hk & Hle & Ht).
  - left. split_and!; [done | done | done |]. intros y Hy. apply Ht, elem_of_app. by left.
  - right. split_and!; [done | done | done |]. intros q Hq Hqk. destruct (Z.le_gt_cases (se_seq q) th) as [Hql |]; [| lia]. exfalso.
    pose proof (Ht q ltac:(apply elem_of_app; by left) Hqk Hql). pose proof (next_seq P e q Hn Hq). rewrite Hk, Hqk in *. specialize (H0 eq_refl). lia.
Qed.

Lemma dropped_snoc k P e : next_version P e -> se_key e <> k \/ (exists q, top k P q) -> dropped k (P ++ [e]) <-> dropped k P.
Proof.
  intros Hn Hor. split; intros (q & Hq & Hd).
  - exists q. split; [| done]. destruct Hor as [Hne | [q' Hq']]; [by apply top_snoc_other in Hq |].
    pose proof (top_unique k (P ++ [e]) q q' (version_ordered_snoc P e Hn) Hq (top_snoc_old k P e q' Hn Hq')) as ->. done.
  - exists q. split; [by apply top_snoc_old | done].
Qed.

(** The versions before [e] keep their standing. *)
Lemma has_top k P p : version_ordered P -> p ∈ P -> se_key p = k -> exists q, top k P q.
Proof.
  intros Ho Hp Hk. induction Ho as [|x P Ho IH Hf]; [by apply not_elem_of_nil in Hp |].
  destruct (decide (se_key x = k)) as [Hx | Hx].
  - exists x. split_and!; [left | done |]. intros q [-> | Hq]%elem_of_cons Hqk; [lia |]. rewrite Forall_forall in Hf. destruct (Hf q Hq) as [Hlt | [_ ?]]; [| lia].
    rewrite Hx, Hqk in Hlt. by apply (irreflexivity bytes_lt) in Hlt.
  - apply elem_of_cons in Hp as [-> | Hp]; [done |]. destruct (IH Hp) as (q & Hq & Hqk & Ht). exists q. split_and!; [by right | done |].
    intros y [-> | Hy]%elem_of_cons Hyk; [done | by apply Ht].
Qed.

Lemma agreed_top k st P e : next_version P e -> se_key e = k -> drop_agrees k st P e -> exists q, top k (P ++ [e]) q /\ (st = KeyDropping <-> droppable q = true).
Proof.
  intros Hn Hk [(q & Hq & Hd) | [Hno Hd]]; [exists q; split; [by apply top_snoc_old | done] |]. exists e. split; [| done]. subst k. by apply top_snoc_new.
Qed.

(** Popping a version keeps the account, whether it is emitted or not. *)
Lemma process_step k st served cover P O x e :
  keeping P O x -> at_key k st served cover P O x -> drop_agrees k st P e -> next_version P e -> se_key e = k -> (0 <= se_seq e)%Z ->
  let b := emits st cover served e in
  let O' := if b then O ++ [out e] else O in
  let served' := if b then serve (se_seq e) ths served else served in
  keeping (P ++ [e]) O' x /\ at_key k st served' cover (P ++ [e]) O' x.
Proof.
  intros [Hkept Hfrom] [Hst Hlen Hsv Hcov Hex] Hdr Hn Hk H0 b O' served'.
  destruct (agreed_top k st P e Hn Hk Hdr) as (q & Hq & Hdq).
  assert (forall o, o ∈ O -> o ∈ O') as Hinc by (intros o Ho; unfold O'; destruct b; [apply elem_of_app; by left | done]).
  assert (forall k', (exists p, p ∈ P /\ se_key p = k') \/ k' <> k -> dropped k' (P ++ [e]) <-> dropped k' P) as Hds.
  { intros k' Hor. apply dropped_snoc; [done |]. destruct Hor as [(p & Hp & Hpk) | Hne]; [right; eapply has_top; [apply Hn | done | done] | left; congruence]. }
  assert (b = true -> st <> KeyDropping /\ (cover <= se_seq e)%Z /\ exists i th, ths !! i = Some th /\ served !! i = Some false /\ (se_seq e <= th)%Z) as Hb1.
  { unfold b, emits. intros [[H1%negb_true_iff H2%negb_true_iff]%andb_true_iff H3]%andb_true_iff. apply wanted_spec in H3.
    split; [by apply bool_decide_eq_false in H1 |]. split; [by apply Z.ltb_ge | done]. }
  assert (b = false -> st = KeyDropping \/ (se_seq e < cover)%Z \/ forall i th, ths !! i = Some th -> (se_seq e <= th)%Z -> served !! i = Some true) as Hb0.
  { unfold b, emits. intros Hb. destruct (decide (st = KeyDropping)) as [| Hnd]; [by left |]. rewrite bool_decide_false in Hb by done. cbn [negb andb] in Hb.
    destruct (se_seq e <? cover)%Z eqn:Ec; [right; left; by apply Z.ltb_lt |]. cbn [negb andb] in Hb. right. right. intros i th Hi Hle.
    destruct (served !! i) as [[] |] eqn:Es; [done | |].
    - assert (wanted (se_seq e) ths served = true) by (apply wanted_spec; by exists i, th). congruence.
    - apply lookup_ge_None in Es. apply lookup_lt_Some in Hi. lia. }
  split; [split |].
  - intros k' th p Hth Hnew. destruct (newest_snoc k' th P e p Hn Hnew) as [Hold | (-> & Hek & Hle & Hnone)].
    + destruct (Hkept k' th p Hth Hold) as [? | [? | ?]]; [left; auto | by right; left | right; right].
      apply Hds; [left; exists p; split; [apply Hold | apply Hold] | done].
    + assert (k' = k) as -> by congruence. destruct b eqn:Eb; [left; unfold O'; apply elem_of_app; right; by left |].
      destruct (Hb0 eq_refl) as [Hd | [Hc | Hall]].
      * right. right. exists q. split; [done |]. by apply Hdq.
      * right. left. destruct Hcov as [-> | [HJ Ho]]; [lia |]. exists cover. rewrite Hek. split; [done | lia].
      * exfalso. apply list_elem_of_lookup in Hth as [i Hi]. pose proof (Hsv i th Hi) as Hs. rewrite (Hall i th Hi Hle) in Hs.
        destruct Hs as (p & (Hp & Hpk & Hpl & _) & _). pose proof (Hnone p Hp Hpk). lia.
  - assert (b = true -> ~ dropped k (P ++ [e])) as Hnd.
    { intros Hb (q' & Hq' & Hd'). destruct (Hb1 Hb) as [Hne _]. apply Hne, Hdq. by rewrite (top_unique k (P ++ [e]) q q' (version_ordered_snoc P e Hn) Hq Hq'). }
    assert (forall o, o ∈ O -> exists p, p ∈ P ++ [e] /\ o = out p /\ ~ dropped (se_key p) (P ++ [e]) /\
      (inexact_has x (se_key p) \/ forall s, J (se_key p) s -> (s < oldest)%Z -> (s <= se_seq p)%Z)) as Hold.
    { intros o Ho. destruct (Hfrom o Ho) as (p & Hp & -> & Hnp & Hx). exists p. split; [apply elem_of_app; by left |]. split; [done |]. split; [| done].
      rewrite Hds; [done |]. left. by exists p. }
    intros o Ho. unfold O' in Ho. destruct b eqn:Eb; [| by apply Hold]. apply elem_of_app in Ho as [Ho | ->%list_elem_of_singleton]; [by apply Hold |].
    exists e. split; [apply elem_of_app; right; by left |]. split; [done |]. rewrite Hk. split; [by apply Hnd |].
    destruct Hex as [? | Hex]; [by left | right]. intros s HJ Hs. destruct (Hb1 eq_refl) as (_ & Hc & _). specialize (Hex s HJ Hs). lia.
  - split; try done.
    + unfold served'. destruct b; [by rewrite serve_length | done].
    + intros i th Hi. pose proof (Hsv i th Hi) as Hs.
      assert (forall p, newest k th P p /\ out p ∈ O -> exists p, newest k th (P ++ [e]) p /\ out p ∈ O') as Hup.
      { intros p [Hp Ho]. exists p. split; [by apply newest_snoc_old | by apply Hinc]. }
      unfold served'. destruct b eqn:Eb.
      * rewrite serve_lookup, Hi. destruct (Hb1 eq_refl) as (Hnd & Hc & _).
        destruct (served !! i) as [sv |] eqn:Es; [| apply lookup_ge_None in Es; apply lookup_lt_Some in Hi; lia].
        destruct (se_seq e <=? th)%Z eqn:Ele.
        -- apply Z.leb_le in Ele. destruct sv; [destruct Hs as (p & Hp); by eapply Hup |].
           exists e. split; [| unfold O'; apply elem_of_app; right; by left]. split_and!; [apply elem_of_app; right; by left | done | done |].
           intros y [Hy | ->%list_elem_of_singleton]%elem_of_app Hyk Hyl; [| lia]. exfalso. destruct (Hs y Hy Hyk Hyl) as [Hlt | ?]; [| done].
           pose proof (next_seq P e y Hn Hy) as Hsq. rewrite Hk, Hyk in Hsq. specialize (Hsq eq_refl). lia.
        -- apply Z.leb_gt in Ele. destruct sv; [destruct Hs as (p & Hp); by eapply Hup |].
           intros p [Hp | ->%list_elem_of_singleton]%elem_of_app Hpk Hpl; [by apply Hs | lia].
      * destruct (served !! i) as [[] |] eqn:Es; [destruct Hs as (p & Hp); by eapply Hup | |];
          intros p [Hp | ->%list_elem_of_singleton]%elem_of_app Hpk Hpl; try (by apply Hs);
          (destruct (Hb0 eq_refl) as [? | [? | Hall]]; [by right | by left |]; specialize (Hall i th Hi Hpl); congruence).
Qed.

Lemma keeping_mono P O x x' : (forall k, inexact_has x k -> inexact_has x' k) -> keeping P O x -> keeping P O x'.
Proof.
  intros Hm [Hk Hf]. split; [done |]. intros o Ho. destruct (Hf o Ho) as (p & H1 & H2 & H3 & [? | ?]); exists p; split_and!; auto.
Qed.

(** A new key: nothing is served. *)
Lemma fresh_at_key k st cover P O x : (length ths <= MAX_SNAPSHOTS + 1)%nat -> st = KeyMerging \/ st = KeyDropping ->
  (forall p, p ∈ P -> se_key p <> k) -> cover = 0%Z \/ J k cover /\ (cover < oldest)%Z ->
  (inexact_has x k \/ forall s, J k s -> (s < oldest)%Z -> (s <= cover)%Z) -> at_key k st (replicate (MAX_SNAPSHOTS + 1) false) cover P O x.
Proof.
  intros Hl Hst Hno Hc Hx. split; [done | by rewrite length_replicate | | done | done]. intros i th Hi.
  destruct (replicate _ false !! i) as [[] |] eqn:Es; [apply lookup_replicate in Es as [? _]; done | |]; intros p Hp Hk; by apply Hno in Hp.
Qed.

(** ** What a reader sees *)

Definition expired (now : u64) (e : SstEntry) : bool := negb (se_expire_at e =? 0)%Z && (se_expire_at e <=? now)%Z.

(** A read of [k] at [view] and [now], over versions [vs] and deletions [R], finds [val]. *)
Definition reads (vs : list SstEntry) (R : bytes -> u64 -> Prop) (k : bytes) (view now : u64) (val : bytes) : Prop :=
  exists e, newest k view vs e /\ se_tombstone e = false /\ expired now e = false /\
    (forall s, R k s -> (s <= view)%Z -> (s <= se_seq e)%Z) /\ se_val e = val.

Lemma out_key e : se_key (out e) = se_key e.
Proof. done. Qed.
Lemma out_seq e : se_seq (out e) = se_seq e.
Proof. done. Qed.

(** An unexpired value passes unchanged. *)
Lemma out_live now e : (pb <= now)%Z -> se_tombstone e = false -> expired now e = false ->
  se_tombstone (out e) = false /\ expired now (out e) = false /\ se_val (out e) = se_val e.
Proof.
  intros Hp Ht Hx. assert (purged pb e = false) as Hpu.
  { unfold purged, expired in *. rewrite Ht. destruct (se_expire_at e =? 0)%Z; [done |]. cbn in *. apply Z.leb_gt in Hx. apply Z.leb_gt. lia. }
  unfold out_entry, expired in *. cbn. rewrite Ht, Hpu. done.
Qed.

Lemma out_live_inv now e : se_tombstone (out e) = false -> expired now (out e) = false ->
  se_tombstone e = false /\ expired now e = false /\ se_val (out e) = se_val e.
Proof.
  unfold out_entry, expired. cbn. destruct (se_tombstone e); [done |]. cbn [orb]. destruct (purged pb e); done.
Qed.

(** ** Reads are preserved *)

  (** The versions outside the job, all newer than what it may drop; the deletions in
      force before, [R], and after, [R']. *)
  Context (os : list SstEntry) (R R' : bytes -> u64 -> Prop).

(** A deletion of [k] that goes is hidden by a newer one every reader sees, or hid only
    versions the job dropped. *)
Record outside_ok (P : list SstEntry) (x : Inexact) (k : bytes) : Prop := {
  oo_ordered : version_ordered P;
  oo_views : forall th, th ∈ ths -> (oldest <= th)%Z;
  oo_newer : forall o, o ∈ os -> se_key o = k -> (jb_outside_same_min j <= se_seq o)%Z;
  oo_job : forall s, J k s -> R k s;
  oo_sub : forall s, R' k s -> R k s;
  oo_lost : forall s, R k s -> R' k s \/ (exists s', R' k s' /\ (s < s' <= oldest)%Z) \/
    (J k s /\ (s < oldest)%Z /\ (s < jb_outside_same_min j)%Z /\ ~ inexact_has x k);
}.

Lemma droppable_spec e : droppable e = true ->
  (se_tombstone e = true \/ expired pb e = true) /\ (se_seq e < oldest)%Z /\ (se_seq e < jb_outside_same_min j)%Z.
Proof.
  unfold droppable, outside_clear. intros [[[_ He]%andb_true_iff Hs%Z.ltb_lt]%andb_true_iff Ho]%andb_true_iff.
  destruct (jb_outside_foreign_min j) as [w n]. apply andb_true_iff in Ho as [Ho%Z.ltb_lt _]. apply orb_true_iff in He. auto.
Qed.

(** The newest version over two lists. *)
Lemma newest_app_le k th a b e : newest k th (a ++ b) e <->
  (e ∈ a \/ e ∈ b) /\ se_key e = k /\ (se_seq e <= th)%Z /\
  (forall q, q ∈ a -> se_key q = k -> (se_seq q <= th)%Z -> (se_seq q <= se_seq e)%Z) /\
  (forall q, q ∈ b -> se_key q = k -> (se_seq q <= th)%Z -> (se_seq q <= se_seq e)%Z).
Proof.
  unfold newest. rewrite elem_of_app. split.
  - intros (H1 & H2 & H3 & H4). split_and!; auto; intros q Hq; apply H4, elem_of_app; auto.
  - intros (H1 & H2 & H3 & H4 & H5). split_and!; auto. intros q [Hq | Hq]%elem_of_app; auto.
Qed.

(** Some version is the newest, or there is none. *)
Lemma newest_or_none k th P : (exists q, newest k th P q) \/ forall q, q ∈ P -> se_key q = k -> (se_seq q <= th)%Z -> False.
Proof.
  induction P as [|z P IH]; [right; by intros q Hq%not_elem_of_nil |].
  destruct (decide (se_key z = k /\ (se_seq z <= th)%Z)) as [[H1 H2] | Hn].
  - left. destruct IH as [(q & Hq & Hqk & Hql & Hqt) | Hno].
    + destruct (Z.le_gt_cases (se_seq z) (se_seq q)) as [Hle | Hgt].
      * exists q. split_and!; [by right | done | done |]. intros w [-> | Hw]%elem_of_cons Hwk Hwl; [done | by apply Hqt].
      * exists z. split_and!; [left | done | done |]. intros w [-> | Hw]%elem_of_cons Hwk Hwl; [lia |]. specialize (Hqt w Hw Hwk Hwl). lia.
    + exists z. split_and!; [left | done | done |]. intros w [-> | Hw]%elem_of_cons Hwk Hwl; [lia | by edestruct Hno].
  - destruct IH as [(q & Hq & Hqk & Hql & Hqt) | Hno].
    + left. exists q. split_and!; [by right | done | done |]. intros w [-> | Hw]%elem_of_cons Hwk Hwl; [by destruct Hn | by apply Hqt].
    + right. intros w [-> | Hw]%elem_of_cons Hwk Hwl; [by apply Hn | by eapply Hno].
Qed.

Lemma reads_after P O x k th now val : keeping P O x -> outside_ok P x k -> th ∈ ths -> (pb <= now)%Z ->
  reads (P ++ os) R k th now val -> reads (O ++ os) R' k th now val.
Proof.
  intros [Hkept Hfrom] [Hvo Hv Hnw HJ Hsub _] Hth Hnow (e & He & Ht & Hx & Hdel & <-).
  apply newest_app_le in He as (Hin & Hk & Hle & Ha & Hb).
  assert (forall q, q ∈ O -> se_key q = k -> (se_seq q <= th)%Z -> (se_seq q <= se_seq e)%Z) as HO.
  { intros q Hq Hqk Hql. destruct (Hfrom q Hq) as (p & Hp & -> & _). exact (Ha p Hp Hqk Hql). }
  destruct Hin as [Hin | Hin].
  - assert (newest k th P e) as Hne by (split_and!; auto).
    destruct (Hkept k th e Hth Hne) as [Hout | [(s & HJs & Hs) | (q & (Hq & Hqk & Hqt) & Hd)]].
    + destruct (out_live now e Hnow Ht Hx) as (Ht' & Hx' & Hval). exists (out e). split_and!; [| done | done | | done].
      * apply newest_app_le. split_and!; [by left | done | done | done | done].
      * intros s HR Hs. by apply Hdel; [apply Hsub |].
    + exfalso. rewrite Hk in HJs. specialize (Hv th Hth). pose proof (Hdel s (HJ _ HJs) ltac:(lia)). lia.
    + exfalso. destruct (droppable_spec q Hd) as (Hdead & Hso & _). specialize (Hv th Hth).
      pose proof (Ha q Hq Hqk ltac:(lia)) as Hqe. pose proof (Hqt e Hin Hk).
      assert (e = q) as -> by (apply (ordered_unique P); auto; [congruence | lia]). destruct Hdead as [? | Hp]; [congruence |].
      unfold expired in Hp, Hx. destruct (se_expire_at q =? 0)%Z; [done |]. cbn in Hp, Hx. apply Z.leb_le in Hp. apply Z.leb_gt in Hx. lia.
  - exists e. split_and!; [apply newest_app_le; split_and!; auto | done | done | | done]. intros s HR Hs. apply Hdel; [by apply Hsub | done].
Qed.

(** The version [p] of the job that a reader at [th] would prefer to [e] is seen after too. *)
Lemma none_newer P O x k th e : keeping P O x -> outside_ok P x k -> th ∈ ths ->
  (forall q, q ∈ O -> se_key q = k -> (se_seq q <= th)%Z -> (se_seq q <= se_seq e)%Z) ->
  (forall s, R' k s -> (s <= th)%Z -> (s <= se_seq e)%Z) ->
  (forall s, J k s -> (s < oldest)%Z -> (s < jb_outside_same_min j)%Z -> ~ inexact_has x k -> (s <= se_seq e)%Z) ->
  (dropped k P -> (jb_outside_same_min j <= se_seq e)%Z) ->
  forall q, q ∈ P -> se_key q = k -> (se_seq q <= th)%Z -> (se_seq q <= se_seq e)%Z.
Proof.
  intros [Hkept _] [Hvo Hv Hnw HJ Hsub Hlost] Hth HO HR Hex Hdr q Hq Hqk Hql.
  destruct (newest_or_none k th P) as [(p & Hp) | Hno]; [| by edestruct Hno]. pose proof Hp as (Hpi & Hpk & Hpl & Hpt). pose proof (Hpt q Hq Hqk Hql) as Hqp.
  destruct (Hkept k th p Hth Hp) as [Hout | [(s & HJs & Hs) | Hd]].
  - specialize (HO (out p) Hout Hpk Hpl). rewrite out_seq in HO. lia.
  - rewrite Hpk in HJs. specialize (Hv th Hth). destruct (Hlost s (HJ s HJs)) as [HR' | [(s' & HR' & Hs') | (_ & H1 & H2 & H3)]].
    + specialize (HR s HR' ltac:(lia)). lia.
    + specialize (HR s' HR' ltac:(lia)). lia.
    + specialize (Hex s HJs H1 H2 H3). lia.
  - specialize (Hdr Hd). destruct Hd as (t & (Ht & Htk & Htt) & Hdt). destruct (droppable_spec t Hdt) as (_ & _ & Hm). pose proof (Htt p Hpi Hpk). lia.
Qed.

Lemma reads_before P O x k th now val : keeping P O x -> outside_ok P x k -> th ∈ ths ->
  reads (O ++ os) R' k th now val -> reads (P ++ os) R k th now val.
Proof.
  intros Hkp Hoo Hth (e & He & Ht & Hx & Hdel & <-). pose proof Hkp as [_ Hfrom]. pose proof Hoo as [_ Hv Hnw _ _ Hlost].
  apply newest_app_le in He as (Hin & Hk & Hle & Ha & Hb). destruct Hin as [Hin | Hin].
  - destruct (Hfrom e Hin) as (p & Hp & -> & Hnd & Hex). rewrite out_key in Hk. rewrite out_seq in *. rewrite Hk in Hnd, Hex.
    destruct (out_live_inv now p Ht Hx) as (Ht' & Hx' & Hval). exists p. split_and!; [| done | done | | done].
    + apply newest_app_le. split_and!; [by left | done | done | | done].
      apply (none_newer P O x k th p Hkp Hoo Hth); [done | done | | done].
      intros s HJ Hs _ Hni. destruct Hex as [? | Hex]; [done | by apply Hex].
    + intros s HR Hs. destruct (Hlost s HR) as [HR' | [(s' & HR' & Hs') | (HJ & H1 & H2 & H3)]]; [by apply Hdel | | destruct Hex as [? | Hex]; [done | by apply Hex]].
      specialize (Hv th Hth). pose proof (Hdel s' HR' ltac:(lia)). lia.
  - exists e. split_and!; auto.
    + apply newest_app_le. split_and!; [by right | done | done | | done].
      apply (none_newer P O x k th e Hkp Hoo Hth); [done | done | | intros _; by apply Hnw].
      intros s _ _ Hm _. specialize (Hnw e Hin Hk). lia.
    + intros s HR Hs. destruct (Hlost s HR) as [HR' | [(s' & HR' & Hs') | (_ & _ & H2 & _)]]; [by apply Hdel | | specialize (Hnw e Hin Hk); lia].
      specialize (Hv th Hth). pose proof (Hdel s' HR' ltac:(lia)). lia.
Qed.
End keep.
