(* ===== verification/CompactInputs.v ===== *)
(** * The inputs of a merge: [src/compact.rs]

    One cursor per source and one that reads the targets one after another, as the lists
    of the versions they have left.  Advancing an input drops the head of its list. *)

From stdpp Require Import base numbers list sets sorting.
From Stdlib Require Import ZArith Lia Sorting.Sorted.
From S2P Require Import Prelude Device Steps Compress Cache Wal Manifest SstPlan SstWriter SstReader SstBlock SstImage SstIndex SstRdel SstTable SstBuild DbRead DbFlushSafe ScanPark ScanMerge CompactCursor CompactRdel RdelMerge Compact.

Definition with_cursors (cs : list Cursor) (n : nat) (c : Compaction) : Compaction :=
  mkComp (co_state c) (co_job c) (co_purge_before c) (co_writer c) (co_compress c) cs n (co_key c)
    (co_key_state c) (co_served c) (co_cover c) (co_key_cover c).

(** ** Choosing the head *)

Lemma min_key_least cs :
  match min_key_cursor cs with
  | None => forall i c, cs !! i = Some c -> cu_live c = false
  | Some j => exists cj, cs !! j = Some cj /\ cu_live cj = true /\
      forall i c, cs !! i = Some c -> cu_live c = true -> bytes_le (cu_key cj) (cu_key c)
  end.
Proof.
  unfold min_key_cursor.
  assert (forall n, (n <= length cs)%nat ->
    match fold_left (min_key_step cs) (List.seq 0 n) None with
    | None => forall i c, (i < n)%nat -> cs !! i = Some c -> cu_live c = false
    | Some j => (j < n)%nat /\ exists cj, cs !! j = Some cj /\ cu_live cj = true /\
        forall i c, (i < n)%nat -> cs !! i = Some c -> cu_live c = true -> bytes_le (cu_key cj) (cu_key c)
    end) as Hgen.
  { induction n as [|n IH]; intros Hn; [cbn; lia |]. specialize (IH ltac:(lia)). rewrite seq_S, fold_left_app. cbn [fold_left Nat.add].
    destruct (lookup_lt_is_Some_2 cs n Hn) as [cn Hcn]. unfold min_key_step at 1. rewrite Hcn. destruct (cu_live cn) eqn:El; cbn [negb].
    - destruct (fold_left _ _ None) as [j |].
      + destruct IH as (Hj & cj & Hcj & Hlj & Hle). rewrite Hcj. destruct (bytes_ltb (cu_key cn) (cu_key cj)) eqn:Eb.
        * split; [lia |]. exists cn. split_and!; [done | done |]. intros i c Hi Hc Hl. destruct (decide (i = n)) as [-> | Hne]; [replace c with cn by congruence; apply bytes_le_refl |].
          apply bytes_ltb_spec, bytes_lt_le in Eb. eapply bytes_le_trans; [exact Eb |]. by apply (Hle i); [lia | |].
        * split; [lia |]. exists cj. split_and!; [done | done |]. intros i c Hi Hc Hl. destruct (decide (i = n)) as [-> | Hne]; [| by apply (Hle i); [lia | |]].
          replace c with cn by congruence. by apply bytes_ltb_ge.
      + split; [lia |]. exists cn. split_and!; [done | done |]. intros i c Hi Hc Hl. destruct (decide (i = n)) as [-> | Hne]; [replace c with cn by congruence; apply bytes_le_refl |].
        rewrite (IH i c) in Hl; [done | lia | done].
    - destruct (fold_left _ _ None) as [j |].
      + destruct IH as (Hj & cj & Hcj & Hlj & Hle). split; [lia |]. exists cj. split_and!; [done | done |]. intros i c Hi Hc Hl.
        destruct (decide (i = n)) as [-> | Hne]; [congruence |]. by apply (Hle i); [lia | |].
      + intros i c Hi Hc. destruct (decide (i = n)) as [-> | Hne]; [congruence |]. apply (IH i); [lia | done]. }
  specialize (Hgen (length cs) ltac:(lia)). destruct (fold_left _ _ None) as [j |].
  - destruct Hgen as (_ & cj & H1 & H2 & H3). exists cj. split_and!; [done | done |]. intros i c Hi. apply (H3 i); [by eapply lookup_lt_Some | done].
  - intros i c Hi. apply (Hgen i); [by eapply lookup_lt_Some | done].
Qed.

Lemma head_newest cs best cb : cs !! best = Some cb -> cu_live cb = true ->
  exists ch, cs !! head_cursor cs best = Some ch /\ cu_live ch = true /\ cu_key ch = cu_key cb /\
    forall i c, cs !! i = Some c -> cu_live c = true -> cu_key c = cu_key cb -> (cu_seq c <= cu_seq ch)%Z.
Proof.
  intros Hb Hl. unfold head_cursor.
  assert (forall n, (n <= length cs)%nat -> exists ch, cs !! fold_left (head_step cs best) (List.seq 0 n) best = Some ch /\ cu_live ch = true /\ cu_key ch = cu_key cb /\
    (cu_seq cb <= cu_seq ch)%Z /\ forall i c, (i < n)%nat -> cs !! i = Some c -> cu_live c = true -> cu_key c = cu_key cb -> (cu_seq c <= cu_seq ch)%Z) as Hgen.
  { induction n as [|n IH]; intros Hn; [exists cb; cbn; split_and!; auto; lia |]. destruct (IH ltac:(lia)) as (ch & Hch & Hlh & Hkh & Hsb & Hmax).
    rewrite seq_S, fold_left_app. cbn [fold_left Nat.add]. destruct (lookup_lt_is_Some_2 cs n Hn) as [cn Hcn].
    set (h := fold_left (head_step cs best) (List.seq 0 n) best) in *. unfold head_step. rewrite Hcn, Hb, Hch.
    destruct (cu_live cn && negb (n =? best)%nat && bytes_eqb (cu_key cn) (cu_key cb) && (cu_seq ch <? cu_seq cn)%Z) eqn:Et.
    - apply andb_true_iff in Et as [[[Hln _]%andb_true_iff Hkn%bytes_eqb_spec]%andb_true_iff Hsn%Z.ltb_lt]. exists cn. split_and!; [done | done | done | lia |].
      intros i c Hi Hc Hlc Hkc. destruct (decide (i = n)) as [-> | Hne]; [replace c with cn by congruence; lia |]. pose proof (Hmax i c ltac:(lia) Hc Hlc Hkc). lia.
    - exists ch. split_and!; [done | done | done | done |]. intros i c Hi Hc Hlc Hkc. destruct (decide (i = n)) as [-> | Hne]; [| by apply (Hmax i); [lia | | |]].
      replace c with cn in * by congruence. destruct (decide (n = best)) as [-> | Hnb]; [replace cn with cb by congruence; done |].
      rewrite Hlc, Hkc, bytes_eqb_refl, (proj2 (Nat.eqb_neq _ _)) in Et by done. cbn [negb andb] in Et. by apply Z.ltb_ge in Et. }
  destruct (Hgen (length cs) ltac:(lia)) as (ch & H1 & H2 & H3 & _ & H5). exists ch. split_and!; [done | done | done |].
  intros i c Hi. apply (H5 i); [by eapply lookup_lt_Some | done].
Qed.

(** An input with what it holds. *)
Record InTable := mkIn { it_ref : TableRef; it_blks : list (list SstEntry); it_rbs : list (list RdelEntry) }.

Section inputs.
  Context {D E : Type} `{Laws : DeviceLaws D E}.
  Context (HB : (49 <= BLOCK)%nat) (KEY_MAX VAL_MAX BLOOM_BYTES : nat) (Hbloom : (BLOOM_BYTES + CRC_LEN <= BLOCK)%nat).
  (** The blocks of the job's tables, and the target level's refs. *)
  Context (live : u64 -> Prop) (tgt_level : list TableRef).

(** An input table with its data blocks. *)
Definition input_on (d : D) (t : TableRef) (blks : list (list SstEntry)) (rbs : list (list RdelEntry)) : Prop :=
  (exists k ec ms, table_on BLOOM_BYTES d (first_block t) blks rbs k ec ms) /\
  Forall (fun e => (length (se_key e) <= KEY_MAX /\ length (se_stored e) <= VAL_MAX)%nat) (concat blks) /\
  block_count t = Z.of_nat (length blks + length rbs + 3) /\ Manifest.rdel_blocks t = Z.of_nat (length rbs) /\
  (end_block t <= U64_MAX)%Z /\ version_ordered (concat blks) /\
  (forall i, (i < length blks + length rbs + 3)%nat -> live (first_block t + Z.of_nat i)).

Lemma input_on_ext d d' t blks rbs : (forall id, live id -> read_block d' id = read_block d id) -> input_on d t blks rbs -> input_on d' t blks rbs.
Proof.
  intros Hs ((k & ec & ms & Hon) & H1 & H2 & H3 & H4 & H5 & H6). split_and!; try done. exists k, ec, ms. eapply table_on_ext; [| exact Hon].
  intros b Hb. apply Hs. replace b with (first_block t + Z.of_nat (Z.to_nat (b - first_block t)))%Z by lia. apply H6. lia.
Qed.

(** The versions at or above the table's first key, as a reader sees them. *)
Definition live_entries (t : TableRef) (blks : list (list SstEntry)) : list SstEntry :=
  map seen (pass (fun x => bytes_ltb (se_key x) (as_slice (Manifest.first_key t))) (concat blks)).

(** A cursor with [l] left of its table. *)
Definition parked (t : TableRef) (blks : list (list SstEntry)) (cu : Cursor) (l : list SstEntry) : Prop :=
  match l with
  | [] => cu_live cu = false
  | _ => exists e after, stands t blks cu e after /\ l = map seen (e :: after)
  end.

Lemma parked_head t blks cu e l : parked t blks cu (e :: l) -> cu_live cu = true /\ cu_entry cu = e.
Proof. intros (x & after & (p & es & pre & suf & _ & _ & Hl & He & _) & Hm). injection Hm as -> _. done. Qed.

Lemma init_parked d t blks rbs cu : input_on d t blks rbs ->
  exists cu', st_runs (init_cursor (E := E) KEY_MAX VAL_MAX d t) cu cu' (Ok tt) /\ parked t blks cu' (live_entries t blks).
Proof.
  intros ((k & ec & ms & Hon) & H1 & H2 & H3 & H4 & H5 & _).
  destruct (init_step (E := E) HB KEY_MAX VAL_MAX BLOOM_BYTES d t blks rbs k ec ms Hon H1 Hbloom H2 H3 H4 cu (version_key_ordered _ H5)) as (cu' & Hrun & Hp).
  exists cu'. split; [done |]. unfold live_entries. destruct (pass _ _) as [|e after]; [done |]. by exists e, after.
Qed.

Lemma advance_parked d t blks rbs cu e l : input_on d t blks rbs -> parked t blks cu (e :: l) ->
  exists cu', st_runs (advance_cursor (E := E) KEY_MAX VAL_MAX d) cu cu' (Ok (match l with [] => false | _ => true end)) /\ parked t blks cu' l.
Proof.
  intros ((k & ec & ms & Hon) & H1 & _) (x & after & Hs & Hm).
  destruct (cursor_advance (E := E) HB KEY_MAX VAL_MAX BLOOM_BYTES d t blks rbs k ec ms Hon H1 cu x after Hs) as (cu' & Hadv).
  exists cu'. injection Hm as -> ->. destruct after as [|x' after]; [done |]. destruct Hadv as [Hr Hs']. cbn [map]. split; [done |]. by exists x', after.
Qed.

Lemma parked_bound d t blks rbs cu l : input_on d t blks rbs -> parked t blks cu l -> (length l <= Z.to_nat (cu_data_blocks cu) * BLOCK)%nat.
Proof.
  intros ((k & ec & ms & Hon) & _) Hp. destruct l as [|x l]; [cbn; lia |]. destruct Hp as (e & after & (p & es & pre & suf & Hib & _ & _ & _ & ->) & Hm).
  apply (f_equal length) in Hm. rewrite length_map in Hm. rewrite Hm, (ib_blocks _ _ _ _ _ _ _ Hib), Nat2Z.id.
  pose proof (on_entries_bound BLOOM_BYTES d _ _ _ _ _ _ Hon) as Hb. etrans; [| exact Hb]. rewrite <- (take_drop_middle blks p _ (ib_at _ _ _ _ _ _ _ Hib)) at 2.
  rewrite concat_app. cbn [concat]. rewrite (ib_split _ _ _ _ _ _ _ Hib), !length_app. cbn [length]. rewrite !length_app. cbn. lia.
Qed.

Definition holds (d : D) (tb : InTable) : Prop := input_on d (it_ref tb) (it_blks tb) (it_rbs tb).
Definition in_live (tb : InTable) : list SstEntry := live_entries (it_ref tb) (it_blks tb).

(** Target [id] of the level. *)
Definition target_on (d : D) (id : u32) (tb : InTable) : Prop :=
  List.find (fun t => (t_id t =? id)%Z) tgt_level = Some (it_ref tb) /\ holds d tb.

(** The concatenating cursor, [n] targets opened. *)
Definition at_target (tgts : list InTable) (n : nat) (cu : Cursor) (l : list SstEntry) : Prop :=
  (l = [] /\ cu_live cu = false /\ n = length tgts) \/
  exists m tb l0, n = S m /\ tgts !! m = Some tb /\ l0 <> [] /\ parked (it_ref tb) (it_blks tb) cu l0 /\ l = l0 ++ concat (map in_live (drop n tgts)).

(** The sources [srcs] and targets [tgts] of the job, with [ls] left. *)
Record cursors_at (d : D) (srcs tgts : list InTable) (c : Compaction) (ls : list (list SstEntry)) : Prop := {
  ca_len : length ls = n_cursors c;
  ca_room : (n_src c < length (co_cursors c))%nat;
  ca_inputs : map in_tref (jb_inputs (co_job c)) = map it_ref srcs;
  ca_srcs : Forall (holds d) srcs;
  ca_src : forall i tb, srcs !! i = Some tb -> exists l, ls !! i = Some l /\ parked (it_ref tb) (it_blks tb) (co_cursor c i) l;
  ca_tgts : Forall2 (target_on d) (jb_tgt (co_job c)) tgts;
  ca_tgt : tgts <> [] -> exists l, ls !! n_src c = Some l /\ at_target tgts (co_tgt_open c) (co_cursor c (n_src c)) l;
}.

Lemma srcs_length d srcs tgts c ls : cursors_at d srcs tgts c ls -> length srcs = n_src c.
Proof. intros Hc. pose proof (f_equal length (ca_inputs _ _ _ _ _ Hc)) as Hl. rewrite !length_map in Hl. done. Qed.

Lemma n_cursors_eq d srcs tgts c ls : cursors_at d srcs tgts c ls -> n_cursors c = (n_src c + (if decide (tgts = []) then 0 else 1))%nat.
Proof.
  intros Hc. unfold n_cursors. rewrite (Forall2_length _ _ _ (ca_tgts _ _ _ _ _ Hc)).
  destruct (decide (tgts = [])) as [-> | Hne]; [done |]. rewrite (proj2 (Nat.ltb_lt _ _)) by (destruct tgts; [done | cbn; lia]). done.
Qed.

Lemma cursors_at_ext d d' srcs tgts c ls : (forall id, live id -> read_block d' id = read_block d id) -> cursors_at d srcs tgts c ls -> cursors_at d' srcs tgts c ls.
Proof.
  intros Hs []. split; try done.
  - eapply Forall_impl; [exact ca_srcs0 |]. intros tb. by apply input_on_ext.
  - eapply Forall2_impl; [exact ca_tgts0 |]. intros id tb [H1 H2]. split; [done | by eapply input_on_ext].
Qed.

Lemma on_cursor_runs {A} i (m : stm Cursor E A) c cu' (r : result A (Error E)) : (i < length (co_cursors c))%nat ->
  st_runs m (co_cursor c i) cu' r -> st_runs (on_cursor i m) c (set_co_cursor i cu' c) r.
Proof.
  intros Hi Hr. apply st_runs_get. destruct (lookup_lt_is_Some_2 (co_cursors c) i Hi) as [cu Hcu]. rewrite Hcu.
  by apply (st_runs_zoom (fun c => co_cursor c i) (set_co_cursor i)).
Qed.

Lemma co_cursor_set i j cu c : (i < length (co_cursors c))%nat -> co_cursor (set_co_cursor i cu c) j = if decide (i = j) then cu else co_cursor c j.
Proof.
  intros Hi. unfold co_cursor. cbn [set_co_cursor co_cursors]. rewrite !nth_lookup. destruct (decide (i = j)) as [<- | Hne].
  - by rewrite list_lookup_insert_eq.
  - by rewrite list_lookup_insert_ne.
Qed.

(** Opening the next target with entries. *)
Lemma open_targets_step d tgts : forall fuel c, Forall2 (target_on d) (jb_tgt (co_job c)) tgts -> (n_src c < length (co_cursors c))%nat ->
  (co_tgt_open c <= length tgts)%nat -> (length tgts - co_tgt_open c < fuel)%nat ->
  exists cu n, let c' := set_co_cursor (n_src c) cu (set_co_tgt_open n c) in
    st_runs (open_targets (E := E) KEY_MAX VAL_MAX fuel d tgt_level) c c' (Ok tt) /\
    at_target tgts n cu (concat (map in_live (drop (co_tgt_open c) tgts))).
Proof.
  induction fuel as [|fuel IH]; intros c Ht Hr Ho Hf; [lia |]. cbn [open_targets].
  destruct (decide (co_tgt_open c = length tgts)) as [Heq | Hne].
  - exists (cu_set_live false (co_cursor c (n_src c))), (co_tgt_open c). split.
    + apply st_runs_get. rewrite lookup_ge_None_2 by (rewrite (Forall2_length _ _ _ Ht); lia).
      replace (set_co_cursor (n_src c) (cu_set_live false (co_cursor c (n_src c))) (set_co_tgt_open (co_tgt_open c) c))
        with (set_co_cursor (n_src c) (cu_set_live false (co_cursor c (n_src c))) c) by (by destruct c).
      apply on_cursor_runs; [done |]. apply st_runs_mod.
    + left. rewrite Heq, drop_all. done.
  - destruct (lookup_lt_is_Some_2 tgts (co_tgt_open c)) as [tb Htb]; [lia |]. destruct (Forall2_lookup_r _ _ _ _ _ Ht Htb) as (id & Hid & Hfind & Hon).
    set (c1 := set_co_tgt_open (co_tgt_open c + 1) c).
    destruct (init_parked d (it_ref tb) (it_blks tb) (it_rbs tb) (co_cursor c1 (n_src c1)) Hon) as (cu & Hrun & Hpk). fold (in_live tb) in Hpk.
    rewrite (drop_S _ _ _ Htb). cbn [map concat].
    assert (forall c' r, st_runs (let@ c := st_get in if cu_live (co_cursor c (n_src c)) then st_ret tt else open_targets KEY_MAX VAL_MAX fuel d tgt_level)
        (set_co_cursor (n_src c) cu c1) c' r -> st_runs (open_targets (E := E) KEY_MAX VAL_MAX (S fuel) d tgt_level) c c' r) as Hgo.
    { intros c' r Hr'. cbn [open_targets]. apply st_runs_get. rewrite Hid, Hfind. apply st_runs_mod_seq. fold c1.
      eapply st_runs_seq; [apply on_cursor_runs; [exact Hr | exact Hrun] | exact Hr']. }
    assert (co_cursor (set_co_cursor (n_src c) cu c1) (n_src c) = cu) as Ecu by (rewrite co_cursor_set, decide_True by done; done).
    destruct (in_live tb) as [|e l] eqn:El.
    + destruct (IH (set_co_cursor (n_src c) cu c1)) as (cu' & n & Hrun' & Hat); [exact Ht | cbn; by rewrite length_insert | cbn; lia | cbn; lia |].
      exists cu', n. cbv zeta in *. split.
      * apply Hgo. apply st_runs_get. change (n_src (set_co_cursor (n_src c) cu c1)) with (n_src c). rewrite Ecu, Hpk.
        replace (set_co_cursor (n_src c) cu' (set_co_tgt_open n c)) with
          (set_co_cursor (n_src (set_co_cursor (n_src c) cu c1)) cu' (set_co_tgt_open n (set_co_cursor (n_src c) cu c1))); [exact Hrun' |].
        unfold set_co_cursor, set_co_tgt_open, n_src, c1. cbn. by rewrite list_insert_insert_eq.
      * cbn [app]. change (co_tgt_open (set_co_cursor (n_src c) cu c1)) with (co_tgt_open c + 1)%nat in Hat. rewrite Nat.add_1_r in Hat. exact Hat.
    + exists cu, (co_tgt_open c + 1)%nat. split.
      * apply Hgo. apply st_runs_get. change (n_src (set_co_cursor (n_src c) cu c1)) with (n_src c). rewrite Ecu.
        rewrite (proj1 (parked_head _ _ _ _ _ Hpk)). apply st_runs_ret.
      * right. exists (co_tgt_open c), tb, (e :: l). rewrite Nat.add_1_r. done.
Qed.

(** Replacing the list of one input. *)
Lemma cursors_set_src d srcs tgts c ls i tb cu l : cursors_at d srcs tgts c ls -> srcs !! i = Some tb -> parked (it_ref tb) (it_blks tb) cu l ->
  cursors_at d srcs tgts (set_co_cursor i cu c) (<[i := l]> ls).
Proof.
  intros Hc Hi Hp. pose proof (srcs_length _ _ _ _ _ Hc) as Hls. pose proof (lookup_lt_Some _ _ _ Hi) as Hlt. destruct Hc.
  assert (i < length ls)%nat as Hil by (destruct (ca_src0 i tb Hi) as (l0 & Hl0 & _); by eapply lookup_lt_Some).
  split; try done.
  - by rewrite length_insert.
  - cbn. by rewrite length_insert.
  - intros i' tb' Hi'. rewrite co_cursor_set by lia. destruct (decide (i = i')) as [<- | Hne].
    + exists l. rewrite list_lookup_insert_eq by done. split; [done |]. by replace tb' with tb by congruence.
    + destruct (ca_src0 i' tb' Hi') as (l' & Hl' & Hp'). exists l'. by rewrite list_lookup_insert_ne.
  - intros Hne. destruct (ca_tgt0 Hne) as (l' & Hl' & Hat). exists l'. change (n_src (set_co_cursor i cu c)) with (n_src c).
    rewrite list_lookup_insert_ne, co_cursor_set, decide_False by lia. done.
Qed.

Lemma cursors_set_tgt d srcs tgts c ls n cu l : cursors_at d srcs tgts c ls -> tgts <> [] -> at_target tgts n cu l ->
  cursors_at d srcs tgts (set_co_cursor (n_src c) cu (set_co_tgt_open n c)) (<[n_src c := l]> ls).
Proof.
  intros Hc Hne Hat. pose proof (srcs_length _ _ _ _ _ Hc) as Hls. destruct Hc. destruct (ca_tgt0 Hne) as (l0 & Hl0 & _).
  pose proof (lookup_lt_Some _ _ _ Hl0) as Hlt. split; try done.
  - by rewrite length_insert.
  - cbn. rewrite length_insert. done.
  - intros i tb Hi. destruct (ca_src0 i tb Hi) as (l' & Hl' & Hp). exists l'. apply lookup_lt_Some in Hi.
    rewrite list_lookup_insert_ne by lia. split; [done |]. rewrite co_cursor_set by done. rewrite decide_False by lia. done.
  - intros _. exists l. change (n_src (set_co_cursor (n_src c) cu (set_co_tgt_open n c))) with (n_src c).
    rewrite list_lookup_insert_eq, co_cursor_set, decide_True by done. done.
Qed.

(** Advancing input [ci] drops the head of its list. *)
Lemma advance_input_step d srcs tgts c ls ci e l : cursors_at d srcs tgts c ls -> ls !! ci = Some (e :: l) ->
  exists cs n, let c' := with_cursors cs n c in
    st_runs (advance_input (E := E) KEY_MAX VAL_MAX d ci tgt_level) c c' (Ok tt) /\ cursors_at d srcs tgts c' (<[ci := l]> ls).
Proof.
  intros Hc Hl. pose proof (srcs_length _ _ _ _ _ Hc) as Hls. pose proof (n_cursors_eq _ _ _ _ _ Hc) as Hn. pose proof (ca_len _ _ _ _ _ Hc) as Hlen.
  pose proof (ca_room _ _ _ _ _ Hc) as Hroom. pose proof (lookup_lt_Some _ _ _ Hl) as Hlt. destruct (decide (ci < n_src c)%nat) as [Hsrc | Htgt].
  - destruct (lookup_lt_is_Some_2 srcs ci) as [tb Htb]; [lia |]. destruct (ca_src _ _ _ _ _ Hc ci tb Htb) as (l0 & Hl0 & Hp). replace l0 with (e :: l) in Hp by congruence.
    pose proof (ca_srcs _ _ _ _ _ Hc) as Hh. rewrite Forall_lookup in Hh. destruct (advance_parked d _ _ _ _ e l (Hh ci tb Htb) Hp) as (cu & Hrun & Hp').
    exists (<[ci := cu]> (co_cursors c)), (co_tgt_open c). split; [| by apply (cursors_set_src d srcs tgts c ls ci tb cu l)].
    unfold advance_input. eapply st_runs_seq; [apply on_cursor_runs; [lia | exact Hrun] |]. apply st_runs_get.
    change (n_src (set_co_cursor ci cu c)) with (n_src c). rewrite (proj2 (Nat.eqb_neq _ _)), andb_false_r by lia. apply st_runs_ret.
  - assert (tgts <> []) as Hne by (intros ->; rewrite decide_True in Hn by done; lia). rewrite decide_False in Hn by done. assert (ci = n_src c) as -> by lia.
    destruct (ca_tgt _ _ _ _ _ Hc Hne) as (l0 & Hl0 & [(-> & _) | (m & tb & l1 & Hop & Htb & Hl1 & Hp & El)]); [congruence |]. replace l0 with (e :: l) in El by congruence.
    destruct l1 as [|x l1]; [done |]. injection El as <- El. destruct (Forall2_lookup_r _ _ _ _ _ (ca_tgts _ _ _ _ _ Hc) Htb) as (id & _ & _ & Hh).
    destruct (advance_parked d _ _ _ _ e l1 Hh Hp) as (cu & Hrun & Hp'). destruct l1 as [|x l1].
    + destruct (open_targets_step d tgts (S (length tgts)) (set_co_cursor (n_src c) cu c)) as (cu' & n & Hrun' & Hat).
      { apply (ca_tgts _ _ _ _ _ Hc). } { cbn. rewrite length_insert. done. } { cbn. apply lookup_lt_Some in Htb. lia. } { lia. }
      exists (<[n_src c := cu']> (co_cursors c)), n. cbn [app] in El. split.
      * unfold advance_input. eapply st_runs_seq; [apply on_cursor_runs; [lia | exact Hrun] |]. apply st_runs_get.
        change (n_src (set_co_cursor (n_src c) cu c)) with (n_src c). rewrite Nat.eqb_refl. cbn [negb andb]. apply st_runs_get.
        change (jb_tgt (co_job (set_co_cursor (n_src c) cu c))) with (jb_tgt (co_job c)). rewrite (Forall2_length _ _ _ (ca_tgts _ _ _ _ _ Hc)).
        cbv zeta in Hrun'. replace (with_cursors (<[n_src c := cu']> (co_cursors c)) n c) with
          (set_co_cursor (n_src (set_co_cursor (n_src c) cu c)) cu' (set_co_tgt_open n (set_co_cursor (n_src c) cu c))); [exact Hrun' |].
        unfold set_co_cursor, set_co_tgt_open, n_src, with_cursors. cbn. by rewrite list_insert_insert_eq.
      * subst l. rewrite Hop. change (co_tgt_open (set_co_cursor (n_src c) cu c)) with (co_tgt_open c) in Hat. rewrite Hop in Hat.
        by apply (cursors_set_tgt d srcs tgts c ls n cu').
    + exists (<[n_src c := cu]> (co_cursors c)), (co_tgt_open c). split.
      * unfold advance_input. eapply st_runs_seq; [apply on_cursor_runs; [lia | exact Hrun] |]. apply st_runs_get. apply st_runs_ret.
      * apply (cursors_set_tgt d srcs tgts c ls (co_tgt_open c) cu); [done | done |]. right. exists m, tb, (x :: l1). split_and!; auto.
Qed.

(** ** The next version *)

(** No version is in two inputs. *)
Definition distinct (ls : list (list SstEntry)) : Prop :=
  forall i i' la lb a b, i <> i' -> ls !! i = Some la -> ls !! i' = Some lb -> a ∈ la -> b ∈ lb -> se_key a = se_key b -> se_seq a <> se_seq b.

Lemma heads_at d srcs tgts c ls i l : cursors_at d srcs tgts c ls -> ls !! i = Some l ->
  take (n_cursors c) (co_cursors c) !! i = Some (co_cursor c i) /\
  match l with [] => cu_live (co_cursor c i) = false | e :: _ => cu_live (co_cursor c i) = true /\ cu_entry (co_cursor c i) = e end.
Proof.
  intros Hc Hi. pose proof (srcs_length _ _ _ _ _ Hc) as Hls. pose proof (n_cursors_eq _ _ _ _ _ Hc) as Hn. pose proof (lookup_lt_Some _ _ _ Hi) as Hlt.
  rewrite (ca_len _ _ _ _ _ Hc) in Hlt. pose proof (ca_room _ _ _ _ _ Hc) as Hroom. split.
  - rewrite lookup_take_lt by done. unfold co_cursor. rewrite nth_lookup. destruct (lookup_lt_is_Some_2 (co_cursors c) i) as [cu Hcu]; [destruct (decide (tgts = [])); lia |]. by rewrite Hcu.
  - assert (forall t blks l0, parked t blks (co_cursor c i) l0 ->
      match l0 with [] => cu_live (co_cursor c i) = false | e :: _ => cu_live (co_cursor c i) = true /\ cu_entry (co_cursor c i) = e end) as Hpk.
    { intros t blks [|e l0] Hp; [done | by eapply parked_head]. }
    destruct (decide (i < n_src c)%nat) as [Hsrc | Htgt].
    + destruct (lookup_lt_is_Some_2 srcs i) as [tb Htb]; [lia |]. destruct (ca_src _ _ _ _ _ Hc i tb Htb) as (l0 & Hl0 & Hp).
      replace l with l0 by congruence. by eapply Hpk.
    + destruct (decide (tgts = [])) as [| Hne]; [lia |]. assert (i = n_src c) as -> by lia. destruct (ca_tgt _ _ _ _ _ Hc Hne) as (l0 & Hl0 & Hat).
      replace l with l0 by congruence. destruct Hat as [(-> & Hd & _) | (m & tb & l1 & _ & _ & Hl1 & Hp & ->)]; [done |].
      destruct l1 as [|e l1]; [done |]. cbn [app]. by apply Hpk in Hp.
Qed.

Lemma version_before_tail e l x : version_ordered (e :: l) -> x ∈ l -> version_before e x.
Proof. intros Ho Hx. apply StronglySorted_inv in Ho as [_ Hf]. rewrite Forall_forall in Hf. by apply Hf. Qed.

(** The merge takes the first version left, in key order and newest first. *)
Lemma pick_step d srcs tgts c ls : cursors_at d srcs tgts c ls -> Forall version_ordered ls -> distinct ls ->
  let cs := take (n_cursors c) (co_cursors c) in
  match min_key_cursor cs with
  | None => concat ls = []
  | Some best => exists e l, ls !! head_cursor cs best = Some (e :: l) /\ cu_key (co_cursor c best) = se_key e /\
      cu_entry (co_cursor c (head_cursor cs best)) = e /\ Forall (version_before e) (concat (<[head_cursor cs best := l]> ls))
  end.
Proof.
  intros Hc Hso Hdi cs. pose proof (heads_at d srcs tgts c ls) as Hh.
  assert (length cs <= length ls)%nat as Hlen by (unfold cs; rewrite length_take, (ca_len _ _ _ _ _ Hc); lia).
  assert (forall i cu, cs !! i = Some cu -> cu_live cu = true -> exists e l, ls !! i = Some (e :: l) /\ cu = co_cursor c i /\ cu_entry cu = e) as Hlive.
  { intros i cu Hcu Hl. destruct (lookup_lt_is_Some_2 ls i) as [l Hl0]; [apply lookup_lt_Some in Hcu; lia |]. destruct (Hh i l Hc Hl0) as [H1 H2].
    fold cs in H1. assert (cu = co_cursor c i) as -> by congruence. destruct l as [|e l]; [congruence |]. exists e, l. by destruct H2. }
  pose proof (min_key_least cs) as Hmin. destruct (min_key_cursor cs) as [best |].
  - destruct Hmin as (cb & Hb & Hlb & Hle). destruct (head_newest cs best cb Hb Hlb) as (ch & Hch & Hlh & Hkh & Hmax).
    destruct (Hlive _ _ Hch Hlh) as (e & l & He & Ech & Ee). destruct (Hlive _ _ Hb Hlb) as (eb & lb & Heb & Ecb & _).
    exists e, l. assert (cu_key ch = se_key e) as Hke by (by rewrite <- Ee). assert (cu_seq ch = se_seq e) as Hse by (by rewrite <- Ee).
    split_and!; [done | congruence | congruence |]. apply Forall_forall. intros x Hx. apply list_elem_of_In, in_concat in Hx as (lx & Hlx & Hx).
    apply list_elem_of_In in Hlx, Hx. apply list_elem_of_lookup in Hlx as [i Hi]. rewrite Forall_lookup in Hso.
    apply list_lookup_insert_Some in Hi as [(_ & <- & _) | [Hne Hi]]; [by eapply version_before_tail; [apply (Hso _ _ He) |] |].
    destruct lx as [|y ly]; [by apply not_elem_of_nil in Hx |]. destruct (Hh i _ Hc Hi) as [Hci [Hly Hey]]. fold cs in Hci.
    assert (bytes_le (se_key e) (se_key y)) as Hky. { rewrite <- Hke, Hkh, <- Hey. by apply (Hle i). }
    assert (se_key y = se_key e -> (se_seq y <= se_seq e)%Z) as Hsy. { intros Hk. rewrite <- Hse, <- Hey. apply (Hmax i); [done | done |]. rewrite <- Hkh, Hke, <- Hk. by rewrite <- Hey. }
    assert (bytes_le (se_key y) (se_key x) /\ (se_key x = se_key y -> (se_seq x <= se_seq y)%Z)) as [Hyx Hyx2].
    { apply elem_of_cons in Hx as [-> | Hx]; [split; [apply bytes_le_refl | lia] |].
      destruct (version_before_tail y ly x (Hso _ _ Hi) Hx) as [Hlt | [Heq ?]]; [| split; [rewrite Heq; apply bytes_le_refl | lia]].
      split; [by apply bytes_lt_le |]. intros Heq. rewrite Heq in Hlt. by apply (irreflexivity bytes_lt) in Hlt. }
    pose proof (bytes_le_trans _ _ _ Hky Hyx) as Hex. apply bytes_le_lteq in Hex as [? | Hkx]; [by left |]. right. split; [done |].
    assert (se_key y = se_key e) as Hye by (apply bytes_le_antisym; [by rewrite Hkx | done]).
    specialize (Hsy Hye). specialize (Hyx2 ltac:(congruence)).
    pose proof (Hdi _ _ _ _ e x Hne He Hi ltac:(left) Hx Hkx). lia.
  - assert (Forall (fun l => l = []) ls) as Hn.
    { apply Forall_lookup. intros i l Hi. destruct (Hh i l Hc Hi) as [H1 H2]. fold cs in H1. rewrite (Hmin i _ H1) in H2. destruct l; [done | by destruct H2]. }
    clear -Hn. induction Hn as [|x l -> Hl IH]; done.
Qed.

(** ** The fuel of a merge step *)

Lemma concat_bound {A B} (f : A -> nat) : forall (cs : list A) (ls : list (list B)) extra m, (length ls <= length cs)%nat ->
  (forall i l cu, ls !! i = Some l -> cs !! i = Some cu -> (length l <= f cu + (if decide (i = m) then extra else 0))%nat) ->
  (length (concat ls) <= sum_list_with f cs + extra)%nat.
Proof.
  induction cs as [|cu cs IH]; intros [|l ls] extra m Hl Hb; [cbn; lia | cbn in Hl; lia | cbn; lia |]. cbn [concat sum_list_with]. rewrite length_app.
  pose proof (Hb 0%nat l cu eq_refl eq_refl) as H0. destruct m as [|m].
  - rewrite decide_True in H0 by done. pose proof (IH ls 0%nat 0%nat ltac:(cbn in Hl; lia)) as H1.
    enough (length (concat ls) <= sum_list_with f cs + 0)%nat by lia. apply H1. intros i l' cu' Hi Hc. specialize (Hb (S i) l' cu' Hi Hc).
    rewrite decide_False in Hb by lia. destruct (decide _); lia.
  - rewrite decide_False in H0 by lia. pose proof (IH ls extra m ltac:(cbn in Hl; lia)) as H1.
    enough (length (concat ls) <= sum_list_with f cs + extra)%nat by lia. apply H1. intros i l' cu' Hi Hc. specialize (Hb (S i) l' cu' Hi Hc).
    destruct (decide (i = m)) as [-> |]; [by rewrite decide_True in Hb | rewrite decide_False in Hb by lia; lia].
Qed.

Lemma in_live_bound d id tb : target_on d id tb ->
  (length (in_live tb) <= match List.find (fun t => (t_id t =? id)%Z) tgt_level with Some t => Z.to_nat (default 0%Z (data_blocks t)) * BLOCK | None => 0 end)%nat.
Proof.
  intros [Hf ((k & ec & ms & Hon) & _ & H2 & H3 & H4 & _)]. rewrite Hf.
  destruct (section_parts (it_ref tb) (length (it_blks tb)) (length (it_rbs tb)) (to_base _ _ _ _ _ _ _ _ Hon) H2 H3 H4) as [-> _]. replace (Z.to_nat (default 0%Z (Some (Z.of_nat (length (it_blks tb)))))) with (length (it_blks tb)) by (cbn; lia).
  unfold in_live, live_entries. rewrite length_map. etrans; [apply length_pass |]. by eapply on_entries_bound.
Qed.

Lemma targets_bound d ids tgts n : Forall2 (target_on d) ids tgts ->
  (length (concat (map in_live (drop n tgts))) <= sum_list_with (fun id => match List.find (fun t => (t_id t =? id)%Z) tgt_level with
     | Some t => Z.to_nat (default 0%Z (data_blocks t)) * BLOCK | None => 0 end)%nat ids)%nat.
Proof.
  intros Hf. revert n. induction Hf as [|id tb ids tgts Ht Hf IH]; intros [|n]; cbn [drop map concat]; [cbn; lia | cbn; lia | |].
  - rewrite length_app. pose proof (in_live_bound d id tb Ht). specialize (IH 0%nat). rewrite drop_0 in IH. cbn [sum_list_with]. lia.
  - specialize (IH n). cbn [sum_list_with]. lia.
Qed.

Lemma entries_bound_le d srcs tgts c ls : cursors_at d srcs tgts c ls -> (length (concat ls) <= entries_bound c tgt_level)%nat.
Proof.
  intros Hc. pose proof (srcs_length _ _ _ _ _ Hc) as Hls. pose proof (n_cursors_eq _ _ _ _ _ Hc) as Hn. pose proof (ca_room _ _ _ _ _ Hc) as Hroom.
  unfold entries_bound. apply (concat_bound _ _ _ _ (n_src c)); [rewrite (ca_len _ _ _ _ _ Hc), Hn; destruct (decide _); lia |].
  intros i l cu Hi Hcu. pose proof (lookup_lt_Some _ _ _ Hi) as Hlt. rewrite (ca_len _ _ _ _ _ Hc) in Hlt.
  assert (cu = co_cursor c i) as -> by (unfold co_cursor; by rewrite nth_lookup, Hcu). destruct (decide (i = n_src c)) as [-> | Hne].
  - destruct (decide (tgts = [])) as [| Hne]; [lia |]. destruct (ca_tgt _ _ _ _ _ Hc Hne) as (l0 & Hl0 & Hat). replace l0 with l in Hat by congruence.
    destruct Hat as [(-> & _) | (m & tb & l1 & Hop & Htb & _ & Hp & ->)]; [cbn; lia |]. rewrite length_app.
    destruct (Forall2_lookup_r _ _ _ _ _ (ca_tgts _ _ _ _ _ Hc) Htb) as (id & _ & _ & Hh). pose proof (parked_bound _ _ _ _ _ _ Hh Hp).
    pose proof (targets_bound d _ tgts (co_tgt_open c) (ca_tgts _ _ _ _ _ Hc)). lia.
  - destruct (lookup_lt_is_Some_2 srcs i) as [tb Htb]; [destruct (decide _); lia |]. destruct (ca_src _ _ _ _ _ Hc i tb Htb) as (l0 & Hl0 & Hp).
    replace l0 with l in Hp by congruence. pose proof (ca_srcs _ _ _ _ _ Hc) as Hh. rewrite Forall_lookup in Hh. pose proof (parked_bound _ _ _ _ _ _ (Hh i tb Htb) Hp). lia.
Qed.
End inputs.
