(* ===== verification/CompactRoom.v ===== *)
(** * Room for one key in an output: [src/compact.rs]

    An output ends only between keys, while the versions one key can still emit fit the
    data blocks and the one-block index that are left: [key_run_blocks] and
    [should_split]. *)

From stdpp Require Import base numbers list sets.
From Stdlib Require Import ZArith Lia.
From S2P Require Import Prelude Device Steps Manifest SstPlan SstWriter SstBlock SstImage SstIndex SstTable SstBuild Db CompactCursor CompactRdel Compact.

Section room.
  Context {D E : Type} `{Laws : DeviceLaws D E}.
  Context (KEY_MAX VAL_MAX : nat).

  Abbreviation entry := (ENTRY_HEADER + KEY_MAX + VAL_MAX + 8)%nat.

(** Blocks a key's versions seal, its closing seal aside. *)
Definition key_seals (n : nat) : nat := Z.to_nat (key_run_blocks KEY_MAX VAL_MAX n) - 1.

Definition small (e : SstEntry) : Prop := (elen e <= entry /\ elen e + 8 <= BLOCK)%nat.

Lemma chunk_step_length s e : (length (fst (chunk_step s e)) <= length (fst s) + 1)%nat.
Proof. destruct s as [b c]. unfold chunk_step. destruct (entry_fits _ _ _ _); cbn [fst]; [lia |]. rewrite length_app. cbn. lia. Qed.

Lemma run_seals_count vs : forall s, (length (fst (fold_left chunk_step vs s)) <= length (fst s) + length vs)%nat.
Proof.
  induction vs as [|e vs IH]; intros s; cbn [fold_left length]; [lia |]. pose proof (IH (chunk_step s e)). pose proof (chunk_step_length s e). lia.
Qed.

(** After the first seal a block seals only when it is nearly full of this run. *)
Lemma run_seals_bytes b0 em r : (em < BLOCK - MAX_DATA_TAIL)%nat -> r = (BLOCK - MAX_DATA_TAIL - em + 1)%nat -> forall vs b c seen total,
  Forall (fun e => elen e <= em /\ elen e + 8 <= BLOCK)%nat vs -> (length seen + length vs < MAX_ENTRIES_PER_BLOCK)%nat -> (b0 <= length b)%nat ->
  ((b0 < length b)%nat -> ((length b - b0 - 1) * r + payload_len c <= total /\ length c <= length (seen : list SstEntry))%nat) ->
  let s := fold_left chunk_step vs (b, c) in
  (b0 < length (fst s))%nat -> ((length (fst s) - b0 - 1) * r <= total + length vs * em)%nat.
Proof.
  intros Hroom Er. induction vs as [|e vs IH]; intros b c seen total Hf Hlen Hb Hinv; cbn [fold_left]; cbv zeta.
  { intros Hlt. cbn [fst] in *. destruct (Hinv Hlt) as [H1 _]. cbn. lia. }
  apply Forall_cons in Hf as [[He1 He2] Hf]. intros Hlt. cbn [length] in *.
  destruct (entry_fits BLOCK (payload_len c) (length c) (elen e)) eqn:Efit.
  - assert (chunk_step (b, c) e = (b, c ++ [e])) as Ecs by (unfold chunk_step; by rewrite Efit). rewrite Ecs in *.
    pose proof (IH b (c ++ [e]) (e :: seen) (total + elen e)%nat Hf ltac:(cbn [length]; lia) Hb) as Hi. cbv zeta in Hi.
    enough ((length (fst (fold_left chunk_step vs (b, c ++ [e]))) - b0 - 1) * r <= total + elen e + length vs * em)%nat by (cbn [length]; lia).
    apply Hi; [| exact Hlt]. intros Hlt'. destruct (Hinv Hlt') as [H1 H2]. rewrite payload_len_snoc, length_app. cbn [length]. lia.
  - assert (chunk_step (b, c) e = (b ++ [c], [e])) as Ecs by (unfold chunk_step; by rewrite Efit). rewrite Ecs in *.
    pose proof (IH (b ++ [c]) [e] (e :: seen) (total + elen e)%nat Hf ltac:(cbn [length]; lia) ltac:(rewrite length_app; lia)) as Hi. cbv zeta in Hi.
    enough ((length (fst (fold_left chunk_step vs (b ++ [c], [e]))) - b0 - 1) * r <= total + elen e + length vs * em)%nat by (cbn [length]; lia).
    apply Hi; [| exact Hlt]. intros _. rewrite length_app. cbn [length]. rewrite payload_len_cons. change (payload_len []) with 0%nat. split; [| lia].
    destruct (decide (length b = b0)) as [Heq | Hne]; [rewrite Heq; replace (b0 + 1 - b0 - 1)%nat with 0%nat by lia; lia |].
    destruct (Hinv ltac:(lia)) as [H1 H2]. destruct (entry_refused BLOCK _ _ _ em Efit He2 He1 Hroom) as [Hc | Hp]; [lia |]. rewrite <- Er in Hp.
    replace (length b + 1 - b0 - 1)%nat with (S (length b - b0 - 1)) by lia. nia.
Qed.

(** [key_run_blocks] bounds the blocks one key's versions seal. *)
Lemma run_seals_bound n vs s : Forall small vs -> (length vs <= 1 + n)%nat -> (1 + n < MAX_ENTRIES_PER_BLOCK)%nat ->
  (length (fst (fold_left chunk_step vs s)) <= length (fst s) + key_seals n)%nat.
Proof.
  intros Hf Hv Hn. unfold key_seals, key_run_blocks. rewrite Nat2Z.id, Nat.add_sub. pose proof (run_seals_count vs s) as Hc.
  destruct (entry <? BLOCK - MAX_DATA_TAIL)%nat eqn:Er; [| lia]. apply Nat.ltb_lt in Er. destruct s as [b c]. cbn [fst] in *.
  destruct (decide (length b < length (fst (fold_left chunk_step vs (b, c))))%nat) as [Hlt | Hge]; [| lia].
  pose proof (run_seals_bytes (length b) entry _ Er eq_refl vs b c [] 0%nat Hf ltac:(cbn [length]; lia) ltac:(lia) ltac:(lia) Hlt) as Hb. cbn [Nat.add] in Hb.
  set (k := (length (fst (fold_left chunk_step vs (b, c))) - length b - 1)%nat) in *.
  assert (k <= (1 + n) * entry / (BLOCK - MAX_DATA_TAIL - entry + 1))%nat; [| lia].
  apply Nat.div_le_lower_bound; [lia |]. rewrite Nat.mul_comm. etrans; [exact Hb |]. apply Nat.mul_le_mono_r. lia.
Qed.

(** The index after more blocks. *)
Lemma index_grows base a b : Forall (fun es => (length (first_key_of es) <= KEY_MAX)%nat) b ->
  (length (index_of (index_entries base (a ++ b))) <= length (index_of (index_entries base a)) + length b * (18 + KEY_MAX))%nat.
Proof.
  intros Hf. induction b as [|es b IH] using rev_ind; [rewrite app_nil_r; cbn; lia |]. apply Forall_app in Hf as [Hf [He _]%Forall_cons].
  specialize (IH Hf). rewrite app_assoc, index_entries_snoc, index_of_app, !length_app. unfold index_of at 2. cbn [map concat].
  rewrite app_nil_r, length_idx_bytes. unfold idx_len. cbn [ix_key length]. lia.
Qed.

(** ** Pushing within the room *)

  Context (BLOOM_BYTES : nat) (HB : (49 <= BLOCK)%nat) (HB64 : (Z.of_nat BLOCK <= 65536)%Z).
  Context (Hbloom : (BLOOM_BYTES + CRC_LEN <= BLOCK)%nat) (HK : (Z.of_nat KEY_MAX <= U16_MAX)%Z).
  (** The job's snapshots, and the output's place and budget. *)
  Context (n : nat) (Hn : (n <= MAX_SNAPSHOTS)%nat) (base : u64) (k : u8) (budget : u64).
  Context (Hbase : (0 <= base)%Z) (Hend : (base + budget <= U64_MAX)%Z).
  Context (Hbudget : (key_run_blocks KEY_MAX VAL_MAX n <= budget)%Z) (Hindex : (key_seals n * (18 + KEY_MAX) <= body_end)%nat).

(** Where a key may start. *)
Definition start_room (blks : list (list SstEntry)) (cur : list SstEntry) : Prop :=
  (blks = [] /\ cur = []) \/
  (Z.of_nat (length blks) + key_run_blocks KEY_MAX VAL_MAX n <= budget)%Z /\
  (length (index_of (index_entries base blks)) + Z.to_nat (key_run_blocks KEY_MAX VAL_MAX n) * (18 + KEY_MAX) <= body_end)%nat.

(** [m] versions of the key are out. *)
Definition key_room (blks : list (list SstEntry)) (cur : list SstEntry) (m : nat) : Prop :=
  exists blks0 cur0 vs, fold_left chunk_step vs (blks0, cur0) = (blks, cur) /\ Forall small vs /\ length vs = m /\ start_room blks0 cur0.

Lemma key_run_seals : key_run_blocks KEY_MAX VAL_MAX n = (Z.of_nat (key_seals n) + 1)%Z.
Proof. unfold key_seals, key_run_blocks. rewrite Nat2Z.id. lia. Qed.

Lemma no_split_room c d blks cur : tw_inv BLOOM_BYTES KEY_MAX d base k budget (co_writer c) blks cur -> jb_data_budget (co_job c) = budget ->
  jb_split_margin (co_job c) = key_run_blocks KEY_MAX VAL_MAX n -> should_split KEY_MAX c = false -> key_room blks cur 0.
Proof.
  intros Hi Eb Em Hs. exists blks, cur, []. split; [done |]. split; [done |]. split; [done |].
  unfold should_split in Hs. rewrite Eb, Em, (ti_count _ _ _ _ _ _ _ _ _ Hi), (ti_blocks _ _ _ _ _ _ _ _ _ Hi), (ti_index_n _ _ _ _ _ _ _ _ _ Hi) in Hs.
  destruct (length (concat blks ++ cur) =? 0)%nat eqn:E0.
  - left. apply Nat.eqb_eq, length_zero_iff_nil, app_eq_nil in E0 as [Hc ->]. split; [| done]. destruct blks as [|es blks]; [done |].
    destruct (ti_on _ _ _ _ _ _ _ _ _ Hi 0%nat es eq_refl) as [Hw _]. cbn in Hc. apply app_eq_nil in Hc as [-> _]. by destruct (bw_nonempty _ Hw).
  - right. destruct (_ <? _)%Z eqn:E1 in Hs; [done |]. apply Z.ltb_ge in E1. apply Nat.ltb_ge in Hs. unfold body_end. split; [lia | exact Hs].
Qed.

(** A version of the key goes out: the only failure is the device's. *)
Lemma push_in_room d w blks cur m e cs d' w' cs' r : tw_inv BLOOM_BYTES KEY_MAX d base k budget w blks cur -> key_room blks cur m -> (m <= n)%nat ->
  entry_ok1 KEY_MAX e -> small e -> push KEY_MAX d w e cs = (d', w', cs', r) ->
  same_outside d d' base (base + budget) /\
  match r with
  | Ok _ => let '(blks', cur') := chunk_step (blks, cur) e in tw_inv BLOOM_BYTES KEY_MAX d' base k budget w' blks' cur' /\ key_room blks' cur' (S m)
  | Err err => exists de, err = Device de
  end.
Proof.
  intros Hi (blks0 & cur0 & vs & Hfold & Hsm & Hm & Hst) Hmn Hok Hse Hp. pose proof key_run_seals as Hks.
  assert (fold_left chunk_step (vs ++ [e]) (blks0, cur0) = chunk_step (blks, cur) e) as Hf2 by (by rewrite fold_left_app, Hfold).
  pose proof (run_seals_bound n (vs ++ [e]) (blks0, cur0)) as Hsb. rewrite Hf2 in Hsb. cbn [fst] in Hsb.
  specialize (Hsb ltac:(apply Forall_app; split; [done | by constructor]) ltac:(rewrite length_app; cbn; lia)).
  specialize (Hsb ltac:(unfold MAX_SNAPSHOTS in Hn; change MAX_ENTRIES_PER_BLOCK with 2048%nat; lia)).
  destruct (chunk_prefix (vs ++ [e]) (blks0, cur0)) as [b Hb]. rewrite Hf2 in Hb. cbn [fst] in Hb.
  assert (Z.of_nat (length blks0) + key_run_blocks KEY_MAX VAL_MAX n <= budget)%Z as Hbl by (destruct Hst as [[-> _] | [? _]]; cbn; lia).
  destruct (push_step BLOOM_BYTES KEY_MAX HB HB64 Hbloom HK d base k budget w blks cur e cs d' w' cs' r Hi Hok Hbase ltac:(lia) ltac:(lia) Hp) as [Ho Hr].
  split; [eapply same_outside_weaken; [exact Ho | lia | lia] |]. destruct r as [o | err].
  - destruct (chunk_step (blks, cur) e) as [blks' cur'] eqn:Ec. cbn [fst snd] in *. split; [done |].
    exists blks0, cur0, (vs ++ [e]). split; [by rewrite Hf2 |]. split; [apply Forall_app; split; [done | by constructor] |]. split; [rewrite length_app; cbn; lia | done].
  - destruct Hr as [? | [_ Hov]]; [done |]. exfalso. unfold index_overflow in Hov. rewrite Hb in Hov, Hsb. rewrite length_app in Hsb.
    enough (length (index_of (index_entries base (blks0 ++ b))) <= body_end)%nat by lia.
    etrans; [apply index_grows |].
    + destruct (chunk_step (blks, cur) e) as [b1 c1] eqn:Ec. cbn [fst] in Hb. subst b1.
      pose proof (chunk_concat [e] (blks, cur)) as Hcc. cbn [fold_left] in Hcc. rewrite Ec in Hcc. cbn [fst snd] in Hcc. rewrite app_assoc in Hcc.
      apply Forall_forall. intros es Hes. destruct es as [|x es]; [cbn; lia |]. cbn [first_key_of].
      assert (x ∈ (concat blks ++ cur) ++ [e]) as Hx.
      { rewrite <- Hcc, concat_app. apply elem_of_app. left. apply elem_of_app. right. apply list_elem_of_In, in_concat. exists (x :: es).
        split; [by apply list_elem_of_In | by left]. }
      apply elem_of_app in Hx as [Hx | ->%list_elem_of_singleton]; [| apply Hok].
      exact (proj1 (Forall_forall _ _) (ti_keys _ _ _ _ _ _ _ _ _ Hi) x Hx).
    + assert (length b * (18 + KEY_MAX) <= key_seals n * (18 + KEY_MAX))%nat by (apply Nat.mul_le_mono_r; lia).
      destruct Hst as [[-> _] | [_ Hix]]; [cbn [index_entries imap index_of map concat length]; cbn; lia |].
      rewrite Hks in Hix. rewrite Z2Nat.inj_add, Nat2Z.id in Hix by lia. nia.
Qed.
End room.
