(* ===== verification/CompactMerge.v ===== *)
(** * The merge step of a compaction: [src/compact.rs]

    [merge_step] pops the versions of its inputs one by one until an output block seals,
    the output must end or the inputs are empty.  Its contract joins the accounts of the
    cursors, of the coverage stream, of the kept versions and of the output's room: the
    only error is the device's. *)

From stdpp Require Import base numbers list sets sorting.
From Stdlib Require Import ZArith Lia Sorting.Sorted.
From S2P Require Import Prelude Device Steps Compress Cache Wal Manifest SstPlan SstWriter SstReader SstBlock SstImage SstIndex SstRdel SstTable SstBuild Db DbRead DbFlushSafe ScanPark ScanMerge CompactCursor CompactRdel RdelMerge Compact CompactCover CompactKeep CompactInputs CompactRoom.

(** ** Thresholds already served *)

Fixpoint served_count (ths : list u64) (served : list bool) : nat :=
  match ths, served with
  | _ :: ths, s :: served => (if s then 1 else 0) + served_count ths served
  | _, _ => 0
  end.

Lemma served_count_le ths : forall served, (served_count ths served <= length ths)%nat.
Proof. induction ths as [|th ths IH]; intros [|s served]; cbn; try lia. specialize (IH served). destruct s; lia. Qed.

Lemma serve_count_mono sq ths : forall served, (served_count ths served <= served_count ths (serve sq ths served))%nat.
Proof. induction ths as [|th ths IH]; intros [|s served]; cbn; try lia. specialize (IH served). destruct (_ <=? _)%Z, s; lia. Qed.

(** An emitted version serves a threshold more. *)
Lemma wanted_serves sq ths : forall served, wanted sq ths served = true ->
  (served_count ths served < length ths /\ served_count ths served < served_count ths (serve sq ths served))%nat.
Proof.
  induction ths as [|th ths IH]; intros [|s served]; cbn [wanted serve served_count length]; try done. intros [Hs | Hw]%orb_true_iff.
  - apply andb_true_iff in Hs as [Hs%negb_true_iff ->]. subst s. pose proof (served_count_le ths served). pose proof (serve_count_mono sq ths served). lia.
  - destruct (IH served Hw) as [H1 H2]. destruct (_ <=? _)%Z, s; lia.
Qed.

Section merge.
  Context {D E : Type} `{Laws : DeviceLaws D E}.
  Context (HB : (49 <= BLOCK)%nat) (HB64 : (Z.of_nat BLOCK <= 65536)%Z) (KEY_MAX VAL_MAX BLOOM_BYTES : nat).
  Context (Hbloom : (BLOOM_BYTES + CRC_LEN <= BLOCK)%nat) (HK : (Z.of_nat KEY_MAX <= U16_MAX)%Z).
  (** The inputs, and the blocks they occupy. *)
  Context (live : u64 -> Prop) (tgt_level : list TableRef) (srcs tgts : list InTable).
  (** The job, its purge cutoff and its deletions. *)
  Context (j : Job) (pb : u64) (J : bytes -> u64 -> Prop).
  (** The output: versions of the outputs before it, its place and its data budget. *)
  Context (Oprev : list SstEntry) (base : u64) (k : u8).

  Abbreviation n := (length (jb_snapshots j)).
  Abbreviation budget := (jb_data_budget j).
  Abbreviation view := (job_view j tgt_level).
  Abbreviation out := (out_entry pb).
  Abbreviation inexact c := (cv_inexact (co_cover c)).

(** What opening an output grants. *)
Record output_ok : Prop := {
  ou_snapshots : (n <= MAX_SNAPSHOTS)%nat;
  ou_base : (0 <= base)%Z;
  ou_end : (base + budget <= U64_MAX)%Z;
  ou_budget : (key_run_blocks KEY_MAX VAL_MAX n <= budget)%Z;
  ou_margin : jb_split_margin j = key_run_blocks KEY_MAX VAL_MAX n;
  ou_index : (key_seals KEY_MAX VAL_MAX n * (18 + KEY_MAX) <= body_end)%nat;
  ou_apart : forall id, live id -> (id < base \/ base + budget <= id)%Z;
}.

  Context (Hout : output_ok).

(** A version whose output entry fits a block. *)
Definition mergeable (e : SstEntry) : Prop := entry_ok1 KEY_MAX (out e) /\ small KEY_MAX VAL_MAX (out e) /\ (0 <= se_seq e)%Z.

(** [P] popped and [O] emitted so far, [ls] left; the output holds [blks] and stages [cur]. *)
Record merging_at (d : D) (c : Compaction) (ls : list (list SstEntry)) (P O : list SstEntry) (blks : list (list SstEntry)) (cur : list SstEntry) : Prop := {
  ma_job : co_job c = j;
  ma_purge : co_purge_before c = pb;
  ma_cursors : cursors_at (E := E) KEY_MAX VAL_MAX BLOOM_BYTES live tgt_level d srcs tgts c ls;
  ma_sorted : Forall version_ordered ls;
  ma_distinct : distinct ls;
  ma_mergeable : Forall mergeable (concat ls);
  ma_popped : version_ordered P;
  ma_next : forall p e, p ∈ P -> e ∈ concat ls -> version_before p e;
  ma_keeping : keeping j pb J P O (inexact c);
  ma_cover : exists rs K, covering (E := E) KEY_MAX view live J (jb_oldest_snapshot j) d (co_cover c) rs K /\ forall e, e ∈ concat ls -> bytes_le K (se_key e);
  ma_writer : tw_inv BLOOM_BYTES KEY_MAX d base k budget (co_writer c) blks cur;
  ma_out : O = Oprev ++ concat blks ++ cur;
}.

(** The room of the key being merged. *)
Definition in_room (c : Compaction) (blks : list (list SstEntry)) (cur : list SstEntry) : Prop :=
  exists m, key_room KEY_MAX VAL_MAX n base budget blks cur m /\ (m <= served_count (job_thresholds j) (co_served c))%nat.

(** Before [e], a version of the scratch's key. *)
Record on_key (c : Compaction) (P O : list SstEntry) (blks : list (list SstEntry)) (cur : list SstEntry) (drop : KeyState -> Prop) : Prop := {
  ok_key : at_key j pb J (co_key c) (co_key_state c) (co_served c) (co_key_cover c) P O (inexact c);
  ok_drop : drop (co_key_state c);
  ok_below : forall p, p ∈ P -> bytes_le (se_key p) (co_key c);
  ok_room : in_room c blks cur;
}.

Definition key_top (c : Compaction) (P : list SstEntry) (st : KeyState) : Prop :=
  exists q, top (co_key c) P q /\ (st = KeyDropping <-> droppable j pb q = true).

(** The state between two versions. *)
Definition key_at (c : Compaction) (ls : list (list SstEntry)) (P O : list SstEntry) (blks : list (list SstEntry)) (cur : list SstEntry) : Prop :=
  (co_key_state c = KeyIdle /\ forall p e, p ∈ P -> e ∈ concat ls -> se_key p <> se_key e) \/
  on_key c P O blks cur (key_top c P).

(** Popping the head of input [i]. *)
Lemma distinct_pop ls i e l : distinct ls -> ls !! i = Some (e :: l) -> distinct (<[i := l]> ls).
Proof.
  intros Hd Hi a b la lb x y Hne Ha Hb Hx Hy. apply list_lookup_insert_Some in Ha as [(<- & <- & _) | [Hna Ha]], Hb as [(<- & <- & _) | [Hnb Hb]].
  - done.
  - by apply (Hd i b (e :: l) lb); [| | | right |].
  - by apply (Hd a i la (e :: l)); [| | | | right].
  - by apply (Hd a b la lb).
Qed.

Lemma ordered_pop ls i e l : Forall version_ordered ls -> ls !! i = Some (e :: l) -> Forall version_ordered (<[i := l]> ls).
Proof.
  intros Hf Hi. apply Forall_insert; [done |]. rewrite Forall_lookup in Hf. specialize (Hf _ _ Hi). apply StronglySorted_inv in Hf as [? _]. done.
Qed.

Lemma pop_perm (ls : list (list SstEntry)) i e l : ls !! i = Some (e :: l) -> concat ls ≡ₚ e :: concat (<[i := l]> ls).
Proof.
  intros Hi. rewrite <- (take_drop_middle ls i _ Hi) at 1. rewrite insert_take_drop by (by eapply lookup_lt_Some).
  rewrite !concat_app. cbn [concat app]. symmetry. apply Permutation_middle.
Qed.

Lemma cursors_at_same d c c' ls : co_job c' = co_job c -> co_cursors c' = co_cursors c -> co_tgt_open c' = co_tgt_open c ->
  cursors_at (E := E) KEY_MAX VAL_MAX BLOOM_BYTES live tgt_level d srcs tgts c ls -> cursors_at (E := E) KEY_MAX VAL_MAX BLOOM_BYTES live tgt_level d srcs tgts c' ls.
Proof. intros E1 E2 E3 []. split; unfold n_cursors, n_src, co_cursor in *; rewrite ?E1, ?E2, ?E3; done. Qed.

Lemma reading_runs {A} (m : D -> stm Compaction E A) d c c' r : st_runs (m d) c c' r -> st_runs (reading m) (d, c) (d, c') r.
Proof. unfold st_runs, reading. by intros ->. Qed.

Lemma key_lt p e : version_before p e -> se_key p <> se_key e -> bytes_lt (se_key p) (se_key e).
Proof. intros [? | [Heq _]]; [done | by destruct Heq]. Qed.

Lemma before_key_le p e : version_before p e -> bytes_le (se_key p) (se_key e).
Proof. intros [? | [Heq _]]; [by apply bytes_lt_le | rewrite Heq; apply bytes_le_refl]. Qed.

(** A fresh key lies above every popped one. *)
Lemma fresh_above d c ls P O blks cur e : merging_at d c ls P O blks cur -> key_at c ls P O blks cur -> e ∈ concat ls ->
  bool_decide (co_key_state c = KeyIdle) || negb (bytes_eqb (co_key c) (se_key e)) = true -> forall p, p ∈ P -> bytes_lt (se_key p) (se_key e).
Proof.
  intros Hm Hk He Hf p Hp. destruct Hk as [[_ Hne] | [Hak (q & (Hq & Hqk & _) & _) Hbel _]].
  - apply key_lt; [by apply (ma_next _ _ _ _ _ _ _ Hm) | by apply Hne].
  - apply orb_true_iff in Hf as [Hi%bool_decide_eq_true | Hne%negb_true_iff].
    + destruct (ak_state _ _ _ _ _ _ _ _ _ _ Hak); congruence.
    + eapply bytes_le_lt_trans; [by apply Hbel |]. rewrite <- Hqk. apply key_lt; [by apply (ma_next _ _ _ _ _ _ _ Hm) |].
      rewrite Hqk. intros Heq. rewrite Heq, bytes_eqb_refl in Hne. done.
Qed.

(** Ready to take [e]. *)
Definition ready (c : Compaction) (P O : list SstEntry) (blks : list (list SstEntry)) (cur : list SstEntry) (e : SstEntry) : Prop :=
  co_key c = se_key e /\ on_key c P O blks cur (fun st => drop_agrees j pb (co_key c) st P e).

Lemma thresholds_length : length (job_thresholds j) = S n.
Proof. done. Qed.

Lemma start_key_step d c ls P O blks cur e head : merging_at d c ls P O blks cur -> key_at c ls P O blks cur -> e ∈ concat ls ->
  Forall (fun x => x = e \/ version_before e x) (concat ls) -> cu_entry (co_cursor c head) = e ->
  bool_decide (co_key_state c = KeyIdle) || negb (bytes_eqb (co_key c) (se_key e)) = true -> should_split KEY_MAX c = false ->
  exists c', st_runs (start_key (E := E) KEY_MAX tgt_level (se_key e) head) (d, c) (d, c') (Ok tt) /\ co_cursors c' = co_cursors c /\
    merging_at d c' ls P O blks cur /\ ready c' P O blks cur e.
Proof.
  intros Hm Hk He Hmin Ecu Hf Hsp. pose proof (fresh_above d c ls P O blks cur e Hm Hk He Hf) as Hab.
  set (st := if may_drop_key c (co_cursor c head) then KeyDropping else KeyMerging).
  set (c1 := set_co_key (se_key e) st (replicate (MAX_SNAPSHOTS + 1) false) c).
  destruct (ma_cover _ _ _ _ _ _ _ Hm) as (rs & K & Hcov & HKe).
  destruct (cover_key_step KEY_MAX view live J (jb_oldest_snapshot j) d (co_cover c) rs K (se_key e) Hcov (HKe e He)) as (cv' & rs' & cover & Hrun & Hcov' & Hsound & Hexact & Hmono).
  exists (set_co_key_cover cover (set_co_cover cv' c1)). pose proof Hm as [].
  assert (may_drop_key c (co_cursor c head) = droppable j pb e) as Edrop by (rewrite <- Ecu; by apply may_drop_droppable).
  split; [| split; [done | split; [split; try done |]]].
  - unfold start_key. eapply st_runs_seq; [apply reading_runs, st_runs_mod |]. fold st c1.
    eapply st_runs_seq; [| apply reading_runs, st_runs_mod]. apply reading_runs. apply st_runs_get.
    apply (st_runs_zoom co_cover set_co_cover). replace (co_job c1) with j by (by rewrite <- ma_job0). exact Hrun.
  - by apply (cursors_at_same d c).
  - by eapply keeping_mono.
  - exists rs', (se_key e). split; [exact Hcov' |]. intros x Hx. rewrite Forall_forall in Hmin. destruct (Hmin x Hx) as [-> | Hb]; [apply bytes_le_refl | by apply before_key_le].
  - assert (forall p, p ∈ P -> se_key p <> se_key e) as Hno by (intros p Hp Heq; specialize (Hab p Hp); rewrite Heq in Hab; by apply (irreflexivity bytes_lt) in Hab).
    split; [done |]. split.
    + apply fresh_at_key; [rewrite thresholds_length; pose proof (ou_snapshots Hout); lia | unfold st; cbn; destruct (may_drop_key _ _); auto | done | done |].
      destruct (decide (inexact_has (cv_inexact cv') (se_key e))) as [Hx | Hx]; [by left | right]. intros s HJ Hs. by destruct (Hexact s HJ Hs).
    + right. split; [done |]. cbn. unfold st. rewrite Edrop. by destruct (droppable j pb e).
    + intros p Hp. by apply bytes_lt_le, Hab.
    + exists 0%nat. split; [| lia]. eapply no_split_room; [exact HB | exact Hbloom | apply (ou_snapshots Hout) | apply (ou_index Hout) | exact ma_writer0 | by rewrite ma_job0 | rewrite ma_job0; apply (ou_margin Hout) | exact Hsp].
Qed.

Lemma pop_step d c ls P O blks cur i e l d1 c1 O1 blks1 cur1 : merging_at d c ls P O blks cur -> ls !! i = Some (e :: l) ->
  Forall (version_before e) (concat (<[i := l]> ls)) -> (forall id, live id -> read_block d1 id = read_block d id) ->
  co_job c1 = co_job c -> co_purge_before c1 = co_purge_before c -> co_cursors c1 = co_cursors c -> co_tgt_open c1 = co_tgt_open c -> co_cover c1 = co_cover c ->
  tw_inv BLOOM_BYTES KEY_MAX d1 base k budget (co_writer c1) blks1 cur1 -> O1 = Oprev ++ concat blks1 ++ cur1 -> keeping j pb J (P ++ [e]) O1 (inexact c) ->
  exists cs m, let c' := with_cursors cs m c1 in
    st_runs (advance_input (E := E) KEY_MAX VAL_MAX d1 i tgt_level) c1 c' (Ok tt) /\ merging_at d1 c' (<[i := l]> ls) (P ++ [e]) O1 blks1 cur1.
Proof.
  intros [] Hi Hmin Hsame E1 E2 E3 E4 E5 Htw HO Hkp. pose proof (pop_perm ls i e l Hi) as Hpp.
  assert (e ∈ concat ls) as He by (rewrite Hpp; by left). assert (forall x, x ∈ concat (<[i := l]> ls) -> x ∈ concat ls) as Hsub by (intros x Hx; rewrite Hpp; by right).
  assert (cursors_at (E := E) KEY_MAX VAL_MAX BLOOM_BYTES live tgt_level d1 srcs tgts c1 ls) as Hc1.
  { apply (cursors_at_same d1 c); [done | done | done |]. by eapply cursors_at_ext. }
  destruct (advance_input_step HB KEY_MAX VAL_MAX BLOOM_BYTES Hbloom live tgt_level d1 srcs tgts c1 ls i e l Hc1 Hi) as (cs & m & Hrun & Hc').
  exists cs, m. cbv zeta. split; [exact Hrun |]. split; try done.
  - cbn. by rewrite E1.
  - cbn. by rewrite E2.
  - by eapply ordered_pop.
  - by eapply distinct_pop.
  - rewrite Hpp in ma_mergeable0. by apply Forall_cons in ma_mergeable0 as [_ ?].
  - apply version_ordered_snoc. split; [done |]. apply Forall_forall. intros p Hp. by apply ma_next0.
  - intros p x [Hp | ->%list_elem_of_singleton]%elem_of_app Hx; [by apply ma_next0; [| apply Hsub] |]. rewrite Forall_forall in Hmin. by apply Hmin.
  - cbn. by rewrite E5.
  - destruct ma_cover0 as (rs & K & Hcov & HK'). exists rs, K. cbn. rewrite E5. split; [by eapply covering_ext |]. intros x Hx. by apply HK', Hsub.
Qed.

(** The version is emitted. *)
Lemma emit_push d c ls P O blks cur e d' w' cs' r : merging_at d c ls P O blks cur -> ready c P O blks cur e -> mergeable e ->
  emits j (co_key_state c) (co_key_cover c) (co_served c) e = true ->
  push KEY_MAX d (co_writer c) (out e) (Some (co_compress c)) = (d', w', cs', r) ->
  same_outside d d' base (base + budget) /\
  match r with
  | Ok o => exists blks' cur', tw_inv BLOOM_BYTES KEY_MAX d' base k budget w' blks' cur' /\ concat blks' ++ cur' = (concat blks ++ cur) ++ [out e] /\
      blks' = (match o with BlockSealed => blks ++ [cur] | Buffered => blks end) /\
      forall served', served' = serve (se_seq e) (job_thresholds j) (co_served c) ->
        exists m, key_room KEY_MAX VAL_MAX n base budget blks' cur' m /\ (m <= served_count (job_thresholds j) served')%nat
  | Err err => exists de, err = Device de
  end.
Proof.
  intros Hm [_ [_ _ _ (m & Hroom & Hle)]] (Hok & Hsm & _) Hem Hp. unfold emits in Hem. apply andb_true_iff in Hem as [_ Hw].
  destruct (wanted_serves _ _ _ Hw) as [Hlt Hsv]. rewrite thresholds_length in Hlt. destruct Hout.
  destruct (push_in_room KEY_MAX VAL_MAX BLOOM_BYTES HB HB64 Hbloom HK n ou_snapshots0 base k budget ou_base0 ou_end0 ou_budget0 ou_index0 d (co_writer c) blks cur m (out e)
    (Some (co_compress c)) d' w' cs' r (ma_writer _ _ _ _ _ _ _ Hm) Hroom ltac:(lia) Hok Hsm Hp) as [Ho Hr].
  split; [done |]. destruct r as [o | err]; [| done].
  pose proof (push_reports BLOOM_BYTES KEY_MAX d base k budget (co_writer c) blks cur (out e) _ d' w' cs' o (ma_writer _ _ _ _ _ _ _ Hm) Hp) as Hsl.
  pose proof (chunk_concat [out e] (blks, cur)) as Hcc. cbn [fold_left] in Hcc.
  destruct (chunk_step (blks, cur) (out e)) as [blks' cur']. cbn [fst snd] in Hcc, Hsl. destruct Hr as [Htw Hroom']. exists blks', cur'.
  split_and!; [done | by rewrite Hcc, app_assoc | done |]. intros served' ->. exists (S m). split; [done | lia].
Qed.

(** After the pop the key is still the scratch's. *)
Lemma popped_on_key c P O blks cur e c' O' blks' cur' : ready c P O blks cur e -> next_version P e -> co_key c' = co_key c -> co_key_state c' = co_key_state c ->
  at_key j pb J (co_key c) (co_key_state c) (co_served c') (co_key_cover c') (P ++ [e]) O' (inexact c') -> in_room c' blks' cur' ->
  on_key c' (P ++ [e]) O' blks' cur' (key_top c' (P ++ [e])).
Proof.
  intros [Hk [_ Hdr Hbel _]] Hn E1 E2 Hak Hroom. split; [by rewrite E1, E2 | | | done].
  - unfold key_top. rewrite E1, E2. by apply (agreed_top j pb (co_key c) (co_key_state c) P e).
  - intros p [Hp | ->%list_elem_of_singleton]%elem_of_app; rewrite E1; [by apply Hbel |]. rewrite Hk. apply bytes_le_refl.
Qed.

(** The outcome of taking [e] off input [i]. *)
Definition taken (d : D) (c : Compaction) (ls : list (list SstEntry)) (P O : list SstEntry) (blks : list (list SstEntry)) (cur : list SstEntry) (i : nat) (e : SstEntry) (l : list SstEntry)
  (d' : D) (c' : Compaction) (r : result bool (Error E)) : Prop :=
  same_outside d d' base (base + budget) /\
  match r with
  | Ok sealed => exists O' blks' cur', merging_at d' c' (<[i := l]> ls) (P ++ [e]) (O ++ O') blks' cur' /\ key_at c' (<[i := l]> ls) (P ++ [e]) (O ++ O') blks' cur' /\
      blks' = if sealed then blks ++ [cur] else blks
  | Err err => exists de, err = Device de
  end.

Lemma take_head_step d c ls P O blks cur i e l : merging_at d c ls P O blks cur -> ready c P O blks cur e -> ls !! i = Some (e :: l) ->
  Forall (version_before e) (concat (<[i := l]> ls)) -> cu_entry (co_cursor c i) = e ->
  exists d' c' r, st_runs (Compact.take_head (E := E) KEY_MAX VAL_MAX tgt_level i) (d, c) (d', c') r /\ taken d c ls P O blks cur i e l d' c' r.
Proof.
  intros Hm Hrd Hi Hmin Ecu. pose proof Hm as []. pose proof Hrd as [Hk [Hak Hdr Hbel Hroom]].
  assert (e ∈ concat ls) as He by (rewrite (pop_perm ls i e l Hi); by left).
  assert (mergeable e) as Hme by (rewrite Forall_forall in ma_mergeable0; by apply ma_mergeable0).
  assert (next_version P e) as Hn by (split; [done |]; apply Forall_forall; intros p Hp; by apply ma_next0).
  destruct (process_step j pb J (co_key c) (co_key_state c) (co_served c) (co_key_cover c) P O (inexact c) e ma_keeping0 Hak Hdr Hn (eq_sym Hk) ltac:(apply Hme)) as [Hkp Hak'].
  assert (cu_seq (co_cursor c i) = se_seq e) as Eseq by (by rewrite <- Ecu).
  assert (negb (bool_decide (co_key_state c = KeyDropping)) && negb (cu_seq (co_cursor c i) <? co_key_cover c)%Z && wanted (cu_seq (co_cursor c i)) (job_thresholds (co_job c)) (co_served c)
    = emits j (co_key_state c) (co_key_cover c) (co_served c) e) as Eem by (unfold emits; by rewrite Eseq, ma_job0).
  unfold Compact.take_head, taken. destruct (emits j (co_key_state c) (co_key_cover c) (co_served c) e) eqn:Ee.
  - destruct (push KEY_MAX d (co_writer c) (out e) (Some (co_compress c))) as [[[d1 w1] cs1] r1] eqn:Ep.
    destruct (emit_push d c ls P O blks cur e d1 w1 cs1 r1 Hm Hrd Hme Ee Ep) as [Ho Hr].
    assert (st_runs (push_out (E := E) KEY_MAX (out_entry (co_purge_before c) (cu_entry (co_cursor c i)))) (d, c) (d1, set_co_writer w1 (default (co_compress c) cs1) c) r1) as Hpush.
    { unfold st_runs, push_out. by rewrite ma_purge0, Ecu, Ep. }
    set (c1 := set_co_writer w1 (default (co_compress c) cs1) c) in *. destruct r1 as [o | err].
    + destruct Hr as (blks' & cur' & Htw & Hcc & Hsl & Hrm). specialize (Hrm _ eq_refl).
      set (c2 := set_co_key (co_key c1) (co_key_state c1) (serve (cu_seq (co_cursor c i)) (job_thresholds (co_job c)) (co_served c)) c1).
      destruct (pop_step d c ls P O blks cur i e l d1 c2 (O ++ [out e]) blks' cur' Hm Hi Hmin) as (cs & m & Hrun & Hm'); try done.
      { intros id Hid. apply Ho, (ou_apart Hout id Hid). }
      { rewrite ma_out0, Hcc. by rewrite <- !app_assoc. }
      eexists d1, (with_cursors cs m c2), _. split.
      * apply st_runs_get. cbv zeta. rewrite Eem. eapply st_runs_seq; [exact Hpush |]. eapply st_runs_seq; [apply reading_runs, st_runs_mod |].
        eapply st_runs_seq; [apply reading_runs; exact Hrun |]. apply st_runs_ret.
      * split; [done |]. exists [out e], blks', cur'. split; [done |]. split; [| by destruct o]. right. apply (popped_on_key c P O blks cur e); [done | done | done | done | |].
        -- cbn. rewrite Eseq, ma_job0. exact Hak'.
        -- unfold in_room. cbn. rewrite Eseq, ma_job0. exact Hrm.
    + exists d1, c1, (Err err). split; [| done]. apply st_runs_get. cbv zeta. rewrite Eem. unfold st_runs, st_bind. by rewrite Hpush.
  - destruct (pop_step d c ls P O blks cur i e l d c O blks cur Hm Hi Hmin) as (cs & m & Hrun & Hm'); try done.
    eexists d, (with_cursors cs m c), _. split.
    + apply st_runs_get. cbv zeta. rewrite Eem. eapply st_runs_seq; [apply reading_runs; exact Hrun |]. apply st_runs_ret.
    + split; [apply same_outside_refl |]. exists [], blks, cur. rewrite app_nil_r. split; [done |]. split; [| done]. right.
      apply (popped_on_key c P O blks cur e); [done | done | done | done | exact Hak' | exact Hroom].
Qed.

(** Setting the key idle between keys. *)
Definition idle (c : Compaction) : Compaction := set_co_key (co_key c) KeyIdle (co_served c) c.

Lemma idle_at d c ls P O blks cur : merging_at d c ls P O blks cur -> merging_at d (idle c) ls P O blks cur.
Proof. intros []. split; try done. by apply (cursors_at_same d c). Qed.

(** What a step promises: the versions [popped] left the inputs for good, in order. *)
Definition stepped (d : D) (ls : list (list SstEntry)) (P O : list SstEntry) (blks : list (list SstEntry)) (d' : D) (c' : Compaction) (r : result MergeOutcome (Error E)) : Prop :=
  same_outside d d' base (base + budget) /\
  match r with
  | Ok o => exists popped ls' O' blks' cur', concat ls ≡ₚ popped ++ concat ls' /\
      merging_at d' c' ls' (P ++ popped) (O ++ O') blks' cur' /\ key_at c' ls' (P ++ popped) (O ++ O') blks' cur' /\
      match o with
      | MergeMore => popped <> [] /\ exists b, blks' = blks ++ [b]
      | Split => co_key_state c' = KeyIdle /\ should_split KEY_MAX c' = true /\ concat ls' <> [] /\ blks' = blks
      | Exhausted => co_key_state c' = KeyIdle /\ concat ls' = [] /\ blks' = blks
      end
  | Err err => exists de, err = Device de
  end.

Lemma stepped_trans d ls P O blks d1 ls1 e O1 d' c' r : same_outside d d1 base (base + budget) -> concat ls ≡ₚ e :: concat ls1 ->
  stepped d1 ls1 (P ++ [e]) (O ++ O1) blks d' c' r -> stepped d ls P O blks d' c' r.
Proof.
  intros Ho Hpp [Ho' Hr]. split; [intros id Hid; by rewrite Ho', Ho |]. destruct r as [o | err]; [| done].
  destruct Hr as (popped & ls' & O' & blks' & cur' & Hp & Hm & Hk & Hx). rewrite <- !app_assoc in Hm, Hk. cbn [app] in Hm, Hk.
  exists (e :: popped), ls', (O1 ++ O'), blks', cur'. split_and!; [by rewrite Hpp, Hp | done | done |].
  destruct o; [| done | done]. by destruct Hx as [_ ?].
Qed.

Lemma merge_steps : forall fuel d c ls P O blks cur, merging_at d c ls P O blks cur -> key_at c ls P O blks cur -> (length (concat ls) < fuel)%nat ->
  exists d' c' r, st_runs (Compact.merge_loop (E := E) KEY_MAX VAL_MAX fuel tgt_level) (d, c) (d', c') r /\ stepped d ls P O blks d' c' r.
Proof.
  induction fuel as [|fuel IH]; intros d c ls P O blks cur Hm Hk Hf; [lia |]. cbn [Compact.merge_loop].
  pose proof (pick_step HB KEY_MAX VAL_MAX BLOOM_BYTES Hbloom live tgt_level d srcs tgts c ls (ma_cursors _ _ _ _ _ _ _ Hm) (ma_sorted _ _ _ _ _ _ _ Hm) (ma_distinct _ _ _ _ _ _ _ Hm)) as Hpick.
  cbv zeta in Hpick. set (cs := take (n_cursors c) (co_cursors c)) in *. destruct (min_key_cursor cs) as [best |] eqn:Emin.
  - destruct Hpick as (e & l & Hi & Ekey & Ecu & Hmin). pose proof (pop_perm ls _ e l Hi) as Hpp.
    assert (e ∈ concat ls) as He by (rewrite Hpp; by left).
    assert (Forall (fun x => x = e \/ version_before e x) (concat ls)) as Hmin'.
    { rewrite Hpp. constructor; [by left |]. eapply Forall_impl; [exact Hmin |]. auto. }
    set (fresh := bool_decide (co_key_state c = KeyIdle) || negb (bytes_eqb (co_key c) (se_key e))).
    destruct (fresh && should_split KEY_MAX c) eqn:Es.
    + apply andb_true_iff in Es as [Hfr Hsp]. exists d, (idle c), (Ok Split). split.
      * apply st_runs_get. fold cs. rewrite Emin. cbv zeta. rewrite Ekey. fold fresh. rewrite Hfr, Hsp. eapply st_runs_seq; [apply reading_runs, st_runs_mod | apply st_runs_ret].
      * split; [apply same_outside_refl |]. exists [], ls, [], blks, cur. rewrite !app_nil_r. split_and!; [done | by apply idle_at | | done | done | by intros E0; rewrite E0 in He; apply not_elem_of_nil in He | done].
        left. split; [done |]. intros p x Hp Hx Heq. pose proof (fresh_above d c ls P O blks cur e Hm Hk He Hfr p Hp) as Hlt. rewrite Heq in Hlt.
        rewrite Forall_forall in Hmin'. apply (irreflexivity bytes_lt (se_key x)). destruct (Hmin' x Hx) as [-> | Hb]; [done |].
        eapply bytes_lt_le_trans; [exact Hlt | by apply before_key_le].
    + assert (exists c1, st_runs (if fresh then start_key (E := E) KEY_MAX tgt_level (se_key e) (head_cursor cs best) else st_ret tt) (d, c) (d, c1) (Ok tt) /\
        co_cursors c1 = co_cursors c /\ merging_at d c1 ls P O blks cur /\ ready c1 P O blks cur e) as (c1 & Hrun1 & Ecs & Hm1 & Hrd1).
      { destruct fresh eqn:Efr; [apply (start_key_step d c ls); done |]. exists c. split_and!; [apply st_runs_ret | done | done |].
        unfold fresh in Efr. apply orb_false_iff in Efr as [Hni%bool_decide_eq_false He2%negb_false_iff%bytes_eqb_spec].
        destruct Hk as [[? _] | [H1 H2 H3 H4]]; [done |]. split; [done |]. split; [done | left; exact H2 | done | done]. }
      destruct (take_head_step d c1 ls P O blks cur _ e l Hm1 Hrd1 Hi Hmin) as (d2 & c2 & r2 & Hrun2 & Ho2 & Hr2).
      { unfold co_cursor. rewrite Ecs. exact Ecu. }
      assert (forall s2 r, st_runs (let@ sealed := Compact.take_head KEY_MAX VAL_MAX tgt_level (head_cursor cs best) in if sealed then st_ret MergeMore else Compact.merge_loop KEY_MAX VAL_MAX fuel tgt_level) (d, c1) s2 r ->
        st_runs (Compact.merge_loop (E := E) KEY_MAX VAL_MAX (S fuel) tgt_level) (d, c) s2 r) as Hgo.
      { intros s2 r Hr. cbn [Compact.merge_loop]. apply st_runs_get. fold cs. rewrite Emin. cbv zeta. rewrite Ekey. fold fresh. rewrite Es. eapply st_runs_seq; [exact Hrun1 | exact Hr]. }
      destruct r2 as [sealed | err].
      * destruct Hr2 as (O' & blks' & cur' & Hm2 & Hk2 & Hsl2). destruct sealed; subst blks'.
        -- exists d2, c2, (Ok MergeMore). split; [apply Hgo; eapply st_runs_seq; [exact Hrun2 | apply st_runs_ret] |]. split; [done |].
           exists [e], (<[head_cursor cs best := l]> ls), O', (blks ++ [cur]), cur'. split_and!; [done | done | done | done | by eexists].
        -- destruct (IH d2 c2 _ _ _ _ _ Hm2 Hk2) as (d3 & c3 & r3 & Hrun3 & Hst3); [rewrite Hpp in Hf; cbn in Hf; lia |].
           exists d3, c3, r3. split; [apply Hgo; eapply st_runs_seq; [exact Hrun2 | exact Hrun3] |]. by eapply stepped_trans.
      * exists d2, c2, (Err err). split; [| done]. apply Hgo. unfold st_runs, st_bind. by rewrite Hrun2.
  - exists d, (idle c), (Ok Exhausted). split.
    + apply st_runs_get. fold cs. rewrite Emin. eapply st_runs_seq; [apply reading_runs, st_runs_mod | apply st_runs_ret].
    + split; [apply same_outside_refl |]. exists [], ls, [], blks, cur. rewrite !app_nil_r. split_and!; [done | by apply idle_at | | done | done | done].
      left. split; [done |]. intros p x _ Hx. rewrite Hpick in Hx. by apply not_elem_of_nil in Hx.
Qed.

Lemma merge_step_runs d c ls P O blks cur : merging_at d c ls P O blks cur -> key_at c ls P O blks cur ->
  exists d' c' r, st_runs (merge_step (E := E) KEY_MAX VAL_MAX tgt_level) (d, c) (d', c') r /\ stepped d ls P O blks d' c' r.
Proof.
  intros Hm Hk. pose proof (entries_bound_le HB KEY_MAX VAL_MAX BLOOM_BYTES Hbloom live tgt_level d srcs tgts c ls (ma_cursors _ _ _ _ _ _ _ Hm)).
  destruct (merge_steps (S (entries_bound c tgt_level)) d c ls P O blks cur Hm Hk ltac:(lia)) as (d' & c' & r & Hrun & Hst). exists d', c', r. split; [| done].
  unfold merge_step. by apply st_runs_get.
Qed.

(** Nothing merged yet. *)
Lemma merge_started d c ls rs : Oprev = [] -> co_job c = j -> co_purge_before c = pb ->
  cursors_at (E := E) KEY_MAX VAL_MAX BLOOM_BYTES live tgt_level d srcs tgts c ls -> Forall version_ordered ls -> distinct ls -> Forall mergeable (concat ls) ->
  covering (E := E) KEY_MAX view live J (jb_oldest_snapshot j) d (co_cover c) rs [] ->
  tw_inv BLOOM_BYTES KEY_MAX d base k budget (co_writer c) [] [] -> co_key_state c = KeyIdle ->
  merging_at d c ls [] [] [] [] /\ key_at c ls [] [] [] [].
Proof.
  intros HO Ej Ep Hc Hso Hdi Hme Hcov Htw Hk. split.
  - split; try done.
    + constructor.
    + intros p e Hp%not_elem_of_nil. done.
    + split; [intros k' th p _ (Hp & _); by apply not_elem_of_nil in Hp | intros o Ho%not_elem_of_nil; done].
    + exists rs, []. split; [done |]. intros e _. by destruct (se_key e).
    + by rewrite HO.
  - left. split; [done |]. intros p e Hp%not_elem_of_nil. done.
Qed.
End merge.
