(* ===== verification/CompactSeal.v ===== *)
(** * The range tombstones of an output, and reads: [src/db/compaction.rs], [src/compact.rs]

    An output takes the pieces of the merged range tombstones in its key range that must
    stay.  A key whose versions are all merged then reads the same from the outputs as
    from the inputs, at the live view and at every snapshot. *)

From stdpp Require Import base numbers list sets sorting.
From Stdlib Require Import ZArith Lia Sorting.Sorted.
From S2P Require Import Prelude Device Steps Compress Cache Wal Manifest SstPlan SstWriter SstReader SstBlock SstImage SstIndex SstRdel SstTable SstBuild Db DbRead CompactCursor CompactRdel RdelMerge Compact CompactCover CompactKeep CompactInputs CompactRoom CompactMerge.

(** ** The pieces of an output *)

(** [clip] of [db/compaction.rs]. *)
Definition clip_piece (e : RdelEntry) (lo hi : option KeyBound) : option RdelEntry :=
  let start := match lo with
               | Some lo => if bytes_ltb (rd_start e) (as_slice lo) then as_slice lo else rd_start e
               | None => rd_start e
               end in
  let end_ := match hi with
              | Some hi => if bytes_ltb (as_slice hi) (rd_end e) then as_slice hi else rd_end e
              | None => rd_end e
              end in
  if bytes_ltb start end_ then Some (mkRdel start end_ (rd_seq e)) else None.

(** The piece of a merged entry that goes out, if any. *)
Definition output_piece (drop : RdelDrop) (lo hi : option KeyBound) (e : RdelEntry) : option RdelEntry :=
  match clip_piece e lo hi with
  | Some p => if drops drop (rd_start p) (rd_end p) (rd_seq p) then None else Some p
  | None => None
  end.

Definition in_range (lo hi : option KeyBound) (k : bytes) : Prop :=
  match lo with Some lo => bytes_le (as_slice lo) k | None => True end /\
  match hi with Some hi => bytes_lt k (as_slice hi) | None => True end.

Definition holds_key (e : RdelEntry) (k : bytes) : Prop := bytes_le (rd_start e) k /\ bytes_lt k (rd_end e).

(** Clipping keeps exactly the keys in the range. *)
Lemma clip_piece_some e lo hi p : clip_piece e lo hi = Some p -> rd_seq p = rd_seq e /\ forall k, holds_key p k <-> holds_key e k /\ in_range lo hi k.
Proof.
  unfold clip_piece. destruct (bytes_ltb _ _); [| done]. intros [= <-]. cbn. split; [done |]. intros k. unfold holds_key, in_range. cbn.
  assert (forall lo' : KeyBound, bytes_le (if bytes_ltb (rd_start e) (as_slice lo') then as_slice lo' else rd_start e) k <->
    bytes_le (rd_start e) k /\ bytes_le (as_slice lo') k) as Hlo.
  { intros lo'. destruct (bytes_ltb _ _) eqn:El; [apply bytes_ltb_spec, bytes_lt_le in El | apply bytes_ltb_ge in El];
      split; [intros ?; split; [by eapply bytes_le_trans | done] | by intros [] | intros ?; split; [done | by eapply bytes_le_trans] | by intros []]. }
  assert (forall hi' : KeyBound, bytes_lt k (if bytes_ltb (as_slice hi') (rd_end e) then as_slice hi' else rd_end e) <->
    bytes_lt k (rd_end e) /\ bytes_lt k (as_slice hi')) as Hhi.
  { intros hi'. destruct (bytes_ltb _ _) eqn:Eh; [apply bytes_ltb_spec, bytes_lt_le in Eh | apply bytes_ltb_ge in Eh];
      split; [intros ?; split; [by eapply bytes_lt_le_trans | done] | by intros [] | intros ?; split; [done | by eapply bytes_lt_le_trans] | by intros []]. }
  destruct lo as [lo |], hi as [hi |]; rewrite ?Hlo, ?Hhi; tauto.
Qed.

Lemma clip_piece_none e lo hi k : clip_piece e lo hi = None -> holds_key e k -> in_range lo hi k -> False.
Proof.
  unfold clip_piece, holds_key, in_range. intros Hc [H1 H2] [H3 H4].
  set (start := match lo with Some lo => if bytes_ltb (rd_start e) (as_slice lo) then as_slice lo else rd_start e | None => rd_start e end) in *.
  set (end_ := match hi with Some hi => if bytes_ltb (as_slice hi) (rd_end e) then as_slice hi else rd_end e | None => rd_end e end) in *.
  assert (bytes_le start k) as Hs by (unfold start; destruct lo; [by destruct (bytes_ltb _ _) | done]).
  assert (bytes_lt k end_) as He by (unfold end_; destruct hi; [by destruct (bytes_ltb _ _) | done]).
  destruct (bytes_ltb start end_) eqn:El; [done |]. apply bytes_ltb_ge in El. apply (irreflexivity bytes_lt k).
  eapply bytes_lt_le_trans; [exact He |]. by eapply bytes_le_trans.
Qed.

(** What the drop test lets go. *)
Lemma drops_spec j x start end_ s k : (0 <= s)%Z -> drops (drop_new (jb_bottommost j) (jb_oldest_snapshot j) (drop_origin j) x) start end_ s = true ->
  bytes_le start k -> bytes_lt k end_ -> (s < jb_oldest_snapshot j)%Z /\ (s < jb_outside_same_min j)%Z /\ ~ inexact_has x k.
Proof.
  intros H0 Hd Hs He. unfold drops, drop_new in Hd. destruct x as [l |]; [destruct (jb_bottommost j) |]; cbn in Hd;
    apply andb_true_iff in Hd as [[[H1%Z.ltb_lt H2%Z.ltb_lt]%andb_true_iff _]%andb_true_iff Hf]; try lia.
  split; [done |]. split; [done |]. intros (f & t & Hin & Hf1 & Ht1). rewrite forallb_forall in Hf. apply list_elem_of_In in Hin. specialize (Hf _ Hin). cbn in Hf.
  apply (irreflexivity bytes_lt k). apply orb_true_iff in Hf as [Hb%bytes_leb_spec | Hb%bytes_leb_spec].
  - eapply bytes_lt_le_trans; [exact He |]. by eapply bytes_le_trans.
  - eapply bytes_lt_le_trans; [exact Ht1 |]. by eapply bytes_le_trans.
Qed.

Lemma covered_pieces drop lo hi rs k s : covered (omap (output_piece drop lo hi) rs) k s -> covered rs k s /\ in_range lo hi k.
Proof.
  intros (p & Hp & H1 & H2 & H3). apply list_elem_of_omap in Hp as (e & He & Hp). unfold output_piece in Hp.
  destruct (clip_piece e lo hi) as [q |] eqn:Ec; [| done]. destruct (drops _ _ _ _); [done |]. injection Hp as ->.
  destruct (clip_piece_some e lo hi p Ec) as [Hs Hk]. destruct (proj1 (Hk k) (conj H1 H2)) as [[] ?]. split; [| done]. exists e. split_and!; [done | done | done | congruence].
Qed.

Lemma pieces_lost j x lo hi rs k s : (0 <= s)%Z -> covered rs k s -> in_range lo hi k ->
  covered (omap (output_piece (drop_new (jb_bottommost j) (jb_oldest_snapshot j) (drop_origin j) x) lo hi) rs) k s \/
  ((s < jb_oldest_snapshot j)%Z /\ (s < jb_outside_same_min j)%Z /\ ~ inexact_has x k).
Proof.
  intros H0 (e & He & H1 & H2 & H3) Hr. destruct (clip_piece e lo hi) as [p |] eqn:Ec; [| exfalso; by eapply clip_piece_none].
  destruct (clip_piece_some e lo hi p Ec) as [Hs Hk]. destruct (proj2 (Hk k) (conj (conj H1 H2) Hr)) as [Hp1 Hp2].
  destruct (drops (drop_new (jb_bottommost j) (jb_oldest_snapshot j) (drop_origin j) x) (rd_start p) (rd_end p) (rd_seq p)) eqn:Ed.
  - right. rewrite Hs, H3 in Ed. by eapply drops_spec.
  - left. exists p. split_and!; [| done | done | congruence]. apply list_elem_of_omap. exists e. split; [done |]. unfold output_piece. by rewrite Ec, Ed.
Qed.

(** ** The contract of the step *)

(** C8 The contract of a merge step.  From a state between two versions it always
    returns, and the only error is the device's.  It writes only inside the output's
    data budget.  The versions it took left the inputs in key order, newest first; what
    went to the output is the kept part of them ([keeping], inside [merging_at]); and the
    outcome says why it stopped: [MergeMore] after the one block that sealed, [Split]
    between two keys when the output is full and input is left, [Exhausted] when the
    inputs are empty; in the last two no block sealed. *)
Theorem merge_step_contract {D E : Type} `{Laws : DeviceLaws D E} (HB : (49 <= BLOCK)%nat) (HB64 : (Z.of_nat BLOCK <= 65536)%Z) (KEY_MAX VAL_MAX BLOOM_BYTES : nat)
  (Hbloom : (BLOOM_BYTES + CRC_LEN <= BLOCK)%nat) (HK : (Z.of_nat KEY_MAX <= U16_MAX)%Z) live tgt_level srcs tgts j pb J Oprev base k
  (Hout : output_ok (E := E) KEY_MAX VAL_MAX live j base) d c ls P O blks cur :
  merging_at (E := E) KEY_MAX VAL_MAX BLOOM_BYTES live tgt_level srcs tgts j pb J Oprev base k d c ls P O blks cur ->
  key_at (E := E) KEY_MAX VAL_MAX j pb J base c ls P O blks cur ->
  exists d' c' r, st_runs (merge_step (E := E) KEY_MAX VAL_MAX tgt_level) (d, c) (d', c') r /\
    stepped (E := E) KEY_MAX VAL_MAX BLOOM_BYTES live tgt_level srcs tgts j pb J Oprev base k d ls P O blks d' c' r.
Proof. intros Hm Hk. by apply merge_step_runs with (blks := blks) (cur := cur). Qed.

(** ** Reads *)

Section sealed.
  Context {D E : Type} `{Laws : DeviceLaws D E}.
  Context (KEY_MAX VAL_MAX BLOOM_BYTES : nat) (live : u64 -> Prop) (tgt_level : list TableRef) (srcs tgts : list InTable).
  Context (j : Job) (pb : u64) (J : bytes -> u64 -> Prop) (Oprev : list SstEntry) (base : u64) (k : u8).

(** C7 Compaction does not change what a reader sees.  A merge has popped all versions
    of a key, and the output whose range holds the key is sealed with the pieces of the
    merged range tombstones that [drops] keeps.  Then a read of the key at the live view
    or at any snapshot, at a time not before the purge cutoff, finds a value in the
    outputs, the rest of the inputs and the other tables of the node exactly when it
    found it before; versions, deletions and expired values that went were not visible. *)
Theorem compaction_reads_same d c ls P O blks cur rs lo hi os Rout key th now val :
  merging_at (E := E) KEY_MAX VAL_MAX BLOOM_BYTES live tgt_level srcs tgts j pb J Oprev base k d c ls P O blks cur ->
  (forall e, e ∈ concat ls -> se_key e <> key) -> in_range lo hi key ->
  (forall s, J key s -> (0 <= s)%Z) -> (forall s, covered rs key s -> J key s) ->
  (forall s, J key s -> covered rs key s \/
    (jb_bottommost j = true /\ (s < jb_oldest_snapshot j)%Z /\ exists s', (s < s' <= jb_oldest_snapshot j)%Z /\ covered rs key s')) ->
  (forall v, v ∈ job_thresholds j -> (jb_oldest_snapshot j <= v)%Z) ->
  (forall o, o ∈ os -> se_key o = key -> (jb_outside_same_min j <= se_seq o)%Z) ->
  th ∈ job_thresholds j -> (pb <= now)%Z ->
  let kept := omap (output_piece (drop_new (jb_bottommost j) (jb_oldest_snapshot j) (drop_origin j) (cv_inexact (co_cover c))) lo hi) rs in
  reads (P ++ concat ls ++ os) (fun k s => J k s \/ Rout k s) key th now val <->
  reads (O ++ concat ls ++ os) (fun k s => covered kept k s \/ Rout k s) key th now val.
Proof.
  intros Hm Hdone Hr H0 Hsub Hcov Hv Hos Hth Hnow kept.
  assert (outside_ok j J (concat ls ++ os) (fun k s => J k s \/ Rout k s) (fun k s => covered kept k s \/ Rout k s) P (cv_inexact (co_cover c)) key) as Hok.
  { split; [by eapply ma_popped | done | | by left | |].
    - intros o [Ho | Ho]%elem_of_app Hk; [by destruct (Hdone o Ho) | by apply Hos].
    - intros s [Hc | ?]; [left; by apply Hsub, (covered_pieces _ _ _ _ _ _ Hc) | by right].
    - intros s [HJ | ?]; [| by left; right]. destruct (Hcov s HJ) as [Hc | (_ & Hs & s' & Hs' & Hc)].
      + destruct (pieces_lost j (cv_inexact (co_cover c)) lo hi rs key s (H0 s HJ) Hc Hr) as [? | (? & ? & ?)]; [by left; left | by right; right].
      + destruct (pieces_lost j (cv_inexact (co_cover c)) lo hi rs key s' (H0 s' (Hsub s' Hc)) Hc Hr) as [? | (? & ? & ?)].
        * right. left. exists s'. split; [by left | done].
        * right. right. split_and!; [done | lia | lia | done]. }
  pose proof (ma_keeping _ _ _ _ _ _ _ _ _ _ _ _ _ _ _ _ _ _ _ _ Hm) as Hkp. split; [by eapply reads_after | by eapply reads_before].
Qed.
End sealed.

(** ** A merge of one table at the bottom *)

Module MergeWitness.
#[local] Instance dev : BlockDevice MemDisk.disk Empty_set := MemDisk.device 64.
#[local] Instance dev_laws : DeviceLaws MemDisk.disk Empty_set := MemDisk.laws 64.
Import ReadWitness.

Definition mw_table : InTable := mkIn rd_ref (chunks demo_entries) [].
Definition mw_live (id : u64) : Prop := (20 <= id < 25)%Z.
Definition mw_job : Job :=
  mkJob [mkInput 0 rd_ref] 0 1 [] 0 true [] U64_MAX U64_MAX (U64_MAX, U32_MAX) 0 0 false false 0 0 10
    (key_run_blocks 4 4 0) 3 0 40 (EMPTY_BOUND 4) 1.
Definition mw_cursor : Cursor := match init_cursor (E := Empty_set) 4 4 rd_disk rd_ref CURSOR_EMPTY with Some (cu, _) => cu | None => CURSOR_EMPTY end.
(** As [compact_start] leaves it. *)
Definition mw_scratch : Compaction :=
  mkComp Merging mw_job 0 (with_block_limit (SstWriter.new 8 4 40 3) 10) Compress.new [mw_cursor; CURSOR_EMPTY] 0 [] KeyIdle
    (replicate (MAX_SNAPSHOTS + 1) false) (mkCover (merger_new 4 [mkInput 0 rd_ref] 0 false false U64_MAX) CoverDone owned_empty [] (Some [])) 0.
Definition mw_none (_ : bytes) (_ : u64) : Prop := False.

Lemma mw_input : input_on (E := Empty_set) 4 4 8 mw_live rd_disk rd_ref (chunks demo_entries) [].
Proof.
  split; [exists 3%Z, 4%Z, 2%Z; exact rd_on |]. split_and!; [rewrite chunks_concat; by_compute | by_compute | by_compute | by_compute | rewrite chunks_concat; by_compute |].
  intros i Hi. replace (length (chunks demo_entries)) with 2%nat in Hi by by_compute. unfold mw_live. cbn in *. lia.
Qed.

Lemma mw_cursors : cursors_at (E := Empty_set) 4 4 8 mw_live [] rd_disk [mw_table] [] mw_scratch [in_live mw_table].
Proof.
  destruct (init_parked (E := Empty_set) ltac:(by_compute) 4 4 8 ltac:(by_compute) mw_live rd_disk rd_ref (chunks demo_entries) [] CURSOR_EMPTY mw_input) as (cu & Hrun & Hp).
  assert (cu = mw_cursor) as -> by (unfold mw_cursor; by rewrite Hrun).
  split; [by_compute | by_compute | by_compute | | | by constructor | by intros []].
  - constructor; [exact mw_input | done].
  - intros [|i] tb Hi; [| done]. injection Hi as <-. exists (in_live mw_table). split; [reflexivity | exact Hp].
Qed.

Lemma mw_output : output_ok (E := Empty_set) 4 4 mw_live mw_job 40.
Proof. split; try by_compute. unfold mw_live. intros id Hid. cbn. lia. Qed.

Lemma mw_started : merging_at (E := Empty_set) 4 4 8 mw_live [] [mw_table] [] mw_job 0 (job_covers [(Manifest.first_key rd_ref, [])] 0 []) [] 40 3 rd_disk mw_scratch [in_live mw_table] [] [] [] [] /\
  key_at (E := Empty_set) 4 4 mw_job 0 (job_covers [(Manifest.first_key rd_ref, [])] 0 []) 40 mw_scratch [in_live mw_table] [] [] [] [].
Proof.
  eapply merge_started; [reflexivity | reflexivity | reflexivity | exact mw_cursors | by_compute | | | | | reflexivity].
  - intros [|i] [|i'] la lb a b Hne Ha Hb; [by destruct Hne | done | done | done].
  - repeat constructor; apply (bool_decide_unpack _); vm_compute; exact I.
  - apply (start_covering 4 rd_disk _ mw_live [mkInput 0 rd_ref] [(Manifest.first_key rd_ref, [])] false false [] U64_MAX).
    + by_compute.
    + constructor; [| constructor]. split; [reflexivity |]. split; [done | intros i Hi; cbn in Hi; lia | by_compute | by_compute | by_compute | constructor | by_compute].
    + done.
    + constructor; [| constructor]. split; constructor.
    + constructor.
    + reflexivity.
  - eapply tw_limit_inv, tw_new_inv.
  Unshelve. all: by_compute.
Qed.

Lemma merge_step_contract_witness : exists d' c' r,
  st_runs (merge_step (E := Empty_set) 4 4 []) (rd_disk, mw_scratch) (d', c') r /\
  stepped (E := Empty_set) 4 4 8 mw_live [] [mw_table] [] mw_job 0 (job_covers [(Manifest.first_key rd_ref, [])] 0 []) [] 40 3 rd_disk [in_live mw_table] [] [] [] d' c' r.
Proof.
  destruct mw_started as [Hm Hk].
  apply (merge_step_contract (E := Empty_set) ltac:(by_compute) ltac:(by_compute) 4 4 8 ltac:(by_compute) ltac:(by_compute) mw_live [] [mw_table] [] mw_job 0
    (job_covers [(Manifest.first_key rd_ref, [])] 0 []) [] 40 3 mw_output rd_disk mw_scratch [in_live mw_table] [] [] [] [] Hm Hk).
Defined.

(** The step empties the input: the newest [a], and [c], go out. *)
Lemma mw_outcome : match merge_step (E := Empty_set) 4 4 [] (rd_disk, mw_scratch) with Some (_, Ok Exhausted) => True | _ => False end.
Proof. vm_compute. exact I. Qed.

Lemma compaction_reads_same_witness : exists c' P O, Permutation P (in_live mw_table) /\
  let J := job_covers [(Manifest.first_key rd_ref, [])] 0 [] in
  let kept := omap (output_piece (drop_new true U64_MAX (drop_origin mw_job) (cv_inexact (co_cover c'))) None None) [] in
  (reads (P ++ []) (fun k s => J k s \/ False) [97]%Z U64_MAX 5 [1; 2]%Z <-> reads (O ++ []) (fun k s => covered kept k s \/ False) [97]%Z U64_MAX 5 [1; 2]%Z).
Proof.
  destruct mw_started as [Hm Hk].
  destruct (merge_step_runs (E := Empty_set) ltac:(by_compute) ltac:(by_compute) 4 4 8 ltac:(by_compute) ltac:(by_compute) mw_live [] [mw_table] [] mw_job 0
    (job_covers [(Manifest.first_key rd_ref, [])] 0 []) [] 40 3 mw_output rd_disk mw_scratch [in_live mw_table] [] [] [] [] Hm Hk) as (d' & c' & r & Hrun & _ & Hst).
  pose proof mw_outcome as Ho. rewrite Hrun in Ho. destruct r as [[| |] | err]; [destruct Ho | destruct Ho | | destruct Ho]. destruct Hst as (P & ls' & O & blks & cur & Hp & Hm' & _ & _ & Hnil & _).
  assert (forall s, job_covers [(Manifest.first_key rd_ref, [])] 0 [] [97]%Z s -> False) as Hno.
  { intros s [(i & sec & Hi & _ & (r & Hr & _) & _) | (sec & Hs & _)]; [| by apply not_elem_of_nil in Hs].
    destruct i as [|i]; [| done]. injection Hi as <-. by apply not_elem_of_nil in Hr. }
  exists c', P, O. rewrite Hnil, app_nil_r in Hp. cbn [concat] in Hp. rewrite app_nil_r in Hp. split; [symmetry; exact Hp |]. cbv zeta.
  pose proof (compaction_reads_same (E := Empty_set) 4 4 8 mw_live [] [mw_table] [] mw_job 0 (job_covers [(Manifest.first_key rd_ref, [])] 0 []) [] 40 3
    d' c' ls' P O blks cur [] None None [] (fun _ _ => False) [97]%Z U64_MAX 5 [1; 2]%Z) as Hr.
  rewrite Hnil in Hr. apply Hr.
  - exact Hm'.
  - intros e He. destruct (not_elem_of_nil e He).
  - split; exact I.
  - intros s Hs. destruct (Hno s Hs).
  - intros s Hs. destruct (covered_nil _ _ Hs).
  - intros s Hs. destruct (Hno s Hs).
  - intros v Hv. apply list_elem_of_singleton in Hv as ->. cbn. lia.
  - intros o Ho'. destruct (not_elem_of_nil o Ho').
  - apply list_elem_of_singleton. reflexivity.
  - lia.
Defined.
End MergeWitness.
