(* ===== verification/CompactDry.v ===== *)
(** * The dry run of a range-tombstone merge: [src/compact.rs]

    Before a job starts, one pass over its merged range tombstones bounds the blocks any
    output's clipped share can need: [RdelDryRun], [OpenEnds], [count_rdel_merge]. *)

From stdpp Require Import base numbers list sets sorting.
From Stdlib Require Import ZArith Lia Sorting.Sorted.
From S2P Require Import Prelude Device Steps Compress Cache Wal Manifest SstPlan SstWriter SstReader SstBlock SstImage SstRdel SstBuild Db DbRead CompactCursor CompactRdel RdelMerge Compact CompactSeal.

(** ** The open ends *)

Record OpenEnds := mkEnds { oe_stored : nat; oe_untracked : u64 }.

Record RdelDryRun := mkDry { dy_entries : u64; dy_bytes : u64; dy_depth : u64 }.

Definition u64_saturating_add (a b : u64) : u64 := Z.min (a + b) U64_MAX.

Section ends.
  Context (KEY_MAX : nat).

Definition STRIDE : nat := KEY_MAX + 2.

Definition oe_end (buf : bytes) (i : nat) : bytes :=
  let at_ := (i * STRIDE)%nat in
  let len := Z.to_nat (from_le (take 2 (drop at_ buf))) in
  take len (drop (at_ + 2) buf).

(** The [while i < self.stored] loop. *)
Fixpoint expire_loop (fuel i : nat) (o : OpenEnds) (buf : bytes) (start : bytes) : OpenEnds * bytes :=
  match fuel with
  | O => (o, buf)
  | S fuel =>
      if (i <? oe_stored o)%nat then
        if bytes_leb (oe_end buf i) start then
          let stored := (oe_stored o - 1)%nat in
          let from := (stored * STRIDE)%nat in
          expire_loop fuel i (mkEnds stored (oe_untracked o)) (copy_within from (from + STRIDE) (i * STRIDE) buf) start
        else expire_loop fuel (i + 1) o buf start
      else (o, buf)
  end.

Definition expire (o : OpenEnds) (buf : bytes) (start : bytes) : OpenEnds * bytes := expire_loop (oe_stored o) 0 o buf start.

(** The latest-ending slot, the first of equals. *)
Definition max_end (stored : nat) (buf : bytes) : option nat :=
  fold_left (fun max i => match max with
                          | None => Some i
                          | Some m => if bytes_ltb (oe_end buf m) (oe_end buf i) then Some i else Some m
                          end) (List.seq 0 stored) None.

Definition put_end (buf : bytes) (slot : nat) (end_ : bytes) : bytes :=
  let at_ := (slot * STRIDE)%nat in
  let len := default 0%Z (try_u16 (Nat.min (length end_) KEY_MAX)) in
  splice (at_ + 2) (take (Z.to_nat len) end_) (splice at_ (to_le 2 len) buf).

Definition insert_end (o : OpenEnds) (buf : bytes) (end_ : bytes) : OpenEnds * bytes :=
  let capacity := (length buf / STRIDE)%nat in
  if (oe_stored o <? capacity)%nat then (mkEnds (oe_stored o + 1) (oe_untracked o), put_end buf (oe_stored o) end_)
  else
    let o := mkEnds (oe_stored o) (oe_untracked o + 1) in
    match max_end (oe_stored o) buf with
    | Some m => if bytes_ltb end_ (oe_end buf m) then (o, put_end buf m end_) else (o, buf)
    | None => (o, buf)
    end.

Definition oe_depth (o : OpenEnds) : u64 := u64_saturating_add (Z.of_nat (oe_stored o)) (oe_untracked o).
End ends.

(** ** The bounds *)

Section bounds.
  Context {D E : Type} `{Dev : !BlockDevice D E}.
  Context (KEY_MAX : nat).

Definition rdel_entries_per_block : u64 := Z.of_nat ((BLOCK - RDEL_TRAILER) / (12 + 2 * KEY_MAX)).

Definition rdel_blocks_bound (entries : u64) : u64 :=
  if (entries =? 0)%Z then 0%Z
  else
    let per_block := rdel_entries_per_block in
    if (per_block =? 0)%Z then U64_MAX else ((entries + per_block - 1) / per_block)%Z.

(** With [usize] 64 bits wide, every conversion succeeds. *)
Definition blocks_bound (r : RdelDryRun) : u64 :=
  let by_entries := rdel_blocks_bound (dy_entries r) in
  let clipped := saturating_mul (saturating_mul (dy_depth r) 2) (Z.of_nat KEY_MAX) in
  let by_bytes := packed_blocks_bound (Z.to_nat (u64_saturating_add (dy_bytes r) clipped)) (Z.to_nat (dy_entries r)) (12 + 2 * KEY_MAX) (BLOCK - RDEL_TRAILER) None in
  Z.min by_entries (Z.of_nat by_bytes).

(** One merged entry. *)
Definition count_entry (e : RdelEntry) (s : RdelDryRun * OpenEnds * bytes) : RdelDryRun * OpenEnds * bytes :=
  let '(run, open, ends) := s in
  let '(open, ends) := expire KEY_MAX open ends (rd_start e) in
  let '(open, ends) := insert_end KEY_MAX open ends (rd_end e) in
  (mkDry (dy_entries run + 1) (u64_saturating_add (dy_bytes run) (Z.of_nat (12 + length (rd_start e) + length (rd_end e)))) (Z.max (dy_depth run) (oe_depth open)), open, ends).

(** The [while merger.next_merged(..)] loop. *)
Fixpoint count_loop (fuel : nat) (d : D) (v : TargetView) (s : RdelDryRun * OpenEnds * bytes) : stm RdelMerger E (RdelDryRun * OpenEnds * bytes) :=
  match fuel with
  | O => st_panic
  | S fuel =>
      let@ more := next_merged KEY_MAX d v in
      if more : bool then
        let@ m := st_get in
        count_loop fuel d v (count_entry (current_entry m) s)
      else st_ret s
  end.

(** The run, and the scratch block of ends. *)
Definition count_rdel_merge (d : D) (sources : list Input) (v : TargetView) (ends : bytes) (bottommost : bool) (oldest_snapshot : u64)
  : option (result (RdelDryRun * bytes) (Error E)) :=
  let m := merger_new KEY_MAX sources 0 (0 <? length (tv_ids v))%nat bottommost oldest_snapshot in
  match count_loop (merge_bound v m + 2) d v (mkDry 0 0 0, mkEnds 0 0, ends) m with
  | None => None
  | Some (_, Err e) => Some (Err e)
  | Some (_, Ok (run, _, ends)) => Some (Ok (run, ends))
  end.
End bounds.

