(* ===== verification/CompactBound.v ===== *)
(** * The dry run bounds every output: [src/compact.rs]

    The ends in the scratch block bound how many merged range tombstones overlap, the
    overlap bounds the bytes that clipping adds, and the bytes and the count bound the
    blocks the writer packs. *)

From stdpp Require Import base numbers list sets sorting.
From Stdlib Require Import ZArith Lia Sorting.Sorted.
From S2P Require Import Prelude Device Steps Compress Cache Wal Manifest SstPlan SstWriter SstReader SstBlock SstImage SstRdel SstBuild Db DbRead CompactCursor CompactRdel RdelMerge Compact CompactCover CompactSeal CompactDry.

(** ** The tracked ends *)

Lemma sub_splice_after {A} off o n (s l : list A) : (off + length s <= o)%nat -> (off + length s <= length l)%nat -> sub o n (splice off s l) = sub o n l.
Proof.
  intros H1 H2. unfold sub, splice. rewrite app_assoc, drop_app_ge by (rewrite length_app, length_take; lia).
  rewrite drop_drop, length_app, length_take. do 2 f_equal. lia.
Qed.

(** The ends above [k]. *)
Definition above (k : bytes) (T : list bytes) : nat := length (List.filter (fun t => bytes_ltb k t) T).

(** The tracked and untracked ends above a key. *)
Definition open_above (o : OpenEnds) (T : list bytes) (k : bytes) : Z := Z.of_nat (above k T) + oe_untracked o.

Lemma above_app k T T' : above k (T ++ T') = (above k T + above k T')%nat.
Proof. unfold above. by rewrite List.filter_app, length_app. Qed.

Lemma above_cons k t T : above k (t :: T) = ((if bytes_ltb k t then 1 else 0) + above k T)%nat.
Proof. unfold above. cbn [List.filter]. by destruct (bytes_ltb k t). Qed.

Lemma above_le k T : (above k T <= length T)%nat.
Proof. induction T as [|t T IH]; [done |]. rewrite above_cons. cbn [length]. destruct (bytes_ltb k t); lia. Qed.

Lemma above_perm k T T' : T ≡ₚ T' -> above k T = above k T'.
Proof. intros Hp. unfold above. by rewrite (list_filter_perm _ _ _ Hp). Qed.

(** Ends at or below [start] do not count from [start] on. *)
Lemma above_expired k start T : bytes_le start k -> above k (List.filter (fun t => negb (bytes_leb t start)) T) = above k T.
Proof.
  intros Hk. induction T as [|t T IH]; [done |]. cbn [List.filter]. destruct (bytes_leb t start) eqn:El; cbn [negb]; rewrite !above_cons, IH; [| done].
  apply bytes_leb_spec in El. rewrite (proj2 (bytes_ltb_ge k t)); [done |]. by eapply bytes_le_trans.
Qed.

Section tracked.
  Context (KEY_MAX : nat) (HK : (Z.of_nat KEY_MAX <= U16_MAX)%Z).

Definition slot_of_end (buf : bytes) (i : nat) : bytes := sub (i * STRIDE KEY_MAX) (STRIDE KEY_MAX) buf.

(** Slot [i] holds [t]. *)
Definition slot_is (buf : bytes) (i : nat) (t : bytes) : Prop :=
  (length t <= KEY_MAX)%nat /\ exists junk, slot_of_end buf i = to_le 2 (Z.of_nat (length t)) ++ t ++ junk.

(** The block tracks the ends [T]. *)
Record tracks (o : OpenEnds) (buf : bytes) (T : list bytes) : Prop := {
  tk_stored : oe_stored o = length T;
  tk_room : (length T * STRIDE KEY_MAX <= length buf)%nat;
  tk_slots : forall i t, T !! i = Some t -> slot_is buf i t;
}.

Lemma slot_end buf i t : slot_is buf i t -> oe_end KEY_MAX buf i = t.
Proof.
  intros [Hl (junk & Hs)]. unfold oe_end. unfold slot_of_end, sub, STRIDE in Hs. unfold STRIDE in *.
  set (l := drop (i * (KEY_MAX + 2)) buf) in *.
  assert (take 2 l = to_le 2 (Z.of_nat (length t))) as E2.
  { replace (take 2 l) with (take 2 (take (KEY_MAX + 2) l)) by (rewrite take_take; f_equal; lia). rewrite Hs.
    rewrite take_app_le by (rewrite length_to_le; lia). rewrite take_ge by (rewrite length_to_le; lia). done. }
  rewrite E2, from_to_le by (unfold U16_MAX in HK; change (2 ^ (8 * Z.of_nat 2))%Z with 65536%Z; lia). rewrite Nat2Z.id, <- drop_drop. fold l.
  replace (take (length t) (drop 2 l)) with (take (length t) (drop 2 (take (KEY_MAX + 2) l))).
  - rewrite Hs, drop_app_ge by (rewrite length_to_le; lia). rewrite length_to_le, Nat.sub_diag, drop_0. apply take_app_length.
  - rewrite !take_drop_commute, take_take. do 2 f_equal. lia.
Qed.

Lemma tracks_end o buf T i t : tracks o buf T -> T !! i = Some t -> oe_end KEY_MAX buf i = t.
Proof. intros Ht Hi. by apply slot_end, (tk_slots _ _ _ Ht). Qed.

(** Writing slot [i] leaves the others. *)
Lemma slot_splice_other buf i i' s : i <> i' -> (length s <= STRIDE KEY_MAX)%nat -> (i * STRIDE KEY_MAX + length s <= length buf)%nat ->
  slot_of_end (splice (i * STRIDE KEY_MAX) s buf) i' = slot_of_end buf i'.
Proof.
  intros Hne Hs Hl. unfold slot_of_end. destruct (decide (i' < i)%nat) as [Hlt | Hge].
  - apply sub_splice_before; [| lia]. replace (i' * STRIDE KEY_MAX + STRIDE KEY_MAX)%nat with (S i' * STRIDE KEY_MAX)%nat by lia. apply Nat.mul_le_mono_r. lia.
  - apply sub_splice_after; [| done]. etrans; [apply Nat.add_le_mono_l, Hs |]. replace (i * STRIDE KEY_MAX + STRIDE KEY_MAX)%nat with (S i * STRIDE KEY_MAX)%nat by lia. apply Nat.mul_le_mono_r. lia.
Qed.

Lemma slot_splice_same buf i s : (length s <= STRIDE KEY_MAX)%nat -> (S i * STRIDE KEY_MAX <= length buf)%nat ->
  exists junk, slot_of_end (splice (i * STRIDE KEY_MAX) s buf) i = s ++ junk.
Proof.
  intros Hs Hl. unfold slot_of_end. generalize (STRIDE KEY_MAX) Hs Hl. clear. intros n Hs Hl.
  assert (forall b : list Z, sub (i * n) n b = sub (i * n) (length s) b ++ sub (i * n + length s) (n - length s) b) as Hsub.
  { intros b. rewrite <- sub_split. f_equal. lia. }
  rewrite Hsub, sub_splice_same by lia. eauto.
Qed.

Lemma put_end_splice buf i t : (length t <= KEY_MAX)%nat -> (S i * STRIDE KEY_MAX <= length buf)%nat ->
  put_end KEY_MAX buf i t = splice (i * STRIDE KEY_MAX) (to_le 2 (Z.of_nat (length t)) ++ t) buf.
Proof.
  intros Ht Hl. unfold put_end. rewrite Nat.min_l, try_u16_le by lia. cbn [from_option id]. rewrite Nat2Z.id, take_ge by lia.
  apply splice_app; rewrite length_to_le; [lia |]. unfold STRIDE in *. cbn in Hl. lia.
Qed.

Lemma put_end_slots buf i t : (length t <= KEY_MAX)%nat -> (S i * STRIDE KEY_MAX <= length buf)%nat ->
  slot_is (put_end KEY_MAX buf i t) i t /\ (forall i' t', i' <> i -> slot_is buf i' t' -> slot_is (put_end KEY_MAX buf i t) i' t') /\
  length (put_end KEY_MAX buf i t) = length buf.
Proof.
  intros Ht Hl. rewrite (put_end_splice buf i t Ht Hl). assert (length (to_le 2 (Z.of_nat (length t)) ++ t) <= STRIDE KEY_MAX)%nat as Hs.
  { rewrite length_app, length_to_le. unfold STRIDE. lia. }
  assert (i * STRIDE KEY_MAX + length (to_le 2 (Z.of_nat (length t)) ++ t) <= length buf)%nat as Hr by (cbn in Hl; lia).
  split_and!.
  - split; [done |]. destruct (slot_splice_same buf i _ Hs Hl) as [junk ->]. exists junk. by rewrite <- app_assoc.
  - intros i' t' Hne [H1 [junk H2]]. split; [done |]. exists junk. by rewrite slot_splice_other.
  - by apply length_splice.
Qed.

Lemma put_end_last o buf T t : tracks o buf T -> (length t <= KEY_MAX)%nat -> (S (length T) * STRIDE KEY_MAX <= length buf)%nat ->
  tracks (mkEnds (oe_stored o + 1) (oe_untracked o)) (put_end KEY_MAX buf (oe_stored o) t) (T ++ [t]).
Proof.
  intros [Hs Hr Hsl] Ht Hl. rewrite Hs. destruct (put_end_slots buf (length T) t Ht Hl) as (Hn & Ho & Hlen).
  split; [by rewrite length_app | rewrite length_app, Hlen; cbn; cbn in Hl; lia |].
  intros i u Hi. apply lookup_app_Some in Hi as [Hi | [Hge Hi]].
  - apply Ho; [| by apply Hsl]. apply lookup_lt_Some in Hi. lia.
  - apply list_lookup_singleton_Some in Hi as [Hi <-]. replace i with (length T) by lia. done.
Qed.

Lemma put_end_at o buf T m t n : tracks o buf T -> (length t <= KEY_MAX)%nat -> (m < length T)%nat ->
  tracks (mkEnds (oe_stored o) n) (put_end KEY_MAX buf m t) (<[m := t]> T).
Proof.
  intros [Hs Hr Hsl] Ht Hm. assert (S m * STRIDE KEY_MAX <= length buf)%nat as Hl by (etrans; [| exact Hr]; apply Nat.mul_le_mono_r; lia).
  destruct (put_end_slots buf m t Ht Hl) as (Hn & Ho & Hlen). split; [by rewrite length_insert | rewrite length_insert; lia |].
  intros i u Hi. destruct (decide (m = i)) as [<- | Hne].
  - rewrite list_lookup_insert_eq in Hi by done. injection Hi as <-. done.
  - rewrite list_lookup_insert_ne in Hi by done. apply Ho; [done | by apply Hsl].
Qed.

(** The last slot copied over slot [i]. *)
Lemma copy_end o buf T i x : tracks o buf T -> (i < length T)%nat -> last T = Some x ->
  let from := ((length T - 1) * STRIDE KEY_MAX)%nat in
  let buf' := copy_within from (from + STRIDE KEY_MAX) (i * STRIDE KEY_MAX) buf in
  tracks (mkEnds (oe_stored o - 1) (oe_untracked o)) buf' (swap_remove i T) /\ length buf' = length buf.
Proof.
  intros [Hs Hr Hsl] Hi Hx from buf'. rewrite last_lookup in Hx.
  assert (length (slot_of_end buf (length T - 1)) = STRIDE KEY_MAX) as Hsub.
  { unfold slot_of_end. rewrite length_sub; [done |]. replace ((length T - 1) * STRIDE KEY_MAX + STRIDE KEY_MAX)%nat with (length T * STRIDE KEY_MAX)%nat by nia. done. }
  assert (i * STRIDE KEY_MAX + STRIDE KEY_MAX <= length buf)%nat as Hroom by nia.
  assert (buf' = splice (i * STRIDE KEY_MAX) (slot_of_end buf (length T - 1)) buf) as -> by (unfold buf', copy_within, slot_of_end; do 2 f_equal; lia).
  assert (length (splice (i * STRIDE KEY_MAX) (slot_of_end buf (length T - 1)) buf) = length buf) as Hlen by (apply length_splice; lia).
  split; [| done]. unfold swap_remove. rewrite last_lookup, Hx. split.
  - cbn. rewrite length_take, length_insert. lia.
  - rewrite length_take, length_insert, Hlen. etrans; [| exact Hr]. apply Nat.mul_le_mono_r. lia.
  - intros i' t Ht. apply lookup_take_Some in Ht as [Ht Hlt]. destruct (decide (i = i')) as [<- | Hne].
    + rewrite list_lookup_insert_eq in Ht by done. injection Ht as <-. replace (pred (length T)) with (length T - 1)%nat in Hx by lia.
      destruct (Hsl _ _ Hx) as [Hl (junk & Hj)]. split; [done |]. exists junk. rewrite <- Hj. pose proof (sub_splice_same (i * STRIDE KEY_MAX) (slot_of_end buf (length T - 1)) buf) as Hss.
      rewrite Hsub in Hss. by apply Hss.
    + rewrite list_lookup_insert_ne in Ht by done. destruct (Hsl _ _ Ht) as [Hl (junk & Hj)]. split; [done |]. exists junk.
      rewrite slot_splice_other; [done | done | lia | lia].
Qed.

Lemma expire_loop_tracks start : forall fuel i o buf T, tracks o buf T ->
  let r := expire_loop KEY_MAX fuel i o buf start in
  tracks (fst r) (snd r) (sweep fuel (fun t => bytes_leb t start) i T) /\ oe_untracked (fst r) = oe_untracked o /\ length (snd r) = length buf.
Proof.
  induction fuel as [|fuel IH]; intros i o buf T Ht; cbn [expire_loop sweep]; [done |].
  pose proof (tk_stored _ _ _ Ht) as Hs. destruct (T !! i) as [t |] eqn:Hi.
  - pose proof (lookup_lt_Some _ _ _ Hi) as Hlt. rewrite (proj2 (Nat.ltb_lt _ _)) by lia. rewrite (tracks_end _ _ _ _ _ Ht Hi).
    destruct (bytes_leb t start); [| by apply IH]. destruct (last T) as [x |] eqn:Hx; [| by apply last_None in Hx as ->].
    destruct (copy_end o buf T i x Ht Hlt Hx) as [Hc Hl]. rewrite Hs in *. destruct (IH i _ _ _ Hc) as (H1 & H2 & H3). split_and!; [done | done | by rewrite H3].
  - apply lookup_ge_None in Hi. rewrite (proj2 (Nat.ltb_ge _ _)) by lia. done.
Qed.

Lemma expire_tracks o buf T start : tracks o buf T -> let r := expire KEY_MAX o buf start in
  exists T', tracks (fst r) (snd r) T' /\ T' ≡ₚ List.filter (fun t => negb (bytes_leb t start)) T /\ oe_untracked (fst r) = oe_untracked o /\ length (snd r) = length buf.
Proof.
  intros Ht r. destruct (expire_loop_tracks start (oe_stored o) 0 o buf T Ht) as (H1 & H2 & H3). eexists. split; [exact H1 |]. split; [| done].
  rewrite (tk_stored _ _ _ Ht), sweep_perm by lia. by rewrite take_0, drop_0.
Qed.

(** The chosen slot, if any, is tracked. *)
Lemma max_end_lt n buf m : max_end KEY_MAX n buf = Some m -> (m < n)%nat.
Proof.
  unfold max_end. assert (forall l acc, (forall a, acc = Some a -> (a < n)%nat) -> Forall (fun i => (i < n)%nat) l ->
    forall m, fold_left (fun max i => match max with
                          | None => Some i
                          | Some m => if bytes_ltb (oe_end KEY_MAX buf m) (oe_end KEY_MAX buf i) then Some i else Some m
                          end) l acc = Some m -> (m < n)%nat) as H.
  { induction l as [|i l IH]; intros acc Ha Hl m'; cbn [fold_left]; [apply Ha |]. apply Forall_cons in Hl as [Hi Hl]. apply IH; [| done].
    destruct acc as [a |]; [destruct (bytes_ltb _ _); intros ? [= <-]; auto | by intros ? [= <-]]. }
  intros Hm. eapply H; [| | exact Hm]; [done |]. apply Forall_forall. intros i Hi%list_elem_of_In%in_seq. lia.
Qed.

Lemma insert_end_tracks o buf T t : tracks o buf T -> (length t <= KEY_MAX)%nat -> let r := insert_end KEY_MAX o buf t in
  exists T', tracks (fst r) (snd r) T' /\ length (snd r) = length buf /\ (oe_untracked o <= oe_untracked (fst r))%Z /\
    (Z.of_nat (length T') + oe_untracked (fst r) = Z.of_nat (length T) + oe_untracked o + 1)%Z /\
    forall k, (open_above o T k + (if bytes_ltb k t then 1 else 0) <= open_above (fst r) T' k)%Z.
Proof.
  intros Ht Htl. pose proof (tk_stored _ _ _ Ht) as Hs. unfold insert_end. assert (0 < STRIDE KEY_MAX)%nat as Hp by (unfold STRIDE; lia).
  destruct (oe_stored o <? length buf / STRIDE KEY_MAX)%nat eqn:Ec; bool_lia.
  - assert (S (length T) * STRIDE KEY_MAX <= length buf)%nat as Hl.
    { rewrite <- Hs. etrans; [apply Nat.mul_le_mono_r, Ec |]. rewrite Nat.mul_comm. apply Nat.Div0.mul_div_le. }
    exists (T ++ [t]). split; [by apply put_end_last |]. split; [by rewrite Hs; apply put_end_slots |]. split; [cbn; lia |]. split; [rewrite length_app; cbn; lia |].
    intros k. unfold open_above. rewrite above_app, above_cons. cbn. destruct (bytes_ltb k t); lia.
  - assert (tracks (mkEnds (oe_stored o) (oe_untracked o + 1)) buf T) as Ht' by (by destruct Ht; split).
    assert (forall k, open_above o T k + (if bytes_ltb k t then 1 else 0) <= open_above (mkEnds (oe_stored o) (oe_untracked o + 1)) T k)%Z as Hk.
    { intros k. unfold open_above. cbn. destruct (bytes_ltb k t); lia. }
    destruct (max_end KEY_MAX _ buf) as [m |] eqn:Em; [| exists T; split_and!; [done | done | cbn; lia | cbn; lia | done]].
    destruct (bytes_ltb t _) eqn:El; [| exists T; split_and!; [done | done | cbn; lia | cbn; lia | done]].
    apply max_end_lt in Em. cbn in Em. rewrite Hs in Em. destruct (lookup_lt_is_Some_2 T m Em) as [u Hu]. rewrite (tracks_end _ _ _ _ _ Ht Hu) in El.
    exists (<[m := t]> T). split; [by apply put_end_at |]. split; [cbn; apply put_end_slots; [done |]; etrans; [| apply (tk_room _ _ _ Ht)]; apply Nat.mul_le_mono_r; lia |].
    split; [cbn; lia |]. split; [cbn; rewrite length_insert; lia |]. intros k. unfold open_above. cbn. rewrite insert_take_drop by done.
    rewrite <- (take_drop_middle T m u Hu) at 1. rewrite !above_app, !above_cons. destruct (bytes_ltb k u) eqn:Eu, (bytes_ltb k t) eqn:Ekt; try lia.
Qed.
End tracked.

(** ** The counted run *)

Section counted.
  Context (KEY_MAX : nat) (HK : (Z.of_nat KEY_MAX <= U16_MAX)%Z).

(** The entries a cut at [k] would split. *)
Definition crosses (k : bytes) (e : RdelEntry) : bool := bytes_ltb (rd_start e) k && bytes_ltb k (rd_end e).
Definition crossing (k : bytes) (rs : list RdelEntry) : nat := length (List.filter (crosses k) rs).

Lemma crossing_snoc k rs e : crossing k (rs ++ [e]) = (crossing k rs + if crosses k e then 1 else 0)%nat.
Proof. unfold crossing. rewrite List.filter_app, length_app. cbn. by destruct (crosses k e). Qed.

Lemma crossing_above k rs : (crossing k rs <= above k (map rd_end rs))%nat.
Proof.
  induction rs as [|e rs IH]; [done |]. unfold crossing in *. cbn [List.filter map]. rewrite above_cons. unfold crosses at 1.
  destruct (bytes_ltb (rd_start e) k), (bytes_ltb k (rd_end e)); cbn [andb length]; lia.
Qed.

(** The state after the entries [rs]. *)
Record counted (rs : list RdelEntry) (s : RdelDryRun * OpenEnds * bytes) : Prop := {
  ct_entries : dy_entries (s.1.1) = Z.of_nat (length rs);
  ct_bytes : dy_bytes (s.1.1) = Z.min (Z.of_nat (sum_list_with rlen rs)) U64_MAX;
  ct_depth : forall k, (Z.of_nat (crossing k rs) <= dy_depth (s.1.1))%Z;
  ct_shallow : (dy_depth (s.1.1) <= Z.of_nat (length rs))%Z;
  ct_open : exists T, tracks KEY_MAX (s.1.2) (s.2) T /\ (0 <= oe_untracked (s.1.2))%Z /\
    (Z.of_nat (length T) + oe_untracked (s.1.2) <= Z.of_nat (length rs))%Z /\
    forall k, Forall (fun e => bytes_le (rd_start e) k) rs -> (Z.of_nat (above k (map rd_end rs)) <= open_above (s.1.2) T k)%Z;
}.

Lemma counted_start buf : counted [] (mkDry 0 0 0, mkEnds 0 0, buf).
Proof. split; try done. exists []. split; [split; [done | cbn; lia | done] |]. done. Qed.

Lemma counted_entry rs s e : counted rs s -> StronglySorted start_le (rs ++ [e]) -> sized KEY_MAX e -> (Z.of_nat (S (length rs)) <= U64_MAX)%Z ->
  counted (rs ++ [e]) (count_entry KEY_MAX e s).
Proof.
  destruct s as [[run o] buf]. intros [He Hb Hd Hsh (T & Ht & Hu & Hl & Hab)] Hso [_ Hz] Hmax. cbn [fst snd] in *. unfold count_entry.
  destruct (expire_tracks KEY_MAX HK o buf T (rd_start e) Ht) as (T1 & Ht1 & Hp1 & Hu1 & _).
  destruct (expire KEY_MAX o buf (rd_start e)) as [o1 buf1]. cbn [fst snd] in *.
  destruct (insert_end_tracks KEY_MAX HK o1 buf1 T1 (rd_end e) Ht1 Hz) as (T2 & Ht2 & _ & Hu2 & Hl2 & Hop).
  destruct (insert_end KEY_MAX o1 buf1 (rd_end e)) as [o2 buf2]. cbn [fst snd] in *.
  assert (length T1 <= length T)%nat as Hl1 by (rewrite (Permutation_length Hp1); apply List.filter_length_le).
  pose proof (tk_stored _ _ _ _ Ht2) as Hs2.
  assert (oe_depth o2 = Z.of_nat (length T2) + oe_untracked o2)%Z as Hdep by (unfold oe_depth, u64_saturating_add; rewrite Hs2; lia).
  assert (forall k, Forall (fun e => bytes_le (rd_start e) k) (rs ++ [e]) -> (Z.of_nat (above k (map rd_end (rs ++ [e]))) <= open_above o2 T2 k)%Z) as Hall.
  { intros k [Hk Hke]%Forall_app. apply Forall_cons in Hke as [Hke _]. specialize (Hab k Hk). specialize (Hop k).
    rewrite map_app, above_app. cbn [map]. rewrite above_cons. unfold open_above in *. rewrite (above_perm k _ _ Hp1), (above_expired k _ T Hke), Hu1 in Hop.
    cbn [above List.filter length]. change (above k []) with 0%nat. destruct (bytes_ltb k (rd_end e)); lia. }
  split; cbn [fst snd dy_entries dy_bytes dy_depth].
  - rewrite length_app, He. cbn. lia.
  - rewrite sum_list_with_app, Hb. unfold u64_saturating_add. cbn [sum_list_with]. unfold rlen, rdel_entry_len. lia.
  - intros k. rewrite crossing_snoc. specialize (Hd k). destruct (crosses k e) eqn:Ex; [| lia].
    unfold crosses in Ex. apply andb_true_iff in Ex as [Ex1%bytes_ltb_spec Ex2].
    assert (Forall (fun e => bytes_le (rd_start e) k) (rs ++ [e])) as Hf.
    { apply Forall_app. split; [| constructor; [by apply bytes_lt_le | constructor]]. apply Forall_forall. intros x Hx.
      apply StronglySorted_app in Hso as (Hxe & _). apply bytes_lt_le. eapply bytes_le_lt_trans; [| exact Ex1]. apply (Hxe x e); [done | left]. }
    specialize (Hall k Hf). pose proof (crossing_above k (rs ++ [e])) as Hca. rewrite crossing_snoc in Hca. unfold crosses in Hca.
    rewrite (proj2 (bytes_ltb_spec _ _) Ex1), Ex2 in Hca. cbn [andb] in Hca. unfold open_above in Hall. pose proof (above_le k T2). lia.
  - rewrite length_app, Hdep. cbn. lia.
  - exists T2. rewrite length_app. cbn [length]. split_and!; [done | | lia | done]. lia.
Qed.

Lemma counted_all : forall es rs s, counted rs s -> StronglySorted start_le (rs ++ es) -> Forall (sized KEY_MAX) es -> (Z.of_nat (length (rs ++ es)) <= U64_MAX)%Z ->
  counted (rs ++ es) (fold_left (fun s e => count_entry KEY_MAX e s) es s).
Proof.
  induction es as [|e es IH]; intros rs s Hc Hso Hz Hmax; cbn [fold_left]; [by rewrite app_nil_r |]. apply Forall_cons in Hz as [Hz Hzs].
  rewrite cons_middle, app_assoc in *. rewrite !length_app in Hmax. apply IH; [| done | done | rewrite !length_app; lia].
  apply counted_entry; [done | | done | cbn in Hmax; lia]. by apply StronglySorted_app in Hso as (_ & ? & _).
Qed.
End counted.

(** ** Packing and clipping *)

Section clipped.
  Context (KEY_MAX : nat).

Lemma sized_rlen r : sized KEY_MAX r -> (rlen r <= 12 + 2 * KEY_MAX)%nat.
Proof. intros [H1 H2]. unfold rlen, rdel_entry_len. lia. Qed.

(** The pieces that go out are no more, and no longer but at the two cuts. *)
Definition cut_at (b : option KeyBound) (rs : list RdelEntry) : nat := match b with Some b => crossing (as_slice b) rs | None => 0 end.
Definition bound_fits (b : option KeyBound) : Prop := match b with Some b => (length (as_slice b) <= KEY_MAX)%nat | None => True end.

Lemma cut_cons b e rs : cut_at b (e :: rs) = (cut_at b [e] + cut_at b rs)%nat.
Proof. destruct b as [b |]; [| done]. unfold cut_at, crossing. cbn [List.filter]. by destruct (crosses _ e). Qed.

Lemma piece_len drop lo hi e p : bound_fits lo -> bound_fits hi -> sized KEY_MAX e -> output_piece drop lo hi e = Some p ->
  sized KEY_MAX p /\ (rlen p <= rlen e + KEY_MAX * cut_at lo [e] + KEY_MAX * cut_at hi [e])%nat.
Proof.
  intros Hlo Hhi [Hs He] Hp. unfold output_piece in Hp. destruct (clip_piece e lo hi) as [q |] eqn:Ec; [| done]. destruct (drops _ _ _ _); [done |]. injection Hp as ->.
  unfold clip_piece in Ec.
  set (start := match lo with Some lo => if bytes_ltb (rd_start e) (as_slice lo) then as_slice lo else rd_start e | None => rd_start e end) in *.
  set (end_ := match hi with Some hi => if bytes_ltb (as_slice hi) (rd_end e) then as_slice hi else rd_end e | None => rd_end e end) in *.
  destruct (bytes_ltb start end_) eqn:El; [| done]. injection Ec as <-. apply bytes_ltb_spec in El.
  assert (bytes_le (rd_start e) start) as Hst.
  { unfold start. destruct lo as [lo |]; [| apply bytes_le_refl]. destruct (bytes_ltb _ _) eqn:E1; [by apply bytes_lt_le, bytes_ltb_spec | apply bytes_le_refl]. }
  assert (bytes_le end_ (rd_end e)) as Hen.
  { unfold end_. destruct hi as [hi |]; [| apply bytes_le_refl]. destruct (bytes_ltb _ _) eqn:E1; [by apply bytes_lt_le, bytes_ltb_spec | apply bytes_le_refl]. }
  assert (length start <= KEY_MAX /\ length start <= length (rd_start e) + KEY_MAX * cut_at lo [e])%nat as [Hs1 Hs2].
  { unfold start in *. destruct lo as [lo |]; [| cbn; lia]. destruct (bytes_ltb (rd_start e) (as_slice lo)) eqn:E1; [| lia]. unfold cut_at, crossing, crosses. cbn [List.filter].
    rewrite E1, (proj2 (bytes_ltb_spec (as_slice lo) (rd_end e))) by (by eapply bytes_lt_le_trans). cbn in Hlo |- *. lia. }
  assert (length end_ <= KEY_MAX /\ length end_ <= length (rd_end e) + KEY_MAX * cut_at hi [e])%nat as [He1 He2].
  { unfold end_ in *. destruct hi as [hi |]; [| cbn; lia]. destruct (bytes_ltb (as_slice hi) (rd_end e)) eqn:E1; [| lia]. unfold cut_at, crossing, crosses. cbn [List.filter].
    rewrite E1, (proj2 (bytes_ltb_spec (rd_start e) (as_slice hi))) by (by eapply bytes_le_lt_trans). cbn in Hhi |- *. lia. }
  split; [by split |]. unfold rlen, rdel_entry_len. cbn. lia.
Qed.

Lemma pieces_len drop lo hi rs : bound_fits lo -> bound_fits hi -> Forall (sized KEY_MAX) rs ->
  let ps := omap (output_piece drop lo hi) rs in
  Forall (sized KEY_MAX) ps /\ (length ps <= length rs)%nat /\ (sum_list_with rlen ps <= sum_list_with rlen rs + KEY_MAX * cut_at lo rs + KEY_MAX * cut_at hi rs)%nat.
Proof.
  intros Hlo Hhi. induction 1 as [|e rs Hz _ IH]; cbn [omap list_omap]; [split_and!; [constructor | done | cbn; lia] |].
  rewrite (cut_cons lo e), (cut_cons hi e). cbn [length sum_list_with]. destruct IH as (H1 & H2 & H3). destruct (output_piece drop lo hi e) as [p |] eqn:Ep.
  - destruct (piece_len drop lo hi e p Hlo Hhi Hz Ep) as [Hp Hl]. cbn [length sum_list_with]. split_and!; [by constructor | by apply le_n_S |].
    rewrite !Nat.mul_add_distr_l. fold (omap (output_piece drop lo hi) rs). lia.
  - split_and!; [done | by apply le_S |]. rewrite !Nat.mul_add_distr_l. fold (omap (output_piece drop lo hi) rs). lia.
Qed.
End clipped.

Section packed.
  Context {D E : Type} `{Dev : !BlockDevice D E}.
  Context (KEY_MAX : nat) (Hrdel : (12 + 2 * KEY_MAX + RDEL_TRAILER <= BLOCK)%nat).

#[local] Abbreviation rmax := (12 + 2 * KEY_MAX)%nat.
#[local] Abbreviation room := (BLOCK - RDEL_TRAILER)%nat.

Lemma length_section_one r : length (section_of [r]) = rlen r.
Proof. apply (length_section_snoc [] r). Qed.

(** A sealed block is nearly full, by bytes and by entries. *)
Lemma rchunk_fold_bound : forall rs bs cur bs' cur', Forall (sized KEY_MAX) rs -> (length (section_of cur) <= length cur * rmax)%nat ->
  fold_left rchunk_step rs (bs, cur) = (bs', cur') ->
  (length bs' * (room - rmax + 1) + length (section_of cur') <= length bs * (room - rmax + 1) + length (section_of cur) + sum_list_with rlen rs)%nat /\
  (length bs' * (room / rmax) + length cur' <= length bs * (room / rmax) + length cur + length rs)%nat /\
  (length bs' + Nat.min 1 (length cur') <= length bs + Nat.min 1 (length cur) + length rs)%nat.
Proof.
  induction rs as [|r rs IH]; intros bs cur bs' cur' Hz Hc; cbn [fold_left].
  { intros [= <- <-]. cbn. lia. }
  apply Forall_cons in Hz as [Hz Hzs]. pose proof (sized_rlen KEY_MAX r Hz) as Hr. cbn [sum_list_with length]. unfold rchunk_step at 2.
  destruct (BLOCK <? length (section_of cur) + rlen r + RDEL_TRAILER)%nat eqn:Ef; bool_lia; intros Hf.
  - apply IH in Hf; [| done | rewrite length_section_one; cbn; lia]. rewrite length_app, length_section_one in Hf. cbn [length] in Hf.
    assert (room / rmax <= length cur)%nat as Hper by (apply Nat.lt_succ_r, Nat.Div0.div_lt_upper_bound; lia).
    assert (0 < length cur)%nat as Hne by (destruct cur; cbn in *; lia).
    rewrite (Nat.mul_add_distr_r (length bs) 1 (room - rmax + 1)), (Nat.mul_add_distr_r (length bs) 1 (room / rmax)), !Nat.mul_1_l in Hf. split_and!; lia.
  - apply IH in Hf; [| done | rewrite length_section_snoc, length_app; cbn; lia]. rewrite length_app, length_section_snoc in Hf. cbn [length] in Hf.
    split_and!; lia.
Qed.
End packed.

(** ** The dry run *)

Section dry.
  Context {D E : Type} `{Laws : DeviceLaws D E}.
  Context (KEY_MAX : nat) (Hrdel : (12 + 2 * KEY_MAX + RDEL_TRAILER <= BLOCK)%nat) (HK : (Z.of_nat KEY_MAX <= U16_MAX)%Z).

Lemma packed_blocks rs n total : Forall (sized KEY_MAX) rs -> (length rs <= n)%nat -> (sum_list_with rlen rs <= total)%nat ->
  (length (rchunks rs) <= packed_blocks_bound total n (12 + 2 * KEY_MAX) (BLOCK - RDEL_TRAILER) None)%nat /\
  (Z.of_nat (length (rchunks rs)) <= rdel_blocks_bound KEY_MAX (Z.of_nat n))%Z.
Proof.
  intros Hz Hn Ht. unfold rchunks. destruct (fold_left rchunk_step rs ([], [])) as [bs cur] eqn:Ef.
  destruct (rchunk_fold_bound KEY_MAX Hrdel rs [] [] bs cur Hz ltac:(cbn; lia) Ef) as (H1 & H2 & H3). cbn [length section_of concat map] in H1, H2, H3.
  assert (length (if (0 <? length cur)%nat then bs ++ [cur] else bs) = length bs + Nat.min 1 (length cur))%nat as ->.
  { destruct (0 <? length cur)%nat eqn:E0; bool_lia; rewrite ?length_app; cbn [length]; lia. }
  assert (1 <= (BLOCK - RDEL_TRAILER) / (12 + 2 * KEY_MAX))%nat as Hper by (apply Nat.div_le_lower_bound; lia).
  split.
  - unfold packed_blocks_bound. destruct (n =? 0)%nat eqn:En; bool_lia. destruct (12 + 2 * KEY_MAX <? BLOCK - RDEL_TRAILER)%nat eqn:Er; bool_lia.
    + assert (length bs <= total / (BLOCK - RDEL_TRAILER - (12 + 2 * KEY_MAX) + 1))%nat by (apply Nat.div_le_lower_bound; lia). cases_goal; bool_lia.
    + cases_goal; bool_lia.
  - unfold rdel_blocks_bound, rdel_entries_per_block. set (per := ((BLOCK - RDEL_TRAILER) / (12 + 2 * KEY_MAX))%nat) in *.
    destruct (Z.of_nat n =? 0)%Z eqn:En; bool_lia. rewrite (proj2 (Z.eqb_neq _ _)) by lia. apply Z.div_le_lower_bound; nia.
Qed.

Lemma count_loop_pulls d v : forall m outs m', pulls (E := E) KEY_MAX d v m outs m' -> forall fuel s, (length outs < fuel)%nat ->
  st_runs (count_loop (E := E) KEY_MAX fuel d v s) m m' (Ok (fold_left (fun s e => count_entry KEY_MAX e s) outs s)).
Proof.
  induction 1 as [m m' Hr | m m1 outs m' Hr _ IH]; intros [|fuel] s Hf; cbn [length] in Hf; try lia; cbn [count_loop fold_left].
  - eapply st_runs_seq; [exact Hr |]. apply st_runs_ret.
  - eapply st_runs_seq; [exact Hr |]. apply st_runs_get. apply IH. lia.
Qed.

(** What the run promises of the entries. *)
Lemma counted_covers outs s drop lo hi : counted KEY_MAX outs s -> Forall (sized KEY_MAX) outs -> bound_fits KEY_MAX lo -> bound_fits KEY_MAX hi ->
  (Z.of_nat (length outs * (12 + 4 * KEY_MAX)) <= U64_MAX)%Z ->
  (Z.of_nat (length (rchunks (omap (output_piece drop lo hi) outs))) <= blocks_bound KEY_MAX (s.1.1))%Z.
Proof.
  intros [He Hb Hd Hsh _] Hz Hlo Hhi Hmax. destruct (pieces_len KEY_MAX drop lo hi outs Hlo Hhi Hz) as (Hpz & Hpl & Hps).
  assert (sum_list_with rlen outs <= length outs * (12 + 2 * KEY_MAX))%nat as Hsum.
  { clear -Hz. induction Hz as [|e rs Hz _ IH]; [done |]. cbn [sum_list_with length]. pose proof (sized_rlen KEY_MAX e Hz). lia. }
  assert (forall b, Z.of_nat (cut_at b outs) <= dy_depth (s.1.1))%Z as Hcut by (intros [b |]; [apply Hd | etrans; [| apply (Hd [])]; cbn; lia]).
  pose proof (Hcut lo) as Hcl. pose proof (Hcut hi) as Hch.
  assert (u64_saturating_add (dy_bytes (s.1.1)) (saturating_mul (saturating_mul (dy_depth (s.1.1)) 2) (Z.of_nat KEY_MAX)) =
    Z.of_nat (sum_list_with rlen outs) + dy_depth (s.1.1) * 2 * Z.of_nat KEY_MAX)%Z as Hsat.
  { unfold u64_saturating_add, saturating_mul. rewrite Hb. nia. }
  destruct (packed_blocks (omap (output_piece drop lo hi) outs) (length outs) (Z.to_nat (Z.of_nat (sum_list_with rlen outs) + dy_depth (s.1.1) * 2 * Z.of_nat KEY_MAX)) Hpz Hpl)
    as [H1 H2]; [nia |].
  unfold blocks_bound. rewrite Hsat, He, Nat2Z.id. lia.
Qed.

(** C10 The dry run before a compaction bounds every output.  For a job whose sections are
    on the device, [count_rdel_merge] returns, and for the range tombstones the merge
    then yields, whatever key range an output gets and whatever it may drop, its clipped
    pieces pack into at most [blocks_bound] blocks.  So the blocks set aside for an
    output's range tombstones are enough. *)
Theorem dry_run_bounds_outputs d v live sources secs bot oldest tsecs ends :
  (length sources < COMPACTION_KMAX)%nat -> Forall2 (source_on (E := E) KEY_MAX d live) sources secs ->
  (if (0 <? length (tv_ids v))%nat then later (E := E) KEY_MAX d v live 0 tsecs else tsecs = []) ->
  Forall sec_ordered (secs ++ tsecs) -> apart tsecs ->
  (Z.of_nat (length (concat (new_lists secs 0 (0 <? length (tv_ids v))%nat tsecs)) * (12 + 4 * KEY_MAX)) <= U64_MAX)%Z ->
  exists run ends' outs m', count_rdel_merge (E := E) KEY_MAX d sources v ends bot oldest = Some (Ok (run, ends')) /\
    pulls (E := E) KEY_MAX d v (merger_new KEY_MAX sources 0 (0 <? length (tv_ids v))%nat bot oldest) outs m' /\
    forall drop lo hi, bound_fits KEY_MAX lo -> bound_fits KEY_MAX hi ->
      (Z.of_nat (length (rchunks (omap (output_piece drop lo hi) outs))) <= blocks_bound KEY_MAX run)%Z.
Proof.
  intros Hlen Hsrc Ht Hord Hap Hmax. set (wt := (0 <? length (tv_ids v))%nat) in *. set (ls := new_lists secs 0 wt tsecs) in *. set (m := merger_new KEY_MAX sources 0 wt bot oldest).
  assert (merging (E := E) KEY_MAX d v live m ls) as Hm by (by apply new_merging).
  destruct (pulls_all KEY_MAX d v live (S (length (left_of None ls))) m ls) as (outs & m' & Hpu & Hso & _ & Hz & _ & _ & _ & Hlo); [cbn; lia | done | by eapply new_lined |].
  change (left_of (rm_pending m) ls) with (concat ls) in Hlo. pose proof (merge_bound_le _ _ _ _ _ _ Hm) as Hb.
  assert (Z.of_nat (length outs * (12 + 4 * KEY_MAX)) <= U64_MAX)%Z as Hmax' by nia.
  assert (counted KEY_MAX outs (fold_left (fun s e => count_entry KEY_MAX e s) outs (mkDry 0 0 0, mkEnds 0 0, ends))) as Hc.
  { apply (counted_all KEY_MAX HK outs []); [apply counted_start | done | done | cbn [app]; lia]. }
  pose proof (count_loop_pulls d v m outs m' Hpu (merge_bound v m + 2) (mkDry 0 0 0, mkEnds 0 0, ends) ltac:(lia)) as Hrun. unfold st_runs in Hrun.
  unfold count_rdel_merge. fold wt m. rewrite Hrun.
  destruct (fold_left (fun s e => count_entry KEY_MAX e s) outs (mkDry 0 0 0, mkEnds 0 0, ends)) as [[run o] ends'].
  exists run, ends', outs, m'. split; [done |]. split; [done |]. intros drop lo hi Hl Hh. by apply (counted_covers outs (run, o, ends')).
Qed.
End dry.

(** ** A job of one source and one target *)

Module DryWitness.
Import RdelWitness.
#[local] Existing Instances RdelWitness.dev RdelWitness.dev_laws.

Lemma dry_run_bounds_outputs_witness : exists run ends' outs m',
  count_rdel_merge (E := Empty_set) 4 rw_disk [rw_source] rw_view (replicate 64 0%Z) false 5 = Some (Ok (run, ends')) /\
  pulls (E := Empty_set) 4 rw_disk rw_view (merger_new 4 [rw_source] 0 true false 5) outs m' /\
  (Z.of_nat (length (rchunks (omap (output_piece (drop_new false 5 (mkOrigin 0 0 U64_MAX (U64_MAX, U32_MAX)) None) (Some (mkBound 1 [98; 0; 0; 0]%Z)) None) outs))) <= blocks_bound 4 run)%Z.
Proof.
  destruct (dry_run_bounds_outputs (E := Empty_set) 4 ltac:(by_compute) ltac:(by_compute) rw_disk rw_view (fun _ => True) [rw_source] [(Manifest.first_key (in_tref rw_source), [rw_src])] false 5
    [(mkBound 1 [98; 0; 0; 0]%Z, [rw_tgt])] (replicate 64 0%Z)) as (run & ends' & outs & m' & Hc & Hp & Hb).
  - cbn. unfold COMPACTION_KMAX. lia.
  - constructor; [exact rw_source_on | constructor].
  - exact rw_target_on.
  - repeat constructor; by_compute.
  - repeat constructor.
  - by_compute.
  - exists run, ends', outs, m'. split; [exact Hc |]. split; [exact Hp |]. apply Hb; [cbn; lia | exact I].
Defined.
End DryWitness.
