(* ===== verification/DbCompact.v ===== *)
(** * Compaction jobs: [src/db/compaction.rs]

    Selecting a job, starting it, sealing and committing its outputs, and the step that
    drives it.  A call works on the handle and the caller's scratch; [None] is a panic. *)

From stdpp Require Import base numbers list.
From Stdlib Require Import ZArith Lia.
From S2P Require Import Prelude Device Steps Compress Slots Cache Memtable Wal Manifest ManifestLog SstPlan SstWriter SstReader SstRdel Db DbFlush Model CompactCursor CompactRdel Compact CompactSeal CompactDry.

Inductive Selected := SelIdle | SelMoved | SelMerging | SelSkipped.

Record Pick := mkPick { pk_tight : bool; pk_manual : bool }.

(** ** Assignments to the job *)

Definition jb_set_sources (inputs : list Input) (j : Job) : Job :=
  mkJob inputs (jb_src_retired j) (jb_target_level j) (jb_tgt j) (jb_tgt_retired j) (jb_bottommost j) (jb_snapshots j) (jb_oldest_snapshot j)
    (jb_outside_same_min j) (jb_outside_foreign_min j) (jb_node j) (jb_max_wall j) (jb_tight j) (jb_manual j) (jb_outputs j) (jb_rdel_budget j)
    (jb_data_budget j) (jb_split_margin j) (jb_bloom_k j) (jb_out_slot j) (jb_out_base j) (jb_out_lo j) (jb_gen j).
Definition jb_set_targets (tgt : list u32) (tight manual : bool) (j : Job) : Job :=
  mkJob (jb_inputs j) (jb_src_retired j) (jb_target_level j) tgt (jb_tgt_retired j) (jb_bottommost j) (jb_snapshots j) (jb_oldest_snapshot j)
    (jb_outside_same_min j) (jb_outside_foreign_min j) (jb_node j) (jb_max_wall j) tight manual (jb_outputs j) (jb_rdel_budget j)
    (jb_data_budget j) (jb_split_margin j) (jb_bloom_k j) (jb_out_slot j) (jb_out_base j) (jb_out_lo j) (jb_gen j).
(** The gates and the keep-set of [compact_start]. *)
Definition jb_set_gates (tgt_level : nat) (lo : KeyBound) (bottommost : bool) (node : u32) (wall same : u64) (foreign : u64 * u32)
  (snaps : list u64) (oldest : u64) (j : Job) : Job :=
  mkJob (jb_inputs j) (jb_src_retired j) tgt_level (jb_tgt j) (jb_tgt_retired j) bottommost snaps oldest
    same foreign node wall (jb_tight j) (jb_manual j) (jb_outputs j) (jb_rdel_budget j)
    (jb_data_budget j) (jb_split_margin j) (jb_bloom_k j) (jb_out_slot j) (jb_out_base j) lo (jb_gen j).
Definition jb_set_budgets (rdel : u32) (data margin : u64) (k : u8) (j : Job) : Job :=
  mkJob (jb_inputs j) (jb_src_retired j) (jb_target_level j) (jb_tgt j) (jb_tgt_retired j) (jb_bottommost j) (jb_snapshots j) (jb_oldest_snapshot j)
    (jb_outside_same_min j) (jb_outside_foreign_min j) (jb_node j) (jb_max_wall j) (jb_tight j) (jb_manual j) (jb_outputs j) rdel
    data margin k (jb_out_slot j) (jb_out_base j) (jb_out_lo j) (jb_gen j).
Definition jb_set_gen (gen : u32) (j : Job) : Job :=
  mkJob (jb_inputs j) (jb_src_retired j) (jb_target_level j) (jb_tgt j) (jb_tgt_retired j) (jb_bottommost j) (jb_snapshots j) (jb_oldest_snapshot j)
    (jb_outside_same_min j) (jb_outside_foreign_min j) (jb_node j) (jb_max_wall j) (jb_tight j) (jb_manual j) (jb_outputs j) (jb_rdel_budget j)
    (jb_data_budget j) (jb_split_margin j) (jb_bloom_k j) (jb_out_slot j) (jb_out_base j) (jb_out_lo j) gen.
Definition jb_set_out (slot : u32) (base : u64) (j : Job) : Job :=
  mkJob (jb_inputs j) (jb_src_retired j) (jb_target_level j) (jb_tgt j) (jb_tgt_retired j) (jb_bottommost j) (jb_snapshots j) (jb_oldest_snapshot j)
    (jb_outside_same_min j) (jb_outside_foreign_min j) (jb_node j) (jb_max_wall j) (jb_tight j) (jb_manual j) (jb_outputs j) (jb_rdel_budget j)
    (jb_data_budget j) (jb_split_margin j) (jb_bloom_k j) slot base (jb_out_lo j) (jb_gen j).
Definition jb_set_out_lo (lo : KeyBound) (j : Job) : Job :=
  mkJob (jb_inputs j) (jb_src_retired j) (jb_target_level j) (jb_tgt j) (jb_tgt_retired j) (jb_bottommost j) (jb_snapshots j) (jb_oldest_snapshot j)
    (jb_outside_same_min j) (jb_outside_foreign_min j) (jb_node j) (jb_max_wall j) (jb_tight j) (jb_manual j) (jb_outputs j) (jb_rdel_budget j)
    (jb_data_budget j) (jb_split_margin j) (jb_bloom_k j) (jb_out_slot j) (jb_out_base j) lo (jb_gen j).
Definition jb_set_settled (src_retired : u8) (tgt_retired : nat) (outputs : u32) (j : Job) : Job :=
  mkJob (jb_inputs j) src_retired (jb_target_level j) (jb_tgt j) tgt_retired (jb_bottommost j) (jb_snapshots j) (jb_oldest_snapshot j)
    (jb_outside_same_min j) (jb_outside_foreign_min j) (jb_node j) (jb_max_wall j) (jb_tight j) (jb_manual j) outputs (jb_rdel_budget j)
    (jb_data_budget j) (jb_split_margin j) (jb_bloom_k j) (jb_out_slot j) (jb_out_base j) (jb_out_lo j) (jb_gen j).

(** [self.job_gen = ..] *)
Definition set_job_gen {D} (db : Db D) (gen : u32) : Db D :=
  mkDb (db_wal db) (db_table db) (db_manifest db) (db_slots db) gen (job_active db)
    (job_inputs db) (manual_level db) (manual_mark db) (manual_start db) (manual_skip db) (cfg db)
    (next_seq db) (snapshots db) (n_snapshots db) (opened db) (db_cache db).
Definition set_db_cache {D} (db : Db D) (cache : BlockCache) : Db D :=
  mkDb (db_wal db) (db_table db) (db_manifest db) (db_slots db) (job_gen db) (job_active db)
    (job_inputs db) (manual_level db) (manual_mark db) (manual_start db) (manual_skip db) (cfg db)
    (next_seq db) (snapshots db) (n_snapshots db) (opened db) cache.
Definition set_manual_skip {D} (db : Db D) (skip : u64) : Db D := set_manual db (manual_level db) (manual_mark db) (manual_start db) skip.
(** [self.job_active = false; self.job_inputs = 0] *)
Definition job_ends {D} (db : Db D) : Db D := set_slots db (db_slots db) false 0.

(** ** Snapshots of a job *)

(** Where the inner loop stops: the slot of [s] among the first [i]. *)
Fixpoint watermark_slot (i : nat) (s : u64) (sorted : list u64) : nat :=
  match i with
  | O => O
  | S i' => if (nth i' sorted 0 <? s)%Z then watermark_slot i' s sorted else i
  end.

Definition insert_watermark (sorted : list u64) (s : u64) : list u64 :=
  let i := watermark_slot (length sorted) s sorted in take i sorted ++ s :: drop i sorted.

Definition sorted_snapshot_watermarks {D} (db : Db D) : list u64 :=
  fold_left insert_watermark (take (n_snapshots db) (snapshots db)) [].

(** ** Choosing tables *)

(** [while b < tables.len() && ranges_overlap(..) { b += 1 }], from the front. *)
Fixpoint run_length (first last : KeyBound) (ts : list TableRef) : nat :=
  match ts with
  | [] => 0
  | t :: ts => if ranges_overlap first last (Manifest.first_key t) (Manifest.last_key t) then S (run_length first last ts) else 0
  end.

Definition overlap_run (ts : list TableRef) (first last : KeyBound) : nat * nat :=
  let a := partition_point (fun t => bytes_ltb (as_slice (Manifest.last_key t)) (as_slice first)) ts in
  (a, (a + run_length first last (drop a ts))%nat).

(** [iter().min_by_key(f)]: the first of equals. *)
Definition min_by_key {A} (f : A -> nat) (l : list A) : option A :=
  fold_left (fun best x => match best with
                           | None => Some x
                           | Some b => if (f x <? f b)%nat then Some x else Some b
                           end) l None.

Definition foreign_min (a b : u64 * u32) : u64 * u32 := if wall_lt b a then b else a.

Section jobs.
  Context {D E : Type} `{Dev : !BlockDevice D E}.
  (** The const generics. *)
  Variables KEY_MAX VAL_MAX LEVELS TABLES BLOOM_BYTES : nat.
  Implicit Types db : Db D.

Definition level_or_empty db (l : nat) : list TableRef := default [] (level LEVELS (db_manifest db) l).

(** The levels below [tgt], shallowest first. *)
Fixpoint below_clear db (levels : list nat) (first last : KeyBound) : bool :=
  match levels with
  | [] => true
  | l :: levels =>
      match level LEVELS (db_manifest db) l with
      | None => true
      | Some ts =>
          if existsb (fun t => ranges_overlap first last (Manifest.first_key t) (Manifest.last_key t)) ts then false
          else below_clear db levels first last
      end
  end.

Definition is_bottommost_output db (tgt : nat) (first last : KeyBound) : bool :=
  below_clear db (List.seq (tgt + 1) (LEVELS - (tgt + 1))) first last.

Definition in_job (j : Job) (t : TableRef) : bool :=
  existsb (fun i => (t_id (in_tref i) =? t_id t)%Z) (jb_inputs j) || existsb (fun id => (id =? t_id t)%Z) (jb_tgt j).

(** One table of [outside_set]. *)
Definition outside_table (j : Job) (node : u32) (first last : KeyBound) (acc : u64 * (u64 * u32)) (t : TableRef) : u64 * (u64 * u32) :=
  let '(same, foreign) := acc in
  if negb (in_job j t) && ranges_overlap first last (Manifest.first_key t) (Manifest.last_key t) then
    if (Manifest.node_id t =? node)%Z then (Z.min same (Manifest.t_min_seq t), foreign)
    else (same, foreign_min foreign (Manifest.seal_wall t, Manifest.node_id t))
  else acc.

(** The gates: the least [min_seq] of the node's tables outside the job, and the least
    wall of the others. *)
Definition outside_set db (j : Job) (node : u32) (first last : KeyBound) : u64 * (u64 * u32) :=
  let own := c_node_id (cfg db) in
  let acc := if (own =? node)%Z then (Memtable.min_seq (db_table db), (U64_MAX, U32_MAX)) else (U64_MAX, (U64_MAX, own)) in
  fold_left (outside_table j node first last) (tables (db_manifest db)) acc.

Definition is_small db (t : TableRef) : bool :=
  (saturating_mul (block_count t) 4 <? saturating_mul (slot_blocks (db_slots db)) 3)%Z.

Definition output_capacity db : u64 := Z.max (saturating_sub (slot_blocks (db_slots db)) 5) 1.

Definition job_need db (src_data : u64) : u64 := (1 + (src_data + output_capacity db - 1) / output_capacity db)%Z.

Definition source_data (t : TableRef) : u64 := saturating_sub (block_count t) 3.

(** L0: the oldest tables, while they fit. *)
Fixpoint pick_l0 db (tight : bool) (budget : u64) (ts picked : list TableRef) (src_data : u64) : list TableRef * u64 :=
  match ts with
  | [] => (picked, src_data)
  | t :: ts =>
      let d := (src_data + source_data t)%Z in
      if (0 <? length picked)%nat && (tight || (budget <? job_need db d)%Z) then (picked, src_data)
      else pick_l0 db tight budget ts (picked ++ [t]) d
  end.

(** [while lo > 0 && hi - lo + 1 < COMPACTION_KMAX && joins(..) { lo -= 1 }] *)
Fixpoint widen_low (joins : TableRef -> bool) (ts : list TableRef) (lo hi : nat) : nat :=
  match lo with
  | O => O
  | S lo' =>
      if (hi - lo + 1 <? COMPACTION_KMAX)%nat && match ts !! lo' with Some t => joins t | None => false end
      then widen_low joins ts lo' hi else lo
  end.

(** [while hi < len && hi - lo + 1 < COMPACTION_KMAX && joins(..) { hi += 1 }], with the
    tables from [hi] on. *)
Fixpoint widen_high (joins : TableRef -> bool) (rest : list TableRef) (lo hi : nat) : nat :=
  match rest with
  | [] => hi
  | t :: rest => if (hi - lo + 1 <? COMPACTION_KMAX)%nat && joins t then widen_high joins rest lo (hi + 1) else hi
  end.

Definition eligible db (pick : Pick) (node : u32) (t : TableRef) : bool :=
  (Manifest.node_id t =? node)%Z && (negb (pk_manual pick) || is_due db t).

(** The sources' tables and their data blocks. *)
Definition chosen_sources db (src : nat) (node : u32) (pick : Pick) (budget : u64) : option (list TableRef * u64) :=
  let ts := level_or_empty db src in
  if (src =? 0)%nat then
    let '(picked, d) := pick_l0 db (pk_tight pick) budget (List.filter (eligible db pick node) ts) [] 0 in
    if (0 <? length picked)%nat then Some (picked, d) else None
  else if (src =? LEVELS - 1)%nat then
    match position_of (eligible db pick node) ts with
    | None => None
    | Some due =>
        let joins t := (Manifest.node_id t =? node)%Z && is_small db t in
        let lo := widen_low joins ts due (due + 1) in
        let hi := widen_high joins (drop (due + 1) ts) lo (due + 1) in
        let picked := take (hi - lo) (drop lo ts) in
        if (0 <? length picked)%nat then Some (picked, foldr Z.add 0%Z (map source_data picked)) else None
    end
  else
    let tgt := level_or_empty db (src + 1) in
    match min_by_key (fun t => let '(a, b) := overlap_run tgt (Manifest.first_key t) (Manifest.last_key t) in (b - a)%nat)
            (List.filter (eligible db pick node) ts) with
    | None => None
    | Some t => Some ([t], source_data t)
    end.

(** An input past the array panics. *)
Definition pick_sources db (c : Compaction) (src : nat) (node : u32) (pick : Pick) (budget : u64) : option (Compaction * option u64) :=
  let c := comp_reset KEY_MAX c in
  match chosen_sources db src node pick budget with
  | None => Some (c, None)
  | Some (ts, d) =>
      if (COMPACTION_KMAX <? length ts)%nat then None
      else Some (set_co_job (jb_set_sources (map (mkInput src) ts) (co_job c)) c, Some d)
  end.

(** ** Computations on the handle and the scratch *)

Definition on_db {A} (f : Db D -> Db D * result A (Error E)) : stm (Db D * Compaction) E A := fun '(db, c) =>
  let '(db, r) := f db in Some ((db, c), r).

Definition on_device {A} (m : stm (D * Compaction) E A) : stm (Db D * Compaction) E A := fun '(db, c) =>
  match m (device (db_wal db), c) with
  | None => None
  | Some ((d, c), r) => Some ((set_device db d, c), r)
  end.

Definition mod_db (f : Db D -> Db D) : stm (Db D * Compaction) E unit := st_mod (fun '(db, c) => (f db, c)).
Definition mod_c (f : Compaction -> Compaction) : stm (Db D * Compaction) E unit := st_mod (fun '(db, c) => (db, f c)).
Definition mod_job (f : Job -> Job) : stm (Db D * Compaction) E unit := mod_c (fun c => set_co_job (f (co_job c)) c).
Definition from_option {A} (e : Error E) (o : option A) : stm (Db D * Compaction) E A :=
  match o with Some a => st_ret a | None => st_fail e end.

(** [edit] committed with the sequence counter. *)
Definition commit_job db (edit : ManifestEdit) : Db D * result unit (Error E) :=
  commit_manifest KEY_MAX LEVELS TABLES db (edit_raise_seq_high edit (next_seq db)).

Definition move_down (src : nat) (tref : TableRef) : stm (Db D * Compaction) E unit :=
  let@ (db, _) := st_get in
  let@ (edit, _) := st_pure (stage_remove LEVELS (db_manifest db) (EMPTY_EDIT KEY_MAX) src (t_id tref)) in
  let@ edit := st_pure (edit_add edit (src + 1) tref) in
  on_db (fun db => commit_job db edit).

(** ** Starting a job *)

Definition compact_open_output : stm (Db D * Compaction) E unit :=
  let@ (db, _) := st_get in
  let '(slots, got) := Slots.reserve (db_slots db) in
  match got with
  | None => st_fail RegionFull
  | Some slot =>
      let@ _ := mod_db (fun db => set_slots db slots (job_active db) (job_inputs db)) in
      let base := slot_base slots slot in
      let@ _ := mod_job (jb_set_out slot base) in
      mod_c (fun c => set_co_writer (with_block_limit (SstWriter.new BLOOM_BYTES KEY_MAX base (jb_bloom_k (co_job c))) (jb_data_budget (co_job c)))
                        (co_compress c) c)
  end.

(** The widest wall of the job's tables. *)
Definition job_wall db (j : Job) : u64 :=
  let w := fold_left (fun w i => Z.max w (seal_wall (in_tref i))) (jb_inputs j) 0%Z in
  fold_left (fun w id => match find_table (db_manifest db) id with Some t => Z.max w (seal_wall t) | None => w end) (jb_tgt j) w.

Definition in_targets (j : Job) (t : TableRef) : bool := existsb (fun id => (id =? t_id t)%Z) (jb_tgt j).

(** Entries and data blocks of all inputs. *)
Definition job_sizes db (j : Job) (tgt : nat) : u64 * u64 :=
  fold_left (fun '(entries, data) t => (u64_saturating_add entries (entry_count t), u64_saturating_add data (default 0%Z (data_blocks t))))
    (map in_tref (jb_inputs j) ++ List.filter (in_targets j) (level_or_empty db tgt)) (0%Z, 0%Z).

(** The bits of the inputs' slots. *)
Definition job_slots db (j : Job) (tgt : nat) : u64 :=
  let mark m t := match db_slot_of db t with Some slot => Z.lor m (Z.shiftl 1 slot) | None => m end in
  let m := fold_left (fun m i => mark m (in_tref i)) (jb_inputs j) 0%Z in
  fold_left (fun m t => if in_targets j t then mark m t else m) (level_or_empty db tgt) m.

Definition gate_job db (tgt : nat) (first last : KeyBound) (j : Job) : Job :=
  let node := match jb_inputs j with i :: _ => Manifest.node_id (in_tref i) | [] => 0%Z end in
  let '(same, foreign) := outside_set db j node first last in
  jb_set_gates tgt first (is_bottommost_output db tgt first last) node (job_wall db j) same foreign
    (sorted_snapshot_watermarks db) (oldest_snapshot_seq db) j.

(** The dry run, in the last cursor's block; what a failed run leaves there is dead. *)
Definition dry_run (tgt : nat) : stm (Db D * Compaction) E RdelDryRun := fun '(db, c) =>
  let j := co_job c in
  let cu := co_cursor c (COMPACTION_KMAX - 1) in
  match count_rdel_merge KEY_MAX (device (db_wal db)) (jb_inputs j) (mkTargets (level_or_empty db tgt) (jb_tgt j)) (cu_block cu)
          (jb_bottommost j) (jb_oldest_snapshot j) with
  | None => None
  | Some (Err e) => Some ((db, c), Err e)
  | Some (Ok (run, ends)) => Some ((db, set_co_cursor (COMPACTION_KMAX - 1) (cu_set_block ends cu) c), Ok run)
  end.

(** Data blocks of an output, when they hold a key's worst case. *)
Definition data_budget_of db (rdel_budget margin : u64) : option u64 :=
  match u64_checked_sub (slot_blocks (db_slots db)) rdel_budget ≫= fun d => u64_checked_sub d 3 with
  | Some d => if (margin <=? d)%Z then Some d else None
  | None => None
  end.

Fixpoint init_cursors (i : nat) (inputs : list Input) : stm (D * Compaction) E unit :=
  match inputs with
  | [] => st_ret tt
  | inp :: inputs =>
      let@ _ := reading (fun d => on_cursor i (init_cursor KEY_MAX VAL_MAX d (in_tref inp))) in
      init_cursors (S i) inputs
  end.

Definition compact_start (tgt : nat) (first last : KeyBound) : stm (Db D * Compaction) E unit :=
  let@ (db, _) := st_get in
  let@ _ := mod_job (gate_job db tgt first last) in
  let@ run := dry_run tgt in
  let rdel_budget := blocks_bound KEY_MAX run in
  let@ (_, c) := st_get in
  let j := co_job c in
  let margin := key_run_blocks KEY_MAX VAL_MAX (length (jb_snapshots j)) in
  let@ data_budget := from_option TableTooLarge (data_budget_of db rdel_budget margin) in
  let@ _ := mod_job (fun j => jb_set_budgets (jb_rdel_budget j) (jb_data_budget j) margin (jb_bloom_k j) j) in
  let@ _ := from_option TableTooLarge (if (U32_MAX <? rdel_budget)%Z then None else Some tt) in
  let '(entries, data) := job_sizes db j tgt in
  let per_output := (saturating_mul entries data_budget / Z.max data 1 + 1)%Z in
  let@ _ := mod_job (jb_set_budgets rdel_budget data_budget margin (bloom_k (Z.of_nat (BLOOM_BYTES * 8)) (Z.min per_output (Z.max entries 1)))) in
  let@ _ := mod_db (fun db => set_job_gen (set_slots db (db_slots db) true (job_slots db j tgt)) (wrap 32 (job_gen db + 1))) in
  let@ (db, _) := st_get in
  let@ _ := mod_job (jb_set_gen (job_gen db)) in
  let@ _ := compact_open_output in
  let@ _ := on_device (init_cursors 0 (jb_inputs j)) in
  let@ _ := on_device (reading (fun d => open_next_target KEY_MAX VAL_MAX d (level_or_empty db tgt))) in
  mod_c (fun c => set_co_state Merging (start_cover KEY_MAX (0 <? dy_entries run)%Z c)).

(** ** Sealing an output *)

(** The device, the merger, the section's writer and its bounds. *)
Definition rdel_state : Type := D * RdelMerger * RdelWriter * RdelStats.

Definition put_piece (p : RdelEntry) (rdel_base : u64) : stm rdel_state E unit :=
  let@ (d, _, w, stats) := st_get in
  let '(d, w, r) := rdel_push d w p in
  let@ _ := st_mod (fun '(_, m, _, stats) => (d, m, w, stats)) in
  let@ _ := st_pure r in
  let@ stats := st_pure (observe KEY_MAX stats p rdel_base) in
  st_mod (fun '(d, m, w, _) => (d, m, w, stats)).

(** The [while merger.next_merged(..)] loop. *)
Fixpoint seal_rdels (fuel : nat) (v : TargetView) (dropping : RdelDrop) (lo : KeyBound) (hi : option KeyBound) (rdel_base : u64) : stm rdel_state E unit :=
  match fuel with
  | O => st_panic
  | S fuel =>
      let@ (d, _, _, _) := st_get in
      let@ more := st_zoom (fun '(_, m, _, _) => m) (fun m '(d, _, w, stats) => (d, m, w, stats)) (next_merged KEY_MAX d v) in
      if more : bool then
        let@ (_, m, _, _) := st_get in
        let@ _ := match output_piece dropping (Some lo) hi (current_entry m) with Some p => put_piece p rdel_base | None => st_ret tt end in
        seal_rdels fuel v dropping lo hi rdel_base
      else st_ret tt
  end.

Definition live_targets db (j : Job) : TargetView := mkTargets (level_or_empty db (jb_target_level j)) (drop (jb_tgt_retired j) (jb_tgt j)).

(** The section of the output: its blocks and bounds. *)
Definition output_rdels (hi : option KeyBound) (rdel_base : u64) : stm (Db D * Compaction) E (u32 * RdelStats) := fun '(db, c) =>
  let j := co_job c in
  let dropping := drop_new (jb_bottommost j) (jb_oldest_snapshot j) (drop_origin j) (cv_inexact (co_cover c)) in
  let v := live_targets db j in
  let m := merger_new KEY_MAX (jb_inputs j) (jb_src_retired j) (0 <? length (tv_ids v))%nat (jb_bottommost j) (jb_oldest_snapshot j) in
  let w := rdel_with_block_limit (rdel_new rdel_base (tw_data (co_writer c))) (jb_rdel_budget j) in
  let back d w := (set_device db d, set_co_writer (set_data (co_writer c) (rw_buf w)) (co_compress c) c) in
  match seal_rdels (merge_bound v m + 2) v dropping (jb_out_lo j) hi rdel_base (device (db_wal db), m, w, stats_new KEY_MAX) with
  | None => None
  | Some ((d, _, w, _), Err e) => Some (back d w, Err e)
  | Some ((d, _, w, stats), Ok _) =>
      let '(d, w, r) := rdel_finish d w in
      Some (back d w, match r with Ok blocks => Ok (Z.of_nat blocks, stats) | Err e => Err e end)
  end.

Definition live_inputs_last db (j : Job) : KeyBound :=
  let last := snd (fold_left (fun '(i, last) inp => (S i, if Z.testbit (jb_src_retired j) (Z.of_nat i) then last else bound_max last (Manifest.last_key (in_tref inp))))
                     (jb_inputs j) (0%nat, EMPTY_BOUND KEY_MAX)) in
  fold_left (fun last id => match find_table (db_manifest db) id with Some t => bound_max last (Manifest.last_key t) | None => last end)
    (drop (jb_tgt_retired j) (jb_tgt j)) last.

(** The output's ref. *)
Definition output_ref db (j : Job) (id : u32) (hi : option KeyBound) (total : u64) (done : FinishedTable) (rdel_blocks : u32) (stats : RdelStats) : result TableRef (Error E) :=
  let rdel_last := match hi with
                   | None => let cap := live_inputs_last db j in
                             if bytes_ltb (as_slice cap) (as_slice (rs_last stats)) then cap else rs_last stats
                   | Some _ => rs_last stats
                   end in
  if (U32_MAX <? total)%Z then Err TableTooLarge
  else if (U32_MAX <? Z.of_nat (ft_entry_count done))%Z then Err TableTooLarge
  else
    Ok (mkRef id (jb_out_base j) total (bound_min (ft_first_key done) (rs_first stats))
          (match hi with Some _ => ft_last_key done | None => bound_max (ft_last_key done) rdel_last end)
          (Z.max (ft_max_seq done) (rs_max_seq stats)) (ft_min_seq done) (Z.of_nat (ft_entry_count done)) rdel_blocks (jb_node j) (jb_max_wall j)).

Definition seal_output_data : stm (Db D * Compaction) E nat := fun '(db, c) =>
  let '(d, w, cs, r) := seal_data (device (db_wal db)) (co_writer c) (Some (co_compress c)) in
  Some ((set_device db d, set_co_writer w (default (co_compress c) cs) c), r).

Definition output_meta (rdel_blocks : u32) (stats : RdelStats) : stm (Db D * Compaction) E FinishedTable := fun '(db, c) =>
  let '(d, w, r) := finish_meta KEY_MAX (device (db_wal db)) (co_writer c) rdel_blocks (rs_min_seq stats) in
  Some ((set_device db d, set_co_writer w (co_compress c) c), r).

Definition release_output db (slot : u32) : Db D := set_slots db (Slots.release (db_slots db) slot) (job_active db) (job_inputs db).

Definition compact_seal_output (last_output : bool) : stm (Db D * Compaction) E (option TableRef) :=
  let@ data_blocks := seal_output_data in
  let@ (_, c) := st_get in
  let hi := if last_output then None else successor KEY_MAX (SstWriter.last_key KEY_MAX (co_writer c)) in
  let@ rdel_base := from_option TableTooLarge (u64_checked_add (jb_out_base (co_job c)) (Z.of_nat data_blocks)) in
  let@ (rdel_blocks, stats) := output_rdels hi rdel_base in
  let@ _ := match hi with Some h => mod_job (jb_set_out_lo h) | None => st_ret tt end in
  let@ (_, c) := st_get in
  if (tw_entry_count (co_writer c) =? 0)%nat && (rdel_blocks =? 0)%Z then
    let@ _ := mod_db (fun db => release_output db (jb_out_slot (co_job c))) in
    st_ret None
  else
    let@ done := output_meta rdel_blocks stats in
    let@ total := from_option TableTooLarge (u64_checked_add rdel_blocks (Z.of_nat (ft_data_blocks done)) ≫= fun n => u64_checked_add n 3) in
    let@ id := on_db (fun db => match alloc_table_id (db_manifest db) with
                                | Ok (m, id) => (set_manifest db m, Ok id)
                                | Err e => (db, Err e)
                                end) in
    let@ (db, c) := st_get in
    let@ t := st_pure (output_ref db (co_job c) id hi total done rdel_blocks stats) in
    st_ret (Some t).

(** ** Committing *)

(** The edit in progress, and the slots it frees. *)
Record Settling := mkSettling { sg_edit : ManifestEdit; sg_freed : u64 }.

(** [settle]: whether input [id] at [level] retires. *)
Definition settle db (last_commit : bool) (k : KeyBound) (level : nat) (id : u32) (s : Settling) : result (Settling * bool) (Error E) :=
  match find_table (db_manifest db) id with
  | None => Err CorruptManifest
  | Some t =>
      if last_commit || bytes_leb (as_slice (Manifest.last_key t)) (as_slice k) then
        let freed := match db_slot_of db t with Some slot => Z.lor (sg_freed s) (Z.shiftl 1 slot) | None => sg_freed s end in
        let? (edit, _) := stage_remove LEVELS (db_manifest db) (sg_edit s) level id in
        Ok (mkSettling edit freed, true)
      else if bytes_leb (as_slice (Manifest.first_key t)) (as_slice k) then
        match successor KEY_MAX k with
        | Some first =>
            let? (edit, _) := stage_narrow LEVELS (db_manifest db) (sg_edit s) level id first in
            Ok (mkSettling edit (sg_freed s), false)
        | None => Ok (s, false)
        end
      else Ok (s, false)
  end.

(** The live sources from the [i]-th on; the bits of those that retire. *)
Fixpoint settle_sources db (last_commit : bool) (k : KeyBound) (gone : u8) (i : nat) (inputs : list Input) (s : Settling) (retired : u8)
  : result (Settling * u8) (Error E) :=
  match inputs with
  | [] => Ok (s, retired)
  | inp :: inputs =>
      if Z.testbit gone (Z.of_nat i) then settle_sources db last_commit k gone (S i) inputs s retired
      else
        let? (s, out) := settle db last_commit k (in_level inp) (t_id (in_tref inp)) s in
        settle_sources db last_commit k gone (S i) inputs s (if out : bool then Z.lor retired (Z.shiftl 1 (Z.of_nat i)) else retired)
  end.

(** The live targets, the first of them the [i]-th; one past the last that retires. *)
Fixpoint settle_targets db (last_commit : bool) (k : KeyBound) (level i : nat) (ids : list u32) (s : Settling) (retired : nat)
  : result (Settling * nat) (Error E) :=
  match ids with
  | [] => Ok (s, retired)
  | id :: ids =>
      let? (s, out) := settle db last_commit k level id s in
      settle_targets db last_commit k level (S i) ids s (if out : bool then S i else retired)
  end.

Definition free_slots_of (slots : SlotMap) (freed : u64) : SlotMap :=
  fold_left (fun m slot => if Z.testbit freed slot then Slots.free m slot else m) (map Z.of_nat (List.seq 0 64)) slots.

(** After the commit point. *)
Definition settled db (j : Job) (wrote : bool) (freed : u64) (retired_src : u8) (retired_tgt : nat) : Db D :=
  let slots := if wrote then Slots.commit (db_slots db) (jb_out_slot j) else db_slots db in
  let cache := snd (fold_left (fun '(i, cache) inp => (S i, if Z.testbit retired_src (Z.of_nat i) then invalidate_table cache (t_id (in_tref inp)) else cache))
                      (jb_inputs j) (0%nat, db_cache db)) in
  let cache := fold_left invalidate_table (take (retired_tgt - jb_tgt_retired j) (drop (jb_tgt_retired j) (jb_tgt j))) cache in
  set_db_cache (set_slots db (free_slots_of slots freed) (job_active db) (Z.land (job_inputs db) (Z.lxor U64_MAX freed))) cache.

Definition compact_commit (out : option TableRef) (last_commit : bool) : stm (Db D * Compaction) E unit :=
  let@ (db, c) := st_get in
  let j := co_job c in
  let k := match out with Some t => if last_commit then EMPTY_BOUND KEY_MAX else Manifest.last_key t | None => EMPTY_BOUND KEY_MAX end in
  let@ (s, retired_src) := st_pure (settle_sources db last_commit k (jb_src_retired j) 0 (jb_inputs j) (mkSettling (EMPTY_EDIT KEY_MAX) 0) 0) in
  let@ (s, retired_tgt) := st_pure (settle_targets db last_commit k (jb_target_level j) (jb_tgt_retired j) (drop (jb_tgt_retired j) (jb_tgt j)) s (jb_tgt_retired j)) in
  let@ edit := match out with Some t => st_pure (edit_add (sg_edit s) (jb_target_level j) t) | None => st_ret (sg_edit s) end in
  let@ _ := on_db (fun db => commit_job db edit) in
  let wrote := match out with Some _ => true | None => false end in
  let@ _ := mod_db (fun db => settled db j wrote (sg_freed s) retired_src retired_tgt) in
  let@ _ := mod_job (fun j => jb_set_settled (Z.lor (jb_src_retired j) retired_src) retired_tgt (if wrote then Z.min (jb_outputs j + 1) U32_MAX else jb_outputs j) j) in
  if last_commit then
    let@ _ := mod_db job_ends in
    mod_c (comp_reset KEY_MAX)
  else st_ret tt.

(** ** Tight jobs *)

Definition tight_commit_ok db (j : Job) (out : option TableRef) (last_commit : bool) : bool :=
  let outputs := Z.min (jb_outputs j + (if out then 1 else 0)) U32_MAX in
  let retired :=
    if last_commit then (length (jb_inputs j) + length (jb_tgt j))%nat
    else
      let k := match out with Some t => Manifest.last_key t | None => EMPTY_BOUND KEY_MAX end in
      let ends_by_k id := match find_table (db_manifest db) id with Some t => bytes_leb (as_slice (Manifest.last_key t)) (as_slice k) | None => false end in
      let src := length (List.filter (fun i => Z.testbit (jb_src_retired j) (Z.of_nat i) ||
                                               match jb_inputs j !! i with Some inp => ends_by_k (t_id (in_tref inp)) | None => false end)
                           (List.seq 0 (length (jb_inputs j)))) in
      let tgt := (jb_tgt_retired j + length (List.filter ends_by_k (drop (jb_tgt_retired j) (jb_tgt j))))%nat in
      (src + tgt)%nat in
  model_tight_commit_ok outputs (Z.min (Z.of_nat retired) U32_MAX).

(** The slot bits of the job's live sources. *)
Definition manual_skip_sources db (j : Job) : Db D :=
  snd (fold_left (fun '(i, db) inp =>
         (S i, if Z.testbit (jb_src_retired j) (Z.of_nat i) then db
               else match db_slot_of db (in_tref inp) with
                    | Some slot => set_manual_skip db (Z.lor (manual_skip db) (Z.shiftl 1 slot))
                    | None => db
                    end)) (jb_inputs j) (0%nat, db)).

Definition compact_give_up (sealed : bool) : stm (Db D * Compaction) E Progress :=
  let@ (_, c) := st_get in
  let j := co_job c in
  let@ _ := mod_db (fun db => if sealed then release_output db (jb_out_slot j) else db) in
  let@ _ := mod_db (fun db => if jb_manual j then manual_skip_sources db j else db) in
  let@ _ := mod_db job_ends in
  let@ _ := mod_c (comp_reset KEY_MAX) in
  if jb_manual j || (0 <? jb_outputs j)%Z then st_ret Done else st_fail RegionFull.

(** ** Selecting a job *)

(** The least and the greatest key of the sources. *)
Definition source_range (inputs : list Input) : KeyBound * KeyBound :=
  match inputs with
  | [] => (EMPTY_BOUND KEY_MAX, EMPTY_BOUND KEY_MAX)
  | i :: inputs =>
      fold_left (fun '(f, l) i => (bound_min f (Manifest.first_key (in_tref i)), bound_max l (Manifest.last_key (in_tref i)))) inputs
        (Manifest.first_key (in_tref i), Manifest.last_key (in_tref i))
  end.

(** The run widened by a small neighbour of the node on either side. *)
Definition consolidate db (node : u32) (ts : list TableRef) (a b : nat) : nat * nat :=
  let joins i := match ts !! i with Some t => (Manifest.node_id t =? node)%Z && is_small db t | None => false end in
  ((if (0 <? a)%nat && joins (a - 1)%nat then a - 1 else a)%nat, (if (b <? length ts)%nat && joins b then b + 1 else b)%nat).

Definition pick_into (src : nat) (node : u32) (pick : Pick) (budget : u64) : stm (Db D * Compaction) E (option u64) := fun '(db, c) =>
  match pick_sources db c src node pick budget with
  | None => None
  | Some (c, r) => Some ((db, c), Ok r)
  end.

(** The admitted job starts. *)
Definition start_group (src tgt : nat) (node : u32) (pick : Pick) (tight : bool) (tgt_tables : list TableRef) (a b : nat) : stm (Db D * Compaction) E (option Selected) :=
  let@ (db, c) := st_get in
  let '(first, last) := source_range (jb_inputs (co_job c)) in
  let '(a, b) := consolidate db node tgt_tables a b in
  let run := take (b - a) (drop a tgt_tables) in
  if (MAX_SLOTS <? Z.of_nat (length run))%Z then st_panic
  else
    let '(first, last) := fold_left (fun '(f, l) t => (bound_min f (Manifest.first_key t), bound_max l (Manifest.last_key t))) run (first, last) in
    let@ _ := mod_job (jb_set_targets (map t_id run) tight (pk_manual pick)) in
    let@ _ := compact_start tgt first last in
    st_ret (Some SelMerging).

Definition try_select_group (src : nat) (node : u32) (pick : Pick) : stm (Db D * Compaction) E (option Selected) :=
  let rewrite := (src =? LEVELS - 1)%nat in
  let tgt := if rewrite then src else (src + 1)%nat in
  let tight := pk_tight pick || rewrite in
  let@ (db, _) := st_get in
  let free := free_slots (db_slots db) in
  let keep := if pk_manual pick then COMPACTION_RESERVE LEVELS else 0%Z in
  let budget := saturating_sub free keep in
  let@ picked := pick_into src node pick budget in
  match picked with
  | None =>
      let@ _ := mod_c (comp_reset KEY_MAX) in
      st_ret None
  | Some src_data =>
      let@ (db, c) := st_get in
      let inputs := jb_inputs (co_job c) in
      let tgt_tables := if rewrite then [] else level_or_empty db tgt in
      let '(first, last) := source_range inputs in
      let '(a, b) := overlap_run tgt_tables first last in
      if existsb (fun t => negb (Manifest.node_id t =? node)%Z && ranges_overlap first last (Manifest.first_key t) (Manifest.last_key t)) tgt_tables then
        let@ _ := mod_db (fun db => if pk_manual pick && pk_tight pick then manual_skip_sources db (co_job c) else db) in
        let@ _ := mod_c (comp_reset KEY_MAX) in
        st_ret None
      else
        match inputs with
        | [] => st_panic
        | inp :: _ =>
            if (0 <? src)%nat && negb rewrite && (a =? b)%nat && negb (is_small db (in_tref inp)) then
              let@ _ := mod_c (comp_reset KEY_MAX) in
              let@ _ := move_down src (in_tref inp) in
              st_ret (Some SelMoved)
            else if (tight && (free =? 0)%Z) || (negb tight && (budget <? job_need db src_data)%Z) then
              let@ _ := mod_c (comp_reset KEY_MAX) in
              st_ret None
            else start_group src tgt node pick tight tgt_tables a b
        end
  end.

(** The first job found. *)
Fixpoint first_selected {A} (f : A -> stm (Db D * Compaction) E (option Selected)) (l : list A) : stm (Db D * Compaction) E (option Selected) :=
  match l with
  | [] => st_ret None
  | x :: l =>
      let@ sel := f x in
      match sel with
      | Some s => st_ret (Some s)
      | None => first_selected f l
      end
  end.

(** The nodes of the level's tables, in order of appearance. *)
Definition level_nodes db (src : nat) (pick : Pick) : list u32 :=
  fold_left (fun nodes t => if (negb (pk_manual pick) || is_due db t) && negb (existsb (fun n => (n =? Manifest.node_id t)%Z) nodes)
                            then nodes ++ [Manifest.node_id t] else nodes) (level_or_empty db src) [].

Definition try_select (src : nat) (pick : Pick) : stm (Db D * Compaction) E (option Selected) :=
  let@ (db, _) := st_get in
  let nodes := level_nodes db src pick in
  if (MAX_SLOTS <? Z.of_nat (length nodes))%Z then st_panic
  else first_selected (fun node => try_select_group src node pick) nodes.

(** All due tables of the level are skipped. *)
Definition skip_due db (l : nat) : Db D :=
  fold_left (fun db t => if is_due db t then match db_slot_of db t with Some slot => set_manual_skip db (Z.lor (manual_skip db) (Z.shiftl 1 slot)) | None => db end
                         else db) (level_or_empty db l) db.

Definition manual_select : stm (Db D * Compaction) E (option Selected) :=
  let@ _ := mod_db (manual_settle LEVELS) in
  let@ (db, _) := st_get in
  match manual_level db with
  | None => st_ret None
  | Some l =>
      let skipped := manual_skip db in
      let@ sel := first_selected (fun tight => try_select l (mkPick tight true)) [false; true] in
      match sel with
      | Some s => st_ret (Some s)
      | None =>
          let@ (db, _) := st_get in
          if (free_slots (db_slots db) =? 0)%Z then st_fail RegionFull
          else
            let@ _ := mod_db (fun db => if (manual_skip db =? skipped)%Z then skip_due db l else db) in
            st_ret (Some SelSkipped)
      end
  end.

(** The levels a pass tries: the full ones, deepest first, or those only pressure wants. *)
Definition pass_levels db (pass : bool) : list nat :=
  List.filter (fun src => wants_job LEVELS TABLES db src pass && negb (pass && wants_job LEVELS TABLES db src false)) (rev (List.seq 0 (LEVELS - 1))).

(** One of the two rounds over the levels: the job found, and whether a level wants one. *)
Definition select_round (pressure tight : bool) (wanted : bool) : stm (Db D * Compaction) E (option Selected * bool) :=
  let@ (db, _) := st_get in
  let full := pass_levels db false in
  let@ sel := first_selected (fun src => try_select src (mkPick tight false)) full in
  let wanted := wanted || (0 <? length full)%nat in
  match sel with
  | Some s => st_ret (Some s, wanted)
  | None =>
      if negb pressure then st_ret (None, wanted)
      else
        let@ (db, _) := st_get in
        let more := pass_levels db true in
        let@ sel := first_selected (fun src => try_select src (mkPick tight false)) more in
        st_ret (sel, wanted || (0 <? length more)%nat)
  end.

Definition compact_select : stm (Db D * Compaction) E Selected :=
  if (LEVELS <? 2)%nat then st_ret SelIdle
  else
    let@ (db, _) := st_get in
    let pressure := under_pressure LEVELS db in
    let@ (sel, wanted) := select_round pressure false false in
    match sel with
    | Some s => st_ret s
    | None =>
        let@ sel := manual_select in
        match sel with
        | Some s => st_ret s
        | None =>
            let@ (db, _) := st_get in
            let@ (sel, wanted) := if negb wanted || (free_slots (db_slots db) =? 0)%Z then st_ret (None, wanted) else select_round pressure true wanted in
            match sel with
            | Some s => st_ret s
            | None => if wanted : bool then st_fail RegionFull else st_ret SelIdle
            end
        end
    end.

(** ** The step *)

(** Sealed, then dropped or committed: [None] when the job goes on. *)
Definition seal_and_commit (last : bool) : stm (Db D * Compaction) E (option Progress) :=
  let@ out := compact_seal_output last in
  let@ (db, c) := st_get in
  if jb_tight (co_job c) && negb (tight_commit_ok db (co_job c) out last) then
    let@ p := compact_give_up (match out with Some _ => true | None => false end) in
    st_ret (Some p)
  else
    let@ _ := compact_commit out last in
    st_ret None.

(** [m], with an error as a value. *)
Definition st_try {S A} (m : stm S E A) : stm S E (result A (Error E)) := fun s =>
  match m s with
  | None => None
  | Some (s, r) => Some (s, Ok r)
  end.

Definition compact_advance : stm (Db D * Compaction) E Progress :=
  let@ (db, c) := st_get in
  let@ outcome := on_device (merge_step KEY_MAX VAL_MAX (level_or_empty db (jb_target_level (co_job c)))) in
  match outcome with
  | MergeMore => st_ret More
  | Split =>
      let@ ended := seal_and_commit false in
      match ended with
      | Some p => st_ret p
      | None =>
          let@ opened := st_try compact_open_output in
          match opened with
          | Ok _ => st_ret More
          | Err _ =>
              let@ _ := mod_db job_ends in
              let@ _ := mod_c (comp_reset KEY_MAX) in
              st_ret Done
          end
      end
  | Exhausted =>
      let@ ended := seal_and_commit true in
      match ended with
      | Some p => st_ret p
      | None => st_ret Done
      end
  end.

(** A job of another scratch, or one that was aborted. *)
Definition stale db (c : Compaction) : bool :=
  negb (bool_decide (co_state c = Idle)) && (negb (job_active db) || negb (jb_gen (co_job c) =? job_gen db)%Z).

Definition compact_run : stm (Db D * Compaction) E Progress :=
  let@ (_, c) := st_get in
  if bool_decide (co_state c = Idle) then
    let@ _ := mod_db abort_job in
    let@ sel := compact_select in
    match sel with
    | SelMerging => compact_advance
    | _ => st_ret Done
    end
  else compact_advance.

Definition compact_step : stm (Db D * Compaction) E Progress :=
  let@ (db, c) := st_get in
  let@ _ := st_pure (ensure_open db) in
  let@ _ := mod_c (fun c => if stale db c then comp_reset KEY_MAX c else c) in
  let@ step := st_try compact_run in
  let@ (_, c) := st_get in
  let@ _ := match step with
            | Err _ =>
                let@ _ := mod_db (fun db => if jb_manual (co_job c) then manual_skip_sources db (co_job c) else db) in
                let@ _ := mod_db abort_job in
                mod_c (comp_reset KEY_MAX)
            | Ok _ => st_ret tt
            end in
  let@ _ := mod_db (manual_settle LEVELS) in
  st_pure step.
End jobs.
