(* ===== verification/CompactJobs.v ===== *)
(** * Who owns a compaction job: [src/db/compaction.rs]

    A job is owned by the handle and one scratch.  A step of the compaction leaves either a
    job both agree on, with exactly its output's slot reserved, or no job and no
    reservation, whatever the device does and wherever the step fails. *)

From stdpp Require Import base numbers list.
From Stdlib Require Import ZArith Lia.
From S2P Require Import Prelude Device Steps Compress Slots Cache Memtable Wal Manifest ManifestLog SstPlan SstWriter SstReader SstRdel Db DbWrite DbRead DbFlush DbLife Model CompactCursor CompactRdel Compact CompactSeal CompactDry DbCompact.

(** ** Postconditions of computations *)

Section post.
  Context {S E : Type}.

(** Where [m] ends from [s], if it does not panic, [Q] holds. *)
Definition ends {A} (m : stm S E A) (Q : result A (Error E) -> S -> Prop) (s : S) : Prop :=
  match m s with Some (s', r) => Q r s' | None => True end.

Lemma ends_bind {A B} (m : stm S E A) (f : A -> stm S E B) (Q : result B (Error E) -> S -> Prop) s :
  ends m (fun r s' => match r with Ok a => ends (f a) Q s' | Err e => Q (Err e) s' end) s -> ends (st_bind m f) Q s.
Proof. unfold ends, st_bind. destruct (m s) as [[s' [a | e]] |]; done. Qed.

Lemma ends_mono {A} (m : stm S E A) (P Q : result A (Error E) -> S -> Prop) s : ends m P s -> (forall r s', P r s' -> Q r s') -> ends m Q s.
Proof. unfold ends. destruct (m s) as [[s' r] |]; auto. Qed.

Lemma ends_try {A} (m : stm S E A) (Q : result (result A (Error E)) (Error E) -> S -> Prop) s : ends m (fun r s' => Q (Ok r) s') s -> ends (st_try m) Q s.
Proof. unfold ends, st_try. by destruct (m s) as [[s' r] |]. Qed.

(** [m] moves the state along [R]. *)
Definition moves (R : S -> S -> Prop) {A} (m : stm S E A) : Prop := forall s, ends m (fun _ s' => R s s') s.

Context (R : S -> S -> Prop) `{!PreOrder R}.

Lemma moves_ret {A} (a : A) : moves R (st_ret a).
Proof. intros s. cbn. reflexivity. Qed.
Lemma moves_fail {A} e : moves R (st_fail (A := A) e).
Proof. intros s. cbn. reflexivity. Qed.
Lemma moves_pure {A} (r : result A (Error E)) : moves R (st_pure r).
Proof. intros s. cbn. reflexivity. Qed.
Lemma moves_panic {A} : moves R (st_panic (A := A)).
Proof. by intros s. Qed.
Lemma moves_get : moves R st_get.
Proof. intros s. cbn. reflexivity. Qed.
Lemma moves_mod f : (forall s, R s (f s)) -> moves R (st_mod f).
Proof. intros H s. apply H. Qed.
Lemma moves_bind {A B} (m : stm S E A) (f : A -> stm S E B) : moves R m -> (forall a, moves R (f a)) -> moves R (st_bind m f).
Proof.
  intros Hm Hf s. apply ends_bind. eapply ends_mono; [apply Hm |]. intros [a | e] s' H; [| done].
  eapply ends_mono; [apply Hf |]. intros r s'' H'. by etrans.
Qed.
End post.

Create HintDb moves discriminated.
#[export] Hint Resolve moves_ret moves_fail moves_pure moves_panic moves_get : moves.

#[export] Hint Extern 1 (PreOrder _) => typeclasses eauto : moves.

(** One step of a structural proof of [moves]. *)
Ltac moves_step :=
  match goal with
  | |- moves _ (st_bind _ _) => apply moves_bind; [typeclasses eauto | | intros ?]
  | |- moves _ (if ?b then _ else _) => destruct b
  | |- moves _ (match ?x with _ => _ end) => destruct x
  | |- moves _ (let '(_, _) := ?x in _) => destruct x
  end.
Ltac moves := repeat (first [progress (eauto with moves) | moves_step]); eauto with moves.

(** ** The merge leaves the job alone *)

Definition same_job (c c' : Compaction) : Prop := co_state c' = co_state c /\ co_job c' = co_job c.

#[export] Instance same_job_pre : PreOrder same_job.
Proof. split; [done |]. intros a b c [] []. split; congruence. Qed.

Definition same_job2 {D} (a b : D * Compaction) : Prop := same_job (snd a) (snd b).

#[export] Instance same_job2_pre {D} : PreOrder (@same_job2 D).
Proof. split; [intros []; unfold same_job2; reflexivity |]. intros [] [] [] ? ?. unfold same_job2 in *. by etrans. Qed.

Section merged.
  Context {D E : Type} `{Dev : !BlockDevice D E}.
  Context (KEY_MAX VAL_MAX : nat).

Lemma on_cursor_moves {A} i (m : stm Cursor E A) : moves same_job (on_cursor i m).
Proof.
  intros c. unfold on_cursor, ends, st_bind, st_get. destruct (co_cursors c !! i); [| done]. unfold st_zoom. by destruct (m _) as [[cu r] |].
Qed.
#[local] Hint Resolve on_cursor_moves : moves.

Lemma co_mod_moves f : (forall c, same_job c (f c)) -> moves (E := E) same_job (st_mod f).
Proof. intros H. by apply moves_mod. Qed.

Lemma open_targets_moves d tgt : forall fuel, moves same_job (open_targets KEY_MAX VAL_MAX fuel d tgt).
Proof. induction fuel as [|fuel IH]; cbn [open_targets]; moves. apply co_mod_moves. done. Qed.
#[local] Hint Resolve open_targets_moves : moves.

Lemma open_next_target_moves d tgt : moves same_job (open_next_target KEY_MAX VAL_MAX d tgt).
Proof. unfold open_next_target. moves. Qed.
#[local] Hint Resolve open_next_target_moves : moves.

Lemma advance_input_moves d i tgt : moves same_job (advance_input KEY_MAX VAL_MAX d i tgt).
Proof. unfold advance_input. moves. Qed.
#[local] Hint Resolve advance_input_moves : moves.

Lemma reading_moves {A} (m : D -> stm Compaction E A) : (forall d, moves same_job (m d)) -> moves same_job2 (reading m).
Proof. intros H [d c]. unfold ends, reading. specialize (H d c). unfold ends in H. by destruct (m d c) as [[c' r] |]. Qed.
#[local] Hint Resolve reading_moves : moves.

Lemma push_out_moves e : moves same_job2 (push_out KEY_MAX e).
Proof. intros [d c]. unfold ends, push_out. by destruct (push _ _ _ _ _) as [[[d' w] cs] r]. Qed.
#[local] Hint Resolve push_out_moves : moves.

Lemma start_key_moves tgt key h : moves same_job2 (start_key KEY_MAX tgt key h).
Proof.
  unfold start_key. moves; apply reading_moves; intros ?; moves; try (by apply co_mod_moves).
  intros c. unfold ends, st_zoom. by destruct (cover_key _ _ _ _ _ _) as [[cv r] |].
Qed.
#[local] Hint Resolve start_key_moves : moves.

Lemma take_head_moves tgt h : moves same_job2 (take_head KEY_MAX VAL_MAX tgt h).
Proof. unfold take_head. moves; apply reading_moves; intros ?; moves. by apply co_mod_moves. Qed.
#[local] Hint Resolve take_head_moves : moves.

Lemma merge_loop_moves tgt : forall fuel, moves same_job2 (merge_loop KEY_MAX VAL_MAX fuel tgt).
Proof. induction fuel as [|fuel IH]; cbn [merge_loop]; moves; apply reading_moves; intros ?; by apply co_mod_moves. Qed.

Lemma merge_step_moves tgt : moves same_job2 (merge_step KEY_MAX VAL_MAX tgt).
Proof. unfold merge_step. pose proof merge_loop_moves. moves. Qed.
End merged.

(** ** What does not touch the ownership *)

(** The handle's and the scratch's part of the ownership. *)
Record same_own {D} (a b : Db D * Compaction) : Prop := {
  so_slots : db_slots (fst b) = db_slots (fst a);
  so_active : job_active (fst b) = job_active (fst a);
  so_gen : job_gen (fst b) = job_gen (fst a);
  so_inputs : job_inputs (fst b) = job_inputs (fst a);
  so_state : co_state (snd b) = co_state (snd a);
  so_out : jb_out_slot (co_job (snd b)) = jb_out_slot (co_job (snd a));
  so_jgen : jb_gen (co_job (snd b)) = jb_gen (co_job (snd a));
}.

#[export] Instance same_own_pre {D} : PreOrder (@same_own D).
Proof. split; [done |]. intros a b c [] []. split; congruence. Qed.

Section jobs.
  Context {D E : Type} `{Dev : !BlockDevice D E}.
  Context (KEY_MAX VAL_MAX LEVELS TABLES BLOOM_BYTES : nat).
  Implicit Types db : Db D.

Abbreviation stays := (moves (E := E) (@same_own D)).

Lemma on_device_stays {A} (m : stm (D * Compaction) E A) : moves same_job2 m -> stays (on_device m).
Proof.
  intros H [db c]. unfold ends, on_device. specialize (H (device (db_wal db), c)). unfold ends in H. destruct (m _) as [[[d c'] r] |]; [| done].
  destruct H as [H1 H2]. cbn in *. split; cbn; congruence.
Qed.

Lemma on_db_stays {A} (f : Db D -> Db D * result A (Error E)) : (forall db, let db' := fst (f db) in db_slots db' = db_slots db /\ job_active db' = job_active db /\
  job_gen db' = job_gen db /\ job_inputs db' = job_inputs db) -> stays (on_db f).
Proof. intros H [db c]. unfold ends, on_db. specialize (H db). destruct (f db) as [db' r]. cbn in H. destruct H as (? & ? & ? & ?). by split. Qed.

Lemma mod_job_stays f : (forall j, jb_out_slot (f j) = jb_out_slot j /\ jb_gen (f j) = jb_gen j) -> stays (mod_job f).
Proof. intros H [db c]. destruct (H (co_job c)). by split. Qed.

Lemma mod_db_stays f : (forall db, db_slots (f db) = db_slots db /\ job_active (f db) = job_active db /\ job_gen (f db) = job_gen db /\ job_inputs (f db) = job_inputs db) ->
  stays (mod_db f).
Proof. intros H [db c]. destruct (H db) as (? & ? & ? & ?). by split. Qed.

Lemma from_option_stays {A} e (o : option A) : stays (from_option e o).
Proof. destruct o; cbn; auto with moves. Qed.
#[local] Hint Resolve from_option_stays : moves.

Lemma commit_job_stays e : stays (on_db (fun db => commit_job KEY_MAX LEVELS TABLES db e)).
Proof. apply on_db_stays. intros db. unfold commit_job, commit_manifest. by destruct (commit_edit _ _ _ _ _ _ _) as [[m d] r]. Qed.
#[local] Hint Resolve commit_job_stays : moves.

Lemma move_down_stays src t : stays (move_down KEY_MAX LEVELS TABLES src t).
Proof. unfold move_down. moves. Qed.

Lemma dry_run_stays tgt : stays (dry_run KEY_MAX LEVELS tgt).
Proof. intros [db c]. unfold ends, dry_run. destruct (count_rdel_merge _ _ _ _ _ _ _) as [[[run e] | e] |]; by try split. Qed.

Lemma init_cursors_moves : forall inputs i, moves same_job2 (init_cursors KEY_MAX VAL_MAX i inputs).
Proof.
  induction inputs as [|inp inputs IH]; intros i; cbn [init_cursors]; moves. apply reading_moves. intros d. apply on_cursor_moves.
Qed.

Lemma seal_output_data_stays : stays seal_output_data.
Proof. intros [db c]. unfold ends, seal_output_data. by destruct (seal_data _ _ _) as [[[d w] cs] r]. Qed.

Lemma output_rdels_stays hi base : stays (output_rdels KEY_MAX LEVELS hi base).
Proof.
  intros [db c]. unfold ends, output_rdels. destruct (seal_rdels _ _ _ _ _ _ _ _) as [[[[[d m] w] st] [u | e]] |]; [| by split | done].
  by destruct (rdel_finish d w) as [[d' w'] [n | e]].
Qed.

Lemma output_meta_stays n st : stays (output_meta KEY_MAX n st).
Proof. intros [db c]. unfold ends, output_meta. by destruct (finish_meta _ _ _ _ _) as [[d w] r]. Qed.

Lemma alloc_stays : stays (on_db (fun db => match alloc_table_id (db_manifest db) with Ok (m, id) => (set_manifest db m, Ok id) | Err e => (db, Err e) end)).
Proof. apply on_db_stays. intros db. by destruct (alloc_table_id _) as [[m id] | e]. Qed.

Lemma settle_loop_owns : forall fuel db, let db' := settle_loop LEVELS fuel db in
  db_slots db' = db_slots db /\ job_active db' = job_active db /\ job_gen db' = job_gen db /\ job_inputs db' = job_inputs db.
Proof.
  induction fuel as [|fuel IH]; intros db; cbn [settle_loop]; [done |]. destruct (manual_level db); [| done]. destruct (level_has_due _ _ _); [done |].
  destruct (negb _); [done |]. apply (IH (set_manual _ _ _ _ _)).
Qed.

Lemma manual_settle_stays : stays (mod_db (manual_settle LEVELS)).
Proof. apply mod_db_stays. intros db. unfold manual_settle. destruct (job_active db) eqn:Ea; [done |]. rewrite <- Ea. apply settle_loop_owns. Qed.

(** Marking tables skipped. *)
Lemma skips_own {A} (f : Db D -> A -> Db D) : (forall db a, exists s, f db a = set_manual_skip db s \/ f db a = db) -> forall l db, let db' := fold_left f l db in
  db_slots db' = db_slots db /\ job_active db' = job_active db /\ job_gen db' = job_gen db /\ job_inputs db' = job_inputs db.
Proof.
  intros Hf. induction l as [|a l IH]; intros db; cbn [fold_left]; [done |]. destruct (IH (f db a)) as (-> & -> & -> & ->). by destruct (Hf db a) as (s & [-> | ->]).
Qed.

Lemma skip_sources_own j db : let db' := manual_skip_sources db j in
  db_slots db' = db_slots db /\ job_active db' = job_active db /\ job_gen db' = job_gen db /\ job_inputs db' = job_inputs db.
Proof.
  unfold manual_skip_sources. generalize 0%nat. revert db. induction (jb_inputs j) as [|inp l IH]; intros db n; cbn [fold_left]; [done |].
  destruct (Z.testbit _ _); [apply IH |]. destruct (db_slot_of db _) as [sl |]; [| apply IH]. by destruct (IH (set_manual_skip db (Z.lor (manual_skip db) (Z.shiftl 1 sl))) (S n)) as (-> & -> & -> & ->).
Qed.

Lemma skip_due_own l db : let db' := skip_due LEVELS db l in
  db_slots db' = db_slots db /\ job_active db' = job_active db /\ job_gen db' = job_gen db /\ job_inputs db' = job_inputs db.
Proof.
  apply skips_own. intros db' t. destruct (is_due db' t); [| exists 0%Z; by right]. destruct (db_slot_of db' t); [eexists; by left | exists 0%Z; by right].
Qed.

(** ** Ownership *)

(** Handle and scratch agree on a job; its output's slot is all that is reserved, or
    nothing is. *)
Record owns (st : State) (held : bool) (s : Db D * Compaction) : Prop := {
  ow_wf : Slots.wf (db_slots (fst s));
  ow_active : job_active (fst s) = true;
  ow_gen : jb_gen (co_job (snd s)) = job_gen (fst s);
  ow_state : co_state (snd s) = st;
  ow_held : if held then valid (db_slots (fst s)) (jb_out_slot (co_job (snd s))) /\ reserved (db_slots (fst s)) = Slots.bit (jb_out_slot (co_job (snd s)))
            else reserved (db_slots (fst s)) = 0%Z;
}.

(** No job, and nothing reserved. *)
Record ended (s : Db D * Compaction) : Prop := {
  en_wf : Slots.wf (db_slots (fst s));
  en_active : job_active (fst s) = false;
  en_inputs : job_inputs (fst s) = 0%Z;
  en_reserved : reserved (db_slots (fst s)) = 0%Z;
  en_state : co_state (snd s) = Idle;
}.

(** What every call leaves: without a job nothing is reserved. *)
Definition clean (s : Db D * Compaction) : Prop :=
  Slots.wf (db_slots (fst s)) /\ (job_active (fst s) = false -> job_inputs (fst s) = 0%Z /\ reserved (db_slots (fst s)) = 0%Z).

Definition stable (P : Db D * Compaction -> Prop) : Prop := forall a b, same_own a b -> P a -> P b.

Lemma owns_stable st held : stable (owns st held).
Proof. intros a b [] []. split; destruct held; congruence. Qed.
Lemma ended_stable : stable ended.
Proof. intros a b [] []. split; congruence. Qed.
Lemma clean_stable : stable clean.
Proof. intros a b [] [? H]. split; [congruence |]. intros Ha. destruct H; [congruence |]. split; congruence. Qed.

Lemma owns_clean st held s : owns st held s -> clean s.
Proof. intros []. split; [done |]. congruence. Qed.
Lemma ended_clean s : ended s -> clean s.
Proof. by intros []. Qed.

(** A first step that leaves the ownership alone. *)
Lemma stays_then {A B} (P : Db D * Compaction -> Prop) (m : stm (Db D * Compaction) E A) (f : A -> stm (Db D * Compaction) E B) Q s :
  stable P -> stays m -> P s -> (forall e s', P s' -> Q (Err e) s') -> (forall a s', P s' -> ends (f a) Q s') -> ends (st_bind m f) Q s.
Proof.
  intros Hst Hm HP He Hf. apply ends_bind. eapply ends_mono; [apply Hm |]. intros [a | e] s' Hs; [apply Hf | apply He]; by eapply Hst.
Qed.

Lemma bit_cleared s : (0 <= s < 64)%Z -> clear_bit (Slots.bit s) s = 0%Z.
Proof.
  intros Hs. apply Z.bits_inj'. intros i Hi. rewrite Z.bits_0. destruct (decide (i < 64)%Z).
  - rewrite testbit_clear, testbit_bit by lia. by destruct (Z.eqb_spec i s).
  - apply testbit_clear_high; lia.
Qed.

Lemma valid_64 m s : Slots.wf m -> valid m s -> (0 <= s < 64)%Z.
Proof. intros Hw Hv. pose proof (Slots.wf_slots _ Hw). unfold valid, MAX_SLOTS in *. lia. Qed.

Lemma open_output_owns st s : owns st false s -> ends (compact_open_output KEY_MAX BLOOM_BYTES) (fun r s' => match r with Ok _ => owns st true s' | Err _ => owns st false s' end) s.
Proof.
  destruct s as [db c]. intros Ho. pose proof Ho as [Hw Ha Hg Hst Hr]. unfold compact_open_output, ends, st_bind, st_get. cbn in *.
  pose proof (reserve_refines (db_slots db) Hw) as H. destruct (reserve (db_slots db)) as [sl [slot |]] eqn:Er; [| done].
  destruct H as (Hf & Hw' & Hv & _). cbn. unfold reserve in Er. rewrite Hf in Er. injection Er as <-. split; cbn; [done | done | done | done |].
  split; [done |]. by rewrite Hr.
Qed.

Lemma compact_start_owns tgt first last s : ended s ->
  ends (compact_start KEY_MAX VAL_MAX LEVELS BLOOM_BYTES tgt first last) (fun r s' => match r with Ok _ => owns Merging true s' | Err _ => clean s' end) s.
Proof.
  intros He. unfold compact_start. pose proof ended_clean as Hc.
  eapply stays_then; [apply ended_stable | apply moves_get; apply _ | done | auto |]. intros [db0 c0] s0 H0.
  eapply stays_then; [apply ended_stable | apply mod_job_stays; intros j; unfold gate_job; by destruct (outside_set _ _ _ _ _) | done | auto |]. intros _ s1 H1.
  eapply stays_then; [apply ended_stable | apply dry_run_stays | done | auto |]. intros run s2 H2.
  eapply stays_then; [apply ended_stable | apply moves_get; apply _ | done | auto |]. intros [db3 c3] s3 H3.
  eapply stays_then; [apply ended_stable | apply from_option_stays | done | auto |]. intros budget s4 H4.
  eapply stays_then; [apply ended_stable | by apply mod_job_stays | done | auto |]. intros _ s5 H5.
  eapply stays_then; [apply ended_stable | apply from_option_stays | done | auto |]. intros _ s6 H6. destruct (job_sizes _ _ _ _) as [entries data].
  eapply stays_then; [apply ended_stable | by apply mod_job_stays | done | auto |]. intros _ s7 H7. destruct s7 as [db7 c7]. destruct H7. apply ends_bind. cbn.
  apply ends_bind. cbn. apply ends_bind. cbn. apply ends_bind.
  eapply ends_mono; [apply (open_output_owns Idle) |]; [by split | cbn]. intros [u | e] s8 H8; [| by eapply owns_clean].
  eapply stays_then; [apply owns_stable | apply on_device_stays, init_cursors_moves | done | by intros; eapply owns_clean |]. intros _ s9 H9.
  eapply stays_then; [apply owns_stable | apply on_device_stays, reading_moves; intros d; apply open_next_target_moves | done | by intros; eapply owns_clean |]. intros _ [db10 c10] [].
  by split.
Qed.

(** ** Selecting *)

(** A selection ends with a job that runs, or with none. *)
Definition selected (r : result (option Selected) (Error E)) (s : Db D * Compaction) : Prop :=
  match r with
  | Ok (Some SelMerging) => owns Merging true s
  | Ok _ => ended s
  | Err _ => clean s
  end.

Lemma ended_reset s : ended s -> ended (fst s, comp_reset KEY_MAX (snd s)).
Proof. intros []. by split. Qed.

Lemma reset_ends {B} (f : unit -> stm (Db D * Compaction) E B) Q s : ended s -> (forall s', ended s' -> ends (f tt) Q s') -> ends (st_bind (mod_c (comp_reset KEY_MAX)) f) Q s.
Proof. intros He Hf. apply ends_bind. destruct s as [db c]. cbn. apply Hf. exact (ended_reset (db, c) He). Qed.

Lemma pick_into_ends src node pick budget s : ended s -> ends (E := E) (pick_into KEY_MAX LEVELS src node pick budget) (fun r s' => ended s' /\ exists o, r = Ok o) s.
Proof.
  destruct s as [db c]. intros []. unfold ends, pick_into, pick_sources. destruct (chosen_sources _ _ _ _ _ _) as [[ts n] |]; [destruct (_ <? _)%nat; [done |] |]; cbn; eauto using Build_ended.
Qed.

Lemma start_group_ends src tgt node pick tight ts a b s : ended s -> ends (start_group KEY_MAX VAL_MAX LEVELS BLOOM_BYTES src tgt node pick tight ts a b) selected s.
Proof.
  intros He. unfold start_group. eapply stays_then; [apply ended_stable | apply moves_get; apply _ | done | intros; by apply ended_clean |]. intros [db c] s1 H1.
  destruct (source_range _ _) as [fk lk]. destruct (consolidate _ _ _ _ _) as [a' b']. destruct (_ <? _)%Z; [done |]. destruct (fold_left _ _ _) as [fk' lk'].
  eapply stays_then; [apply ended_stable | by apply mod_job_stays | done | intros; by apply ended_clean |]. intros _ s2 H2.
  apply ends_bind. eapply ends_mono; [by apply compact_start_owns |]. by intros [u | e] s3 H3.
Qed.

Lemma try_group_ends src node pick s : ended s -> ends (try_select_group KEY_MAX VAL_MAX LEVELS TABLES BLOOM_BYTES src node pick) selected s.
Proof.
  intros He. pose proof ended_clean as Hc. unfold try_select_group. eapply stays_then; [apply ended_stable | apply moves_get; apply _ | done | intros; by apply ended_clean |]. intros [db c] s1 H1.
  apply ends_bind. eapply ends_mono; [by apply pick_into_ends |]. intros r s2 [H2 [[data |] ->]]; [| by apply reset_ends].
  eapply stays_then; [apply ended_stable | apply moves_get; apply _ | done | intros; by apply ended_clean |]. intros [db3 c3] s3 H3.
  destruct (source_range _ _) as [fk lk]. destruct (overlap_run _ _ _) as [a b]. destruct (existsb _ _).
  { eapply stays_then; [apply ended_stable | | done | auto |].
    - apply mod_db_stays. intros db4. destruct (pk_manual pick && pk_tight pick); [apply skip_sources_own | done].
    - intros _ s4 H4. by apply reset_ends. }
  destruct (jb_inputs _); [done |]. destruct (_ && _).
  { apply reset_ends; [done |]. intros s4 H4. eapply stays_then; [apply ended_stable | apply move_down_stays | done | auto | auto]. }
  destruct (_ || _); [by apply reset_ends | by apply start_group_ends].
Qed.

Lemma first_selected_ends {A} (f : A -> stm (Db D * Compaction) E (option Selected)) : (forall x s, ended s -> ends (f x) selected s) ->
  forall l s, ended s -> ends (first_selected f l) selected s.
Proof.
  intros Hf. induction l as [|x l IH]; intros s He; cbn [first_selected]; [done |]. apply ends_bind. eapply ends_mono; [by apply Hf |].
  intros [[sel |] | e] s' H; [done | by apply IH | done].
Qed.

Lemma try_select_ends src pick s : ended s -> ends (try_select KEY_MAX VAL_MAX LEVELS TABLES BLOOM_BYTES src pick) selected s.
Proof.
  intros He. unfold try_select. eapply stays_then; [apply ended_stable | apply moves_get; apply _ | done | intros; by apply ended_clean |]. intros [db c] s1 H1.
  destruct (_ <? _)%Z; [done |]. apply first_selected_ends; [| done]. intros. by apply try_group_ends.
Qed.

Lemma manual_select_ends s : ended s -> ends (manual_select KEY_MAX VAL_MAX LEVELS TABLES BLOOM_BYTES) selected s.
Proof.
  intros He. pose proof ended_clean as Hc. unfold manual_select. eapply stays_then; [apply ended_stable | apply manual_settle_stays | done | auto |]. intros _ s1 H1.
  eapply stays_then; [apply ended_stable | apply moves_get; apply _ | done | auto |]. intros [db c] s2 H2. destruct (manual_level db) as [l |]; [| done].
  apply ends_bind. eapply ends_mono; [apply first_selected_ends; [intros; by apply try_select_ends | done] |]. intros [[sel |] | e] s3 H3; [done | | done].
  eapply stays_then; [apply ended_stable | apply moves_get; apply _ | exact H3 | auto |]. intros [db4 c4] s4 H4. destruct (_ =? _)%Z; [by apply Hc |].
  eapply stays_then; [apply ended_stable | | done | auto | done]. apply mod_db_stays. intros db5. destruct (_ =? _)%Z; [apply skip_due_own | done].
Qed.

Lemma select_round_ends pressure tight wanted s : ended s ->
  ends (select_round KEY_MAX VAL_MAX LEVELS TABLES BLOOM_BYTES pressure tight wanted) (fun r s' => selected (match r with Ok (sel, _) => Ok sel | Err e => Err e end) s') s.
Proof.
  intros He. pose proof ended_clean as Hc. unfold select_round. eapply stays_then; [apply ended_stable | apply moves_get; apply _ | done | auto |]. intros [db c] s1 H1.
  apply ends_bind. eapply ends_mono; [apply first_selected_ends; [intros; by apply try_select_ends | done] |]. intros [[sel |] | e] s2 H2; [done | | done].
  destruct (negb pressure); [done |]. eapply stays_then; [apply ended_stable | apply moves_get; apply _ | exact H2 | auto |]. intros [db3 c3] s3 H3.
  apply ends_bind. eapply ends_mono; [apply first_selected_ends; [intros; by apply try_select_ends | done] |]. by intros [sel | e] s4 H4.
Qed.

Lemma compact_select_ends s : ended s ->
  ends (compact_select KEY_MAX VAL_MAX LEVELS TABLES BLOOM_BYTES) (fun r s' => selected (match r with Ok sel => Ok (Some sel) | Err e => Err e end) s') s.
Proof.
  intros He. pose proof ended_clean as Hc. unfold compact_select. destruct (LEVELS <? 2)%nat; [done |].
  eapply stays_then; [apply ended_stable | apply moves_get; apply _ | done | auto |]. intros [db c] s1 H1.
  apply ends_bind. eapply ends_mono; [by apply select_round_ends |]. intros [[[sel |] w] | e] s2 H2; [done | | done].
  apply ends_bind. eapply ends_mono; [by apply manual_select_ends |]. intros [[sel |] | e] s3 H3; [done | | done].
  eapply stays_then; [apply ended_stable | apply moves_get; apply _ | exact H3 | auto |]. intros [db4 c4] s4 H4. apply ends_bind.
  assert (forall r s5, selected (match r with Ok (sel, _) => Ok sel | Err e => Err e end) s5 ->
    match r with
    | Ok (sel, w) => ends (E := E) (match sel with Some s => st_ret s | None => if w : bool then st_fail RegionFull else st_ret SelIdle end)
                       (fun r s' => selected (match r with Ok sel => Ok (Some sel) | Err e => Err e end) s') s5
    | Err e => selected (Err e) s5
    end) as Hlast by (intros [[[sel |] w'] | e] s5 H5; [done | destruct w'; [by apply Hc | done] | done]).
  destruct (_ || _); [by apply (Hlast (Ok (None, w))) |]. eapply ends_mono; [by apply select_round_ends |]. intros [[sel w'] | e] s5 H5; [by apply (Hlast (Ok (sel, w'))) | done].
Qed.

(** ** Sealing, committing, giving up *)

Lemma freed_reserved freed : forall l m, Slots.wf m ->
  let m' := fold_left (fun m slot => if Z.testbit freed slot then Slots.free m slot else m) (map Z.of_nat l) m in Slots.wf m' /\ reserved m' = reserved m.
Proof.
  induction l as [|i l IH]; intros m Hw; cbn [map fold_left]; [done |]. destruct (Z.testbit freed (Z.of_nat i)); [| by apply IH].
  assert (Slots.wf (Slots.free m (Z.of_nat i)) /\ reserved (Slots.free m (Z.of_nat i)) = reserved m) as [H1 H2].
  { destruct (Z.of_nat i <? Slots.slots m)%Z eqn:Ei.
    - split; [apply free_refines; [done | unfold valid; bool_lia; lia] | unfold Slots.free; by rewrite Ei].
    - unfold Slots.free. by rewrite Ei. }
  destruct (IH _ H1) as [H3 H4]. split; [done | by rewrite H4].
Qed.

Lemma free_slots_reserved freed m : Slots.wf m -> Slots.wf (free_slots_of m freed) /\ reserved (free_slots_of m freed) = reserved m.
Proof. unfold free_slots_of. generalize (List.seq 0 64). intros l. apply freed_reserved. Qed.

Lemma release_held db c : owns Merging true (db, c) -> owns Merging false (release_output db (jb_out_slot (co_job c)), c).
Proof.
  intros [Hw Ha Hg Hst [Hv Hr]]. cbn in *. pose proof (valid_64 _ _ Hw Hv). split; cbn; [by apply release_refines | done | done | done |].
  unfold release. unfold valid in Hv. rewrite (proj2 (Z.ltb_lt _ _)) by lia. cbn. rewrite Hr. by apply bit_cleared.
Qed.

(** The output's slot is used, the freed ones free. *)
Lemma settled_owns db c j j' wrote freed src tgt : owns Merging wrote (db, c) -> jb_out_slot j = jb_out_slot (co_job c) -> jb_gen j' = jb_gen (co_job c) ->
  owns Merging false (settled db j wrote freed src tgt, set_co_job j' c).
Proof.
  intros [Hw Ha Hg Hst Hh] Ho Hj. cbn in *. set (sl := if wrote then Slots.commit (db_slots db) (jb_out_slot j) else db_slots db).
  assert (Slots.wf sl /\ reserved sl = 0%Z) as [Hw1 Hr1].
  { unfold sl. destruct wrote; [| done]. rewrite Ho. destruct Hh as [Hv Hr]. pose proof (valid_64 _ _ Hw Hv). split; [by apply commit_refines |].
    unfold Slots.commit. unfold valid in Hv. rewrite (proj2 (Z.ltb_lt _ _)) by lia. cbn. rewrite Hr. by apply bit_cleared. }
  destruct (free_slots_reserved freed sl Hw1) as [Hw2 Hr2]. rewrite Hr1 in Hr2. rewrite <- Hj in Hg. split; [exact Hw2 | exact Ha | exact Hg | exact Hst | exact Hr2].
Qed.

Lemma job_over db c : owns Merging false (db, c) -> ended (job_ends db, comp_reset KEY_MAX c).
Proof. intros []. by split. Qed.

Lemma seal_output_owns last s : owns Merging true s ->
  ends (compact_seal_output KEY_MAX LEVELS last) (fun r s' => match r with Ok o => owns Merging (match o with Some _ => true | None => false end) s' | Err _ => clean s' end) s.
Proof.
  intros Ho. pose proof (owns_clean Merging) as Hc. unfold compact_seal_output.
  eapply stays_then; [apply owns_stable | apply seal_output_data_stays | done | eauto |]. intros n s1 H1.
  eapply stays_then; [apply owns_stable | apply moves_get; apply _ | done | eauto |]. intros [db2 c2] s2 H2.
  eapply stays_then; [apply owns_stable | apply from_option_stays | done | eauto |]. intros base s3 H3.
  eapply stays_then; [apply owns_stable | apply output_rdels_stays | done | eauto |]. intros [rb st] s4 H4.
  eapply stays_then; [apply owns_stable | destruct (if last then _ else _); [by apply mod_job_stays | apply moves_ret; apply _] | done | eauto |]. intros _ s5 H5.
  apply ends_bind. destruct s5 as [db5 c5]. cbn [ends st_get]. destruct (_ && _).
  { apply ends_bind. cbn. by apply release_held. }
  eapply stays_then; [apply owns_stable | apply output_meta_stays | done | eauto |]. intros done_ s6 H6.
  eapply stays_then; [apply owns_stable | apply from_option_stays | done | eauto |]. intros total s7 H7.
  eapply stays_then; [apply owns_stable | apply alloc_stays | done | eauto |]. intros id s8 H8.
  eapply stays_then; [apply owns_stable | apply moves_get; apply _ | done | eauto |]. intros [db9 c9] s9 H9.
  eapply stays_then; [apply owns_stable | apply moves_pure; apply _ | done | eauto |]. intros t s10 H10. done.
Qed.

Lemma compact_commit_owns out last s : owns Merging (match out with Some _ => true | None => false end) s ->
  ends (compact_commit KEY_MAX LEVELS TABLES out last) (fun r s' => match r with Ok _ => if last then ended s' else owns Merging false s' | Err _ => clean s' end) s.
Proof.
  intros Ho. unfold compact_commit. apply ends_bind. destruct s as [db c]. cbn [ends st_get].
  assert (forall s', same_own (db, c) s' -> clean s') as Hc by (intros s' Hs; eapply clean_stable; [exact Hs | by eapply owns_clean]).
  assert (stable (same_own (db, c))) as Hst by (intros a b Hab Ha; by etrans).
  eapply stays_then; [done | apply moves_pure; apply _ | reflexivity | eauto |]. intros [sg src] s1 H1.
  eapply stays_then; [done | apply moves_pure; apply _ | done | eauto |]. intros [sg2 tgt] s2 H2.
  eapply stays_then; [done | destruct out; [apply moves_pure; apply _ | apply moves_ret; apply _] | done | eauto |]. intros edit s3 H3.
  eapply stays_then; [done | apply commit_job_stays | done | eauto |]. intros _ [db4 c4] H4.
  apply ends_bind. cbn. apply ends_bind. cbn.
  set (db5 := settled db4 (co_job c) _ _ _ _). set (c5 := set_co_job _ c4).
  assert (owns Merging false (db5, c5)) as H5.
  { apply settled_owns; [exact (owns_stable _ _ _ _ H4 Ho) | symmetry; apply (so_out _ _ H4) | reflexivity]. }
  destruct last; [| done]. exact (job_over db5 c5 H5).
Qed.

Lemma give_up_ends sealed s : owns Merging sealed s ->
  ends (E := E) (compact_give_up KEY_MAX sealed) (fun r s' => ended s' /\ forall p, r = Ok p -> p = Done) s.
Proof.
  destruct s as [db c]. intros Ho. set (db1 := if sealed then release_output db (jb_out_slot (co_job c)) else db).
  assert (owns Merging false (db1, c)) as H1 by (unfold db1; destruct sealed; [by apply release_held | done]).
  set (db2 := if jb_manual (co_job c) then manual_skip_sources db1 (co_job c) else db1).
  assert (owns Merging false (db2, c)) as H2.
  { unfold db2. destruct (jb_manual (co_job c)); [| done]. destruct (skip_sources_own (co_job c) db1) as (E1 & E2 & E3 & E4). by apply (owns_stable _ _ (db1, c)). }
  pose proof (job_over db2 c H2) as H3. unfold compact_give_up, ends, st_bind. cbn. fold db1 db2.
  destruct (_ || _); cbn; (split; [exact H3 |]); [by intros p [= <-] | done].
Qed.

Lemma seal_and_commit_owns last s : owns Merging true s ->
  ends (seal_and_commit KEY_MAX LEVELS TABLES last) (fun r s' => match r with
    | Ok None => if last then ended s' else owns Merging false s'
    | Ok (Some p) => p = Done /\ ended s'
    | Err _ => clean s'
    end) s.
Proof.
  intros Ho. unfold seal_and_commit. apply ends_bind. eapply ends_mono; [by apply seal_output_owns |]. intros [out | e] s1 H1; [| done].
  apply ends_bind. destruct s1 as [db1 c1]. cbn [ends st_get]. destruct (_ && _).
  - apply ends_bind. eapply ends_mono; [by apply give_up_ends |]. intros [p | e] s2 [H2 Hp]; [split; [by apply Hp | done] | by apply ended_clean].
  - apply ends_bind. eapply ends_mono; [by apply compact_commit_owns |]. by intros [u | e] s2 H2.
Qed.

(** What a call of the step leaves. *)
Definition advanced (r : result Progress (Error E)) (s : Db D * Compaction) : Prop :=
  match r with
  | Ok More => owns Merging true s
  | Ok Done => ended s
  | Err _ => clean s
  end.

Lemma compact_advance_owns s : owns Merging true s -> ends (compact_advance KEY_MAX VAL_MAX LEVELS TABLES BLOOM_BYTES) advanced s.
Proof.
  intros Ho. pose proof (owns_clean Merging) as Hc. unfold compact_advance. apply ends_bind. destruct s as [db c]. cbn [ends st_get].
  eapply stays_then; [apply owns_stable | apply on_device_stays, merge_step_moves | done | intros; by eapply Hc |]. intros [| |] s1 H1; [done | |].
  - apply ends_bind. eapply ends_mono; [by apply seal_and_commit_owns |]. intros [[p |] | e] s2 H2; [by destruct H2 as [-> ?] | | done].
    apply ends_bind, ends_try. eapply ends_mono; [by apply (open_output_owns Merging) |]. intros [u | e] [db3 c3] H3; [done |]. exact (job_over db3 c3 H3).
  - apply ends_bind. eapply ends_mono; [by apply seal_and_commit_owns |]. intros [[p |] | e] s2 H2; [by destruct H2 as [-> ?] | done | done].
Qed.

(** The handle, and a scratch that claims its job. *)
Definition in_step (s : Db D * Compaction) : Prop :=
  clean s /\ (co_state (snd s) = Merging -> job_active (fst s) = true -> jb_gen (co_job (snd s)) = job_gen (fst s) -> owns Merging true s).

Lemma abort_ends db c : clean (db, c) -> ended (abort_job db, comp_reset KEY_MAX c).
Proof.
  intros [Hw Hc]. unfold abort_job. cbn in *. destruct (job_active db) eqn:Ea; [| destruct (Hc eq_refl); by split]. split; cbn; [by apply release_all_wf | done | done | done | done].
Qed.

Lemma compact_run_owns db c : clean (db, c) -> (co_state c = Merging -> owns Merging true (db, c)) ->
  ends (compact_run KEY_MAX VAL_MAX LEVELS TABLES BLOOM_BYTES) advanced (db, c).
Proof.
  intros Hc Ho. unfold compact_run. apply ends_bind. cbn [ends st_get]. destruct (bool_decide (co_state c = Idle)) eqn:Ei.
  - apply bool_decide_eq_true in Ei. apply ends_bind. cbn.
    assert (ended (abort_job db, c)) as He by (destruct (abort_ends db c Hc) as [H1 H2 H3 H4 _]; split; [exact H1 | exact H2 | exact H3 | exact H4 | exact Ei]).
    apply ends_bind. eapply ends_mono; [by apply compact_select_ends |]. intros [[| | |] | e] s' H; [done | done | by apply compact_advance_owns | done | done].
  - apply bool_decide_eq_false in Ei. apply compact_advance_owns, Ho. by destruct (co_state c).
Qed.
End jobs.

(** ** Where [in_step] comes from *)

Section opened.
  Context {D E : Type} `{Dev : !BlockDevice D E}.
  Context (KEY_MAX VAL_MAX CAP ARENA LEVELS TABLES : nat).

Lemma slot_of_nonneg m f b s : Slots.wf m -> Slots.slot_of m f b = Some s -> (0 <= s)%Z.
Proof.
  intros Hm. unfold Slots.slot_of. pose proof (wf_blocks m Hm). repeat case_match; intros ?; simplify_eq. bool_lia.
  apply Z.div_pos; lia.
Qed.

Lemma rebuild_clean ts : forall sl newest sl' newest',
  Slots.wf sl -> reserved sl = 0%Z -> rebuild_slots (E := E) sl newest ts = Ok (sl', newest') ->
  (forall id s, newest = Some (id, s) -> (0 <= s)%Z) ->
  Slots.wf sl' /\ reserved sl' = 0%Z /\ forall id s, newest' = Some (id, s) -> (0 <= s)%Z.
Proof.
  induction ts as [| t ts IH]; intros sl newest sl' newest' Hw Hr H Hn; cbn [rebuild_slots] in H; [by simplify_eq |].
  destruct (Slots.slot_of _ _ _) as [slot |] eqn:Es; [| done]. pose proof (slot_of_nonneg _ _ _ _ Hw Es) as H0.
  pose proof (mark_used_refines sl slot Hw Hr H0) as Hm. destruct (mark_used sl slot) as [sl1 []]; [| done].
  destruct Hm as (Hw1 & Hr1 & _). eapply IH; [exact Hw1 | exact Hr1 | exact H |].
  intros id s E1. destruct newest as [[id0 s0] |]; [destruct (_ <? _)%Z |]; simplify_eq; eauto.
Qed.

(** [open] leaves no job and no reservation. *)
Lemma open_clean (db db' : Db D) (c : Compaction) rep :
  open (E := E) KEY_MAX VAL_MAX CAP ARENA LEVELS TABLES db = (db', Ok rep) ->
  (0 <= c_tbl_start (cfg db))%Z -> (c_tbl_end (cfg db) <= U64_MAX)%Z -> clean (db', c).
Proof.
  unfold open. cbn [cfg close_handle]. intros H Hs He. destruct (check_regions _); [| done].
  destruct (Slots.layout _ _ _ _) as [sl |] eqn:El; [| done].
  destruct (ManifestLog.recover_from _ _ _ _ _) as [[m fresh] |]; [| done].
  destruct (layout_wf _ _ (SLOTS LEVELS TABLES) _ _ Hs ltac:(unfold SLOTS; lia) He El) as (Hw & Hr & _).
  destruct (rebuild_slots _ _ _) as [[sl1 newest] |] eqn:Er; [| done].
  destruct (rebuild_clean _ _ _ _ _ Hw Hr Er ltac:(done)) as (Hw1 & Hr1 & Hn).
  set (sl2 := match newest with Some (_, slot) => set_hint_after sl1 slot | None => sl1 end) in *.
  assert (Slots.wf sl2 /\ reserved sl2 = 0%Z) as Hsl.
  { unfold sl2. destruct newest as [[id s] |]; [| done]. split; [by apply set_hint_after_wf |].
    unfold set_hint_after. by destruct (0 <? _)%Z. }
  unfold open_wal in H. destruct (Wal.recover_from _ _ _ _ _ _ _ _) as [[w t] [state |]]; [| done].
  injection H as <- <-. destruct Hsl as [H1 H2]. split; [exact H1 | intros _; split; [reflexivity | exact H2]].
Qed.
End opened.

Lemma stale_restarts {D E : Type} `{Dev : !BlockDevice D E} (KEY_MAX VAL_MAX LEVELS TABLES BLOOM_BYTES : nat) (db : Db D) (c : Compaction) :
  opened db = true -> stale db c = true ->
  compact_step (E := E) KEY_MAX VAL_MAX LEVELS TABLES BLOOM_BYTES (db, c) =
  compact_step (E := E) KEY_MAX VAL_MAX LEVELS TABLES BLOOM_BYTES (db, comp_reset KEY_MAX c).
Proof.
  intros Ho Hs. unfold compact_step, st_bind, st_get, st_pure, ensure_open. rewrite Ho. cbn [mod_c st_mod].
  unfold st_bind. cbn. rewrite Hs. unfold stale at 1. cbn. done.
Qed.


(** ** Two flushes and a compaction *)

Module JobWitness.
Import LifeWitness.
#[local] Existing Instance LifeWitness.dev.

(** A second put, flushed: level 0 is full. *)
Definition jw_db : Db MemDisk.disk := (flush (E := Empty_set) 4 2 2 8 (run_db_call (E := Empty_set) 4 4 8 64 lf_db3 (DPut [98%Z] [2%Z])).1).1.
Definition jw_step : option ((Db MemDisk.disk * Compaction) * result Progress (Error Empty_set)) := compact_step (E := Empty_set) 4 4 2 2 8 (jw_db, comp_new 4 8).
Definition jw_after : Db MemDisk.disk * Compaction := default (jw_db, comp_new 4 8) (fst <$> jw_step).

Definition jw_get (key : bytes) : option (Db MemDisk.disk * result (option nat * bytes) (Error Empty_set)) :=
  get_at_with_time (E := Empty_set) 4 2 8 false (fst jw_after) (replicate 512 0%Z) key [0]%Z 5 0.

(** One table is left of two, and both keys read as before. *)
Example jw_merged :
  (length (tables (db_manifest jw_db)), length (tables (db_manifest (fst jw_after)))) = (2, 1)%nat /\
  snd <$> jw_get [97]%Z = Some (Ok (Some 1%nat, [1]%Z)) /\ snd <$> jw_get [98]%Z = Some (Ok (Some 1%nat, [2]%Z)).
Proof. vm_compute. done. Qed.

Lemma jw_in_step : in_step (jw_db, comp_new 4 8).
Proof.
  apply conj.
  - apply conj; [apply wfb_wf; vm_compute; reflexivity | intros _; apply conj; vm_compute; reflexivity].
  - intros Hm. discriminate Hm.
Qed.

Lemma jw_runs : compact_step (E := Empty_set) 4 4 2 2 8 (jw_db, comp_new 4 8) = Some (fst jw_after, snd jw_after, Ok Done).
Proof.
  fold jw_step. unfold jw_after. assert (match jw_step with Some (_, Ok Done) => True | _ => False end) as H by (vm_compute; exact I).
  destruct jw_step as [[[db c] [[|] | e]] |]; try destruct H. reflexivity.
Qed.

End JobWitness.
