(* ===== verification/Archive.v ===== *)
(** * Archiving and re-attaching tables: [src/db/archive.rs]

    Stamping a table's origin, planning and committing an archival with its review of
    tombstones, and ingesting a table from another device with the relocation of its
    block pointers ([relocate_table] of [src/sstable.rs]).  A probe's value buffer is
    written and never read, so each probe has one of its own.  [None] is a panic. *)

From stdpp Require Import base numbers list.
From Stdlib Require Import ZArith Lia.
From S2P Require Import Prelude Device Steps Crc Compress Version Slots Cache Memtable Wal Manifest ManifestLog SstPlan SstWriter SstReader SstRdel Db DbRead DbFlush CompactCursor Compact.

Record ArchivePlan := mkArchive { ap_level : nat; ap_table : TableRef }.

Record SealedTable := mkSealed {
  sl_id : u32;
  sl_block_count : u32;
  sl_first_key : KeyBound;
  sl_last_key : KeyBound;
  sl_max_seq : u64;
  sl_min_seq : u64;
  sl_entry_count : u32;
  sl_rdel_blocks : u32;
  sl_node_id : u32;
  sl_seal_wall : u64;
}.

Definition sealed (p : ArchivePlan) : SealedTable :=
  let t := ap_table p in
  mkSealed (t_id t) (block_count t) (Manifest.first_key t) (Manifest.last_key t) (t_max_seq t) (t_min_seq t) (entry_count t)
    (Manifest.rdel_blocks t) (node_id t) (seal_wall t).

Section archive.
  Context {D E : Type} `{Dev : !BlockDevice D E}.
  Context (KEY_MAX VAL_MAX LEVELS TABLES BLOOM_BYTES : nat).
  Implicit Types db : Db D.

Definition db_tables db (lv : nat) : option (list TableRef) := level LEVELS (db_manifest db) lv.

(** ** Stamping *)

Definition stamp_table db (table_id node : u32) (wall : u64) : Db D * result bool (Error E) :=
  match ensure_open db with
  | Err e => (db, Err e)
  | Ok _ =>
      match find_table (db_manifest db) table_id with
      | None => (db, Ok false)
      | Some cur =>
          if (node_id cur =? node)%Z && (seal_wall cur =? wall)%Z then (db, Ok true)
          else
            let wall_fill := (node_id cur =? node)%Z && (seal_wall cur =? 0)%Z in
            let legacy_claim := (node_id cur =? 0)%Z && (seal_wall cur =? 0)%Z in
            if negb (wall_fill || legacy_claim) then (db, Err (StampConflict table_id))
            else
              match stage_stamp (db_manifest db) (EMPTY_EDIT KEY_MAX) table_id node wall with
              | Err e => (db, Err e)
              | Ok (_, false) => (db, Ok false)
              | Ok (edit, true) =>
                  match commit_manifest KEY_MAX LEVELS TABLES db edit with
                  | (db, Err e) => (db, Err e)
                  | (db, Ok _) => (db, Ok true)
                  end
              end
      end
  end.

(** ** Planning *)

Definition archive_plan db (lv : nat) (table_id : u32) : option ArchivePlan :=
  tables ← level LEVELS (db_manifest db) lv;
  table ← List.find (fun t => (t_id t =? table_id)%Z) tables;
  Some (mkArchive lv table).

(** ** The tombstone review *)

(** [once(u64::MAX).chain(snapshots)] *)
Definition views db : list u64 := U64_MAX :: take (n_snapshots db) (snapshots db).

(** A step of the entry stream: it reads the device, not the cache. *)
Definition stream_step {A} (m : stm Cursor E A) (c : Cursor) : cached E (Cursor * A) := fun cell =>
  match m c with
  | None => None
  | Some (_, Err e) => Some (cell, Err e)
  | Some (c, Ok a) => Some (cell, Ok (c, a))
  end.

Definition cpanic {A} : cached E A := fun _ => None.

(** Is the key shown, with the table [exclude] left out? *)
Definition probe db (decomp key : bytes) (view : u64) (exclude : option u32) : cached E bool :=
  let! (hit, _) := read_point VAL_MAX LEVELS BLOOM_BYTES false db decomp key (replicate VAL_MAX 0%Z) view 0 exclude in
  cret (match hit with Some _ => true | None => false end).

(** Hidden now and shown without the candidate: refused. *)
Definition check_view db (decomp : bytes) (candidate : u32) (key : bytes) (view : u64) : cached E unit :=
  let! cur_hit := probe db decomp key view None in
  if cur_hit then cret tt
  else
    let! alt_hit := probe db decomp key view (Some candidate) in
    if alt_hit then pure (Err (WouldResurrect candidate)) else cret tt.

(** [for view in views], for a tombstone of sequence number [seq]. *)
Fixpoint check_views db (decomp : bytes) (candidate : u32) (key : bytes) (seq : u64) (vs : list u64) : cached E unit :=
  match vs with
  | [] => cret tt
  | view :: vs =>
      let! _ := if (view <? seq)%Z then cret tt else check_view db decomp candidate key view in
      check_views db decomp candidate key seq vs
  end.

(** [while let Some(..) = stream.head()]; a turn an entry. *)
Fixpoint check_points_loop (fuel : nat) db (decomp : bytes) (candidate : TableRef) (c : Cursor) : cached E unit :=
  match fuel with
  | O => cpanic
  | S fuel =>
      match stream_head c with
      | None => cret tt
      | Some (k, seq, tombstone) =>
          if (KEY_MAX <? length k)%nat then cpanic
          else
            let! _ := if tombstone then check_views db decomp (t_id candidate) k seq (views db) else cret tt in
            let! (c, more) := stream_step (stream_advance KEY_MAX VAL_MAX (device (db_wal db))) c in
            if more then check_points_loop fuel db decomp candidate c else cret tt
      end
  end.

Definition check_points_no_resurrection db (decomp : bytes) (candidate : TableRef) : cached E unit :=
  let! (c, _) := stream_step (init_cursor KEY_MAX VAL_MAX (device (db_wal db)) candidate) CURSOR_EMPTY in
  check_points_loop (S (Z.to_nat (block_count candidate) * BLOCK)) db decomp candidate c.

(** Another table's bounds meet the range. *)
Definition overlaps_other (candidate : TableRef) (start_b end_b : KeyBound) (t : TableRef) : bool :=
  negb (t_id t =? t_id candidate)%Z && ranges_overlap (Manifest.first_key t) (Manifest.last_key t) start_b end_b.

(** [for lvl in 0..LEVELS] *)
Fixpoint check_levels db (candidate : TableRef) (start_b end_b : KeyBound) (lvls : list nat) : result unit (Error E) :=
  match lvls with
  | [] => Ok tt
  | lvl :: lvls =>
      match level LEVELS (db_manifest db) lvl with
      | None => Err (BadLevel lvl)
      | Some ts =>
          if existsb (overlaps_other candidate start_b end_b) ts then Err (WouldResurrect (t_id candidate))
          else check_levels db candidate start_b end_b lvls
      end
  end.

(** [for entry in &self.table], the keys of the range that hold a value. *)
Fixpoint check_entries db (decomp : bytes) (candidate : u32) (start end_ : bytes) (view : u64) (es : list Entry) : cached E unit :=
  match es with
  | [] => cret tt
  | e :: es =>
      if bytes_ltb (Memtable.key e) start then check_entries db decomp candidate start end_ view es
      else if bytes_leb end_ (Memtable.key e) then cret tt
      else if range_del e || tombstone e then check_entries db decomp candidate start end_ view es
      else if (KEY_MAX <? length (Memtable.key e))%nat then cpanic
      else
        let! _ := check_view db decomp candidate (Memtable.key e) view in
        check_entries db decomp candidate start end_ view es
  end.

Fixpoint check_rdel_views db (decomp : bytes) (candidate : u32) (start end_ : bytes) (seq : u64) (vs : list u64) : cached E unit :=
  match vs with
  | [] => cret tt
  | view :: vs =>
      let! _ := if (view <? seq)%Z then cret tt else check_entries db decomp candidate start end_ view (iter (db_table db)) in
      check_rdel_views db decomp candidate start end_ seq vs
  end.

Definition check_rdel_no_resurrection db (decomp : bytes) (candidate : TableRef) (r : RdelEntry) : cached E unit :=
  match from_slice KEY_MAX (rd_start r), from_slice KEY_MAX (rd_end r) with
  | Some start_b, Some end_b =>
      let! _ := pure (check_levels db candidate start_b end_b (List.seq 0 LEVELS)) in
      check_rdel_views db decomp (t_id candidate) (rd_start r) (rd_end r) (rd_seq r) (views db)
  | _, _ => pure (Err (CorruptBlock (first_block candidate)))
  end.

(** [while i < count] *)
Fixpoint check_rdel_entries (n : nat) db (decomp : bytes) (candidate : TableRef) (id : u64) (raw : bytes) (off : nat) : cached E unit :=
  match n with
  | O => cret tt
  | S n =>
      match rdel_parse_at raw off with
      | None => pure (Err (CorruptBlock id))
      | Some (r, next) =>
          let! _ := check_rdel_no_resurrection db decomp candidate r in
          check_rdel_entries n db decomp candidate id raw next
      end
  end.

(** A block straight from the device. *)
Definition plain_read (d : D) (id : u64) : result bytes (Error E) := map_err Device (read_block d id).

(** [while b < candidate.rdel_blocks], [rest] blocks from the [b]-th on. *)
Fixpoint check_rdel_blocks (rest b : nat) db (decomp : bytes) (candidate : TableRef) (first : u64) : cached E unit :=
  match rest with
  | O => cret tt
  | S rest =>
      match u64_checked_add first (Z.of_nat b) with
      | None => pure (Err (CorruptBlock (first_block candidate)))
      | Some id =>
          let! raw := pure (plain_read (device (db_wal db)) id) in
          let! count := pure (rdel_block_count raw id) in
          let! _ := check_rdel_entries count db decomp candidate id raw 0 in
          check_rdel_blocks rest (b + 1) db decomp candidate first
      end
  end.

Definition check_rdels_no_resurrection db (decomp : bytes) (candidate : TableRef) : cached E unit :=
  match rdel_first candidate with
  | None => pure (Err (CorruptBlock (first_block candidate)))
  | Some first => check_rdel_blocks (Z.to_nat (Manifest.rdel_blocks candidate)) 0 db decomp candidate first
  end.

Definition check_no_resurrection db (decomp : bytes) (candidate : TableRef) : cached E unit :=
  let! _ := check_points_no_resurrection db decomp candidate in
  check_rdels_no_resurrection db decomp candidate.

(** ** Committing an archival *)

(** After the commit point: the cache, then the slot. *)
Definition archive_done db (table_id : u32) (slot : option u32) : Db D :=
  let db := set_cache db (invalidate_table (db_cache db) table_id) in
  match slot with
  | Some s => set_slots db (Slots.free (db_slots db) s) (job_active db) (job_inputs db)
  | None => db
  end.

(** From the review on. *)
Definition archive_reviewed db (lv : nat) (table_id : u32) (table : TableRef) : Db D * result bool (Error E) :=
  let slot := db_slot_of db table in
  let db :=
    if match slot with Some s => negb (Z.land (job_inputs db) (Z.shiftl 1 s) =? 0)%Z | None => false end
    then abort_job db else db in
  match stage_remove LEVELS (db_manifest db) (EMPTY_EDIT KEY_MAX) lv table_id with
  | Err e => (db, Err e)
  | Ok (_, false) => (db, Ok false)
  | Ok (edit, true) =>
      match commit_manifest KEY_MAX LEVELS TABLES db (edit_raise_seq_high edit (next_seq db)) with
      | (db, Err e) => (db, Err e)
      | (db, Ok _) => (archive_done db table_id slot, Ok true)
      end
  end.

Definition archive_commit db (decomp : bytes) (lv : nat) (table_id : u32) : option (Db D * result bool (Error E)) :=
  match ensure_open db with
  | Err e => Some (db, Err e)
  | Ok _ =>
      match archive_plan db lv table_id with
      | None => Some (db, Ok false)
      | Some plan =>
          match on_handle db (check_no_resurrection db decomp (ap_table plan)) with
          | None => None
          | Some (db, Err e) => Some (db, Err e)
          | Some (db, Ok _) => Some (archive_reviewed db lv table_id (ap_table plan))
          end
      end
  end.
End archive.

(** ** Relocating a copied table *)

Section relocate.
  Context {D E : Type} `{Dev : !BlockDevice D E}.

(** The block with its checksum. *)
Definition reseal (scratch : bytes) : bytes := splice body_end (to_le 4 (crc32 (take body_end scratch))) scratch.

(** [while off < payload_len]; an entry is at least 19 bytes. *)
Fixpoint relocate_index_entries (fuel : nat) (scratch : bytes) (index_id : u64) (old_base data_blocks dst_base : u64) (off : nat)
  : option (result bytes (Error E)) :=
  match fuel with
  | O => None
  | S fuel =>
      if (off <? body_end)%nat then
        match index_entry_parse (take body_end scratch) off with
        | None => Some (if all_zero (sub off (body_end - off) scratch) then Ok scratch else Err (CorruptBlock index_id))
        | Some (key, block_id, next) =>
            match u64_checked_sub block_id old_base with
            | None => Some (Err (CorruptBlock index_id))
            | Some tblock =>
                if (data_blocks <=? tblock)%Z then Some (Err (CorruptBlock index_id))
                else
                  match u64_checked_add dst_base tblock with
                  | None => Some (Err (CorruptBlock index_id))
                  | Some new_id =>
                      relocate_index_entries fuel (splice (off + 2 + length key) (to_le 8 new_id) scratch) index_id old_base data_blocks dst_base next
                  end
            end
        end
      else Some (Ok scratch)
  end.

(** A block read and checked. *)
Definition checked_read (d : D) (id : u64) : result bytes (Error E) :=
  let? b := plain_read d id in
  let? _ := check_block_crc b id in
  Ok b.

Definition write_at (d : D) (id : u64) (b : bytes) : D * result unit (Error E) :=
  match write_block d id b with (d, r) => (d, map_err Device r) end.

(** The original base, from the footer. *)
Definition footer_base (footer_id data_blocks rdel : u64) (b : bytes) : result u64 (Error E) :=
  if negb (from_le (sub 0 8 b) =? SSTABLE_MAGIC)%Z then Err (CorruptBlock footer_id)
  else
    let old_index := from_le (sub 8 8 b) in
    let old_bloom := from_le (sub 16 8 b) in
    match u64_checked_add old_bloom 1 with
    | None => Err (CorruptBlock footer_id)
    | Some next =>
        if negb (old_index =? next)%Z then Err (CorruptBlock footer_id)
        else
          match u64_checked_sub old_bloom data_blocks ≫= fun b => u64_checked_sub b rdel with
          | None => Err (CorruptBlock footer_id)
          | Some old_base => Ok old_base
          end
    end.

(** The index and the footer of the table at [dst_base]: its sections, then bloom,
    index and footer. *)
Definition relocate_at (d : D) (dst_base data_blocks rdel index_id footer_id : u64) : option (D * result unit (Error E)) :=
  match (let? b := checked_read d footer_id in footer_base footer_id data_blocks rdel b) with
  | Err e => Some (d, Err e)
  | Ok old_base =>
      match checked_read d index_id with
      | Err e => Some (d, Err e)
      | Ok b =>
          match relocate_index_entries (S body_end) b index_id old_base data_blocks dst_base 0 with
          | None => None
          | Some (Err e) => Some (d, Err e)
          | Some (Ok b) =>
              match write_at d index_id (reseal b) with
              | (d, Err e) => Some (d, Err e)
              | (d, Ok _) =>
                  match checked_read d footer_id with
                  | Err e => Some (d, Err e)
                  | Ok b =>
                      match u64_checked_add dst_base rdel ≫= fun x => u64_checked_add x data_blocks with
                      | None => Some (d, Err (CorruptBlock footer_id))
                      | Some dst_bloom =>
                          match u64_checked_add dst_bloom 1 with
                          | None => Some (d, Err (CorruptBlock footer_id))
                          | Some dst_index =>
                              Some (write_at d footer_id (reseal (splice 16 (to_le 8 dst_bloom) (splice 8 (to_le 8 dst_index) b))))
                          end
                      end
                  end
              end
          end
      end
  end.

Definition relocate_table (d : D) (dst_base : u64) (count rdel_blocks : u32) : option (D * result unit (Error E)) :=
  match u64_checked_sub count rdel_blocks ≫= fun n => u64_checked_sub n 3 with
  | None => Some (d, Err (CorruptBlock dst_base))
  | Some data_blocks =>
      match u64_checked_add dst_base rdel_blocks ≫= fun b => u64_checked_add b data_blocks ≫= fun b => u64_checked_add b 1 with
      | None => Some (d, Err (CorruptBlock dst_base))
      | Some index_id =>
          match u64_checked_add index_id 1 with
          | None => Some (d, Err (CorruptBlock dst_base))
          | Some footer_id => relocate_at d dst_base data_blocks rdel_blocks index_id footer_id
          end
      end
  end.
End relocate.

(** ** Ingesting *)

Section ingest.
  Context {D E : Type} `{Dev : !BlockDevice D E}.
  (** The source device; its errors convert. *)
  Context {R F : Type} `{Rem : !BlockDevice R F} (into : F -> E).
  Context (KEY_MAX LEVELS TABLES BLOOM_BYTES : nat).
  Implicit Types db : Db D.

(** [for k in 0..count], [n] blocks from the [k]-th on. *)
Fixpoint copy_verified_blocks (n k : nat) (remote : R) (src_base dst_base : u64) (d : D) : D * result unit (Error E) :=
  match n with
  | O => (d, Ok tt)
  | S n =>
      match u64_checked_add src_base (Z.of_nat k) with
      | None => (d, Err CorruptManifest)
      | Some src =>
          match read_block (BlockDevice := Rem) remote src with
          | Err e => (d, Err (Device (into e)))
          | Ok b =>
              match check_block_crc (E := E) b src with
              | Err e => (d, Err e)
              | Ok _ =>
                  match u64_checked_add dst_base (Z.of_nat k) with
                  | None => (d, Err CorruptManifest)
                  | Some dst =>
                      match write_at d dst b with
                      | (d, Err e) => (d, Err e)
                      | (d, Ok _) => copy_verified_blocks n (k + 1) remote src_base dst_base d
                      end
                  end
              end
          end
      end
  end.

(** The attached table is the one described. *)
Definition same_sealed (t : TableRef) (s : SealedTable) : bool :=
  (block_count t =? sl_block_count s)%Z && bool_decide (Manifest.first_key t = sl_first_key s) && bool_decide (Manifest.last_key t = sl_last_key s) &&
  (t_max_seq t =? sl_max_seq s)%Z && (t_min_seq t =? sl_min_seq s)%Z && (entry_count t =? sl_entry_count s)%Z &&
  (Manifest.rdel_blocks t =? sl_rdel_blocks s)%Z && (node_id t =? sl_node_id s)%Z && (seal_wall t =? sl_seal_wall s)%Z.

(** [TableReader::open], with no cache. *)
Definition open_plain (d : D) (footer : u64) : result TableReader (Error E) :=
  let? b := checked_read d footer in
  parse_footer 0 footer b.

(** The copy's footer against the descriptor. *)
Definition validate_copy (d : D) (s : SealedTable) (base blocks : u64) : result unit (Error E) :=
  match u64_checked_add base blocks ≫= fun e => u64_checked_sub e 1 with
  | None => Err CorruptManifest
  | Some footer =>
      let? r := open_plain d footer in
      if negb (tr_entry_count r =? sl_entry_count s)%Z || negb (tr_rdel_blocks r =? sl_rdel_blocks s)%Z || negb (tr_min_seq r =? sl_min_seq s)%Z
      then Err (CorruptBlock footer) else Ok tt
  end.

Definition sealed_ref (s : SealedTable) (base : u64) : TableRef :=
  mkRef (sl_id s) base (sl_block_count s) (sl_first_key s) (sl_last_key s) (sl_max_seq s) (sl_min_seq s) (sl_entry_count s) (sl_rdel_blocks s)
    (sl_node_id s) (sl_seal_wall s).

(** The graft into level 0. *)
Definition ingest_commit db (s : SealedTable) (slot : u32) (base : u64) : Db D * result bool (Error E) :=
  let db := abort_job db in
  let edit := edit_advance_next_table_id (EMPTY_EDIT KEY_MAX) (Z.min (sl_id s + 1) U32_MAX) in
  let edit := edit_raise_seq_high edit (Z.max (next_seq db) (sl_max_seq s)) in
  match edit_add edit 0 (sealed_ref s base) with
  | Err e => (db, Err e)
  | Ok edit =>
      match commit_manifest KEY_MAX LEVELS TABLES db edit with
      | (db, Err e) => (db, Err e)
      | (db, Ok _) =>
          let db := set_next_seq db (Z.max (next_seq db) (sl_max_seq s)) in
          (set_slots db (Slots.claim (db_slots db) slot) (job_active db) (job_inputs db), Ok true)
      end
  end.

(** From the free slot on: the copy, its relocation and validation. *)
Definition ingest_into db (s : SealedTable) (remote : R) (src_base : u64) (slot : u32) : option (Db D * result bool (Error E)) :=
  let base := slot_base (db_slots db) slot in
  match copy_verified_blocks (Z.to_nat (sl_block_count s)) 0 remote src_base base (device (db_wal db)) with
  | (d, Err e) => Some (set_device db d, Err e)
  | (d, Ok _) =>
      match relocate_table d base (sl_block_count s) (sl_rdel_blocks s) with
      | None => None
      | Some (d, Err e) => Some (set_device db d, Err e)
      | Some (d, Ok _) =>
          match validate_copy d s base (sl_block_count s) with
          | Err e => Some (set_device db d, Err e)
          | Ok _ => Some (ingest_commit (set_device db d) s slot base)
          end
      end
  end.

Definition ingest_table db (s : SealedTable) (remote : R) (src_base : u64) : option (Db D * result bool (Error E)) :=
  match ensure_open db with
  | Err e => Some (db, Err e)
  | Ok _ =>
      if negb (BLOCK (BlockDevice := Rem) =? BLOCK (BlockDevice := Dev))%nat then Some (db, Err BadBufferLen)
      else
        match find_table (db_manifest db) (sl_id s) with
        | Some t => Some (db, if same_sealed t s then Ok false else Err (IngestConflict (sl_id s)))
        | None =>
            if l0_is_full TABLES (db_manifest db) then Some (db, Err (no_room LEVELS TABLES db))
            else
              match free_slot_for LEVELS TABLES db (sl_block_count s) with
              | Err e => Some (db, Err e)
              | Ok slot => ingest_into db s remote src_base slot
              end
        end
  end.
End ingest.

(** ** The self-check: [src/db/invariants.rs] *)

(** The violations, one per message. *)
Inductive Violation :=
  | NotInSlot | SharedSlot | SlotNotUsed | NoRoomForTail | SeqsSwapped | SeqAboveCounter | LevelOverlap | UsedWithoutTable
  | TooManyReserved | FloorAboveCounter | ManifestOutgrown.

Section invariants.
  Context {D E : Type} `{Dev : !BlockDevice D E}.
  Context (KEY_MAX LEVELS TABLES : nat).
  Implicit Types db : Db D.

(** The tables of level [li]; [seen] is the mask of slots met. *)
Fixpoint check_level_tables db (li : nat) (seen : u64) (ts : list TableRef) : result u64 Violation :=
  match ts with
  | [] => Ok seen
  | t :: ts =>
      match db_slot_of db t with
      | None => Err NotInSlot
      | Some slot =>
          if negb (Z.land seen (Z.shiftl 1 slot) =? 0)%Z then Err SharedSlot
          else if negb (Slots.is_used (db_slots db) slot) then Err SlotNotUsed
          else
            match data_blocks t with
            | None => Err NoRoomForTail
            | Some _ =>
                if (0 <? entry_count t)%Z && (t_max_seq t <? t_min_seq t)%Z then Err SeqsSwapped
                else if (next_seq db <? t_max_seq t)%Z then Err SeqAboveCounter
                else if (1 <=? li)%nat &&
                        existsb (fun u => ranges_overlap (Manifest.first_key t) (Manifest.last_key t) (Manifest.first_key u) (Manifest.last_key u)) ts
                then Err LevelOverlap
                else check_level_tables db li (Z.lor seen (Z.shiftl 1 slot)) ts
            end
      end
  end.

Fixpoint check_all_levels db (seen : u64) (lvls : list nat) : result u64 Violation :=
  match lvls with
  | [] => Ok seen
  | li :: lvls =>
      let? seen := check_level_tables db li seen (default [] (level LEVELS (db_manifest db) li)) in
      check_all_levels db seen lvls
  end.

Definition check_invariants db : result unit Violation :=
  let? seen := check_all_levels db 0 (List.seq 0 LEVELS) in
  if negb (used_slots (db_slots db) =? count_ones seen)%Z then Err UsedWithoutTable
  else if ((if job_active db then 1 else 0) <? reserved_slots (db_slots db))%Z then Err TooManyReserved
  else if (next_seq db <? flushed_seq (db_manifest db))%Z || (next_seq db <? seq_high (db_manifest db))%Z then Err FloorAboveCounter
  else if (max_blocks LEVELS TABLES KEY_MAX BLOCK <? Z.of_nat (encoded_blocks LEVELS KEY_MAX BLOCK (db_manifest db)))%Z then Err ManifestOutgrown
  else Ok tt.
End invariants.
