(* ===== verification/ArchiveReview.v ===== *)
(** * The review before an archival: [src/db/archive.rs]

    What the probes of the review establish: a key that reads as deleted reads so without
    the candidate table too, live and at every snapshot. *)

From stdpp Require Import base numbers list sets sorting.
From Stdlib Require Import ZArith Lia Sorting.Sorted.
From S2P Require Import Prelude Device Steps Compress Version Slots Cache Memtable Wal Manifest ManifestPool SstPlan SstWriter SstReader SstBlock SstImage SstIndex SstRdel SstTable SstBuild Db DbRead DbFlush Scan ScanPark ScanMerge ScanSeek ScanRev ScanRevBlock ScanRevPark ScanRevMerge CompactCursor Compact CompactCover Archive.

(** ** Reads that find nothing *)

(** A read of [P] and [C] finds nothing, whatever the buffer. *)
Definition finds_none (P : Hit -> Prop) (C : Version -> Prop) : Prop := reads (E := Empty_set) P C 0 [] (Ok (None, [])).

Lemma finds_none_spec {E} P C buf : reads (E := E) P C 0 buf (Ok (None, buf)) <-> finds_none P C.
Proof.
  assert (forall E1 E2 b1 b2, reads (E := E1) P C 0 b1 (Ok (None, b1)) -> reads (E := E2) P C 0 b2 (Ok (None, b2))) as Hx; [| split; apply Hx].
  intros E1 E2 b1 b2 [[Hn _] | (h & Hh & Hbest & Hr)]; [by left | right]. exists h. split_and!; auto.
  destruct (h_body h) as [[v ex] |]; [| done]. destruct Hr as [[Hc _] | (_ & _ & Hr)]; [by left |]. by destruct (_ <? _)%nat.
Qed.

(** Versions that tie have the same body. *)
Definition agreeing (P : Hit -> Prop) : Prop :=
  forall h h', P h -> P h' -> version_gt (h_ver h) (h_ver h') = false -> version_gt (h_ver h') (h_ver h) = false -> h_body h = h_body h'.

(** Then what a read finds does not depend on which of them it meets. *)
Lemma finds_none_all {E} P C buf (r : result (option nat * bytes) (Error E)) :
  agreeing P -> orderly (fun v => (exists h, P h /\ h_ver h = v) \/ C v) -> finds_none P C -> reads P C 0 buf r -> r = Ok (None, buf).
Proof.
  intros Ha Ho [[Hn _] | (h & Hh & Hbest & Hb)] [[_ ->] | (h' & Hh' & Hbest' & Hb')]; auto; [by destruct (Hn h') |].
  rewrite <- (Ha h h' Hh Hh' (Hbest' h Hh) (Hbest h' Hh')) in Hb'. destruct (h_body h) as [[v ex] |]; [| done].
  destruct Hb as [[Hhid _] | (_ & _ & Hr)]; [| by destruct (_ <? _)%nat]. destruct Hb' as [[_ ->] | (Hc & Hx & _)]; [done |].
  destruct Hhid as [(c & Hc' & Hg) | ?]; [| lia]. destruct (proj2 Ho c (h_ver h') (h_ver h)) as [G | G]; eauto.
  - by rewrite (Hc c Hc') in G.
  - by rewrite (Hbest h' Hh') in G.
Qed.

Section review.
  Context {D E : Type} `{Laws : DeviceLaws D E}.
  Context (KEY_MAX VAL_MAX LEVELS TABLES CAP ARENA BLOOM_BYTES : nat).
  Context (HB : (49 <= BLOCK)%nat) (Hbloom : (BLOOM_BYTES + CRC_LEN <= BLOCK)%nat).
  Context (db : Db D) (L : u32 -> u64 -> Prop) (contents : TableRef -> Contents).

  Abbreviation dev := (device (db_wal db)).
  Abbreviation mem := (iter (db_table db)).
  Abbreviation all := (tables (db_manifest db)).
  Abbreviation pts ts k v := (point (own_node db) mem contents ts k v).
  Abbreviation cvs ts k v := (cover (own_node db) mem contents ts k v).

(** What the review asks beyond a scan: versions that tie agree, and expiries are not
    negative. *)
Record archivable : Prop := {
  av_rev : rev_scannable KEY_MAX VAL_MAX LEVELS TABLES CAP ARENA BLOOM_BYTES db L contents;
  av_agree : forall k v, agreeing (db_point db contents k v);
  av_expire : forall k v h w ex, db_point db contents k v h -> h_body h = Some (w, ex) -> (0 <= ex)%Z;
}.

  Context (Hav : archivable).
  Context (decomp : bytes) (Hd : length decomp = BLOCK).
  Context (t : TableRef) (Ht : t ∈ all).

  Abbreviation Hsb := (rv_scan _ _ _ _ _ _ _ _ _ _ (av_rev Hav)).
  Abbreviation Hrd := (sb_read _ _ _ _ _ _ _ _ _ _ Hsb).

Definition others : list TableRef := List.filter (included (Some (t_id t))) all.

(** [k] reads as deleted at [v] among the tables [ts]. *)
Definition gone (ts : list TableRef) (k : bytes) (v : u64) : Prop := finds_none (pts ts k v) (cvs ts k v).

(** Leaving the candidate out shows nothing new of [k] at [v]. *)
Definition safe (k : bytes) (v : u64) : Prop := gone all k v -> gone others k v.

Lemma elem_of_others t' : t' ∈ others <-> t' ∈ all /\ t_id t' <> t_id t.
Proof. unfold others. rewrite list_elem_of_In, filter_In, <- list_elem_of_In. cbn. by rewrite negb_true_iff, Z.eqb_neq. Qed.

Lemma others_point k v h : pts others k v h -> pts all k v h.
Proof. apply point_mono. intros t'. rewrite elem_of_others. tauto. Qed.

Lemma others_cover k v c : cvs others k v c -> cvs all k v c.
Proof. apply cover_mono. intros t'. rewrite elem_of_others. tauto. Qed.

(** The hits and covers of the candidate, and the rest. *)
Lemma point_cases k v h : pts all k v h -> pts others k v h \/ exists e, covers t k = true /\ e ∈ (contents t).1 /\ se_key e = k /\ (se_seq e <= v)%Z /\
  h_body h = sst_body e.
Proof.
  intros [e He Hv | t' e Ht' Hc He Hk Hq]; [left; by constructor |]. destruct (decide (t_id t' = t_id t)) as [Eq | Hne].
  - right. assert (t' = t) as ->; [| by exists e]. pose proof (find_unique (db_manifest db) t (rv_ids _ _ _ _ _ _ _ _ _ _ (av_rev Hav)) Ht) as H1.
    pose proof (find_unique (db_manifest db) t' (rv_ids _ _ _ _ _ _ _ _ _ _ (av_rev Hav)) Ht') as H2. congruence.
  - left. constructor; auto. by apply elem_of_others.
Qed.

Lemma cover_cases k v c : cvs all k v c -> cvs others k v c \/ exists r, r ∈ (contents t).2 /\ covers_key k v r.
Proof.
  intros [e He Hv | t' r Ht' Hc Hr Hk]; [left; by constructor |]. destruct (decide (t_id t' = t_id t)) as [Eq | Hne].
  - right. assert (t' = t) as ->; [| by exists r]. pose proof (find_unique (db_manifest db) t (rv_ids _ _ _ _ _ _ _ _ _ _ (av_rev Hav)) Ht) as H1.
    pose proof (find_unique (db_manifest db) t' (rv_ids _ _ _ _ _ _ _ _ _ _ (av_rev Hav)) Ht') as H2. congruence.
  - left. constructor; auto. by apply elem_of_others.
Qed.

(** ** One probe *)

Definition tables_of (exclude : option u32) : list TableRef := List.filter (included exclude) all.

Lemma hit_fits ts k v h w ex : (forall t', t' ∈ ts -> t' ∈ all) -> pts ts k v h -> h_body h = Some (w, ex) -> (length w <= VAL_MAX)%nat.
Proof.
  intros Hts [e He (<- & Hr & _) | t' e Ht' _ He _ _]; cbn.
  - pose proof (rb_vals _ _ _ _ _ _ _ _ _ _ Hrd) as Hv. unfold mem_ok in Hv. rewrite Forall_forall in Hv.
    unfold entry_body. destruct (tombstone e); [done |]. intros [= <- _]. by apply Hv.
  - pose proof (tk_vals _ _ _ _ _ _ (rb_tables _ _ _ _ _ _ _ _ _ _ Hrd t' (Hts t' Ht'))) as Hv. rewrite Forall_forall in Hv.
    unfold sst_body. destruct (se_tombstone e); [done |]. intros [= <- _]. by apply Hv.
Qed.

Lemma tables_of_all exclude t' : t' ∈ tables_of exclude -> t' ∈ all.
Proof. intros [Ht' _]%list_elem_of_In%filter_In. by apply list_elem_of_In. Qed.

Lemma probe_step k v exclude :
  exists b, yields dev L (probe VAL_MAX LEVELS BLOOM_BYTES db decomp k v exclude) (Ok b) /\ (b = false <-> gone (tables_of exclude) k v).
Proof.
  destruct (read_point_step VAL_MAX KEY_MAX LEVELS TABLES CAP ARENA BLOOM_BYTES HB Hbloom db L contents decomp k (replicate VAL_MAX 0%Z) v 0 exclude
    Hrd Hd (sb_order _ _ _ _ _ _ _ _ _ _ Hsb k v)) as (r & Hy & Hr). cbv zeta in Hr. fold (tables_of exclude) in Hr.
  assert (forall ob buf, r = Ok (ob, buf) -> yields dev L (probe VAL_MAX LEVELS BLOOM_BYTES db decomp k v exclude)
    (Ok match ob with Some _ => true | None => false end)) as Hrun.
  { intros ob buf ->. eapply yields_bind_ok; [exact Hy |]. apply yields_ret. }
  assert (gone (tables_of exclude) k v -> r = Ok (None, replicate VAL_MAX 0%Z)) as Hgone.
  { intros Hg. apply (finds_none_all _ _ _ _) with (4 := Hr); [| | exact Hg].
    - intros h h' Hh Hh'. apply (av_agree Hav k v); (eapply point_mono; [apply tables_of_all | done]).
    - eapply orderly_sub; [apply (sb_order _ _ _ _ _ _ _ _ _ _ Hsb k v) |]. intros x [(h & Hh & Eh) | Hc]; [left | right].
      + exists h. split; [| done]. eapply point_mono; [apply tables_of_all | exact Hh].
      + eapply cover_mono; [apply tables_of_all | exact Hc]. }
  destruct r as [[[n |] buf] | err].
  - exists true. split; [exact (Hrun _ _ eq_refl) |]. split; [done |]. intros Hg%Hgone. done.
  - exists false. split; [exact (Hrun _ _ eq_refl) |]. split; [| done]. intros _. destruct Hr as [[Hn [= ->]] | (h & Hh & Hbest & Hb)]; [by left |].
    assert (buf = replicate VAL_MAX 0%Z) as ->; [| apply (finds_none_spec (E := E) _ _ (replicate VAL_MAX 0%Z)); right; eauto].
    destruct (h_body h) as [[w ex] |]; [| by injection Hb]. destruct Hb as [[_ [= ->]] | (_ & _ & Hb)]; [done |]. by destruct (_ <? _)%nat.
  - exfalso. destruct Hr as [[_ Hr] | (h & Hh & _ & Hb)]; [done |]. destruct (h_body h) as [[w ex] |] eqn:Eh; [| done].
    destruct Hb as [[_ ?] | (_ & _ & Hb)]; [done |]. pose proof (hit_fits _ k v h w ex (tables_of_all exclude) Hh Eh).
    rewrite length_replicate, (proj2 (Nat.ltb_ge _ _)) in Hb by lia. done.
Qed.

(** ** Steps of the review *)

(** The reasons to refuse: a value would come back, or a tombstone is not the table's. *)
Definition refusal (e : Error E) : Prop := e = WouldResurrect (t_id t) \/ e = CorruptBlock (first_block t).

(** [m] returns, and what it lets pass has [Q]. *)
Definition reviews (m : cached E unit) (Q : Prop) : Prop :=
  exists r, yields dev L m r /\ match r with Ok _ => Q | Err e => refusal e end.

Lemma reviews_ret (Q : Prop) : Q -> reviews (cret tt) Q.
Proof. intros HQ. exists (Ok tt). split; [apply yields_ret | done]. Qed.

Lemma reviews_seq m f (Q R : Prop) : reviews m Q -> (Q -> reviews (f tt) R) -> reviews (cbind m f) R.
Proof.
  intros ([[] | e] & Hy & Hr) Hf.
  - destruct (Hf Hr) as (r & Hy' & Hr'). exists r. split; [by eapply yields_bind_ok | done].
  - exists (Err e). split; [| done]. intros c Hc. destruct (Hy c Hc) as (c' & Em & ? & ?). exists c'. unfold cbind. by rewrite Em.
Qed.

Lemma reviews_bind {A} (m : cached E A) f a Q : yields dev L m (Ok a) -> reviews (f a) Q -> reviews (cbind m f) Q.
Proof. intros Hy (r & Hy' & Hr). exists r. split; [by eapply yields_bind_ok | done]. Qed.

Lemma reviews_weaken m (Q R : Prop) : (Q -> R) -> reviews m Q -> reviews m R.
Proof. intros HQ (r & Hy & Hr). exists r. split; [done |]. destruct r; auto. Qed.

Lemma check_view_step k v : reviews (check_view VAL_MAX LEVELS BLOOM_BYTES db decomp (t_id t) k v) (safe k v).
Proof.
  destruct (probe_step k v None) as (b & Hy & Hb). unfold tables_of in Hb. rewrite filter_included_none in Hb. eapply reviews_bind; [exact Hy |].
  destruct b. { apply reviews_ret. intros Hg%Hb. done. }
  destruct (probe_step k v (Some (t_id t))) as (b' & Hy' & Hb'). change (tables_of (Some (t_id t))) with others in Hb'. eapply reviews_bind; [exact Hy' |].
  destruct b'; [exists (Err (WouldResurrect (t_id t))); split; [apply yields_pure | by left] |]. apply reviews_ret. intros _. by apply Hb'.
Qed.

Lemma check_views_step k seq : forall vs, reviews (check_views VAL_MAX LEVELS BLOOM_BYTES db decomp (t_id t) k seq vs)
  (forall v, v ∈ vs -> (seq <= v)%Z -> safe k v).
Proof.
  induction vs as [|v vs IH]; cbn [check_views]; [apply reviews_ret; by intros ? ?%not_elem_of_nil |].
  eapply (reviews_seq _ _ ((seq <= v)%Z -> safe k v)).
  - destruct (Z.ltb_spec v seq); [apply reviews_ret; lia |]. eapply reviews_weaken; [| apply check_view_step]. done.
  - intros Hv. eapply reviews_weaken; [| exact IH]. intros Hvs v' [-> | Hin]%elem_of_cons; auto.
Qed.

(** ** The point tombstones *)

Lemma yields_stream {A} (m : stm Cursor E A) c c' a : st_runs m c c' (Ok a) -> yields dev L (stream_step m c) (Ok (c', a)).
Proof. intros Hm cell Hc. exists cell. unfold stream_step. rewrite Hm. split_and!; [done | done |]. intros ? ? ? ?. by left. Qed.

(** Every tombstone of [es] is safe to lose. *)
Definition tombs_safe (es : list SstEntry) : Prop :=
  forall e v, e ∈ es -> se_tombstone e = true -> v ∈ views db -> (se_seq e <= v)%Z -> safe (se_key e) v.

Section points.
  Context (blks : list (list SstEntry)) (rbs : list (list RdelEntry)) (kk : u8) (ec ms : u64).
  Context (Hon : table_on BLOOM_BYTES dev (first_block t) blks rbs kk ec ms).
  Context (Hfit : Forall (fun e => (length (se_key e) <= KEY_MAX /\ length (se_stored e) <= VAL_MAX)%nat) (concat blks)).

Lemma stands_entry c e after : stands t blks c e after -> e ∈ concat blks /\ cu_live c = true /\ cu_key c = se_key e /\ cu_seq c = se_seq e /\ cu_tombstone c = se_tombstone e.
Proof.
  intros (p & es & pre & suf & Hib & _ & Hl & He & _). injection He as -> _ -> -> _. split_and!; auto.
  apply list_elem_of_In, in_concat. exists es. split; apply list_elem_of_In; [eapply list_elem_of_lookup_2, Hib |].
  rewrite (ib_split _ _ _ _ _ _ _ Hib). set_solver.
Qed.

Lemma points_loop_step : forall fuel c e after, stands t blks c e after -> (length after < fuel)%nat ->
  reviews (check_points_loop KEY_MAX VAL_MAX LEVELS BLOOM_BYTES fuel db decomp t c) (tombs_safe (e :: after)).
Proof.
  induction fuel as [|fuel IH]; intros c e after Hst Hf; [lia |]. cbn [check_points_loop].
  destruct (stands_entry c e after Hst) as (Hin & Hl & Hk & Hq & Htb). unfold stream_head. rewrite Hl, Hk, Hq, Htb.
  pose proof Hfit as Hfit'. rewrite Forall_forall in Hfit'. destruct (Hfit' e Hin) as [Hkl _]. rewrite (proj2 (Nat.ltb_ge _ _)) by lia.
  eapply (reviews_seq _ _ (tombs_safe [e])).
  { destruct (se_tombstone e) eqn:Et; [| apply reviews_ret; by intros e' v ->%list_elem_of_singleton ?; congruence].
    eapply reviews_weaken; [| apply check_views_step]. intros Hvs e' v ->%list_elem_of_singleton _. apply Hvs. }
  intros He. destruct (cursor_advance HB KEY_MAX VAL_MAX BLOOM_BYTES dev t blks rbs kk ec ms Hon Hfit c e after Hst) as (c' & Hadv).
  destruct after as [|e' after]; destruct Hadv as [Hrun Hres]; (eapply reviews_bind; [apply yields_stream, Hrun |]).
  - by apply reviews_ret.
  - eapply reviews_weaken; [| apply (IH c' e' after Hres); cbn in Hf; lia].
    intros Hrest x v [-> | Hx]%elem_of_cons; [apply He; by apply list_elem_of_singleton | by apply Hrest].
Qed.
End points.
Lemma pass_keeps {A} (f : A -> bool) l x : x ∈ l -> f x = false -> x ∈ pass f l.
Proof.
  induction l as [|a l IH]; intros Hx Hf; [by apply not_elem_of_nil in Hx |]. cbn [pass]. destruct (f a) eqn:Ea; [| done].
  apply elem_of_cons in Hx as [-> | Hx]; [congruence | auto].
Qed.

(** The review of the point tombstones a read may meet. *)
Lemma check_points_step : reviews (check_points_no_resurrection KEY_MAX VAL_MAX LEVELS BLOOM_BYTES db decomp t)
  (forall e v, e ∈ (contents t).1 -> bytes_le (as_slice (Manifest.first_key t)) (se_key e) -> se_tombstone e = true ->
    v ∈ views db -> (se_seq e <= v)%Z -> safe (se_key e) v).
Proof.
  pose proof (rb_tables _ _ _ _ _ _ _ _ _ _ Hrd t Ht) as Hok.
  destruct (tk_on _ _ _ _ _ _ Hok) as (blks & rbs & kk & ec & ms & Eb & Er & Hon & Ecount & Erdel).
  assert (Forall (fun e => (length (se_key e) <= KEY_MAX /\ length (se_stored e) <= VAL_MAX)%nat) (concat blks)) as Hfit.
  { apply Forall_forall. intros e He. rewrite Eb in He. split; [by apply (sb_span _ _ _ _ _ _ _ _ _ _ Hsb t e Ht He) |].
    pose proof (tk_vals _ _ _ _ _ _ Hok) as Hv. rewrite Forall_forall in Hv. specialize (Hv e He). unfold se_stored. destruct (se_tombstone e); [cbn; lia | done]. }
  assert (key_ordered (concat blks)) as Hko by (rewrite Eb; apply version_key_ordered, Hok).
  destruct (init_step HB KEY_MAX VAL_MAX BLOOM_BYTES dev t blks rbs kk ec ms Hon Hfit Hbloom Ecount Erdel (tk_end _ _ _ _ _ _ Hok) CURSOR_EMPTY Hko)
    as (c & Hrun & Hres). unfold check_points_no_resurrection. eapply reviews_bind; [apply yields_stream, Hrun |]. cbn beta iota.
  set (below := fun x => bytes_ltb (se_key x) (as_slice (Manifest.first_key t))) in *.
  assert (forall e, e ∈ (contents t).1 -> bytes_le (as_slice (Manifest.first_key t)) (se_key e) -> e ∈ pass below (concat blks)) as Hpass.
  { intros e He Hle. rewrite Eb. apply pass_keeps; [done |]. by apply bytes_ltb_ge. }
  destruct (pass below (concat blks)) as [|e after] eqn:Ep.
  - cbn [check_points_loop]. unfold stream_head. rewrite Hres. apply reviews_ret. intros e v He Hle. by apply Hpass, not_elem_of_nil in He.
  - eapply reviews_weaken; [| apply (points_loop_step blks rbs kk ec ms Hon Hfit _ c e after Hres)].
    + intros Hsafe x v Hx Hle. apply Hsafe. by apply Hpass.
    + pose proof (on_entries_bound BLOOM_BYTES dev _ _ _ _ _ _ Hon) as Hbnd. pose proof (length_pass below (concat blks)) as Hl.
      rewrite Ep in Hl. cbn [length] in Hl.
      rewrite Ecount, Nat2Z.id. nia.
Qed.

(** ** The range tombstones *)

Lemma check_levels_step start_b end_b : forall lvls, Forall (fun l => (l < LEVELS)%nat) lvls ->
  match check_levels (E := E) LEVELS db t start_b end_b lvls with
  | Ok _ => forall l t', l ∈ lvls -> t' ∈ level_refs (db_manifest db) l -> t_id t' <> t_id t ->
      ranges_overlap (Manifest.first_key t') (Manifest.last_key t') start_b end_b = false
  | Err e => refusal e
  end.
Proof.
  induction 1 as [|l lvls Hl Hls IH]; cbn [check_levels]; [by intros ? ? ?%not_elem_of_nil |].
  unfold level. rewrite (proj2 (Nat.leb_gt _ _)) by lia. destruct (existsb _ _) eqn:Ex; [by left |].
  destruct (check_levels _ _ _ _ _ _) as [[] | e]; [| done]. intros l' t' [-> | Hl']%elem_of_cons Ht' Hne; [| by apply (IH l')].
  rewrite <- not_true_iff_false in Ex. apply not_true_iff_false. intros Ho. apply Ex, existsb_exists. exists t'. split; [by apply list_elem_of_In |].
  unfold overlaps_other. by rewrite (proj2 (Z.eqb_neq _ _)), Ho.
Qed.

Lemma check_entries_step start end_ v : forall es, StronglySorted (fun a b => bytes_le (Memtable.key a) (Memtable.key b)) es -> (forall e, e ∈ es -> e ∈ mem) ->
  reviews (check_entries KEY_MAX VAL_MAX LEVELS BLOOM_BYTES db decomp (t_id t) start end_ v es)
    (forall e, e ∈ es -> bytes_le start (Memtable.key e) -> bytes_lt (Memtable.key e) end_ -> range_del e = false -> tombstone e = false -> safe (Memtable.key e) v).
Proof.
  induction es as [|e es IH]; intros Hso Hin; cbn [check_entries]; [apply reviews_ret; by intros ? ?%not_elem_of_nil |].
  apply StronglySorted_inv in Hso as [Hso Hle]. rewrite Forall_forall in Hle. specialize (IH Hso ltac:(intros; apply Hin; by right)).
  destruct (bytes_ltb (Memtable.key e) start) eqn:Es.
  { eapply reviews_weaken; [| exact IH]. intros Hall x [-> | Hx]%elem_of_cons Hge; [| by apply Hall]. apply bytes_ltb_spec in Es. exfalso. eauto using keys_absurd. }
  destruct (bytes_leb end_ (Memtable.key e)) eqn:Ee.
  { apply reviews_ret. apply bytes_leb_spec in Ee. intros x [-> | Hx]%elem_of_cons _ Hlt; exfalso; [by eauto using keys_absurd |].
    specialize (Hle x Hx). eapply keys_absurd; [exact Hlt |]. by etrans. }
  destruct (range_del e || tombstone e) eqn:Er.
  { eapply reviews_weaken; [| exact IH]. intros Hall x [-> | Hx]%elem_of_cons ? ? Hr Htb; [| by apply Hall]. by rewrite Hr, Htb in Er. }
  pose proof (sb_keys _ _ _ _ _ _ _ _ _ _ Hsb) as Hks. rewrite Forall_forall in Hks.
  rewrite (proj2 (Nat.ltb_ge _ _)) by (apply Hks, Hin; left). eapply reviews_seq; [apply check_view_step |].
  intros He. eapply reviews_weaken; [| exact IH]. intros Hall x [-> | Hx]%elem_of_cons; auto.
Qed.

(** A value of the memtable in the range is safe at [v]. *)
Definition values_safe (start end_ : bytes) (v : u64) : Prop :=
  forall e, e ∈ mem -> bytes_le start (Memtable.key e) -> bytes_lt (Memtable.key e) end_ -> range_del e = false -> tombstone e = false -> safe (Memtable.key e) v.

Lemma check_rdel_views_step start end_ seq : forall vs,
  reviews (check_rdel_views KEY_MAX VAL_MAX LEVELS BLOOM_BYTES db decomp (t_id t) start end_ seq vs)
    (forall v, v ∈ vs -> (seq <= v)%Z -> values_safe start end_ v).
Proof.
  induction vs as [|v vs IH]; cbn [check_rdel_views]; [apply reviews_ret; by intros ? ?%not_elem_of_nil |].
  eapply (reviews_seq _ _ ((seq <= v)%Z -> values_safe start end_ v)).
  - destruct (Z.ltb_spec v seq); [apply reviews_ret; lia |]. eapply reviews_weaken; [| apply check_entries_step].
    + done.
    + by eapply (mem_sorted KEY_MAX VAL_MAX LEVELS TABLES CAP ARENA BLOOM_BYTES), Hav.
    + done.
  - intros Hv. eapply reviews_weaken; [| exact IH]. intros Hvs v' [-> | Hin]%elem_of_cons; auto.
Qed.
(** No other table holds a key of the range, and its values in the memtable are safe. *)
Lemma range_safe k v : (forall t', t' ∈ others -> covers t' k = false) -> (forall e, e ∈ mem -> Memtable.key e = k -> range_del e = false -> tombstone e = false -> safe k v) ->
  safe k v.
Proof.
  intros Hno Hmem Hall. destruct (read_point_step VAL_MAX KEY_MAX LEVELS TABLES CAP ARENA BLOOM_BYTES HB Hbloom db L contents decomp k [] v 0 (Some (t_id t))
    Hrd Hd (sb_order _ _ _ _ _ _ _ _ _ _ Hsb k v)) as (r & _ & Hr). cbv zeta in Hr. change (List.filter _ _) with others in Hr.
  destruct Hr as [[Hn _] | (h & Hh & Hbest & Hr)]; [by left |].
  destruct Hh as [e He Hvis | t' e Ht' Hc _ _ _]; [| by rewrite (Hno t' Ht') in Hc].
  destruct (tombstone e) eqn:Et; [| destruct Hvis as (<- & Hrd' & _); by apply (Hmem e)].
  right. eexists. split; [by constructor |]. split; [done |]. cbn. unfold entry_body. by rewrite Et.
Qed.

Lemma reviews_pure (r : result unit (Error E)) (Q : Prop) : match r with Ok _ => Q | Err e => refusal e end -> reviews (pure r) Q.
Proof. intros Hr. exists r. split; [apply yields_pure | done]. Qed.

Lemma check_rdel_step r : reviews (check_rdel_no_resurrection KEY_MAX VAL_MAX LEVELS BLOOM_BYTES db decomp t r)
  (forall k v, covers_key k v r -> v ∈ views db -> safe k v).
Proof.
  unfold check_rdel_no_resurrection. assert (reviews (pure (Err (CorruptBlock (first_block t)))) (forall k v, covers_key k v r -> v ∈ views db -> safe k v)) as Hbad
    by (apply reviews_pure; by right).
  destruct (from_slice KEY_MAX (rd_start r)) as [sb |] eqn:Es; [| done]. destruct (from_slice KEY_MAX (rd_end r)) as [eb |] eqn:Ee; [| done].
  apply from_slice_slice in Es, Ee. eapply reviews_seq.
  { apply reviews_pure, (check_levels_step sb eb (List.seq 0 LEVELS)). apply Forall_forall. intros l Hl%list_elem_of_In%in_seq. lia. }
  intros Hlev. eapply reviews_weaken; [| apply check_rdel_views_step]. intros Hvs k v (Hq & Hs & He) Hv. apply range_safe.
  - intros t' [Ht' Hne]%elem_of_others. apply not_true_iff_false. intros Hc. unfold covers in Hc. apply andb_true_iff in Hc as [Hf%bytes_leb_spec Hl%bytes_leb_spec].
    apply (elem_of_levels KEY_MAX LEVELS TABLES) in Ht' as (l & Hll & Hin); [| apply Hrd].
    specialize (Hlev l t' ltac:(apply list_elem_of_In, in_seq; lia) Hin Hne). unfold ranges_overlap in Hlev. rewrite Es, Ee in Hlev.
    rewrite !(proj2 (bytes_leb_spec _ _)) in Hlev; [done | by etrans | etrans; [exact Hf |]; by apply bytes_lt_le].
  - intros e Hin <-. by apply (Hvs v Hv Hq).
Qed.

Lemma rdel_entries_step rs id suf : forall pre, rblock_wf rs -> rs = pre ++ suf ->
  reviews (check_rdel_entries KEY_MAX VAL_MAX LEVELS BLOOM_BYTES (length suf) db decomp t id (image (rdel_body rs)) (length (section_of pre)))
    (forall r k v, r ∈ suf -> covers_key k v r -> v ∈ views db -> safe k v).
Proof.
  induction suf as [|r suf IH]; intros pre Hw Ers; cbn [length check_rdel_entries]; [apply reviews_ret; by intros ? ? ? ?%not_elem_of_nil |].
  rewrite Ers in Hw |- *. rewrite (rdel_image_parses pre r suf Hw). rewrite <- Ers in *. eapply reviews_seq; [apply check_rdel_step |].
  intros Hr. eapply reviews_weaken; [| apply (IH (pre ++ [r]) Hw); by rewrite <- app_assoc].
  intros Hall r' k v [-> | Hin]%elem_of_cons; [apply Hr | by apply Hall].
Qed.

Lemma rdel_blocks_step first suf : forall pre, section_on dev first (pre ++ suf) -> (first + Z.of_nat (length (pre ++ suf)) <= U64_MAX)%Z ->
  reviews (check_rdel_blocks KEY_MAX VAL_MAX LEVELS BLOOM_BYTES (length suf) (length pre) db decomp t first)
    (forall r k v, r ∈ concat suf -> covers_key k v r -> v ∈ views db -> safe k v).
Proof.
  induction suf as [|rs suf IH]; intros pre Hon Hmax; cbn [length check_rdel_blocks]; [apply reviews_ret; by intros ? ? ? ?%not_elem_of_nil |].
  destruct (Hon (length pre) rs) as [Hw Hr]; [by apply list_lookup_middle |]. rewrite length_app in Hmax. cbn [length] in Hmax.
  rewrite u64_add_ok by lia. unfold plain_read. rewrite Hr. eapply reviews_bind; [apply yields_pure |].
  eapply reviews_bind; [rewrite rdel_count_image by done; apply yields_pure |].
  eapply reviews_seq; [change 0%nat with (length (section_of [])); by apply (rdel_entries_step rs _ rs []) |]. intros Hrs.
  replace (length pre + 1)%nat with (length (pre ++ [rs])) by (by rewrite length_app).
  eapply reviews_weaken; [| apply IH; rewrite <- app_assoc; [done | rewrite length_app; cbn [app length]; lia]].
  intros Hall r k v. cbn [concat]. rewrite elem_of_app. intros [Hin | Hin]; [by apply Hrs | by apply Hall].
Qed.

(** The review of the range tombstones. *)
Lemma check_rdels_step : reviews (check_rdels_no_resurrection KEY_MAX VAL_MAX LEVELS BLOOM_BYTES db decomp t)
  (forall r k v, r ∈ (contents t).2 -> covers_key k v r -> v ∈ views db -> safe k v).
Proof.
  pose proof (rb_tables _ _ _ _ _ _ _ _ _ _ Hrd t Ht) as Hok.
  destruct (tk_on _ _ _ _ _ _ Hok) as (blks & rbs & kk & ec & ms & Eb & Er & Hon & Ecount & Erdel).
  unfold check_rdels_no_resurrection. pose proof (rdel_first_ok VAL_MAX BLOOM_BYTES HB Hbloom dev L t _ blks rbs kk ec ms Hok Hon Ecount Erdel) as Hf.
  rewrite Hf, Erdel, Nat2Z.id, <- Er. pose proof (to_end _ _ _ _ _ _ _ _ Hon).
  apply (rdel_blocks_step _ rbs []); [apply (to_rdel _ _ _ _ _ _ _ _ Hon) | cbn [app]; lia].
Qed.

(** ** What a passed review means *)

(** A tombstone of the others that is newer than their hits hides the key. *)
Lemma covered_gone k v c : cvs others k v c -> (forall h, pts others k v h -> version_gt c (h_ver h) = true) -> gone others k v.
Proof.
  intros Hc Hg. destruct (read_point_step VAL_MAX KEY_MAX LEVELS TABLES CAP ARENA BLOOM_BYTES HB Hbloom db L contents decomp k [] v 0 (Some (t_id t))
    Hrd Hd (sb_order _ _ _ _ _ _ _ _ _ _ Hsb k v)) as (r & _ & Hr). cbv zeta in Hr. change (List.filter _ _) with others in Hr.
  destruct Hr as [[Hn _] | (h & Hh & Hbest & Hr)]; [by left |]. right. exists h. split_and!; auto.
  destruct (h_body h) as [[w ex] |]; [| done]. left. split; [| done]. left. exists c. auto.
Qed.

(** The whole review: no key that reads as deleted, live or at a snapshot, reads
    otherwise without the candidate. *)
Lemma review_step : reviews (check_no_resurrection KEY_MAX VAL_MAX LEVELS BLOOM_BYTES db decomp t) (forall k v, v ∈ views db -> safe k v).
Proof.
  unfold check_no_resurrection. eapply reviews_seq; [apply check_points_step |]. intros Hpts.
  eapply reviews_weaken; [| apply check_rdels_step]. intros Hrds k v Hv Hgone.
  destruct Hgone as [[Hn _] | (h & Hh & Hbest & Hb)]; [left; split; [| done]; intros h Hh; by apply (Hn h), others_point |].
  assert (gone all k v) as Hgone by (right; eauto).
  destruct (h_body h) as [[w ex] |] eqn:Eh.
  - destruct Hb as [[[(c & Hc & Hg) | Hx] _] | (_ & _ & Hr)]; [| pose proof (av_expire Hav k v h w ex Hh Eh); lia | by destruct (_ <? _)%nat].
    destruct (cover_cases k v c Hc) as [Hc' | (r & Hr & Hck)]; [| by eapply Hrds].
    apply (covered_gone k v c Hc'). intros h' Hh'. destruct (proj2 (sb_order _ _ _ _ _ _ _ _ _ _ Hsb k v) c (h_ver h') (h_ver h)) as [G | G]; auto.
    + by right.
    + left. exists h'. split; [by apply others_point | done].
    + left. by exists h.
    + rewrite (Hbest h' (others_point _ _ _ Hh')) in G. done.
  - destruct (point_cases k v h Hh) as [Hh' | (e & Hcov & He & <- & Hq & Hbody)].
    + right. exists h. split_and!; [done | | by rewrite Eh]. intros h' Hh2. by apply Hbest, others_point.
    + rewrite Eh in Hbody. unfold sst_body in Hbody. destruct (se_tombstone e) eqn:Et; [| done].
      apply andb_true_iff in Hcov as [Hle%bytes_leb_spec _]. by apply (Hpts e v He Hle Et Hv Hq).
Qed.
End review.
