(* ===== verification/ArchiveSafe.v ===== *)
(** * Archiving a table: [src/db/archive.rs]

    A commit that passed the review drops exactly one table and frees its slot; no key
    that reads as deleted, live or at a snapshot, comes back with it. *)

From stdpp Require Import base numbers list sets sorting.
From Stdlib Require Import ZArith Lia Sorting.Sorted.
From S2P Require Import Prelude Device Model Steps Compress Version Slots Cache Batch Memtable Wal Manifest ManifestPool ManifestEdit ManifestCodec ManifestLog ManifestCrash SstPlan SstWriter SstReader SstBlock SstImage SstIndex SstRdel SstTable SstBuild Db DbWrite DbOpen DbLayout DbRead DbFlush DbFlushSafe DbFlushKeeps DbLife Scan ScanPark ScanMerge ScanSeek ScanSpec ScanRev ScanRevBlock ScanRevPark ScanRevMerge ScanRevSeek ScanRevSpec CompactCursor Compact Archive ArchiveReview.

(** ** An edit that removes one table *)

Record removal (e : ManifestEdit) (pos : nat) : Prop := {
  rm_bits : removed e = Z.shiftl 1 (Z.of_nat pos);
  rm_narrow : narrowed e = 0%Z;
  rm_stamp : stamped e = None;
  rm_added : added e = None;
}.

Lemma removal_bit e pos i : removal e pos -> (i < 64)%nat -> Manifest.bit (removed e) i = (i =? pos)%nat.
Proof.
  intros [Hr _ _ _] Hi. rewrite bit_testbit by done. rewrite Hr, Z.shiftl_1_l, Z.pow2_bits_eqb by lia.
  destruct (Nat.eqb_spec i pos) as [-> | Hne]; [apply Z.eqb_refl | apply Z.eqb_neq; lia].
Qed.

Lemma removal_keeps e pos i r : removal e pos -> edit_ref e i r = r.
Proof. intros [_ Hn Hs _]. unfold edit_ref, stamp_ref, narrow_ref, Manifest.bit. rewrite Hs, Hn, Z.shiftr_0_l. cbn. by rewrite andb_false_r. Qed.

Lemma survivors_removal e pos : removal e pos -> forall l i, (i + length l <= 64)%nat ->
  ManifestEdit.survivors e i l = if (i <=? pos)%nat then base.delete (pos - i)%nat l else l.
Proof.
  intros Hr. induction l as [|r l IH]; intros i Hl; cbn [ManifestEdit.survivors]; [by destruct (i <=? pos)%nat |]. cbn [length] in Hl.
  rewrite (removal_bit e pos) by (done || lia). rewrite (removal_keeps e pos) by done. rewrite IH by lia.
  destruct (Nat.eqb_spec i pos) as [-> | Hne].
  - rewrite Nat.leb_refl, Nat.sub_diag, (proj2 (Nat.leb_gt _ _)) by lia. done.
  - destruct (Nat.leb_spec i pos) as [Hle | Hgt].
    + rewrite (proj2 (Nat.leb_le _ _)) by lia. by replace (pos - i)%nat with (S (pos - (i + 1))) by lia.
    + by rewrite (proj2 (Nat.leb_gt _ _)) by lia.
Qed.

Section edit.
  Context (LEVELS TABLES KEY_MAX : nat) (E : Type).

Lemma removal_check m e pos : removal e pos -> (pos < live m)%nat -> (live m <= 64)%nat -> check_edit (E := E) LEVELS TABLES m e = Ok tt.
Proof.
  intros [Hr Hn _ Ha] Hp Hl. unfold check_edit. rewrite Hr, Hn, Ha, Z.lor_0_r.
  assert (Z.land (Z.shiftl 1 (Z.of_nat pos)) (Z.lxor U64_MAX (mask_below (live m))) = 0%Z) as ->; [| done].
  apply Z.bits_inj. intros j. rewrite Z.bits_0, Z.land_spec, Z.shiftl_1_l. destruct (Z.eqb_spec (Z.of_nat pos) j) as [<- | Hne].
  - rewrite Z.pow2_bits_true, Z.lxor_spec, testbit_mask_below by lia. change U64_MAX with (Z.ones 64). rewrite Z.ones_spec_low by lia.
    by rewrite (proj2 (Nat.ltb_lt _ _)).
  - by rewrite Z.pow2_bits_false by lia.
Qed.

Lemma removal_ok m e pos : removal e pos -> e_wal_head e = None -> e_flushed e = 0%Z -> e_next_table_id e = 0%Z -> narrow_to e = EMPTY_BOUND KEY_MAX ->
  fits 64 (e_seq_high e) -> edit_ok KEY_MAX e m.
Proof.
  intros [_ _ Hs Ha] E1 E2 E3 E4 Hq. split; rewrite ?E1, ?E2, ?E3, ?E4, ?Hs; auto; try (unfold fits; lia).
  - by intros h.
  - apply empty_bound_ok.
  - by rewrite Ha.
  - done.
  - unfold stamp_ok. by rewrite Hs.
  - intros lv t. by rewrite Ha.
Qed.

(** The manifest after it. *)
Lemma removal_tables m T e pos :
  man_ok LEVELS TABLES KEY_MAX m T -> shape_ok LEVELS TABLES -> edit_ok KEY_MAX e m -> removal e pos -> (pos < live m)%nat ->
  check_edit (E := E) LEVELS TABLES m e = Ok tt /\
  exists T', man_ok LEVELS TABLES KEY_MAX (apply_checked LEVELS TABLES KEY_MAX m e) T' /\
    tables (apply_checked LEVELS TABLES KEY_MAX m e) = base.delete pos (tables m) /\
    next_table_id (apply_checked LEVELS TABLES KEY_MAX m e) = Z.max (next_table_id m) (e_next_table_id e).
Proof.
  intros Hm Hs He Hr Hp. pose proof (mo_repr _ _ _ _ _ Hm) as HT. pose proof (so_cap _ _ Hs) as Hcap. pose proof (pr_len _ _ _ _ _ HT) as Hlen.
  assert (live m = length T) as El by apply (live_repr _ _ _ _ _ HT).
  assert (check_edit (E := E) LEVELS TABLES m e = Ok tt) as Hc by (by apply (removal_check m e pos); [| | lia]). split; [done |].
  destruct (apply_checked_ok LEVELS TABLES KEY_MAX m T e Hs Hm He Hc) as (T' & Hm' & _ & _).
  destruct (apply_checked_repr LEVELS TABLES KEY_MAX m e T HT Hcap Hc (eo_unique _ _ _ He) (eo_sorted _ _ _ He)) as (_ & _ & Hsc & _).
  exists T'. split; [done |]. split.
  - destruct (apply_unadded_repr LEVELS TABLES KEY_MAX m e T HT (eo_unique _ _ _ He)) as [Hu _].
    assert (apply_checked LEVELS TABLES KEY_MAX m e = apply_unadded LEVELS KEY_MAX m e) as -> by (unfold apply_checked, apply_unadded; by rewrite (rm_added _ _ Hr)).
    rewrite (tables_repr _ _ _ _ _ Hu), kept_survivors, <- (tables_repr _ _ _ _ _ HT), (survivors_removal e pos Hr).
    + cbn [Nat.leb]. by rewrite Nat.sub_0_r.
    + rewrite (tables_repr _ _ _ _ _ HT), length_fmap. lia.
  - rewrite Hsc. cbn [next_table_id set_refs]. by destruct (scalars_view m e) as (_ & _ & S2 & _).
Qed.

(** Staging the removal of the table a plan names. *)
Lemma stage_removal m T lv id t :
  man_ok LEVELS TABLES KEY_MAX m T -> (lv < LEVELS)%nat -> List.find (fun t => (t_id t =? id)%Z) (level_refs m lv) = Some t ->
  exists pos e, stage_remove (E := E) LEVELS m (EMPTY_EDIT KEY_MAX) lv id = Ok (e, true) /\ tables m !! pos = Some t /\ removal e pos /\
    e_wal_head e = None /\ e_flushed e = 0%Z /\ e_seq_high e = 0%Z /\ e_next_table_id e = 0%Z /\ narrow_to e = EMPTY_BOUND KEY_MAX.
Proof.
  intros Hm Hlv Hf. pose proof (mo_repr _ _ _ _ _ Hm) as HT.
  assert (exists p, position_of (has_id id) (level_refs m lv) = Some p /\ level_refs m lv !! p = Some t) as (p & Hp & Hlp).
  { revert Hf. generalize (level_refs m lv). induction l as [|x l IH]; cbn [List.find position_of]; [done |]. unfold has_id at 1.
    destruct (t_id x =? id)%Z; [intros [= ->]; by exists 0%nat |]. intros Hx. destruct (IH Hx) as (p & -> & Hl). by exists (S p). }
  unfold stage_remove, position. rewrite (proj2 (Nat.leb_gt _ _)), Hp by lia. cbn [option_map]. eexists _, _. split; [reflexivity |]. split_and!; try done.
  - rewrite (tables_repr _ _ _ _ _ HT), (refs_split lv T (pr_order _ _ _ _ _ HT)). rewrite (level_repr _ _ _ _ _ HT) in Hlp by lia.
    rewrite (start_repr _ _ _ _ _ HT) by lia. rewrite <- (length_fmap snd (ManifestPool.below lv T)), lookup_app_r by lia.
    replace (length (ManifestPool.below lv T).*2 + p - length (ManifestPool.below lv T).*2)%nat with p by lia. apply lookup_app_l_Some. exact Hlp.
Qed.
End edit.

(** ** A handle with fewer tables *)

Section handle.
  Context {D E : Type} `{Laws : DeviceLaws D E}.
  Context (KEY_MAX VAL_MAX CAP ARENA LEVELS TABLES BLOOM_BYTES : nat).
  Implicit Types db : Db D.

  Abbreviation sound := (sound (D := D) (E := E) KEY_MAX VAL_MAX CAP ARENA LEVELS TABLES BLOOM_BYTES).
  Context (Hsh : table_shape (D := D) (E := E) KEY_MAX VAL_MAX CAP ARENA LEVELS TABLES BLOOM_BYTES).

(** What an archival leaves of the handle besides manifest, device, slots and cache. *)
Definition same_rest db db' : Prop :=
  db_table db' = db_table db /\ cfg db' = cfg db /\ next_seq db' = next_seq db /\ snapshots db' = snapshots db /\ n_snapshots db' = n_snapshots db.

Lemma same_rest_trans a b c : same_rest a b -> same_rest b c -> same_rest a c.
Proof. intros (? & ? & ? & ? & ?) (? & ? & ? & ? & ?). split_and!; congruence. Qed.

#[local] Instance same_rest_preorder : PreOrder same_rest.
Proof. split; [done |]. exact same_rest_trans. Qed.

Lemma sound_shrunk db db' base bs tlog contents T' :
  sound db base bs tlog contents -> db_inv (E := E) KEY_MAX VAL_MAX CAP ARENA db' base bs tlog -> cfg db' = cfg db ->
  wal_start (db_wal db') = wal_start (db_wal db) -> wal_end (db_wal db') = wal_end (db_wal db) ->
  man_ok LEVELS TABLES KEY_MAX (db_manifest db') T' -> tables (db_manifest db') `sublist_of` tables (db_manifest db) ->
  (next_table_id (db_manifest db) <= next_table_id (db_manifest db'))%Z ->
  Slots.wf (db_slots db') -> same_geometry (db_slots db') (db_slots db) ->
  (forall t s, t ∈ tables (db_manifest db') -> db_slot_of db t = Some s -> status_of (db_slots db) s = Used -> status_of (db_slots db') s = Used) ->
  (forall t b, t ∈ tables (db_manifest db) -> (first_block t <= b < end_block t)%Z ->
    read_block (device (db_wal db')) b = read_block (device (db_wal db)) b) ->
  Cache.wf (db_cache db') -> (forall t b blk, holds (db_cache db') t b blk -> holds (db_cache db) t b blk) ->
  sound db' base bs tlog contents.
Proof.
  intros Hs Hi Ec Ews Ewe HT Hsub Hnext Hwf Hgeo Hused Hdev Hcw Hch.
  assert (forall t, t ∈ tables (db_manifest db') -> t ∈ tables (db_manifest db)) as Hin
    by (intros t; by apply sublist_subseteq).
  assert (forall t, db_slot_of db' t = db_slot_of db t) as Hslot by (intros t; unfold db_slot_of; by rewrite Hgeo).
  destruct Hs. split; rewrite ?Ec, ?Ews, ?Ewe; auto.
  - split; [done |]. destruct sd_slots as [_ (sl & El & Hg)]. exists sl. split; [done |]. by etrans.
  - by exists T'.
  - destruct sd_sits as [Hall Hnd]. rewrite Forall_forall in Hall. split.
    + apply Forall_forall. intros t Ht. destruct (Hall t (Hin t Ht)) as (s & Es & Hu). exists s. rewrite Hslot. split; [done |]. by apply (Hused t).
    + rewrite (list_fmap_ext _ (db_slot_of db)) by (intros; apply Hslot). eapply sublist_NoDup; [exact Hnd |]. by apply fmap_sublist.
  - rewrite Forall_forall in sd_ids. apply Forall_forall. intros t Ht. specialize (sd_ids t (Hin t Ht)). lia.
  - eapply sublist_NoDup; [exact sd_unique |]. by apply fmap_sublist.
  - intros t Ht. eapply table_ok_ext; [intros b Hb; by apply (Hdev t) ; [apply Hin |] | | by apply sd_tables, Hin].
    intros b Hb. by exists t.
  - destruct sd_cache as [_ Hh]. split; [done |]. intros t b blk Hbl (r & Hr & Er & Hbr).
    cbn [cell] in *. rewrite (Hdev r b (Hin r Hr) Hbr). apply (Hh t b blk (Hch _ _ _ Hbl)). exists r. auto.
  - intros t b blk Hbl%Hch. specialize (sd_cache_ids _ _ _ Hbl). lia.
Qed.

Lemma sound_abort db base bs tlog contents : sound db base bs tlog contents -> sound (abort_job db) base bs tlog contents.
Proof.
  intros Hs. unfold abort_job. destruct (job_active db); [| done]. destruct (sd_manifest Hs) as [T HT].
  pose proof (proj1 (sd_slots Hs)) as Hw.
  apply (sound_shrunk db _ base bs tlog contents T); auto; try done.
  - by eapply db_inv_core; [apply Hs | ..].
  - by apply release_all_wf.
  - intros t s _ _ Hu. cbn [set_slots db_slots]. rewrite release_all_status by done. by rewrite Hu.
  - apply (sd_cache Hs).
Qed.

Lemma abort_keeps db : db_manifest (abort_job db) = db_manifest db /\ same_rest db (abort_job db) /\ (forall t, db_slot_of (abort_job db) t = db_slot_of db t).
Proof. unfold abort_job. by destruct (job_active db). Qed.

(** ** From the review on *)

Lemma archive_done_fields db id slot : db_manifest (archive_done db id slot) = db_manifest db /\ same_rest db (archive_done db id slot).
Proof. unfold archive_done. by destruct slot. Qed.

Lemma free_geometry m i : same_geometry (Slots.free m i) m.
Proof. unfold Slots.free. by repeat case_match. Qed.

Lemma valid_used db base bs tlog contents t s : sound db base bs tlog contents -> t ∈ tables (db_manifest db) -> db_slot_of db t = Some s -> (0 <= s)%Z.
Proof. intros Hs Ht Es. destruct (table_span Hs Ht) as (s' & Es' & [? _] & _). congruence. Qed.

(** No other table has the slot. *)
Lemma delete_slot db base bs tlog contents pos t t' s : sound db base bs tlog contents -> tables (db_manifest db) !! pos = Some t ->
  t' ∈ base.delete pos (tables (db_manifest db)) -> db_slot_of db t = Some s -> db_slot_of db t' <> Some s.
Proof.
  intros Hs Hpos Ht' Es Es'. destruct (sd_sits Hs) as [_ Hnd]. apply list_elem_of_lookup in Ht' as [j Hj]. rewrite list_lookup_delete in Hj.
  set (j' := if decide (j < pos)%nat then j else S j) in *.
  assert (pos = j') as Hp; [| unfold j' in Hp; destruct (decide (j < pos)%nat); lia].
  apply (NoDup_lookup (db_slot_of db <$> tables (db_manifest db)) pos j' (Some s)); [done | |]; rewrite list_lookup_fmap.
  - rewrite Hpos. cbn. by rewrite Es.
  - rewrite Hj. cbn. by rewrite Es'.
Qed.

(** The committed removal, its cache entries and its slot. *)
Lemma removed_sound db base bs tlog contents m' d' T' t s pos :
  sound db base bs tlog contents -> tables (db_manifest db) !! pos = Some t -> db_slot_of db t = Some s ->
  (forall b, (c_tbl_start (cfg db) <= b < c_tbl_end (cfg db))%Z \/ (c_wal_start (cfg db) <= b < c_wal_end (cfg db))%Z ->
     read_block d' b = read_block (device (db_wal db)) b) ->
  man_ok LEVELS TABLES KEY_MAX m' T' -> tables m' = base.delete pos (tables (db_manifest db)) ->
  (next_table_id (db_manifest db) <= next_table_id m')%Z ->
  let db' := archive_done (set_manifest (set_device db d') m') (t_id t) (Some s) in
  sound db' base bs tlog contents /\ status_of (db_slots db') s = Free.
Proof.
  intros Hs Hpos Es Hd HT Htab Hnext db'. pose proof (list_elem_of_lookup_2 _ _ _ Hpos) as Ht.
  destruct (table_span Hs Ht) as (s' & Es' & Hv & Hu & _). rewrite Es in Es'. injection Es' as <-.
  destruct (free_refines _ s (proj1 (sd_slots Hs)) Hv) as [Hwf Hst]. rewrite Hu in Hst.
  assert (status_of (db_slots db') s = Free) as Hfree.
  { change (db_slots db') with (Slots.free (db_slots db) s). rewrite Hst by apply Hv. unfold set_status. by rewrite Z.eqb_refl. }
  split; [| done]. destruct (sd_wal Hs) as (Ew & Ee & Hb).
  apply (sound_shrunk db db' base bs tlog contents T'); auto; try done.
  - eapply db_inv_core; [apply (db_inv_device KEY_MAX VAL_MAX CAP ARENA db base bs tlog d' (sd_inv Hs)) | done..].
    intros b Hbb. apply Hd. lia.
  - change (db_manifest db') with m'. rewrite Htab. apply sublist_delete.
  - apply free_geometry.
  - intros t' s' Ht' Es'' Hu'. change (db_manifest db') with m' in Ht'. rewrite Htab in Ht'.
    pose proof (valid_used db base bs tlog contents t' s' Hs ltac:(by apply list_elem_of_delete_inv in Ht') Es'') as Hv'.
    change (db_slots db') with (Slots.free (db_slots db) s). rewrite Hst by lia. unfold set_status. destruct (Z.eqb_spec s' s) as [-> | Hne]; [| done].
    exfalso. by eapply (delete_slot db base bs tlog contents pos t t' s).
  - intros t' b Ht' Hbt. apply Hd. left. destruct (table_span Hs Ht') as (? & _ & _ & _ & _ & _ & ? & ?). lia.
  - apply invalidate_wf, (sd_cache Hs).
  - intros t' b blk [Hh _]%invalidate_holds. done.
Qed.
Lemma archive_reviewed_step db base bs tlog contents lv t :
  sound db base bs tlog contents -> (lv < LEVELS)%nat ->
  List.find (fun t' => (t_id t' =? t_id t)%Z) (level_refs (db_manifest db) lv) = Some t ->
  exists db' r, archive_reviewed (E := E) KEY_MAX LEVELS TABLES db lv (t_id t) t = (db', r) /\ same_rest db db' /\ sound db' base bs tlog contents /\
  match r with
  | Ok true => (exists pos, tables (db_manifest db) !! pos = Some t /\ tables (db_manifest db') = base.delete pos (tables (db_manifest db))) /\
      exists s, db_slot_of db t = Some s /\ status_of (db_slots db') s = Free
  | Ok false => False
  | Err e => db_manifest db' = db_manifest db /\ (e = CounterExhausted \/ exists de, e = Device de)
  end.
Proof.
  intros Hs0 Hlv Hf0. unfold archive_reviewed. cbv zeta. set (input := match db_slot_of db t with Some s => _ | None => _ end). set (db1 := if input then abort_job db else db).
  assert (sound db1 base bs tlog contents /\ db_manifest db1 = db_manifest db /\ same_rest db db1 /\ db_slot_of db1 t = db_slot_of db t) as (Hs & Em & Hsr & Esl).
  { destruct (abort_keeps db) as (? & ? & ?). unfold db1. destruct input; [| done]. split_and!; auto. by apply sound_abort. }
  rewrite <- Em in *. rewrite <- Esl. clearbody db1. destruct (sd_manifest Hs) as [T HT].
  destruct (stage_removal LEVELS TABLES KEY_MAX E _ T lv (t_id t) t HT Hlv Hf0) as (pos & e & -> & Hpos & Hrm & E1 & E2 & E3 & E4 & E5).
  set (e' := edit_raise_seq_high e (next_seq db1)).
  assert (removal e' pos) as Hrm' by (by destruct Hrm; split).
  assert (edit_ok KEY_MAX e' (db_manifest db1)) as He.
  { apply (removal_ok KEY_MAX _ e' pos); try done. unfold e'. cbn. rewrite E3. pose proof (di_range _ _ _ _ (sd_inv Hs)) as Hq.
    unfold fits, U64_MAX in *. destruct (0 <? next_seq db1)%Z; lia. }
  assert (pos < live (db_manifest db1))%nat as Hlt.
  { apply lookup_lt_Some in Hpos. unfold tables in Hpos. rewrite length_take in Hpos. lia. }
  destruct (removal_tables LEVELS TABLES KEY_MAX E _ T e' pos HT (sh_slots (ts_db Hsh)) He Hrm' Hlt) as (Hck & T' & HT' & Htab & Hnext).
  destruct (commit_manifest KEY_MAX LEVELS TABLES db1 e') as [db2 r2] eqn:Ec.
  destruct (commit_manifest_step KEY_MAX VAL_MAX CAP ARENA LEVELS TABLES BLOOM_BYTES Hsh db1 base bs tlog contents e' db2 r2 Hs He Ec) as (m' & d' & -> & Hd & Hr).
  destruct (table_span Hs (list_elem_of_lookup_2 _ _ _ Hpos)) as (s & Es & _).
  destruct r2 as [[] | err].
  - destruct Hr as (_ & -> & Hmax). eexists _, (Ok true). split; [reflexivity |]. rewrite Es.
    set (m' := set_seq (apply_checked LEVELS TABLES KEY_MAX (db_manifest db1) e') (m_seq (db_manifest db1) + 1)).
    assert (man_ok LEVELS TABLES KEY_MAX m' T') as HT2.
    { apply man_ok_set_seq; [done |]. pose proof (ManifestCodec.mo_seq _ _ _ _ _ HT). unfold fits, U64_MAX in *. lia. }
    destruct (removed_sound db1 base bs tlog contents m' d' T' t s pos Hs Hpos Es Hd HT2 Htab) as [Hs' Hfree].
    { change (next_table_id m') with (next_table_id (apply_checked LEVELS TABLES KEY_MAX (db_manifest db1) e')). lia. }
    destruct (archive_done_fields (set_manifest (set_device db1 d') m') (t_id t) (Some s)) as [Em' Hsr'].
    split_and!; [etrans; [exact Hsr |]; etrans; [| exact Hsr']; done | done | | eauto]. exists pos. by rewrite Em'.
  - destruct Hr as [-> Herr]. eexists _, (Err err). split; [reflexivity |]. split_and!; [etrans; [exact Hsr |]; done | | done |].
    + assert (set_manifest (set_device db1 d') (db_manifest db1) = set_device db1 d') as -> by apply (set_manifest_same (set_device db1 d')). destruct (sd_wal Hs) as (Ew & Ee & Hb). apply (sound_device KEY_MAX VAL_MAX CAP ARENA LEVELS TABLES BLOOM_BYTES); [done | |].
      * intros b Hbb. apply Hd. by right.
      * intros t' b Ht' Hbt. apply Hd. left. destruct (table_span Hs Ht') as (? & _ & _ & _ & _ & _ & ? & ?). lia.
    + destruct Herr as [Herr | ?]; [congruence | done].
Qed.
End handle.

(** ** Archiving on a living handle *)

Section living.
  Context {D E : Type} `{Laws : DeviceLaws D E}.
  Context (KEY_MAX VAL_MAX CAP ARENA LEVELS TABLES BLOOM_BYTES : nat).
  Implicit Types db : Db D.
  Context (Hsh : table_shape (D := D) (E := E) KEY_MAX VAL_MAX CAP ARENA LEVELS TABLES BLOOM_BYTES).

  Abbreviation living := (living (E := E) KEY_MAX VAL_MAX CAP ARENA LEVELS TABLES BLOOM_BYTES).
  Abbreviation sound := (sound (D := D) (E := E) KEY_MAX VAL_MAX CAP ARENA LEVELS TABLES BLOOM_BYTES).

(** The stored versions of a history that tie are the same mutation. *)
Lemma tells_agreeing db contents h k v : tells db contents h -> history h -> Forall (fun e => (0 < Memtable.seq e)%Z) h -> agreeing (db_point db contents k v).
Proof.
  intros Ht Hh Hq a b Ha Hb Hab Hba. destruct (Ht k v) as [[Hp _] _].
  destruct (Hp a Ha) as (a' & [ea Hea _ | t ? ?%not_elem_of_nil _ _ _ _] & (Na & Na' & Sa) & ->); [| done].
  destruct (Hp b Hb) as (b' & [eb Heb _ | t ? ?%not_elem_of_nil _ _ _ _] & (Nb & Nb' & Sb) & ->); [| done].
  cbn in Sa, Sb |- *. rewrite Forall_forall in Hq. pose proof (Hq ea Hea). pose proof (Hq eb Heb).
  assert (Memtable.seq ea = Memtable.seq eb) as Eq.
  { apply not_true_iff_false in Hab, Hba. rewrite version_gt_same in Hab, Hba by (lia || congruence). lia. }
  by rewrite (history_eq h ea eb Hh Hea Heb Eq).
Qed.

Lemma sound_expires db base bs tlog contents k v h w ex : sound db base bs tlog contents -> db_point db contents k v h -> h_body h = Some (w, ex) -> (0 <= ex)%Z.
Proof.
  intros Hs [e He _ | t e Ht _ He _ _]; cbn.
  - destruct (flush_stream _ _ _ _ _ _ _ Hsh _ _ _ _ _ Hs) as (_ & _ & _ & Hty & _). rewrite Forall_forall in Hty.
    destruct (Hty e He) as (_ & _ & _ & ? & _). unfold entry_body. destruct (tombstone e); [done |]. intros [= _ <-]. lia.
  - destruct (tk_on _ _ _ _ _ _ (sd_tables Hs t Ht)) as (blks & rbs & kk & ec & ms & Eb & _ & Hon & _). rewrite <- Eb in He.
    apply list_elem_of_In, in_concat in He as (es & Hes & He). apply list_elem_of_In, list_elem_of_lookup in Hes as [i Hi]. apply list_elem_of_In in He.
    destruct (to_data _ _ _ _ _ _ _ _ Hon i es Hi) as [Hw _]. pose proof (bw_entries _ Hw) as Hall. rewrite Forall_forall in Hall.
    destruct (Hall e He) as (_ & _ & _ & ? & _). unfold sst_body. destruct (se_tombstone e); [done |]. intros [= _ <-]. lia.
Qed.

Lemma living_archivable db h : living db h ->
  exists base bs tlog contents, sound db base bs tlog contents /\ tells db contents h /\
    archivable KEY_MAX VAL_MAX LEVELS TABLES CAP ARENA BLOOM_BYTES db (live_block (db_manifest db)) contents.
Proof.
  intros Hlv. destruct (living_sound _ _ _ _ _ _ _ Hsh db h Hlv) as (base & bs & tlog & contents & Hs & Hsb & Ht).
  exists base, bs, tlog, contents. split_and!; auto. split.
  - split; [exact Hsb | apply (sd_unique Hs) |]. intros. by eapply sound_apart.
  - intros k v. apply (tells_agreeing db contents h k v Ht); [apply Hlv |]. eapply Forall_impl; [apply Hlv |]. cbn. lia.
  - intros k v x w ex. by apply (sound_expires db base bs tlog contents k v x w ex Hs).
Qed.

(** A read of a sound handle of one node, whatever it stores. *)
Lemma sound_get db base bs tlog contents decomp k buf mx now :
  sound db base bs tlog contents -> Forall (fun t => node_id t = own_node db) (tables (db_manifest db)) -> length decomp = BLOCK ->
  exists c r, get_at_with_time (E := E) VAL_MAX LEVELS BLOOM_BYTES false db decomp k buf mx now = Some (set_cache db c, r) /\
    reads (db_point db contents k mx) (db_cover db contents k mx) now buf r.
Proof.
  intros Hs Hn Hd. pose proof (sound_readable _ _ _ _ _ _ _ Hsh _ _ _ _ _ Hs) as Hr. pose proof (sound_seqs _ _ _ _ _ _ _ Hsh _ _ _ _ _ Hs) as Hsq.
  pose proof (sh_block (ts_db Hsh)) as Hb. assert (HB : (49 <= BLOCK)%nat) by lia.
  pose proof (one_node_orderly VAL_MAX KEY_MAX LEVELS TABLES CAP ARENA BLOOM_BYTES db _ contents k mx Hr Hsq Hn) as Hord.
  destruct (read_point_step VAL_MAX KEY_MAX LEVELS TABLES CAP ARENA BLOOM_BYTES HB (ts_bloom Hsh) db _ contents decomp k buf mx now None Hr Hd Hord) as (r & Hy & Hreads).
  destruct (sound_read KEY_MAX VAL_MAX CAP ARENA LEVELS TABLES BLOOM_BYTES db base bs tlog contents _ r Hs Hy) as (c & Eh & _).
  exists c, r. unfold get_at_with_time, ensure_open. rewrite (di_open _ _ _ _ (sd_inv Hs)), Eh. split; [done |].
  cbv zeta in Hreads. by rewrite filter_included_none in Hreads.
Qed.
(** Removing the table at [pos] leaves those of another id. *)
Lemma elem_of_removed (l : list TableRef) pos t t' : NoDup (t_id <$> l) -> l !! pos = Some t ->
  t' ∈ base.delete pos l <-> t' ∈ l /\ t_id t' <> t_id t.
Proof.
  intros Hn Hp. rewrite delete_take_drop. rewrite <- (take_drop_middle l pos t Hp) in Hn |- * at 3. rewrite fmap_app in Hn. cbn in Hn.
  apply NoDup_app in Hn as (_ & Hd & [Hnt _]%NoDup_cons). rewrite !elem_of_app, elem_of_cons. split.
  - intros [Hin | Hin]; (split; [auto |]); intros Eq.
    + apply (Hd (t_id t)); [rewrite <- Eq; by apply list_elem_of_fmap_2 | left].
    + apply Hnt. rewrite <- Eq. by apply list_elem_of_fmap_2.
  - intros [[? | [-> | ?]] Hne]; [by left | done | by right].
Qed.

(** Point reads of [k] answer what the history says. *)
Definition reads_as db (h : list Entry) (k : bytes) : Prop :=
  forall decomp buf mx now, length decomp = BLOCK ->
    exists c, get_at_with_time (E := E) VAL_MAX LEVELS BLOOM_BYTES false db decomp k buf mx now = Some (set_cache db c, spec_read h k buf mx now).

Lemma living_reads_as db h k : living db h -> reads_as db h k.
Proof. intros Hlv decomp buf mx now Hd. destruct (living_get _ _ _ _ _ _ _ Hsh db h decomp k buf mx now Hlv Hd) as (c & Eg & _). by exists c. Qed.

(** What a read sees after the table [t] is gone. *)
Lemma removed_sees db db' contents pos t k mx :
  NoDup (t_id <$> tables (db_manifest db)) -> tables (db_manifest db) !! pos = Some t -> same_rest db db' ->
  tables (db_manifest db') = base.delete pos (tables (db_manifest db)) ->
  (forall x, db_point db' contents k mx x <-> point (own_node db) (iter (db_table db)) contents (others db t) k mx x) /\
  (forall x, db_cover db' contents k mx x <-> cover (own_node db) (iter (db_table db)) contents (others db t) k mx x).
Proof.
  intros Hn Hp (Et & Ec & _) Htab. unfold db_point, db_cover, own_node. rewrite Et, Ec, Htab.
  assert (forall t', t' ∈ base.delete pos (tables (db_manifest db)) <-> t' ∈ others db t) as Hel.
  { intros t'. rewrite (elem_of_removed _ pos t t' Hn Hp), elem_of_others. done. }
  split; intros x; [by apply point_iff | by apply cover_iff].
Qed.

(** Keys outside the bounds of the table do not notice. *)
Lemma outside_sees db contents t k mx : covers t k = false -> NoDup (t_id <$> tables (db_manifest db)) -> t ∈ tables (db_manifest db) ->
  (forall x, point (own_node db) (iter (db_table db)) contents (others db t) k mx x <-> db_point db contents k mx x) /\
  (forall x, cover (own_node db) (iter (db_table db)) contents (others db t) k mx x <-> db_cover db contents k mx x).
Proof.
  intros Hno Hn Ht. assert (forall t', t' ∈ tables (db_manifest db) -> covers t' k = true -> t' ∈ others db t) as Hin.
  { intros t' Ht' Hc. apply elem_of_others. split; [done |]. intros Eq. by rewrite (fmap_unique t_id _ t' t Hn Ht' Ht Eq), Hno in Hc. }
  split; intros x; split.
  - apply point_mono. intros t'. rewrite elem_of_others. tauto.
  - intros [e He Hv | t' e Ht' Hc He Hk Hq]; constructor; auto.
  - apply cover_mono. intros t'. rewrite elem_of_others. tauto.
  - intros [e He Hv | t' r Ht' Hc Hr Hk]; constructor; auto.
Qed.

(** What the history says is a read of the handle. *)
Lemma spec_reads db contents h k buf mx now : living db h -> tells db contents h ->
  archivable KEY_MAX VAL_MAX LEVELS TABLES CAP ARENA BLOOM_BYTES db (live_block (db_manifest db)) contents ->
  reads (E := E) (db_point db contents k mx) (db_cover db contents k mx) now buf (spec_read h k buf mx now).
Proof.
  intros Hlv Ht Hav. pose proof (rv_scan _ _ _ _ _ _ _ _ _ _ (av_rev _ _ _ _ _ _ _ _ _ _ Hav)) as Hsb.
  pose proof (sh_block (ts_db Hsh)) as Hb. assert (HB : (49 <= BLOCK)%nat) by lia.
  destruct (read_point_step VAL_MAX KEY_MAX LEVELS TABLES CAP ARENA BLOOM_BYTES HB (ts_bloom Hsh) db _ contents (replicate BLOCK 0%Z) k buf mx now None
    (sb_read _ _ _ _ _ _ _ _ _ _ Hsb) (length_replicate _ _) (sb_order _ _ _ _ _ _ _ _ _ _ Hsb k mx)) as (r & _ & Hr).
  cbv zeta in Hr. rewrite filter_included_none in Hr. by rewrite <- (living_answers _ _ _ _ _ _ _ db contents h k buf mx now r Hlv Ht Hr).
Qed.

(** A handle whose tables did not change. *)
Lemma kept_reads db db' h base bs tlog contents k :
  living db h -> tells db contents h -> sound db' base bs tlog contents -> same_rest db db' -> db_manifest db' = db_manifest db -> reads_as db' h k.
Proof.
  intros Hlv Ht Hs' (Et & Ec & _) Em decomp buf mx now Hd.
  assert (Forall (fun t => node_id t = own_node db') (tables (db_manifest db'))) as Hnodes by (unfold own_node; rewrite Em, Ec; apply Hlv).
  destruct (sound_get db' base bs tlog contents decomp k buf mx now Hs' Hnodes Hd) as (c & r & Eg & Hr). exists c. rewrite Eg. do 2 f_equal.
  apply (living_answers _ _ _ _ _ _ _ db contents h k buf mx now r Hlv Ht). unfold db_point, db_cover, own_node in *. by rewrite Et, Ec, Em in Hr.
Qed.

(** After a passed review and the commit. *)
Lemma removed_reads db db' h base bs tlog contents pos t :
  living db h -> tells db contents h -> NoDup (t_id <$> tables (db_manifest db)) ->
  archivable KEY_MAX VAL_MAX LEVELS TABLES CAP ARENA BLOOM_BYTES db (live_block (db_manifest db)) contents ->
  sound db' base bs tlog contents -> tables (db_manifest db) !! pos = Some t -> same_rest db db' ->
  tables (db_manifest db') = base.delete pos (tables (db_manifest db)) ->
  (forall k v, v ∈ views db -> safe db contents t k v) ->
  (forall k, covers t k = false -> reads_as db' h k) /\
  forall decomp k view buf, length decomp = BLOCK -> view ∈ views db -> spec_read (E := E) h k buf view 0 = Ok (None, buf) ->
    exists c, get_at (E := E) VAL_MAX LEVELS BLOOM_BYTES false db' decomp k buf view = Some (set_cache db' c, Ok (None, buf)).
Proof.
  intros Hlv Ht Hn Hav Hs' Hp Hsr Htab Hsafe. pose proof (list_elem_of_lookup_2 _ _ _ Hp) as Hin.
  assert (Forall (fun t => node_id t = own_node db') (tables (db_manifest db'))) as Hnodes.
  { pose proof (lv_nodes _ _ _ _ _ _ _ _ _ Hlv) as Hall. rewrite Forall_forall in Hall. unfold own_node in *. destruct Hsr as (_ & -> & _).
    apply Forall_forall. intros t' Ht'. rewrite Htab in Ht'. apply Hall. by eapply list_elem_of_delete_inv. }
  split.
  - intros k Hc decomp buf mx now Hd. destruct (sound_get db' base bs tlog contents decomp k buf mx now Hs' Hnodes Hd) as (c & r & Eg & Hr). exists c.
    destruct (removed_sees db db' contents pos t k mx Hn Hp Hsr Htab) as [P1 C1]. destruct (outside_sees db contents t k mx Hc Hn Hin) as [P2 C2].
    rewrite Eg. do 2 f_equal. eapply (living_answers _ _ _ _ _ _ _ db contents h k buf mx now r Hlv Ht).
    eapply reads_ext; [| | exact Hr]; intros x; [rewrite <- P2; apply P1 | rewrite <- C2; apply C1].
  - intros decomp k view buf Hd Hv Hspec. destruct (sound_get db' base bs tlog contents decomp k buf view 0 Hs' Hnodes Hd) as (c & r & Eg & Hr). exists c.
    unfold get_at. rewrite Eg. do 2 f_equal. destruct (removed_sees db db' contents pos t k view Hn Hp Hsr Htab) as [P1 C1].
    assert (gone db contents (others db t) k view) as Hg.
    { apply (Hsafe k view Hv). apply (finds_none_spec (E := E) _ _ buf). rewrite <- Hspec. by apply spec_reads. }
    eapply reads_ext in Hr; [| apply P1 | apply C1]. eapply finds_none_all; [| | exact Hg | exact Hr].
    + intros a b Ha Hb. apply (av_agree _ _ _ _ _ _ _ _ _ _ Hav k view); by apply (others_point db contents t).
    + eapply orderly_sub; [apply (sb_order _ _ _ _ _ _ _ _ _ _ (rv_scan _ _ _ _ _ _ _ _ _ _ (av_rev _ _ _ _ _ _ _ _ _ _ Hav)) k view) |].
      intros x [(a & Ha & Ea) | Hc]; [left; exists a; split; [by apply (others_point db contents t) | done] | right; by apply (others_cover db contents t)].
Qed.
End living.

(** C11 Archiving a table never brings a deleted key back.  On every handle a life of the
    database reaches (one open and no compaction, as in [database_refines_model]),
    [archive_commit] returns without a panic.  [Ok false] means the
    level has no such table, and nothing changed.  On an error (the review's refusal, a
    tombstone that is no key pair of the table, the sequence counter, the device) the
    tables are the same and every read answers as before.  On [Ok true] exactly the named
    table is gone from the manifest and its slot is free; keys outside its bounds read as
    before; and every key that the history says is deleted or absent, in the live view or
    at a snapshot, in reads without a clock, still reads as absent, though the table's
    point and range tombstones went with it.  (The review probes without a clock, so
    what an expired version hides is not protected: [archive_reveals_below_expired].) *)
Theorem archive_never_resurrects {D E} `{Dev : !BlockDevice D E} {Laws : DeviceLaws D E}
  (KEY_MAX VAL_MAX CAP ARENA LEVELS TABLES BLOOM_BYTES : nat) (db : Db D) h decomp lv id
  (Hsh : table_shape (D := D) (E := E) KEY_MAX VAL_MAX CAP ARENA LEVELS TABLES BLOOM_BYTES)
  (Hl : life KEY_MAX VAL_MAX CAP ARENA LEVELS TABLES BLOOM_BYTES db h) (Hd : length decomp = BLOCK) :
  exists db' r, archive_commit (E := E) KEY_MAX VAL_MAX LEVELS TABLES BLOOM_BYTES db decomp lv id = Some (db', r) /\
  match r with
  | Ok true => exists t, t ∈ level_refs (db_manifest db) lv /\ t_id t = id /\
      (forall t', t' ∈ tables (db_manifest db') <-> t' ∈ tables (db_manifest db) /\ t_id t' <> id) /\
      (exists s, db_slot_of db t = Some s /\ status_of (db_slots db') s = Free) /\
      (forall k, covers t k = false -> reads_as (E := E) VAL_MAX LEVELS BLOOM_BYTES db' h k) /\
      (forall k view buf, view ∈ views db -> spec_read (E := E) h k buf view 0 = Ok (None, buf) ->
        exists c, get_at (E := E) VAL_MAX LEVELS BLOOM_BYTES false db' decomp k buf view = Some (set_cache db' c, Ok (None, buf)))
  | Ok false => db' = db /\ archive_plan LEVELS db lv id = None
  | Err e => tables (db_manifest db') = tables (db_manifest db) /\ (forall k, reads_as (E := E) VAL_MAX LEVELS BLOOM_BYTES db' h k) /\
      (e = WouldResurrect id \/ (exists b, e = CorruptBlock b) \/ e = CounterExhausted \/ exists de, e = Device de)
  end.
Proof.
  pose proof (life_living _ _ _ _ _ _ _ Hsh db h Hl) as Hlv.
  destruct (living_archivable _ _ _ _ _ _ _ Hsh db h Hlv) as (base & bs & tlog & contents & Hs & Ht & Hav).
  pose proof (sh_block (ts_db Hsh)) as Hb. assert (HB : (49 <= BLOCK)%nat) by lia.
  unfold archive_commit, ensure_open. rewrite (di_open _ _ _ _ (sd_inv Hs)).
  destruct (archive_plan LEVELS db lv id) as [plan |] eqn:Ep; [| by exists db, (Ok false)].
  unfold archive_plan, level in Ep. destruct (LEVELS <=? lv)%nat eqn:El; [done |]. apply Nat.leb_gt in El. cbn [mbind option_bind] in Ep.
  destruct (List.find _ _) as [t |] eqn:Ef; [| done]. injection Ep as <-. cbn [ap_table].
  destruct (find_some _ _ Ef) as [Hin%list_elem_of_In Eid%Z.eqb_eq]. subst id.
  assert (t ∈ tables (db_manifest db)) as Htt.
  { apply (elem_of_levels KEY_MAX LEVELS TABLES); [| eauto]. destruct (sd_manifest Hs) as [T HT]. exists T. apply HT. }
  destruct (review_step KEY_MAX VAL_MAX LEVELS TABLES CAP ARENA BLOOM_BYTES HB (ts_bloom Hsh) db _ contents Hav decomp Hd t Htt) as (r & Hy & Hr).
  destruct (sound_read _ _ _ _ _ _ _ db base bs tlog contents _ r Hs Hy) as (c & -> & Hs1).
  assert (same_rest db (set_cache db c)) as Hsr1 by done.
  pose proof (kept_reads _ _ _ _ _ _ _ Hsh db) as Hkeep. destruct r as [[] | e].
  2: { eexists _, _. split; [reflexivity |]. split_and!; [done | intros k; by eapply Hkeep |]. destruct Hr as [-> | ->]; eauto. }
  destruct (archive_reviewed_step _ _ _ _ _ _ _ Hsh (set_cache db c) base bs tlog contents lv t Hs1 El Ef) as (db' & r & -> & Hsr2 & Hs2 & Hres).
  exists db', r. split; [done |]. assert (same_rest db db') as Hsr by (by eapply same_rest_trans). destruct r as [[] | e]; [| done |].
  - destruct Hres as [(pos & Hp & Htab) Hfree]. pose proof (sd_unique Hs) as Hn.
    destruct (removed_reads _ _ _ _ _ _ _ Hsh db db' h base bs tlog contents pos t Hlv Ht Hn Hav Hs2 Hp Hsr Htab Hr) as [Hout Hgone].
    exists t. split_and!; auto. intros t'. rewrite Htab. by apply elem_of_removed.
  - destruct Hres as [Em Herr]. split_and!; [by rewrite Em | intros k; by eapply Hkeep | tauto].
Qed.

(** ** A deleted key, with its value and its tombstone in two tables *)

Module ArchiveWitness.
Import LifeWitness.
#[local] Existing Instance LifeWitness.dev.
#[local] Existing Instance LifeWitness.dev_laws.

(** After the flushed put of [lf_db3] (table 0), a delete of the key, flushed (table 1). *)
Definition aw_delete : db_call := DDelete [97%Z].
Definition aw_db1 : Db MemDisk.disk := (run_db_call (E := Empty_set) 4 4 8 64 lf_db3 aw_delete).1.
Definition aw_db2 : Db MemDisk.disk := (flush (E := Empty_set) 4 2 2 8 aw_db1).1.
Definition aw_history : list Entry := [mkEntry [97%Z] [] 2 true false 0; mkEntry [97%Z] [1%Z] 1 false false 0].
Definition aw_decomp : bytes := replicate 512 0%Z.
Definition aw_buf : bytes := replicate 4 0%Z.

Lemma aw_life1 : life (E := Empty_set) 4 4 8 64 2 2 8 aw_db1 aw_history.
Proof.
  apply (life_write 4 4 8 64 2 2 8 lf_db3 _ aw_delete aw_db1 (Ok 2%Z)); [apply lf_life3 | cbn; repeat constructor; unfold fits; lia |].
  unfold aw_db1. apply Wal.WalWitness.pair_snd. vm_compute. reflexivity.
Qed.

Lemma aw_life2 : life (E := Empty_set) 4 4 8 64 2 2 8 aw_db2 aw_history.
Proof.
  eapply (life_flush 4 4 8 64 2 2 8 aw_db1 _ aw_db2 (Ok tt)); [apply aw_life1 |].
  unfold aw_db2. apply Wal.WalWitness.pair_snd. vm_compute. reflexivity.
Qed.

Definition aw_archive (id : u32) := archive_commit (E := Empty_set) 4 4 2 2 8 aw_db2 aw_decomp 0 id.

(** The tombstone's table is refused; the value's may go, and the key stays deleted. *)
Lemma archive_never_resurrects_witness :
  (snd <$> aw_archive 1) = Some (Err (WouldResurrect 1)) /\
  exists db', aw_archive 0 = Some (db', Ok true) /\
    (exists c, get_at (E := Empty_set) 4 2 8 false db' aw_decomp [97%Z] aw_buf U64_MAX = Some (set_cache db' c, Ok (None, aw_buf))) /\
    exists c, get_at (E := Empty_set) 4 2 8 false db' aw_decomp [98%Z] aw_buf U64_MAX = Some (set_cache db' c, Ok (None, aw_buf)).
Proof.
  split; [vm_compute; reflexivity |].
  destruct (archive_never_resurrects (E := Empty_set) 4 4 8 64 2 2 8 aw_db2 aw_history aw_decomp 0 0 lf_shape aw_life2
    ltac:(exact (length_replicate 512 0%Z))) as (db' & r & Er & Hres).
  assert (snd <$> aw_archive 0 = Some (Ok true)) as Hok by (vm_compute; reflexivity).
  unfold aw_archive in *. rewrite Er in Hok. cbn in Hok. injection Hok as ->.
  destruct Hres as (t & _ & _ & _ & _ & _ & Hgone). exists db'. split; [exact Er |].
  split; apply Hgone; first [left | vm_compute; reflexivity].
Defined.
End ArchiveWitness.

(** ** An expired version is not a tombstone *)

(** The review probes tombstones only, and without time.  A version that has expired
    reads as missing and hides the versions below it; when its table is archived the
    older one reads again. *)
Module ArchiveExpired.
Import LifeWitness ArchiveWitness.
#[local] Existing Instance LifeWitness.dev.

(** The flushed put of [lf_db3], and a newer put that expires at 100, flushed. *)
Definition ax_db : Db MemDisk.disk :=
  (flush (E := Empty_set) 4 2 2 8 (run_db_call (E := Empty_set) 4 4 8 64 lf_db3 (DPutTtl [97%Z] [2%Z] 100)).1).1.

Definition ax_read (db : Db MemDisk.disk) (now : u64) := snd <$> get_with_time (E := Empty_set) 4 2 8 false db aw_decomp [97%Z] aw_buf now.

Example archive_reveals_below_expired :
  ax_read ax_db 200 = Some (Ok (None, aw_buf)) /\
  match archive_commit (E := Empty_set) 4 4 2 2 8 ax_db aw_decomp 0 1 with
  | Some (db, r) => r = Ok true /\ ax_read db 200 = Some (Ok (Some 1%nat, [1; 0; 0; 0]%Z))
  | None => False
  end.
Proof. vm_compute. done. Qed.
End ArchiveExpired.
