(* ===== verification/Invariants.v ===== *)
(** * The self-check decides the documented invariants: [src/db/invariants.rs]

    What [check_invariants] of [Archive] accepts.  The check folds the tables into a mask
    of the slots it met and compares bit counts; here its answer is shown to be exactly
    the list of invariants its documentation gives. *)

From stdpp Require Import base numbers list sets.
From Stdlib Require Import ZArith Lia Sorting.Sorted.
From S2P Require Import Prelude Device Slots Manifest ManifestPool ManifestCodec Db DbOpen DbFlushSafe DbLife Compact Archive.

(** ** Bit counts *)

(** The bits that are set, ascending. *)
Definition set_bits (x : u64) : list Z := Z.of_nat <$> List.filter (fun i => Z.testbit x (Z.of_nat i)) (seq 0 64).

Lemma count_set_bits x : count_ones x = Z.of_nat (length (set_bits x)).
Proof. unfold count_ones, set_bits. by rewrite length_fmap. Qed.

Lemma elem_set_bits x s : s ∈ set_bits x <-> (0 <= s < 64)%Z /\ Z.testbit x s = true.
Proof.
  unfold set_bits. rewrite list_elem_of_fmap. split.
  - intros (i & -> & Hi%list_elem_of_In%filter_In). destruct Hi as [Hi%in_seq Hb]. split; [lia | done].
  - intros [Hs Hb]. exists (Z.to_nat s). split; [lia |]. apply list_elem_of_In, filter_In. rewrite in_seq, Z2Nat.id by lia.
    split; [lia | done].
Qed.

Lemma set_bits_nodup x : NoDup (set_bits x).
Proof.
  unfold set_bits. apply NoDup_fmap_2; [intros a b; lia |]. apply NoDup_ListNoDup, List.NoDup_filter, List.seq_NoDup.
Qed.

(** Distinct set bits are all of them exactly when there are as many. *)
Lemma count_exact x ss :
  NoDup ss -> (forall s, s ∈ ss -> s ∈ set_bits x) ->
  count_ones x = Z.of_nat (length ss) <-> forall s, s ∈ set_bits x -> s ∈ ss.
Proof.
  intros Hnd Hsub. rewrite count_set_bits. split.
  - intros Hc s Hs. assert (ss ≡ₚ set_bits x) as ->; [| done].
    apply submseteq_length_Permutation; [by apply NoDup_submseteq | lia].
  - intros Hsup. f_equal. apply Permutation_length, NoDup_Permutation; [apply set_bits_nodup | done |]. naive_solver.
Qed.

Lemma length_at_most_one {A} (l : list A) : NoDup l -> length l <= 1 <-> forall a b, a ∈ l -> b ∈ l -> a = b.
Proof.
  intros Hnd. split.
  - destruct l as [|x [|y l]]; cbn; [set_solver | set_solver | lia].
  - intros Hall. destruct l as [|x [|y l]]; cbn; [lia | lia |].
    rewrite (Hall x y) in Hnd by set_solver. apply NoDup_cons in Hnd as [[] _]. set_solver.
Qed.

(** The mask after the slots [ss] were met. *)
Definition mask (seen : u64) (ss : list Z) : u64 := fold_left (fun x s => Z.lor x (Z.shiftl 1 s)) ss seen.

Lemma mask_bits ss : forall seen i, Forall (fun s => (0 <= s)%Z) ss -> (0 <= i)%Z ->
  Z.testbit (mask seen ss) i = Z.testbit seen i || bool_decide (i ∈ ss).
Proof.
  induction ss as [|s ss IH]; intros seen i Hss Hi; cbn; [by rewrite orb_false_r |].
  inversion Hss; subst. unfold mask in IH. rewrite IH by done. fold (bit s). rewrite testbit_set by done.
  rewrite <- orb_assoc. f_equal. destruct (Z.eqb_spec i s) as [-> | Hn]; cbn.
  - symmetry. apply bool_decide_eq_true. set_solver.
  - apply bool_decide_ext. set_solver.
Qed.

Lemma count_mask ss : NoDup ss -> Forall (fun s => (0 <= s < 64)%Z) ss -> count_ones (mask 0 ss) = Z.of_nat (length ss).
Proof.
  intros Hnd Hss. pose proof (proj1 (Forall_forall _ _) Hss) as Hr.
  assert (Forall (fun s => (0 <= s)%Z) ss) as Hp by (eapply Forall_impl; [exact Hss | cbn; intros; lia]).
  apply count_exact; [done | |]; intros s; rewrite elem_set_bits.
  - intros Hs. specialize (Hr s Hs); cbn in Hr. split; [done |]. rewrite mask_bits, Z.bits_0 by (done || lia). by apply bool_decide_eq_true.
  - intros [? Hb]. rewrite mask_bits, Z.bits_0 in Hb by (done || lia). by apply bool_decide_eq_true in Hb.
Qed.

(** ** The invariants *)

Section invariants_exact.
  Context {D E : Type} `{Dev : !BlockDevice D E}.
  Context (KEY_MAX LEVELS TABLES : nat).
  Implicit Types db : Db D.

(** Disjoint key ranges. *)
Definition apart (t u : TableRef) : Prop :=
  ranges_overlap (Manifest.first_key t) (Manifest.last_key t) (Manifest.first_key u) (Manifest.last_key u) = false.

Record fine_table db (t : TableRef) : Prop := {
  ft_tail : is_Some (data_blocks t);
  ft_seqs : (0 < entry_count t)%Z -> (t_min_seq t <= t_max_seq t)%Z;
  ft_counter : (t_max_seq t <= next_seq db)%Z;
}.

Record invariants_hold db : Prop := {
  ih_slots : Forall (fun t => is_Some (db_slot_of db t)) (tables (db_manifest db));
  ih_own : NoDup (db_slot_of db <$> tables (db_manifest db));
  ih_used : forall s, (0 <= s)%Z ->
    status_of (db_slots db) s = Used <-> exists t, t ∈ tables (db_manifest db) /\ db_slot_of db t = Some s;
  ih_reserved : forall s s', (0 <= s)%Z -> (0 <= s')%Z ->
    status_of (db_slots db) s = Reserved -> status_of (db_slots db) s' = Reserved -> job_active db = true /\ s = s';
  ih_disjoint : forall lv, 1 <= lv < LEVELS -> StronglySorted apart (level_refs (db_manifest db) lv);
  ih_tables : Forall (fine_table db) (tables (db_manifest db));
  ih_floors : (flushed_seq (db_manifest db) <= next_seq db)%Z /\ (seq_high (db_manifest db) <= next_seq db)%Z;
  ih_fits : (Z.of_nat (encoded_blocks LEVELS KEY_MAX BLOCK (db_manifest db)) <= max_blocks LEVELS TABLES KEY_MAX BLOCK)%Z;
}.

(** ** The walk over the tables *)

Lemma slot_in_range m f b s : Slots.wf m -> slot_of m f b = Some s -> (0 <= s < slots m)%Z.
Proof.
  intros Hm. unfold slot_of. destruct ((slot_blocks m =? 0)%Z || (f <? base m)%Z || (b =? 0)%Z) eqn:E1; [done |].
  apply orb_false_iff in E1 as [[E1 E2]%orb_false_iff _].
  destruct (slots m <=? _)%Z eqn:E3; [done |]. destruct (checked_add64 f b) as [e|]; [| done].
  destruct (e <=? _)%Z; [| done]. intros [= <-]. destruct Hm. split; [| lia]. apply Z.div_pos; lia.
Qed.

Definition seats db (ts : list TableRef) (ss : list Z) : Prop :=
  Forall2 (fun t s => db_slot_of db t = Some s /\ Slots.is_used (db_slots db) s = true) ts ss.

(** What a walk over [ts] has checked. *)
Record walked db (seen : u64) (ts : list TableRef) (ss : list Z) (seen' : u64) : Prop := {
  wk_seats : seats db ts ss;
  wk_own : NoDup ss;
  wk_fresh : Forall (fun s => Z.testbit seen s = false) ss;
  wk_fine : Forall (fine_table db) ts;
  wk_mask : seen' = mask seen ss;
}.

Lemma seats_range db ts ss : Slots.wf (db_slots db) -> seats db ts ss -> Forall (fun s => (0 <= s < 64)%Z) ss.
Proof.
  intros Hw Hs. eapply Forall2_Forall_r; [exact Hs |]. apply Forall_forall. intros t _ s [Ht _].
  apply slot_in_range in Ht; [| done]. destruct Hw as [[_ ?]]. unfold MAX_SLOTS in *. lia.
Qed.

Lemma walked_nil db seen ss seen' : walked db seen [] ss seen' <-> ss = [] /\ seen' = seen.
Proof.
  split.
  - intros [Hs _ _ _ ->]. by apply Forall2_nil_inv_l in Hs as ->.
  - intros [-> ->]. split; [constructor | constructor | constructor | constructor | done].
Qed.

Lemma walked_cons db seen t ts ss seen' (Hw : Slots.wf (db_slots db)) :
  walked db seen (t :: ts) ss seen' <->
  exists s ss1, ss = s :: ss1 /\ db_slot_of db t = Some s /\ Slots.is_used (db_slots db) s = true /\
    Z.testbit seen s = false /\ fine_table db t /\ walked db (Z.lor seen (Z.shiftl 1 s)) ts ss1 seen'.
Proof.
  split.
  - intros [Hs Ho Hf Hi ->]. apply Forall2_cons_inv_l in Hs as (s & ss1 & [Ht Hu] & Hs & ->).
    apply NoDup_cons in Ho as [Hn Ho]. apply Forall_cons in Hf as [Hf0 Hf]. apply Forall_cons in Hi as [Hi0 Hi].
    pose proof (slot_in_range _ _ _ _ Hw Ht) as Hr. pose proof (seats_range _ _ _ Hw Hs) as Hrs.
    exists s, ss1. repeat split_and!; try done. split; try done.
    apply Forall_forall. intros x Hx. rewrite Forall_forall in Hf, Hrs. specialize (Hf x Hx). specialize (Hrs x Hx). cbn in Hf, Hrs.
    fold (bit s). rewrite testbit_set, Hf by lia. cbn. apply Z.eqb_neq. by intros ->.
  - intros (s & ss1 & -> & Ht & Hu & Hb & Hi & [Hs Ho Hf Hi' ->]).
    pose proof (slot_in_range _ _ _ _ Hw Ht) as Hr. pose proof (seats_range _ _ _ Hw Hs) as Hrs.
    assert (forall x, x ∈ ss1 -> Z.testbit seen x = false /\ x <> s) as Hnew.
    { intros x Hx. rewrite Forall_forall in Hf, Hrs. specialize (Hf x Hx). specialize (Hrs x Hx). cbn in Hf, Hrs.
      fold (bit s) in Hf. rewrite testbit_set in Hf by lia. by apply orb_false_iff in Hf as [? ?%Z.eqb_neq]. }
    split; [by constructor | | | by constructor | done].
    + constructor; [| done]. intros Hin. by apply Hnew in Hin as [].
    + constructor; [done |]. apply Forall_forall. intros x Hx. by apply Hnew.
Qed.

Lemma walked_app db ts ts' (Hw : Slots.wf (db_slots db)) : forall seen ss seen',
  walked db seen (ts ++ ts') ss seen' <->
  exists ss1 ss2 mid, ss = ss1 ++ ss2 /\ walked db seen ts ss1 mid /\ walked db mid ts' ss2 seen'.
Proof.
  induction ts as [|t ts IH]; intros seen ss seen'; cbn [app].
  - setoid_rewrite walked_nil. split; [intros H; by exists [], ss, seen | by intros (? & ? & ? & -> & [-> ->] & H)].
  - rewrite walked_cons by done. setoid_rewrite IH. setoid_rewrite walked_cons; [| done]. split.
    + intros (s & ? & -> & Ht & Hu & Hb & Hi & ss1 & ss2 & mid & -> & H1 & H2). exists (s :: ss1), ss2, mid.
      split; [done |]. split; [by exists s, ss1 | done].
    + intros (? & ss2 & mid & -> & (s & ss1 & -> & Ht & Hu & Hb & Hi & H1) & H2). exists s, (ss1 ++ ss2).
      repeat split_and!; try done. by exists ss1, ss2, mid.
Qed.

Lemma overlaps_none t ts :
  Forall (apart t) ts <->
  existsb (fun u => ranges_overlap (Manifest.first_key t) (Manifest.last_key t) (Manifest.first_key u) (Manifest.last_key u)) ts = false.
Proof.
  induction ts as [|u ts IH]; cbn [existsb]; [by split |]. by rewrite Forall_cons, orb_false_iff, IH.
Qed.

(** One level. *)
Lemma level_walk db li ts (Hw : Slots.wf (db_slots db)) : forall seen seen',
  check_level_tables db li seen ts = Ok seen' <->
  (exists ss, walked db seen ts ss seen') /\ (1 <= li -> StronglySorted apart ts).
Proof.
  induction ts as [|t ts IH]; intros seen seen'; cbn [check_level_tables].
  - setoid_rewrite walked_nil. split; [intros [= ->]; split; [by exists [] | constructor] | by intros [(ss & -> & ->) _]].
  - setoid_rewrite walked_cons; [| done]. split.
    + destruct (db_slot_of db t) as [s|] eqn:Es; [| done]. pose proof (slot_in_range _ _ _ _ Hw Es) as Hr.
      fold (bit s). rewrite land_bit_zero, negb_involutive by lia.
      destruct (Z.testbit seen s) eqn:Hb; [done |]. destruct (Slots.is_used _ s) eqn:Hu; [| done]. cbn [negb].
      destruct (data_blocks t) as [n|] eqn:Hd; [| done].
      destruct ((0 <? entry_count t)%Z && _) eqn:Hq; [done |]. destruct (next_seq db <? _)%Z eqn:Hn; [done |].
      destruct ((1 <=? li) && _) eqn:Ho; [done |]. intros [[ss Hss] Hsort]%IH. split.
      * exists (s :: ss), s, ss. repeat split_and!; try done. split; [done | | lia].
        apply andb_false_iff in Hq. lia.
      * intros Hli. constructor; [by apply Hsort |]. apply andb_false_iff in Ho as [Ho | Ho]; [apply Nat.leb_gt in Ho; lia |].
        by apply overlaps_none.
    + intros [(? & s & ss & -> & Ht & Hu & Hb & [[n Hd] Hq Hn] & Hs) Hsort].
      pose proof (slot_in_range _ _ _ _ Hw Ht) as Hr. fold (bit s) in Hs |- *. rewrite Ht, land_bit_zero, Hb, Hu, Hd by lia. cbn [negb].
      destruct (Z.ltb_spec 0 (entry_count t)) as [H0|]; cbn [andb]; [rewrite (proj2 (Z.ltb_ge _ _)) by auto |];
        rewrite (proj2 (Z.ltb_ge _ _)) by done.
      all: destruct (Nat.leb_spec 1 li) as [Hli|]; cbn [andb]; [apply StronglySorted_inv in Hsort as [? Ha]; [| done];
        rewrite (proj1 (overlaps_none t ts) Ha) |]; apply IH; split; eauto; lia.
Qed.
(** All levels. *)
Lemma levels_walk db lvls (Hw : Slots.wf (db_slots db)) : forall seen seen', Forall (fun li => li < LEVELS) lvls ->
  check_all_levels LEVELS db seen lvls = Ok seen' <->
  (exists ss, walked db seen (concat (level_refs (db_manifest db) <$> lvls)) ss seen') /\
  Forall (fun li => 1 <= li -> StronglySorted apart (level_refs (db_manifest db) li)) lvls.
Proof.
  induction lvls as [|li lvls IH]; intros seen seen' HL; cbn [check_all_levels fmap list_fmap concat].
  - setoid_rewrite walked_nil. split; [intros [= ->]; split; [by exists [] | constructor] | by intros [(ss & -> & ->) _]].
  - apply Forall_cons in HL as [Hl HL]. unfold level at 1. rewrite (proj2 (Nat.leb_gt _ _)) by done. cbn [default].
    setoid_rewrite walked_app; [| done]. rewrite Forall_cons. split.
    + destruct (check_level_tables _ _ _ _) as [mid|] eqn:E1; cbn beta iota; [| done].
      apply level_walk in E1 as [[ss1 H1] Hs1]; [| done]. intros [[ss2 H2] Hs2]%IH; [| done].
      split; [| done]. by exists (ss1 ++ ss2), ss1, ss2, mid.
    + intros [(? & ss1 & ss2 & mid & -> & H1 & H2) [Hs1 Hs2]].
      rewrite (proj2 (level_walk db li _ Hw seen mid)) by eauto. cbn beta iota. apply IH; eauto.
Qed.

Lemma tables_concat m : length (counts m) = LEVELS -> concat (level_refs m <$> seq 0 LEVELS) = tables m.
Proof.
  intros HL. assert (forall n, n <= LEVELS -> concat (level_refs m <$> seq 0 n) = take (start m n) (pool m)) as H.
  { induction n as [|n IH]; intros Hn; [done |].
    rewrite seq_S, fmap_app, concat_app, IH by lia. cbn [fmap list_fmap concat Nat.add]. rewrite app_nil_r.
    destruct (lookup_lt_is_Some_2 (counts m) n) as [c Hc]; [lia |].
    assert (start m (S n) = start m n + count_at m n) as ->.
    { unfold start, count_at. rewrite (take_S_r _ _ c), (nth_lookup_Some _ _ _ _ Hc), sum_list_with_app by done. cbn. lia. }
    unfold level_refs, sub. by rewrite take_take_drop. }
  rewrite H by done. unfold tables, live, start. by rewrite <- HL, firstn_all.
Qed.
(** ** The bitmaps *)

Lemma used_bit m s : Slots.wf m -> (0 <= s)%Z -> status_of m s = Used <-> s ∈ set_bits (used m).
Proof.
  intros Hw Hs. rewrite elem_set_bits. unfold status_of. pose proof (fun H => bits_high m s Hw H) as Hh.
  destruct (Z.testbit (used m) s) eqn:Eu; [| destruct (Z.testbit (reserved m) s); (split; [done | by intros []])].
  destruct (Z.ltb_spec s 64) as [|H64]; [done |]. destruct (Hh H64). congruence.
Qed.

Lemma reserved_bit m s : Slots.wf m -> (0 <= s)%Z -> status_of m s = Reserved <-> s ∈ set_bits (reserved m).
Proof.
  intros Hw Hs. rewrite elem_set_bits. unfold status_of. pose proof (fun H => bits_high m s Hw H) as Hh.
  pose proof (wf_disjoint m Hw s Hs) as Hd.
  destruct (Z.testbit (reserved m) s) eqn:Er; [| destruct (Z.testbit (used m) s); (split; [done | by intros []])].
  destruct (Z.testbit (used m) s) eqn:Eu; [by destruct Hd |].
  destruct (Z.ltb_spec s 64) as [|H64]; [done |]. destruct (Hh H64). congruence.
Qed.

Lemma is_used_bit m s : Slots.wf m -> (0 <= s < slots m)%Z -> Slots.is_used m s = true <-> status_of m s = Used.
Proof.
  intros Hw Hs. unfold Slots.is_used, status_of. rewrite (proj2 (Z.ltb_lt _ _)), land_bit_zero, negb_involutive by lia. cbn.
  by destruct (Z.testbit (used m) s), (Z.testbit (reserved m) s).
Qed.

Lemma reserved_count db : Slots.wf (db_slots db) ->
  (reserved_slots (db_slots db) <= if job_active db then 1 else 0)%Z <->
  forall s s', (0 <= s)%Z -> (0 <= s')%Z ->
    status_of (db_slots db) s = Reserved -> status_of (db_slots db) s' = Reserved -> job_active db = true /\ s = s'.
Proof.
  intros Hw. unfold reserved_slots. rewrite count_set_bits. pose proof (set_bits_nodup (reserved (db_slots db))) as Hnd.
  pose proof (fun s => proj1 (elem_set_bits (reserved (db_slots db)) s)) as Hin. split.
  - intros Hc s s' H0 H0' Hs Hs'. rewrite reserved_bit in Hs, Hs' by done.
    destruct (job_active db); [split; [done |]; eapply (proj1 (length_at_most_one _ Hnd)); [lia | done | done] |].
    destruct (set_bits _); [by apply not_elem_of_nil in Hs | cbn in Hc; lia].
  - intros H. assert (forall a b, a ∈ set_bits (reserved (db_slots db)) -> b ∈ set_bits (reserved (db_slots db)) -> job_active db = true /\ a = b) as Ha.
    { intros a b Ha Hb. destruct (Hin a Ha) as [? _], (Hin b Hb) as [? _]. apply H; try lia; apply reserved_bit; (done || lia). }
    destruct (job_active db).
    + enough (length (set_bits (reserved (db_slots db))) <= 1) by lia. apply length_at_most_one; [done |]. intros a b ??. by apply Ha.
    + destruct (set_bits _) as [|a l]; [done |]. by destruct (Ha a a (list_elem_of_here a l) (list_elem_of_here a l)).
Qed.
(** ** The check *)

Lemma seats_slots db ts ss : seats db ts ss -> db_slot_of db <$> ts = Some <$> ss.
Proof. induction 1 as [|t s ts ss [Ht _] _ IH]; cbn; [done | by rewrite Ht, IH]. Qed.

Lemma seats_elem db ts ss : seats db ts ss -> forall s, s ∈ ss <-> exists t, t ∈ ts /\ db_slot_of db t = Some s.
Proof.
  intros Hs%seats_slots s. rewrite <- (list_elem_of_fmap_inj Some), <- Hs, list_elem_of_fmap by apply _. naive_solver.
Qed.

Lemma seats_exist db ts : Forall (fun t => exists s, db_slot_of db t = Some s /\ Slots.is_used (db_slots db) s = true) ts ->
  exists ss, seats db ts ss.
Proof. induction 1 as [|t ts [s Hs] _ [ss IH]]; [exists []; constructor | exists (s :: ss); by constructor]. Qed.

Lemma used_count m : used_slots m = count_ones (used m).
Proof. reflexivity. Qed.

Lemma seats_used db ts ss s : Slots.wf (db_slots db) -> seats db ts ss -> s ∈ ss -> s ∈ set_bits (used (db_slots db)).
Proof.
  intros Hw Hs He. pose proof (proj1 (seats_elem _ _ _ Hs s) He) as (t & Ht & Es).
  pose proof (slot_in_range _ _ _ _ Hw Es) as Hr. apply used_bit; [done | lia |]. apply is_used_bit; [done | done |].
  apply list_elem_of_lookup in Ht as [i Hi]. destruct (Forall2_lookup_l _ _ _ _ _ Hs Hi) as (s' & _ & Es' & Hu). congruence.
Qed.

(** What the tables and the used slots have to satisfy. *)
Definition seated db (ts : list TableRef) : Prop :=
  Forall (fun t => is_Some (db_slot_of db t)) ts /\ NoDup (db_slot_of db <$> ts) /\ Forall (fine_table db) ts /\
  forall s, (0 <= s)%Z -> status_of (db_slots db) s = Used <-> exists t, t ∈ ts /\ db_slot_of db t = Some s.

(** The walk from no slot seen, and the count of used slots after it. *)
Lemma walk_seated db ts ss seen : Slots.wf (db_slots db) ->
  walked db 0 ts ss seen -> used_slots (db_slots db) = count_ones seen -> seated db ts.
Proof.
  intros Hw [Hs Ho _ Hi ->] Hc. rewrite used_count in Hc.
  rewrite (count_mask ss Ho (seats_range _ _ _ Hw Hs)) in Hc.
  pose proof (proj1 (count_exact _ ss Ho (fun s => seats_used _ _ _ s Hw Hs)) Hc) as Hall.
  split; [| split; [| split; [done |]]].
  - eapply Forall2_Forall_l; [exact Hs |]. apply Forall_forall. intros s _ t [Ht _]. by exists s.
  - rewrite (seats_slots _ _ _ Hs). by apply NoDup_fmap_2; [apply _ |].
  - intros s H0. rewrite used_bit, <- (seats_elem _ _ _ Hs s) by done. split; [apply Hall | by apply (seats_used db ts)].
Qed.

Lemma seated_walk db ts : Slots.wf (db_slots db) -> seated db ts ->
  exists ss seen, walked db 0 ts ss seen /\ used_slots (db_slots db) = count_ones seen.
Proof.
  intros Hw (Hsome & Hnd & Hi & Hu). destruct (seats_exist db ts) as [ss Hs].
  { rewrite Forall_forall in Hsome |- *. intros t Ht. destruct (Hsome t Ht) as [s Es]. exists s. split; [done |].
    pose proof (slot_in_range _ _ _ _ Hw Es). apply is_used_bit; [done | done |]. apply Hu; [lia | by exists t]. }
  rewrite (seats_slots _ _ _ Hs) in Hnd. apply NoDup_fmap_1 in Hnd. exists ss, (mask 0 ss). split.
  - split; [done | done | | done | done]. apply Forall_forall. intros s _. apply Z.bits_0.
  - rewrite used_count, (count_mask ss Hnd (seats_range _ _ _ Hw Hs)).
    apply (count_exact _ ss Hnd (fun s => seats_used _ _ _ s Hw Hs)).
    intros s Hb. pose proof (proj1 (elem_set_bits _ _) Hb) as [? _]. apply (seats_elem _ _ _ Hs), Hu; [lia |].
    apply used_bit; (done || lia).
Qed.

Lemma check_exact db T : Slots.wf (db_slots db) -> man_ok LEVELS TABLES KEY_MAX (db_manifest db) T ->
  check_invariants KEY_MAX LEVELS TABLES db = Ok tt <-> invariants_hold db.
Proof.
  intros Hw Hm.
  assert (concat (level_refs (db_manifest db) <$> seq 0 LEVELS) = tables (db_manifest db)) as Et by (apply tables_concat; rewrite (pr_counts _ _ _ _ _ (mo_repr _ _ _ _ _ Hm)); by rewrite length_fmap, length_seq).
  assert (Forall (fun li => li < LEVELS) (seq 0 LEVELS)) as HL by (apply Forall_forall; intros i Hi%elem_of_seq; lia).
  unfold check_invariants. split.
  - destruct (check_all_levels _ _ _ _) as [seen|] eqn:E1; [| done]. cbn beta iota.
    apply (levels_walk db _ Hw 0 seen HL) in E1 as [[ss Hss] Hsort]. rewrite Et in Hss.
    destruct (Z.eqb_spec (used_slots (db_slots db)) (count_ones seen)) as [Hc|]; [| done]. cbn [negb].
    destruct (Z.ltb_spec (if job_active db then 1 else 0) (reserved_slots (db_slots db))) as [|Hr]; [done |].
    destruct (Z.ltb_spec (next_seq db) (flushed_seq (db_manifest db))) as [|Hf]; [done |].
    destruct (Z.ltb_spec (next_seq db) (seq_high (db_manifest db))) as [|Hh]; [done |]. cbn [orb].
    destruct (Z.ltb_spec (max_blocks LEVELS TABLES KEY_MAX BLOCK) (Z.of_nat (encoded_blocks LEVELS KEY_MAX BLOCK (db_manifest db)))) as [|He]; [done |].
    intros _. destruct (walk_seated _ _ _ _ Hw Hss Hc) as (? & ? & ? & ?).
    split; try done; [by apply reserved_count | intros lv Hlv].
    rewrite Forall_forall in Hsort. apply Hsort; [apply elem_of_seq; lia | lia].
  - intros []. destruct (seated_walk db (tables (db_manifest db)) Hw) as (ss & seen & Hss & Hc); [by repeat split_and! |].
    rewrite (proj2 (levels_walk db _ Hw 0 seen HL)); [| rewrite Et; split; [by exists ss |]]; cbn beta iota.
    + rewrite Hc, Z.eqb_refl. cbn [negb].
      rewrite (proj2 (Z.ltb_ge _ _)) by by apply reserved_count.
      destruct ih_floors0. rewrite !(proj2 (Z.ltb_ge _ _)) by done. done.
    + apply Forall_forall. intros i Hi%elem_of_seq Hi1. apply ih_disjoint0. lia.
Qed.
(** Tables in slots of their own share no block. *)
Lemma slots_apart db t u s s' : Slots.wf (db_slots db) -> ref_ok KEY_MAX t -> ref_ok KEY_MAX u ->
  db_slot_of db t = Some s -> db_slot_of db u = Some s' -> s <> s' ->
  (first_block t + block_count t <= first_block u)%Z \/ (first_block u + block_count u <= first_block t)%Z.
Proof.
  intros Hw [] [] Ht Hu Hn. unfold fits in *. pose proof (wf_blocks _ Hw).
  apply slot_of_spec in Ht as (? & _ & ? & ?); [| done | lia | lia].
  apply slot_of_spec in Hu as (? & _ & ? & ?); [| done | lia | lia]. unfold slot_base in *.
  destruct (Z.lt_ge_cases s s'); [left | right]; nia.
Qed.

Lemma own_blocks db T i j t u : Slots.wf (db_slots db) -> man_ok LEVELS TABLES KEY_MAX (db_manifest db) T -> invariants_hold db ->
  tables (db_manifest db) !! i = Some t -> tables (db_manifest db) !! j = Some u -> i <> j ->
  (first_block t + block_count t <= first_block u)%Z \/ (first_block u + block_count u <= first_block t)%Z.
Proof.
  intros Hw Hm [Hsome Hnd _ _ _ _ _ _] Hi Hj Hne. pose proof (tables_ref_ok _ _ Hm) as Hok.
  rewrite Forall_lookup in Hsome, Hok. destruct (Hsome _ _ Hi) as [s Hs], (Hsome _ _ Hj) as [s' Hs'].
  eapply slots_apart; eauto. intros <-. apply Hne. apply (NoDup_lookup _ i j (Some s) Hnd); rewrite list_lookup_fmap;
    [rewrite Hi | rewrite Hj]; cbn; congruence.
Qed.
End invariants_exact.


Module CheckWitness.
Import LifeWitness.
#[local] Existing Instance LifeWitness.dev.
#[local] Existing Instance LifeWitness.dev_laws.

(** The handle with its flushed table, and the same with the table's slot freed. *)
Definition ck_freed : Db MemDisk.disk := set_slots lf_db3 (Slots.free (db_slots lf_db3) 0) false 0.

Lemma slots_keep_manifest (db : Db MemDisk.disk) sl a i : db_manifest (set_slots db sl a i) = db_manifest db.
Proof. reflexivity. Qed.

Lemma ck_manifest : exists T, man_ok 2 2 4 (db_manifest lf_db3) T /\ man_ok 2 2 4 (db_manifest ck_freed) T.
Proof.
  unfold ck_freed. rewrite slots_keep_manifest.
  destruct (life_living (E := Empty_set) 4 4 8 64 2 2 8 lf_shape _ _ lf_life3) as [(base & bs & tlog & contents & Hs & _) _ _ _].
  destruct Hs as [_ _ _ _ _ _ _ [T HT] _ _ _ _ _ _]. by exists T.
Qed.

End CheckWitness.
